(* ===== verification/_CoqProject ===== *)
-Q . S2P
Prelude.v
Bytes.v
Text.v
TextOps.v
IpAddress.v
WampTypes.v
RawFrame.v
Msgpack.v
DemoSerde.v
MsgpackMessage.v
WampValues.v
Cbor.v
Json.v
CborScanner.v
FbSchema.v
FbWire.v
FbRead.v
FbProjection.v
FbCodec.v
FbEncoder.v
FbRoundtrip.v
WampParse.v
FbWriter.v
FbSegments.v
IoStream.v
Handshake.v
RouterConfig.v
HttpRoutes.v
HttpAuth.v
HttpFraming.v
HttpReader.v
HttpBody.v
HttpHead.v
FileSender.v
WireWriter.v
HttpResponse.v
Negotiation.v
HttpConnection.v
RawSocketFrames.v
WsMask.v
WsFrame.v
OutboundFrame.v
WsMessage.v
WsMessageWire.v
Readers.v
FileSegments.v
WsHandshake.v
Writers.v
Handles.v
OwnedBuffers.v
Leases.v
Mqtt.v
Heartbeat.v
Registry.v
FfiErrors.v
BinaryArguments.v
WireElements.v
Forwarding.v
ForwardRoundtrip.v
DemoForward.v
ForwardedMessages.v
ForwardOutcomes.v
E2ee.v
E2eeSessions.v
E2eeBuffers.v
Sha256.v
Sha256Runs.v
WriteReceipts.v
ForwardHandlers.v
NativeFrames.v
