(* ===== verification/Prelude.v ===== *)
(** * Connectanum native transport: a verification library

    The program is the native WAMP transport of connectanum-dart, the Rust
    crates under [src/native/transport]: [ct_core] accepts and dials
    connections, negotiates RawSocket and WebSocket sessions, frames and parses
    WAMP messages in four encodings, and sends them; [ct_ffi] hands its
    connections, messages and buffers to Dart as integer handles.  This library
    translates the parts below into Rocq definitions and proves what makes them
    correct.

    ** Conventions

    - a Rust result is an [outcome]: [Ok], [Err], [Panic] for an index out of
      range or a failed [unwrap], [NoFuel] for an exhausted recursion budget of
      the model, which theorems exclude;
    - octets, lengths and machine integers are [Z], with the wrap-around or the
      overflow check of the source written out; a Rust string is the list of its
      scalar values ([Text]);
    - a socket is the script of what its reads and writes will meet ([IoStream],
      [WireWriter]); a stalled await is a value ([SPending], [Stalled]), and a
      timeout is what becomes of it;
    - shared state is a record; what happens in one critical section or one
      atomic instruction is one function, and theorems about several threads or
      tasks quantify over every interleaving of those functions;
    - [serde_json], [rmp_serde], [serde_cbor], [base64], [httparse] and the
      builder of [flatbuffers] are not part of the repository: they are the
      classes [SerdeLib] (WampTypes), [Base64Lib] (FileSegments), [HttpParseLib]
      (HttpFraming) and [FlatBufferLib] (FbWriter), [sha1] and the reason phrases
      of the [http] crate the classes [WsCrypto] (WsHandshake) and [StatusLib]
      (HttpResponse), [rmp], the writers of [serde_json] and [serde_cbor], the two
      ciphers and the digest the classes [RmpLib] (Forwarding), [AeadLib] (E2ee)
      and [DigestLib] (Sha256), with the little the code relies on as laws
      ([ForwardLaws], [JsonArrays], [CborStandIns], [AeadLaws], [DigestLaws]);
      the decoding of the configuration document is the
      parameter [from_slice] of RouterConfig, and the case tables of Unicode,
      data of the standard library, are the class [UnicodeCase] (TextOps).
      DemoSerde, DemoForward and the ends of the files give concrete instances for the
      witnesses.

    ** Parts

    Shared: Prelude (outcomes, traversals, the tactics [inv_ok] and
    [solve_returns], the hint database [returns]), Bytes, Text, TextOps (the
    operations of [str]), IpAddress (the standard library's address parser).

    Parsing, [ct_core/src/wamp.rs]:
    - WampTypes, RawFrame: the message type, payloads and the raw frame of one
      or several segments with [frame_len], [read_byte], [slice_or_copy];
    - Msgpack: [msgpack_skip_value] and its readers, against the MessagePack
      grammar; MsgpackMessage: [parse_msgpack_message], all its arms;
    - Cbor: the array header, the element ranges, the segmented reader and
      [parse_cbor_message]; WampValues: the parsers over decoded values;
    - Json: [parse_json_message] with its slicing by address;
    - WampParse: [parse_message_frame], [parse_message_segments];
    - CborScanner ([wamp/flatbuffers_cbor.rs]): the bounded check of embedded
      CBOR, against a CBOR grammar with the depth, size and key limits;
    - FbSchema, FbWire ([wamp/flatbuffers_schema.rs], [flatbuffers_wire.rs]): the
      schema as data and the reader it drives; FbRead: a plain decoder and the
      typing of what it gives, which the reader agrees with;
    - FbProjection, FbCodec ([flatbuffers_projection.rs], [flatbuffers_codec.rs]):
      the agreement of typed fields with the CBOR metadata, and the parser of
      FlatBuffers messages;
    - FbEncoder ([flatbuffers_encoder.rs]): the fields of a message and the
      check of its dictionary; FbWriter ([flatbuffers_writer.rs]): the bounded
      walk that hands them to the builder; FbRoundtrip: the lemmas behind the
      round trip; FbSegments: the vectors left out of an envelope and joined
      behind it, and [compose_segments].

    Streams and sessions:
    - IoStream ([io_stream.rs]): reads behind a replayed prefix;
    - Handshake ([rawsocket.rs]): [negotiate] and [connect];
    - RawSocketFrames, WsMask, WsFrame ([lib.rs]): frame headers, masking, frame
      readers and writers, close payloads; WsMessage: message assembly and the
      buffer pool; WsMessageWire: written messages against their assembly;
    - RouterConfig ([config.rs]): the validation of endpoints and what they are
      at run time; HttpRoutes: which route answers a request and the procedure it
      calls; HttpAuth ([lib.rs]): a route's transport requirements;
    - HttpFraming, HttpReader ([protocol.rs], [http1_stream.rs]): the framing
      headers of an HTTP/1 request and the reader of heads and bodies; HttpHead:
      header lines, written and parsed; HttpBody ([http_body.rs]): the queue of a
      streamed request body and its reading task; HttpResponse ([protocol.rs],
      [lib.rs], [http_stream.rs]): heads, buffered and chunked responses;
      HttpConnection ([lib.rs]): the loop over a connection's requests;
    - Negotiation ([protocol.rs]): what a connection's first octets make of it,
      [negotiate_connection]; WsHandshake ([lib.rs]): both ends of the WebSocket
      upgrade;
    - Readers: the reader tasks; Writers: the writer tasks with the receipts of
      [write_completion.rs]; OutboundFrame: what is queued for them;
    - FileSender, FileSegments: file ranges sent by [sendfile], or buffered,
      base64-encoded and masked;
    - Heartbeat: the ping task; Mqtt: the queues, wakeups and writers of MQTT
      connections;
    - Registry: [ListenerRegistry]'s table of connections, its calls, and the
      registrations interleaved with the tasks they spawn.

    The C boundary, [ct_ffi/src/runtime]:
    - Handles ([resource_handles.rs], [message_handles.rs], [state.rs]): handle
      allocation under concurrency, narrow and wide message handles; the class
      [IdCounter] is what a counter promises, with its two instances;
    - OwnedBuffers ([owned_buffers.rs]): mutable, frozen and reserved storage,
      refining a store of byte strings;
    - Leases ([external_leases.rs], [external_lease_ffi.rs]): foreign memory on
      loan, quotas, and callbacks on the owner's thread;
    - FfiErrors ([constants.rs], [map_error]): the status codes;
    - BinaryArguments ([ffi.rs]): the one binary argument of a payload, found,
      read and wrapped, against the grammar of each encoding;
    - Forwarding ([ffi.rs]): what a router makes of a stored message, per kind
      and encoding; WireElements: the arrays it sends, read as elements;
      ForwardRoundtrip: the laws of the writers and what a payload arrives as;
      ForwardedMessages, ForwardOutcomes: the message a receiver parses, and the
      errors; ForwardHandlers: the [ct_forward] functions and the eligibility
      queries, over the message handles and the connection table;
    - E2ee ([ffi.rs]): both ciphers, messages decrypted in place or in a copy,
      encrypted files; E2eeSessions ([state.rs], [ffi.rs]): key rings and sessions
      behind handles, against a log of keys, and the decryption that consumes a
      message; E2eeBuffers: encryption from one owned buffer into another;
    - Sha256 ([ffi.rs]): digest states, their background threads with the bounded
      queue and the exported functions as machines that interleave; Sha256Runs:
      the invariant of every run and its end;
    - WriteReceipts ([write_receipts.rs]): stores with a quota, under
      interleavings, receipts behind handles and the sends that answer with one;
      NativeFrames ([native_frames.rs]): frames composed of retained buffers.

    ** What is shown

    - Round trips: a frame or message that a writer sends is what the peer's
      reader posts, for RawSocket sessions, WebSocket messages (any split, mask
      and segmentation), frames and file frames; a message encoded as
      FlatBuffers parses to itself.
    - Equivalence with a grammar or a standard: the MessagePack scanner, the
      CBOR gate, the FlatBuffers reader, the check of a metadata dictionary, the
      CBOR array header, RFC 6455 masking and message assembly.
    - Parsing: it always returns, an accepted message is an array of whole
      items, and its payload is the exact octets of its elements; fragmented and
      contiguous input agree; FlatBuffers fields that contradict their
      metadata are refused.
    - Configuration: endpoints are accepted exactly when consistent, their
      runtime view is well formed, a request is answered by its most specific
      route, and a path cannot leave its route's namespace.
    - HTTP/1: a request head is accepted exactly when its body's length is
      unambiguous, and the reader takes exactly the head and the body it
      announces, however the octets are split; a response, buffered or streamed,
      is read back as it was dispatched, and an aborted stream is never taken
      for a whole one.  A streamed body reaches its consumer whole and in order
      under every interleaving, and no waiting consumer is forgotten.
    - Negotiation: a connection gets only a protocol that its endpoint serves and
      its octets announce, and loses none of them; the ends of a WebSocket
      handshake agree.
    - Accounting: writers send whole frames in order and their receipts say
      written exactly for those; readers end; limits are enforced; MQTT queues
      stay within their bounds and lose no wakeup.
    - Concurrency: handles never alias or return, leases are released exactly
      once on the owner's thread and within quota, closed owners and connections
      stay closed.
    - Refinement: owned buffers, message assembly and pending HTTP requests
      implement their abstract specification; a served HTTP connection is a
      session of requests, one response to each in their order, and never takes
      a request out of a body; key rings are logs of the keys added to them;
      digests are those of the octets given, whichever thread computes them.
    - Forwarding: what a router forwards parses to the message it means, in the
      receiver's encoding; it is refused exactly where that encoding cannot carry
      the payload, as the query announced; a refusal changes nothing.
    - Native frames and receipts: a frame is sent once, with the segments that
      were composed, and a refused send leaves no frame, receipt or place; quotas
      hold under every interleaving and no error loses a place.
    - Encryption: what a session sealed it opens, with any calls in between that
      spare its key; a file is sealed to the announced length; a message is
      consumed once, and its plaintext does not depend on who shares its buffer.
    - Digests: no call waits forever on the bounded queue or the thread, and
      every run ends.

    ** Fuel and bounds

    Recursions that are not structural carry a budget computed from the input:
    [read_fuel] and [write_fuel] are the nesting limit of a FlatBuffers table,
    64, and one; the check of a dictionary has a round per value in it;
    [msgpack_fuel] and [scan_fuel] allow two calls per octet, readers one round
    per octet that arrived ([head_fuel], [read_body], [header_block_loop]), the
    [serve_loop] one per request or octet, [drain_body] one per octet, the
    remaining length of MQTT its four digits, a streamed response a round per
    event of its stream ([run_chunks]), writers and loops over chunks one round per chunk or
    octet left.  [msgpack_skip_value] has no bound of its own, so its fuel is a
    function of the message's length.

    ** Not modelled

    - [flatbuffers_generated.rs] is used by tests only.
    - HTTP/2 and HTTP/3 gateways, TLS, kernel TLS, the allocator hooks: glue
      over h2, h3, quinn, rustls and libc.  Connections of these protocols
      appear in Registry with their handshakes as type parameters.
    - Deadlines: a timeout is met only where an await stalls; how long one lasts
      is not part of the model.
    - The MQTT WebSocket reader: its frames and queues are modelled (WsFrame,
      Mqtt), the loop that joins them is not.
    - The other functions of [ffi.rs] copy fields into structs of C or pass a
      call on to [ct_core]; memory safety of the pointers is not part of the
      model, whose arguments are what a pointer points to.
    - Vectored writes of [IoStream], the macOS [sendfile] variant.
    - Benchmarks and vendored crates. *)

From stdpp Require Export base tactics numbers option list strings pretty.
From Stdlib Require Export ZArith Lia.

#[global] Open Scope Z_scope.

(** ** Outcomes

    Rust code either returns [Ok], returns [Err], or panics (an index out of
    bounds, a failed [unwrap]).  [NoFuel] marks an exhausted recursion budget
    of the model; theorems show it is never reached. *)
Inductive outcome (E A : Type) : Type :=
  | Ok (a : A)
  | Err (e : E)
  | Panic
  | NoFuel.
Arguments Ok {E A} a.
Arguments Err {E A} e.
Arguments Panic {E A}.
Arguments NoFuel {E A}.

#[global] Instance outcome_ret E : MRet (outcome E) := λ A a, Ok a.
#[global] Instance outcome_bind E : MBind (outcome E) := λ A B f o,
  match o with
  | Ok a => f a
  | Err e => Err e
  | Panic => Panic
  | NoFuel => NoFuel
  end.
#[global] Instance outcome_fmap E : FMap (outcome E) := λ A B f o,
  match o with
  | Ok a => Ok (f a)
  | Err e => Err e
  | Panic => Panic
  | NoFuel => NoFuel
  end.

#[global] Instance outcome_eq_dec E A `{EqDecision E} `{EqDecision A} :
  EqDecision (outcome E A).
Proof. solve_decision. Defined.

(** [Result::map_err] *)
Definition map_err {E F A} (f : E → F) (o : outcome E A) : outcome F A :=
  match o with
  | Ok a => Ok a
  | Err e => Err (f e)
  | Panic => Panic
  | NoFuel => NoFuel
  end.

(** [Option::ok_or] *)
Definition ok_or {E A} (e : E) (o : option A) : outcome E A :=
  match o with Some a => Ok a | None => Err e end.

(** [Option<Result<T, E>>::transpose] after [Option::map] *)
Definition traverse_opt {E A B} (f : A → outcome E B) (o : option A) :
    outcome E (option B) :=
  match o with
  | None => Ok None
  | Some a => b ← f a; Ok (Some b)
  end.

(** An iterator loop whose body may fail: stops at the first failure. *)
Fixpoint traverse_list {E A B} (f : A → outcome E B) (l : list A) :
    outcome E (list B) :=
  match l with
  | [] => Ok []
  | a :: l => b ← f a; bs ← traverse_list f l; Ok (b :: bs)
  end.

(** The arms of a [match] split over several definitions: the first that
    applies, or the default arm. *)
Definition first_some {A} (l : list (option A)) (d : A) : A :=
  match list_find is_Some l with Some (_, Some a) => a | _ => d end.

Lemma first_some_cases {A} (P : A → Prop) (l : list (option A)) d :
  (∀ o, Some o ∈ l → P o) → (Forall (λ x, x = None) l → P d) → P (first_some l d).
Proof.
  unfold first_some. intros H1 H2.
  destruct (list_find is_Some l) as [[i [o|]]|] eqn:E.
  - apply list_find_Some in E as (E & _ & _). by apply H1, (list_elem_of_lookup_2 _ i).
  - by apply list_find_Some in E as (_ & [? ?] & _).
  - apply H2. apply list_find_None in E. eapply Forall_impl; [done|].
    intros x Hx. by apply eq_None_not_Some.
Qed.

Lemma first_some_None {A} (l : list (option A)) d : first_some (None :: l) d = first_some l d.
Proof.
  unfold first_some. cbn [list_find]. destruct (decide (is_Some None)) as [[? ?]|_]; [done|].
  by destruct (list_find is_Some l) as [[i [a|]]|].
Qed.
Lemma first_some_Some {A} (a : A) l d : first_some (Some a :: l) d = a.
Proof.
  unfold first_some. cbn [list_find]. destruct (decide (is_Some (Some a))) as [_|[]]; [done|by eexists].
Qed.

(** The computation ran to a Rust result, [Ok] or [Err]. *)
Definition returns {E A} (o : outcome E A) : Prop :=
  match o with Ok _ | Err _ => True | Panic | NoFuel => False end.

Lemma returns_bind {E A B} (o : outcome E A) (f : A → outcome E B) :
  returns o → (∀ a, o = Ok a → returns (f a)) → returns (o ≫= f).
Proof. destruct o; simpl; intros Ho Hf; auto. Qed.

Lemma returns_ok_or {E A} (e : E) (o : option A) : returns (ok_or e o).
Proof. by destruct o. Qed.

Lemma returns_map_err {E F A} (f : E → F) (o : outcome E A) :
  returns o → returns (map_err f o).
Proof. by destruct o. Qed.

Lemma returns_traverse_list {E A B} (f : A → outcome E B) l :
  Forall (λ a, returns (f a)) l → returns (traverse_list f l).
Proof.
  induction 1 as [|a l Ha _ IH]; simpl; [done|].
  apply returns_bind; [done|]. intros b _. by apply returns_bind.
Qed.

Lemma returns_traverse_opt {E A B} (f : A → outcome E B) o :
  (∀ a, o = Some a → returns (f a)) → returns (traverse_opt f o).
Proof.
  intros H. destruct o as [a|]; simpl; [|done].
  apply returns_bind; [by apply H|done].
Qed.

Lemma bind_Ok_inv {E A B} (o : outcome E A) (f : A → outcome E B) b :
  o ≫= f = Ok b → ∃ a, o = Ok a ∧ f a = Ok b.
Proof. destruct o; simpl; intros; simplify_eq; eauto. Qed.

Lemma fmap_Ok_inv {E A B} (f : A → B) (o : outcome E A) b :
  f <$> o = Ok b → ∃ a, o = Ok a ∧ b = f a.
Proof. destruct o; simpl; intros; simplify_eq; eauto. Qed.

Lemma map_err_Ok_inv {E F A} (f : E → F) (o : outcome E A) a :
  map_err f o = Ok a → o = Ok a.
Proof. destruct o; simpl; intros; by simplify_eq. Qed.

Lemma ok_or_Ok_inv {E A} (e : E) (o : option A) a :
  ok_or e o = Ok a → o = Some a.
Proof. destruct o; simpl; intros; by simplify_eq. Qed.

Lemma bind_ext {E A B} (o : outcome E A) (f g : A → outcome E B) :
  (∀ a, o = Ok a → f a = g a) → o ≫= f = o ≫= g.
Proof. destruct o; simpl; auto. Qed.

Lemma traverse_list_ext {E A B} (f g : A → outcome E B) l :
  Forall (λ a, f a = g a) l → traverse_list f l = traverse_list g l.
Proof. induction 1 as [|a l Ha _ IH]; simpl; [done|]. by rewrite Ha, IH. Qed.

(** ** Computations over a state *)

(** A computation that reads and writes an [S] and ends in an [outcome]. *)
Definition stateful (S E A : Type) : Type := S → outcome E A * S.

#[global] Instance stateful_ret S E : MRet (stateful S E) := λ A a s, (Ok a, s).
#[global] Instance stateful_bind S E : MBind (stateful S E) := λ A B f m s,
  match m s with
  | (Ok a, s) => f a s
  | (Err e, s) => (Err e, s)
  | (Panic, s) => (Panic, s)
  | (NoFuel, s) => (NoFuel, s)
  end.

Definition stateful_fail {S E A} (e : E) : stateful S E A := λ s, (Err e, s).

Lemma stateful_bind_run {S E A B} (m : stateful S E A) (f : A → stateful S E B) s a s' :
  m s = (Ok a, s') → (m ≫= f) s = f a s'.
Proof. unfold mbind, stateful_bind. by intros ->. Qed.

Lemma stateful_bind_ok {S E A B} (m : stateful S E A) (f : A → stateful S E B) s b s' :
  (m ≫= f) s = (Ok b, s') → ∃ a s1, m s = (Ok a, s1) ∧ f a s1 = (Ok b, s').
Proof. unfold mbind, stateful_bind. destruct (m s) as [[a|e| |] s1]; [eauto|done..]. Qed.

(** Splits a hypothesis [m ≫= f = Ok x] (and its kin) into its steps. *)
Ltac inv_ok :=
  repeat match goal with
  | H : Ok _ = Ok _ |- _ => injection H as H; subst
  | H : Err _ = Ok _ |- _ => discriminate H
  | H : Panic = Ok _ |- _ => discriminate H
  | H : NoFuel = Ok _ |- _ => discriminate H
  | H : mret _ = Ok _ |- _ => injection H as H; subst
  | H : mbind _ _ = Ok _ |- _ =>
      let a := fresh "a" in let Ha := fresh "Ha" in
      apply bind_Ok_inv in H as (a & Ha & H); simpl in H
  | H : fmap _ _ = Ok _ |- _ =>
      let a := fresh "a" in let Ha := fresh "Ha" in
      apply fmap_Ok_inv in H as (a & Ha & H)
  | H : map_err _ _ = Ok _ |- _ => apply map_err_Ok_inv in H
  | H : ok_or _ _ = Ok _ |- _ => apply ok_or_Ok_inv in H
  end.

Create HintDb returns.
#[export] Hint Resolve returns_ok_or returns_map_err : returns.
#[export] Hint Extern 1 (returns (Ok _)) => exact I : returns.
#[export] Hint Extern 1 (returns (Err _)) => exact I : returns.
#[export] Hint Extern 2 (returns (mret _)) => exact I : returns.

(** Walks through a monadic body, discharging each [returns] obligation with
    the [returns] hint database. *)
Ltac solve_returns :=
  repeat first
    [ progress intros
    | exact I
    | solve [eauto 4 with returns]
    | match goal with
      | |- returns (mbind _ _) => apply returns_bind
      | |- returns (map_err _ _) => apply returns_map_err
      | |- returns (traverse_opt _ _) => apply returns_traverse_opt
      | |- returns (match ?x with _ => _ end) => destruct x eqn:?
      | |- returns ((λ _, _) _) => cbv beta
      | |- returns (let _ := _ in _) => cbv zeta
      end ].
