(* ===== verification/Bytes.v ===== *)
(** * Bytes, indices and big-endian integers

    Buffers are lists of octets held as [Z]; every index and length is a [Z],
    as the code's [usize] is 64 bits wide and never negative.  [byte_at] is
    [slice.get(i)], [sub_bytes] is an in-bounds range, [slice_bytes] is the
    panicking range index. *)
From S2P Require Import Prelude.

Definition u8_ok (b : Z) : Prop := 0 ≤ b < 256.
Definition bytes_ok (l : list Z) : Prop := Forall u8_ok l.

#[global] Instance u8_ok_dec b : Decision (u8_ok b).
Proof. unfold u8_ok. apply _. Defined.

(** The length of a buffer as [usize]. *)
Definition zlen {A} (l : list A) : Z := Z.of_nat (length l).

(** [slice.get(i)] *)
Definition byte_at {A} (l : list A) (i : Z) : option A :=
  if (0 <=? i) && (i <? zlen l) then l !! Z.to_nat i else None.

(** [s..e] of a buffer, for ranges known to be in bounds. *)
Definition sub_bytes {A} (l : list A) (s e : Z) : list A :=
  take (Z.to_nat (e - s)) (drop (Z.to_nat s) l).

(** [&buf[s..e]]: panics unless [s <= e <= buf.len()]. *)
Definition slice_bytes {E A} (l : list A) (s e : Z) : outcome E (list A) :=
  if (0 <=? s) && (s <=? e) && (e <=? zlen l) then Ok (sub_bytes l s e) else Panic.

(** ** Lengths and slices *)
Lemma zlen_nil {A} : zlen (@nil A) = 0.
Proof. done. Qed.
Lemma zlen_cons {A} (x : A) l : zlen (x :: l) = 1 + zlen l.
Proof. unfold zlen. simpl. lia. Qed.
Lemma zlen_app {A} (l k : list A) : zlen (l ++ k) = zlen l + zlen k.
Proof. unfold zlen. rewrite length_app. lia. Qed.
Lemma zlen_nonneg {A} (l : list A) : 0 ≤ zlen l.
Proof. unfold zlen. lia. Qed.
Lemma zlen_replicate {A} n (x : A) : zlen (replicate n x) = Z.of_nat n.
Proof. unfold zlen. by rewrite length_replicate. Qed.
Lemma zlen_fmap {A B} (f : A → B) l : zlen (f <$> l) = zlen l.
Proof. unfold zlen. by rewrite length_fmap. Qed.
Lemma zlen_take {A} n (l : list A) : zlen (take n l) = Z.min (Z.of_nat n) (zlen l).
Proof. unfold zlen. rewrite length_take. lia. Qed.
Lemma zlen_drop {A} n (l : list A) : zlen (drop n l) = Z.max 0 (zlen l - Z.of_nat n).
Proof. unfold zlen. rewrite length_drop. lia. Qed.
Lemma zlen_0_nil {A} (l : list A) : zlen l = 0 → l = [].
Proof. destruct l; [done|]. rewrite zlen_cons. pose proof (zlen_nonneg l). lia. Qed.

Create Rewrite HintDb zlen.
#[export] Hint Rewrite @zlen_nil @zlen_cons @zlen_app @zlen_replicate @zlen_fmap
  @zlen_take @zlen_drop : zlen.

(** Arithmetic on lengths: normalises [zlen], adds non-negativity, calls [lia]. *)
Ltac zlen_facts :=
  repeat match goal with
  | |- context [zlen ?l] =>
      lazymatch goal with
      | _ : 0 ≤ zlen l |- _ => fail
      | _ => pose proof (zlen_nonneg l)
      end
  | _ : context [zlen ?l] |- _ =>
      lazymatch goal with
      | _ : 0 ≤ zlen l |- _ => fail
      | _ => pose proof (zlen_nonneg l)
      end
  end.
Ltac zlia := autorewrite with zlen in *; zlen_facts; lia.

(** [lia] with division and modulo by constants. *)
Ltac dmlia := Z.to_euclidean_division_equations; lia.

Lemma zlen_sub_bytes {A} (l : list A) s e :
  0 ≤ s → s ≤ e → e ≤ zlen l → zlen (sub_bytes l s e) = e - s.
Proof. intros. unfold sub_bytes. zlia. Qed.

Lemma byte_at_Some {A} (l : list A) i x :
  byte_at l i = Some x ↔ 0 ≤ i ∧ l !! Z.to_nat i = Some x.
Proof.
  unfold byte_at. destruct (Z.leb_spec 0 i), (Z.ltb_spec i (zlen l)); simpl.
  - naive_solver.
  - split; [done|]. intros [_ Hl%lookup_lt_Some]. unfold zlen in *. lia.
  - naive_solver lia.
  - naive_solver lia.
Qed.

Lemma byte_at_is_Some {A} (l : list A) i :
  is_Some (byte_at l i) ↔ 0 ≤ i < zlen l.
Proof.
  unfold byte_at. destruct (Z.leb_spec 0 i), (Z.ltb_spec i (zlen l)); simpl;
    try (split; [by intros []|lia]).
  split; [lia|]. intros _. apply lookup_lt_is_Some. unfold zlen in *. lia.
Qed.

Lemma byte_at_None {A} (l : list A) i :
  byte_at l i = None ↔ i < 0 ∨ zlen l ≤ i.
Proof.
  rewrite eq_None_not_Some, byte_at_is_Some. lia.
Qed.

Lemma byte_at_app_r {A} (l k : list A) i :
  0 ≤ i → byte_at (l ++ k) (zlen l + i) = byte_at k i.
Proof.
  intros Hi. apply option_eq. intros x. rewrite !byte_at_Some.
  rewrite lookup_app_r by (unfold zlen; lia).
  replace (Z.to_nat (zlen l + i) - length l)%nat with (Z.to_nat i)
    by (unfold zlen; lia).
  pose proof (zlen_nonneg l). naive_solver lia.
Qed.

Lemma byte_at_app_l {A} (l k : list A) i :
  i < zlen l → byte_at (l ++ k) i = byte_at l i.
Proof.
  intros Hi. apply option_eq. intros x. rewrite !byte_at_Some.
  destruct (decide (0 ≤ i)); [|naive_solver].
  rewrite lookup_app_l by (unfold zlen in *; lia). done.
Qed.

Lemma byte_at_ok l i b : bytes_ok l → byte_at l i = Some b → u8_ok b.
Proof.
  intros Hl [_ Hb]%byte_at_Some. by eapply Forall_lookup_1 in Hb.
Qed.

Lemma sub_bytes_full {A} (l : list A) : sub_bytes l 0 (zlen l) = l.
Proof.
  unfold sub_bytes, zlen. rewrite drop_0. apply take_ge. lia.
Qed.

Lemma sub_bytes_app_mid {A} (a b c : list A) :
  sub_bytes (a ++ b ++ c) (zlen a) (zlen a + zlen b) = b.
Proof.
  unfold sub_bytes. replace (Z.to_nat (zlen a)) with (length a) by (unfold zlen; lia).
  rewrite drop_app_length.
  replace (Z.to_nat (zlen a + zlen b - zlen a)) with (length b) by (unfold zlen; lia).
  apply take_app_length.
Qed.

Lemma sub_bytes_ok l s e : bytes_ok l → bytes_ok (sub_bytes l s e).
Proof. intros. unfold sub_bytes. by apply Forall_take, Forall_drop. Qed.

Lemma sub_bytes_nil {A} (l : list A) s e : e ≤ s → sub_bytes l s e = [].
Proof.
  intros. unfold sub_bytes. by replace (Z.to_nat (e - s)) with 0%nat by lia.
Qed.

(** Adjacent ranges join. *)
Lemma sub_bytes_join {A} (l : list A) a b c :
  0 ≤ a → a ≤ b → b ≤ c →
  sub_bytes l a b ++ sub_bytes l b c = sub_bytes l a c.
Proof.
  intros. unfold sub_bytes.
  replace (Z.to_nat b) with (Z.to_nat a + Z.to_nat (b - a))%nat by lia.
  rewrite <-drop_drop.
  replace (Z.to_nat (c - a)) with (Z.to_nat (b - a) + Z.to_nat (c - b))%nat by lia.
  set (k := drop (Z.to_nat a) l).
  by rewrite take_take_drop.
Qed.

Lemma sub_bytes_split {A} (l : list A) s e :
  0 ≤ s → s ≤ e → e ≤ zlen l →
  l = sub_bytes l 0 s ++ sub_bytes l s e ++ sub_bytes l e (zlen l).
Proof.
  intros. rewrite (sub_bytes_join l s e) by lia.
  rewrite sub_bytes_join by lia. by rewrite sub_bytes_full.
Qed.

(** Peels the first byte off a range. *)
Lemma sub_bytes_cons {A} (l : list A) s e b :
  byte_at l s = Some b → s < e → sub_bytes l s e = b :: sub_bytes l (s + 1) e.
Proof.
  intros [Hs Hb]%byte_at_Some He. unfold sub_bytes.
  rewrite (drop_S _ _ _ Hb).
  replace (Z.to_nat (e - s)) with (S (Z.to_nat (e - (s + 1)))) by lia. simpl.
  by replace (S (Z.to_nat s)) with (Z.to_nat (s + 1)) by lia.
Qed.

Lemma sub_bytes_sub {A} (l : list A) s e a b :
  0 ≤ s → 0 ≤ a → a ≤ b → b ≤ e - s →
  sub_bytes (sub_bytes l s e) a b = sub_bytes l (s + a) (s + b).
Proof.
  intros. unfold sub_bytes.
  rewrite skipn_firstn_comm, take_take, drop_drop.
  f_equal; [lia|]. f_equal. lia.
Qed.

Lemma sub_bytes_drop {A} (l : list A) s e k :
  0 ≤ s → 0 ≤ k → drop (Z.to_nat k) (sub_bytes l s e) = sub_bytes l (s + k) e.
Proof.
  intros. unfold sub_bytes. rewrite skipn_firstn_comm, drop_drop.
  f_equal; [lia|]. f_equal. lia.
Qed.

Lemma sub_bytes_take {A} (l : list A) s e k :
  0 ≤ s → 0 ≤ k → k ≤ e - s → take (Z.to_nat k) (sub_bytes l s e) = sub_bytes l s (s + k).
Proof. intros. unfold sub_bytes. rewrite take_take. f_equal. lia. Qed.

Lemma lookup_sub_bytes {A} (l : list A) s e i :
  0 ≤ s → 0 ≤ i → i < e - s → byte_at (sub_bytes l s e) i = byte_at l (s + i).
Proof.
  intros. apply option_eq. intros x. rewrite !byte_at_Some. unfold sub_bytes.
  rewrite lookup_take_lt, lookup_drop by lia.
  replace (Z.to_nat s + Z.to_nat i)%nat with (Z.to_nat (s + i)) by lia.
  naive_solver lia.
Qed.

Lemma slice_bytes_Ok {E A} (l : list A) s e r :
  slice_bytes (E:=E) l s e = Ok r →
  0 ≤ s ∧ s ≤ e ∧ e ≤ zlen l ∧ r = sub_bytes l s e.
Proof.
  unfold slice_bytes.
  destruct (Z.leb_spec 0 s), (Z.leb_spec s e), (Z.leb_spec e (zlen l)); simpl;
    intros; by simplify_eq.
Qed.

Lemma slice_bytes_in {E A} (l : list A) s e :
  0 ≤ s → s ≤ e → e ≤ zlen l → slice_bytes (E:=E) l s e = Ok (sub_bytes l s e).
Proof.
  intros. unfold slice_bytes.
  by rewrite !(proj2 (Z.leb_le _ _)) by lia.
Qed.

(** ** Case analysis over one octet *)
Definition all_u8 : list Z := Z.of_nat <$> seq 0 256.

Lemma u8_forall (P : Z → bool) :
  forallb P all_u8 = true → ∀ b, u8_ok b → P b = true.
Proof.
  intros H b [Hb0 Hb1]. rewrite forallb_forall in H. apply H.
  unfold all_u8. apply list_elem_of_In, list_elem_of_fmap.
  exists (Z.to_nat b). split; [lia|]. apply elem_of_seq. lia.
Qed.

(** Proves a decidable fact about every octet by evaluating it on all 256. *)
Ltac u8_decide H :=
  match type of H with
  | u8_ok ?b =>
      revert b H;
      match goal with
      | |- ∀ b, u8_ok b → @?P b =>
          let Q := constr:(λ b : Z, bool_decide (P b)) in
          intros b H; apply (bool_decide_unpack (P b));
          apply Is_true_eq_left, (u8_forall Q); [vm_compute; reflexivity|exact H]
      end
  end.

(** The [n] integers from [lo]. *)
Definition zrange (lo : Z) (n : nat) : list Z := (λ k, lo + Z.of_nat k) <$> seq 0 n.

Lemma elem_of_zrange lo n x : lo ≤ x < lo + Z.of_nat n → x ∈ zrange lo n.
Proof.
  intros Hx. unfold zrange. apply list_elem_of_fmap.
  exists (Z.to_nat (x - lo)). split; [lia|]. apply elem_of_seq. lia.
Qed.

Lemma forallb_elem {A} (p : A → bool) l x : forallb p l = true → x ∈ l → p x = true.
Proof. intros H Hx. rewrite forallb_forall in H. by apply H, list_elem_of_In. Qed.

(** ** Big-endian integers ([from_be_bytes] / [to_be_bytes]) *)
Definition be_value (l : list Z) : Z := foldl (λ acc b, acc * 256 + b) 0 l.

Fixpoint be_bytes (n : nat) (v : Z) : list Z :=
  match n with
  | O => []
  | S n => (v / 256 ^ Z.of_nat n) mod 256 :: be_bytes n v
  end.

Lemma length_be_bytes n v : length (be_bytes n v) = n.
Proof. induction n; simpl; congruence. Qed.
Lemma zlen_be_bytes n v : zlen (be_bytes n v) = Z.of_nat n.
Proof. unfold zlen. by rewrite length_be_bytes. Qed.
#[export] Hint Rewrite zlen_be_bytes : zlen.

Lemma be_bytes_ok n v : bytes_ok (be_bytes n v).
Proof.
  induction n; simpl; constructor; [|done].
  unfold u8_ok. apply Z.mod_pos_bound. lia.
Qed.

Lemma be_value_app l k : be_value (l ++ k) = be_value l * 256 ^ zlen k + be_value k.
Proof.
  unfold be_value. rewrite foldl_app. generalize (foldl (λ acc b, acc * 256 + b) 0 l).
  induction k as [|b k IH] using rev_ind; intros a;
    [change (zlen []) with 0; rewrite Z.pow_0_r; simpl; lia|].
  rewrite !foldl_app. simpl. rewrite IH. rewrite zlen_app.
  rewrite Z.pow_add_r by apply zlen_nonneg.
  change (256 ^ zlen [b]) with 256. lia.
Qed.

Lemma be_value_bound l : bytes_ok l → 0 ≤ be_value l < 256 ^ zlen l.
Proof.
  induction l as [|b l IH] using rev_ind; intros Hl; [done|].
  apply Forall_app in Hl as [Hl Hb]. apply Forall_inv in Hb.
  specialize (IH Hl). unfold u8_ok in Hb. rewrite be_value_app.
  change (256 ^ zlen [b]) with 256. rewrite zlen_app.
  rewrite Z.pow_add_r by apply zlen_nonneg.
  change (256 ^ zlen [b]) with 256. change (be_value [b]) with b. lia.
Qed.

Lemma be_value_bytes n v : 0 ≤ v → be_value (be_bytes n v) = v mod 256 ^ Z.of_nat n.
Proof.
  intros Hv. induction n as [|n IH]; [simpl; by rewrite Z.mod_1_r|].
  change (be_bytes (S n) v) with ([(v / 256 ^ Z.of_nat n) mod 256] ++ be_bytes n v).
  rewrite be_value_app, IH, zlen_be_bytes.
  change (be_value [?x]) with x.
  rewrite Nat2Z.inj_succ, Z.pow_succ_r by lia.
  rewrite (Z.mul_comm 256), Z.rem_mul_r by lia.
  unfold be_value; simpl. lia.
Qed.

Lemma be_value_bytes_small n v :
  0 ≤ v < 256 ^ Z.of_nat n → be_value (be_bytes n v) = v.
Proof. intros. rewrite be_value_bytes by lia. apply Z.mod_small. lia. Qed.

(** The code accumulates with [(value << 8) | byte]. *)
Lemma shl_or_byte acc b :
  0 ≤ acc → u8_ok b → Z.lor (Z.shiftl acc 8) b = acc * 256 + b.
Proof.
  intros Ha [Hb0 Hb1]. rewrite Z.shiftl_mul_pow2 by lia.
  assert (Z.land (acc * 2 ^ 8) b = 0) as Hland.
  { apply Z.bits_inj'; intros n Hn. rewrite Z.land_spec, Z.bits_0.
    destruct (decide (n < 8)).
    - by rewrite Z.mul_pow2_bits_low by lia.
    - replace b with (b mod 2 ^ 8) by (apply Z.mod_small; lia).
      by rewrite Z.mod_pow2_bits_high, andb_false_r by lia. }
  by rewrite <-Z.lxor_lor, <-Z.add_nocarry_lxor by done.
Qed.

(** The low [n] bits, and the bits above them, of an octet. *)
Lemma land_low b n : 0 ≤ n → Z.land b (Z.ones n) = b mod 2 ^ n.
Proof. intros. by apply Z.land_ones. Qed.
