(* ===== verification/Text.v ===== *)
(** * Rust strings

    A [str] is the list of its Unicode scalar values; [utf8_encode] gives the
    bytes [as_bytes] shows and [utf8_decode] is [std::str::from_utf8].  String
    literals of the source are written with [lit]. *)
From S2P Require Import Prelude Bytes.

Definition str : Type := list Z.

(** A [char]: a code point outside the surrogate range. *)
Definition char_ok (c : Z) : bool :=
  (0 <=? c) && (c <=? 0x10FFFF) && negb ((0xD800 <=? c) && (c <=? 0xDFFF)).
Definition str_ok (s : str) : Prop := Forall (λ c, char_ok c = true) s.

(** A Rust string literal (ASCII in this program). *)
Fixpoint lit (s : string) : str :=
  match s with
  | EmptyString => []
  | String a s => Z.of_N (Ascii.N_of_ascii a) :: lit s
  end.

(** ** UTF-8 *)
Definition utf8_char (c : Z) : list Z :=
  if c <? 0x80 then [c]
  else if c <? 0x800 then [0xC0 + c / 64; 0x80 + c mod 64]
  else if c <? 0x10000 then [0xE0 + c / 4096; 0x80 + c / 64 mod 64; 0x80 + c mod 64]
  else [0xF0 + c / 262144; 0x80 + c / 4096 mod 64; 0x80 + c / 64 mod 64; 0x80 + c mod 64].

Definition utf8_encode (s : str) : list Z := s ≫= utf8_char.

(** [str::len]: the number of UTF-8 bytes. *)
Definition str_len (s : str) : Z := zlen (utf8_encode s).

Definition cont_byte (b : Z) : bool := (0x80 <=? b) && (b <? 0xC0).

(** [std::str::from_utf8]: rejects stray continuation bytes, overlong forms,
    surrogates and code points above U+10FFFF. *)
Fixpoint utf8_decode (l : list Z) : option str :=
  match l with
  | [] => Some []
  | b0 :: l1 =>
      if (0 <=? b0) && (b0 <? 0x80) then cons b0 <$> utf8_decode l1
      else if (0xC2 <=? b0) && (b0 <? 0xE0) then
        match l1 with
        | b1 :: l2 =>
            if cont_byte b1 then
              cons ((b0 - 0xC0) * 64 + (b1 - 0x80)) <$> utf8_decode l2
            else None
        | _ => None
        end
      else if (0xE0 <=? b0) && (b0 <? 0xF0) then
        match l1 with
        | b1 :: b2 :: l3 =>
            let c := (b0 - 0xE0) * 4096 + (b1 - 0x80) * 64 + (b2 - 0x80) in
            if cont_byte b1 && cont_byte b2 && (0x800 <=? c) && char_ok c then
              cons c <$> utf8_decode l3
            else None
        | _ => None
        end
      else if (0xF0 <=? b0) && (b0 <? 0xF5) then
        match l1 with
        | b1 :: b2 :: b3 :: l4 =>
            let c := (b0 - 0xF0) * 262144 + (b1 - 0x80) * 4096
                     + (b2 - 0x80) * 64 + (b3 - 0x80) in
            if cont_byte b1 && cont_byte b2 && cont_byte b3
               && (0x10000 <=? c) && char_ok c then
              cons c <$> utf8_decode l4
            else None
        | _ => None
        end
      else None
  end.

Lemma char_ok_range c : char_ok c = true →
  0 ≤ c ≤ 0x10FFFF ∧ ¬ (0xD800 ≤ c ≤ 0xDFFF).
Proof. unfold char_ok. lia. Qed.

Lemma utf8_char_ok c : char_ok c = true → bytes_ok (utf8_char c).
Proof.
  intros Hc%char_ok_range. unfold utf8_char, bytes_ok, u8_ok.
  repeat case_match; rewrite ?Forall_cons, Forall_nil; repeat split; dmlia.
Qed.

Lemma utf8_encode_ok s : str_ok s → bytes_ok (utf8_encode s).
Proof.
  induction 1 as [|c s Hc _ IH]; [constructor|]. simpl.
  apply Forall_app. split; [by apply utf8_char_ok|done].
Qed.

(** Decides a closed boolean guard by arithmetic and rewrites with it. *)
Ltac guard_true := 
  match goal with
  | |- context [if ?b then _ else _] =>
      let H := fresh in assert (b = true) as H by (unfold cont_byte, char_ok in *; dmlia);
      rewrite H; clear H
  end.
Ltac guard_false := 
  match goal with
  | |- context [if ?b then _ else _] =>
      let H := fresh in assert (b = false) as H by (unfold cont_byte, char_ok in *; dmlia);
      rewrite H; clear H
  end.

Lemma utf8_decode_char c l : char_ok c = true →
  utf8_decode (utf8_char c ++ l) = cons c <$> utf8_decode l.
Proof.
  intros Hc. pose proof (char_ok_range c Hc) as [Hr Hs].
  unfold utf8_char.
  destruct (Z.ltb_spec c 0x80); [simpl; by guard_true|].
  destruct (Z.ltb_spec c 0x800); [|destruct (Z.ltb_spec c 0x10000)].
  - simpl. guard_false. guard_true. guard_true.
    do 2 f_equal. dmlia.
  - cbn [app utf8_decode].
    guard_false. guard_false. guard_true. cbv zeta.
    replace ((0xE0 + c / 4096 - 0xE0) * 4096 + (0x80 + c / 64 mod 64 - 0x80) * 64
             + (0x80 + c mod 64 - 0x80)) with c by dmlia.
    guard_true. done.
  - cbn [app utf8_decode].
    guard_false. guard_false. guard_false. guard_true. cbv zeta.
    replace ((0xF0 + c / 262144 - 0xF0) * 262144 + (0x80 + c / 4096 mod 64 - 0x80) * 4096
             + (0x80 + c / 64 mod 64 - 0x80) * 64 + (0x80 + c mod 64 - 0x80)) with c by dmlia.
    guard_true. done.
Qed.

(** A string's bytes decode to the string. *)
Lemma utf8_decode_encode s : str_ok s → utf8_decode (utf8_encode s) = Some s.
Proof.
  induction 1 as [|c s Hc _ IH]; [done|].
  change (utf8_encode (c :: s)) with (utf8_char c ++ utf8_encode s).
  rewrite utf8_decode_char by done. by rewrite IH.
Qed.

(** What decodes is made of scalar values. *)
Lemma utf8_decode_ok l s : utf8_decode l = Some s → str_ok s.
Proof.
  revert s. induction l as [l IH] using (well_founded_induction (Wf_nat.well_founded_ltof _ (@length Z))).
  unfold Wf_nat.ltof in IH. intros s. destruct l as [|b0 l1]; [intros [= <-]; constructor|].
  cbn [utf8_decode]. cbv zeta. repeat case_match; try done;
    intros (s' & Hs & ->)%fmap_Some; (constructor; [|eapply IH; [|exact Hs]; simpl; lia]);
    unfold char_ok, cont_byte in *; lia.
Qed.

Lemma utf8_encode_app s t : utf8_encode (s ++ t) = utf8_encode s ++ utf8_encode t.
Proof. apply bind_app. Qed.

(** ** [char] and [str] classes *)
Definition is_ascii_whitespace (c : Z) : bool :=
  (c =? 0x20) || (c =? 0x09) || (c =? 0x0A) || (c =? 0x0C) || (c =? 0x0D).

(** [char::is_whitespace]: the Unicode property White_Space. *)
Definition is_whitespace (c : Z) : bool :=
  ((0x09 <=? c) && (c <=? 0x0D)) || (c =? 0x20) || (c =? 0x85) || (c =? 0xA0)
  || (c =? 0x1680) || ((0x2000 <=? c) && (c <=? 0x200A)) || (c =? 0x2028)
  || (c =? 0x2029) || (c =? 0x202F) || (c =? 0x205F) || (c =? 0x3000).

Fixpoint drop_while {A} (p : A → bool) (l : list A) : list A :=
  match l with
  | [] => []
  | x :: l' => if p x then drop_while p l' else l
  end.

Definition trim_by (p : Z → bool) (s : str) : str :=
  rev (drop_while p (rev (drop_while p s))).

(** [str::trim] *)
Definition trim (s : str) : str := trim_by is_whitespace s.

Definition str_eqb (s t : str) : bool := bool_decide (s = t).

Lemma str_eqb_eq s t : str_eqb s t = true ↔ s = t.
Proof. unfold str_eqb. apply bool_decide_eq_true. Qed.
