(* ===== verification/TextOps.v ===== *)
(** * More of [str]: case, splitting and order

    The string operations that configuration and HTTP use.  The case mappings of
    Unicode are data of the standard library: they are the class [UnicodeCase],
    with what they do to ASCII. *)
From stdpp Require Import sorting.
From S2P Require Import Prelude Bytes Text.

(** ** ASCII *)
Definition is_ascii_upper (c : Z) : bool := (0x41 <=? c) && (c <=? 0x5A).
Definition is_ascii_lower (c : Z) : bool := (0x61 <=? c) && (c <=? 0x7A).
Definition is_ascii_digit (c : Z) : bool := (0x30 <=? c) && (c <=? 0x39).
Definition is_ascii_alphanumeric (c : Z) : bool := is_ascii_upper c || is_ascii_lower c || is_ascii_digit c.

Definition ascii_lower (c : Z) : Z := if is_ascii_upper c then c + 32 else c.
Definition ascii_upper (c : Z) : Z := if is_ascii_lower c then c - 32 else c.
Definition to_ascii_lowercase (s : str) : str := ascii_lower <$> s.

(** [str::eq_ignore_ascii_case] *)
Definition eq_ignore_ascii_case (s t : str) : bool := str_eqb (to_ascii_lowercase s) (to_ascii_lowercase t).

Definition is_ascii (s : str) : Prop := Forall (λ c, 0 ≤ c < 0x80) s.

(** [str::to_lowercase] and [str::to_uppercase] *)
Class UnicodeCase : Type := {
  to_lowercase : str → str;
  to_uppercase : str → str;
  lowercase_ascii s : is_ascii s → to_lowercase s = to_ascii_lowercase s;
  uppercase_ascii s : is_ascii s → to_uppercase s = ascii_upper <$> s;
  (** the mapping does not see the case of ASCII letters *)
  lowercase_folds s : to_lowercase (to_ascii_lowercase s) = to_lowercase s;
}.

(** ** Pieces *)

(** [str::strip_prefix]; [starts_with] asks for its success. *)
Fixpoint strip_prefix (p s : str) : option str :=
  match p, s with
  | [], _ => Some s
  | a :: p, c :: s => if a =? c then strip_prefix p s else None
  | _ :: _, [] => None
  end.

Definition starts_with (p s : str) : bool := bool_decide (is_Some (strip_prefix p s)).

(** [s.split(separator)]: at least one piece. *)
Fixpoint split_on (separator : Z) (s : str) : list str :=
  match s with
  | [] => [[]]
  | c :: s =>
      if c =? separator then [] :: split_on separator s
      else match split_on separator s with
           | w :: ws => (c :: w) :: ws
           | [] => [[c]]
           end
  end.

(** [str::trim_matches] of one character *)
Definition trim_matches (c : Z) (s : str) : str := trim_by (Z.eqb c) s.

(** [u64::to_string] and the like *)
Definition show_number (n : Z) : str := lit (pretty n).

(** [words.join(separator)] *)
Fixpoint join (separator : str) (words : list str) : str :=
  match words with
  | [] => []
  | [w] => w
  | w :: words => w ++ separator ++ join separator words
  end.

(** ** Order

    [str] is ordered by its octets, which is the order of its scalar values. *)
Fixpoint str_leb (s t : str) : bool :=
  match s, t with
  | [], _ => true
  | _ :: _, [] => false
  | a :: s, b :: t => (a <? b) || ((a =? b) && str_leb s t)
  end.
Definition str_le (s t : str) : Prop := str_leb s t = true.
#[global] Instance str_le_dec s t : Decision (str_le s t).
Proof. unfold str_le. apply _. Defined.

(** [sort] on strings *)
Definition sort_strs (l : list str) : list str := merge_sort str_le l.

(** [sort_by], which is stable: [before x y] holds unless [y] goes first. *)
Fixpoint insert_by {A} (before : A → A → bool) (x : A) (l : list A) : list A :=
  match l with
  | [] => [x]
  | y :: l' => if before x y then x :: l else y :: insert_by before x l'
  end.
Definition sort_by {A} (before : A → A → bool) (l : list A) : list A := foldr (insert_by before) [] l.

(** ** Facts *)
Lemma ascii_lower_idemp c : ascii_lower (ascii_lower c) = ascii_lower c.
Proof.
  unfold ascii_lower, is_ascii_upper.
  destruct (Z.leb_spec 65 c), (Z.leb_spec c 90); simpl;
    repeat match goal with |- context [?a <=? ?b] => destruct (Z.leb_spec a b) end; simpl; lia.
Qed.

Lemma to_ascii_lowercase_idemp s : to_ascii_lowercase (to_ascii_lowercase s) = to_ascii_lowercase s.
Proof. unfold to_ascii_lowercase. rewrite <-list_fmap_compose. apply list_fmap_ext. intros ? c _. apply ascii_lower_idemp. Qed.

Lemma eq_ignore_ascii_case_eq s t : eq_ignore_ascii_case s t = true ↔ to_ascii_lowercase s = to_ascii_lowercase t.
Proof. apply str_eqb_eq. Qed.

Lemma eq_ignore_ascii_case_refl s : eq_ignore_ascii_case s s = true.
Proof. by apply eq_ignore_ascii_case_eq. Qed.

Lemma eq_ignore_lowercase `{UC : !UnicodeCase} s t :
  eq_ignore_ascii_case s t = true → to_lowercase s = to_lowercase t.
Proof. intros H%eq_ignore_ascii_case_eq. by rewrite <-(lowercase_folds s), <-(lowercase_folds t), H. Qed.

Lemma strip_prefix_Some p s rest : strip_prefix p s = Some rest ↔ s = p ++ rest.
Proof.
  revert s. induction p as [|a p IH]; intros s; [simpl; naive_solver|].
  destruct s as [|c s]; [done|]. simpl. destruct (Z.eqb_spec a c) as [->|].
  - rewrite IH. naive_solver.
  - split; [done|]. intros [= ? _]. congruence.
Qed.

Lemma starts_with_spec p s : starts_with p s = true ↔ ∃ rest, s = p ++ rest.
Proof.
  unfold starts_with. rewrite bool_decide_eq_true. split.
  - intros [rest H%strip_prefix_Some]. by exists rest.
  - intros [rest H%strip_prefix_Some]. by exists rest.
Qed.

Lemma split_on_nonempty c s : split_on c s ≠ [].
Proof. induction s as [|a s IH]; simpl; [done|]. destruct (_ =? _); [done|]. by destruct (split_on c s). Qed.

Lemma split_on_free c s : Forall (λ w, c ∉ w) (split_on c s).
Proof.
  induction s as [|a s IH]; simpl; [repeat constructor; apply not_elem_of_nil|].
  destruct (Z.eqb_spec a c) as [->|Hne]; [constructor; [apply not_elem_of_nil|done]|].
  destruct (split_on c s) as [|w ws]; inversion IH; subst; constructor; try done.
  - intros [->|[]%not_elem_of_nil]%elem_of_cons. done.
  - intros [->|?]%elem_of_cons; done.
Qed.

(** Splitting undoes joining. *)
Lemma split_on_join c s : join [c] (split_on c s) = s.
Proof.
  induction s as [|a s IH]; simpl; [done|]. destruct (Z.eqb_spec a c) as [->|Hne].
  - destruct (split_on c s) eqn:E; [by destruct (split_on_nonempty c s)|]. by rewrite <-IH.
  - destruct (split_on c s) as [|w [|w' ws]]; simpl in *; by rewrite IH.
Qed.

#[global] Instance str_le_total : Total str_le.
Proof.
  intros s. unfold str_le. induction s as [|a s IH]; intros [|b t]; simpl; auto.
  destruct (IH t) as [->| ->]; destruct (Z.ltb_spec a b), (Z.eqb_spec a b), (Z.ltb_spec b a), (Z.eqb_spec b a); simpl; auto; lia.
Qed.
#[global] Instance str_le_trans : Transitive str_le.
Proof.
  intros s. unfold str_le. induction s as [|a s IH]; intros [|b t] [|c u]; simpl; try done.
  intros H1 H2. destruct (Z.ltb_spec a c); [done|].
  destruct (Z.ltb_spec a b), (Z.ltb_spec b c); simpl in *; try lia.
  apply andb_true_iff in H1 as [?%Z.eqb_eq H1]. apply andb_true_iff in H2 as [?%Z.eqb_eq H2].
  destruct (Z.eqb_spec a c); [|lia]. by apply (IH t).
Qed.
#[global] Instance str_le_antisymm : AntiSymm (=) str_le.
Proof.
  intros s. unfold str_le. induction s as [|a s IH]; intros [|b t]; simpl; try done.
  intros H1 H2. destruct (Z.ltb_spec a b), (Z.ltb_spec b a); simpl in *; try lia.
  all: try (apply andb_true_iff in H1 as [?%Z.eqb_eq H1]); try (apply andb_true_iff in H2 as [?%Z.eqb_eq H2]); try lia.
  f_equal; [lia|]. by apply IH.
Qed.

Lemma sort_strs_Permutation l : sort_strs l ≡ₚ l.
Proof. apply merge_sort_Permutation. Qed.
Lemma sort_strs_sorted l : StronglySorted str_le (sort_strs l).
Proof. apply (StronglySorted_merge_sort str_le). Qed.
Lemma elem_of_sort_strs s l : s ∈ sort_strs l ↔ s ∈ l.
Proof. by rewrite sort_strs_Permutation. Qed.

Lemma insert_by_Permutation {A} before (x : A) l : insert_by before x l ≡ₚ x :: l.
Proof. induction l as [|y l IH]; simpl; [done|]. destruct (before x y); [done|]. rewrite IH. apply Permutation_swap. Qed.
Lemma sort_by_Permutation {A} (before : A → A → bool) l : sort_by before l ≡ₚ l.
Proof. induction l as [|x l IH]; simpl; [done|]. by rewrite insert_by_Permutation, IH. Qed.

(** A stable sort by a key: sorted, and elements of one key keep their order. *)
Section by_key.
Context {A : Type} (key : A → Z).
Definition descending (x y : A) : bool := key y <=? key x.

Lemma insert_by_sorted x l : StronglySorted (λ x y, key y ≤ key x) l →
  StronglySorted (λ x y, key y ≤ key x) (insert_by descending x l).
Proof.
  induction 1 as [|y l Hs IH Hy]; simpl; [repeat constructor|]. unfold descending at 1.
  destruct (Z.leb_spec (key y) (key x)); constructor; try done; [by constructor|constructor; [done|]|].
  - eapply Forall_impl; [exact Hy|]. simpl. lia.
  - rewrite insert_by_Permutation. constructor; [lia|done].
Qed.

Lemma sort_by_sorted l : StronglySorted (λ x y, key y ≤ key x) (sort_by descending l).
Proof. induction l; simpl; [constructor|by apply insert_by_sorted]. Qed.

Lemma insert_by_filter k x l : StronglySorted (λ x y, key y ≤ key x) l →
  filter (λ y, key y = k) (insert_by descending x l) = filter (λ y, key y = k) (x :: l).
Proof.
  induction 1 as [|y l Hs IH Hy]; simpl; [done|]. unfold descending at 1.
  destruct (Z.leb_spec (key y) (key x)); [done|].
  rewrite filter_cons, IH, !filter_cons. repeat case_decide; try done. lia.
Qed.

Lemma sort_by_stable k l : filter (λ y, key y = k) (sort_by descending l) = filter (λ y, key y = k) l.
Proof.
  induction l as [|x l IH]; [done|]. change (sort_by descending (x :: l)) with (insert_by descending x (sort_by descending l)).
  rewrite insert_by_filter by apply sort_by_sorted. by rewrite !filter_cons, IH.
Qed.
End by_key.
