(* ===== verification/IpAddress.v ===== *)
(** * IP addresses

    [str::parse::<IpAddr>] of the standard library, which the configuration uses
    to tell loopback hosts: a parser over the octets of the text, every step of
    which gives back its input when it fails. *)
From S2P Require Import Prelude Bytes Text TextOps.

(** A step: what it read, and the octets after it. *)
Definition ip_step (A : Type) : Type := list Z → option (A * list Z).
#[global] Instance ip_step_ret : MRet ip_step := λ A a l, Some (a, l).
#[global] Instance ip_step_bind : MBind ip_step := λ A B f m l, '(a, l) ← m l; f a l.

(** [char::to_digit] *)
Definition to_digit (radix c : Z) : option Z :=
  let d := if is_ascii_digit c then c - 0x30
           else if is_ascii_lower c then c - 0x61 + 10
           else if is_ascii_upper c then c - 0x41 + 10 else radix in
  if d <? radix then Some d else None.

(** The digits ahead: their value, their number and what follows. *)
Fixpoint read_digits (radix value count : Z) (l : list Z) : Z * Z * list Z :=
  match l with
  | [] => (value, count, [])
  | c :: l' =>
      match to_digit radix c with
      | Some d => read_digits radix (value * radix + d) (count + 1) l'
      | None => (value, count, l)
      end
  end.

(** [read_number] of at most [max_digits] digits, up to [limit]. *)
Definition read_number (radix max_digits : Z) (allow_zero_prefix : bool) (limit : Z) : ip_step Z := λ l,
  let '(value, count, rest) := read_digits radix 0 0 l in
  if (max_digits <? count) || (count =? 0) then None
  else if negb allow_zero_prefix && bool_decide (head l = Some 0x30) && (1 <? count) then None
  else if limit <? value then None else Some (value, rest).

Definition read_given_char (c : Z) : ip_step unit := λ l,
  match l with b :: l => if b =? c then Some (tt, l) else None | [] => None end.

Definition read_separator {A} (separator : Z) (index : nat) (inner : ip_step A) : ip_step A :=
  match index with O => inner | S _ => _ ← read_given_char separator; inner end.

Definition read_octet (index : nat) : ip_step Z := read_separator 0x2E index (read_number 10 3 false 255).

Definition read_ipv4_addr : ip_step (list Z) :=
  a ← read_octet 0; b ← read_octet 1; c ← read_octet 2; d ← read_octet 3; mret [a; b; c; d].

(** [read_groups]: the groups from [index] up to [limit], and whether they ended
    with an embedded IPv4 address. *)
Fixpoint read_groups (fuel : nat) (index limit : nat) (l : list Z) : list Z * bool * list Z :=
  match fuel with
  | O => ([], false, l)
  | S fuel =>
      match (if (index + 1 <? limit)%nat then read_separator 0x3A index read_ipv4_addr l else None) with
      | Some ([a; b; c; d], l) => ([a * 256 + b; c * 256 + d], true, l)
      | _ =>
          match read_separator 0x3A index (read_number 16 4 true 65535) l with
          | Some (group, l) =>
              let '(groups, ipv4, l) := read_groups fuel (S index) limit l in (group :: groups, ipv4, l)
          | None => ([], false, l)
          end
      end
  end.

Definition read_ipv6_addr : ip_step (list Z) := λ l,
  let '(head, head_ipv4, l) := read_groups 8 0 8 l in
  if (length head =? 8)%nat then Some (head, l)
  else if (head_ipv4 : bool) then None
  else
    '(_, l) ← read_given_char 0x3A l;
    '(_, l) ← read_given_char 0x3A l;
    let limit := (8 - (length head + 1))%nat in
    let '(tail, _, l) := read_groups limit 0 limit l in
    Some (head ++ replicate (8 - length head - length tail) 0 ++ tail, l).

Inductive IpAddr : Type := V4 (octets : list Z) | V6 (groups : list Z).

Definition parse_ip (host : str) : option IpAddr :=
  let l := utf8_encode host in
  '(address, rest) ← match read_ipv4_addr l with
                     | Some (octets, rest) => Some (V4 octets, rest)
                     | None => '(groups, rest) ← read_ipv6_addr l; Some (V6 groups, rest)
                     end;
  match rest with [] => Some address | _ :: _ => None end.

Definition is_loopback (address : IpAddr) : bool :=
  match address with
  | V4 octets => bool_decide (head octets = Some 127)
  | V6 groups => bool_decide (groups = [0; 0; 0; 0; 0; 0; 0; 1])
  end.

Example parse_ip_examples :
  parse_ip <$> (lit <$> ["127.0.0.1"; "::1"; "1:2:3:4:5:6:7:8"; "::ffff:127.0.0.1"; "2001:db8::1"; "01.2.3.4";
                         "256.1.1.1"; "1.2.3"; "localhost"; "1.2.3.4 "; ":::"; "1::2:3:4:5:6:7:8"])%string
  = [Some (V4 [127; 0; 0; 1]); Some (V6 [0; 0; 0; 0; 0; 0; 0; 1]); Some (V6 [1; 2; 3; 4; 5; 6; 7; 8]);
     Some (V6 [0; 0; 0; 0; 0; 0xffff; 0x7f00; 1]); Some (V6 [0x2001; 0xdb8; 0; 0; 0; 0; 0; 1]); None; None; None; None;
     None; None; None].
Proof. vm_compute. reflexivity. Qed.
