(* ===== verification/WampTypes.v ===== *)
(** * WAMP data: serializers, values, messages, raw frames

    The data of [ct_core/src/wamp.rs] and the serializer enum of
    [ct_core/src/rawsocket.rs], with the class of decoders and encoders the
    crate takes from its dependencies. *)
From S2P Require Import Prelude Bytes Text.

Inductive Serializer : Type :=
  | Json | MessagePack | Cbor | Ubjson | Flatbuffers.

#[global] Instance Serializer_eq_dec : EqDecision Serializer.
Proof. solve_decision. Defined.

(** [serde_value::Value], the dynamic value the crate matches on.  Floats are
    kept as their bits; a [BTreeMap] as its entries in key order. *)
Inductive value : Type :=
  | VBool (b : bool)
  | VU8 (n : Z) | VU16 (n : Z) | VU32 (n : Z) | VU64 (n : Z)
  | VI8 (n : Z) | VI16 (n : Z) | VI32 (n : Z) | VI64 (n : Z)
  | VF32 (bits : Z) | VF64 (bits : Z)
  | VChar (c : Z)
  | VString (s : str)
  | VUnit
  | VOption (o : option value)
  | VNewtype (v : value)
  | VSeq (vs : list value)
  | VMap (entries : list (value * value))
  | VBytes (bs : list Z).

Definition ValueMap : Type := list (value * value).

(** [Payload { args, kwargs, transparent }] *)
Record Payload : Type := mkPayload {
  args : option (list Z);
  kwargs : option (list Z);
  transparent : option (list Z);
}.

Inductive ParseError : Type :=
  | UnsupportedSerializer (s : Serializer)
  | Deserialize (reason : string)
  | ExpectedArray
  | MissingElement (label : string)
  | ExpectedIdentifier (label : string)
  | ExpectedString (label : string)
  | ExpectedMap (label : string)
  | ExpectedList (label : string)
  | PayloadEncode (reason : string).

#[global] Instance ParseError_eq_dec : EqDecision ParseError.
Proof. solve_decision. Defined.

Inductive WampMessage : Type :=
  | Hello (realm : str) (details : ValueMap)
  | Welcome (session_id : Z) (details : ValueMap)
  | Abort (details : ValueMap) (reason : str) (payload : Payload)
  | Challenge (auth_method : str) (extra : ValueMap)
  | Authenticate (signature : str) (extra : ValueMap)
  | Goodbye (details : ValueMap) (reason : str) (payload : Payload)
  | Heartbeat (details : ValueMap) (ping incoming outgoing : option Z)
  | Error (request_type request_id : Z) (details : ValueMap) (error : str)
      (payload : Payload)
  | Publish (request_id : Z) (options : ValueMap) (topic : str) (payload : Payload)
  | Published (request_id publication_id : Z)
  | Subscribe (request_id : Z) (options : ValueMap) (topic : str)
  | Subscribed (request_id subscription_id : Z)
  | Unsubscribe (request_id subscription_id : Z)
  | Unsubscribed (request_id : Z) (details : ValueMap)
  | Event (subscription_id publication_id : Z) (details : ValueMap) (payload : Payload)
  | Call (request_id : Z) (options : ValueMap) (procedure : str) (payload : Payload)
  | Cancel (request_id : Z) (options : ValueMap)
  | Result (request_id : Z) (details : ValueMap) (payload : Payload)
  | Register (request_id : Z) (options : ValueMap) (procedure : str)
  | Registered (request_id registration_id : Z)
  | Unregister (request_id registration_id : Z)
  | Unregistered (request_id : Z) (details : ValueMap)
  | Invocation (request_id registration_id : Z) (details : ValueMap) (payload : Payload)
  | Interrupt (request_id : Z) (options : ValueMap)
  | Yield (request_id : Z) (options : ValueMap) (payload : Payload)
  | Unknown (code : Z) (fields : list value).

(** [WampMessage::code] *)
Definition message_code (m : WampMessage) : Z :=
  match m with
  | Hello _ _ => 1
  | Welcome _ _ => 2
  | Abort _ _ _ => 3
  | Challenge _ _ => 4
  | Authenticate _ _ => 5
  | Goodbye _ _ _ => 6
  | Heartbeat _ _ _ _ => 7
  | Error _ _ _ _ _ => 8
  | Publish _ _ _ _ => 16
  | Published _ _ => 17
  | Subscribe _ _ _ => 32
  | Subscribed _ _ => 33
  | Unsubscribe _ _ => 34
  | Unsubscribed _ _ => 35
  | Event _ _ _ _ => 36
  | Call _ _ _ _ => 48
  | Cancel _ _ => 49
  | Result _ _ _ => 50
  | Register _ _ _ => 64
  | Registered _ _ => 65
  | Unregister _ _ => 66
  | Unregistered _ _ => 67
  | Invocation _ _ _ _ => 68
  | Interrupt _ _ => 69
  | Yield _ _ _ => 70
  | Unknown code _ => code
  end.

(** The application payload a message carries, if its kind carries one. *)
Definition message_payload (m : WampMessage) : option Payload :=
  match m with
  | Abort _ _ p | Goodbye _ _ p | Error _ _ _ _ p | Publish _ _ _ p
  | Event _ _ _ p | Call _ _ _ p | Result _ _ p | Invocation _ _ _ p
  | Yield _ _ p => Some p
  | _ => None
  end.

(** [CborPayloadSpec]: where a message array holds its application payload. *)
Record CborPayloadSpec : Type := mkCborPayloadSpec {
  args_index : nat;
  args_label : string;
  kwargs_index : nat;
  kwargs_label : string;
}.

Definition cbor_payload_spec (code : Z) : option CborPayloadSpec :=
  if code =? 3 then Some (mkCborPayloadSpec 3 "abort.arguments" 4 "abort.argumentsKw")
  else if code =? 6 then Some (mkCborPayloadSpec 3 "goodbye.arguments" 4 "goodbye.argumentsKw")
  else if code =? 8 then Some (mkCborPayloadSpec 5 "error.arguments" 6 "error.argumentsKw")
  else if code =? 16 then Some (mkCborPayloadSpec 4 "publish.arguments" 5 "publish.argumentsKw")
  else if code =? 36 then Some (mkCborPayloadSpec 4 "event.arguments" 5 "event.argumentsKw")
  else if code =? 48 then Some (mkCborPayloadSpec 4 "call.arguments" 5 "call.argumentsKw")
  else if code =? 50 then Some (mkCborPayloadSpec 3 "result.arguments" 4 "result.argumentsKw")
  else if code =? 68 then
    Some (mkCborPayloadSpec 4 "invocation.arguments" 5 "invocation.argumentsKw")
  else if code =? 70 then Some (mkCborPayloadSpec 3 "yield.arguments" 4 "yield.argumentsKw")
  else None.

(** [RawFrame]: one buffer, or the segments of a fragmented message with
    their total length. *)
Inductive RawFrame : Type :=
  | Contiguous (bytes : list Z)
  | Segmented (segments : list (list Z)) (len : Z).

Record ParsedMessage : Type := mkParsedMessage {
  message : WampMessage;
  raw : RawFrame;
  serializer : Serializer;
  encoded_metadata : option (list Z);
}.

(** A borrowed [serde_json::value::RawValue]: its text and where the text
    starts in the payload it borrows from. *)
Record RawValue : Type := mkRawValue { rv_start : Z; rv_text : str }.

(** The end of the text in the payload: [start + raw_value.get().len()]. *)
Definition rv_end (r : RawValue) : Z := rv_start r + str_len (rv_text r).

(** ** What the parsers run on

    What the parsers ask of the machine that a frame can make too large for it:
    an allocation whose size the frame claims, and the stack.  A refusal of either
    aborts the process. *)
Class Machine : Type := {
  (** whether the allocator grants so many octets *)
  grants : Z → bool;
  (** the stack frames of [msgpack_skip_value] that the thread has room for *)
  stack_frames : Z;
}.

(** Decoders and encoders of the serde crates: [inl] carries the library's error
    text, [inr] the result. *)
Class SerdeLib : Type := {
  serde_machine :: Machine;
  (** [String::deserialize] / [u64::deserialize] / [Value::deserialize] of
      [rmp_serde] on one encoded item *)
  rmp_string : list Z → option str;
  rmp_u64 : list Z → option Z;
  rmp_value : list Z → string + value;
  (** [Value::deserialize] of [serde_cbor::Deserializer::from_slice] *)
  cbor_value_de : list Z → string + value;
  (** [Value::deserialize] of [serde_cbor::Deserializer::from_reader] over the
      whole stream, then [de.end()] *)
  cbor_reader_de : list Z → string + value;
  (** [serde_cbor::from_slice::<Value>] *)
  cbor_from_slice : list Z → string + value;
  (** [IgnoredAny::deserialize] of [serde_cbor] and the [byte_offset] after it *)
  cbor_skip : list Z → string + N;
  (** [BorrowedFields::deserialize] of [serde_json]: the elements of the outer
      array, and [deserializer.end()] *)
  json_fields : list Z → string + list RawValue;
  json_end : list Z → string + unit;
  (** [serde_json::from_str] at [String] and [u64], and at [serde_json::Value]
      followed by [serde_value::to_value] *)
  json_str_de : str → string + str;
  json_u64_de : str → option Z;
  json_value_de : str → string + value;
  (** [to_vec] of the three encoders *)
  json_to_vec : value → string + list Z;
  rmp_to_vec : value → string + list Z;
  cbor_to_vec : value → string + list Z;
  (** whole-payload [Value::deserialize] for JSON and MessagePack *)
  json_whole_de : list Z → string + value;
  rmp_whole_de : list Z → string + value;
}.

(** [.map_err(|err| ParseError::Deserialize(err.to_string()))] *)
Definition lift_de {A} (r : string + A) : outcome ParseError A :=
  match r with inl e => Err (Deserialize e) | inr a => Ok a end.

Definition lift_enc {A} (r : string + A) : outcome ParseError A :=
  match r with inl e => Err (PayloadEncode e) | inr a => Ok a end.

Lemma returns_lift_de {A} (r : string + A) : returns (lift_de r).
Proof. by destruct r. Qed.
Lemma returns_lift_enc {A} (r : string + A) : returns (lift_enc r).
Proof. by destruct r. Qed.
#[export] Hint Resolve returns_lift_de returns_lift_enc : returns.

Lemma lift_de_Ok {A} (r : string + A) a : lift_de r = Ok a ↔ r = inr a.
Proof. destruct r; simpl; naive_solver. Qed.
