(* ===== verification/RawFrame.v ===== *)
(** * Raw frames

    [RawFrame] of [ct_core/src/wamp.rs]: a received message is one buffer or a
    list of WebSocket fragments.  The operations the parsers use are
    [frame_len], [read_byte] and [slice_or_copy]; two frames with the same
    flattened bytes are indistinguishable through them ([frame_equiv]). *)
From S2P Require Import Prelude Bytes Text WampTypes.

Definition unexpected_end : ParseError := Deserialize "unexpected end of message data".

(** [segments.iter().map(|s| s.len()).sum()] *)
Definition segments_len (segments : list (list Z)) : Z :=
  foldr (λ s acc, zlen s + acc) 0 segments.

(** [RawFrame::from_segments] *)
Definition from_segments (segments : list (list Z)) : RawFrame :=
  Segmented segments (segments_len segments).

(** [RawFrame::len] *)
Definition frame_len (f : RawFrame) : Z :=
  match f with Contiguous b => zlen b | Segmented _ len => len end.

(** [RawFrame::as_contiguous] *)
Definition as_contiguous (f : RawFrame) : option (list Z) :=
  match f with Contiguous b => Some b | Segmented _ _ => None end.

(** [RawFrame::into_bytes] *)
Definition into_bytes (f : RawFrame) : list Z :=
  match f with Contiguous b => b | Segmented segments _ => concat segments end.

(** The segment loop of [RawFrame::read_byte]. *)
Fixpoint read_segments (segments : list (list Z)) (offset : Z) :
    outcome ParseError Z :=
  match segments with
  | [] => Err unexpected_end
  | s :: rest =>
      if offset <? zlen s
      then match byte_at s offset with Some b => Ok b | None => Panic end
      else read_segments rest (offset - zlen s)
  end.

(** [RawFrame::read_byte] *)
Definition read_byte (f : RawFrame) (index : Z) : outcome ParseError Z :=
  if frame_len f <=? index then Err unexpected_end
  else match f with
       | Contiguous b => match byte_at b index with Some x => Ok x | None => Panic end
       | Segmented segments _ => read_segments segments index
       end.

(** First loop of [RawFrame::slice_or_copy]: a segment that holds the whole
    range is sliced without copying. *)
Fixpoint slice_in_segment (segments : list (list Z)) (absolute rs re : Z) :
    option (outcome ParseError (list Z)) :=
  match segments with
  | [] => None
  | s :: rest =>
      let segment_end := absolute + zlen s in
      if (absolute <=? rs) && (re <=? segment_end)
      then Some (slice_bytes s (rs - absolute) (re - absolute))
      else slice_in_segment rest segment_end rs re
  end.

(** Second loop: the overlap of each segment with the range is appended. *)
Fixpoint copy_segments (segments : list (list Z)) (absolute rs re : Z)
    (copied : list Z) : outcome ParseError (list Z) :=
  match segments with
  | [] => Ok copied
  | s :: rest =>
      let segment_end := absolute + zlen s in
      let start := Z.max rs absolute in
      let stop := Z.min re segment_end in
      copied ← (if start <? stop
                then piece ← slice_bytes s (start - absolute) (stop - absolute);
                     Ok (copied ++ piece)
                else Ok copied);
      if stop =? re then Ok copied
      else copy_segments rest segment_end rs re copied
  end.

(** [RawFrame::slice_or_copy] over [start..end] *)
Definition slice_or_copy (f : RawFrame) (range : Z * Z) : outcome ParseError (list Z) :=
  let '(rs, re) := range in
  if frame_len f <? re then Err (Deserialize "payload range exceeds message bounds")
  else match f with
       | Contiguous b => slice_bytes b rs re
       | Segmented segments _ =>
           match slice_in_segment segments 0 rs re with
           | Some r => r
           | None => copy_segments segments 0 rs re []
           end
       end.

(** ** Correctness *)

(** The stored length of a segmented frame is the sum of its segments. *)
Definition frame_wf (f : RawFrame) : Prop := frame_len f = zlen (into_bytes f).
Definition frame_ok (f : RawFrame) : Prop := frame_wf f ∧ bytes_ok (into_bytes f).

(** A half-open range inside a buffer of [n] bytes. *)
Definition range_in (n : Z) (r : Z * Z) : Prop := 0 ≤ r.1 ∧ r.1 ≤ r.2 ∧ r.2 ≤ n.

Lemma segments_len_concat segments : segments_len segments = zlen (concat segments).
Proof. induction segments as [|s l IH]; simpl; [done|]. rewrite zlen_app. lia. Qed.

Lemma from_segments_wf segments : frame_wf (from_segments segments).
Proof. unfold frame_wf. simpl. apply segments_len_concat. Qed.

Lemma contiguous_wf b : frame_wf (Contiguous b).
Proof. done. Qed.
#[export] Hint Resolve from_segments_wf contiguous_wf : core.

Lemma read_segments_spec segments i : 0 ≤ i →
  read_segments segments i = ok_or unexpected_end (byte_at (concat segments) i).
Proof.
  revert i. induction segments as [|s l IH]; intros i Hi; simpl.
  - destruct (byte_at [] i) as [x|] eqn:E; [|done].
    apply byte_at_Some in E as [_ E]. by rewrite lookup_nil in E.
  - destruct (Z.ltb_spec i (zlen s)).
    + rewrite byte_at_app_l by lia.
      destruct (byte_at s i) eqn:E; [done|]. apply byte_at_None in E. lia.
    + rewrite IH by lia. f_equal.
      replace i with (zlen s + (i - zlen s)) at 2 by lia.
      rewrite byte_at_app_r by lia. done.
Qed.

(** [read_byte] is indexing into the flattened bytes. *)
Lemma read_byte_spec f i : frame_wf f → 0 ≤ i →
  read_byte f i = ok_or unexpected_end (byte_at (into_bytes f) i).
Proof.
  intros Hwf Hi. unfold read_byte. rewrite Hwf.
  destruct (Z.leb_spec (zlen (into_bytes f)) i).
  - rewrite (proj2 (byte_at_None _ _)) by lia. done.
  - destruct f as [b|segments len]; simpl in *.
    + destruct (byte_at b i) eqn:E; [done|]. apply byte_at_None in E. lia.
    + by apply read_segments_spec.
Qed.

Lemma slice_in_segment_spec segments absolute rs re r :
  rs ≤ re →
  slice_in_segment segments absolute rs re = Some r →
  r = Ok (sub_bytes (concat segments) (rs - absolute) (re - absolute))
  ∧ absolute ≤ rs.
Proof.
  intros Hr. revert absolute.
  induction segments as [|s l IH]; intros absolute; simpl; [done|].
  destruct (Z.leb_spec absolute rs), (Z.leb_spec re (absolute + zlen s)); simpl.
  - intros [= <-]. rewrite slice_bytes_in by lia. split; [|lia]. f_equal.
    unfold sub_bytes.
    rewrite drop_app_le by (unfold zlen in *; lia).
    rewrite take_app_le; [done|]. rewrite length_drop. unfold zlen in *. lia.
  - intros Hs. apply IH in Hs as [-> ?]. split; [|lia]. f_equal.
    unfold sub_bytes.
    rewrite drop_app_ge by (unfold zlen in *; lia).
    f_equal; [lia|]. f_equal. unfold zlen. lia.
  - intros Hs. apply IH in Hs as [_ ?]. zlia.
  - intros Hs. apply IH in Hs as [_ ?]. zlia.
Qed.

Lemma copy_segments_spec segments absolute rs re copied :
  0 ≤ rs → rs ≤ re → 0 ≤ absolute → absolute ≤ re →
  re ≤ absolute + zlen (concat segments) →
  copy_segments segments absolute rs re copied
  = Ok (copied ++ sub_bytes (concat segments) (Z.max rs absolute - absolute)
                    (re - absolute)).
Proof.
  revert absolute copied.
  induction segments as [|s l IH]; intros absolute copied Hrs Hr Ha Hare Hend; simpl.
  { simpl in Hend. rewrite zlen_nil in Hend.
    rewrite sub_bytes_nil by lia. by rewrite app_nil_r. }
  simpl in Hend. rewrite zlen_app in Hend.
  assert (∀ piece, (if Z.max rs absolute <? Z.min re (absolute + zlen s)
     then p ← slice_bytes (E:=ParseError) s (Z.max rs absolute - absolute)
                (Z.min re (absolute + zlen s) - absolute); Ok (piece ++ p)
     else Ok piece)
     = Ok (piece ++ sub_bytes s (Z.max rs absolute - absolute)
                      (Z.min re (absolute + zlen s) - absolute))) as Hpiece.
  { intros piece. destruct (Z.ltb_spec (Z.max rs absolute) (Z.min re (absolute + zlen s))).
    - by rewrite slice_bytes_in by (zlen_facts; lia).
    - rewrite sub_bytes_nil by lia. by rewrite app_nil_r. }
  rewrite Hpiece. simpl.
  pose proof (zlen_nonneg s) as Hs.
  destruct (Z.eqb_spec (Z.min re (absolute + zlen s)) re) as [He|He].
  - rewrite He. f_equal. f_equal. unfold sub_bytes.
    destruct (decide (Z.max rs absolute - absolute ≤ zlen s)).
    + rewrite drop_app_le by (unfold zlen in *; lia).
      rewrite take_app_le; [done|]. rewrite length_drop. unfold zlen in *. lia.
    + replace (Z.to_nat (re - absolute - (Z.max rs absolute - absolute))) with 0%nat by lia.
      done.
  - rewrite IH by lia. f_equal. rewrite <-(assoc_L (++)). f_equal.
    replace (Z.min re (absolute + zlen s)) with (absolute + zlen s) by lia.
    replace (absolute + zlen s - absolute) with (zlen s) by lia.
    destruct (decide (rs ≤ absolute + zlen s)).
    + rewrite <-(sub_bytes_join (s ++ concat l) (Z.max rs absolute - absolute) (zlen s)
        (re - absolute)) by lia.
      f_equal; unfold sub_bytes.
      * rewrite drop_app_le by (unfold zlen in *; lia).
        rewrite take_app_le; [done|]. rewrite length_drop. unfold zlen in *. lia.
      * rewrite drop_app_ge by (unfold zlen; lia).
        f_equal; [lia|]. f_equal. unfold zlen in *. lia.
    + rewrite sub_bytes_nil by lia. simpl. unfold sub_bytes.
      rewrite drop_app_ge by (unfold zlen in *; lia).
      f_equal; [lia|]. f_equal. unfold zlen in *. lia.
Qed.

(** [slice_or_copy] returns exactly the bytes of the range, or an error when
    the range ends past the frame. *)
Lemma slice_or_copy_spec f rs re : frame_wf f → 0 ≤ rs → rs ≤ re →
  slice_or_copy f (rs, re)
  = if zlen (into_bytes f) <? re
    then Err (Deserialize "payload range exceeds message bounds")
    else Ok (sub_bytes (into_bytes f) rs re).
Proof.
  intros Hwf Hrs Hr. unfold slice_or_copy. rewrite Hwf.
  destruct (Z.ltb_spec (zlen (into_bytes f)) re); [done|].
  destruct f as [b|segments len]; simpl in *.
  - by rewrite slice_bytes_in by lia.
  - destruct (slice_in_segment segments 0 rs re) as [r|] eqn:E.
    + apply slice_in_segment_spec in E as [-> _]; [|lia]. by rewrite !Z.sub_0_r.
    + rewrite copy_segments_spec by lia. simpl.
      by rewrite Z.max_l, !Z.sub_0_r by lia.
Qed.

Lemma slice_or_copy_in f r : frame_wf f → range_in (frame_len f) r →
  slice_or_copy f r = Ok (sub_bytes (into_bytes f) r.1 r.2).
Proof.
  intros Hwf (H1 & H2 & H3). destruct r as [rs re]; cbn [fst snd] in *.
  rewrite slice_or_copy_spec by done. rewrite Hwf in H3.
  by rewrite (proj2 (Z.ltb_ge _ _)) by lia.
Qed.

(** ** Frames with the same bytes *)
Definition frame_equiv (f g : RawFrame) : Prop :=
  frame_wf f ∧ frame_wf g ∧ into_bytes f = into_bytes g.

Lemma frame_equiv_len f g : frame_equiv f g → frame_len f = frame_len g.
Proof. intros (Hf & Hg & E). unfold frame_wf in *. congruence. Qed.

Lemma frame_equiv_read f g i : frame_equiv f g → 0 ≤ i → read_byte f i = read_byte g i.
Proof. intros (Hf & Hg & E) Hi. by rewrite !read_byte_spec, E by done. Qed.

Lemma frame_equiv_slice f g rs re : frame_equiv f g → 0 ≤ rs → rs ≤ re →
  slice_or_copy f (rs, re) = slice_or_copy g (rs, re).
Proof. intros (Hf & Hg & E) ??. by rewrite !slice_or_copy_spec, E by done. Qed.

Lemma frame_equiv_flatten f : frame_wf f → frame_equiv f (Contiguous (into_bytes f)).
Proof. intros Hf. by repeat split. Qed.
