(* ===== verification/Msgpack.v ===== *)
(** * The MessagePack scanner

    [msgpack_skip_value] and its helpers of [ct_core/src/wamp.rs]: finding where
    each element of a message ends without decoding it.  [mp_item] is the
    MessagePack grammar; the scanner accepts exactly its sentences, with the
    recursion budget [msgpack_fuel]. *)
From S2P Require Import Prelude Bytes Text WampTypes RawFrame.

Definition unexpected_msgpack_end : ParseError :=
  Deserialize "unexpected end of MessagePack data".

(** ** Readers: the value read and the advanced offset *)
Definition read_u8 (data : RawFrame) (offset : Z) : outcome ParseError (Z * Z) :=
  value ← map_err (λ _, unexpected_msgpack_end) (read_byte data offset);
  Ok (value, offset + 1).

Definition read_u16 (data : RawFrame) (offset : Z) : outcome ParseError (Z * Z) :=
  b0 ← read_byte data offset;
  b1 ← read_byte data (offset + 1);
  Ok (be_value [b0; b1], offset + 2).

Definition read_u32 (data : RawFrame) (offset : Z) : outcome ParseError (Z * Z) :=
  b0 ← read_byte data offset;
  b1 ← read_byte data (offset + 1);
  b2 ← read_byte data (offset + 2);
  b3 ← read_byte data (offset + 3);
  Ok (be_value [b0; b1; b2; b3], offset + 4).

(** [usize::try_from] of a [u32]: total on a 64-bit target. *)
Definition u32_to_usize (value : Z) : outcome ParseError Z :=
  if value <? 2 ^ 64 then Ok value
  else Err (Deserialize "MessagePack length exceeds supported size").

Definition skip_bytes (data : RawFrame) (offset len : Z) : outcome ParseError Z :=
  if Z.max 0 (frame_len data - offset) <? len
  then Err unexpected_msgpack_end
  else Ok (offset + len).

Definition skip_ext (data : RawFrame) (offset ext_len : Z) : outcome ParseError Z :=
  skip_bytes data offset (1 + ext_len).

Definition in_range (lo hi b : Z) : bool := (lo <=? b) && (b <=? hi).

Definition msgpack_read_array_len (data : RawFrame) (offset : Z) :
    outcome ParseError (Z * Z) :=
  '(marker, offset) ← map_err (λ _, ExpectedArray) (read_u8 data offset);
  if in_range 0x90 0x9f marker then Ok (Z.land marker 0x0f, offset)
  else if marker =? 0xdc then read_u16 data offset
  else if marker =? 0xdd then
    '(len, offset) ← read_u32 data offset;
    len ← u32_to_usize len;
    Ok (len, offset)
  else Err ExpectedArray.

(** ** The scanner

    [msgpack_skip_n] is the loop [for _ in 0..count]; a map entry is two
    iterations. *)
Fixpoint msgpack_skip_value (fuel : nat) (data : RawFrame) (offset : Z) :
    outcome ParseError Z :=
  match fuel with
  | O => NoFuel
  | S fuel =>
      '(marker, offset) ← read_u8 data offset;
      if in_range 0x00 0x7f marker || in_range 0xe0 0xff marker
         || (marker =? 0xc0) || (marker =? 0xc2) || (marker =? 0xc3) then Ok offset
      else if marker =? 0xcc then skip_bytes data offset 1
      else if marker =? 0xcd then skip_bytes data offset 2
      else if marker =? 0xce then skip_bytes data offset 4
      else if marker =? 0xcf then skip_bytes data offset 8
      else if marker =? 0xd0 then skip_bytes data offset 1
      else if marker =? 0xd1 then skip_bytes data offset 2
      else if marker =? 0xd2 then skip_bytes data offset 4
      else if marker =? 0xd3 then skip_bytes data offset 8
      else if marker =? 0xca then skip_bytes data offset 4
      else if marker =? 0xcb then skip_bytes data offset 8
      else if in_range 0xa0 0xbf marker then
        skip_bytes data offset (Z.land marker 0x1f)
      else if marker =? 0xd9 then
        '(len, offset) ← read_u8 data offset; skip_bytes data offset len
      else if marker =? 0xda then
        '(len, offset) ← read_u16 data offset; skip_bytes data offset len
      else if marker =? 0xdb then
        '(len, offset) ← read_u32 data offset; len ← u32_to_usize len;
        skip_bytes data offset len
      else if marker =? 0xc4 then
        '(len, offset) ← read_u8 data offset; skip_bytes data offset len
      else if marker =? 0xc5 then
        '(len, offset) ← read_u16 data offset; skip_bytes data offset len
      else if marker =? 0xc6 then
        '(len, offset) ← read_u32 data offset; len ← u32_to_usize len;
        skip_bytes data offset len
      else if in_range 0x90 0x9f marker then
        msgpack_skip_n fuel data offset (Z.land marker 0x0f)
      else if marker =? 0xdc then
        '(len, offset) ← read_u16 data offset; msgpack_skip_n fuel data offset len
      else if marker =? 0xdd then
        '(len, offset) ← read_u32 data offset; len ← u32_to_usize len;
        msgpack_skip_n fuel data offset len
      else if in_range 0x80 0x8f marker then
        msgpack_skip_n fuel data offset (2 * Z.land marker 0x0f)
      else if marker =? 0xde then
        '(len, offset) ← read_u16 data offset; msgpack_skip_n fuel data offset (2 * len)
      else if marker =? 0xdf then
        '(len, offset) ← read_u32 data offset; len ← u32_to_usize len;
        msgpack_skip_n fuel data offset (2 * len)
      else if marker =? 0xd4 then skip_ext data offset 1
      else if marker =? 0xd5 then skip_ext data offset 2
      else if marker =? 0xd6 then skip_ext data offset 4
      else if marker =? 0xd7 then skip_ext data offset 8
      else if marker =? 0xd8 then skip_ext data offset 16
      else if marker =? 0xc7 then
        '(len, offset) ← read_u8 data offset; skip_bytes data offset (1 + len)
      else if marker =? 0xc8 then
        '(len, offset) ← read_u16 data offset; skip_bytes data offset (1 + len)
      else if marker =? 0xc9 then
        '(len, offset) ← read_u32 data offset; len ← u32_to_usize len;
        skip_bytes data offset (1 + len)
      else Err (Deserialize "encountered reserved MessagePack marker 0xc1")
  end
with msgpack_skip_n (fuel : nat) (data : RawFrame) (offset count : Z) :
    outcome ParseError Z :=
  match fuel with
  | O => NoFuel
  | S fuel =>
      if count <=? 0 then Ok offset
      else offset ← msgpack_skip_value fuel data offset;
           msgpack_skip_n fuel data offset (count - 1)
  end.

(** Two units of budget per byte are enough. *)
Definition msgpack_fuel (data : RawFrame) : nat := Z.to_nat (2 * frame_len data + 2).

Definition msgpack_read_value_range (data : RawFrame) (offset : Z) :
    outcome ParseError ((Z * Z) * Z) :=
  stop ← msgpack_skip_value (msgpack_fuel data) data offset;
  Ok ((offset, stop), stop).

(** ** The grammar *)

Inductive mp_width : Type := W8 | W16 | W32.
Definition width_bytes (w : mp_width) : Z :=
  match w with W8 => 1 | W16 => 2 | W32 => 4 end.

(** What follows a marker octet. *)
Inductive mp_shape : Type :=
  | Sfixed (n : Z)                      (* [n] bytes *)
  | Ssized (w : mp_width) (extra : Z)   (* a length, then [extra + length] bytes *)
  | Scount (n : Z)                      (* [n] items *)
  | Scounted (w : mp_width) (pairs : bool)  (* a count of items or of pairs *)
  | Sreserved.

(** The format table of the MessagePack specification. *)
Definition mp_table : list (Z * Z * (Z → mp_shape)) :=
  [ (0x00, 0x7f, λ _, Sfixed 0);                    (* positive fixint *)
    (0x80, 0x8f, λ m, Scount (2 * (m - 0x80)));     (* fixmap *)
    (0x90, 0x9f, λ m, Scount (m - 0x90));           (* fixarray *)
    (0xa0, 0xbf, λ m, Sfixed (m - 0xa0));           (* fixstr *)
    (0xc0, 0xc0, λ _, Sfixed 0);                    (* nil *)
    (0xc1, 0xc1, λ _, Sreserved);
    (0xc2, 0xc3, λ _, Sfixed 0);                    (* false, true *)
    (0xc4, 0xc4, λ _, Ssized W8 0);                 (* bin *)
    (0xc5, 0xc5, λ _, Ssized W16 0);
    (0xc6, 0xc6, λ _, Ssized W32 0);
    (0xc7, 0xc7, λ _, Ssized W8 1);                 (* ext *)
    (0xc8, 0xc8, λ _, Ssized W16 1);
    (0xc9, 0xc9, λ _, Ssized W32 1);
    (0xca, 0xca, λ _, Sfixed 4);                    (* float *)
    (0xcb, 0xcb, λ _, Sfixed 8);
    (0xcc, 0xcf, λ m, Sfixed (2 ^ (m - 0xcc)));     (* uint 8, 16, 32, 64 *)
    (0xd0, 0xd3, λ m, Sfixed (2 ^ (m - 0xd0)));     (* int 8, 16, 32, 64 *)
    (0xd4, 0xd8, λ m, Sfixed (1 + 2 ^ (m - 0xd4))); (* fixext *)
    (0xd9, 0xd9, λ _, Ssized W8 0);                 (* str *)
    (0xda, 0xda, λ _, Ssized W16 0);
    (0xdb, 0xdb, λ _, Ssized W32 0);
    (0xdc, 0xdc, λ _, Scounted W16 false);          (* array *)
    (0xdd, 0xdd, λ _, Scounted W32 false);
    (0xde, 0xde, λ _, Scounted W16 true);           (* map *)
    (0xdf, 0xdf, λ _, Scounted W32 true);
    (0xe0, 0xff, λ _, Sfixed 0) ].                  (* negative fixint *)

Definition mp_shape_of (m : Z) : mp_shape :=
  match list_find (λ row, in_range row.1.1 row.1.2 m = true) mp_table with
  | Some (_, row) => row.2 m
  | None => Sreserved
  end.

Definition counted_items (pairs : bool) (n : Z) : Z := if pairs then 2 * n else n.

Inductive mp_item : list Z → Prop :=
  | mp_fixed m n body :
      u8_ok m → mp_shape_of m = Sfixed n → zlen body = n → mp_item (m :: body)
  | mp_sized m w extra lenb body :
      u8_ok m → mp_shape_of m = Ssized w extra → zlen lenb = width_bytes w →
      zlen body = extra + be_value lenb → mp_item (m :: lenb ++ body)
  | mp_count m n body :
      u8_ok m → mp_shape_of m = Scount n → mp_items n body → mp_item (m :: body)
  | mp_counted m w pairs lenb body :
      u8_ok m → mp_shape_of m = Scounted w pairs → zlen lenb = width_bytes w →
      mp_items (counted_items pairs (be_value lenb)) body → mp_item (m :: lenb ++ body)
with mp_items : Z → list Z → Prop :=
  | mp_none : mp_items 0 []
  | mp_more n x xs : 0 ≤ n → mp_item x → mp_items n xs → mp_items (n + 1) (x ++ xs).

Scheme mp_item_mut := Minimality for mp_item Sort Prop
  with mp_items_mut := Minimality for mp_items Sort Prop.
Combined Scheme mp_item_items_ind from mp_item_mut, mp_items_mut.

(** The reader of a length field of each width. *)
Definition read_width (w : mp_width) (data : RawFrame) (offset : Z) :
    outcome ParseError (Z * Z) :=
  match w with
  | W8 => read_u8 data offset
  | W16 => read_u16 data offset
  | W32 => '(len, offset) ← read_u32 data offset; len ← u32_to_usize len; Ok (len, offset)
  end.

(** One step of the scanner, by shape. *)
Definition shape_step (fuel : nat) (data : RawFrame) (offset : Z) (s : mp_shape) :
    outcome ParseError Z :=
  match s with
  | Sfixed n => skip_bytes data offset n
  | Ssized w extra =>
      '(len, offset) ← read_width w data offset; skip_bytes data offset (extra + len)
  | Scount n => msgpack_skip_n fuel data offset n
  | Scounted w pairs =>
      '(len, offset) ← read_width w data offset;
      msgpack_skip_n fuel data offset (counted_items pairs len)
  | Sreserved => Err (Deserialize "encountered reserved MessagePack marker 0xc1")
  end.

(** *** The stack

    The calls of [msgpack_skip_value] that a run of it from [offset] has active at
    once: itself and, for the items it loops over, one more per level of nesting. *)
Fixpoint skip_frames (fuel : nat) (data : RawFrame) (offset : Z) : Z :=
  match fuel with
  | O => 0
  | S fuel =>
      1 + match read_u8 data offset with
          | Ok (marker, offset) =>
              match mp_shape_of marker with
              | Scount n => skip_n_frames fuel data offset n
              | Scounted w pairs =>
                  match read_width w data offset with
                  | Ok (len, offset) => skip_n_frames fuel data offset (counted_items pairs len)
                  | _ => 0
                  end
              | _ => 0
              end
          | _ => 0
          end
  end
with skip_n_frames (fuel : nat) (data : RawFrame) (offset count : Z) : Z :=
  match fuel with
  | O => 0
  | S fuel =>
      if count <=? 0 then 0
      else Z.max (skip_frames fuel data offset)
             match msgpack_skip_value fuel data offset with
             | Ok offset => skip_n_frames fuel data offset (count - 1)
             | _ => 0
             end
  end.

(** ** The readers on the flattened bytes *)
Section readers.
Context (data : RawFrame) (Hok : frame_ok data).
  Local Notation B := (into_bytes data).

Lemma read_byte_in i : 0 ≤ i < frame_len data →
    ∃ b, read_byte data i = Ok b ∧ byte_at B i = Some b ∧ u8_ok b.
  Proof.
    destruct Hok as [Hwf Hb]. intros Hi.
    destruct (proj2 (byte_at_is_Some B i)) as [b E]; [unfold frame_wf in *; lia|].
    exists b. rewrite read_byte_spec, E by (done || lia).
    split_and!; [done..|]. by eapply byte_at_ok.
  Qed.

Lemma read_byte_out i : frame_len data ≤ i → read_byte data i = Err unexpected_end.
  Proof. intros. unfold read_byte. by rewrite (proj2 (Z.leb_le _ _)) by lia. Qed.

Lemma read_byte_Ok i b : 0 ≤ i → read_byte data i = Ok b →
    i < frame_len data ∧ byte_at B i = Some b ∧ u8_ok b.
  Proof.
    intros Hi Hr. destruct (decide (i < frame_len data)).
    - destruct (read_byte_in i) as (b' & E & ? & ?); [lia|].
      rewrite Hr in E. by injection E as <-.
    - rewrite read_byte_out in Hr by lia. done.
  Qed.

Lemma returns_read_byte i : 0 ≤ i → returns (read_byte data i).
  Proof.
    intros. destruct (decide (i < frame_len data)).
    - destruct (read_byte_in i) as (b & -> & _); [lia|done].
    - by rewrite read_byte_out by lia.
  Qed.

Lemma width_bytes_pos w : 0 < width_bytes w.
  Proof. by destruct w. Qed.

Lemma be_value_width w l : bytes_ok l → zlen l = width_bytes w →
    0 ≤ be_value l < 2 ^ 32.
  Proof.
    intros Hl Hw. pose proof (be_value_bound l Hl) as Hb. rewrite Hw in Hb.
    destruct w; simpl in Hb; lia.
  Qed.

  (** A length field inside the frame is read exactly. *)
Lemma read_width_in w off : 0 ≤ off → off + width_bytes w ≤ frame_len data →
    read_width w data off
    = Ok (be_value (sub_bytes B off (off + width_bytes w)), off + width_bytes w).
  Proof.
    intros Hoff Hlen.
    assert (bytes_ok (sub_bytes B off (off + width_bytes w))) as Hl
      by apply sub_bytes_ok, Hok.
    assert (zlen (sub_bytes B off (off + width_bytes w)) = width_bytes w) as Hz.
    { destruct Hok as [Hwf _]. unfold frame_wf in Hwf. pose proof (width_bytes_pos w).
      rewrite zlen_sub_bytes; lia. }
    pose proof (be_value_width w _ Hl Hz) as Hv.
    destruct w; simpl in *;
      unfold read_u8, read_u16, read_u32;
      repeat match goal with
      | |- context [read_byte data ?i] =>
          let b := fresh "b" in let E := fresh "E" in
          destruct (read_byte_in i) as (b & -> & E & _); [lia|]; simpl
      end;
      repeat match type of Hv with
      | context [sub_bytes B ?i ?j] =>
          first [ erewrite (sub_bytes_cons B i j) in Hv |- * by (eassumption || lia)
                | rewrite (sub_bytes_nil B i j) in Hv |- * by lia
                | match goal with E : byte_at _ ?k = Some _ |- _ =>
                    replace i with k in Hv |- * by lia end ]
      end; try done.
    unfold u32_to_usize. rewrite (proj2 (Z.ltb_lt _ _)) by lia. done.
  Qed.

Lemma read_width_out w off : 0 ≤ off → frame_len data < off + width_bytes w →
    ∃ e, read_width w data off = Err e.
  Proof.
    intros Hoff Hlen.
    destruct w; simpl in *; unfold read_u8, read_u16, read_u32;
      repeat match goal with
      | |- context [read_byte data ?i] =>
          destruct (decide (i < frame_len data));
          [ let b := fresh "b" in
            destruct (read_byte_in i) as (b & -> & _); [lia|]; simpl
          | rewrite (read_byte_out i) by lia; simpl ]
      end; first [lia | eauto].
  Qed.

Lemma read_width_Ok w off len off' : 0 ≤ off →
    read_width w data off = Ok (len, off') →
    off' = off + width_bytes w ∧ off' ≤ frame_len data
    ∧ len = be_value (sub_bytes B off off') ∧ 0 ≤ len < 2 ^ 32.
  Proof.
    intros Hoff Hr. destruct (decide (off + width_bytes w ≤ frame_len data)) as [Hin|Hout].
    - rewrite read_width_in in Hr by lia. injection Hr as <- <-.
      split_and!; [done|done|done|..]; apply (be_value_width w);
        try (by apply sub_bytes_ok, Hok); pose proof (width_bytes_pos w);
        destruct Hok as [Hwf _]; unfold frame_wf in Hwf; rewrite zlen_sub_bytes; lia.
    - destruct (read_width_out w off) as [e E]; [lia..|congruence].
  Qed.

Lemma returns_read_width w off : 0 ≤ off → returns (read_width w data off).
  Proof.
    intros. destruct (decide (off + width_bytes w ≤ frame_len data)).
    - by rewrite read_width_in by lia.
    - by destruct (read_width_out w off) as [e ->]; [lia..|].
  Qed.

Lemma read_u8_Ok off m off' : 0 ≤ off → read_u8 data off = Ok (m, off') →
    off' = off + 1 ∧ off < frame_len data ∧ byte_at B off = Some m ∧ u8_ok m.
  Proof.
    intros Hoff Hr. unfold read_u8 in Hr. inv_ok.
    apply read_byte_Ok in Ha; [|lia]. naive_solver.
  Qed.

Lemma returns_read_u8 off : 0 ≤ off → returns (read_u8 data off).
  Proof. apply (returns_read_width W8). Qed.

Lemma skip_bytes_Ok off len off' : 0 ≤ off ≤ frame_len data → 0 ≤ len →
    skip_bytes data off len = Ok off' ↔ off' = off + len ∧ off' ≤ frame_len data.
  Proof.
    intros. unfold skip_bytes.
    destruct (Z.ltb_spec (Z.max 0 (frame_len data - off)) len); [split; [done|lia]|].
    split; [intros [= <-]; lia|]. intros [-> _]. done.
  Qed.

Lemma returns_skip_bytes off len : returns (skip_bytes data off len).
  Proof. unfold skip_bytes. by case_match. Qed.
End readers.

#[export] Hint Resolve returns_skip_bytes : returns.

(** ** The scanner follows the format table *)

Lemma skip_bytes_0 data off : skip_bytes data off 0 = Ok off.
Proof.
  unfold skip_bytes. rewrite (proj2 (Z.ltb_ge _ _)) by lia. f_equal. lia.
Qed.

#[global] Instance mp_width_eq_dec : EqDecision mp_width.
Proof. solve_decision. Defined.
#[global] Instance mp_shape_eq_dec : EqDecision mp_shape.
Proof. solve_decision. Defined.

(** The shape each arm of the scanner gives its markers. *)
Definition arm_shape (marker : Z) : mp_shape :=
  if in_range 0x00 0x7f marker || in_range 0xe0 0xff marker
     || (marker =? 0xc0) || (marker =? 0xc2) || (marker =? 0xc3) then Sfixed 0
  else if marker =? 0xcc then Sfixed 1
  else if marker =? 0xcd then Sfixed 2
  else if marker =? 0xce then Sfixed 4
  else if marker =? 0xcf then Sfixed 8
  else if marker =? 0xd0 then Sfixed 1
  else if marker =? 0xd1 then Sfixed 2
  else if marker =? 0xd2 then Sfixed 4
  else if marker =? 0xd3 then Sfixed 8
  else if marker =? 0xca then Sfixed 4
  else if marker =? 0xcb then Sfixed 8
  else if in_range 0xa0 0xbf marker then Sfixed (Z.land marker 0x1f)
  else if marker =? 0xd9 then Ssized W8 0
  else if marker =? 0xda then Ssized W16 0
  else if marker =? 0xdb then Ssized W32 0
  else if marker =? 0xc4 then Ssized W8 0
  else if marker =? 0xc5 then Ssized W16 0
  else if marker =? 0xc6 then Ssized W32 0
  else if in_range 0x90 0x9f marker then Scount (Z.land marker 0x0f)
  else if marker =? 0xdc then Scounted W16 false
  else if marker =? 0xdd then Scounted W32 false
  else if in_range 0x80 0x8f marker then Scount (2 * Z.land marker 0x0f)
  else if marker =? 0xde then Scounted W16 true
  else if marker =? 0xdf then Scounted W32 true
  else if marker =? 0xd4 then Sfixed (1 + 1)
  else if marker =? 0xd5 then Sfixed (1 + 2)
  else if marker =? 0xd6 then Sfixed (1 + 4)
  else if marker =? 0xd7 then Sfixed (1 + 8)
  else if marker =? 0xd8 then Sfixed (1 + 16)
  else if marker =? 0xc7 then Ssized W8 1
  else if marker =? 0xc8 then Ssized W16 1
  else if marker =? 0xc9 then Ssized W32 1
  else Sreserved.

(** The arms agree with the specification's table on every octet. *)
Lemma arm_shape_table m : u8_ok m → arm_shape m = mp_shape_of m.
Proof. intros Hm. u8_decide Hm. Qed.

Lemma msgpack_skip_value_S fuel data off :
  frame_ok data → 0 ≤ off →
  msgpack_skip_value (S fuel) data off
  = '(m, off) ← read_u8 data off; shape_step fuel data off (mp_shape_of m).
Proof.
  intros Hok Hoff. cbn [msgpack_skip_value].
  apply bind_ext. intros [m off'] (_ & _ & _ & Hm)%read_u8_Ok; [|done..].
  rewrite <-(arm_shape_table m Hm). unfold arm_shape.
  repeat match goal with
  | |- (if ?b then _ else _) = _ =>
      destruct b; [clear Hm; first
        [ reflexivity | symmetry; apply skip_bytes_0
        | cbn [shape_step read_width]; destruct (read_u32 data off') as [[len o]| | |];
          simpl; [|done..]; destruct (u32_to_usize len); reflexivity ]|]
  end; reflexivity.
Qed.

Lemma mp_shape_bounds m : u8_ok m →
  match mp_shape_of m with
  | Sfixed n | Scount n => 0 ≤ n
  | Ssized _ extra => 0 ≤ extra
  | _ => True
  end.
Proof.
  intros Hm.
  assert (match mp_shape_of m with
    | Sfixed n | Scount n | Ssized _ n => 0 <=? n | _ => true end = true) as H
    by u8_decide Hm.
  by destruct (mp_shape_of m); try apply Z.leb_le.
Qed.

Lemma mp_item_nonempty x : mp_item x → 1 ≤ zlen x.
Proof. destruct 1; zlia. Qed.

(** ** The scanner accepts exactly the grammar *)
Section scanner.
Context (data : RawFrame) (Hok : frame_ok data).
  Local Notation B := (into_bytes data).
  Local Notation N := (frame_len data).

Lemma frame_len_bytes : N = zlen B.
  Proof. apply Hok. Qed.

Lemma shape_step_sound fuel off off' m :
    (∀ off n off', 0 ≤ off ≤ N → 0 ≤ n → msgpack_skip_n fuel data off n = Ok off' →
       off ≤ off' ≤ N ∧ mp_items n (sub_bytes B off off')) →
    u8_ok m → 0 ≤ off ≤ N →
    shape_step fuel data off (mp_shape_of m) = Ok off' →
    off ≤ off' ≤ N ∧ mp_item (m :: sub_bytes B off off').
  Proof.
    intros IH Hm Hoff. pose proof frame_len_bytes as HN.
    pose proof (mp_shape_bounds m Hm) as Hb.
    destruct (mp_shape_of m) as [n|w extra|n|w pairs|] eqn:Es; simpl; [..|done].
    - intros [-> ?]%skip_bytes_Ok; [|done..]. split; [lia|].
      eapply mp_fixed; [done..|]. rewrite zlen_sub_bytes; lia.
    - intros Hs. inv_ok. destruct a as [len o].
      apply read_width_Ok in Ha as (-> & ? & Hlen & ?); [|done|lia].
      pose proof (width_bytes_pos w).
      apply skip_bytes_Ok in Hs as [-> ?]; [|lia..]. split; [lia|].
      rewrite <-(sub_bytes_join B off (off + width_bytes w)) by lia.
      eapply mp_sized; [done..| |]; rewrite zlen_sub_bytes; lia.
    - intros Hs. apply IH in Hs as [??]; [|done..]. split; [lia|]. by eapply mp_count.
    - intros Hs. inv_ok. destruct a as [len o].
      apply read_width_Ok in Ha as (-> & ? & Hlen & ?); [|done|lia].
      pose proof (width_bytes_pos w).
      apply IH in Hs as [??]; [|lia|destruct pairs; simpl; lia]. split; [lia|].
      rewrite <-(sub_bytes_join B off (off + width_bytes w)) by lia.
      eapply mp_counted; [done..| |]; [rewrite zlen_sub_bytes; lia|by rewrite <-Hlen].
  Qed.

Lemma skip_sound fuel :
    (∀ off off', 0 ≤ off ≤ N → msgpack_skip_value fuel data off = Ok off' →
       off < off' ≤ N ∧ mp_item (sub_bytes B off off'))
    ∧ (∀ off n off', 0 ≤ off ≤ N → 0 ≤ n → msgpack_skip_n fuel data off n = Ok off' →
       off ≤ off' ≤ N ∧ mp_items n (sub_bytes B off off')).
  Proof.
    induction fuel as [|fuel [IHv IHn]]; [done|]. split.
    - intros off off' Hoff. rewrite msgpack_skip_value_S by (done || lia). intros Hs. inv_ok.
      destruct a as [m o]. apply read_u8_Ok in Ha as (-> & ? & Hm & ?); [|done|lia].
      apply shape_step_sound in Hs as [??]; [|done..|lia]. split; [lia|].
      by rewrite (sub_bytes_cons _ _ _ m) by (done || lia).
    - intros off n off' Hoff Hn. cbn [msgpack_skip_n].
      destruct (Z.leb_spec n 0).
      + intros [= <-]. split; [lia|]. rewrite sub_bytes_nil by lia.
        replace n with 0 by lia. constructor.
      + intros Hs. inv_ok. apply IHv in Ha as [??]; [|done].
        apply IHn in Hs as [??]; [|lia..]. split; [lia|].
        rewrite <-(sub_bytes_join B off a) by lia.
        replace n with (n - 1 + 1) by lia. constructor; [lia|done..].
  Qed.

Lemma skip_returns fuel :
    (∀ off, 0 ≤ off ≤ N → 2 * (N - off) + 1 ≤ Z.of_nat fuel →
       returns (msgpack_skip_value fuel data off))
    ∧ (∀ off n, 0 ≤ off ≤ N → 0 ≤ n → 2 * (N - off) + 2 ≤ Z.of_nat fuel →
       returns (msgpack_skip_n fuel data off n)).
  Proof.
    induction fuel as [|fuel [IHv IHn]]; [split; intros; lia|]. split.
    - intros off Hoff Hf. rewrite msgpack_skip_value_S by (done || lia).
      apply returns_bind; [apply returns_read_u8; [done|lia]|].
      intros [m o] (-> & ? & ? & Hm)%read_u8_Ok; [|done|lia].
      pose proof (mp_shape_bounds m Hm) as Hb.
      destruct (mp_shape_of m) as [n|w extra|n|w pairs|]; simpl; [auto with returns|..|done].
      + apply returns_bind; [apply returns_read_width; [done|lia]|]. intros []; auto with returns.
      + apply IHn; lia.
      + apply returns_bind; [apply returns_read_width; [done|lia]|].
        intros [len o] (-> & ? & ? & ?)%read_width_Ok; [|done|lia].
        pose proof (width_bytes_pos w).
        apply IHn; [lia|destruct pairs; simpl; lia|lia].
    - intros off n Hoff Hn Hf. cbn [msgpack_skip_n]. case_match; [done|].
      apply returns_bind; [apply IHv; lia|]. intros o Ho.
      apply (skip_sound fuel) in Ho as [??]; [|lia]. apply IHn; lia.
  Qed.

  (** [off..off+|x|] holds the bytes [x]. *)
Definition holds (off : Z) (x : list Z) : Prop :=
    0 ≤ off ∧ off + zlen x ≤ N ∧ sub_bytes B off (off + zlen x) = x.

Lemma holds_app off x y : holds off (x ++ y) → holds off x ∧ holds (off + zlen x) y.
  Proof.
    unfold holds. intros (? & Hl & E). autorewrite with zlen in *. zlen_facts.
    rewrite <-(sub_bytes_join B off (off + zlen x)) in E by lia.
    pose proof frame_len_bytes as HN.
    apply app_inj_1 in E as [E1 E2];
      [|pose proof (zlen_sub_bytes B off (off + zlen x)); unfold zlen in *; lia].
    split; split_and!; try lia; [done|]. by rewrite <-Z.add_assoc.
  Qed.

Lemma holds_cons off m x : holds off (m :: x) → 
    read_u8 data off = Ok (m, off + 1) ∧ holds (off + 1) x.
  Proof.
    intros H. destruct (holds_app off [m] x H) as [(? & ? & E) Hx]. split; [|done].
    unfold read_u8. change (zlen [m]) with 1 in *.
    destruct (read_byte_in data Hok off) as (b & -> & Hb & _); [lia|]. simpl.
    rewrite (sub_bytes_cons _ _ _ b), sub_bytes_nil in E by (done || lia).
    by injection E as ->.
  Qed.

Lemma holds_width off w lenb x : zlen lenb = width_bytes w → holds off (lenb ++ x) →
    read_width w data off = Ok (be_value lenb, off + width_bytes w)
    ∧ holds (off + width_bytes w) x ∧ 0 ≤ be_value lenb.
  Proof.
    intros Hw [(? & ? & E) Hx]%holds_app. rewrite <-Hw, read_width_in by (done || lia).
    rewrite <-Hw, E. split_and!; [done..|]. rewrite <-E.
    apply be_value_bound, sub_bytes_ok, Hok.
  Qed.

Lemma skip_complete :
    (∀ x, mp_item x → ∀ off fuel, holds off x → 2 * zlen x ≤ Z.of_nat fuel →
       msgpack_skip_value fuel data off = Ok (off + zlen x))
    ∧ (∀ n xs, mp_items n xs → ∀ off fuel, holds off xs → 2 * zlen xs + 1 ≤ Z.of_nat fuel →
       msgpack_skip_n fuel data off n = Ok (off + zlen xs)).
  Proof.
    apply mp_item_items_ind.
    - intros m n body Hm Hs Hn off [|fuel] Hh Hf; [zlia|].
      rewrite msgpack_skip_value_S by (done || apply Hh).
      apply holds_cons in Hh as [-> (? & ? & _)]. simpl. rewrite Hs. simpl.
      apply skip_bytes_Ok; zlia.
    - intros m w extra lenb body Hm Hs Hw Hl off [|fuel] Hh Hf; [zlia|].
      rewrite msgpack_skip_value_S by (done || apply Hh).
      apply holds_cons in Hh as [-> Hh]. simpl. rewrite Hs. simpl.
      apply (holds_width _ w) in Hh as [-> [(? & ? & _) ?]]; [|done]. simpl.
      pose proof (mp_shape_bounds m Hm) as Hb. rewrite Hs in Hb.
      apply skip_bytes_Ok; zlia.
    - intros m n body Hm Hs _ IH off [|fuel] Hh Hf; [zlia|].
      rewrite msgpack_skip_value_S by (done || apply Hh).
      apply holds_cons in Hh as [-> Hh]. simpl. rewrite Hs. simpl.
      rewrite IH by (done || zlia). f_equal. zlia.
    - intros m w pairs lenb body Hm Hs Hw _ IH off [|fuel] Hh Hf; [zlia|].
      rewrite msgpack_skip_value_S by (done || apply Hh).
      apply holds_cons in Hh as [-> Hh]. simpl. rewrite Hs. simpl.
      apply (holds_width _ w) in Hh as (-> & Hh & ?); [|done]. simpl.
      rewrite IH by (done || zlia). f_equal. zlia.
    - intros off [|fuel] Hh Hf; [zlia|]. simpl. f_equal. zlia.
    - intros n x xs Hn Hx IHx _ IHxs off [|fuel] Hh Hf; [zlia|].
      apply holds_app in Hh as [Hh1 Hh2]. apply mp_item_nonempty in Hx.
      cbn [msgpack_skip_n]. rewrite (proj2 (Z.leb_gt _ _)) by lia.
      rewrite IHx by (done || zlia). simpl.
      replace (n + 1 - 1) with n by lia.
      rewrite IHxs by (done || zlia). f_equal. zlia.
  Qed.

  (** A call reads an octet before it calls itself. *)
Lemma skip_frames_bound fuel :
    (∀ off, 0 ≤ off ≤ N → skip_frames fuel data off ≤ N - off + 1)
    ∧ (∀ off n, 0 ≤ off ≤ N → skip_n_frames fuel data off n ≤ N - off + 1).
  Proof.
    induction fuel as [|fuel [IHv IHn]]; [split; intros; simpl; lia|]. split.
    - intros off Hoff. cbn [skip_frames]. destruct (read_u8 data off) as [[m o]| | |] eqn:Hr; try lia.
      apply read_u8_Ok in Hr as (-> & ? & Hm & ?); [|done|lia].
      destruct (mp_shape_of m) as [n|w extra|n|w pairs|]; try lia.
      + pose proof (IHn (off + 1) n ltac:(lia)). lia.
      + destruct (read_width w data (off + 1)) as [[len o]| | |] eqn:Hw; try lia.
        apply read_width_Ok in Hw as (-> & ? & ? & ?); [|done|lia]. pose proof (width_bytes_pos w).
        pose proof (IHn (off + 1 + width_bytes w) (counted_items pairs len) ltac:(lia)). lia.
    - intros off n Hoff. cbn [skip_n_frames]. case_match; [lia|]. apply Z.max_lub; [by apply IHv|].
      destruct (msgpack_skip_value fuel data off) as [o| | |] eqn:Ho; try lia.
      apply (proj1 (skip_sound fuel)) in Ho as [? _]; [|done]. pose proof (IHn o (n - 1) ltac:(lia)). lia.
  Qed.

Lemma fuel_enough : Z.of_nat (msgpack_fuel data) = 2 * N + 2.
  Proof. unfold msgpack_fuel. pose proof frame_len_bytes. zlia. Qed.

Lemma returns_skip_value off : 0 ≤ off ≤ N →
    returns (msgpack_skip_value (msgpack_fuel data) data off).
  Proof. intros. apply skip_returns; [done|]. rewrite fuel_enough. lia. Qed.

Lemma returns_read_value_range off : 0 ≤ off ≤ N →
    returns (msgpack_read_value_range data off).
  Proof. intros. apply returns_bind; [by apply returns_skip_value|done]. Qed.

Lemma read_value_range_iff off s e stop : 0 ≤ off ≤ N →
    msgpack_read_value_range data off = Ok ((s, e), stop) ↔
    s = off ∧ stop = e ∧ off ≤ e ∧ e ≤ N ∧ mp_item (sub_bytes B off e).
  Proof.
    intros Hoff. unfold msgpack_read_value_range. split.
    - intros H. inv_ok. apply skip_sound in Ha; [|done]. naive_solver lia.
    - intros (-> & -> & ? & ? & Hx).
      pose proof frame_len_bytes as HN.
      assert (zlen (sub_bytes B off e) = e - off) as Hz by (rewrite zlen_sub_bytes; lia).
      rewrite (proj1 skip_complete _ Hx); rewrite ?Hz.
      + simpl. by replace (off + (e - off)) with e by lia.
      + unfold holds. rewrite Hz. replace (off + (e - off)) with e by lia. split_and!; done || lia.
      + rewrite fuel_enough. lia.
  Qed.
End scanner.

(** Nested one-element arrays around [nil], and the frames they take. *)
Definition nested (n : nat) : RawFrame := Contiguous (replicate n 0x91 ++ [0xc0]).

Lemma nested_ok n : frame_ok (nested n).
Proof.
  split; [done|]. simpl. apply Forall_app. split; [apply Forall_replicate|repeat constructor]; unfold u8_ok; lia.
Qed.

Lemma nested_len n : frame_len (nested n) = Z.of_nat n + 1.
Proof. simpl. by rewrite zlen_app, zlen_replicate. Qed.

Lemma read_nested n k : (k < n)%nat → read_u8 (nested n) (Z.of_nat k) = Ok (0x91, Z.of_nat (S k)).
Proof.
  intros Hk. unfold read_u8. rewrite read_byte_spec by (done || lia).
  replace (byte_at _ _) with (Some 0x91); [simpl; do 2 f_equal; lia|].
  symmetry. apply byte_at_Some. split; [lia|]. simpl.
  rewrite lookup_app_l by (rewrite length_replicate; lia). apply lookup_replicate_2. lia.
Qed.

Lemma skip_frames_nonneg data fuel :
  (∀ off, 0 ≤ skip_frames fuel data off) ∧ (∀ off n, 0 ≤ skip_n_frames fuel data off n).
Proof.
  induction fuel as [|fuel [IHv IHn]]; [done|]. split.
  - intros off. cbn [skip_frames]. destruct (read_u8 data off) as [[m o]| | |]; [|lia..].
    destruct (mp_shape_of m) as [| |n|w pairs|]; try lia; [pose proof (IHn o n); lia|].
    destruct (read_width w data o) as [[len o']| | |]; [|lia..]. pose proof (IHn o' (counted_items pairs len)). lia.
  - intros off n. cbn [skip_n_frames]. case_match; [lia|]. pose proof (IHv off). lia.
Qed.

Lemma nested_frames n fuel k : (k ≤ n)%nat → (2 * (n - k) < fuel)%nat →
  Z.of_nat (n - k) < skip_frames fuel (nested n) (Z.of_nat k).
Proof.
  revert k. induction fuel as [fuel IH] using lt_wf_ind. intros k Hk Hf.
  destruct (decide (k = n)) as [->|].
  { destruct fuel as [|fuel]; [lia|]. rewrite Nat.sub_diag. cbn [skip_frames].
    pose proof (proj2 (skip_frames_nonneg (nested n) fuel)) as Hn.
    destruct (read_u8 _ _) as [[m o]| | |]; [|lia..]. destruct (mp_shape_of m) as [| |c|w pairs|]; try lia;
      [pose proof (Hn o c); lia|]. destruct (read_width _ _ _) as [[len o']| | |]; [|lia..].
    pose proof (Hn o' (counted_items pairs len)). lia. }
  destruct fuel as [|[|fuel]]; [lia..|]. cbn [skip_frames]. rewrite read_nested by lia.
  change (mp_shape_of 0x91) with (Scount 1). cbv iota. cbn [skip_n_frames].
  change (1 <=? 0) with false. cbv iota. pose proof (IH fuel ltac:(lia) (S k) ltac:(lia) ltac:(lia)). lia.
Qed.

(** C34: the scanner accepts exactly the MessagePack grammar: from an offset
    inside the frame it returns the range of an item if and only if that range
    holds a well-formed item, within the recursion budget. *)
Theorem msgpack_read_value_range_exact data off s e stop :
  frame_ok data → 0 ≤ off ≤ frame_len data →
  msgpack_read_value_range data off = Ok ((s, e), stop) ↔
  s = off ∧ stop = e ∧ off ≤ e ∧ e ≤ frame_len data
  ∧ mp_item (sub_bytes (into_bytes data) off e).
Proof. intros Hok. by apply read_value_range_iff. Qed.

Lemma msgpack_read_value_range_exact_witness :
  mp_item (sub_bytes [0x00; 0x82; 0xa1; 0x61; 0x01; 0xc0; 0xcd; 1; 2] 1 9).
Proof.
  refine (proj2 (proj2 (proj2 (proj2 (proj1 (msgpack_read_value_range_exact
    (Contiguous [0x00; 0x82; 0xa1; 0x61; 0x01; 0xc0; 0xcd; 1; 2]) 1 1 9 9 _ _) _))))).
  - split; [done|]. unfold bytes_ok, u8_ok. repeat constructor; lia.
  - split; [lia|]. vm_compute. discriminate.
  - vm_compute. reflexivity.
Defined.

(** the recursion depth of the scanner is not bounded: a message nests as
    deep as it is long, and every level takes a stack frame of
    [msgpack_skip_value].  [n] nested one-element arrays around [nil] are
    accepted, and no smaller budget than [n + 1] suffices. *)
Theorem msgpack_skip_value_depth n fuel :
  let data := nested n in
  msgpack_skip_value (msgpack_fuel data) data 0 = Ok (Z.of_nat n + 1)
  ∧ ((fuel ≤ n)%nat → msgpack_skip_value fuel data 0 = NoFuel).
Proof.
  intros data. pose proof (nested_ok n : frame_ok data) as Hok.
  assert (∀ k, mp_item (replicate k 0x91 ++ [0xc0])) as Hitem.
  { induction k as [|k IH].
    - by apply (mp_fixed 0xc0 0 []).
    - assert (mp_items 1 (replicate k 0x91 ++ [0xc0])) as Hone.
      { rewrite <-(app_nil_r (replicate k 0x91 ++ [0xc0])).
        apply (mp_more 0); [lia|done|constructor]. }
      by apply (mp_count 0x91 1). }
  pose proof (nested_len n : frame_len data = _) as Hlen.
  split.
  - assert (holds data 0 (replicate n 0x91 ++ [0xc0])) as Hh.
    { split; [lia|]. rewrite Z.add_0_l. split; [done|]. apply sub_bytes_full. }
    rewrite (proj1 (skip_complete data Hok) _ (Hitem n) 0 _ Hh).
    + f_equal. rewrite zlen_app, zlen_replicate. change (zlen [0xc0]) with 1. lia.
    + rewrite fuel_enough by done. rewrite Hlen, zlen_app, zlen_replicate.
      change (zlen [0xc0]) with 1. lia.
  - intros Hf.
    assert (∀ fuel k, (fuel + k ≤ n)%nat →
      msgpack_skip_value fuel data (Z.of_nat k) = NoFuel) as Hno; [|by apply (Hno fuel 0%nat); lia].
    clear fuel Hf. induction fuel as [fuel IH] using lt_wf_ind. intros k Hk.
    destruct fuel as [|[|fuel]]; [done|..];
      (rewrite msgpack_skip_value_S by (done || lia);
       rewrite (read_nested n k ltac:(lia) : read_u8 data _ = _)).
    + done.
    + cbn [mbind outcome_bind]. change (mp_shape_of 0x91) with (Scount 1). cbn [shape_step msgpack_skip_n].
      change (1 <=? 0) with false. cbv iota. by rewrite IH by lia.
Qed.

Lemma msgpack_skip_value_depth_witness :
  msgpack_skip_value 2 (Contiguous [0x91; 0x91; 0xc0]) 0 = NoFuel.
Proof. apply (proj2 (msgpack_skip_value_depth 2 2)). lia. Defined.
