(* ===== verification/DemoSerde.v ===== *)
(** * A concrete decoder instance

    The serde crates are a parameter of the development ([SerdeLib]).  This
    file holds one small instance, enough to run the parsers on concrete
    messages: single-octet integers, short strings, empty and scalar values. *)
From S2P Require Import Prelude Bytes Text WampTypes.

Definition demo_rmp_string (l : list Z) : option str :=
  match l with
  | m :: body =>
      if (0xa0 <=? m) && (m <? 0xc0) && (zlen body =? m - 0xa0)
      then utf8_decode body else None
  | [] => None
  end.

Definition demo_rmp_u64 (l : list Z) : option Z :=
  match l with [m] => if m <? 0x80 then Some m else None | _ => None end.

Definition demo_rmp_value (l : list Z) : string + value :=
  match l with
  | [m] => if m <? 0x80 then inr (VU8 m)
           else if m =? 0x80 then inr (VMap [])
           else if m =? 0x90 then inr (VSeq [])
           else if m =? 0xc0 then inr VUnit
           else inl "unsupported"%string
  | _ => match demo_rmp_string l with
         | Some s => inr (VString s) | None => inl "unsupported"%string end
  end.

(** One CBOR item of the demo: a small integer, a short string, an empty array
    or map, an array of one small integer, null. *)
Definition demo_cbor_item (l : list Z) : string + (value * Z) :=
  match l with
  | m :: body =>
      if m <? 24 then inr (VU8 m, 1)
      else if (0x60 <=? m) && (m <? 0x78) then
        match utf8_decode (take (Z.to_nat (m - 0x60)) body) with
        | Some s => if m - 0x60 <=? zlen body then inr (VString s, 1 + (m - 0x60))
                    else inl "eof"%string
        | None => inl "utf8"%string
        end
      else if m =? 0x80 then inr (VSeq [], 1)
      else if m =? 0x81 then
        match body with
        | n :: _ => if n <? 24 then inr (VSeq [VU8 n], 2) else inl "unsupported"%string
        | [] => inl "eof"%string
        end
      else if m =? 0xa0 then inr (VMap [], 1)
      else if m =? 0xf6 then inr (VUnit, 1)
      else inl "unsupported"%string
  | [] => inl "eof"%string
  end.

(** A whole CBOR message array, as the reader-based path decodes it. *)
Fixpoint demo_cbor_items (n : nat) (l : list Z) : string + (list value * list Z) :=
  match n with
  | O => inr ([], l)
  | S n =>
      match demo_cbor_item l with
      | inl e => inl e
      | inr (v, k) =>
          match demo_cbor_items n (drop (Z.to_nat k) l) with
          | inl e => inl e
          | inr (vs, rest) => inr (v :: vs, rest)
          end
      end
  end.

Definition demo_cbor_whole (l : list Z) : string + value :=
  match l with
  | m :: body =>
      if (0x80 <=? m) && (m <? 0x98) then
        match demo_cbor_items (Z.to_nat (m - 0x80)) body with
        | inr (vs, []) => inr (VSeq vs)
        | inr _ => inl "trailing"%string
        | inl e => inl e
        end
      else inl "unsupported"%string
  | [] => inl "eof"%string
  end.

(** JSON: the elements of a flat array whose elements hold no comma. *)
Fixpoint demo_json_split (l : list Z) (at_ start : Z) (cur : list Z) : list RawValue :=
  match l with
  | [] => []
  | c :: l =>
      if (c =? 0x2c) then mkRawValue start cur :: demo_json_split l (at_ + 1) (at_ + 1) []
      else if (c =? 0x5d) && (match l with [] => true | _ => false end)
      then [mkRawValue start cur]
      else demo_json_split l (at_ + 1) start (cur ++ [c])
  end.

Definition demo_json_fields (l : list Z) : string + list RawValue :=
  match l with
  | 0x5b :: l =>
      if forallb (λ c, (0 <=? c) && (c <? 0x80)) l
      then inr (demo_json_split l 1 1 []) else inl "not ascii"%string
  | _ => inl "expected array"%string
  end.

Definition demo_json_u64 (s : str) : option Z :=
  match s with
  | [] => None
  | _ => if forallb (λ c, (0x30 <=? c) && (c <=? 0x39)) s
         then Some (foldl (λ acc c, acc * 10 + (c - 0x30)) 0 s) else None
  end.

Definition demo_json_str (s : str) : string + str :=
  match s with
  | 0x27 :: body => inr (take (length body - 1) body)
  | _ => inl "expected string"%string
  end.

Definition demo_json_value (s : str) : string + value :=
  if str_eqb s (lit "{}") then inr (VMap [])
  else match demo_json_u64 s with Some n => inr (VU64 n) | None => inl "unsupported"%string end.

(** A gibibyte at once, and a stack of ten thousand frames. *)
Definition DemoMachine : Machine := {| grants n := n <=? 2 ^ 30; stack_frames := 10000 |}.

Definition DemoSerde : SerdeLib := {|
  serde_machine := DemoMachine;
  rmp_string := demo_rmp_string;
  rmp_u64 := demo_rmp_u64;
  rmp_value := demo_rmp_value;
  cbor_value_de l := match demo_cbor_item l with inr (v, _) => inr v | inl e => inl e end;
  cbor_reader_de := demo_cbor_whole;
  cbor_from_slice l := match l with [0xa0] => inr (VMap []) | _ => inl "unsupported"%string end;
  cbor_skip l := match demo_cbor_item l with inr (_, k) => inr (Z.to_N k) | inl e => inl e end;
  json_fields := demo_json_fields;
  json_end _ := inr ();
  json_str_de := demo_json_str;
  json_u64_de := demo_json_u64;
  json_value_de := demo_json_value;
  json_to_vec _ := inl "unsupported"%string;
  rmp_to_vec _ := inl "unsupported"%string;
  cbor_to_vec v := match v with
    | VSeq [] => inr [0x80] | VSeq [VU8 n] => inr [0x81; n] | VMap [] => inr [0xa0]
    | _ => inl "unsupported"%string end;
  json_whole_de _ := inl "unsupported"%string;
  rmp_whole_de _ := inl "unsupported"%string;
|}.
