(* ===== verification/MsgpackMessage.v ===== *)
(** * MessagePack messages

    [parse_msgpack_message] of [ct_core/src/wamp.rs] and its accessors.  The
    scanner cuts the message into one range per element; the arms decode the
    metadata elements and keep the application payload as slices of the frame.
    The large [match code] is split by message group; an arm group returns
    [None] for the codes it does not handle. *)
From S2P Require Import Prelude Bytes Text WampTypes RawFrame Msgpack DemoSerde.

Definition range_at (ranges : list (Z * Z)) (index : nat) (label : string) :
    outcome ParseError (Z * Z) := ok_or (MissingElement label) (ranges !! index).

Definition range_opt (ranges : list (Z * Z)) (index : nat) : option (Z * Z) :=
  ranges !! index.

Definition msgpack_is_nil (slice : list Z) : bool :=
  match slice with b :: _ => b =? 0xc0 | [] => false end.

Definition msgpack_is_array (slice : list Z) : bool :=
  match slice with
  | b :: _ => in_range 0x90 0x9f b || (b =? 0xdc) || (b =? 0xdd)
  | [] => false
  end.

Definition msgpack_is_map (slice : list Z) : bool :=
  match slice with
  | b :: _ => in_range 0x80 0x8f b || (b =? 0xde) || (b =? 0xdf)
  | [] => false
  end.

Section accessors.
Context `{SL : !SerdeLib}.

Definition msgpack_string (data : RawFrame) (range : Z * Z) (label : string) :
    outcome ParseError str :=
  slice ← slice_or_copy data range;
  if msgpack_is_nil slice then Err (ExpectedString label)
  else ok_or (ExpectedString label) (rmp_string slice).

Definition msgpack_u64 (data : RawFrame) (range : Z * Z) (label : string) :
    outcome ParseError Z :=
  slice ← slice_or_copy data range;
  if msgpack_is_nil slice then Err (ExpectedIdentifier label)
  else ok_or (ExpectedIdentifier label) (rmp_u64 slice).

Definition msgpack_optional_u64 (data : RawFrame) (range : option (Z * Z))
    (label : string) : outcome ParseError (option Z) :=
  match range with
  | None => Ok None
  | Some range =>
      slice ← slice_or_copy data range;
      if msgpack_is_nil slice then Ok None
      else Some <$> msgpack_u64 data range label
  end.

Definition msgpack_map_from_slice (slice : list Z) (label : string) :
    outcome ParseError ValueMap :=
  if negb (msgpack_is_map slice) then Err (ExpectedMap label)
  else value ← lift_de (rmp_value slice);
       match value with
       | VMap entries => Ok entries
       | VUnit => Ok []
       | _ => Err (ExpectedMap label)
       end.

Definition msgpack_required_map (data : RawFrame) (range : Z * Z) (label : string) :
    outcome ParseError ValueMap :=
  slice ← slice_or_copy data range;
  if msgpack_is_nil slice then Err (ExpectedMap label)
  else msgpack_map_from_slice slice label.

Definition msgpack_optional_map (data : RawFrame) (range : option (Z * Z))
    (label : string) : outcome ParseError ValueMap :=
  match range with
  | None => Ok []
  | Some range =>
      slice ← slice_or_copy data range;
      if msgpack_is_nil slice then Ok []
      else msgpack_map_from_slice slice label
  end.

(** Both frame arguments of the code's [msgpack_payload] are the message's own
    frame. *)
Definition msgpack_payload (data : RawFrame)
    (args_label : string) (args_range : option (Z * Z))
    (kwargs_label : string) (kwargs_range : option (Z * Z)) :
    outcome ParseError Payload :=
  args ← match args_range with
         | None => Ok None
         | Some range =>
             slice ← slice_or_copy data range;
             if msgpack_is_nil slice then Ok None
             else if msgpack_is_array slice then Some <$> slice_or_copy data range
             else Err (ExpectedList args_label)
         end;
  kwargs ← match kwargs_range with
           | None => Ok None
           | Some range =>
               slice ← slice_or_copy data range;
               if msgpack_is_nil slice then Ok None
               else if msgpack_is_map slice then Some <$> slice_or_copy data range
               else Err (ExpectedMap kwargs_label)
           end;
  Ok (mkPayload args kwargs None).

Definition msgpack_value (data : RawFrame) (range : Z * Z) : outcome ParseError value :=
  slice ← slice_or_copy data range;
  lift_de (rmp_value slice).

(** The arms for session management messages: codes 1 to 8. *)
Definition msgpack_session_message (data : RawFrame) (ranges : list (Z * Z)) (code : Z) :
    option (outcome ParseError WampMessage) :=
  if code =? 1 then Some (
    realm ← (r ← range_at ranges 1 "hello.realm"; msgpack_string data r "hello.realm");
    details ← (r ← range_at ranges 2 "hello.details"; msgpack_required_map data r "hello.details");
    Ok (Hello realm details))
  else if code =? 2 then Some (
    session_id ← (r ← range_at ranges 1 "welcome.session_id"; msgpack_u64 data r "welcome.session_id");
    details ← (r ← range_at ranges 2 "welcome.details"; msgpack_required_map data r "welcome.details");
    Ok (Welcome session_id details))
  else if code =? 3 then Some (
    details ← (r ← range_at ranges 1 "abort.details"; msgpack_required_map data r "abort.details");
    reason ← (r ← range_at ranges 2 "abort.reason"; msgpack_string data r "abort.reason");
    payload ← msgpack_payload data "abort.arguments" (range_opt ranges 3)
      "abort.argumentsKw" (range_opt ranges 4);
    Ok (Abort details reason payload))
  else if code =? 4 then Some (
    auth_method ← (r ← range_at ranges 1 "challenge.auth_method"; msgpack_string data r "challenge.auth_method");
    extra ← (r ← range_at ranges 2 "challenge.extra"; msgpack_required_map data r "challenge.extra");
    Ok (Challenge auth_method extra))
  else if code =? 5 then Some (
    signature ← (r ← range_at ranges 1 "authenticate.signature"; msgpack_string data r "authenticate.signature");
    extra ← msgpack_optional_map data (range_opt ranges 2) "authenticate.extra";
    Ok (Authenticate signature extra))
  else if code =? 6 then Some (
    details ← (r ← range_at ranges 1 "goodbye.details"; msgpack_required_map data r "goodbye.details");
    reason ← (r ← range_at ranges 2 "goodbye.reason"; msgpack_string data r "goodbye.reason");
    payload ← msgpack_payload data "goodbye.arguments" (range_opt ranges 3)
      "goodbye.argumentsKw" (range_opt ranges 4);
    Ok (Goodbye details reason payload))
  else if code =? 7 then Some (
    details ← (r ← range_at ranges 1 "heartbeat.details"; msgpack_required_map data r "heartbeat.details");
    ping ← msgpack_optional_u64 data (range_opt ranges 2) "heartbeat.ping";
    incoming ← msgpack_optional_u64 data (range_opt ranges 3) "heartbeat.incoming";
    outgoing ← msgpack_optional_u64 data (range_opt ranges 4) "heartbeat.outgoing";
    Ok (Heartbeat details ping incoming outgoing))
  else if code =? 8 then Some (
    request_type ← (r ← range_at ranges 1 "error.request_type"; msgpack_u64 data r "error.request_type");
    request_id ← (r ← range_at ranges 2 "error.request_id"; msgpack_u64 data r "error.request_id");
    details ← (r ← range_at ranges 3 "error.details"; msgpack_required_map data r "error.details");
    uri ← (r ← range_at ranges 4 "error.uri"; msgpack_string data r "error.uri");
    payload ← msgpack_payload data "error.arguments" (range_opt ranges 5)
      "error.argumentsKw" (range_opt ranges 6);
    Ok (Error request_type request_id details uri payload))
  else None.

(** The arms for publish and subscribe messages: codes 16 to 36. *)
Definition msgpack_pubsub_message (data : RawFrame) (ranges : list (Z * Z)) (code : Z) :
    option (outcome ParseError WampMessage) :=
  if code =? 16 then Some (
    request_id ← (r ← range_at ranges 1 "publish.request_id"; msgpack_u64 data r "publish.request_id");
    options ← (r ← range_at ranges 2 "publish.options"; msgpack_required_map data r "publish.options");
    topic ← (r ← range_at ranges 3 "publish.topic"; msgpack_string data r "publish.topic");
    payload ← msgpack_payload data "publish.arguments" (range_opt ranges 4)
      "publish.argumentsKw" (range_opt ranges 5);
    Ok (Publish request_id options topic payload))
  else if code =? 17 then Some (
    request_id ← (r ← range_at ranges 1 "published.request_id"; msgpack_u64 data r "published.request_id");
    publication_id ← (r ← range_at ranges 2 "published.publication_id"; msgpack_u64 data r "published.publication_id");
    Ok (Published request_id publication_id))
  else if code =? 32 then Some (
    request_id ← (r ← range_at ranges 1 "subscribe.request_id"; msgpack_u64 data r "subscribe.request_id");
    options ← (r ← range_at ranges 2 "subscribe.options"; msgpack_required_map data r "subscribe.options");
    topic ← (r ← range_at ranges 3 "subscribe.topic"; msgpack_string data r "subscribe.topic");
    Ok (Subscribe request_id options topic))
  else if code =? 33 then Some (
    request_id ← (r ← range_at ranges 1 "subscribed.request_id"; msgpack_u64 data r "subscribed.request_id");
    subscription_id ← (r ← range_at ranges 2 "subscribed.subscription_id"; msgpack_u64 data r "subscribed.subscription_id");
    Ok (Subscribed request_id subscription_id))
  else if code =? 34 then Some (
    request_id ← (r ← range_at ranges 1 "unsubscribe.request_id"; msgpack_u64 data r "unsubscribe.request_id");
    subscription_id ← (r ← range_at ranges 2 "unsubscribe.subscription_id"; msgpack_u64 data r "unsubscribe.subscription_id");
    Ok (Unsubscribe request_id subscription_id))
  else if code =? 35 then Some (
    request_id ← (r ← range_at ranges 1 "unsubscribed.request_id"; msgpack_u64 data r "unsubscribed.request_id");
    details ← msgpack_optional_map data (range_opt ranges 2) "unsubscribed.details";
    Ok (Unsubscribed request_id details))
  else if code =? 36 then Some (
    subscription_id ← (r ← range_at ranges 1 "event.subscription_id"; msgpack_u64 data r "event.subscription_id");
    publication_id ← (r ← range_at ranges 2 "event.publication_id"; msgpack_u64 data r "event.publication_id");
    details ← (r ← range_at ranges 3 "event.details"; msgpack_required_map data r "event.details");
    payload ← msgpack_payload data "event.arguments" (range_opt ranges 4)
      "event.argumentsKw" (range_opt ranges 5);
    Ok (Event subscription_id publication_id details payload))
  else None.

(** The arms for calls: codes 48 to 50. *)
Definition msgpack_call_message (data : RawFrame) (ranges : list (Z * Z)) (code : Z) :
    option (outcome ParseError WampMessage) :=
  if code =? 48 then Some (
    request_id ← (r ← range_at ranges 1 "call.request_id"; msgpack_u64 data r "call.request_id");
    options ← (r ← range_at ranges 2 "call.options"; msgpack_required_map data r "call.options");
    procedure ← (r ← range_at ranges 3 "call.procedure"; msgpack_string data r "call.procedure");
    payload ← msgpack_payload data "call.arguments" (range_opt ranges 4)
      "call.argumentsKw" (range_opt ranges 5);
    Ok (Call request_id options procedure payload))
  else if code =? 49 then Some (
    request_id ← (r ← range_at ranges 1 "cancel.request_id"; msgpack_u64 data r "cancel.request_id");
    options ← (r ← range_at ranges 2 "cancel.options"; msgpack_required_map data r "cancel.options");
    Ok (Cancel request_id options))
  else if code =? 50 then Some (
    request_id ← (r ← range_at ranges 1 "result.request_id"; msgpack_u64 data r "result.request_id");
    details ← (r ← range_at ranges 2 "result.details"; msgpack_required_map data r "result.details");
    payload ← msgpack_payload data "result.arguments" (range_opt ranges 3)
      "result.argumentsKw" (range_opt ranges 4);
    Ok (Result request_id details payload))
  else None.

(** The arms for registrations: codes 64 to 67. *)
Definition msgpack_registration_message (data : RawFrame) (ranges : list (Z * Z)) (code : Z) :
    option (outcome ParseError WampMessage) :=
  if code =? 64 then Some (
    request_id ← (r ← range_at ranges 1 "register.request_id"; msgpack_u64 data r "register.request_id");
    options ← (r ← range_at ranges 2 "register.options"; msgpack_required_map data r "register.options");
    procedure ← (r ← range_at ranges 3 "register.procedure"; msgpack_string data r "register.procedure");
    Ok (Register request_id options procedure))
  else if code =? 65 then Some (
    request_id ← (r ← range_at ranges 1 "registered.request_id"; msgpack_u64 data r "registered.request_id");
    registration_id ← (r ← range_at ranges 2 "registered.registration_id"; msgpack_u64 data r "registered.registration_id");
    Ok (Registered request_id registration_id))
  else if code =? 66 then Some (
    request_id ← (r ← range_at ranges 1 "unregister.request_id"; msgpack_u64 data r "unregister.request_id");
    registration_id ← (r ← range_at ranges 2 "unregister.registration_id"; msgpack_u64 data r "unregister.registration_id");
    Ok (Unregister request_id registration_id))
  else if code =? 67 then Some (
    request_id ← (r ← range_at ranges 1 "unregistered.request_id"; msgpack_u64 data r "unregistered.request_id");
    details ← msgpack_optional_map data (range_opt ranges 2) "unregistered.details";
    Ok (Unregistered request_id details))
  else None.

(** The arms for invocations: codes 68 to 70. *)
Definition msgpack_invocation_message (data : RawFrame) (ranges : list (Z * Z)) (code : Z) :
    option (outcome ParseError WampMessage) :=
  if code =? 68 then Some (
    request_id ← (r ← range_at ranges 1 "invocation.request_id"; msgpack_u64 data r "invocation.request_id");
    registration_id ← (r ← range_at ranges 2 "invocation.registration_id"; msgpack_u64 data r "invocation.registration_id");
    details ← (r ← range_at ranges 3 "invocation.details"; msgpack_required_map data r "invocation.details");
    payload ← msgpack_payload data "invocation.arguments" (range_opt ranges 4)
      "invocation.argumentsKw" (range_opt ranges 5);
    Ok (Invocation request_id registration_id details payload))
  else if code =? 69 then Some (
    request_id ← (r ← range_at ranges 1 "interrupt.request_id"; msgpack_u64 data r "interrupt.request_id");
    options ← (r ← range_at ranges 2 "interrupt.options"; msgpack_required_map data r "interrupt.options");
    Ok (Interrupt request_id options))
  else if code =? 70 then Some (
    request_id ← (r ← range_at ranges 1 "yield.request_id"; msgpack_u64 data r "yield.request_id");
    options ← (r ← range_at ranges 2 "yield.options"; msgpack_required_map data r "yield.options");
    payload ← msgpack_payload data "yield.arguments" (range_opt ranges 3)
      "yield.argumentsKw" (range_opt ranges 4);
    Ok (Yield request_id options payload))
  else None.

(** The arm for codes without one of their own. *)
Definition msgpack_unknown_message (data : RawFrame) (ranges : list (Z * Z)) (code : Z) :
    outcome ParseError WampMessage :=
  fields ← traverse_list (msgpack_value data) (drop 1 ranges);
  Ok (Unknown code fields).

(** A call that needs so many stack frames. *)
Definition on_stack {A} (frames : Z) (call : outcome ParseError A) : outcome ParseError A :=
  if frames <=? stack_frames then call else Panic.

(** The octets of a [Range<usize>]. *)
Definition RANGE_BYTES : Z := 16.

(** The loop that cuts the array into element ranges. *)
Fixpoint msgpack_read_ranges (fuel : nat) (data : RawFrame) (offset len : Z) :
    outcome ParseError (list (Z * Z) * Z) :=
  if len <=? 0 then Ok ([], offset)
  else match fuel with
       | O => NoFuel
       | S fuel =>
           '(range, offset) ← on_stack (skip_frames (msgpack_fuel data) data offset) (msgpack_read_value_range data offset);
           '(ranges, offset) ← msgpack_read_ranges fuel data offset (len - 1);
           Ok (range :: ranges, offset)
       end.

(** [match code { ... }] *)
Definition msgpack_message_of (data : RawFrame) (ranges : list (Z * Z)) (code : Z) :
    outcome ParseError WampMessage :=
  first_some
    [ msgpack_session_message data ranges code;
      msgpack_pubsub_message data ranges code;
      msgpack_call_message data ranges code;
      msgpack_registration_message data ranges code;
      msgpack_invocation_message data ranges code ]
    (msgpack_unknown_message data ranges code).

Definition parse_msgpack_message (raw_payload : RawFrame) :
    outcome ParseError ParsedMessage :=
  '(len, offset) ← msgpack_read_array_len raw_payload 0;
  if len =? 0 then Err (MissingElement "message code")
  else if negb (grants (RANGE_BYTES * len)) then Panic
  else
    '(ranges, offset) ← msgpack_read_ranges (msgpack_fuel raw_payload) raw_payload offset len;
    if negb (offset =? frame_len raw_payload)
    then Err (Deserialize "trailing data after MessagePack message array")
    else
      code ← (r ← range_at ranges 0 "message code";
              msgpack_u64 raw_payload r "message code");
      message ← msgpack_message_of raw_payload ranges code;
      Ok (mkParsedMessage message raw_payload MessagePack None).

End accessors.

(** ** Congruence: the parser sees a frame only through its bytes *)

Lemma read_u8_equiv f g off : frame_equiv f g → 0 ≤ off → read_u8 f off = read_u8 g off.
Proof. intros. unfold read_u8. by rewrite (frame_equiv_read f g). Qed.

Lemma read_width_equiv w f g off : frame_equiv f g → 0 ≤ off →
  read_width w f off = read_width w g off.
Proof.
  intros. destruct w; simpl; unfold read_u8, read_u16, read_u32;
    by rewrite !(frame_equiv_read f g) by (done || lia).
Qed.

Lemma skip_bytes_equiv f g off len : frame_equiv f g →
  skip_bytes f off len = skip_bytes g off len.
Proof. intros H. unfold skip_bytes. by rewrite (frame_equiv_len f g H). Qed.

Lemma skip_value_equiv f g fuel : frame_ok f → frame_ok g → frame_equiv f g →
  (∀ off, 0 ≤ off ≤ frame_len f →
     msgpack_skip_value fuel f off = msgpack_skip_value fuel g off)
  ∧ (∀ off n, 0 ≤ off ≤ frame_len f → 0 ≤ n →
       msgpack_skip_n fuel f off n = msgpack_skip_n fuel g off n).
Proof.
  intros Hf Hg E. induction fuel as [|fuel [IHv IHn]]; [done|]. split.
  - intros off Hoff. rewrite !msgpack_skip_value_S by (done || lia).
    rewrite <-(read_u8_equiv f g) by (done || lia).
    apply bind_ext. intros [m o] (-> & ? & _ & Hm)%read_u8_Ok; [|done|lia].
    pose proof (mp_shape_bounds m Hm) as Hb.
    destruct (mp_shape_of m) as [n|w extra|n|w pairs|]; simpl;
      rewrite <-?(read_width_equiv w f g) by (done || lia).
    + by apply skip_bytes_equiv.
    + apply bind_ext. intros [??] _. by apply skip_bytes_equiv.
    + apply IHn; lia.
    + apply bind_ext. intros [len o] (-> & ? & ? & ?)%read_width_Ok; [|done|lia].
      pose proof (width_bytes_pos w). apply IHn; [lia|destruct pairs; simpl; lia].
    + done.
  - intros off n Hoff Hn. cbn [msgpack_skip_n]. case_match; [done|].
    rewrite <-IHv by done. apply bind_ext. intros o Ho.
    apply (skip_sound f Hf fuel) in Ho as [??]; [|lia]. apply IHn; lia.
Qed.

Lemma read_value_range_equiv f g off : frame_ok f → frame_ok g → frame_equiv f g →
  0 ≤ off ≤ frame_len f →
  msgpack_read_value_range f off = msgpack_read_value_range g off.
Proof.
  intros Hf Hg E Hoff. unfold msgpack_read_value_range, msgpack_fuel.
  rewrite <-(frame_equiv_len f g E).
  by rewrite <-(proj1 (skip_value_equiv f g _ Hf Hg E)).
Qed.

Lemma read_array_len_equiv f g off : frame_equiv f g → 0 ≤ off →
  msgpack_read_array_len f off = msgpack_read_array_len g off.
Proof.
  intros. unfold msgpack_read_array_len, read_u16, read_u32.
  rewrite (read_u8_equiv f g) by done. apply bind_ext.
  intros [m o] Ho. assert (0 ≤ o).
  { apply map_err_Ok_inv in Ho. unfold read_u8 in Ho. inv_ok. lia. }
  by rewrite !(frame_equiv_read f g) by (done || lia).
Qed.

(** ** The element ranges *)

(** Consecutive items from [off] to [stop]. *)
Inductive item_chain (data : RawFrame) : Z → list (Z * Z) → Z → Prop :=
  | chain_nil off : item_chain data off [] off
  | chain_cons off mid ranges stop :
      off ≤ mid → mid ≤ frame_len data → mp_item (sub_bytes (into_bytes data) off mid) →
      item_chain data mid ranges stop → item_chain data off ((off, mid) :: ranges) stop.

Lemma item_chain_le data off ranges stop : item_chain data off ranges stop → off ≤ stop.
Proof. induction 1; lia. Qed.

Lemma item_chain_in data off ranges stop : 0 ≤ off →
  item_chain data off ranges stop → Forall (range_in (frame_len data)) ranges.
Proof.
  intros Hoff H. induction H; constructor; [by unfold range_in; simpl; lia|].
  apply IHitem_chain. lia.
Qed.

(** The bytes of the element ranges. *)
Definition chain_items (data : RawFrame) (ranges : list (Z * Z)) : list (list Z) :=
  (λ r, sub_bytes (into_bytes data) r.1 r.2) <$> ranges.

Lemma item_chain_items data off ranges stop : 0 ≤ off →
  item_chain data off ranges stop →
  Forall mp_item (chain_items data ranges)
  ∧ concat (chain_items data ranges) = sub_bytes (into_bytes data) off stop.
Proof.
  intros Hoff H. induction H as [off|off mid ranges stop ??? Hc IH]; simpl.
  - by rewrite sub_bytes_nil by lia.
  - destruct IH as [IH1 IH2]; [lia|]. split; [by constructor|].
    rewrite IH2. pose proof (item_chain_le _ _ _ _ Hc). by apply sub_bytes_join.
Qed.

Lemma on_stack_Ok `{SL : !SerdeLib} {A} frames (x : outcome ParseError A) a : on_stack frames x = Ok a → x = Ok a.
Proof. unfold on_stack. by case_match. Qed.

(** The frame has room: its nesting cannot exceed its octets. *)
Lemma on_stack_roomy `{SL : !SerdeLib} {A} data off (x : outcome ParseError A) : frame_ok data →
  0 < off ≤ frame_len data → frame_len data ≤ stack_frames →
  on_stack (skip_frames (msgpack_fuel data) data off) x = x.
Proof.
  intros Hok Hoff Hroom. unfold on_stack. pose proof (proj1 (skip_frames_bound data Hok (msgpack_fuel data)) off ltac:(lia)).
  by rewrite (proj2 (Z.leb_le _ _)) by lia.
Qed.

Lemma read_ranges_sound `{SL : !SerdeLib} data fuel off len ranges stop : frame_ok data →
  0 ≤ off ≤ frame_len data → 0 ≤ len →
  msgpack_read_ranges fuel data off len = Ok (ranges, stop) →
  item_chain data off ranges stop ∧ zlen ranges = len ∧ stop ≤ frame_len data.
Proof.
  intros Hok. revert off len ranges stop.
  induction fuel as [|fuel IH]; intros off len ranges stop Hoff Hlen; simpl;
    (destruct (Z.leb_spec len 0); [intros [= <- <-];
       split_and!; [constructor|rewrite zlen_nil; lia|lia]|]); [done|].
  intros H'. inv_ok. destruct a as [[s e] o].
  apply on_stack_Ok, read_value_range_iff in Ha as (-> & -> & ? & ? & ?); [|done..].
  inv_ok. destruct a as [rest o].
  apply IH in Ha as (Hc & Hz & ?); [|lia..]. injection H' as <- <-.
  split_and!; [by constructor|zlia|lia].
Qed.

(** Cutting ends, unless the stack is smaller than the frame. *)
Lemma read_ranges_end `{SL : !SerdeLib} data fuel off len : frame_ok data →
  0 < off ≤ frame_len data → frame_len data - off + 1 ≤ Z.of_nat fuel →
  returns (msgpack_read_ranges fuel data off len) ∨
  msgpack_read_ranges fuel data off len = Panic ∧ stack_frames < frame_len data.
Proof.
  intros Hok. revert off len. induction fuel as [|fuel IH]; intros off len Hoff Hf; [lia|].
  simpl. case_match; [by left|].
  destruct (Z.le_gt_cases (frame_len data) stack_frames) as [Hroom|Hroom];
    [rewrite on_stack_roomy by done|unfold on_stack; case_match; [|by right]];
    (destruct (msgpack_read_value_range data off) as [[[s e] o]| | |] eqn:E;
       [apply read_value_range_iff in E as (-> & -> & ? & ? & Hx); [|done|lia]; cbn [mbind outcome_bind]
       |by left|..|exfalso; pose proof (returns_read_value_range data Hok off ltac:(lia)) as Hr; by rewrite E in Hr]);
    try (apply mp_item_nonempty in Hx; pose proof (frame_len_bytes data Hok);
      rewrite zlen_sub_bytes in Hx by lia;
      destruct (IH e (len - 1) ltac:(lia) ltac:(lia)) as [Hr|[-> ?]]; [left|by right];
      apply returns_bind; [done|by intros []]).
  all: exfalso; pose proof (returns_read_value_range data Hok off ltac:(lia)) as Hr; by rewrite E in Hr.
Qed.

Lemma skip_frames_equiv f g fuel : frame_ok f → frame_ok g → frame_equiv f g →
  (∀ off, 0 ≤ off ≤ frame_len f → skip_frames fuel f off = skip_frames fuel g off)
  ∧ (∀ off n, 0 ≤ off ≤ frame_len f → skip_n_frames fuel f off n = skip_n_frames fuel g off n).
Proof.
  intros Hf Hg E. induction fuel as [|fuel [IHv IHn]]; [done|]. split.
  - intros off Hoff. cbn [skip_frames]. rewrite <-(read_u8_equiv f g) by (done || lia). f_equal.
    destruct (read_u8 f off) as [[m o]| | |] eqn:Hr; [|done..].
    apply read_u8_Ok in Hr as (-> & ? & Hm & ?); [|done|lia].
    destruct (mp_shape_of m) as [n|w extra|n|w pairs|]; try done; [apply IHn; lia|].
    rewrite <-(read_width_equiv w f g) by (done || lia).
    destruct (read_width w f (off + 1)) as [[len o]| | |] eqn:Hw; [|done..].
    apply read_width_Ok in Hw as (-> & ? & ? & ?); [|done|lia]. pose proof (width_bytes_pos w). apply IHn. lia.
  - intros off n Hoff. cbn [skip_n_frames]. case_match; [done|].
    rewrite IHv, (proj1 (skip_value_equiv f g fuel Hf Hg E) off) by done. f_equal.
    destruct (msgpack_skip_value fuel g off) as [o| | |] eqn:Ho; [|done..].
    rewrite <-(proj1 (skip_value_equiv f g fuel Hf Hg E)) in Ho by done.
    apply (proj1 (skip_sound f Hf fuel)) in Ho as [? _]; [|done]. apply IHn. lia.
Qed.

Lemma read_ranges_equiv `{SL : !SerdeLib} f g fuel off len : frame_ok f → frame_ok g → frame_equiv f g →
  0 ≤ off ≤ frame_len f →
  msgpack_read_ranges fuel f off len = msgpack_read_ranges fuel g off len.
Proof.
  intros Hf Hg E. revert off len. induction fuel as [|fuel IH]; intros off len Hoff; [done|].
  simpl. case_match; [done|]. rewrite <-(read_value_range_equiv f g) by done.
  assert (msgpack_fuel f = msgpack_fuel g) as <- by (unfold msgpack_fuel; by rewrite (frame_equiv_len f g E)).
  rewrite <-(proj1 (skip_frames_equiv f g _ Hf Hg E)) by done.
  apply bind_ext. intros [[s e] o] (-> & -> & ? & ? & _)%on_stack_Ok%read_value_range_iff; [|done..].
  by rewrite IH by lia.
Qed.

(** The header of a message array: its bytes and the count it announces. *)
Inductive mp_array_header : Z → list Z → Prop :=
  | header_fix m : 0x90 ≤ m ≤ 0x9f → mp_array_header (m - 0x90) [m]
  | header_16 b : bytes_ok b → zlen b = 2 → mp_array_header (be_value b) (0xdc :: b)
  | header_32 b : bytes_ok b → zlen b = 4 → mp_array_header (be_value b) (0xdd :: b).

Lemma land_0f m : 0x90 ≤ m ≤ 0x9f → Z.land m 0x0f = m - 0x90.
Proof. intros. change 0x0f with (Z.ones 4). rewrite Z.land_ones by lia. dmlia. Qed.

Lemma read_array_len_sound data len off : frame_ok data →
  msgpack_read_array_len data 0 = Ok (len, off) →
  0 ≤ len ∧ 0 < off ≤ frame_len data
  ∧ mp_array_header len (sub_bytes (into_bytes data) 0 off).
Proof.
  intros Hok H. unfold msgpack_read_array_len in H. inv_ok. destruct a as [m o].
  apply read_u8_Ok in Ha as (-> & ? & Hm & Hu); [|done|lia].
  change (0 + 1) with 1 in *.
  pose proof (frame_len_bytes data Hok) as HN.
  assert (∀ e, 1 ≤ e → e ≤ frame_len data →
    bytes_ok (sub_bytes (into_bytes data) 1 e)
    ∧ zlen (sub_bytes (into_bytes data) 1 e) = e - 1
    ∧ sub_bytes (into_bytes data) 0 e = m :: sub_bytes (into_bytes data) 1 e) as Hs.
  { intros e ??. split_and!; [apply sub_bytes_ok, Hok|rewrite zlen_sub_bytes; lia|].
    by rewrite (sub_bytes_cons _ 0 e m) by (done || lia). }
  unfold in_range in H. repeat case_match; try done.
  - injection H as <- <-. destruct (Hs 1) as (_ & _ & ->); [lia..|].
    rewrite sub_bytes_nil by lia. rewrite land_0f by lia.
    split_and!; [lia..|]. apply header_fix. lia.
  - apply (read_width_Ok data Hok W16) in H as (-> & ? & -> & ?); [|lia].
    change (1 + width_bytes W16) with 3 in *. destruct (Hs 3) as (? & ? & ->); [lia..|].
    split_and!; [lia..|]. replace m with 0xdc by lia. by apply header_16.
  - apply (read_width_Ok data Hok W32) in H as (-> & ? & -> & ?); [|lia].
    change (1 + width_bytes W32) with 5 in *. destruct (Hs 5) as (? & ? & ->); [lia..|].
    split_and!; [lia..|]. replace m with 0xdd by lia. by apply header_32.
Qed.

Lemma returns_read_array_len data : frame_ok data → returns (msgpack_read_array_len data 0).
Proof.
  intros Hok. unfold msgpack_read_array_len.
  apply returns_bind; [apply returns_map_err, returns_read_u8; [done|lia]|].
  intros [m o] Ha. inv_ok. apply read_u8_Ok in Ha as (-> & _); [|done|lia].
  repeat case_match; try done.
  - by apply (returns_read_width data Hok W16).
  - by apply (returns_read_width data Hok W32).
Qed.

(** ** The arms *)
Section arms.
Context `{SL : !SerdeLib}.

Lemma msgpack_message_of_cases (P : outcome ParseError WampMessage → Prop)
      data ranges code :
    (∀ o, msgpack_session_message data ranges code = Some o → P o) →
    (∀ o, msgpack_pubsub_message data ranges code = Some o → P o) →
    (∀ o, msgpack_call_message data ranges code = Some o → P o) →
    (∀ o, msgpack_registration_message data ranges code = Some o → P o) →
    (∀ o, msgpack_invocation_message data ranges code = Some o → P o) →
    (msgpack_session_message data ranges code = None →
     msgpack_pubsub_message data ranges code = None →
     msgpack_call_message data ranges code = None →
     msgpack_registration_message data ranges code = None →
     msgpack_invocation_message data ranges code = None →
     P (msgpack_unknown_message data ranges code)) →
    P (msgpack_message_of data ranges code).
  Proof.
    unfold msgpack_message_of, first_some.
    destruct (msgpack_session_message _ _ _), (msgpack_pubsub_message _ _ _),
      (msgpack_call_message _ _ _), (msgpack_registration_message _ _ _),
      (msgpack_invocation_message _ _ _); simpl; auto.
  Qed.

  (** What an arm's result says about the message it builds: its code, and its
      payload at the positions of [cbor_payload_spec]. *)
Definition arm_result (data : RawFrame) (ranges : list (Z * Z)) (code : Z)
      (o : outcome ParseError WampMessage) : Prop :=
    ∀ m, o = Ok m → message_code m = code ∧
    match cbor_payload_spec code with
    | Some spec => ∃ p, message_payload m = Some p ∧
        msgpack_payload data (args_label spec) (range_opt ranges (args_index spec))
          (kwargs_label spec) (range_opt ranges (kwargs_index spec)) = Ok p
    | None => message_payload m = None
    end.

  (** Splits an arm group on the codes it handles. *)
Local Ltac split_arms :=
    repeat match goal with
    | |- (if ?c =? ?k then _ else _) = _ → _ =>
        destruct (Z.eqb_spec c k) as [->|]; [intros [= <-]|]
    end.

Lemma session_arm_result data ranges code o :
    msgpack_session_message data ranges code = Some o → arm_result data ranges code o.
  Proof.
    unfold msgpack_session_message. split_arms; [..|done];
      intros m Hm; inv_ok; simpl; eauto.
  Qed.
Lemma pubsub_arm_result data ranges code o :
    msgpack_pubsub_message data ranges code = Some o → arm_result data ranges code o.
  Proof.
    unfold msgpack_pubsub_message. split_arms; [..|done];
      intros m Hm; inv_ok; simpl; eauto.
  Qed.
Lemma call_arm_result data ranges code o :
    msgpack_call_message data ranges code = Some o → arm_result data ranges code o.
  Proof.
    unfold msgpack_call_message. split_arms; [..|done];
      intros m Hm; inv_ok; simpl; eauto.
  Qed.
Lemma registration_arm_result data ranges code o :
    msgpack_registration_message data ranges code = Some o → arm_result data ranges code o.
  Proof.
    unfold msgpack_registration_message. split_arms; [..|done];
      intros m Hm; inv_ok; simpl; eauto.
  Qed.
Lemma invocation_arm_result data ranges code o :
    msgpack_invocation_message data ranges code = Some o → arm_result data ranges code o.
  Proof.
    unfold msgpack_invocation_message. split_arms; [..|done];
      intros m Hm; inv_ok; simpl; eauto.
  Qed.

Lemma msgpack_message_of_result data ranges code :
    arm_result data ranges code (msgpack_message_of data ranges code).
  Proof.
    apply msgpack_message_of_cases; eauto using session_arm_result, pubsub_arm_result,
      call_arm_result, registration_arm_result, invocation_arm_result.
    unfold msgpack_session_message, msgpack_pubsub_message, msgpack_call_message,
      msgpack_registration_message, msgpack_invocation_message, msgpack_unknown_message.
    intros H1 H2 H3 H4 H5 m Hm. inv_ok. split; [done|].
    replace (cbor_payload_spec code) with (@None CborPayloadSpec); [done|].
    repeat match goal with
    | H : (if ?b then Some _ else _) = None |- _ => destruct b eqn:?; [discriminate|]
    end.
    unfold cbor_payload_spec.
    by repeat match goal with H : (_ =? _) = false |- _ => rewrite H; clear H end.
  Qed.
End arms.

(** ** Totality and congruence of the arms *)
Section total.
Context `{SL : !SerdeLib} (data : RawFrame) (ranges : list (Z * Z)).
Context (Hwf : frame_wf data) (Hr : Forall (range_in (frame_len data)) ranges).

Lemma returns_slice r : range_in (frame_len data) r → returns (slice_or_copy data r).
  Proof. intros. by rewrite slice_or_copy_in. Qed.
Lemma returns_msgpack_string r l :
    range_in (frame_len data) r → returns (msgpack_string data r l).
  Proof. intros. unfold msgpack_string. rewrite slice_or_copy_in by done. solve_returns. Qed.
Lemma returns_msgpack_u64 r l :
    range_in (frame_len data) r → returns (msgpack_u64 data r l).
  Proof. intros. unfold msgpack_u64. rewrite slice_or_copy_in by done. solve_returns. Qed.
Lemma returns_map_from_slice s l : returns (msgpack_map_from_slice s l).
  Proof. unfold msgpack_map_from_slice. solve_returns. Qed.
Lemma returns_msgpack_required_map r l :
    range_in (frame_len data) r → returns (msgpack_required_map data r l).
  Proof.
    intros. unfold msgpack_required_map. rewrite slice_or_copy_in by done. simpl.
    case_match; [done|apply returns_map_from_slice].
  Qed.

Lemma range_opt_in i r : range_opt ranges i = Some r → range_in (frame_len data) r.
  Proof. apply Forall_lookup_1, Hr. Qed.
Lemma returns_at {A} i l (k : Z * Z → outcome ParseError A) :
    (∀ r, range_in (frame_len data) r → returns (k r)) →
    returns (r ← range_at ranges i l; k r).
  Proof.
    intros Hk. apply returns_bind; [apply returns_ok_or|]. intros r Hrr.
    apply ok_or_Ok_inv in Hrr. by eapply Hk, range_opt_in.
  Qed.

Lemma returns_optional_u64 i l : returns (msgpack_optional_u64 data (range_opt ranges i) l).
  Proof.
    destruct (range_opt ranges i) as [r|] eqn:E; [|done]. apply range_opt_in in E. simpl.
    pose proof (returns_msgpack_u64 r l E).
    rewrite slice_or_copy_in by done. simpl. case_match; [done|].
    by destruct (msgpack_u64 data r l).
  Qed.
Lemma returns_optional_map i l : returns (msgpack_optional_map data (range_opt ranges i) l).
  Proof.
    destruct (range_opt ranges i) as [r|] eqn:E; [|done]. apply range_opt_in in E. simpl.
    rewrite slice_or_copy_in by done. simpl. case_match; [done|apply returns_map_from_slice].
  Qed.

  (** A payload part: absent, nil, or the exact bytes of an element of the
      required kind. *)
Definition payload_part (kind : list Z → bool) (e : ParseError) (x : option (list Z)) :
      outcome ParseError (option (list Z)) :=
    match x with
    | None => Ok None
    | Some x => if msgpack_is_nil x then Ok None else if kind x then Ok (Some x) else Err e
    end.

Lemma msgpack_payload_items la i lk j :
    msgpack_payload data la (range_opt ranges i) lk (range_opt ranges j)
    = args ← payload_part msgpack_is_array (ExpectedList la) (chain_items data ranges !! i);
      kwargs ← payload_part msgpack_is_map (ExpectedMap lk) (chain_items data ranges !! j);
      Ok (mkPayload args kwargs None).
  Proof.
    unfold msgpack_payload, chain_items, payload_part. rewrite !list_lookup_fmap.
    destruct (range_opt ranges i) as [r|] eqn:E1; unfold range_opt in E1; rewrite E1; simpl;
      destruct (range_opt ranges j) as [r'|] eqn:E2; unfold range_opt in E2; rewrite E2; simpl;
      repeat match goal with
      | E : ranges !! _ = Some ?r |- _ =>
          apply range_opt_in in E; rewrite !(slice_or_copy_in data r) by done; clear E
      end; simpl; by repeat case_match.
  Qed.

Lemma returns_payload_part kind e x : returns (payload_part kind e x).
  Proof. unfold payload_part. by repeat case_match. Qed.

Lemma returns_msgpack_payload la i lk j :
    returns (msgpack_payload data la (range_opt ranges i) lk (range_opt ranges j)).
  Proof.
    rewrite msgpack_payload_items.
    repeat (apply returns_bind; [apply returns_payload_part|intros]). done.
  Qed.

Local Ltac total_arms :=
    repeat match goal with
    | |- (if ?b then _ else _) = _ → _ => destruct b; [intros [= <-]|]
    end; [..|done];
    repeat first
      [ exact I
      | apply returns_bind;
        [ first
          [ apply returns_at; intros ?? ; first
              [ by apply returns_msgpack_string | by apply returns_msgpack_u64
              | by apply returns_msgpack_required_map ]
          | apply returns_optional_u64 | apply returns_optional_map
          | apply returns_msgpack_payload ]
        | intros ] ].

Lemma returns_msgpack_message_of code : returns (msgpack_message_of data ranges code).
  Proof.
    apply msgpack_message_of_cases; intros ?.
    - unfold msgpack_session_message. total_arms.
    - unfold msgpack_pubsub_message. total_arms.
    - unfold msgpack_call_message. total_arms.
    - unfold msgpack_registration_message. total_arms.
    - unfold msgpack_invocation_message. total_arms.
    - intros _ _ _ _. unfold msgpack_unknown_message.
      apply returns_bind; [|done]. apply returns_traverse_list, Forall_drop.
      eapply Forall_impl; [done|]. intros r Hin. unfold msgpack_value.
      rewrite slice_or_copy_in by done. simpl. auto with returns.
  Qed.
End total.

Section congruence.
Context `{SL : !SerdeLib} (f g : RawFrame) (ranges : list (Z * Z)).
Context (E : frame_equiv f g) (Hr : Forall (range_in (frame_len f)) ranges).

Lemma slice_equiv r : range_in (frame_len f) r → slice_or_copy f r = slice_or_copy g r.
  Proof. intros (? & ? & ?). destruct r; cbn [fst snd] in *. by apply frame_equiv_slice. Qed.

Lemma range_at_equiv {A} i l (k k' : Z * Z → outcome ParseError A) :
    (∀ r, range_in (frame_len f) r → k r = k' r) →
    (r ← range_at ranges i l; k r) = (r ← range_at ranges i l; k' r).
  Proof.
    intros Hk. apply bind_ext. intros r Hrr. apply ok_or_Ok_inv in Hrr.
    by eapply Hk, (Forall_lookup_1 _ _ _ _ Hr).
  Qed.

Lemma at_string_equiv i l l' :
    (r ← range_at ranges i l; msgpack_string f r l')
    = (r ← range_at ranges i l; msgpack_string g r l').
  Proof. apply range_at_equiv. intros. unfold msgpack_string. by rewrite slice_equiv. Qed.
Lemma at_u64_equiv i l l' :
    (r ← range_at ranges i l; msgpack_u64 f r l')
    = (r ← range_at ranges i l; msgpack_u64 g r l').
  Proof. apply range_at_equiv. intros. unfold msgpack_u64. by rewrite slice_equiv. Qed.
Lemma at_required_map_equiv i l l' :
    (r ← range_at ranges i l; msgpack_required_map f r l')
    = (r ← range_at ranges i l; msgpack_required_map g r l').
  Proof. apply range_at_equiv. intros. unfold msgpack_required_map. by rewrite slice_equiv. Qed.
Lemma optional_u64_equiv i l :
    msgpack_optional_u64 f (range_opt ranges i) l = msgpack_optional_u64 g (range_opt ranges i) l.
  Proof.
    destruct (range_opt ranges i) as [r|] eqn:Er; [|done]. simpl.
    apply (Forall_lookup_1 _ _ _ _ Hr) in Er.
    unfold msgpack_u64. by rewrite slice_equiv.
  Qed.
Lemma optional_map_equiv i l :
    msgpack_optional_map f (range_opt ranges i) l = msgpack_optional_map g (range_opt ranges i) l.
  Proof.
    destruct (range_opt ranges i) as [r|] eqn:Er; [|done]. simpl.
    apply (Forall_lookup_1 _ _ _ _ Hr) in Er. by rewrite slice_equiv.
  Qed.
Lemma payload_equiv la i lk j :
    msgpack_payload f la (range_opt ranges i) lk (range_opt ranges j)
    = msgpack_payload g la (range_opt ranges i) lk (range_opt ranges j).
  Proof.
    unfold msgpack_payload.
    destruct (range_opt ranges i) as [r|] eqn:E1;
      destruct (range_opt ranges j) as [r'|] eqn:E2;
      try apply (Forall_lookup_1 _ _ _ _ Hr) in E1;
      try apply (Forall_lookup_1 _ _ _ _ Hr) in E2; by rewrite ?slice_equiv.
  Qed.

Lemma msgpack_message_of_equiv code :
    msgpack_message_of f ranges code = msgpack_message_of g ranges code.
  Proof.
    assert (msgpack_session_message f ranges code = msgpack_session_message g ranges code) as E1
      by (unfold msgpack_session_message; rewrite ?at_string_equiv, ?at_u64_equiv,
        ?at_required_map_equiv, ?optional_u64_equiv, ?optional_map_equiv, ?payload_equiv; done).
    assert (msgpack_pubsub_message f ranges code = msgpack_pubsub_message g ranges code) as E2
      by (unfold msgpack_pubsub_message; rewrite ?at_string_equiv, ?at_u64_equiv,
        ?at_required_map_equiv, ?optional_map_equiv, ?payload_equiv; done).
    assert (msgpack_call_message f ranges code = msgpack_call_message g ranges code) as E3
      by (unfold msgpack_call_message; rewrite ?at_string_equiv, ?at_u64_equiv,
        ?at_required_map_equiv, ?payload_equiv; done).
    assert (msgpack_registration_message f ranges code
            = msgpack_registration_message g ranges code) as E4
      by (unfold msgpack_registration_message; rewrite ?at_string_equiv, ?at_u64_equiv,
        ?at_required_map_equiv, ?optional_map_equiv; done).
    assert (msgpack_invocation_message f ranges code
            = msgpack_invocation_message g ranges code) as E5
      by (unfold msgpack_invocation_message; rewrite ?at_u64_equiv,
        ?at_required_map_equiv, ?payload_equiv; done).
    assert (msgpack_unknown_message f ranges code = msgpack_unknown_message g ranges code) as E6.
    { unfold msgpack_unknown_message. f_equal. apply traverse_list_ext, Forall_drop.
      eapply Forall_impl; [done|]. intros r Hin. unfold msgpack_value. by rewrite slice_equiv. }
    unfold msgpack_message_of. by rewrite E1, E2, E3, E4, E5, E6.
  Qed.
End congruence.

(** ** The parser *)
Section parser.
Context `{SL : !SerdeLib}.

  (** A successful parse, taken apart. *)
Lemma parse_msgpack_message_inv f r : frame_ok f → parse_msgpack_message f = Ok r →
    ∃ header ranges code,
      into_bytes f = header ++ concat (chain_items f ranges)
      ∧ mp_array_header (zlen ranges) header
      ∧ Forall mp_item (chain_items f ranges)
      ∧ Forall (range_in (frame_len f)) ranges
      ∧ (∃ x, chain_items f ranges !! 0%nat = Some x ∧ rmp_u64 x = Some code)
      ∧ msgpack_message_of f ranges code = Ok (message r)
      ∧ raw r = f ∧ serializer r = MessagePack ∧ encoded_metadata r = None.
  Proof.
    intros Hok H. pose proof (frame_len_bytes f Hok) as HN.
    unfold parse_msgpack_message in H. inv_ok. destruct a as [len off].
    apply read_array_len_sound in Ha as (Hlen & Hoff & Hh); [|done].
    destruct (Z.eqb_spec len 0); [done|]. destruct (grants _); [|done]. cbn [negb] in H.
    inv_ok. destruct a as [ranges stop].
    apply read_ranges_sound in Ha as (Hc & Hz & ?); [|done|lia..].
    destruct (Z.eqb_spec stop (frame_len f)) as [->|]; [|done]. cbn [negb] in H.
    inv_ok. unfold range_at in *. inv_ok.
    match goal with E : ranges !! 0%nat = Some _ |- _ => rename E into E0 end.
    match goal with E : msgpack_u64 _ _ _ = Ok _ |- _ => rename E into Eu end.
    pose proof (item_chain_in f off ranges _ ltac:(lia) Hc) as Hin.
    destruct (item_chain_items f off ranges _ ltac:(lia) Hc) as [Hit Hcat].
    exists (sub_bytes (into_bytes f) 0 off), ranges, a. split_and!; try done.
    - rewrite Hcat, sub_bytes_join, HN by lia. by rewrite sub_bytes_full.
    - unfold msgpack_u64 in Eu.
      rewrite slice_or_copy_in in Eu;
        [|apply Hok|by apply (Forall_lookup_1 _ _ _ _ Hin E0)].
      unfold chain_items. rewrite list_lookup_fmap, E0. simpl in *. eexists; split; [done|].
      case_match; [done|]. by apply ok_or_Ok_inv in Eu.
  Qed.

(** The announced ranges are granted, and the stack has room for the frame. *)
Definition msgpack_room (f : RawFrame) : Prop :=
  ∀ len offset, msgpack_read_array_len f 0 = Ok (len, offset) →
    grants (RANGE_BYTES * len) = true ∧ frame_len f ≤ stack_frames.

(** Parsing ends with a message or an error, or aborts for want of memory. *)
Lemma parse_msgpack_message_ends f : frame_ok f →
    returns (parse_msgpack_message f) ∨ parse_msgpack_message f = Panic ∧ ¬ msgpack_room f.
  Proof.
    intros Hok. pose proof (frame_len_bytes f Hok) as HN. pose proof (zlen_nonneg (into_bytes f)).
    unfold parse_msgpack_message, msgpack_room. pose proof (returns_read_array_len f Hok) as Hr.
    destruct (msgpack_read_array_len f 0) as [[len off]| | |] eqn:Ha; [|by left|done..].
    clear Hr. apply read_array_len_sound in Ha as (? & ? & _); [|done]. cbn [mbind outcome_bind].
    case_match; [by left|]. destruct (grants _) eqn:Hg; cbn [negb];
      [|right; split; [done|]; intros Hno; destruct (Hno _ _ eq_refl); congruence].
    destruct (read_ranges_end f (msgpack_fuel f) off len Hok ltac:(lia)) as [Hr|[-> Hs]];
      [rewrite fuel_enough by done; lia| |right; split; [done|]; intros Hno; destruct (Hno _ _ eq_refl); lia].
    left. apply returns_bind; [exact Hr|].
    intros [ranges stop] (Hc & _)%read_ranges_sound; [|done|lia..]. case_match; [done|].
    apply item_chain_in in Hc; [|lia].
    apply returns_bind; [apply (returns_at f ranges Hc); intros; apply returns_msgpack_u64; [apply Hok|done]|].
    intros code _. apply returns_bind; [|done].
    by apply returns_msgpack_message_of; [apply Hok|].
  Qed.

(** Arrays nested deeper than the stack. *)
Lemma parse_msgpack_nested n : stack_frames ≤ Z.of_nat n → parse_msgpack_message (nested (S n)) = Panic.
  Proof.
    intros Hn. pose proof (nested_ok (S n)) as Hok. unfold parse_msgpack_message, msgpack_read_array_len.
    rewrite (read_nested (S n) 0 ltac:(lia) : read_u8 _ 0 = _). cbn [map_err mbind outcome_bind].
    change (in_range 144 159 145) with true. cbv iota. cbn [mbind outcome_bind]. change (Z.land 145 15) with 1.
    change (1 =? 0) with false. cbv iota. destruct (grants _); [|done]. cbn [negb].
    pose proof (fuel_enough _ Hok) as Hf. rewrite nested_len in Hf. remember (msgpack_fuel (nested (S n))) as fuel eqn:Ef.
    destruct fuel as [|fuel]; [lia|]. cbn [msgpack_read_ranges]. change (1 <=? 0) with false. cbv iota.
    rewrite <-Ef. unfold on_stack. pose proof (nested_frames (S n) (S fuel) 1 ltac:(lia) ltac:(lia)) as Hd.
    by rewrite (proj2 (Z.leb_gt _ _)) by lia.
  Qed.

Lemma parse_msgpack_message_equiv f g : frame_ok f → frame_ok g → frame_equiv f g →
    message <$> parse_msgpack_message f = message <$> parse_msgpack_message g.
  Proof.
    intros Hf Hg E. unfold parse_msgpack_message, msgpack_fuel.
    rewrite <-(read_array_len_equiv f g), <-(frame_equiv_len f g) by (done || lia).
    destruct (msgpack_read_array_len f 0) as [[len off]| | |] eqn:Ha; [|done..]. simpl.
    apply read_array_len_sound in Ha as (? & ? & _); [|done].
    case_match; [done|]. destruct (grants _); [|done]. cbn [negb].
    rewrite <-(read_ranges_equiv f g) by (done || lia).
    destruct (msgpack_read_ranges _ f off len) as [[ranges stop]| | |] eqn:Hr; [|done..]. simpl.
    apply read_ranges_sound in Hr as (Hc & _); [|done|lia..].
    apply item_chain_in in Hc; [|lia]. case_match; [done|].
    rewrite (at_u64_equiv f g ranges E Hc).
    match goal with |- fmap _ (mbind _ ?x) = _ => destruct x as [code| | |] end; [|done..]. simpl.
    rewrite (msgpack_message_of_equiv f g ranges E Hc).
    by destruct (msgpack_message_of g ranges code).
  Qed.
End parser.

(** ** Properties *)

(** a MessagePack message the parser accepts is exactly an array header
    followed by the announced number of well-formed items, with nothing after
    them; its code is the decoded first item; and the application payload is
    kept as the exact bytes of the items at the positions of its message kind,
    an array and a map, with nil and missing parts dropped. *)
Theorem parse_msgpack_message_exact `{SL : !SerdeLib} f r :
  frame_ok f → parse_msgpack_message f = Ok r →
  ∃ header items,
    into_bytes f = header ++ concat items
    ∧ mp_array_header (zlen items) header ∧ Forall mp_item items
    ∧ (∃ x, items !! 0%nat = Some x ∧ rmp_u64 x = Some (message_code (message r)))
    ∧ match cbor_payload_spec (message_code (message r)) with
      | Some spec => ∃ p, message_payload (message r) = Some p
          ∧ payload_part msgpack_is_array (ExpectedList (args_label spec))
              (items !! args_index spec) = Ok (args p)
          ∧ payload_part msgpack_is_map (ExpectedMap (kwargs_label spec))
              (items !! kwargs_index spec) = Ok (kwargs p)
          ∧ transparent p = None
      | None => message_payload (message r) = None
      end
    ∧ raw r = f ∧ serializer r = MessagePack ∧ encoded_metadata r = None.
Proof.
  intros Hok H.
  destruct (parse_msgpack_message_inv f r Hok H)
    as (header & ranges & code & Hb & Hh & Hi & Hin & Hx & Hm & Hrest).
  exists header, (chain_items f ranges).
  destruct (msgpack_message_of_result f ranges code _ Hm) as [-> Hp].
  split; [done|]. split; [by unfold chain_items; rewrite zlen_fmap|]. do 2 (split; [done|]).
  split; [|done].
  destruct (cbor_payload_spec code) as [spec|]; [|done].
  destruct Hp as (p & ? & Hp). exists p. split; [done|].
  rewrite msgpack_payload_items in Hp by (done || apply Hok). by inv_ok.
Qed.

(** [\[48, 7, {}, "a", \[1\]\]] in two WebSocket fragments. *)
Definition demo_call_segments : list (list Z) :=
  [[0x95; 48; 7; 0x80]; [0xa1; 0x61; 0x91; 1]].

Lemma demo_call_ok : frame_ok (from_segments demo_call_segments).
Proof.
  split; [apply from_segments_wf|]. unfold bytes_ok, u8_ok. simpl.
  repeat constructor; lia.
Qed.

Definition demo_call_message : WampMessage :=
  Call 7 [] [0x61] (mkPayload (Some [0x91; 1]) None None).

Lemma parse_msgpack_message_exact_witness :
  ∃ header items, [0x95; 48; 7; 0x80; 0xa1; 0x61; 0x91; 1] = header ++ concat items
    ∧ mp_array_header (zlen items) header ∧ Forall mp_item items.
Proof.
  destruct (parse_msgpack_message_exact (SL := DemoSerde) (from_segments demo_call_segments)
    (mkParsedMessage demo_call_message (from_segments demo_call_segments) MessagePack None)
    demo_call_ok) as (h & items & H1 & H2 & H3 & _); [vm_compute; reflexivity|].
  exists h, items. split_and!; [exact H1|exact H2|exact H3].
Defined.
