(* ===== verification/WampValues.v ===== *)
(** * Messages from decoded values

    The value-based parser of [ct_core/src/wamp.rs]: [parse_value_parts] and the
    [parse_*] function of each message, over the elements after the message
    code.  The CBOR paths use it. *)
From S2P Require Import Prelude Bytes Text WampTypes RawFrame DemoSerde.

Definition get (parts : list value) (index : nat) (label : string) :
    outcome ParseError value := ok_or (MissingElement label) (parts !! index).

(** [parts.get(index)] *)
Definition part (parts : list value) (index : nat) : option value := parts !! index.

Definition expect_map (v : value) (label : string) : outcome ParseError ValueMap :=
  match v with
  | VMap m => Ok m
  | VUnit => Ok []
  | _ => Err (ExpectedMap label)
  end.

Definition map_or_default (v : option value) (label : string) :
    outcome ParseError ValueMap :=
  match v with Some v => expect_map v label | None => Ok [] end.

Definition value_as_u64 (v : value) (label : string) : outcome ParseError Z :=
  match v with
  | VU64 n | VU32 n | VU16 n | VU8 n => Ok n
  | VI64 n | VI32 n | VI16 n | VI8 n =>
      if 0 <=? n then Ok n else Err (ExpectedIdentifier label)
  | _ => Err (ExpectedIdentifier label)
  end.

Definition expect_string (v : value) (label : string) : outcome ParseError str :=
  match v with
  | VString s => Ok s
  | VChar c => Ok [c]
  | _ => Err (ExpectedString label)
  end.

Section values.
Context `{SL : !SerdeLib}.

Definition serialize_value (serializer : Serializer) (v : value) :
    outcome ParseError (list Z) :=
  match serializer with
  | Json => lift_enc (json_to_vec v)
  | MessagePack => lift_enc (rmp_to_vec v)
  | Cbor => lift_enc (cbor_to_vec v)
  | Ubjson | Flatbuffers => Err (UnsupportedSerializer serializer)
  end.

Definition extract_payload (serializer : Serializer)
    (args_label : string) (args : option value)
    (kwargs_label : string) (kwargs : option value) : outcome ParseError Payload :=
  args ← match args with
         | Some v => match v with
                     | VSeq _ => Some <$> serialize_value serializer v
                     | VUnit => Ok None
                     | _ => Err (ExpectedList args_label)
                     end
         | None => Ok None
         end;
  kwargs ← match kwargs with
           | Some v => match v with
                       | VMap _ => Some <$> serialize_value serializer v
                       | VUnit => Ok None
                       | _ => Err (ExpectedMap kwargs_label)
                       end
           | None => Ok None
           end;
  Ok (mkPayload args kwargs None).

Definition parse_hello (parts : list value) :
    outcome ParseError WampMessage :=
  realm ← (v ← get parts 0 "hello.realm"; expect_string v "hello.realm");
  details ← (v ← get parts 1 "hello.details"; expect_map v "hello.details");
  Ok (Hello realm details).

Definition parse_welcome (parts : list value) :
    outcome ParseError WampMessage :=
  session_id ← (v ← get parts 0 "welcome.session_id"; value_as_u64 v "welcome.session_id");
  details ← (v ← get parts 1 "welcome.details"; expect_map v "welcome.details");
  Ok (Welcome session_id details).

Definition parse_abort (serializer : Serializer) (parts : list value) :
    outcome ParseError WampMessage :=
  details ← (v ← get parts 0 "abort.details"; expect_map v "abort.details");
  reason ← (v ← get parts 1 "abort.reason"; expect_string v "abort.reason");
  payload ← extract_payload serializer "abort.arguments" (part parts 2)
    "abort.argumentsKw" (part parts 3);
  Ok (Abort details reason payload).

Definition parse_challenge (parts : list value) :
    outcome ParseError WampMessage :=
  auth_method ← (v ← get parts 0 "challenge.auth_method"; expect_string v "challenge.auth_method");
  extra ← (v ← get parts 1 "challenge.extra"; expect_map v "challenge.extra");
  Ok (Challenge auth_method extra).

Definition parse_authenticate (parts : list value) :
    outcome ParseError WampMessage :=
  signature ← (v ← get parts 0 "authenticate.signature"; expect_string v "authenticate.signature");
  extra ← map_or_default (part parts 1) "authenticate.extra";
  Ok (Authenticate signature extra).

Definition parse_goodbye (serializer : Serializer) (parts : list value) :
    outcome ParseError WampMessage :=
  details ← (v ← get parts 0 "goodbye.details"; expect_map v "goodbye.details");
  reason ← (v ← get parts 1 "goodbye.reason"; expect_string v "goodbye.reason");
  payload ← extract_payload serializer "goodbye.arguments" (part parts 2)
    "goodbye.argumentsKw" (part parts 3);
  Ok (Goodbye details reason payload).

Definition parse_heartbeat (parts : list value) :
    outcome ParseError WampMessage :=
  details ← (v ← get parts 0 "heartbeat.details"; expect_map v "heartbeat.details");
  ping ← traverse_opt (λ v, value_as_u64 v "heartbeat.ping") (part parts 1);
  incoming ← traverse_opt (λ v, value_as_u64 v "heartbeat.incoming") (part parts 2);
  outgoing ← traverse_opt (λ v, value_as_u64 v "heartbeat.outgoing") (part parts 3);
  Ok (Heartbeat details ping incoming outgoing).

Definition parse_error (serializer : Serializer) (parts : list value) :
    outcome ParseError WampMessage :=
  request_type ← (v ← get parts 0 "error.request_type"; value_as_u64 v "error.request_type");
  request_id ← (v ← get parts 1 "error.request_id"; value_as_u64 v "error.request_id");
  details ← (v ← get parts 2 "error.details"; expect_map v "error.details");
  uri ← (v ← get parts 3 "error.uri"; expect_string v "error.uri");
  payload ← extract_payload serializer "error.arguments" (part parts 4)
    "error.argumentsKw" (part parts 5);
  Ok (Error request_type request_id details uri payload).

Definition parse_publish (serializer : Serializer) (parts : list value) :
    outcome ParseError WampMessage :=
  request_id ← (v ← get parts 0 "publish.request_id"; value_as_u64 v "publish.request_id");
  options ← (v ← get parts 1 "publish.options"; expect_map v "publish.options");
  topic ← (v ← get parts 2 "publish.topic"; expect_string v "publish.topic");
  payload ← extract_payload serializer "publish.arguments" (part parts 3)
    "publish.argumentsKw" (part parts 4);
  Ok (Publish request_id options topic payload).

Definition parse_published (parts : list value) :
    outcome ParseError WampMessage :=
  request_id ← (v ← get parts 0 "published.request_id"; value_as_u64 v "published.request_id");
  publication_id ← (v ← get parts 1 "published.publication_id"; value_as_u64 v "published.publication_id");
  Ok (Published request_id publication_id).

Definition parse_subscribe (parts : list value) :
    outcome ParseError WampMessage :=
  request_id ← (v ← get parts 0 "subscribe.request_id"; value_as_u64 v "subscribe.request_id");
  options ← (v ← get parts 1 "subscribe.options"; expect_map v "subscribe.options");
  topic ← (v ← get parts 2 "subscribe.topic"; expect_string v "subscribe.topic");
  Ok (Subscribe request_id options topic).

Definition parse_subscribed (parts : list value) :
    outcome ParseError WampMessage :=
  request_id ← (v ← get parts 0 "subscribed.request_id"; value_as_u64 v "subscribed.request_id");
  subscription_id ← (v ← get parts 1 "subscribed.subscription_id"; value_as_u64 v "subscribed.subscription_id");
  Ok (Subscribed request_id subscription_id).

Definition parse_unsubscribe (parts : list value) :
    outcome ParseError WampMessage :=
  request_id ← (v ← get parts 0 "unsubscribe.request_id"; value_as_u64 v "unsubscribe.request_id");
  subscription_id ← (v ← get parts 1 "unsubscribe.subscription_id"; value_as_u64 v "unsubscribe.subscription_id");
  Ok (Unsubscribe request_id subscription_id).

Definition parse_unsubscribed (parts : list value) :
    outcome ParseError WampMessage :=
  request_id ← (v ← get parts 0 "unsubscribed.request_id"; value_as_u64 v "unsubscribed.request_id");
  details ← map_or_default (part parts 1) "unsubscribed.details";
  Ok (Unsubscribed request_id details).

Definition parse_event (serializer : Serializer) (parts : list value) :
    outcome ParseError WampMessage :=
  subscription_id ← (v ← get parts 0 "event.subscription_id"; value_as_u64 v "event.subscription_id");
  publication_id ← (v ← get parts 1 "event.publication_id"; value_as_u64 v "event.publication_id");
  details ← (v ← get parts 2 "event.details"; expect_map v "event.details");
  payload ← extract_payload serializer "event.arguments" (part parts 3)
    "event.argumentsKw" (part parts 4);
  Ok (Event subscription_id publication_id details payload).

Definition parse_call (serializer : Serializer) (parts : list value) :
    outcome ParseError WampMessage :=
  request_id ← (v ← get parts 0 "call.request_id"; value_as_u64 v "call.request_id");
  options ← (v ← get parts 1 "call.options"; expect_map v "call.options");
  procedure ← (v ← get parts 2 "call.procedure"; expect_string v "call.procedure");
  payload ← extract_payload serializer "call.arguments" (part parts 3)
    "call.argumentsKw" (part parts 4);
  Ok (Call request_id options procedure payload).

Definition parse_cancel (parts : list value) :
    outcome ParseError WampMessage :=
  request_id ← (v ← get parts 0 "cancel.request_id"; value_as_u64 v "cancel.request_id");
  options ← (v ← get parts 1 "cancel.options"; expect_map v "cancel.options");
  Ok (Cancel request_id options).

Definition parse_result (serializer : Serializer) (parts : list value) :
    outcome ParseError WampMessage :=
  request_id ← (v ← get parts 0 "result.request_id"; value_as_u64 v "result.request_id");
  details ← (v ← get parts 1 "result.details"; expect_map v "result.details");
  payload ← extract_payload serializer "result.arguments" (part parts 2)
    "result.argumentsKw" (part parts 3);
  Ok (Result request_id details payload).

Definition parse_register (parts : list value) :
    outcome ParseError WampMessage :=
  request_id ← (v ← get parts 0 "register.request_id"; value_as_u64 v "register.request_id");
  options ← (v ← get parts 1 "register.options"; expect_map v "register.options");
  procedure ← (v ← get parts 2 "register.procedure"; expect_string v "register.procedure");
  Ok (Register request_id options procedure).

Definition parse_registered (parts : list value) :
    outcome ParseError WampMessage :=
  request_id ← (v ← get parts 0 "registered.request_id"; value_as_u64 v "registered.request_id");
  registration_id ← (v ← get parts 1 "registered.registration_id"; value_as_u64 v "registered.registration_id");
  Ok (Registered request_id registration_id).

Definition parse_unregister (parts : list value) :
    outcome ParseError WampMessage :=
  request_id ← (v ← get parts 0 "unregister.request_id"; value_as_u64 v "unregister.request_id");
  registration_id ← (v ← get parts 1 "unregister.registration_id"; value_as_u64 v "unregister.registration_id");
  Ok (Unregister request_id registration_id).

Definition parse_unregistered (parts : list value) :
    outcome ParseError WampMessage :=
  request_id ← (v ← get parts 0 "unregistered.request_id"; value_as_u64 v "unregistered.request_id");
  details ← map_or_default (part parts 1) "unregistered.details";
  Ok (Unregistered request_id details).

Definition parse_invocation (serializer : Serializer) (parts : list value) :
    outcome ParseError WampMessage :=
  request_id ← (v ← get parts 0 "invocation.request_id"; value_as_u64 v "invocation.request_id");
  registration_id ← (v ← get parts 1 "invocation.registration_id"; value_as_u64 v "invocation.registration_id");
  details ← (v ← get parts 2 "invocation.details"; expect_map v "invocation.details");
  payload ← extract_payload serializer "invocation.arguments" (part parts 3)
    "invocation.argumentsKw" (part parts 4);
  Ok (Invocation request_id registration_id details payload).

Definition parse_interrupt (parts : list value) :
    outcome ParseError WampMessage :=
  request_id ← (v ← get parts 0 "interrupt.request_id"; value_as_u64 v "interrupt.request_id");
  options ← (v ← get parts 1 "interrupt.options"; expect_map v "interrupt.options");
  Ok (Interrupt request_id options).

Definition parse_yield (serializer : Serializer) (parts : list value) :
    outcome ParseError WampMessage :=
  request_id ← (v ← get parts 0 "yield.request_id"; value_as_u64 v "yield.request_id");
  options ← (v ← get parts 1 "yield.options"; expect_map v "yield.options");
  payload ← extract_payload serializer "yield.arguments" (part parts 2)
    "yield.argumentsKw" (part parts 3);
  Ok (Yield request_id options payload).

Definition parse_value_parts (serializer : Serializer) (code : Z) (rest : list value) :
    outcome ParseError WampMessage :=
  if code =? 1 then parse_hello rest
  else if code =? 2 then parse_welcome rest
  else if code =? 3 then parse_abort serializer rest
  else if code =? 4 then parse_challenge rest
  else if code =? 5 then parse_authenticate rest
  else if code =? 6 then parse_goodbye serializer rest
  else if code =? 7 then parse_heartbeat rest
  else if code =? 8 then parse_error serializer rest
  else if code =? 16 then parse_publish serializer rest
  else if code =? 17 then parse_published rest
  else if code =? 32 then parse_subscribe rest
  else if code =? 33 then parse_subscribed rest
  else if code =? 34 then parse_unsubscribe rest
  else if code =? 35 then parse_unsubscribed rest
  else if code =? 36 then parse_event serializer rest
  else if code =? 48 then parse_call serializer rest
  else if code =? 49 then parse_cancel rest
  else if code =? 50 then parse_result serializer rest
  else if code =? 64 then parse_register rest
  else if code =? 65 then parse_registered rest
  else if code =? 66 then parse_unregister rest
  else if code =? 67 then parse_unregistered rest
  else if code =? 68 then parse_invocation serializer rest
  else if code =? 69 then parse_interrupt rest
  else if code =? 70 then parse_yield serializer rest
  else Ok (Unknown code rest).

End values.

(** ** Results of the value parser *)
Section value_results.
Context `{SL : !SerdeLib}.

Lemma returns_value_as_u64 v l : returns (value_as_u64 v l).
  Proof. destruct v; simpl; repeat case_match; done. Qed.
Lemma returns_expect_map v l : returns (expect_map v l).
  Proof. by destruct v. Qed.
Lemma returns_map_or_default v l : returns (map_or_default v l).
  Proof. destruct v as [v|]; [apply returns_expect_map|done]. Qed.
Lemma returns_expect_string v l : returns (expect_string v l).
  Proof. by destruct v. Qed.
Lemma returns_serialize_value s v : returns (serialize_value s v).
  Proof. destruct s; simpl; auto with returns. Qed.
Lemma returns_fmap_serialize s v : returns (Some <$> serialize_value s v).
  Proof. pose proof (returns_serialize_value s v). by destruct (serialize_value s v). Qed.
Lemma returns_extract_payload s la a lk k : returns (extract_payload s la a lk k).
  Proof.
    unfold extract_payload. apply returns_bind; [|intros; apply returns_bind; [|done]].
    - destruct a as [[]|]; try done; apply returns_fmap_serialize.
    - destruct k as [[]|]; try done; apply returns_fmap_serialize.
  Qed.

Local Ltac total_parts :=
    repeat first
      [ exact I
      | apply returns_bind;
        [ first
          [ apply returns_bind; [apply returns_ok_or|intros];
            first [ apply returns_value_as_u64 | apply returns_expect_map
                  | apply returns_expect_string ]
          | apply returns_map_or_default | apply returns_extract_payload
          | apply returns_traverse_opt; intros; apply returns_value_as_u64 ]
        | intros ] ].

Lemma returns_parse_value_parts s code rest : returns (parse_value_parts s code rest).
  Proof.
    unfold parse_value_parts.
    repeat match goal with |- returns (if ?b then _ else _) => destruct b; [shelve|] end.
    done.
    Unshelve. all: unfold parse_hello, parse_welcome, parse_abort, parse_challenge, parse_authenticate,
      parse_goodbye, parse_heartbeat, parse_error, parse_publish, parse_published,
      parse_subscribe, parse_subscribed, parse_unsubscribe, parse_unsubscribed,
      parse_event, parse_call, parse_cancel, parse_result, parse_register,
      parse_registered, parse_unregister, parse_unregistered, parse_invocation,
      parse_interrupt, parse_yield; total_parts.
  Qed.

  (** The message built has the code asked for, and its payload is extracted
      from the positions [cbor_payload_spec] names (counted from the code). *)
Lemma parse_value_parts_result s code rest m :
    parse_value_parts s code rest = Ok m → message_code m = code ∧
    match cbor_payload_spec code with
    | Some spec => ∃ p, message_payload m = Some p
        ∧ extract_payload s (args_label spec) (part rest (args_index spec - 1))
            (kwargs_label spec) (part rest (kwargs_index spec - 1)) = Ok p
    | None => message_payload m = None
    end.
  Proof.
    unfold parse_value_parts.
    repeat match goal with
    | |- (if ?c =? ?k then _ else _) = _ → _ =>
        destruct (Z.eqb_spec c k) as [->|]; [shelve|]
    end.
    intros [= <-]. split; [done|].
    unfold cbor_payload_spec.
    repeat match goal with
    | H : code ≠ _ |- _ => apply Z.eqb_neq in H; rewrite ?H; clear H
    end. done.
    Unshelve. all: unfold parse_hello, parse_welcome, parse_abort, parse_challenge, parse_authenticate,
      parse_goodbye, parse_heartbeat, parse_error, parse_publish, parse_published,
      parse_subscribe, parse_subscribed, parse_unsubscribe, parse_unsubscribed,
      parse_event, parse_call, parse_cancel, parse_result, parse_register,
      parse_registered, parse_unregister, parse_unregistered, parse_invocation,
      parse_interrupt, parse_yield; intros Hm; inv_ok; simpl; eauto.
  Qed.
End value_results.
