(* ===== verification/Cbor.v ===== *)
(** * CBOR messages

    [parse_cbor_message] of [ct_core/src/wamp.rs]: a contiguous message is cut
    into element ranges, its metadata decoded per element and its payload kept
    as slices; a fragmented one is decoded as a whole through
    [SegmentedFrameReader]. *)
From S2P Require Import Prelude Bytes Text WampTypes RawFrame WampValues DemoSerde.

(** ** The array header *)

(** [for byte in &data[1..1 + byte_count] { value = (value << 8) | byte }] on a
    [u64]: the shift drops the bits above 63. *)
Definition cbor_header_integer (data : list Z) (byte_count : Z) : outcome ParseError Z :=
  if zlen data <? 1 + byte_count
  then Err (Deserialize "truncated CBOR array header")
  else
    bytes ← slice_bytes data 1 (1 + byte_count);
    Ok (foldl (λ value byte, Z.lor (Z.shiftl value 8 mod 2 ^ 64) byte) 0 bytes).

Definition cbor_array_header (data : list Z) : outcome ParseError (Z * option Z) :=
  match byte_at data 0 with
  | None => Err (Deserialize "empty CBOR message")
  | Some initial =>
      if negb (Z.shiftr initial 5 =? 4) then Err ExpectedArray
      else
        let additional := Z.land initial 0x1f in
        if additional =? 31 then Ok (1, None)
        else
          '(header_len, length) ←
            (if (0 <=? additional) && (additional <=? 23) then Ok (1, additional)
             else if additional =? 24 then pair 2 <$> cbor_header_integer data 1
             else if additional =? 25 then pair 3 <$> cbor_header_integer data 2
             else if additional =? 26 then pair 5 <$> cbor_header_integer data 4
             else if additional =? 27 then pair 9 <$> cbor_header_integer data 8
             else Err (Deserialize "reserved CBOR array additional information"));
          if length <? 2 ^ 64 then Ok (header_len, Some length)
          else Err (Deserialize "CBOR array length exceeds usize")
  end.

(** ** Reading a fragmented message *)
Record SegmentedFrameReader : Type := mkSegmentedFrameReader {
  segments : list (list Z);
  segment_index : nat;
  segment_offset : Z;
}.

Definition SegmentedFrameReader_new (segments : list (list Z)) : SegmentedFrameReader :=
  mkSegmentedFrameReader segments 0 0.

(** The loop of [Read::read]: [written] is what is already in the buffer of
    [buf_len] bytes. *)
Fixpoint segmented_read_loop (fuel : nat) (r : SegmentedFrameReader) (buf_len : Z)
    (written : list Z) : outcome string (list Z * SegmentedFrameReader) :=
  if negb (zlen written <? buf_len) then Ok (written, r)
  else match segments r !! segment_index r with
  | None => Ok (written, r)
  | Some segment =>
      match fuel with
      | O => NoFuel
      | S fuel =>
          remaining ← slice_bytes segment (segment_offset r) (zlen segment);
          if zlen remaining =? 0 then
            segmented_read_loop fuel
              (mkSegmentedFrameReader (segments r) (S (segment_index r)) 0) buf_len written
          else
            let count := Z.min (zlen remaining) (buf_len - zlen written) in
            let written := written ++ take (Z.to_nat count) remaining in
            let offset := segment_offset r + count in
            if zlen segment <=? offset then
              segmented_read_loop fuel
                (mkSegmentedFrameReader (segments r) (S (segment_index r)) 0) buf_len written
            else
              segmented_read_loop fuel
                (mkSegmentedFrameReader (segments r) (segment_index r) offset) buf_len written
      end
  end.

(** [SegmentedFrameReader::read] into a buffer of [buf_len] bytes. *)
Definition segmented_read (r : SegmentedFrameReader) (buf_len : Z) :
    outcome string (list Z * SegmentedFrameReader) :=
  if buf_len =? 0 then Ok ([], r)
  else segmented_read_loop (S (length (segments r) + Z.to_nat buf_len)) r buf_len [].

Section cbor.
Context `{SL : !SerdeLib}.

(** [deserialize_value]: the reader-based arm hands [serde_cbor] the bytes the
    [SegmentedFrameReader] delivers. *)
Definition deserialize_value (serializer : Serializer) (bytes : RawFrame) :
    outcome ParseError value :=
  match serializer with
  | Json => lift_de (json_whole_de (into_bytes bytes))
  | MessagePack => lift_de (rmp_whole_de (into_bytes bytes))
  | Cbor =>
      match bytes with
      | Contiguous raw => lift_de (cbor_value_de raw)
      | Segmented segments _ => lift_de (cbor_reader_de (concat segments))
      end
  | Ubjson | Flatbuffers => Err (UnsupportedSerializer serializer)
  end.

Definition parse_value_message (serializer : Serializer) (raw_payload : RawFrame) :
    outcome ParseError ParsedMessage :=
  value ← deserialize_value serializer raw_payload;
  match value with
  | VSeq [] => Err (MissingElement "message code")
  | VSeq (code_value :: rest) =>
      code ← value_as_u64 code_value "message code";
      message ← parse_value_parts serializer code rest;
      Ok (mkParsedMessage message raw_payload serializer None)
  | _ => Err ExpectedArray
  end.

Definition cbor_value (raw_payload : RawFrame) (range : Z * Z) : outcome ParseError value :=
  slice ← slice_or_copy raw_payload range;
  lift_de (cbor_value_de slice).

(** The loop of [cbor_top_level_ranges]; [count] is [ranges.len()]. *)
Fixpoint cbor_ranges_loop (fuel : nat) (data : list Z) (len : option Z)
    (offset count : Z) : outcome ParseError (list (Z * Z) * Z) :=
  let done :=
    match len with
    | Some len => count =? len
    | None => bool_decide (byte_at data offset = Some 0xff)
    end in
  if done then Ok ([], offset)
  else if zlen data <=? offset
  then Err (Deserialize "unexpected end of CBOR message array")
  else match fuel with
  | O => NoFuel
  | S fuel =>
      rest ← slice_bytes data offset (zlen data);
      consumed ← Z.of_N <$> lift_de (cbor_skip rest);
      if consumed =? 0 then Err (Deserialize "CBOR value parser made no progress")
      else if 2 ^ 64 <=? offset + consumed
      then Err (Deserialize "CBOR value range overflow")
      else '(ranges, stop) ← cbor_ranges_loop fuel data len (offset + consumed) (count + 1);
           Ok ((offset, offset + consumed) :: ranges, stop)
  end.

Definition cbor_top_level_ranges (data : list Z) : outcome ParseError (list (Z * Z)) :=
  '(offset, len) ← cbor_array_header data;
  '(ranges, offset) ← cbor_ranges_loop (length data) data len offset 0;
  message_end ← match len with
                | Some _ => Ok offset
                | None => if 2 ^ 64 <=? offset + 1
                          then Err (Deserialize "CBOR message range overflow")
                          else Ok (offset + 1)
                end;
  if negb (message_end =? zlen data)
  then Err (Deserialize "trailing data after CBOR message array")
  else Ok ranges.

Definition cbor_payload_part (raw_payload : RawFrame) (range : option (Z * Z))
    (expected_major : Z) (wrong_type : ParseError) :
    outcome ParseError (option (list Z)) :=
  match range with
  | None => Ok None
  | Some range =>
      slice ← slice_or_copy raw_payload range;
      if bool_decide (slice = [0xf6]) then Ok None
      else if negb (bool_decide ((λ byte, Z.shiftr byte 5) <$> head slice = Some expected_major))
      then Err wrong_type
      else Some <$> slice_or_copy raw_payload range
  end.

Definition cbor_payload (raw_payload : RawFrame) (ranges : list (Z * Z))
    (spec : CborPayloadSpec) : outcome ParseError Payload :=
  args ← cbor_payload_part raw_payload (ranges !! args_index spec) 4
           (ExpectedList (args_label spec));
  kwargs ← cbor_payload_part raw_payload (ranges !! kwargs_index spec) 5
             (ExpectedMap (kwargs_label spec));
  Ok (mkPayload args kwargs None).

Definition replace_message_payload (message : WampMessage) (payload : Payload) : WampMessage :=
  match message with
  | Abort details reason _ => Abort details reason payload
  | Goodbye details reason _ => Goodbye details reason payload
  | Error request_type request_id details error _ =>
      Error request_type request_id details error payload
  | Publish request_id options topic _ => Publish request_id options topic payload
  | Event subscription_id publication_id details _ =>
      Event subscription_id publication_id details payload
  | Call request_id options procedure _ => Call request_id options procedure payload
  | Result request_id details _ => Result request_id details payload
  | Invocation request_id registration_id details _ =>
      Invocation request_id registration_id details payload
  | Yield request_id options _ => Yield request_id options payload
  | m => m
  end.

(** The value of element [index]: a payload element is replaced by an empty
    stand-in, the others are decoded. *)
Definition cbor_rest_value (raw_payload : RawFrame) (spec : option CborPayloadSpec)
    (payload : option Payload) (index : nat) (range : Z * Z) : outcome ParseError value :=
  match spec, payload with
  | Some spec, Some payload =>
      if Nat.eqb index (args_index spec) then
        Ok (match args payload with Some _ => VSeq [] | None => VUnit end)
      else if Nat.eqb index (kwargs_index spec) then
        Ok (match kwargs payload with Some _ => VMap [] | None => VUnit end)
      else cbor_value raw_payload range
  | _, _ => cbor_value raw_payload range
  end.

(** [enumerate().skip(1)]: the elements after the code with their indices. *)
Definition enumerate_skip1 {A} (l : list A) : list (nat * A) :=
  drop 1 (imap pair l).

Definition parse_cbor_message (raw_payload : RawFrame) : outcome ParseError ParsedMessage :=
  match as_contiguous raw_payload with
  | None => parse_value_message Cbor raw_payload
  | Some raw =>
      ranges ← cbor_top_level_ranges raw;
      match ranges with
      | [] => Err (MissingElement "message code")
      | range0 :: _ =>
          code_value ← cbor_value raw_payload range0;
          code ← value_as_u64 code_value "message code";
          let payload_spec := cbor_payload_spec code in
          payload ← traverse_opt (cbor_payload raw_payload ranges) payload_spec;
          rest ← traverse_list
            (λ ir, cbor_rest_value raw_payload payload_spec payload ir.1 ir.2)
            (enumerate_skip1 ranges);
          message ← parse_value_parts Cbor code rest;
          let message := match payload with
                         | Some payload => replace_message_payload message payload
                         | None => message
                         end in
          Ok (mkParsedMessage message raw_payload Cbor None)
      end
  end.

End cbor.

(** ** Array headers *)

(** The array headers of RFC 8949: a count of each width, or indefinite. *)
Inductive cbor_header : option Z → list Z → Prop :=
  | header_small n : 0 ≤ n ≤ 23 → cbor_header (Some n) [0x80 + n]
  | header_sized k b : (k ≤ 3)%nat → zlen b = 2 ^ Z.of_nat k → bytes_ok b →
      cbor_header (Some (be_value b)) (0x98 + Z.of_nat k :: b)
  | header_indefinite : cbor_header None [0x9f].

Lemma shift_fold acc l : bytes_ok l → 0 ≤ acc → acc * 256 ^ zlen l + be_value l < 2 ^ 64 →
  foldl (λ value byte, Z.lor (Z.shiftl value 8 mod 2 ^ 64) byte) acc l
  = acc * 256 ^ zlen l + be_value l.
Proof.
  revert acc. induction l as [|b l IH]; intros acc Hl Hacc Hlt.
  - rewrite zlen_nil. unfold be_value. simpl. lia.
  - apply Forall_cons in Hl as [Hb Hl].
    change (b :: l) with ([b] ++ l) in Hlt |- *.
    rewrite be_value_app in *. rewrite zlen_app in *. change (zlen [b]) with 1 in *.
    change (be_value [b]) with b in *.
    rewrite Z.pow_add_r, Z.pow_1_r in * by (zlen_facts; lia).
    pose proof (be_value_bound l Hl) as Hv.
    assert (0 < 256 ^ zlen l) by (apply Z.pow_pos_nonneg; zlen_facts; lia).
    assert ((acc * 256 + b) * 1 ≤ (acc * 256 + b) * 256 ^ zlen l) as Hle.
    { apply Z.mul_le_mono_nonneg_l; [destruct Hb|]; lia. }
    simpl. rewrite Z.mod_small.
    + rewrite shl_or_byte by done. rewrite IH; [lia|done|destruct Hb; lia|lia].
    + rewrite Z.shiftl_mul_pow2 by lia. change (2 ^ 8) with 256. destruct Hb. lia.
Qed.

Lemma cbor_header_integer_spec data k : bytes_ok data → (k ≤ 3)%nat →
  cbor_header_integer data (2 ^ Z.of_nat k)
  = if zlen data <? 1 + 2 ^ Z.of_nat k
    then Err (Deserialize "truncated CBOR array header")
    else Ok (be_value (sub_bytes data 1 (1 + 2 ^ Z.of_nat k))).
Proof.
  intros Hd Hk. unfold cbor_header_integer.
  assert (1 ≤ 2 ^ Z.of_nat k ≤ 8) as Hp.
  { destruct k as [|[|[|[|k]]]]; simpl; lia. }
  destruct (Z.ltb_spec (zlen data) (1 + 2 ^ Z.of_nat k)); [done|].
  rewrite slice_bytes_in by lia. simpl. f_equal.
  pose proof (sub_bytes_ok data 1 (1 + 2 ^ Z.of_nat k) Hd) as Hs.
  assert (zlen (sub_bytes data 1 (1 + 2 ^ Z.of_nat k)) = 2 ^ Z.of_nat k) as Hz
    by (rewrite zlen_sub_bytes; lia).
  pose proof (be_value_bound _ Hs) as Hb. rewrite Hz in Hb.
  assert (256 ^ 2 ^ Z.of_nat k ≤ 256 ^ 8) by (apply Z.pow_le_mono_r; lia).
  change (256 ^ 8) with (2 ^ 64) in *.
  rewrite shift_fold by (done || lia). lia.
Qed.

(** What the initial byte of an array says. *)
Lemma cbor_array_initial b : u8_ok b → Z.shiftr b 5 = 4 →
  0x80 ≤ b ≤ 0x9f ∧ Z.land b 0x1f = b - 0x80.
Proof.
  intros Hb. assert (implb (Z.shiftr b 5 =? 4)
    ((0x80 <=? b) && (b <=? 0x9f) && (Z.land b 0x1f =? b - 0x80)) = true) as H by u8_decide Hb.
  intros H'. rewrite (proj2 (Z.eqb_eq _ _) H') in H. simpl in H. lia.
Qed.

Lemma cbor_array_initial_conv b : 0x80 ≤ b ≤ 0x9f → Z.shiftr b 5 = 4.
Proof.
  intros Hb. assert (u8_ok b) as Hu by (unfold u8_ok; lia).
  assert (∀ b, u8_ok b →
    implb ((0x80 <=? b) && (b <=? 0x9f)) (Z.shiftr b 5 =? 4) = true) as H
    by (intros b' Hb'; u8_decide Hb').
  specialize (H b Hu).
  rewrite (proj2 (Z.leb_le 0x80 b)), (proj2 (Z.leb_le b 0x9f)) in H by lia. simpl in H. lia.
Qed.

Lemma sized_header_sound data b k h l : bytes_ok data → byte_at data 0 = Some b →
  b = 0x98 + Z.of_nat k → (k ≤ 3)%nat →
  pair (1 + 2 ^ Z.of_nat k) <$> cbor_header_integer data (2 ^ Z.of_nat k) = Ok (h, l) →
  ∃ header rest, data = header ++ rest ∧ zlen header = h ∧ cbor_header (Some l) header.
Proof.
  intros Hd Hb -> Hk H. rewrite cbor_header_integer_spec in H by done.
  assert (1 ≤ 2 ^ Z.of_nat k) by (destruct k as [|[|[|[|k]]]]; simpl; lia).
  destruct (Z.ltb_spec (zlen data) (1 + 2 ^ Z.of_nat k)); [done|]. injection H as <- <-.
  exists ((0x98 + Z.of_nat k) :: sub_bytes data 1 (1 + 2 ^ Z.of_nat k)),
    (sub_bytes data (1 + 2 ^ Z.of_nat k) (zlen data)).
  split_and!.
  - rewrite <-app_comm_cons. rewrite sub_bytes_join by lia.
    rewrite <-(sub_bytes_full data) at 1.
    by rewrite (sub_bytes_cons data 0 _ _ Hb) by lia.
  - rewrite zlen_cons, zlen_sub_bytes; lia.
  - apply header_sized; [done|rewrite zlen_sub_bytes; lia|by apply sub_bytes_ok].
Qed.

Lemma cbor_array_header_sound data h l : bytes_ok data →
  cbor_array_header data = Ok (h, l) →
  ∃ header rest, data = header ++ rest ∧ zlen header = h ∧ cbor_header l header.
Proof.
  intros Hd H. unfold cbor_array_header in H.
  destruct (byte_at data 0) as [b|] eqn:Hb; [|done].
  pose proof (byte_at_ok _ _ _ Hd Hb) as Hu.
  destruct (Z.eqb_spec (Z.shiftr b 5) 4) as [H4|]; [|done]. cbn [negb] in H.
  destruct (cbor_array_initial b Hu H4) as [Hr Hland]. rewrite Hland in H. cbv zeta in H.
  assert (data = b :: sub_bytes data 1 (zlen data)) as Hsplit.
  { rewrite <-(sub_bytes_full data) at 1. apply sub_bytes_cons; [done|].
    apply (mk_is_Some), byte_at_is_Some in Hb. lia. }
  destruct (Z.eqb_spec (b - 0x80) 31).
  { injection H as <- <-. exists [b], (sub_bytes data 1 (zlen data)).
    split_and!; [done|done|]. replace b with 0x9f by lia. constructor. }
  inv_ok. destruct a as [h' l'].
  destruct (l' <? 2 ^ 64); [|done]. injection H as <- <-.
  destruct ((0 <=? b - 0x80) && (b - 0x80 <=? 23)) eqn:Hs.
  { injection Ha as <- <-. exists [b], (sub_bytes data 1 (zlen data)).
    split_and!; [done|done|]. replace b with (0x80 + (b - 0x80)) at 2 by lia.
    apply header_small. lia. }
  repeat case_match; [..|done].
  - apply (sized_header_sound data b 0); try done; lia.
  - apply (sized_header_sound data b 1); try done; lia.
  - apply (sized_header_sound data b 2); try done; lia.
  - apply (sized_header_sound data b 3); try done; lia.
Qed.

Lemma cbor_header_value l header : cbor_header l header →
  match l with Some n => 0 ≤ n < 2 ^ 64 | None => True end.
Proof.
  destruct 1 as [n Hn|k b Hk Hz Hb|]; [lia| |done].
  pose proof (be_value_bound b Hb) as Hv. rewrite Hz in Hv.
  assert (256 ^ 2 ^ Z.of_nat k ≤ 2 ^ 64); [|lia].
  destruct k as [|[|[|[|k]]]]; simpl; lia.
Qed.

Lemma sized_header_complete k b rest : (k ≤ 3)%nat → zlen b = 2 ^ Z.of_nat k →
  bytes_ok b → bytes_ok rest →
  cbor_header_integer ((0x98 + Z.of_nat k) :: b ++ rest) (2 ^ Z.of_nat k) = Ok (be_value b).
Proof.
  intros Hk Hz Hb Hrest. rewrite cbor_header_integer_spec; [|constructor|done].
  2: { unfold u8_ok. lia. } 2: { by apply Forall_app. }
  rewrite (proj2 (Z.ltb_ge _ _)) by zlia. f_equal. f_equal.
  rewrite <-Hz. apply (sub_bytes_app_mid [0x98 + Z.of_nat k] b rest).
Qed.

Lemma cbor_array_header_complete l header rest : bytes_ok rest → cbor_header l header →
  cbor_array_header (header ++ rest) = Ok (zlen header, l).
Proof.
  intros Hrest Hh. pose proof (cbor_header_value _ _ Hh) as Hv. unfold cbor_array_header.
  destruct Hh as [n Hn|k b Hk Hz Hb|]; simpl app.
  - replace (byte_at _ 0) with (Some (0x80 + n))
      by (symmetry; apply byte_at_Some; split; [lia|done]).
    rewrite cbor_array_initial_conv by lia. simpl negb.
    destruct (cbor_array_initial (0x80 + n)) as [_ ->];
      [unfold u8_ok; lia|apply cbor_array_initial_conv; lia|].
    cbv zeta. replace (0x80 + n - 0x80) with n by lia.
    rewrite (proj2 (Z.eqb_neq n 31)), (proj2 (Z.leb_le 0 n)), (proj2 (Z.leb_le n 23)) by lia.
    simpl. by rewrite (proj2 (Z.ltb_lt _ _)) by lia.
  - replace (byte_at _ 0) with (Some (0x98 + Z.of_nat k))
      by (symmetry; apply byte_at_Some; split; [lia|done]).
    pose proof (sized_header_complete k b rest Hk Hz Hb Hrest) as Hc.
    rewrite zlen_cons, Hz.
    destruct k as [|[|[|[|k]]]]; [..|lia];
      (match type of Hc with
       | cbor_header_integer ((?x + ?y) :: _) ?z = _ =>
           let m := eval vm_compute in (x + y) in
           let w := eval vm_compute in z in
           change (x + y) with m in *; change z with w in *
       end; simpl; rewrite Hc; simpl; by rewrite (proj2 (Z.ltb_lt _ _)) by lia).
  - done.
Qed.

(** ** Element ranges *)
Section ranges.
Context `{SL : !SerdeLib}.

  (** Consecutive non-empty elements from [off] to [stop], each as long as
      [serde_cbor] says. *)
Inductive cbor_chain (data : list Z) : Z → list (Z * Z) → Z → Prop :=
    | cchain_nil off : cbor_chain data off [] off
    | cchain_cons off mid ranges stop :
        off < mid → off < zlen data →
        cbor_skip (sub_bytes data off (zlen data)) = inr (Z.to_N (mid - off)) →
        cbor_chain data mid ranges stop →
        cbor_chain data off ((off, mid) :: ranges) stop.

Lemma cbor_chain_le data off ranges stop : cbor_chain data off ranges stop → off ≤ stop.
  Proof. induction 1; lia. Qed.

Lemma cbor_chain_in data off ranges stop : 0 ≤ off → stop ≤ zlen data →
    cbor_chain data off ranges stop → Forall (range_in (zlen data)) ranges.
  Proof.
    intros Hoff Hs H. induction H as [|off mid ranges stop ??? Hc IH]; constructor.
    - apply cbor_chain_le in Hc. unfold range_in; simpl; lia.
    - apply IH; lia.
  Qed.

Lemma cbor_chain_items data off ranges stop : 0 ≤ off →
    cbor_chain data off ranges stop →
    concat ((λ r, sub_bytes data r.1 r.2) <$> ranges) = sub_bytes data off stop.
  Proof.
    intros Hoff H. induction H as [off|off mid ranges stop ??? Hc IH]; simpl.
    - by rewrite sub_bytes_nil by lia.
    - specialize (IH ltac:(lia)). apply cbor_chain_le in Hc.
      unfold fmap in IH. rewrite IH. apply sub_bytes_join; lia.
  Qed.

Lemma cbor_ranges_loop_sound fuel data len off count ranges stop : 0 ≤ off →
    cbor_ranges_loop fuel data len off count = Ok (ranges, stop) →
    cbor_chain data off ranges stop
    ∧ match len with
      | Some n => count + zlen ranges = n
      | None => byte_at data stop = Some 0xff
      end.
  Proof.
    revert off count ranges stop.
    induction fuel as [|fuel IH]; intros off count ranges stop Hoff; cbn [cbor_ranges_loop];
      cbv zeta;
      (destruct (match len with Some len => count =? len | None => _ end) eqn:Hd;
       [intros [= <- <-]; split; [constructor|]; destruct len;
        [rewrite zlen_nil; lia|by apply bool_decide_eq_true in Hd]|]);
      destruct (Z.leb_spec (zlen data) off) as [|Hlt]; try done.
    intros H. rewrite slice_bytes_in in H by lia. simpl in H. inv_ok. subst a.
    apply lift_de_Ok in Ha0.
    match type of Ha0 with _ = inr ?n => rename n into k end.
    destruct (Z.eqb_spec (Z.of_N k) 0); [done|].
    destruct (Z.leb_spec (2 ^ 64) (off + Z.of_N k)); [done|].
    inv_ok. destruct a as [rest o]. injection H as <- <-.
    apply IH in Ha as [Hc Hlen]; [|lia]. split.
    - econstructor; [lia|lia| |done]. rewrite Ha0. f_equal. lia.
    - destruct len; [|done]. rewrite zlen_cons. lia.
  Qed.

Lemma returns_cbor_ranges_loop fuel data len off count : 0 ≤ off →
    zlen data - off ≤ Z.of_nat fuel → returns (cbor_ranges_loop fuel data len off count).
  Proof.
    revert off count. induction fuel as [|fuel IH]; intros off count Hoff Hf;
      cbn [cbor_ranges_loop]; cbv zeta;
      (destruct (match len with Some len => count =? len | None => _ end); [done|]);
      destruct (Z.leb_spec (zlen data) off); try done; [lia|].
    rewrite slice_bytes_in by lia. simpl.
    destruct (cbor_skip _) as [|k]; simpl; [done|].
    destruct (Z.eqb_spec (Z.of_N k) 0); [done|].
    destruct (Z.leb_spec (2 ^ 64) (off + Z.of_N k)); [done|].
    apply returns_bind; [apply IH; lia|]. by intros [].
  Qed.

Lemma returns_cbor_header_integer data n : 0 ≤ n → returns (cbor_header_integer data n).
  Proof.
    intros Hn. unfold cbor_header_integer.
    destruct (Z.ltb_spec (zlen data) (1 + n)); [done|].
    by rewrite slice_bytes_in by lia.
  Qed.

Lemma returns_cbor_array_header data : returns (cbor_array_header data).
  Proof.
    unfold cbor_array_header. destruct (byte_at data 0); [|done].
    case_match; [done|]. cbv zeta. case_match; [done|].
    apply returns_bind; [|intros [] _; simpl; by case_match].
    assert (∀ (a : Z) n, 0 ≤ n → returns (pair a <$> cbor_header_integer data n)) as Hp.
    { intros a n Hn. pose proof (returns_cbor_header_integer data n Hn).
      by destruct (cbor_header_integer data n). }
    repeat match goal with |- returns (if ?b then _ else _) => destruct b end;
      first [done | apply Hp; lia].
  Qed.

Lemma cbor_top_level_ranges_inv data ranges : bytes_ok data →
    cbor_top_level_ranges data = Ok ranges →
    ∃ header len stop, sub_bytes data 0 (zlen header) = header ∧ cbor_header len header
      ∧ cbor_chain data (zlen header) ranges stop
      ∧ match len with
        | Some n => zlen ranges = n ∧ stop = zlen data
        | None => byte_at data stop = Some 0xff ∧ stop + 1 = zlen data
        end.
  Proof.
    intros Hd H. unfold cbor_top_level_ranges in H. inv_ok. destruct a as [h len].
    apply cbor_array_header_sound in Ha as (header & rest & Hsplit & <- & Hh); [|done].
    inv_ok. destruct a as [ranges' stop]. apply cbor_ranges_loop_sound in Ha as [Hc Hl];
      [|apply zlen_nonneg]. inv_ok.
    destruct (Z.eqb_spec a (zlen data)) as [->|]; [|done]. injection H as <-.
    exists header, len, stop. split_and!; [|done|done|].
    - rewrite Hsplit. apply (sub_bytes_app_mid [] header rest).
    - destruct len; [by injection Ha|]. case_match; [done|]. injection Ha as Ha. split; [done|lia].
  Qed.

Lemma returns_cbor_top_level_ranges data : bytes_ok data →
    returns (cbor_top_level_ranges data).
  Proof.
    intros Hd. unfold cbor_top_level_ranges.
    apply returns_bind; [apply returns_cbor_array_header|].
    intros [off len] (header & rest & _ & <- & _)%cbor_array_header_sound; [|done].
    apply returns_bind.
    { apply returns_cbor_ranges_loop; unfold zlen; lia. }
    intros [ranges stop] _. apply returns_bind; [|intros ? _; by case_match].
    destruct len; [done|]. by case_match.
  Qed.

Lemma cbor_top_level_ranges_in data ranges : bytes_ok data →
    cbor_top_level_ranges data = Ok ranges → Forall (range_in (zlen data)) ranges.
  Proof.
    intros Hd (header & len & stop & _ & _ & Hc & Hl)%cbor_top_level_ranges_inv; [|done].
    apply (cbor_chain_in data (zlen header) ranges stop); [apply zlen_nonneg| |done].
    destruct len; lia.
  Qed.
End ranges.

(** ** The contiguous parser *)
Section cbor_parser.
Context `{SL : !SerdeLib}.

Lemma replace_message_payload_spec m p q : message_payload m = Some q →
    message_payload (replace_message_payload m p) = Some p
    ∧ message_code (replace_message_payload m p) = message_code m.
  Proof. by destruct m. Qed.

  (** A payload element: absent, null, or the exact bytes of an item of the
      required major type. *)
Definition cbor_part (major : Z) (e : ParseError) (x : option (list Z)) :
      outcome ParseError (option (list Z)) :=
    match x with
    | None => Ok None
    | Some x =>
        if bool_decide (x = [0xf6]) then Ok None
        else if bool_decide ((λ b, Z.shiftr b 5) <$> head x = Some major)
        then Ok (Some x) else Err e
    end.

Definition range_items (data : list Z) (ranges : list (Z * Z)) : list (list Z) :=
    (λ r, sub_bytes data r.1 r.2) <$> ranges.

Lemma cbor_payload_part_items data ranges i major e :
    Forall (range_in (zlen data)) ranges →
    cbor_payload_part (Contiguous data) (ranges !! i) major e
    = cbor_part major e (range_items data ranges !! i).
  Proof.
    intros Hr. unfold range_items. rewrite list_lookup_fmap.
    destruct (ranges !! i) as [r|] eqn:E; [|done]. simpl.
    pose proof (Forall_lookup_1 _ _ _ _ Hr E) as Hin.
    assert (slice_or_copy (Contiguous data) r = Ok (sub_bytes data r.1 r.2)) as Hs
      by (by apply slice_or_copy_in).
    unfold cbor_part. rewrite Hs. cbn [mbind outcome_bind].
    destruct (bool_decide (_ = [_])); [done|].
    by destruct (bool_decide (_ = Some major)).
  Qed.

Lemma returns_cbor_part major e x : returns (cbor_part major e x).
  Proof. unfold cbor_part. by repeat case_match. Qed.

Lemma returns_cbor_value data r : range_in (zlen data) r →
    returns (cbor_value (Contiguous data) r).
  Proof.
    intros Hr. unfold cbor_value.
    rewrite slice_or_copy_in by done. simpl. auto with returns.
  Qed.

Lemma parse_cbor_contiguous_inv data r : bytes_ok data →
    parse_cbor_message (Contiguous data) = Ok r →
    ∃ ranges code v x, cbor_top_level_ranges data = Ok ranges
      ∧ range_items data ranges !! 0%nat = Some x ∧ cbor_value_de x = inr v
      ∧ value_as_u64 v "message code" = Ok code ∧ message_code (message r) = code
      ∧ raw r = Contiguous data ∧ serializer r = Cbor ∧ encoded_metadata r = None
      ∧ match cbor_payload_spec code with
        | Some spec => ∃ p, message_payload (message r) = Some p
            ∧ cbor_payload (Contiguous data) ranges spec = Ok p
        | None => message_payload (message r) = None
        end.
  Proof.
    intros Hd H. unfold parse_cbor_message in H. simpl in H. inv_ok.
    pose proof (cbor_top_level_ranges_in data _ Hd Ha) as Hin.
    destruct a as [|r0 ranges]; [done|]. inv_ok.
    match goal with E : cbor_value _ _ = Ok ?w |- _ => rename E into Ev, w into v end.
    match goal with E : value_as_u64 _ _ = Ok ?c |- _ => rename E into Ec, c into code end.
    match goal with E : parse_value_parts _ _ _ = Ok ?w |- _ => rename E into Em, w into m end.
    apply parse_value_parts_result in Em as [Hcode Hp].
    exists (r0 :: ranges), code, v, (sub_bytes data r0.1 r0.2).
    split; [done|]. split; [done|]. split.
    { unfold cbor_value in Ev. apply Forall_cons in Hin as [Hin _].
      rewrite slice_or_copy_in in Ev by done. simpl in Ev. by apply lift_de_Ok in Ev. }
    split; [done|]. destruct (cbor_payload_spec code) as [spec|]; simpl in *.
    - destruct Hp as (q & Hq & _).
      match goal with E : mbind _ (cbor_payload _ _ _) = Ok _ |- _ => rename E into Ep end.
      inv_ok. match goal with E : cbor_payload _ _ _ = Ok ?w |- _ => rename w into p end.
      destruct (replace_message_payload_spec m p q Hq) as [Hp1 Hp2]. simpl.
      split_and!; [congruence|done..|]. by exists p.
    - inv_ok. done.
  Qed.

Lemma returns_parse_value_message s f : returns (parse_value_message s f).
  Proof.
    unfold parse_value_message. apply returns_bind.
    { destruct s; simpl; auto with returns. destruct f; auto with returns. }
    intros v _. destruct v as [| | | | | | | | | | | | | | | |[|code rest]| |]; try done.
    apply returns_bind; [apply returns_value_as_u64|intros].
    by apply returns_bind; [apply returns_parse_value_parts|].
  Qed.

Lemma returns_parse_cbor_message f : frame_ok f → returns (parse_cbor_message f).
  Proof.
    intros [_ Hb]. unfold parse_cbor_message.
    destruct f as [data|segments len]; simpl in *; [|apply returns_parse_value_message].
    apply returns_bind; [by apply returns_cbor_top_level_ranges|].
    intros ranges Hr. apply cbor_top_level_ranges_in in Hr; [|done].
    destruct ranges as [|r0 ranges]; [done|].
    apply returns_bind; [apply returns_cbor_value; by inversion Hr|]. intros v _.
    apply returns_bind; [apply returns_value_as_u64|]. intros code _.
    apply returns_bind.
    { apply returns_traverse_opt. intros spec _. unfold cbor_payload.
      rewrite !cbor_payload_part_items by done.
      repeat (apply returns_bind; [apply returns_cbor_part|intros]). done. }
    intros payload _. apply returns_bind.
    { apply returns_traverse_list. unfold enumerate_skip1. apply Forall_drop.
      apply Forall_lookup_2. intros i [j x] Hi. simpl.
      rewrite list_lookup_imap in Hi. apply fmap_Some in Hi as (y & Hy & [= -> ->]).
      assert (range_in (zlen data) y) by by eapply Forall_lookup_1.
      unfold cbor_rest_value.
      repeat case_match; first [done | by apply returns_cbor_value]. }
    intros rest _. by apply returns_bind; [apply returns_parse_value_parts|].
  Qed.
End cbor_parser.

(** ** The segmented reader *)

(** The bytes a reader has still to deliver. *)
Definition reader_rest (r : SegmentedFrameReader) : list Z :=
  match segments r !! segment_index r with
  | Some s => drop (Z.to_nat (segment_offset r)) s
              ++ concat (drop (S (segment_index r)) (segments r))
  | None => []
  end.

Definition reader_ok (r : SegmentedFrameReader) : Prop :=
  match segments r !! segment_index r with
  | Some s => 0 ≤ segment_offset r ≤ zlen s
  | None => True
  end.

Lemma reader_rest_next segs i s : segs !! i = Some s →
  reader_rest (mkSegmentedFrameReader segs (S i) 0)
  = concat (drop (S i) segs).
Proof.
  intros _. unfold reader_rest. simpl.
  destruct (segs !! S i) as [s'|] eqn:E.
  - rewrite (drop_S _ _ _ E). by rewrite drop_0.
  - rewrite drop_ge; [done|]. by apply lookup_ge_None.
Qed.

Lemma reader_ok_next segs i : reader_ok (mkSegmentedFrameReader segs (S i) 0).
Proof. unfold reader_ok. simpl. case_match; [|done]. zlia. Qed.

Lemma segmented_read_loop_spec fuel r n written :
  reader_ok r → zlen written ≤ n →
  (length (segments r) - segment_index r + Z.to_nat (n - zlen written) < fuel)%nat →
  ∃ r', segmented_read_loop fuel r n written
        = Ok (written ++ take (Z.to_nat (n - zlen written)) (reader_rest r), r')
    ∧ reader_rest r' = drop (Z.to_nat (n - zlen written)) (reader_rest r)
    ∧ reader_ok r' ∧ segments r' = segments r.
Proof.
  revert r written. induction fuel as [|fuel IH]; intros r written Hok Hle Hf; [lia|].
  cbn [segmented_read_loop].
  destruct (Z.ltb_spec (zlen written) n) as [Hlt|Hge]; cbn [negb].
  2: { replace (n - zlen written) with 0 by lia. exists r.
       change (Z.to_nat 0) with 0%nat. by rewrite take_0, drop_0, app_nil_r. }
  destruct (segments r !! segment_index r) as [s|] eqn:Es.
  2: { exists r. unfold reader_rest. rewrite Es. by rewrite take_nil, drop_nil, app_nil_r. }
  unfold reader_ok in Hok. rewrite Es in Hok.
  pose proof (lookup_lt_Some _ _ _ Es) as Hi.
  rewrite slice_bytes_in by lia. cbn [mbind outcome_bind].
  assert (sub_bytes s (segment_offset r) (zlen s) = drop (Z.to_nat (segment_offset r)) s) as Hrem.
  { unfold sub_bytes. apply take_ge. rewrite length_drop. unfold zlen. lia. }
  rewrite Hrem. set (remaining := drop (Z.to_nat (segment_offset r)) s) in *.
  assert (zlen remaining = zlen s - segment_offset r) as Hzr by (subst remaining; zlia).
  assert (reader_rest r = remaining ++ concat (drop (S (segment_index r)) (segments r))) as Hrest
    by (unfold reader_rest; by rewrite Es).
  destruct (Z.eqb_spec (zlen remaining) 0) as [H0|H0].
  { destruct (IH (mkSegmentedFrameReader (segments r) (S (segment_index r)) 0) written)
      as (r' & -> & H1 & H2 & H3); [apply reader_ok_next|lia|simpl; lia|].
    rewrite (reader_rest_next _ _ s) in * by done. rewrite Hrest, (zlen_0_nil _ H0).
    by exists r'. }
  cbv zeta. set (count := Z.min (zlen remaining) (n - zlen written)).
  assert (zlen (written ++ take (Z.to_nat count) remaining) = zlen written + count) as Hw
    by (zlia).
  destruct (Z.leb_spec (zlen s) (segment_offset r + count)) as [Hdone|Hmore].
  - destruct (IH (mkSegmentedFrameReader (segments r) (S (segment_index r)) 0)
        (written ++ take (Z.to_nat count) remaining)) as (r' & -> & H1 & H2 & H3);
      [apply reader_ok_next|lia|simpl; lia|].
    exists r'. rewrite (reader_rest_next _ _ s) in * by done. rewrite Hrest, Hw in *.
    assert (count = zlen remaining) as Hcount by lia.
    split_and!; [|rewrite H1|done..].
    + f_equal. f_equal. rewrite <-(assoc_L (++)). f_equal.
      rewrite Hcount, take_app_ge by (unfold zlen in *; lia).
      rewrite (take_ge remaining) by (unfold zlen in *; lia).
      f_equal. f_equal. unfold zlen in *. lia.
    + rewrite drop_app_ge by (unfold zlen in *; lia). f_equal. unfold zlen in *. lia.
  - assert (count = n - zlen written) as Hcount by lia.
    destruct (IH (mkSegmentedFrameReader (segments r) (segment_index r)
        (segment_offset r + count))
        (written ++ take (Z.to_nat count) remaining)) as (r' & -> & H1 & H2 & H3);
      [unfold reader_ok; simpl; rewrite Es; lia|lia|simpl; lia|].
    rewrite Hw in *. replace (n - (zlen written + count)) with 0 in * by lia.
    change (Z.to_nat 0) with 0%nat in *. rewrite drop_0 in H1.
    exists r'. split_and!; [|rewrite H1|done..].
    + f_equal. f_equal. rewrite take_0, app_nil_r, Hrest, <-Hcount. f_equal.
      rewrite take_app_le; [done|]. unfold zlen in *. lia.
    + rewrite Hrest, <-Hcount, drop_app_le by (unfold zlen in *; lia).
      unfold reader_rest. simpl. rewrite Es. f_equal. subst remaining.
      rewrite drop_drop. f_equal. lia.
Qed.

(** ** Properties *)

(** [cbor_array_header] recognises exactly the array headers of RFC 8949,
    with counts of every width up to [2^64 - 1] and indefinite arrays, and
    returns their length and count. *)
Theorem cbor_array_header_exact data h len :
  bytes_ok data →
  cbor_array_header data = Ok (h, len) ↔
  ∃ header rest, data = header ++ rest ∧ zlen header = h ∧ cbor_header len header.
Proof.
  intros Hd. split; [by apply cbor_array_header_sound|].
  intros (header & rest & -> & <- & Hh). apply Forall_app in Hd as [_ Hrest].
  by apply cbor_array_header_complete.
Qed.

Lemma cbor_array_header_exact_witness :
  cbor_array_header [0x9b; 0; 0; 0; 1; 0; 0; 0; 5; 0xf6] = Ok (9, Some (2 ^ 32 + 5)).
Proof.
  apply (cbor_array_header_exact [0x9b; 0; 0; 0; 1; 0; 0; 0; 5; 0xf6] 9 (Some (2 ^ 32 + 5))).
  - unfold bytes_ok, u8_ok. repeat constructor; lia.
  - exists [0x9b; 0; 0; 0; 1; 0; 0; 0; 5], [0xf6]. split_and!; [done|done|].
    apply (header_sized 3 [0; 0; 0; 1; 0; 0; 0; 5]); [lia|done|].
    unfold bytes_ok, u8_ok. repeat constructor; lia.
Defined.

(** a contiguous CBOR message the parser accepts is exactly an array
    header, the announced number of non-empty elements (any number before the
    break octet, for an indefinite array) and nothing after them; the code is
    the decoded first element; and the payload kept is the exact bytes of the
    elements at the positions of the message kind, not the empty stand-ins the
    metadata is parsed with. *)
Theorem parse_cbor_message_exact `{SL : !SerdeLib} data r :
  bytes_ok data → parse_cbor_message (Contiguous data) = Ok r →
  ∃ header len items stop_code,
    data = header ++ concat items ++ stop_code ∧ cbor_header len header
    ∧ match len with
      | Some n => zlen items = n ∧ stop_code = []
      | None => stop_code = [0xff]
      end
    ∧ (∃ x v, items !! 0%nat = Some x ∧ cbor_value_de x = inr v
         ∧ value_as_u64 v "message code" = Ok (message_code (message r)))
    ∧ match cbor_payload_spec (message_code (message r)) with
      | Some spec => ∃ p, message_payload (message r) = Some p
          ∧ cbor_part 4 (ExpectedList (args_label spec)) (items !! args_index spec) = Ok (args p)
          ∧ cbor_part 5 (ExpectedMap (kwargs_label spec)) (items !! kwargs_index spec)
            = Ok (kwargs p)
          ∧ transparent p = None
      | None => message_payload (message r) = None
      end
    ∧ raw r = Contiguous data ∧ serializer r = Cbor ∧ encoded_metadata r = None.
Proof.
  intros Hd H.
  destruct (parse_cbor_contiguous_inv data r Hd H)
    as (ranges & code & v & x & Hr & Hx & Hv & Hcode & <- & Hraw & Hs & Hm & Hp).
  pose proof (cbor_top_level_ranges_in data ranges Hd Hr) as Hin.
  destruct (cbor_top_level_ranges_inv data ranges Hd Hr)
    as (header & len & stop & Hheader & Hh & Hc & Hl).
  pose proof (cbor_chain_items data _ _ _ (zlen_nonneg header) Hc) as Hcat.
  pose proof (cbor_chain_le data _ _ _ Hc) as Hle. pose proof (zlen_nonneg header).
  exists header, len, (range_items data ranges), (sub_bytes data stop (zlen data)).
  assert (stop ≤ zlen data) by (destruct len; lia).
  split_and!; [| done | | by eauto | | done..].
  - unfold range_items. rewrite Hcat, <-Hheader at 1. by apply sub_bytes_split.
  - destruct len as [n|].
    + unfold range_items. rewrite zlen_fmap. destruct Hl as [-> ->].
      by rewrite sub_bytes_nil by lia.
    + destruct Hl as [Hb <-]. rewrite (sub_bytes_cons _ _ _ _ Hb) by lia.
      by rewrite sub_bytes_nil by lia.
  - destruct (cbor_payload_spec _) as [spec|]; [|done].
    destruct Hp as (p & ? & Hp). exists p. split; [done|].
    unfold cbor_payload in Hp. rewrite !cbor_payload_part_items in Hp by done. by inv_ok.
Qed.

(** The indefinite array [\[16, 7, {}, "a", \[1\]\]]. *)
Definition demo_cbor_publish : list Z := [0x9f; 16; 7; 0xa0; 0x61; 0x61; 0x81; 1; 0xff].

Lemma parse_cbor_message_exact_witness :
  ∃ header len items stop_code,
    demo_cbor_publish = header ++ concat items ++ stop_code ∧ cbor_header len header.
Proof.
  destruct (parse_cbor_message_exact (SL := DemoSerde) demo_cbor_publish
    (mkParsedMessage (Publish 7 [] [0x61] (mkPayload (Some [0x81; 1]) None None))
       (Contiguous demo_cbor_publish) Cbor None))
    as (h & l & items & s & H1 & H2 & _).
  - unfold bytes_ok, u8_ok. repeat constructor; lia.
  - vm_compute. reflexivity.
  - exists h, l, items, s. split; [exact H1|exact H2].
Defined.

(** a read from a fragmented message fills the caller's buffer completely
    as long as bytes remain, delivers them in order across segment boundaries
    and empty segments, and leaves exactly the bytes after them, so that the
    decoder sees the concatenation of the segments. *)
Theorem segmented_read_exact segs r n :
  segments r = segs → reader_ok r → 0 ≤ n →
  reader_rest (SegmentedFrameReader_new segs) = concat segs ∧
  ∃ r', segmented_read r n = Ok (take (Z.to_nat n) (reader_rest r), r')
    ∧ reader_rest r' = drop (Z.to_nat n) (reader_rest r) ∧ reader_ok r'.
Proof.
  intros <- Hok Hn. split.
  - unfold reader_rest. simpl. destruct (segments r) as [|s l]; [done|]. simpl. by rewrite drop_0.
  - unfold segmented_read. destruct (Z.eqb_spec n 0) as [->|].
    { exists r. change (Z.to_nat 0) with 0%nat. by rewrite take_0, drop_0. }
    destruct (segmented_read_loop_spec (S (length (segments r) + Z.to_nat n)) r n [])
      as (r' & -> & H1 & H2 & _); [done|zlia|rewrite zlen_nil; lia|].
    rewrite zlen_nil, Z.sub_0_r in *. by exists r'.
Qed.

Lemma segmented_read_exact_witness :
  ∃ r', segmented_read (SegmentedFrameReader_new [[1; 2]; []; [3]; [4; 5]]) 4
        = Ok ([1; 2; 3; 4], r') ∧ reader_rest r' = [5].
Proof.
  destruct (segmented_read_exact [[1; 2]; []; [3]; [4; 5]]
    (SegmentedFrameReader_new [[1; 2]; []; [3]; [4; 5]]) 4) as (_ & r' & H1 & H2 & _).
  - reflexivity.
  - unfold reader_ok. simpl. vm_compute. split; discriminate.
  - lia.
  - exists r'. split; [exact H1|exact H2].
Defined.
