(* ===== verification/Json.v ===== *)
(** * JSON messages

    [parse_json_message] of [ct_core/src/wamp.rs]: [serde_json] borrows each
    element of the outer array as raw text; the metadata is decoded from the
    text and the payload is sliced out of the message by the text's address. *)
From S2P Require Import Prelude Bytes Text WampTypes RawFrame DemoSerde.

(** [s.chars().find(|c| !c.is_ascii_whitespace())] *)
Definition first_non_ws (s : str) : option Z :=
  snd <$> list_find (λ c, is_ascii_whitespace c = false) s.

Definition is_json_null (s : str) : bool := str_eqb (trim s) (lit "null").

Definition json_get (fields : list RawValue) (index : nat) (label : string) :
    outcome ParseError RawValue := ok_or (MissingElement label) (fields !! index).

(** [fields.get(index).copied()] *)
Definition field (fields : list RawValue) (index : nat) : option RawValue := fields !! index.

(** [slice_raw]: the address arithmetic gives the text's position in the
    payload, and [Bytes::slice] checks the bounds. *)
Definition slice_raw (raw_payload : list Z) (raw_value : RawValue) :
    outcome ParseError (list Z) :=
  let start := rv_start raw_value in
  let len := str_len (rv_text raw_value) in
  slice_bytes raw_payload start (start + len).

Section json.
Context `{SL : !SerdeLib}.

Definition json_string (raw : RawValue) (label : string) : outcome ParseError str :=
  if is_json_null (rv_text raw) then Err (ExpectedString label)
  else lift_de (json_str_de (rv_text raw)).

Definition json_u64 (raw : RawValue) (label : string) : outcome ParseError Z :=
  ok_or (ExpectedIdentifier label) (json_u64_de (rv_text raw)).

Definition json_optional_u64 (raw : option RawValue) (label : string) :
    outcome ParseError (option Z) :=
  match raw with
  | None => Ok None
  | Some raw => if is_json_null (rv_text raw) then Ok None else Some <$> json_u64 raw label
  end.

Definition json_map (raw : RawValue) (label : string) : outcome ParseError ValueMap :=
  if is_json_null (rv_text raw) then Ok []
  else if negb (bool_decide (first_non_ws (rv_text raw) = Some 0x7b))
  then Err (ExpectedMap label)
  else
    value ← lift_de (json_value_de (rv_text raw));
    match value with
    | VMap entries => Ok entries
    | VUnit => Ok []
    | _ => Err (ExpectedMap label)
    end.

Definition json_optional_map (raw : option RawValue) (label : string) :
    outcome ParseError ValueMap :=
  match raw with None => Ok [] | Some raw => json_map raw label end.

Definition json_payload (raw_payload : list Z) (args_label : string) (args : option RawValue)
    (kwargs_label : string) (kwargs : option RawValue) : outcome ParseError Payload :=
  args_bytes ← match args with
               | None => Ok None
               | Some raw =>
                   if is_json_null (rv_text raw) then Ok None
                   else if bool_decide (first_non_ws (rv_text raw) = Some 0x5b)
                   then Some <$> slice_raw raw_payload raw
                   else Err (ExpectedList args_label)
               end;
  kwargs_bytes ← match kwargs with
                 | None => Ok None
                 | Some raw =>
                     if is_json_null (rv_text raw) then Ok None
                     else if bool_decide (first_non_ws (rv_text raw) = Some 0x7b)
                     then Some <$> slice_raw raw_payload raw
                     else Err (ExpectedMap kwargs_label)
                 end;
  Ok (mkPayload args_bytes kwargs_bytes None).

(** The arms for session management messages: codes 1 to 8. *)
Definition json_session_message (raw_payload : list Z) (fields : list RawValue) (code : Z) :
    option (outcome ParseError WampMessage) :=
  if code =? 1 then Some (
    realm_raw ← json_get fields 1 "hello.realm";
    details_raw ← json_get fields 2 "hello.details";
    realm ← json_string realm_raw "hello.realm";
    details ← json_map details_raw "hello.details";
    Ok (Hello realm details))
  else if code =? 2 then Some (
    session_id_raw ← json_get fields 1 "welcome.session_id";
    details_raw ← json_get fields 2 "welcome.details";
    session_id ← json_u64 session_id_raw "welcome.session_id";
    details ← json_map details_raw "welcome.details";
    Ok (Welcome session_id details))
  else if code =? 3 then Some (
    details_raw ← json_get fields 1 "abort.details";
    reason_raw ← json_get fields 2 "abort.reason";
    payload ← json_payload raw_payload "abort.arguments" (field fields 3)
      "abort.argumentsKw" (field fields 4);
    details ← json_map details_raw "abort.details";
    reason ← json_string reason_raw "abort.reason";
    Ok (Abort details reason payload))
  else if code =? 4 then Some (
    auth_method_raw ← json_get fields 1 "challenge.auth_method";
    extra_raw ← json_get fields 2 "challenge.extra";
    auth_method ← json_string auth_method_raw "challenge.auth_method";
    extra ← json_map extra_raw "challenge.extra";
    Ok (Challenge auth_method extra))
  else if code =? 5 then Some (
    signature_raw ← json_get fields 1 "authenticate.signature";
    signature ← json_string signature_raw "authenticate.signature";
    extra ← json_optional_map (field fields 2) "authenticate.extra";
    Ok (Authenticate signature extra))
  else if code =? 6 then Some (
    details_raw ← json_get fields 1 "goodbye.details";
    reason_raw ← json_get fields 2 "goodbye.reason";
    payload ← json_payload raw_payload "goodbye.arguments" (field fields 3)
      "goodbye.argumentsKw" (field fields 4);
    details ← json_map details_raw "goodbye.details";
    reason ← json_string reason_raw "goodbye.reason";
    Ok (Goodbye details reason payload))
  else if code =? 7 then Some (
    details_raw ← json_get fields 1 "heartbeat.details";
    ping ← json_optional_u64 (field fields 2) "heartbeat.ping";
    incoming ← json_optional_u64 (field fields 3) "heartbeat.incoming";
    outgoing ← json_optional_u64 (field fields 4) "heartbeat.outgoing";
    details ← json_map details_raw "heartbeat.details";
    Ok (Heartbeat details ping incoming outgoing))
  else if code =? 8 then Some (
    request_type_raw ← json_get fields 1 "error.request_type";
    request_id_raw ← json_get fields 2 "error.request_id";
    details_raw ← json_get fields 3 "error.details";
    uri_raw ← json_get fields 4 "error.uri";
    payload ← json_payload raw_payload "error.arguments" (field fields 5)
      "error.argumentsKw" (field fields 6);
    request_type ← json_u64 request_type_raw "error.request_type";
    request_id ← json_u64 request_id_raw "error.request_id";
    details ← json_map details_raw "error.details";
    uri ← json_string uri_raw "error.uri";
    Ok (Error request_type request_id details uri payload))
  else None.

(** The arms for publish and subscribe messages: codes 16 to 36. *)
Definition json_pubsub_message (raw_payload : list Z) (fields : list RawValue) (code : Z) :
    option (outcome ParseError WampMessage) :=
  if code =? 16 then Some (
    request_id_raw ← json_get fields 1 "publish.request_id";
    options_raw ← json_get fields 2 "publish.options";
    topic_raw ← json_get fields 3 "publish.topic";
    payload ← json_payload raw_payload "publish.arguments" (field fields 4)
      "publish.argumentsKw" (field fields 5);
    request_id ← json_u64 request_id_raw "publish.request_id";
    options ← json_map options_raw "publish.options";
    topic ← json_string topic_raw "publish.topic";
    Ok (Publish request_id options topic payload))
  else if code =? 17 then Some (
    request_id_raw ← json_get fields 1 "published.request_id";
    publication_id_raw ← json_get fields 2 "published.publication_id";
    request_id ← json_u64 request_id_raw "published.request_id";
    publication_id ← json_u64 publication_id_raw "published.publication_id";
    Ok (Published request_id publication_id))
  else if code =? 32 then Some (
    request_id_raw ← json_get fields 1 "subscribe.request_id";
    options_raw ← json_get fields 2 "subscribe.options";
    topic_raw ← json_get fields 3 "subscribe.topic";
    request_id ← json_u64 request_id_raw "subscribe.request_id";
    options ← json_map options_raw "subscribe.options";
    topic ← json_string topic_raw "subscribe.topic";
    Ok (Subscribe request_id options topic))
  else if code =? 33 then Some (
    request_id_raw ← json_get fields 1 "subscribed.request_id";
    subscription_id_raw ← json_get fields 2 "subscribed.subscription_id";
    request_id ← json_u64 request_id_raw "subscribed.request_id";
    subscription_id ← json_u64 subscription_id_raw "subscribed.subscription_id";
    Ok (Subscribed request_id subscription_id))
  else if code =? 34 then Some (
    request_id_raw ← json_get fields 1 "unsubscribe.request_id";
    subscription_id_raw ← json_get fields 2 "unsubscribe.subscription_id";
    request_id ← json_u64 request_id_raw "unsubscribe.request_id";
    subscription_id ← json_u64 subscription_id_raw "unsubscribe.subscription_id";
    Ok (Unsubscribe request_id subscription_id))
  else if code =? 35 then Some (
    request_id_raw ← json_get fields 1 "unsubscribed.request_id";
    request_id ← json_u64 request_id_raw "unsubscribed.request_id";
    details ← json_optional_map (field fields 2) "unsubscribed.details";
    Ok (Unsubscribed request_id details))
  else if code =? 36 then Some (
    subscription_id_raw ← json_get fields 1 "event.subscription_id";
    publication_id_raw ← json_get fields 2 "event.publication_id";
    details_raw ← json_get fields 3 "event.details";
    payload ← json_payload raw_payload "event.arguments" (field fields 4)
      "event.argumentsKw" (field fields 5);
    subscription_id ← json_u64 subscription_id_raw "event.subscription_id";
    publication_id ← json_u64 publication_id_raw "event.publication_id";
    details ← json_map details_raw "event.details";
    Ok (Event subscription_id publication_id details payload))
  else None.

(** The arms for calls: codes 48 to 50. *)
Definition json_call_message (raw_payload : list Z) (fields : list RawValue) (code : Z) :
    option (outcome ParseError WampMessage) :=
  if code =? 48 then Some (
    request_id_raw ← json_get fields 1 "call.request_id";
    options_raw ← json_get fields 2 "call.options";
    procedure_raw ← json_get fields 3 "call.procedure";
    payload ← json_payload raw_payload "call.arguments" (field fields 4)
      "call.argumentsKw" (field fields 5);
    request_id ← json_u64 request_id_raw "call.request_id";
    options ← json_map options_raw "call.options";
    procedure ← json_string procedure_raw "call.procedure";
    Ok (Call request_id options procedure payload))
  else if code =? 49 then Some (
    request_id_raw ← json_get fields 1 "cancel.request_id";
    options_raw ← json_get fields 2 "cancel.options";
    request_id ← json_u64 request_id_raw "cancel.request_id";
    options ← json_map options_raw "cancel.options";
    Ok (Cancel request_id options))
  else if code =? 50 then Some (
    request_id_raw ← json_get fields 1 "result.request_id";
    details_raw ← json_get fields 2 "result.details";
    payload ← json_payload raw_payload "result.arguments" (field fields 3)
      "result.argumentsKw" (field fields 4);
    request_id ← json_u64 request_id_raw "result.request_id";
    details ← json_map details_raw "result.details";
    Ok (Result request_id details payload))
  else None.

(** The arms for registrations: codes 64 to 67. *)
Definition json_registration_message (raw_payload : list Z) (fields : list RawValue) (code : Z) :
    option (outcome ParseError WampMessage) :=
  if code =? 64 then Some (
    request_id_raw ← json_get fields 1 "register.request_id";
    options_raw ← json_get fields 2 "register.options";
    procedure_raw ← json_get fields 3 "register.procedure";
    request_id ← json_u64 request_id_raw "register.request_id";
    options ← json_map options_raw "register.options";
    procedure ← json_string procedure_raw "register.procedure";
    Ok (Register request_id options procedure))
  else if code =? 65 then Some (
    request_id_raw ← json_get fields 1 "registered.request_id";
    registration_id_raw ← json_get fields 2 "registered.registration_id";
    request_id ← json_u64 request_id_raw "registered.request_id";
    registration_id ← json_u64 registration_id_raw "registered.registration_id";
    Ok (Registered request_id registration_id))
  else if code =? 66 then Some (
    request_id_raw ← json_get fields 1 "unregister.request_id";
    registration_id_raw ← json_get fields 2 "unregister.registration_id";
    request_id ← json_u64 request_id_raw "unregister.request_id";
    registration_id ← json_u64 registration_id_raw "unregister.registration_id";
    Ok (Unregister request_id registration_id))
  else if code =? 67 then Some (
    request_id_raw ← json_get fields 1 "unregistered.request_id";
    request_id ← json_u64 request_id_raw "unregistered.request_id";
    details ← json_optional_map (field fields 2) "unregistered.details";
    Ok (Unregistered request_id details))
  else None.

(** The arms for invocations: codes 68 to 70. *)
Definition json_invocation_message (raw_payload : list Z) (fields : list RawValue) (code : Z) :
    option (outcome ParseError WampMessage) :=
  if code =? 68 then Some (
    request_id_raw ← json_get fields 1 "invocation.request_id";
    registration_id_raw ← json_get fields 2 "invocation.registration_id";
    details_raw ← json_get fields 3 "invocation.details";
    payload ← json_payload raw_payload "invocation.arguments" (field fields 4)
      "invocation.argumentsKw" (field fields 5);
    request_id ← json_u64 request_id_raw "invocation.request_id";
    registration_id ← json_u64 registration_id_raw "invocation.registration_id";
    details ← json_map details_raw "invocation.details";
    Ok (Invocation request_id registration_id details payload))
  else if code =? 69 then Some (
    request_id_raw ← json_get fields 1 "interrupt.request_id";
    options_raw ← json_get fields 2 "interrupt.options";
    request_id ← json_u64 request_id_raw "interrupt.request_id";
    options ← json_map options_raw "interrupt.options";
    Ok (Interrupt request_id options))
  else if code =? 70 then Some (
    request_id_raw ← json_get fields 1 "yield.request_id";
    options_raw ← json_get fields 2 "yield.options";
    payload ← json_payload raw_payload "yield.arguments" (field fields 3)
      "yield.argumentsKw" (field fields 4);
    request_id ← json_u64 request_id_raw "yield.request_id";
    options ← json_map options_raw "yield.options";
    Ok (Yield request_id options payload))
  else None.

(** The arm for codes without one of their own. *)
Definition json_unknown_message (fields : list RawValue) (code : Z) :
    outcome ParseError WampMessage :=
  extras ← traverse_list (λ raw, lift_de (json_value_de (rv_text raw))) (drop 1 fields);
  Ok (Unknown code extras).

(** [match code { ... }] *)
Definition json_message_of (raw_payload : list Z) (fields : list RawValue) (code : Z) :
    outcome ParseError WampMessage :=
  first_some
    [ json_session_message raw_payload fields code;
      json_pubsub_message raw_payload fields code;
      json_call_message raw_payload fields code;
      json_registration_message raw_payload fields code;
      json_invocation_message raw_payload fields code ]
    (json_unknown_message fields code).

Definition parse_json_message (raw_payload : RawFrame) : outcome ParseError ParsedMessage :=
  let raw_payload := into_bytes raw_payload in
  fields ← lift_de (json_fields raw_payload);
  _ ← lift_de (json_end raw_payload);
  match fields with
  | [] => Err (MissingElement "message code")
  | field0 :: _ =>
      code ← json_u64 field0 "message code";
      message ← json_message_of raw_payload fields code;
      Ok (mkParsedMessage message (Contiguous raw_payload) Json None)
  end.

End json.

(** ** What [serde_json] promises of borrowed elements

    A [RawValue] borrowed from the message is the text at its address. *)
Class JsonBorrow (SL : SerdeLib) : Prop := json_borrow :
  ∀ data fields, json_fields data = inr fields →
    Forall (λ r, range_in (zlen data) (rv_start r, rv_end r)
                 ∧ sub_bytes data (rv_start r) (rv_end r) = utf8_encode (rv_text r)) fields.

Section json_results.
Context `{SL : !SerdeLib}.

Definition json_arm_result (data : list Z) (fields : list RawValue) (code : Z)
      (o : outcome ParseError WampMessage) : Prop :=
    ∀ m, o = Ok m → message_code m = code ∧
    match cbor_payload_spec code with
    | Some spec => ∃ p, message_payload m = Some p ∧
        json_payload data (args_label spec) (field fields (args_index spec))
          (kwargs_label spec) (field fields (kwargs_index spec)) = Ok p
    | None => message_payload m = None
    end.

Local Ltac split_arms :=
    repeat match goal with
    | |- Some ?o = (if ?c =? ?k then _ else _) → _ =>
        destruct (Z.eqb_spec c k) as [->|]; [intros [= ->]|]
    end; [..|done]; intros m Hm; inv_ok; simpl; eauto.

Lemma json_message_of_result data fields code :
    json_arm_result data fields code (json_message_of data fields code).
  Proof.
    unfold json_message_of. apply first_some_cases.
    - intros o Ho. repeat (apply elem_of_cons in Ho as [Ho|Ho]); [..|by apply elem_of_nil in Ho];
        revert Ho.
      + unfold json_session_message. split_arms.
      + unfold json_pubsub_message. split_arms.
      + unfold json_call_message. split_arms.
      + unfold json_registration_message. split_arms.
      + unfold json_invocation_message. split_arms.
    - unfold json_session_message, json_pubsub_message, json_call_message,
        json_registration_message, json_invocation_message, json_unknown_message.
      intros H. repeat (apply Forall_cons in H as [? H]). intros m Hm. inv_ok.
      split; [done|]. clear H.
      repeat match goal with
      | H : (if ?b then Some _ else _) = None |- _ => destruct b eqn:?; [discriminate|]
      end.
      unfold cbor_payload_spec.
      by repeat match goal with H : (_ =? _) = false |- _ => rewrite H; clear H end.
  Qed.

  (** A payload part: absent, null, or the text of an element that opens with
      the required bracket. *)
Definition json_part (bracket : Z) (e : ParseError) (x : option RawValue) :
      outcome ParseError (option (list Z)) :=
    match x with
    | None => Ok None
    | Some r =>
        if is_json_null (rv_text r) then Ok None
        else if bool_decide (first_non_ws (rv_text r) = Some bracket)
        then Ok (Some (utf8_encode (rv_text r))) else Err e
    end.

Lemma slice_raw_borrowed data r :
    range_in (zlen data) (rv_start r, rv_end r) →
    sub_bytes data (rv_start r) (rv_end r) = utf8_encode (rv_text r) →
    slice_raw data r = Ok (utf8_encode (rv_text r)).
  Proof.
    intros (? & ? & ?) E. unfold slice_raw. cbn [fst snd] in *.
    change (rv_start r + str_len (rv_text r)) with (rv_end r).
    rewrite slice_bytes_in by done. by rewrite E.
  Qed.

Lemma json_payload_borrowed data fields la i lk j :
    Forall (λ r, range_in (zlen data) (rv_start r, rv_end r)
                 ∧ sub_bytes data (rv_start r) (rv_end r) = utf8_encode (rv_text r)) fields →
    json_payload data la (field fields i) lk (field fields j)
    = args ← json_part 0x5b (ExpectedList la) (fields !! i);
      kwargs ← json_part 0x7b (ExpectedMap lk) (fields !! j);
      Ok (mkPayload args kwargs None).
  Proof.
    intros Hb. unfold json_payload, json_part, field.
    destruct (fields !! i) as [r|] eqn:E1, (fields !! j) as [r'|] eqn:E2;
      try (destruct (Forall_lookup_1 _ _ _ _ Hb E1) as [??];
           rewrite (slice_raw_borrowed data r) by done);
      try (destruct (Forall_lookup_1 _ _ _ _ Hb E2) as [??];
           rewrite (slice_raw_borrowed data r') by done);
      repeat case_match; done.
  Qed.

Lemma returns_json_part b e x : returns (json_part b e x).
  Proof. unfold json_part. by repeat case_match. Qed.
Lemma returns_json_string r l : returns (json_string r l).
  Proof. unfold json_string. case_match; [done|auto with returns]. Qed.
Lemma returns_json_u64 r l : returns (json_u64 r l).
  Proof. apply returns_ok_or. Qed.
Lemma returns_json_optional_u64 r l : returns (json_optional_u64 r l).
  Proof.
    destruct r as [r|]; [|done]. simpl. case_match; [done|].
    pose proof (returns_json_u64 r l). by destruct (json_u64 r l).
  Qed.
Lemma returns_json_map r l : returns (json_map r l).
  Proof.
    unfold json_map. repeat (case_match; [done|]).
    apply returns_bind; [auto with returns|]. by intros [].
  Qed.
Lemma returns_json_optional_map r l : returns (json_optional_map r l).
  Proof. destruct r; [apply returns_json_map|done]. Qed.

Local Ltac total_arms :=
    repeat match goal with
    | |- _ = (if ?b then _ else _) → _ => destruct b; [intros [= ->]|]
    end; [..|done];
    repeat first
      [ exact I
      | apply returns_bind;
        [ first
          [ apply returns_ok_or | apply returns_json_string | apply returns_json_u64
          | apply returns_json_map | apply returns_json_optional_map
          | apply returns_json_optional_u64
          | rewrite json_payload_borrowed by done;
            repeat (apply returns_bind; [apply returns_json_part|intros]); exact I ]
        | intros ] ].

Lemma returns_json_message_of data fields code :
    Forall (λ r, range_in (zlen data) (rv_start r, rv_end r)
                 ∧ sub_bytes data (rv_start r) (rv_end r) = utf8_encode (rv_text r)) fields →
    returns (json_message_of data fields code).
  Proof.
    intros Hb. unfold json_message_of. apply first_some_cases.
    - intros o Ho. repeat (apply elem_of_cons in Ho as [Ho|Ho]); [..|by apply elem_of_nil in Ho];
        revert Ho.
      + unfold json_session_message. total_arms.
      + unfold json_pubsub_message. total_arms.
      + unfold json_call_message. total_arms.
      + unfold json_registration_message. total_arms.
      + unfold json_invocation_message. total_arms.
    - intros _. unfold json_unknown_message. apply returns_bind; [|done].
      apply returns_traverse_list, Forall_true. auto with returns.
  Qed.

Lemma returns_parse_json_message `{!JsonBorrow SL} f : returns (parse_json_message f).
  Proof.
    unfold parse_json_message. cbv zeta.
    apply returns_bind; [auto with returns|]. intros fields Hf%lift_de_Ok.
    apply json_borrow in Hf. apply returns_bind; [auto with returns|]. intros _ _.
    destruct fields as [|f0 fields]; [done|].
    apply returns_bind; [apply returns_json_u64|intros].
    by apply returns_bind; [apply returns_json_message_of|].
  Qed.
End json_results.

(** ** The demo decoder borrows *)
Definition ascii (c : Z) : Prop := 0 ≤ c < 0x80.

Lemma utf8_encode_ascii l : Forall ascii l → utf8_encode l = l.
Proof.
  induction 1 as [|c l Hc _ IH]; [done|].
  change (utf8_encode (c :: l)) with (utf8_char c ++ utf8_encode l).
  rewrite IH. unfold utf8_char, ascii in *. by rewrite (proj2 (Z.ltb_lt _ _)) by lia.
Qed.

Lemma demo_split_borrows data pre cur l :
  Forall ascii cur → Forall ascii l → data = pre ++ cur ++ l →
  Forall (λ r, range_in (zlen data) (rv_start r, rv_end r)
               ∧ sub_bytes data (rv_start r) (rv_end r) = utf8_encode (rv_text r))
    (demo_json_split l (zlen pre + zlen cur) (zlen pre) cur).
Proof.
  revert pre cur. induction l as [|c l IH]; intros pre cur Hcur Hl ->; simpl; [constructor|].
  apply Forall_cons in Hl as [Hc Hl].
  assert (range_in (zlen (pre ++ cur ++ c :: l))
            (rv_start (mkRawValue (zlen pre) cur), rv_end (mkRawValue (zlen pre) cur))
          ∧ sub_bytes (pre ++ cur ++ c :: l) (rv_start (mkRawValue (zlen pre) cur))
              (rv_end (mkRawValue (zlen pre) cur))
            = utf8_encode (rv_text (mkRawValue (zlen pre) cur))) as Hhere.
  { unfold range_in, rv_end, str_len. simpl. rewrite utf8_encode_ascii by done.
    split; [zlia|]. apply sub_bytes_app_mid. }
  destruct (c =? 0x2c).
  - constructor; [done|].
    specialize (IH (pre ++ cur ++ [c]) []).
    replace (zlen pre + zlen cur + 1) with (zlen (pre ++ cur ++ [c])) by zlia.
    replace (zlen (pre ++ cur ++ [c])) with (zlen (pre ++ cur ++ [c]) + zlen (@nil Z)) at 1
      by zlia.
    apply IH; [apply Forall_nil_2|done|]. by rewrite <-!(assoc_L (++)).
  - assert (Forall (λ r, range_in (zlen (pre ++ cur ++ c :: l)) (rv_start r, rv_end r)
      ∧ sub_bytes (pre ++ cur ++ c :: l) (rv_start r) (rv_end r) = utf8_encode (rv_text r))
      (demo_json_split l (zlen pre + zlen cur + 1) (zlen pre) (cur ++ [c]))) as Hrest.
    { specialize (IH pre (cur ++ [c])).
      replace (zlen pre + zlen cur + 1) with (zlen pre + zlen (cur ++ [c])) by zlia.
      apply IH; [apply Forall_app; split; [done|by repeat apply Forall_cons_2]|done|].
      by rewrite <-!(assoc_L (++)). }
    destruct (c =? 0x5d), l; simpl; try done. by constructor.
Qed.

#[global] Instance demo_borrow : JsonBorrow DemoSerde.
Proof.
  intros data fields H. simpl in H. unfold demo_json_fields in H.
  destruct data as [|b l]; [done|].
  destruct (decide (b = 0x5b)) as [->|Hb].
  - destruct (forallb _ l) eqn:Hl; [|done]. injection H as <-.
    apply (demo_split_borrows (0x5b :: l) [0x5b] [] l); [constructor| |done].
    apply Forall_forall. intros c Hc. rewrite forallb_forall in Hl.
    apply list_elem_of_In, Hl in Hc. unfold ascii. lia.
  - exfalso. by repeat case_match.
Qed.

(** ** Properties *)

(** a JSON message the parser accepts keeps its payload as the exact text
    of the array and object elements at the positions of its message kind (null
    and missing parts dropped): the address arithmetic never leaves the
    message.  The code is the decoded first element, and fragmentation does not
    matter. *)
Theorem parse_json_message_exact `{SL : !SerdeLib} `{!JsonBorrow SL} f r :
  parse_json_message f = Ok r →
  parse_json_message (Contiguous (into_bytes f)) = Ok r
  ∧ ∃ fields, json_fields (into_bytes f) = inr fields
    ∧ (∃ x, fields !! 0%nat = Some x
         ∧ json_u64_de (rv_text x) = Some (message_code (message r)))
    ∧ match cbor_payload_spec (message_code (message r)) with
      | Some spec => ∃ p, message_payload (message r) = Some p
          ∧ json_part 0x5b (ExpectedList (args_label spec)) (fields !! args_index spec)
            = Ok (args p)
          ∧ json_part 0x7b (ExpectedMap (kwargs_label spec)) (fields !! kwargs_index spec)
            = Ok (kwargs p)
          ∧ transparent p = None
      | None => message_payload (message r) = None
      end.
Proof.
  intros H. split; [exact H|]. unfold parse_json_message in H. cbv zeta in H. inv_ok.
  apply lift_de_Ok in Ha. pose proof (json_borrow _ _ Ha) as Hb.
  exists a. split; [done|]. destruct a as [|x fields]; [done|]. inv_ok. simpl.
  match goal with E : json_message_of _ _ _ = Ok _ |- _ =>
    destruct (json_message_of_result _ _ _ _ E) as [-> Hp] end.
  split; [exists x; split; [done|]; by apply (ok_or_Ok_inv (ExpectedIdentifier "message code"))|].
  destruct (cbor_payload_spec _) as [spec|]; [|done].
  destruct Hp as (p & ? & Hp). exists p. split; [done|].
  rewrite json_payload_borrowed in Hp by done. by inv_ok.
Qed.

(** [\[16,7,{},"a",\[1\]\]] in JSON. *)
Definition demo_json_publish : list Z := lit "[16,7,{},'a',[1]]".

Lemma parse_json_message_exact_witness :
  ∃ fields, json_fields (SerdeLib := DemoSerde) demo_json_publish = inr fields
    ∧ rv_text <$> fields !! 4%nat = Some (lit "[1]").
Proof.
  destruct (parse_json_message_exact (SL := DemoSerde)
    (from_segments [take 5 demo_json_publish; drop 5 demo_json_publish])
    (mkParsedMessage (Publish 7 [] [0x61] (mkPayload (Some (lit "[1]")) None None))
       (Contiguous demo_json_publish) Json None)) as (_ & fields & H & _).
  - vm_compute. reflexivity.
  - exists fields. split; [exact H|]. injection H as <-. vm_compute. reflexivity.
Defined.
