(* ===== verification/CborScanner.v ===== *)
(** * The CBOR scanner of FlatBuffers payloads

    [validate] of [ct_core/src/wamp/flatbuffers_cbor.rs] walks an encoded
    container without decoding it, under a budget of nesting and of items, and
    [validate_flatbuffers_payload] of [ct_core/src/wamp.rs] applies it to the
    arguments of a payload.  [cbor_item] is the CBOR grammar with those budgets;
    the scanner accepts exactly its sentences. *)
From stdpp Require Import gmap.
From S2P Require Import Prelude Bytes Text WampTypes Cbor.

(** ** The scanner's state *)
Record Scanner : Type := mkScanner {
  sc_bytes : list Z;
  cursor : Z;
  items : Z;
  metadata : bool;
}.

(** A method of [Scanner]: [&mut self], and an early return on [Err]. *)
Definition scan (A : Type) : Type := Scanner → outcome ParseError (A * Scanner).

#[global] Instance scan_ret : MRet scan := λ A a s, Ok (a, s).
#[global] Instance scan_bind : MBind scan := λ A B f m s,
  '(a, s) ← m s; f a s.

(** [invalid] of [flatbuffers_wire.rs], and a method that returns it. *)
Definition invalid (reason : string) : ParseError :=
  Deserialize ("Invalid FlatBuffers frame: " +:+ reason).
Definition scan_fail {A} (reason : string) : scan A := λ _, Err (invalid reason).

(** [unwrap], and a read of [self]. *)
Definition scan_unwrap {A} (o : option A) : scan A := λ s,
  match o with Some a => Ok (a, s) | None => Panic end.
Definition scan_gets {A} (f : Scanner → A) : scan A := λ s, Ok (f s, s).
Definition scan_no_fuel {A} : scan A := λ _, NoFuel.

Definition MAX_ITEMS : Z := 1000000.

Definition scanner_take (count : Z) : scan (list Z) := λ s,
  if 2 ^ 64 <=? cursor s + count then Err (invalid "CBOR length")
  else
    let stop := cursor s + count in
    if zlen (sc_bytes s) <? stop then Err (invalid "CBOR truncation")
    else Ok (sub_bytes (sc_bytes s) (cursor s) stop,
             mkScanner (sc_bytes s) stop (items s) (metadata s)).

Definition scanner_byte : scan Z :=
  taken ← scanner_take 1;
  scan_unwrap (byte_at taken 0).

Definition scanner_length (info : Z) : scan Z :=
  if info <? 24 then mret info
  else
    let accumulate size :=
      taken ← scanner_take size;
      mret (foldl (λ value byte, Z.lor (Z.shiftl value 8 mod 2 ^ 64) byte) 0 taken) in
    if info =? 24 then accumulate 1
    else if info =? 25 then accumulate 2
    else if info =? 26 then accumulate 4
    else if info =? 27 then accumulate 8
    else scan_fail "CBOR additional info".

(** [usize::try_from] of a [u64]: total on a 64-bit target. *)
Definition scanner_count (info : Z) : scan Z :=
  length ← scanner_length info;
  if length <? 2 ^ 64 then mret length else scan_fail "CBOR length".

Definition scanner_charge : scan unit := λ s,
  let s := mkScanner (sc_bytes s) (cursor s) (items s + 1) (metadata s) in
  if MAX_ITEMS <? items s then Err (invalid "CBOR item budget") else Ok (tt, s).

Definition scanner_end : scan bool := λ s,
  if bool_decide (byte_at (sc_bytes s) (cursor s) = Some 255)
  then Ok (true, mkScanner (sc_bytes s) (cursor s + 1) (items s) (metadata s))
  else Ok (false, s).

(** The text of a chunk of [count] bytes, appended to what is collected. *)
Definition scanner_chunk (major count : Z) (text : option str) : scan (option str) :=
  taken ← scanner_take count;
  if major =? 3 then
    match utf8_decode taken with
    | None => scan_fail "CBOR UTF-8"
    | Some chunk => mret ((λ t, t ++ chunk) <$> text)
    end
  else mret text.

(** The chunks of a string of indefinite length. *)
Fixpoint scanner_chunks (fuel : nat) (major : Z) (text : option str) : scan (option str) :=
  match fuel with
  | O => scan_no_fuel
  | S fuel =>
      stop ← scanner_end;
      if (stop : bool) then mret text
      else
        _ ← scanner_charge;
        header ← scanner_byte;
        if negb (Z.shiftr header 5 =? major) || (Z.land header 31 =? 31)
        then scan_fail "CBOR string chunk"
        else
          length ← scanner_count (Z.land header 31);
          text ← scanner_chunk major length text;
          scanner_chunks fuel major text
  end.

(** Enough for the chunks of a string: each takes a byte. *)
Definition chunk_fuel (s : Scanner) : nat := S (length (sc_bytes s)).

Definition scanner_string (major info : Z) (collect : bool) : scan (option str) :=
  let text := if (major =? 3) && collect then Some [] else None in
  if negb (info =? 31) then
    length ← scanner_count info;
    scanner_chunk major length text
  else
    fuel ← scan_gets chunk_fuel;
    scanner_chunks fuel major text.

(** A key of a dictionary: a text string that [HashSet::insert] finds new. *)
Definition scanner_key (keys : gset str) : scan (gset str) :=
  _ ← scanner_charge;
  header ← scanner_byte;
  if negb (Z.shiftr header 5 =? 3) then scan_fail "CBOR dictionary key"
  else
    key ← scanner_string 3 (Z.land header 31) true;
    key ← scan_unwrap key;
    if bool_decide (key ∈ keys) then scan_fail "CBOR duplicate key"
    else mret ({[ key ]} ∪ keys).

(** [scanner_entries] is the [while] loop over the elements of a container. *)
Fixpoint scanner_value (fuel : nat) (depth : Z) : scan unit :=
  match fuel with
  | O => scan_no_fuel
  | S fuel =>
      _ ← scanner_charge;
      header ← scanner_byte;
      let major := Z.shiftr header 5 in
      let info := Z.land header 31 in
      if (major =? 0) || (major =? 1) then
        _ ← scanner_length info; mret tt
      else if (major =? 2) || (major =? 3) then
        _ ← scanner_string major info false; mret tt
      else if (major =? 4) || (major =? 5) then
        if 64 <=? depth then scan_fail "CBOR depth"
        else
          count ← (if info =? 31 then mret None
                   else count ← scanner_count info; mret (Some count));
          metadata ← scan_gets metadata;
          let dictionary := (major =? 5) && (metadata || (depth =? 0)) in
          scanner_entries fuel depth major dictionary count ∅ 0
      else if major =? 6 then
        if 64 <=? depth then scan_fail "CBOR depth"
        else
          _ ← scanner_length info;
          scanner_value fuel (depth + 1)
      else if major =? 7 then
        if info <=? 23 then mret tt
        else if info =? 24 then
          byte ← scanner_byte;
          if byte <? 32 then scan_fail "CBOR simple value" else mret tt
        else if info <=? 27 then
          _ ← scanner_take (Z.shiftl 1 (info - 24)); mret tt
        else scan_fail "CBOR break or reserved info"
      else scan_unwrap None
  end
with scanner_entries (fuel : nat) (depth major : Z) (dictionary : bool)
    (count : option Z) (keys : gset str) (index : Z) : scan unit :=
  match fuel with
  | O => scan_no_fuel
  | S fuel =>
      go_on ← (match count with
               | Some count => mret (index <? count)
               | None => stop ← scanner_end; mret (negb stop)
               end);
      if (go_on : bool) then
        keys ← (if dictionary then scanner_key keys
                else _ ← scanner_value fuel (depth + 1); mret keys);
        _ ← (if major =? 5 then scanner_value fuel (depth + 1) else mret tt);
        scanner_entries fuel depth major dictionary count keys (index + 1)
      else mret tt
  end.

(** Two calls per byte of input at most. *)
Definition scan_fuel (bytes : list Z) : nat := S (2 * length bytes).

Definition maximum_container (metadata : bool) : Z :=
  if metadata then 1024 * 1024 else 64 * 1024 * 1024.

Definition validate (bytes : list Z) (root : Z) (metadata : bool) : outcome ParseError unit :=
  if (zlen bytes =? 0) || (maximum_container metadata <? zlen bytes)
     || negb (bool_decide ((λ b, Z.shiftr b 5) <$> byte_at bytes 0 = Some root))
  then Err (invalid "CBOR container or size")
  else
    '(_, scanner) ← scanner_value (scan_fuel bytes) 0 (mkScanner bytes 0 0 metadata);
    if negb (cursor scanner =? zlen bytes) then Err (invalid "CBOR trailing bytes")
    else Ok tt.

(** [validate_flatbuffers_payload] of [wamp.rs] *)
Definition validate_flatbuffers_payload (payload : Payload) : outcome ParseError unit :=
  if bool_decide (is_Some (transparent payload))
     && (bool_decide (is_Some (args payload)) || bool_decide (is_Some (kwargs payload)))
  then Err (invalid "mixed transparent and ordinary payload")
  else
    _ ← traverse_list (λ '(bytes, major),
          match bytes with
          | Some bytes => validate bytes major false
          | None => Ok tt
          end) [(args payload, 4); (kwargs payload, 5)];
    Ok tt.

(** ** The grammar

    [head_arg info ext n]: the additional information [info] of a header and
    the bytes [ext] after it denote the argument [n]. *)
Definition head_arg (info : Z) (ext : list Z) (n : Z) : Prop :=
  bytes_ok ext ∧
  (0 ≤ info < 24 ∧ ext = [] ∧ n = info ∨
   24 ≤ info ≤ 27 ∧ zlen ext = 2 ^ (info - 24) ∧ n = be_value ext).

Definition cbor_head (major n : Z) (x : list Z) : Prop :=
  ∃ info ext, head_arg info ext n ∧ x = (32 * major + info) :: ext.

(** A string's bytes, or a chunk of them; text must be UTF-8. *)
Definition cbor_body (major n : Z) (x : list Z) (text : str) : Prop :=
  bytes_ok x ∧ zlen x = n ∧
  if decide (major = 3) then utf8_decode x = Some text else text = [].

(** Chunks of a string of indefinite length, up to the break. *)
Inductive cbor_chunks (major : Z) : list Z → str → Z → Prop :=
  | chunks_end : cbor_chunks major [255] [] 0
  | chunk_cons n h b s x t cost :
      cbor_head major n h → cbor_body major n b s → cbor_chunks major x t cost →
      cbor_chunks major (h ++ b ++ x) (s ++ t) (1 + cost).

Inductive cbor_string (major : Z) : list Z → str → Z → Prop :=
  | string_definite n h b s :
      cbor_head major n h → cbor_body major n b s → cbor_string major (h ++ b) s 0
  | string_indefinite x s cost :
      cbor_chunks major x s cost → cbor_string major ((32 * major + 31) :: x) s cost.

(** The maps whose keys must be distinct texts. *)
Definition text_keys (md : bool) (depth major : Z) : Prop :=
  major = 5 ∧ (md = true ∨ depth = 0).

(** [cbor_item md depth x cost]: [x] is one item at nesting [depth], of [cost]
    items and chunks in all; [cbor_entries md depth major keys n x cost]: the
    [n] elements of an array or map, whose text keys are [keys]. *)
Inductive cbor_item (md : bool) : Z → list Z → Z → Prop :=
  | item_int depth major n x :
      major = 0 ∨ major = 1 → cbor_head major n x → cbor_item md depth x 1
  | item_string depth major x s cost :
      major = 2 ∨ major = 3 → cbor_string major x s cost → cbor_item md depth x (1 + cost)
  | item_definite depth major n h keys x cost :
      major = 4 ∨ major = 5 → depth < 64 → cbor_head major n h →
      cbor_entries md depth major keys n x cost → NoDup keys →
      cbor_item md depth (h ++ x) (1 + cost)
  | item_indefinite depth major n keys x cost :
      major = 4 ∨ major = 5 → depth < 64 →
      cbor_entries md depth major keys n x cost → NoDup keys →
      cbor_item md depth ((32 * major + 31) :: x ++ [255]) (1 + cost)
  | item_tag depth n h x cost :
      depth < 64 → cbor_head 6 n h → cbor_item md (depth + 1) x cost →
      cbor_item md depth (h ++ x) (1 + cost)
  | item_simple depth info : 0 ≤ info ≤ 23 → cbor_item md depth [224 + info] 1
  | item_simple_byte depth v : 32 ≤ v < 256 → cbor_item md depth [248; v] 1
  | item_float depth info ext :
      25 ≤ info ≤ 27 → bytes_ok ext → zlen ext = 2 ^ (info - 24) →
      cbor_item md depth ((224 + info) :: ext) 1
with cbor_entries (md : bool) : Z → Z → list str → Z → list Z → Z → Prop :=
  | entries_nil depth major : cbor_entries md depth major [] 0 [] 0
  | entries_text_key depth keys n k key kcost x xcost y ycost :
      text_keys md depth 5 → cbor_string 3 k key kcost →
      cbor_item md (depth + 1) x xcost → cbor_entries md depth 5 keys n y ycost →
      cbor_entries md depth 5 (key :: keys) (1 + n) (k ++ x ++ y) (1 + kcost + xcost + ycost)
  | entries_map depth keys n k kcost x xcost y ycost :
      ¬ text_keys md depth 5 → cbor_item md (depth + 1) k kcost →
      cbor_item md (depth + 1) x xcost → cbor_entries md depth 5 keys n y ycost →
      cbor_entries md depth 5 keys (1 + n) (k ++ x ++ y) (kcost + xcost + ycost)
  | entries_array depth keys n x xcost y ycost :
      cbor_item md (depth + 1) x xcost → cbor_entries md depth 4 keys n y ycost →
      cbor_entries md depth 4 keys (1 + n) (x ++ y) (xcost + ycost).

Scheme cbor_item_mut := Minimality for cbor_item Sort Prop
with cbor_entries_mut := Minimality for cbor_entries Sort Prop.
Combined Scheme cbor_grammar_ind from cbor_item_mut, cbor_entries_mut.

(** ** A specification of scanner methods

    [P a x c]: the method returns [a] after reading [x] and charging [c]. *)
Definition rest (s : Scanner) : list Z := drop (Z.to_nat (cursor s)) (sc_bytes s).
Definition advance (s : Scanner) (x : list Z) (c : Z) : Scanner :=
  mkScanner (sc_bytes s) (cursor s + zlen x) (items s + c) (metadata s).

Definition ready (md : bool) (s : Scanner) : Prop :=
  bytes_ok (sc_bytes s) ∧ zlen (sc_bytes s) < 2 ^ 63 ∧
  0 ≤ cursor s ≤ zlen (sc_bytes s) ∧ 0 ≤ items s ≤ MAX_ITEMS ∧ metadata s = md.

(** On every state with at most [n] bytes left, [m] returns, and it succeeds
    exactly on the sentences of [P] within the budget. *)
Definition scan_spec (md : bool) {A} (n : Z) (m : scan A) (P : A → list Z → Z → Prop) : Prop :=
  (∀ a x c, P a x c → 0 ≤ c) ∧
  ∀ s, ready md s → zlen (rest s) ≤ n →
    returns (m s) ∧
    ∀ a s', m s = Ok (a, s') ↔
      ∃ x c r, P a x c ∧ rest s = x ++ r ∧ items s + c ≤ MAX_ITEMS ∧ s' = advance s x c.

Section spec.
Context (md : bool).

Lemma rest_len s : ready md s → zlen (rest s) = zlen (sc_bytes s) - cursor s.
Proof. intros (?&?&?&?&?). unfold rest. zlia. Qed.

Lemma rest_advance s x c r : ready md s → rest s = x ++ r → rest (advance s x c) = r.
Proof.
  intros (?&?&?&?&?) Hr. unfold rest, advance in *. simpl.
  rewrite Z2Nat.inj_add by (zlen_facts; lia). rewrite <-drop_drop, Hr.
  replace (Z.to_nat (zlen x)) with (length x) by (unfold zlen; lia).
  apply drop_app_length.
Qed.

Lemma ready_advance s x c r : ready md s → rest s = x ++ r → 0 ≤ c →
  items s + c ≤ MAX_ITEMS → ready md (advance s x c).
Proof.
  intros Hs Hr ??. pose proof (rest_len s Hs) as Hl. rewrite Hr in Hl.
  destruct Hs as (?&?&?&?&?). unfold ready, advance. simpl. split_and!; [done|done|zlia|zlia|lia|lia|done].
Qed.

Lemma advance_nil s : advance s [] 0 = s.
Proof. destruct s. unfold advance. simpl. f_equal; [zlia|lia]. Qed.

Lemma advance_advance s x c y d : advance (advance s x c) y d = advance s (x ++ y) (c + d).
Proof. unfold advance. simpl. f_equal; [zlia|lia]. Qed.

Lemma spec_conseq {A} n (m : scan A) P Q : scan_spec md n m P →
  (∀ a x c, P a x c ↔ Q a x c) → scan_spec md n m Q.
Proof.
  intros [Hc H] HPQ. split; [intros ??? ?%HPQ; eauto|]. intros s Hs Hn.
  destruct (H s Hs Hn) as [? Hm]. split; [done|]. intros a s'. rewrite Hm.
  by setoid_rewrite HPQ.
Qed.

Lemma spec_ext {A} n (m m' : scan A) P : (∀ s, m s = m' s) →
  scan_spec md n m' P → scan_spec md n m P.
Proof. intros Hm [? H]. split; [done|]. intros s. rewrite Hm. apply H. Qed.

Lemma spec_le {A} n n' (m : scan A) P : scan_spec md n m P → n' ≤ n → scan_spec md n' m P.
Proof. intros [? H] ?. split; [done|]. intros s ??. apply H; [done|lia]. Qed.

Lemma spec_ret {A} n (a : A) : scan_spec md n (mret a) (λ b x c, b = a ∧ x = [] ∧ c = 0).
Proof.
  split; [naive_solver lia|]. intros s Hs Hn. split; [done|]. intros b s'. split.
  - intros [= -> ->]. exists [], 0, (rest s'). rewrite advance_nil.
    destruct Hs as (?&?&?&?&?). split_and!; [done..|lia|done].
  - intros (x&c&r&(->&->&->)&_&_&->). by rewrite advance_nil.
Qed.

Lemma spec_fail {A} n reason (P : A → list Z → Z → Prop) : (∀ a x c, ¬ P a x c) →
  scan_spec md n (scan_fail reason) P.
Proof.
  intros HP. split; [intros ??? []%HP|]. intros s Hs Hn. split; [done|].
  intros a s'. split; [done|]. intros (x&c&r&[]%HP&_).
Qed.

Lemma spec_bind {A B} n k (m : scan A) (f : A → scan B) P Q R :
  scan_spec md n m P → (∀ a x c, P a x c → k ≤ zlen x) →
  (∀ a x c, P a x c → scan_spec md (n - k) (f a) (Q a)) →
  (∀ b z c, R b z c ↔ ∃ a x y cx cy, P a x cx ∧ Q a b y cy ∧ z = x ++ y ∧ c = cx + cy) →
  scan_spec md n (m ≫= f) R.
Proof.
  intros [HP Hm] Hk Hf HR. split.
  { intros b z c (a&x&y&cx&cy&Hx&Hy&->&->)%HR.
    pose proof (HP _ _ _ Hx). pose proof (proj1 (Hf _ _ _ Hx) _ _ _ Hy). lia. }
  intros s Hs Hn. destruct (Hm s Hs Hn) as [Hret Hiff].
  assert (∀ a x c r, P a x c → rest s = x ++ r → items s + c ≤ MAX_ITEMS →
    returns (f a (advance s x c)) ∧ ∀ b s', f a (advance s x c) = Ok (b, s') ↔
      ∃ y d t, Q a b y d ∧ r = y ++ t ∧ items s + c + d ≤ MAX_ITEMS
        ∧ s' = advance s (x ++ y) (c + d)) as Hnext.
  { intros a x c r Hx Hr Hi. pose proof (HP _ _ _ Hx).
    destruct (proj2 (Hf _ _ _ Hx) (advance s x c)) as [? Hb].
    - by eapply ready_advance.
    - rewrite (rest_advance s x c r Hs Hr). rewrite Hr in Hn. specialize (Hk _ _ _ Hx). zlia.
    - split; [done|]. intros b s'. rewrite Hb, (rest_advance s x c r Hs Hr).
      setoid_rewrite advance_advance. done. }
  unfold mbind, scan_bind. destruct (m s) as [[a s1]|e| |] eqn:E; simpl; try done.
  - destruct (proj1 (Hiff a s1) eq_refl) as (x&c&r&Hx&Hr&Hi&->).
    destruct (Hnext a x c r Hx Hr Hi) as [? Hb]. split; [done|]. intros b s'. rewrite Hb. split.
    + intros (y&d&t&Hy&->&?&->). exists (x ++ y), (c + d), t.
      split_and!; [apply HR; eauto 10|by rewrite <-app_assoc|lia|done].
    + intros (z&c'&t&(a'&x'&y&cx&cy&Hx'&Hy&->&->)%HR&Hr'&Hi'&->).
      pose proof (proj1 (Hf _ _ _ Hx') _ _ _ Hy). rewrite <-app_assoc in Hr'.
      assert (Ok (a', advance s x' cx) = Ok (E:=ParseError) (a, advance s x c)) as [= -> Hz Hcx].
      { symmetry. apply Hiff. exists x', cx, (y ++ t). split_and!; [done..|lia|done]. }
      assert (x' = x) as ->.
      { rewrite Hr in Hr'. apply app_inj_1 in Hr' as [??]; [done|].
        unfold zlen in Hz. lia. }
      rewrite Hr in Hr'. apply app_inv_head in Hr' as ->.
      exists y, cy, t. replace cx with c in * by lia. split_and!; [done..|lia|done].
  - split; [done|]. intros b s'. split; [done|].
    intros (z&c'&t&(a'&x'&y&cx&cy&Hx'&Hy&->&->)%HR&Hr'&Hi'&->).
    pose proof (proj1 (Hf _ _ _ Hx') _ _ _ Hy). rewrite <-app_assoc in Hr'.
    enough (Err e = Ok (E:=ParseError) (a', advance s x' cx)) by done.
    apply Hiff. exists x', cx, (y ++ t). split_and!; [done..|lia|done].
Qed.

(** *** The methods *)
Lemma spec_gets {A B} n (g : Scanner → A) (f : A → scan B) P :
  (∀ b x c, P b x c → 0 ≤ c) →
  (∀ s, ready md s → zlen (rest s) ≤ n → scan_spec md (zlen (rest s)) (f (g s)) P) →
  scan_spec md n (scan_gets g ≫= f) P.
Proof.
  intros HP H. split; [done|]. intros s Hs Hn.
  change ((scan_gets g ≫= f) s) with (f (g s) s). by apply (H s Hs Hn).
Qed.

Lemma spec_unwrap {A} n (a : A) :
  scan_spec md n (scan_unwrap (Some a)) (λ b x c, b = a ∧ x = [] ∧ c = 0).
Proof. apply (spec_ret n a). Qed.

Lemma spec_take n k : 0 ≤ k →
  scan_spec md n (scanner_take k) (λ r x c, r = x ∧ bytes_ok x ∧ zlen x = k ∧ c = 0).
Proof.
  intros Hk. split; [naive_solver lia|]. intros s Hs Hn. pose proof (rest_len s Hs) as Hl.
  destruct Hs as (Hb&Hz&Hc&Hi&_). unfold scanner_take.
  assert (∀ x r, rest s = x ++ r → zlen x = k → x = sub_bytes (sc_bytes s) (cursor s) (cursor s + k))
    as Hsub.
  { intros x r Hr Hx. unfold sub_bytes. fold (rest s). rewrite Hr.
    replace (Z.to_nat (cursor s + k - cursor s)) with (length x) by (unfold zlen in Hx; lia).
    by rewrite take_app_length. }
  destruct (Z.leb_spec (2 ^ 64) (cursor s + k));
    [|destruct (Z.ltb_spec (zlen (sc_bytes s)) (cursor s + k))]; (split; [done|]); intros a s'.
  1,2: split; [done|]; intros (x&c&r&(_&_&Hx&_)&Hr&_); rewrite Hr in Hl; zlia.
  split.
  - intros [= <- <-]. eexists _, 0, (drop (Z.to_nat k) (rest s)). split_and!; [done| | |done| | |].
    + by apply sub_bytes_ok.
    + rewrite zlen_sub_bytes; lia.
    + unfold sub_bytes. fold (rest s).
      replace (cursor s + k - cursor s) with k by lia. by rewrite take_drop.
    + lia.
    + unfold advance. f_equal; [rewrite zlen_sub_bytes; lia|lia].
  - intros (x&c&r&(->&_&Hx&->)&Hr&_&->). rewrite <-(Hsub x r Hr Hx).
    unfold advance. by rewrite Hx, Z.add_0_r.
Qed.

Lemma spec_byte n : scan_spec md n scanner_byte (λ b x c, x = [b] ∧ u8_ok b ∧ c = 0).
Proof.
  eapply (spec_bind n 0) with (Q := λ r b y c, ∃ b', r = [b'] ∧ b = b' ∧ y = [] ∧ c = 0).
  - by apply spec_take.
  - intros. apply zlen_nonneg.
  - intros r x c (->&Hx&Hz&->). destruct x as [|b [|b' x]]; [zlia| |zlia].
    apply (spec_conseq _ _ _ _ (spec_unwrap _ b)). naive_solver.
  - intros b z c. split.
    + intros (->&Hb&->). exists [b], [b], [], 0, 0. split_and!; try done; [by constructor|eauto].
    + intros (a&x&y&cx&cy&(->&Hx&Hz&->)&(b'&->&->&->&->)&->&->).
      split_and!; [done|by apply Forall_inv in Hx|done].
Qed.

Lemma spec_charge n : scan_spec md n scanner_charge (λ _ x c, x = [] ∧ c = 1).
Proof.
  split; [naive_solver lia|]. intros s Hs Hn. unfold scanner_charge. simpl.
  destruct (Z.ltb_spec MAX_ITEMS (items s + 1)); (split; [done|]); intros [] s'.
  - split; [done|]. intros (x&c&r&(->&->)&_&?&_). lia.
  - split.
    + intros [= <-]. exists [], 1, (rest s). split_and!; try done. unfold advance.
      by rewrite zlen_nil, Z.add_0_r.
    + intros (x&c&r&(->&->)&_&_&->). unfold advance. by rewrite zlen_nil, Z.add_0_r.
Qed.

(** A header that is charged for. *)
Lemma spec_header {A} n (f : Z → scan A) R :
  (∀ h, u8_ok h → scan_spec md (n - 1) (f h) (λ a y c, R a (h :: y) (1 + c))) →
  (∀ a x c, R a x c → ∃ h y, x = h :: y ∧ u8_ok h) →
  scan_spec md n (_ ← scanner_charge; header ← scanner_byte; f header) R.
Proof.
  intros Hf HR.
  eapply (spec_bind n 0) with (Q := λ _ a x c, R a x (1 + c)).
  - apply spec_charge.
  - intros. apply zlen_nonneg.
  - intros [] x c _. rewrite Z.sub_0_r.
    eapply (spec_bind n 1) with (Q := λ h a y c, R a (h :: y) (1 + c)).
    + apply spec_byte.
    + intros ??? (->&_). done.
    + intros h x' c' (_&Hh&_). by apply Hf.
    + intros a z c'. split.
      * intros Ha. destruct (HR _ _ _ Ha) as (h&y&->&Hh). exists h, [h], y, 0, c'. done.
      * intros (h&x'&y&cx&cy&(->&_&->)&?&->&->). done.
  - intros a z c. split.
    + intros Ha. exists tt, [], z, 1, (c - 1).
      replace (1 + (c - 1)) with c by lia. by split_and!.
    + intros ([]&x&y&cx&cy&(->&->)&?&->&->). done.
Qed.

(** A break, or what a first byte other than a break starts. *)
Lemma spec_end {A} n (v : A) (m : scan A) P : scan_spec md n m P →
  (∀ a x c, P a x c → ∃ h y, x = h :: y ∧ h ≠ 255) →
  scan_spec md n (stop ← scanner_end; if (stop : bool) then mret v else m)
    (λ a x c, (a = v ∧ x = [255] ∧ c = 0) ∨ P a x c).
Proof.
  intros [HP Hm] Hhd. split; [naive_solver lia|]. intros s Hs Hn.
  assert (byte_at (sc_bytes s) (cursor s) = head (rest s)) as Hh.
  { destruct Hs as (?&?&?&?&?). unfold rest. apply option_eq. intros x.
    rewrite byte_at_Some, head_lookup, lookup_drop, Nat.add_0_r. naive_solver lia. }
  unfold mbind, scan_bind, scanner_end. rewrite Hh.
  case_bool_decide as Hb; simpl.
  - split; [done|]. destruct (rest s) as [|h r] eqn:Hr; [done|]. injection Hb as ->. intros a s'. split.
    + intros [= <- <-]. exists [255], 0, r. destruct Hs as (?&?&?&?&?).
      split_and!; [by left|done|lia|]. unfold advance. by rewrite Z.add_0_r.
    + intros (x&c&r'&[(->&->&->)|Hx]&Hr'&_&->).
      * unfold advance. by rewrite Z.add_0_r.
      * apply Hhd in Hx as (h&y&->&?). by injection Hr' as ? _.
  - destruct (Hm s Hs Hn) as [? Hiff]. split; [done|]. intros a s'. rewrite Hiff. split.
    + intros (x&c&r&?&?&?&->). exists x, c, r. naive_solver.
    + intros (x&c&r&[(->&->&->)|?]&Hr&?&->); [|by exists x, c, r].
      rewrite Hr in Hb. done.
Qed.

(** A last step that only computes: [f] of what was read. *)
Lemma spec_map {A B} n (m : scan A) (f : A → B) P Q : scan_spec md n m P →
  (∀ b x c, Q b x c ↔ ∃ a, P a x c ∧ b = f a) →
  scan_spec md n (a ← m; mret (f a)) Q.
Proof.
  intros Hm HQ. eapply (spec_bind n 0) with (Q := λ a b y c, b = f a ∧ y = [] ∧ c = 0).
  - done.
  - intros. apply zlen_nonneg.
  - intros. apply spec_ret.
  - intros b z c. rewrite HQ. split.
    + intros (a&?&->). exists a, z, [], c, 0. rewrite app_nil_r. split_and!; [done..|lia].
    + intros (a&x&y&cx&cy&?&(->&->&->)&->&->). rewrite app_nil_r, Z.add_0_r. eauto.
Qed.

Lemma spec_accumulate n k : 0 ≤ k ≤ 3 →
  scan_spec md n
    (taken ← scanner_take (2 ^ k);
     mret (foldl (λ value byte, Z.lor (Z.shiftl value 8 mod 2 ^ 64) byte) 0 taken))
    (λ a x c, bytes_ok x ∧ zlen x = 2 ^ k ∧ a = be_value x ∧ c = 0).
Proof.
  intros Hk. assert (2 ^ k = 1 ∨ 2 ^ k = 2 ∨ 2 ^ k = 4 ∨ 2 ^ k = 8) as Hp.
  { assert (k = 0 ∨ k = 1 ∨ k = 2 ∨ k = 3) as [-> | [-> | [-> | ->]]] by lia; auto. }
  eapply spec_map; [apply spec_take; lia|]. intros a x c.
  assert (∀ r, bytes_ok r → zlen r = 2 ^ k →
    foldl (λ value byte, Z.lor (Z.shiftl value 8 mod 2 ^ 64) byte) 0 r = be_value r) as Hfold.
  { intros r Hr Hz. pose proof (be_value_bound r Hr) as Hb. rewrite Hz in Hb.
    assert (be_value r < 2 ^ 64).
    { destruct Hp as [Hp | [Hp | [Hp | Hp]]]; rewrite Hp in Hb; simpl in Hb; lia. }
    rewrite (shift_fold 0 r) by (done || lia). lia. }
  split.
  - intros (?&?&->&->). exists x. by rewrite Hfold.
  - intros (?&(->&?&?&->)&->). by rewrite Hfold.
Qed.

Lemma spec_length n info : 0 ≤ info < 32 →
  scan_spec md n (scanner_length info) (λ a x c, head_arg info x a ∧ c = 0).
Proof.
  intros Hinfo. unfold scanner_length.
  destruct (Z.ltb_spec info 24).
  { eapply spec_conseq; [apply spec_ret|]. intros a x c. unfold head_arg. split.
    - intros (->&->&->). split; [split; [by apply Forall_nil_2|left; split_and!; [lia..|done|done]]|done].
    - intros ((_&[(_&->&->)|[? _]])&->); [done|lia]. }
  cbv zeta.
  assert (∀ k, 0 ≤ k ≤ 3 → info = 24 + k →
    scan_spec md n (taken ← scanner_take (2 ^ k);
      mret (foldl (λ value byte, Z.lor (Z.shiftl value 8 mod 2 ^ 64) byte) 0 taken))
      (λ a x c, head_arg info x a ∧ c = 0)) as Hacc.
  { intros k Hk ->. eapply spec_conseq; [by apply spec_accumulate|]. intros a x c.
    unfold head_arg. replace (24 + k - 24) with k by lia. split.
    - intros (?&?&->&->). split; [split; [done|right; split_and!; [lia..|done|done]]|done].
    - intros ((?&[[? _]|(_&?&->)])&->); [lia|done]. }
  destruct (Z.eqb_spec info 24); [by apply (Hacc 0)|].
  destruct (Z.eqb_spec info 25); [by apply (Hacc 1)|].
  destruct (Z.eqb_spec info 26); [by apply (Hacc 2)|].
  destruct (Z.eqb_spec info 27); [by apply (Hacc 3)|].
  apply spec_fail. intros a x c ((_&[[? _]|[? _]])&_); lia.
Qed.

Lemma head_arg_bound info x a : head_arg info x a → 0 ≤ a < 2 ^ 64.
Proof.
  intros (Hx&[(?&_&->)|(?&Hz&->)]); [lia|]. pose proof (be_value_bound x Hx) as Hb.
  rewrite Hz in Hb.
  assert (info - 24 = 0 ∨ info - 24 = 1 ∨ info - 24 = 2 ∨ info - 24 = 3) as Hi by lia.
  destruct Hi as [Hi | [Hi | [Hi | Hi]]]; rewrite Hi in Hb; simpl in Hb; lia.
Qed.

Lemma spec_count n info : 0 ≤ info < 32 →
  scan_spec md n (scanner_count info) (λ a x c, head_arg info x a ∧ c = 0).
Proof.
  intros Hinfo. eapply (spec_bind n 0) with (Q := λ a b y c, b = a ∧ y = [] ∧ c = 0).
  - by apply spec_length.
  - intros. apply zlen_nonneg.
  - intros a x c [?%head_arg_bound _]. rewrite (proj2 (Z.ltb_lt _ _)) by lia. apply spec_ret.
  - intros b z c. split.
    + intros [? ->]. exists b, z, [], 0, 0. by rewrite app_nil_r.
    + intros (a&x&y&cx&cy&(?&->)&(->&->&->)&->&->). by rewrite app_nil_r.
Qed.

Lemma cbor_body_other major n x s : major ≠ 3 →
  cbor_body major n x s ↔ bytes_ok x ∧ zlen x = n ∧ s = [].
Proof. intros. unfold cbor_body. by rewrite decide_False. Qed.

Lemma spec_chunk n major k text : 0 ≤ k →
  scan_spec md n (scanner_chunk major k text)
    (λ t x c, ∃ s, cbor_body major k x s ∧ t = (λ t, t ++ s) <$> text ∧ c = 0).
Proof.
  intros Hk. eapply (spec_bind n 0) with
    (Q := λ r t y c, ∃ s, cbor_body major k r s ∧ t = (λ t, t ++ s) <$> text ∧ y = [] ∧ c = 0).
  - by apply spec_take.
  - intros. apply zlen_nonneg.
  - intros r x c (->&Hx&Hz&->). destruct (Z.eqb_spec major 3) as [->|Hm].
    + destruct (utf8_decode x) as [s|] eqn:E.
      * eapply spec_conseq; [apply spec_ret|]. intros t y c. unfold cbor_body. simpl.
        naive_solver.
      * apply spec_fail. intros ??? (s&(_&_&?)&_). simpl in *. naive_solver.
    + eapply spec_conseq; [apply spec_ret|]. intros t y c.
      setoid_rewrite cbor_body_other; [|done].
      replace text with ((λ t, t ++ []) <$> text) at 1
        by (destruct text; simpl; by rewrite ?app_nil_r).
      naive_solver.
  - intros t z c. split.
    + intros (s&Hs&->&->). exists z, z, [], 0, 0. rewrite app_nil_r.
      pose proof Hs as (?&?&_). split_and!; eauto.
    + intros (a&x&y&cx&cy&(->&_&_&->)&(s&?&->&->&->)&->&->). rewrite app_nil_r. eauto.
Qed.

(** *** Headers *)
Lemma header_fields m i : 0 ≤ m → 0 ≤ i < 32 →
  Z.shiftr (32 * m + i) 5 = m ∧ Z.land (32 * m + i) 31 = i.
Proof.
  intros. rewrite Z.shiftr_div_pow2 by lia. change 31 with (Z.ones 5).
  rewrite Z.land_ones by lia. change (2 ^ 5) with 32. dmlia.
Qed.

Lemma header_split h : u8_ok h → ∃ m i, h = 32 * m + i ∧ 0 ≤ m < 8 ∧ 0 ≤ i < 32.
Proof. intros [??]. exists (h / 32), (h mod 32). dmlia. Qed.

Lemma cbor_head_cons major n x : cbor_head major n x →
  ∃ info ext, x = (32 * major + info) :: ext ∧ head_arg info ext n ∧ 0 ≤ info < 28.
Proof.
  intros (info&ext&Hh&->). exists info, ext. split_and!; [done..| |];
    destruct Hh as (_&[?|?]); lia.
Qed.

(** What the chunk loop appends to the text collected so far. *)
Definition collected (text : option str) (s : str) : option str := (λ t, t ++ s) <$> text.

Lemma collected_nil text : collected text [] = text.
Proof. destruct text; simpl; [|done]. by rewrite app_nil_r. Qed.
Lemma collected_app text s t : collected (collected text s) t = collected text (s ++ t).
Proof. destruct text; simpl; [|done]. by rewrite app_assoc. Qed.

Lemma spec_chunks major text fuel n : 0 ≤ major < 8 → n < Z.of_nat fuel →
  scan_spec md n (scanner_chunks fuel major text)
    (λ t x c, ∃ s, cbor_chunks major x s c ∧ t = collected text s).
Proof.
  intros Hmaj. revert text n. induction fuel as [|fuel IH]; intros text n Hn.
  { split; [|intros s ??; pose proof (zlen_nonneg (rest s)); lia].
    intros a x c (s&Hs&_). clear -Hs. induction Hs; lia. }
  set (P := λ t x c, (∃ s, cbor_chunks major x s c ∧ t = collected text s)
                     ∧ ∃ h y, x = h :: y ∧ h ≠ 255 ∧ u8_ok h).
  eapply (spec_conseq _ _ (λ t x c, (t = text ∧ x = [255] ∧ c = 0) ∨ P t x c)).
  2:{ intros t x c. split.
      - intros [(->&->&->)|[? _]]; [|done]. exists []. rewrite collected_nil.
        split; [constructor|done].
      - intros (s&Hs&->). inversion Hs as [|k h b s1 y s2 cost Hh Hb Hy]; subst.
        + left. by rewrite collected_nil.
        + right. split; [eauto|]. apply cbor_head_cons in Hh as (i&ext&->&_&?).
          eexists _, _. split; [done|]. unfold u8_ok. lia. }
  simpl. apply spec_end; [|unfold P; naive_solver].
  apply spec_header; [|unfold P; naive_solver].
  intros h Hh. apply header_split in Hh as (m&i&->&Hm&Hi).
  destruct (header_fields m i) as [-> ->]; [lia..|].
  destruct (negb (m =? major) || (i =? 31)) eqn:E.
  { apply spec_fail. intros t x c [(s&Hs&_) (h'&y&[= <- <-]&?&_)].
    inversion Hs as [|k h b s1 y s2 cost Hh Hb Hy]; subst; [done|].
    apply cbor_head_cons in Hh as (j&ext&->&_&?). simplify_eq/=. lia. }
  assert (m = major ∧ i ≠ 31) as [-> ?] by lia. clear E.
  eapply (spec_bind _ 0) with (Q := λ k t y c, ∃ b s1 z s2, cbor_body major k b s1
    ∧ cbor_chunks major z s2 c ∧ y = b ++ z ∧ t = collected text (s1 ++ s2)).
  - by apply spec_count.
  - intros. apply zlen_nonneg.
  - intros k y c (Hk&->). pose proof (head_arg_bound _ _ _ Hk).
    eapply (spec_bind _ 0) with (Q := λ t' t z c, ∃ s2, cbor_chunks major z s2 c
      ∧ t = collected t' s2).
    + apply spec_chunk. lia.
    + intros. apply zlen_nonneg.
    + intros t' z d _. apply IH. lia.
    + intros t z d. split.
      * intros (b&s1&z'&s2&Hb&Hz&->&->). exists (collected text s1), b, z', 0, d.
        rewrite <-collected_app. split_and!; eauto.
      * intros (t'&b&z'&?&d'&(s1&Hb&->&->)&(s2&Hz&->)&->&->).
        exists b, s1, z', s2. rewrite Z.add_0_l. fold (collected text s1).
        by rewrite collected_app.
  - intros t z c. split.
    + intros [(s&Hs&->) (h'&y&[= <- <-]&?&_)].
      inversion Hs as [|k h b s1 y s2 cost Hh Hb Hy]; subst; [done|].
      apply cbor_head_cons in Hh as (j&ext&->&Hj&?). simplify_eq/=.
      assert (j = i) as -> by lia.
      exists k, ext, (b ++ y), 0, cost. split_and!; eauto 10. lia.
    + intros (k&ext&y&?&cost&(Hk&->)&(b&s1&z'&s2&Hb&Hz&->&->)&->&->).
      split.
      * exists (s1 ++ s2). split; [|done]. rewrite Z.add_0_l.
        eapply (chunk_cons _ k ((32 * major + i) :: ext)); [|done..]. by exists i, ext.
      * eexists _, _. split; [done|]. unfold u8_ok. lia.
Qed.

Lemma spec_string n major info collect : 0 ≤ major < 8 → 0 ≤ info < 32 →
  scan_spec md n (scanner_string major info collect)
    (λ t x c, ∃ s, cbor_string major ((32 * major + info) :: x) s c
       ∧ t = collected (if (major =? 3) && collect then Some [] else None) s).
Proof.
  intros Hmaj Hinfo. unfold scanner_string. cbv zeta.
  set (text := if (major =? 3) && collect then Some [] else None).
  destruct (Z.eqb_spec info 31) as [->|Hi]; simpl.
  - apply spec_gets.
    { intros t x c (s&Hs&_). inversion Hs as [|? ? ? Hc]; [lia|]. clear -Hc.
      induction Hc; lia. }
    intros s Hs Hn. eapply spec_conseq.
    + apply spec_chunks; [done|]. unfold chunk_fuel. rewrite rest_len by done.
      destruct Hs as (?&?&?&?). unfold zlen. lia.
    + intros t x c. split; intros (u&Hu&->); exists u; (split; [|done]).
      * by constructor.
      * inversion Hu as [k h b ? Hh| ]; subst; [|done].
        apply cbor_head_cons in Hh as (j&ext&->&_&?). simplify_eq/=. lia.
  - eapply (spec_bind _ 0) with (Q := λ k t y c, ∃ s, cbor_body major k y s
      ∧ t = collected text s ∧ c = 0).
    + by apply spec_count.
    + intros. apply zlen_nonneg.
    + intros k x c (Hk%head_arg_bound&_). apply spec_chunk. lia.
    + intros t x c. split.
      * intros (s&Hs&->). inversion Hs as [k h b ? Hh Hb| ]; subst; [|lia].
        apply cbor_head_cons in Hh as (j&ext&->&Hj&?). simplify_eq/=.
        assert (j = info) as -> by lia. exists k, ext, b, 0, 0. split_and!; eauto.
      * intros (k&ext&b&?&?&(Hk&->)&(s&Hb&->&->)&->&->). exists s. split; [|done].
        apply (string_definite _ k ((32 * major + info) :: ext)); [|done].
        by exists info, ext.
Qed.

Lemma spec_key n keys : scan_spec md n (scanner_key keys)
  (λ ks x c, ∃ k kc, cbor_string 3 x k kc ∧ c = 1 + kc ∧ k ∉ keys ∧ ks = {[ k ]} ∪ keys).
Proof.
  apply spec_header.
  2:{ intros ks x c (k&kc&Hk&_). inversion Hk as [? h b ? Hh|]; subst.
      - apply cbor_head_cons in Hh as (j&ext&->&_&?). eexists _, _.
        split; [done|]. unfold u8_ok. lia.
      - by eexists _, _. }
  intros h Hh. apply header_split in Hh as (m&i&->&Hm&Hi).
  destruct (header_fields m i) as [-> ->]; [lia..|].
  destruct (Z.eqb_spec m 3) as [->|Hne]; simpl.
  2:{ apply spec_fail. intros ks x c (k&kc&Hk&_). inversion Hk as [? h b ? Hh|]; subst; [|lia].
      apply cbor_head_cons in Hh as (j&ext&->&_&?). simplify_eq/=. lia. }
  eapply (spec_bind _ 0) with (Q := λ t ks y c, ∃ k, t = Some k ∧ k ∉ keys
    ∧ ks = {[ k ]} ∪ keys ∧ y = [] ∧ c = 0).
  - by apply spec_string.
  - intros. apply zlen_nonneg.
  - intros t x c (k&_&->). simpl.
    eapply (spec_bind _ 0) with (Q := λ k ks y c, k ∉ keys ∧ ks = {[ k ]} ∪ keys ∧ y = [] ∧ c = 0).
    + apply spec_unwrap.
    + intros. apply zlen_nonneg.
    + intros ? ? ? (->&->&->). case_bool_decide.
      * apply spec_fail. naive_solver.
      * eapply spec_conseq; [apply spec_ret|]. naive_solver.
    + intros ks y d. split.
      * intros (k'&[= <-]&?&->&->&->). exists k, [], [], 0, 0. naive_solver.
      * intros (k'&y1&y2&?&?&(->&->&->)&(?&->&->&->)&->&->). naive_solver.
  - intros ks x c. split.
    + intros (k&kc&?&?&?&->). eexists (Some k), x, [], kc, 0. rewrite app_nil_r.
      split_and!; [by exists k|by exists k|done|lia].
    + intros (t&y&z&c1&c2&(k&Hk&->)&(k'&[= <-]&?&->&->&->)&->&?).
      rewrite app_nil_r. exists k, c1. split_and!; [done|lia|done..].
Qed.

(** *** Containers *)
Lemma cbor_grammar_cost :
  (∀ d x c, cbor_item md d x c → 0 ≤ c) ∧
  (∀ d major ks n x c, cbor_entries md d major ks n x c → 0 ≤ c ∧ 0 ≤ n).
Proof.
  assert (∀ major x s c, cbor_chunks major x s c → 0 ≤ c) as Hch by (induction 1; lia).
  assert (∀ major x s c, cbor_string major x s c → 0 ≤ c) as Hs.
  { inversion 1; subst; [lia|eauto]. }
  apply cbor_grammar_ind; intros; try lia.
  - apply Hs in H0. lia.
  - apply Hs in H0. lia.
Qed.

Lemma cbor_item_first d x c : cbor_item md d x c → ∃ h y, x = h :: y ∧ h ≠ 255 ∧ u8_ok h.
Proof.
  unfold u8_ok. intros Hx. inversion Hx as
    [? m n y Hm Hh|? m y s k Hm Hs|? m n h ? y k Hm ? Hh|? m ? ? y k Hm|? n h y k ? Hh|? i|? v|? i ext]; subst.
  - apply cbor_head_cons in Hh as (j&ext&->&_&?). eexists _, _. split; [done|]. lia.
  - inversion Hs as [? h ? ? Hh| ]; subst.
    + apply cbor_head_cons in Hh as (j&ext&->&_&?). eexists _, _. split; [done|]. lia.
    + eexists _, _. split; [done|]. lia.
  - apply cbor_head_cons in Hh as (j&ext&->&_&?). eexists _, _. split; [done|]. lia.
  - eexists _, _. split; [done|]. lia.
  - apply cbor_head_cons in Hh as (j&ext&->&_&?). eexists _, _. split; [done|]. lia.
  - eexists _, _. split; [done|]. lia.
  - eexists _, _. split; [done|]. lia.
  - eexists _, _. split; [done|]. lia.
Qed.

Definition key_read (depth major : Z) (keys keys' : gset str) (x : list Z) (c : Z) : Prop :=
  text_keys md depth major ∧
    (∃ k kc, cbor_string 3 x k kc ∧ c = 1 + kc ∧ k ∉ keys ∧ keys' = {[ k ]} ∪ keys)
  ∨ ¬ text_keys md depth major ∧ keys' = keys ∧ cbor_item md (depth + 1) x c.

Definition map_value_read (depth major : Z) (x : list Z) (c : Z) : Prop :=
  major = 5 ∧ cbor_item md (depth + 1) x c ∨ major = 4 ∧ x = [] ∧ c = 0.

(** What the loop reads from element [index] on, when [keys] were seen. *)
Definition entries_read (depth major : Z) (count : option Z) (keys : gset str) (index : Z)
    (x : list Z) (c : Z) : Prop :=
  ∃ ks, NoDup ks ∧ (∀ k, k ∈ ks → k ∉ keys) ∧
    match count with
    | Some k => cbor_entries md depth major ks (k - index) x c
    | None => ∃ m y, x = y ++ [255] ∧ cbor_entries md depth major ks m y c
    end.

Lemma text_keys_dec depth major : Decision (text_keys md depth major).
Proof. unfold text_keys. apply _. Defined.

Definition entry_read (depth major : Z) (count : option Z) (keys : gset str) (index : Z)
    (x : list Z) (c : Z) : Prop :=
  ∃ keys' xk ck xv cv y cy, key_read depth major keys keys' xk ck
    ∧ map_value_read depth major xv cv ∧ entries_read depth major count keys' (index + 1) y cy
    ∧ x = xk ++ xv ++ y ∧ c = ck + cv + cy.

Lemma entry_read_first depth major count keys index x c :
  entry_read depth major count keys index x c → ∃ h y, x = h :: y ∧ h ≠ 255.
Proof.
  intros (?&xk&ck&xv&cv&y&cy&Hk&_&_&->&_).
  destruct Hk as [[_ (k&kc&Hk&_)]|(_&_&Hk)].
  - inversion Hk as [? h ? ? Hh| ]; subst; [|by eexists _, _].
    apply cbor_head_cons in Hh as (j&ext&->&_&?). eexists _, _. split; [done|]. lia.
  - apply cbor_item_first in Hk as (h&z&->&?&_). eauto.
Qed.

(** One element and the rest. *)
Lemma entries_cons_iff depth major ks n x c : 0 < n → major = 4 ∨ major = 5 →
  cbor_entries md depth major ks n x c ↔
  ∃ keys ks' xk ck xv cv y cy, key_read depth major ∅ keys xk ck
    ∧ map_value_read depth major xv cv ∧ cbor_entries md depth major ks' (n - 1) y cy
    ∧ x = xk ++ xv ++ y ∧ c = ck + cv + cy
    ∧ (text_keys md depth major ∧ (∃ k, keys = {[ k ]} ∧ ks = k :: ks')
       ∨ ¬ text_keys md depth major ∧ ks = ks').
Proof.
  intros Hn Hmaj. split.
  - inversion 1 as [|? kl m k key kc xv cv y cy Ht|? kl m k kc xv cv y cy Ht|? kl m xk ck y cy]; subst; [lia|..].
    + exists {[ key ]}, kl, k, (1 + kc), xv, cv, y, cy. split_and!; try done; [|by left|..].
      * left. split; [done|]. exists key, kc. split_and!; [done..|set_solver|set_solver].
      * by replace (1 + m - 1) with m by lia.
      * left. eauto.
    + exists ∅, ks, k, kc, xv, cv, y, cy. split_and!; try done; [by right|by left|..|by right].
      by replace (1 + m - 1) with m by lia.
    + assert (¬ text_keys md depth 4) by (by intros [? _]).
      exists ∅, ks, xk, ck, [], 0, y, cy.
      split_and!; try done; [by right|by right|..|lia|by right].
      by replace (1 + m - 1) with m by lia.
  - intros (keys&ks'&xk&ck&xv&cv&y&cy&Hk&Hv&He&->&->&Hks).
    replace n with (1 + (n - 1)) by lia.
    destruct Hk as [[Ht (k&kc&Hk&->&_&->)]|(Ht&->&Hk)], Hks as [[? (k'&Heq&->)]|[? ->]]; try done.
    + assert (k' = k) as -> by set_solver.
      pose proof Ht as [-> _]. destruct Hv as [[_ Hv]|[? _]]; [|done]. by constructor.
    + destruct Hv as [[-> Hv]|(->&->&->)]; simpl.
      * by constructor.
      * rewrite Z.add_0_r. by constructor.
Qed.

Definition fresh_entries (depth major : Z) (keys : gset str) (n : Z) (x : list Z) (c : Z) : Prop :=
  ∃ ks, NoDup ks ∧ (∀ k, k ∈ ks → k ∉ keys) ∧ cbor_entries md depth major ks n x c.

Lemma fresh_entries_cons (depth major : Z) (keys : gset str) (n : Z) x c : 0 < n → major = 4 ∨ major = 5 →
  fresh_entries depth major keys n x c ↔
  ∃ keys' xk ck xv cv y cy, key_read depth major keys keys' xk ck
    ∧ map_value_read depth major xv cv ∧ fresh_entries depth major keys' (n - 1) y cy
    ∧ x = xk ++ xv ++ y ∧ c = ck + cv + cy.
Proof.
  intros Hn Hmaj. unfold fresh_entries. setoid_rewrite (λ ks, entries_cons_iff depth major ks n x c Hn Hmaj). split.
  - intros (ks&Hnd&Hfr&keys1&ks'&xk&ck&xv&cv&y&cy&Hk&Hv&He&->&->&Hks).
    destruct Hks as [(Ht&k&->&->)|[Ht ->]].
    + apply NoDup_cons in Hnd as [Hk' Hnd].
      exists ({[ k ]} ∪ keys), xk, ck, xv, cv, y, cy. split_and!; try done.
      * destruct Hk as [[_ (k1&kc&?&->&_&Heq)]|(?&_&_)]; [|done].
        assert (k1 = k) as -> by set_solver.
        left. split; [done|]. exists k, kc. split_and!; try done. set_solver.
      * exists ks'. split_and!; [done| |done]. set_solver.
    + exists keys, xk, ck, xv, cv, y, cy. split_and!; try done; [|eauto].
      destruct Hk as [[? _]|(_&_&Hk)]; [done|]. by right.
  - intros (keys'&xk&ck&xv&cv&y&cy&Hk&Hv&(ks&Hnd&Hfr&He)&->&->).
    destruct Hk as [[Ht (k&kc&Hk&->&Hnew&->)]|(Ht&->&Hk)].
    + exists (k :: ks). split_and!; [constructor; set_solver|set_solver|].
      exists {[ k ]}, ks, xk, (1 + kc), xv, cv, y, cy. split_and!; try done; [|left; eauto].
      left. split; [done|]. exists k, kc. split_and!; [done..|set_solver|set_solver].
    + exists ks. split_and!; [done..|].
      exists ∅, ks, xk, ck, xv, cv, y, cy. split_and!; try done; by right.
Qed.

Lemma fresh_entries_0 (depth major : Z) (keys : gset str) (n : Z) x c : n ≤ 0 →
  fresh_entries depth major keys n x c ↔ n = 0 ∧ x = [] ∧ c = 0.
Proof.
  intros Hn. split.
  - intros (ks&_&_&He). pose proof (proj2 cbor_grammar_cost _ _ _ _ _ _ He) as [_ ?].
    inversion He as [|? ? ? ? ? ? ? ? ? ? ? ? ? He'|? ? ? ? ? ? ? ? ? ? ? ? He'|? ? ? ? ? ? ? ? He']; subst; [done|..];
      apply cbor_grammar_cost in He'; lia.
  - intros (->&->&->). exists []. split_and!; [constructor|set_solver|constructor].
Qed.

Lemma entries_read_some (depth major k : Z) (keys : gset str) index x c : major = 4 ∨ major = 5 →
  index ≤ k → entries_read depth major (Some k) keys index x c ↔
    if index <? k then entry_read depth major (Some k) keys index x c
    else x = [] ∧ c = 0.
Proof.
  intros Hmaj Hle. change (entries_read depth major (Some k) keys index x c) with
    (fresh_entries depth major keys (k - index) x c).
  destruct (Z.ltb_spec index k).
  - rewrite fresh_entries_cons by (done || lia).
    replace (k - index - 1) with (k - (index + 1)) by lia. done.
  - rewrite fresh_entries_0 by lia. naive_solver lia.
Qed.

Lemma entries_read_none (depth major : Z) (keys : gset str) index x c : major = 4 ∨ major = 5 →
  entries_read depth major None keys index x c ↔
    (tt = tt ∧ x = [255] ∧ c = 0) ∨ entry_read depth major None keys index x c.
Proof.
  intros Hmaj. assert (∀ keys index x c, entries_read depth major None keys index x c ↔
    ∃ m y, x = y ++ [255] ∧ fresh_entries depth major keys m y c) as E
    by (unfold entries_read, fresh_entries; naive_solver).
  unfold entry_read. setoid_rewrite E. split.
  - intros (m&y&->&Hf). destruct (decide (m ≤ 0)).
    + left. apply fresh_entries_0 in Hf as (_&->&->); [done|lia].
    + right. apply fresh_entries_cons in Hf as (keys'&xk&ck&xv&cv&y'&cy&?&?&?&->&->); [|lia|done].
      exists keys', xk, ck, xv, cv, (y' ++ [255]), cy. split_and!; try done; [eauto|].
      by rewrite <-!app_assoc.
  - intros [(_&->&->)|(keys'&xk&ck&xv&cv&y'&cy&?&?&(m&y&->&Hf)&->&->)].
    + exists 0, []. split; [done|]. by apply fresh_entries_0.
    + exists (m + 1), (xk ++ xv ++ y). rewrite <-!app_assoc. split; [done|].
      assert (0 ≤ m) by (destruct Hf as (?&_&_&?%cbor_grammar_cost); lia).
      apply fresh_entries_cons; [lia|done|]. replace (m + 1 - 1) with m by lia.
      exists keys', xk, ck, xv, cv, y, cy. done.
Qed.

(** The two kinds of containers, and the other items, seen from the header. *)
Lemma container_iff depth major info x c : major = 4 ∨ major = 5 → 0 ≤ info < 32 → depth < 64 →
  cbor_item md depth ((32 * major + info) :: x) (1 + c) ↔
  if info =? 31 then entries_read depth major None ∅ 0 x c
  else ∃ k ext y, head_arg info ext k ∧ entries_read depth major (Some k) ∅ 0 y c ∧ x = ext ++ y.
Proof.
  intros Hmaj Hinfo Hd. split.
  - inversion 1 as [? m n ? Hm Hh|? m ? s k Hm Hs|? m n h ks y k Hm ? Hh He|? m n ks y k Hm ? He|? n h y k ? Hh|i|? v|? i ext]; subst; try lia.
    + apply cbor_head_cons in Hh as (j&ext&?&_&?). simplify_eq/=. lia.
    + inversion Hs as [? h ? ? Hh| ]; subst; [|lia].
      apply cbor_head_cons in Hh as (j&ext&->&_&?). simplify_eq/=. lia.
    + apply cbor_head_cons in Hh as (j&ext&->&Hj&?). simplify_eq/=.
      assert (j = info ∧ m = major) as [-> ->] by lia. assert (k = c) as -> by lia.
      destruct (Z.eqb_spec info 31); [lia|]. exists n, ext, y.
      split_and!; [done| |done]. exists ks. rewrite Z.sub_0_r.
      split_and!; [done|set_solver|done].
    + assert (info = 31 ∧ m = major) as [-> ->] by lia. assert (k = c) as -> by lia.
      simpl. exists ks. split_and!; [done|set_solver|eauto].
    + apply cbor_head_cons in Hh as (j&ext&->&_&?). simplify_eq/=. lia.
  - destruct (Z.eqb_spec info 31) as [->|].
    + intros (ks&?&_&m&y&->&?). by eapply item_indefinite.
    + intros (k&ext&y&Hk&(ks&?&_&He)&->). rewrite Z.sub_0_r in He.
      apply (item_definite _ _ major k ((32 * major + info) :: ext) ks); try done.
      by exists info, ext.
Qed.

(** Inversion of an item with a known header, up to the cases that remain. *)
Ltac item_inv H :=
  inversion H as [? ? ? ? ? Hh|? ? ? ? ? ? Hs|? ? ? ? ? ? ? ? ? Hh|? ? ? ? ? ? ?|? ? ? ? ? ? Hh|? ?|? ?|? ? ?]; subst;
  try (apply cbor_head_cons in Hh as (?j&?ext&?&?&?));
  try (inversion Hs as [? ? ? ? Hc| ]; subst; [apply cbor_head_cons in Hc as (?j&?ext&->&?&?)|]);
  simplify_eq/=; try lia.

Lemma int_iff depth m i x c : m = 0 ∨ m = 1 → 0 ≤ i < 32 →
  cbor_item md depth ((32 * m + i) :: x) (1 + c) ↔ c = 0 ∧ ∃ k, head_arg i x k.
Proof.
  intros Hm Hi. split.
  - intros H. item_inv H. assert (j = i) as -> by lia. split; [lia|eauto].
  - intros (->&k&Hk). apply (item_int _ _ m k); [done|]. by exists i, x.
Qed.

Lemma string_iff depth m i x c : m = 2 ∨ m = 3 → 0 ≤ i < 32 →
  cbor_item md depth ((32 * m + i) :: x) (1 + c) ↔
  ∃ s, cbor_string m ((32 * m + i) :: x) s c.
Proof.
  intros Hm Hi. split.
  - intros H. inversion H as [? ? ? ? ? Hh|? m' ? s k Hm' Hs|? ? ? ? ? ? ? ? ? Hh|? ? ? ? ? ? ?|? ? ? ? ? ? Hh|? ?|? ?|? ? ?]; subst;
      try (apply cbor_head_cons in Hh as (?j&?ext&?&?&?)); simplify_eq/=; try lia.
    exists s. assert (k = c) as -> by lia. enough (m' = m) as -> by done.
    inversion Hs as [? ? ? ? Hc| ]; subst; [|lia].
    apply cbor_head_cons in Hc as (?j&?ext&->&?&?). simplify_eq/=. lia.
  - intros (s&Hs). by eapply item_string.
Qed.

Lemma tag_iff depth i x c : 0 ≤ i < 32 → depth < 64 →
  cbor_item md depth ((32 * 6 + i) :: x) (1 + c) ↔
  ∃ k ext y, head_arg i ext k ∧ cbor_item md (depth + 1) y c ∧ x = ext ++ y.
Proof.
  intros Hi Hd. split.
  - intros H. item_inv H. assert (j = i) as -> by lia.
    eexists _, _, _. split_and!; [done| |done].
    match goal with H : cbor_item md (depth + 1) _ ?k |- _ => by replace c with k by lia end.
  - intros (k&ext&y&Hk&Hy&->). apply (item_tag _ _ k ((32 * 6 + i) :: ext)); try done.
    by exists i, ext.
Qed.

Lemma simple_iff depth i x c : 0 ≤ i < 32 →
  cbor_item md depth ((32 * 7 + i) :: x) (1 + c) ↔ c = 0 ∧
  (i ≤ 23 ∧ x = [] ∨ i = 24 ∧ (∃ v, 32 ≤ v < 256 ∧ x = [v])
   ∨ 25 ≤ i ≤ 27 ∧ bytes_ok x ∧ zlen x = 2 ^ (i - 24)).
Proof.
  intros Hi. split.
  - intros H. item_inv H.
    + split; [lia|left]. split; [lia|done].
    + split; [lia|right; left]. split; [lia|eauto].
    + split; [lia|right; right]. match goal with H : 224 + ?k = _ |- _ => assert (k = i) as -> by lia end.
      done.
  - intros [-> [[? ->]|[[-> (v&?&->)]|(?&?&?)]]].
    + apply (item_simple _ _ i). lia.
    + by apply item_simple_byte.
    + by apply (item_float _ _ i).
Qed.

Lemma too_deep depth m i x c : m = 4 ∨ m = 5 ∨ m = 6 → 0 ≤ i < 32 → 64 ≤ depth →
  ¬ cbor_item md depth ((32 * m + i) :: x) c.
Proof. intros ??? H. item_inv H. Qed.

(** *** The scanner *)
Definition value_spec (fuel : nat) : Prop := ∀ n depth, 2 * n + 1 ≤ Z.of_nat fuel →
  scan_spec md n (scanner_value fuel depth) (λ _ x c, cbor_item md depth x c).

Definition entries_spec (fuel : nat) : Prop := ∀ n depth major count keys index,
  2 * n + 2 ≤ Z.of_nat fuel → major = 4 ∨ major = 5 →
  match count with Some k => index ≤ k | None => True end →
  scan_spec md n
    (scanner_entries fuel depth major ((major =? 5) && (md || (depth =? 0))) count keys index)
    (λ _ x c, entries_read depth major count keys index x c).

Lemma entries_read_cost depth major count keys index x c :
  entries_read depth major count keys index x c → 0 ≤ c.
Proof. intros (ks&_&_&He). destruct count; [|destruct He as (?&?&_&He)]; apply cbor_grammar_cost in He; lia. Qed.

Lemma dictionary_spec depth major :
  (major =? 5) && (md || (depth =? 0)) = true ↔ text_keys md depth major.
Proof. unfold text_keys. destruct md; simpl; rewrite ?orb_true_r; lia || naive_solver lia. Qed.

Lemma key_step fuel n depth major keys : value_spec fuel → 2 * n + 1 ≤ Z.of_nat fuel →
  scan_spec md n
    (if (major =? 5) && (md || (depth =? 0)) then scanner_key keys
     else _ ← scanner_value fuel (depth + 1); mret keys)
    (λ keys' x c, key_read depth major keys keys' x c).
Proof.
  intros IH Hn. pose proof (dictionary_spec depth major) as Hd. unfold key_read.
  destruct ((major =? 5) && (md || (depth =? 0))).
  - eapply spec_conseq; [apply spec_key|]. intros ks x c. naive_solver.
  - eapply (spec_map _ _ (λ _, keys)); [by apply IH|]. intros ks x c. split.
    + intros [[? _]|(_&->&?)]; [naive_solver|]. by exists tt.
    + intros ([]&?&->). right. naive_solver.
Qed.

Lemma map_value_step fuel n depth major : value_spec fuel → 2 * n + 1 ≤ Z.of_nat fuel →
  major = 4 ∨ major = 5 →
  scan_spec md n (if major =? 5 then scanner_value fuel (depth + 1) else mret tt)
    (λ _ x c, map_value_read depth major x c).
Proof.
  intros IH Hn Hmaj. unfold map_value_read. destruct (Z.eqb_spec major 5).
  - eapply spec_conseq; [by apply IH|]. naive_solver lia.
  - eapply spec_conseq; [apply spec_ret|]. intros [] x c. naive_solver lia.
Qed.

Lemma key_read_len depth major keys keys' x c :
  key_read depth major keys keys' x c → 1 ≤ zlen x.
Proof.
  intros [[_ (k&kc&Hk&_)]|(_&_&Hk)].
  - inversion Hk as [? h ? ? Hh| ]; subst; [apply cbor_head_cons in Hh as (j&ext&->&_&?)|]; zlia.
  - apply cbor_item_first in Hk as (h&z&->&?&_). zlia.
Qed.

Lemma entries_step fuel : value_spec fuel → entries_spec fuel → entries_spec (S fuel).
Proof.
  intros IHv IHe n depth major count keys index Hn Hmaj Hcount.
  set (dict := (major =? 5) && (md || (depth =? 0))).
  set (body := keys' ← (if dict then scanner_key keys
                        else _ ← scanner_value fuel (depth + 1); mret keys);
       _ ← (if major =? 5 then scanner_value fuel (depth + 1) else mret tt);
       scanner_entries fuel depth major dict count keys' (index + 1)).
  assert (match count with Some k => index < k | None => True end →
    scan_spec md n body (λ _ x c, entry_read depth major count keys index x c)) as Hbody.
  { intros Hlt. unfold body. eapply (spec_bind _ 1) with (Q := λ keys' _ z c,
      ∃ xv cv y cy, map_value_read depth major xv cv
        ∧ entries_read depth major count keys' (index + 1) y cy ∧ z = xv ++ y ∧ c = cv + cy).
    - by apply (key_step fuel); [|lia].
    - intros ???. apply key_read_len.
    - intros keys' xk ck _.
      eapply (spec_bind _ 0) with (Q := λ _ _ y c,
        entries_read depth major count keys' (index + 1) y c).
      + by apply (map_value_step fuel); [|lia|].
      + intros. apply zlen_nonneg.
      + intros [] ?? _. apply IHe; [lia|done|destruct count; [lia|done]].
      + intros [] z c. split; [intros (xv&cv&y&cy&?&?&->&->); exists tt; eauto 10|].
        intros ([]&xv&y&cv&cy&?&?&->&->). eauto 10.
    - intros [] x c. unfold entry_read. split.
      + intros (keys'&xk&ck&xv&cv&y&cy&?&?&?&->&->).
        exists keys', xk, (xv ++ y), ck, (cv + cy). split_and!; [done|eauto 10|done|lia].
      + intros (keys'&xk&z&ck&c'&?&(xv&cv&y&cy&?&?&->&->)&->&->).
        exists keys', xk, ck, xv, cv, y, cy. split_and!; try done. lia. }
  destruct count as [k|].
  - apply (spec_ext _ _ (if index <? k then body else mret tt)); [by intros s; simpl; destruct (index <? k)|].
    apply (spec_conseq _ _ (λ _ x c, if index <? k
      then entry_read depth major (Some k) keys index x c else x = [] ∧ c = 0)).
    + destruct (Z.ltb_spec index k); [by apply Hbody|].
      eapply spec_conseq; [apply spec_ret|]. intros [] x c. naive_solver.
    + intros [] x c. symmetry. by apply entries_read_some.
  - apply (spec_ext _ _ (stop ← scanner_end; if (stop : bool) then mret tt else body)).
    { intros s. simpl. unfold mbind, scan_bind. by destruct (scanner_end s) as [[[] ?]| | |]. }
    eapply spec_conseq; [apply spec_end; [by apply Hbody|]|].
    + intros [] x c. apply entry_read_first.
    + intros [] x c. symmetry. by apply entries_read_none.
Qed.

Lemma spec_skip {A} n (m : scan A) P Q : scan_spec md n m P →
  (∀ x c, Q x c ↔ ∃ a, P a x c) →
  scan_spec md n (_ ← m; mret tt) (λ _ x c, Q x c).
Proof.
  intros Hm HQ. apply (spec_map _ _ (λ _, tt) P); [done|]. intros [] x c. rewrite HQ. naive_solver.
Qed.

(** The count of a container, then its elements. *)
Lemma container_step fuel n depth major info : entries_spec fuel →
  2 * n + 2 ≤ Z.of_nat fuel → major = 4 ∨ major = 5 → 0 ≤ info < 32 → depth < 64 →
  scan_spec md n
    (count ← (if info =? 31 then mret None
              else count ← scanner_count info; mret (Some count));
     metadata ← scan_gets metadata;
     let dictionary := (major =? 5) && (metadata || (depth =? 0)) in
     scanner_entries fuel depth major dictionary count ∅ 0)
    (λ _ x c, cbor_item md depth ((32 * major + info) :: x) (1 + c)).
Proof.
  intros IH Hn Hmaj Hinfo Hd.
  eapply (spec_bind n 0) with
    (P := λ count x c, c = 0 ∧ if info =? 31 then count = None ∧ x = []
                               else ∃ k, count = Some k ∧ head_arg info x k)
    (Q := λ count _ y c, entries_read depth major count ∅ 0 y c).
  - destruct (info =? 31).
    + eapply spec_conseq; [apply spec_ret|]. naive_solver.
    + eapply (spec_map n _ Some); [by apply spec_count|]. naive_solver.
  - intros. apply zlen_nonneg.
  - intros count x c Hcount. rewrite Z.sub_0_r. apply spec_gets.
    { intros _ y d. apply entries_read_cost. }
    intros s (_&_&_&_&->) Hs. cbv zeta. apply IH; [lia|done|].
    destruct count as [k|]; [|done]. destruct Hcount as [_ Hk].
    destruct (info =? 31); [by destruct Hk|].
    destruct Hk as (?&[= <-]&?%head_arg_bound). lia.
  - intros [] x c. rewrite container_iff by done. destruct (info =? 31).
    + split; [intros; exists None, [], x, 0, c; done|].
      intros (?&?&y&?&cy&(->&->&->)&?&->&->). done.
    + split.
      * intros (k&ext&y&?&?&->). exists (Some k), ext, y, 0, c. split_and!; eauto.
      * intros (?&ext&y&?&cy&(->&k&->&?)&?&->&->). exists k, ext, y. done.
Qed.

Lemma simple_step n depth info : 0 ≤ info < 32 →
  scan_spec md n
    (if info <=? 23 then mret tt
     else if info =? 24 then
       byte ← scanner_byte;
       if byte <? 32 then scan_fail "CBOR simple value" else mret tt
     else if info <=? 27 then
       _ ← scanner_take (Z.shiftl 1 (info - 24)); mret tt
     else scan_fail "CBOR break or reserved info")
    (λ _ x c, cbor_item md depth ((32 * 7 + info) :: x) (1 + c)).
Proof.
  intros Hinfo.
  eapply spec_conseq; [|intros a x c; symmetry; by apply simple_iff].
  destruct (Z.leb_spec info 23).
  { eapply spec_conseq; [apply spec_ret|]. intros [] x c. naive_solver lia. }
  destruct (Z.eqb_spec info 24) as [->|].
  { eapply (spec_bind n 0) with (Q := λ b _ y c, 32 ≤ b ∧ y = [] ∧ c = 0).
    - apply spec_byte.
    - intros. apply zlen_nonneg.
    - intros b x c _. destruct (Z.ltb_spec b 32); [apply spec_fail; naive_solver lia|].
      eapply spec_conseq; [apply spec_ret|]. intros [] y d. naive_solver.
    - intros [] x c. unfold u8_ok. split.
      + intros [-> [[? ->]|[[_ (v&?&->)]|?]]]; [lia| |lia].
        exists v, [v], [], 0, 0. split_and!; done || lia.
      + intros (b&?&?&?&?&(->&?&->)&(?&->&->)&->&->). split; [done|]. right; left. eauto with lia. }
  destruct (Z.leb_spec info 27); [|apply spec_fail; naive_solver lia].
  rewrite Z.shiftl_mul_pow2, Z.mul_1_l by lia.
  eapply spec_skip; [apply spec_take; apply Z.pow_nonneg; lia|]. intros x c. split.
  - intros [-> [?|[?|?]]]; [lia..|]. naive_solver.
  - naive_solver lia.
Qed.

Lemma value_step fuel : value_spec fuel → entries_spec fuel → value_spec (S fuel).
Proof.
  intros IHv IHe n depth Hn. apply spec_header.
  2:{ intros _ x c (h&y&?&_&?)%cbor_item_first. eauto. }
  intros h Hh. apply header_split in Hh as (m&i&->&Hm&Hi).
  destruct (header_fields m i) as [-> ->]; [lia..|]. cbv zeta.
  destruct ((m =? 0) || (m =? 1)) eqn:E01.
  { eapply spec_skip; [by apply spec_length|]. intros x c. rewrite int_iff by lia. naive_solver. }
  destruct ((m =? 2) || (m =? 3)) eqn:E23.
  { eapply spec_skip; [by apply spec_string|]. intros x c. rewrite string_iff by lia. naive_solver. }
  destruct ((m =? 4) || (m =? 5)) eqn:E45.
  { destruct (Z.leb_spec 64 depth).
    - apply spec_fail. intros _ x c. apply too_deep; lia.
    - apply container_step; done || lia. }
  destruct (Z.eqb_spec m 6) as [->|].
  { destruct (Z.leb_spec 64 depth).
    - apply spec_fail. intros _ x c. apply too_deep; lia.
    - eapply (spec_bind _ 0) with (Q := λ _ _ y c, cbor_item md (depth + 1) y c).
      + by apply spec_length.
      + intros. apply zlen_nonneg.
      + intros _ _ _ _. apply IHv. lia.
      + intros [] x c. rewrite tag_iff by done. split.
        * intros (k&ext&y&?&?&->). exists k, ext, y, 0, c. done.
        * intros (k&ext&y&?&cy&(?&->)&?&->&->). exists k, ext, y. done. }
  destruct (Z.eqb_spec m 7) as [->|]; [|lia]. by apply simple_step.
Qed.

Lemma scanner_value_spec fuel : value_spec fuel ∧ entries_spec fuel.
Proof.
  induction fuel as [|fuel [IHv IHe]]; [|split; [by apply value_step|by apply entries_step]].
  split.
  - intros n depth Hn. split; [intros _ x c; apply cbor_grammar_cost|].
    intros s _ ?. pose proof (zlen_nonneg (rest s)). lia.
  - intros n depth major count keys index Hn _ _. split; [intros _ x c; apply entries_read_cost|].
    intros s _ ?. pose proof (zlen_nonneg (rest s)). lia.
Qed.
End spec.

(** ** Validation *)
#[local] Arguments scanner_value : simpl never.

(** What [validate] promises: a single item of the expected kind, of bounded
    size, nesting and number of items. *)
Definition container_ok (md : bool) (root : Z) (bytes : list Z) : Prop :=
  zlen bytes ≤ maximum_container md ∧ (λ b, Z.shiftr b 5) <$> head bytes = Some root ∧
  ∃ cost, cost ≤ MAX_ITEMS ∧ cbor_item md 0 bytes cost.

Lemma validate_exact_lem bytes root md : bytes_ok bytes →
  returns (validate bytes root md) ∧ (validate bytes root md = Ok tt ↔ container_ok md root bytes).
Proof.
  intros Hb. unfold validate, container_ok.
  assert (byte_at bytes 0 = head bytes) as ->.
  { apply option_eq. intros x. rewrite byte_at_Some, head_lookup. naive_solver lia. }
  destruct (Z.eqb_spec (zlen bytes) 0) as [H0|H0]; simpl.
  { apply zlen_0_nil in H0 as ->. split; [done|]. naive_solver. }
  destruct (Z.ltb_spec (maximum_container md) (zlen bytes)); simpl.
  { split; [done|]. split; [done|]. lia. }
  case_bool_decide as Hroot; simpl; [|split; [done|naive_solver]].
  assert (maximum_container md ≤ 64 * 1024 * 1024) by (by destruct md).
  set (s := mkScanner bytes 0 0 md).
  assert (ready md s) as Hs by (unfold ready, s, MAX_ITEMS; simpl; split_and!; try done; zlia).
  assert (rest s = bytes) as Hrest by done.
  destruct (proj1 (scanner_value_spec md (scan_fuel bytes)) (zlen bytes) 0) as [_ Hv].
  { unfold scan_fuel, zlen. lia. }
  destruct (Hv s Hs) as [Hret Hiff]; [by rewrite Hrest|]. rewrite Hrest in Hiff.
  split.
  - apply returns_bind; [done|]. intros [[] s'] _. by case_match.
  - split.
    + intros H'. inv_ok. destruct a as [[] s'].
      apply Hiff in Ha as (x&c&r&Hx&->&Hc&->). simpl in H', Hc.
      rewrite Z.add_0_l in H'.
      destruct (Z.eqb_spec (zlen x) (zlen (x ++ r))) as [Hz|]; [|done].
      assert (r = []) as -> by (apply zlen_0_nil; zlia). rewrite app_nil_r in *.
      split_and!; [done..|]. exists c. split; [lia|done].
    + intros (_&_&c&Hc&Hx).
      rewrite (proj2 (Hiff tt (advance s bytes c))).
      * simpl. by rewrite Z.eqb_refl.
      * exists bytes, c, []. rewrite app_nil_r. split_and!; [done|done|simpl; lia|done].
Qed.

(** An encoded argument list or map within the limits, where one is given. *)
Definition argument_ok (root : Z) (o : option (list Z)) : Prop :=
  match o with Some bytes => container_ok false root bytes | None => True end.

(** ** Theorems *)

(** C14: [validate] always returns, and it accepts exactly one CBOR item of the
    expected kind and size, nested at most 64 deep, with no text key twice in
    the maps that are dictionaries and with at most a million items; nothing
    may follow the item. *)
Theorem cbor_validate_exact bytes root md : bytes_ok bytes →
  returns (validate bytes root md) ∧
  (validate bytes root md = Ok tt ↔ container_ok md root bytes).
Proof. apply validate_exact_lem. Qed.

(** A payload passes [validate_flatbuffers_payload] exactly when it is not
    both transparent and ordinary, its arguments are one CBOR array and its
    keyword arguments one CBOR map with distinct text keys. *)
Theorem validate_flatbuffers_payload_exact p :
  (∀ b, args p = Some b ∨ kwargs p = Some b → bytes_ok b) →
  returns (validate_flatbuffers_payload p) ∧
  (validate_flatbuffers_payload p = Ok tt ↔
    (transparent p = None ∨ args p = None ∧ kwargs p = None) ∧
    argument_ok 4 (args p) ∧ argument_ok 5 (kwargs p)).
Proof.
  intros Hb. unfold validate_flatbuffers_payload.
  assert (∀ o root, (∀ b, o = Some b → bytes_ok b) →
    let r := match o with Some b => validate b root false | None => Ok tt end in
    returns r ∧ (r = Ok tt ↔ argument_ok root o)) as Ho.
  { intros [b|] root Hok; [by apply validate_exact_lem, Hok|done]. }
  destruct (Ho (args p) 4) as [Hr1 Hi1]; [naive_solver|].
  destruct (Ho (kwargs p) 5) as [Hr2 Hi2]; [naive_solver|].
  unfold is_Some. destruct (bool_decide _ && _) eqn:E.
  - split; [done|]. split; [done|]. intros [Hm _]. exfalso.
    apply andb_true_iff in E as [E1%bool_decide_eq_true E2].
    destruct E1 as [t Ht], Hm as [Hm|[Ha Hk]]; [congruence|].
    rewrite Ha, Hk in E2. apply orb_true_iff in E2 as [[? ?]%bool_decide_eq_true|[? ?]%bool_decide_eq_true]; done.
  - assert (transparent p = None ∨ args p = None ∧ kwargs p = None) as Hmix.
    { apply andb_false_iff in E as [E|[E E']%orb_false_iff].
      - left. apply bool_decide_eq_false in E. by apply eq_None_not_Some.
      - right. by apply bool_decide_eq_false, eq_None_not_Some in E, E'. }
    simpl. set (r1 := match args p with Some _ => _ | None => _ end) in *.
    set (r2 := match kwargs p with Some _ => _ | None => _ end) in *.
    destruct r1 as [[]|e1| |], r2 as [[]|e2| |]; simpl in *; naive_solver.
Qed.

(** [{"a": [1, -1]}], and a map with the key ["a"] twice. *)
Definition demo_kwargs : list Z := [0xA1; 0x61; 0x61; 0x82; 0x01; 0x20].
Definition demo_duplicate : list Z := [0xA2; 0x61; 0x61; 0x01; 0x7F; 0x61; 0x61; 0xFF; 0x02].

Lemma cbor_validate_exact_witness :
  container_ok false 5 demo_kwargs ∧ ¬ container_ok false 5 demo_duplicate.
Proof.
  split.
  - apply (cbor_validate_exact demo_kwargs 5 false); [|vm_compute; reflexivity].
    repeat (apply Forall_cons_2; [unfold u8_ok; lia|]). apply Forall_nil_2.
  - intros H. apply (cbor_validate_exact demo_duplicate 5 false) in H; [vm_compute in H; discriminate H|].
    repeat (apply Forall_cons_2; [unfold u8_ok; lia|]). apply Forall_nil_2.
Defined.

Lemma validate_flatbuffers_payload_exact_witness :
  validate_flatbuffers_payload (mkPayload None (Some demo_kwargs) None) = Ok tt
  ∧ argument_ok 5 (Some demo_kwargs).
Proof.
  assert (validate_flatbuffers_payload (mkPayload None (Some demo_kwargs) None) = Ok tt) as H
    by (vm_compute; reflexivity).
  split; [exact H|].
  apply (validate_flatbuffers_payload_exact (mkPayload None (Some demo_kwargs) None)) in H as (_&_&H);
    [exact H|].
  intros b [Hb|Hb]; [discriminate Hb|]. injection Hb as <-.
  repeat (apply Forall_cons_2; [unfold u8_ok; lia|]). apply Forall_nil_2.
Defined.
