(* ===== verification/FbSchema.v ===== *)
(** * The FlatBuffers schema

    [flatbuffers_schema.rs] of [ct_core/src/wamp]: the pinned WAMP schema as
    data, a list of tables with the fields of each, and the types of
    [flatbuffers_wire.rs] it is written in. *)
From S2P Require Import Prelude Bytes.

Inductive Kind : Type :=
  | KScalar | KString | KTable | KScalarVector | KStringVector | KTableVector | KUnion.

#[global] Instance Kind_eq_dec : EqDecision Kind.
Proof. solve_decision. Defined.

Record FieldSpec : Type := mkField {
  fs_name : string;
  fs_kind : Kind;
  fs_width : Z;
  fs_required : bool;
  fs_reference : Z;
  fs_values : list Z;
  fs_wamp_integer : bool;
  fs_default : Z;
}.

Record TableSpec : Type := mkTableSpec {
  ts_name : string;
  ts_fields : list FieldSpec;
}.

(** ** The tables *)
Definition table_Map : TableSpec :=
  mkTableSpec "Map" [
    mkField "key" KString 4 true 0 [] false 0;
    mkField "value" KString 4 false 0 [] false 0].

Definition table_Void : TableSpec := mkTableSpec "Void" [].

Definition table_Principal : TableSpec :=
  mkTableSpec "Principal" [
    mkField "session" KScalar 8 false 0 [] true 0;
    mkField "authid" KString 4 false 0 [] false 0;
    mkField "authrole" KString 4 false 0 [] false 0].

Definition table_BrokerFeatures : TableSpec :=
  mkTableSpec "BrokerFeatures" [
    mkField "publisher_identification" KScalar 1 false 0 [0; 1] false 0;
    mkField "publisher_exclusion" KScalar 1 false 0 [0; 1] false 0;
    mkField "subscriber_blackwhite_listing" KScalar 1 false 0 [0; 1] false 0;
    mkField "pattern_based_subscription" KScalar 1 false 0 [0; 1] false 0;
    mkField "publication_trustlevels" KScalar 1 false 0 [0; 1] false 0;
    mkField "subscription_revocation" KScalar 1 false 0 [0; 1] false 0;
    mkField "session_meta_api" KScalar 1 false 0 [0; 1] false 0;
    mkField "subscription_meta_api" KScalar 1 false 0 [0; 1] false 0;
    mkField "event_retention" KScalar 1 false 0 [0; 1] false 0;
    mkField "event_history" KScalar 1 false 0 [0; 1] false 0;
    mkField "acknowledge_event_received" KScalar 1 false 0 [0; 1] false 0;
    mkField "acknowledge_subscriber_received" KScalar 1 false 0 [0; 1] false 0;
    mkField "payload_transparency" KScalar 1 false 0 [0; 1] false 0;
    mkField "payload_encryption_cryptobox" KScalar 1 false 0 [0; 1] false 0].

Definition table_PublisherFeatures : TableSpec :=
  mkTableSpec "PublisherFeatures" [
    mkField "publisher_identification" KScalar 1 false 0 [0; 1] false 0;
    mkField "publisher_exclusion" KScalar 1 false 0 [0; 1] false 0;
    mkField "subscriber_blackwhite_listing" KScalar 1 false 0 [0; 1] false 0;
    mkField "acknowledge_event_received" KScalar 1 false 0 [0; 1] false 0;
    mkField "payload_transparency" KScalar 1 false 0 [0; 1] false 0;
    mkField "payload_encryption_cryptobox" KScalar 1 false 0 [0; 1] false 0].

Definition table_SubscriberFeatures : TableSpec :=
  mkTableSpec "SubscriberFeatures" [
    mkField "publisher_identification" KScalar 1 false 0 [0; 1] false 0;
    mkField "pattern_based_subscription" KScalar 1 false 0 [0; 1] false 0;
    mkField "publication_trustlevels" KScalar 1 false 0 [0; 1] false 0;
    mkField "subscription_revocation" KScalar 1 false 0 [0; 1] false 0;
    mkField "event_history" KScalar 1 false 0 [0; 1] false 0;
    mkField "acknowledge_subscriber_received" KScalar 1 false 0 [0; 1] false 0;
    mkField "payload_transparency" KScalar 1 false 0 [0; 1] false 0;
    mkField "payload_encryption_cryptobox" KScalar 1 false 0 [0; 1] false 0].

Definition table_DealerFeatures : TableSpec :=
  mkTableSpec "DealerFeatures" [
    mkField "caller_identification" KScalar 1 false 0 [0; 1] false 0;
    mkField "call_trustlevels" KScalar 1 false 0 [0; 1] false 0;
    mkField "call_timeout" KScalar 1 false 0 [0; 1] false 0;
    mkField "call_canceling" KScalar 1 false 0 [0; 1] false 0;
    mkField "progressive_call_results" KScalar 1 false 0 [0; 1] false 0;
    mkField "registration_revocation" KScalar 1 false 0 [0; 1] false 0;
    mkField "pattern_based_registration" KScalar 1 false 0 [0; 1] false 0;
    mkField "shared_registration" KScalar 1 false 0 [0; 1] false 0;
    mkField "session_meta_api" KScalar 1 false 0 [0; 1] false 0;
    mkField "registration_meta_api" KScalar 1 false 0 [0; 1] false 0;
    mkField "testament_meta_api" KScalar 1 false 0 [0; 1] false 0;
    mkField "payload_transparency" KScalar 1 false 0 [0; 1] false 0;
    mkField "payload_encryption_cryptobox" KScalar 1 false 0 [0; 1] false 0].

Definition table_CallerFeatures : TableSpec :=
  mkTableSpec "CallerFeatures" [
    mkField "caller_identification" KScalar 1 false 0 [0; 1] false 0;
    mkField "call_timeout" KScalar 1 false 0 [0; 1] false 0;
    mkField "call_canceling" KScalar 1 false 0 [0; 1] false 0;
    mkField "progressive_call_results" KScalar 1 false 0 [0; 1] false 0;
    mkField "payload_transparency" KScalar 1 false 0 [0; 1] false 0;
    mkField "payload_encryption_cryptobox" KScalar 1 false 0 [0; 1] false 0].

Definition table_CalleeFeatures : TableSpec :=
  mkTableSpec "CalleeFeatures" [
    mkField "caller_identification" KScalar 1 false 0 [0; 1] false 0;
    mkField "call_trustlevels" KScalar 1 false 0 [0; 1] false 0;
    mkField "call_timeout" KScalar 1 false 0 [0; 1] false 0;
    mkField "call_canceling" KScalar 1 false 0 [0; 1] false 0;
    mkField "progressive_call_results" KScalar 1 false 0 [0; 1] false 0;
    mkField "registration_revocation" KScalar 1 false 0 [0; 1] false 0;
    mkField "pattern_based_registration" KScalar 1 false 0 [0; 1] false 0;
    mkField "shared_registration" KScalar 1 false 0 [0; 1] false 0;
    mkField "payload_transparency" KScalar 1 false 0 [0; 1] false 0;
    mkField "payload_encryption_cryptobox" KScalar 1 false 0 [0; 1] false 0].

Definition table_ClientRoles : TableSpec :=
  mkTableSpec "ClientRoles" [
    mkField "publisher" KTable 4 false 4 [] false 0;
    mkField "subscriber" KTable 4 false 5 [] false 0;
    mkField "caller" KTable 4 false 7 [] false 0;
    mkField "callee" KTable 4 false 8 [] false 0].

Definition table_RouterRoles : TableSpec :=
  mkTableSpec "RouterRoles" [
    mkField "broker" KTable 4 false 3 [] false 0;
    mkField "dealer" KTable 4 false 6 [] false 0].

Definition table_AuthTicketRequest : TableSpec := mkTableSpec "AuthTicketRequest" [].

Definition table_AuthTicketChallenge : TableSpec := mkTableSpec "AuthTicketChallenge" [].

Definition table_AuthTicketWelcome : TableSpec := mkTableSpec "AuthTicketWelcome" [].

Definition table_AuthCraRequest : TableSpec := mkTableSpec "AuthCraRequest" [].

Definition table_AuthCraChallenge : TableSpec :=
  mkTableSpec "AuthCraChallenge" [
    mkField "challenge" KString 4 true 0 [] false 0;
    mkField "salt" KString 4 false 0 [] false 0;
    mkField "iterations" KScalar 4 false 0 [] false 0;
    mkField "keylen" KScalar 1 false 0 [] false 0].

Definition table_AuthCraWelcome : TableSpec := mkTableSpec "AuthCraWelcome" [].

Definition table_AuthScramRequest : TableSpec :=
  mkTableSpec "AuthScramRequest" [
    mkField "nonce" KString 4 true 0 [] false 0;
    mkField "channel_binding" KScalar 1 false 0 [0; 1; 2; 3; 4] false 0].

Definition table_AuthScramChallenge : TableSpec :=
  mkTableSpec "AuthScramChallenge" [
    mkField "nonce" KString 4 true 0 [] false 0;
    mkField "salt" KString 4 true 0 [] false 0;
    mkField "kdf" KScalar 1 false 0 [0; 1; 2] false 0;
    mkField "iterations" KScalar 4 false 0 [] false 0;
    mkField "memory" KScalar 4 false 0 [] false 0;
    mkField "channel_binding" KScalar 1 false 0 [0; 1; 2; 3; 4] false 0].

Definition table_AuthScramWelcome : TableSpec :=
  mkTableSpec "AuthScramWelcome" [
    mkField "verifier" KString 4 false 0 [] false 0].

Definition table_AuthCryptosignRequest : TableSpec :=
  mkTableSpec "AuthCryptosignRequest" [
    mkField "pubkey" KString 4 true 0 [] false 0;
    mkField "channel_binding" KScalar 1 false 0 [0; 1; 2; 3; 4] false 0].

Definition table_AuthCryptosignChallenge : TableSpec :=
  mkTableSpec "AuthCryptosignChallenge" [
    mkField "channel_binding" KScalar 1 false 0 [0; 1; 2; 3; 4] false 0].

Definition table_AuthCryptosignWelcome : TableSpec := mkTableSpec "AuthCryptosignWelcome" [].

Definition table_HelloNew : TableSpec :=
  mkTableSpec "HelloNew" [
    mkField "roles" KTable 4 true 9 [] false 0;
    mkField "realm" KString 4 false 0 [] false 0;
    mkField "authid" KString 4 false 0 [] false 0;
    mkField "authrole" KString 4 false 0 [] false 0;
    mkField "authmode" KScalar 1 false 0 [0; 1] false 0;
    mkField "authfactor1_type" KScalar 1 false 0 [0; 1; 2; 3; 4] false 0;
    mkField "authfactor1" KUnion 4 false 0 [(-1); 11; 14; 17; 20] false 0;
    mkField "authfactor2_type" KScalar 1 false 0 [0; 1; 2; 3; 4] false 0;
    mkField "authfactor2" KUnion 4 false 0 [(-1); 11; 14; 17; 20] false 0;
    mkField "authfactor3_type" KScalar 1 false 0 [0; 1; 2; 3; 4] false 0;
    mkField "authfactor3" KUnion 4 false 0 [(-1); 11; 14; 17; 20] false 0;
    mkField "resumable" KScalar 1 false 0 [0; 1] false 0;
    mkField "resume_session" KScalar 8 false 0 [] true 0;
    mkField "resume_token" KString 4 false 0 [] false 0].

Definition table_Hello : TableSpec :=
  mkTableSpec "Hello" [
    mkField "session" KScalar 8 false 0 [] true 0;
    mkField "roles" KTable 4 true 9 [] false 0;
    mkField "realm" KString 4 false 0 [] false 0;
    mkField "authmethods" KScalarVector 1 false 0 [0; 1; 2; 3; 4] false 0;
    mkField "authid" KString 4 false 0 [] false 0;
    mkField "authrole" KString 4 false 0 [] false 0;
    mkField "authextra" KTable 4 false 0 [] false 0;
    mkField "resumable" KScalar 1 false 0 [0; 1] false 0;
    mkField "resume_session" KScalar 8 false 0 [] true 0;
    mkField "resume_token" KString 4 false 0 [] false 0].

Definition table_Welcome : TableSpec :=
  mkTableSpec "Welcome" [
    mkField "session" KScalar 8 false 0 [] true 0;
    mkField "roles" KTable 4 true 10 [] false 0;
    mkField "realm" KString 4 true 0 [] false 0;
    mkField "authid" KString 4 true 0 [] false 0;
    mkField "authrole" KString 4 true 0 [] false 0;
    mkField "authmethod" KScalar 1 false 0 [0; 1; 2; 3; 4] false 0;
    mkField "authprovider" KString 4 false 0 [] false 0;
    mkField "authextra" KTable 4 false 0 [] false 0;
    mkField "resumed" KScalar 1 false 0 [0; 1] false 0;
    mkField "resumable" KScalar 1 false 0 [0; 1] false 0;
    mkField "resume_token" KString 4 false 0 [] false 0].

Definition table_Abort : TableSpec :=
  mkTableSpec "Abort" [
    mkField "session" KScalar 8 false 0 [] true 0;
    mkField "reason" KString 4 true 0 [] false 0;
    mkField "message" KString 4 false 0 [] false 0].

Definition table_Challenge : TableSpec :=
  mkTableSpec "Challenge" [
    mkField "session" KScalar 8 false 0 [] true 0;
    mkField "method" KScalar 1 false 0 [0; 1; 2; 3; 4] false 0;
    mkField "extra" KTable 4 false 0 [] false 0;
    mkField "method_name" KString 4 false 0 [] false 0].

Definition table_Authenticate : TableSpec :=
  mkTableSpec "Authenticate" [
    mkField "session" KScalar 8 false 0 [] true 0;
    mkField "signature" KString 4 true 0 [] false 0;
    mkField "extra" KTable 4 false 0 [] false 0].

Definition table_Goodbye : TableSpec :=
  mkTableSpec "Goodbye" [
    mkField "session" KScalar 8 false 0 [] true 0;
    mkField "reason" KString 4 true 0 [] false 0;
    mkField "message" KString 4 false 0 [] false 0;
    mkField "resumable" KScalar 1 false 0 [0; 1] false 0].

Definition table_Error : TableSpec :=
  mkTableSpec "Error" [
    mkField "session" KScalar 8 false 0 [] true 0;
    mkField "request_type" KScalar 2 false 0 [0; 1; 2; 3; 4; 5; 6; 8; 16; 17; 32; 33; 34; 35; 36; 37; 48; 49; 50; 64; 65; 66; 67; 68; 69; 70] false 0;
    mkField "request" KScalar 8 false 0 [] true 0;
    mkField "error" KString 4 true 0 [] false 0;
    mkField "args" KScalarVector 1 false 0 [] false 0;
    mkField "kwargs" KScalarVector 1 false 0 [] false 0;
    mkField "payload" KScalarVector 1 false 0 [] false 0;
    mkField "ppt_scheme" KScalar 1 false 0 [0; 1; 2; 3; 4] false 0;
    mkField "ppt_serializer" KScalar 1 false 0 [0; 1; 2; 3; 4; 5; 6; 7] false 0;
    mkField "ppt_cipher" KScalar 1 false 0 [0; 1; 2] false 0;
    mkField "ppt_keyid" KString 4 false 0 [] false 0;
    mkField "forward_for" KTableVector 4 false 2 [] false 0].

Definition table_Subscribe : TableSpec :=
  mkTableSpec "Subscribe" [
    mkField "session" KScalar 8 false 0 [] true 0;
    mkField "request" KScalar 8 false 0 [] true 0;
    mkField "topic" KString 4 true 0 [] false 0;
    mkField "match" KScalar 1 false 0 [0; 1; 2] false 0;
    mkField "get_retained" KScalar 1 false 0 [0; 1] false 0].

Definition table_Subscribed : TableSpec :=
  mkTableSpec "Subscribed" [
    mkField "session" KScalar 8 false 0 [] true 0;
    mkField "request" KScalar 8 false 0 [] true 0;
    mkField "subscription" KScalar 8 false 0 [] true 0].

Definition table_Unsubscribe : TableSpec :=
  mkTableSpec "Unsubscribe" [
    mkField "session" KScalar 8 false 0 [] true 0;
    mkField "request" KScalar 8 false 0 [] true 0;
    mkField "subscription" KScalar 8 false 0 [] true 0].

Definition table_Unsubscribed : TableSpec :=
  mkTableSpec "Unsubscribed" [
    mkField "session" KScalar 8 false 0 [] true 0;
    mkField "request" KScalar 8 false 0 [] true 0;
    mkField "subscription" KScalar 8 false 0 [] true 0;
    mkField "reason" KString 4 false 0 [] false 0].

Definition table_Publish : TableSpec :=
  mkTableSpec "Publish" [
    mkField "session" KScalar 8 false 0 [] true 0;
    mkField "request" KScalar 8 false 0 [] true 0;
    mkField "topic" KString 4 true 0 [] false 0;
    mkField "args" KScalarVector 1 false 0 [] false 0;
    mkField "kwargs" KScalarVector 1 false 0 [] false 0;
    mkField "payload" KScalarVector 1 false 0 [] false 0;
    mkField "ppt_scheme" KScalar 1 false 0 [0; 1; 2; 3; 4] false 0;
    mkField "ppt_serializer" KScalar 1 false 0 [0; 1; 2; 3; 4; 5; 6; 7] false 0;
    mkField "ppt_cipher" KScalar 1 false 0 [0; 1; 2] false 0;
    mkField "ppt_keyid" KString 4 false 0 [] false 0;
    mkField "acknowledge" KScalar 1 false 0 [0; 1] false 0;
    mkField "exclude_me" KScalar 1 false 0 [0; 1] false 1;
    mkField "exclude" KScalarVector 8 false 0 [] true 0;
    mkField "exclude_authid" KStringVector 4 false 0 [] false 0;
    mkField "exclude_authrole" KStringVector 4 false 0 [] false 0;
    mkField "eligible" KScalarVector 8 false 0 [] true 0;
    mkField "eligible_authid" KStringVector 4 false 0 [] false 0;
    mkField "eligible_authrole" KStringVector 4 false 0 [] false 0;
    mkField "retain" KScalar 1 false 0 [0; 1] false 0;
    mkField "transaction_hash" KString 4 false 0 [] false 0;
    mkField "forward_for" KTableVector 4 false 2 [] false 0].

Definition table_Published : TableSpec :=
  mkTableSpec "Published" [
    mkField "session" KScalar 8 false 0 [] true 0;
    mkField "request" KScalar 8 false 0 [] true 0;
    mkField "publication" KScalar 8 false 0 [] true 0].

Definition table_Event : TableSpec :=
  mkTableSpec "Event" [
    mkField "session" KScalar 8 false 0 [] true 0;
    mkField "subscription" KScalar 8 false 0 [] true 0;
    mkField "publication" KScalar 8 false 0 [] true 0;
    mkField "args" KScalarVector 1 false 0 [] false 0;
    mkField "kwargs" KScalarVector 1 false 0 [] false 0;
    mkField "payload" KScalarVector 1 false 0 [] false 0;
    mkField "ppt_scheme" KScalar 1 false 0 [0; 1; 2; 3; 4] false 0;
    mkField "ppt_serializer" KScalar 1 false 0 [0; 1; 2; 3; 4; 5; 6; 7] false 0;
    mkField "ppt_cipher" KScalar 1 false 0 [0; 1; 2] false 0;
    mkField "ppt_keyid" KString 4 false 0 [] false 0;
    mkField "publisher" KScalar 8 false 0 [] true 0;
    mkField "publisher_authid" KString 4 false 0 [] false 0;
    mkField "publisher_authrole" KString 4 false 0 [] false 0;
    mkField "topic" KString 4 false 0 [] false 0;
    mkField "retained" KScalar 1 false 0 [0; 1] false 0;
    mkField "transaction_hash" KString 4 false 0 [] false 0;
    mkField "acknowledge" KScalar 1 false 0 [0; 1] false 0;
    mkField "forward_for" KTableVector 4 false 2 [] false 0].

Definition table_EventReceived : TableSpec :=
  mkTableSpec "EventReceived" [
    mkField "session" KScalar 8 false 0 [] true 0;
    mkField "publication" KScalar 8 false 0 [] true 0;
    mkField "forward_for" KTableVector 4 false 2 [] false 0].

Definition table_Call : TableSpec :=
  mkTableSpec "Call" [
    mkField "session" KScalar 8 false 0 [] true 0;
    mkField "request" KScalar 8 false 0 [] true 0;
    mkField "procedure" KString 4 true 0 [] false 0;
    mkField "args" KScalarVector 1 false 0 [] false 0;
    mkField "kwargs" KScalarVector 1 false 0 [] false 0;
    mkField "payload" KScalarVector 1 false 0 [] false 0;
    mkField "ppt_scheme" KScalar 1 false 0 [0; 1; 2; 3; 4] false 0;
    mkField "ppt_serializer" KScalar 1 false 0 [0; 1; 2; 3; 4; 5; 6; 7] false 0;
    mkField "ppt_cipher" KScalar 1 false 0 [0; 1; 2] false 0;
    mkField "ppt_keyid" KString 4 false 0 [] false 0;
    mkField "timeout" KScalar 4 false 0 [] false 0;
    mkField "receive_progress" KScalar 1 false 0 [0; 1] false 0;
    mkField "transaction_hash" KString 4 false 0 [] false 0;
    mkField "caller" KScalar 8 false 0 [] true 0;
    mkField "caller_authid" KString 4 false 0 [] false 0;
    mkField "caller_authrole" KString 4 false 0 [] false 0;
    mkField "forward_for" KTableVector 4 false 2 [] false 0].

Definition table_Cancel : TableSpec :=
  mkTableSpec "Cancel" [
    mkField "session" KScalar 8 false 0 [] true 0;
    mkField "request" KScalar 8 false 0 [] true 0;
    mkField "mode" KScalar 1 false 0 [0; 1; 2] false 0;
    mkField "forward_for" KTableVector 4 false 2 [] false 0].

Definition table_Result : TableSpec :=
  mkTableSpec "Result" [
    mkField "session" KScalar 8 false 0 [] true 0;
    mkField "request" KScalar 8 false 0 [] true 0;
    mkField "args" KScalarVector 1 false 0 [] false 0;
    mkField "kwargs" KScalarVector 1 false 0 [] false 0;
    mkField "payload" KScalarVector 1 false 0 [] false 0;
    mkField "ppt_scheme" KScalar 1 false 0 [0; 1; 2; 3; 4] false 0;
    mkField "ppt_serializer" KScalar 1 false 0 [0; 1; 2; 3; 4; 5; 6; 7] false 0;
    mkField "ppt_cipher" KScalar 1 false 0 [0; 1; 2] false 0;
    mkField "ppt_keyid" KString 4 false 0 [] false 0;
    mkField "progress" KScalar 1 false 0 [0; 1] false 0;
    mkField "callee" KScalar 8 false 0 [] true 0;
    mkField "callee_authid" KString 4 false 0 [] false 0;
    mkField "callee_authrole" KString 4 false 0 [] false 0;
    mkField "forward_for" KTableVector 4 false 2 [] false 0].

Definition table_Register : TableSpec :=
  mkTableSpec "Register" [
    mkField "session" KScalar 8 false 0 [] true 0;
    mkField "request" KScalar 8 false 0 [] true 0;
    mkField "procedure" KString 4 true 0 [] false 0;
    mkField "match" KScalar 1 false 0 [0; 1; 2] false 0;
    mkField "invoke" KScalar 1 false 0 [0; 1; 2; 3; 4] false 0;
    mkField "concurrency" KScalar 2 false 0 [] false 0;
    mkField "force_reregister" KScalar 1 false 0 [0; 1] false 0].

Definition table_Registered : TableSpec :=
  mkTableSpec "Registered" [
    mkField "session" KScalar 8 false 0 [] true 0;
    mkField "request" KScalar 8 false 0 [] true 0;
    mkField "registration" KScalar 8 false 0 [] true 0].

Definition table_Unregister : TableSpec :=
  mkTableSpec "Unregister" [
    mkField "session" KScalar 8 false 0 [] true 0;
    mkField "request" KScalar 8 false 0 [] true 0;
    mkField "registration" KScalar 8 false 0 [] true 0].

Definition table_Unregistered : TableSpec :=
  mkTableSpec "Unregistered" [
    mkField "session" KScalar 8 false 0 [] true 0;
    mkField "request" KScalar 8 false 0 [] true 0;
    mkField "registration" KScalar 8 false 0 [] true 0;
    mkField "reason" KString 4 false 0 [] false 0].

Definition table_Invocation : TableSpec :=
  mkTableSpec "Invocation" [
    mkField "session" KScalar 8 false 0 [] true 0;
    mkField "request" KScalar 8 false 0 [] true 0;
    mkField "registration" KScalar 8 false 0 [] true 0;
    mkField "args" KScalarVector 1 false 0 [] false 0;
    mkField "kwargs" KScalarVector 1 false 0 [] false 0;
    mkField "payload" KScalarVector 1 false 0 [] false 0;
    mkField "ppt_scheme" KScalar 1 false 0 [0; 1; 2; 3; 4] false 0;
    mkField "ppt_serializer" KScalar 1 false 0 [0; 1; 2; 3; 4; 5; 6; 7] false 0;
    mkField "ppt_cipher" KScalar 1 false 0 [0; 1; 2] false 0;
    mkField "ppt_keyid" KString 4 false 0 [] false 0;
    mkField "procedure" KString 4 false 0 [] false 0;
    mkField "timeout" KScalar 4 false 0 [] false 0;
    mkField "receive_progress" KScalar 1 false 0 [0; 1] false 0;
    mkField "transaction_hash" KString 4 false 0 [] false 0;
    mkField "caller" KScalar 8 false 0 [] true 0;
    mkField "caller_authid" KString 4 false 0 [] false 0;
    mkField "caller_authrole" KString 4 false 0 [] false 0;
    mkField "forward_for" KTableVector 4 false 2 [] false 0].

Definition table_Interrupt : TableSpec :=
  mkTableSpec "Interrupt" [
    mkField "session" KScalar 8 false 0 [] true 0;
    mkField "request" KScalar 8 false 0 [] true 0;
    mkField "mode" KScalar 1 false 0 [0; 1; 2] false 1;
    mkField "reason" KString 4 false 0 [] false 0;
    mkField "forward_for" KTableVector 4 false 2 [] false 0].

Definition table_Yield : TableSpec :=
  mkTableSpec "Yield" [
    mkField "session" KScalar 8 false 0 [] true 0;
    mkField "request" KScalar 8 false 0 [] true 0;
    mkField "args" KScalarVector 1 false 0 [] false 0;
    mkField "kwargs" KScalarVector 1 false 0 [] false 0;
    mkField "payload" KScalarVector 1 false 0 [] false 0;
    mkField "ppt_scheme" KScalar 1 false 0 [0; 1; 2; 3; 4] false 0;
    mkField "ppt_serializer" KScalar 1 false 0 [0; 1; 2; 3; 4; 5; 6; 7] false 0;
    mkField "ppt_cipher" KScalar 1 false 0 [0; 1; 2] false 0;
    mkField "ppt_keyid" KString 4 false 0 [] false 0;
    mkField "progress" KScalar 1 false 0 [0; 1] false 0;
    mkField "callee" KScalar 8 false 0 [] true 0;
    mkField "callee_authid" KString 4 false 0 [] false 0;
    mkField "callee_authrole" KString 4 false 0 [] false 0;
    mkField "forward_for" KTableVector 4 false 2 [] false 0].

Definition table_Message : TableSpec :=
  mkTableSpec "Message" [
    mkField "msg_type" KScalar 1 false 0 [0; 1; 2; 3; 4; 5; 6; 7; 8; 9; 10; 11; 12; 13; 14; 15; 16; 17; 18; 19; 20; 21; 22; 23; 24; 25; 26] false 0;
    mkField "msg" KUnion 4 true 0 [(-1); 24; 25; 26; 27; 28; 29; 30; 35; 36; 31; 32; 33; 34; 37; 38; 39; 40; 41; 42; 43; 44; 45; 46; 47; 48; 50] false 0;
    mkField "metadata" KScalarVector 1 false 0 [] false 0].

Definition table_Heartbeat : TableSpec :=
  mkTableSpec "Heartbeat" [
    mkField "ping" KScalar 8 false 0 [] true 0;
    mkField "incoming" KScalar 8 false 0 [] true 0;
    mkField "outgoing" KScalar 8 false 0 [] true 0;
    mkField "presence" KScalar 1 false 0 [] false 7].

Definition ROOT : Z := 49.
Definition TABLES : list TableSpec :=
  [table_Map; table_Void; table_Principal; table_BrokerFeatures; table_PublisherFeatures;
   table_SubscriberFeatures; table_DealerFeatures; table_CallerFeatures; table_CalleeFeatures;
   table_ClientRoles; table_RouterRoles; table_AuthTicketRequest; table_AuthTicketChallenge;
   table_AuthTicketWelcome; table_AuthCraRequest; table_AuthCraChallenge; table_AuthCraWelcome;
   table_AuthScramRequest; table_AuthScramChallenge; table_AuthScramWelcome;
   table_AuthCryptosignRequest; table_AuthCryptosignChallenge; table_AuthCryptosignWelcome;
   table_HelloNew; table_Hello; table_Welcome; table_Abort; table_Challenge; table_Authenticate;
   table_Goodbye; table_Error; table_Subscribe; table_Subscribed; table_Unsubscribe;
   table_Unsubscribed; table_Publish; table_Published; table_Event; table_EventReceived;
   table_Call; table_Cancel; table_Result; table_Register; table_Registered; table_Unregister;
   table_Unregistered; table_Invocation; table_Interrupt; table_Yield; table_Message;
   table_Heartbeat].

(** [TABLES.get(reference)] *)
Definition index_ok (reference : Z) : bool := (0 <=? reference) && (reference <? zlen TABLES).
Definition table_spec (reference : Z) : option TableSpec :=
  if index_ok reference then TABLES !! Z.to_nat reference else None.

(** ** What the reader relies on *)
Definition width_ok (f : FieldSpec) : bool :=
  bool_decide (fs_width f ∈ [1; 2; 4; 8]).
Definition default_ok (f : FieldSpec) : bool :=
  (0 <=? fs_default f) && (fs_default f <? 2 ^ (8 * fs_width f)) && (fs_default f <=? 2 ^ 53) &&
  (bool_decide (fs_values f = []) || negb (bool_decide (fs_kind f = KScalar)) ||
   bool_decide (fs_default f ∈ fs_values f)).
Definition reference_ok (f : FieldSpec) : bool :=
  index_ok (fs_reference f) &&
  (negb (bool_decide (fs_kind f = KUnion)) || forallb (λ v, (v <? 0) || index_ok v) (fs_values f)).
Definition field_ok (f : FieldSpec) : bool := width_ok f && default_ok f && reference_ok f.
Definition names_unique (t : TableSpec) : bool := bool_decide (NoDup (fs_name <$> ts_fields t)).

Lemma TABLES_ok : forallb (λ t, forallb field_ok (ts_fields t) && names_unique t) TABLES = true.
Proof. vm_compute. reflexivity. Qed.

Lemma index_ok_Some reference : index_ok reference = true ↔ is_Some (table_spec reference).
Proof.
  unfold table_spec. destruct (index_ok reference) eqn:E; [|split; [done|by intros []]].
  split; [intros _|done]. apply andb_true_iff in E as [H1 H2].
  apply lookup_lt_is_Some. unfold zlen in H2. lia.
Qed.

Lemma table_spec_ok reference t : table_spec reference = Some t →
  Forall (λ f, field_ok f = true) (ts_fields t) ∧ NoDup (fs_name <$> ts_fields t).
Proof.
  unfold table_spec. destruct (index_ok reference); [|done]. intros Ht%list_elem_of_lookup_2.
  pose proof TABLES_ok as H. rewrite forallb_forall in H.
  specialize (H t). rewrite <-list_elem_of_In in H. specialize (H Ht).
  apply andb_true_iff in H as [H1 H2]. unfold names_unique in H2. apply bool_decide_eq_true in H2.
  split; [|done]. apply Forall_forall. intros f Hf. rewrite forallb_forall in H1.
  apply H1. by apply list_elem_of_In.
Qed.
