(* ===== verification/FbWire.v ===== *)
(** * The FlatBuffers reader

    [read] of [ct_core/src/wamp/flatbuffers_wire.rs]: a bounded, schema-driven
    reader of a FlatBuffers buffer, which shares tables and strings that several
    offsets point to.  [plain_table] is the same format without the sharing and
    the budgets; the reader agrees with it. *)
From stdpp Require Import gmap.
From S2P Require Import Prelude Bytes Text WampTypes CborScanner FbSchema.

Definition MAX_BYTES : Z := 64 * 1024 * 1024.
Definition MAX_INTEGER : Z := 9007199254740992.

(** [Value], with a [BTreeMap] as its entries in key order. *)
Inductive fb_value : Type :=
  | FNull
  | FInteger (n : Z)
  | FText (s : str)
  | FBytes (bytes : list Z)
  | FTable (fields : list (string * fb_value))
  | FVector (vs : list fb_value).

Definition Fields : Type := list (string * fb_value).

Fixpoint fields_get (key : string) (fields : Fields) : option fb_value :=
  match fields with
  | [] => None
  | (k, v) :: fields => if String.eqb k key then Some v else fields_get key fields
  end.

(** [BTreeMap::insert] *)
Fixpoint fields_insert (key : string) (v : fb_value) (fields : Fields) : Fields :=
  match fields with
  | [] => [(key, v)]
  | (k, w) :: rest =>
      match String.compare key k with
      | Eq => (key, v) :: rest
      | Lt => (key, v) :: fields
      | Gt => (k, w) :: fields_insert key v rest
      end
  end.

(** ** Checked access to the bytes *)

(** Little-endian integers, and [as i64]. *)
Fixpoint le_value (l : list Z) : Z :=
  match l with
  | [] => 0
  | b :: l => b + 256 * le_value l
  end.
Definition as_signed (w n : Z) : Z := if n <? 2 ^ (w - 1) then n else n - 2 ^ w.

Definition range (bytes : list Z) (offset length alignment : Z) : outcome ParseError (list Z) :=
  if 2 ^ 64 <=? offset + length then Err (invalid "range")
  else if alignment =? 0 then Panic
  else if negb (offset mod alignment =? 0) then Err (invalid "alignment")
  else if zlen bytes <? offset + length then Err (invalid "range")
  else Ok (sub_bytes bytes offset (offset + length)).

Definition uint (bytes : list Z) (offset width : Z) : outcome ParseError Z :=
  data ← range bytes offset width width;
  if width =? 1 then match byte_at data 0 with Some b => Ok b | None => Panic end
  else if bool_decide (width ∈ [2; 4; 8]) then Ok (le_value data)
  else Err (invalid "scalar width").

Definition target (bytes : list Z) (offset : Z) : outcome ParseError Z :=
  relative ← uint bytes offset 4;
  if relative <? 4 then Err (invalid "non-forward offset")
  else if 2 ^ 64 <=? offset + relative then Err (invalid "offset")
  else _ ← range bytes (offset + relative) 4 4; Ok (offset + relative).

Definition scalar (bytes : list Z) (position : Z) (field : FieldSpec) : outcome ParseError Z :=
  value ← uint bytes position (fs_width field);
  if fs_wamp_integer field && (MAX_INTEGER <? value) then Err (invalid "WAMP integer")
  else if negb (bool_decide (fs_values field = [])) &&
          negb (bool_decide (as_signed 64 value ∈ fs_values field))
  then Err (invalid "enum value")
  else Ok value.

(** The header of a table: where its vtable is, and both sizes. *)
Definition table_header (bytes : list Z) (offset : Z) : outcome ParseError (Z * Z * Z) :=
  data ← range bytes offset 4 4;
  let signed := as_signed 32 (le_value data) in
  if offset - signed <? 0 then Err (invalid "vtable")
  else
    let vtable := offset - signed in
    vtable_size ← uint bytes vtable 2;
    object_size ← uint bytes (vtable + 2) 2;
    if (vtable_size <? 4) || negb (vtable_size mod 2 =? 0) || (object_size <? 4)
    then Err (invalid "table header")
    else
      _ ← range bytes vtable vtable_size 2;
      _ ← range bytes offset object_size 4;
      Ok (vtable, vtable_size, object_size).

(** Where a field is in its table: zero when absent. *)
Definition field_relative (bytes : list Z) (vtable vtable_size slot : Z) : outcome ParseError Z :=
  let entry := 4 + slot * 2 in
  if entry <? vtable_size then uint bytes (vtable + entry) 2 else Ok 0.

(** The table a union's discriminator names. *)
Definition union_target (field : FieldSpec) (union_tag : Z) : outcome ParseError Z :=
  if union_tag =? 0 then Err (invalid "union discriminator")
  else match fs_values field !! Z.to_nat union_tag with
  | Some target => if target <? 0 then Err (invalid "union discriminator") else Ok target
  | None => Err (invalid "union discriminator")
  end.

Definition child_reference (field : FieldSpec) (union_tag : Z) : outcome ParseError Z :=
  if bool_decide (fs_kind field = KUnion) then union_target field union_tag
  else Ok (fs_reference field).

Definition text_at (bytes : list Z) (offset length : Z) : outcome ParseError str :=
  let start := offset + 4 in
  data ← range bytes start (length + 1) 1;
  if negb (bool_decide (byte_at data length = Some 0)) then Err (invalid "string terminator")
  else match utf8_decode (take (Z.to_nat length) data) with
  | Some text => Ok text
  | None => Err (invalid "UTF-8")
  end.

(** ** The reader's state *)
Record Reader : Type := mkReader {
  rd_bytes : list Z;
  rd_tables : gmap (Z * Z) (Z * option Fields);
  rd_strings : gmap Z str;
  string_bytes : Z;
  elements : Z;
}.

(** A method of [Reader]. *)
Definition rd (A : Type) : Type := Reader → outcome ParseError (A * Reader).

#[global] Instance rd_ret : MRet rd := λ A a r, Ok (a, r).
#[global] Instance rd_bind : MBind rd := λ A B f m r, '(a, r) ← m r; f a r.

(** A method that reads the bytes only, and one that fails. *)
Definition rd_pure {A} (f : list Z → outcome ParseError A) : rd A := λ r,
  a ← f (rd_bytes r); Ok (a, r).
Definition rd_fail {A} (reason : string) : rd A := λ _, Err (invalid reason).
Definition rd_get {A} (f : Reader → A) : rd A := λ r, Ok (f r, r).

Definition set_tables (t : gmap (Z * Z) (Z * option Fields)) : rd unit := λ r,
  Ok (tt, mkReader (rd_bytes r) t (rd_strings r) (string_bytes r) (elements r)).
Definition set_strings (t : gmap Z str) : rd unit := λ r,
  Ok (tt, mkReader (rd_bytes r) (rd_tables r) t (string_bytes r) (elements r)).

Definition MAX_TABLES : Z := 10000.
Definition MAX_STRING_BYTES : Z := 1024 * 1024.
Definition MAX_ELEMENTS : Z := 1000000.

Definition charge_string (length : Z) : rd unit := λ r,
  if 2 ^ 64 <=? string_bytes r + length then Err (invalid "string budget")
  else if MAX_STRING_BYTES <? string_bytes r + length then Err (invalid "string budget")
  else Ok (tt, mkReader (rd_bytes r) (rd_tables r) (rd_strings r) (string_bytes r + length) (elements r)).

Definition charge_elements (length : Z) : rd unit := λ r,
  if 2 ^ 64 <=? elements r + length then Err (invalid "element budget")
  else if MAX_ELEMENTS <? elements r + length then Err (invalid "element budget")
  else Ok (tt, mkReader (rd_bytes r) (rd_tables r) (rd_strings r) (string_bytes r) (elements r + length)).

(** [string] *)
Definition read_string (offset : Z) : rd fb_value :=
  length ← rd_pure (λ b, uint b offset 4);
  _ ← charge_string length;
  strings ← rd_get rd_strings;
  match strings !! offset with
  | Some value => mret (FText value)
  | None =>
      text ← rd_pure (λ b, text_at b offset length);
      _ ← set_strings (<[offset := text]> strings);
      mret (FText text)
  end.

Section table.
(** [self.table(offset, reference, depth)] *)
Context (read_table : Z → Z → Z → rd (Z * Fields)).

Definition read_element (field : FieldSpec) (depth position : Z) : rd (Z * fb_value) :=
  match fs_kind field with
  | KScalarVector => value ← rd_pure (λ b, scalar b position field); mret (0, FInteger value)
  | KStringVector =>
      offset ← rd_pure (λ b, target b position);
      text ← read_string offset; mret (0, text)
  | KTableVector =>
      offset ← rd_pure (λ b, target b position);
      '(child_height, child) ← read_table offset (fs_reference field) (depth + 1);
      mret (child_height, FTable child)
  | _ => rd_fail "vector type"
  end.

(** The loop of [vector] from [index], for [count] more elements. *)
Fixpoint read_elements (count : nat) (field : FieldSpec) (depth start width index height : Z) :
    rd (Z * list fb_value) :=
  match count with
  | O => mret (height, [])
  | S count =>
      '(child_height, value) ← read_element field depth (start + index * width);
      '(height, output) ← read_elements count field depth start width (index + 1)
                            (height `max` child_height);
      mret (height, value :: output)
  end.

Definition vector_width (field : FieldSpec) : Z :=
  if bool_decide (fs_kind field = KScalarVector) then fs_width field else 4.

(** The length of a vector whose elements are all inside the buffer. *)
Definition vector_length (bytes : list Z) (offset : Z) (field : FieldSpec) : outcome ParseError Z :=
  length ← uint bytes offset 4;
  let width := vector_width field in
  if 2 ^ 64 <=? length * width then Err (invalid "vector length")
  else _ ← range bytes (offset + 4) (length * width) width; Ok length.

Definition is_byte_vector (field : FieldSpec) : bool :=
  bool_decide (fs_kind field = KScalarVector) && (vector_width field =? 1) &&
  bool_decide (fs_values field = []).

Definition read_vector (offset : Z) (field : FieldSpec) (depth : Z) : rd (Z * fb_value) :=
  length ← rd_pure (λ b, vector_length b offset field);
  let start := offset + 4 in
  if is_byte_vector field then
    bytes ← rd_get rd_bytes;
    mret (0, FBytes (sub_bytes bytes start (start + length)))
  else
    _ ← charge_elements length;
    '(height, output) ← read_elements (Z.to_nat length) field depth start (vector_width field) 0 0;
    mret (height, FVector output).

(** The value of a present field at [position]: its height, the value, and the
    union tag it leaves. *)
Definition read_present (field : FieldSpec) (depth position union_tag : Z) :
    rd (Z * fb_value * Z) :=
  match fs_kind field with
  | KScalar =>
      value ← rd_pure (λ b, scalar b position field);
      mret (0, FInteger value, if fs_width field =? 1 then value else 0)
  | KString =>
      offset ← rd_pure (λ b, target b position);
      text ← read_string offset; mret (0, text, union_tag)
  | KTable | KUnion =>
      child_ref ← rd_pure (λ _, child_reference field union_tag);
      offset ← rd_pure (λ b, target b position);
      '(child_height, child) ← read_table offset child_ref (depth + 1);
      mret (child_height + 1, FTable child, 0)
  | _ =>
      offset ← rd_pure (λ b, target b position);
      '(child_height, vector) ← read_vector offset field depth;
      mret (child_height + 1, vector, union_tag)
  end.

(** An absent field. *)
Definition absent_value (field : FieldSpec) (union_tag : Z) : outcome ParseError fb_value :=
  if fs_required field || (bool_decide (fs_kind field = KUnion) && negb (union_tag =? 0))
  then Err (invalid "missing required field")
  else Ok (if bool_decide (fs_kind field = KScalar) then FInteger (fs_default field) else FNull).

Definition field_width (field : FieldSpec) : Z :=
  if bool_decide (fs_kind field = KScalar) then fs_width field else 4.

Definition read_field (offset vtable vtable_size object_size depth slot : Z) (field : FieldSpec)
    (union_tag : Z) : rd (Z * fb_value * Z) :=
  relative ← rd_pure (λ b, field_relative b vtable vtable_size slot);
  if relative =? 0 then
    value ← rd_pure (λ _, absent_value field union_tag); mret (0, value, 0)
  else if (relative <? 4) || (object_size <? relative + field_width field)
  then rd_fail "field outside table"
  else read_present field depth (offset + relative) union_tag.

(** The loop over the fields of the schema. *)
Fixpoint read_fields (offset vtable vtable_size object_size depth slot : Z) (specs : list FieldSpec)
    (height union_tag : Z) (fields : Fields) : rd (Z * Fields) :=
  match specs with
  | [] => mret (height, fields)
  | field :: specs =>
      '(h, value, union_tag) ←
        read_field offset vtable vtable_size object_size depth slot field union_tag;
      read_fields offset vtable vtable_size object_size depth (slot + 1) specs
        (height `max` h) union_tag (fields_insert (fs_name field) value fields)
  end.

(** The header and the fields of a table. *)
Definition read_table_body (offset reference depth : Z) : rd (Z * Fields) :=
  '(vtable, vtable_size, object_size) ← rd_pure (λ b, table_header b offset);
  spec ← rd_pure (λ _, ok_or (invalid "table type") (table_spec reference));
  read_fields offset vtable vtable_size object_size depth 0 (ts_fields spec) 1 0 [].

(** A table not met before: marked as being read, then kept with its height. *)
Definition read_new_table (offset reference depth : Z) : rd (Z * Fields) :=
  tables ← rd_get rd_tables;
  if MAX_TABLES <=? Z.of_nat (size tables) then rd_fail "table limit"
  else
    _ ← set_tables (<[(offset, reference) := (0, None)]> tables);
    '(height, fields) ← read_table_body offset reference depth;
    tables ← rd_get rd_tables;
    _ ← set_tables (<[(offset, reference) := (height, Some fields)]> tables);
    mret (height, fields).
End table.

(** [table]: nested at most 64 deep. *)
Fixpoint read_table (fuel : nat) (offset reference depth : Z) : rd (Z * Fields) :=
  match fuel with
  | O => λ _, NoFuel
  | S fuel =>
      if 64 <? depth then rd_fail "depth limit"
      else
        tables ← rd_get rd_tables;
        match tables !! (offset, reference) with
        | Some (height, fields) =>
            if height =? 0 then rd_fail "cyclic table"
            else if 64 <? depth + height - 1 then rd_fail "depth limit"
            else match fields with Some fields => mret (height, fields) | None => λ _, Panic end
        | None => read_new_table (read_table fuel) offset reference depth
        end
  end.

Definition read_fuel : nat := 65.

Definition read (bytes : list Z) : outcome ParseError Fields :=
  if MAX_BYTES <? zlen bytes then Err (invalid "byte limit")
  else
    let reader := mkReader bytes ∅ ∅ 0 0 in
    root ← target bytes 0;
    '(_, fields, _) ← read_table read_fuel root ROOT 1 reader;
    Ok fields.

(** ** Access to the bytes never panics *)
Definition width_in (w : Z) : Prop := w ∈ [1; 2; 4; 8].

Lemma width_pos w : width_in w → 0 < w.
Proof. unfold width_in. rewrite !elem_of_cons, elem_of_nil. lia. Qed.

Lemma width_in_4 : width_in 4.
Proof. unfold width_in. set_solver. Qed.
Lemma width_in_2 : width_in 2.
Proof. unfold width_in. set_solver. Qed.

Lemma field_ok_width f : field_ok f = true → width_in (fs_width f).
Proof. intros [[H _]%andb_true_iff _]%andb_true_iff. by apply bool_decide_eq_true in H. Qed.

Lemma as_signed_range w n : 0 < w → 0 ≤ n < 2 ^ w → - 2 ^ (w - 1) ≤ as_signed w n < 2 ^ (w - 1).
Proof.
  intros Hw Hn. unfold as_signed. replace (2 ^ w) with (2 * 2 ^ (w - 1)) in *.
  - destruct (Z.ltb_spec n (2 ^ (w - 1))); lia.
  - rewrite <-Z.pow_succ_r by lia. f_equal. lia.
Qed.

Lemma le_value_bound l : bytes_ok l → 0 ≤ le_value l < 256 ^ zlen l.
Proof.
  induction 1 as [|b l Hb _ IH]; [done|]. simpl. rewrite zlen_cons.
  pose proof (zlen_nonneg l). rewrite Z.pow_add_r by lia. unfold u8_ok in Hb. lia.
Qed.

Section access.
Context (bytes : list Z) (Hbytes : bytes_ok bytes).

Lemma range_returns offset length alignment : 0 < alignment → returns (range bytes offset length alignment).
Proof.
  intros. unfold range. rewrite (proj2 (Z.eqb_neq alignment 0)) by lia. by repeat case_match.
Qed.

Lemma range_Ok offset length alignment data : 0 ≤ offset → 0 ≤ length →
  range bytes offset length alignment = Ok data →
  offset + length ≤ zlen bytes ∧ data = sub_bytes bytes offset (offset + length) ∧
  zlen data = length ∧ bytes_ok data.
Proof.
  intros Ho Hl. unfold range. repeat case_match; try done. intros [= <-].
  split_and!; [lia|done|rewrite zlen_sub_bytes by lia; lia|by apply sub_bytes_ok].
Qed.

Lemma uint_returns offset width : 0 ≤ offset → width_in width → returns (uint bytes offset width).
Proof.
  intros Ho Hw. pose proof (width_pos width Hw). unfold uint.
  apply returns_bind; [by apply range_returns|]. intros data Hd.
  apply range_Ok in Hd as (_ & _ & Hlen & _); [|lia..].
  destruct (Z.eqb_spec width 1) as [->|]; [|by case_match].
  destruct (byte_at data 0) eqn:E; [done|]. apply byte_at_None in E. lia.
Qed.

Lemma uint_Ok offset width v : 0 ≤ offset → 0 < width → uint bytes offset width = Ok v →
  0 ≤ v < 2 ^ (8 * width) ∧ offset + width ≤ zlen bytes.
Proof.
  intros Ho Hw H. unfold uint in H. apply bind_Ok_inv in H as (data & Hd & H).
  apply range_Ok in Hd as (? & _ & Hlen & Hok); [|lia..]. split; [|done].
  destruct (Z.eqb_spec width 1) as [->|].
  - destruct (byte_at data 0) eqn:E; simplify_eq. apply byte_at_ok in E; [|done]. exact E.
  - case_match; [|done]. injection H as <-. pose proof (le_value_bound data Hok) as Hv.
    rewrite Hlen in Hv. replace (2 ^ (8 * width)) with (256 ^ width); [done|].
    by rewrite Z.pow_mul_r by lia.
Qed.

Lemma target_returns offset : 0 ≤ offset → returns (target bytes offset).
Proof.
  intros Ho. unfold target. apply returns_bind; [by apply uint_returns, width_in_4|].
  intros v _. repeat case_match; try done. apply returns_bind; [by apply range_returns|done].
Qed.

Lemma target_Ok offset t : 0 ≤ offset → target bytes offset = Ok t → offset + 4 ≤ t.
Proof.
  intros Ho H. unfold target in H. apply bind_Ok_inv in H as (v & Hv & H).
  repeat case_match; try done. apply bind_Ok_inv in H as (? & _ & H). simplify_eq. lia.
Qed.

Lemma scalar_returns position f : 0 ≤ position → field_ok f = true → returns (scalar bytes position f).
Proof.
  intros Hp Hf. unfold scalar. apply returns_bind; [by apply uint_returns, field_ok_width|].
  intros v _. by repeat case_match.
Qed.

(** A scalar the schema allows. *)
Definition scalar_ok (f : FieldSpec) (v : Z) : Prop :=
  0 ≤ v < 2 ^ (8 * fs_width f) ∧ (fs_wamp_integer f = true → v ≤ MAX_INTEGER) ∧
  (fs_values f ≠ [] → as_signed 64 v ∈ fs_values f).

Lemma scalar_Ok position f v : 0 ≤ position → field_ok f = true → scalar bytes position f = Ok v →
  scalar_ok f v.
Proof.
  intros Hp Hf H. unfold scalar in H. apply bind_Ok_inv in H as (w & Hw & H).
  apply uint_Ok in Hw as [Hw _]; [|done|by apply width_pos, field_ok_width].
  destruct (fs_wamp_integer f && (MAX_INTEGER <? w)) eqn:E1; [done|].
  destruct (negb _ && negb _) eqn:E2; [done|]. injection H as ->. split_and!; [lia|lia|..].
  - intros Hi. rewrite Hi in E1. simpl in E1. lia.
  - intros Hv. apply andb_false_iff in E2 as [E2|E2]; apply negb_false_iff, bool_decide_eq_true in E2; done.
Qed.

Lemma table_header_returns offset : 0 ≤ offset → returns (table_header bytes offset).
Proof.
  intros Ho. unfold table_header. apply returns_bind; [by apply range_returns|]. intros data _.
  destruct (_ <? 0) eqn:E; [done|].
  apply returns_bind; [apply uint_returns, width_in_2; lia|]. intros vs _.
  apply returns_bind; [apply uint_returns, width_in_2; lia|]. intros os _.
  destruct (_ || _); [done|].
  apply returns_bind; [by apply range_returns|]. intros _ _.
  by apply returns_bind; [by apply range_returns|].
Qed.

Lemma table_header_Ok offset vt vs os : 0 ≤ offset → table_header bytes offset = Ok (vt, vs, os) →
  0 ≤ vt.
Proof.
  intros Ho H. unfold table_header in H. apply bind_Ok_inv in H as (data & _ & H).
  destruct (_ <? 0) eqn:E; [done|]. apply bind_Ok_inv in H as (? & _ & H).
  apply bind_Ok_inv in H as (? & _ & H). destruct (_ || _); [done|].
  apply bind_Ok_inv in H as (? & _ & H). apply bind_Ok_inv in H as (? & _ & H). simplify_eq. lia.
Qed.

Lemma field_relative_returns vt vs slot : 0 ≤ vt → 0 ≤ slot → returns (field_relative bytes vt vs slot).
Proof. intros. unfold field_relative. case_match; [|done]. apply uint_returns, width_in_2. lia. Qed.

Lemma field_relative_Ok vt vs slot v : 0 ≤ vt → 0 ≤ slot →
  field_relative bytes vt vs slot = Ok v → 0 ≤ v.
Proof.
  intros ?? H. unfold field_relative in H. case_match; [|by simplify_eq].
  apply uint_Ok in H; lia.
Qed.

Lemma union_target_returns f tag : returns (union_target f tag).
Proof. unfold union_target. by repeat case_match. Qed.

Lemma child_reference_returns f tag : returns (child_reference f tag).
Proof. unfold child_reference. case_match; [apply union_target_returns|done]. Qed.

Lemma absent_value_returns f tag : returns (absent_value f tag).
Proof. unfold absent_value. by case_match. Qed.

Lemma text_at_returns offset length : 0 ≤ offset → 0 ≤ length → returns (text_at bytes offset length).
Proof.
  intros. unfold text_at. apply returns_bind; [by apply range_returns|]. intros data _.
  by repeat case_match.
Qed.

Lemma text_at_Ok offset length t : text_at bytes offset length = Ok t → str_ok t.
Proof.
  unfold text_at. intros H. apply bind_Ok_inv in H as (data & _ & H).
  repeat case_match; simplify_eq. by eapply utf8_decode_ok.
Qed.

Lemma vector_width_in f : field_ok f = true → width_in (vector_width f).
Proof. intros. unfold vector_width. case_match; [by apply field_ok_width|apply width_in_4]. Qed.

Lemma vector_length_returns offset f : 0 ≤ offset → field_ok f = true → returns (vector_length bytes offset f).
Proof.
  intros Ho Hf. unfold vector_length. apply returns_bind; [by apply uint_returns, width_in_4|].
  intros n _. case_match; [done|].
  apply returns_bind; [apply range_returns; by apply width_pos, vector_width_in|done].
Qed.

Lemma vector_length_Ok offset f n : 0 ≤ offset → field_ok f = true → vector_length bytes offset f = Ok n →
  0 ≤ n ∧ offset + 4 + n * vector_width f ≤ zlen bytes.
Proof.
  intros Ho Hf H. pose proof (width_pos _ (vector_width_in f Hf)).
  unfold vector_length in H. apply bind_Ok_inv in H as (m & Hm & H).
  apply uint_Ok in Hm as [Hm _]; [|lia..].
  case_match; [done|]. apply bind_Ok_inv in H as (? & Hr & H). simplify_eq.
  apply range_Ok in Hr as (? & _); [|nia..]. lia.
Qed.
End access.
