(* ===== verification/FbRead.v ===== *)
(** * The FlatBuffers reader is a plain decoder

    [plain_read] decodes a FlatBuffers buffer the direct way: no shared tables,
    no budgets, a recursion bounded by 64.  [read] of FbWire gives its result, or
    one of the four budget errors, and what it gives is well typed. *)
From stdpp Require Import gmap.
From S2P Require Import Prelude Bytes Text WampTypes CborScanner FbSchema FbWire.

(** ** The plain decoder *)
Definition okv {A} (o : outcome ParseError A) : option A :=
  match o with Ok a => Some a | _ => None end.

Section plain.
Context (bytes : list Z).

Definition plain_string (offset : Z) : option fb_value :=
  length ← okv (uint bytes offset 4);
  FText <$> okv (text_at bytes offset length).

Section table.
Context (plain_table : Z → Z → option (Z * Fields)).

Definition plain_element (field : FieldSpec) (position : Z) : option (Z * fb_value) :=
  match fs_kind field with
  | KScalarVector => value ← okv (scalar bytes position field); Some (0, FInteger value)
  | KStringVector =>
      offset ← okv (target bytes position);
      text ← plain_string offset; Some (0, text)
  | KTableVector =>
      offset ← okv (target bytes position);
      '(h, child) ← plain_table offset (fs_reference field);
      Some (h, FTable child)
  | _ => None
  end.

Fixpoint plain_elements (count : nat) (field : FieldSpec) (start width index height : Z) :
    option (Z * list fb_value) :=
  match count with
  | O => Some (height, [])
  | S count =>
      '(h, value) ← plain_element field (start + index * width);
      '(height, output) ← plain_elements count field start width (index + 1) (height `max` h);
      Some (height, value :: output)
  end.

Definition plain_vector (offset : Z) (field : FieldSpec) : option (Z * fb_value) :=
  length ← okv (vector_length bytes offset field);
  let start := offset + 4 in
  if is_byte_vector field then Some (0, FBytes (sub_bytes bytes start (start + length)))
  else
    '(height, output) ← plain_elements (Z.to_nat length) field start (vector_width field) 0 0;
    Some (height, FVector output).

Definition plain_present (field : FieldSpec) (position union_tag : Z) : option (Z * fb_value * Z) :=
  match fs_kind field with
  | KScalar =>
      value ← okv (scalar bytes position field);
      Some (0, FInteger value, if fs_width field =? 1 then value else 0)
  | KString =>
      offset ← okv (target bytes position);
      text ← plain_string offset; Some (0, text, union_tag)
  | KTable | KUnion =>
      child_ref ← okv (child_reference field union_tag);
      offset ← okv (target bytes position);
      '(h, child) ← plain_table offset child_ref;
      Some (h + 1, FTable child, 0)
  | _ =>
      offset ← okv (target bytes position);
      '(h, vector) ← plain_vector offset field;
      Some (h + 1, vector, union_tag)
  end.

Definition plain_field (offset vtable vtable_size object_size slot : Z) (field : FieldSpec)
    (union_tag : Z) : option (Z * fb_value * Z) :=
  relative ← okv (field_relative bytes vtable vtable_size slot);
  if relative =? 0 then value ← okv (absent_value field union_tag); Some (0, value, 0)
  else if (relative <? 4) || (object_size <? relative + field_width field) then None
  else plain_present field (offset + relative) union_tag.

Fixpoint plain_fields (offset vtable vtable_size object_size slot : Z) (specs : list FieldSpec)
    (height union_tag : Z) (fields : Fields) : option (Z * Fields) :=
  match specs with
  | [] => Some (height, fields)
  | field :: specs =>
      '(h, value, union_tag) ← plain_field offset vtable vtable_size object_size slot field union_tag;
      plain_fields offset vtable vtable_size object_size (slot + 1) specs
        (height `max` h) union_tag (fields_insert (fs_name field) value fields)
  end.

Definition plain_new_table (offset reference : Z) : option (Z * Fields) :=
  '(vtable, vtable_size, object_size) ← okv (table_header bytes offset);
  spec ← table_spec reference;
  plain_fields offset vtable vtable_size object_size 0 (ts_fields spec) 1 0 [].
End table.

(** A table nested at most [n] deep: its height and its fields. *)
Fixpoint plain_table (n : nat) (offset reference : Z) : option (Z * Fields) :=
  match n with
  | O => None
  | S n => plain_new_table (plain_table n) offset reference
  end.

Definition plain_read : option Fields :=
  root ← okv (target bytes 0);
  snd <$> plain_table 64 root ROOT.

(** ** Heights

    [T] and [T'] agree on tables of height at most [m], and [T] gives heights
    between 1 and [M]. *)
Section heights.
Context (T T' : Z → Z → option (Z * Fields)) (M m : Z).
Context (HM : ∀ o r h f, T o r = Some (h, f) → 1 ≤ h ≤ M).
Context (HT : ∀ o r h f, T o r = Some (h, f) → h ≤ m → T' o r = Some (h, f)).
Context (HM0 : 0 ≤ M).

Ltac inv_some :=
  repeat match goal with
  | H : (_ ≫= _) = Some _ |- _ => apply bind_Some in H as (? & ? & ?); cbv beta in *
  | H : (_ <$> _) = Some _ |- _ => apply fmap_Some in H as (? & ? & ?)
  | p : _ * _ |- _ => destruct p
  | H : Some _ = Some _ |- _ => injection H as H; subst
  | H : (_, _) = (_, _) |- _ => injection H as H; subst
  end.

Ltac use_tables :=
  repeat match goal with
  | H : T ?o ?r = Some (?h, ?f) |- _ =>
      pose proof (HM o r h f H); pose proof (HT o r h f H); clear H
  end.
Ltac replay :=
  intros;
  repeat match goal with H : ?a ≤ m → _ |- _ => specialize (H ltac:(lia)) end;
  repeat (match goal with H : ?o = Some _ |- context [?o] => rewrite H end; simpl); try done.

Lemma plain_element_heights field position h v :
  plain_element T field position = Some (h, v) →
  0 ≤ h ≤ M ∧ (h ≤ m → plain_element T' field position = Some (h, v)).
Proof.
  unfold plain_element. destruct (fs_kind field); try done; intros H; inv_some; use_tables;
    (split; [lia|replay]).
Qed.

Lemma plain_elements_heights count field start width : ∀ index h0 h vs,
  0 ≤ h0 ≤ M → plain_elements T count field start width index h0 = Some (h, vs) →
  h0 ≤ h ≤ M ∧ (h ≤ m → plain_elements T' count field start width index h0 = Some (h, vs)).
Proof.
  induction count as [|count IH]; intros index h0 h vs Hh0; simpl; intros H; inv_some.
  { split; [lia|done]. }
  apply plain_element_heights in H as [Hh HT1].
  apply IH in H0 as [Hh' HT2]; [|lia]. split; [lia|replay].
Qed.

Lemma plain_vector_heights offset field h v :
  plain_vector T offset field = Some (h, v) →
  0 ≤ h ≤ M ∧ (h ≤ m → plain_vector T' offset field = Some (h, v)).
Proof.
  unfold plain_vector. intros H; inv_some. destruct (is_byte_vector field) eqn:E; inv_some.
  { split; [lia|]. replay. }
  apply plain_elements_heights in H0 as [? HT1]; [|lia]. split; [lia|replay].
Qed.

Lemma plain_present_heights field position tag h v tag' :
  plain_present T field position tag = Some (h, v, tag') →
  0 ≤ h ≤ M + 1 ∧ (h ≤ m + 1 → plain_present T' field position tag = Some (h, v, tag')).
Proof.
  unfold plain_present. destruct (fs_kind field); intros H; inv_some; use_tables;
    try (split; [lia|]; replay; fail);
    match goal with H : plain_vector _ _ _ = _ |- _ => apply plain_vector_heights in H as [? ?] end;
    (split; [lia|replay]).
Qed.

Lemma plain_field_heights offset vt vs os slot field tag h v tag' :
  plain_field T offset vt vs os slot field tag = Some (h, v, tag') →
  0 ≤ h ≤ M + 1 ∧ (h ≤ m + 1 → plain_field T' offset vt vs os slot field tag = Some (h, v, tag')).
Proof.
  unfold plain_field. intros H; inv_some. destruct (_ =? 0) eqn:E1; inv_some.
  { split; [lia|]. intros _. rewrite H. simpl. rewrite E1, H0. done. }
  destruct (_ || _) eqn:E2; [done|]. apply plain_present_heights in H0 as [? HT1].
  split; [lia|]. intros. rewrite H. simpl. rewrite E1, E2. by apply HT1.
Qed.

Lemma plain_fields_heights offset vt vs os specs : ∀ slot h0 tag fields h fs,
  1 ≤ h0 ≤ M + 1 → plain_fields T offset vt vs os slot specs h0 tag fields = Some (h, fs) →
  h0 ≤ h ≤ M + 1 ∧
  (h ≤ m + 1 → plain_fields T' offset vt vs os slot specs h0 tag fields = Some (h, fs)).
Proof.
  induction specs as [|field specs IH]; intros slot h0 tag fields h fs Hh0; simpl; intros H; inv_some.
  { split; [lia|done]. }
  apply plain_field_heights in H as [Hh HT1].
  apply IH in H0 as [Hh' HT2]; [|lia]. split; [lia|]. intros Hm.
  rewrite (HT1 ltac:(lia)). simpl. apply HT2. lia.
Qed.

Lemma plain_new_table_heights offset reference h fs :
  plain_new_table T offset reference = Some (h, fs) →
  1 ≤ h ≤ M + 1 ∧ (h ≤ m + 1 → plain_new_table T' offset reference = Some (h, fs)).
Proof.
  unfold plain_new_table. intros H; inv_some. apply plain_fields_heights in H1 as [? HT1]; [|lia].
  split; [lia|replay]. apply HT1. lia.
Qed.
End heights.

Lemma plain_table_height n : ∀ o r h f, plain_table n o r = Some (h, f) → 1 ≤ h ≤ Z.of_nat n.
Proof.
  induction n as [|n IH]; intros o r h f; simpl; [done|]. intros H.
  apply (plain_new_table_heights (plain_table n) (λ _ _, None) (Z.of_nat n) 0) in H as [? _];
    [lia|done| |lia]. intros o' r' h' f' H'%IH. lia.
Qed.

(** A result does not depend on the fuel, once it covers the height. *)
Lemma plain_table_refine n : ∀ n' o r h f,
  plain_table n o r = Some (h, f) → h ≤ Z.of_nat n' → plain_table n' o r = Some (h, f).
Proof.
  induction n as [|n IH]; intros n' o r h f H Hh; [done|].
  pose proof (plain_table_height _ _ _ _ _ H).
  destruct n' as [|n']; [lia|]. simpl in *.
  apply (plain_new_table_heights (plain_table n) (plain_table n') (Z.of_nat n) (Z.of_nat n')) in H
    as [_ H]; [apply H; lia|apply plain_table_height|eauto|lia].
Qed.

Lemma plain_table_mono n n' o r x : (n ≤ n')%nat → plain_table n o r = Some x → plain_table n' o r = Some x.
Proof.
  destruct x as [h f]. intros Hn H. pose proof (plain_table_height _ _ _ _ _ H).
  eapply plain_table_refine; [done|lia].
Qed.

(** ** The reader against the plain decoder *)
Definition budget_errors : list ParseError :=
  [invalid "byte limit"; invalid "table limit"; invalid "string budget"; invalid "element budget"].

Context (Hbytes : bytes_ok bytes).

(** What is shared is what the plain decoder gives, and the budgets hold. *)
Definition shared_ok (k : Z * Z) (e : Z * option Fields) : Prop :=
  e = (0, None) ∨ ∃ h f, e = (h, Some f) ∧ 0 < h ∧ plain_table (Z.to_nat h) k.1 k.2 = Some (h, f).

Definition reader_ok (r : Reader) : Prop :=
  rd_bytes r = bytes ∧ map_Forall shared_ok (rd_tables r) ∧
  map_Forall (λ o s, plain_string o = Some (FText s)) (rd_strings r).

(** Tables being read stay so, and no entry is lost. *)
Definition extends (r r' : Reader) : Prop :=
  (∀ k, rd_tables r !! k = Some (0, None) ↔ rd_tables r' !! k = Some (0, None)) ∧
  ∀ k, is_Some (rd_tables r !! k) → is_Some (rd_tables r' !! k).

Lemma extends_refl r : extends r r.
Proof. by split. Qed.

Lemma extends_trans r1 r2 r3 : extends r1 r2 → extends r2 r3 → extends r1 r3.
Proof. intros [H1 H2] [H3 H4]. split; [intros k; by rewrite H1|eauto]. Qed.

(** The tables being read cannot be decoded with fuel [j]. *)
Definition blocked (j : nat) (r : Reader) : Prop :=
  ∀ k, rd_tables r !! k = Some (0, None) → plain_table j k.1 k.2 = None.

Lemma blocked_extends j r r' : extends r r' → blocked j r → blocked j r'.
Proof. intros [H _] Hb k Hk%H. by apply Hb. Qed.

Lemma blocked_mono i j r : (i ≤ j)%nat → blocked j r → blocked i r.
Proof.
  intros Hij Hb k Hk. destruct (plain_table i k.1 k.2) eqn:E; [|done].
  rewrite <-(Hb k Hk). symmetry. by eapply plain_table_mono.
Qed.

(** [m] gives what the plain decoder [o] gives with fuel [n]; it fails for a
    budget only, where the plain decoder succeeds with fuel [j] and the tables
    being read do not. *)
Definition sim (n : nat) {A} (m : rd A) (o : nat → option A) : Prop :=
  (∀ j a, (j ≤ n)%nat → o j = Some a → o n = Some a) ∧
  ∀ r, reader_ok r →
    match m r with
    | Ok (a, r') => o n = Some a ∧ reader_ok r' ∧ extends r r'
    | Err e => ∀ j, (j ≤ n)%nat → blocked j r → o j = None ∨ e ∈ budget_errors
    | Panic | NoFuel => False
    end.

Section sim.
Context (n : nat).

Lemma sim_ret {A} (a : A) : sim n (mret a) (λ _, Some a).
Proof. split; [done|]. intros r Hr. split_and!; [done|done|apply extends_refl]. Qed.

Lemma sim_fail {A} reason : sim n (rd_fail reason) (λ _, @None A).
Proof. split; [done|]. intros r Hr j _ _. by left. Qed.

Lemma sim_bind {A B} (m : rd A) (f : A → rd B) o g :
  sim n m o → (∀ a, o n = Some a → sim n (f a) (λ j, g j a)) →
  sim n (m ≫= f) (λ j, o j ≫= g j).
Proof.
  intros [Hmono Hm] Hf. split.
  { intros j b Hj (a & Ha & Hb)%bind_Some. pose proof (Hmono j a Hj Ha) as Ha'.
    rewrite Ha'. simpl. by apply (proj1 (Hf a Ha') j). }
  intros r Hr. specialize (Hm r Hr). unfold mbind at 1, rd_bind.
  destruct (m r) as [[a r']|e| |]; [|simpl|done..].
  - destruct Hm as (Ha & Hr' & Hext). simpl.
    pose proof (proj2 (Hf a Ha) r' Hr') as Hf'. destruct (f a r') as [[b r'']|e| |]; [| |done..].
    + destruct Hf' as (Hb & Hr'' & Hext'). rewrite Ha. simpl.
      split_and!; [done|done|by eapply extends_trans].
    + intros j Hj Hbl. destruct (o j) as [a'|] eqn:Ea; [|by left]. simpl.
      pose proof (Hmono j a' Hj Ea). assert (a' = a) as -> by congruence.
      apply Hf'; [done|]. by eapply blocked_extends.
  - intros j Hj Hbl. destruct (Hm j Hj Hbl) as [->|?]; [by left|by right].
Qed.

Lemma sim_pure {A} (f : list Z → outcome ParseError A) :
  returns (f bytes) → sim n (rd_pure f) (λ _, okv (f bytes)).
Proof.
  intros Hf. split; [done|]. intros r Hr. pose proof Hr as (Hb & _). unfold rd_pure. rewrite Hb.
  destruct (f bytes); simpl; [|by left|done..]. split_and!; [done|done|apply extends_refl].
Qed.

Lemma sim_ok_or {A} e (o : option A) : sim n (rd_pure (λ _, ok_or e o)) (λ _, o).
Proof.
  pose proof (sim_pure (λ _, ok_or e o) (returns_ok_or e o)) as H. by destruct o.
Qed.

Lemma sim_get_bytes {A} (f : list Z → rd A) o : sim n (f bytes) o → sim n (rd_get rd_bytes ≫= f) o.
Proof.
  intros [H1 H2]. split; [done|]. intros r Hr. pose proof Hr as (Hb & _).
  change ((rd_get rd_bytes ≫= f) r) with (f (rd_bytes r) r). rewrite Hb. by apply H2.
Qed.

Lemma sim_charge_elements length {A} (f : rd A) o : sim n f o → sim n (charge_elements length ≫= λ _, f) o.
Proof.
  intros [H1 H2]. split; [done|]. intros r Hr.
  unfold mbind at 1, rd_bind, charge_elements.
  repeat destruct (_ <? _) || destruct (_ <=? _); simpl;
    try (intros; right; unfold budget_errors; set_solver).
  match goal with |- match f ?r' with _ => _ end => specialize (H2 r') end. by apply H2.
Qed.

Lemma sim_charge_string length {A} (f : rd A) o : sim n f o → sim n (charge_string length ≫= λ _, f) o.
Proof.
  intros [H1 H2]. split; [done|]. intros r Hr.
  unfold mbind at 1, rd_bind, charge_string.
  repeat destruct (_ <? _) || destruct (_ <=? _); simpl;
    try (intros; right; unfold budget_errors; set_solver).
  match goal with |- match f ?r' with _ => _ end => specialize (H2 r') end. by apply H2.
Qed.

(** The bytes are read without a panic. *)
Ltac sim_access :=
  apply sim_pure; cbv beta;
  first
    [ by apply (uint_returns bytes Hbytes), width_in_4
    | by apply (target_returns bytes Hbytes)
    | by apply (scalar_returns bytes Hbytes)
    | by apply (vector_length_returns bytes Hbytes)
    | by apply (field_relative_returns bytes Hbytes)
    | by apply child_reference_returns
    | by apply absent_value_returns ].

Lemma sim_string offset : 0 ≤ offset → sim n (read_string offset) (λ _, plain_string offset).
Proof.
  intros Ho. unfold read_string, plain_string.
  apply (sim_bind _ _ (λ _, okv (uint bytes offset 4)) (λ _ l, FText <$> okv (text_at bytes offset l))).
  { sim_access. }
  intros length Hl. destruct (uint bytes offset 4) as [l| | |] eqn:E; simplify_eq/=.
  pose proof (uint_Ok bytes Hbytes offset 4 length Ho ltac:(lia) E) as [Hlen _].
  apply sim_charge_string. split; [done|]. intros r Hr. pose proof Hr as (Hb & Ht & Hs).
  change ((rd_get rd_strings ≫= ?f) r) with (f (rd_strings r) r).
  destruct (rd_strings r !! offset) as [s|] eqn:Es; rewrite Es.
  { specialize (Hs offset s Es). unfold plain_string in Hs. rewrite E in Hs. simpl in Hs.
    split_and!; [done|done|apply extends_refl]. }
  pose proof (text_at_returns bytes offset length Ho ltac:(lia)) as Hret.
  unfold mbind, rd_bind, rd_pure. rewrite Hb.
  destruct (text_at bytes offset length) as [t| | |] eqn:Et; simpl; [|by left|done..].
  split_and!; [done| |by split].
  split_and!; [done|done|]. apply map_Forall_insert_2; [|done].
  unfold plain_string. rewrite E. simpl. by rewrite Et.
Qed.

(** *** With the tables one level down *)
Context (rt : Z → Z → Z → rd (Z * Fields)) (depth : Z).
Context (Hrt : ∀ o r, 0 ≤ o → sim n (rt o r (depth + 1)) (λ j, plain_table j o r)).

Lemma okv_Some {A} (o : outcome ParseError A) a : okv o = Some a → o = Ok a.
Proof. destruct o; simpl; congruence. Qed.

Lemma sim_element field position : 0 ≤ position → field_ok field = true →
  sim n (read_element rt field depth position) (λ j, plain_element (plain_table j) field position).
Proof.
  intros Hp Hf. unfold read_element, plain_element.
  destruct (fs_kind field); try apply sim_fail.
  - apply sim_bind; [sim_access|intros; apply sim_ret].
  - apply sim_bind; [sim_access|].
    intros o Ho%okv_Some%target_Ok; [|done..].
    apply sim_bind; [apply sim_string; lia|intros; apply sim_ret].
  - apply sim_bind; [sim_access|].
    intros o Ho%okv_Some%target_Ok; [|done..].
    apply sim_bind; [apply Hrt; lia|intros [h f] _; apply sim_ret].
Qed.

Lemma sim_elements count field start width : field_ok field = true → 0 ≤ start → 0 ≤ width →
  ∀ index height, 0 ≤ index →
  sim n (read_elements rt count field depth start width index height)
    (λ j, plain_elements (plain_table j) count field start width index height).
Proof.
  intros Hf Hs Hw. induction count as [|count IH]; intros index height Hi; simpl; [apply sim_ret|].
  apply sim_bind; [apply sim_element; [nia|done]|]. intros [h v] _.
  apply sim_bind; [apply IH; lia|]. intros [h' vs] _. apply sim_ret.
Qed.

Lemma sim_vector offset field : 0 ≤ offset → field_ok field = true →
  sim n (read_vector rt offset field depth) (λ j, plain_vector (plain_table j) offset field).
Proof.
  intros Ho Hf. unfold read_vector, plain_vector.
  apply sim_bind; [sim_access|].
  intros length Hl%okv_Some%vector_length_Ok; [|done..].
  destruct (is_byte_vector field); [apply sim_get_bytes, sim_ret|].
  apply sim_charge_elements. apply sim_bind; [|intros [h vs] _; apply sim_ret].
  apply sim_elements; [done|lia| |lia]. pose proof (width_pos _ (vector_width_in field Hf)). lia.
Qed.

Lemma sim_present field position tag : 0 ≤ position → field_ok field = true →
  sim n (read_present rt field depth position tag)
    (λ j, plain_present (plain_table j) field position tag).
Proof.
  intros Hp Hf.
  assert (sim n (rd_pure (λ b, target b position)) (λ _, okv (target bytes position))) as Htarget
    by sim_access.
  assert (∀ o, okv (target bytes position) = Some o → 0 ≤ o) as Hoffset
    by (intros o Ho%okv_Some%target_Ok; [lia|done..]).
  unfold read_present, plain_present. destruct (fs_kind field).
  - apply sim_bind; [sim_access|intros; apply sim_ret].
  - apply sim_bind; [done|]. intros o Ho%Hoffset.
    apply sim_bind; [by apply sim_string|intros; apply sim_ret].
  - apply sim_bind; [sim_access|].
    intros ref _. apply sim_bind; [done|]. intros o Ho%Hoffset.
    apply sim_bind; [by apply Hrt|]. intros [h f] _. apply sim_ret.
  - apply sim_bind; [done|]. intros o Ho%Hoffset.
    apply sim_bind; [by apply sim_vector|]. intros [h f] _. apply sim_ret.
  - apply sim_bind; [done|]. intros o Ho%Hoffset.
    apply sim_bind; [by apply sim_vector|]. intros [h f] _. apply sim_ret.
  - apply sim_bind; [done|]. intros o Ho%Hoffset.
    apply sim_bind; [by apply sim_vector|]. intros [h f] _. apply sim_ret.
  - apply sim_bind; [sim_access|].
    intros ref _. apply sim_bind; [done|]. intros o Ho%Hoffset.
    apply sim_bind; [by apply Hrt|]. intros [h f] _. apply sim_ret.
Qed.

Lemma sim_field offset vt vs os slot field tag : 0 ≤ offset → 0 ≤ vt → 0 ≤ slot → field_ok field = true →
  sim n (read_field rt offset vt vs os depth slot field tag)
    (λ j, plain_field (plain_table j) offset vt vs os slot field tag).
Proof.
  intros Ho Hv Hs Hf. unfold read_field, plain_field.
  apply sim_bind; [sim_access|].
  intros rel Hrel%okv_Some%field_relative_Ok; [|done..].
  destruct (rel =? 0).
  { apply sim_bind; [sim_access|intros; apply sim_ret]. }
  destruct (_ || _); [apply sim_fail|]. apply sim_present; [lia|done].
Qed.

Lemma sim_fields offset vt vs os specs : 0 ≤ offset → 0 ≤ vt → Forall (λ f, field_ok f = true) specs →
  ∀ slot height tag fields, 0 ≤ slot →
  sim n (read_fields rt offset vt vs os depth slot specs height tag fields)
    (λ j, plain_fields (plain_table j) offset vt vs os slot specs height tag fields).
Proof.
  intros Ho Hv. induction 1 as [|f specs Hf _ IH]; intros slot height tag fields Hs; simpl; [apply sim_ret|].
  apply sim_bind; [by apply sim_field|]. intros [[h v] tag'] _. apply IH. lia.
Qed.

Lemma sim_table_body offset reference : 0 ≤ offset →
  sim n (read_table_body rt offset reference depth)
    (λ j, plain_new_table (plain_table j) offset reference).
Proof.
  intros Ho. unfold read_table_body, plain_new_table.
  apply sim_bind.
  { apply (sim_pure (λ b, table_header b offset)). by apply table_header_returns. }
  intros [[vt vs] os] Hh%okv_Some%table_header_Ok; [|done..].
  apply sim_bind; [apply sim_ok_or|]. intros spec [Hf _]%table_spec_ok.
  by apply sim_fields.
Qed.

Lemma extends_marked k r r' :
  rd_tables r !! k = None →
  extends (mkReader (rd_bytes r) (<[k:=(0, None)]> (rd_tables r)) (rd_strings r) (string_bytes r) (elements r)) r' →
  ∀ h f, extends r (mkReader (rd_bytes r') (<[k:=(h, Some f)]> (rd_tables r')) (rd_strings r')
                      (string_bytes r') (elements r')).
Proof.
  intros Hk [H1 H2] h f. simpl in *. split; simpl; intros k'; destruct (decide (k = k')) as [<-|Hne].
  - rewrite Hk, lookup_insert_eq. naive_solver.
  - rewrite lookup_insert_ne by done. by rewrite <-H1, lookup_insert_ne.
  - rewrite lookup_insert_eq. eauto.
  - rewrite lookup_insert_ne by done. intros Hs. apply H2. by rewrite lookup_insert_ne.
Qed.

(** Marking a table blocks its decoding with less fuel than it needs. *)
Lemma blocked_marked j k r : blocked j r → plain_table j k.1 k.2 = None →
  blocked j (mkReader (rd_bytes r) (<[k:=(0, None)]> (rd_tables r)) (rd_strings r) (string_bytes r) (elements r)).
Proof.
  intros Hb Hk k'. simpl. intros [[<- _]|[_ H]]%lookup_insert_Some; [done|by apply Hb].
Qed.

(** The least fuel that decodes a table. *)
Lemma plain_table_least j o r x : plain_table j o r = Some x →
  ∃ i, (S i ≤ j)%nat ∧ plain_table i o r = None ∧ plain_table (S i) o r = Some x.
Proof.
  induction j as [|j IH]; intros Hj; [done|].
  destruct (plain_table j o r) as [y|] eqn:E.
  - assert (y = x) as -> by (pose proof (plain_table_mono j (S j) o r y ltac:(lia) E); congruence).
    destruct IH as (i & ? & ? & ?); [done|]. exists i. split_and!; [lia|done|done].
  - exists j. split_and!; [lia|done|done].
Qed.

Lemma sim_new_table offset reference r : 0 ≤ offset → reader_ok r →
  rd_tables r !! (offset, reference) = None →
  match read_new_table rt offset reference depth r with
  | Ok (a, r') => plain_table (S n) offset reference = Some a ∧ reader_ok r' ∧ extends r r'
  | Err e => ∀ j, (j ≤ S n)%nat → blocked j r → plain_table j offset reference = None ∨ e ∈ budget_errors
  | Panic | NoFuel => False
  end.
Proof.
  intros Ho Hr Hk. pose proof Hr as (Hb & Ht & Hs).
  unfold read_new_table. change ((rd_get rd_tables ≫= ?f) r) with (f (rd_tables r) r). cbv beta.
  destruct (_ <=? _). { simpl. intros. right. unfold budget_errors. set_solver. }
  set (k := (offset, reference)) in *.
  set (r1 := mkReader (rd_bytes r) (<[k:=(0, None)]> (rd_tables r)) (rd_strings r) (string_bytes r) (elements r)).
  assert (reader_ok r1) as Hr1.
  { split_and!; [done| |done]. apply map_Forall_insert_2; [by left|done]. }
  change ((set_tables ?t ≫= ?f) r) with (f tt r1). cbv beta.
  unfold mbind at 1, rd_bind.
  pose proof (proj2 (sim_table_body offset reference Ho) r1 Hr1) as Hbody.
  destruct (read_table_body rt offset reference depth r1) as [[[h f] r2]|e| |]; [| |done..].
  - destruct Hbody as (Hp & (Hb2 & Ht2 & Hs2) & Hext). simpl.
    pose proof (plain_table_height (S n) offset reference h f Hp).
    split_and!; [done| |by apply extends_marked].
    split_and!; [done| |done]. apply map_Forall_insert_2; [|done]. right. exists h, f.
    split_and!; [done|lia|]. eapply (plain_table_refine (S n)); [exact Hp|lia].
  - simpl. intros j Hj Hbl. destruct (plain_table j offset reference) as [x|] eqn:Ej; [|by left].
    destruct (plain_table_least j offset reference x Ej) as (i & Hi & Hnone & Hsome).
    destruct (Hbody i) as [Hx|?]; [lia| |simpl in Hsome; congruence|by right].
    apply blocked_marked; [|done]. eapply blocked_mono; [|done]. lia.
Qed.
End sim.

Lemma sim_table fuel : ∀ n depth offset reference, 0 ≤ offset → (n < fuel)%nat →
  depth + Z.of_nat n = 65 →
  sim n (read_table fuel offset reference depth) (λ j, plain_table j offset reference).
Proof.
  induction fuel as [|fuel IH]; intros n depth offset reference Ho Hf Hn; [lia|].
  split. { intros j a Hj. by apply plain_table_mono. }
  intros r Hr. pose proof Hr as (Hb & Ht & Hs). simpl.
  destruct (Z.ltb_spec 64 depth) as [Hd|Hd].
  { simpl. intros j Hj _. left. by replace j with 0%nat by lia. }
  change ((rd_get rd_tables ≫= ?f) r) with (f (rd_tables r) r). cbv beta.
  destruct (rd_tables r !! (offset, reference)) as [[h o]|] eqn:Ek; rewrite ?Ek.
  - destruct (Ht _ _ Ek) as [[= -> ->]|(h' & f & [= -> ->] & Hh & Hp)].
    { simpl. intros j Hj Hbl. left. by apply (Hbl (offset, reference)). }
    rewrite (proj2 (Z.eqb_neq h' 0)) by lia. simpl in Hp.
    destruct (Z.ltb_spec 64 (depth + h' - 1)).
    + simpl. intros j Hj _. left. destruct (plain_table j offset reference) as [[h f']|] eqn:Ej; [|done].
      pose proof (plain_table_height _ _ _ _ _ Ej).
      pose proof (plain_table_mono (Z.to_nat h') (Z.to_nat h' `max` j) _ _ _ ltac:(lia) Hp).
      pose proof (plain_table_mono j (Z.to_nat h' `max` j) _ _ _ ltac:(lia) Ej).
      assert (h' = h) by congruence. lia.
    + split_and!; [|done|apply extends_refl]. eapply plain_table_refine; [exact Hp|lia].
  - destruct n as [|n]; [lia|]. apply sim_new_table; [|done..].
    intros o' r' Ho'. apply IH; [done|lia|lia].
Qed.

Lemma read_sim :
  match read bytes with
  | Ok fields => zlen bytes ≤ MAX_BYTES ∧ plain_read = Some fields
  | Err e => plain_read = None ∨ e ∈ budget_errors
  | Panic | NoFuel => False
  end.
Proof.
  unfold read, plain_read. remember 64%nat as N eqn:HN. remember read_fuel as F eqn:HF. destruct (Z.ltb_spec MAX_BYTES (zlen bytes)) as [|Hlen].
  { right. unfold budget_errors. set_solver. }
  pose proof (target_returns bytes Hbytes 0 ltac:(lia)) as Ht.
  destruct (target bytes 0) as [root| | |] eqn:Er; simpl; [|by left|done..].
  pose proof (target_Ok bytes 0 root ltac:(lia) Er).
  pose proof (sim_table F N 1 root ROOT ltac:(lia) ltac:(unfold read_fuel in HF; lia) ltac:(lia)) as [_ Hsim].
  assert (reader_ok (mkReader bytes ∅ ∅ 0 0)) as H0
    by (split_and!; [done|apply map_Forall_empty|apply map_Forall_empty]).
  specialize (Hsim _ H0). revert Hsim.
  destruct (read_table F root ROOT 1 (mkReader bytes ∅ ∅ 0 0)) as [[[h f] r]|e| |] eqn:E;
    simpl; [| |done..].
  - intros (Hp & _). split; [done|]. by rewrite Hp.
  - intros Hsim. destruct (Hsim N) as [Hp|?]; [lia| | |by right]; [|left; by rewrite Hp].
    intros k Hk. simpl in Hk. by rewrite lookup_empty in Hk.
Qed.
End plain.

(** ** Well-typed tables *)

(** Bytes that are a range of the buffer, not a copy. *)
Definition slice_of (bytes l : list Z) : Prop :=
  ∃ start stop, 0 ≤ start ≤ stop ∧ stop ≤ zlen bytes ∧ l = sub_bytes bytes start stop.

Section typed.
Context (bytes : list Z).

(** A value the schema allows for a field, when [T] holds of the tables in it;
    a table nested at most [n] deep has one for each field, and no other. *)
Definition value_typed (T : Z → Fields → Prop) (f : FieldSpec) (v : fb_value) : Prop :=
  match fs_kind f, v with
  | KScalar, FInteger x => scalar_ok f x
  | KString, FText s => str_ok s
  | KTable, FTable t => T (fs_reference f) t
  | KUnion, FTable t => ∃ ref, ref ∈ fs_values f ∧ 0 ≤ ref ∧ T ref t
  | KScalarVector, FBytes l => is_byte_vector f = true ∧ slice_of bytes l
  | KScalarVector, FVector vs => Forall (λ v, ∃ x, v = FInteger x ∧ scalar_ok f x) vs
  | KStringVector, FVector vs => Forall (λ v, ∃ s, v = FText s ∧ str_ok s) vs
  | KTableVector, FVector vs => Forall (λ v, ∃ t, v = FTable t ∧ T (fs_reference f) t) vs
  | k, FNull => k ≠ KScalar ∧ fs_required f = false
  | _, _ => False
  end.

Definition fields_typed (T : Z → Fields → Prop) (specs : list FieldSpec) (fields : Fields) : Prop :=
  Forall (λ f, ∃ v, fields_get (fs_name f) fields = Some v ∧ value_typed T f v) specs ∧
  ∀ k, is_Some (fields_get k fields) → k ∈ fs_name <$> specs.

Fixpoint typed (n : nat) (reference : Z) (fields : Fields) : Prop :=
  match n with
  | O => False
  | S n => ∃ spec, table_spec reference = Some spec ∧ fields_typed (typed n) (ts_fields spec) fields
  end.
End typed.

Lemma fields_get_insert key v fields : fields_get key (fields_insert key v fields) = Some v.
Proof.
  induction fields as [|[k w] fields IH]; simpl; [by rewrite String.eqb_refl|].
  destruct (String.compare key k) eqn:E; simpl; [by rewrite String.eqb_refl..|].
  destruct (String.eqb_spec k key) as [->|]; [|done].
  pose proof (String.compare_antisym key key) as HA. by rewrite E in HA.
Qed.

Lemma fields_get_insert_ne key k v fields : k ≠ key →
  fields_get k (fields_insert key v fields) = fields_get k fields.
Proof.
  intros Hne. induction fields as [|[k' w] fields IH]; simpl; [by rewrite (proj2 (String.eqb_neq key k))|].
  destruct (String.compare key k') eqn:E; simpl.
  - apply String.compare_eq_iff in E as ->. by rewrite (proj2 (String.eqb_neq k' k)).
  - by rewrite (proj2 (String.eqb_neq key k)).
  - by rewrite IH.
Qed.

Section typing.
Context (bytes : list Z) (Hbytes : bytes_ok bytes).
Context (T : Z → Fields → Prop) (pt : Z → Z → option (Z * Fields)).
Context (HT : ∀ o r h f, 0 ≤ o → pt o r = Some (h, f) → T r f).

Lemma plain_string_typed o v : plain_string bytes o = Some v → ∃ s, v = FText s ∧ str_ok s.
Proof.
  unfold plain_string. intros (l & _ & (s & Hs & ->)%fmap_Some)%bind_Some.
  exists s. split; [done|]. apply okv_Some in Hs. by eapply text_at_Ok.
Qed.

(** What an element of a vector of this kind is. *)
Definition element_typed (f : FieldSpec) (v : fb_value) : Prop :=
  match fs_kind f with
  | KScalarVector => ∃ x, v = FInteger x ∧ scalar_ok f x
  | KStringVector => ∃ s, v = FText s ∧ str_ok s
  | KTableVector => ∃ t, v = FTable t ∧ T (fs_reference f) t
  | _ => False
  end.

Lemma plain_element_typed f position h v : 0 ≤ position → field_ok f = true →
  plain_element bytes pt f position = Some (h, v) → element_typed f v.
Proof.
  intros Hp Hf. unfold plain_element, element_typed. destruct (fs_kind f); try done.
  - intros (x & Hx%okv_Some & [= _ <-])%bind_Some. exists x. split; [done|]. by eapply scalar_Ok.
  - intros (o & _ & (t & Ht & [= _ <-])%bind_Some)%bind_Some. by eapply plain_string_typed.
  - intros (o & Ho%okv_Some & ([h' t] & Ht & [= _ <-])%bind_Some)%bind_Some.
    apply target_Ok in Ho; [|done].
    exists t. split; [done|]. eapply HT; [|done]. lia.
Qed.

Lemma plain_elements_typed f start width count : field_ok f = true → 0 ≤ start → 0 ≤ width →
  ∀ index h0 h vs, 0 ≤ index →
  plain_elements bytes pt count f start width index h0 = Some (h, vs) → Forall (element_typed f) vs.
Proof.
  intros Hf Hs Hw. induction count as [|count IH]; intros index h0 h vs Hi; simpl; [by intros [= _ <-]|].
  intros ([h1 v] & Hv & ([h2 vs'] & Hvs & [= _ <-])%bind_Some)%bind_Some.
  constructor; [eapply plain_element_typed; [|done..]; nia|]. eapply IH; [|done]. lia.
Qed.

Lemma plain_vector_typed f o h v : 0 ≤ o → field_ok f = true →
  plain_vector bytes pt o f = Some (h, v) →
  match fs_kind f with KScalar | KString | KTable | KUnion => True | _ => value_typed bytes T f v end.
Proof.
  intros Ho Hf. unfold plain_vector. intros (n & Hn%okv_Some & H)%bind_Some.
  destruct (is_byte_vector f) eqn:Eb.
  { injection H as _ <-. pose proof Eb as Eb'. unfold is_byte_vector in Eb'.
    apply andb_true_iff in Eb' as [[Ek _]%andb_true_iff _]. apply bool_decide_eq_true in Ek.
    unfold value_typed. rewrite Ek. split; [done|]. apply vector_length_Ok in Hn as [? Hin]; [|done..].
    unfold is_byte_vector in Eb. apply andb_true_iff in Eb as [[_ Ew]%andb_true_iff _].
    apply Z.eqb_eq in Ew. rewrite Ew in Hin. exists (o + 4), (o + 4 + n). split_and!; [lia|lia|lia|done]. }
  apply bind_Some in H as ([h' vs] & Hvs & [= _ <-]).
  apply plain_elements_typed in Hvs; [|done|lia| |lia].
  - unfold element_typed, value_typed in *. by destruct (fs_kind f).
  - pose proof (width_pos _ (vector_width_in f Hf)). lia.
Qed.

Lemma plain_present_typed f position tag h v tag' : 0 ≤ position → field_ok f = true →
  plain_present bytes pt f position tag = Some (h, v, tag') → value_typed bytes T f v.
Proof.
  intros Hp Hf. assert (∀ o, okv (target bytes position) = Some o → 0 ≤ o) as Hoff.
  { intros o Ho%okv_Some%target_Ok; [lia|done]. }
  unfold plain_present. destruct (fs_kind f) eqn:Ek.
  - intros (x & Hx%okv_Some & [= _ <- _])%bind_Some. unfold value_typed. rewrite Ek. by eapply scalar_Ok.
  - intros (o & _ & (t & Ht & [= _ <- _])%bind_Some)%bind_Some.
    apply plain_string_typed in Ht as (s & -> & Hs). unfold value_typed. by rewrite Ek.
  - intros (r & Hr%okv_Some & (o & Ho%Hoff & ([h' t] & Ht & [= _ <- _])%bind_Some)%bind_Some)%bind_Some.
    unfold value_typed. rewrite Ek. unfold child_reference in Hr. rewrite Ek in Hr.
    injection Hr as <-. by eapply HT.
  - intros (o & Ho%Hoff & ([h' w] & Hw & [= _ <- _])%bind_Some)%bind_Some.
    apply plain_vector_typed in Hw; [|done..]. by rewrite Ek in Hw.
  - intros (o & Ho%Hoff & ([h' w] & Hw & [= _ <- _])%bind_Some)%bind_Some.
    apply plain_vector_typed in Hw; [|done..]. by rewrite Ek in Hw.
  - intros (o & Ho%Hoff & ([h' w] & Hw & [= _ <- _])%bind_Some)%bind_Some.
    apply plain_vector_typed in Hw; [|done..]. by rewrite Ek in Hw.
  - intros (r & Hr%okv_Some & (o & Ho%Hoff & ([h' t] & Ht & [= _ <- _])%bind_Some)%bind_Some)%bind_Some.
    unfold value_typed. rewrite Ek. unfold child_reference in Hr. rewrite Ek in Hr. simpl in Hr.
    unfold union_target in Hr. destruct (tag =? 0); [done|].
    destruct (fs_values f !! Z.to_nat tag) as [ref|] eqn:Er; [|done].
    destruct (ref <? 0) eqn:Eneg; [done|]. injection Hr as <-.
    exists ref. split_and!; [by eapply list_elem_of_lookup_2|lia|by eapply HT].
Qed.

Lemma absent_value_typed f tag v : field_ok f = true → absent_value f tag = Ok v → value_typed bytes T f v.
Proof.
  intros [[Hw Hd]%andb_true_iff _]%andb_true_iff. unfold absent_value. destruct (_ || _) eqn:E; [done|]. intros [= <-].
  apply orb_false_iff in E as [Hreq _]. unfold value_typed.
  destruct (bool_decide (fs_kind f = KScalar)) eqn:Ek.
  - apply bool_decide_eq_true in Ek. rewrite Ek. unfold default_ok in Hd. rewrite Ek in Hd.
    apply andb_true_iff in Hd as [[[H1 H2]%andb_true_iff H3]%andb_true_iff H4].
    split_and!; [lia|lia|unfold MAX_INTEGER; lia|]. intros Hne.
    apply orb_true_iff in H4 as [[H4|H4]%orb_true_iff|H4]; [by apply bool_decide_eq_true in H4|done|].
    apply bool_decide_eq_true in H4. unfold as_signed. by rewrite (proj2 (Z.ltb_lt _ _)) by lia.
  - apply bool_decide_eq_false in Ek. by destruct (fs_kind f).
Qed.

Lemma plain_field_typed o vt vs os slot f tag h v tag' : 0 ≤ o → 0 ≤ vt → 0 ≤ slot → field_ok f = true →
  plain_field bytes pt o vt vs os slot f tag = Some (h, v, tag') → value_typed bytes T f v.
Proof.
  intros Ho Hv Hs Hf. unfold plain_field. intros (rel & Hr%okv_Some & H)%bind_Some.
  apply field_relative_Ok in Hr; [|done..]. destruct (rel =? 0).
  - apply bind_Some in H as (w & Hw%okv_Some & [= _ <- _]). by eapply absent_value_typed.
  - destruct (_ || _); [done|]. eapply plain_present_typed; [|done..]. lia.
Qed.

Lemma plain_fields_typed o vt vs os specs : 0 ≤ o → 0 ≤ vt → ∀ done slot h0 tag fields h fs,
  Forall (λ f, field_ok f = true) specs → NoDup (fs_name <$> done ++ specs) → 0 ≤ slot →
  fields_typed bytes T done fields →
  plain_fields bytes pt o vt vs os slot specs h0 tag fields = Some (h, fs) →
  fields_typed bytes T (done ++ specs) fs.
Proof.
  intros Ho Hv. induction specs as [|f specs IH]; intros dn slot h0 tag fields h fs Hok Hnd Hs Ht; simpl.
  { intros [= _ <-]. by rewrite app_nil_r. }
  apply Forall_cons in Hok as [Hf Hok].
  intros ([[h1 v] tag'] & Hv1 & H)%bind_Some. apply plain_field_typed in Hv1; [|done..].
  assert (fs_name f ∉ fs_name <$> dn) as Hfresh.
  { rewrite fmap_app, fmap_cons in Hnd. apply NoDup_app in Hnd as (_ & Hdisj & _).
    intros Hin. apply (Hdisj _ Hin). by left. }
  rewrite cons_middle, app_assoc in *. eapply IH; [done|done| | |exact H]; [lia|].
  destruct Ht as [Ht1 Ht2]. split.
  - apply Forall_app. split.
    + apply Forall_forall. intros f' Hf'. rewrite Forall_forall in Ht1.
      destruct (Ht1 f' Hf') as (w & Hw & ?). exists w. split; [|done].
      rewrite fields_get_insert_ne; [done|]. intros E. apply Hfresh. rewrite <-E.
      by apply list_elem_of_fmap_2.
    + apply Forall_singleton. exists v. by rewrite fields_get_insert.
  - intros k Hk. rewrite fmap_app. apply elem_of_app. destruct (decide (k = fs_name f)) as [->|Hne].
    + right. by apply list_elem_of_singleton.
    + left. apply Ht2. by rewrite fields_get_insert_ne in Hk.
Qed.
End typing.

Lemma plain_table_typed bytes n : bytes_ok bytes → ∀ o r h f, 0 ≤ o →
  plain_table bytes n o r = Some (h, f) → typed bytes n r f.
Proof.
  intros Hb. induction n as [|n IH]; intros o r h f Ho; [done|]. simpl.
  unfold plain_new_table.
  intros ([[vt vs] os] & Hh%okv_Some & (spec & Hspec & H)%bind_Some)%bind_Some.
  apply table_header_Ok in Hh; [|done].
  exists spec. split; [done|]. destruct (table_spec_ok r spec Hspec) as [Hok Hnd].
  apply (plain_fields_typed bytes Hb (typed bytes n) (plain_table bytes n) IH o vt vs os (ts_fields spec) Ho Hh [] 0 1 0 []
    h f); [done|done|lia| |done].
  split; [constructor|]. by intros k [? ?].
Qed.

(** ** Properties *)

(** The range reader and the vtable: a YIELD of one argument, with an empty
    dictionary as its metadata. *)
Definition demo_yield_frame : list Z :=
  [24; 0; 0; 0;
   10; 0; 16; 0; 4; 0; 8; 0; 12; 0;
   10; 0; 16; 0; 0; 0; 8; 0; 4; 0;
   20; 0; 0; 0; 25; 0; 0; 0; 8; 0; 0; 0; 28; 0; 0; 0;
   26; 0; 0; 0; 12; 0; 0; 0; 7; 0; 0; 0; 0; 0; 0; 0;
   2; 0; 0; 0; 0x81; 1; 0; 0;
   1; 0; 0; 0; 0xa0; 0; 0; 0].

Lemma demo_yield_bytes : bytes_ok demo_yield_frame.
Proof. unfold bytes_ok, u8_ok. repeat constructor; lia. Qed.

Lemma plain_read_typed bytes fields : bytes_ok bytes → plain_read bytes = Some fields →
  typed bytes 64 ROOT fields.
Proof.
  intros Hb. unfold plain_read. remember 64%nat as N eqn:HN.
  intros (root & Hr%okv_Some & ([h f] & Hp & [= <-])%bind_Some)%bind_Some.
  apply target_Ok in Hr; [|done..]. eapply plain_table_typed; [done| |exact Hp]. lia.
Qed.

(** C37: sharing tables and strings and charging budgets do not change what a
    FlatBuffers buffer reads as.  On every byte string the reader returns; when
    it gives a message, that is the one the plain decoder gives, every field is
    of the kind, width and enumeration the schema declares, text is Unicode and
    byte vectors are ranges of the buffer; when it gives an error, the plain
    decoder fails too, or the error is one of the four budgets. *)
Theorem flatbuffers_read_exact bytes : bytes_ok bytes →
  match read bytes with
  | Ok fields => zlen bytes ≤ MAX_BYTES ∧ plain_read bytes = Some fields ∧ typed bytes 64 ROOT fields
  | Err e => plain_read bytes = None ∨ e ∈ budget_errors
  | Panic | NoFuel => False
  end.
Proof.
  intros Hb. pose proof (read_sim bytes Hb) as H. destruct (read bytes); [|done..].
  destruct H as [? Hp]. split_and!; [done..|]. by apply plain_read_typed.
Qed.

Lemma flatbuffers_read_exact_witness :
  ∃ fields, read demo_yield_frame = Ok fields ∧ plain_read demo_yield_frame = Some fields ∧
    typed demo_yield_frame 64 ROOT fields.
Proof.
  pose proof (flatbuffers_read_exact demo_yield_frame demo_yield_bytes) as H.
  destruct (read demo_yield_frame) as [fields|e| |] eqn:E;
    [|vm_compute in E; discriminate E..].
  exists fields. destruct H as (_ & H1 & H2). exact (conj eq_refl (conj H1 H2)).
Defined.
