(* ===== verification/FbProjection.v ===== *)
(** * FlatBuffers metadata

    [ct_core/src/wamp/flatbuffers_projection.rs]: the typed fields of a message
    must agree with its CBOR metadata dictionary.  [project] computes the fields
    a dictionary stands for, [agree] compares them with the fields read. *)
From S2P Require Import Prelude Bytes Text WampTypes CborScanner FbSchema FbWire FbRead.

(** [["a", "b"].contains(&key)] *)
Definition one_of (key : string) (keys : list string) : bool := existsb (String.eqb key) keys.

(** [==] on [Value]. *)
Fixpoint fb_eqb (a b : fb_value) : bool :=
  let fix fields_eqb (l k : list (string * fb_value)) : bool :=
    match l, k with
    | [], [] => true
    | (x, v) :: l, (y, w) :: k => String.eqb x y && fb_eqb v w && fields_eqb l k
    | _, _ => false
    end in
  let fix list_eqb (l k : list fb_value) : bool :=
    match l, k with
    | [], [] => true
    | v :: l, w :: k => fb_eqb v w && list_eqb l k
    | _, _ => false
    end in
  match a, b with
  | FNull, FNull => true
  | FInteger n, FInteger m => n =? m
  | FText s, FText t => str_eqb s t
  | FBytes l, FBytes k => bool_decide (l = k)
  | FTable l, FTable k => fields_eqb l k
  | FVector l, FVector k => list_eqb l k
  | _, _ => false
  end.

(** [map.get(&Cbor::String(key))] on the entries of a [BTreeMap]. *)
Definition is_key (key : str) (v : value) : bool :=
  match v with VString s => str_eqb s key | _ => false end.

Definition map_get (map : ValueMap) (key : str) : option value :=
  (λ p, p.2.2) <$> list_find (λ p, is_key key p.1 = true) map.

Definition get_key (map : ValueMap) (key : string) : option value := map_get map (lit key).

Definition ignored (name key : string) : bool :=
  if one_of key ["session"; "request"; "args"; "kwargs"; "payload"; "method"; "method_name"]%string
  then true
  else if (name =? "Hello")%string then (key =? "realm")%string
  else if (name =? "Authenticate")%string then (key =? "signature")%string
  else if one_of name ["Abort"; "Goodbye"]%string then (key =? "reason")%string
  else if (name =? "Error")%string then one_of key ["request_type"; "error"]%string
  else if one_of name ["Publish"; "Subscribe"]%string then (key =? "topic")%string
  else if (name =? "Event")%string then one_of key ["subscription"; "publication"]%string
  else if (name =? "Published")%string then (key =? "publication")%string
  else if one_of name ["Subscribed"; "Unsubscribe"]%string then (key =? "subscription")%string
  else if one_of name ["Registered"; "Unregister"]%string then (key =? "registration")%string
  else if one_of name ["Call"; "Register"]%string then (key =? "procedure")%string
  else if (name =? "Invocation")%string then (key =? "registration")%string
  else false.

Definition unsigned (v : value) : option Z :=
  n ← match v with
      | VU8 n | VU16 n | VU32 n | VU64 n => Some n
      | VI8 n | VI16 n | VI32 n | VI64 n => if n <? 0 then None else Some n
      | _ => None
      end;
  if n <=? MAX_INTEGER then Some n else None.

Definition enumeration (key : string) : option (list (string * Z)) :=
  if one_of key ["method"; "authmethod"; "authmethods"]%string then
    Some [("anonymous", 0); ("ticket", 1); ("wampcra", 2); ("wamp-scram", 3); ("cryptosign", 4)]%string
  else if (key =? "match")%string then Some [("exact", 0); ("prefix", 1); ("wildcard", 2)]%string
  else if (key =? "invoke")%string then
    Some [("single", 0); ("first", 1); ("last", 2); ("roundrobin", 3); ("random", 4)]%string
  else if (key =? "mode")%string then Some [("skip", 0); ("kill", 1); ("killnowait", 2)]%string
  else if (key =? "ppt_scheme")%string then
    Some [("cryptobox", 1); ("mqtt", 2); ("xbr", 3); ("opaque", 4)]%string
  else if (key =? "ppt_serializer")%string then
    Some [("transport", 0); ("json", 1); ("msgpack", 2); ("cbor", 3); ("ubjson", 4); ("opaque", 5);
          ("flatbuffers", 6); ("flexbuffers", 7)]%string
  else if (key =? "ppt_cipher")%string then Some [("xsalsa20poly1305", 1); ("aes256gcm", 2)]%string
  else None.

(** [enumeration.iter().find(|(name, _)| *name == value)] *)
Definition enum_find (e : list (string * Z)) (name : str) : option Z :=
  (λ p, p.2.2) <$> list_find (λ p, str_eqb (lit p.1) name = true) e.

Definition field_type_error {A} : outcome ParseError A := Err (invalid "metadata field type").

(** [&schema::TABLES[reference]] *)
Definition table_index (reference : Z) : outcome ParseError TableSpec :=
  match table_spec reference with Some t => Ok t | None => Panic end.

(** [value == Some(&Cbor::Unit)] *)
Definition is_unit (v : value) : bool := match v with VUnit => true | _ => false end.

Definition is_extra (name : string) (field : FieldSpec) : bool :=
  (fs_name field =? "extra")%string && one_of name ["Challenge"; "Authenticate"]%string.

(** ** Projections, by kind of field *)
Definition project_string (v : option value) : outcome ParseError (option fb_value) :=
  match v with Some (VString s) => Ok (Some (FText s)) | _ => field_type_error end.

Definition is_boolean_field (field : FieldSpec) : bool :=
  (fs_width field =? 1) && bool_decide (fs_values field = [0; 1]).

Definition project_scalar (field : FieldSpec) (v : option value) : outcome ParseError (option fb_value) :=
  match enumeration (fs_name field) with
  | Some e =>
      match v with
      | Some (VString s) => Ok (FInteger <$> enum_find e s)
      | _ => field_type_error
      end
  | None =>
      if is_boolean_field field then
        match v with Some (VBool b) => Ok (Some (FInteger (Z.b2z b))) | _ => field_type_error end
      else match v ≫= unsigned with
      | Some integer =>
          let maximum := if fs_width field =? 8 then MAX_INTEGER
                         else Z.shiftl 1 (fs_width field * 8) - 1 in
          Ok (if integer <=? maximum then Some (FInteger integer) else None)
      | None => field_type_error
      end
  end.

(** An element of a projected vector: [Ok None] is skipped. *)
Definition project_item (field : FieldSpec) (v : value) : outcome ParseError (option fb_value) :=
  if (fs_name field =? "authmethods")%string then
    match v, enumeration (fs_name field) with
    | VString name, Some e =>
        if bool_decide (name = []) then field_type_error else Ok (FInteger <$> enum_find e name)
    | VString name, None => if bool_decide (name = []) then field_type_error else Panic
    | _, _ => field_type_error
    end
  else if bool_decide (fs_kind field = KStringVector) then
    match v with VString s => Ok (Some (FText s)) | _ => field_type_error end
  else match unsigned v with Some n => Ok (Some (FInteger n)) | None => field_type_error end.

Definition project_vector (field : FieldSpec) (v : option value) : outcome ParseError (option fb_value) :=
  match v with
  | Some (VSeq vs) => items ← traverse_list (project_item field) vs; Ok (Some (FVector (omap id items)))
  | _ => field_type_error
  end.

(** [first.is_ascii_alphabetic() || first == '_'], then alphanumerics. *)
Definition is_identifier (key : str) : bool :=
  match key with
  | [] => false
  | c :: cs =>
      let alpha c := ((65 <=? c) && (c <=? 90)) || ((97 <=? c) && (c <=? 122)) in
      let digit c := (48 <=? c) && (c <=? 57) in
      (alpha c || (c =? 95)) && forallb (λ c, alpha c || digit c || (c =? 95)) cs
  end.

(** The first entry that fits a [Map] table. *)
Definition map_pair (p : value * value) : option fb_value :=
  match p with
  | (VString key, VString v) =>
      if is_identifier key then Some (FTable [("key", FText key); ("value", FText v)]%string) else None
  | _ => None
  end.

Definition project_map (source : ValueMap) : option fb_value := head (omap map_pair source).

(** The feature of a role: [payload_transparency] has another key. *)
Definition feature_key (name : string) : string :=
  if (name =? "payload_transparency")%string then "payload_passthru_mode" else name.

Definition project_feature (features : ValueMap) (fields : Fields) (feature : FieldSpec) :
    outcome ParseError Fields :=
  match get_key features (feature_key (fs_name feature)) with
  | None => Ok fields
  | Some v =>
      if is_unit v then Ok fields
      else match v with
      | VBool b => Ok (fields_insert (fs_name feature) (FInteger (Z.b2z b)) fields)
      | _ => field_type_error
      end
  end.

(** A loop with an early return. *)
Fixpoint try_fold {A B} (f : A → B → outcome ParseError A) (a : A) (l : list B) : outcome ParseError A :=
  match l with
  | [] => Ok a
  | b :: l => a ← f a b; try_fold f a l
  end.

Definition project_features (role : FieldSpec) (role_value : ValueMap) : outcome ParseError Fields :=
  match get_key role_value "features" with
  | None => Ok []
  | Some v =>
      if is_unit v then Ok []
      else match v with
      | VMap features =>
          table ← table_index (fs_reference role);
          try_fold (project_feature features) [] (ts_fields table)
      | _ => field_type_error
      end
  end.

Definition project_role (source : ValueMap) (roles : Fields) (role : FieldSpec) : outcome ParseError Fields :=
  match get_key source (fs_name role) with
  | None => Ok roles
  | Some v =>
      if is_unit v then Ok roles
      else match v with
      | VMap role_value =>
          features ← project_features role role_value;
          Ok (fields_insert (fs_name role) (FTable features) roles)
      | _ => field_type_error
      end
  end.

Definition project_table (map : ValueMap) (extra : bool) (field : FieldSpec) (v : option value) :
    outcome ParseError (option fb_value) :=
  source ← (if extra then Ok map
            else match v with Some (VMap m) => Ok m | _ => field_type_error end);
  table ← table_index (fs_reference field);
  if (ts_name table =? "Map")%string then Ok (project_map source)
  else roles ← try_fold (project_role source) [] (ts_fields table); Ok (Some (FTable roles)).

Definition project_principal_text (m : ValueMap) (principal : Fields) (key : string) :
    outcome ParseError Fields :=
  match get_key m key with
  | None => Ok principal
  | Some v =>
      if is_unit v then Ok principal
      else match v with
      | VString s => Ok (fields_insert key (FText s) principal)
      | _ => field_type_error
      end
  end.

Definition project_principal (v : value) : outcome ParseError fb_value :=
  match v with
  | VMap m =>
      principal ← match get_key m "session" with
                  | None => Ok []
                  | Some v =>
                      if is_unit v then Ok []
                      else match unsigned v with
                      | Some n => Ok (fields_insert "session" (FInteger n) [])
                      | None => field_type_error
                      end
                  end;
      principal ← try_fold (project_principal_text m) principal ["authid"; "authrole"]%string;
      Ok (FTable principal)
  | _ => field_type_error
  end.

Definition project_principals (v : option value) : outcome ParseError (option fb_value) :=
  match v with
  | Some (VSeq vs) => items ← traverse_list project_principal vs; Ok (Some (FVector items))
  | _ => field_type_error
  end.

Definition project_required (field : FieldSpec) : outcome ParseError (option fb_value) :=
  match fs_kind field with
  | KString => Ok (Some (FText []))
  | KTable => Ok (Some (FTable []))
  | _ => Err (invalid "required metadata")
  end.

(** What a field of the schema is projected to, if it is. *)
Definition project_field (name : string) (map : ValueMap) (field : FieldSpec) :
    outcome ParseError (option fb_value) :=
  if ignored name (fs_name field) then Ok None
  else
    let extra := is_extra name field in
    let v := if extra then None else get_key map (fs_name field) in
    if negb extra && (match v with None => true | Some v => is_unit v end) then
      if fs_required field then project_required field else Ok None
    else match fs_kind field with
    | KString => project_string v
    | KScalar => project_scalar field v
    | KScalarVector | KStringVector => project_vector field v
    | KTable => project_table map extra field v
    | KTableVector => project_principals v
    | KUnion => field_type_error
    end.

Definition project (name : string) (map : ValueMap) (reference : Z) : outcome ParseError Fields :=
  table ← table_index reference;
  try_fold (λ result field,
      projected ← project_field name map field;
      Ok (match projected with Some v => fields_insert (fs_name field) v result | None => result end))
    [] (ts_fields table).

(** ** Agreement *)
Definition field_value (fields : Fields) (field : FieldSpec) : fb_value :=
  default FNull (fields_get (fs_name field) fields).

(** [matches] and [table_matches], which call each other; [fuel] bounds the
    nesting of the tables. *)
Fixpoint matches (fuel : nat) (field : FieldSpec) (actual expected : fb_value) : outcome ParseError bool :=
  match fuel with
  | O => NoFuel
  | S fuel =>
      let table_matches reference (actual expected : Fields) : outcome ParseError bool :=
        table ← table_index reference;
        try_fold (λ ok field,
            if (ok : bool) then matches fuel field (field_value actual field) (field_value expected field)
            else Ok false) true (ts_fields table) in
      if bool_decide (fs_kind field = KScalar) then
        Ok (match expected with
            | FNull => fb_eqb actual (FInteger (fs_default field))
            | _ => fb_eqb actual expected
            end)
      else match actual, expected with
      | FTable a, FTable b =>
          if bool_decide (fs_kind field = KTable) then table_matches (fs_reference field) a b
          else Ok (fb_eqb actual expected)
      | FVector a, FVector b =>
          if bool_decide (fs_kind field = KTableVector) && (zlen a =? zlen b) then
            try_fold (λ ok p,
                if (ok : bool) then
                  match p with
                  | (FTable a, FTable b) => table_matches (fs_reference field) a b
                  | _ => Ok false
                  end
                else Ok false) true (zip a b)
          else Ok (fb_eqb actual expected)
      | _, _ => Ok (fb_eqb actual expected)
      end
  end.

(** [item != value] for the value of a [Map] table. *)
Definition same_scalar (item v : value) : bool :=
  match item, v with
  | VString s, VString t => str_eqb s t
  | VUnit, VUnit => true
  | _, _ => false
  end.

(** A [Map] table against the dictionary it was taken from. *)
Definition agree_map (name : string) (dictionary : ValueMap) (field : FieldSpec) (entry : Fields) :
    outcome ParseError unit :=
  let source := if is_extra name field then Some dictionary
                else match get_key dictionary (fs_name field) with Some (VMap m) => Some m | _ => None end in
  match fields_get "key" entry with
  | Some (FText key) =>
      let v := match fields_get "value" entry with
               | Some (FText s) => Some (VString s)
               | Some FNull => Some VUnit
               | _ => None
               end in
      match v, source ≫= λ m, map_get m key with
      | Some v, Some item =>
          if same_scalar item v then Ok tt else Err (invalid "contradictory Map metadata")
      | _, _ => Err (invalid "contradictory Map metadata")
      end
  | _ => Err (invalid "map key")
  end.

Definition agree_field (name : string) (body expected : Fields) (dictionary : ValueMap)
    (field : FieldSpec) : outcome ParseError unit :=
  if ignored name (fs_name field) then Ok tt
  else
    let actual := field_value body field in
    let target := field_value expected field in
    is_map ← (if bool_decide (fs_kind field = KTable)
              then table ← table_index (fs_reference field); Ok (ts_name table =? "Map")%string
              else Ok false);
    match actual, is_map with
    | FTable entry, true => agree_map name dictionary field entry
    | _, _ =>
        same ← matches 64 field actual target;
        if (same : bool) then Ok tt else Err (invalid "contradictory metadata")
    end.

Definition agree (name : string) (body : Fields) (dictionary : ValueMap) (reference : Z) :
    outcome ParseError unit :=
  expected ← project name dictionary reference;
  table ← table_index reference;
  _ ← traverse_list (agree_field name body expected dictionary) (ts_fields table);
  Ok tt.

(** ** The projection returns *)
Lemma returns_try_fold {A B} (f : A → B → outcome ParseError A) (l : list B) :
  Forall (λ b, ∀ a, returns (f a b)) l → ∀ a, returns (try_fold f a l).
Proof.
  induction 1 as [|b l Hb _ IH]; intros a; simpl; [done|].
  apply returns_bind; [done|]. intros a' _. apply IH.
Qed.

Lemma returns_table_index reference : index_ok reference = true → returns (table_index reference).
Proof. intros [t Ht]%index_ok_Some. unfold table_index. by rewrite Ht. Qed.

Lemma table_index_Ok reference t : table_index reference = Ok t → table_spec reference = Some t.
Proof. unfold table_index. by case_match; intros [= ->]. Qed.

Lemma field_ok_reference f : field_ok f = true → index_ok (fs_reference f) = true.
Proof. by intros [_ [H _]%andb_true_iff]%andb_true_iff. Qed.

Lemma table_index_fields reference t : table_index reference = Ok t →
  Forall (λ f, field_ok f = true) (ts_fields t).
Proof. intros Ht%table_index_Ok. by apply table_spec_ok in Ht as [? _]. Qed.

#[local] Ltac returns_cases :=
  repeat first
    [ done
    | apply returns_bind; [|intros ? ?]
    | apply returns_table_index, field_ok_reference; assumption
    | case_match ].

Lemma returns_project_features role v : field_ok role = true → returns (project_features role v).
Proof.
  intros Hr. unfold project_features. returns_cases.
  apply returns_try_fold, Forall_forall. intros f _ fields. unfold project_feature. returns_cases.
Qed.

Lemma returns_project_table map extra f v : field_ok f = true → returns (project_table map extra f v).
Proof.
  intros Hf. unfold project_table. apply returns_bind; [returns_cases|]. intros source _.
  apply returns_bind; [by apply returns_table_index, field_ok_reference|]. intros t Ht.
  case_match; [done|]. apply returns_bind; [|done].
  apply returns_try_fold. eapply Forall_impl; [by eapply table_index_fields|]. intros role Hrole a.
  unfold project_role. returns_cases. by apply returns_project_features.
Qed.

Lemma returns_project_item f v : returns (project_item f v).
Proof.
  unfold project_item. destruct (String.eqb_spec (fs_name f) "authmethods") as [E|];
    [rewrite E; simpl|]; returns_cases.
Qed.

Lemma returns_project_principal v : returns (project_principal v).
Proof.
  unfold project_principal. destruct v; try done. apply returns_bind; [returns_cases|]. intros p _.
  apply returns_bind; [|done]. apply returns_try_fold, Forall_forall. intros key _ a.
  unfold project_principal_text. returns_cases.
Qed.

Lemma returns_project_field name map f : field_ok f = true → returns (project_field name map f).
Proof.
  intros Hf. unfold project_field. destruct (ignored _ _); [done|]. cbv zeta.
  generalize (if is_extra name f then None else get_key map (fs_name f)). intros v.
  destruct (_ && _). { unfold project_required. returns_cases. }
  destruct (fs_kind f).
  - unfold project_scalar. returns_cases.
  - unfold project_string. returns_cases.
  - by apply returns_project_table.
  - unfold project_vector. returns_cases. apply returns_traverse_list, Forall_forall.
    intros w _. apply returns_project_item.
  - unfold project_vector. returns_cases. apply returns_traverse_list, Forall_forall.
    intros w _. apply returns_project_item.
  - unfold project_principals. returns_cases. apply returns_traverse_list, Forall_forall.
    intros w _. apply returns_project_principal.
  - done.
Qed.

Lemma returns_project name map reference : index_ok reference = true → returns (project name map reference).
Proof.
  intros Hr. unfold project. apply returns_bind; [by apply returns_table_index|]. intros t Ht.
  apply returns_try_fold. eapply Forall_impl; [by eapply table_index_fields|]. intros f Hf a.
  apply returns_bind; [by apply returns_project_field|done].
Qed.

(** ** The comparison returns, within the depth of what was read *)
Section agree.
Context (bytes : list Z).

Lemma typed_field n reference fields t f : typed bytes (S n) reference fields →
  table_index reference = Ok t → f ∈ ts_fields t →
  value_typed bytes (typed bytes n) f (field_value fields f).
Proof.
  intros (spec & Hs & Hf & _) Ht%table_index_Ok Hin. assert (t = spec) as -> by congruence.
  rewrite Forall_forall in Hf. destruct (Hf f Hin) as (v & Hv & ?).
  unfold field_value. by rewrite Hv.
Qed.

Lemma returns_matches n : ∀ fuel f actual expected, (n < fuel)%nat → field_ok f = true →
  value_typed bytes (typed bytes n) f actual → returns (matches fuel f actual expected).
Proof.
  induction n as [|n IH]; intros [|fuel] f actual expected Hn Hf Ht; try lia; simpl.
  all: destruct (bool_decide (fs_kind f = KScalar)) eqn:Ek; [done|].
  all: unfold value_typed in Ht.
  { destruct actual, expected; try done; destruct (fs_kind f); simpl; try done; try (by destruct Ht as (?&?&?&?)).
    destruct (_ =? _); simpl; [|done]. apply returns_try_fold, Forall_forall. intros [a b] Hab ok.
    destruct ok; [|done]. apply elem_of_zip_l in Hab. rewrite Forall_forall in Ht.
    by destruct (Ht a Hab) as (t & -> & []). }
  assert (∀ reference a b, index_ok reference = true → typed bytes (S n) reference a →
    returns (table ← table_index reference;
             try_fold (λ (ok : bool) field,
               if ok then matches fuel field (field_value a field) (field_value b field) else Ok false)
               true (ts_fields table))) as Htable.
  { intros reference a b Hr Ha. apply returns_bind; [by apply returns_table_index|]. intros t Ht'.
    apply returns_try_fold. pose proof (table_index_fields _ _ Ht') as Hok. rewrite Forall_forall in Hok.
    apply Forall_forall. intros f' Hf' []; [|done]. apply IH; [lia|by apply Hok|].
    by eapply typed_field. }
  destruct actual, expected; try done; destruct (fs_kind f); simpl; try done.
  - apply Htable; [by apply field_ok_reference|done].
  - destruct (_ =? _); simpl; [|done]. apply returns_try_fold, Forall_forall. intros [a b] Hab ok.
    destruct ok; [|done]. apply elem_of_zip_l in Hab. rewrite Forall_forall in Ht.
    destruct (Ht a Hab) as (t & -> & Ha). destruct b; try done.
    apply Htable; [by apply field_ok_reference|done].
Qed.

Lemma returns_agree name body dictionary reference n : (n ≤ 64)%nat → typed bytes n reference body →
  returns (agree name body dictionary reference).
Proof.
  intros Hn Ht. destruct n as [|n]; [done|]. pose proof Ht as (spec & Hspec & _).
  assert (index_ok reference = true) as Hr by (apply index_ok_Some; eauto).
  unfold agree. apply returns_bind; [by apply returns_project|]. intros expected _.
  apply returns_bind; [by apply returns_table_index|]. intros t Ht'.
  apply returns_bind; [|done]. apply returns_traverse_list, Forall_forall. intros f Hf.
  pose proof (table_index_fields _ _ Ht') as Hok. rewrite Forall_forall in Hok.
  unfold agree_field. case_match; [done|]. apply returns_bind.
  { case_match; [|done]. apply returns_bind; [by apply returns_table_index, field_ok_reference, Hok|done]. }
  intros is_map _.
  assert (returns (matches 64 f (field_value body f) (field_value expected f))) as Hm.
  { apply (returns_matches n); [lia|by apply Hok|]. by eapply typed_field. }
  assert (∀ same : bool, returns (E:=ParseError) (if same then Ok () else Err (invalid "contradictory metadata")))
    as Hs by (by intros []).
  assert (∀ entry, returns (agree_map name dictionary f entry)) as Hmap.
  { intros entry. unfold agree_map. returns_cases. }
  destruct (field_value body f), is_map; try apply Hmap; (apply returns_bind; [exact Hm|intros same _; apply Hs]).
Qed.
End agree.

(** ** Agreement, exactly

    What a metadata entry [v] says of a field of the schema.  A value an
    enumeration does not know, and an integer too wide for the field, say
    nothing: the field has its default. *)
Definition field_maximum (f : FieldSpec) : Z :=
  if fs_width f =? 8 then MAX_INTEGER else 2 ^ (8 * fs_width f) - 1.

Definition scalar_entry (f : FieldSpec) (v : value) (x : fb_value) : Prop :=
  match enumeration (fs_name f) with
  | Some e => ∃ s, v = VString s ∧ x = FInteger (default (fs_default f) (enum_find e s))
  | None =>
      if is_boolean_field f then ∃ b, v = VBool b ∧ x = FInteger (Z.b2z b)
      else ∃ n, unsigned v = Some n ∧
             x = FInteger (if n <=? field_maximum f then n else fs_default f)
  end.

Definition entry_says (f : FieldSpec) (v : option value) (x : fb_value) : Prop :=
  match v with
  | None | Some VUnit =>
      x = if bool_decide (fs_kind f = KScalar) then FInteger (fs_default f)
          else if fs_required f then FText [] else FNull
  | Some v =>
      match fs_kind f with
      | KScalar => scalar_entry f v x
      | KString => ∃ s, v = VString s ∧ x = FText s
      | _ => ∃ vs items, v = VSeq vs ∧ traverse_list (project_item f) vs = Ok items ∧
               x = FVector (omap id items)
      end
  end.

Lemma fb_eqb_eq : ∀ a b, fb_eqb a b = true → a = b.
Proof.
  fix IH 1. intros [|n|s|l|l|l] [|m|t|k|k|k]; simpl; try discriminate; intros H.
  - done.
  - f_equal. by apply Z.eqb_eq.
  - f_equal. by apply str_eqb_eq.
  - f_equal. by apply bool_decide_eq_true in H.
  - f_equal. revert k H. induction l as [|[x v] l IHl]; intros [|[y w] k] H; try done.
    apply andb_true_iff in H as [[->%String.eqb_eq Hv]%andb_true_iff Hl].
    f_equal; [f_equal; by apply IH|by apply IHl].
  - f_equal. revert k H. induction l as [|v l IHl]; intros [|w k] H; try done.
    apply andb_true_iff in H as [Hv Hl]. f_equal; [by apply IH|by apply IHl].
Qed.

Definition projected_or (f : FieldSpec) (p : option fb_value) : fb_value :=
  match p with
  | Some v => v
  | None => if bool_decide (fs_kind f = KScalar) then FInteger (fs_default f) else FNull
  end.

Lemma try_fold_project name map (specs : list FieldSpec) : NoDup (fs_name <$> specs) → ∀ acc result,
  try_fold (λ result field,
      projected ← project_field name map field;
      Ok (match projected with Some v => fields_insert (fs_name field) v result | None => result end))
    acc specs = Ok result →
  (∀ k, k ∉ fs_name <$> specs → fields_get k result = fields_get k acc) ∧
  ∀ f, f ∈ specs → fields_get (fs_name f) acc = None →
    project_field name map f = Ok (fields_get (fs_name f) result).
Proof.
  induction specs as [|g specs IH]; intros Hnd acc result H.
  { simpl in H. injection H as <-. split; [done|]. by intros f ?%elem_of_nil. }
  rewrite fmap_cons in Hnd. apply NoDup_cons in Hnd as [Hg Hnd].
  apply bind_Ok_inv in H as (acc' & Ha & H). apply bind_Ok_inv in Ha as (p & Hp & [= <-]).
  destruct (IH Hnd _ _ H) as [Hout Hin]. clear IH H.
  assert (∀ k, k ≠ fs_name g →
    fields_get k (match p with Some v => fields_insert (fs_name g) v acc | None => acc end)
    = fields_get k acc) as Hother.
  { intros k Hk. destruct p; [|done]. by apply fields_get_insert_ne. }
  split.
  - intros k [? ?]%not_elem_of_cons. rewrite Hout by done. by apply Hother.
  - intros f Hf Hnone. apply elem_of_cons in Hf as [->|Hf].
    + rewrite Hout by done. rewrite Hp. destruct p; [by rewrite fields_get_insert|by rewrite Hnone].
    + apply Hin; [done|]. rewrite Hother; [done|]. intros Heq. apply Hg.
      rewrite <-Heq. by apply list_elem_of_fmap_2.
Qed.

Lemma project_get name map reference spec expected f : table_spec reference = Some spec →
  project name map reference = Ok expected → f ∈ ts_fields spec →
  project_field name map f = Ok (fields_get (fs_name f) expected).
Proof.
  intros Hs. unfold project, table_index. rewrite Hs. simpl. intros H Hf.
  destruct (table_spec_ok _ _ Hs) as [_ Hnd].
  by destruct (try_fold_project name map (ts_fields spec) Hnd [] expected H) as [_ ->].
Qed.

Lemma traverse_list_Ok {E A B} (g : A → outcome E B) l bs : traverse_list g l = Ok bs →
  ∀ a, a ∈ l → ∃ b, g a = Ok b.
Proof.
  revert bs. induction l as [|x l IH]; intros bs H a Ha; [by apply elem_of_nil in Ha|].
  apply bind_Ok_inv in H as (b & Hb & H). apply bind_Ok_inv in H as (bs' & Hbs & _).
  apply elem_of_cons in Ha as [->|Ha]; [by eexists|by eapply IH].
Qed.

Definition plain_kind (k : Kind) : bool :=
  bool_decide (k = KScalar) || bool_decide (k = KString) || bool_decide (k = KScalarVector)
  || bool_decide (k = KStringVector).

(** A field of a plain kind that agrees has its projection. *)
Lemma matches_plain f actual expected fuel : plain_kind (fs_kind f) = true →
  (fs_kind f = KScalar → expected ≠ FNull → ∃ n, expected = FInteger n) →
  matches (S fuel) f actual expected = Ok true →
  actual = match expected with
           | FNull => if bool_decide (fs_kind f = KScalar) then FInteger (fs_default f) else FNull
           | _ => expected
           end.
Proof.
  intros Hk Hscalar. cbn [matches]. destruct (bool_decide (fs_kind f = KScalar)) eqn:Ek.
  - intros [= H]. destruct expected; by apply fb_eqb_eq.
  - rewrite (bool_decide_eq_false_2 (fs_kind f = KTable)) by (intros E; by rewrite E in Hk).
    rewrite (bool_decide_eq_false_2 (fs_kind f = KTableVector)) by (intros E; by rewrite E in Hk).
    intros H. assert (Ok (E:=ParseError) (fb_eqb actual expected) = Ok true) as [= Heq]
      by (destruct actual, expected; exact H).
    apply fb_eqb_eq in Heq as ->. by destruct expected.
Qed.

Lemma project_scalar_says f v p : fs_kind f = KScalar → project_scalar f (Some v) = Ok p →
  scalar_entry f v (projected_or f p) ∧ ∀ w, p = Some w → ∃ n, w = FInteger n.
Proof.
  intros Hk. unfold project_scalar, scalar_entry, projected_or.
  rewrite (bool_decide_eq_true_2 _ Hk).
  destruct (enumeration (fs_name f)) as [e|].
  - destruct v; try done. intros [= <-]. destruct (enum_find e s) eqn:E; simpl.
    + split; [by rewrite ?E; exists s; rewrite E|naive_solver].
    + split; [exists s; by rewrite E|done].
  - destruct (is_boolean_field f).
    + destruct v; try done. intros [= <-]. split; [by eexists|naive_solver].
    + simpl. destruct (unsigned v) as [n|]; [|done]. intros H.
      assert (field_maximum f = if fs_width f =? 8 then MAX_INTEGER else Z.shiftl 1 (fs_width f * 8) - 1) as Hm.
      { unfold field_maximum. rewrite Z.shiftl_1_l. by rewrite Z.mul_comm. }
      rewrite <-Hm in H. injection H as <-.
      destruct (n <=? field_maximum f) eqn:E; (split; [exists n; by rewrite E|naive_solver]).
Qed.

Lemma project_plain name map f p : plain_kind (fs_kind f) = true →
  ignored name (fs_name f) = false → is_extra name f = false → project_field name map f = Ok p →
  entry_says f (get_key map (fs_name f)) (projected_or f p) ∧ p ≠ Some FNull ∧
  (fs_kind f = KScalar → ∀ w, p = Some w → ∃ n, w = FInteger n).
Proof.
  intros Hk Hi He. unfold project_field. rewrite Hi, He. simpl.
  assert (∀ o, (if fs_required f then project_required f else Ok None) = Ok o →
    projected_or f o = (if bool_decide (fs_kind f = KScalar) then FInteger (fs_default f)
                        else if fs_required f then FText [] else FNull) ∧
    o ≠ Some FNull ∧ (fs_kind f = KScalar → ∀ w, o = Some w → ∃ n, w = FInteger n)) as Habsent.
  { intros o. unfold project_required, projected_or. destruct (fs_required f).
    - destruct (fs_kind f); try done; intros [= <-]; split_and!; done.
    - intros [= <-]. by split_and!. }
  assert (∀ v, is_unit v = false → match fs_kind f with
    | KString => project_string (Some v)
    | KScalar => project_scalar f (Some v)
    | KScalarVector | KStringVector => project_vector f (Some v)
    | KTable => project_table map false f (Some v)
    | KTableVector => project_principals (Some v)
    | KUnion => field_type_error
    end = Ok p →
    entry_says f (Some v) (projected_or f p) ∧ p ≠ Some FNull ∧
    (fs_kind f = KScalar → ∀ w, p = Some w → ∃ n, w = FInteger n)) as Hpresent.
  { intros v Hv H. unfold entry_says. replace (match v with VUnit => _ | _ => _ end) with
      (match fs_kind f with
       | KScalar => scalar_entry f v (projected_or f p)
       | KString => ∃ s, v = VString s ∧ projected_or f p = FText s
       | _ => ∃ vs items, v = VSeq vs ∧ traverse_list (project_item f) vs = Ok items ∧
                projected_or f p = FVector (omap id items)
       end) by (by destruct v).
    destruct (fs_kind f) eqn:E; try done.
    - destruct (project_scalar_says _ _ _ E H) as [? Hn]. split_and!; [done| |done].
      intros ->. by destruct (Hn _ eq_refl).
    - destruct v; try done. injection H as <-. split_and!; [by eexists|done..].
    - unfold project_vector in H. destruct v; try done. apply bind_Ok_inv in H as (items & Hitems & [= <-]).
      split_and!; [by eexists _, _|done..].
    - unfold project_vector in H. destruct v; try done. apply bind_Ok_inv in H as (items & Hitems & [= <-]).
      split_and!; [by eexists _, _|done..]. }
  destruct (get_key map (fs_name f)) as [v|]; simpl; [|apply Habsent].
  destruct (is_unit v) eqn:Eu; [|by apply Hpresent].
  destruct v; try done. apply Habsent.
Qed.
Lemma agree_plain_field name body expected dictionary f :
  plain_kind (fs_kind f) = true → ignored name (fs_name f) = false → is_extra name f = false →
  project_field name dictionary f = Ok (fields_get (fs_name f) expected) →
  agree_field name body expected dictionary f = Ok tt →
  field_value body f = projected_or f (fields_get (fs_name f) expected).
Proof.
  intros Hk Hi He Hp. unfold agree_field. rewrite Hi.
  rewrite (bool_decide_eq_false_2 (fs_kind f = KTable)) by (intros E; by rewrite E in Hk).
  set (o := fields_get (fs_name f) expected) in *. intros H.
  assert (matches 64 f (field_value body f) (default FNull o) = Ok true) as Hm.
  { apply bind_Ok_inv in H as (is_map & [= <-] & H).
    destruct (field_value body f); apply bind_Ok_inv in H as ([] & H & H'); try done. }
  destruct (project_plain _ _ _ _ Hk Hi He Hp) as (Hsays & Hnull & Hscalar).
  apply matches_plain in Hm; [|done|].
  - rewrite Hm. unfold projected_or in *. destruct o as [[]|]; done.
  - destruct o; [|done]. intros ? _. by eapply Hscalar.
Qed.

Lemma TABLES_extra : forallb (λ t, forallb (λ f,
  negb (plain_kind (fs_kind f) && (fs_name f =? "extra")%string)) (ts_fields t)) TABLES = true.
Proof. vm_compute. reflexivity. Qed.

Lemma plain_not_extra name reference spec f : table_spec reference = Some spec → f ∈ ts_fields spec →
  plain_kind (fs_kind f) = true → is_extra name f = false.
Proof.
  unfold table_spec. destruct (index_ok reference); [|done]. intros Ht%list_elem_of_lookup_2 Hf Hk.
  pose proof TABLES_extra as H. rewrite forallb_forall in H.
  specialize (H spec (proj1 (list_elem_of_In _ _) Ht)). rewrite forallb_forall in H.
  specialize (H f (proj1 (list_elem_of_In _ _) Hf)). rewrite Hk in H. simpl in H.
  unfold is_extra. by apply negb_true_iff in H as ->.
Qed.

(** a message whose typed fields contradict its CBOR metadata is refused:
    once [agree] accepts, every scalar, string and plain vector of the table
    that the dictionary describes has the value of its metadata entry, and the
    schema's default when the dictionary has no entry. *)
Theorem metadata_agreement name body dictionary reference spec f :
  table_spec reference = Some spec → f ∈ ts_fields spec →
  plain_kind (fs_kind f) = true → ignored name (fs_name f) = false →
  agree name body dictionary reference = Ok tt →
  entry_says f (get_key dictionary (fs_name f)) (field_value body f).
Proof.
  intros Hs Hf Hk Hi H. unfold agree in H. apply bind_Ok_inv in H as (expected & He & H).
  unfold table_index in H. rewrite Hs in H. simpl in H.
  apply bind_Ok_inv in H as (us & Hall & _).
  destruct (traverse_list_Ok _ _ _ Hall f Hf) as ([] & Hag).
  pose proof (plain_not_extra name _ _ _ Hs Hf Hk) as Hx.
  pose proof (project_get _ _ _ _ _ _ Hs He Hf) as Hp.
  rewrite (agree_plain_field name body expected dictionary f Hk Hi Hx Hp Hag).
  by eapply project_plain.
Qed.

(** SUBSCRIBE of a prefix. *)
Definition demo_subscribe : Fields :=
  [("get_retained", FInteger 0); ("match", FInteger 1); ("request", FInteger 9);
   ("session", FInteger 0); ("topic", FText (lit "a"))]%string.
Definition demo_prefix : ValueMap := [(VString (lit "match"), VString (lit "prefix"))].
Definition demo_match : FieldSpec := mkField "match" KScalar 1 false 0 [0; 1; 2] false 0.

Lemma metadata_agreement_witness :
  agree "Subscribe" demo_subscribe demo_prefix 31 = Ok tt ∧
  entry_says demo_match (get_key demo_prefix "match") (field_value demo_subscribe demo_match) ∧
  agree "Subscribe" demo_subscribe [] 31 = Err (invalid "contradictory metadata").
Proof.
  split; [vm_compute; reflexivity|]. split; [|vm_compute; reflexivity].
  apply (metadata_agreement "Subscribe" demo_subscribe demo_prefix 31 table_Subscribe demo_match).
  - vm_compute. reflexivity.
  - apply list_elem_of_In. simpl. tauto.
  - reflexivity.
  - reflexivity.
  - vm_compute. reflexivity.
Defined.
