(* ===== verification/FbCodec.v ===== *)
(** * FlatBuffers messages

    [parse] of [ct_core/src/wamp/flatbuffers_codec.rs]: the buffer is read
    against the schema, its metadata dictionary is checked against the typed
    fields, and its payload vectors are checked and kept as slices. *)
From stdpp Require Import gmap.
From S2P Require Import Prelude Bytes Text WampTypes RawFrame CborScanner FbSchema FbWire FbRead FbProjection DemoSerde.

Definition integer (fields : Fields) (key : string) : outcome ParseError Z :=
  match fields_get key fields with
  | Some (FInteger v) => Ok v
  | _ => Err (invalid "integer field")
  end.

Definition text (fields : Fields) (key : string) : outcome ParseError str :=
  match fields_get key fields with
  | Some (FText v) => Ok v
  | _ => Err (invalid "text field")
  end.

Definition byte_vector (fields : Fields) (key : string) : outcome ParseError (option (list Z)) :=
  match fields_get key fields with
  | None | Some FNull => Ok None
  | Some (FBytes v) => Ok (Some v)
  | _ => Err (invalid "byte vector")
  end.

Definition METHODS : list string := ["anonymous"; "ticket"; "wampcra"; "wamp-scram"; "cryptosign"]%string.

Definition challenge (body : Fields) : outcome ParseError str :=
  method ← integer body "method";
  known ← ok_or (invalid "authentication method") (METHODS !! Z.to_nat method);
  match fields_get "method_name" body with
  | Some (FText name) =>
      if bool_decide (name = []) then Err (invalid "authentication method name")
      else if existsb (λ m, str_eqb name (lit m)) METHODS then
        if str_eqb name (lit known) then Ok name
        else Err (invalid "contradictory authentication method")
      else if method =? 0 then Ok name
      else Err (invalid "custom authentication method")
  | Some FNull => Ok (lit known)
  | _ => Err (invalid "authentication method name")
  end.

(** The table and the body of a message. *)
Definition message_reference (tag : Z) : outcome ParseError Z :=
  root ← table_index ROOT;
  match ts_fields root !! 1%nat with
  | None => Panic
  | Some msg =>
      match fs_values msg !! Z.to_nat tag with
      | Some reference =>
          if reference <? 0 then Err (invalid "union discriminator") else Ok reference
      | None => Err (invalid "union discriminator")
      end
  end.

Definition message_body (fields : Fields) : outcome ParseError Fields :=
  match fields_get "msg" fields with
  | Some (FTable table) => Ok table
  | _ => Err (invalid "message table")
  end.

Definition session_check (name : string) (body : Fields) : outcome ParseError unit :=
  if negb (one_of name ["Welcome"; "Heartbeat"]%string) then
    session ← integer body "session";
    if session =? 0 then Ok tt else Err (invalid "non-WELCOME session")
  else Ok tt.

Definition no_dictionary (name : string) : bool :=
  one_of name ["Published"; "Subscribed"; "Unsubscribe"; "Registered"; "Unregister"; "EventReceived"]%string.

Section parse.
Context `{SL : !SerdeLib}.

Definition dictionary_of (name : string) (fields : Fields) : outcome ParseError ValueMap :=
  match fields_get "metadata" fields with
  | Some (FBytes bytes) =>
      if no_dictionary name then Err (invalid "metadata presence")
      else
        _ ← validate bytes 5 true;
        match cbor_from_slice bytes with
        | inr (VMap map) => Ok map
        | inr _ => Err (invalid "metadata dictionary")
        | inl _ => Err (invalid "metadata value")
        end
  | Some FNull => if no_dictionary name then Ok [] else Err (invalid "metadata presence")
  | _ => Err (invalid "metadata presence")
  end.

Definition payload_of (body : Fields) : outcome ParseError Payload :=
  args ← byte_vector body "args";
  kwargs ← byte_vector body "kwargs";
  transparent ← byte_vector body "payload";
  if bool_decide (is_Some transparent) && (bool_decide (is_Some args) || bool_decide (is_Some kwargs))
  then Err (invalid "mixed transparent and ordinary payload")
  else
    _ ← match args with Some args => validate args 4 false | None => Ok tt end;
    _ ← match kwargs with Some kwargs => validate kwargs 5 false | None => Ok tt end;
    Ok (mkPayload args kwargs transparent).

(** A HEARTBEAT control that the presence bits announce. *)
Definition heartbeat_control (body : Fields) (presence : Z) (name : string) (bit : Z) :
    outcome ParseError (option Z) :=
  v ← integer body name;
  if Z.land presence bit =? 0 then
    if v =? 0 then Ok None else Err (invalid "absent HEARTBEAT control")
  else Ok (Some v).

Definition heartbeat_message (body : Fields) (dictionary : ValueMap) : outcome ParseError WampMessage :=
  presence ← integer body "presence";
  if negb (Z.land presence (Z.lnot 7) =? 0) then Err (invalid "HEARTBEAT presence")
  else
    ping ← heartbeat_control body presence "ping" 1;
    incoming ← heartbeat_control body presence "incoming" 2;
    outgoing ← heartbeat_control body presence "outgoing" 4;
    Ok (Heartbeat dictionary ping incoming outgoing).

Definition error_message (body : Fields) (dictionary : ValueMap) (payload : Payload) :
    outcome ParseError WampMessage :=
  request_type ← integer body "request_type";
  if negb (bool_decide (request_type ∈ [16; 32; 34; 48; 64; 66; 68]))
  then Err (invalid "ERROR request type")
  else
    request ← integer body "request";
    error ← text body "error";
    Ok (Error request_type request dictionary error payload).

(** The arms of [match name], by the shape of their fields. *)
Definition session_message (name : string) (body : Fields) (dictionary : ValueMap) (payload : Payload) :
    option (outcome ParseError WampMessage) :=
  if (name =? "Hello")%string then Some (realm ← text body "realm"; Ok (Hello realm dictionary))
  else if (name =? "Welcome")%string then
    Some (session ← integer body "session"; Ok (Welcome session dictionary))
  else if (name =? "Abort")%string then
    Some (reason ← text body "reason"; Ok (Abort dictionary reason payload))
  else if (name =? "Challenge")%string then
    Some (auth_method ← challenge body; Ok (Challenge auth_method dictionary))
  else if (name =? "Authenticate")%string then
    Some (signature ← text body "signature"; Ok (Authenticate signature dictionary))
  else if (name =? "Goodbye")%string then
    Some (reason ← text body "reason"; Ok (Goodbye dictionary reason payload))
  else if (name =? "Heartbeat")%string then Some (heartbeat_message body dictionary)
  else if (name =? "Error")%string then Some (error_message body dictionary payload)
  else None.

Definition pubsub_message (name : string) (body : Fields) (dictionary : ValueMap) (payload : Payload) :
    option (outcome ParseError WampMessage) :=
  let request := integer body "request" in
  if (name =? "Publish")%string then
    Some (r ← request; topic ← text body "topic"; Ok (Publish r dictionary topic payload))
  else if (name =? "Published")%string then
    Some (r ← request; publication ← integer body "publication"; Ok (Published r publication))
  else if (name =? "Subscribe")%string then
    Some (r ← request; topic ← text body "topic"; Ok (Subscribe r dictionary topic))
  else if (name =? "Subscribed")%string then
    Some (r ← request; subscription ← integer body "subscription"; Ok (Subscribed r subscription))
  else if (name =? "Unsubscribe")%string then
    Some (r ← request; subscription ← integer body "subscription"; Ok (Unsubscribe r subscription))
  else if (name =? "Unsubscribed")%string then Some (r ← request; Ok (Unsubscribed r dictionary))
  else if (name =? "Event")%string then
    Some (subscription ← integer body "subscription"; publication ← integer body "publication";
          Ok (Event subscription publication dictionary payload))
  else None.

Definition rpc_message (name : string) (body : Fields) (dictionary : ValueMap) (payload : Payload) :
    option (outcome ParseError WampMessage) :=
  let request := integer body "request" in
  if (name =? "Call")%string then
    Some (r ← request; procedure ← text body "procedure"; Ok (Call r dictionary procedure payload))
  else if (name =? "Cancel")%string then Some (r ← request; Ok (Cancel r dictionary))
  else if (name =? "Result")%string then Some (r ← request; Ok (Result r dictionary payload))
  else if (name =? "Register")%string then
    Some (r ← request; procedure ← text body "procedure"; Ok (Register r dictionary procedure))
  else if (name =? "Registered")%string then
    Some (r ← request; registration ← integer body "registration"; Ok (Registered r registration))
  else if (name =? "Unregister")%string then
    Some (r ← request; registration ← integer body "registration"; Ok (Unregister r registration))
  else if (name =? "Unregistered")%string then Some (r ← request; Ok (Unregistered r dictionary))
  else if (name =? "Invocation")%string then
    Some (r ← request; registration ← integer body "registration";
          Ok (Invocation r registration dictionary payload))
  else if (name =? "Interrupt")%string then Some (r ← request; Ok (Interrupt r dictionary))
  else if (name =? "Yield")%string then Some (r ← request; Ok (Yield r dictionary payload))
  else None.

Definition flatbuffers_message (name : string) (body : Fields) (dictionary : ValueMap) (payload : Payload) :
    outcome ParseError WampMessage :=
  first_some [session_message name body dictionary payload; pubsub_message name body dictionary payload;
              rpc_message name body dictionary payload]
    (Err (invalid "unsupported message type")).

Definition encoded_metadata_of (fields : Fields) : option (list Z) :=
  match fields_get "metadata" fields with Some (FBytes bytes) => Some bytes | _ => None end.

(** The rest of [parse], once the fields are read. *)
Definition flatbuffers_parsed (bytes : list Z) (fields : Fields) : outcome ParseError ParsedMessage :=
  tag ← integer fields "msg_type";
  reference ← message_reference tag;
  table ← table_index reference;
  let name := ts_name table in
  body ← message_body fields;
  _ ← session_check name body;
  dictionary ← dictionary_of name fields;
  _ ← (if (name =? "Heartbeat")%string then Ok tt else agree name body dictionary reference);
  payload ← payload_of body;
  message ← flatbuffers_message name body dictionary payload;
  Ok (mkParsedMessage message (Contiguous bytes) Flatbuffers (encoded_metadata_of fields)).

Definition flatbuffers_parse (raw : RawFrame) : outcome ParseError ParsedMessage :=
  if MAX_BYTES <? frame_len raw then Err (invalid "byte limit")
  else
    let bytes := into_bytes raw in
    fields ← read bytes;
    flatbuffers_parsed bytes fields.
End parse.

(** ** The message table

    What the reader found behind [msg] is a table of the kind that [msg_type]
    names. *)
Lemma plain_tag_field bytes pt offset vt vs os slot f tag0 h v tag :
  fs_kind f = KScalar → fs_width f = 1 → fs_default f = 0 →
  plain_field bytes pt offset vt vs os slot f tag0 = Some (h, v, tag) → v = FInteger tag.
Proof.
  intros Hk Hw Hd. unfold plain_field, plain_present, absent_value. rewrite Hk, Hw, Hd. simpl.
  intros (r & _ & H)%bind_Some. destruct (r =? 0).
  - apply bind_Some in H as (w & Ha & [= <- <- <-]). destruct (fs_required f); simpl in Ha; simplify_eq; done.
  - case_match; [done|]. by apply bind_Some in H as (w & _ & [= _ <- <-]).
Qed.

Lemma plain_union_field bytes pt offset vt vs os slot f tag h v tag' : bytes_ok bytes →
  0 ≤ offset → 0 ≤ vt → 0 ≤ slot → fs_kind f = KUnion → fs_required f = true →
  plain_field bytes pt offset vt vs os slot f tag = Some (h, v, tag') →
  ∃ reference o child h', union_target f tag = Ok reference ∧ v = FTable child ∧ 0 ≤ o ∧
    pt o reference = Some (h', child).
Proof.
  intros Hb Ho Hvt Hs Hk Hr. unfold plain_field, plain_present, absent_value, child_reference.
  rewrite Hk, Hr. simpl.
  intros (r & Hrel%okv_Some & H)%bind_Some. destruct (r =? 0); [done|].
  apply (field_relative_Ok _ Hb) in Hrel; [|done..]. case_match; [done|].
  apply bind_Some in H as (reference & Hu%okv_Some & H).
  apply bind_Some in H as (o & Ht%okv_Some & H).
  apply bind_Some in H as ([h' child] & Hp & [= _ <- _]).
  apply (target_Ok _ (offset + r)) in Ht; [|lia]. exists reference, o, child, h'. split_and!; [done..|lia|done].
Qed.

Lemma plain_root_fields bytes offset n height fields : bytes_ok bytes → 0 ≤ offset →
  plain_table bytes (S n) offset ROOT = Some (height, fields) →
  ∃ tag msg reference body,
    fields_get "msg_type" fields = Some (FInteger tag) ∧
    fields_get "msg" fields = Some (FTable body) ∧
    ts_fields table_Message !! 1%nat = Some msg ∧
    union_target msg tag = Ok reference ∧ typed bytes n reference body.
Proof.
  intros Hb Ho Hp. simpl in Hp. unfold plain_new_table in Hp.
  apply bind_Some in Hp as ([[vt vs] os] & Hh%okv_Some & (spec & Hspec & H)%bind_Some).
  apply table_header_Ok in Hh; [|done..]. injection Hspec as <-.
  unfold table_Message, ts_fields in H. cbn [plain_fields] in H.
  apply bind_Some in H as ([[h1 v1] tag] & H1 & H).
  apply bind_Some in H as ([[h2 v2] tag2] & H2 & H).
  apply bind_Some in H as ([[h3 v3] tag3] & H3 & H). injection H as <- <-.
  pose proof H1 as ->%plain_tag_field; [|done..].
  apply plain_union_field in H2 as (reference & o & child & h' & Hu & -> & ? & Hc); [|done..].
  exists tag. eexists. exists reference, child. split_and!; [done..|exact Hu|].
  by eapply plain_table_typed.
Qed.

(** ** What the parser relies on *)
Lemma typed_bytes bytes n reference fields k l : typed bytes n reference fields →
  fields_get k fields = Some (FBytes l) → slice_of bytes l.
Proof.
  destruct n as [|n]; [done|]. intros (spec & _ & Hf & Hk) Hl.
  destruct (proj1 (list_elem_of_fmap _ _ _) (Hk k ltac:(by eexists))) as (f & -> & Hin).
  rewrite Forall_forall in Hf. destruct (Hf f Hin) as (v & Hv & Ht).
  rewrite Hl in Hv. injection Hv as <-. unfold value_typed in Ht. by case_match; destruct_and?.
Qed.

Lemma slice_of_ok bytes l : bytes_ok bytes → slice_of bytes l → bytes_ok l.
Proof. intros Hb (? & ? & _ & _ & ->). by apply sub_bytes_ok. Qed.

Lemma returns_integer fields key : returns (integer fields key).
Proof. unfold integer. by repeat case_match. Qed.
Lemma returns_text fields key : returns (text fields key).
Proof. unfold text. by repeat case_match. Qed.
Lemma returns_byte_vector fields key : returns (byte_vector fields key).
Proof. unfold byte_vector. by repeat case_match. Qed.
Lemma returns_challenge body : returns (challenge body).
Proof.
  unfold challenge. apply returns_bind; [apply returns_integer|]. intros m _.
  apply returns_bind; [apply returns_ok_or|]. intros known _. by repeat case_match.
Qed.
#[export] Hint Resolve returns_integer returns_text returns_byte_vector returns_challenge : returns.

Lemma byte_vector_slice bytes n reference fields key l : typed bytes n reference fields →
  byte_vector fields key = Ok (Some l) → slice_of bytes l.
Proof.
  intros Ht. unfold byte_vector. repeat case_match; intros; simplify_eq. by eapply typed_bytes.
Qed.

(** The table that a message's discriminator names is the one read. *)
Lemma message_reference_union msg tag reference : ts_fields table_Message !! 1%nat = Some msg →
  union_target msg tag = Ok reference → message_reference tag = Ok reference.
Proof.
  intros Hm Hu. unfold message_reference. replace (table_index ROOT) with (Ok (E:=ParseError) table_Message) by done.
  cbn [mbind outcome_bind]. rewrite Hm. unfold union_target in Hu.
  destruct (tag =? 0); [done|]. done.
Qed.

Section parsed.
Context `{SL : !SerdeLib} (bytes : list Z) (Hbytes : bytes_ok bytes).

(** An application argument: nothing, or a range of the frame that is one
    CBOR container. *)
Definition argument_slice (md : bool) (root : Z) (argument : option (list Z)) : Prop :=
  ∀ l, argument = Some l → slice_of bytes l ∧ container_ok md root l.

Definition payload_slices (p : Payload) : Prop :=
  argument_slice false 4 (args p) ∧ argument_slice false 5 (kwargs p) ∧
  (∀ l, transparent p = Some l → slice_of bytes l) ∧
  (transparent p = None ∨ args p = None ∧ kwargs p = None).

Lemma argument_spec n reference fields key root (r : option (list Z)) :
  typed bytes n reference fields → byte_vector fields key = Ok r →
  let o := match r with Some l => validate l root false | None => Ok tt end in
  returns o ∧ (o = Ok tt → argument_slice false root r).
Proof.
  intros Ht Hr. destruct r as [l|]; [|by split].
  pose proof (byte_vector_slice _ _ _ _ _ _ Ht Hr) as Hs.
  destruct (validate_exact_lem l root false) as [? Hi]; [by eapply slice_of_ok|].
  split; [done|]. intros Hv k [= <-]. split; [done|]. by apply Hi.
Qed.

Lemma payload_of_spec n reference body : typed bytes n reference body →
  returns (payload_of body) ∧ ∀ p, payload_of body = Ok p → payload_slices p.
Proof.
  intros Ht. unfold payload_of.
  destruct (byte_vector body "args") as [a| | |] eqn:Ea;
    [|pose proof (returns_byte_vector body "args"); by rewrite Ea in *..].
  destruct (byte_vector body "kwargs") as [k| | |] eqn:Ek;
    [|pose proof (returns_byte_vector body "kwargs"); by rewrite Ek in *..].
  destruct (byte_vector body "payload") as [t| | |] eqn:Et;
    [|pose proof (returns_byte_vector body "payload"); by rewrite Et in *..].
  simpl. destruct (_ && _) eqn:Emix; [done|].
  destruct (argument_spec n reference body "args" 4 a Ht Ea) as [Ra Sa].
  destruct (argument_spec n reference body "kwargs" 5 k Ht Ek) as [Rk Sk].
  revert Ra Sa Rk Sk.
  generalize (match a with Some l => validate l 4 false | None => Ok tt end).
  generalize (match k with Some l => validate l 5 false | None => Ok tt end).
  intros [[]| | |] [[]| | |] Ra Sa Rk Sk; simpl; try done.
  split; [done|]. intros p [= <-]. split_and!; simpl; [by apply Sa|by apply Sk|..].
  - intros l ->. by eapply byte_vector_slice.
  - destruct t; [|by left]. right. destruct a, k; by vm_compute in Emix.
Qed.

Lemma dictionary_of_spec name fields n : typed bytes n ROOT fields →
  returns (dictionary_of name fields) ∧
  ∀ d, dictionary_of name fields = Ok d → argument_slice true 5 (encoded_metadata_of fields).
Proof.
  intros Ht. unfold dictionary_of, encoded_metadata_of.
  destruct (fields_get "metadata" fields) as [[| | |l| |]|] eqn:E; try done.
  { split; [by case_match|done]. }
  destruct (no_dictionary name); [done|].
  pose proof (typed_bytes _ _ _ _ _ _ Ht E) as Hs.
  destruct (validate_exact_lem l 5 true) as [Hr Hi]; [by eapply slice_of_ok|].
  destruct (validate l 5 true) as [[]| | |]; try done. simpl.
  split; [by repeat case_match|]. intros d _ k [= <-]. split; [done|]. by apply Hi.
Qed.

(** The table of a message. *)
Definition message_name (m : WampMessage) : string :=
  match m with
  | Hello _ _ => "Hello" | Welcome _ _ => "Welcome" | Abort _ _ _ => "Abort"
  | Challenge _ _ => "Challenge" | Authenticate _ _ => "Authenticate" | Goodbye _ _ _ => "Goodbye"
  | Heartbeat _ _ _ _ => "Heartbeat" | Error _ _ _ _ _ => "Error" | Publish _ _ _ _ => "Publish"
  | Published _ _ => "Published" | Subscribe _ _ _ => "Subscribe" | Subscribed _ _ => "Subscribed"
  | Unsubscribe _ _ => "Unsubscribe" | Unsubscribed _ _ => "Unsubscribed" | Event _ _ _ _ => "Event"
  | Call _ _ _ _ => "Call" | Cancel _ _ => "Cancel" | Result _ _ _ => "Result"
  | Register _ _ _ => "Register" | Registered _ _ => "Registered" | Unregister _ _ => "Unregister"
  | Unregistered _ _ => "Unregistered" | Invocation _ _ _ _ => "Invocation"
  | Interrupt _ _ => "Interrupt" | Yield _ _ _ => "Yield" | Unknown _ _ => ""
  end%string.

(** A message of the table [name]; it carries the payload exactly when its kind
    has one. *)
Definition carries (name : string) (payload : Payload) (msg : WampMessage) : Prop :=
  message_name msg = name ∧
  message_payload msg =
    (if bool_decide (is_Some (cbor_payload_spec (message_code msg))) then Some payload else None).

#[local] Ltac message_arms :=
  repeat case_match; intros [= ->];
  (split; [solve_returns|intros msg Hm; repeat (progress inv_ok || (case_match; try discriminate)); (split; [symmetry; by apply String.eqb_eq|done])]).

Lemma flatbuffers_message_spec name body dictionary payload :
  returns (flatbuffers_message name body dictionary payload) ∧
  ∀ msg, flatbuffers_message name body dictionary payload = Ok msg → carries name payload msg.
Proof.
  unfold flatbuffers_message. apply first_some_cases; [|done].
  intros o Ho. repeat (apply elem_of_cons in Ho as [Ho|Ho]); [..|by apply elem_of_nil in Ho]; revert Ho.
  - unfold session_message, heartbeat_message, heartbeat_control, error_message. message_arms.
  - unfold pubsub_message. message_arms.
  - unfold rpc_message. message_arms.
Qed.

End parsed.

Lemma returns_session_check name body : returns (session_check name body).
Proof.
  unfold session_check. case_match; [|done].
  apply returns_bind; [apply returns_integer|]. intros s _. by case_match.
Qed.

Lemma plain_read_root bytes fields : bytes_ok bytes → plain_read bytes = Some fields →
  ∃ tag reference body spec,
    integer fields "msg_type" = Ok tag ∧ message_body fields = Ok body ∧
    message_reference tag = Ok reference ∧ table_index reference = Ok spec ∧
    typed bytes 63 reference body.
Proof.
  intros Hb. unfold plain_read. change 64%nat with (S 63). remember 63%nat as N eqn:HN.
  intros (root & Hr%okv_Some & ([h f] & Hp & [= <-])%bind_Some)%bind_Some.
  apply target_Ok in Hr; [|done..].
  destruct (plain_root_fields bytes root N h f Hb ltac:(lia) Hp)
    as (tag & msg & reference & body & Hty & Hmsg & Hm & Hu & Ht).
  pose proof Ht as Ht'. rewrite HN in Ht'. destruct Ht' as (spec & Hspec & _).
  exists tag, reference, body, spec. unfold integer, message_body, table_index.
  rewrite Hty, Hmsg, Hspec. split_and!; [done..|by eapply message_reference_union|done|done].
Qed.

Lemma flatbuffers_parse_spec `{SL : !SerdeLib} raw : frame_ok raw →
  returns (flatbuffers_parse raw) ∧
  ∀ m, flatbuffers_parse raw = Ok m →
    ∃ fields reference body dictionary payload spec,
      plain_read (into_bytes raw) = Some fields ∧ zlen (into_bytes raw) ≤ MAX_BYTES ∧
      message_body fields = Ok body ∧
      table_index reference = Ok spec ∧ typed (into_bytes raw) 63 reference body ∧
      (ts_name spec = "Heartbeat"%string ∨ agree (ts_name spec) body dictionary reference = Ok tt) ∧
      dictionary_of (ts_name spec) fields = Ok dictionary ∧
      payload_slices (into_bytes raw) payload ∧ argument_slice (into_bytes raw) true 5 (encoded_metadata_of fields) ∧
      carries (ts_name spec) payload (message m) ∧
      m = mkParsedMessage (message m) (Contiguous (into_bytes raw)) Flatbuffers (encoded_metadata_of fields).
Proof.
  intros [Hwf Hb]. unfold flatbuffers_parse. destruct (MAX_BYTES <? _); [done|].
  pose proof (read_sim (into_bytes raw) Hb) as Hread.
  destruct (read (into_bytes raw)) as [fields| | |]; simpl; [|done..].
  destruct Hread as [Hlen Hp]. pose proof (plain_read_typed _ _ Hb Hp) as Ht. unfold flatbuffers_parsed.
  destruct (plain_read_root _ _ Hb Hp) as (tag & reference & body & spec & Htag & Hbody & Href & Hspec & Htb).
  rewrite Htag. simpl. rewrite Href. simpl. rewrite Hspec. simpl. rewrite Hbody. simpl.
  pose proof (returns_session_check (ts_name spec) body) as Hsession.
  destruct (session_check (ts_name spec) body) as [[]| | |]; simpl; [|done..].
  destruct (dictionary_of_spec (into_bytes raw) Hb (ts_name spec) fields 64 Ht) as [Hrd Hd].
  destruct (dictionary_of (ts_name spec) fields) as [dictionary| | |] eqn:Edict; simpl; [|done..].
  pose proof (returns_agree (into_bytes raw) (ts_name spec) body dictionary reference 63 ltac:(lia) Htb) as Hra.
  assert (returns (if (ts_name spec =? "Heartbeat")%string then Ok tt
                   else agree (ts_name spec) body dictionary reference)) as Hra' by (by case_match).
  destruct (if (ts_name spec =? "Heartbeat")%string then _ else _) as [[]| | |] eqn:Eagree; simpl; [|done..].
  destruct (payload_of_spec (into_bytes raw) Hb 63 reference body Htb) as [Hrp Hpay].
  destruct (payload_of body) as [payload| | |]; simpl; [|done..].
  destruct (flatbuffers_message_spec (ts_name spec) body dictionary payload) as [Hrm Hmsg].
  destruct (flatbuffers_message (ts_name spec) body dictionary payload) as [msg| | |] eqn:Emsg; simpl; [|done..].
  split; [done|]. intros m [= <-]. simpl.
  exists fields, reference, body, dictionary, payload, spec.
  repeat match goal with |- _ ∧ _ => split end; try done; [|by apply Hpay|by eapply Hd|by apply Hmsg].
  destruct (String.eqb_spec (ts_name spec) "Heartbeat"); [by left|by right].
Qed.

(** The segments of a frame are joined before they are read. *)
Lemma flatbuffers_parse_flat `{SL : !SerdeLib} raw : frame_wf raw →
  flatbuffers_parse raw = flatbuffers_parse (Contiguous (into_bytes raw)).
Proof. intros Hwf. unfold flatbuffers_parse. by rewrite Hwf. Qed.

(** ** Properties *)

(** C38: parsing a FlatBuffers frame never panics, and what it accepts is sound:
    the frame decodes to a message of the table that its discriminator names and
    of the kind the parser returns, its typed fields agree with its CBOR
    dictionary, the dictionary and the arguments are single CBOR containers
    within the limits, not mixed with a transparent payload, and all of them are
    ranges of the frame, which is kept, so nothing is copied. *)
Theorem flatbuffers_parse_exact `{SL : !SerdeLib} raw : frame_ok raw →
  returns (flatbuffers_parse raw) ∧
  ∀ m, flatbuffers_parse raw = Ok m →
    ∃ fields reference body dictionary payload spec,
      plain_read (into_bytes raw) = Some fields ∧ zlen (into_bytes raw) ≤ MAX_BYTES ∧
      message_body fields = Ok body ∧
      table_index reference = Ok spec ∧ typed (into_bytes raw) 63 reference body ∧
      (ts_name spec = "Heartbeat"%string ∨ agree (ts_name spec) body dictionary reference = Ok tt) ∧
      dictionary_of (ts_name spec) fields = Ok dictionary ∧
      payload_slices (into_bytes raw) payload ∧
      argument_slice (into_bytes raw) true 5 (encoded_metadata_of fields) ∧
      carries (ts_name spec) payload (message m) ∧
      m = mkParsedMessage (message m) (Contiguous (into_bytes raw)) Flatbuffers
            (encoded_metadata_of fields).
Proof. apply flatbuffers_parse_spec. Qed.

Lemma flatbuffers_parse_exact_witness :
  flatbuffers_parse (SL := DemoSerde) (Segmented [take 30 demo_yield_frame; drop 30 demo_yield_frame] 72)
    = Ok (mkParsedMessage (Yield 7 [] (mkPayload (Some [0x81; 1]) None None))
            (Contiguous demo_yield_frame) Flatbuffers (Some [0xa0])) ∧
  container_ok false 4 [0x81; 1].
Proof.
  pose (raw := Segmented [take 30 demo_yield_frame; drop 30 demo_yield_frame] 72).
  assert (flatbuffers_parse (SL := DemoSerde) raw
    = Ok (mkParsedMessage (Yield 7 [] (mkPayload (Some [0x81; 1]) None None))
            (Contiguous demo_yield_frame) Flatbuffers (Some [0xa0]))) as E
    by (vm_compute; reflexivity).
  split; [exact E|].
  destruct (flatbuffers_parse_exact (SL := DemoSerde) raw) as [_ H].
  - split; [reflexivity|exact demo_yield_bytes].
  - destruct (H _ E) as (fields & ref & body & dict & payload & spec & _ & _ & _ & _ & _ & _ & _ &
      (Hargs & _) & _ & (_ & Hp) & _).
    simpl in Hp. injection Hp as <-. exact (proj2 (Hargs _ eq_refl)).
Defined.
