(* ===== verification/FbEncoder.v ===== *)
(** * The FlatBuffers encoder

    [ct_core/src/wamp/flatbuffers_encoder.rs]: a message becomes the fields of
    the schema's root table, which [flatbuffers_writer.rs] then writes, and its
    dictionary is checked before it is encoded.  A frame whose fields are those
    parses back to the message. *)
From stdpp Require Import gmap.
From S2P Require Import Prelude Bytes Text WampTypes RawFrame CborScanner FbSchema FbWire FbRead FbProjection FbCodec DemoSerde.

(** ** Controls

    What a message puts in its table beside what its dictionary stands for. *)
Definition put_text (key : string) (v : str) (fields : Fields) : Fields :=
  fields_insert key (FText v) fields.
Definition put_integer (key : string) (v : Z) (fields : Fields) : Fields :=
  fields_insert key (FInteger v) fields.

Definition method_position (auth_method : str) : Z :=
  match list_find (λ m, str_eqb (lit m) auth_method = true) METHODS with
  | Some (i, _) => Z.of_nat i
  | None => 0
  end.

(** The loop over the controls of a HEARTBEAT. *)
Definition put_control (p : Fields * Z) (c : string * option Z * Z) : Fields * Z :=
  match c with
  | (key, Some v, bit) => (put_integer key v p.1, Z.lor p.2 bit)
  | (_, None, _) => p
  end.

Definition heartbeat_controls (ping incoming outgoing : option Z) : Fields :=
  let '(controls, presence) :=
    foldl put_control ([], 0) [("ping", ping, 1); ("incoming", incoming, 2); ("outgoing", outgoing, 4)]%string in
  put_integer "presence" presence controls.

Record Envelope : Type := mkEnvelope {
  env_name : string;
  env_dictionary : option ValueMap;
  env_payload : option Payload;
  env_controls : Fields;
}.

(** The arms of [match message]. *)
Definition envelope (m : WampMessage) : outcome ParseError Envelope :=
  match m with
  | Hello realm details => Ok (mkEnvelope "Hello" (Some details) None (put_text "realm" realm []))
  | Welcome session_id details =>
      Ok (mkEnvelope "Welcome" (Some details) None (put_integer "session" session_id []))
  | Abort details reason payload =>
      Ok (mkEnvelope "Abort" (Some details) (Some payload) (put_text "reason" reason []))
  | Challenge auth_method extra =>
      if bool_decide (auth_method = []) then Err (invalid "authentication method name")
      else
        let controls := put_integer "method" (method_position auth_method) [] in
        Ok (mkEnvelope "Challenge" (Some extra) None (put_text "method_name" auth_method controls))
  | Authenticate signature extra =>
      Ok (mkEnvelope "Authenticate" (Some extra) None (put_text "signature" signature []))
  | Goodbye details reason payload =>
      Ok (mkEnvelope "Goodbye" (Some details) (Some payload) (put_text "reason" reason []))
  | Heartbeat details ping incoming outgoing =>
      Ok (mkEnvelope "Heartbeat" (Some details) None (heartbeat_controls ping incoming outgoing))
  | Error request_type request_id details error payload =>
      if negb (bool_decide (request_type ∈ [16; 32; 34; 48; 64; 66; 68]))
      then Err (invalid "ERROR request type")
      else
        let controls := put_integer "request" request_id (put_integer "request_type" request_type []) in
        Ok (mkEnvelope "Error" (Some details) (Some payload) (put_text "error" error controls))
  | Publish request_id options topic payload =>
      Ok (mkEnvelope "Publish" (Some options) (Some payload)
            (put_text "topic" topic (put_integer "request" request_id [])))
  | Published request_id publication_id =>
      Ok (mkEnvelope "Published" None None
            (put_integer "publication" publication_id (put_integer "request" request_id [])))
  | Subscribe request_id options topic =>
      Ok (mkEnvelope "Subscribe" (Some options) None
            (put_text "topic" topic (put_integer "request" request_id [])))
  | Subscribed request_id subscription_id =>
      Ok (mkEnvelope "Subscribed" None None
            (put_integer "subscription" subscription_id (put_integer "request" request_id [])))
  | Unsubscribe request_id subscription_id =>
      Ok (mkEnvelope "Unsubscribe" None None
            (put_integer "subscription" subscription_id (put_integer "request" request_id [])))
  | Unsubscribed request_id details =>
      Ok (mkEnvelope "Unsubscribed" (Some details) None (put_integer "request" request_id []))
  | Event subscription_id publication_id details payload =>
      Ok (mkEnvelope "Event" (Some details) (Some payload)
            (put_integer "publication" publication_id (put_integer "subscription" subscription_id [])))
  | Call request_id options procedure payload =>
      Ok (mkEnvelope "Call" (Some options) (Some payload)
            (put_text "procedure" procedure (put_integer "request" request_id [])))
  | Cancel request_id options =>
      Ok (mkEnvelope "Cancel" (Some options) None (put_integer "request" request_id []))
  | Result request_id details payload =>
      Ok (mkEnvelope "Result" (Some details) (Some payload) (put_integer "request" request_id []))
  | Register request_id options procedure =>
      Ok (mkEnvelope "Register" (Some options) None
            (put_text "procedure" procedure (put_integer "request" request_id [])))
  | Registered request_id registration_id =>
      Ok (mkEnvelope "Registered" None None
            (put_integer "registration" registration_id (put_integer "request" request_id [])))
  | Unregister request_id registration_id =>
      Ok (mkEnvelope "Unregister" None None
            (put_integer "registration" registration_id (put_integer "request" request_id [])))
  | Unregistered request_id details =>
      Ok (mkEnvelope "Unregistered" (Some details) None (put_integer "request" request_id []))
  | Invocation request_id registration_id details payload =>
      Ok (mkEnvelope "Invocation" (Some details) (Some payload)
            (put_integer "registration" registration_id (put_integer "request" request_id [])))
  | Interrupt request_id options =>
      Ok (mkEnvelope "Interrupt" (Some options) None (put_integer "request" request_id []))
  | Yield request_id options payload =>
      Ok (mkEnvelope "Yield" (Some options) (Some payload) (put_integer "request" request_id []))
  | Unknown _ _ => Err (invalid "unsupported message type")
  end.

(** ** The check of a dictionary

    A stack of values still to be counted, the last one pushed first. *)
Definition is_text (v : value) : bool := match v with VString _ => true | _ => false end.

Fixpoint push_entries (map : ValueMap) (depth : Z) (stack : list (value * Z)) :
    outcome ParseError (list (value * Z)) :=
  match map with
  | [] => Ok stack
  | (key, v) :: map =>
      if negb (is_text key) then Err (invalid "metadata dictionary key")
      else push_entries map depth ((v, depth) :: (key, depth) :: stack)
  end.

Definition push_values (vs : list value) (depth : Z) (stack : list (value * Z)) : list (value * Z) :=
  foldl (λ stack v, (v, depth) :: stack) stack vs.

(** The bytes a value counts for, and the stack with its children. *)
Definition visit (v : value) (depth : Z) (stack : list (value * Z)) :
    outcome ParseError (Z * list (value * Z)) :=
  match v with
  | VString s => Ok (str_len s, stack)
  | VBytes bs => Ok (zlen bs, stack)
  | VSeq vs => Ok (0, push_values vs (depth + 1) stack)
  | VMap map => stack ← push_entries map (depth + 1) stack; Ok (0, stack)
  | VNewtype v | VOption (Some v) => Ok (0, (v, depth + 1) :: stack)
  | _ => Ok (0, stack)
  end.

Fixpoint validate_loop (fuel : nat) (stack : list (value * Z)) (size items : Z) : outcome ParseError unit :=
  match stack with
  | [] => Ok tt
  | (v, depth) :: stack =>
      match fuel with
      | O => NoFuel
      | S fuel =>
          let items := items + 1 in
          if (64 <? depth) || (1000000 <? items) then Err (invalid "metadata depth or item limit")
          else
            '(bytes, stack) ← visit v depth stack;
            if 2 ^ 64 <=? size + (bytes + 1) then Err (invalid "metadata size")
            else
              let size := size + (bytes + 1) in
              if 1024 * 1024 <? size then Err (invalid "metadata size")
              else validate_loop fuel stack size items
      end
  end.

(** The values of a value, itself included. *)
Fixpoint value_items (v : value) : nat :=
  S match v with
    | VSeq vs => list_sum (value_items <$> vs)
    | VMap map => list_sum ((λ p, value_items p.1 + value_items p.2) <$> map)%nat
    | VNewtype v | VOption (Some v) => value_items v
    | _ => O
    end.
Definition stack_items (stack : list (value * Z)) : nat := list_sum ((λ p, value_items p.1) <$> stack).

Definition validate_dictionary (dictionary : ValueMap) : outcome ParseError unit :=
  stack ← push_entries dictionary 1 [];
  validate_loop (stack_items stack) stack 0 0.

(** ** The fields of a message *)

(** [BTreeMap::extend] *)
Definition extend (fields more : Fields) : Fields :=
  foldl (λ fields p, fields_insert p.1 p.2 fields) fields more.

Definition put_bytes (fields : Fields) (p : string * option (list Z)) : Fields :=
  match p with
  | (key, Some bytes) => fields_insert key (FBytes bytes) fields
  | (_, None) => fields
  end.

Definition put_payload (body : Fields) (payload : option Payload) : outcome ParseError Fields :=
  match payload with
  | Some p =>
      _ ← validate_flatbuffers_payload p;
      Ok (foldl put_bytes body
            [("args", args p); ("kwargs", kwargs p); ("payload", transparent p)]%string)
  | None => Ok body
  end.

Definition find_position {A} (f : A → bool) (l : list A) : option Z :=
  (λ p, Z.of_nat p.1) <$> list_find (λ a, f a = true) l.

(** The index of the table [name], and the discriminator of an index. *)
Definition name_reference (name : string) : outcome ParseError Z :=
  ok_or (invalid "message table") (find_position (λ t, (ts_name t =? name)%string) TABLES).

Definition reference_tag (reference : Z) : outcome ParseError Z :=
  root ← table_index ROOT;
  match ts_fields root !! 1%nat with
  | None => Panic
  | Some msg => ok_or (invalid "union discriminator") (find_position (Z.eqb reference) (fs_values msg))
  end.

Definition projected (name : string) (reference : Z) (dictionary : option ValueMap) :
    outcome ParseError Fields :=
  match dictionary with
  | Some dictionary =>
      _ ← validate_dictionary dictionary;
      if (name =? "Heartbeat")%string then Ok [] else project name dictionary reference
  | None => Ok []
  end.

Section encode.
Context `{SL : !SerdeLib}.

Definition put_metadata (root : Fields) (dictionary : option ValueMap) : outcome ParseError Fields :=
  match dictionary with
  | Some dictionary =>
      metadata ← match cbor_to_vec (VMap dictionary) with
                 | inr metadata => Ok metadata
                 | inl _ => Err (invalid "metadata encoding")
                 end;
      _ ← validate metadata 5 true;
      Ok (fields_insert "metadata" (FBytes metadata) root)
  | None => Ok root
  end.

(** [fields] *)
Definition encoder_fields (m : WampMessage) : outcome ParseError Fields :=
  env ← envelope m;
  reference ← name_reference (env_name env);
  tag ← reference_tag reference;
  body ← projected (env_name env) reference (env_dictionary env);
  body ← put_payload (extend body (env_controls env)) (env_payload env);
  put_metadata [("msg", FTable body); ("msg_type", FInteger tag)]%string (env_dictionary env).
End encode.


(** ** The check of a dictionary, exactly

    A value that fits below [depth]: texts for keys everywhere, nesting of 64 at
    most; its size is its octets and one for each value in it. *)
Fixpoint value_fits (depth : Z) (v : value) : bool :=
  (depth <=? 64) &&
  match v with
  | VSeq vs => forallb (value_fits (depth + 1)) vs
  | VMap map =>
      forallb (λ p, is_text p.1 && value_fits (depth + 1) p.1 && value_fits (depth + 1) p.2) map
  | VNewtype v | VOption (Some v) => value_fits (depth + 1) v
  | _ => true
  end.

Definition sum_sizes (l : list Z) : Z := foldr Z.add 0 l.

Fixpoint value_size (v : value) : Z :=
  1 + match v with
      | VString s => str_len s
      | VBytes bs => zlen bs
      | VSeq vs => sum_sizes (value_size <$> vs)
      | VMap map => sum_sizes ((λ p, value_size p.1 + value_size p.2) <$> map)
      | VNewtype v | VOption (Some v) => value_size v
      | _ => 0
      end.

Definition stack_size (stack : list (value * Z)) : Z := sum_sizes ((λ p, value_size p.1) <$> stack).
Definition stack_fits (stack : list (value * Z)) : Prop := Forall (λ p, value_fits p.2 p.1 = true) stack.

(** Text keys, at most 64 levels, a million values and a mebibyte. *)
Definition dictionary_fits (dictionary : ValueMap) : Prop :=
  Forall (λ p, is_text p.1 = true ∧ value_fits 1 p.1 = true ∧ value_fits 1 p.2 = true) dictionary ∧
  Z.of_nat (list_sum ((λ p, value_items p.1 + value_items p.2)%nat <$> dictionary)) ≤ 1000000 ∧
  sum_sizes ((λ p, value_size p.1 + value_size p.2) <$> dictionary) ≤ 1024 * 1024.

Lemma value_size_pos : ∀ v, 1 ≤ value_size v.
Proof.
  fix IH 1. intros v. destruct v as [| | | | | | | | | | | |s| |o|v|vs|map|bs]; csimpl; try lia.
  - pose proof (zlen_nonneg (utf8_encode s)). unfold str_len. lia.
  - destruct o as [v|]; [specialize (IH v)|]; lia.
  - specialize (IH v). lia.
  - match goal with |- 1 ≤ 1 + ?x => enough (0 ≤ x) by lia end. induction vs as [|v vs IHl]; csimpl; [done|].
    specialize (IH v). unfold sum_sizes in *. csimpl in *. lia.
  - match goal with |- 1 ≤ 1 + ?x => enough (0 ≤ x) by lia end.
    induction map as [|[k v] map IHl]; csimpl; [done|].
    pose proof (IH k). specialize (IH v). unfold sum_sizes in *. csimpl in *. lia.
  - pose proof (zlen_nonneg bs). lia.
Qed.

Lemma stack_size_nonneg stack : 0 ≤ stack_size stack.
Proof.
  induction stack as [|[v d] stack IH]; [done|]. unfold stack_size, sum_sizes in *. csimpl.
  pose proof (value_size_pos v). lia.
Qed.

Lemma push_values_spec vs depth stack :
  stack_items (push_values vs depth stack) = (list_sum (value_items <$> vs) + stack_items stack)%nat ∧
  stack_size (push_values vs depth stack) = sum_sizes (value_size <$> vs) + stack_size stack ∧
  (stack_fits (push_values vs depth stack) ↔ forallb (value_fits depth) vs = true ∧ stack_fits stack).
Proof.
  unfold push_values. revert stack. induction vs as [|v vs IH]; intros stack; csimpl; [naive_solver|].
  destruct (IH ((v, depth) :: stack)) as (-> & -> & ->). unfold stack_items, stack_size, sum_sizes, stack_fits. csimpl.
  split_and!; [lia|lia|]. rewrite Forall_cons, andb_true_iff. naive_solver.
Qed.

Lemma push_entries_spec map depth stack :
  match push_entries map depth stack with
  | Ok stack' =>
      stack_items stack' = (list_sum ((λ p, value_items p.1 + value_items p.2) <$> map) + stack_items stack)%nat ∧
      stack_size stack' = sum_sizes ((λ p, value_size p.1 + value_size p.2) <$> map) + stack_size stack ∧
      Forall (λ p, is_text p.1 = true) map ∧
      (stack_fits stack' ↔
        Forall (λ p, value_fits depth p.1 = true ∧ value_fits depth p.2 = true) map ∧ stack_fits stack)
  | Err _ => ¬ Forall (λ p, is_text p.1 = true) map
  | _ => False
  end.
Proof.
  revert stack. induction map as [|[k v] map IH]; intros stack; csimpl.
  { split_and!; [done..|constructor|]. split; [by split|by intros [_ ?]]. }
  destruct (is_text k) eqn:Ek; csimpl; [|intros [? _]%Forall_cons; csimpl in *; congruence].
  specialize (IH ((v, depth) :: (k, depth) :: stack)).
  destruct (push_entries _ _ _); [|by rewrite Forall_cons; intros [_ ?]|done..].
  destruct IH as (-> & -> & ? & ->). unfold stack_items, stack_size, sum_sizes, stack_fits. csimpl.
  split_and!; [lia|lia|by constructor|]. rewrite !Forall_cons. csimpl. naive_solver.
Qed.

Lemma visit_spec v depth stack : depth ≤ 64 →
  match visit v depth stack with
  | Ok (bytes, stack') =>
      0 ≤ bytes ∧ S (stack_items stack') = (value_items v + stack_items stack)%nat ∧
      bytes + 1 + stack_size stack' = value_size v + stack_size stack ∧
      (stack_fits stack' ↔ value_fits depth v = true ∧ stack_fits stack)
  | Err _ => value_fits depth v = false
  | _ => False
  end.
Proof.
  intros Hd. assert (depth <=? 64 = true) as Hb by lia.
  assert (∀ w, stack_fits ((w, depth + 1) :: stack) ↔ value_fits (depth + 1) w = true ∧ stack_fits stack) as Hcons.
  { intros w. unfold stack_fits. by rewrite Forall_cons. }
  destruct v as [| | | | | | | | | | | |s| |[w|]|w|vs|map|bs]; csimpl; rewrite ?Hb; csimpl;
    try (split_and!; [lia|lia|lia|naive_solver]).
  - pose proof (zlen_nonneg (utf8_encode s)). unfold str_len. split_and!; [lia|lia|lia|naive_solver].
  - rewrite Hcons. unfold stack_items, stack_size, sum_sizes. csimpl. split_and!; [lia|lia|lia|done].
  - rewrite Hcons. unfold stack_items, stack_size, sum_sizes. csimpl. split_and!; [lia|lia|lia|done].
  - destruct (push_values_spec vs (depth + 1) stack) as (-> & -> & ->). split_and!; [lia|lia|lia|done].
  - pose proof (push_entries_spec map (depth + 1) stack) as H.
    destruct (push_entries _ _ _); csimpl; [| |done..].
    + destruct H as (-> & -> & Htext & ->). split_and!; [lia|lia|lia|].
      rewrite forallb_forall. rewrite !Forall_forall in *. setoid_rewrite list_elem_of_In.
      setoid_rewrite list_elem_of_In in Htext. split.
      * intros [Hm ?]. split; [|done]. intros p Hp. rewrite Htext by done. by destruct (Hm p Hp) as [-> ->].
      * intros [Hm ?]. split; [|done]. intros p Hp. specialize (Hm p Hp).
        apply andb_true_iff in Hm as [[_ ?]%andb_true_iff ?]. done.
    + apply not_true_is_false. intros Hf. apply H. rewrite forallb_forall in Hf. apply Forall_forall.
      intros p Hp%list_elem_of_In. apply Hf in Hp. by apply andb_true_iff in Hp as [[? _]%andb_true_iff _].
  - pose proof (zlen_nonneg bs). split_and!; [lia|lia|lia|naive_solver].
Qed.

Lemma stack_items_cons v d stack :
  stack_items ((v, d) :: stack) = (value_items v + stack_items stack)%nat.
Proof. done. Qed.
Lemma stack_size_cons v d stack : stack_size ((v, d) :: stack) = value_size v + stack_size stack.
Proof. done. Qed.

Lemma validate_loop_spec fuel : ∀ stack size items, (stack_items stack ≤ fuel)%nat →
  0 ≤ size ≤ 1024 * 1024 → 0 ≤ items ≤ 1000000 →
  returns (validate_loop fuel stack size items) ∧
  (validate_loop fuel stack size items = Ok tt ↔
    stack_fits stack ∧ items + Z.of_nat (stack_items stack) ≤ 1000000 ∧ size + stack_size stack ≤ 1024 * 1024).
Proof.
  induction fuel as [|fuel IH]; intros [|[v depth] stack] size items Hf Hsize Hitems; csimpl;
    try (split; [done|]; split; [|done]; intros _; unfold stack_fits, stack_items, stack_size, sum_sizes; csimpl;
         split_and!; [constructor|lia|lia]).
  { exfalso. rewrite stack_items_cons in Hf. destruct v; simpl in Hf; lia. }
  assert (value_fits depth v = true → depth ≤ 64) as Hdepth.
  { intros Hv. destruct v; csimpl in Hv; apply andb_true_iff in Hv as [? _]; lia. }
  assert (0 < value_items v)%nat as Hpos by (destruct v; csimpl; lia).
  rewrite stack_items_cons, stack_size_cons in *.
  pose proof (stack_size_nonneg stack) as Hss. pose proof (value_size_pos v).
  unfold stack_fits. rewrite Forall_cons. cbn [fst snd]. fold (stack_fits stack).
  destruct (Z.ltb_spec 64 depth) as [?|Hd]; csimpl.
  { split; [done|]. split; [done|]. intros ([Hv _] & _). apply Hdepth in Hv. lia. }
  destruct (Z.ltb_spec 1000000 (items + 1)); csimpl.
  { split; [done|]. split; [done|]. intros (_ & ? & _). lia. }
  pose proof (visit_spec v depth stack Hd) as Hvisit.
  destruct (visit v depth stack) as [[bytes stack']|e| |]; csimpl; [|split; [done|]; split; [done|]; intros ([Hv _] & _); congruence|done..].
  destruct Hvisit as (Hb & Hi & Hs & Hfits). pose proof (stack_size_nonneg stack').
  destruct (Z.leb_spec (2 ^ 64) (size + (bytes + 1))).
  { split; [done|]. split; [done|]. intros (_ & _ & ?). lia. }
  destruct (Z.ltb_spec (1024 * 1024) (size + (bytes + 1))).
  { split; [done|]. split; [done|]. intros (_ & _ & ?). lia. }
  destruct (IH stack' (size + (bytes + 1)) (items + 1)) as [Hret Hiff]; [lia|lia|lia|].
  split; [done|]. rewrite Hiff, Hfits. split; intros (? & ? & ?); split_and!; (done || lia || naive_solver lia).
Qed.

(** the iterative check of a metadata dictionary always ends, and it accepts
    exactly the dictionaries whose keys are texts at every level, nested at most
    64 deep, of at most a million values and a mebibyte in all. *)
Theorem validate_dictionary_exact dictionary :
  returns (validate_dictionary dictionary) ∧
  (validate_dictionary dictionary = Ok tt ↔ dictionary_fits dictionary).
Proof.
  unfold validate_dictionary, dictionary_fits. pose proof (push_entries_spec dictionary 1 []) as H.
  destruct (push_entries dictionary 1 []) as [stack|e| |]; csimpl; [|split; [done|]; split; [done|]|done..].
  - destruct H as (Hi & Hs & Ht & Hf).
    destruct (validate_loop_spec (stack_items stack) stack 0 0) as [Hret Hiff]; [lia..|].
    split; [done|]. rewrite Hiff, Hf, Hi, Hs. change (stack_items []) with 0%nat. change (stack_size []) with 0.
    rewrite !Forall_forall in *. split.
    + intros ((Hv & _) & ? & ?). split_and!; [|lia|lia]. intros p Hp. split; [by apply Ht|by apply Hv].
    + intros (Hall & ? & ?). split_and!; [|constructor|lia|lia]. intros p Hp. by apply Hall.
  - intros (Hall & _). exfalso. apply H. eapply Forall_impl; [exact Hall|]. by intros p [? _].
Qed.
