(* ===== verification/FbRoundtrip.v ===== *)
(** * FlatBuffers messages survive

    What reading gives back of the fields that the encoder wrote
    ([stored_root]), and that the parser of [flatbuffers_codec.rs] makes the
    message of it again. *)
From stdpp Require Import gmap.
From S2P Require Import Prelude Bytes Text WampTypes RawFrame CborScanner FbSchema FbWire FbRead FbProjection.
From S2P Require Import FbCodec FbEncoder DemoSerde.

(** ** What a writer keeps

    [stored n reference fields]: the fields that reading gives back after the
    table was written by the schema.  Each present value is there as it is, an
    absent scalar as its default, any other absent value as [FNull], octets and
    integers as the schema has them; there are none when a required field is
    missing, a field is not in the schema or has another kind. *)
Definition as_integer (v : fb_value) : option Z := match v with FInteger n => Some n | _ => None end.
Definition as_text (v : fb_value) : option str := match v with FText s => Some s | _ => None end.

Section stored.
Context (stored_table : Z → Fields → option Fields).

Definition stored_element (reference : Z) (v : fb_value) : option fb_value :=
  match v with FTable t => FTable <$> stored_table reference t | _ => None end.

Definition stored_field (f : FieldSpec) (v : fb_value) : option fb_value :=
  match fs_kind f, v with
  | KScalar, FNull => if fs_required f then None else Some (FInteger (fs_default f))
  | _, FNull => if fs_required f then None else Some FNull
  | KScalar, FInteger x => Some (FInteger x)
  | KString, FText s => Some (FText s)
  | KTable, FTable t => FTable <$> stored_table (fs_reference f) t
  | KScalarVector, FBytes l =>
      if is_byte_vector f then Some (FBytes l)
      else if fs_width f =? 1 then Some (FVector (FInteger <$> l)) else None
  | KScalarVector, FVector vs =>
      xs ← mapM as_integer vs; Some (if is_byte_vector f then FBytes xs else FVector vs)
  | KStringVector, FVector vs => _ ← mapM as_text vs; Some (FVector vs)
  | KTableVector, FVector vs => FVector <$> mapM (stored_element (fs_reference f)) vs
  | _, _ => None
  end.

Definition stored_fields (specs : list FieldSpec) (fields : Fields) : option Fields :=
  foldr (λ f back, back ← back; v ← stored_field f (field_value fields f);
                   Some (fields_insert (fs_name f) v back)) (Some []) specs.
End stored.

Fixpoint stored (n : nat) (reference : Z) (fields : Fields) : option Fields :=
  match n with
  | O => None
  | S n =>
      spec ← table_spec reference;
      if forallb (λ p, bool_decide (p.1 ∈ fs_name <$> ts_fields spec)) fields
      then stored_fields (stored n) (ts_fields spec) fields
      else None
  end.

Definition metadata_field : FieldSpec := mkField "metadata" KScalarVector 1 false 0 [] false 0.

(** The root table: its message is the table that the discriminator names. *)
Definition stored_root (fields : Fields) : option Fields :=
  match fields_get "msg_type" fields, fields_get "msg" fields with
  | Some (FInteger tag), Some (FTable body) =>
      reference ← okv (message_reference tag);
      back ← stored 63 reference body;
      metadata ← stored_field (λ _ _, None) metadata_field (default FNull (fields_get "metadata" fields));
      Some [("metadata", metadata); ("msg", FTable back); ("msg_type", FInteger tag)]%string
  | _, _ => None
  end.

(** ** Looking up what is kept *)
Lemma stored_fields_spec T specs fields back : NoDup (fs_name <$> specs) →
  stored_fields T specs fields = Some back →
  (∀ f, f ∈ specs → ∃ v, stored_field T f (field_value fields f) = Some v ∧
     fields_get (fs_name f) back = Some v) ∧
  (∀ k, k ∉ fs_name <$> specs → fields_get k back = None).
Proof.
  revert back. induction specs as [|f specs IH]; intros back Hnd H.
  { injection H as <-. split; [by intros f ?%elem_of_nil|done]. }
  rewrite fmap_cons in Hnd. apply NoDup_cons in Hnd as [Hf Hnd].
  simpl in H. apply bind_Some in H as (back' & Hb & H). apply bind_Some in H as (v & Hv & [= <-]).
  destruct (IH back' Hnd Hb) as [Hin Hout]. split.
  - intros g [->|Hg]%elem_of_cons.
    + exists v. split; [done|]. apply fields_get_insert.
    + destruct (Hin g Hg) as (w & Hw & Hget). exists w. split; [done|].
      rewrite fields_get_insert_ne; [done|]. intros Heq. apply Hf. rewrite <-Heq. by apply list_elem_of_fmap_2.
  - intros k Hk. rewrite fmap_cons in Hk. apply not_elem_of_cons in Hk as [? ?].
    rewrite fields_get_insert_ne by done. by apply Hout.
Qed.

Lemma stored_S n reference fields back : stored (S n) reference fields = Some back →
  ∃ spec, table_spec reference = Some spec ∧
    (∀ k, is_Some (fields_get k fields) → k ∈ fs_name <$> ts_fields spec) ∧
    (∀ f, f ∈ ts_fields spec → ∃ v, stored_field (stored n) f (field_value fields f) = Some v ∧
       fields_get (fs_name f) back = Some v) ∧
    (∀ k, k ∉ fs_name <$> ts_fields spec → fields_get k back = None).
Proof.
  simpl. intros (spec & Hs & H)%bind_Some. destruct (forallb _ fields) eqn:Eall; [|done].
  exists spec. split; [done|]. split.
  - intros k Hk. rewrite forallb_forall in Eall. clear H.
    induction fields as [|[k' v] fields IH]; [by destruct Hk|]. simpl in Hk.
    destruct (String.eqb_spec k' k) as [->|].
    + specialize (Eall (k, v) (or_introl eq_refl)). by apply bool_decide_eq_true in Eall.
    + apply IH; [|done]. intros p Hp. apply Eall. by right.
  - apply stored_fields_spec; [|done]. by apply table_spec_ok in Hs as [_ ?].
Qed.

Definition leaf (v : fb_value) : bool :=
  match v with FInteger _ | FText _ => true | _ => false end.

Lemma stored_leaf n reference fields back k v : stored (S n) reference fields = Some back →
  fields_get k fields = Some v → leaf v = true → fields_get k back = Some v.
Proof.
  intros H Hk Hl. destruct (stored_S _ _ _ _ H) as (spec & _ & Hall & Hin & _).
  destruct (proj1 (list_elem_of_fmap _ _ _) (Hall k ltac:(by eexists))) as (f & -> & Hf).
  destruct (Hin f Hf) as (w & Hw & ->). unfold field_value in Hw. rewrite Hk in Hw.
  simpl in Hw. unfold stored_field in Hw. by destruct (fs_kind f), v; repeat case_match; simplify_eq.
Qed.

(** ** What is kept agrees with what was written *)
Lemma fb_eqb_refl : ∀ v, fb_eqb v v = true.
Proof.
  fix IH 1. intros [|n|s|l|l|l]; simpl; [done|apply Z.eqb_refl|by apply str_eqb_eq|by apply bool_decide_eq_true|..].
  - induction l as [|[x v] l IHl]; [done|]. by rewrite String.eqb_refl, IH, IHl.
  - induction l as [|v l IHl]; [done|]. by rewrite IH, IHl.
Qed.

Lemma try_fold_all {B} (f : bool → B → outcome ParseError bool) l :
  (∀ b, b ∈ l → f true b = Ok true) → try_fold f true l = Ok true.
Proof.
  induction l as [|b l IH]; intros H; [done|]. simpl. rewrite H by apply elem_of_cons, or_introl, eq_refl.
  apply IH. intros c Hc. apply H, elem_of_cons. by right.
Qed.

Definition tables_match (fuel : nat) (reference : Z) (actual expected : Fields) : outcome ParseError bool :=
  table ← table_index reference;
  try_fold (λ ok field,
      if (ok : bool) then matches fuel field (field_value actual field) (field_value expected field)
      else Ok false) true (ts_fields table).

Definition has_tables (f : FieldSpec) : bool :=
  bool_decide (fs_kind f = KTable) || bool_decide (fs_kind f = KTableVector).

(** A nested table has no vectors of scalars. *)
Lemma TABLES_nested :
  forallb (λ t, forallb (λ f, negb (has_tables f) ||
      match table_spec (fs_reference f) with
      | Some spec => forallb (λ g, negb (bool_decide (fs_kind g = KScalarVector))) (ts_fields spec)
      | None => false
      end) (ts_fields t)) TABLES = true.
Proof. vm_compute. reflexivity. Qed.

Definition in_schema (f : FieldSpec) : Prop :=
  ∃ reference spec, table_spec reference = Some spec ∧ f ∈ ts_fields spec.

Lemma table_spec_elem reference spec : table_spec reference = Some spec → spec ∈ TABLES.
Proof. unfold table_spec. destruct (index_ok reference); [|done]. apply list_elem_of_lookup_2. Qed.

Lemma nested_fields f spec g : in_schema f → has_tables f = true →
  table_spec (fs_reference f) = Some spec → g ∈ ts_fields spec → fs_kind g ≠ KScalarVector.
Proof.
  intros (r0 & t0 & Ht0%table_spec_elem & Hf) Hn Hs Hg. pose proof TABLES_nested as H.
  rewrite forallb_forall in H. specialize (H t0 (proj1 (list_elem_of_In _ _) Ht0)).
  rewrite forallb_forall in H. specialize (H f (proj1 (list_elem_of_In _ _) Hf)).
  rewrite Hn, Hs in H. simpl in H. rewrite forallb_forall in H.
  specialize (H g (proj1 (list_elem_of_In _ _) Hg)). by apply negb_true_iff, bool_decide_eq_false in H.
Qed.

(** A vector of scalars written element by element, not as octets. *)
Definition element_vector (f : FieldSpec) (w : fb_value) : Prop :=
  fs_kind f = KScalarVector → is_byte_vector f = false ∧ ∀ l, w ≠ FBytes l.

Lemma matches_stored n : ∀ fuel f w r, (n < fuel)%nat → in_schema f → element_vector f w →
  stored_field (stored n) f w = Some r → matches fuel f r w = Ok true.
Proof.
  induction n as [n IH] using lt_wf_ind. intros [|fuel] f w r Hn Hf Hvec H; [lia|].
  assert (∀ t back, has_tables f = true → stored n (fs_reference f) t = Some back →
    tables_match fuel (fs_reference f) back t = Ok true) as Htables.
  { intros t back Hhas Ht. destruct n as [|n]; [done|].
    destruct (stored_S _ _ _ _ Ht) as (spec & Hs & _ & Hin & _).
    unfold tables_match, table_index. rewrite Hs. simpl. apply try_fold_all. intros g Hg.
    destruct (Hin g Hg) as (v & Hv & Hget).
    replace (field_value back g) with v by (unfold field_value; by rewrite Hget).
    apply (IH n); [lia|lia|by eexists _, _| |done].
    intros Hk. by destruct (nested_fields f spec g Hf Hhas Hs Hg). }
  cbn [matches]. unfold stored_field in H. unfold element_vector in Hvec. unfold has_tables in Htables.
  destruct (fs_kind f) eqn:Ek, w; cbn [bool_decide] in *; try discriminate H;
    try (destruct (fs_required f); [discriminate H|]; injection H as <-; by rewrite ?fb_eqb_refl);
    try (injection H as <-; by rewrite fb_eqb_refl).
  - apply fmap_Some in H as (back & H & ->). by apply Htables.
  - destruct (Hvec eq_refl) as [_ Hno]. by destruct (Hno bytes).
  - apply bind_Some in H as (xs & _ & [= <-]). destruct (Hvec eq_refl) as [-> _]. by rewrite fb_eqb_refl.
  - apply bind_Some in H as (xs & _ & [= <-]). by rewrite fb_eqb_refl.
  - apply fmap_Some in H as (vs' & H & ->). pose proof H as Hm%mapM_Some. pose proof (Forall2_length _ _ _ Hm) as Hl.
    rewrite (proj2 (Z.eqb_eq (zlen vs') (zlen vs))) by (unfold zlen; lia). simpl.
    apply try_fold_all. intros [a b] Hab. apply list_elem_of_lookup_1 in Hab as [i Hi].
    apply lookup_zip_Some in Hi as [Ha Hb].
    destruct (Forall2_lookup_l _ _ _ _ _ Hm Hb) as (a' & Ha' & Hel). simplify_eq.
    unfold stored_element in Hel. destruct b; try done. apply fmap_Some in Hel as (back & Hback & ->).
    by apply Htables.
Qed.

#[global] Instance FieldSpec_eq_dec : EqDecision FieldSpec.
Proof. solve_decision. Defined.
#[global] Instance TableSpec_eq_dec : EqDecision TableSpec.
Proof. solve_decision. Defined.

(** ** The tables of messages *)
Definition payload_key (k : string) : bool := one_of k ["args"; "kwargs"; "payload"]%string.

Lemma one_of_elem k keys : one_of k keys = true ↔ k ∈ keys.
Proof.
  unfold one_of. rewrite existsb_exists, list_elem_of_In. split.
  - by intros (x & Hx & ->%String.eqb_eq).
  - intros Hk. exists k. by rewrite String.eqb_refl.
Qed.

Lemma payload_key_ignored name k : payload_key k = true → ignored name k = true.
Proof.
  unfold payload_key. intros Hk%one_of_elem. rewrite !elem_of_cons, elem_of_nil in Hk.
  unfold ignored. by destruct Hk as [->|[->|[->|[]]]].
Qed.

(** The names of the messages the encoder writes. *)
Definition message_tables : list string :=
  ["Hello"; "Welcome"; "Abort"; "Challenge"; "Authenticate"; "Goodbye"; "Heartbeat"; "Error"; "Publish";
   "Published"; "Subscribe"; "Subscribed"; "Unsubscribe"; "Unsubscribed"; "Event"; "Call"; "Cancel";
   "Result"; "Register"; "Registered"; "Unregister"; "Unregistered"; "Invocation"; "Interrupt"; "Yield"]%string.

Definition session_field : FieldSpec := mkField "session" KScalar 8 false 0 [] true 0.

(** The schema has a session in every table but HEARTBEAT's, its vectors
    of octets are the application's arguments. *)
Definition table_shape (spec : TableSpec) : bool :=
  (one_of (ts_name spec) ["Heartbeat"]%string || bool_decide (session_field ∈ ts_fields spec)) &&
  forallb (λ f, eqb (is_byte_vector f) (payload_key (fs_name f))) (ts_fields spec).

Lemma TABLES_shape :
  forallb (λ t, negb (one_of (ts_name t) message_tables) || table_shape t) TABLES = true.
Proof. vm_compute. reflexivity. Qed.

Lemma message_shape reference spec : table_spec reference = Some spec → ts_name spec ∈ message_tables →
  table_shape spec = true.
Proof.
  unfold table_spec. destruct (index_ok reference); [|done]. intros Ht%list_elem_of_lookup_2 Hn.
  pose proof TABLES_shape as H. rewrite forallb_forall in H.
  specialize (H spec (proj1 (list_elem_of_In _ _) Ht)). by rewrite (proj2 (one_of_elem _ _) Hn) in H.
Qed.

Lemma byte_vector_payload spec f : table_shape spec = true → f ∈ ts_fields spec →
  is_byte_vector f = true → payload_key (fs_name f) = true.
Proof.
  intros [_ H]%andb_true_iff Hf Hb. rewrite forallb_forall in H.
  specialize (H f (proj1 (list_elem_of_In _ _) Hf)). rewrite Hb in H. by apply eqb_prop in H.
Qed.

Lemma payload_byte_vector spec f : table_shape spec = true → f ∈ ts_fields spec →
  payload_key (fs_name f) = true → is_byte_vector f = true.
Proof.
  intros [_ H]%andb_true_iff Hf Hb. rewrite forallb_forall in H.
  specialize (H f (proj1 (list_elem_of_In _ _) Hf)). rewrite Hb in H. by apply eqb_prop in H.
Qed.

(** ** A projected dictionary agrees with what is kept of it *)

(** The keys of a [BTreeMap] are distinct, in the dictionary and in the maps
    that its fields are taken from. *)
Definition keys_unique (dictionary : ValueMap) : Prop :=
  NoDup dictionary.*1 ∧ ∀ k m, get_key dictionary k = Some (VMap m) → NoDup m.*1.

Lemma map_get_unique (m : ValueMap) key v : NoDup m.*1 → (VString key, v) ∈ m → map_get m key = Some v.
Proof.
  unfold map_get. intros Hnd Hin. apply list_elem_of_lookup_1 in Hin as [i Hi].
  assert (list_find (λ p, is_key key p.1 = true) m = Some (i, (VString key, v))) as ->; [|done].
  apply list_find_Some. split_and!; [done|by apply str_eqb_eq|].
  intros j [k w] Hj Hlt Hk. simpl in Hk. unfold is_key in Hk. destruct k; try done.
  apply str_eqb_eq in Hk as ->.
  assert (m.*1 !! i = Some (VString key)) as H1 by (by rewrite list_lookup_fmap, Hi).
  assert (m.*1 !! j = Some (VString key)) as H2 by (by rewrite list_lookup_fmap, Hj).
  pose proof (NoDup_lookup _ _ _ _ Hnd H1 H2). lia.
Qed.

Lemma project_map_entry source v : project_map source = Some v →
  ∃ key text, (VString key, VString text) ∈ source ∧
    v = FTable [("key", FText key); ("value", FText text)]%string.
Proof.
  unfold project_map. intros H%head_Some_elem_of. apply list_elem_of_omap in H as ([k w] & Hin & Hp).
  unfold map_pair in Hp. destruct k, w; try done. destruct (is_identifier s); simplify_eq. by eexists _, _.
Qed.

Lemma stored_pair n key text back :
  stored n 0 [("key", FText key); ("value", FText text)]%string = Some back →
  fields_get "key" back = Some (FText key) ∧ fields_get "value" back = Some (FText text).
Proof. destruct n as [|n]; [done|]. intros H. split; by eapply stored_leaf. Qed.

(** The one table called [Map] is the first. *)
Lemma map_reference reference spec : table_spec reference = Some spec →
  (ts_name spec =? "Map")%string = true → reference = 0.
Proof.
  unfold table_spec. destruct (index_ok reference) eqn:Ei; [|done]. intros Ht Hn.
  apply andb_true_iff in Ei as [H0 _].
  assert (forallb (λ t, negb (ts_name t =? "Map")%string) (drop 1 TABLES) = true) as Hall
    by (vm_compute; reflexivity).
  destruct (decide (reference = 0)) as [|Hne]; [done|]. rewrite forallb_forall in Hall.
  assert (drop 1 TABLES !! (Z.to_nat reference - 1)%nat = Some spec) as Hd.
  { rewrite lookup_drop. rewrite <-Ht. f_equal. lia. }
  apply list_elem_of_lookup_2, list_elem_of_In, Hall in Hd. by rewrite Hn in Hd.
Qed.

Lemma agree_map_stored name dictionary f entry n t spec :
  keys_unique dictionary → table_spec (fs_reference f) = Some spec → fs_kind f = KTable →
  (ts_name spec =? "Map")%string = true → ignored name (fs_name f) = false →
  project_field name dictionary f = Ok (Some (FTable t)) →
  stored n (fs_reference f) t = Some entry →
  agree_map name dictionary f entry = Ok tt.
Proof.
  intros [Hd Hm] Hs Hk Hmap Hi Hp Hst. pose proof (map_reference _ _ Hs Hmap) as Hr. rewrite Hr in Hst.
  unfold project_field in Hp. rewrite Hi, Hk in Hp. unfold agree_map.
  set (extra := is_extra name f) in *. set (v := if extra then None else get_key dictionary (fs_name f)) in *.
  assert (∀ source, NoDup source.*1 → project_map source = Some (FTable t) →
    match fields_get "key" entry with
    | Some (FText key) =>
        let v := match fields_get "value" entry with
                 | Some (FText s) => Some (VString s)
                 | Some FNull => Some VUnit
                 | _ => None
                 end in
        match v, map_get source key with
        | Some v, Some item =>
            if same_scalar item v then Ok tt else Err (invalid "contradictory Map metadata")
        | _, _ => Err (invalid "contradictory Map metadata")
        end
    | _ => Err (invalid "map key")
    end = Ok tt) as Hsource.
  { intros source Hnd Hpm. apply project_map_entry in Hpm as (key & text & Hin & [= ->]).
    apply stored_pair in Hst as [-> ->]. simpl. rewrite (map_get_unique _ _ _ Hnd Hin). simpl.
    by rewrite (proj2 (str_eqb_eq text text)). }
  destruct extra eqn:Eextra; simpl in Hp.
  - unfold project_table, table_index in Hp. rewrite Hs in Hp. simpl in Hp. rewrite Hmap in Hp.
    injection Hp as Hp. by apply Hsource.
  - subst v. simpl in Hp. destruct (get_key dictionary (fs_name f)) as [v|] eqn:Eg; simpl in Hp.
    + destruct (is_unit v) eqn:Eu.
      { destruct (fs_required f); [|done]. unfold project_required in Hp. rewrite Hk in Hp.
        injection Hp as <-. exfalso. clear -Hst. destruct n; vm_compute in Hst; discriminate. }
      unfold project_table in Hp. destruct v; try done. simpl in Hp. unfold table_index in Hp.
      rewrite Hs in Hp. simpl in Hp. rewrite Hmap in Hp. injection Hp as Hp. simpl.
      apply Hsource; [|done]. by eapply Hm.
    + destruct (fs_required f); [|done]. unfold project_required in Hp. rewrite Hk in Hp.
      injection Hp as <-. exfalso. clear -Hst. destruct n; vm_compute in Hst; discriminate.
Qed.

Lemma traverse_list_units {B} (f : B → outcome ParseError unit) l :
  (∀ b, b ∈ l → f b = Ok tt) → ∃ us, traverse_list f l = Ok us.
Proof.
  induction l as [|b l IH]; intros H; [by eexists|]. simpl. rewrite H by apply elem_of_cons, or_introl, eq_refl.
  destruct IH as [us ->]; [|by eexists]. intros c Hc. apply H, elem_of_cons. by right.
Qed.

#[local] Arguments matches : simpl never.

(** A projected vector of scalars is written element by element. *)
Lemma project_element_vector name dictionary f p : fs_kind f = KScalarVector →
  project_field name dictionary f = Ok p → ∀ l, default FNull p ≠ FBytes l.
Proof.
  intros Hk H l. unfold project_field in H. rewrite Hk in H.
  destruct (ignored _ _); [by injection H as <-|].
  destruct (_ && _).
  - unfold project_required in H. rewrite Hk in H. by destruct (fs_required f); simplify_eq.
  - unfold project_vector in H. repeat case_match; try done. by apply bind_Ok_inv in H as (? & _ & [= <-]).
Qed.

Lemma agree_stored name dictionary reference spec expected body back n : (n < 64)%nat →
  table_shape spec = true → table_spec reference = Some spec → project name dictionary reference = Ok expected →
  (∀ f, f ∈ ts_fields spec → ignored name (fs_name f) = false →
     fields_get (fs_name f) body = fields_get (fs_name f) expected) →
  keys_unique dictionary → stored (S n) reference body = Some back →
  agree name back dictionary reference = Ok tt.
Proof.
  intros Hn Hshape Hs Hproj Hbody Hd Hst. destruct (stored_S _ _ _ _ Hst) as (spec' & Hs' & _ & Hin & _).
  rewrite Hs in Hs'. injection Hs' as <-. unfold agree, table_index. rewrite Hproj, Hs. simpl.
  destruct (traverse_list_units (agree_field name back expected dictionary) (ts_fields spec)) as [us ->]; [|done].
  intros f Hf. unfold agree_field. destruct (ignored name (fs_name f)) eqn:Ei; [done|].
  pose proof (project_get _ _ _ _ _ _ Hs Hproj Hf) as Hp.
  destruct (Hin f Hf) as (v & Hv & Hget).
  assert (field_value back f = v) as -> by (unfold field_value; by rewrite Hget).
  assert (field_value expected f = field_value body f) as Hw by (unfold field_value; by rewrite Hbody).
  assert (element_vector f (field_value body f)) as Hvec.
  { intros Hk. split.
    - destruct (is_byte_vector f) eqn:Ebv; [|done].
      by rewrite (payload_key_ignored _ _ (byte_vector_payload _ _ Hshape Hf Ebv)) in Ei.
    - rewrite <-Hw. by eapply project_element_vector. }
  pose proof (matches_stored n 64 f _ _ Hn ltac:(by eexists _, _) Hvec Hv) as Hm. rewrite <-Hw in Hm, Hv.
  destruct (table_spec_ok _ _ Hs) as [Hok _]. rewrite Forall_forall in Hok.
  destruct (proj1 (index_ok_Some _) (field_ok_reference f (Hok f Hf))) as [t Et].
  destruct (bool_decide_reflect (fs_kind f = KTable)) as [Hk|Hk]; simpl.
  - unfold table_index. rewrite Et. cbn [mbind outcome_bind].
    destruct v; cbn iota; try (by rewrite Hm).
    destruct (ts_name t =? "Map")%string eqn:Emap; [|by rewrite Hm].
    unfold stored_field in Hv. rewrite Hk in Hv. unfold field_value in Hv.
    destruct (fields_get (fs_name f) expected) as [[]|] eqn:Ee; simpl in Hv; repeat case_match; simplify_eq; try done.
    apply fmap_Some in Hv as (entry & Hentry & [= ->]). by eapply agree_map_stored.
  - by destruct v; rewrite Hm.
Qed.

(** ** The fields of an envelope *)
Lemma find_position_Some {A} (f : A → bool) l i : find_position f l = Some i →
  0 ≤ i ∧ ∃ a, l !! Z.to_nat i = Some a ∧ f a = true.
Proof.
  unfold find_position. intros H. apply fmap_Some in H as ([j a] & Hf & ->).
  apply list_find_Some in Hf as (Hl & Ha & _). simpl. split; [lia|]. exists a. by rewrite Nat2Z.id.
Qed.

Lemma name_reference_Ok name reference : name_reference name = Ok reference →
  ∃ spec, table_spec reference = Some spec ∧ ts_name spec = name.
Proof.
  unfold name_reference. intros H%ok_or_Ok_inv. apply find_position_Some in H as (H0 & spec & Hl & Hn).
  exists spec. split; [|by apply String.eqb_eq]. unfold table_spec.
  assert (index_ok reference = true) as ->; [|done].
  apply lookup_lt_Some in Hl. unfold index_ok, zlen. lia.
Qed.

Lemma reference_tag_Ok reference tag : 0 ≤ reference → reference_tag reference = Ok tag →
  message_reference tag = Ok reference.
Proof.
  intros H0. unfold reference_tag, message_reference. intros H. apply bind_Ok_inv in H as (root & -> & H). simpl.
  destruct (ts_fields root !! 1%nat) as [msg|]; [|done].
  apply ok_or_Ok_inv, find_position_Some in H as (_ & r & -> & Hr). apply Z.eqb_eq in Hr as <-.
  by rewrite (proj2 (Z.ltb_ge reference 0)).
Qed.

Lemma extend_get fields more k : NoDup more.*1 →
  fields_get k (extend fields more) = match fields_get k more with Some v => Some v | None => fields_get k fields end.
Proof.
  unfold extend. revert fields. induction more as [|[k' v] more IH]; intros fields Hnd; [done|].
  rewrite fmap_cons in Hnd. apply NoDup_cons in Hnd as [Hk Hnd]. simpl. rewrite IH by done.
  destruct (String.eqb_spec k' k) as [->|Hne].
  - assert (fields_get k more = None) as ->; [|by rewrite fields_get_insert].
    clear -Hk. induction more as [|[k' w] more IH]; [done|]. simpl.
    rewrite fmap_cons in Hk. apply not_elem_of_cons in Hk as [Hne Hk]. simpl in Hne.
    rewrite (proj2 (String.eqb_neq k' k)) by done. by apply IH.
  - destruct (fields_get k more); [done|]. by apply fields_get_insert_ne.
Qed.

Definition no_payload : Payload := mkPayload None None None.

(** What a table is given for an argument. *)
Definition argument_field (o : option (list Z)) : option fb_value := FBytes <$> o.

Lemma put_payload_get body p body' : put_payload body p = Ok body' →
  (∀ k, payload_key k = true → fields_get k body = None) →
  let q := default no_payload p in
  (∀ k, payload_key k = false → fields_get k body' = fields_get k body) ∧
  fields_get "args" body' = argument_field (args q) ∧
  fields_get "kwargs" body' = argument_field (kwargs q) ∧
  fields_get "payload" body' = argument_field (transparent q) ∧
  (∀ p', p = Some p' → validate_flatbuffers_payload p' = Ok tt).
Proof.
  intros H Hnone. unfold put_payload in H. destruct p as [p|].
  - apply bind_Ok_inv in H as ([] & Hv & H).
    assert (body' = put_bytes (put_bytes (put_bytes body ("args", args p)) ("kwargs", kwargs p))
                      ("payload", transparent p)) as -> by (by injection H).
    assert (∀ k o b, fields_get k (put_bytes b (k, o)) = match o with Some l => Some (FBytes l) | None => fields_get k b end)
      as Hsame by (intros k [l|] b; [by apply fields_get_insert|done]).
    assert (∀ k k' o b, k ≠ k' → fields_get k (put_bytes b (k', o)) = fields_get k b)
      as Hother by (intros k k' [l|] b Hne; [by apply fields_get_insert_ne|done]).
    cbn [foldl default from_option id]. split_and!.
    + intros k Hk. unfold payload_key in Hk. simpl in Hk.
      assert (k ≠ "args" ∧ k ≠ "kwargs" ∧ k ≠ "payload")%string as (?&?&?)
        by (split_and!; intros ->; done).
      by rewrite !Hother.
    + rewrite !Hother, Hsame by done. simpl. by destruct (args p); [|apply Hnone].
    + rewrite Hother, Hsame by done. rewrite Hother by done. simpl. by destruct (kwargs p); [|apply Hnone].
    + rewrite Hsame. rewrite !Hother by done. simpl. by destruct (transparent p); [|apply Hnone].
    + by intros ? [= <-].
  - injection H as <-. split_and!; [done|by apply Hnone..|done].
Qed.

Lemma project_ignored name dictionary reference spec expected k : table_spec reference = Some spec →
  project name dictionary reference = Ok expected → ignored name k = true → fields_get k expected = None.
Proof.
  intros Hs Hp Hi. destruct (decide (k ∈ fs_name <$> ts_fields spec)) as [Hk|Hk].
  - apply list_elem_of_fmap in Hk as (f & -> & Hf).
    pose proof (project_get _ _ _ _ _ _ Hs Hp Hf) as H. unfold project_field in H. rewrite Hi in H. congruence.
  - unfold project, table_index in Hp. rewrite Hs in Hp. simpl in Hp.
    destruct (table_spec_ok _ _ Hs) as [_ Hnd].
    destruct (try_fold_project name dictionary (ts_fields spec) Hnd [] expected Hp) as [Hout _]. by apply Hout.
Qed.

Lemma projected_ignored name reference spec dictionary body k : table_spec reference = Some spec →
  projected name reference dictionary = Ok body → ignored name k = true → fields_get k body = None.
Proof.
  intros Hs H Hi. unfold projected in H. destruct dictionary as [d|]; [|by simplify_eq].
  apply bind_Ok_inv in H as (? & _ & H). destruct (_ =? _)%string; [by simplify_eq|].
  by eapply project_ignored.
Qed.


(** ** Envelopes *)

(** What the parser needs of an envelope: its controls are leaves, on keys that
    the metadata does not speak of, and a dictionary is present as announced. *)
Record envelope_ok (env : Envelope) : Prop := {
  ok_name : env_name env ∈ message_tables;
  ok_distinct : NoDup (env_controls env).*1;
  ok_leaves : forallb (λ p, leaf p.2) (env_controls env) = true;
  ok_ignored : forallb (λ p, ignored (env_name env) p.1 || (env_name env =? "Heartbeat")%string)
                 (env_controls env) = true;
  ok_payload : forallb (λ p, negb (payload_key p.1)) (env_controls env) = true;
  ok_dictionary : no_dictionary (env_name env) = bool_decide (env_dictionary env = None);
  ok_bare : env_dictionary env = None → ∀ reference,
    name_reference (env_name env) = Ok reference → project (env_name env) [] reference = Ok [];
  ok_session : one_of (env_name env) ["Welcome"; "Heartbeat"]%string = false →
    fields_get "session" (env_controls env) = None;
}.

#[local] Ltac envelope_cases :=
  constructor; cbn [env_name env_controls env_dictionary];
  [ apply one_of_elem; reflexivity
  | vm_compute; repeat (apply NoDup_cons; split; [rewrite ?not_elem_of_cons; repeat split; (discriminate || apply not_elem_of_nil)|]);
    apply NoDup_nil_2
  | reflexivity | reflexivity | reflexivity | reflexivity
  | try discriminate; intros _ reference Href; vm_compute in Href; injection Href as <-; vm_compute; reflexivity
  | reflexivity || discriminate ].

Lemma envelope_spec m env : envelope m = Ok env → envelope_ok env.
Proof.
  destruct m; unfold envelope; repeat case_match; intros [= <-]; try (envelope_cases; fail).
  destruct ping, incoming, outgoing; envelope_cases.
Qed.

Lemma stored_absent n reference fields back spec f : stored (S n) reference fields = Some back →
  table_spec reference = Some spec → f ∈ ts_fields spec → fields_get (fs_name f) fields = None →
  fields_get (fs_name f) back =
    Some (if bool_decide (fs_kind f = KScalar) then FInteger (fs_default f) else FNull).
Proof.
  intros H Hs Hf Hnone. destruct (stored_S _ _ _ _ H) as (spec' & Hs' & _ & Hin & _). simplify_eq.
  destruct (Hin f Hf) as (v & Hv & ->). f_equal. unfold field_value in Hv. rewrite Hnone in Hv.
  unfold stored_field in Hv. simpl in Hv. by destruct (fs_kind f); repeat case_match; simplify_eq.
Qed.

(** A byte vector of a message comes back as it was, or as absent. *)
Lemma stored_byte_vector n reference fields back spec key o : stored (S n) reference fields = Some back →
  table_spec reference = Some spec → table_shape spec = true → payload_key key = true →
  fields_get key fields = argument_field o → byte_vector back key = Ok o.
Proof.
  intros H Hs Hshape Hk Hget. unfold byte_vector.
  destruct (stored_S _ _ _ _ H) as (spec' & Hs' & Hkeys & Hin & Hnone). rewrite Hs in Hs'. injection Hs' as <-.
  destruct (decide (key ∈ fs_name <$> ts_fields spec)) as [Hkey|Hout].
  - apply list_elem_of_fmap in Hkey as (f & -> & Hf). destruct (Hin f Hf) as (v & Hv & ->).
    pose proof (payload_byte_vector _ _ Hshape Hf Hk) as Hb.
    assert (fs_kind f = KScalarVector) as Hkind.
    { unfold is_byte_vector in Hb. by apply andb_true_iff in Hb as [[Hkind%bool_decide_eq_true _]%andb_true_iff _]. }
    unfold field_value in Hv. rewrite Hget in Hv. unfold stored_field in Hv. rewrite Hkind in Hv.
    destruct o as [l|]; simpl in Hv; [rewrite Hb in Hv; by injection Hv as <-|].
    destruct (fs_required f); [done|]. by injection Hv as <-.
  - rewrite Hnone by done. destruct o as [l|]; [|done]. by destruct Hout; apply Hkeys; rewrite Hget.
Qed.

Lemma payload_of_back back p :
  byte_vector back "args" = Ok (args p) → byte_vector back "kwargs" = Ok (kwargs p) →
  byte_vector back "payload" = Ok (transparent p) → validate_flatbuffers_payload p = Ok tt →
  payload_of back = Ok p.
Proof.
  intros Ha Hk Ht Hv. unfold payload_of. rewrite Ha, Hk, Ht. simpl.
  unfold validate_flatbuffers_payload in Hv. destruct (_ && _); [done|].
  simpl in Hv. apply bind_Ok_inv in Hv as (us & Hus & _). apply bind_Ok_inv in Hus as ([] & H1 & Hus).
  apply bind_Ok_inv in Hus as (us' & Hus & _). apply bind_Ok_inv in Hus as ([] & H2 & _).
  rewrite H1. simpl. rewrite H2. by destruct p.
Qed.

Section back.
Context `{SL : !SerdeLib}.

(** [serde_cbor] reads back the dictionary it wrote. *)
Definition dictionary_law (dictionary : ValueMap) : Prop :=
  ∀ l, cbor_to_vec (VMap dictionary) = inr l → cbor_from_slice l = inr (VMap dictionary).

Lemma dictionary_of_back root metadata dictionary name back tag :
  put_metadata root dictionary = Ok metadata → fields_get "metadata" root = None →
  no_dictionary name = bool_decide (dictionary = None) →
  (∀ d, dictionary = Some d → dictionary_law d) →
  dictionary_of name [("metadata", default FNull (fields_get "metadata" metadata)); ("msg", FTable back);
                      ("msg_type", FInteger tag)]%string = Ok (default [] dictionary).
Proof.
  intros Hput Hroot Hno Hlaw. unfold dictionary_of. rewrite Hno. simpl.
  destruct dictionary as [d|]; simpl in Hput.
  - apply bind_Ok_inv in Hput as (l & Hl & Hput). apply bind_Ok_inv in Hput as ([] & Hv & [= <-]).
    destruct (cbor_to_vec (VMap d)) as [|l'] eqn:El; [done|]. injection Hl as ->.
    rewrite fields_get_insert. simpl. rewrite Hv. simpl. by rewrite (Hlaw d eq_refl l El).
  - injection Hput as <-. by rewrite Hroot.
Qed.

(** The table of an envelope, as it comes back. *)
Record comes_back (env : Envelope) (reference : Z) (spec : TableSpec) (back : Fields) : Prop := {
  back_spec : table_spec reference = Some spec;
  back_name : ts_name spec = env_name env;
  back_controls : ∀ k v, fields_get k (env_controls env) = Some v → fields_get k back = Some v;
  back_session : one_of (env_name env) ["Welcome"; "Heartbeat"]%string = false →
    fields_get "session" back = Some (FInteger 0);
  back_heartbeat : env_name env = "Heartbeat"%string → ∀ f, f ∈ ts_fields spec →
    payload_key (fs_name f) = false → fs_kind f = KScalar →
    fields_get (fs_name f) (env_controls env) = None →
    fields_get (fs_name f) back = Some (FInteger (fs_default f));
  back_payload : payload_of back = Ok (default no_payload (env_payload env));
  back_agrees : (env_name env = "Heartbeat"%string ∨
    agree (env_name env) back (default [] (env_dictionary env)) reference = Ok tt);
}.

Lemma fields_get_elem k v (fields : Fields) : fields_get k fields = Some v → (k, v) ∈ fields.
Proof.
  induction fields as [|[k' w] fields IH]; [done|]. simpl. destruct (String.eqb_spec k' k) as [->|].
  - intros [= ->]. apply elem_of_cons. by left.
  - intros H. apply elem_of_cons. right. by apply IH.
Qed.

Lemma envelope_back env reference body0 body back n : (n < 64)%nat → envelope_ok env →
  name_reference (env_name env) = Ok reference →
  projected (env_name env) reference (env_dictionary env) = Ok body0 →
  put_payload (extend body0 (env_controls env)) (env_payload env) = Ok body →
  (∀ d, env_dictionary env = Some d → keys_unique d) →
  stored (S n) reference body = Some back →
  ∃ spec, comes_back env reference spec back.
Proof.
  intros Hn Hok Href Hproj Hput Hkeys Hst. destruct Hok.
  destruct (name_reference_Ok _ _ Href) as (spec & Hs & Hname). exists spec.
  assert (table_shape spec = true) as Hshape by (eapply message_shape; [done|by rewrite Hname]).
  assert (∀ k, payload_key k = true → fields_get k (extend body0 (env_controls env)) = None) as Hnone.
  { intros k Hk. rewrite extend_get by done.
    destruct (fields_get k (env_controls env)) as [v|] eqn:Ek.
    - apply fields_get_elem in Ek. rewrite forallb_forall in ok_payload0.
      specialize (ok_payload0 _ (proj1 (list_elem_of_In _ _) Ek)). simpl in ok_payload0. by rewrite Hk in ok_payload0.
    - eapply projected_ignored; [done..|]. by apply payload_key_ignored. }
  destruct (put_payload_get _ _ _ Hput Hnone) as (Hother & Ha & Hk & Ht & Hv).
  assert (∀ k v, fields_get k (env_controls env) = Some v → fields_get k body = Some v) as Hcontrols.
  { intros k v Hkv. pose proof (fields_get_elem _ _ _ Hkv) as Hin.
    rewrite forallb_forall in ok_payload0. specialize (ok_payload0 _ (proj1 (list_elem_of_In _ _) Hin)).
    apply negb_true_iff in ok_payload0. rewrite Hother by done. by rewrite extend_get, Hkv. }
  split; [done|done|..].
  - intros k v Hkv. eapply stored_leaf; [done|by apply Hcontrols|].
    apply fields_get_elem in Hkv. rewrite forallb_forall in ok_leaves0.
    exact (ok_leaves0 _ (proj1 (list_elem_of_In _ _) Hkv)).
  - intros Hname'. assert (session_field ∈ ts_fields spec) as Hf.
    { apply andb_true_iff in Hshape as [Hshape _]. apply orb_true_iff in Hshape as [Hh|Hh].
      - apply one_of_elem, list_elem_of_singleton in Hh. rewrite Hname in Hh. by rewrite Hh in Hname'.
      - by apply bool_decide_eq_true in Hh. }
    apply (stored_absent _ _ _ _ _ _ Hst Hs Hf). change (fs_name session_field) with "session"%string.
    rewrite Hother by done.
    rewrite extend_get, ok_session0 by done. by eapply projected_ignored.
  - intros Hheart f Hf Hpk Hkind Hfc. rewrite (stored_absent _ _ _ _ _ _ Hst Hs Hf).
    { by rewrite bool_decide_eq_true_2. }
    rewrite Hother by done. rewrite extend_get, Hfc by done.
    unfold projected in Hproj. rewrite Hheart in Hproj. destruct (env_dictionary env); [|by simplify_eq].
    apply bind_Ok_inv in Hproj as (? & _ & Hp). by injection Hp as <-.
  - apply payload_of_back; [by eapply stored_byte_vector..|].
    destruct (env_payload env); [by apply Hv|done].
  - destruct (decide (env_name env = "Heartbeat"%string)) as [|Hne]; [by left|right].
    assert (project (env_name env) (default [] (env_dictionary env)) reference = Ok body0) as Hp.
    { unfold projected in Hproj. destruct (env_dictionary env) as [d|].
      - apply bind_Ok_inv in Hproj as (? & _ & Hp). by rewrite (proj2 (String.eqb_neq _ _)) in Hp.
      - injection Hproj as <-. by apply ok_bare0. }
    apply (agree_stored _ _ _ spec body0 body back n); try done.
    + intros f Hf Hi. destruct (payload_key (fs_name f)) eqn:Epk.
      { by rewrite (payload_key_ignored _ _ Epk) in Hi. }
      rewrite Hother by done. rewrite extend_get by done.
      destruct (fields_get (fs_name f) (env_controls env)) as [v|] eqn:Ek; [|done].
      apply fields_get_elem in Ek. rewrite forallb_forall in ok_ignored0.
      specialize (ok_ignored0 _ (proj1 (list_elem_of_In _ _) Ek)). simpl in ok_ignored0. rewrite Hi in ok_ignored0.
      simpl in ok_ignored0. by apply String.eqb_eq in ok_ignored0.
    + destruct (env_dictionary env) as [d|]; [by apply Hkeys|]. split; [constructor|done].
Qed.
End back.

(** ** Messages come back *)
Lemma challenge_back back auth_method : auth_method ≠ [] →
  fields_get "method" back = Some (FInteger (method_position auth_method)) →
  fields_get "method_name" back = Some (FText auth_method) → challenge back = Ok auth_method.
Proof.
  intros Hne Hm Hn. unfold challenge, integer. rewrite Hm, Hn. cbn [mbind outcome_bind]. unfold method_position.
  destruct (list_find _ METHODS) as [[i m]|] eqn:E.
  - apply list_find_Some in E as (Hi & Hmeth%str_eqb_eq & _). rewrite Nat2Z.id, Hi. cbn [ok_or mbind outcome_bind].
    rewrite bool_decide_eq_false_2 by done. rewrite <-Hmeth.
    assert (existsb (λ n, str_eqb (lit m) (lit n)) METHODS = true) as ->; [|by rewrite (proj2 (str_eqb_eq _ _))].
    apply existsb_exists. exists m. split; [|by apply str_eqb_eq].
    by apply list_elem_of_In; apply list_elem_of_lookup_2 in Hi.
  - apply list_find_None in E. change (METHODS !! Z.to_nat 0) with (Some "anonymous"%string).
    cbn [ok_or mbind outcome_bind]. rewrite bool_decide_eq_false_2 by done.
    assert (existsb (λ n, str_eqb auth_method (lit n)) METHODS = false) as ->; [|done].
    apply not_true_is_false. intros (n & Hn' & Heq%str_eqb_eq)%existsb_exists.
    rewrite Forall_forall in E. apply (E n); [by apply list_elem_of_In|]. by apply str_eqb_eq.
Qed.

#[local] Ltac lookups back Hb :=
  unfold integer, text;
  repeat match goal with
  | |- context [fields_get ?k back] => rewrite (back_controls _ _ _ _ Hb k _ eq_refl); cbn [mbind outcome_bind]
  end.

Lemma heartbeat_back details ping incoming outgoing reference spec back :
  let env := mkEnvelope "Heartbeat" (Some details) None (heartbeat_controls ping incoming outgoing) in
  name_reference "Heartbeat" = Ok reference → comes_back env reference spec back →
  heartbeat_message back details = Ok (Heartbeat details ping incoming outgoing).
Proof.
  intros env Href Hb. vm_compute in Href. injection Href as <-.
  pose proof (back_spec _ _ _ _ Hb) as Hs. vm_compute in Hs. injection Hs as <-.
  assert (∀ name, name ∈ ["ping"; "incoming"; "outgoing"]%string →
    fields_get name (env_controls env) = None → fields_get name back = Some (FInteger 0)) as Habsent.
  { intros name Hname Hnone.
    apply (back_heartbeat _ _ _ _ Hb eq_refl (mkField name KScalar 8 false 0 [] true 0)); try done.
    - rewrite !elem_of_cons, elem_of_nil in Hname. destruct Hname as [->|[->|[->|[]]]]; apply list_elem_of_In; simpl; tauto.
    - rewrite !elem_of_cons, elem_of_nil in Hname. by destruct Hname as [->|[->|[->|[]]]]. }
  unfold heartbeat_message, heartbeat_control, integer.
  destruct ping, incoming, outgoing;
    repeat match goal with
    | |- context [fields_get ?k back] =>
        first [ rewrite (back_controls _ _ _ _ Hb k _ eq_refl)
              | rewrite (Habsent k ltac:(apply list_elem_of_In; simpl; tauto) eq_refl) ];
        cbn [mbind outcome_bind]
    end; reflexivity.
Qed.

Lemma message_back m env reference spec back : envelope m = Ok env →
  name_reference (env_name env) = Ok reference → comes_back env reference spec back →
  flatbuffers_message (env_name env) back (default [] (env_dictionary env))
    (default no_payload (env_payload env)) = Ok m.
Proof.
  intros Henv Href Hb.
  destruct m; unfold envelope in Henv; repeat case_match; try discriminate Henv; injection Henv as <-;
    unfold flatbuffers_message, session_message, pubsub_message, rpc_message, first_some;
    cbn -[heartbeat_controls]; try (lookups back Hb; reflexivity).
  - rewrite (challenge_back back auth_method); [done|exact (bool_decide_eq_false_1 _ H)|..];
      by apply (back_controls _ _ _ _ Hb).
  - by apply (heartbeat_back details ping incoming outgoing reference spec).
  - unfold error_message. apply negb_false_iff in H.
    lookups back Hb. rewrite H. reflexivity.
Qed.

Section roundtrip.
Context `{SL : !SerdeLib}.

Lemma put_metadata_root body tag dictionary root :
  put_metadata [("msg", FTable body); ("msg_type", FInteger tag)]%string dictionary = Ok root →
  fields_get "msg_type" root = Some (FInteger tag) ∧ fields_get "msg" root = Some (FTable body) ∧
  let metadata := default FNull (fields_get "metadata" root) in
  ∀ T, stored_field T metadata_field metadata = Some metadata.
Proof. unfold put_metadata. intros H. destruct dictionary; [|by injection H as <-]. by inv_ok. Qed.

Lemma index_ok_nonneg reference spec : table_spec reference = Some spec → 0 ≤ reference.
Proof. unfold table_spec. destruct (index_ok reference) eqn:E; [|done]. unfold index_ok in E. lia. Qed.

Lemma encoder_fields_back m root sback bytes :
  encoder_fields m = Ok root → stored_root root = Some sback →
  (∀ env d, envelope m = Ok env → env_dictionary env = Some d → keys_unique d ∧ dictionary_law d) →
  flatbuffers_parsed bytes sback
  = Ok (mkParsedMessage m (Contiguous bytes) Flatbuffers (encoded_metadata_of root)).
Proof.
  intros Henc Hst Hdict. unfold encoder_fields in Henc. inv_ok.
  rename a into env, a0 into reference, a1 into tag, a2 into body0, a3 into body.
  pose proof (envelope_spec _ _ Ha) as Hok.
  destruct (name_reference_Ok _ _ Ha0) as (spec & Hs & Hname).
  pose proof (reference_tag_Ok _ _ (index_ok_nonneg _ _ Hs) Ha1) as Htag.
  destruct (put_metadata_root _ _ _ _ Henc) as (Hty & Hmsg & Hmeta).
  unfold stored_root in Hst. rewrite Hty, Hmsg, Htag in Hst. cbn [okv mbind option_bind] in Hst.
  apply bind_Some in Hst as (back & Hback & Hst). rewrite Hmeta in Hst.
  destruct (envelope_back env reference body0 body back 62 ltac:(lia) Hok Ha0 Ha2 Ha3
    ltac:(intros; by eapply Hdict) Hback) as (spec' & Hb).
  pose proof (dictionary_of_back _ root (env_dictionary env) (env_name env) back tag Henc eq_refl
    (ok_dictionary _ Hok) ltac:(intros; by eapply Hdict)) as Hd.
  injection Hst as <-.
  unfold flatbuffers_parsed. set (sback := [_; _; _]) in *.
  change (integer sback "msg_type") with (Ok (E:=ParseError) tag). cbn [mbind outcome_bind].
  rewrite Htag. cbn [mbind outcome_bind]. unfold table_index. rewrite Hs. cbn [mbind outcome_bind].
  rewrite Hname. change (message_body sback) with (Ok (E:=ParseError) back). cbn [mbind outcome_bind].
  assert (session_check (env_name env) back = Ok tt) as ->.
  { unfold session_check. destruct (one_of _ _) eqn:E; [done|]. unfold integer.
    by rewrite (back_session _ _ _ _ Hb E). }
  cbn [mbind outcome_bind]. rewrite Hd. cbn [mbind outcome_bind].
  assert ((if (env_name env =? "Heartbeat")%string then Ok ()
           else agree (env_name env) back (default [] (env_dictionary env)) reference) = Ok tt) as ->.
  { destruct (String.eqb_spec (env_name env) "Heartbeat"); [done|]. by destruct (back_agrees _ _ _ _ Hb). }
  cbn [mbind outcome_bind]. rewrite (back_payload _ _ _ _ Hb). cbn [mbind outcome_bind].
  rewrite (message_back m env reference spec' back Ha Ha0 Hb). cbn [mbind outcome_bind].
  do 2 f_equal. unfold encoded_metadata_of. simpl. by destruct (fields_get "metadata" root) as [[]|].
Qed.
End roundtrip.

(** Whatever bytes the fields that the encoder gives a message are written to,
    when they read back as the schema keeps them, parsing returns the message. *)
Lemma flatbuffers_roundtrip `{SL : !SerdeLib} m root raw sback :
  encoder_fields m = Ok root → stored_root root = Some sback →
  (∀ env d, envelope m = Ok env → env_dictionary env = Some d → keys_unique d ∧ dictionary_law d) →
  frame_len raw ≤ MAX_BYTES → read (into_bytes raw) = Ok sback →
  flatbuffers_parse raw
  = Ok (mkParsedMessage m (Contiguous (into_bytes raw)) Flatbuffers (encoded_metadata_of root)).
Proof.
  intros Henc Hst Hdict Hlen Hread. unfold flatbuffers_parse.
  rewrite (proj2 (Z.ltb_ge _ _)) by lia. rewrite Hread. cbn [mbind outcome_bind].
  by apply encoder_fields_back.
Qed.

Definition demo_yield : WampMessage := Yield 7 [] (mkPayload (Some [0x81; 1]) None None).
