(* ===== verification/WampParse.v ===== *)
(** * The message parsers together

    [parse_message], [parse_message_segments] and [parse_message_frame] of
    [ct_core/src/wamp.rs]. *)
From S2P Require Import Prelude Bytes Text WampTypes RawFrame Msgpack MsgpackMessage.
From S2P Require Import WampValues Cbor Json FbWire FbRead FbCodec DemoSerde.

Section parse.
Context `{SL : !SerdeLib}.

Definition parse_message_frame (serializer : Serializer) (raw_payload : RawFrame) :
    outcome ParseError ParsedMessage :=
  match serializer with
  | Json => parse_json_message raw_payload
  | MessagePack => parse_msgpack_message raw_payload
  | Cbor => parse_cbor_message raw_payload
  | Flatbuffers => flatbuffers_parse raw_payload
  | other => parse_value_message other raw_payload
  end.

Definition parse_message (serializer : Serializer) (raw_payload : list Z) :
    outcome ParseError ParsedMessage :=
  parse_message_frame serializer (Contiguous raw_payload).

Definition parse_message_segments (serializer : Serializer) (segments : list (list Z)) :
    outcome ParseError ParsedMessage :=
  parse_message_frame serializer (from_segments segments).

End parse.

Lemma frame_ok_contiguous b : bytes_ok b → frame_ok (Contiguous b).
Proof. by split. Qed.
Lemma frame_ok_segments segments : Forall bytes_ok segments → frame_ok (from_segments segments).
Proof. intros. split; [done|]. by apply Forall_concat. Qed.

(** A segmented message parses as one contiguous buffer does. *)
Lemma parse_segments_equiv `{SL : !SerdeLib} s segments :
  Forall bytes_ok segments → s = MessagePack ∨ s = Flatbuffers →
  message <$> parse_message_segments s segments = message <$> parse_message s (concat segments).
Proof.
  intros Hb [-> | ->].
  - apply parse_msgpack_message_equiv.
    + by apply frame_ok_segments.
    + by apply frame_ok_contiguous, Forall_concat.
    + by split_and!.
  - unfold parse_message_segments, parse_message, parse_message_frame.
    by rewrite flatbuffers_parse_flat by apply frame_ok_segments, Hb.
Qed.

(** ** Properties *)

(** C6: parsing a received message ends, whatever the bytes, their fragmentation
    and the decoders' answers.  For every serializer but MessagePack it returns a
    message or an error.  For MessagePack it does so too when the allocator grants
    the ranges that the array header claims and the stack has room for as many
    levels as the frame has octets; otherwise it may abort the process, and it
    does: before any element is read, when the claimed ranges are not granted,
    and on nested arrays, one octet per level, that are deeper than the stack. *)
Theorem parse_message_frame_total `{SL : !SerdeLib} `{!JsonBorrow SL} s f :
  frame_ok f →
  (s ≠ MessagePack ∨ msgpack_room f → returns (parse_message_frame s f)) ∧
  (returns (parse_message_frame s f) ∨ parse_message_frame s f = Panic) ∧
  (∀ len offset, msgpack_read_array_len f 0 = Ok (len, offset) → 0 < len →
     grants (RANGE_BYTES * len) = false → parse_message_frame MessagePack f = Panic) ∧
  (∀ n, stack_frames ≤ Z.of_nat n → parse_message_frame MessagePack (nested (S n)) = Panic).
Proof.
  intros Hok. pose proof (parse_msgpack_message_ends f Hok) as Hend. assert (s ≠ MessagePack → returns (parse_message_frame s f)) as Hret.
  { intros Hs. destruct s; simpl; try done.
    - apply returns_parse_json_message.
    - by apply returns_parse_cbor_message.
    - by apply flatbuffers_parse_spec. }
  split; [|split; [|split]].
  - intros [Hs|Hroom]; [auto|]. destruct (decide (s = MessagePack)) as [->|]; [|auto]. simpl.
    by destruct Hend as [|[_ Hno]].
  - destruct (decide (s = MessagePack)) as [->|]; [|auto]. simpl. destruct Hend as [|[? _]]; auto.
  - intros len offset Hl Hpos Hg. simpl. unfold parse_msgpack_message. rewrite Hl. cbn [mbind outcome_bind].
    by rewrite (proj2 (Z.eqb_neq _ _)), Hg by lia.
  - intros n Hn. simpl. by apply parse_msgpack_nested.
Qed.

(** Ten elements are parsed; a claim of 2^32 - 1, in five octets, aborts. *)
Lemma parse_message_frame_total_witness :
  returns (parse_message_frame (SL := DemoSerde) Flatbuffers (from_segments [[0xdf]; [0xff; 0xff]])) ∧
  returns (parse_message_frame (SL := DemoSerde) MessagePack (from_segments [[0x92]; [0xdd; 0xff; 0xff; 0xff; 0xff]])) ∧
  parse_message_frame (SL := DemoSerde) MessagePack (from_segments [[0xdd; 0xff]; [0xff; 0xff; 0xff]]) = Panic.
Proof.
  assert (∀ segments, bool_decide (Forall (Forall (λ b, 0 ≤ b < 256)) segments) = true → frame_ok (from_segments segments)) as Hok
    by (intros segments H%bool_decide_eq_true; apply frame_ok_segments; exact H).
  split; [|split].
  - apply (parse_message_frame_total (SL := DemoSerde) Flatbuffers); [by apply Hok|by left].
  - apply (parse_message_frame_total (SL := DemoSerde) MessagePack); [by apply Hok|right].
    intros len offset H. vm_compute in H. injection H as <- <-. split; [done|]. vm_compute. discriminate.
  - destruct (parse_message_frame_total (SL := DemoSerde) MessagePack (from_segments [[0xdd; 0xff]; [0xff; 0xff; 0xff]]))
      as (_ & _ & Hclaim & _); [by apply Hok|].
    apply (Hclaim 4294967295 5); [vm_compute; reflexivity|lia|vm_compute; reflexivity].
Defined.

(** the WebSocket fragmentation of a message does not change what JSON,
    MessagePack and FlatBuffers parsing makes of it: the fragments give the same message, with
    the same payload bytes, or the same error, as one contiguous buffer. *)
Theorem parse_message_segments_contiguous `{SL : !SerdeLib} s segments :
  Forall bytes_ok segments → s = Json ∨ s = MessagePack ∨ s = Flatbuffers →
  message <$> parse_message_segments s segments
  = message <$> parse_message s (concat segments).
Proof.
  intros Hb [->|Hs]; [done|]. by apply parse_segments_equiv.
Qed.

Lemma parse_message_segments_contiguous_witness :
  Ok demo_call_message
  = message <$> parse_message (SL := DemoSerde) MessagePack
      [0x95; 48; 7; 0x80; 0xa1; 0x61; 0x91; 1].
Proof.
  transitivity (message <$> parse_message_segments (SL := DemoSerde)
    MessagePack demo_call_segments); [vm_compute; reflexivity|].
  apply (parse_message_segments_contiguous (SL := DemoSerde)
    MessagePack demo_call_segments).
  - unfold bytes_ok, u8_ok. repeat constructor; lia.
  - right. left. reflexivity.
Defined.
