(* ===== verification/FbWriter.v ===== *)
(** * The FlatBuffers writer

    [ct_core/src/wamp/flatbuffers_writer.rs]: the walk over the fields of a
    message that checks them against the schema and hands them to the builder of
    the [flatbuffers] crate, and the envelope and compositions of
    [flatbuffers_encoder.rs] on top of it. *)
From stdpp Require Import gmap.
From S2P Require Import Prelude Bytes Text WampTypes RawFrame CborScanner FbSchema FbWire FbRead FbProjection.
From S2P Require Import FbCodec FbEncoder FbRoundtrip WampParse DemoSerde.

(** ** The builder

    What the writer uses of [flatbuffers::FlatBufferBuilder]; a [WIPOffset] is
    its number. *)
Class FlatBufferLib : Type := {
  builder : Type;
  builder_new : builder;
  create_string : str → builder → Z * builder;
  (** [create_vector] of octets, of integers of a width, and of offsets *)
  create_octets : list Z → builder → Z * builder;
  create_integers : Z → list Z → builder → Z * builder;
  create_offsets : list Z → builder → Z * builder;
  start_table : builder → Z * builder;
  push_slot_always : Z → Z → builder → builder;
  (** [push_slot] of a width: the slot, the value and the default *)
  push_slot : Z → Z → Z → Z → builder → builder;
  end_table : Z → builder → Z * builder;
  finish : Z → builder → builder;
  (** the buffer, and where the finished message starts in it *)
  collapse : builder → list Z * Z;
  collapse_start b : 0 ≤ (collapse b).2 ≤ zlen (collapse b).1;
}.

(** A vector to be appended: the table's offset from the end, its slot. *)
Record DeferredVector : Type := mkDeferred { dv_table : Z; dv_slot : Z; dv_bytes : list Z }.

Section writer.
Context `{FB : !FlatBufferLib}.

Record FbWriterState : Type := mkFbWriter {
  fw_builder : builder;
  fw_strings : Z;
  fw_elements : Z;
  fw_tables : Z;
  fw_estimated : Z;
  fw_deferred : option (list DeferredVector);
}.

Definition writer_new (deferred : option (list DeferredVector)) : FbWriterState :=
  mkFbWriter builder_new 0 0 0 0 deferred.

(** A method of [Writer]. *)
Definition fw (A : Type) : Type := FbWriterState → outcome ParseError (A * FbWriterState).
#[global] Instance fw_ret : MRet fw := λ A a w, Ok (a, w).
#[global] Instance fw_bind : MBind fw := λ A B f m w, '(a, w) ← m w; f a w.

Definition fw_fail {A} (reason : string) : fw A := λ _, Err (invalid reason).
Definition fw_lift {A} (o : outcome ParseError A) : fw A := λ w, a ← o; Ok (a, w).
Definition fw_get {A} (f : FbWriterState → A) : fw A := λ w, Ok (f w, w).
Definition fw_build {A} (f : builder → A * builder) : fw A := λ w,
  let '(a, b) := f (fw_builder w) in
  Ok (a, mkFbWriter b (fw_strings w) (fw_elements w) (fw_tables w) (fw_estimated w) (fw_deferred w)).
Definition fw_step (f : builder → builder) : fw unit := fw_build (λ b, (tt, f b)).

Definition fw_charge (bytes : Z) : fw unit := λ w,
  let estimated := fw_estimated w + bytes in
  if 2 ^ 64 <=? estimated then Err (invalid "byte limit")
  else if MAX_BYTES <? estimated then Err (invalid "byte limit")
  else Ok (tt, mkFbWriter (fw_builder w) (fw_strings w) (fw_elements w) (fw_tables w) estimated (fw_deferred w)).

Definition writer_scalar (value : Z) (field : FieldSpec) : outcome ParseError unit :=
  if (fs_wamp_integer field && (9007199254740992 <? value))
     || ((fs_width field <? 8) && (Z.shiftl 1 (fs_width field * 8) <=? value))
     || (negb (bool_decide (fs_values field = [])) &&
         negb (bool_decide (as_signed 64 value ∈ fs_values field)))
  then Err (invalid "scalar value") else Ok tt.

Definition fw_count_string (length : Z) : fw unit := λ w,
  let strings := fw_strings w + length in
  if 2 ^ 64 <=? strings then Err (invalid "string limit")
  else if 1024 * 1024 <? strings then Err (invalid "string limit")
  else Ok (tt, mkFbWriter (fw_builder w) strings (fw_elements w) (fw_tables w) (fw_estimated w) (fw_deferred w)).

Definition writer_string (value : str) : fw Z :=
  _ ← fw_count_string (str_len value);
  _ ← fw_charge (str_len value + 8);
  fw_build (create_string value).

Definition fw_count_elements (length : Z) : fw unit := λ w,
  let elements := fw_elements w + length in
  if 2 ^ 64 <=? elements then Err (invalid "vector limit")
  else if 1000000 <? elements then Err (invalid "vector limit")
  else Ok (tt, mkFbWriter (fw_builder w) (fw_strings w) elements (fw_tables w) (fw_estimated w) (fw_deferred w)).

Definition fw_count_table (depth : Z) : fw unit := λ w,
  let tables := fw_tables w + 1 in
  if (64 <? depth) || (10000 <? tables) then Err (invalid "table or depth limit")
  else Ok (tt, mkFbWriter (fw_builder w) (fw_strings w) (fw_elements w) tables (fw_estimated w) (fw_deferred w)).

Inductive Slot : Type :=
  | SlotScalar (value : Z)
  | SlotOffset (offset : Z)
  | SlotBorrowed (offset : Z) (bytes : list Z).

(** [for value in values], each of them pushed to the list of offsets. *)
Fixpoint fw_map {A B} (f : A → fw B) (l : list A) : fw (list B) :=
  match l with
  | [] => mret []
  | a :: l => b ← f a; bs ← fw_map f l; mret (b :: bs)
  end.

(** [Slot::Borrowed] *)
Definition borrows (field : FieldSpec) (deferred : option (list DeferredVector)) : bool :=
  bool_decide (is_Some deferred) && one_of (fs_name field) ["args"; "kwargs"; "payload"]%string.

Section table.
(** [self.table(fields, reference, depth)] *)
Context (write_table : Fields → Z → Z → fw Z).

Definition write_text (value : fb_value) : fw Z :=
  match value with FText s => writer_string s | _ => fw_fail "string vector" end.

Definition write_child (reference depth : Z) (value : fb_value) : fw Z :=
  match value with FTable t => write_table t reference (depth + 1) | _ => fw_fail "table vector" end.

Definition write_integer (field : FieldSpec) (value : fb_value) : fw Z :=
  match value with
  | FInteger n => _ ← fw_lift (writer_scalar n field); mret n
  | _ => fw_fail "scalar vector"
  end.

Definition write_vector (field : FieldSpec) (values : list fb_value) (depth : Z) : fw Z :=
  _ ← fw_count_elements (zlen values);
  _ ← fw_charge (zlen values * fs_width field + 8);
  if bool_decide (fs_kind field = KStringVector) then
    offsets ← fw_map write_text values;
    fw_build (create_offsets offsets)
  else if bool_decide (fs_kind field = KTableVector) then
    offsets ← fw_map (write_child (fs_reference field) depth) values;
    fw_build (create_offsets offsets)
  else
    integers ← fw_map (write_integer field) values;
    let width := fs_width field in
    if width =? 1 then fw_build (create_integers 1 ((λ v, v mod 2 ^ 8) <$> integers))
    else if width =? 2 then fw_build (create_integers 2 ((λ v, v mod 2 ^ 16) <$> integers))
    else if width =? 4 then fw_build (create_integers 4 ((λ v, v mod 2 ^ 32) <$> integers))
    else if width =? 8 then fw_build (create_integers 8 integers)
    else fw_fail "scalar width".

(** The table of a union, by the discriminator among the fields. *)
Definition writer_target (fields : Fields) (field : FieldSpec) : outcome ParseError Z :=
  if bool_decide (fs_kind field = KUnion) then
    match fields_get "msg_type" fields with
    | Some (FInteger tag) =>
        target ← ok_or (invalid "union discriminator") (fs_values field !! Z.to_nat tag);
        if target <? 0 then Err (invalid "union discriminator") else Ok target
    | _ => Err (invalid "union discriminator")
    end
  else Ok (fs_reference field).

Definition write_bytes (field : FieldSpec) (bytes : list Z) : fw Slot :=
  _ ← fw_charge (zlen bytes + 8);
  borrowed ← fw_get (λ w, borrows field (fw_deferred w));
  if (borrowed : bool)
  then offset ← fw_build (create_octets []); mret (SlotBorrowed offset bytes)
  else offset ← fw_build (create_octets bytes); mret (SlotOffset offset).

(** The slot of a present value. *)
Definition write_value (fields : Fields) (field : FieldSpec) (value : fb_value) (depth : Z) : fw Slot :=
  match fs_kind field, value with
  | KScalar, FInteger n => _ ← fw_lift (writer_scalar n field); mret (SlotScalar n)
  | KString, FText s => offset ← writer_string s; mret (SlotOffset offset)
  | KTable, FTable t | KUnion, FTable t =>
      target ← fw_lift (writer_target fields field);
      offset ← write_table t target (depth + 1);
      mret (SlotOffset offset)
  | KScalarVector, FBytes bytes =>
      if fs_width field =? 1 then write_bytes field bytes else fw_fail "field type"
  | KScalarVector, FVector values | KStringVector, FVector values | KTableVector, FVector values =>
      offset ← write_vector field values depth; mret (SlotOffset offset)
  | _, _ => fw_fail "field type"
  end.

Definition write_slot (fields : Fields) (depth : Z) (field : FieldSpec) : fw (option Slot) :=
  match field_value fields field with
  | FNull => if fs_required field then fw_fail "missing required field" else mret None
  | value => slot ← write_value fields field value depth; mret (Some slot)
  end.

(** One slot of the finished table; [Borrowed] ones are collected. *)
Definition push_one (borrowed : list (Z * list Z)) (entry : Z * FieldSpec * option Slot) :
    fw (list (Z * list Z)) :=
  let '(index, field, slot) := entry in
  let offset := (4 + index * 2) mod 2 ^ 16 in
  match slot with
  | Some (SlotOffset value) => _ ← fw_step (push_slot_always offset value); mret borrowed
  | Some (SlotBorrowed value bytes) =>
      _ ← fw_step (push_slot_always offset value); mret (borrowed ++ [(offset, bytes)])
  | Some (SlotScalar value) =>
      let width := fs_width field in
      if bool_decide (width ∈ [1; 2; 4; 8]) then
        let m := 2 ^ (8 * width) in
        _ ← fw_step (push_slot width offset (value mod m) (fs_default field mod m)); mret borrowed
      else fw_fail "scalar width"
  | None => mret borrowed
  end.

Fixpoint push_slots (borrowed : list (Z * list Z)) (entries : list (Z * FieldSpec * option Slot)) :
    fw (list (Z * list Z)) :=
  match entries with
  | [] => mret borrowed
  | entry :: entries => borrowed ← push_one borrowed entry; push_slots borrowed entries
  end.

(** [.zip(slots).enumerate().rev()] *)
Definition slot_entries (specs : list FieldSpec) (slots : list (option Slot)) :
    list (Z * FieldSpec * option Slot) :=
  reverse (imap (λ i p, (Z.of_nat i, p.1, p.2)) (zip specs slots)).

Definition defer (table : Z) (borrowed : list (Z * list Z)) : fw unit := λ w,
  Ok (tt, mkFbWriter (fw_builder w) (fw_strings w) (fw_elements w) (fw_tables w) (fw_estimated w)
            ((λ deferred, deferred ++ ((λ p, mkDeferred table p.1 p.2) <$> borrowed)) <$> fw_deferred w)).

Definition write_table_body (fields : Fields) (reference depth : Z) : fw Z :=
  spec ← fw_lift (ok_or (invalid "table type") (table_spec reference));
  if negb (forallb (λ p, existsb (λ f, String.eqb (fs_name f) p.1) (ts_fields spec)) fields)
  then fw_fail "field absent from pinned schema"
  else
    _ ← fw_charge (8 + Z.of_nat (length (ts_fields spec)) * 16);
    slots ← fw_map (write_slot fields depth) (ts_fields spec);
    start ← fw_build start_table;
    borrowed ← push_slots [] (slot_entries (ts_fields spec) slots);
    table ← fw_build (end_table start);
    _ ← defer table borrowed;
    mret table.
End table.

(** [table]: nested at most 64 deep. *)
Fixpoint write_table (fuel : nat) (fields : Fields) (reference depth : Z) : fw Z :=
  match fuel with
  | O => λ _, NoFuel
  | S fuel =>
      _ ← fw_count_table depth;
      write_table_body (write_table fuel) fields reference depth
  end.

Definition write_fuel : nat := 65.

Definition write (fields : Fields) : outcome ParseError (list Z) :=
  '(root, writer) ← write_table write_fuel fields ROOT 1 (writer_new None);
  let '(allocation, start) := collapse (finish root (fw_builder writer)) in
  if zlen allocation <? start then Panic
  else
    let bytes := sub_bytes allocation start (zlen allocation) in
    if MAX_BYTES <? zlen bytes then Err (invalid "byte limit") else Ok bytes.
End writer.

(** ** Budgets *)
Section accepts.
Context `{FB : !FlatBufferLib}.

Definition within (w : FbWriterState) : Prop :=
  0 ≤ fw_strings w ≤ 1024 * 1024 ∧ 0 ≤ fw_elements w ≤ 1000000 ∧
  0 ≤ fw_tables w ≤ 10000 ∧ 0 ≤ fw_estimated w ≤ MAX_BYTES.

(** A method that keeps the budgets and never panics, and whose results
    satisfy [P]. *)
Definition fw_spec {A} (m : fw A) (P : A → Prop) : Prop := ∀ w, within w →
  match m w with
  | Ok (a, w') => within w' ∧ P a
  | Err _ => True
  | Panic | NoFuel => False
  end.

Lemma fw_spec_ret {A} (a : A) (P : A → Prop) : P a → fw_spec (mret a) P.
Proof. by intros ? w. Qed.
Lemma fw_spec_fail {A} reason (P : A → Prop) : fw_spec (fw_fail reason) P.
Proof. by intros w. Qed.
Lemma fw_spec_bind {A B} (m : fw A) (f : A → fw B) P Q :
  fw_spec m P → (∀ a, P a → fw_spec (f a) Q) → fw_spec (m ≫= f) Q.
Proof.
  intros Hm Hf w Hw. specialize (Hm w Hw). unfold mbind, fw_bind.
  destruct (m w) as [[a w']|e| |]; simpl; [|done..]. destruct Hm as [Hw' Ha]. by apply Hf.
Qed.
Lemma fw_spec_weaken {A} (m : fw A) (P Q : A → Prop) : fw_spec m P → (∀ a, P a → Q a) → fw_spec m Q.
Proof. intros Hm HPQ w Hw. specialize (Hm w Hw). destruct (m w) as [[a w']|e| |]; naive_solver. Qed.
Lemma fw_spec_lift {A} (o : outcome ParseError A) : returns o → fw_spec (fw_lift o) (λ a, o = Ok a).
Proof. intros Ho w Hw. unfold fw_lift. by destruct o. Qed.
Lemma fw_spec_build {A} (f : builder → A * builder) : fw_spec (fw_build f) (λ _, True).
Proof. intros w Hw. unfold fw_build. by destruct (f (fw_builder w)). Qed.
Lemma fw_spec_get {A} (f : FbWriterState → A) : fw_spec (fw_get f) (λ _, True).
Proof. by intros w. Qed.

Lemma fw_spec_charge bytes : 0 ≤ bytes → fw_spec (fw_charge bytes) (λ _, True).
Proof.
  intros Hb w (? & ? & ? & ?). unfold fw_charge.
  destruct (_ <=? _) eqn:?; [done|]. destruct (_ <? _) eqn:?; [done|].
  split; [|done]. unfold within. simpl. lia.
Qed.
Lemma fw_spec_count_string length : 0 ≤ length → fw_spec (fw_count_string length) (λ _, True).
Proof.
  intros Hb w (? & ? & ? & ?). unfold fw_count_string.
  destruct (_ <=? _) eqn:?; [done|]. destruct (_ <? _) eqn:?; [done|].
  split; [|done]. unfold within. simpl. lia.
Qed.
Lemma fw_spec_count_elements length : 0 ≤ length → fw_spec (fw_count_elements length) (λ _, True).
Proof.
  intros Hb w (? & ? & ? & ?). unfold fw_count_elements.
  destruct (_ <=? _) eqn:?; [done|]. destruct (_ <? _) eqn:?; [done|].
  split; [|done]. unfold within. simpl. lia.
Qed.
Lemma fw_spec_count_table depth : fw_spec (fw_count_table depth) (λ _, depth ≤ 64).
Proof.
  intros w (? & ? & ? & ?). unfold fw_count_table.
  destruct (Z.ltb_spec 64 depth); cbn [orb]; [done|].
  destruct (_ <? _) eqn:?; [done|].
  split; [|done]. unfold within. simpl. lia.
Qed.

Lemma fw_spec_map {A B} (f : A → fw B) l (Q : A → Prop) :
  (∀ a, a ∈ l → fw_spec (f a) (λ _, Q a)) → fw_spec (fw_map f l) (λ _, ∀ a, a ∈ l → Q a).
Proof.
  induction l as [|a l IH]; intros H; simpl; [by apply fw_spec_ret; intros a ?%elem_of_nil|].
  eapply fw_spec_bind; [apply H, elem_of_cons; by left|]. intros b Ha. simpl in Ha.
  eapply fw_spec_bind; [apply IH; intros c Hc; apply H, elem_of_cons; by right|]. intros bs Hl. simpl in Hl.
  apply fw_spec_ret. intros c [->|Hc]%elem_of_cons; [done|by apply Hl].
Qed.

Lemma writer_scalar_returns v f : returns (writer_scalar v f).
Proof. unfold writer_scalar. by case_match. Qed.

Lemma str_len_nonneg s : 0 ≤ str_len s.
Proof. unfold str_len. apply zlen_nonneg. Qed.

Lemma fw_spec_string s : fw_spec (writer_string s) (λ _, True).
Proof.
  pose proof (str_len_nonneg s). unfold writer_string.
  eapply fw_spec_bind; [by apply fw_spec_count_string|]. intros [] _.
  eapply fw_spec_bind; [apply fw_spec_charge; lia|]. intros [] _. apply fw_spec_build.
Qed.

(** ** Tables *)
Definition union_free (spec : TableSpec) : bool :=
  forallb (λ f, negb (bool_decide (fs_kind f = KUnion))) (ts_fields spec).
Definition child_union_free (reference : Z) : bool :=
  match table_spec reference with Some spec => union_free spec | None => false end.

Lemma TABLES_union_free :
  forallb (λ t, forallb (λ f, negb (has_tables f) || child_union_free (fs_reference f)) (ts_fields t)) TABLES = true.
Proof. vm_compute. reflexivity. Qed.

Lemma child_union_free_in f : in_schema f → has_tables f = true → child_union_free (fs_reference f) = true.
Proof.
  intros (r & t & Ht%table_spec_elem & Hf) Hh. pose proof TABLES_union_free as H.
  rewrite forallb_forall in H. specialize (H t (proj1 (list_elem_of_In _ _) Ht)).
  rewrite forallb_forall in H. specialize (H f (proj1 (list_elem_of_In _ _) Hf)). by rewrite Hh in H.
Qed.

Lemma mapM_Some_all {A B} (f : A → option B) l : (∀ a, a ∈ l → is_Some (f a)) → is_Some (mapM f l).
Proof. intros H. apply mapM_is_Some. by apply Forall_forall. Qed.

Section table.
Context (T : Fields → Z → Z → fw Z) (depth : Z) (n : nat).
Context (HT : ∀ t reference, child_union_free reference = true →
  fw_spec (T t reference (depth + 1)) (λ _, is_Some (stored n reference t))).

Lemma write_vector_spec f vs : in_schema f → field_ok f = true →
  fs_kind f = KScalarVector ∨ fs_kind f = KStringVector ∨ fs_kind f = KTableVector →
  fw_spec (write_vector T f vs depth) (λ _, is_Some (stored_field (stored n) f (FVector vs))).
Proof.
  intros Hf Hok Hk. unfold write_vector. pose proof (width_pos _ (field_ok_width f Hok)).
  pose proof (zlen_nonneg vs).
  eapply fw_spec_bind; [by apply fw_spec_count_elements|]. intros [] _.
  eapply fw_spec_bind; [apply fw_spec_charge; nia|]. intros [] _. unfold stored_field.
  destruct Hk as [Hk|[Hk|Hk]]; rewrite Hk; cbn [bool_decide].
  - rewrite !bool_decide_eq_false_2 by done.
    eapply fw_spec_bind.
    { apply (fw_spec_map _ _ (λ v, is_Some (as_integer v))). intros v _. unfold write_integer.
      destruct v; try apply fw_spec_fail. eapply fw_spec_bind; [apply fw_spec_lift, writer_scalar_returns|].
      intros [] _. by apply fw_spec_ret. }
    intros integers Hall. simpl in Hall.
    assert (is_Some (xs ← mapM as_integer vs; Some (if is_byte_vector f then FBytes xs else FVector vs))) as HS.
    { destruct (mapM_Some_all as_integer vs Hall) as [xs ->]. by eexists. }
    repeat case_match; try apply fw_spec_fail; (eapply fw_spec_weaken; [apply fw_spec_build|done]).
  - rewrite bool_decide_eq_true_2 by done.
    eapply fw_spec_bind.
    { apply (fw_spec_map _ _ (λ v, is_Some (as_text v))). intros v _. unfold write_text.
      destruct v; try apply fw_spec_fail. by eapply fw_spec_weaken; [apply fw_spec_string|]. }
    intros offsets Hall. simpl in Hall. eapply fw_spec_weaken; [apply fw_spec_build|]. intros _ _.
    destruct (mapM_Some_all as_text vs Hall) as [xs ->]. by eexists.
  - rewrite bool_decide_eq_false_2 by done. rewrite bool_decide_eq_true_2 by done.
    eapply fw_spec_bind.
    { apply (fw_spec_map _ _ (λ v, is_Some (stored_element (stored n) (fs_reference f) v))). intros v _.
      unfold write_child. destruct v as [| | | |t|]; try apply fw_spec_fail. simpl.
      eapply fw_spec_weaken; [apply HT, child_union_free_in; [done|]|].
      - unfold has_tables. by rewrite Hk.
      - intros _ [back ->]. by eexists. }
    intros offsets Hall. simpl in Hall. eapply fw_spec_weaken; [apply fw_spec_build|]. intros _ _.
    destruct (mapM_Some_all _ vs Hall) as [xs ->]. by eexists.
Qed.

(** What a present or absent value comes to. *)
Definition slot_stored (fields : Fields) (f : FieldSpec) : Prop :=
  if bool_decide (fs_kind f = KUnion) then
    field_value fields f = FNull ∧ fs_required f = false ∨
    ∃ t target, field_value fields f = FTable t ∧ writer_target fields f = Ok target ∧
      is_Some (stored n target t)
  else is_Some (stored_field (stored n) f (field_value fields f)).

Lemma write_bytes_spec f l : fw_spec (write_bytes f l) (λ _, True).
Proof.
  unfold write_bytes. pose proof (zlen_nonneg l).
  eapply fw_spec_bind; [apply fw_spec_charge; lia|]. intros [] _.
  eapply fw_spec_bind; [apply fw_spec_get|]. intros [] _;
    (eapply fw_spec_bind; [apply fw_spec_build|]; intros o _; by apply fw_spec_ret).
Qed.

Lemma writer_target_returns fields f : returns (writer_target fields f).
Proof. unfold writer_target. repeat case_match; try done. apply returns_bind; [apply returns_ok_or|]. intros ? _. by case_match. Qed.

Lemma write_slot_spec fields f : in_schema f → field_ok f = true →
  (∀ target, fs_kind f = KUnion → writer_target fields f = Ok target → child_union_free target = true) →
  fw_spec (write_slot T fields depth f) (λ _, slot_stored fields f).
Proof.
  intros Hf Hok Hunion. unfold write_slot, slot_stored.
  destruct (field_value fields f) as [|x|s|l|t|vs] eqn:Ev.
  { destruct (fs_required f) eqn:Er; [apply fw_spec_fail|]. apply fw_spec_ret.
    case_bool_decide; [by left|]. unfold stored_field. rewrite Er. destruct (fs_kind f); by eexists. }
  all: (eapply fw_spec_bind; [|intros slot Hslot; apply fw_spec_ret; exact Hslot]); unfold write_value.
  all: destruct (fs_kind f) eqn:Ek; cbn [bool_decide]; try apply fw_spec_fail.
  - eapply fw_spec_bind; [apply fw_spec_lift, writer_scalar_returns|]. intros [] _. apply fw_spec_ret.
    unfold stored_field. rewrite Ek. by eexists.
  - eapply fw_spec_bind; [apply fw_spec_string|]. intros o _. apply fw_spec_ret. unfold stored_field. rewrite Ek. by eexists.
  - destruct (Z.eqb_spec (fs_width f) 1) as [Hw|]; [|apply fw_spec_fail].
    eapply fw_spec_weaken; [apply write_bytes_spec|]. intros _ _. unfold stored_field. rewrite Ek, Hw.
    simpl. destruct (is_byte_vector f); by eexists.
  - eapply fw_spec_bind; [apply fw_spec_lift, writer_target_returns|]. intros target Htarget. simpl in Htarget.
    eapply fw_spec_bind.
    { apply HT. unfold writer_target in Htarget. rewrite Ek in Htarget. simpl in Htarget. injection Htarget as <-.
      apply child_union_free_in; [done|]. unfold has_tables. by rewrite Ek. }
    intros o [back Hback]. apply fw_spec_ret. unfold stored_field. rewrite Ek.
    unfold writer_target in Htarget. rewrite Ek in Htarget. injection Htarget as <-. rewrite Hback. by eexists.
  - eapply fw_spec_bind; [apply fw_spec_lift, writer_target_returns|]. intros target Htarget. simpl in Htarget.
    eapply fw_spec_bind; [by apply HT, Hunion|]. intros o Hback. apply fw_spec_ret. right. by exists t, target.
  - eapply fw_spec_bind; [apply write_vector_spec; [done|done|tauto]|]. intros o Hs. by apply fw_spec_ret.
  - eapply fw_spec_bind; [apply write_vector_spec; [done|done|tauto]|]. intros o Hs. by apply fw_spec_ret.
  - eapply fw_spec_bind; [apply write_vector_spec; [done|done|tauto]|]. intros o Hs. by apply fw_spec_ret.
Qed.

Lemma push_slots_spec borrowed entries : fw_spec (push_slots borrowed entries) (λ _, True).
Proof.
  revert borrowed. induction entries as [|[[i f] slot] entries IH]; intros borrowed; [by apply fw_spec_ret|].
  cbn [push_slots]. apply (fw_spec_bind _ _ (λ _, True)); [|by intros b _]. unfold push_one.
  destruct slot as [[v|o|o l]|]; [..|by apply fw_spec_ret].
  - case_match; [|apply fw_spec_fail].
    eapply fw_spec_bind; [apply fw_spec_build|]. intros [] _. by apply fw_spec_ret.
  - eapply fw_spec_bind; [apply fw_spec_build|]. intros [] _. by apply fw_spec_ret.
  - eapply fw_spec_bind; [apply fw_spec_build|]. intros [] _. by apply fw_spec_ret.
Qed.

Lemma write_table_body_spec fields reference :
  (∀ spec f target, table_spec reference = Some spec → f ∈ ts_fields spec → fs_kind f = KUnion →
     writer_target fields f = Ok target → child_union_free target = true) →
  fw_spec (write_table_body T fields reference depth) (λ _, ∃ spec, table_spec reference = Some spec ∧
    forallb (λ p, bool_decide (p.1 ∈ fs_name <$> ts_fields spec)) fields = true ∧
    ∀ f, f ∈ ts_fields spec → slot_stored fields f).
Proof.
  intros Hunion. unfold write_table_body.
  eapply fw_spec_bind; [apply fw_spec_lift, returns_ok_or|]. intros spec Hs%ok_or_Ok_inv.
  destruct (forallb _ fields) eqn:Ekeys; [|apply fw_spec_fail]. cbn [negb].
  eapply fw_spec_bind; [apply fw_spec_charge; lia|]. intros [] _.
  destruct (table_spec_ok _ _ Hs) as [Hok _]. rewrite Forall_forall in Hok.
  eapply fw_spec_bind.
  { apply (fw_spec_map _ _ (slot_stored fields)). intros f Hf.
    apply write_slot_spec; [by eexists _, _|by apply Hok|]. intros target. by eapply Hunion. }
  intros slots Hall. simpl in Hall.
  eapply fw_spec_bind; [apply fw_spec_build|]. intros start _.
  eapply fw_spec_bind; [apply push_slots_spec|]. intros borrowed _.
  eapply fw_spec_bind; [apply fw_spec_build|]. intros table _.
  eapply (fw_spec_bind _ _ (λ _, True)); [intros w Hw; split; [exact Hw|done]|]. intros [] _.
  apply fw_spec_ret. exists spec. split_and!; [done| |done].
  rewrite forallb_forall in Ekeys. apply forallb_forall. intros p Hp. apply bool_decide_eq_true.
  specialize (Ekeys p Hp). apply existsb_exists in Ekeys as (f & Hf & <-%String.eqb_eq).
  by apply list_elem_of_fmap_2, list_elem_of_In.
Qed.
End table.

Lemma stored_fields_Some S specs fields : (∀ f, f ∈ specs → is_Some (stored_field S f (field_value fields f))) →
  is_Some (stored_fields S specs fields).
Proof.
  induction specs as [|f specs IH]; intros H; [by eexists|]. simpl.
  destruct IH as [back ->]; [intros g Hg; apply H, elem_of_cons; by right|]. simpl.
  destruct (H f) as [v ->]; [apply elem_of_cons; by left|]. by eexists.
Qed.

Lemma union_free_kind reference spec f : child_union_free reference = true →
  table_spec reference = Some spec → f ∈ ts_fields spec → bool_decide (fs_kind f = KUnion) = false.
Proof.
  unfold child_union_free, union_free. intros H Hs Hf. rewrite Hs in H. rewrite forallb_forall in H.
  by apply negb_true_iff, (H f), list_elem_of_In.
Qed.

Lemma write_table_S fuel fields reference depth :
  write_table (S fuel) fields reference depth
  = (_ ← fw_count_table depth; write_table_body (write_table fuel) fields reference depth).
Proof. done. Qed.

Lemma write_table_spec fuel : ∀ n depth fields reference,
  depth ≤ 65 → 66 ≤ depth + Z.of_nat fuel → 65 - depth ≤ Z.of_nat n → child_union_free reference = true →
  fw_spec (write_table fuel fields reference depth) (λ _, is_Some (stored n reference fields)).
Proof.
  induction fuel as [|fuel IH]; intros n depth fields reference Hd Hfuel Hn Hfree; [lia|].
  cbn [write_table]. eapply fw_spec_bind; [apply fw_spec_count_table|]. intros [] Hdepth. simpl in Hdepth.
  destruct n as [|n]; [lia|].
  eapply fw_spec_weaken.
  - apply (write_table_body_spec _ depth n).
    + intros t r Hr. apply IH; [lia|lia|lia|done].
    + intros spec f target Hs Hf Hk _. pose proof (union_free_kind _ _ _ Hfree Hs Hf) as H.
      by apply bool_decide_eq_false in H.
  - intros _ (spec & Hs & Hkeys & Hall). simpl. rewrite Hs. simpl. rewrite Hkeys.
    apply stored_fields_Some. intros f Hf. specialize (Hall f Hf). unfold slot_stored in Hall.
    by rewrite (union_free_kind _ _ _ Hfree Hs Hf) in Hall.
Qed.

Lemma MESSAGES_union_free :
  forallb (λ v, (v <? 0) || child_union_free v)
    (match ts_fields table_Message !! 1%nat with Some msg => fs_values msg | None => [] end) = true.
Proof. vm_compute. reflexivity. Qed.

Lemma writer_target_message fields msg target : ts_fields table_Message !! 1%nat = Some msg →
  writer_target fields msg = Ok target →
  child_union_free target = true ∧
  ∃ tag, fields_get "msg_type" fields = Some (FInteger tag) ∧ message_reference tag = Ok target.
Proof.
  intros Hm H. pose proof MESSAGES_union_free as Hall. rewrite Hm in Hall.
  unfold writer_target in H. rewrite bool_decide_eq_true_2 in H by (by injection Hm as <-).
  destruct (fields_get "msg_type" fields) as [[|tag| | | |]|]; try done.
  apply bind_Ok_inv in H as (r & Hr%ok_or_Ok_inv & H). destruct (r <? 0) eqn:Er; [done|]. injection H as <-.
  split.
  - rewrite forallb_forall in Hall. apply list_elem_of_lookup_2, list_elem_of_In, Hall in Hr. by rewrite Er in Hr.
  - exists tag. split; [done|]. unfold message_reference.
    replace (table_index ROOT) with (Ok (E:=ParseError) table_Message) by done.
    cbn [mbind outcome_bind]. by rewrite Hm, Hr, Er.
Qed.

Lemma root_table_spec fields depth : depth = 1 →
  fw_spec (write_table 65 fields ROOT depth) (λ _, is_Some (stored_root fields)).
Proof.
  intros ->. rewrite write_table_S. remember 64%nat as fuel eqn:Hfuel.
  eapply fw_spec_bind; [apply fw_spec_count_table|]. intros [] _.
  assert (table_spec ROOT = Some table_Message) as Hroot by done.
  assert (ts_fields table_Message !! 1%nat = Some (mkField "msg" KUnion 4 true 0
    (match ts_fields table_Message !! 1%nat with Some msg => fs_values msg | None => [] end) false 0)) as Hmsg by done.
  eapply fw_spec_weaken.
  - apply (write_table_body_spec _ 1 63).
    + intros t r Hr. apply write_table_spec; [lia..|done].
    + intros spec f target Hs Hf Hk Ht. rewrite Hroot in Hs. injection Hs as <-.
      apply list_elem_of_In in Hf. destruct Hf as [<-|[<-|[<-|[]]]]; [discriminate Hk| |discriminate Hk].
      by apply (writer_target_message fields _ target Hmsg).
  - intros _ (spec & Hs & _ & Hall). rewrite Hroot in Hs. injection Hs as <-.
    pose proof (Hall _ (list_elem_of_lookup_2 _ _ _ Hmsg)) as Hm. unfold slot_stored in Hm.
    rewrite bool_decide_eq_true_2 in Hm by done. destruct Hm as [[_ ?]|(t & target & Ht & Htarget & [back Hback])]; [done|].
    destruct (writer_target_message _ _ _ Hmsg Htarget) as (_ & tag & Htag & Href).
    pose proof (Hall metadata_field ltac:(apply list_elem_of_In; simpl; tauto)) as [metadata Hmeta].
    unfold stored_root. rewrite Htag. unfold field_value in Ht. simpl in Ht.
    destruct (fields_get "msg" fields) as [[]|]; simpl in Ht; try discriminate Ht. injection Ht as ->.
    rewrite Href. cbn [okv mbind option_bind]. rewrite Hback. cbn [mbind option_bind].
    unfold field_value in Hmeta. simpl in Hmeta.
    assert (stored_field (λ _ _, None) metadata_field (default FNull (fields_get "metadata" fields)) = Some metadata) as ->.
    { rewrite <-Hmeta. done. }
    by eexists.
Qed.

Lemma within_new deferred : within (writer_new deferred).
Proof. unfold within, writer_new, MAX_BYTES. simpl. lia. Qed.
End accepts.

(** ** Encoding a message *)
Section encode.
Context `{SL : !SerdeLib} `{FB : !FlatBufferLib}.

Definition encode (m : WampMessage) : outcome ParseError (list Z) :=
  fields ← encoder_fields m; write fields.

(** What the builder promises of a tree that was written: it reads back. *)
Definition writes_back (fields : Fields) : Prop := ∀ bytes sback,
  write fields = Ok bytes → stored_root fields = Some sback → read bytes = Ok sback.
End encode.

Lemma write_spec `{FB : !FlatBufferLib} fields :
  match write fields with
  | Ok bytes => zlen bytes ≤ MAX_BYTES ∧ is_Some (stored_root fields)
  | Err _ => True
  | Panic | NoFuel => False
  end.
Proof.
  unfold write, write_fuel. pose proof (root_table_spec fields 1 eq_refl (writer_new None) (within_new None)) as H.
  remember 65%nat as fuel. destruct (write_table fuel fields ROOT 1 (writer_new None)) as [[root w]|e| |]; simpl; [|done..].
  destruct H as [_ Hs]. pose proof (collapse_start (finish root (fw_builder w))) as Hc.
  destruct (collapse (finish root (fw_builder w))) as [allocation start]. simpl in Hc.
  destruct (Z.ltb_spec (zlen allocation) start); [lia|].
  destruct (Z.ltb_spec MAX_BYTES (zlen (sub_bytes allocation start (zlen allocation)))); done.
Qed.

(** ** Properties *)

(** the writer always returns, and it writes nothing the schema does not
    allow: what it accepts has only fields of the schema, each of its kind, none
    missing that is required, nested at most 64 deep, and the frame stays within
    the byte limit. *)
Theorem flatbuffers_writer_sound `{FB : !FlatBufferLib} fields :
  match write fields with
  | Ok bytes => zlen bytes ≤ MAX_BYTES ∧ is_Some (stored_root fields)
  | Err _ => True
  | Panic | NoFuel => False
  end.
Proof. apply write_spec. Qed.


(** A small builder to evaluate examples with: the buffer grows at its front and
    an offset counts from the end. *)
Record DemoBuilder : Type := mkDemoBuilder { db_buffer : list Z; db_slots : list (Z * Z) }.

Definition demo_pad (extra align : Z) (b : list Z) : list Z :=
  replicate (Z.to_nat ((- (zlen b + extra)) mod align)) 0 ++ b.

Fixpoint demo_le (n : nat) (v : Z) : list Z :=
  match n with O => [] | S n => v mod 256 :: demo_le n (v / 256) end.

Definition demo_put (width v : Z) (b : list Z) : list Z := demo_le (Z.to_nat width) v ++ demo_pad width width b.
Definition demo_reference (offset : Z) (b : list Z) : list Z :=
  let b := demo_pad 4 4 b in demo_le 4 (zlen b + 4 - offset) ++ b.

Definition demo_done (slots : list (Z * Z)) (b : list Z) : Z * DemoBuilder := (zlen b, mkDemoBuilder b slots).

Definition demo_slot (slot : Z) (b : list Z) (d : DemoBuilder) : DemoBuilder :=
  mkDemoBuilder b ((slot, zlen b) :: db_slots d).

(** The vtable goes in front of its table, whose first word leads back to it. *)
Definition demo_end_table (start : Z) (d : DemoBuilder) : Z * DemoBuilder :=
  let b := demo_pad 4 4 (db_buffer d) in
  let table := zlen b + 4 in
  let slots := db_slots d in
  let size := foldr Z.max 4 ((λ p, p.1 + 2) <$> slots) in
  let entry i := match list_find (λ p : Z * Z, p.1 = 4 + 2 * Z.of_nat i) slots with
                 | Some (_, p) => table - p.2
                 | None => 0
                 end in
  let entries := (λ i, demo_le 2 (entry i)) <$> seq 0 (Z.to_nat ((size - 4) / 2)) in
  let vtable := demo_le 2 size ++ demo_le 2 (table - start) ++ concat entries in
  (table, mkDemoBuilder (vtable ++ demo_le 4 size ++ b) []).

#[local] Instance demo_builder : FlatBufferLib := {|
  builder := DemoBuilder;
  builder_new := mkDemoBuilder [] [];
  create_string s d :=
    let bytes := utf8_encode s in
    demo_done (db_slots d) (demo_put 4 (zlen bytes) (bytes ++ 0 :: demo_pad (zlen bytes + 1) 4 (db_buffer d)));
  create_octets bytes d := demo_done (db_slots d) (demo_put 4 (zlen bytes) (bytes ++ demo_pad (zlen bytes) 4 (db_buffer d)));
  create_integers width l d :=
    demo_done (db_slots d)
      (demo_put 4 (zlen l) (foldr (demo_put width) (demo_pad (zlen l * width) (Z.max 4 width) (db_buffer d)) l));
  create_offsets l d := demo_done (db_slots d) (demo_put 4 (zlen l) (foldr demo_reference (demo_pad 0 4 (db_buffer d)) l));
  start_table d := demo_done [] (db_buffer d);
  push_slot_always slot offset d := demo_slot slot (demo_reference offset (db_buffer d)) d;
  push_slot width slot v absent d :=
    if v =? absent then d else demo_slot slot (demo_put width v (db_buffer d)) d;
  end_table := demo_end_table;
  finish root d := mkDemoBuilder (demo_reference root (demo_pad 4 8 (db_buffer d))) [];
  collapse d := (db_buffer d, 0);
  collapse_start d := conj (Z.le_refl 0) (zlen_nonneg (db_buffer d));
|}.

