(* ===== verification/FbSegments.v ===== *)
(** * FlatBuffers messages in segments

    [write_segments] of [ct_core/src/wamp/flatbuffers_writer.rs] leaves the
    application's vectors out of the envelope and appends them behind it, with
    [compose_segments] of [flatbuffers_encoder.rs].  Each vector's field is then
    patched to point there, and a reader of the joined segments finds it. *)
From S2P Require Import Prelude Bytes Text WampTypes RawFrame CborScanner FbSchema FbWire FbRead FbProjection.
From S2P Require Import Cbor DemoSerde FbCodec FbEncoder FbRoundtrip FbWriter WampParse.

(** [to_le_bytes] of an integer of [n] octets. *)
Fixpoint le_bytes (n : nat) (v : Z) : list Z :=
  match n with
  | O => []
  | S n => v mod 256 :: le_bytes n (v / 256)
  end.

(** [allocation.get(offset..offset + length)], and [copy_from_slice] there. *)
Definition get_range (allocation : list Z) (offset length : Z) : option (list Z) :=
  if (offset <? 0) || (zlen allocation <? offset + length) then None
  else Some (sub_bytes allocation offset (offset + length)).

Definition put_range (allocation : list Z) (offset : Z) (data : list Z) : option (list Z) :=
  if (offset <? 0) || (zlen allocation <? offset + zlen data) then None
  else Some (take (Z.to_nat offset) allocation ++ data ++ drop (Z.to_nat (offset + zlen data)) allocation).

(** ** Patching *)

(** Where the field of a vector is in the allocation. *)
Definition vector_field (allocation : list Z) (vector : DeferredVector) : outcome ParseError Z :=
  if zlen allocation <? dv_table vector then Err (invalid "table offset")
  else
    let table := zlen allocation - dv_table vector in
    data ← ok_or (invalid "table offset") (get_range allocation table 4);
    let distance := as_signed 32 (le_value data) in
    if table - distance <? 0 then Err (invalid "vtable offset")
    else
      let slot := table - distance + dv_slot vector in
      data ← ok_or (invalid "vtable slot") (get_range allocation slot 2);
      let field_offset := le_value data in
      if field_offset =? 0 then Err (invalid "missing vector slot")
      else Ok (table + field_offset).

Record Patch : Type := mkPatch { p_allocation : list Z; p_length : Z; p_segments : list (list Z) }.

(** One round of the loop over the deferred vectors. *)
Definition patch_vector (start : Z) (p : Patch) (vector : DeferredVector) : outcome ParseError Patch :=
  let bytes := dv_bytes vector in
  field ← vector_field (p_allocation p) vector;
  if field <? start then Err (invalid "vector slot")
  else
    let relative_field := field - start in
    let padding := (12 - p_length p mod 8) mod 8 in
    if 2 ^ 64 <=? p_length p + padding then Err (invalid "byte limit")
    else
      let target := p_length p + padding in
      if (2 ^ 64 <=? target + 4) || (2 ^ 64 <=? target + 4 + zlen bytes) then Err (invalid "byte limit")
      else
        let length := target + 4 + zlen bytes in
        if MAX_BYTES <? length then Err (invalid "byte limit")
        else if (target <? relative_field) || (2 ^ 32 <=? target - relative_field)
        then Err (invalid "vector offset")
        else
          let offset := target - relative_field in
          allocation ← ok_or (invalid "vector slot") (put_range (p_allocation p) field (le_bytes 4 offset));
          if 2 ^ 32 <=? zlen bytes then Err (invalid "vector limit")
          else
            let header := replicate (Z.to_nat padding) 0 ++ le_bytes 4 (zlen bytes) in
            Ok (mkPatch allocation length (p_segments p ++ [header; bytes])).

Fixpoint patch_vectors (start : Z) (p : Patch) (vectors : list DeferredVector) : outcome ParseError Patch :=
  match vectors with
  | [] => Ok p
  | v :: vectors => p ← patch_vector start p v; patch_vectors start p vectors
  end.

(** What follows [collapse]. *)
Definition segments_of (allocation : list Z) (start : Z) (deferred : list DeferredVector) :
    outcome ParseError (list (list Z)) :=
  if zlen allocation <? start then Panic
  else
    p ← patch_vectors start (mkPatch allocation (zlen allocation - start) []) deferred;
    if MAX_BYTES <? p_length p then Err (invalid "byte limit")
    else Ok (sub_bytes (p_allocation p) start (zlen (p_allocation p)) :: p_segments p).

Section segments.
Context `{FB : !FlatBufferLib}.

Definition fb_write_segments (fields : Fields) : outcome ParseError (list (list Z)) :=
  '(root, writer) ← write_table write_fuel fields ROOT 1 (writer_new (Some []));
  let '(allocation, start) := collapse (finish root (fw_builder writer)) in
  segments_of allocation start (default [] (fw_deferred writer)).

Context `{SL : !SerdeLib}.

Definition encode_segments (m : WampMessage) : outcome ParseError (list (list Z)) :=
  fields ← encoder_fields m; fb_write_segments fields.

(** [compose_segments]: the payload of a control message, if it may have one. *)
Definition supplied_present (supplied : Payload) : bool :=
  bool_decide (is_Some (args supplied)) || bool_decide (is_Some (kwargs supplied))
  || bool_decide (is_Some (transparent supplied)).

Definition compose_payload (target : option Payload) (supplied : Payload) : outcome ParseError unit :=
  match target with
  | Some target =>
      if bool_decide (is_Some (args target)) || bool_decide (is_Some (kwargs target))
         || match transparent target with Some bytes => negb (bool_decide (bytes = [])) | None => false end
      then Err (invalid "control envelope contains application data")
      else if bool_decide (is_Some (transparent target)) &&
              (bool_decide (is_Some (args supplied)) || bool_decide (is_Some (kwargs supplied)))
      then Err (invalid "opaque control conflicts with ordinary payload")
      else Ok tt
  | None => if supplied_present supplied then Err (invalid "message has no application payload") else Ok tt
  end.

Definition compose_segments (control : list Z) (supplied : Payload) : outcome ParseError (list (list Z)) :=
  parsed ← parse_message Flatbuffers control;
  let m := message parsed in
  _ ← compose_payload (message_payload m) supplied;
  if negb (supplied_present supplied) then Ok [control]
  else encode_segments (replace_message_payload m supplied).
End segments.

(** ** Ranges *)
Lemma zlen_le_bytes n v : zlen (le_bytes n v) = Z.of_nat n.
Proof. revert v. induction n as [|n IH]; intros v; [done|]. simpl. rewrite zlen_cons, IH. lia. Qed.

Lemma le_value_le_bytes n v : 0 ≤ v < 256 ^ Z.of_nat n → le_value (le_bytes n v) = v.
Proof.
  revert v. induction n as [|n IH]; intros v Hv; [simpl in *; lia|]. simpl.
  rewrite Nat2Z.inj_succ, Z.pow_succ_r in Hv by lia. rewrite IH.
  - pose proof (Z.div_mod v 256). lia.
  - split; [apply Z.div_pos; lia|]. apply Z.div_lt_upper_bound; lia.
Qed.

(** [data] is at [offset] in [l]. *)
Definition holds (l : list Z) (offset : Z) (data : list Z) : Prop :=
  ∀ i, 0 ≤ i < zlen data → byte_at l (offset + i) = byte_at data i.

Lemma holds_sub_bytes l offset data : 0 ≤ offset → holds l offset data →
  sub_bytes l offset (offset + zlen data) = data.
Proof.
  intros Ho H. apply list_eq. intros i. unfold sub_bytes.
  replace (offset + zlen data - offset) with (zlen data) by lia.
  destruct (decide (i < length data)%nat) as [Hi|Hi].
  - rewrite lookup_take_lt, lookup_drop by (unfold zlen; lia).
    specialize (H (Z.of_nat i) ltac:(unfold zlen; lia)). apply option_eq. intros x.
    assert (byte_at l (offset + Z.of_nat i) = Some x ↔ byte_at data (Z.of_nat i) = Some x) as Hx by (by rewrite H).
    rewrite !byte_at_Some in Hx. rewrite Nat2Z.id in Hx.
    replace (Z.to_nat offset + i)%nat with (Z.to_nat (offset + Z.of_nat i)) by lia. naive_solver lia.
  - rewrite lookup_take_ge by (unfold zlen; lia). symmetry. apply lookup_ge_None. lia.
Qed.

Lemma sub_bytes_holds l offset stop : 0 ≤ offset → stop ≤ zlen l → holds l offset (sub_bytes l offset stop).
Proof.
  intros Ho Hs i Hi. destruct (Z.le_gt_cases stop offset).
  { rewrite sub_bytes_nil in Hi by done. unfold zlen in Hi. simpl in Hi. lia. }
  rewrite zlen_sub_bytes in Hi by lia. by rewrite lookup_sub_bytes by lia.
Qed.

Lemma holds_app_l l k offset data : offset + zlen data ≤ zlen l → holds l offset data → holds (l ++ k) offset data.
Proof. intros Ho H i Hi. rewrite byte_at_app_l by lia. by apply H. Qed.

Lemma holds_app_r l k offset data : 0 ≤ offset → holds k offset data → holds (l ++ k) (zlen l + offset) data.
Proof.
  intros Ho H i Hi. rewrite <-Z.add_assoc, byte_at_app_r by lia. by apply H.
Qed.

Lemma holds_here l k offset : offset = zlen l → holds (l ++ k) offset k.
Proof. intros -> i Hi. apply byte_at_app_r. lia. Qed.

Lemma holds_prefix l offset a b : holds l offset (a ++ b) → holds l offset a ∧ holds l (offset + zlen a) b.
Proof.
  intros H. split; intros i Hi.
  - rewrite H by zlia. apply byte_at_app_l. lia.
  - rewrite <-Z.add_assoc, H by zlia. apply byte_at_app_r. lia.
Qed.

Lemma get_range_Some l offset length data : get_range l offset length = Some data →
  0 ≤ offset ∧ offset + length ≤ zlen l ∧ data = sub_bytes l offset (offset + length).
Proof. unfold get_range. destruct (_ || _) eqn:E; [done|]. intros [= <-]. split_and!; lia || done. Qed.

Lemma put_range_Some l offset data l' : put_range l offset data = Some l' →
  0 ≤ offset ∧ offset + zlen data ≤ zlen l ∧ zlen l' = zlen l ∧ holds l' offset data ∧
  ∀ i, i < offset ∨ offset + zlen data ≤ i → byte_at l' i = byte_at l i.
Proof.
  unfold put_range. destruct (_ || _) eqn:E; [done|]. intros [= <-].
  assert (0 ≤ offset) by lia. assert (offset + zlen data ≤ zlen l) by lia. pose proof (zlen_nonneg data).
  assert (zlen (take (Z.to_nat offset) l) = offset) as Ht by zlia.
  split_and!; [done|done|zlia|..].
  - intros i Hi. replace (offset + i) with (zlen (take (Z.to_nat offset) l) + i) by lia.
    rewrite byte_at_app_r by lia. apply byte_at_app_l. lia.
  - intros i [Hi|Hi].
    + rewrite byte_at_app_l by lia. apply option_eq. intros x. rewrite !byte_at_Some.
      split; intros [? Hx]; (split; [done|]); rewrite lookup_take_lt in * by lia; done.
    + replace i with (zlen (take (Z.to_nat offset) l) + (zlen data + (i - offset - zlen data))) by lia.
      rewrite !byte_at_app_r by lia. apply option_eq. intros x. rewrite !byte_at_Some, lookup_drop.
      replace (Z.to_nat (offset + zlen data) + Z.to_nat (i - offset - zlen data))%nat with
        (Z.to_nat (zlen (take (Z.to_nat offset) l) + (zlen data + (i - offset - zlen data)))) by lia.
      naive_solver lia.
Qed.

(** ** One patch *)

(** What finding a vector's field reads: the head of its table, its slot. *)
Definition field_reads (allocation : list Z) (v : DeferredVector) : list (Z * Z) :=
  let table := zlen allocation - dv_table v in
  let distance := as_signed 32 (le_value (sub_bytes allocation table (table + 4))) in
  [(table, 4); (table - distance + dv_slot v, 2)].

Definition same_on (a a' : list Z) (r : Z * Z) : Prop :=
  ∀ i, r.1 ≤ i < r.1 + r.2 → byte_at a' i = byte_at a i.

Lemma get_range_same a a' offset length data : zlen a' = zlen a → 0 ≤ length →
  same_on a a' (offset, length) → get_range a offset length = Some data → get_range a' offset length = Some data.
Proof.
  intros Hl Hn Hs H. pose proof (get_range_Some _ _ _ _ H) as (Ho & Hlen & ->).
  unfold get_range in *. rewrite Hl. destruct (_ || _); [done|]. f_equal.
  rewrite <-(holds_sub_bytes a' offset (sub_bytes a offset (offset + length))) at 1; [|done|].
  - f_equal. rewrite zlen_sub_bytes by lia. lia.
  - intros i Hi. rewrite zlen_sub_bytes in Hi by lia. rewrite lookup_sub_bytes by lia. apply Hs. simpl. lia.
Qed.

Lemma vector_field_same a a' v f : zlen a' = zlen a →
  (∀ r, r ∈ field_reads a v → same_on a a' r) → vector_field a v = Ok f → vector_field a' v = Ok f.
Proof.
  intros Hl Hs H. unfold vector_field in *. rewrite Hl. destruct (_ <? _); [done|].
  apply bind_Ok_inv in H as (data & Hd%ok_or_Ok_inv & H).
  pose proof (get_range_Some _ _ _ _ Hd) as (_ & _ & Hdata).
  rewrite (get_range_same a a' _ 4 data); [|done|lia|apply Hs; by left|done].
  cbn [ok_or mbind outcome_bind]. destruct (_ <? 0); [done|].
  apply bind_Ok_inv in H as (data' & Hd'%ok_or_Ok_inv & H).
  rewrite (get_range_same a a' _ 2 data'); [done|done|lia| |done].
  apply Hs. unfold field_reads. rewrite <-Hdata. right. left.
Qed.

(** What patching the vector [v] at [field] did: its data is at [target]. *)
Record patched (start : Z) (p : Patch) (v : DeferredVector) (p' : Patch) (field target : Z) : Prop := {
  pt_field : vector_field (p_allocation p) v = Ok field;
  pt_inside : start ≤ field ∧ field + 4 ≤ zlen (p_allocation p);
  pt_target : p_length p ≤ target ∧ (target + 4) mod 8 = 0 ∧ 0 ≤ target - (field - start) < 2 ^ 32;
  pt_bytes : zlen (dv_bytes v) < 2 ^ 32;
  pt_length : p_length p' = target + 4 + zlen (dv_bytes v) ∧ p_length p' ≤ MAX_BYTES;
  pt_size : zlen (p_allocation p') = zlen (p_allocation p);
  pt_offset : holds (p_allocation p') field (le_bytes 4 (target - (field - start)));
  pt_outside : ∀ i, i < field ∨ field + 4 ≤ i → byte_at (p_allocation p') i = byte_at (p_allocation p) i;
  pt_segments : ∃ pad, zlen pad = target - p_length p ∧
    p_segments p' = p_segments p ++ [pad ++ le_bytes 4 (zlen (dv_bytes v)); dv_bytes v];
}.

Lemma patch_vector_patched start p v p' : 0 ≤ p_length p → patch_vector start p v = Ok p' →
  ∃ field target, patched start p v p' field target.
Proof.
  intros Hl H. unfold patch_vector in H. apply bind_Ok_inv in H as (field & Hf & H).
  destruct (Z.ltb_spec field start); [done|].
  set (padding := (12 - p_length p mod 8) mod 8) in *.
  assert (0 ≤ padding < 8 ∧ (p_length p + padding + 4) mod 8 = 0) as [Hpad Hmod] by (unfold padding; dmlia).
  destruct (2 ^ 64 <=? p_length p + padding) eqn:E1; [done|].
  destruct ((2 ^ 64 <=? p_length p + padding + 4) || _) eqn:E2; [done|].
  destruct (Z.ltb_spec MAX_BYTES (p_length p + padding + 4 + zlen (dv_bytes v))); [done|].
  destruct ((p_length p + padding <? field - start) || _) eqn:E3; [done|].
  apply bind_Ok_inv in H as (allocation & Ha%ok_or_Ok_inv & H).
  destruct (_ <=? zlen (dv_bytes v)) eqn:E4; [done|]. injection H as <-.
  apply put_range_Some in Ha as (? & Hlen & Hz & Hh & Hout). rewrite zlen_le_bytes in *. simpl in Hlen, Hout.
  exists field, (p_length p + padding). split; cbn [p_allocation p_length p_segments]; try done; try lia.
  exists (replicate (Z.to_nat padding) 0). split; [zlia|done].
Qed.

(** ** The layout the builder leaves *)

Definition apart (r s : Z * Z) : Prop := r.1 + r.2 ≤ s.1 ∨ s.1 + s.2 ≤ r.1.

(** Each vector has a field of its own, aligned, inside the envelope and away
    from the heads and vtables the patching reads. *)
Record layout (allocation : list Z) (start : Z) (l : list (DeferredVector * Z)) : Prop := {
  lo_field : ∀ v f, (v, f) ∈ l → vector_field allocation v = Ok f;
  lo_inside : ∀ v f, (v, f) ∈ l → start ≤ f ∧ f + 4 ≤ zlen allocation ∧ (f - start) mod 4 = 0;
  lo_apart : ForallOrdPairs (λ f g, apart (f, 4) (g, 4)) l.*2;
  lo_reads : ∀ v f r, v ∈ l.*1 → f ∈ l.*2 → r ∈ field_reads allocation v → apart (f, 4) r;
}.

Lemma sub_bytes_same a a' offset stop : zlen a' = zlen a → 0 ≤ offset → stop ≤ zlen a →
  same_on a a' (offset, stop - offset) → sub_bytes a' offset stop = sub_bytes a offset stop.
Proof.
  intros Hl Ho Hs H. destruct (Z.le_gt_cases stop offset); [by rewrite !sub_bytes_nil|].
  pose proof (get_range_same a a' offset (stop - offset) (sub_bytes a offset stop) Hl ltac:(lia) H) as Hg.
  unfold get_range in Hg. rewrite Hl in Hg. replace (offset + (stop - offset)) with stop in Hg by lia.
  destruct (_ || _) eqn:E; [lia|]. injection (Hg eq_refl). done.
Qed.

Lemma field_reads_same a a' v f : zlen a' = zlen a → (∀ r, r ∈ field_reads a v → same_on a a' r) →
  vector_field a v = Ok f → field_reads a' v = field_reads a v.
Proof.
  intros Hl Hs H. unfold vector_field in H. destruct (_ <? _) eqn:E; [done|].
  apply bind_Ok_inv in H as (data & Hd%ok_or_Ok_inv & _). apply get_range_Some in Hd as (H0 & H4 & _).
  unfold field_reads. rewrite Hl. rewrite (sub_bytes_same a a'); [done|done|lia|lia|].
  replace (_ + 4 - _) with 4 by lia. apply Hs. by left.
Qed.

Lemma layout_tail a a' start v f l : layout a start ((v, f) :: l) → zlen a' = zlen a →
  (∀ i, i < f ∨ f + 4 ≤ i → byte_at a' i = byte_at a i) → layout a' start l.
Proof.
  intros [Hf Hin Hap Hr] Hl Hout. inversion Hap as [|?? _ Hap']; subst.
  assert (∀ w g r, (w, g) ∈ l → r ∈ field_reads a w → same_on a a' r) as Hs.
  { intros w g r Hw Hwr i Hi. apply Hout. 
    assert (apart (f, 4) r) as Hap'' by (apply (Hr w); [right; by apply (list_elem_of_fmap_2 fst) in Hw|by left|done]).
    destruct Hap''; simpl in *; lia. }
  split; [| |done|].
  - intros w g Hw. eapply vector_field_same; [done| |apply Hf; by right]. intros r. by eapply Hs.
  - intros w g Hw. rewrite Hl. apply (Hin w). by right.
  - intros w g r Hw Hg Hwr. apply list_elem_of_fmap in Hw as ([w' h] & -> & Hw).
    apply (Hr w'); [right; by apply (list_elem_of_fmap_2 fst) in Hw|by right|].
    erewrite <-(field_reads_same a a'); [done|done|intros s; by eapply Hs|apply Hf; by right].
Qed.

(** ** All patches *)

(** The vector [v] of the field [f] is in the frame [envelope ++ tail], where the
    envelope of [e] octets starts at [start] of the allocation. *)
Definition placed (allocation : list Z) (start e : Z) (tail : list Z) (v : DeferredVector) (f : Z) : Prop :=
  ∃ t, e ≤ t ∧ (t + 4) mod 8 = 0 ∧ 4 ≤ t - (f - start) < 2 ^ 32 ∧
    holds allocation f (le_bytes 4 (t - (f - start))) ∧
    holds tail (t - e) (le_bytes 4 (zlen (dv_bytes v)) ++ dv_bytes v) ∧ zlen (dv_bytes v) < 2 ^ 32.

Lemma patch_vector_total start p v f : vector_field (p_allocation p) v = Ok f →
  0 ≤ start ≤ f → f + 4 ≤ zlen (p_allocation p) → f + 4 - start ≤ p_length p →
  (∃ p', patch_vector start p v = Ok p') ∨ patch_vector start p v = Err (invalid "byte limit").
Proof.
  intros Hf Hs Hin Hl. unfold patch_vector. rewrite Hf. cbn [mbind outcome_bind].
  destruct (Z.ltb_spec f start); [lia|]. set (padding := (12 - p_length p mod 8) mod 8).
  assert (0 ≤ padding < 8) as Hpad by (unfold padding; dmlia).
  pose proof (zlen_nonneg (dv_bytes v)).
  destruct (2 ^ 64 <=? p_length p + padding) eqn:E1; [by right|].
  destruct ((2 ^ 64 <=? p_length p + padding + 4) || _) eqn:E2; [by right|].
  destruct (Z.ltb_spec MAX_BYTES (p_length p + padding + 4 + zlen (dv_bytes v))) as [|Hm]; [by right|].
  unfold MAX_BYTES in Hm. destruct ((p_length p + padding <? f - start) || _) eqn:E3; [lia|].
  unfold put_range. rewrite zlen_le_bytes. destruct (Z.ltb_spec f 0); [lia|]. cbn [orb]. destruct (Z.ltb_spec (zlen (p_allocation p)) (f + Z.of_nat 4)); [lia|]. cbn [ok_or mbind outcome_bind].
  destruct (_ <=? zlen (dv_bytes v)) eqn:E5; [lia|]. left. by eexists.
Qed.

Lemma holds_same a a' f data : (∀ i, f ≤ i < f + zlen data → byte_at a' i = byte_at a i) →
  holds a f data → holds a' f data.
Proof. intros Hs H i Hi. rewrite Hs by lia. by apply H. Qed.

Lemma placed_grows a a' start e tail ext v f : (∀ i, f ≤ i < f + 4 → byte_at a' i = byte_at a i) →
  placed a start e tail v f → placed a' start e (tail ++ ext) v f.
Proof.
  intros Hs (t & He & Hm & Hoff & Ha & Ht & Hz). exists t. split_and!; try done || lia.
  - eapply holds_same; [|done]. intros i. rewrite zlen_le_bytes. apply Hs.
  - intros i Hi. pose proof (Ht i Hi) as Hb. rewrite byte_at_app_l; [done|].
    assert (is_Some (byte_at tail (t - e + i))) as Hx%byte_at_is_Some; [|lia].
    rewrite Hb. apply byte_at_is_Some. lia.
Qed.

Lemma patched_placed start p v p' f t : 0 ≤ start → f + 4 - start ≤ p_length p →
  ∀ e, p_length p = e + zlen (concat (p_segments p)) → patched start p v p' f t →
  p_length p' = e + zlen (concat (p_segments p')) ∧ placed (p_allocation p') start e (concat (p_segments p')) v f.
Proof.
  intros Hs Hf e He [_ _ (Ht & Hm & Hr) Hz [Hl _] _ Hoff _ (pad & Hpad & Hseg)].
  pose proof (zlen_nonneg (concat (p_segments p))).
  assert (concat (p_segments p') = concat (p_segments p) ++ pad ++ le_bytes 4 (zlen (dv_bytes v)) ++ dv_bytes v) as ->.
  { rewrite Hseg, concat_app. cbn [concat]. by rewrite app_nil_r, <-!app_assoc. }
  split; [rewrite !zlen_app, zlen_le_bytes; lia|].
  exists t. split_and!; try done || lia. rewrite app_assoc. apply holds_here. rewrite zlen_app. lia.
Qed.

(** What the loop leaves behind. *)
Record vectors_placed (start : Z) (p p' : Patch) (l : list (DeferredVector * Z)) : Prop := {
  vp_size : zlen (p_allocation p') = zlen (p_allocation p);
  vp_length : p_length p' = zlen (p_allocation p) - start + zlen (concat (p_segments p'));
  vp_segments : ∃ ext, p_segments p' = p_segments p ++ ext ∧ ∀ v, v ∈ l.*1 → dv_bytes v ∈ ext;
  vp_outside : ∀ i, (∀ f, f ∈ l.*2 → i < f ∨ f + 4 ≤ i) → byte_at (p_allocation p') i = byte_at (p_allocation p) i;
  vp_placed : ∀ v f, (v, f) ∈ l →
    placed (p_allocation p') start (zlen (p_allocation p) - start) (concat (p_segments p')) v f;
}.

Lemma patch_vectors_spec start l : 0 ≤ start → ∀ p, layout (p_allocation p) start l →
  start ≤ zlen (p_allocation p) →
  p_length p = zlen (p_allocation p) - start + zlen (concat (p_segments p)) →
  match patch_vectors start p l.*1 with
  | Ok p' => vectors_placed start p p' l
  | Err e => e = invalid "byte limit"
  | _ => False
  end.
Proof.
  intros Hs. induction l as [|[v f] l IH]; intros p Hlay Hsz Hlen; cbn [fmap list_fmap fst patch_vectors].
  { split; [done|done| |done|by intros ?? ?%not_elem_of_nil]. exists []. rewrite app_nil_r. split; [done|]. intros v ?%not_elem_of_nil. done. }
  pose proof (lo_field _ _ _ Hlay v f ltac:(by left)) as Hf.
  destruct (lo_inside _ _ _ Hlay v f ltac:(by left)) as (Hf1 & Hf2 & _).
  pose proof (zlen_nonneg (concat (p_segments p))).
  destruct (patch_vector_total start p v f Hf) as [[p1 H1]|H1]; [lia..| |by rewrite H1].
  rewrite H1. cbn [mbind outcome_bind].
  destruct (patch_vector_patched start p v p1 ltac:(lia) H1) as (f' & t & Hp).
  assert (f' = f) as -> by (pose proof (pt_field _ _ _ _ _ _ Hp); congruence).
  destruct (patched_placed start p v p1 f t Hs ltac:(lia) _ Hlen Hp) as [Hlen1 Hpl].
  pose proof (pt_size _ _ _ _ _ _ Hp) as Hz1. pose proof (pt_outside _ _ _ _ _ _ Hp) as Hout1.
  specialize (IH p1 (layout_tail _ _ _ _ _ _ Hlay Hz1 Hout1) ltac:(lia) ltac:(by rewrite Hz1)).
  destruct (patch_vectors start p1 l.*1) as [p'| | |]; try done.
  destruct IH as [Hsz' Hlen' (ext & Hext & Hin) Hout Hall]. rewrite Hz1 in Hsz', Hlen', Hall.
  destruct (pt_segments _ _ _ _ _ _ Hp) as (pad & _ & Hseg).
  pose proof (lo_apart _ _ _ Hlay) as Hap. inversion Hap as [|?? Hfs _]; subst.
  split; [done|done|..].
  - eexists. rewrite Hext, Hseg, <-app_assoc. split; [done|]. intros w [->|Hw]%elem_of_cons; apply elem_of_app; [left; right; by left|right; auto].
  - intros i Hi. rewrite Hout; [apply Hout1, Hi; by left|]. intros g Hg. apply Hi. by right.
  - intros w g [[= -> ->]|Hw]%elem_of_cons; [|by apply Hall]. rewrite Hext, concat_app.
    eapply placed_grows; [|done]. intros i Hi. apply Hout. intros h Hh.
    rewrite Forall_forall in Hfs. specialize (Hfs h Hh). unfold apart in Hfs. simpl in Hfs. lia.
Qed.

(** ** What a reader of the joined segments finds *)
Lemma holds_bound l offset data : data ≠ [] → holds l offset data → offset + zlen data ≤ zlen l.
Proof.
  intros Hne H. assert (0 < zlen data) as Hp.
  { destruct data as [|b data]; [congruence|]. rewrite zlen_cons. pose proof (zlen_nonneg data). lia. }
  specialize (H (zlen data - 1) ltac:(lia)).
  assert (is_Some (byte_at l (offset + (zlen data - 1)))) as Hb%byte_at_is_Some; [|lia].
  rewrite H. apply byte_at_is_Some. lia.
Qed.

Lemma uint_holds l offset v : 0 ≤ offset < 2 ^ 63 → offset mod 4 = 0 → 0 ≤ v < 2 ^ 32 →
  holds l offset (le_bytes 4 v) → uint l offset 4 = Ok v.
Proof.
  intros Ho Hm Hv H. pose proof (holds_bound l offset (le_bytes 4 v) ltac:(done) H) as Hb. rewrite zlen_le_bytes in Hb.
  unfold uint, range. destruct (Z.leb_spec (2 ^ 64) (offset + 4)); [lia|]. rewrite Hm.
  cbn [Z.eqb negb]. destruct (Z.ltb_spec (zlen l) (offset + 4)); [lia|]. cbn [mbind outcome_bind].
  pose proof (holds_sub_bytes l offset (le_bytes 4 v) ltac:(lia) H) as Hsub. rewrite zlen_le_bytes in Hsub.
  change (Z.of_nat 4) with 4 in Hsub. rewrite Hsub, le_value_le_bytes by lia. done.
Qed.

Lemma placed_target allocation start tail v f : 0 ≤ start → start ≤ f → f + 4 ≤ zlen allocation →
  (f - start) mod 4 = 0 → zlen allocation - start + zlen tail ≤ MAX_BYTES →
  placed allocation start (zlen allocation - start) tail v f →
  ∃ t, target (sub_bytes allocation start (zlen allocation) ++ tail) (f - start) = Ok t ∧
    uint (sub_bytes allocation start (zlen allocation) ++ tail) t 4 = Ok (zlen (dv_bytes v)) ∧
    (t + 4) mod 8 = 0 ∧
    sub_bytes (sub_bytes allocation start (zlen allocation) ++ tail) (t + 4) (t + 4 + zlen (dv_bytes v)) = dv_bytes v.
Proof.
  intros Hs Hf Hin Hal Hmax (t & He & Hm & Hr & Hoff & Hd & Hz).
  set (e := sub_bytes allocation start (zlen allocation)).
  assert (zlen e = zlen allocation - start) as Hel by (unfold e; rewrite zlen_sub_bytes; lia).
  pose proof (zlen_nonneg tail). pose proof (zlen_nonneg (dv_bytes v)).
  assert (holds (e ++ tail) t (le_bytes 4 (zlen (dv_bytes v)) ++ dv_bytes v)) as Ht.
  { replace t with (zlen e + (t - zlen e)) by lia. apply holds_app_r; [lia|]. by rewrite Hel. }
  apply holds_prefix in Ht as [Hcount Hbytes]. rewrite zlen_le_bytes in Hbytes.
  pose proof (holds_bound (e ++ tail) t (le_bytes 4 (zlen (dv_bytes v))) ltac:(done) Hcount) as Hb. rewrite zlen_le_bytes, zlen_app in Hb.
  unfold MAX_BYTES in Hmax. assert (t mod 4 = 0) as Ht4 by dmlia.
  exists t. split_and!; [|by apply uint_holds; [lia|..]|done|by apply holds_sub_bytes; [lia|]].
  unfold target. rewrite (uint_holds _ _ (t - (f - start))); [|lia|done|lia|].
  - cbn [mbind outcome_bind]. destruct (Z.ltb_spec (t - (f - start)) 4); [lia|].
    replace (f - start + (t - (f - start))) with t by lia.
    destruct (Z.leb_spec (2 ^ 64) t); [lia|]. unfold range.
    destruct (Z.leb_spec (2 ^ 64) (t + 4)); [lia|]. rewrite Ht4. cbn [Z.eqb negb].
    destruct (Z.ltb_spec (zlen (e ++ tail)) (t + 4)) as [Hx|]; [rewrite zlen_app in Hx; lia|]. done.
  - apply holds_app_l; [rewrite zlen_le_bytes; lia|]. intros i Hi. pose proof (Hoff i Hi) as Hb'.
    rewrite zlen_le_bytes in Hi. unfold e. rewrite lookup_sub_bytes by lia. rewrite <-Hb'. f_equal. lia.
Qed.

(** [write_segments] leaves the application's vectors out of the envelope
    and joins them behind it.  When every deferred vector has an aligned field
    of its own in the allocation, away from the heads and vtables, the patching
    fails only at the byte limit; otherwise the joined segments are within it,
    the offset in every vector's field leads to the vector's count and its own
    bytes, which start at an eight-byte boundary and are a segment of their
    own, and every other byte of the envelope is the builder's. *)
Theorem deferred_vectors_exact allocation start l :
  0 ≤ start ≤ zlen allocation → layout allocation start l →
  match segments_of allocation start l.*1 with
  | Ok segments =>
      let frame := concat segments in
      zlen frame ≤ MAX_BYTES ∧
      (∀ v f, (v, f) ∈ l →
        dv_bytes v ∈ segments ∧
        ∃ t, target frame (f - start) = Ok t ∧ uint frame t 4 = Ok (zlen (dv_bytes v)) ∧ (t + 4) mod 8 = 0 ∧
          sub_bytes frame (t + 4) (t + 4 + zlen (dv_bytes v)) = dv_bytes v) ∧
      (∀ i, start ≤ i < zlen allocation → (∀ f, f ∈ l.*2 → i < f ∨ f + 4 ≤ i) →
        byte_at frame (i - start) = byte_at allocation i)
  | Err e => e = invalid "byte limit"
  | _ => False
  end.
Proof.
  intros [Hs Hsz] Hlay. unfold segments_of. destruct (Z.ltb_spec (zlen allocation) start); [lia|].
  pose proof (patch_vectors_spec start l Hs (mkPatch allocation (zlen allocation - start) []) Hlay) as Hspec.
  cbn [p_allocation p_length p_segments concat] in Hspec. rewrite zlen_nil in Hspec. specialize (Hspec ltac:(lia) ltac:(lia)).
  destruct (patch_vectors _ _ _) as [p'| | |]; try done. cbn [mbind outcome_bind].
  destruct Hspec as [Hz Hlen (ext & Hext & Hin) Hout Hpl].
  cbn [p_allocation p_length p_segments app] in *. rewrite Hz.
  destruct (Z.ltb_spec MAX_BYTES (p_length p')) as [|Hmax]; [done|]. cbn [concat].
  split_and!.
  - rewrite zlen_app, zlen_sub_bytes by lia. lia.
  - intros v f Hv. split; [right; rewrite Hext; apply Hin; by apply (list_elem_of_fmap_2 fst) in Hv|].
    destruct (lo_inside _ _ _ Hlay v f Hv) as (? & ? & ?). rewrite <-Hz.
    apply placed_target; [lia|lia|lia|done|lia|]. rewrite Hz. by apply Hpl.
  - intros i Hi Haway. rewrite byte_at_app_l by (rewrite zlen_sub_bytes; lia).
    rewrite lookup_sub_bytes by lia. replace (start + (i - start)) with i by lia. by apply Hout.
Qed.

(** An allocation whose envelope is a table with two vectors left out. *)
Definition demo_allocation : list Z :=
  [0; 0; 0; 0; 8; 0; 12; 0; 4; 0; 8; 0; 8; 0; 0; 0; 0; 0; 0; 0; 0; 0; 0; 0].
Definition demo_vectors : list (DeferredVector * Z) :=
  [(mkDeferred 12 4 [1; 2; 3; 4; 5], 16); (mkDeferred 12 6 [6; 7], 20)].

Lemma layout_intro a start l :
  Forall (λ p, vector_field a p.1 = Ok p.2) l →
  Forall (λ f, start ≤ f ∧ f + 4 ≤ zlen a ∧ (f - start) mod 4 = 0) l.*2 →
  ForallOrdPairs (λ f g, apart (f, 4) (g, 4)) l.*2 →
  Forall (λ v, Forall (λ f, Forall (apart (f, 4)) (field_reads a v)) l.*2) l.*1 → layout a start l.
Proof.
  intros Hf Hin Hap Hr. split; [| |done|].
  - intros v f Hv. rewrite Forall_forall in Hf. by apply (Hf (v, f)).
  - intros v f Hv. rewrite Forall_forall in Hin. apply Hin. by apply (list_elem_of_fmap_2 snd) in Hv.
  - intros v f r Hv Hfl Hrl. rewrite Forall_forall in Hr. specialize (Hr v Hv).
    rewrite Forall_forall in Hr. specialize (Hr f Hfl). rewrite Forall_forall in Hr. by apply Hr.
Qed.

Lemma demo_layout : layout demo_allocation 4 demo_vectors.
Proof.
  apply layout_intro; repeat constructor; try (by vm_compute); unfold apart; vm_compute; intuition congruence.
Qed.

Lemma deferred_vectors_exact_witness :
  layout demo_allocation 4 demo_vectors ∧
  match segments_of demo_allocation 4 demo_vectors.*1 with
  | Ok segments => ∃ t, target (concat segments) 16 = Ok t ∧ uint (concat segments) t 4 = Ok 2 ∧ (t + 4) mod 8 = 0 ∧
      sub_bytes (concat segments) (t + 4) (t + 6) = [6; 7]
  | _ => False
  end.
Proof.
  split; [exact demo_layout|].
  pose proof (deferred_vectors_exact demo_allocation 4 demo_vectors ltac:(by vm_compute) demo_layout) as H.
  destruct (segments_of _ _ _) as [segments|e| |] eqn:E; [|vm_compute in E; discriminate..].
  destruct H as (_ & Hv & _). destruct (Hv (mkDeferred 12 6 [6; 7]) 20) as [_ (t & Ht)]; [right; by left|].
  exists t. rewrite <-Z.add_assoc in Ht. exact Ht.
Defined.

(** The demo message, written in segments: its argument is one of them, and the
    joined frame parses to the message. *)
Lemma demo_yield_segments :
  match encode_segments (FB := demo_builder) (SL := DemoSerde) demo_yield with
  | Ok segments =>
      segments !! 2%nat = Some [0x81; 1] ∧
      match flatbuffers_parse (SL := DemoSerde) (Contiguous (concat segments)) with
      | Ok r => message r = demo_yield
      | _ => False
      end
  | _ => False
  end.
Proof. vm_compute. split; reflexivity. Qed.
