(* ===== verification/IoStream.v ===== *)
(** * Transport streams

    [IoStream] of [ct_core/src/io_stream.rs]: the socket (plain or TLS) behind
    a front buffer that replays prefetched bytes.  The socket is a script of
    what its reads and writes meet; the front buffer and its offset are the
    code's. *)
From S2P Require Import Prelude Bytes.

Inductive io_error : Type :=
  | UnexpectedEof | BrokenPipe | ConnectionReset | ConnectionAborted | WriteZero
  | InvalidInput | InvalidData | OtherIo.

#[global] Instance io_error_eq_dec : EqDecision io_error.
Proof. solve_decision. Defined.

(** What a read of the socket meets: some bytes, the end of the stream, an
    error, or silence until the caller's timeout. *)
Inductive read_event : Type :=
  | RBytes (bs : list Z)
  | REof
  | RErr (e : io_error)
  | RStall.

(** What a [write_all] meets. *)
Inductive write_event : Type :=
  | WOk
  | WErr (e : io_error)
  | WStall.

Record IoStream : Type := mkIoStream {
  buffered : list Z;
  buffered_offset : Z;
  reads : list read_event;
  writes : list write_event;
  (** bytes the peer receives from this side, in order *)
  written : list Z;
  is_shutdown : bool;
  (** [try_clone_plain_fd]: whether the socket is plain TCP, or the error of
      duplicating its descriptor *)
  plain_fd : io_error + bool;
}.

Definition set_front (st : IoStream) (buf : list Z) (off : Z) : IoStream :=
  mkIoStream buf off (reads st) (writes st) (written st) (is_shutdown st) (plain_fd st).
Definition set_reads (st : IoStream) (rs : list read_event) : IoStream :=
  mkIoStream (buffered st) (buffered_offset st) rs (writes st) (written st)
    (is_shutdown st) (plain_fd st).
Definition set_writes (st : IoStream) (ws : list write_event) (out : list Z) : IoStream :=
  mkIoStream (buffered st) (buffered_offset st) (reads st) ws out (is_shutdown st) (plain_fd st).

(** The result of an awaited operation: [Stalled] when only a timeout ends it. *)
Inductive io_result (A : Type) : Type :=
  | IoOk (a : A)
  | IoErr (e : io_error)
  | Stalled.
Arguments IoOk {A} a.
Arguments IoErr {A} e.
Arguments Stalled {A}.

(** A fresh stream over a socket. *)
Definition IoStream_plain (rs : list read_event) (ws : list write_event)
    (fd : io_error + bool) : IoStream := mkIoStream [] 0 rs ws [] false fd.

Definition buffer_front (st : IoStream) (bytes : list Z) : IoStream :=
  match bytes with
  | [] => st
  | _ =>
      if buffered_offset st <? zlen (buffered st) then
        let remaining := sub_bytes (buffered st) (buffered_offset st) (zlen (buffered st)) in
        set_front st (bytes ++ remaining) 0
      else set_front st bytes 0
  end.

(** [poll_read] into a buffer of [room] bytes: the bytes delivered ([\[\]] is
    the end of the stream). *)
Definition poll_read (st : IoStream) (room : Z) : io_result (list Z) * IoStream :=
  if buffered_offset st <? zlen (buffered st) then
    let remaining := sub_bytes (buffered st) (buffered_offset st) (zlen (buffered st)) in
    let to_copy := Z.min (zlen remaining) room in
    let copied := take (Z.to_nat to_copy) remaining in
    let offset := buffered_offset st + to_copy in
    (IoOk copied,
     if zlen (buffered st) <=? offset then set_front st [] 0
     else set_front st (buffered st) offset)
  else
    match reads st with
    | [] | REof :: _ => (IoOk [], st)
    | RErr e :: rs => (IoErr e, set_reads st rs)
    | RStall :: rs => (Stalled, set_reads st rs)
    | RBytes bs :: rs =>
        let taken := take (Z.to_nat room) bs in
        let rest := drop (Z.to_nat room) bs in
        (IoOk taken, set_reads st (match rest with [] => rs | _ => RBytes rest :: rs end))
    end.

(** [write_all]; a stalled or failed write delivers nothing here. *)
Definition write_all (st : IoStream) (bytes : list Z) : io_result unit * IoStream :=
  match writes st with
  | [] | WOk :: _ => (IoOk (), set_writes st (tail (writes st)) (written st ++ bytes))
  | WErr e :: ws => (IoErr e, set_writes st ws (written st))
  | WStall :: ws => (Stalled, set_writes st ws (written st))
  end.

(** [shutdown], whose result the callers ignore. *)
Definition shutdown (st : IoStream) : IoStream :=
  mkIoStream (buffered st) (buffered_offset st) (reads st) (writes st) (written st) true
    (plain_fd st).

(** The loop of [read_exact] and of the upgrade probe: reads until [len] bytes
    are [filled]; the second component keeps what was filled when it stopped. *)
Fixpoint fill_loop (fuel : nat) (st : IoStream) (len : Z) (filled : list Z) :
    io_result unit * list Z * IoStream :=
  if negb (zlen filled <? len) then (IoOk (), filled, st)
  else match fuel with
  | O => (Stalled, filled, st)
  | S fuel =>
      match poll_read st (len - zlen filled) with
      | (IoOk [], st) => (IoErr UnexpectedEof, filled, st)
      | (IoOk bs, st) => fill_loop fuel st len (filled ++ bs)
      | (IoErr e, st) => (IoErr e, filled, st)
      | (Stalled, st) => (Stalled, filled, st)
      end
  end.

(** Each read delivers at least one byte, so [len] reads are enough. *)
Definition read_exact (st : IoStream) (len : Z) : io_result unit * list Z * IoStream :=
  fill_loop (Z.to_nat len) st len [].

(** ** Operations on a stream that may fail or never end *)
Inductive sres (E A : Type) : Type :=
  | SOk (a : A)
  | SErr (e : E)
  | SPending.
Arguments SOk {E A} a.
Arguments SErr {E A} e.
Arguments SPending {E A}.

#[global] Instance sres_eq_dec E A `{EqDecision E} `{EqDecision A} : EqDecision (sres E A).
Proof. solve_decision. Defined.

Definition stream_op (E A : Type) : Type := IoStream → sres E A * IoStream.

#[global] Instance stream_op_ret E : MRet (stream_op E) := λ A a st, (SOk a, st).
#[global] Instance stream_op_bind E : MBind (stream_op E) := λ A B f m st,
  match m st with
  | (SOk a, st) => f a st
  | (SErr e, st) => (SErr e, st)
  | (SPending, st) => (SPending, st)
  end.

Definition op_fail {E A} (e : E) : stream_op E A := λ st, (SErr e, st).

(** [stream.read_exact(&mut buf).await] with the caller's error conversion. *)
Definition op_read_exact {E} (io : io_error → E) (len : Z) : stream_op E (list Z) := λ st,
  match read_exact st len with
  | (IoOk _, buf, st) => (SOk buf, st)
  | (IoErr e, _, st) => (SErr (io e), st)
  | (Stalled, _, st) => (SPending, st)
  end.

Lemma op_bind_ok {E A B} (m : stream_op E A) (f : A → stream_op E B) st b st' :
  (m ≫= f) st = (SOk b, st') →
  ∃ a st1, m st = (SOk a, st1) ∧ f a st1 = (SOk b, st').
Proof.
  unfold mbind, stream_op_bind. destruct (m st) as [[a|e|] st1]; [eauto|done..].
Qed.

Lemma op_bind_run {E A B} (m : stream_op E A) (f : A → stream_op E B) st a st1 :
  m st = (SOk a, st1) → (m ≫= f) st = f a st1.
Proof. unfold mbind, stream_op_bind. by intros ->. Qed.

(** ** The bytes still to be read *)

Fixpoint script_bytes (rs : list read_event) : list Z :=
  match rs with
  | RBytes bs :: rs => bs ++ script_bytes rs
  | REof :: _ | [] => []
  | _ :: rs => script_bytes rs
  end.

Definition unread_front (st : IoStream) : list Z :=
  sub_bytes (buffered st) (buffered_offset st) (zlen (buffered st)).

(** Everything a reader of the stream will see. *)
Definition unread (st : IoStream) : list Z := unread_front st ++ script_bytes (reads st).

Definition front_ok (st : IoStream) : Prop :=
  0 ≤ buffered_offset st ≤ zlen (buffered st).

Lemma front_ok_plain rs ws fd : front_ok (IoStream_plain rs ws fd).
Proof. unfold front_ok, zlen. simpl. lia. Qed.

Lemma unread_plain rs ws fd : unread (IoStream_plain rs ws fd) = script_bytes rs.
Proof. done. Qed.

Lemma buffer_front_ok st bytes : front_ok st → front_ok (buffer_front st bytes).
Proof.
  intros H. unfold buffer_front, front_ok in *. destruct bytes; [done|].
  case_match; cbn [buffered buffered_offset set_front]; zlia.
Qed.

(** Buffered bytes come back first. *)
Lemma unread_buffer_front st bytes : front_ok st →
  unread (buffer_front st bytes) = bytes ++ unread st.
Proof.
  intros H. unfold unread, unread_front, buffer_front, front_ok in *.
  destruct bytes as [|b bytes]; [done|].
  destruct (Z.ltb_spec (buffered_offset st) (zlen (buffered st))); cbn [buffered
    buffered_offset reads set_front].
  - rewrite sub_bytes_full. by rewrite <-(assoc_L (++)).
  - rewrite sub_bytes_full. by rewrite (sub_bytes_nil (buffered st)) by lia.
Qed.

Lemma poll_read_ok st room : front_ok st → 0 ≤ room → front_ok (poll_read st room).2.
Proof.
  intros H Hroom. unfold poll_read, front_ok in *.
  destruct (Z.ltb_spec (buffered_offset st) (zlen (buffered st))).
  - cbv zeta. rewrite zlen_sub_bytes by lia. cbn [snd].
    case_match; cbn [buffered buffered_offset set_front]; zlia.
  - destruct (reads st) as [|[] rs]; done.
Qed.

(** A read delivers the next unread bytes, at most [room] of them. *)
Lemma poll_read_unread st room : front_ok st → 0 ≤ room →
  match poll_read st room with
  | (IoOk bs, st') => unread st = bs ++ unread st' ∧ zlen bs ≤ room
  | (_, st') => unread st = unread st'
  end ∧ written (poll_read st room).2 = written st
    ∧ writes (poll_read st room).2 = writes st
    ∧ plain_fd (poll_read st room).2 = plain_fd st.
Proof.
  intros H Hroom. unfold poll_read, unread, unread_front, front_ok in *.
  destruct (Z.ltb_spec (buffered_offset st) (zlen (buffered st))) as [Hlt|Hge].
  - cbv zeta. set (rem := sub_bytes (buffered st) (buffered_offset st) (zlen (buffered st))).
    assert (zlen rem = zlen (buffered st) - buffered_offset st) as Hz
      by (subst rem; rewrite zlen_sub_bytes; lia).
    split; [|by case_match]. split; [|zlia]. rewrite (assoc_L (++)). f_equal.
    { case_match; cbn [buffered buffered_offset set_front].
      - rewrite sub_bytes_nil by done. rewrite app_nil_r, take_ge; [done|].
        unfold zlen in *. lia.
      - rewrite <-(take_drop (Z.to_nat (Z.min (zlen rem) room)) rem) at 1. f_equal.
        subst rem. apply sub_bytes_drop; lia. }
    by case_match.
  - destruct (reads st) as [|[bs| |e|] rs] eqn:Er; cbn [fst snd]; rewrite ?Er; simpl;
      (split; [|done]); rewrite ?Er.
    + split; [done|]. zlia.
    + split; [|zlia]. rewrite (sub_bytes_nil (buffered st)) by lia. simpl.
      rewrite <-(take_drop (Z.to_nat room) bs) at 1. rewrite <-(assoc_L (++)). f_equal.
      by destruct (drop (Z.to_nat room) bs).
    + split; [done|]. zlia.
    + done.
    + done.
Qed.

(** The fill loop stops with a prefix of the unread bytes in the buffer. *)
Lemma fill_loop_spec fuel st len filled : front_ok st → zlen filled ≤ len →
  match fill_loop fuel st len filled with
  | (r, got, st') =>
      (∃ bs, got = filled ++ bs ∧ unread st = bs ++ unread st')
      ∧ zlen got ≤ len ∧ (r = IoOk () → zlen got = len)
      ∧ front_ok st' ∧ written st' = written st ∧ writes st' = writes st
      ∧ plain_fd st' = plain_fd st
  end.
Proof.
  revert st filled. induction fuel as [|fuel IH]; intros st filled Hok Hle;
    cbn [fill_loop]; destruct (Z.ltb_spec (zlen filled) len); cbn [negb].
  1: split_and!; [exists []; by rewrite app_nil_r|done|done|done..].
  1, 3: split_and!; [exists []; by rewrite app_nil_r|done|lia|done..].
  pose proof (poll_read_unread st (len - zlen filled) Hok ltac:(lia)) as (Hu & Hw & Hws & Hfd).
  pose proof (poll_read_ok st (len - zlen filled) Hok ltac:(lia)) as Hok'.
  destruct (poll_read st (len - zlen filled)) as [[bs|e|] st']; cbn [fst snd] in *.
  - destruct Hu as [Hu Hz]. destruct bs as [|b bs].
    { split_and!; try done. exists []. by rewrite app_nil_r. }
    specialize (IH st' (filled ++ b :: bs) Hok' ltac:(zlia)).
    destruct (fill_loop fuel st' len (filled ++ b :: bs)) as [[r got] st''].
    destruct IH as ((bs' & -> & Hu') & ? & ? & ? & ? & ? & ?).
    split_and!; try congruence; try done.
    exists ((b :: bs) ++ bs'). rewrite Hu, Hu'. by rewrite !(assoc_L (++)).
  - split_and!; try done. exists []. by rewrite app_nil_r.
  - split_and!; try done. exists []. by rewrite app_nil_r.
Qed.

(** What an operation leaves: the bytes consumed and the bytes sent. *)
Definition step_io (st st' : IoStream) (consumed sent : list Z) : Prop :=
  front_ok st' ∧ unread st = consumed ++ unread st' ∧ written st' = written st ++ sent
  ∧ plain_fd st' = plain_fd st.

Lemma step_io_refl st : front_ok st → step_io st st [] [].
Proof. intros. unfold step_io. by rewrite app_nil_r. Qed.

Lemma step_io_trans st1 st2 st3 c1 s1 c2 s2 :
  step_io st1 st2 c1 s1 → step_io st2 st3 c2 s2 → step_io st1 st3 (c1 ++ c2) (s1 ++ s2).
Proof.
  intros (? & H1 & H2 & H3) (? & H4 & H5 & H6). unfold step_io.
  rewrite H1, H4, H5, H2, H6, H3. by rewrite !(assoc_L (++)).
Qed.

Lemma op_read_exact_ok {E} (io : io_error → E) st n buf st' : front_ok st → 0 ≤ n →
  op_read_exact io n st = (SOk buf, st') → zlen buf = n ∧ step_io st st' buf [].
Proof.
  intros Hok Hn H. unfold op_read_exact, read_exact in H.
  pose proof (fill_loop_spec (Z.to_nat n) st n [] Hok ltac:(zlia)) as Hf.
  destruct (fill_loop _ _ _ _) as [[[[]|e|] got] st1]; try done.
  injection H as -> ->. destruct Hf as ((bs & -> & Hu) & _ & Hz & ? & Hw & _ & ?).
  unfold step_io. rewrite Hw, app_nil_r. split; [by apply Hz|]. by split_and!.
Qed.

(** ** Streams that deliver *)

(** The next [n] bytes come in non-empty pieces, with no silence or error
    before them. *)
Fixpoint flows (rs : list read_event) (n : Z) : Prop :=
  n ≤ 0 ∨ match rs with
          | RBytes bs :: rs => bs ≠ [] ∧ flows rs (n - zlen bs)
          | _ => False
          end.

Definition stream_flows (st : IoStream) (n : Z) : Prop :=
  front_ok st ∧ flows (reads st) (n - zlen (unread_front st)).

Lemma flows_le rs n m : flows rs n → m ≤ n → flows rs m.
Proof.
  revert n m. induction rs as [|ev rs IH]; intros n m; simpl.
  { intros [?|[]] ?. left. lia. }
  intros [?|H] Hm; [left; lia|]. right. destruct ev; try done.
  destruct H as [? H]. split; [done|]. apply (IH _ _ H). lia.
Qed.

Lemma stream_flows_poll st room n : 0 < room → 0 < n → stream_flows st n →
  ∃ bs st', poll_read st room = (IoOk bs, st') ∧ bs ≠ [] ∧ stream_flows st' (n - zlen bs).
Proof.
  intros Hroom Hn [Hok Hf]. unfold poll_read.
  destruct (Z.ltb_spec (buffered_offset st) (zlen (buffered st))) as [Hlt|Hge].
  - cbv zeta. fold (unread_front st).
    set (rem := unread_front st) in *.
    assert (zlen rem = zlen (buffered st) - buffered_offset st) as Hz.
    { subst rem. unfold unread_front. unfold front_ok in Hok. rewrite zlen_sub_bytes; lia. }
    eexists _, _. split; [done|].
    assert (zlen (take (Z.to_nat (Z.min (zlen rem) room)) rem) = Z.min (zlen rem) room) as Ht
      by zlia.
    split; [intros E; rewrite E, zlen_nil in Ht; lia|]. rewrite Ht.
    unfold stream_flows, front_ok, unread_front in *.
    case_match; cbn [buffered buffered_offset reads set_front] in *.
    + rewrite (sub_bytes_nil []) by done. change (zlen (@nil Z)) with 0. split; [lia|].
      apply (flows_le _ _ _ Hf). lia.
    + rewrite zlen_sub_bytes by lia. split; [lia|]. apply (flows_le _ _ _ Hf). lia.
  - assert (unread_front st = []) as Hu.
    { unfold unread_front. apply sub_bytes_nil. lia. }
    rewrite Hu, zlen_nil, Z.sub_0_r in Hf.
    destruct (reads st) as [|[bs| |e|] rs]; simpl in Hf; try (destruct Hf; [lia|done]).
    destruct Hf as [?|[Hbs Hf]]; [lia|]. eexists _, _. split; [done|].
    destruct bs as [|b bs]; [done|].
    split. { destruct (Z.to_nat room) eqn:E; [lia|done]. }
    unfold stream_flows. cbn [set_reads reads].
    change (unread_front (set_reads st ?x)) with (unread_front st). rewrite Hu, zlen_nil, Z.sub_0_r.
    split; [done|].
    destruct (drop (Z.to_nat room) (b :: bs)) as [|d ds] eqn:Ed.
    + apply (flows_le _ _ _ Hf). assert (zlen (drop (Z.to_nat room) (b :: bs)) = 0) by (by rewrite Ed).
      zlia.
    + simpl. right. split; [done|]. apply (flows_le _ _ _ Hf). rewrite <-Ed. zlia.
Qed.

Lemma fill_loop_flows fuel st len filled n : len - zlen filled ≤ n → zlen filled ≤ len →
  len - zlen filled ≤ Z.of_nat fuel → stream_flows st n →
  ∃ st', fill_loop fuel st len filled
    = (IoOk (), filled ++ take (Z.to_nat (len - zlen filled)) (unread st), st')
    ∧ unread st' = drop (Z.to_nat (len - zlen filled)) (unread st)
    ∧ stream_flows st' (n - (len - zlen filled)).
Proof.
  revert st filled n. induction fuel as [|fuel IH]; intros st filled n Hn Hle Hf Hs;
    cbn [fill_loop]; destruct (Z.ltb_spec (zlen filled) len); cbn [negb]; try lia.
  1, 3: replace (len - zlen filled) with 0 by lia; exists st;
    change (Z.to_nat 0) with 0%nat; rewrite take_0, drop_0, app_nil_r, Z.sub_0_r; done.
  destruct (stream_flows_poll st (len - zlen filled) n) as (bs & st1 & Hp & Hbs & Hs1);
    [lia..|done|].
  pose proof (poll_read_unread st (len - zlen filled) (proj1 Hs) ltac:(lia)) as (Hu & _).
  rewrite Hp in *. destruct Hu as [Hu Hz]. destruct bs as [|b bs]; [done|].
  assert (0 < zlen (b :: bs)) by zlia.
  destruct (IH st1 (filled ++ b :: bs) (n - zlen (b :: bs))) as (st' & -> & Hu' & Hs');
    [rewrite zlen_app; lia..|done|].
  assert (len - zlen (filled ++ b :: bs) = len - zlen filled - zlen (b :: bs)) as E
    by (rewrite zlen_app; lia).
  rewrite E in *. exists st'. rewrite Hu.
  replace (Z.to_nat (len - zlen filled))
    with (length (b :: bs) + Z.to_nat (len - zlen filled - zlen (b :: bs)))%nat
    by (unfold zlen in *; lia).
  split_and!.
  - f_equal. f_equal. rewrite <-(assoc_L (++)). f_equal. by rewrite take_app_add.
  - by rewrite Hu', drop_app_add.
  - eapply (eq_rect _ (stream_flows st')); [exact Hs'|]. lia.
Qed.

(** Enough arriving bytes make [read_exact] return exactly the next ones. *)
Lemma op_read_exact_flows {E} (io : io_error → E) st len n : 0 ≤ len → len ≤ n →
  stream_flows st n →
  ∃ st', op_read_exact io len st = (SOk (take (Z.to_nat len) (unread st)), st')
    ∧ unread st' = drop (Z.to_nat len) (unread st) ∧ stream_flows st' (n - len).
Proof.
  intros Hl Hn Hs. unfold op_read_exact, read_exact.
  destruct (fill_loop_flows (Z.to_nat len) st len [] n) as (st' & -> & H1 & H2);
    [rewrite zlen_nil; lia..|done|].
  rewrite zlen_nil, Z.sub_0_r in *. by exists st'.
Qed.

Lemma op_read_exact_prefix {E} (io : io_error → E) st bs rest n :
  stream_flows st n → zlen bs ≤ n → unread st = bs ++ rest →
  ∃ st', op_read_exact io (zlen bs) st = (SOk bs, st')
    ∧ unread st' = rest ∧ stream_flows st' (n - zlen bs).
Proof.
  intros Hs Hn Hu.
  destruct (op_read_exact_flows io st (zlen bs) n) as (st' & H1 & H2 & H3);
    [apply zlen_nonneg|done|done|].
  rewrite Hu in *. replace (Z.to_nat (zlen bs)) with (length bs) in * by (unfold zlen; lia).
  rewrite take_app_length in H1. rewrite drop_app_length in H2. by exists st'.
Qed.
