(* ===== verification/Handshake.v ===== *)
(** * The RawSocket handshake

    [negotiate] (server) and [connect] (client) of [ct_core/src/rawsocket.rs],
    and [RawSocketFileSender::send_file_segment].  A handshake runs on an
    [IoStream]; [SPending] is an await that nothing ends. *)
From S2P Require Import Prelude Bytes Text WampTypes IoStream.

Definition RAWSOCKET_MAGIC : Z := 0x7F.
Definition RAWSOCKET_UPGRADE_MAGIC : Z := 0x3F.
Definition SERIALIZER_JSON : Z := 0x01.
Definition SERIALIZER_MSGPACK : Z := 0x02.
Definition SERIALIZER_CBOR : Z := 0x03.
Definition SERIALIZER_UBJSON : Z := 0x04.
Definition SERIALIZER_FLATBUFFERS : Z := 0x05.
Definition ERROR_SERIALIZER_UNSUPPORTED : Z := 1.
Definition ERROR_MESSAGE_LENGTH_EXCEEDED : Z := 2.
Definition ERROR_RESERVED_BITS : Z := 3.
(** [config::CONNECTANUM_MAX_RAWSOCKET_SIZE_EXPONENT] *)
Definition CONNECTANUM_MAX_RAWSOCKET_SIZE_EXPONENT : Z := 30.

Inductive HandshakeError : Type :=
  | Protocol (reason : string)
  | Io (e : io_error).

Definition hs_fail {A} (e : HandshakeError) : stream_op HandshakeError A := op_fail e.

(** [stream.write_all(bytes).await?] *)
Definition hs_write (bytes : list Z) : stream_op HandshakeError unit := λ st,
  match write_all st bytes with
  | (IoOk _, st) => (SOk (), st)
  | (IoErr e, st) => (SErr (Io e), st)
  | (Stalled, st) => (SPending, st)
  end.

(** [time::timeout(timeout, stream.write_all(bytes)).await.map_err(..)??] *)
Definition hs_write_timeout (reason : string) (bytes : list Z) : stream_op HandshakeError unit := λ st,
  match write_all st bytes with
  | (IoOk _, st) => (SOk (), st)
  | (IoErr e, st) => (SErr (Io e), st)
  | (Stalled, st) => (SErr (Protocol reason), st)
  end.

Definition read_with_timeout (len : Z) : stream_op HandshakeError (list Z) := λ st,
  match read_exact st len with
  | (IoOk _, buf, st) => (SOk buf, st)
  | (IoErr e, _, st) => (SErr (Io e), st)
  | (Stalled, _, st) => (SErr (Protocol "rawsocket handshake timed out"), st)
  end.

Definition hs_shutdown : stream_op HandshakeError unit := λ st, (SOk (), shutdown st).

Definition send_error (code : Z) : stream_op HandshakeError unit :=
  _ ← hs_write [RAWSOCKET_MAGIC; Z.shiftl code 4; 0; 0];
  hs_shutdown.

(** [RawSocketFileSender::from_stream(&stream)?]: a duplicated descriptor for a
    plain socket. *)
Definition file_sender_from_stream : stream_op HandshakeError bool := λ st,
  match plain_fd st with
  | inl e => (SErr (Io e), st)
  | inr plain => (SOk plain, st)
  end.

Definition serializer_to_wire_id (s : Serializer) : option Z :=
  match s with
  | Json => Some SERIALIZER_JSON
  | MessagePack => Some SERIALIZER_MSGPACK
  | Cbor => Some SERIALIZER_CBOR
  | Ubjson => Some SERIALIZER_UBJSON
  | Flatbuffers => Some SERIALIZER_FLATBUFFERS
  end.

Definition serializer_from_wire_id (v : Z) : option Serializer :=
  if v =? SERIALIZER_JSON then Some Json
  else if v =? SERIALIZER_MSGPACK then Some MessagePack
  else if v =? SERIALIZER_CBOR then Some Cbor
  else if v =? SERIALIZER_UBJSON then Some Ubjson
  else if v =? SERIALIZER_FLATBUFFERS then Some Flatbuffers
  else None.

(** The session's stream halves are the stream the handshake leaves. *)
Record NegotiatedSession : Type := mkNegotiatedSession {
  file_sender : bool;
  ns_serializer : Serializer;
  max_message_size_exponent : Z;
  upgraded : bool;
}.

(** [u32::saturating_sub] *)
Definition saturating_sub (a b : Z) : Z := Z.max 0 (a - b).

Definition octet (buf : list Z) (i : nat) : Z := nth i buf 0.

Definition make_session (serializer : Serializer) (exponent : Z) (up : bool) :
    stream_op HandshakeError NegotiatedSession :=
  sender ← (match serializer with
            | MessagePack | Cbor => file_sender_from_stream
            | _ => mret false
            end);
  mret (mkNegotiatedSession sender serializer exponent up).

(** The optional upgrade probe of [negotiate]: its final exponent and whether
    it upgraded.  What arrived that is no upgrade is buffered back. *)
Definition negotiate_upgrade (desired_exponent response_exponent : Z) :
    stream_op HandshakeError (Z * bool) := λ st,
  match fill_loop 2 st 2 [] with
  | (IoOk _, buf, st) =>
      if octet buf 0 =? RAWSOCKET_UPGRADE_MAGIC then
        let client_upgrade := Z.land (octet buf 1) 0x0F + 25 in
        let negotiated_upgrade :=
          Z.min (Z.min desired_exponent client_upgrade)
            CONNECTANUM_MAX_RAWSOCKET_SIZE_EXPONENT in
        (if negotiated_upgrade <=? 24 then
           _ ← send_error ERROR_MESSAGE_LENGTH_EXCEEDED;
           hs_fail (Protocol "invalid upgrade exponent requested")
         else
           let upgrade_byte := Z.land (Z.min (negotiated_upgrade - 25) 15) 0x0F in
           _ ← hs_write [RAWSOCKET_UPGRADE_MAGIC; upgrade_byte];
           mret (negotiated_upgrade, true)) st
      else (SOk (response_exponent, false), buffer_front st buf)
  | (IoErr e, _, st) => (SErr (Io e), st)
  | (Stalled, filled, st) => (SOk (response_exponent, false), buffer_front st filled)
  end.

(** [negotiate]; the endpoint contributes its [max_rawsocket_size_exponent]. *)
Definition negotiate (endpoint_exponent : Z) : stream_op HandshakeError NegotiatedSession :=
  buf ← read_with_timeout 4;
  if negb (octet buf 0 =? RAWSOCKET_MAGIC) then
    _ ← send_error ERROR_RESERVED_BITS;
    hs_fail (Protocol "invalid rawsocket magic")
  else if negb (octet buf 2 =? 0) || negb (octet buf 3 =? 0) then
    _ ← send_error ERROR_RESERVED_BITS;
    hs_fail (Protocol "reserved bits must be zero")
  else match serializer_from_wire_id (Z.land (octet buf 1) 0x0F) with
  | None =>
      _ ← send_error ERROR_SERIALIZER_UNSUPPORTED;
      hs_fail (Protocol "unsupported serializer")
  | Some serializer =>
      let client_exponent := Z.shiftr (Z.land (octet buf 1) 0xF0) 4 + 9 in
      let desired_exponent :=
        Z.min endpoint_exponent CONNECTANUM_MAX_RAWSOCKET_SIZE_EXPONENT in
      let response_exponent := Z.min client_exponent (Z.min desired_exponent 24) in
      if response_exponent <? 9 then
        _ ← send_error ERROR_MESSAGE_LENGTH_EXCEEDED;
        hs_fail (Protocol "negotiated exponent below minimum")
      else
        let response_byte :=
          Z.lor (Z.shiftl (Z.min (response_exponent - 9) 15) 4) (Z.land (octet buf 1) 0x0F) in
        _ ← hs_write [RAWSOCKET_MAGIC; response_byte; 0; 0];
        '(final_exponent, up) ←
          (if (response_exponent <? desired_exponent) && (24 <=? client_exponent)
           then negotiate_upgrade desired_exponent response_exponent
           else mret (response_exponent, false));
        make_session serializer final_exponent up
  end.

(** The request header and the upgrade request of [connect]. *)
Definition connect_header (serializer_id requested_exponent : Z) : list Z :=
  let base_exponent := Z.min requested_exponent 24 in
  [RAWSOCKET_MAGIC;
   Z.lor (Z.shiftl (Z.min (saturating_sub base_exponent 9) 15) 4) serializer_id; 0; 0].

Definition connect_upgrade (requested_exponent : Z) : list Z :=
  [RAWSOCKET_UPGRADE_MAGIC; Z.land (Z.min (requested_exponent - 25) 15) 0x0F].

Definition connect (serializer : Serializer) (desired_exponent : Z) :
    stream_op HandshakeError NegotiatedSession :=
  let requested_exponent :=
    Z.min desired_exponent CONNECTANUM_MAX_RAWSOCKET_SIZE_EXPONENT in
  match serializer_to_wire_id serializer with
  | None => hs_fail (Protocol "unsupported serializer")
  | Some serializer_id =>
      _ ← hs_write_timeout "rawsocket handshake timed out"
            (connect_header serializer_id requested_exponent);
      response ← read_with_timeout 4;
      if negb (octet response 0 =? RAWSOCKET_MAGIC)
      then hs_fail (Protocol "invalid rawsocket response magic")
      else if negb (octet response 2 =? 0) || negb (octet response 3 =? 0)
      then hs_fail (Protocol "rawsocket reserved bits must be zero")
      else
        let serializer_id := Z.land (octet response 1) 0x0F in
        if serializer_id =? 0 then
          let response_code := Z.shiftr (octet response 1) 4 in
          hs_fail (Protocol
            (if response_code =? ERROR_SERIALIZER_UNSUPPORTED
             then "rawsocket serializer unsupported"
             else if response_code =? ERROR_MESSAGE_LENGTH_EXCEEDED
             then "rawsocket message length exceeded"
             else if response_code =? ERROR_RESERVED_BITS
             then "rawsocket reserved bits error"
             else "rawsocket handshake failed"))
        else match serializer_from_wire_id serializer_id with
        | None => hs_fail (Protocol "rawsocket serializer response invalid")
        | Some negotiated_serializer =>
            if negb (bool_decide (negotiated_serializer = serializer))
            then hs_fail (Protocol "rawsocket serializer mismatch")
            else
              let final_exponent := Z.shiftr (Z.land (octet response 1) 0xF0) 4 + 9 in
              '(final_exponent, up) ←
                (if (24 <? requested_exponent) && (24 <=? final_exponent) then
                   _ ← hs_write_timeout "rawsocket upgrade timed out"
                         (connect_upgrade requested_exponent);
                   upgrade_response ← read_with_timeout 2;
                   if negb (octet upgrade_response 0 =? RAWSOCKET_UPGRADE_MAGIC)
                   then hs_fail (Protocol "invalid rawsocket upgrade response")
                   else mret (Z.land (octet upgrade_response 1) 0x0F + 25, true)
                 else mret (final_exponent, false));
              make_session serializer final_exponent up
        end
  end.

(** ** Steps on the stream *)

Lemma read_with_timeout_ok st n buf st' : front_ok st → 0 ≤ n →
  read_with_timeout n st = (SOk buf, st') → zlen buf = n ∧ step_io st st' buf [].
Proof.
  intros Hok Hn H. unfold read_with_timeout, read_exact in H.
  pose proof (fill_loop_spec (Z.to_nat n) st n [] Hok ltac:(zlia)) as Hf.
  destruct (fill_loop _ _ _ _) as [[[[]|e|] got] st1]; try done.
  injection H as -> ->. destruct Hf as ((bs & -> & Hu) & _ & Hz & ? & Hw & _ & ?).
  unfold step_io. rewrite Hw, app_nil_r. split; [by apply Hz|]. by split_and!.
Qed.

Lemma hs_write_ok st bs u st' : front_ok st → hs_write bs st = (SOk u, st') →
  step_io st st' [] bs.
Proof.
  intros Hok H. unfold hs_write, write_all in H.
  destruct (writes st) as [|[] ?]; try discriminate; injection H as _ <-; by split_and!.
Qed.

Lemma hs_write_timeout_ok r st bs u st' : front_ok st →
  hs_write_timeout r bs st = (SOk u, st') → step_io st st' [] bs.
Proof.
  intros Hok H. unfold hs_write_timeout, write_all in H.
  destruct (writes st) as [|[] ?]; try discriminate; injection H as _ <-; by split_and!.
Qed.

Lemma make_session_ok s e up st ns st' : make_session s e up st = (SOk ns, st') →
  st' = st ∧ ns_serializer ns = s ∧ max_message_size_exponent ns = e ∧ upgraded ns = up
  ∧ (file_sender ns = true → s = MessagePack ∨ s = Cbor).
Proof.
  intros H. unfold make_session in H. apply op_bind_ok in H as (b & st1 & H1 & H2).
  injection H2 as <- <-. simpl.
  destruct s;
    first [ injection H1 as <- <-; split_and!; done
          | unfold file_sender_from_stream in H1; destruct (plain_fd st) as [|p];
            [discriminate|injection H1 as <- <-; split_and!; auto] ].
Qed.

Lemma send_error_not_ok {A} code e st (a : A) st' :
  (_ ← send_error code; hs_fail e) st ≠ (SOk a, st').
Proof.
  intros H. apply op_bind_ok in H as (? & ? & _ & H). done.
Qed.

(** The upgrade probe either upgrades or gives every byte back. *)
Lemma negotiate_upgrade_ok desired response st x up st' : front_ok st →
  negotiate_upgrade desired response st = (SOk (x, up), st') →
  if up then ∃ u, step_io st st' [RAWSOCKET_UPGRADE_MAGIC; u]
      [RAWSOCKET_UPGRADE_MAGIC; Z.land (Z.min (x - 25) 15) 0x0F]
    ∧ x = Z.min (Z.min desired (Z.land u 0x0F + 25)) 30 ∧ 24 < x
  else x = response ∧ step_io st st' [] [].
Proof.
  intros Hok H. unfold negotiate_upgrade in H.
  pose proof (fill_loop_spec 2 st 2 [] Hok ltac:(zlia)) as Hf.
  destruct (fill_loop 2 st 2 []) as [[r buf] st1].
  destruct Hf as ((bs & -> & Hu) & _ & Hz & Hok1 & Hw & _ & Hfd).
  assert (step_io st (buffer_front st1 bs) [] []) as Hback.
  { unfold step_io. rewrite unread_buffer_front by done.
    assert (written (buffer_front st1 bs) = written st1
            ∧ plain_fd (buffer_front st1 bs) = plain_fd st1) as [Hwb Hfb].
    { unfold buffer_front. destruct bs; [done|]. destruct (_ <? _); done. }
    rewrite Hwb, Hw, app_nil_r, Hfb. split_and!; [by apply buffer_front_ok|done..]. }
  destruct r as [[]|e|]; [|done|by injection H as <- <- <-].
  specialize (Hz eq_refl). destruct bs as [|b0 [|b1 [|b2 bs]]]; try by zlia.
  simpl in *. unfold octet in *. simpl in *.
  destruct (Z.eqb_spec b0 RAWSOCKET_UPGRADE_MAGIC) as [->|];
    [|by injection H as <- <- <-].
  match type of H with context [if ?b then _ else _] => destruct b eqn:Hle end;
    [by apply send_error_not_ok in H|].
  apply Z.leb_gt in Hle. apply op_bind_ok in H as (? & st2 & H1 & H2).
  injection H2 as <- <- <-. apply hs_write_ok in H1; [|done].
  exists b1. split_and!; [|done|done].
  assert (step_io st st1 [RAWSOCKET_UPGRADE_MAGIC; b1] []) as Hs.
  { unfold step_io. rewrite Hw, app_nil_r. by split_and!. }
  apply (step_io_trans _ _ _ _ _ _ _ Hs H1).
Qed.

(** ** Properties *)

(** The two ends of a connection, run against each other. *)
Definition connect_id (s : Serializer) : Z := default 0 (serializer_to_wire_id s).

Definition client_bytes (s : Serializer) (d e : Z) : list read_event :=
  let requested := Z.min d 30 in
  [RBytes (connect_header (connect_id s) requested);
   if (24 <? requested) && (24 <? e) then RBytes (connect_upgrade requested) else RStall].

Definition agreed_exponent (d e : Z) : Z :=
  if (24 <? d) && (24 <? e) then Z.min (Z.min d 30) e else Z.min (Z.max 9 d) (Z.min e 24).

Definition agreed_session (s : Serializer) (d e : Z) : NegotiatedSession :=
  mkNegotiatedSession (match s with MessagePack | Cbor => true | _ => false end) s
    (agreed_exponent d e) ((24 <? d) && (24 <? e)).

#[global] Instance HandshakeError_eq_dec : EqDecision HandshakeError.
Proof. solve_decision. Defined.
#[global] Instance NegotiatedSession_eq_dec : EqDecision NegotiatedSession.
Proof. solve_decision. Defined.
(** The two ends of one connection: the sessions and the client's bytes. *)
Definition handshake_run (s : Serializer) (d e : Z) (client : list read_event) :
    sres HandshakeError NegotiatedSession * sres HandshakeError NegotiatedSession * list Z :=
  let '(rs, server) := negotiate e (IoStream_plain client [] (inr true)) in
  let '(rc, cl) := connect s d (IoStream_plain [RBytes (written server)] [] (inr true)) in
  (rs, rc, written cl).

Definition agreement_check (s : Serializer) (d e : Z) : bool :=
  ((24 <? d) && (e =? 24)) ||
  bool_decide (handshake_run s d e (client_bytes s d e)
    = (SOk (agreed_session s d e), SOk (agreed_session s d e),
       script_bytes (client_bytes s d e))).

Lemma agreement_checked s d e : 0 ≤ d ≤ 30 → 9 ≤ e ≤ 30 → agreement_check s d e = true.
Proof.
  intros Hd He.
  assert (forallb (λ d, forallb (λ e, agreement_check s d e) (zrange 9 22)) (zrange 0 31) = true)
    as H by (destruct s; vm_compute; reflexivity).
  apply (forallb_elem _ _ d) in H; [|apply elem_of_zrange; lia].
  apply (forallb_elem _ _ e) in H; [done|apply elem_of_zrange; lia].
Qed.

Lemma connect_clamped s d : connect s d = connect s (Z.min d 30).
Proof. unfold connect. by rewrite <-Z.min_assoc, Z.min_id. Qed.

Lemma handshake_run_clamped s d e : 0 ≤ d →
  handshake_run s d e (client_bytes s d e)
  = handshake_run s (Z.min d 30) e (client_bytes s (Z.min d 30) e).
Proof.
  intros. unfold handshake_run, client_bytes.
  rewrite (connect_clamped s d).
  by replace (Z.min (Z.min d 30) 30) with (Z.min d 30) by lia.
Qed.

Lemma agreed_session_clamped s d e : 0 ≤ d →
  agreed_session s d e = agreed_session s (Z.min d 30) e.
Proof.
  intros. unfold agreed_session, agreed_exponent.
  replace (Z.min (Z.min d 30) 30) with (Z.min d 30) by lia.
  replace (24 <? Z.min d 30) with (24 <? d) by lia.
  destruct ((24 <? d) && (24 <? e)); [done|]. f_equal. lia.
Qed.

(** C39: a client handshake and a server handshake, each answering the other's
    bytes, agree.  For every serializer, every exponent the client asks for
    and every exponent a server can be configured with, both end with the same
    session: the client's serializer, the smaller of the two exponents (9 to
    24 without the upgrade extension, 25 to 30 with it), and what the client
    sends is what the server read.  The one excluded configuration, a server
    limit of exactly 24 against a client that wants more, is
    [handshake_upgrade_mismatch]. *)
Theorem handshake_agreement s d e :
  0 ≤ d → 9 ≤ e ≤ 30 → ¬ (24 < d ∧ e = 24) →
  handshake_run s d e (client_bytes s d e)
  = (SOk (agreed_session s d e), SOk (agreed_session s d e),
     script_bytes (client_bytes s d e)).
Proof.
  intros Hd He Hne. rewrite handshake_run_clamped, agreed_session_clamped by done.
  replace (client_bytes s d e) with (client_bytes s (Z.min d 30) e)
    by (unfold client_bytes; by replace (Z.min (Z.min d 30) 30) with (Z.min d 30) by lia).
  pose proof (agreement_checked s (Z.min d 30) e ltac:(lia) He) as H.
  unfold agreement_check in H. apply orb_true_iff in H as [H|H]; [lia|].
  by apply bool_decide_eq_true in H.
Qed.

Lemma handshake_agreement_witness :
  (handshake_run Cbor 28 26 (client_bytes Cbor 28 26)).1.1
  = SOk (mkNegotiatedSession true Cbor 26 true).
Proof.
  rewrite (handshake_agreement Cbor 28 26); [reflexivity|lia|lia|].
  intros [_ H]. discriminate.
Defined.

(** a client that wants more than exponent 24 fails against a server
    limited to exactly 24.  The server answers the header with exponent 24 and
    starts the session without reading on, so the client's upgrade request is
    left in the stream as application bytes, and the client waits for an answer
    to it until it times out. *)
Theorem handshake_upgrade_mismatch s d :
  24 < d →
  let server := negotiate 24 (IoStream_plain (client_bytes s d 25) [] (inr true)) in
  let client := connect s d
    (IoStream_plain [RBytes (written server.2); RStall] [] (inr true)) in
  server.1 = SOk (mkNegotiatedSession (match s with MessagePack | Cbor => true | _ => false end)
                     s 24 false)
  ∧ unread server.2 = connect_upgrade (Z.min d 30)
  ∧ written client.2 = script_bytes (client_bytes s d 25)
  ∧ client.1 = SErr (Protocol "rawsocket handshake timed out").
Proof.
  intros Hd. unfold client_bytes. rewrite (connect_clamped s d).
  assert (24 < Z.min d 30 ≤ 30) as Hr by lia. revert Hr. generalize (Z.min d 30). clear d Hd.
  intros d Hd.
  assert (d ∈ zrange 25 6) as Hin by (apply elem_of_zrange; lia).
  unfold zrange in Hin. simpl in Hin.
  repeat (apply elem_of_cons in Hin as [->|Hin]); [..|by apply elem_of_nil in Hin];
    destruct s; vm_compute; done.
Qed.

Lemma handshake_upgrade_mismatch_witness :
  (connect Json 30 (IoStream_plain [RBytes [0x7F; 0xF1; 0; 0]; RStall] [] (inr true))).1
  = SErr (Protocol "rawsocket handshake timed out").
Proof.
  exact (proj2 (proj2 (proj2 (handshake_upgrade_mismatch Json 30 ltac:(lia))))).
Defined.

(** the serializer ids of the wire: reading back an id gives the serializer
    it was made for, and no other octet is an id. *)
Theorem serializer_wire_roundtrip v s :
  serializer_from_wire_id v = Some s ↔ serializer_to_wire_id s = Some v.
Proof.
  unfold serializer_from_wire_id, serializer_to_wire_id. split.
  - repeat (match goal with |- context [?a =? ?b] => destruct (Z.eqb_spec a b) as [->|] end);
      by intros [= <-].
  - by destruct s; intros [= <-].
Qed.

(** a server handshake that succeeds consumed exactly the four header
    octets, and two more only for an upgrade; whatever else the peer sent early
    is still there to be read.  The serializer is the one requested, the
    exponent is between 9 and the server's limit (capped at 30), above 24 only
    after an upgrade, and the replies announce it. *)
Theorem negotiate_session e st ns st' :
  front_ok st → negotiate e st = (SOk ns, st') →
  ∃ b1, let client := Z.shiftr (Z.land b1 0xF0) 4 + 9 in
    let response := Z.min client (Z.min (Z.min e 30) 24) in
    let reply := [RAWSOCKET_MAGIC;
      Z.lor (Z.shiftl (Z.min (response - 9) 15) 4) (Z.land b1 0x0F); 0; 0] in
    serializer_from_wire_id (Z.land b1 0x0F) = Some (ns_serializer ns)
    ∧ 9 ≤ max_message_size_exponent ns ≤ Z.min e 30
    ∧ if upgraded ns then
        24 < max_message_size_exponent ns ∧ 24 ≤ client
        ∧ ∃ u, max_message_size_exponent ns ≤ Z.land u 0x0F + 25
          ∧ step_io st st' [RAWSOCKET_MAGIC; b1; 0; 0; RAWSOCKET_UPGRADE_MAGIC; u]
            (reply ++ [RAWSOCKET_UPGRADE_MAGIC;
               Z.land (Z.min (max_message_size_exponent ns - 25) 15) 0x0F])
      else max_message_size_exponent ns = response
        ∧ step_io st st' [RAWSOCKET_MAGIC; b1; 0; 0] reply.
Proof.
  intros Hok H. unfold negotiate in H.
  apply op_bind_ok in H as (buf & st1 & H1 & H).
  apply read_with_timeout_ok in H1 as [Hz Hs1]; [|done|lia].
  destruct buf as [|b0 [|b1 [|b2 [|b3 [|b4 buf]]]]]; try by zlia.
  unfold octet in H. cbn [nth] in H.
  destruct (Z.eqb_spec b0 RAWSOCKET_MAGIC) as [->|]; [|by apply send_error_not_ok in H].
  destruct (Z.eqb_spec b2 0) as [->|]; [|by apply send_error_not_ok in H].
  destruct (Z.eqb_spec b3 0) as [->|]; [|by apply send_error_not_ok in H].
  cbn [negb orb] in H.
  destruct (serializer_from_wire_id _) as [s|] eqn:Es; [|by apply send_error_not_ok in H].
  cbv zeta in H. set (client := Z.shiftr (Z.land b1 0xF0) 4 + 9) in *.
  change CONNECTANUM_MAX_RAWSOCKET_SIZE_EXPONENT with 30 in *.
  set (response := Z.min client (Z.min (Z.min e 30) 24)) in *.
  destruct (Z.ltb_spec response 9); [by apply send_error_not_ok in H|].
  apply op_bind_ok in H as (? & st2 & H2 & H).
  apply hs_write_ok in H2; [|apply Hs1].
  apply op_bind_ok in H as ([exponent up] & st3 & H3 & H).
  apply make_session_ok in H as (-> & <- & <- & <- & _).
  pose proof (step_io_trans _ _ _ _ _ _ _ Hs1 H2) as Hs2.
  exists b1. cbv zeta. fold client. fold response. split; [done|].
  destruct (Z.ltb_spec response (Z.min e 30)), (Z.leb_spec 24 client); cbn [andb] in H3;
    try (injection H3 as <- <- <-; split; [lia|]; split; [done|exact Hs2]).
  apply negotiate_upgrade_ok in H3; [|apply H2].
  destruct (upgraded ns).
  - destruct H3 as (u & Hs3 & Hx & ?). split; [lia|]. split_and!; [lia|done|].
    exists u. split; [lia|]. apply (step_io_trans _ _ _ _ _ _ _ Hs2 Hs3).
  - destruct H3 as [-> Hs3]. split; [lia|]. split; [done|].
    apply (step_io_trans _ _ _ _ _ _ _ Hs2 Hs3).
Qed.

Lemma negotiate_session_witness :
  ∃ b1, serializer_from_wire_id (Z.land b1 0x0F) = Some Json.
Proof.
  destruct (negotiate_session 26
    (IoStream_plain [RBytes [0x7F; 0xF1]; RBytes [0; 0; 0x3F]; RBytes [1; 42]] [] (inr true))
    (mkNegotiatedSession false Json 26 true)
    (mkIoStream [] 0 [RBytes [42]] [] [0x7F; 0xF1; 0; 0; 0x3F; 1] false (inr true)))
    as (b1 & H & _).
  - unfold front_ok. simpl. vm_compute. split; discriminate.
  - vm_compute. reflexivity.
  - exists b1. exact H.
Defined.

(** the error replies of the server.  For a header that arrives whole, a
    wrong magic octet or a non-zero reserved octet is answered with the
    reserved-bits error, an unknown serializer with the unsupported-serializer
    error, and a server limit below exponent 9 with the message-length error;
    the stream is then shut down and the handshake fails. *)
Theorem negotiate_rejects e st b0 b1 b2 b3 st1 :
  read_exact st 4 = (IoOk (), [b0; b1; b2; b3], st1) → writes st1 = [] →
  let rejected code reason :=
    negotiate e st
    = (SErr (Protocol reason),
       shutdown (set_writes st1 [] (written st1 ++ [RAWSOCKET_MAGIC; 16 * code; 0; 0]))) in
  (b0 ≠ RAWSOCKET_MAGIC → rejected ERROR_RESERVED_BITS "invalid rawsocket magic"%string)
  ∧ (b0 = RAWSOCKET_MAGIC → b2 ≠ 0 ∨ b3 ≠ 0 →
     rejected ERROR_RESERVED_BITS "reserved bits must be zero"%string)
  ∧ (b0 = RAWSOCKET_MAGIC → b2 = 0 → b3 = 0 →
     serializer_from_wire_id (Z.land b1 0x0F) = None →
     rejected ERROR_SERIALIZER_UNSUPPORTED "unsupported serializer"%string)
  ∧ (b0 = RAWSOCKET_MAGIC → b2 = 0 → b3 = 0 →
     is_Some (serializer_from_wire_id (Z.land b1 0x0F)) → e < 9 →
     rejected ERROR_MESSAGE_LENGTH_EXCEEDED "negotiated exponent below minimum"%string).
Proof.
  intros Hr Hw rejected.
  assert (∀ A code reason, (_ ← send_error code; hs_fail (A:=A) (Protocol reason)) st1
    = (SErr (Protocol reason),
       shutdown (set_writes st1 [] (written st1 ++ [RAWSOCKET_MAGIC; 16 * code; 0; 0])))) as Hsend.
  { intros A code reason. unfold send_error, hs_write, mbind, stream_op_bind, write_all.
    rewrite Hw. simpl. unfold hs_fail. rewrite Z.shiftl_mul_pow2 by lia.
    change (2 ^ 4) with 16. by rewrite (Z.mul_comm code). }
  subst rejected. cbv beta. unfold negotiate.
  rewrite (op_bind_run _ _ st [b0; b1; b2; b3] st1)
    by (unfold read_with_timeout; by rewrite Hr).
  unfold octet. cbn [nth].
  split_and!.
  - intros Hne. rewrite (proj2 (Z.eqb_neq _ _)) by done. apply Hsend.
  - intros -> Hne. rewrite Z.eqb_refl. cbn [negb].
    assert (negb (b2 =? 0) || negb (b3 =? 0) = true) as -> by lia. apply Hsend.
  - intros -> -> -> Hs. rewrite Z.eqb_refl, Hs. cbn [negb Z.eqb orb]. apply Hsend.
  - intros -> -> -> [s ->] He. rewrite Z.eqb_refl. cbn [negb Z.eqb orb]. cbv zeta.
    rewrite (proj2 (Z.ltb_lt _ 9))
      by (unfold CONNECTANUM_MAX_RAWSOCKET_SIZE_EXPONENT; lia). apply Hsend.
Qed.

Lemma negotiate_rejects_witness :
  (negotiate 16 (IoStream_plain [RBytes [0x7F; 0x16; 0; 0]] [] (inr true))).1
  = SErr (Protocol "unsupported serializer").
Proof.
  rewrite (proj1 (proj2 (proj2 (negotiate_rejects 16
    (IoStream_plain [RBytes [0x7F; 0x16; 0; 0]] [] (inr true)) 0x7F 0x16 0 0
    (IoStream_plain [] [] (inr true)) ltac:(reflexivity) ltac:(reflexivity))))
    ltac:(reflexivity) ltac:(reflexivity) ltac:(reflexivity) ltac:(reflexivity)).
  reflexivity.
Defined.
