(* ===== verification/RouterConfig.v ===== *)
(** * The router configuration

    [ct_core/src/config.rs]: the configuration as [serde] reads it, the
    runtime view of one endpoint with every check on the way to it, and the
    lookup of endpoints.  A [Duration] is its milliseconds; a [HashMap] that is
    read in its iteration order is the list of its entries. *)
From stdpp Require Import gmap sorting.
From S2P Require Import Prelude Bytes Text TextOps IpAddress Handshake.

Definition MIN_RAWSOCKET_SIZE_EXPONENT : Z := 9.
Definition DEFAULT_RAWSOCKET_SIZE_EXPONENT : Z := 16.
Definition DEFAULT_HANDSHAKE_TIMEOUT : Z := 5000.
Definition DEFAULT_OUTBOUND_SEND_QUEUE_CAPACITY : Z := 1024.
Definition MIN_OUTBOUND_SEND_QUEUE_CAPACITY : Z := 1.
Definition MAX_OUTBOUND_SEND_QUEUE_CAPACITY : Z := 65535.

Inductive TlsMode : Type := TlsDisabled | TlsNative | TlsDart.
Inductive ClientAuthMode : Type := AuthDisabled | AuthOptional | AuthRequired.
Inductive TransportProtocol : Type := PRawsocket | PWebsocket | PMqtt | PHttp | PHttp2 | PHttp3.
Inductive HttpRouteMatchKind : Type := MatchExact | MatchPrefix.
#[global] Instance TlsMode_eq_dec : EqDecision TlsMode.
Proof. solve_decision. Defined.
#[global] Instance ClientAuthMode_eq_dec : EqDecision ClientAuthMode.
Proof. solve_decision. Defined.
#[global] Instance TransportProtocol_eq_dec : EqDecision TransportProtocol.
Proof. solve_decision. Defined.

Definition identifier (p : TransportProtocol) : string :=
  match p with
  | PRawsocket => "rawsocket" | PWebsocket => "websocket" | PMqtt => "mqtt"
  | PHttp => "http" | PHttp2 => "http2" | PHttp3 => "http3"
  end.

(** [Error::RouterConfigInvalid] *)
Inductive ConfigError : Type := RouterConfigInvalid (message : str).

(** ** Routes *)
Record HttpRouteTransportAuthConfig : Type := mkTransportAuth {
  require_bearer : bool;
  require_tls : bool;
  require_mtls : bool;
  allow_unauthenticated_cors_preflight : bool;
}.

Inductive HttpRouteMethodConfig : Type :=
  | Translation (realm procedure : str)
  | ReservedRealm (namespace : option str) (append_method_suffix : bool)
  | Namespace (realm namespace : str) (append_method_suffix : bool).

Record HttpRouteConfig : Type := mkRouteConfig {
  rc_path : str;
  rc_match_kind : HttpRouteMatchKind;
  rc_protocols : list str;
  rc_transport_auth : HttpRouteTransportAuthConfig;
  rc_methods : list (str * HttpRouteMethodConfig);
  rc_default : option HttpRouteMethodConfig;
}.

(** [HttpRouteTarget] has the constructors of its configuration, and
    [HttpRouteTransportAuthRuntime] its fields. *)
Definition HttpRouteTarget : Type := HttpRouteMethodConfig.
Definition HttpRouteTransportAuthRuntime : Type := HttpRouteTransportAuthConfig.

Record HttpRouteRuntime : Type := mkRoute {
  route_path : str;
  route_match_kind : HttpRouteMatchKind;
  route_protocols : list str;
  route_transport_auth : HttpRouteTransportAuthRuntime;
  route_methods : gmap str HttpRouteTarget;
  route_default : option HttpRouteTarget;
}.

Section routes.
Context `{UC : !UnicodeCase}.

Definition normalise_path (path : str) : outcome str str :=
  let trimmed := trim path in
  if bool_decide (trimmed = []) then Err (lit "route path cannot be empty")
  else if negb (starts_with (lit "/") trimmed)
  then Err (lit "route path must start with '/': " ++ trimmed)
  else Ok trimmed.

Definition normalise_http_route_protocol (protocol : str) : str :=
  let cleaned := to_lowercase (trim protocol) in
  let among := λ names : list string, existsb (λ n, str_eqb (lit n) cleaned) names in
  if among ["http"; "http1"; "http/1"; "http/1.0"; "http/1.1"]%string then lit "http"
  else if among ["h2"; "http2"; "http/2"]%string then lit "http2"
  else if among ["h3"; "http3"; "http/3"]%string then lit "http3"
  else cleaned.

(** The loop of [normalise_protocols], with the identifiers already [seen]. *)
Fixpoint normalise_protocols_from (seen : list str) (protocols : list str) : outcome str (list str) :=
  match protocols with
  | [] => Ok []
  | protocol :: protocols =>
      let cleaned := normalise_http_route_protocol protocol in
      if bool_decide (cleaned = []) then Err (lit "protocol identifiers cannot be empty")
      else if bool_decide (cleaned ∈ seen) then normalise_protocols_from seen protocols
      else rest ← normalise_protocols_from (cleaned :: seen) protocols; Ok (cleaned :: rest)
  end.

Definition normalise_protocols (protocols : list str) : outcome str (list str) :=
  normalise_protocols_from [] protocols.

(** [HttpRouteTarget::from_config] *)
Definition target_from_config (config : HttpRouteMethodConfig) : outcome str HttpRouteTarget :=
  match config with
  | Translation realm procedure =>
      if bool_decide (trim realm = []) then Err (lit "translation target realm cannot be empty")
      else if bool_decide (trim procedure = []) then Err (lit "translation target procedure cannot be empty")
      else Ok (Translation (trim realm) (trim procedure))
  | ReservedRealm namespace suffix => Ok (ReservedRealm (trim <$> namespace) suffix)
  | Namespace realm namespace suffix =>
      if bool_decide (trim realm = []) then Err (lit "namespace mapping realm cannot be empty")
      else if bool_decide (trim namespace = []) then Err (lit "namespace mapping namespace cannot be empty")
      else Ok (Namespace (trim realm) (trim namespace) suffix)
  end.

(** [HttpRouteTransportAuthRuntime::from_config] *)
Definition auth_from_config (config : HttpRouteTransportAuthConfig) : HttpRouteTransportAuthRuntime :=
  mkTransportAuth (require_bearer config) (require_tls config || require_mtls config)
    (require_mtls config) (allow_unauthenticated_cors_preflight config).

Fixpoint methods_from_configs (methods : gmap str HttpRouteTarget) (l : list (str * HttpRouteMethodConfig)) :
    outcome str (gmap str HttpRouteTarget) :=
  match l with
  | [] => Ok methods
  | (method, handler) :: l =>
      let method_key := to_uppercase (trim method) in
      if bool_decide (method_key = []) then Err (lit "method key may not be empty")
      else if bool_decide (is_Some (methods !! method_key))
      then Err (lit "duplicate method declaration " ++ method_key)
      else
        target ← target_from_config handler;
        methods_from_configs (<[method_key := target]> methods) l
  end.

Definition route_from_config (config : HttpRouteConfig) : outcome str HttpRouteRuntime :=
  path ← normalise_path (rc_path config);
  protocols ← normalise_protocols (rc_protocols config);
  methods ← methods_from_configs ∅ (rc_methods config);
  fallback ← traverse_opt target_from_config (rc_default config);
  Ok (mkRoute path (rc_match_kind config) protocols (auth_from_config (rc_transport_auth config)) methods fallback).

(** [HttpRouteRuntime::try_from_configs]: the longest paths first. *)
Definition try_from_configs (configs : list HttpRouteConfig) : outcome str (list HttpRouteRuntime) :=
  routes ← traverse_list route_from_config configs;
  Ok (sort_by (descending (λ r, str_len (route_path r))) routes).
End routes.

(** ** Endpoints

    [Json] is the type of option values, which are only handed on. *)
Section config.
Context `{UC : !UnicodeCase} {Json : Type}.

Record SniCertificate : Type := mkSni { hostname : str; certificate_chain_pem : str; private_key_pem : str }.
Record ClientAuthConfig : Type := mkClientAuth { auth_mode : ClientAuthMode; ca_certificates_pem : str }.
Record Http3EndpointConfig : Type := mkHttp3 { http3_enabled : bool; http3_port : option Z }.
Record HttpEndpointConfig : Type := mkHttpEndpoint {
  alpn : list str;
  http3 : option Http3EndpointConfig;
  http_options : list (str * Json);
}.

Record EndpointConfig : Type := mkEndpoint {
  host : str;
  port : Z;
  tls_mode : TlsMode;
  idle_timeout : option Z;
  heartbeat_interval : option Z;
  heartbeat_timeout : option Z;
  handshake_timeout : option Z;
  max_http_content_length : option Z;
  max_rawsocket_size_exponent : option Z;
  outbound_send_queue_capacity : option Z;
  websocket_path : option str;
  sni_certificates : list SniCertificate;
  client_auth : option ClientAuthConfig;
  http_routes : list HttpRouteConfig;
  protocols : list TransportProtocol;
  http : option HttpEndpointConfig;
}.

Record RouterConfig : Type := mkRouterConfig { schema : str; version : Z; endpoints : list EndpointConfig }.

(** [HttpEndpointRuntime], [Http3EndpointRuntime] and [ClientAuthRuntime] have
    the fields of their configurations. *)
Record EndpointRuntimeConfig : Type := mkEndpointRuntime {
  er_host : str;
  er_port : Z;
  er_tls_mode : TlsMode;
  er_client_auth : option ClientAuthConfig;
  er_protocols : list TransportProtocol;
  er_idle_timeout : option Z;
  er_heartbeat_interval : option Z;
  er_heartbeat_timeout : option Z;
  er_handshake_timeout : Z;
  er_max_http_content_length : option Z;
  er_max_rawsocket_size_exponent : Z;
  er_max_rawsocket_size : Z;
  er_max_upgrade_exponent : option Z;
  er_outbound_send_queue_capacity : Z;
  er_websocket_path : option str;
  er_sni_certificates : list SniCertificate;
  er_http_routes : list HttpRouteRuntime;
  er_http : option HttpEndpointConfig;
}.

(** [sanitize_protocols]: the first of each. *)
Fixpoint keep_first {A} `{EqDecision A} (seen l : list A) : list A :=
  match l with
  | [] => []
  | x :: l => if bool_decide (x ∈ seen) then keep_first seen l else x :: keep_first (x :: seen) l
  end.
Definition sanitize_protocols (l : list TransportProtocol) : list TransportProtocol := keep_first [] l.

(** [HttpEndpointRuntime::try_from_config], which never fails. *)
Definition http_runtime (config : option HttpEndpointConfig) : option HttpEndpointConfig :=
  config ← config;
  let tokens := filter (λ token, token ≠ []) (trim <$> alpn config) in
  let http3 := match http3 config with
               | Some h => if http3_enabled h then Some (mkHttp3 true (http3_port h)) else None
               | None => None
               end in
  Some (mkHttpEndpoint (keep_first [] (to_lowercase <$> tokens)) http3 (http_options config)).

Definition endpoint_invalid (e : EndpointConfig) (reason : str) : ConfigError :=
  RouterConfigInvalid (lit "endpoint " ++ host e ++ lit ":" ++ show_number (port e) ++ lit " " ++ reason).

(** [if condition { return Err(..) }] *)
Definition refuse_if (condition : bool) (e : EndpointConfig) (reason : str) : outcome ConfigError unit :=
  if condition then Err (endpoint_invalid e reason) else Ok tt.

Definition is_zero (n : option Z) : bool := bool_decide (n = Some 0).

Definition has (p : TransportProtocol) (l : list TransportProtocol) : bool := bool_decide (p ∈ l).

(** The protocols an endpoint serves before its HTTP settings add to them. *)
Definition endpoint_protocols (e : EndpointConfig) : list TransportProtocol :=
  match sanitize_protocols (protocols e) with [] => [PRawsocket] | l => l end.

Definition push_missing (p : TransportProtocol) (l : list TransportProtocol) : list TransportProtocol :=
  if has p l then l else l ++ [p].

(** Generic HTTP enables the versions its settings name. *)
Definition expand_http (l : list TransportProtocol) (http : option HttpEndpointConfig) : list TransportProtocol :=
  if has PHttp l then
    match http with
    | Some settings =>
        let l := if bool_decide (lit "h2" ∈ alpn settings) then push_missing PHttp2 l else l in
        match http3 settings with
        | Some h => if http3_enabled h then push_missing PHttp3 l else l
        | None => l
        end
    | None => l
    end
  else l.

Definition refuse_timeouts (e : EndpointConfig) : outcome ConfigError unit :=
  _ ← refuse_if (is_zero (idle_timeout e)) e (lit "idle_timeout_ms must be positive");
  _ ← refuse_if (is_zero (heartbeat_interval e)) e (lit "heartbeat_interval_ms must be positive");
  _ ← refuse_if (is_zero (heartbeat_timeout e)) e (lit "heartbeat_timeout_ms must be positive");
  _ ← refuse_if (match heartbeat_interval e, heartbeat_timeout e with
                 | Some interval, Some timeout => timeout <? interval
                 | _, _ => false
                 end) e (lit "heartbeat_timeout_ms must be >= heartbeat_interval_ms");
  refuse_if (is_zero (handshake_timeout e)) e (lit "handshake_timeout_ms must be positive").

Definition out_of_range (low high v : Z) : str :=
  show_number v ++ lit " outside supported range " ++ show_number low ++ lit ".." ++ show_number high.

Definition refuse_tls (e : EndpointConfig) (l : list TransportProtocol) : outcome ConfigError unit :=
  match tls_mode e with
  | TlsDisabled => refuse_if (has PHttp3 l) e (lit "enables http3 but tls_mode is disabled")
  | TlsNative =>
      refuse_if (bool_decide (sni_certificates e = [])) e
        (lit "tls_mode native requires at least one sni_certificates entry")
  | TlsDart => Err (endpoint_invalid e (lit "tls_mode dart is not supported yet"))
  end.

Definition client_auth_runtime (e : EndpointConfig) : outcome ConfigError (option ClientAuthConfig) :=
  match client_auth e with
  | Some config =>
      match auth_mode config with
      | AuthDisabled => Ok None
      | mode =>
          _ ← refuse_if (negb (bool_decide (tls_mode e = TlsNative))) e (lit "client_auth requires tls_mode native");
          _ ← refuse_if (bool_decide (trim (ca_certificates_pem config) = [])) e
                (lit "client_auth requires ca_certificates_pem");
          Ok (Some (mkClientAuth mode (trim (ca_certificates_pem config))))
      end
  | None => Ok None
  end.

(** [EndpointRuntimeConfig::try_from_endpoint] *)
Definition try_from_endpoint (e : EndpointConfig) : outcome ConfigError EndpointRuntimeConfig :=
  let l := endpoint_protocols e in
  _ ← refuse_if (has PMqtt l && negb (match parse_ip (host e) with Some a => is_loopback a | None => false end))
        e (lit "anonymous MQTT requires a numeric loopback host");
  let exponent := default DEFAULT_RAWSOCKET_SIZE_EXPONENT (max_rawsocket_size_exponent e) in
  _ ← refuse_if ((exponent <? MIN_RAWSOCKET_SIZE_EXPONENT) || (CONNECTANUM_MAX_RAWSOCKET_SIZE_EXPONENT <? exponent)) e
        (lit "declares max_rawsocket_size_exponent " ++
         out_of_range MIN_RAWSOCKET_SIZE_EXPONENT CONNECTANUM_MAX_RAWSOCKET_SIZE_EXPONENT exponent);
  _ ← refuse_timeouts e;
  _ ← refuse_if (is_zero (max_http_content_length e)) e (lit "max_http_content_length must be positive");
  let capacity := default DEFAULT_OUTBOUND_SEND_QUEUE_CAPACITY (outbound_send_queue_capacity e) in
  _ ← refuse_if ((capacity <? MIN_OUTBOUND_SEND_QUEUE_CAPACITY) || (MAX_OUTBOUND_SEND_QUEUE_CAPACITY <? capacity)) e
        (lit "outbound_send_queue_capacity " ++
         out_of_range MIN_OUTBOUND_SEND_QUEUE_CAPACITY MAX_OUTBOUND_SEND_QUEUE_CAPACITY capacity);
  _ ← refuse_if (negb (bool_decide (http_routes e = [])) && negb (has PHttp l)) e
        (lit "defines http routes but HTTP protocol disabled");
  routes ← map_err (λ err, endpoint_invalid e (lit "http route invalid: " ++ err)) (try_from_configs (http_routes e));
  let runtime := if has PHttp l || has PHttp2 l || has PHttp3 l then http_runtime (http e) else None in
  let l := expand_http l runtime in
  _ ← refuse_tls e l;
  auth ← client_auth_runtime e;
  Ok {|
    er_host := host e;
    er_port := port e;
    er_tls_mode := tls_mode e;
    er_client_auth := auth;
    er_protocols := l;
    er_idle_timeout := idle_timeout e;
    er_heartbeat_interval := heartbeat_interval e;
    er_heartbeat_timeout := heartbeat_timeout e;
    er_handshake_timeout := default DEFAULT_HANDSHAKE_TIMEOUT (handshake_timeout e);
    er_max_http_content_length := max_http_content_length e;
    er_max_rawsocket_size_exponent := exponent;
    er_max_rawsocket_size := Z.shiftl 1 exponent;
    er_max_upgrade_exponent := max_rawsocket_size_exponent e;
    er_outbound_send_queue_capacity := capacity;
    er_websocket_path := websocket_path e;
    er_sni_certificates := sni_certificates e;
    er_http_routes := routes;
    er_http := runtime;
  |}.

Definition supports_protocol (config : EndpointRuntimeConfig) (p : TransportProtocol) : bool :=
  has p (er_protocols config).
Definition http_settings (config : EndpointRuntimeConfig) : option HttpEndpointConfig := er_http config.

(** ** The whole configuration *)

(** The loop of [parse_router_config_bytes] over the endpoints, with the
    addresses already [sanctioned]. *)
Fixpoint check_endpoints (sanctioned : list (str * Z)) (l : list EndpointConfig) : outcome ConfigError unit :=
  match l with
  | [] => Ok tt
  | e :: l =>
      _ ← try_from_endpoint e;
      let address := (to_lowercase (host e), port e) in
      if bool_decide (port e = 0) then check_endpoints sanctioned l
      else if bool_decide (address ∈ sanctioned)
      then Err (RouterConfigInvalid (lit "duplicate endpoint " ++ host e ++ lit ":" ++ show_number (port e)))
      else check_endpoints (address :: sanctioned) l
  end.

(** [serde_json::from_slice::<RouterConfig>]; its errors are texts. *)
Context (from_slice : list Z → string + RouterConfig).

Definition parse_router_config_bytes (bytes : list Z) : outcome ConfigError RouterConfig :=
  match from_slice bytes with
  | inl err => Err (RouterConfigInvalid (lit err))
  | inr parsed => _ ← check_endpoints [] (endpoints parsed); Ok parsed
  end.

(** [apply_router_config_bytes], on the process-wide configuration; the lock is
    poisoned by a thread that panicked with it. *)
Definition apply_router_config_bytes (current : option RouterConfig) (poisoned : bool) (bytes : list Z) :
    outcome ConfigError unit * option RouterConfig :=
  match parse_router_config_bytes bytes with
  | Ok parsed =>
      if poisoned then (Err (RouterConfigInvalid (lit "lock poisoned")), current) else (Ok tt, Some parsed)
  | Err e => (Err e, current)
  | Panic => (Panic, current)
  | NoFuel => (NoFuel, current)
  end.

Definition at_address (host' : str) (port' : Z) (e : EndpointConfig) : bool :=
  eq_ignore_ascii_case (host e) host' && (port e =? port').

(** An address that names two endpoints finds neither. *)
Definition find_endpoint_in (config : RouterConfig) (host' : str) (port' : Z) : option EndpointConfig :=
  match filter (λ e, at_address host' port' e = true) (endpoints config) with
  | [e] => Some e
  | _ => None
  end.

Definition find_endpoint_at_in (config : RouterConfig) (index : nat) (host' : str) (port' : Z) : option EndpointConfig :=
  e ← endpoints config !! index;
  if at_address host' port' e then Some e else None.
End config.
Arguments HttpEndpointConfig : clear implicits.
Arguments EndpointConfig : clear implicits.
Arguments RouterConfig : clear implicits.
Arguments EndpointRuntimeConfig : clear implicits.

(** ** What a configuration is checked for *)
Lemma bind_Ok_iff {E A B} (o : outcome E A) (f : A → outcome E B) b :
  o ≫= f = Ok b ↔ ∃ a, o = Ok a ∧ f a = Ok b.
Proof. split; [apply bind_Ok_inv|]. intros (a & -> & H). done. Qed.

Lemma starts_with_slash s : starts_with (lit "/") s = true ↔ head s = Some 0x2F.
Proof.
  rewrite starts_with_spec. destruct s as [|c s]; simpl; [split; [intros [? [=]]|done]|].
  split; [by intros [? [= ->]]|]. intros [= ->]. by exists s.
Qed.

Section route_spec.
Context `{UC : !UnicodeCase}.

Definition target_ok (t : HttpRouteMethodConfig) : Prop :=
  match t with
  | Translation realm procedure => trim realm ≠ [] ∧ trim procedure ≠ []
  | ReservedRealm _ _ => True
  | Namespace realm namespace _ => trim realm ≠ [] ∧ trim namespace ≠ []
  end.

Definition trimmed_target (t : HttpRouteMethodConfig) : HttpRouteTarget :=
  match t with
  | Translation realm procedure => Translation (trim realm) (trim procedure)
  | ReservedRealm namespace suffix => ReservedRealm (trim <$> namespace) suffix
  | Namespace realm namespace suffix => Namespace (trim realm) (trim namespace) suffix
  end.

Definition method_key (method : str) : str := to_uppercase (trim method).
Definition method_entries (l : list (str * HttpRouteMethodConfig)) : list (str * HttpRouteTarget) :=
  prod_map method_key trimmed_target <$> l.

(** Distinct, nonblank method keys, and complete targets. *)
Definition methods_ok (l : list (str * HttpRouteMethodConfig)) : Prop :=
  NoDup (method_entries l).*1 ∧ Forall (λ p, method_key p.1 ≠ [] ∧ target_ok p.2) l.

Definition route_ok (c : HttpRouteConfig) : Prop :=
  head (trim (rc_path c)) = Some 0x2F ∧
  Forall (λ p, normalise_http_route_protocol p ≠ []) (rc_protocols c) ∧
  methods_ok (rc_methods c) ∧
  match rc_default c with Some t => target_ok t | None => True end.

Definition runtime_route (c : HttpRouteConfig) : HttpRouteRuntime :=
  mkRoute (trim (rc_path c)) (rc_match_kind c)
    (keep_first [] (normalise_http_route_protocol <$> rc_protocols c))
    (auth_from_config (rc_transport_auth c))
    (list_to_map (method_entries (rc_methods c))) (trimmed_target <$> rc_default c).

Lemma normalise_path_exact path p :
  normalise_path path = Ok p ↔ head (trim path) = Some 0x2F ∧ p = trim path.
Proof.
  unfold normalise_path. case_bool_decide as He; [rewrite He; naive_solver|].
  rewrite <-starts_with_slash. destruct (starts_with _ _); naive_solver.
Qed.

Lemma target_from_config_exact t r : target_from_config t = Ok r ↔ target_ok t ∧ r = trimmed_target t.
Proof. destruct t; simpl; repeat case_bool_decide; naive_solver. Qed.

Lemma normalise_protocols_exact seen l r : normalise_protocols_from seen l = Ok r ↔
  Forall (λ p, normalise_http_route_protocol p ≠ []) l ∧ r = keep_first seen (normalise_http_route_protocol <$> l).
Proof.
  revert seen r. induction l as [|p l IH]; intros seen r; csimpl; [naive_solver|].
  rewrite Forall_cons. case_bool_decide; [naive_solver|]. case_bool_decide; [rewrite IH; naive_solver|].
  rewrite bind_Ok_iff. setoid_rewrite IH. naive_solver.
Qed.

Lemma methods_from_configs_exact m l r :
  methods_from_configs m l = Ok r ↔
  methods_ok l ∧ (∀ k, k ∈ (method_entries l).*1 → m !! k = None) ∧ r = list_to_map (method_entries l) ∪ m.
Proof.
  unfold methods_ok. revert m r. induction l as [|[k t] l IH]; intros m r; csimpl.
  - rewrite (left_id_L ∅ (∪)). split; [intros [= ->]; split_and!; auto using NoDup_nil_2, Forall_nil_2; by intros ? ?%not_elem_of_nil|]. naive_solver.
  - fold (method_key k). rewrite Forall_cons, NoDup_cons. csimpl. case_bool_decide as Hk; [naive_solver|].
    case_bool_decide as Hd.
    { split; [done|]. intros (_ & Hm & _). rewrite (Hm (method_key k) ltac:(by left)) in Hd. by destruct Hd. }
    apply eq_None_not_Some in Hd. rewrite bind_Ok_iff. setoid_rewrite target_from_config_exact.
    setoid_rewrite IH. split.
    + intros (t' & [Ht ->] & [Hnd Hall] & Hm & ->). split_and!; try done.
      * intros Hin. specialize (Hm _ Hin). by rewrite lookup_insert_eq in Hm.
      * intros k' [->|Hin]%elem_of_cons; [done|]. specialize (Hm _ Hin).
        by apply lookup_insert_None in Hm as [? _].
      * rewrite <-insert_union_l, insert_union_r; [done|]. apply not_elem_of_list_to_map.
        intros Hin. specialize (Hm _ Hin). by rewrite lookup_insert_eq in Hm.
    + intros ([[Hni Hnd] [[_ Ht] Hall]] & Hm & ->). eexists. split_and!; [done|done|done|done|..].
      * intros k' Hin. apply lookup_insert_None. split; [apply Hm; by right|]. intros <-. done.
      * rewrite <-insert_union_l, insert_union_r; [done|]. by apply not_elem_of_list_to_map.
Qed.

Lemma route_from_config_exact c r : route_from_config c = Ok r ↔ route_ok c ∧ r = runtime_route c.
Proof.
  unfold route_from_config, route_ok, runtime_route, normalise_protocols.
  setoid_rewrite bind_Ok_iff. setoid_rewrite normalise_path_exact.
  setoid_rewrite bind_Ok_iff. setoid_rewrite normalise_protocols_exact.
  setoid_rewrite bind_Ok_iff. setoid_rewrite methods_from_configs_exact. setoid_rewrite bind_Ok_iff.
  assert (∀ o u, traverse_opt target_from_config o = Ok u ↔
    match o with Some t => target_ok t | None => True end ∧ u = trimmed_target <$> o) as Hopt.
  { intros [t|] u; simpl; [|naive_solver]. rewrite bind_Ok_iff. setoid_rewrite target_from_config_exact. naive_solver. }
  setoid_rewrite Hopt. setoid_rewrite (right_id_L ∅ (∪)). split.
  - intros (? & [? ->] & ? & [? ->] & ? & (? & _ & ->) & ? & [? ->] & [= <-]). done.
  - intros [(? & ? & ? & ?) ->]. eexists. split; [done|]. eexists. split; [done|]. eexists.
    split; [split_and!; [done|intros; apply lookup_empty|done]|]. eexists. done.
Qed.
End route_spec.

Lemma traverse_list_exact {E A B} (f : A → outcome E B) (P : A → Prop) (g : A → B) :
  (∀ a b, f a = Ok b ↔ P a ∧ b = g a) → ∀ l r, traverse_list f l = Ok r ↔ Forall P l ∧ r = g <$> l.
Proof.
  intros Hf l. induction l as [|a l IH]; intros r; csimpl; [naive_solver|].
  rewrite Forall_cons, bind_Ok_iff. setoid_rewrite Hf. setoid_rewrite bind_Ok_iff. setoid_rewrite IH. naive_solver.
Qed.

Lemma elem_of_keep_first {A} `{EqDecision A} (x : A) seen l : x ∈ keep_first seen l ↔ x ∈ l ∧ x ∉ seen.
Proof.
  revert seen. induction l as [|y l IH]; intros seen; simpl; [split; [by intros ?%not_elem_of_nil|by intros [?%not_elem_of_nil _]]|].
  rewrite elem_of_cons. case_bool_decide as Hy.
  - rewrite IH. split; [tauto|]. intros [[->|?] ?]; [done|tauto].
  - rewrite elem_of_cons, IH, not_elem_of_cons. destruct (decide (x = y)) as [->|]; tauto.
Qed.

Lemma NoDup_keep_first {A} `{EqDecision A} (seen l : list A) : NoDup (keep_first seen l).
Proof.
  revert seen. induction l as [|y l IH]; intros seen; simpl; [constructor|]. case_bool_decide; [done|].
  constructor; [|done]. rewrite elem_of_keep_first, not_elem_of_cons. tauto.
Qed.

Section endpoint_spec.
Context `{UC : !UnicodeCase} {Json : Type}.
Implicit Types (e : EndpointConfig Json) (c : EndpointRuntimeConfig Json).

Definition positive_opt (n : option Z) : Prop := n ≠ Some 0.

(** The numeric limits of an endpoint. *)
Definition limits_ok e : Prop :=
  MIN_RAWSOCKET_SIZE_EXPONENT ≤ default DEFAULT_RAWSOCKET_SIZE_EXPONENT (max_rawsocket_size_exponent e)
    ≤ CONNECTANUM_MAX_RAWSOCKET_SIZE_EXPONENT ∧
  positive_opt (idle_timeout e) ∧ positive_opt (heartbeat_interval e) ∧ positive_opt (heartbeat_timeout e) ∧
  (∀ interval timeout, heartbeat_interval e = Some interval → heartbeat_timeout e = Some timeout →
     interval ≤ timeout) ∧
  positive_opt (handshake_timeout e) ∧ positive_opt (max_http_content_length e) ∧
  MIN_OUTBOUND_SEND_QUEUE_CAPACITY ≤ default DEFAULT_OUTBOUND_SEND_QUEUE_CAPACITY (outbound_send_queue_capacity e)
    ≤ MAX_OUTBOUND_SEND_QUEUE_CAPACITY.

(** HTTP/3 is configured: as a protocol, or by the settings of generic HTTP. *)
Definition serves_http3 e : Prop :=
  PHttp3 ∈ protocols e ∨
  PHttp ∈ protocols e ∧ ∃ settings h, http e = Some settings ∧ http3 settings = Some h ∧ http3_enabled h = true.

Definition tls_ok e : Prop :=
  match tls_mode e with
  | TlsDisabled => ¬ serves_http3 e
  | TlsNative => sni_certificates e ≠ []
  | TlsDart => False
  end.

Definition client_auth_ok e : Prop :=
  ∀ auth, client_auth e = Some auth → auth_mode auth ≠ AuthDisabled →
    tls_mode e = TlsNative ∧ trim (ca_certificates_pem auth) ≠ [].

Definition endpoint_ok e : Prop :=
  (PMqtt ∈ protocols e → ∃ address, parse_ip (host e) = Some address ∧ is_loopback address = true) ∧
  limits_ok e ∧ (http_routes e ≠ [] → PHttp ∈ protocols e) ∧ Forall route_ok (http_routes e) ∧
  tls_ok e ∧ client_auth_ok e.

Lemma refuse_if_Ok b e reason u : refuse_if b e reason = Ok u ↔ b = false.
Proof. destruct b, u; simpl; naive_solver. Qed.

Lemma elem_of_endpoint_protocols p e : p ≠ PRawsocket → p ∈ endpoint_protocols e ↔ p ∈ protocols e.
Proof.
  intros Hp. assert (p ∈ sanitize_protocols (protocols e) ↔ p ∈ protocols e) as H
    by (unfold sanitize_protocols; rewrite elem_of_keep_first; pose proof (not_elem_of_nil p); tauto).
  unfold endpoint_protocols. destruct (sanitize_protocols (protocols e)) eqn:E; [|done].
  rewrite <-H, list_elem_of_singleton. pose proof (not_elem_of_nil p). tauto.
Qed.

Lemma has_spec p l : has p l = true ↔ p ∈ l.
Proof. apply bool_decide_eq_true. Qed.
Lemma has_false p l : has p l = false ↔ p ∉ l.
Proof. apply bool_decide_eq_false. Qed.

Lemma elem_of_push_missing q p l : q ∈ push_missing p l ↔ q ∈ l ∨ q = p.
Proof.
  unfold push_missing. destruct (has p l) eqn:E.
  - apply has_spec in E. naive_solver.
  - by rewrite elem_of_app, list_elem_of_singleton.
Qed.

Lemma NoDup_push_missing p l : NoDup l → NoDup (push_missing p l).
Proof.
  intros H. unfold push_missing. destruct (has p l) eqn:E; [done|]. apply has_false in E.
  apply NoDup_app. split_and!; [done| |apply NoDup_singleton]. intros q Hq ->%list_elem_of_singleton. done.
Qed.

Lemma NoDup_endpoint_protocols e : NoDup (endpoint_protocols e).
Proof.
  unfold endpoint_protocols. pose proof (NoDup_keep_first [] (protocols e)) as H.
  unfold sanitize_protocols. destruct (keep_first [] (protocols e)); [apply NoDup_singleton|done].
Qed.

Definition runtime_http e : option (HttpEndpointConfig Json) :=
  let l := endpoint_protocols e in
  if has PHttp l || has PHttp2 l || has PHttp3 l then http_runtime (http e) else None.

Lemma expand_http3 e : PHttp3 ∈ expand_http (endpoint_protocols e) (runtime_http e) ↔ serves_http3 e.
Proof.
  unfold expand_http, serves_http3. rewrite <-(elem_of_endpoint_protocols PHttp3) by done.
  rewrite <-(elem_of_endpoint_protocols PHttp) by done. rewrite <-(has_spec PHttp).
  unfold runtime_http. destruct (has PHttp (endpoint_protocols e)); [|naive_solver]. simpl.
  unfold http_runtime. destruct (http e) as [s|]; simpl; [|naive_solver].
  assert (∀ l, PHttp3 ∈ (if bool_decide (lit "h2" ∈ keep_first [] (to_lowercase <$>
    filter (λ token : str, token ≠ []) (trim <$> alpn s))) then push_missing PHttp2 l else l) ↔ PHttp3 ∈ l) as Hl.
  { intros l. destruct (bool_decide _); [|done]. rewrite elem_of_push_missing. naive_solver. }
  destruct (http3 s) as [h|] eqn:Es; simpl; [destruct (http3_enabled h) eqn:Eh; simpl|];
    rewrite ?elem_of_push_missing, ?Hl; split; try (by left); try (by intros [?|?]; eauto 10).
  all: intros [?|(_ & settings & h' & [= <-] & Hs & He)]; try done; congruence.
Qed.

Lemma NoDup_expand_http l h : NoDup l → NoDup (@expand_http Json l h).
Proof.
  intros H. unfold expand_http. destruct (has _ _); [|done]. destruct h as [s|]; [|done].
  destruct (http3 s) as [[[] ?]|]; simpl; case_bool_decide; auto using NoDup_push_missing.
Qed.

Lemma expand_http_nonempty l h : l ≠ [] → @expand_http Json l h ≠ [].
Proof.
  assert (∀ p k, k ≠ [] → push_missing p k ≠ []) as Hp
    by (intros p k Hk; unfold push_missing; destruct (has p k); [done|]; by destruct k).
  intros H. unfold expand_http. destruct (has _ _); [|done]. destruct h as [s|]; [|done].
  destruct (http3 s) as [[[] ?]|]; simpl; case_bool_decide; auto.
Qed.

Lemma is_zero_false n : is_zero n = false ↔ positive_opt n.
Proof. apply bool_decide_eq_false. Qed.

Lemma refuse_timeouts_exact e u : refuse_timeouts e = Ok u ↔
  positive_opt (idle_timeout e) ∧ positive_opt (heartbeat_interval e) ∧ positive_opt (heartbeat_timeout e) ∧
  (∀ interval timeout, heartbeat_interval e = Some interval → heartbeat_timeout e = Some timeout →
     interval ≤ timeout) ∧
  positive_opt (handshake_timeout e).
Proof.
  unfold refuse_timeouts. repeat setoid_rewrite bind_Ok_iff. repeat setoid_rewrite refuse_if_Ok.
  repeat setoid_rewrite is_zero_false.
  split.
  - intros (_ & ? & _ & ? & _ & ? & _ & Hlt & ?). split_and!; try done.
    intros i t Hi Ht. rewrite Hi, Ht in Hlt. lia.
  - intros (? & ? & ? & Hle & ?). do 4 (exists tt; split; [try done|]); [|done].
    destruct (heartbeat_interval e) as [i|], (heartbeat_timeout e) as [t|]; try done.
    specialize (Hle i t eq_refl eq_refl). lia.
Qed.

Lemma refuse_tls_exact e u :
  refuse_tls e (expand_http (endpoint_protocols e) (runtime_http e)) = Ok u ↔ tls_ok e.
Proof.
  unfold refuse_tls, tls_ok. destruct (tls_mode e); [| |naive_solver].
  - by rewrite refuse_if_Ok, has_false, expand_http3.
  - by rewrite refuse_if_Ok, bool_decide_eq_false.
Qed.

Definition runtime_auth e : option ClientAuthConfig :=
  auth ← client_auth e;
  if bool_decide (auth_mode auth = AuthDisabled) then None
  else Some (mkClientAuth (auth_mode auth) (trim (ca_certificates_pem auth))).

Lemma client_auth_exact e a : client_auth_runtime e = Ok a ↔ client_auth_ok e ∧ a = runtime_auth e.
Proof.
  unfold client_auth_runtime, client_auth_ok, runtime_auth. destruct (client_auth e) as [auth|]; simpl; [|naive_solver].
  destruct (auth_mode auth) eqn:Em; case_bool_decide as Hm; try done.
  1: naive_solver.
  all: unfold refuse_if; do 2 case_bool_decide; simpl.
  all: try (split; [intros [= <-]; split; [by intros ? [= <-]|done]|by intros [_ ->]]).
  all: split; [done|intros [Hok _]]; destruct (Hok auth eq_refl ltac:(congruence)); done.
Qed.
End endpoint_spec.

Section endpoint_exact.
Context `{UC : !UnicodeCase} {Json : Type}.
Implicit Types (e : EndpointConfig Json) (c : EndpointRuntimeConfig Json).

(** The runtime view of a valid endpoint. *)
Definition runtime_config e : EndpointRuntimeConfig Json :=
  let exponent := default DEFAULT_RAWSOCKET_SIZE_EXPONENT (max_rawsocket_size_exponent e) in {|
    er_host := host e;
    er_port := port e;
    er_tls_mode := tls_mode e;
    er_client_auth := runtime_auth e;
    er_protocols := expand_http (endpoint_protocols e) (runtime_http e);
    er_idle_timeout := idle_timeout e;
    er_heartbeat_interval := heartbeat_interval e;
    er_heartbeat_timeout := heartbeat_timeout e;
    er_handshake_timeout := default DEFAULT_HANDSHAKE_TIMEOUT (handshake_timeout e);
    er_max_http_content_length := max_http_content_length e;
    er_max_rawsocket_size_exponent := exponent;
    er_max_rawsocket_size := 2 ^ exponent;
    er_max_upgrade_exponent := max_rawsocket_size_exponent e;
    er_outbound_send_queue_capacity := default DEFAULT_OUTBOUND_SEND_QUEUE_CAPACITY (outbound_send_queue_capacity e);
    er_websocket_path := websocket_path e;
    er_sni_certificates := sni_certificates e;
    er_http_routes := sort_by (descending (λ r, str_len (route_path r))) (runtime_route <$> http_routes e);
    er_http := runtime_http e;
  |}.

Lemma try_from_configs_exact l r : try_from_configs l = Ok r ↔
  Forall route_ok l ∧ r = sort_by (descending (λ r, str_len (route_path r))) (runtime_route <$> l).
Proof.
  unfold try_from_configs. rewrite bind_Ok_iff.
  setoid_rewrite (traverse_list_exact _ _ _ route_from_config_exact). naive_solver.
Qed.

Lemma map_err_Ok_iff {E F A} (f : E → F) (o : outcome E A) a : map_err f o = Ok a ↔ o = Ok a.
Proof. destruct o; simpl; naive_solver. Qed.

Lemma mqtt_check_exact e :
  has PMqtt (endpoint_protocols e) && negb (match parse_ip (host e) with Some a => is_loopback a | None => false end) = false ↔
  (PMqtt ∈ protocols e → ∃ address, parse_ip (host e) = Some address ∧ is_loopback address = true).
Proof.
  rewrite <-(elem_of_endpoint_protocols PMqtt), <-has_spec by done.
  destruct (has PMqtt _), (parse_ip (host e)) as [a|]; [destruct (is_loopback a) eqn:Ea|..]; simpl; naive_solver.
Qed.

Lemma limits_check_exact e :
  let exponent := default DEFAULT_RAWSOCKET_SIZE_EXPONENT (max_rawsocket_size_exponent e) in
  let capacity := default DEFAULT_OUTBOUND_SEND_QUEUE_CAPACITY (outbound_send_queue_capacity e) in
  (exponent <? MIN_RAWSOCKET_SIZE_EXPONENT) || (CONNECTANUM_MAX_RAWSOCKET_SIZE_EXPONENT <? exponent) = false ∧
  (∃ u, refuse_timeouts e = Ok u) ∧ is_zero (max_http_content_length e) = false ∧
  (capacity <? MIN_OUTBOUND_SEND_QUEUE_CAPACITY) || (MAX_OUTBOUND_SEND_QUEUE_CAPACITY <? capacity) = false ↔
  limits_ok e.
Proof.
  simpl. setoid_rewrite refuse_timeouts_exact. rewrite is_zero_false. unfold limits_ok.
  rewrite !orb_false_iff, !Z.ltb_ge. split.
  - intros ([? ?] & [_ (? & ? & ? & ? & ?)] & ? & ? & ?). done.
  - intros ([? ?] & ? & ? & ? & ? & ? & ? & ? & ?). repeat split; try done; by exists tt.
Qed.

Lemma routes_check_exact e :
  negb (bool_decide (http_routes e = [])) && negb (has PHttp (endpoint_protocols e)) = false ↔
  (http_routes e ≠ [] → PHttp ∈ protocols e).
Proof.
  rewrite <-(elem_of_endpoint_protocols PHttp), <-has_spec by done.
  case_bool_decide; destruct (has PHttp _); simpl; naive_solver.
Qed.

Lemma methods_from_configs_returns m l : returns (methods_from_configs m l).
Proof.
  revert m. induction l as [|[k t] l IH]; intros m; simpl; [done|]. do 2 (case_bool_decide; [done|]).
  apply returns_bind; [destruct t; simpl; repeat case_bool_decide; done|]. auto.
Qed.

Lemma normalise_protocols_returns seen l : returns (normalise_protocols_from seen l).
Proof.
  revert seen. induction l as [|p l IH]; intros seen; simpl; [done|]. do 2 (case_bool_decide; [done|]).
  apply returns_bind; [apply IH|done].
Qed.

Lemma try_from_configs_returns l : returns (try_from_configs l).
Proof.
  apply returns_bind; [|done]. apply returns_traverse_list, Forall_true. intros c. unfold route_from_config.
  apply returns_bind; [unfold normalise_path; case_bool_decide; [done|]; by destruct (negb _)|]. intros ? _.
  apply returns_bind; [apply normalise_protocols_returns|]. intros ? _.
  apply returns_bind; [apply methods_from_configs_returns|]. intros ? _.
  apply returns_bind; [|done]. apply returns_traverse_opt. intros t _. destruct t; simpl; repeat case_bool_decide; done.
Qed.

Lemma refuse_if_returns b e reason : returns (refuse_if b e reason).
Proof. by destruct b. Qed.

Lemma refuse_timeouts_returns e : returns (refuse_timeouts e).
Proof. repeat (apply returns_bind; [apply refuse_if_returns|intros ? _]). apply refuse_if_returns. Qed.

Lemma refuse_tls_returns e l : returns (refuse_tls e l).
Proof. unfold refuse_tls. destruct (tls_mode e); [apply refuse_if_returns..|done]. Qed.

Lemma client_auth_returns e : returns (client_auth_runtime e).
Proof.
  unfold client_auth_runtime. destruct (client_auth e) as [a|]; [|done].
  destruct (auth_mode a); [done|..]; repeat (apply returns_bind; [apply refuse_if_returns|intros ? _]); done.
Qed.

Lemma try_from_endpoint_returns e : returns (try_from_endpoint e).
Proof.
  unfold try_from_endpoint.
  do 6 (apply returns_bind; [first [apply refuse_timeouts_returns|apply refuse_if_returns]|intros ? _]).
  apply returns_bind; [apply returns_map_err, try_from_configs_returns|intros ? _].
  apply returns_bind; [apply refuse_tls_returns|intros ? _]. by apply returns_bind; [apply client_auth_returns|].
Qed.

Lemma try_from_endpoint_Ok e c : try_from_endpoint e = Ok c ↔ endpoint_ok e ∧ c = runtime_config e.
Proof.
  unfold try_from_endpoint, endpoint_ok. fold (runtime_http e). rewrite <-limits_check_exact, <-mqtt_check_exact, <-routes_check_exact.
  repeat setoid_rewrite bind_Ok_iff. setoid_rewrite map_err_Ok_iff.
  repeat setoid_rewrite refuse_if_Ok.
  setoid_rewrite try_from_configs_exact. setoid_rewrite refuse_tls_exact. setoid_rewrite client_auth_exact.
  split.
  - intros (_ & Hm & _ & Hx & u & Ht & _ & Hc & _ & Hq & _ & Hr & routes & [Hro ->] & _ & Htls & a & [Hca ->] & [= <-]).
    split; [split_and!; try done; by exists u|]. unfold runtime_config. by rewrite Z.shiftl_1_l.
  - intros [(Hm & (Hx & [u Ht] & Hc & Hq) & Hr & Hro & Htls & Hca) ->].
    exists tt. split; [done|]. exists tt. split; [done|]. exists u. split; [done|]. exists tt. split; [done|].
    exists tt. split; [done|]. exists tt. split; [done|]. eexists. split; [done|]. exists tt. split; [done|].
    eexists. split; [done|]. unfold runtime_config. by rewrite Z.shiftl_1_l.
Qed.

(** C30: the check of an endpoint always returns, and the endpoint is accepted exactly when it is valid,
    that is: anonymous MQTT only on a loopback address, sizes, timeouts and queue
    capacities in their ranges, routes only with HTTP and each of them complete,
    with its method keys distinct in every iteration order, HTTP/3 only with TLS,
    certificates for TLS and authorities for client certificates.  What it
    becomes is its runtime view, and nothing else: routes by descending path
    length, defaults filled in, the protocols its HTTP settings add. *)
Theorem endpoint_config_exact e :
  returns (try_from_endpoint e) ∧ ∀ c, try_from_endpoint e = Ok c ↔ endpoint_ok e ∧ c = runtime_config e.
Proof. split; [apply try_from_endpoint_returns|intros c; apply try_from_endpoint_Ok]. Qed.
End endpoint_exact.

(** ** What the runtime view keeps, and the lookup of endpoints *)
Section runtime.
Context `{UC : !UnicodeCase} {Json : Type}.
Implicit Types (e : EndpointConfig Json) (c : EndpointRuntimeConfig Json).

Definition runtime_route_wf (r : HttpRouteRuntime) : Prop :=
  head (route_path r) = Some 0x2F ∧ NoDup (route_protocols r) ∧ [] ∉ route_protocols r ∧
  route_methods r !! [] = None ∧
  (require_mtls (route_transport_auth r) = true → require_tls (route_transport_auth r) = true).

Record runtime_wf c : Prop := {
  wf_protocols : NoDup (er_protocols c) ∧ er_protocols c ≠ [];
  wf_exponent : 9 ≤ er_max_rawsocket_size_exponent c ≤ 30 ∧
    er_max_rawsocket_size c = 2 ^ er_max_rawsocket_size_exponent c;
  wf_capacity : 1 ≤ er_outbound_send_queue_capacity c ≤ 65535;
  wf_mqtt : PMqtt ∈ er_protocols c → ∃ a, parse_ip (er_host c) = Some a ∧ is_loopback a = true;
  wf_http3 : PHttp3 ∈ er_protocols c → er_tls_mode c = TlsNative;
  wf_tls : er_tls_mode c ≠ TlsDart ∧ (er_tls_mode c = TlsNative → er_sni_certificates c ≠ []);
  wf_client_auth : ∀ a, er_client_auth c = Some a →
    er_tls_mode c = TlsNative ∧ auth_mode a ≠ AuthDisabled ∧ ca_certificates_pem a ≠ [];
  wf_routes : er_http_routes c ≠ [] → PHttp ∈ er_protocols c;
  wf_route_order : StronglySorted (λ r s, str_len (route_path s) ≤ str_len (route_path r)) (er_http_routes c);
  wf_route : Forall runtime_route_wf (er_http_routes c);
}.

Lemma elem_of_expand_http p l (h : option (HttpEndpointConfig Json)) : p ∈ l → p ∈ expand_http l h.
Proof.
  intros H. unfold expand_http. destruct (has _ _); [|done]. destruct h as [s|]; [|done].
  destruct (http3 s) as [[[] ?]|]; simpl; destruct (bool_decide _); rewrite ?elem_of_push_missing; auto.
Qed.

Lemma elem_of_expand_inv p l (h : option (HttpEndpointConfig Json)) : p ≠ PHttp2 → p ≠ PHttp3 →
  p ∈ expand_http l h → p ∈ l.
Proof.
  intros H2 H3. unfold expand_http. destruct (has _ _); [|done]. destruct h as [s|]; [|done].
  destruct (http3 s) as [[[] ?]|]; simpl; destruct (bool_decide _); rewrite ?elem_of_push_missing; naive_solver.
Qed.

Lemma runtime_route_spec r : route_ok r → runtime_route_wf (runtime_route r).
Proof.
  intros (Hp & Hpr & [_ Hm] & _). unfold runtime_route_wf, runtime_route. simpl. split_and!; [done|apply NoDup_keep_first|..].
  - rewrite elem_of_keep_first. intros [(p & Hp' & Hin)%list_elem_of_fmap _]. rewrite Forall_forall in Hpr. by apply (Hpr p).
  - apply not_elem_of_list_to_map. unfold method_entries. rewrite <-list_fmap_compose.
    intros ([k t] & Hk & Hin)%list_elem_of_fmap. rewrite Forall_forall in Hm. by destruct (Hm _ Hin).
  - intros ->. apply orb_true_r.
Qed.

Lemma runtime_config_wf e : endpoint_ok e → runtime_wf (runtime_config e).
Proof.
  intros (Hmqtt & (Hx & _ & _ & _ & _ & _ & _ & Hq) & Hr & Hro & Htls & Hca). split; simpl.
  - split; [apply NoDup_expand_http, NoDup_endpoint_protocols|]. apply expand_http_nonempty.
    unfold endpoint_protocols. by destruct (sanitize_protocols _).
  - split; [exact Hx|done].
  - exact Hq.
  - intros H%elem_of_expand_inv; [|done..]. apply Hmqtt. by rewrite <-elem_of_endpoint_protocols.
  - rewrite expand_http3. unfold tls_ok in Htls. by destruct (tls_mode e).
  - unfold tls_ok in Htls. by destruct (tls_mode e).
  - unfold runtime_auth. intros a. destruct (client_auth e) as [auth|] eqn:Ea; [|done]. simpl.
    case_bool_decide; [done|]. intros [= <-]. by destruct (Hca auth).
  - intros H. apply elem_of_expand_http, elem_of_endpoint_protocols; [done|]. apply Hr. by intros E; rewrite E in H.
  - apply sort_by_sorted.
  - rewrite sort_by_Permutation, Forall_fmap. eapply Forall_impl; [exact Hro|]. intros r. apply runtime_route_spec.
Qed.

Definition address e : str * Z := (to_lowercase (host e), port e).
Definition addresses (l : list (EndpointConfig Json)) : list (str * Z) := address <$> filter (λ e, port e ≠ 0) l.

Lemma check_endpoints_exact s l u : check_endpoints s l = Ok u ↔
  Forall endpoint_ok l ∧ NoDup (addresses l) ∧ (∀ a, a ∈ addresses l → a ∉ s).
Proof.
  destruct u. revert s. induction l as [|e l IH]; intros s; simpl.
  { split; [|done]. intros _. split_and!; [constructor|constructor|by intros ? ?%not_elem_of_nil]. }
  rewrite bind_Ok_iff, Forall_cons. setoid_rewrite try_from_endpoint_Ok.
  unfold addresses. rewrite filter_cons. fold (addresses l).
  case_bool_decide as Hz; case_decide; try done.
  - setoid_rewrite IH. split; [intros (? & [? _] & ?); tauto|]. intros [[? ?] ?]. by eexists.
  - csimpl. fold (address e) (addresses l). rewrite NoDup_cons. case_bool_decide as Hs.
    + split; [by intros (? & _ & ?)|]. intros (_ & _ & Hn). by destruct (Hn (address e) ltac:(by left)).
    + setoid_rewrite IH. setoid_rewrite not_elem_of_cons. setoid_rewrite elem_of_cons. split.
      * intros (? & [? _] & ? & Hnd & Hn). split_and!; try done; [intros Hin; by destruct (Hn _ Hin)|].
        intros a [->|Hin]; [done|by apply Hn].
      * intros ([? ?] & [Hni ?] & Hn). eexists. split; [done|]. split_and!; try done.
        intros a Hin. split; [by intros ->|by apply Hn; right].
Qed.

Lemma at_address_spec h p e : at_address h p e = true ↔ eq_ignore_ascii_case (host e) h = true ∧ port e = p.
Proof. unfold at_address. by rewrite andb_true_iff, Z.eqb_eq. Qed.

Lemma lookup_unique l e h : NoDup (addresses l) → e ∈ l → port e ≠ 0 → eq_ignore_ascii_case (host e) h = true →
  filter (λ e', at_address h (port e) e' = true) l = [e].
Proof.
  intros Hnd Hin Hp Hh. induction l as [|e' l IH]; [by apply not_elem_of_nil in Hin|].
  assert (∀ e', e' ∈ l → at_address h (port e) e' = true → address e' ∈ addresses l ∧ address e' = address e) as Hat.
  { intros e2 Hin2 [He2 Hp2]%at_address_spec. split.
    - apply list_elem_of_fmap_2, list_elem_of_filter. split; [by rewrite Hp2|done].
    - unfold address. rewrite Hp2. f_equal. by rewrite (eq_ignore_lowercase _ _ He2), (eq_ignore_lowercase _ _ Hh). }
  unfold addresses in Hnd. rewrite filter_cons in *. apply elem_of_cons in Hin as [<-|Hin].
  - case_decide as Hp'; [|done]. csimpl in Hnd. fold (address e) (addresses l) in Hnd. apply NoDup_cons in Hnd as [Hni _].
    rewrite decide_True by (by apply at_address_spec). f_equal. destruct (filter _ l) as [|e2 k] eqn:Ef; [done|].
    assert (e2 ∈ filter (λ e', at_address h (port e) e' = true) l) as [? Hin2]%list_elem_of_filter by (rewrite Ef; by left).
    destruct (Hat e2 Hin2) as [Ha1 Ha2]; [done|]. rewrite Ha2 in Ha1. done.
  - assert (NoDup (addresses l)) as Hnd' by (case_decide; csimpl in Hnd; [by apply NoDup_cons in Hnd as [_ ?]|done]).
    destruct (decide (at_address h (port e) e' = true)) as [Hat'|]; [|by apply IH]. exfalso. apply at_address_spec in Hat' as [He' Hp'].
    rewrite decide_True in Hnd by (by rewrite Hp'). csimpl in Hnd. apply NoDup_cons in Hnd as [Hni _]. apply Hni.
    assert (address e' = address e) as Ha.
    { unfold address. rewrite Hp'. f_equal. by rewrite (eq_ignore_lowercase _ _ He'), (eq_ignore_lowercase _ _ Hh). }
    fold (address e'). rewrite Ha. apply list_elem_of_fmap_2, list_elem_of_filter. done.
Qed.

(** C40: the runtime view of an accepted endpoint is well formed: protocols are
    distinct and at least one, MQTT is on loopback, HTTP/3 and client
    certificates are behind native TLS, which has a certificate, the message limit is
    two to the exponent and at most a gibibyte, the send queue holds 1 to 65535
    frames, and the routes, only there with HTTP, are sorted by descending path
    length, each with an absolute path, distinct protocols, no blank method, and
    TLS required where a client certificate is. *)
Theorem endpoint_runtime_wf e c : try_from_endpoint e = Ok c → runtime_wf c.
Proof. intros [? ->]%try_from_endpoint_Ok. by apply runtime_config_wf. Qed.

Context (from_slice : list Z → string + RouterConfig Json).

(** a configuration that parses has only valid endpoints, and an address of
    it with a port names one endpoint: the one that is configured there is what
    lookup finds, by address and by index, whatever the case of the host; what
    lookup finds is configured there.  A configuration that does not parse
    leaves the current one. *)
Theorem router_config_lookup bytes config current :
  parse_router_config_bytes from_slice bytes = Ok config →
  Forall endpoint_ok (endpoints config) ∧
  (∀ i e h, endpoints config !! i = Some e → eq_ignore_ascii_case (host e) h = true →
     find_endpoint_at_in config i h (port e) = Some e ∧
     (port e ≠ 0 → find_endpoint_in config h (port e) = Some e)) ∧
  (∀ h p e, find_endpoint_in config h p = Some e →
     e ∈ endpoints config ∧ eq_ignore_ascii_case (host e) h = true ∧ port e = p) ∧
  apply_router_config_bytes from_slice current false bytes = (Ok tt, Some config).
Proof.
  intros Hparse. unfold apply_router_config_bytes. rewrite Hparse. unfold parse_router_config_bytes in Hparse.
  destruct (from_slice bytes) as [|parsed]; [done|].
  apply bind_Ok_inv in Hparse as (u & Hc & [= <-]). apply check_endpoints_exact in Hc as (Hall & Hnd & _).
  split_and!; try done.
  - intros i e h Hi Hh. split.
    + unfold find_endpoint_at_in. rewrite Hi. simpl.
      assert (at_address h (port e) e = true) as -> by (by apply at_address_spec). done.
    + intros Hp. unfold find_endpoint_in. rewrite (lookup_unique _ e); try done. by apply list_elem_of_lookup_2 in Hi.
  - intros h p e. unfold find_endpoint_in. destruct (filter _ _) as [|e' [|]] eqn:Ef; try done. intros [= ->].
    assert (e ∈ filter (λ e, at_address h p e = true) (endpoints parsed)) as [Ha Hin]%list_elem_of_filter by (rewrite Ef; by left).
    apply at_address_spec in Ha. done.
Qed.
End runtime.

(** ** Examples *)

(** The case mappings, on ASCII. *)
#[local] Instance ascii_case : UnicodeCase := {|
  to_lowercase := to_ascii_lowercase;
  to_uppercase := fmap ascii_upper;
  lowercase_ascii _ _ := eq_refl;
  uppercase_ascii _ _ := eq_refl;
  lowercase_folds := to_ascii_lowercase_idemp;
|}.

Definition no_auth : HttpRouteTransportAuthConfig := mkTransportAuth false false false false.

Definition demo_endpoint : EndpointConfig unit := {|
  host := lit "LOCALHOST"; port := 8080; tls_mode := TlsDisabled;
  idle_timeout := None; heartbeat_interval := Some 30000; heartbeat_timeout := Some 60000; handshake_timeout := None;
  max_http_content_length := Some 65536; max_rawsocket_size_exponent := Some 20; outbound_send_queue_capacity := None;
  websocket_path := None; sni_certificates := []; client_auth := None;
  http_routes := [
    mkRouteConfig (lit "/") MatchPrefix [] no_auth [] (Some (ReservedRealm None true));
    mkRouteConfig (lit " /api ") MatchPrefix [lit "H2"; lit "http/1.1"] (mkTransportAuth true false false false)
      [(lit "get", Namespace (lit "app") (lit "com.app") true)] None];
  protocols := [PHttp; PRawsocket; PHttp];
  http := Some (mkHttpEndpoint [lit "h2"; lit "H2"] None []);
|}.

Lemma endpoint_runtime_wf_witness :
  ∃ c, try_from_endpoint demo_endpoint = Ok c ∧ er_protocols c = [PHttp; PRawsocket; PHttp2] ∧
    route_path <$> er_http_routes c = [lit "/api"; lit "/"] ∧ runtime_wf c.
Proof.
  destruct (try_from_endpoint demo_endpoint) as [c| | |] eqn:E; [|vm_compute in E; discriminate E..].
  exists c. split; [reflexivity|]. split; [vm_compute in E; injection E as <-; reflexivity|].
  split; [vm_compute in E; injection E as <-; reflexivity|]. exact (endpoint_runtime_wf demo_endpoint c E).
Defined.

Definition demo_config : RouterConfig unit := mkRouterConfig (lit "connectanum.router") 1 [demo_endpoint].

Lemma router_config_lookup_witness :
  parse_router_config_bytes (λ _, inr demo_config) [] = Ok demo_config ∧
  find_endpoint_in demo_config (lit "localhost") 8080 = Some demo_endpoint.
Proof.
  assert (parse_router_config_bytes (λ _, inr demo_config) [] = Ok demo_config) as H by (vm_compute; reflexivity).
  split; [exact H|].
  destruct (router_config_lookup (λ _, inr demo_config) [] demo_config None H) as (_ & Hfind & _).
  apply (Hfind 0%nat demo_endpoint (lit "localhost") eq_refl); vm_compute; [reflexivity|discriminate].
Defined.
