(* ===== verification/HttpRoutes.v ===== *)
(** * HTTP routes

    [match_http_route] of [ct_core/src/config.rs] and what it uses: which route
    of an endpoint answers a request, and the procedure it calls; and the split
    of a request target of [protocol.rs]. *)
From stdpp Require Import gmap sorting.
From S2P Require Import Prelude Bytes Text TextOps RouterConfig.

Definition RESERVED_HTTP_REALM : str := lit "router.http".

Record HttpRouteResolution : Type := mkResolution {
  res_realm : str;
  res_procedure : str;
  res_method : str;
  res_protocol : str;
  res_path : str;
  res_query : option str;
  res_transport_auth : HttpRouteTransportAuthRuntime;
}.

Inductive HttpRouteMatch : Type :=
  | NotFound
  | MethodNotAllowed (allowed_methods : list str)
  | ProtocolNotAllowed (allowed_protocols : list str)
  | Resolved (resolution : HttpRouteResolution).

(** ** Names *)
Definition normalise_namespace (namespace : str) : str :=
  let trimmed := trim_matches 0x2E (trim namespace) in
  if bool_decide (trimmed = []) then [] else trimmed ++ lit ".".

Definition sanitise_char (c : Z) : Z := if is_ascii_alphanumeric c then ascii_lower c else 0x5F.
Definition sanitise_segment (segment : str) : str :=
  match sanitise_char <$> segment with [] => lit "index" | result => result end.

Definition segments_from_path (path : str) : list str :=
  let trimmed := if bool_decide (path = []) then lit "/" else path in
  let stripped := trim_matches 0x2F trimmed in
  if bool_decide (stripped = []) then [] else sanitise_segment <$> split_on 0x2F stripped.

Definition ends_with_dot (buffer : str) : bool := bool_decide (last buffer = Some 0x2E).

(** One turn of the loop of [append_path_segments]. *)
Definition append_segment (buffer segment : str) : str :=
  (if negb (bool_decide (buffer = [])) && negb (ends_with_dot buffer) then buffer ++ lit "." else buffer) ++ segment.

Definition append_path_segments (buffer path : str) : str :=
  match segments_from_path path with
  | [] => buffer ++ lit "index"
  | segments => foldl append_segment buffer segments
  end.

Definition append_suffix (buffer method : str) : str :=
  (if bool_decide (buffer = []) then buffer else buffer ++ lit ".") ++ to_ascii_lowercase method.

Definition route_relative_path (path request_path : str) : str :=
  match strip_prefix path request_path with
  | None => request_path
  | Some [] => lit "/"
  | Some remainder => if starts_with (lit "/") remainder then remainder else lit "/" ++ remainder
  end.

(** [protocol::split_http_target] *)
Definition split_http_target (target : str) : str * option str :=
  match list_find (λ c, c = 0x3F) target with
  | Some (index, _) =>
      let rest := drop index target in
      (take index target, if 1 <? str_len rest then Some (drop 1 rest) else None)
  | None => (target, None)
  end.

(** ** A route *)
Section route.
Context `{UC : !UnicodeCase}.

Definition path_octet (path : str) (i : Z) : option Z := byte_at (utf8_encode path) i.

Definition matches_path (route : HttpRouteRuntime) (path : str) : bool :=
  match route_match_kind route with
  | MatchExact => bool_decide (path = route_path route)
  | MatchPrefix =>
      if bool_decide (route_path route = lit "/") then true
      else if negb (starts_with (route_path route) path) then false
      else if str_len path =? str_len (route_path route) then true
      else
        let boundary := default 0x2F (last (utf8_encode (route_path route))) in
        if boundary =? 0x2F then true
        else bool_decide (path_octet path (str_len (route_path route)) = Some 0x2F)
  end.

Definition allows_protocol (route : HttpRouteRuntime) (protocol : str) : bool :=
  if bool_decide (route_protocols route = []) then true else bool_decide (protocol ∈ route_protocols route).

Definition target_path (route : HttpRouteRuntime) (target : HttpRouteTarget) (request_path : str) : str :=
  match route_match_kind route, target with
  | MatchPrefix, Namespace _ _ _ =>
      if bool_decide (route_path route = lit "/") then request_path
      else route_relative_path (route_path route) request_path
  | _, _ => request_path
  end.

Definition identifier_of (namespace target_path method : str) (append_method_suffix : bool) : str :=
  let identifier := append_path_segments namespace target_path in
  if append_method_suffix then append_suffix identifier method else identifier.

Definition materialise (target : HttpRouteTarget) (auth : HttpRouteTransportAuthRuntime)
    (target_path : str) (query : option str) (method protocol request_path : str) : HttpRouteResolution :=
  match target with
  | Translation realm procedure => mkResolution realm procedure method protocol request_path query auth
  | ReservedRealm namespace suffix =>
      let prefix := match namespace with Some value => normalise_namespace value | None => [] end in
      mkResolution RESERVED_HTTP_REALM (identifier_of prefix target_path method suffix)
        method protocol request_path query auth
  | Namespace realm namespace suffix =>
      mkResolution realm (identifier_of (normalise_namespace namespace) target_path method suffix)
        method protocol request_path query auth
  end.

(** [methods.get(..).or_else(|| default)] *)
Definition route_target (route : HttpRouteRuntime) (method_key : str) : option HttpRouteTarget :=
  match route_methods route !! method_key with Some target => Some target | None => route_default route end.

Definition resolve_for_method (route : HttpRouteRuntime) (path : str) (query : option str) (method protocol : str) :
    option HttpRouteResolution :=
  let method_key := to_uppercase (trim method) in
  target ← route_target route method_key;
  Some (materialise target (route_transport_auth route) (target_path route target path) query method_key protocol path).

Definition allowed_methods (route : HttpRouteRuntime) : list str := sort_strs (map_to_list (route_methods route)).*1.
Definition allowed_protocols (route : HttpRouteRuntime) : list str := sort_strs (route_protocols route).

(** ** All routes

    The best resolution with its priority, and the methods and protocols that
    matching routes would have allowed. *)
Record Search : Type := mkSearch {
  best : option (Z * HttpRouteResolution);
  method_not_allowed : option (gset str);
  protocol_not_allowed : option (gset str);
}.

Definition insert_all (set : option (gset str)) (l : list str) : option (gset str) :=
  Some (foldl (λ set s, {[ s ]} ∪ set) (default ∅ set) l).

Definition search_route (path : str) (query : option str) (method protocol : str)
    (search : Search) (route : HttpRouteRuntime) : Search :=
  let request_protocol := normalise_http_route_protocol protocol in
  if negb (matches_path route path) then search
  else if negb (allows_protocol route request_protocol) then
    mkSearch (best search) (method_not_allowed search)
      (insert_all (protocol_not_allowed search) (allowed_protocols route))
  else
    match resolve_for_method route path query method protocol with
    | Some resolution =>
        let priority := str_len (route_path route) in
        let replace := match best search with Some (len, _) => len <? priority | None => true end in
        if replace
        then mkSearch (Some (priority, resolution)) (method_not_allowed search) (protocol_not_allowed search)
        else search
    | None =>
        mkSearch (best search) (insert_all (method_not_allowed search) (allowed_methods route))
          (protocol_not_allowed search)
    end.

Definition found (search : Search) : HttpRouteMatch :=
  match best search, method_not_allowed search, protocol_not_allowed search with
  | Some (_, resolution), _, _ => Resolved resolution
  | None, Some allowed, _ => MethodNotAllowed (sort_strs (elements allowed))
  | None, None, Some allowed => ProtocolNotAllowed (sort_strs (elements allowed))
  | None, None, None => NotFound
  end.

Definition match_http_route {Json} (config : EndpointRuntimeConfig Json)
    (path : str) (query : option str) (method protocol : str) : HttpRouteMatch :=
  found (foldl (search_route path query method protocol) (mkSearch None None None) (er_http_routes config)).
End route.

(** ** Which route answers *)
Section search_spec.
Context `{UC : !UnicodeCase} (path : str) (query : option str) (method protocol : str).

Definition candidate (r : HttpRouteRuntime) : Prop :=
  matches_path r path = true ∧ allows_protocol r (normalise_http_route_protocol protocol) = true.
Definition excluded (r : HttpRouteRuntime) : Prop :=
  matches_path r path = true ∧ allows_protocol r (normalise_http_route_protocol protocol) = false.
Notation resolve r := (resolve_for_method r path query method protocol).

(** The routes answer with [res], of the path length [n]: some route resolves
    to it, none before it has as long a path, and none after it a longer one. *)
Definition answers (routes : list HttpRouteRuntime) (n : Z) (res : HttpRouteResolution) : Prop :=
  ∃ l1 r l2, routes = l1 ++ r :: l2 ∧ candidate r ∧ resolve r = Some res ∧ n = str_len (route_path r) ∧
    (∀ r', r' ∈ l1 → candidate r' → is_Some (resolve r') → str_len (route_path r') < n) ∧
    (∀ r', r' ∈ l2 → candidate r' → is_Some (resolve r') → str_len (route_path r') ≤ n).

(** The collected names are those of the routes in [P], of which there are some. *)
Definition collects (routes : list HttpRouteRuntime) (P : HttpRouteRuntime → Prop)
    (names : HttpRouteRuntime → str → Prop) (set : option (gset str)) : Prop :=
  match set with
  | None => ∀ r, r ∈ routes → ¬ P r
  | Some set => (∃ r, r ∈ routes ∧ P r) ∧ ∀ s, s ∈ set ↔ ∃ r, r ∈ routes ∧ P r ∧ names r s
  end.

Record search_spec (routes : list HttpRouteRuntime) (s : Search) : Prop := {
  ss_best : match best s with
            | None => ∀ r, r ∈ routes → candidate r → resolve r = None
            | Some (n, res) => answers routes n res
            end;
  ss_methods : collects routes (λ r, candidate r ∧ resolve r = None)
    (λ r m, is_Some (route_methods r !! m)) (method_not_allowed s);
  ss_protocols : collects routes excluded (λ r p, p ∈ route_protocols r) (protocol_not_allowed s);
}.

Lemma collects_skip routes r P names set : ¬ P r → collects routes P names set → collects (routes ++ [r]) P names set.
Proof.
  intros Hr. unfold collects. destruct set as [set|].
  - intros [(r' & Hin & HP) Hs]. split; [exists r'; by rewrite elem_of_app; auto|].
    intros s. rewrite Hs. setoid_rewrite elem_of_app. setoid_rewrite list_elem_of_singleton. naive_solver.
  - intros H r'. rewrite elem_of_app, list_elem_of_singleton. naive_solver.
Qed.

Lemma elem_of_insert_all (set : gset str) l s : s ∈ foldl (λ set s, {[ s ]} ∪ set) set l ↔ s ∈ set ∨ s ∈ l.
Proof.
  revert set. induction l as [|x l IH]; intros set; simpl; [pose proof (not_elem_of_nil s); tauto|].
  rewrite IH, elem_of_union, elem_of_singleton, elem_of_cons. tauto.
Qed.

Lemma collects_add routes r (P : HttpRouteRuntime → Prop) names set l : P r → (∀ s, s ∈ l ↔ names r s) →
  collects routes P names set → collects (routes ++ [r]) P names (insert_all set l).
Proof.
  intros Hr Hl H. unfold collects, insert_all. split; [exists r; by rewrite elem_of_app, list_elem_of_singleton; auto|].
  intros s. rewrite elem_of_insert_all, Hl. setoid_rewrite elem_of_app. setoid_rewrite list_elem_of_singleton.
  assert (s ∈ default ∅ set ↔ ∃ r, r ∈ routes ∧ P r ∧ names r s) as ->; [|naive_solver].
  unfold collects in H. destruct set as [set|]; simpl; [apply H|].
  split; [by intros ?%elem_of_empty|]. intros (r' & Hin & HP & _). by destruct (H r').
Qed.

Lemma answers_skip routes r n res : (candidate r → is_Some (resolve r) → str_len (route_path r) ≤ n) →
  answers routes n res → answers (routes ++ [r]) n res.
Proof.
  intros Hr (l1 & r0 & l2 & -> & Hc & Hres & Hn & H1 & H2). exists l1, r0, (l2 ++ [r]).
  split_and!; try done; [by rewrite <-app_assoc|].
  intros r'. rewrite elem_of_app, list_elem_of_singleton. intros [?| ->]; auto.
Qed.

Lemma answers_last routes r res : candidate r → resolve r = Some res →
  (∀ r', r' ∈ routes → candidate r' → is_Some (resolve r') → str_len (route_path r') < str_len (route_path r)) →
  answers (routes ++ [r]) (str_len (route_path r)) res.
Proof. intros Hc Hr H. exists routes, r, []. split_and!; try done. by intros ? ?%not_elem_of_nil. Qed.

Lemma answers_longest routes n res r : answers routes n res → r ∈ routes → candidate r → is_Some (resolve r) →
  str_len (route_path r) ≤ n.
Proof.
  intros (l1 & r0 & l2 & -> & Hc & Hres & -> & H1 & H2) [Hin|[->|Hin]%elem_of_cons]%elem_of_app Hcr Hs.
  - specialize (H1 r Hin Hcr Hs). lia.
  - done.
  - by apply H2.
Qed.

Lemma elem_of_allowed_methods r m : m ∈ allowed_methods r ↔ is_Some (route_methods r !! m).
Proof.
  unfold allowed_methods. rewrite elem_of_sort_strs, list_elem_of_fmap. split.
  - intros ([k t] & -> & Hin%elem_of_map_to_list). by exists t.
  - intros [t Ht]. exists (m, t). by rewrite elem_of_map_to_list.
Qed.

Lemma search_route_spec routes s r : search_spec routes s →
  search_spec (routes ++ [r]) (search_route path query method protocol s r).
Proof.
  intros [Hb Hm Hp]. unfold search_route.
  assert (∀ s', best s' = best s → (candidate r → resolve r = None) →
    match best s' with
    | None => ∀ r', r' ∈ routes ++ [r] → candidate r' → resolve r' = None
    | Some (n, res) => answers (routes ++ [r]) n res
    end) as Hkeep.
  { intros s' -> Hr. destruct (best s) as [[n res]|].
    - apply answers_skip; [|done]. intros Hc [? Hs]. by rewrite Hr in Hs.
    - intros r'. rewrite elem_of_app, list_elem_of_singleton. intros [?| ->]; auto. }
  destruct (matches_path r path) eqn:Em; cbn [negb].
  2: { assert (¬ candidate r ∧ ¬ excluded r) as [Hc He] by (unfold candidate, excluded; rewrite Em; by split; intros [??]).
       split; [by apply Hkeep|apply collects_skip; tauto..]. }
  destruct (allows_protocol r _) eqn:Ea; cbn [negb].
  2: { assert (¬ candidate r ∧ excluded r) as [Hc He] by (unfold candidate, excluded; rewrite Em, Ea; split; [by intros [??]|done]).
       split; simpl; [by apply Hkeep|apply collects_skip; tauto|]. apply collects_add; [done| |done].
       intros q. unfold allowed_protocols. by rewrite elem_of_sort_strs. }
  assert (candidate r ∧ ¬ excluded r) as [Hc He] by (unfold candidate, excluded; rewrite Em, Ea; split; [done|by intros [??]]).
  destruct (resolve r) as [res|] eqn:Er.
  2: { split; simpl; [by apply Hkeep| |by apply collects_skip].
       apply collects_add; [done|apply elem_of_allowed_methods|done]. }
  assert (collects (routes ++ [r]) (λ r, candidate r ∧ resolve r = None)
    (λ r m, is_Some (route_methods r !! m)) (method_not_allowed s)) as Hm' by (apply collects_skip; [intros [_ Hn]; congruence|done]).
  assert (collects (routes ++ [r]) excluded (λ r p, p ∈ route_protocols r) (protocol_not_allowed s)) as Hp'
    by (by apply collects_skip).
  destruct (best s) as [[n res0]|] eqn:Eb.
  - destruct (Z.ltb_spec n (str_len (route_path r))).
    + split; [|done..]. simpl. apply answers_last; [done..|]. intros r' Hin Hc' Hs'.
      pose proof (answers_longest _ _ _ _ Hb Hin Hc' Hs'). lia.
    + split; [|done..]. rewrite Eb. by apply answers_skip.
  - split; [|done..]. simpl. apply answers_last; [done..|]. intros r' Hin Hc' [? Hs']. by rewrite (Hb r' Hin Hc') in Hs'.
Qed.

Lemma search_all routes : search_spec routes (foldl (search_route path query method protocol) (mkSearch None None None) routes).
Proof.
  induction routes as [|r routes IH] using rev_ind; simpl.
  - by split; intros ? ?%not_elem_of_nil.
  - rewrite foldl_app. simpl. by apply search_route_spec.
Qed.

(** A list of names without repetition, in their order. *)
Definition ordered_names (l : list str) : Prop := NoDup l ∧ StronglySorted str_le l.

Lemma sort_elements_ordered (set : gset str) : ordered_names (sort_strs (elements set)).
Proof. split; [rewrite sort_strs_Permutation; apply NoDup_elements|apply sort_strs_sorted]. Qed.

Lemma elem_of_sort_elements (set : gset str) s : s ∈ sort_strs (elements set) ↔ s ∈ set.
Proof. by rewrite elem_of_sort_strs, elem_of_elements. Qed.

(** C29: a request is answered by the most specific route: among the routes that
    match its path, admit its protocol and have a target for its method, one
    with the longest path, the first of them; with the routes of a checked
    configuration no earlier route could answer.  Without one the answer is,
    in this order, the sorted methods of the routes that match and admit the
    protocol, the sorted protocols of the routes that match, or that none
    matches. *)
Theorem match_http_route_exact {Json} (config : EndpointRuntimeConfig Json) :
  let routes := er_http_routes config in
  match match_http_route config path query method protocol with
  | Resolved res => ∃ n, answers routes n res ∧
      (StronglySorted (λ r s, str_len (route_path s) ≤ str_len (route_path r)) routes →
       ∃ l1 r l2, routes = l1 ++ r :: l2 ∧ candidate r ∧ resolve r = Some res ∧
         ∀ r', r' ∈ l1 → candidate r' → resolve r' = None)
  | MethodNotAllowed ms =>
      (∃ r, r ∈ routes ∧ candidate r) ∧ (∀ r, r ∈ routes → candidate r → resolve r = None) ∧ ordered_names ms ∧
      ∀ m, m ∈ ms ↔ ∃ r, r ∈ routes ∧ candidate r ∧ is_Some (route_methods r !! m)
  | ProtocolNotAllowed ps =>
      (∃ r, r ∈ routes ∧ matches_path r path = true) ∧ (∀ r, r ∈ routes → ¬ candidate r) ∧ ordered_names ps ∧
      ∀ p, p ∈ ps ↔ ∃ r, r ∈ routes ∧ matches_path r path = true ∧ p ∈ route_protocols r
  | NotFound => ∀ r, r ∈ routes → matches_path r path = false
  end.
Proof.
  intros routes. unfold match_http_route, found. fold routes.
  destruct (search_all routes) as [Hb Hm Hp]. destruct (foldl _ _ routes) as [b m p]. simpl in *.
  destruct b as [[n res]|].
  { exists n. split; [done|]. intros Hsort. destruct Hb as (l1 & r & l2 & Hl & Hc & Hr & Hn & H1 & _).
    exists l1, r, l2. split_and!; try done. intros r' Hin Hc'. apply eq_None_not_Some. intros Hs.
    specialize (H1 r' Hin Hc' Hs). rewrite Hl in Hsort.
    pose proof (StronglySorted_app_1_elem_of _ _ _ _ _ Hsort Hin ltac:(by left)) as Hle. simpl in Hle. lia. }
  destruct m as [set|]; simpl in Hm.
  { destruct Hm as [(r & Hin & Hc & _) Hset]. split_and!; [by exists r|done|apply sort_elements_ordered|].
    intros m. rewrite elem_of_sort_elements, Hset. split; [naive_solver|].
    intros (r' & Hin' & Hc' & Hs). exists r'. split_and!; auto. }
  assert (∀ r, r ∈ routes → ¬ candidate r) as Hnone by (intros r Hin Hc; by apply (Hm r Hin); auto).
  assert (∀ r, r ∈ routes → matches_path r path = true → excluded r) as Hex.
  { intros r Hin Hmr. split; [done|]. destruct (allows_protocol _ _) eqn:Ea; [|done]. by destruct (Hnone r Hin). }
  destruct p as [set|]; simpl in Hp.
  - destruct Hp as [(r & Hin & [Hmr _]) Hset]. split_and!; [by exists r|done|apply sort_elements_ordered|].
    intros q. rewrite elem_of_sort_elements, Hset. unfold excluded in *. naive_solver.
  - intros r Hin. destruct (matches_path r path) eqn:E; [|done]. by destruct (Hp r Hin (Hex r Hin E)).
Qed.
End search_spec.

(** ** The procedure of a request *)
Definition name_char (c : Z) : bool := is_ascii_lower c || is_ascii_digit c || (c =? 0x5F).
Definition name_word (w : str) : Prop := w ≠ [] ∧ Forall (λ c, name_char c = true) w.

Lemma sanitise_char_name c : name_char (sanitise_char c) = true.
Proof.
  unfold sanitise_char, name_char, is_ascii_alphanumeric, ascii_lower.
  destruct (is_ascii_upper c) eqn:U; simpl.
  - unfold is_ascii_upper, is_ascii_lower in *. lia.
  - destruct (is_ascii_lower c) eqn:L; simpl; [by rewrite L|].
    destruct (is_ascii_digit c) eqn:D; simpl; [by rewrite D, orb_true_r|done].
Qed.

Lemma index_word : name_word (lit "index").
Proof. split; [done|]. by repeat constructor. Qed.

Lemma sanitise_segment_word w : name_word (sanitise_segment w).
Proof.
  unfold sanitise_segment. destruct w as [|c w]; [apply index_word|]. simpl. split; [done|].
  constructor; [apply sanitise_char_name|]. rewrite Forall_fmap. apply Forall_true. intros. apply sanitise_char_name.
Qed.

(** The words of a path: its segments, or [index] for the root. *)
Definition path_words (path : str) : list str :=
  match segments_from_path path with [] => [lit "index"] | segments => segments end.

Lemma path_words_ok path : path_words path ≠ [] ∧ Forall name_word (path_words path).
Proof.
  unfold path_words. destruct (segments_from_path path) as [|w ws] eqn:E.
  - split; [done|]. constructor; [apply index_word|constructor].
  - split; [done|]. rewrite <-E. unfold segments_from_path. case_bool_decide; [constructor|].
    rewrite Forall_fmap. apply Forall_true. intros. apply sanitise_segment_word.
Qed.

Lemma name_word_no_dot buffer w : name_word w → ends_with_dot (buffer ++ w) = false ∧ buffer ++ w ≠ [].
Proof.
  intros [Hne Hw]. destruct w as [|c w] using rev_ind; [done|]. split; [|by destruct buffer, w].
  unfold ends_with_dot. rewrite app_assoc, last_snoc. apply bool_decide_eq_false. intros [= ->].
  apply Forall_app in Hw as [_ Hc]. by inversion Hc.
Qed.

Lemma ends_with_dot_app buffer : ends_with_dot (buffer ++ lit ".") = true.
Proof. unfold ends_with_dot. change (lit ".") with [0x2E]. by rewrite last_snoc. Qed.

Lemma append_segments_join buffer w ws : (buffer = [] ∨ ends_with_dot buffer = true) → Forall name_word (w :: ws) →
  foldl append_segment buffer (w :: ws) = buffer ++ join (lit ".") (w :: ws).
Proof.
  intros Hb Hall. apply Forall_cons in Hall as [Hw Hws]. cbn [foldl].
  assert (append_segment buffer w = buffer ++ w) as ->.
  { unfold append_segment. destruct Hb as [-> | ->]; [done|]. by rewrite andb_false_r. }
  revert buffer w Hb Hw. induction Hws as [|v ws Hv Hws IH]; intros buffer w Hb Hw; [done|].
  cbn [foldl]. destruct (name_word_no_dot buffer w Hw) as [Hd Hne].
  assert (append_segment (buffer ++ w) v = (buffer ++ w ++ lit ".") ++ v) as ->.
  { unfold append_segment. rewrite Hd, bool_decide_eq_false_2 by done. simpl. by rewrite <-!app_assoc. }
  rewrite IH; [|right; rewrite app_assoc; apply ends_with_dot_app|done].
  cbn [join]. by rewrite <-!app_assoc.
Qed.

Lemma normalise_namespace_ends namespace :
  normalise_namespace namespace = [] ∨ ends_with_dot (normalise_namespace namespace) = true.
Proof.
  unfold normalise_namespace. case_bool_decide; [by left|]. right. apply ends_with_dot_app.
Qed.

Lemma identifier_of_exact buffer path method suffix : (buffer = [] ∨ ends_with_dot buffer = true) →
  identifier_of buffer path method suffix =
  buffer ++ join (lit ".") (path_words path) ++ (if suffix then lit "." ++ to_ascii_lowercase method else []).
Proof.
  intros Hb. unfold identifier_of. destruct (path_words_ok path) as [Hne Hw].
  assert (append_path_segments buffer path = buffer ++ join (lit ".") (path_words path)) as ->.
  { unfold append_path_segments, path_words in *. destruct (segments_from_path path); [done|]. by apply append_segments_join. }
  destruct suffix; [|by rewrite app_nil_r]. unfold append_suffix.
  assert (buffer ++ join (lit ".") (path_words path) ≠ []) as Hn.
  { destruct (path_words path) as [|w ws]; [done|]. apply Forall_cons in Hw as [[Hw _] _].
    destruct w; [done|]. destruct ws; by destruct buffer. }
  rewrite bool_decide_eq_false_2 by done. by rewrite <-!app_assoc.
Qed.

(** the procedure that a namespace or reserved target calls lies under its
    namespace, whatever the request's path: after the namespace and its dot come
    the words of the path, at least one, each a nonempty run of lower-case ASCII
    letters, digits and underscores, joined by dots, and the lower-case method
    when the target asks for it.  A translation calls its own procedure.  The
    realm is the target's, and the method, path, query and transport
    requirements are handed on. *)
Theorem route_procedure_contained target auth path query method protocol request_path :
  let res := materialise target auth path query method protocol request_path in
  res_method res = method ∧ res_path res = request_path ∧ res_query res = query ∧ res_transport_auth res = auth ∧
  (path_words path ≠ [] ∧ Forall name_word (path_words path)) ∧
  let under prefix suffix :=
    res_procedure res =
      prefix ++ join (lit ".") (path_words path) ++ (if (suffix : bool) then lit "." ++ to_ascii_lowercase method else []) in
  match target with
  | Translation realm procedure => res_realm res = realm ∧ res_procedure res = procedure
  | ReservedRealm namespace suffix =>
      res_realm res = RESERVED_HTTP_REALM ∧ under (default [] (normalise_namespace <$> namespace)) suffix
  | Namespace realm namespace suffix => res_realm res = realm ∧ under (normalise_namespace namespace) suffix
  end.
Proof.
  destruct (path_words_ok path). destruct target as [realm procedure|[namespace|] suffix|realm namespace suffix]; simpl;
    split_and!; try done; apply identifier_of_exact; try apply normalise_namespace_ends; by left.
Qed.

(** ** The target of a request *)

(** a request target splits at its first question mark: the path has none,
    and the query is what follows, if there is anything. *)
Theorem split_http_target_exact target :
  let '(path, query) := split_http_target target in
  0x3F ∉ path ∧
  match query with
  | Some query => query ≠ [] ∧ target = path ++ 0x3F :: query
  | None => target = path ∨ target = path ++ [0x3F]
  end.
Proof.
  unfold split_http_target. destruct (list_find _ target) as [[i c]|] eqn:E.
  - apply list_find_Some in E as (Hi & -> & Hfirst).
    assert (0x3F ∉ take i target) as Hp.
    { intros Hin. apply list_elem_of_lookup in Hin as [j Hj]. apply lookup_take_Some in Hj as [Hj Hlt].
      by apply (Hfirst j 0x3F Hj Hlt). }
    pose proof (take_drop_middle _ _ _ Hi) as Hmid. rewrite (drop_S _ _ _ Hi).
    assert (∀ l, 1 < str_len (0x3F :: l) ↔ l ≠ []) as Hlen.
    { intros [|c l]; [by vm_compute|]. split; [done|intros _]. unfold str_len, utf8_encode. csimpl.
      rewrite zlen_cons, zlen_app. pose proof (zlen_nonneg (l ≫= utf8_char)).
      assert (1 ≤ zlen (utf8_char c)) by (unfold utf8_char; repeat case_match; unfold zlen; simpl; lia). lia. }
    destruct (Z.ltb_spec 1 (str_len (0x3F :: drop (S i) target))) as [Hl|Hl]; (split; [done|]).
    + apply Hlen in Hl. by change (drop 1 (0x3F :: drop (S i) target)) with (drop (S i) target).
    + right. destruct (drop (S i) target) as [|c rest] eqn:Ed; [done|]. exfalso.
      assert (1 < str_len (0x3F :: c :: rest)) by (by apply Hlen). lia.
  - split; [|by left]. intros Hin. apply list_find_None in E. rewrite Forall_forall in E. by apply (E _ Hin).
Qed.

(** ** Examples *)
#[local] Existing Instance ascii_case.

Definition demo_runtime : EndpointRuntimeConfig unit := runtime_config demo_endpoint.

Definition demo_match (path method protocol : string) : HttpRouteMatch :=
  match_http_route demo_runtime (lit path) None (lit method) (lit protocol).

(** The path route takes its method and versions; the root takes what is left. *)
Example demo_matches :
  (λ m, match m with Resolved r => Some (res_realm r, res_procedure r) | _ => None end) <$>
    [demo_match "/api/Users/A.b" "GET" "http/1.1"; demo_match "/api" "GET" "h2"; demo_match "/api/x" "PUT" "h2";
     demo_match "/apis" "GET" "http/1.0"; demo_match "/" "GET" "http/1.1"]%string
  = [Some (lit "app", lit "com.app.users.a_b.get"); Some (lit "app", lit "com.app.index.get");
     Some (lit "router.http", lit "api.x.put"); Some (lit "router.http", lit "apis.get");
     Some (lit "router.http", lit "index.get")].
Proof. vm_compute. reflexivity. Qed.

Lemma match_http_route_exact_witness :
  ∃ res l1 r l2, demo_match "/api/x" "GET" "http/1.1" = Resolved res ∧ er_http_routes demo_runtime = l1 ++ r :: l2 ∧
    resolve_for_method r (lit "/api/x") None (lit "GET") (lit "http/1.1") = Some res ∧
    ∀ r', r' ∈ l1 → candidate (lit "/api/x") (lit "http/1.1") r' →
      resolve_for_method r' (lit "/api/x") None (lit "GET") (lit "http/1.1") = None.
Proof.
  pose proof (match_http_route_exact (lit "/api/x") None (lit "GET") (lit "http/1.1") demo_runtime) as H.
  unfold demo_match. cbv zeta in H.
  destruct (match_http_route _ _ _ _ _) as [| | |res] eqn:E; [vm_compute in E; discriminate E..|].
  destruct H as (n & _ & H).
  destruct H as (l1 & r & l2 & Hl & _ & Hr & Hfirst); [apply sort_by_sorted|].
  exists res, l1, r, l2. exact (conj eq_refl (conj Hl (conj Hr Hfirst))).
Defined.
