(* ===== verification/HttpAuth.v ===== *)
(** * Transport requirements of HTTP routes

    What [ct_core/src/lib.rs] asks of the connection and the headers of a
    request before its route is called: the check over text headers (HTTP/1) and
    the one over octets (HTTP/2 and HTTP/3). *)
From S2P Require Import Prelude Bytes Text TextOps RouterConfig.

Inductive HttpTransportAuthFailure : Type := BearerRequired | TlsRequired | MutualTlsRequired.

(** The text up to an octet and from it on, if that is between two characters:
    [get(..n)] and the slice [[n..]]. *)
Fixpoint split_octets (n : Z) (s : str) : option (str * str) :=
  if n =? 0 then Some ([], s)
  else
    match s with
    | [] => None
    | c :: s =>
        let width := zlen (utf8_char c) in
        if n <? width then None else '(prefix, rest) ← split_octets (n - width) s; Some (c :: prefix, rest)
    end.

(** A header value with a bearer token: the guards before the slice show that it
    is in bounds. *)
Definition is_bearer_value (value : str) : bool :=
  (7 <? str_len value) &&
  match split_octets 7 value with
  | Some (prefix, rest) => eq_ignore_ascii_case prefix (lit "bearer ") && negb (bool_decide (trim rest = []))
  | None => false
  end.

Definition has_non_empty_header_string (headers : list (str * str)) (target : str) : bool :=
  existsb (λ h, eq_ignore_ascii_case h.1 target && negb (bool_decide (trim h.2 = []))) headers.

Definition has_bearer_header_string (headers : list (str * str)) : bool :=
  existsb (λ h, eq_ignore_ascii_case h.1 (lit "authorization") && is_bearer_value h.2) headers.

Definition is_cors_preflight_string (method : str) (headers : list (str * str)) : bool :=
  eq_ignore_ascii_case method (lit "OPTIONS") &&
  has_non_empty_header_string headers (lit "origin") &&
  has_non_empty_header_string headers (lit "access-control-request-method").

(** [from_utf8(octets).map(f).unwrap_or(false)] *)
Definition text_and (octets : list Z) (f : str → bool) : bool :=
  match utf8_decode octets with Some s => f s | None => false end.

Definition has_non_empty_header_bytes (headers : list (list Z * list Z)) (target : list Z) : bool :=
  let target := default [] (utf8_decode target) in
  existsb (λ h, text_and h.1 (λ name, eq_ignore_ascii_case name target) &&
                text_and h.2 (λ value, negb (bool_decide (trim value = [])))) headers.

Definition has_bearer_header_bytes (headers : list (list Z * list Z)) : bool :=
  existsb (λ h, text_and h.1 (λ name, eq_ignore_ascii_case name (lit "authorization")) &&
                text_and h.2 is_bearer_value) headers.

Definition is_cors_preflight_bytes (method : str) (headers : list (list Z * list Z)) : bool :=
  eq_ignore_ascii_case method (lit "OPTIONS") &&
  has_non_empty_header_bytes headers (lit "origin") &&
  has_non_empty_header_bytes headers (lit "access-control-request-method").

Section evaluate.
Context {Json : Type}.
Implicit Type config : EndpointRuntimeConfig Json.

Definition requires_client_certificate config : bool :=
  match er_client_auth config with
  | Some auth => bool_decide (auth_mode auth = AuthRequired)
  | None => false
  end.

Definition evaluate_http_transport_auth_string_headers (requirements : HttpRouteTransportAuthRuntime) config
    (method : str) (headers : list (str * str)) : option HttpTransportAuthFailure :=
  if require_mtls requirements && negb (requires_client_certificate config) then Some MutualTlsRequired
  else if require_tls requirements && bool_decide (er_tls_mode config = TlsDisabled) then Some TlsRequired
  else
    let bearerless_preflight :=
      allow_unauthenticated_cors_preflight requirements && is_cors_preflight_string method headers in
    if require_bearer requirements && negb bearerless_preflight && negb (has_bearer_header_string headers)
    then Some BearerRequired else None.

Definition evaluate_http_transport_auth_bytes_headers (requirements : HttpRouteTransportAuthRuntime) config
    (method : str) (headers : list (list Z * list Z)) : option HttpTransportAuthFailure :=
  if require_mtls requirements && negb (requires_client_certificate config) then Some MutualTlsRequired
  else if require_tls requirements && bool_decide (er_tls_mode config = TlsDisabled) then Some TlsRequired
  else
    let bearerless_preflight :=
      allow_unauthenticated_cors_preflight requirements && is_cors_preflight_bytes method headers in
    if require_bearer requirements && negb bearerless_preflight && negb (has_bearer_header_bytes headers)
    then Some BearerRequired else None.
End evaluate.

(** ** The two checks agree *)

(** The text headers among octet headers: those of which both parts are text. *)
Definition text_headers (headers : list (list Z * list Z)) : list (str * str) :=
  omap (λ h, name ← utf8_decode h.1; value ← utf8_decode h.2; Some (name, value)) headers.

Lemma existsb_text (f g : str → bool) headers :
  existsb (λ h : list Z * list Z, text_and h.1 f && text_and h.2 g) headers =
  existsb (λ h, f h.1 && g h.2) (text_headers headers).
Proof.
  unfold text_headers, text_and. induction headers as [|[n v] l IH]; [done|]. csimpl. rewrite IH.
  destruct (utf8_decode n) as [name|]; [|done]. simpl. destruct (utf8_decode v); simpl; [done|].
  by rewrite andb_false_r.
Qed.

Lemma evaluate_text {Json} (requirements : HttpRouteTransportAuthRuntime) (config : EndpointRuntimeConfig Json)
    method headers :
  evaluate_http_transport_auth_bytes_headers requirements config method headers =
  evaluate_http_transport_auth_string_headers requirements config method (text_headers headers).
Proof.
  unfold evaluate_http_transport_auth_bytes_headers, evaluate_http_transport_auth_string_headers.
  unfold is_cors_preflight_bytes, is_cors_preflight_string, has_non_empty_header_bytes, has_bearer_header_bytes.
  by rewrite !existsb_text.
Qed.

(** ** What passes *)
Definition carries_bearer (headers : list (str * str)) : Prop :=
  ∃ name scheme token, (name, scheme ++ token) ∈ headers ∧
    eq_ignore_ascii_case name (lit "authorization") = true ∧
    eq_ignore_ascii_case scheme (lit "bearer ") = true ∧ trim token ≠ [].

Definition carries (headers : list (str * str)) (name : string) : Prop :=
  ∃ n value, (n, value) ∈ headers ∧ eq_ignore_ascii_case n (lit name) = true ∧ trim value ≠ [].

Definition cors_preflight (method : str) (headers : list (str * str)) : Prop :=
  eq_ignore_ascii_case method (lit "OPTIONS") = true ∧ carries headers "origin" ∧
  carries headers "access-control-request-method".

Lemma split_octets_Some n s prefix rest : 0 ≤ n → split_octets n s = Some (prefix, rest) ↔
  s = prefix ++ rest ∧ str_len prefix = n.
Proof.
  assert (∀ c, 1 ≤ zlen (utf8_char c)) as Hw by (intros c; unfold utf8_char; repeat case_match; unfold zlen; simpl; lia).
  assert (∀ c p, str_len (c :: p) = zlen (utf8_char c) + str_len p) as Hc
    by (intros c p; unfold str_len, utf8_encode; csimpl; by rewrite zlen_app).
  assert (∀ p, 0 ≤ str_len p) as Hp by (intros p; apply zlen_nonneg).
  revert n prefix. induction s as [|c s IH]; intros n prefix Hn; simpl.
  - destruct (Z.eqb_spec n 0) as [->|Hne].
    + split; [by intros [= <- <-]|]. intros [H _]. symmetry in H. apply app_nil in H as [-> ->]. done.
    + split; [done|]. intros [H Hl]. symmetry in H. apply app_nil in H as [-> ->]. by vm_compute in Hl; lia.
  - destruct (Z.eqb_spec n 0) as [->|Hne].
    + split; [by intros [= <- <-]|]. intros [H Hl]. destruct prefix as [|a prefix]; [by simpl in H; subst|].
      rewrite Hc in Hl. pose proof (Hw a). pose proof (Hp prefix). lia.
    + destruct (Z.ltb_spec n (zlen (utf8_char c))) as [Hlt|Hge].
      * split; [done|]. intros [H Hl]. destruct prefix as [|a prefix]; [by vm_compute in Hl; lia|].
        injection H as <- _. rewrite Hc in Hl. pose proof (Hp prefix). lia.
      * split.
        -- intros ([p r] & Hs & [= <- <-])%bind_Some. apply IH in Hs as [-> Hl]; [|lia]. rewrite Hc. split; [done|lia].
        -- intros [H Hl]. destruct prefix as [|a prefix]; [by vm_compute in Hl; lia|]. injection H as <- H.
           rewrite Hc in Hl. apply bind_Some. exists (prefix, rest). split; [apply IH; [lia|split; [done|lia]]|done].
Qed.

Lemma folded_len s t : is_ascii t → to_ascii_lowercase s = t → str_len s = zlen t.
Proof.
  intros Ht <-. unfold to_ascii_lowercase in *. rewrite zlen_fmap. unfold is_ascii in Ht. rewrite Forall_fmap in Ht.
  induction Ht as [|c s Hc _ IH]; [done|]. unfold str_len, utf8_encode in *. csimpl. rewrite zlen_app, zlen_cons, IH.
  assert (c < 0x80) as Hlt by (simpl in Hc; unfold ascii_lower, is_ascii_upper in Hc; destruct (_ && _); lia).
  unfold utf8_char. destruct (Z.ltb_spec c 0x80); [|lia]. done.
Qed.

Lemma is_bearer_value_exact value : is_bearer_value value = true ↔
  ∃ scheme token, value = scheme ++ token ∧ eq_ignore_ascii_case scheme (lit "bearer ") = true ∧ trim token ≠ [].
Proof.
  unfold is_bearer_value. split.
  - intros [_ H]%andb_true_iff. destruct (split_octets 7 value) as [[prefix rest]|] eqn:E; [|done].
    apply split_octets_Some in E as [-> _]; [|lia]. apply andb_true_iff in H as [H1 H2].
    apply negb_true_iff, bool_decide_eq_false in H2. by exists prefix, rest.
  - intros (scheme & token & -> & Hs & Ht).
    assert (str_len scheme = 7) as Hl.
    { apply eq_ignore_ascii_case_eq in Hs. rewrite (folded_len _ (lit "bearer ")); [done| |exact Hs]. by repeat constructor. }
    assert (split_octets 7 (scheme ++ token) = Some (scheme, token)) as -> by (by apply split_octets_Some; [lia|]).
    rewrite Hs, bool_decide_eq_false_2 by done. rewrite andb_true_r. apply Z.ltb_lt.
    unfold str_len in *. rewrite utf8_encode_app, zlen_app, Hl. destruct token as [|c token]; [done|].
    unfold utf8_encode. csimpl. rewrite zlen_app. pose proof (zlen_nonneg (token ≫= utf8_char)).
    assert (1 ≤ zlen (utf8_char c)) by (unfold utf8_char; repeat case_match; unfold zlen; simpl; lia). lia.
Qed.

Lemma has_bearer_header_exact headers : has_bearer_header_string headers = true ↔ carries_bearer headers.
Proof.
  unfold has_bearer_header_string, carries_bearer. rewrite existsb_exists. setoid_rewrite andb_true_iff.
  setoid_rewrite is_bearer_value_exact. setoid_rewrite <-list_elem_of_In. split.
  - intros ([n v] & Hin & Hn & scheme & token & Hv & Hs & Ht). simpl in *. subst. by exists n, scheme, token.
  - intros (n & scheme & token & Hin & Hn & Hs & Ht). eexists (n, _). split_and!; [done|done|]. by exists scheme, token.
Qed.

Lemma has_non_empty_header_exact headers name :
  has_non_empty_header_string headers (lit name) = true ↔ carries headers name.
Proof.
  unfold has_non_empty_header_string, carries. rewrite existsb_exists. setoid_rewrite andb_true_iff.
  setoid_rewrite negb_true_iff. setoid_rewrite bool_decide_eq_false. setoid_rewrite <-list_elem_of_In. split.
  - intros ([n v] & ? & ? & ?). by exists n, v.
  - intros (n & v & ? & ? & ?). by exists (n, v).
Qed.

Lemma is_cors_preflight_exact method headers : is_cors_preflight_string method headers = true ↔ cors_preflight method headers.
Proof. unfold is_cors_preflight_string, cors_preflight. by rewrite !andb_true_iff, !has_non_empty_header_exact, (assoc (∧)). Qed.

(** HTTP/1 and HTTP/2 or /3 check a request alike: octet headers that are not
    text are as if they were not there.  A request passes exactly when the
    endpoint demands a client certificate if the route does, serves TLS if the
    route requires it, and, if the route requires a bearer token, the request
    carries a nonblank one or is a CORS preflight that the route exempts; a
    refusal names the first of these that fails.  On a checked endpoint a route
    that demands a client certificate is only ever reached through native TLS. *)
Theorem http_transport_auth_exact {Json} (requirements : HttpRouteTransportAuthRuntime)
    (config : EndpointRuntimeConfig Json) method headers :
  let text := text_headers headers in
  let result := evaluate_http_transport_auth_string_headers requirements config method text in
  let certificate := ∃ auth, er_client_auth config = Some auth ∧ auth_mode auth = AuthRequired in
  let exempt := allow_unauthenticated_cors_preflight requirements = true ∧ cors_preflight method text in
  evaluate_http_transport_auth_bytes_headers requirements config method headers = result ∧
  match result with
  | None =>
      (require_mtls requirements = true → certificate) ∧
      (require_tls requirements = true → er_tls_mode config ≠ TlsDisabled) ∧
      (require_bearer requirements = true → carries_bearer text ∨ exempt) ∧
      (runtime_wf config → require_mtls requirements = true → er_tls_mode config = TlsNative)
  | Some MutualTlsRequired => require_mtls requirements = true ∧ ¬ certificate
  | Some TlsRequired =>
      require_tls requirements = true ∧ er_tls_mode config = TlsDisabled ∧ (require_mtls requirements = true → certificate)
  | Some BearerRequired =>
      require_bearer requirements = true ∧ ¬ carries_bearer text ∧ ¬ exempt ∧
      (require_mtls requirements = true → certificate) ∧
      (require_tls requirements = true → er_tls_mode config ≠ TlsDisabled)
  end.
Proof.
  intros text result certificate exempt. split; [apply evaluate_text|].
  assert (requires_client_certificate config = true ↔ certificate) as Hcert.
  { unfold requires_client_certificate, certificate. destruct (er_client_auth config) as [a|]; [|naive_solver].
    rewrite bool_decide_eq_true. naive_solver. }
  assert (allow_unauthenticated_cors_preflight requirements && is_cors_preflight_string method text = true ↔ exempt)
    as Hex by (unfold exempt; by rewrite andb_true_iff, is_cors_preflight_exact).
  pose proof (has_bearer_header_exact text) as Hb.
  assert (runtime_wf config → certificate → er_tls_mode config = TlsNative) as Hwf
    by (intros Hwf (a & Ha & _); by destruct (wf_client_auth _ Hwf a Ha)).
  clearbody certificate exempt. unfold result, evaluate_http_transport_auth_string_headers. cbv zeta.
  generalize dependent (requires_client_certificate config). generalize dependent (has_bearer_header_string text).
  generalize dependent (allow_unauthenticated_cors_preflight requirements && is_cors_preflight_string method text).
  intros preflight Hex bearer Hb required Hcert.
  destruct (require_mtls requirements), required; simpl; [|by intuition congruence|..].
  all: destruct (require_tls requirements); simpl; try case_bool_decide; simpl; try (by intuition congruence).
  all: destruct (require_bearer requirements), preflight, bearer; simpl; intuition congruence.
Qed.
