(* ===== verification/HttpFraming.v ===== *)
(** * The head of an HTTP/1 request

    [parse_http_request] of [ct_core/src/protocol.rs]: the parse of a request's
    head by [httparse], the headers as text, and the framing of its body; and
    the statuses of [classify_http_error_status]. *)
From S2P Require Import Prelude Bytes Text TextOps IoStream.

(** ** Octets as text *)

(** One character of [String::from_utf8_lossy], or the replacement of a maximal
    malformed piece, and the octets after it. *)
Definition second_ok (first second : Z) : bool :=
  if first =? 0xE0 then (0xA0 <=? second) && (second <=? 0xBF)
  else if first =? 0xED then (0x80 <=? second) && (second <=? 0x9F)
  else if first =? 0xF0 then (0x90 <=? second) && (second <=? 0xBF)
  else if first =? 0xF4 then (0x80 <=? second) && (second <=? 0x8F)
  else cont_byte second.

(** How many continuation octets a first octet asks for. *)
Definition utf8_follow (first : Z) : option nat :=
  if first <? 0x80 then Some 0%nat
  else if (0xC2 <=? first) && (first <=? 0xDF) then Some 1%nat
  else if (0xE0 <=? first) && (first <=? 0xEF) then Some 2%nat
  else if (0xF0 <=? first) && (first <=? 0xF4) then Some 3%nat
  else None.

(** The length of the well-formed or maximal malformed piece that starts with
    [first], and whether it is well formed. *)
Fixpoint take_conts (n : nat) (l : list Z) : nat * bool :=
  match n with
  | O => (0%nat, true)
  | S n =>
      match l with
      | b :: l => if cont_byte b then let '(k, ok) := take_conts n l in (S k, ok) else (0%nat, false)
      | [] => (0%nat, false)
      end
  end.

Definition utf8_piece (first : Z) (l : list Z) : nat * bool :=
  match utf8_follow first with
  | None => (0%nat, false)
  | Some 0%nat => (0%nat, true)
  | Some (S n) =>
      match l with
      | second :: l => if second_ok first second then let '(k, ok) := take_conts n l in (S k, ok) else (0%nat, false)
      | [] => (0%nat, false)
      end
  end.

Fixpoint lossy_loop (fuel : nat) (l : list Z) : str :=
  match fuel, l with
  | S fuel, first :: l =>
      let '(k, ok) := utf8_piece first l in
      let piece := first :: take k l in
      (if (ok : bool) then default [] (utf8_decode piece) else [0xFFFD]) ++ lossy_loop fuel (drop k l)
  | _, _ => []
  end.

(** [String::from_utf8_lossy] *)
Definition from_utf8_lossy (l : list Z) : str := lossy_loop (length l) l.

(** [u64::from_str] *)
Definition digits_value (s : str) : Z := foldl (λ v c, v * 10 + (c - 0x30)) 0 s.
Definition all_digits (s : str) : bool := forallb is_ascii_digit s.
Definition parse_u64 (s : str) : option Z :=
  let digits := if bool_decide (head s = Some 0x2B) && (1 <? zlen s) then drop 1 s else s in
  if negb (bool_decide (digits = [])) && all_digits digits && (digits_value digits <? 2 ^ 64)
  then Some (digits_value digits) else None.

(** ** The parser *)
Inductive HttpParse : Type :=
  | HttpInvalid
  | HttpPartial
  | HttpComplete (method path : option str) (version : option Z) (headers : list (str * list Z)).

(** [httparse::Request::parse], with room for 64 headers. *)
Class HttpParseLib : Type := { http_parse : list Z → HttpParse }.

Inductive NegotiationError : Type :=
  | NTimeout
  | NProtocol (detail : str)
  | NIo (e : io_error).

Definition protocol_error (detail : string) : NegotiationError := NProtocol (lit detail).

Record HttpRequest : Type := mkHttpRequest {
  req_method : str;
  req_target : str;
  req_version : Z;
  req_headers : list (str * str);
}.

(** [HttpRequest::header] *)
Definition header (request : HttpRequest) (name : str) : option str :=
  (λ p, p.2.2) <$> list_find (λ h, eq_ignore_ascii_case h.1 name = true) (req_headers request).

Record Framing : Type := mkFraming {
  fr_headers : list (str * str);
  fr_content_length : option Z;
  fr_transfer_encoding_seen : bool;
  fr_final_coding_is_chunked : bool;
  fr_invalid_transfer_order : bool;
}.

(** [value.split(',').map(str::trim).filter(|s| !s.is_empty())] *)
Definition list_members (value : str) : list str := filter (λ s, s ≠ []) (trim <$> split_on 0x2C value).

(** One coding of a Transfer-Encoding list: the order so far, whether the last is
    chunked. *)
Definition transfer_coding (state : bool * bool) (coding : str) : bool * bool :=
  (state.1 || state.2, eq_ignore_ascii_case coding (lit "chunked")).

Definition trim_ascii (l : list Z) : list Z := trim_by is_ascii_whitespace l.

Definition header_value (raw : list Z) : str := trim (from_utf8_lossy raw).

Definition request_header (f : Framing) (h : str * list Z) : outcome NegotiationError Framing :=
  let '(name, raw) := h in
  let value := header_value raw in
  let headers := fr_headers f ++ [(name, value)] in
  if eq_ignore_ascii_case name (lit "Content-Length") then
    let raw_value := trim_ascii raw in
    if bool_decide (raw_value = []) || negb (all_digits raw_value)
    then Err (protocol_error "invalid Content-Length value")
    else
      parsed ← ok_or (protocol_error "invalid Content-Length value") (parse_u64 value);
      if match fr_content_length f with Some existing => negb (existing =? parsed) | None => false end
      then Err (protocol_error "conflicting Content-Length headers")
      else
        Ok (mkFraming headers (Some parsed) (fr_transfer_encoding_seen f) (fr_final_coding_is_chunked f)
              (fr_invalid_transfer_order f))
  else if eq_ignore_ascii_case name (lit "Transfer-Encoding") then
    let '(invalid, chunked) :=
      foldl transfer_coding (fr_invalid_transfer_order f, fr_final_coding_is_chunked f) (list_members value) in
    Ok (mkFraming headers (fr_content_length f) true chunked invalid)
  else
    Ok (mkFraming headers (fr_content_length f) (fr_transfer_encoding_seen f) (fr_final_coding_is_chunked f)
          (fr_invalid_transfer_order f)).

Fixpoint request_headers (f : Framing) (l : list (str * list Z)) : outcome NegotiationError Framing :=
  match l with
  | [] => Ok f
  | h :: l => f ← request_header f h; request_headers f l
  end.

Definition parse_http_request `{HL : !HttpParseLib} (bytes : list Z) :
    outcome NegotiationError (HttpRequest * option Z) :=
  match http_parse bytes with
  | HttpInvalid => Err (protocol_error "invalid HTTP request")
  | HttpPartial => Err (protocol_error "incomplete HTTP headers")
  | HttpComplete method path version headers =>
      method ← ok_or (protocol_error "missing HTTP method") method;
      target ← ok_or (protocol_error "missing request target") path;
      let version := default 1 version in
      f ← request_headers (mkFraming [] None false false false) headers;
      if fr_transfer_encoding_seen f then
        if bool_decide (is_Some (fr_content_length f)) || (version =? 0) || fr_invalid_transfer_order f
           || negb (fr_final_coding_is_chunked f)
        then Err (protocol_error "invalid Transfer-Encoding framing")
        else Err (protocol_error "chunked transfer encoding is not supported")
      else Ok (mkHttpRequest method target version (fr_headers f), fr_content_length f)
  end.

(** ** Statuses of errors *)

(** [str::contains] *)
Fixpoint str_contains (needle s : str) : bool :=
  starts_with needle s || match s with [] => false | _ :: s => str_contains needle s end.

Definition bad_request_details : list string :=
  ["invalid Content-Length value"; "conflicting Content-Length headers"; "invalid Transfer-Encoding framing";
   "invalid HTTP request"; "missing HTTP method"; "missing request target"; "incomplete HTTP headers";
   "HTTP headers exceed supported limit"]%string.

Definition classify_http_error_status (detail : str) : option Z :=
  if str_contains (lit "exceeds configured limit") detail then Some 413
  else if str_eqb detail (lit "chunked transfer encoding is not supported") then Some 501
  else if existsb (λ d, str_eqb detail (lit d)) bad_request_details then Some 400
  else None.

#[local] Arguments lit : simpl never.

(** ** What framing means *)
Definition named (name : string) (h : str * list Z) : Prop := eq_ignore_ascii_case h.1 (lit name) = true.
#[global] Instance named_dec name h : Decision (named name h).
Proof. unfold named. apply _. Defined.

(** Digits with ASCII blanks around them, of the value [n]. *)
Definition decimal (raw : list Z) (n : Z) : Prop :=
  ∃ l d r, raw = l ++ d ++ r ∧ Forall (λ c, is_ascii_whitespace c = true) l ∧
    Forall (λ c, is_ascii_whitespace c = true) r ∧ d ≠ [] ∧ all_digits d = true ∧ n = digits_value d.

(** The length that the headers declare: the Content-Length headers agree on it. *)
Definition declares (headers : list (str * list Z)) (length : option Z) : Prop :=
  match length with
  | None => ∀ h, h ∈ headers → ¬ named "Content-Length" h
  | Some n => (∃ h, h ∈ headers ∧ named "Content-Length" h) ∧ n < 2 ^ 64 ∧
      ∀ h, h ∈ headers → named "Content-Length" h → decimal h.2 n
  end.

(** Why a Content-Length header is refused behind headers that declare [length]:
    it is no decimal number below two to the 64, or it is another one. *)
Definition header_refused (length : option Z) (h : str * list Z) (detail : string) : Prop :=
  named "Content-Length" h ∧
  (detail = "invalid Content-Length value"%string ∧ (∀ n, decimal h.2 n → 2 ^ 64 ≤ n) ∨
   detail = "conflicting Content-Length headers"%string ∧
     ∃ n k, decimal h.2 n ∧ n < 2 ^ 64 ∧ length = Some k ∧ k ≠ n).

(** The first Content-Length header that does not go with those before it. *)
Definition length_refused (headers : list (str * list Z)) (detail : string) : Prop :=
  ∃ before h after length, headers = before ++ h :: after ∧ declares before length ∧ header_refused length h detail.

(** The codings of all Transfer-Encoding headers, in order. *)
Definition codings (headers : list (str * list Z)) : list str :=
  headers ≫= λ h, if eq_ignore_ascii_case h.1 (lit "Transfer-Encoding") then list_members (header_value h.2) else [].

Definition is_chunked (coding : str) : bool := eq_ignore_ascii_case coding (lit "chunked").

(** ** Trimming and digits *)
Lemma drop_while_all {A} (p : A → bool) l k : Forall (λ c, p c = true) l → drop_while p (l ++ k) = drop_while p k.
Proof. induction 1 as [|c l Hc _ IH]; simpl; [done|]. by rewrite Hc. Qed.

Lemma drop_while_split {A} (p : A → bool) l : ∃ k, l = k ++ drop_while p l ∧ Forall (λ c, p c = true) k.
Proof.
  induction l as [|c l (k & Hl & Hk)]; simpl; [by exists []|]. destruct (p c) eqn:E; [|by exists []].
  exists (c :: k). split; [simpl; by f_equal|by constructor].
Qed.

Lemma drop_while_id {A} (p : A → bool) l : Forall (λ c, p c = false) l → drop_while p l = l.
Proof. destruct 1 as [|c l Hc]; simpl; [done|]. by rewrite Hc. Qed.

Lemma trim_by_core p l d r : Forall (λ c, p c = true) l → Forall (λ c, p c = true) r →
  Forall (λ c, p c = false) d → trim_by p (l ++ d ++ r) = d.
Proof.
  intros Hl Hr Hd. unfold trim_by. rewrite drop_while_all by done.
  assert (∀ k, Forall (λ c, p c = true) k → Forall (λ c, p c = true) (rev k)) as Hrev
    by (intros k; by apply List.Forall_rev).
  destruct d as [|c d].
  - simpl. rewrite <-(app_nil_r r), drop_while_all by done. done.
  - assert (drop_while p ((c :: d) ++ r) = (c :: d) ++ r) as ->.
    { simpl. apply Forall_cons in Hd as [Hc _]. by rewrite Hc. }
    rewrite rev_app_distr, drop_while_all by auto. rewrite drop_while_id; [apply rev_involutive|].
    by apply List.Forall_rev.
Qed.

Lemma trim_by_split p s : ∃ l r, s = l ++ trim_by p s ++ r ∧ Forall (λ c, p c = true) l ∧ Forall (λ c, p c = true) r.
Proof.
  unfold trim_by. destruct (drop_while_split p s) as (l & Hl & Hpl).
  destruct (drop_while_split p (rev (drop_while p s))) as (r & Hr & Hpr).
  exists l, (rev r). split_and!; [|done|by apply List.Forall_rev].
  rewrite Hl at 1. f_equal. rewrite <-(rev_involutive (drop_while p s)) at 1. rewrite Hr at 1. apply rev_app_distr.
Qed.

Lemma all_digits_Forall s : all_digits s = true ↔ Forall (λ c, is_ascii_digit c = true) s.
Proof. unfold all_digits. rewrite forallb_forall, Forall_forall. by setoid_rewrite <-list_elem_of_In. Qed.

Lemma digit_plain c : is_ascii_digit c = true → is_whitespace c = false ∧ is_ascii_whitespace c = false ∧ 0 ≤ c < 0x80 ∧ c ≠ 0x2B.
Proof. unfold is_ascii_digit, is_whitespace, is_ascii_whitespace. intros. split_and!; lia. Qed.

Lemma blank_plain c : is_ascii_whitespace c = true → is_whitespace c = true ∧ 0 ≤ c < 0x80.
Proof. unfold is_whitespace, is_ascii_whitespace. intros. split_and!; lia. Qed.

Lemma lossy_loop_ascii l fuel : is_ascii l → (length l ≤ fuel)%nat → lossy_loop fuel l = l.
Proof.
  intros Hl. revert fuel. induction Hl as [|c l Hc Hl IH]; intros [|fuel] Hf; simpl in *; try done; try lia.
  assert (utf8_piece c l = (0%nat, true)) as ->.
  { unfold utf8_piece, utf8_follow. destruct (Z.ltb_spec c 0x80); [done|lia]. }
  simpl. destruct ((0 <=? c) && (c <? 128)) eqn:E; [|lia]. simpl. f_equal. apply IH. lia.
Qed.

Lemma from_utf8_lossy_ascii l : is_ascii l → from_utf8_lossy l = l.
Proof. intros. by apply lossy_loop_ascii. Qed.

Lemma decimal_value raw n : decimal raw n → trim_ascii raw ≠ [] ∧ all_digits (trim_ascii raw) = true ∧
  header_value raw = trim_ascii raw ∧ digits_value (trim_ascii raw) = n.
Proof.
  intros (l & d & r & -> & Hl & Hr & Hne & Hd & ->). pose proof Hd as Hdf%all_digits_Forall.
  assert (trim_ascii (l ++ d ++ r) = d) as Ht.
  { apply trim_by_core; [done..|]. eapply Forall_impl; [exact Hdf|]. intros c Hc. apply (digit_plain c Hc). }
  rewrite Ht. split_and!; try done. unfold header_value. rewrite from_utf8_lossy_ascii.
  - apply trim_by_core; (eapply Forall_impl; [eassumption|]); intros c Hc; [apply (blank_plain c Hc)..|apply (digit_plain c Hc)].
  - repeat apply Forall_app_2; (eapply Forall_impl; [eassumption|]); intros c Hc; simpl;
      [apply (blank_plain c Hc)|apply (digit_plain c Hc)|apply (blank_plain c Hc)].
Qed.

Lemma decimal_intro raw : trim_ascii raw ≠ [] → all_digits (trim_ascii raw) = true →
  decimal raw (digits_value (trim_ascii raw)).
Proof. intros Hne Hd. destruct (trim_by_split is_ascii_whitespace raw) as (l & r & Hs & Hl & Hr). by exists l, (trim_ascii raw), r. Qed.

Lemma parse_u64_digits s : s ≠ [] → all_digits s = true →
  parse_u64 s = if digits_value s <? 2 ^ 64 then Some (digits_value s) else None.
Proof.
  intros Hne Hd. unfold parse_u64.
  assert (bool_decide (head s = Some 0x2B) = false) as ->.
  { destruct s as [|c s]; [done|]. apply all_digits_Forall, Forall_cons in Hd as [Hc _].
    destruct (digit_plain c Hc) as (_ & _ & _ & Hp). apply bool_decide_eq_false. by intros [= ->]. }
  cbn [andb].
  by rewrite bool_decide_eq_false_2, Hd by done.
Qed.

(** ** The loop over the headers *)
Lemma named_te_cl h : named "Transfer-Encoding" h → ¬ named "Content-Length" h.
Proof. unfold named. rewrite !eq_ignore_ascii_case_eq. intros -> H. by vm_compute in H. Qed.

(** What the loop has gathered over [hs]. *)
Record gathered (hs : list (str * list Z)) (f : Framing) : Prop := {
  ga_headers : fr_headers f = (λ h, (h.1, header_value h.2)) <$> hs;
  ga_length : declares hs (fr_content_length f);
  ga_seen : fr_transfer_encoding_seen f = true ↔ ∃ h, h ∈ hs ∧ named "Transfer-Encoding" h;
  ga_codings : (fr_invalid_transfer_order f, fr_final_coding_is_chunked f)
    = foldl transfer_coding (false, false) (codings hs);
}.

Lemma declares_skip hs h n : ¬ named "Content-Length" h → declares hs n → declares (hs ++ [h]) n.
Proof.
  intros Hh. destruct n as [n|]; simpl; setoid_rewrite elem_of_app; setoid_rewrite list_elem_of_singleton.
  - intros ((h' & ? & ?) & ? & Hall). split_and!; [naive_solver|done|]. intros g [?| ->]; [auto|done].
  - intros Hall g [?| ->]; auto.
Qed.

Lemma declares_unskip hs h n : ¬ named "Content-Length" h → declares (hs ++ [h]) n → declares hs n.
Proof.
  intros Hh. destruct n as [n|]; simpl; setoid_rewrite elem_of_app; setoid_rewrite list_elem_of_singleton.
  - intros ((h' & [?| ->] & ?) & ? & Hall); [|done]. split_and!; [naive_solver|done|]. auto.
  - auto.
Qed.

Lemma codings_app hs h : codings (hs ++ [h]) = codings hs ++ codings [h].
Proof. apply bind_app. Qed.

Lemma codings_other h : ¬ named "Transfer-Encoding" h → codings [h] = [].
Proof. unfold codings, named. simpl. destruct (eq_ignore_ascii_case _ _); [done|]. done. Qed.

Lemma codings_te h : named "Transfer-Encoding" h → codings [h] = list_members (header_value h.2).
Proof. unfold codings, named. simpl. intros ->. apply app_nil_r. Qed.

Lemma decimal_functional raw n m : decimal raw n → decimal raw m → n = m.
Proof. intros (_ & _ & _ & <-)%decimal_value (_ & _ & _ & <-)%decimal_value. done. Qed.

Lemma length_refused_no hs detail n : length_refused hs detail → ¬ declares hs n.
Proof.
  intros (before & h & after & len & -> & Hlen & Hcl & Href). destruct n as [n|]; simpl; setoid_rewrite elem_of_app.
  - intros (_ & Hn & Hall). assert (decimal h.2 n) as Hd by (apply Hall; [right; by left|done]).
    destruct Href as [[_ Hbig]|(_ & m & k & Hm & _ & -> & Hk)]; [specialize (Hbig n Hd); lia|].
    destruct Hlen as ((g & Hg & Hgn) & _ & Hdec). apply Hk. transitivity n; [|by apply (decimal_functional h.2)].
    apply (decimal_functional g.2); auto.
  - intros Hall. apply (Hall h); [right; by left|done].
Qed.

(** A Content-Length header: what it adds, or how it fails. *)
Lemma content_length_step hs f h : gathered hs f → named "Content-Length" h →
  match request_header f h with
  | Ok f' => gathered (hs ++ [h]) f'
  | Err e => ∃ detail, e = protocol_error detail ∧ header_refused (fr_content_length f) h detail
  | _ => False
  end.
Proof.
  intros [Hhs Hlen Hseen Hcod] Hcl. destruct h as [name raw]. unfold request_header, named in *. simpl in Hcl. rewrite Hcl.
  assert ((∀ n, decimal raw n → 2 ^ 64 ≤ n) → ∃ detail, protocol_error "invalid Content-Length value" = protocol_error detail
    ∧ header_refused (fr_content_length f) (name, raw) detail) as Hbad
    by (intros Hno; eexists; split; [done|]; split; [done|by left]).
  case_bool_decide as Hne; cbn [orb].
  { apply Hbad. intros n (? & _)%decimal_value. done. }
  destruct (all_digits (trim_ascii raw)) eqn:Hd; cbn [negb].
  2: { apply Hbad. intros n (_ & ? & _)%decimal_value. congruence. }
  pose proof (decimal_intro raw Hne Hd) as Hdec. pose proof (decimal_value _ _ Hdec) as (_ & _ & Hv & _).
  rewrite Hv, parse_u64_digits by done. destruct (Z.ltb_spec (digits_value (trim_ascii raw)) (2 ^ 64)) as [Hlt|Hge]; simpl.
  2: { apply Hbad. intros n Hn. pose proof (decimal_functional _ _ _ Hn Hdec). lia. }
  set (parsed := digits_value (trim_ascii raw)) in *.
  destruct (match fr_content_length f with Some existing => negb (existing =? parsed) | None => false end) eqn:Ec.
  - destruct (fr_content_length f) as [existing|]; [|done]. apply negb_true_iff, Z.eqb_neq in Ec.
    eexists. split; [done|]. split; [done|]. right. split; [done|]. by exists parsed, existing.
  - split; simpl; [by rewrite fmap_app, Hhs; simpl; rewrite Hv| | |].
    + setoid_rewrite elem_of_app. setoid_rewrite list_elem_of_singleton. split_and!; [by exists (name, raw); auto|done|].
      intros h [Hin| ->] Hh; [|done]. destruct (fr_content_length f) as [existing|]; simpl in Hlen.
      * apply negb_false_iff, Z.eqb_eq in Ec as <-. by apply Hlen.
      * exfalso. by apply (Hlen h Hin).
    + rewrite Hseen. setoid_rewrite elem_of_app. setoid_rewrite list_elem_of_singleton. split; [naive_solver|].
      intros (h & [?| ->] & Hh); [eauto|]. exfalso. by apply (named_te_cl _ Hh).
    + rewrite codings_app, codings_other, app_nil_r; [done|]. intros Hh. by apply (named_te_cl _ Hh).
Qed.

Lemma request_header_step hs f h : gathered hs f →
  match request_header f h with
  | Ok f' => gathered (hs ++ [h]) f'
  | Err e => ∃ detail, e = protocol_error detail ∧ header_refused (fr_content_length f) h detail
  | _ => False
  end.
Proof.
  intros Hg. destruct (eq_ignore_ascii_case h.1 (lit "Content-Length")) eqn:Ecl; [by apply content_length_step|].
  destruct Hg as [Hhs Hlen Hseen Hcod]. assert (¬ named "Content-Length" h) as Hncl by (unfold named; congruence).
  destruct h as [name raw]. unfold request_header. simpl in Ecl. rewrite Ecl.
  assert ((fr_headers f ++ [(name, header_value raw)]) = (λ h, (h.1, header_value h.2)) <$> (hs ++ [(name, raw)])) as Hh
    by (by rewrite fmap_app, Hhs).
  destruct (eq_ignore_ascii_case name (lit "Transfer-Encoding")) eqn:Ete.
  - destruct (foldl transfer_coding (fr_invalid_transfer_order f, _) _) as [invalid chunked] eqn:Ef. split; simpl; [done|by apply declares_skip| |].
    + split; [|done]. intros _. exists (name, raw). rewrite elem_of_app, list_elem_of_singleton. auto.
    + by rewrite codings_app, codings_te, foldl_app, <-Hcod, <-Ef.
  - assert (¬ named "Transfer-Encoding" (name, raw)) as Hnte by (unfold named; simpl; congruence).
    split; simpl; [done|by apply declares_skip| |by rewrite codings_app, codings_other, app_nil_r].
    rewrite Hseen. setoid_rewrite elem_of_app. setoid_rewrite list_elem_of_singleton. naive_solver.
Qed.

Lemma request_headers_spec hs0 f hs : gathered hs0 f →
  match request_headers f hs with
  | Ok f' => gathered (hs0 ++ hs) f'
  | Err e => ∃ detail, e = protocol_error detail ∧ length_refused (hs0 ++ hs) detail
  | _ => False
  end.
Proof.
  revert hs0 f. induction hs as [|h hs IH]; intros hs0 f Hg; simpl; [by rewrite app_nil_r|].
  pose proof (request_header_step hs0 f h Hg) as Hstep.
  destruct (request_header f h) as [f'|e| |]; simpl; try done.
  - specialize (IH _ _ Hstep). by rewrite <-app_assoc in IH.
  - destruct Hstep as (detail & -> & Href). exists detail. split; [done|].
    exists hs0, h, hs, (fr_content_length f). split_and!; [done|apply Hg|done].
Qed.

(** ** Codings *)

(** [chunked] is the last coding and none before it. *)
Definition chunked_last (l : list str) : Prop :=
  ∃ k c, l = k ++ [c] ∧ is_chunked c = true ∧ existsb is_chunked k = false.

Lemma transfer_coding_any l : let '(invalid, chunked) := foldl transfer_coding (false, false) l in
  invalid || chunked = existsb is_chunked l.
Proof.
  induction l as [|c l IH] using rev_ind; [done|]. rewrite foldl_app, existsb_app. simpl.
  destruct (foldl _ _ l) as [invalid chunked]. simpl. by rewrite IH, orb_false_r.
Qed.

Lemma chunked_last_fold l : foldl transfer_coding (false, false) l = (false, true) ↔ chunked_last l.
Proof.
  unfold chunked_last. destruct l as [|c l _] using rev_ind.
  { split; [done|]. intros (k & c & H & _). by destruct k. }
  rewrite foldl_app. simpl. pose proof (transfer_coding_any l) as Hany.
  destruct (foldl transfer_coding (false, false) l) as [invalid chunked]. unfold transfer_coding at 1. cbn [fst snd].
  fold (is_chunked c). rewrite Hany. split.
  - intros [= H1 H2]. by exists l, c.
  - intros (k & c' & H & Hc & Hk). apply app_inj_tail in H as [-> ->]. by rewrite Hc, Hk.
Qed.

Section parse.
Context `{HL : !HttpParseLib}.

Definition carries_transfer_encoding (hs : list (str * list Z)) : Prop :=
  ∃ h, h ∈ hs ∧ named "Transfer-Encoding" h.

Definition parsed_request (method target : str) (version : option Z) (hs : list (str * list Z)) : HttpRequest :=
  mkHttpRequest method target (default 1 version) ((λ h, (h.1, header_value h.2)) <$> hs).

(** A request whose body is chunked, as it should be. *)
Definition chunked_framing (version : option Z) (hs : list (str * list Z)) : Prop :=
  declares hs None ∧ carries_transfer_encoding hs ∧ default 1 version ≠ 0 ∧ chunked_last (codings hs).

(** Why a head is refused; of several reasons the first that the parser meets. *)
Definition head_refused (bytes : list Z) (detail : string) : Prop :=
  match http_parse bytes with
  | HttpInvalid => detail = "invalid HTTP request"%string
  | HttpPartial => detail = "incomplete HTTP headers"%string
  | HttpComplete None _ _ _ => detail = "missing HTTP method"%string
  | HttpComplete _ None _ _ => detail = "missing request target"%string
  | HttpComplete (Some _) (Some _) version hs =>
      length_refused hs detail ∨
      (∃ len, declares hs len) ∧ carries_transfer_encoding hs ∧
        (chunked_framing version hs ∧ detail = "chunked transfer encoding is not supported"%string ∨
         ¬ chunked_framing version hs ∧ detail = "invalid Transfer-Encoding framing"%string)
  end.

Lemma parse_http_request_spec bytes :
  match parse_http_request bytes with
  | Ok (req, len) => ∃ m p v hs, http_parse bytes = HttpComplete (Some m) (Some p) v hs ∧
      req = parsed_request m p v hs ∧ declares hs len ∧ ¬ carries_transfer_encoding hs
  | Err e => ∃ detail, e = protocol_error detail ∧ head_refused bytes detail
  | _ => False
  end.
Proof.
  unfold parse_http_request, head_refused. destruct (http_parse bytes) as [| |[m|] [p|] v hs]; simpl; try (by eexists).
  assert (gathered [] (mkFraming [] None false false false)) as Hg0.
  { split; simpl; [done|by intros ? ?%not_elem_of_nil|split; [done|by intros (? & ?%not_elem_of_nil & _)]|done]. }
  pose proof (request_headers_spec [] _ hs Hg0) as Hs. destruct (request_headers _ hs) as [f|e| |]; simpl in *; try done.
  2: { destruct Hs as (detail & -> & Href). exists detail. split; [done|by left]. }
  destruct Hs as [Hh Hl Hseen Hcod]. destruct (fr_transfer_encoding_seen f).
  2: { exists m, p, v, hs. split_and!; [done| |done|]; [unfold parsed_request; by rewrite Hh|]. intros H. by apply Hseen in H. }
  assert (carries_transfer_encoding hs) as Hte by (by apply Hseen).
  assert (bool_decide (is_Some (fr_content_length f)) || (default 1 v =? 0) || fr_invalid_transfer_order f
    || negb (fr_final_coding_is_chunked f) = false ↔ chunked_framing v hs) as Hiff.
  { unfold chunked_framing. rewrite !orb_false_iff, bool_decide_eq_false, Z.eqb_neq, negb_false_iff, <-chunked_last_fold, <-Hcod.
    rewrite <-eq_None_not_Some. split.
    - intros [[[Hn ?] Hi] Hc]. rewrite Hn in Hl. split_and!; [done|done|done|by rewrite Hi, Hc].
    - intros (Hn & _ & ? & [= Hi Hc]). split_and!; try done. destruct (fr_content_length f) as [n|]; [|done].
      destruct Hl as ((h & Hhin & Hhn) & _). exfalso. by apply (Hn h). }
  destruct (_ || negb (fr_final_coding_is_chunked f)) eqn:Ebad; simpl; (eexists; split; [done|]; right; split; [eauto|split; [done|]]).
  - right. split; [|done]. intros H. apply Hiff in H. congruence.
  - left. split; [by apply Hiff|done].
Qed.

Lemma declares_functional hs a b : declares hs a → declares hs b → a = b.
Proof.
  destruct a as [a|], b as [b|]; simpl; try done.
  - intros ((h & Hin & Hh) & _ & Ha) (_ & _ & Hb). f_equal. apply (decimal_functional h.2); auto.
  - intros ((h & Hin & Hh) & _) H. exfalso. by apply (H h).
  - intros H ((h & Hin & Hh) & _). exfalso. by apply (H h).
Qed.

(** The status of a refusal. *)
Lemma refused_status bytes detail : head_refused bytes detail →
  classify_http_error_status (lit detail) =
    Some (if decide (detail = "chunked transfer encoding is not supported"%string) then 501 else 400) ∧
  (detail = "chunked transfer encoding is not supported"%string ↔
   ∃ m p v hs, http_parse bytes = HttpComplete (Some m) (Some p) v hs ∧ chunked_framing v hs).
Proof.
  unfold head_refused. intros H. destruct (http_parse bytes) as [| |[m|] [p|] v hs];
    try (subst detail; split; [by vm_compute|]; split; [done|by intros (? & ? & ? & ? & ? & _)]).
  destruct H as [Href|(_ & _ & [[Hc ->]|[Hno ->]])].
  - pose proof (length_refused_no hs detail None Href) as Hn.
    destruct Href as (? & ? & ? & ? & _ & _ & _ & [[-> _]|[-> _]]);
      (split; [by vm_compute|]; split; [done|]; intros (? & ? & ? & ? & [= <- <- <- <-] & Hd & _); by destruct Hn).
  - split; [by vm_compute|]. split; [|done]. intros _. by exists m, p, v, hs.
  - split; [by vm_compute|]. split; [done|]. intros (? & ? & ? & ? & [= <- <- <- <-] & Hc). by destruct Hno.
Qed.

(** C27: the body of a request is never ambiguous.  A head is accepted exactly
    when it parses, every Content-Length header is decimal digits, all of the same
    value below two to the 64, which is the length, and there is no
    Transfer-Encoding header.  Every other head is refused with its own error
    ([head_refused]): one that does not parse or is cut off; the first Content-Length
    header that is no such number, or not the one before; a Transfer-Encoding that
    is not [chunked], last and alone, without Content-Length, under HTTP/1.1; and
    that one too, since it is not supported.  That last error, and no other, is
    answered with status 501, all the others with 400.  Parsing always returns. *)
Theorem http_request_framing_exact bytes :
  (∀ req len, parse_http_request bytes = Ok (req, len) ↔
     ∃ m p v hs, http_parse bytes = HttpComplete (Some m) (Some p) v hs ∧
       req = parsed_request m p v hs ∧ declares hs len ∧ ¬ carries_transfer_encoding hs) ∧
  match parse_http_request bytes with
  | Ok _ => True
  | Err e => ∃ detail, e = protocol_error detail ∧ head_refused bytes detail ∧
      classify_http_error_status (lit detail) =
        Some (if decide (detail = "chunked transfer encoding is not supported"%string) then 501 else 400) ∧
      (detail = "chunked transfer encoding is not supported"%string ↔
       ∃ m p v hs, http_parse bytes = HttpComplete (Some m) (Some p) v hs ∧ chunked_framing v hs)
  | _ => False
  end.
Proof.
  pose proof (parse_http_request_spec bytes) as H. destruct (parse_http_request bytes) as [[req len]|e| |]; try done.
  - split; [|done]. intros req' len'. split; [by intros [= <- <-]|].
    intros (m' & p' & v' & hs' & Hp' & -> & Hd' & _). destruct H as (m & p & v & hs & Hp & -> & Hd & _).
    rewrite Hp in Hp'. injection Hp' as <- <- <- <-. by rewrite (declares_functional _ _ _ Hd Hd').
  - destruct H as (detail & -> & H). split.
    + intros req len. split; [done|]. intros (m & p & v & hs & Hp & -> & Hd & Hnte). exfalso.
      unfold head_refused in H. rewrite Hp in H. destruct H as [Href|(_ & Hte & _)]; [|done].
      exact (length_refused_no _ _ _ Href Hd).
    + exists detail. split; [done|]. split; [done|]. by apply refused_status.
Qed.
End parse.
