(* ===== verification/HttpReader.v ===== *)
(** * Reading an HTTP/1 request

    [read_http_request_with_options] of [ct_core/src/protocol.rs] over a
    [tokio::io::BufReader], and [classify_http_body] of [http1_stream.rs]: the
    head up to its blank line, then a short body, or the start of a long one. *)
From S2P Require Import Prelude Bytes Text TextOps IoStream Handshake RouterConfig HttpFraming.

Definition MAX_HTTP_HEADER_BYTES : Z := 64 * 1024.
Definition DEFAULT_HTTP_BODY_LIMIT : Z := 4 * 1024 * 1024.
Definition HTTP1_INLINE_BODY_LIMIT : Z := 64 * 1024.

(** ** The buffered reader *)
Record BufReader : Type := mkBufReader { br_buffer : list Z; br_inner : IoStream; br_capacity : Z }.

(** [fill_buf]: the buffered octets, or those of one read. *)
Definition fill_buf (r : BufReader) : io_result (list Z) * BufReader :=
  match br_buffer r with
  | [] =>
      match poll_read (br_inner r) (br_capacity r) with
      | (IoOk bs, st) => (IoOk bs, mkBufReader bs st (br_capacity r))
      | (IoErr e, st) => (IoErr e, mkBufReader [] st (br_capacity r))
      | (Stalled, st) => (Stalled, mkBufReader [] st (br_capacity r))
      end
  | buffer => (IoOk buffer, r)
  end.

Definition consume (n : Z) (r : BufReader) : BufReader :=
  mkBufReader (drop (Z.to_nat n) (br_buffer r)) (br_inner r) (br_capacity r).

(** ** The body after the head *)
Inductive HttpBodyPhase : Type :=
  | Buffered (bytes : list Z)
  | NeedsStreaming (prefix : list Z) (remaining_len : Z)
  | Finished.

Definition classify_http_body (buffered : list Z) (content_length : option Z) : HttpBodyPhase :=
  match content_length with
  | None => if bool_decide (buffered = []) then Finished else Buffered buffered
  | Some len =>
      if len =? 0 then Finished
      else if len <=? zlen buffered then Buffered (take (Z.to_nat len) buffered)
      else NeedsStreaming buffered (saturating_sub len (zlen buffered))
  end.

(** ** The head *)
Definition CRLF2 : list Z := [0x0D; 0x0A; 0x0D; 0x0A].

Fixpoint find_header_terminator (buffer : list Z) : option Z :=
  if bool_decide (take 4 buffer = CRLF2) then Some 0
  else match buffer with [] => None | _ :: buffer => Z.add 1 <$> find_header_terminator buffer end.

Definition http_outcome (A : Type) : Type := outcome NegotiationError A * BufReader.

Definition closed_in_head {A} : outcome NegotiationError A :=
  Err (protocol_error "connection closed before HTTP headers completed").
Definition head_too_long {A} : outcome NegotiationError A :=
  Err (protocol_error "HTTP headers exceed supported limit").

(** The loop that gathers [header_bytes]. *)
Fixpoint read_head (fuel : nat) (allow_eof : bool) (header_bytes : list Z) (r : BufReader) :
    http_outcome (option (list Z)) :=
  match fuel with
  | O => (NoFuel, r)
  | S fuel =>
      match fill_buf r with
      | (Stalled, r) => (Err NTimeout, r)
      | (IoErr e, r) => (Err (NIo e), r)
      | (IoOk available, r) =>
          if bool_decide (available = []) then
            (if allow_eof && bool_decide (header_bytes = []) then Ok None else closed_in_head, r)
          else
            let search_start := saturating_sub (zlen header_bytes) 3 in
            let search_bytes := sub_bytes header_bytes search_start (zlen header_bytes) ++ available in
            match find_header_terminator search_bytes with
            | Some relative_index =>
                let header_end := search_start + relative_index + 4 in
                if MAX_HTTP_HEADER_BYTES <? header_end then (head_too_long, r)
                else
                  let needed := saturating_sub header_end (zlen header_bytes) in
                  if zlen available <? needed then (Panic, r)
                  else (Ok (Some (header_bytes ++ take (Z.to_nat needed) available)), consume needed r)
            | None =>
                if MAX_HTTP_HEADER_BYTES <? zlen header_bytes + zlen available then (head_too_long, r)
                else read_head fuel allow_eof (header_bytes ++ available) (consume (zlen available) r)
            end
      end
  end.

(** The loop that gathers a short body. *)
Fixpoint read_body (fuel : nat) (len : Z) (body_bytes : list Z) (r : BufReader) : http_outcome (list Z) :=
  if len <=? zlen body_bytes then (Ok body_bytes, r)
  else
    match fuel with
    | O => (NoFuel, r)
    | S fuel =>
        match fill_buf r with
        | (Stalled, r) => (Err NTimeout, r)
        | (IoErr e, r) => (Err (NIo e), r)
        | (IoOk available, r) =>
            let n := Z.min (len - zlen body_bytes) (zlen available) in
            if n =? 0 then (Err (protocol_error "connection closed before receiving declared HTTP body"), r)
            else read_body fuel len (body_bytes ++ take (Z.to_nat n) available) (consume n r)
        end
    end.

(** The octets a reader has yet to deliver. *)
Definition unread_all (r : BufReader) : list Z := br_buffer r ++ unread (br_inner r).

Section read.
Context `{HL : !HttpParseLib} {Json : Type}.
Implicit Type endpoint : EndpointRuntimeConfig Json.

Definition body_limit endpoint : Z := default DEFAULT_HTTP_BODY_LIMIT (er_max_http_content_length endpoint).

Definition limit_exceeded (len max_body : Z) : NegotiationError :=
  NProtocol (lit "http body length " ++ show_number len ++ lit " exceeds configured limit " ++ show_number max_body).

(** What follows the head. *)
Definition read_after_head endpoint (inline_limit : Z) (header_bytes : list Z) (r : BufReader) :
    http_outcome (option (HttpRequest * HttpBodyPhase)) :=
  match parse_http_request header_bytes with
  | Err e => (Err e, r)
  | Panic => (Panic, r)
  | NoFuel => (NoFuel, r)
  | Ok (request, None) => (Ok (Some (request, Buffered [])), r)
  | Ok (request, Some len) =>
      let max_body := body_limit endpoint in
      if max_body <? len then (Err (limit_exceeded len max_body), r)
      else if len <=? inline_limit then
        match read_body (Z.to_nat len) len [] r with
        | (Ok body, r) => (Ok (Some (request, Buffered body)), r)
        | (Err e, r) => (Err e, r)
        | (Panic, r) => (Panic, r)
        | (NoFuel, r) => (NoFuel, r)
        end
      else
        let n := Z.min len (zlen (br_buffer r)) in
        (Ok (Some (request, classify_http_body (take (Z.to_nat n) (br_buffer r)) (Some len))), consume n r)
  end.

(** Each round of [read_head] takes at least one octet. *)
Definition head_fuel (r : BufReader) : nat := S (length (unread_all r)).

Definition read_http_request_with_options endpoint (allow_eof : bool) (inline_limit : Z) (r : BufReader) :
    http_outcome (option (HttpRequest * HttpBodyPhase)) :=
  match read_head (head_fuel r) allow_eof [] r with
  | (Ok (Some header_bytes), r) => read_after_head endpoint inline_limit header_bytes r
  | (Ok None, r) => (Ok None, r)
  | (Err e, r) => (Err e, r)
  | (Panic, r) => (Panic, r)
  | (NoFuel, r) => (NoFuel, r)
  end.

Definition read_http_request endpoint (r : BufReader) : http_outcome (option (HttpRequest * HttpBodyPhase)) :=
  read_http_request_with_options endpoint true HTTP1_INLINE_BODY_LIMIT r.
End read.

(** ** The terminator *)
Lemma find_terminator_short l : zlen l < 4 → find_header_terminator l = None.
Proof.
  intros Hl. assert (∀ l, zlen l < 4 → bool_decide (take 4 l = CRLF2) = false) as Hn.
  { intros k Hk. apply bool_decide_eq_false. intros E. apply (f_equal zlen) in E. revert E. unfold CRLF2. zlia. }
  revert Hl. induction l as [|b l IH]; intros Hl; simpl; [done|]. rewrite zlen_cons in Hl.
  change (take 4 (b :: l)) with (b :: take 3 l). pose proof (Hn (b :: l)) as H. rewrite zlen_cons in H.
  change (take 4 (b :: l)) with (b :: take 3 l) in H. rewrite H by lia. rewrite IH by lia. done.
Qed.

Lemma find_terminator_cons b l : find_header_terminator (b :: l) =
  if bool_decide (take 4 (b :: l) = CRLF2) then Some 0 else Z.add 1 <$> find_header_terminator l.
Proof. done. Qed.

Lemma find_terminator_bound l i : find_header_terminator l = Some i → 0 ≤ i ∧ i + 4 ≤ zlen l.
Proof.
  revert i. induction l as [|b l IH]; intros i; [done|]. rewrite find_terminator_cons, zlen_cons. case_bool_decide as E.
  - intros [= <-]. apply (f_equal zlen) in E. revert E. unfold CRLF2. zlia.
  - intros (j & Hj & ->)%fmap_Some. destruct (IH j Hj). lia.
Qed.

Lemma take_app_same (k s s' : list Z) n : take n s = take n s' → take n (k ++ s) = take n (k ++ s').
Proof. intros H. rewrite !take_app. f_equal. apply (f_equal (take (n - length k))) in H. rewrite !take_take in H. by replace ((n - length k) `min` n)%nat with (n - length k)%nat in H by lia. Qed.

(** The search may skip what cannot start the terminator. *)
Lemma find_terminator_skip k s : find_header_terminator (k ++ take 3 s) = None →
  find_header_terminator (k ++ s) = Z.add (zlen k) <$> find_header_terminator s.
Proof.
  induction k as [|b k IH]; simpl app.
  - intros _. rewrite zlen_nil. by destruct (find_header_terminator s).
  - rewrite !find_terminator_cons.
    assert (take 4 (b :: (k ++ take 3 s)) = take 4 (b :: (k ++ s))) as ->.
    { change (take 4 (b :: ?l)) with (b :: take 3 l). f_equal. apply take_app_same. by rewrite take_take. }
    case_bool_decide as Eb; [done|]. intros Hn%fmap_None. rewrite IH by done. rewrite zlen_cons.
    destruct (find_header_terminator s); simpl; [|done]. f_equal. lia.
Qed.

Lemma find_terminator_app l k i : find_header_terminator l = Some i → find_header_terminator (l ++ k) = Some i.
Proof.
  revert i. induction l as [|b l IH]; intros i; [done|]. simpl app. rewrite !find_terminator_cons.
  case_bool_decide as E.
  - intros [= <-]. rewrite bool_decide_eq_true_2; [done|].
    change (take 4 (b :: ?l)) with (b :: take 3 l) in *. rewrite take_app_le; [done|].
    apply (f_equal length) in E. simpl in E. rewrite length_take in E. lia.
  - intros (j & Hj & ->)%fmap_Some. rewrite bool_decide_eq_false_2; [by rewrite (IH j Hj)|].
    intros E'. apply E. rewrite <-E'. change (take 4 (b :: ?l)) with (b :: take 3 l). f_equal.
    rewrite take_app_le; [done|]. pose proof (find_terminator_bound _ _ Hj). unfold zlen in *. lia.
Qed.

Lemma find_terminator_after l k i : find_header_terminator l = None → find_header_terminator (l ++ k) = Some i →
  zlen l < i + 4.
Proof.
  revert i. induction l as [|b l IH]; intros i Hn H; [apply find_terminator_bound in H; rewrite zlen_nil; lia|].
  simpl app in H. rewrite find_terminator_cons in *. rewrite zlen_cons.
  destruct (bool_decide (take 4 (b :: l) = CRLF2)) eqn:E; [done|]. apply fmap_None in Hn. case_bool_decide as E'.
  - injection H as <-. apply bool_decide_eq_false in E. destruct (Z.lt_ge_cases (zlen l) 3); [lia|]. exfalso. apply E.
    rewrite <-E'. change (take 4 (b :: ?l)) with (b :: take 3 l). f_equal. rewrite take_app_le; [done|]. unfold zlen in *. lia.
  - apply fmap_Some in H as (j & Hj & ->). specialize (IH j Hn Hj). lia.
Qed.

(** The window of the loop finds what a search of everything would. *)
Lemma search_window header available : find_header_terminator header = None →
  let start := saturating_sub (zlen header) 3 in
  find_header_terminator (header ++ available) =
  Z.add start <$> find_header_terminator (sub_bytes header start (zlen header) ++ available).
Proof.
  intros Hn start. pose proof (zlen_nonneg header).
  assert (header = take (Z.to_nat start) header ++ sub_bytes header start (zlen header)) as Hsplit.
  { unfold sub_bytes. rewrite (take_ge (drop _ _)); [by rewrite take_drop|].
    rewrite length_drop. unfold zlen, start, saturating_sub in *. lia. }
  assert (zlen (take (Z.to_nat start) header) = start) as Hk by (unfold start, saturating_sub; zlia).
  rewrite Hsplit at 1. rewrite <-app_assoc. rewrite find_terminator_skip; [by rewrite Hk|].
  destruct (Z.lt_ge_cases (zlen header) 3) as [Hs|Hs].
  - assert (start = 0) as E by (unfold start, saturating_sub; lia). rewrite E. simpl.
    apply find_terminator_short. zlia.
  - assert (length (sub_bytes header start (zlen header)) = 3%nat) as Hl
      by (unfold sub_bytes; rewrite length_take, length_drop; unfold start, saturating_sub, zlen in *; lia).
    rewrite take_app_le by lia. rewrite (take_ge (sub_bytes _ _ _)) by lia. by rewrite <-Hsplit.
Qed.

(** ** Reading keeps the order of the octets *)
Definition br_ok (r : BufReader) : Prop := front_ok (br_inner r) ∧ 0 < br_capacity r.

(** The next [n] octets arrive, in nonempty pieces. *)
Definition br_flows (r : BufReader) (n : Z) : Prop :=
  stream_flows (br_inner r) (n - zlen (br_buffer r)) ∧ 0 < br_capacity r.

Lemma br_flows_ok r n : br_flows r n → br_ok r.
Proof. intros [[? _] ?]. done. Qed.

Lemma fill_buf_spec r : br_ok r →
  match fill_buf r with
  | (res, r') => br_ok r' ∧ unread_all r' = unread_all r ∧
      match res with IoOk bs => br_buffer r' = bs | _ => True end
  end.
Proof.
  intros [Hok Hc]. unfold fill_buf, unread_all. destruct (br_buffer r) as [|b l] eqn:Eb; [|by rewrite Eb].
  pose proof (poll_read_ok (br_inner r) (br_capacity r) Hok ltac:(lia)) as Hok'.
  pose proof (poll_read_unread (br_inner r) (br_capacity r) Hok ltac:(lia)) as [Hu _].
  destruct (poll_read _ _) as [[bs|e|] st]; simpl in *; (split; [done|]); split; try done.
  by destruct Hu as [-> _].
Qed.

Lemma consume_spec r n : br_ok r → 0 ≤ n → n ≤ zlen (br_buffer r) →
  br_ok (consume n r) ∧ unread_all r = take (Z.to_nat n) (br_buffer r) ++ unread_all (consume n r).
Proof. intros Hok ? ?. split; [done|]. unfold unread_all, consume. simpl. by rewrite app_assoc, take_drop. Qed.

Lemma fill_buf_flows r n : 0 < n → br_flows r n → ∃ bs r', fill_buf r = (IoOk bs, r') ∧ bs ≠ [] ∧ br_flows r' n.
Proof.
  intros Hn [Hf Hc]. unfold fill_buf. destruct (br_buffer r) as [|b l] eqn:Eb.
  - rewrite zlen_nil, Z.sub_0_r in Hf. destruct (stream_flows_poll _ _ _ Hc Hn Hf) as (bs & st & -> & Hne & Hf').
    by exists bs, (mkBufReader bs st (br_capacity r)).
  - exists (b :: l), r. split_and!; [done|done|]. split; [by rewrite Eb|done].
Qed.

Lemma consume_flows r n k : 0 ≤ k ≤ zlen (br_buffer r) → br_flows r n → br_flows (consume k r) (n - k).
Proof.
  intros Hk [Hf Hc]. split; [|done]. unfold consume. simpl.
  replace (n - k - zlen (drop (Z.to_nat k) (br_buffer r))) with (n - zlen (br_buffer r)) by zlia. done.
Qed.

(** ** How reading ends

    Octets are taken off the reader as its reads deliver them. *)
Inductive br_reads (r : BufReader) : list Z → BufReader → Prop :=
  | reads_nothing : br_reads r [] r
  | reads_more got r1 bs r2 n :
      br_reads r got r1 → fill_buf r1 = (IoOk bs, r2) → bs ≠ [] → 0 < n ≤ zlen bs →
      br_reads r (got ++ take (Z.to_nat n) bs) (consume n r2).

(** Behind the octets [got] a read gave [result]. *)
Definition ended (r : BufReader) (got : list Z) (result : io_result (list Z)) (r' : BufReader) : Prop :=
  ∃ r1, br_reads r got r1 ∧ fill_buf r1 = (result, r').

(** Why a head is not read: it stands for what the last read gave. *)
Definition head_error (allow_eof : bool) (got : list Z) (result : io_result (list Z)) (e : NegotiationError) : Prop :=
  match result with
  | Stalled => e = NTimeout
  | IoErr io => e = NIo io
  | IoOk [] => e = protocol_error "connection closed before HTTP headers completed" ∧ ¬ (allow_eof = true ∧ got = [])
  | IoOk available => e = protocol_error "HTTP headers exceed supported limit" ∧
      MAX_HTTP_HEADER_BYTES < match find_header_terminator (got ++ available) with
                              | Some i => i + 4
                              | None => zlen (got ++ available)
                              end
  end.

(** Why a short body is not read. *)
Definition body_error (result : io_result (list Z)) (e : NegotiationError) : Prop :=
  match result with
  | Stalled => e = NTimeout
  | IoErr io => e = NIo io
  | IoOk [] => e = protocol_error "connection closed before receiving declared HTTP body"
  | IoOk _ => False
  end.

Lemma read_head_spec fuel eof r0 header r : br_reads r0 header r → br_ok r → find_header_terminator header = None →
  zlen header ≤ MAX_HTTP_HEADER_BYTES → (length (unread_all r) < fuel)%nat →
  let all := header ++ unread_all r in
  match read_head fuel eof header r with
  | (Ok (Some head), r') => br_ok r' ∧ all = head ++ unread_all r' ∧
      find_header_terminator all = Some (zlen head - 4) ∧ zlen head ≤ MAX_HTTP_HEADER_BYTES ∧ br_reads r0 head r'
  | (Ok None, r') => eof = true ∧ header = [] ∧ unread_all r' = unread_all r ∧ ended r0 [] (IoOk []) r'
  | (Err e, r') => ∃ got result, ended r0 got result r' ∧ find_header_terminator got = None ∧
      zlen got ≤ MAX_HTTP_HEADER_BYTES ∧ head_error eof got result e
  | _ => False
  end.
Proof.
  revert header r. induction fuel as [|fuel IH]; intros header r Hrun Hok Hnone Hmax Hfuel all; [lia|]. cbn [read_head].
  pose proof (fill_buf_spec r Hok) as Hf.
  assert (∀ result r1 e, fill_buf r = (result, r1) → head_error eof header result e →
    ∃ got result', ended r0 got result' r1 ∧ find_header_terminator got = None ∧
      zlen got ≤ MAX_HTTP_HEADER_BYTES ∧ head_error eof got result' e) as Hends
    by (intros result r1 e Hfill He; exists header, result; split; [by exists r|done]).
  destruct (fill_buf r) as [[available|e|] r1] eqn:Hfill; [|by eapply Hends..].
  destruct Hf as (Hok1 & Hu & Hbuf). case_bool_decide as Hav.
  { subst available. rewrite Hav in *. destruct eof; simpl; [case_bool_decide as Hhd; [|]|].
    - subst header. split_and!; [done|done|done|by exists r].
    - eapply Hends; [done|]. split; [done|]. by intros [_ ?].
    - eapply Hends; [done|]. split; [done|]. by intros [? _]. }
  assert (∀ e, e = protocol_error "HTTP headers exceed supported limit" →
    MAX_HTTP_HEADER_BYTES < match find_header_terminator (header ++ available) with
      Some i => i + 4 | None => zlen (header ++ available) end → head_error eof header (IoOk available) e) as Hlong
    by (intros e He Hl; by destruct available).
  pose proof (search_window header available Hnone) as Hw. cbv zeta in Hw. rewrite <-Hbuf in *.
  assert (all = (header ++ br_buffer r1) ++ unread (br_inner r1)) as Hall
    by (unfold all; rewrite <-Hu; unfold unread_all; by rewrite app_assoc).
  destruct (find_header_terminator (sub_bytes _ _ _ ++ _)) as [rel|]; simpl in Hw.
  - pose proof (find_terminator_bound _ _ Hw) as [Hb1 Hb2]. rewrite zlen_app in Hb2.
    set (start := saturating_sub (zlen header) 3) in *.
    assert (find_header_terminator all = Some (start + rel)) as Hfind by (rewrite Hall; by apply find_terminator_app).
    assert (zlen header < start + rel + 4) as Hlt.
    { apply (find_terminator_after _ _ _ Hnone Hw). }
    destruct (Z.ltb_spec MAX_HTTP_HEADER_BYTES (start + rel + 4)).
    { eapply Hends; [done|]. apply Hlong; [done|]. by rewrite Hw. }
    assert (saturating_sub (start + rel + 4) (zlen header) = start + rel + 4 - zlen header) as -> by (unfold saturating_sub; lia).
    destruct (Z.ltb_spec (zlen (br_buffer r1)) (start + rel + 4 - zlen header)); [lia|].
    destruct (consume_spec r1 (start + rel + 4 - zlen header) Hok1 ltac:(lia) ltac:(lia)) as [Hok2 Hu2].
    split; [done|]. assert (zlen (take (Z.to_nat (start + rel + 4 - zlen header)) (br_buffer r1)) = start + rel + 4 - zlen header) by zlia.
    split_and!.
    + unfold all. rewrite <-Hu, Hu2. by rewrite app_assoc.
    + rewrite Hfind. f_equal. rewrite zlen_app. lia.
    + rewrite zlen_app. lia.
    + eapply reads_more; [done|done|done|lia].
  - destruct (Z.ltb_spec MAX_HTTP_HEADER_BYTES (zlen header + zlen (br_buffer r1))) as [Hlt|Hle].
    { eapply Hends; [done|]. apply Hlong; [done|]. by rewrite Hw, zlen_app. }
    destruct (consume_spec r1 (zlen (br_buffer r1)) Hok1 (zlen_nonneg _) ltac:(lia)) as [Hok2 Hu2].
    rewrite take_ge in Hu2 by (unfold zlen; lia).
    assert (all = (header ++ br_buffer r1) ++ unread_all (consume (zlen (br_buffer r1)) r1)) as Hall2
      by (unfold all; by rewrite <-Hu, Hu2, app_assoc).
    assert (br_reads r0 (header ++ br_buffer r1) (consume (zlen (br_buffer r1)) r1)) as Hrun2.
    { rewrite <-(take_ge (br_buffer r1) (Z.to_nat (zlen (br_buffer r1)))) at 1 by (unfold zlen; lia).
      eapply reads_more; [done|done|done|]. destruct (br_buffer r1); [done|]. rewrite zlen_cons. zlia. }
    specialize (IH (header ++ br_buffer r1) (consume (zlen (br_buffer r1)) r1) Hrun2 Hok2 Hw ltac:(rewrite zlen_app; lia)).
    rewrite <-Hall2 in IH. cbv zeta in IH.
    assert (length (unread_all (consume (zlen (br_buffer r1)) r1)) < fuel)%nat as Hfuel2.
    { rewrite <-Hu, Hu2, length_app in Hfuel. destruct (br_buffer r1); [done|]. simpl in *. lia. }
    specialize (IH Hfuel2). destruct (read_head _ _ _ _) as [[[head|]|e| |] r']; try done.
    destruct IH as (_ & Happ & _). by destruct header, (br_buffer r1).
Qed.

Lemma read_head_flows fuel eof header r i n : find_header_terminator header = None →
  find_header_terminator (header ++ unread_all r) = Some i → i + 4 ≤ MAX_HTTP_HEADER_BYTES →
  zlen header < i + 4 → i + 4 - zlen header ≤ n → br_flows r n → (length (unread_all r) < fuel)%nat →
  ∃ head r', read_head fuel eof header r = (Ok (Some head), r') ∧ br_flows r' (n - (i + 4 - zlen header)).
Proof.
  revert header r n. induction fuel as [|fuel IH]; intros header r n Hnone Hfind Hmax Hlt Hn Hflow Hfuel; [lia|].
  cbn [read_head]. destruct (fill_buf_flows r n ltac:(lia) Hflow) as (available & r1 & Hfill & Hne & Hflow1).
  pose proof (fill_buf_spec r (br_flows_ok _ _ Hflow)) as Hf. rewrite Hfill in *. destruct Hf as (Hok1 & Hu & Hbuf).
  rewrite bool_decide_eq_false_2 by done.
  pose proof (search_window header available Hnone) as Hw. cbv zeta in Hw. rewrite <-Hbuf in *.
  assert (header ++ unread_all r = (header ++ br_buffer r1) ++ unread (br_inner r1)) as Hall
    by (rewrite <-Hu; unfold unread_all; by rewrite app_assoc).
  destruct (find_header_terminator (sub_bytes _ _ _ ++ _)) as [rel|]; simpl in Hw.
  - set (start := saturating_sub (zlen header) 3) in *.
    assert (i = start + rel) as ->.
    { pose proof (find_terminator_app _ (unread (br_inner r1)) _ Hw) as Hx. rewrite <-Hall in Hx. congruence. }
    pose proof (find_terminator_bound _ _ Hw) as [Hb1 Hb2]. rewrite zlen_app in Hb2.
    destruct (Z.ltb_spec MAX_HTTP_HEADER_BYTES (start + rel + 4)); [lia|].
    assert (saturating_sub (start + rel + 4) (zlen header) = start + rel + 4 - zlen header) as -> by (unfold saturating_sub; lia).
    destruct (Z.ltb_spec (zlen (br_buffer r1)) (start + rel + 4 - zlen header)); [lia|].
    eexists _, _. split; [done|]. apply consume_flows; [lia|done].
  - assert (zlen header + zlen (br_buffer r1) < i + 4) as Hlt2.
    { rewrite Hall in Hfind. pose proof (find_terminator_after _ _ _ Hw Hfind) as Hx. by rewrite zlen_app in Hx. }
    destruct (Z.ltb_spec MAX_HTTP_HEADER_BYTES (zlen header + zlen (br_buffer r1))); [lia|].
    destruct (consume_spec r1 (zlen (br_buffer r1)) Hok1 (zlen_nonneg _) ltac:(lia)) as [Hok2 Hu2].
    rewrite take_ge in Hu2 by (unfold zlen; lia).
    destruct (IH (header ++ br_buffer r1) (consume (zlen (br_buffer r1)) r1) (n - zlen (br_buffer r1)) Hw)
      as (head & r' & Hr & Hfl); try done.
    + rewrite <-Hfind, <-Hu, Hu2. by rewrite app_assoc.
    + rewrite zlen_app. lia.
    + rewrite zlen_app. lia.
    + apply consume_flows; [|done]. pose proof (zlen_nonneg (br_buffer r1)). lia.
    + rewrite <-Hu, Hu2, length_app in Hfuel. destruct (br_buffer r1); [done|]. simpl in *. lia.
    + exists head, r'. split; [done|]. rewrite zlen_app in Hfl.
      replace (n - (i + 4 - zlen header)) with (n - zlen (br_buffer r1) - (i + 4 - (zlen header + zlen (br_buffer r1)))) by lia.
      done.
Qed.

Lemma read_body_spec fuel len r0 head body r : br_reads r0 (head ++ body) r → br_ok r → zlen body ≤ len → len - zlen body ≤ Z.of_nat fuel →
  match read_body fuel len body r with
  | (Ok got, r') => br_ok r' ∧ zlen got = len ∧ body ++ unread_all r = got ++ unread_all r'
  | (Err e, r') => ∃ got result, ended r0 (head ++ got) result r' ∧ zlen got < len ∧ body_error result e
  | _ => False
  end.
Proof.
  revert body r. induction fuel as [|fuel IH]; intros body r Hrun Hok Hle Hfuel; cbn [read_body];
    destruct (Z.leb_spec len (zlen body)); try lia; try (split_and!; [done|lia|done]).
  pose proof (fill_buf_spec r Hok) as Hf. destruct (fill_buf r) as [[available|e|] r1] eqn:Hfill.
  2, 3: exists body; eexists; split; [by exists r|]; split; [done|done].
  destruct Hf as (Hok1 & Hu & <-). pose proof (zlen_nonneg (br_buffer r1)).
  destruct (Z.eqb_spec (Z.min (len - zlen body) (zlen (br_buffer r1))) 0) as [Hz|Hnz].
  { assert (br_buffer r1 = []) as E by (apply zlen_0_nil; lia). exists body, (IoOk []). rewrite E in Hfill.
    split; [by exists r|]. split; [done|done]. }
  set (n := Z.min (len - zlen body) (zlen (br_buffer r1))) in *.
  destruct (consume_spec r1 n Hok1 ltac:(lia) ltac:(lia)) as [Hok2 Hu2].
  assert (zlen (take (Z.to_nat n) (br_buffer r1)) = n) as Hn by zlia.
  assert (br_reads r0 (head ++ body ++ take (Z.to_nat n) (br_buffer r1)) (consume n r1)) as Hrun2.
  { rewrite app_assoc. eapply reads_more; [done|done| |lia]. intros E. apply Hnz. unfold n. rewrite E, zlen_nil. lia. }
  specialize (IH (body ++ take (Z.to_nat n) (br_buffer r1)) (consume n r1) Hrun2 Hok2).
  rewrite zlen_app, Hn in IH. specialize (IH ltac:(lia) ltac:(lia)).
  destruct (read_body _ _ _ _) as [[got|e| |] r']; try done. destruct IH as (? & ? & Hg). split_and!; try done.
  by rewrite <-Hg, <-Hu, Hu2, app_assoc.
Qed.

Lemma read_body_flows fuel len body r n : zlen body ≤ len → len - zlen body ≤ Z.of_nat fuel → len - zlen body ≤ n →
  br_flows r n → ∃ got r', read_body fuel len body r = (Ok got, r') ∧ br_flows r' (n - (len - zlen body)).
Proof.
  revert body r n. induction fuel as [|fuel IH]; intros body r n Hle Hfuel Hn Hflow; cbn [read_body];
    destruct (Z.leb_spec len (zlen body)); try lia;
    try (eexists _, _; split; [done|]; replace (n - (len - zlen body)) with n by lia; done).
  destruct (fill_buf_flows r n ltac:(lia) Hflow) as (available & r1 & Hfill & Hne & Hflow1).
  pose proof (fill_buf_spec r (br_flows_ok _ _ Hflow)) as Hf. rewrite Hfill in *. destruct Hf as (Hok1 & Hu & <-).
  assert (0 < zlen (br_buffer r1)) as Hp.
  { destruct (br_buffer r1); [done|]. rewrite zlen_cons. pose proof (zlen_nonneg l). lia. }
  set (k := Z.min (len - zlen body) (zlen (br_buffer r1))) in *. destruct (Z.eqb_spec k 0); [lia|].
  assert (zlen (take (Z.to_nat k) (br_buffer r1)) = k) as Hk by zlia.
  destruct (IH (body ++ take (Z.to_nat k) (br_buffer r1)) (consume k r1) (n - k)) as (got & r' & Hr & Hfl).
  - rewrite zlen_app. lia.
  - rewrite zlen_app. lia.
  - rewrite zlen_app. lia.
  - apply consume_flows; [lia|done].
  - exists got, r'. split; [done|]. rewrite zlen_app, Hk in Hfl.
    replace (n - (len - zlen body)) with (n - k - (len - (zlen body + k))) by lia. done.
Qed.

(** ** Requests on a stream *)
Section requests.
Context `{HL : !HttpParseLib} {Json : Type} (endpoint : EndpointRuntimeConfig Json).

(** [head] is the head at the start of [all]: up to its first blank line. *)
Definition head_of (all head : list Z) : Prop :=
  (∃ rest, all = head ++ rest) ∧ find_header_terminator all = Some (zlen head - 4) ∧
  zlen head ≤ MAX_HTTP_HEADER_BYTES.

(** The body phase says where the [len] octets of the body are: all of them are
    read, or the prefix is and the rest is still to come. *)
Definition phase_of (phase : HttpBodyPhase) (read : list Z) (len inline_limit : Z) : Prop :=
  match phase with
  | Buffered bytes => bytes = read ∧ zlen read = len
  | NeedsStreaming prefix remaining => prefix = read ∧ inline_limit < len ∧ 0 < remaining ∧ zlen read + remaining = len
  | Finished => False
  end.

(** Why what follows the head is not read. *)
Definition after_head_error (inline_limit : Z) (r : BufReader) (head : list Z) (e : NegotiationError) (r' : BufReader) : Prop :=
  parse_http_request head = Err e ∨
  ∃ request n, parse_http_request head = Ok (request, Some n) ∧
    (body_limit endpoint < n ∧ e = limit_exceeded n (body_limit endpoint) ∨
     n ≤ body_limit endpoint ∧ n ≤ inline_limit ∧
       ∃ got result, ended r (head ++ got) result r' ∧ zlen got < n ∧ body_error result e).

Lemma digits_value_nonneg s : all_digits s = true → 0 ≤ digits_value s.
Proof.
  unfold digits_value. assert (∀ v, 0 ≤ v → all_digits s = true → 0 ≤ foldl (λ v c, v * 10 + (c - 0x30)) v s) as H.
  { induction s as [|c s IH]; intros v Hv; simpl; [done|]. intros [Hc Hs]%andb_true_iff. apply IH; [|done].
    unfold is_ascii_digit in Hc. lia. }
  apply H. lia.
Qed.

Lemma declared_nonneg head request n : parse_http_request head = Ok (request, Some n) → 0 ≤ n.
Proof.
  intros H. pose proof (parse_http_request_spec head) as Hs. rewrite H in Hs.
  destruct Hs as (_ & _ & _ & hs & _ & _ & ((h & Hin & Hh) & _ & Hall) & _).
  destruct (Hall h Hin Hh) as (_ & d & _ & _ & _ & _ & _ & Hd & ->). by apply digits_value_nonneg.
Qed.

Lemma read_after_head_spec inline_limit r0 head r : br_reads r0 head r → br_ok r → 0 ≤ inline_limit →
  match read_after_head endpoint inline_limit head r with
  | (Ok (Some (request, phase)), r') => ∃ len read, parse_http_request head = Ok (request, len) ∧
      unread_all r = read ++ unread_all r' ∧ br_ok r' ∧ (∀ n, len = Some n → n ≤ body_limit endpoint) ∧
      phase_of phase read (default 0 len) inline_limit
  | (Ok None, _) => False
  | (Err e, r') => after_head_error inline_limit r0 head e r'
  | _ => False
  end.
Proof.
  intros Hrun Hok Hlim. unfold read_after_head. pose proof (parse_http_request_spec head) as Hspec.
  destruct (parse_http_request head) as [[request [n|]]|e| |] eqn:Hp; try done; [|by exists None, []|by left].
  clear Hspec. pose proof (declared_nonneg _ _ _ Hp) as Hn.
  destruct (Z.ltb_spec (body_limit endpoint) n) as [Hover|Hle].
  { right. exists request, n. split; [done|]. by left. }
  destruct (Z.leb_spec n inline_limit) as [Hshort|Hlong].
  - pose proof (read_body_spec (Z.to_nat n) n r0 head [] r ltac:(by rewrite app_nil_r) Hok ltac:(by rewrite zlen_nil) ltac:(rewrite zlen_nil; lia)) as Hb.
    destruct (read_body _ _ _ _) as [[got|e| |] r']; try done.
    + destruct Hb as (? & Hg & Hu). exists (Some n), got. split_and!; try done. by intros ? [= <-].
    + right. exists request, n. split; [done|]. right. by split_and!.
  - set (k := Z.min n (zlen (br_buffer r))). pose proof (zlen_nonneg (br_buffer r)).
    destruct (consume_spec r k Hok ltac:(lia) ltac:(lia)) as [Hok' Hu].
    exists (Some n), (take (Z.to_nat k) (br_buffer r)). split_and!; [done|done|done|by intros ? [= <-]|].
    assert (zlen (take (Z.to_nat k) (br_buffer r)) = k) as Hk by zlia. unfold classify_http_body. cbn [default].
    destruct (Z.eqb_spec n 0); [lia|]. rewrite Hk. unfold k. destruct (Z.leb_spec n (Z.min n (zlen (br_buffer r)))).
    + simpl. fold k. rewrite take_take. replace (Z.to_nat n `min` Z.to_nat k)%nat with (Z.to_nat k) by lia. split; [done|lia].
    + simpl. fold k. unfold saturating_sub. split_and!; [done|lia|lia|lia].
Qed.

(** What a reader reads, and that it stays well formed. *)
Lemma read_request_spec allow_eof inline_limit r : br_ok r → 0 ≤ inline_limit →
  match read_http_request_with_options endpoint allow_eof inline_limit r with
  | (Ok (Some (request, phase)), r') =>
      br_ok r' ∧ ∃ head len read, head_of (unread_all r) head ∧ parse_http_request head = Ok (request, len) ∧
        unread_all r = head ++ read ++ unread_all r' ∧ (∀ n, len = Some n → n ≤ body_limit endpoint) ∧
        phase_of phase read (default 0 len) inline_limit
  | (Ok None, r') => allow_eof = true ∧ unread_all r' = unread_all r ∧ ended r [] (IoOk []) r'
  | (Err e, r') =>
      (∃ got result, ended r got result r' ∧ find_header_terminator got = None ∧
         zlen got ≤ MAX_HTTP_HEADER_BYTES ∧ head_error allow_eof got result e) ∨
      ∃ head, head_of (unread_all r) head ∧ after_head_error inline_limit r head e r'
  | _ => False
  end.
Proof.
  intros Hok Hlim. unfold read_http_request_with_options.
  pose proof (read_head_spec (head_fuel r) allow_eof r [] r (reads_nothing r) Hok eq_refl ltac:(done) ltac:(unfold head_fuel; lia)) as Hh.
  cbv zeta in Hh. cbn [app] in Hh. destruct (read_head _ _ _ _) as [[[head|]|e| |] r1]; try done.
  - destruct Hh as (Hok1 & Hu & Hf & Hm & Hrun).
    assert (head_of (unread_all r) head) as Hhead by (split_and!; [by exists (unread_all r1)|done|done]).
    pose proof (read_after_head_spec inline_limit r head r1 Hrun Hok1 Hlim) as Hb.
    destruct (read_after_head _ _ _ _) as [[[[request phase]|]|e| |] r2]; try done.
    + destruct Hb as (len & read & Hp & Hu1 & ? & Hl & Hph). split; [done|]. exists head, len, read. rewrite Hu, Hu1.
      rewrite Hu, Hu1 in Hhead. by split_and!.
    + right. by exists head.
  - by destruct Hh as (-> & _ & -> & ?).
  - by left.
Qed.

(** C28: reading a request takes exactly its octets off the stream, however they
    arrive: the head up to the first blank line, at most 64 KiB, then the declared
    body up to the inline limit, or what is buffered of a longer one with the
    number of octets to come.  What follows, such as a pipelined request, stays
    unread.  The body is never over the endpoint's limit.  No request without an
    error is only the end of the stream, where that is allowed.  An error is the
    one of what the last read gave, behind what was read of the head or the body
    before: a stall a timeout, an i/o error itself, an end of the stream in the
    head or the body a closed connection, and octets with which the head is over
    64 KiB the error for that; otherwise it is the refusal of the head, or of a
    length over the limit.  The loops end, and no slice is out of bounds. *)
Theorem http_request_read_exact allow_eof inline_limit r : br_ok r → 0 ≤ inline_limit →
  match read_http_request_with_options endpoint allow_eof inline_limit r with
  | (Ok (Some (request, phase)), r') =>
      ∃ head len read, head_of (unread_all r) head ∧ parse_http_request head = Ok (request, len) ∧
        unread_all r = head ++ read ++ unread_all r' ∧ (∀ n, len = Some n → n ≤ body_limit endpoint) ∧
        phase_of phase read (default 0 len) inline_limit
  | (Ok None, r') => allow_eof = true ∧ unread_all r' = unread_all r ∧ ended r [] (IoOk []) r'
  | (Err e, r') =>
      (∃ got result, ended r got result r' ∧ find_header_terminator got = None ∧
         zlen got ≤ MAX_HTTP_HEADER_BYTES ∧ head_error allow_eof got result e) ∨
      ∃ head, head_of (unread_all r) head ∧ after_head_error inline_limit r head e r'
  | _ => False
  end.
Proof.
  intros Hok Hlim. pose proof (read_request_spec allow_eof inline_limit r Hok Hlim) as H.
  destruct (read_http_request_with_options _ _ _ _) as [[[[request phase]|]|e| |] r']; [by destruct H as [_ H]|done..].
Qed.

(** A request that arrives is read. *)
Lemma read_request_arrives allow_eof inline_limit r head request len : 0 ≤ inline_limit →
  head_of (unread_all r) head → parse_http_request head = Ok (request, len) → default 0 len ≤ body_limit endpoint →
  br_flows r (zlen head + (if default 0 len <=? inline_limit then default 0 len else 0)) →
  ∃ phase r', read_http_request_with_options endpoint allow_eof inline_limit r = (Ok (Some (request, phase)), r').
Proof.
  intros Hlim ([rest Hall] & Hf & Hm) Hp Hl Hflow. unfold read_http_request_with_options.
  set (n := zlen head + (if default 0 len <=? inline_limit then default 0 len else 0)) in *.
  assert (0 ≤ default 0 len) as Hlen by (destruct len as [k|]; simpl; [by eapply declared_nonneg|done]).
  pose proof (find_terminator_bound _ _ Hf) as [Hb1 Hb2].
  assert (zlen head ≤ n) as Hn by (unfold n; destruct (_ <=? _); lia).
  assert (head_fuel r > length (unread_all r))%nat as Hfuel by (unfold head_fuel; lia).
  destruct (read_head_flows (head_fuel r) allow_eof [] r (zlen head - 4) n eq_refl) as (head' & r1 & Hr & Hfl);
    [done|lia|rewrite zlen_nil; lia|rewrite zlen_nil; lia|done|lia|].
  pose proof (read_head_spec (head_fuel r) allow_eof r [] r (reads_nothing r) (br_flows_ok _ _ Hflow) eq_refl ltac:(done) ltac:(lia)) as Hh.
  cbv zeta in Hh. rewrite Hr in *. destruct Hh as (Hok1 & Hu & Hf' & _). simpl in Hu, Hf'.
  assert (head' = head) as ->.
  { rewrite Hf in Hf'. injection Hf' as Hz. rewrite Hall in Hu. symmetry in Hu.
    apply app_inj_1 in Hu as [? _]; [done|]. unfold zlen in Hz. lia. }
  rewrite zlen_nil in Hfl. unfold read_after_head. rewrite Hp. destruct len as [k|]; [|by eexists _, _]. simpl in *.
  destruct (Z.ltb_spec (body_limit endpoint) k); [lia|]. destruct (Z.leb_spec k inline_limit); [|by eexists _, _].
  destruct (read_body_flows (Z.to_nat k) k [] r1 (n - (zlen head - 4 + 4 - 0))) as (got & r' & -> & _);
    [rewrite zlen_nil; lia|rewrite zlen_nil; lia|rewrite zlen_nil; unfold n; lia|done|by eexists _, _].
Qed.

(** when the octets of a request's head and of its short body arrive, in
    whatever pieces, with a head that parses and a length within the endpoint's
    limit, the request is read. *)
Theorem http_request_read_arrives allow_eof inline_limit r head request len : 0 ≤ inline_limit →
  head_of (unread_all r) head → parse_http_request head = Ok (request, len) → default 0 len ≤ body_limit endpoint →
  br_flows r (zlen head + (if default 0 len <=? inline_limit then default 0 len else 0)) →
  ∃ phase r', read_http_request_with_options endpoint allow_eof inline_limit r = (Ok (Some (request, phase)), r').
Proof. apply read_request_arrives. Qed.
End requests.

(** ** Examples *)

(** A parser of one request: POST with a body of three octets. *)
#[local] Instance demo_http : HttpParseLib := {|
  http_parse _ := HttpComplete (Some (lit "POST")) (Some (lit "/api?x")) (Some 1) [(lit "content-length", lit " 3 ")];
|}.

Definition demo_head : list Z := lit "POST /api?x HTTP/1.1" ++ [0x0D; 0x0A] ++ lit "content-length: 3 " ++ CRLF2.

(** The head, the body and a following octet, in awkward pieces. *)
Definition demo_reader : BufReader :=
  mkBufReader [] (IoStream_plain [RBytes (take 37 demo_head); RBytes (drop 37 demo_head ++ [1; 2]); RBytes [3; 4]] [] (inr true)) 1024.

#[local] Existing Instance ascii_case.

Lemma demo_flows : br_flows demo_reader 47.
Proof. split; [|done]. split; [by vm_compute|]. vm_compute. by repeat (right; split; [done|]); left. Qed.

Lemma demo_head_of : head_of (unread_all demo_reader) demo_head.
Proof. split_and!; [exists [1; 2; 3; 4]; reflexivity|vm_compute; reflexivity|by vm_compute]. Qed.

Lemma http_request_read_exact_witness :
  ∃ request phase r', read_http_request_with_options (runtime_config demo_endpoint) true 65536 demo_reader = (Ok (Some (request, phase)), r') ∧
    ∃ head len read, head_of (unread_all demo_reader) head ∧ parse_http_request head = Ok (request, len) ∧
      unread_all demo_reader = head ++ read ++ unread_all r' ∧ phase_of phase read (default 0 len) 65536.
Proof.
  pose proof (http_request_read_exact (runtime_config demo_endpoint) true 65536 demo_reader (br_flows_ok _ _ demo_flows) ltac:(done)) as H.
  destruct (read_http_request_with_options _ _ _ _) as [[[[request phase]|]|e| |] r'] eqn:E;
    try (vm_compute in E; discriminate E).
  exists request, phase, r'. split; [reflexivity|]. destruct H as (head & len & read & ? & ? & ? & _ & ?).
  exists head, len, read. split_and!; assumption.
Defined.

Lemma http_request_read_arrives_witness :
  ∃ request phase r', read_http_request_with_options (runtime_config demo_endpoint) true 65536 demo_reader
    = (Ok (Some (request, phase)), r').
Proof.
  destruct (parse_http_request demo_head) as [[request len]| | |] eqn:E; [|vm_compute in E; discriminate E..].
  exists request. apply (http_request_read_arrives (runtime_config demo_endpoint) true 65536 demo_reader demo_head request len);
    [done|apply demo_head_of|done|..].
  - vm_compute in E. injection E as _ <-. by vm_compute.
  - vm_compute in E. injection E as _ <-. apply demo_flows.
Defined.
