(* ===== verification/HttpBody.v ===== *)
(** * Streamed request bodies

    Of [ct_core/src/http_body.rs]: the queue between the task that reads a long
    HTTP/1 body and the thread that takes it, with its lock and condition
    variable, as one relation that steps either; and [HttpBodyHandle] of
    [lib.rs].  A [Bytes] is its octets and a number that stands for its
    allocation, so that a slice handed over is a reference into it. *)
From stdpp Require Import relations.
From S2P Require Import Prelude Bytes Text IoStream Handshake RouterConfig HttpFraming HttpReader.

Definition STREAMING_CHUNK_SIZE : Z := 64 * 1024.

Record StreamingChunk : Type := mkStreamingChunk {
  sc_id : nat;
  sc_data : list Z;
  sc_offset : Z;
}.

Definition chunk_remaining (chunk : StreamingChunk) : Z := saturating_sub (zlen (sc_data chunk)) (sc_offset chunk).

(** The texts of [error]. *)
Inductive body_failure : Type :=
  | BodyClosed
  | BodyReadFailed (e : io_error)
  | BodyTimedOut.

Record StreamingBodyState : Type := mkBodyState {
  bs_chunks : list StreamingChunk;
  bs_last_chunk : option (nat * list Z);
  bs_finished : bool;
  bs_finish_requested : bool;
  bs_total_len : Z;
  bs_error : option body_failure;
}.

(** [HttpBodySlice]: a pointer into an allocation, and a length. *)
Record HttpBodySlice : Type := mkBodySlice {
  slice_of : nat;
  slice_at : Z;
  slice_len : Z;
}.

Definition body_state_new (total_len : Z) : StreamingBodyState := mkBodyState [] None false false total_len None.

(** [fetch_add] wraps. *)
Definition extend_total_len (delta : Z) (st : StreamingBodyState) : StreamingBodyState :=
  if delta =? 0 then st
  else mkBodyState (bs_chunks st) (bs_last_chunk st) (bs_finished st) (bs_finish_requested st)
         ((bs_total_len st + delta) mod 2 ^ 64) (bs_error st).

Definition set_chunks (chunks : list StreamingChunk) (st : StreamingBodyState) : StreamingBodyState :=
  mkBodyState chunks (bs_last_chunk st) (bs_finished st) (bs_finish_requested st) (bs_total_len st) (bs_error st).

(** The critical section of [enqueue_bytes]; the notification follows it. *)
Definition enqueue_bytes (id : nat) (bytes : list Z) (st : StreamingBodyState) : StreamingBodyState :=
  if bool_decide (bytes = []) then st
  else set_chunks (bs_chunks st ++ [mkStreamingChunk id bytes 0]) st.

(** The store of [request_finish]. *)
Definition request_finish (st : StreamingBodyState) : StreamingBodyState :=
  mkBodyState (bs_chunks st) (bs_last_chunk st) (bs_finished st) true (bs_total_len st) (bs_error st).

(** The critical section of [mark_finished], which notifies under the lock. *)
Definition mark_finished (st : StreamingBodyState) : StreamingBodyState :=
  mkBodyState (bs_chunks st) (bs_last_chunk st) true (bs_finish_requested st) (bs_total_len st) (bs_error st).

(** The store that [mark_error] makes before it marks the end. *)
Definition set_error (e : body_failure) (st : StreamingBodyState) : StreamingBodyState :=
  mkBodyState (bs_chunks st) (bs_last_chunk st) (bs_finished st) (bs_finish_requested st) (bs_total_len st) (Some e).

Definition set_last_chunk (chunk : nat * list Z) (st : StreamingBodyState) : StreamingBodyState :=
  mkBodyState (bs_chunks st) (Some chunk) (bs_finished st) (bs_finish_requested st) (bs_total_len st) (bs_error st).

(** What [take_slice] has when it releases the lock: a slice with the chunk it
    points into, an answer, or nothing, and then it waits. *)
Inductive taken : Type :=
  | TakenSlice (chunk : nat * list Z) (slice : HttpBodySlice)
  | TakenEnd
  | TakenError (e : body_failure)
  | TakenWait.

(** The loop over the front of the queue. *)
Fixpoint take_front (len : Z) (chunks : list StreamingChunk) :
    option ((nat * list Z) * HttpBodySlice * list StreamingChunk) :=
  match chunks with
  | [] => None
  | chunk :: rest =>
      let available := chunk_remaining chunk in
      if available =? 0 then take_front len rest
      else
        let request_len := Z.min (Z.max len 1) available in
        let slice := mkBodySlice (sc_id chunk) (sc_offset chunk) request_len in
        let offset := sc_offset chunk + request_len in
        let chunks := if zlen (sc_data chunk) <=? offset then rest
                      else mkStreamingChunk (sc_id chunk) (sc_data chunk) offset :: rest in
        Some ((sc_id chunk, sc_data chunk), slice, chunks)
  end.

(** [take_slice] from taking the lock to releasing it. *)
Definition take_locked (len : Z) (st : StreamingBodyState) : taken * StreamingBodyState :=
  match take_front len (bs_chunks st) with
  | Some (chunk, slice, chunks) => (TakenSlice chunk slice, set_chunks chunks st)
  | None =>
      if bs_finished st then
        match bs_error st with
        | Some err => (TakenError err, set_chunks [] st)
        | None => (TakenEnd, set_chunks [] st)
        end
      else (TakenWait, set_chunks [] st)
  end.

(** The octets behind a slice, as long as its allocation is kept. *)
Definition slice_octets (st : StreamingBodyState) (slice : HttpBodySlice) : option (list Z) :=
  match bs_last_chunk st with
  | Some (id, data) =>
      if bool_decide (id = slice_of slice) && (0 <=? slice_at slice) && (slice_at slice + slice_len slice <=? zlen data)
      then Some (sub_bytes data (slice_at slice) (slice_at slice + slice_len slice)) else None
  | None => None
  end.

(** ** The two sides *)

(** Where [run_http1_stream_reader] is. *)
Inductive producer_pc : Type :=
  | PRun
  | PPush (chunk : list Z)
  | PNotify
  | PFail (e : body_failure)
  | PFailed
  | PFinish
  | PDone (reclaimed : option IoStream).

Inductive take_result : Type :=
  | GotSlice (slice : HttpBodySlice)
  | GotEnd
  | GotError (e : body_failure).

(** Where the thread that takes slices is: between two calls, before the lock of
    a call, waiting, or behind the lock with a chunk to keep. *)
Inductive consumer_pc : Type :=
  | CIdle
  | CEnter (len : Z)
  | CWait (len : Z)
  | CKeep (chunk : nat * list Z) (slice : HttpBodySlice).

(** [w_got] are the octets of the slices returned so far, [w_result] is the last
    result. *)
Record BodyWorld : Type := mkBodyWorld {
  w_state : StreamingBodyState;
  w_producer : producer_pc;
  w_reader : IoStream;
  w_remaining : Z;
  w_next_id : nat;
  w_consumer : consumer_pc;
  w_got : list Z;
  w_result : option take_result;
}.

Definition set_producer (p : producer_pc) (w : BodyWorld) : BodyWorld :=
  mkBodyWorld (w_state w) p (w_reader w) (w_remaining w) (w_next_id w) (w_consumer w) (w_got w) (w_result w).
Definition set_state (st : StreamingBodyState) (w : BodyWorld) : BodyWorld :=
  mkBodyWorld st (w_producer w) (w_reader w) (w_remaining w) (w_next_id w) (w_consumer w) (w_got w) (w_result w).
Definition set_consumer (c : consumer_pc) (w : BodyWorld) : BodyWorld :=
  mkBodyWorld (w_state w) (w_producer w) (w_reader w) (w_remaining w) (w_next_id w) c (w_got w) (w_result w).

(** [notify_all]: a waiting consumer goes for the lock again. *)
Definition woken (c : consumer_pc) : consumer_pc := match c with CWait len => CEnter len | c => c end.
Definition notify (w : BodyWorld) : BodyWorld := set_consumer (woken (w_consumer w)) w.

(** One step of [run_http1_stream_reader]. *)
Definition producer_step (w : BodyWorld) : BodyWorld :=
  match w_producer w with
  | PRun =>
      if 0 <? w_remaining w then
        let request := Z.min (w_remaining w) STREAMING_CHUNK_SIZE in
        let (result, reader) := poll_read (w_reader w) request in
        let w := mkBodyWorld (w_state w) PRun reader (w_remaining w) (w_next_id w) (w_consumer w) (w_got w) (w_result w) in
        match result with
        | IoOk [] => set_producer (PFail BodyClosed) w
        | IoOk bytes =>
            mkBodyWorld (w_state w) (if bs_finish_requested (w_state w) then PRun else PPush bytes) reader
              (saturating_sub (w_remaining w) (zlen bytes)) (w_next_id w) (w_consumer w) (w_got w) (w_result w)
        | IoErr e => set_producer (PFail (BodyReadFailed e)) w
        | Stalled => set_producer (PFail BodyTimedOut) w
        end
      else set_producer PFinish w
  | PPush bytes =>
      mkBodyWorld (enqueue_bytes (w_next_id w) bytes (w_state w)) PNotify (w_reader w) (w_remaining w)
        (S (w_next_id w)) (w_consumer w) (w_got w) (w_result w)
  | PNotify => notify (set_producer PRun w)
  | PFail e => set_producer PFailed (set_state (set_error e (w_state w)) w)
  | PFailed => notify (set_producer PFinish (set_state (mark_finished (w_state w)) w))
  | PFinish =>
      notify (set_producer (PDone (if w_remaining w =? 0 then Some (w_reader w) else None))
                (set_state (mark_finished (w_state w)) w))
  | PDone _ => w
  end.

(** One step of a call of [take_slice]. *)
Definition consumer_step (w : BodyWorld) : BodyWorld :=
  match w_consumer w with
  | CEnter len =>
      let (result, st) := take_locked len (w_state w) in
      let w := set_state st w in
      let answer r := mkBodyWorld st (w_producer w) (w_reader w) (w_remaining w) (w_next_id w) CIdle (w_got w) (Some r) in
      match result with
      | TakenSlice chunk slice => set_consumer (CKeep chunk slice) w
      | TakenEnd => answer GotEnd
      | TakenError e => answer (GotError e)
      | TakenWait => set_consumer (CWait len) w
      end
  | CKeep chunk slice =>
      let st := set_last_chunk chunk (w_state w) in
      mkBodyWorld st (w_producer w) (w_reader w) (w_remaining w) (w_next_id w) CIdle
        (w_got w ++ default [] (slice_octets st slice)) (Some (GotSlice slice))
  | CIdle | CWait _ => w
  end.

(** Either side makes a step; the owner calls [take_slice] or asks to finish; a
    wait ends for no reason. *)
Inductive body_step : BodyWorld → BodyWorld → Prop :=
  | step_producer w : body_step w (producer_step w)
  | step_consumer w : body_step w (consumer_step w)
  | step_call w len : w_consumer w = CIdle → 0 ≤ len → body_step w (set_consumer (CEnter len) w)
  | step_request_finish w : body_step w (notify (set_state (request_finish (w_state w)) w))
  | step_spurious w : body_step w (notify w).

(** [spawn_http1_streaming_body] *)
Definition spawn_http1_streaming_body (prefix : list Z) (reader : IoStream) (remaining : Z) : BodyWorld :=
  let total_len := zlen prefix + remaining in
  mkBodyWorld (enqueue_bytes 0 prefix (body_state_new total_len)) PRun reader remaining 1 CIdle [] None.

(** ** What the queue holds *)
Definition chunk_rest (chunk : StreamingChunk) : list Z := sub_bytes (sc_data chunk) (sc_offset chunk) (zlen (sc_data chunk)).
Definition chunk_ok (chunk : StreamingChunk) : Prop := 0 ≤ sc_offset chunk < zlen (sc_data chunk).
Definition queue_octets (st : StreamingBodyState) : list Z := concat (chunk_rest <$> bs_chunks st).

Lemma fresh_chunk id bytes : bytes ≠ [] →
  chunk_ok (mkStreamingChunk id bytes 0) ∧ chunk_rest (mkStreamingChunk id bytes 0) = bytes.
Proof.
  intros Hne. split; [|apply sub_bytes_full]. unfold chunk_ok. simpl.
  destruct bytes as [|b bytes]; [done|]. rewrite zlen_cons. pose proof (zlen_nonneg bytes). lia.
Qed.

Lemma enqueue_octets id bytes st : Forall chunk_ok (bs_chunks st) →
  Forall chunk_ok (bs_chunks (enqueue_bytes id bytes st)) ∧
  queue_octets (enqueue_bytes id bytes st) = queue_octets st ++ bytes.
Proof.
  intros Hok. unfold enqueue_bytes. case_bool_decide as Hb; [by rewrite Hb, app_nil_r|].
  destruct (fresh_chunk id bytes Hb) as [Hc Hr]. unfold queue_octets. cbn [bs_chunks set_chunks].
  rewrite fmap_app, concat_app. cbn [fmap list_fmap concat]. rewrite Hr, app_nil_r.
  split; [|done]. apply Forall_app. split; [done|]. by constructor.
Qed.

(** A slice is the start of the queue, at least an octet, within its allocation. *)
Lemma take_front_spec len chunks : Forall chunk_ok chunks →
  match take_front len chunks with
  | Some ((id, data), slice, chunks') =>
      Forall chunk_ok chunks' ∧ slice_of slice = id ∧ 0 ≤ slice_at slice ∧ 0 < slice_len slice ∧
      slice_at slice + slice_len slice ≤ zlen data ∧
      concat (chunk_rest <$> chunks) =
        sub_bytes data (slice_at slice) (slice_at slice + slice_len slice) ++ concat (chunk_rest <$> chunks')
  | None => chunks = []
  end.
Proof.
  intros Hok. destruct Hok as [|chunk rest Hc Hok]; [done|]. unfold chunk_ok in Hc. cbn [take_front].
  unfold chunk_remaining, saturating_sub. destruct (Z.eqb_spec (Z.max 0 (zlen (sc_data chunk) - sc_offset chunk)) 0); [lia|].
  cbv zeta. cbn [slice_of slice_at slice_len].
  assert (∃ k, Z.min (Z.max len 1) (Z.max 0 (zlen (sc_data chunk) - sc_offset chunk)) = k) as [k Hk] by eauto. rewrite Hk.
  assert (0 < k ∧ sc_offset chunk + k ≤ zlen (sc_data chunk)) as [? ?] by lia.
  destruct (Z.leb_spec (zlen (sc_data chunk)) (sc_offset chunk + k)).
  - split_and!; [done|done|lia|lia|lia|]. cbn [fmap list_fmap concat]. unfold chunk_rest at 1. do 2 f_equal. lia.
  - split_and!; [|done|lia|lia|lia|].
    + constructor; [|done]. unfold chunk_ok. simpl. lia.
    + cbn [fmap list_fmap concat]. rewrite app_assoc. f_equal. unfold chunk_rest. cbn [sc_data sc_offset].
      by rewrite sub_bytes_join by lia.
Qed.

(** ** The invariant *)
Definition in_hand (w : BodyWorld) : list Z :=
  match w_consumer w with
  | CKeep chunk slice => sub_bytes chunk.2 (slice_at slice) (slice_at slice + slice_len slice)
  | _ => []
  end.
Definition in_push (w : BodyWorld) : list Z := match w_producer w with PPush bytes => bytes | _ => [] end.

(** Where the producer is, the end and the error agree. *)
Definition producer_ok (p : producer_pc) (reader : IoStream) (remaining : Z) (st : StreamingBodyState) : Prop :=
  match p with
  | PRun | PNotify => bs_finished st = false ∧ bs_error st = None
  | PPush bytes => bs_finished st = false ∧ bs_error st = None ∧ bytes ≠ []
  | PFail _ => bs_finished st = false ∧ bs_error st = None ∧ 0 < remaining
  | PFailed => bs_finished st = false ∧ is_Some (bs_error st) ∧ 0 < remaining
  | PFinish => bs_finished st = false ∧ bs_error st = None ∧ remaining = 0 ∨
               bs_finished st = true ∧ is_Some (bs_error st) ∧ 0 < remaining
  | PDone reclaimed => bs_finished st = true ∧
      (bs_error st = None ∧ remaining = 0 ∧ reclaimed = Some reader ∨
       is_Some (bs_error st) ∧ 0 < remaining ∧ reclaimed = None)
  end.

Definition consumer_ok (w : BodyWorld) : Prop :=
  let st := w_state w in
  match w_consumer w with
  | CEnter _ => True
  | CWait _ => bs_finished st = false ∧ (bs_chunks st = [] ∨ w_producer w = PNotify)
  | CKeep chunk slice => slice_of slice = chunk.1 ∧ 0 ≤ slice_at slice ∧ 0 < slice_len slice ∧
      slice_at slice + slice_len slice ≤ zlen chunk.2
  | CIdle =>
      match w_result w with
      | None => w_got w = []
      | Some (GotSlice slice) => ∃ before octets, slice_octets st slice = Some octets ∧ octets ≠ [] ∧ w_got w = before ++ octets
      | Some GotEnd => bs_finished st = true ∧ bs_error st = None ∧ bs_chunks st = []
      | Some (GotError e) => bs_finished st = true ∧ bs_error st = Some e ∧ bs_chunks st = []
      end
  end.

(** Projections of a stepped world. *)
Ltac fields := unfold notify, set_consumer, set_producer, set_state in *;
  cbn [w_state w_producer w_reader w_remaining w_consumer w_got w_result w_next_id] in *.

Section invariant.
Context (prefix all : list Z) (length : Z).

(** [all] is what the reader had to deliver, of which the body is to take
    [length] octets. *)
Definition octets_ok (w : BodyWorld) : Prop :=
  ∃ consumed dropped, all = consumed ++ unread (w_reader w) ∧ zlen consumed + w_remaining w = length ∧
    prefix ++ consumed = w_got w ++ in_hand w ++ queue_octets (w_state w) ++ in_push w ++ dropped ∧
    (bs_finish_requested (w_state w) = false → dropped = []).

Record body_inv (w : BodyWorld) : Prop := {
  bi_chunks : Forall chunk_ok (bs_chunks (w_state w));
  bi_reader : front_ok (w_reader w) ∧ 0 ≤ w_remaining w;
  bi_octets : octets_ok w;
  bi_producer : producer_ok (w_producer w) (w_reader w) (w_remaining w) (w_state w);
  bi_consumer : consumer_ok w;
}.

(** A step that moves no octets. *)
Lemma octets_kept w w' : octets_ok w → unread (w_reader w') = unread (w_reader w) → w_remaining w' = w_remaining w →
  w_got w' = w_got w → in_hand w' = in_hand w → in_push w' = in_push w →
  bs_chunks (w_state w') = bs_chunks (w_state w) →
  (bs_finish_requested (w_state w') = false → bs_finish_requested (w_state w) = false) → octets_ok w'.
Proof.
  intros (consumed & dropped & Hall & Hlen & Hoct & Hd) Hr Hm Hg Hh Hp Hq Hf. exists consumed, dropped.
  unfold queue_octets in *. rewrite Hr, Hm, Hg, Hh, Hp, Hq. split_and!; auto.
Qed.

(** The queue is not touched: what the consumer knows stays true, if a change of
    the end or the error meets no answer that relied on it. *)
Lemma woken_ok st st' p p' reader reader' remaining remaining' id id' c got result :
  consumer_ok (mkBodyWorld st p reader remaining id c got result) →
  bs_last_chunk st' = bs_last_chunk st → bs_chunks st' = bs_chunks st →
  (bs_finished st = true → bs_finished st' = true ∧ bs_error st' = bs_error st) →
  consumer_ok (mkBodyWorld st' p' reader' remaining' id' (woken c) got result).
Proof.
  intros Hc Hl Hq Hf. unfold consumer_ok in *. cbn [w_state w_consumer w_producer w_result w_got] in *.
  destruct c; cbn [woken]; [|done..]. destruct result as [[slice| |e]|]; [| | |done].
  - unfold slice_octets in *. by rewrite Hl.
  - destruct Hc as (? & ? & ?). destruct (Hf ltac:(done)) as [-> ->]. by rewrite Hq.
  - destruct Hc as (? & ? & ?). destruct (Hf ltac:(done)) as [-> ->]. by rewrite Hq.
Qed.

(** The same without a notification: a wait needs one to come. *)
Lemma still_ok st st' p p' reader reader' remaining remaining' id id' c got result :
  consumer_ok (mkBodyWorld st p reader remaining id c got result) →
  bs_last_chunk st' = bs_last_chunk st → bs_chunks st' = bs_chunks st →
  bs_finished st' = bs_finished st → (bs_finished st = true → bs_error st' = bs_error st) → p ≠ PNotify →
  consumer_ok (mkBodyWorld st' p' reader' remaining' id' c got result).
Proof.
  intros Hc Hl Hq Hf He Hp. destruct c as [|len|len|chunk slice]; [| |unfold consumer_ok in *; simpl in *|done].
  - eapply (woken_ok st st' p p' reader reader' remaining remaining' id id' CIdle); [exact Hc|done|done|]. rewrite Hf. auto.
  - done.
  - rewrite Hf, Hq. destruct Hc as [? [?|?]]; [|done]. split; [done|]. by left.
Qed.

Lemma read_inv w : body_inv w → w_producer w = PRun → body_inv (producer_step w).
Proof.
  intros [Hch [Hr Hrem] Ho Hp Hc] Hpc. destruct w as [st p reader remaining id c got result].
  cbn [w_state w_producer w_reader w_remaining w_consumer w_got w_result w_next_id] in *. subst p.
  unfold producer_step. cbn [w_state w_producer w_reader w_remaining w_consumer w_got w_result w_next_id].
  destruct Hp as [Hfin Herr]. destruct (Z.ltb_spec 0 remaining) as [Hpos|Hzero].
  2: { split; simpl; [done|done|by eapply octets_kept; [exact Ho|..]|left; split_and!; [done|done|lia]|].
       by eapply still_ok; [exact Hc|..]. }
  set (request := Z.min remaining STREAMING_CHUNK_SIZE).
  assert (0 < request ≤ remaining) as Hreq by (unfold request, STREAMING_CHUNK_SIZE; lia).
  pose proof (poll_read_ok reader request Hr ltac:(lia)) as Hr'.
  pose proof (poll_read_unread reader request Hr ltac:(lia)) as (Hu & _).
  destruct (poll_read reader request) as [[[|b bytes]|e|] reader']; cbn [snd] in *.
  1: destruct Hu as [Hu _]; simpl in Hu.
  1, 3, 4: split; [done|done| |done|by eapply still_ok; [exact Hc|..]]; by eapply octets_kept; [exact Ho|symmetry; exact Hu|..].
  destruct Hu as [Hu Hz]. remember (b :: bytes) as read eqn:Eread. assert (read ≠ []) as Hne by (by subst).
  assert (saturating_sub remaining (zlen read) = remaining - zlen read) as -> by (unfold saturating_sub; lia).
  split; cbn [w_state w_producer w_reader w_remaining w_consumer w_got w_result w_next_id];
    [done|split; [done|lia]| |by destruct (bs_finish_requested st)|by eapply still_ok; [exact Hc|..]].
  destruct Ho as (consumed & dropped & Hall & Hlen & Hoct & Hdrop). simpl in *.
  exists (consumed ++ read), (if bs_finish_requested st then dropped ++ read else []). simpl. rewrite zlen_app, app_assoc, Hoct.
  split_and!; [by rewrite Hall, Hu, app_assoc|lia| |by intros ->]. unfold in_hand, in_push. simpl.
  destruct (bs_finish_requested st); [by rewrite <-!app_assoc|]. by rewrite (Hdrop eq_refl), !app_nil_r, <-!app_assoc.
Qed.

Lemma push_inv w bytes : body_inv w → w_producer w = PPush bytes → body_inv (producer_step w).
Proof.
  intros [Hch Hr (consumed & dropped & Hall & Hlen & Hoct & Hdrop) Hp Hc] Hpc.
  destruct w as [st p reader remaining id c got result].
  cbn [w_state w_producer w_reader w_remaining w_consumer w_got w_result w_next_id] in *. subst p.
  destruct Hp as (Hfin & Herr & Hne). destruct (enqueue_octets id bytes st Hch) as [Hch' Hq].
  assert (enqueue_bytes id bytes st = set_chunks (bs_chunks st ++ [mkStreamingChunk id bytes 0]) st) as E
    by (unfold enqueue_bytes; by rewrite bool_decide_eq_false_2).
  rewrite E in *. unfold producer_step. cbn [w_state w_producer w_reader w_remaining w_consumer w_got w_result w_next_id].
  rewrite E. split; [done|done| |done|].
  - exists consumed, dropped. cbn [w_state w_reader w_remaining w_got]. rewrite Hq.
    split_and!; [done|done| |done]. simpl in Hoct. rewrite Hoct. unfold in_hand, in_push. simpl. by rewrite <-!app_assoc.
  - unfold consumer_ok in *. simpl in *. destruct c; [|done| |done].
    + destruct result as [[slice| |e]|]; [done| | |done]; destruct Hc as (Hc & _); congruence.
    + split; [done|]. by right.
Qed.

Lemma producer_inv w : body_inv w → body_inv (producer_step w).
Proof.
  intros Hinv. destruct (w_producer w) as [|bytes| |e| | |reclaimed] eqn:Epc; [by apply read_inv|by eapply push_inv|..];
    destruct Hinv as [Hch Hr Ho Hp Hc], w as [st p reader remaining id c got result]; simpl in Epc; subst p; simpl in Hp; unfold producer_step.
  - fields; split; [done|done| |done|].
    + eapply octets_kept; [exact Ho|done..| |done|done|done]. by destruct c.
    + eapply woken_ok; [exact Hc|done|done|done].
  - destruct Hp as (Hfin & Herr & Hpos). split; simpl; [done|done|by eapply octets_kept; [exact Ho|..]|done|].
    eapply still_ok; [exact Hc|done|done|done| |done]. intros Hf. congruence.
  - destruct Hp as (Hfin & Herr & Hpos). fields; split; [done|done| |by right|].
    + eapply octets_kept; [exact Ho|done..| |done|done|done]. by destruct c.
    + eapply woken_ok; [exact Hc|done|done|]. simpl. intros Hf. congruence.
  - fields; split; [done|done| | |].
    + eapply octets_kept; [exact Ho|done..| |done|done|done]. by destruct c.
    + simpl. split; [done|]. destruct Hp as [(_ & He & ->)|(_ & He & Hpos)]; [by left|right].
      destruct (Z.eqb_spec remaining 0); [lia|done].
    + eapply woken_ok; [exact Hc|done|done|done].
  - by split.
Qed.

Lemma set_chunks_producer chunks p reader remaining st :
  producer_ok p reader remaining st → producer_ok p reader remaining (set_chunks chunks st).
Proof. by destruct p. Qed.

Lemma consumer_inv w : body_inv w → body_inv (consumer_step w).
Proof.
  intros [Hch Hr Ho Hp Hc]. destruct w as [st p reader remaining id c got result].
  destruct c as [|len|len|chunk slice]; [by split..| |by split|].
  - (* one pass under the lock *)
    unfold consumer_step. cbn [w_consumer w_state w_producer w_reader w_remaining w_next_id w_got w_result].
    unfold take_locked. pose proof (take_front_spec len _ Hch) as Ht.
    cbn [w_state] in *. destruct (take_front len (bs_chunks st)) as [[[[cid data] slice] chunks]|].
    + destruct Ht as (Hch' & Hid & Hat & Hl & Hend & Hq).
      split; simpl; [done|done| |by apply set_chunks_producer|done].
      destruct Ho as (consumed & dropped & Hall & Hlen & Hoct & Hd). exists consumed, dropped. simpl in *.
      split_and!; [done|done| |done]. rewrite Hoct. unfold queue_octets, in_hand, in_push. simpl. rewrite Hq. by rewrite <-!app_assoc.
    + destruct (bs_finished st) eqn:Ef.
      * destruct (bs_error st) as [e|] eqn:Ee; (split; fields; [done|done| |by apply set_chunks_producer|done]);
          (eapply octets_kept; [exact Ho|done..|by simpl; rewrite Ht|done]).
      * split; simpl; [done|done| |by apply set_chunks_producer|by split; [|left]].
        eapply octets_kept; [exact Ho|done..|by simpl; rewrite Ht|done].
  - (* keeping the chunk *)
    unfold consumer_ok in Hc. simpl in Hc. destruct Hc as (Hid & Hat & Hl & Hend), chunk as [cid data]. simpl in *. subst cid.
    assert (slice_octets (set_last_chunk (slice_of slice, data) st) slice =
      Some (sub_bytes data (slice_at slice) (slice_at slice + slice_len slice))) as Hs.
    { unfold slice_octets. simpl. rewrite bool_decide_eq_true_2 by done. simpl.
      rewrite (proj2 (Z.leb_le _ _)), (proj2 (Z.leb_le _ _)) by done. done. }
    unfold consumer_step. simpl. rewrite Hs. simpl. split; simpl; [done|done| |by destruct p|].
    + destruct Ho as (consumed & dropped & Hall & Hlen & Hoct & Hd). exists consumed, dropped. simpl in *.
      split_and!; [done|done| |done]. rewrite Hoct. unfold in_hand, in_push. simpl. by rewrite <-!app_assoc.
    + exists got, (sub_bytes data (slice_at slice) (slice_at slice + slice_len slice)). split_and!; [done| |done].
      intros E. apply (f_equal zlen) in E. rewrite zlen_sub_bytes, zlen_nil in E by lia. lia.
Qed.

Lemma body_step_inv w w' : body_inv w → body_step w w' → body_inv w'.
Proof.
  intros Hinv Hstep. destruct Hstep as [w|w|w len Hidle _|w|w]; [by apply producer_inv|by apply consumer_inv|..];
    destruct Hinv as [Hch Hr Ho Hp Hc], w as [st p reader remaining id c got result].
  - simpl in Hidle. subst c. split; [done|done| |done|done]. by eapply octets_kept; [exact Ho|..].
  - fields; split; [done|done| |by destruct p|].
    + eapply octets_kept; [exact Ho|done..| |done|done|done]. by destruct c.
    + eapply woken_ok; [exact Hc|done|done|done].
  - fields; split; [done|done| |done|].
    + eapply octets_kept; [exact Ho|done..| |done|done|done]. by destruct c.
    + eapply woken_ok; [exact Hc|done|done|done].
Qed.
End invariant.

(** ** What the taker of a body sees *)
Section body.
Context (prefix : list Z) (reader : IoStream) (remaining : Z) (Hreader : front_ok reader) (Hremaining : 0 ≤ remaining).

Lemma spawn_inv : body_inv prefix (unread reader) remaining (spawn_http1_streaming_body prefix reader remaining).
Proof.
  destruct (enqueue_octets 0 prefix (body_state_new (zlen prefix + remaining)) ltac:(done)) as [Hch Hq].
  assert (∀ st, st = enqueue_bytes 0 prefix (body_state_new (zlen prefix + remaining)) →
    bs_finished st = false ∧ bs_error st = None ∧ bs_finish_requested st = false) as Hst.
  { intros st ->. unfold enqueue_bytes. by case_bool_decide. }
  unfold spawn_http1_streaming_body. destruct (Hst _ eq_refl) as (? & ? & ?). split; fields; [done|done| |done|done].
  exists [], []. cbn [w_state w_reader w_remaining w_got]. rewrite Hq, zlen_nil. split_and!; [done|lia| |done].
  unfold in_hand, in_push, queue_octets. simpl. by rewrite !app_nil_r.
Qed.

Lemma run_inv w : rtc body_step (spawn_http1_streaming_body prefix reader remaining) w →
  body_inv prefix (unread reader) remaining w.
Proof.
  intros Hrun. revert w Hrun. apply rtc_ind_r; [apply spawn_inv|]. intros w w' _ Hstep Hinv. by eapply body_step_inv.
Qed.

(** Once the end is marked, the producer pushes no more. *)
Lemma producer_ended w : producer_ok (w_producer w) (w_reader w) (w_remaining w) (w_state w) → bs_finished (w_state w) = true →
  (bs_error (w_state w) = None → w_remaining w = 0) ∧ (is_Some (bs_error (w_state w)) → 0 < w_remaining w) ∧ in_push w = [].
Proof.
  intros Hp Hf. assert (¬ is_Some (@None body_failure)) by (by intros []). unfold in_push.
  destruct (w_producer w) as [|b| |e| | |r]; simpl in Hp;
    [destruct Hp; congruence..| |].
  - destruct Hp as [(? & _)|(_ & ? & ?)]; [congruence|]. split_and!; [intros He; by rewrite He in *|done|done].
  - destruct Hp as [_ [(He & ? & _)|(? & ? & _)]]; (split_and!; [| |done]); [done|by rewrite He|intros He; by rewrite He in *|done].
Qed.

(** C22: a streamed request body reaches its taker whole and in order, whatever the
    interleaving of the reading task and the taking thread and however the octets
    are split on either side.  The slices are the announced octets from the first
    on, each readable until the next call.  The end is reported only after all of
    them, so a truncated body is never taken for a whole one: it ends in an error,
    after what arrived.  The task takes no octet past the body off the connection,
    and returns the connection exactly when it has taken the whole body. *)
Theorem streaming_body_exact w : rtc body_step (spawn_http1_streaming_body prefix reader remaining) w →
  ∃ consumed, unread reader = consumed ++ unread (w_reader w) ∧ zlen consumed ≤ remaining ∧
    (∃ rest, prefix ++ consumed = w_got w ++ rest) ∧
    (w_consumer w = CIdle →
       match w_result w with
       | None => w_got w = []
       | Some (GotSlice slice) => ∃ before octets,
           slice_octets (w_state w) slice = Some octets ∧ octets ≠ [] ∧ w_got w = before ++ octets
       | Some GotEnd => zlen consumed = remaining ∧
           (bs_finish_requested (w_state w) = false → w_got w = prefix ++ consumed)
       | Some (GotError _) => zlen consumed < remaining ∧
           (bs_finish_requested (w_state w) = false → w_got w = prefix ++ consumed)
       end) ∧
    (∀ reclaimed, w_producer w = PDone reclaimed →
       reclaimed = Some (w_reader w) ∧ zlen consumed = remaining ∨ reclaimed = None ∧ zlen consumed < remaining).
Proof.
  intros [_ [_ Hrem] (consumed & dropped & Hall & Hlen & Hoct & Hd) Hp Hc]%run_inv.
  exists consumed. split; [done|]. split; [lia|]. split; [eauto|]. split.
  - intros Hidle. unfold consumer_ok in Hc. rewrite Hidle in Hc. unfold in_hand in Hoct. rewrite Hidle in Hoct.
    assert (bs_finished (w_state w) = true → bs_chunks (w_state w) = [] →
      (bs_error (w_state w) = None → w_remaining w = 0) ∧ (is_Some (bs_error (w_state w)) → 0 < w_remaining w) ∧
      (bs_finish_requested (w_state w) = false → w_got w = prefix ++ consumed)) as Hend.
    { intros Hf Hq. unfold queue_octets in Hoct. rewrite Hq in Hoct.
      destruct (producer_ended w Hp Hf) as (H1 & H2 & Hpush). rewrite Hoct, Hpush. split_and!; [done|done|].
      intros Hr. by rewrite Hd, !app_nil_r. }
    destruct (w_result w) as [[slice| |e]|]; [done| | |done]; destruct Hc as (Hf & He & Hq); destruct (Hend Hf Hq) as (H1 & H2 & H3).
    + split; [|done]. specialize (H1 He). lia.
    + split; [|done]. rewrite He in H2. specialize (H2 ltac:(done)). lia.
  - intros reclaimed Hdone. rewrite Hdone in Hp. destruct Hp as [_ [(_ & ? & ->)|(_ & ? & ->)]]; [left|right]; split; [done|lia|done|lia].
Qed.

(** ** No wait is forgotten *)

(** The taker is for the lock, and finds octets or the end behind it. *)
Definition served (w : BodyWorld) : Prop :=
  (∃ len, w_consumer w = CEnter len) ∧ (bs_chunks (w_state w) ≠ [] ∨ bs_finished (w_state w) = true).

(** Within so many steps of the task, if the rest of the body is still wanted:
    once [request_finish] has been called, what arrives is dropped and only the
    end counts. *)
Definition soon (n : nat) (P : BodyWorld → Prop) (w : BodyWorld) : Prop :=
  ∃ k, (bs_finish_requested (w_state w) = false → (k ≤ n)%nat) ∧ P (Nat.iter k producer_step w).

Lemma producer_keeps_request w : bs_finish_requested (w_state (producer_step w)) = bs_finish_requested (w_state w).
Proof.
  unfold producer_step. repeat case_match; fields; try done; unfold enqueue_bytes; by case_bool_decide.
Qed.

Lemma soon_now n P w : P w → soon n P w.
Proof. exists 0%nat. split; [lia|done]. Qed.

Lemma soon_step n P w : soon n P (producer_step w) → soon (S n) P w.
Proof.
  intros (k & Hn & Hk). exists (S k). rewrite Nat.iter_succ_r. split; [|done].
  rewrite producer_keeps_request in Hn. intros Hf. specialize (Hn Hf). lia.
Qed.

Lemma soon_dropping n m P w : bs_finish_requested (w_state w) = true → soon n P (producer_step w) → soon m P w.
Proof. intros Hf (k & _ & Hk). exists (S k). rewrite Nat.iter_succ_r. split; [congruence|done]. Qed.

Lemma soon_more n m P w : (n ≤ m)%nat → soon n P w → soon m P w.
Proof. intros Hm (k & Hn & Hk). exists k. split; [|done]. intros Hf. specialize (Hn Hf). lia. Qed.

Definition taking (c : consumer_pc) : Prop := ∃ len, c = CEnter len ∨ c = CWait len.

Lemma taking_woken c : taking c → ∃ len, woken c = CEnter len.
Proof. intros (len & [-> | ->]); by exists len. Qed.

(** Behind a failure, or when the body is complete, the end is near. *)
Lemma ending_serves w : taking (w_consumer w) →
  match w_producer w with PFail _ | PFailed | PFinish => True | PRun => w_remaining w ≤ 0 | _ => False end → soon 2 served w.
Proof.
  intros [len Hc]%taking_woken Hp. destruct w as [st p r rem id c got result]; fields.
  assert (∀ st r rem, soon 1 served (mkBodyWorld st PFinish r rem id c got result)) as Hfinish.
  { intros. apply soon_step, soon_now. split; [by exists len|by right]. }
  destruct p as [|b| |e| | |]; try done.
  - apply soon_step. unfold producer_step. cbn [w_producer w_remaining]. destruct (Z.ltb_spec 0 rem); [lia|]. apply Hfinish.
  - apply soon_step, soon_step, soon_now. split; [by exists len|by right].
  - apply soon_step, soon_now. split; [by exists len|by right].
  - apply (soon_more 1); [lia|]. apply Hfinish.
Qed.

Lemma producer_serves_run fuel w : (Z.to_nat (w_remaining w) < fuel)%nat → w_producer w = PRun →
  body_inv prefix (unread reader) remaining w → taking (w_consumer w) → soon 3 served w.
Proof.
  revert w. induction fuel as [|fuel IH]; intros w Hfuel Hpc Hinv Hc; [lia|].
  destruct (Z.leb_spec (w_remaining w) 0) as [Hz|Hpos];
    [by apply (soon_more 2); [lia|apply ending_serves; [done|rewrite Hpc]]|].
  pose proof (producer_inv prefix (unread reader) remaining w Hinv) as Hinv'.
  destruct Hinv as [_ [Hr _] _ _ _], w as [st p r rem id c got result]; fields. subst p.
  destruct (bs_finish_requested st) eqn:Ef; [apply (soon_dropping 3 3); [done|]|apply soon_step];
    unfold producer_step in *; cbn [w_state w_producer w_reader w_remaining w_consumer w_got w_result w_next_id] in *;
    (destruct (Z.ltb_spec 0 rem); [|lia]);
    pose proof (poll_read_unread r (Z.min rem STREAMING_CHUNK_SIZE) Hr ltac:(unfold STREAMING_CHUNK_SIZE; lia)) as (Hu & _);
    (destruct (poll_read r _) as [[[|b bytes]|e|] r']; fields;
      try (by first [apply ending_serves | apply (soon_more 2); [lia|apply ending_serves]]));
    rewrite Ef in *; destruct Hu as [_ Hz].
  - apply IH; [|done|done|done]. simpl. unfold saturating_sub. rewrite zlen_cons in *. pose proof (zlen_nonneg bytes). lia.
  - apply soon_step, soon_step, soon_now. destruct (taking_woken c Hc) as [len Hw].
    split; fields; [by exists len|]. left. simpl. by destruct (bs_chunks st).
Qed.

Lemma producer_serves w : body_inv prefix (unread reader) remaining w → taking (w_consumer w) → soon 4 served w.
Proof.
  intros Hinv Hc. pose proof (producer_inv prefix (unread reader) remaining w Hinv) as Hinv'.
  destruct (taking_woken _ Hc) as [len Hw].
  destruct (w_producer w) as [|bytes| |e| | |reclaimed] eqn:Ep;
    try (apply (soon_more 2); [lia|]; apply ending_serves; [done|by rewrite Ep]).
  - apply (soon_more 3); [lia|]. by eapply producer_serves_run; [apply Nat.lt_succ_diag_r|..].
  - destruct Hinv as [_ _ _ Hp _]. rewrite Ep in Hp. destruct Hp as (_ & _ & Hne). apply soon_step, soon_step, soon_now.
    destruct w as [st p r rem id c got result]; fields. subst p. split; fields; [by exists len|]. left. simpl.
    unfold enqueue_bytes. rewrite bool_decide_eq_false_2 by done. simpl. by destruct (bs_chunks st).
  - apply soon_step. destruct w as [st p r rem id c got result]; fields. subst p. unfold producer_step in *. fields.
    eapply producer_serves_run; [apply Nat.lt_succ_diag_r|done|done|]. exists len. by left.
  - destruct Hinv as [_ _ _ Hp Hcons]. rewrite Ep in Hp. destruct Hp as [Hf _]. apply soon_now. split; [|by right].
    unfold consumer_ok in Hcons. destruct Hc as (len' & [Hc|Hc]); rewrite Hc in *; [by exists len'|]. destruct Hcons. congruence.
Qed.

Lemma served_returns w : body_inv prefix (unread reader) remaining w → served w →
  w_consumer (consumer_step (consumer_step w)) = CIdle.
Proof.
  intros [Hch _ _ _ _] [[len Hc] Hready]. destruct w as [st p r rem id c got result]; fields. subst c.
  unfold consumer_step at 2. fields. unfold take_locked. pose proof (take_front_spec len _ Hch) as Ht.
  destruct (take_front len (bs_chunks st)) as [[[[cid data] slice] chunks]|]; [done|].
  destruct Hready as [?|Hf]; [done|]. rewrite Hf. by destruct (bs_error st).
Qed.

(** C23: no notification is lost, and a call that takes a slice always returns.
    A taker that waits while octets are queued is a single step of the reading
    task, its notification, from returning them, and it never waits once the end
    is marked.  From every state that can be reached, with the taker before the
    lock or waiting, steps of the reading task alone lead to one in which the call
    returns within two steps of its own: the task's next read suffices, whatever
    it brings, which is at most four steps away, unless the owner has asked to
    finish; what arrives then is dropped, and the end of the body ends the wait.
    A peer that stops sending ends it as well. *)
Theorem streaming_body_wakes w : rtc body_step (spawn_http1_streaming_body prefix reader remaining) w →
  (∀ len, w_consumer w = CWait len → bs_finished (w_state w) = false ∧
     (bs_chunks (w_state w) ≠ [] → ∃ slice,
        let w' := consumer_step (consumer_step (producer_step w)) in
        w_consumer w' = CIdle ∧ w_result w' = Some (GotSlice slice))) ∧
  (taking (w_consumer w) → ∃ k, (bs_finish_requested (w_state w) = false → (k ≤ 4)%nat) ∧
     w_consumer (consumer_step (consumer_step (Nat.iter k producer_step w))) = CIdle).
Proof.
  intros Hinv%run_inv. split.
  - intros len Hc. pose proof (bi_consumer _ _ _ _ Hinv) as Hw. unfold consumer_ok in Hw. rewrite Hc in Hw.
    destruct Hw as [Hf Hq]. split; [done|]. intros Hne. destruct Hq as [?|Hp]; [done|].
    pose proof (bi_chunks _ _ _ _ Hinv) as Hch. destruct w as [st p r rem id c got result]; fields. subst p c.
    change (producer_step _) with (mkBodyWorld st PRun r rem id (CEnter len) got result).
    unfold consumer_step at 2 4. fields. unfold take_locked. pose proof (take_front_spec len _ Hch) as Ht.
    destruct (take_front len (bs_chunks st)) as [[[[cid data] slice] chunks]|]; [by exists slice|done].
  - intros Hc. destruct (producer_serves w Hinv Hc) as (k & Hn & Hk). exists k. split; [done|].
    apply served_returns; [|done]. clear Hn Hk. induction k as [|k IH]; [done|]. by apply producer_inv.
Qed.
End body.

(** ** The handle of a body *)
Inductive HttpBodyPayload : Type :=
  | InlinePayload (bytes : list Z)
  | StreamingPayload (state : StreamingBodyState).

(** [from_bytes] and [from_inline]; without octets it is [empty]. *)
Definition body_from_inline (bytes : list Z) : HttpBodyPayload := InlinePayload bytes.

Definition body_handle_len (payload : HttpBodyPayload) : Z :=
  match payload with
  | InlinePayload bytes => zlen bytes
  | StreamingPayload state => bs_total_len state
  end.

(** The offset and the length of the slice; the pointer is into the octets. *)
Definition body_slice (payload : HttpBodyPayload) (offset length : Z) : option (Z * Z) :=
  let total := body_handle_len payload in
  if total <? offset then None
  else
    let last := Z.min total (Z.min (2 ^ 64 - 1) (offset + length)) in
    let slice_len := saturating_sub last offset in
    match payload with
    | InlinePayload _ => Some (offset, slice_len)
    | StreamingPayload _ => None
    end.

Lemma body_slice_bounds bytes offset length : 0 ≤ offset → 0 ≤ length → zlen bytes < 2 ^ 64 →
  match body_slice (InlinePayload bytes) offset length with
  | Some (o, n) => o = offset ∧ 0 ≤ n ≤ length ∧ o + n ≤ zlen bytes ∧ (offset + length ≤ zlen bytes → n = length)
  | None => zlen bytes < offset
  end.
Proof.
  intros Ho Hl Hz. unfold body_slice. simpl. destruct (Z.ltb_spec (zlen bytes) offset); [done|]. unfold saturating_sub. lia.
Qed.

(** ** Examples *)

(** A body of five octets: two came with the head, one arrives, then the peer
    stalls; and the same body when all arrives. *)
Definition demo_body (reads : list read_event) : BodyWorld :=
  spawn_http1_streaming_body [1; 2] (IoStream_plain reads [] (inr true)) 3.

(** The taker first, then the task as far as it gets, then the taker. *)
Definition demo_calls (n : nat) (w : BodyWorld) : BodyWorld :=
  consumer_step (consumer_step (set_consumer (CEnter 8) (Nat.iter n producer_step w))).

Lemma demo_calls_run n w : w_consumer (Nat.iter n producer_step w) = CIdle → rtc body_step w (demo_calls n w).
Proof.
  intros Hc. unfold demo_calls. transitivity (Nat.iter n producer_step w).
  - clear Hc. induction n as [|n IH]; [done|]. eapply rtc_r; [exact IH|apply step_producer].
  - eapply rtc_l; [by apply (step_call _ 8)|]. eapply rtc_l; [apply step_consumer|]. apply rtc_once, step_consumer.
Qed.

Lemma streaming_body_exact_witness :
  let w := demo_calls 20 (demo_calls 3 (demo_calls 0 (demo_body [RBytes [3]; RStall]))) in
  rtc body_step (demo_body [RBytes [3]; RStall]) w ∧ w_got w = [1; 2; 3] ∧ w_result w = Some (GotError BodyTimedOut) ∧
  ∃ consumed, unread (w_reader (demo_body [RBytes [3]; RStall])) = consumed ++ unread (w_reader w) ∧ zlen consumed < 3.
Proof.
  intros w.
  assert (rtc body_step (demo_body [RBytes [3]; RStall]) w) as Hrun.
  { transitivity (demo_calls 3 (demo_calls 0 (demo_body [RBytes [3]; RStall]))); [|by apply (demo_calls_run 20)].
    transitivity (demo_calls 0 (demo_body [RBytes [3]; RStall])); [by apply (demo_calls_run 0)|by apply (demo_calls_run 3)]. }
  split; [exact Hrun|]. split; [reflexivity|]. split; [reflexivity|].
  destruct (streaming_body_exact [1; 2] (IoStream_plain [RBytes [3]; RStall] [] (inr true)) 3 ltac:(by vm_compute) ltac:(done) w Hrun) as (consumed & Hall & _ & _ & Hres & _).
  exists consumed. split; [exact Hall|]. specialize (Hres eq_refl). assert (w_result w = Some (GotError BodyTimedOut)) as E by reflexivity.
  rewrite E in Hres. exact (proj1 Hres).
Defined.

Lemma streaming_body_wakes_witness :
  let w := consumer_step (set_consumer (CEnter 8) (demo_calls 0 (demo_body [RStall]))) in
  rtc body_step (demo_body [RStall]) w ∧ w_consumer w = CWait 8 ∧
  ∃ k, (k ≤ 4)%nat ∧ w_consumer (consumer_step (consumer_step (Nat.iter k producer_step w))) = CIdle.
Proof.
  intros w. assert (rtc body_step (demo_body [RStall]) w) as Hrun.
  { transitivity (demo_calls 0 (demo_body [RStall])); [by apply (demo_calls_run 0)|]. eapply rtc_l; [by apply (step_call _ 8)|]. apply rtc_once, step_consumer. }
  split; [exact Hrun|]. split; [reflexivity|].
  destruct (streaming_body_wakes [1; 2] (IoStream_plain [RStall] [] (inr true)) 3 ltac:(by vm_compute) ltac:(done) w Hrun) as [_ Htaking].
  destruct Htaking as (k & Hk & Hidle); [exists 8; by right|]. exists k. split; [by apply Hk|exact Hidle].
Defined.
