(* ===== verification/HttpHead.v ===== *)
(** * Header blocks of HTTP/1

    What the HTTP code of [ct_core/src/lib.rs] and [protocol.rs] shares about
    header fields: lookups by name, token lists, the lines of a head and the
    reading of its fields, as in [perform_websocket_client_handshake]. *)
From S2P Require Import Prelude Bytes Text TextOps HttpFraming HttpReader.

Definition http_headers : Type := list (str * str).

Definition is_named (name : string) (h : str * str) : bool := eq_ignore_ascii_case h.1 (lit name).

(** [headers.iter().any(|(name, _)| name.eq_ignore_ascii_case(..))] *)
Definition has_header (name : string) (headers : http_headers) : bool := existsb (is_named name) headers.

(** [headers.iter().find(..).map(|(_, value)| value)] *)
Fixpoint find_header (name : string) (headers : http_headers) : option str :=
  match headers with
  | [] => None
  | h :: headers => if is_named name h then Some h.2 else find_header name headers
  end.

(** A comma-separated value holds a token, in any case. *)
Definition header_has_token (value : str) (needle : string) : bool :=
  existsb (λ token, eq_ignore_ascii_case (trim token) (lit needle)) (split_on 0x2C value).

(** ** Lines *)
Definition CRLF : str := [0x0D; 0x0A].

(** The line that [write!] makes of a field. *)
Definition header_line (h : str * str) : str := h.1 ++ lit ": " ++ h.2 ++ CRLF.
Definition header_lines (headers : http_headers) : str := concat (header_line <$> headers).

(** Prepends to the first piece of a split. *)
Definition grow_first (c : Z) (pieces : list str) : list str :=
  match pieces with w :: ws => (c :: w) :: ws | [] => [[c]] end.

(** [text.split("\r\n")] *)
Fixpoint split_crlf (s : str) : list str :=
  match s with
  | [] => [[]]
  | c :: s =>
      match s with
      | d :: s' => if (c =? 0x0D) && (d =? 0x0A) then [] :: split_crlf s' else grow_first c (split_crlf s)
      | [] => grow_first c [[]]
      end
  end.

(** [line.split_once(c)] *)
Fixpoint split_once (separator : Z) (s : str) : option (str * str) :=
  match s with
  | [] => None
  | c :: s => if c =? separator then Some ([], s) else prod_map (cons c) id <$> split_once separator s
  end.

(** The fields of the lines up to an empty one; a line without a colon is
    returned as the error. *)
Fixpoint parse_header_lines (lines : list str) : outcome str http_headers :=
  match lines with
  | [] => Ok []
  | line :: lines =>
      if bool_decide (line = []) then Ok []
      else match split_once 0x3A line with
           | None => Err line
           | Some (name, value) => cons (trim name, trim value) <$> parse_header_lines lines
           end
  end.

(** ** Text that stays on its line *)
Definition line_free (s : str) : Prop := 0x0D ∉ s ∧ 0x0A ∉ s.
#[global] Instance line_free_dec s : Decision (line_free s).
Proof. unfold line_free. apply _. Defined.

(** A field that is one line: text without line ends, no colon in its name. *)
Definition field_ok (h : str * str) : Prop :=
  (line_free h.1 ∧ str_ok h.1) ∧ (line_free h.2 ∧ str_ok h.2) ∧ 0x3A ∉ h.1.
#[global] Instance field_ok_dec h : Decision (field_ok h).
Proof. unfold field_ok, str_ok. apply _. Defined.

(** What a reader sees of a field: its parts without the blanks around. *)
Definition trimmed_field (h : str * str) : str * str := (trim h.1, trim h.2).

Lemma line_free_app s t : line_free (s ++ t) ↔ line_free s ∧ line_free t.
Proof. unfold line_free. rewrite !not_elem_of_app. tauto. Qed.

Lemma str_ok_app s t : str_ok (s ++ t) ↔ str_ok s ∧ str_ok t.
Proof. apply Forall_app. Qed.

Lemma trim_space v : trim (0x20 :: v) = trim v.
Proof. done. Qed.

(** ** Splitting the lines of a head *)
Lemma split_crlf_grow c s : c ≠ 0x0D → split_crlf (c :: s) = grow_first c (split_crlf s).
Proof. intros Hc. destruct s; simpl; [done|]. by destruct (Z.eqb_spec c 0x0D). Qed.

Lemma split_crlf_line w s : line_free w → split_crlf (w ++ CRLF ++ s) = w :: split_crlf s.
Proof.
  intros [Hr _]. induction w as [|c w IH]; [done|]. apply not_elem_of_cons in Hr as [Hc Hr].
  rewrite <-app_comm_cons, split_crlf_grow, IH by done. done.
Qed.

Lemma split_once_first c w s : c ∉ w → split_once c (w ++ c :: s) = Some (w, s).
Proof.
  induction w as [|d w IH]; simpl; intros Hn; [by rewrite Z.eqb_refl|].
  apply not_elem_of_cons in Hn as [Hd Hn]. rewrite IH by done. destruct (Z.eqb_spec d c); [by subst|done].
Qed.

(** The fields of a head are read back, up to the blanks around them. *)
Lemma parse_header_lines_back headers rest : Forall field_ok headers →
  parse_header_lines (split_crlf (header_lines headers ++ CRLF ++ rest)) = Ok (trimmed_field <$> headers).
Proof.
  induction 1 as [|[name value] headers ((Hn & _) & (Hv & _) & Hc) _ IH]; [done|]. cbn [fst snd] in Hn, Hv, Hc.
  change (header_lines ((name, value) :: headers))
    with ((name ++ lit ": " ++ value ++ CRLF) ++ header_lines headers).
  replace (((name ++ lit ": " ++ value ++ CRLF) ++ header_lines headers) ++ CRLF ++ rest)
    with ((name ++ lit ": " ++ value) ++ CRLF ++ (header_lines headers ++ CRLF ++ rest))
    by (by rewrite <-!app_assoc).
  rewrite split_crlf_line.
  - cbn [parse_header_lines]. change (lit ": " ++ value) with (0x3A :: 0x20 :: value).
    rewrite bool_decide_eq_false_2 by (by destruct name). rewrite split_once_first, IH by done. done.
  - rewrite !line_free_app. split_and!; try done. by apply (bool_decide_unpack (line_free (lit ": "))).
Qed.

(** ** The end of a head *)
Lemma utf8_char_octet c b : char_ok c = true → b ∈ utf8_char c → 0 ≤ b < 0x80 → b = c.
Proof.
  intros Hc%char_ok_range Hb ?. unfold utf8_char in Hb.
  case_match; [by apply list_elem_of_singleton in Hb|].
  repeat case_match; rewrite !elem_of_cons, elem_of_nil in Hb; destruct_or!; subst; exfalso; try done; dmlia.
Qed.

Lemma utf8_encode_free s b : str_ok s → 0 ≤ b < 0x80 → b ∉ s → b ∉ utf8_encode s.
Proof.
  intros Hs Hb Hn (c & Hbc & Hc)%list_elem_of_bind. pose proof (proj1 (Forall_forall _ _) Hs c Hc) as Hok.
  apply Hn. by rewrite (utf8_char_octet c b).
Qed.

(** Octets that hold no carriage return do not hold the start of a blank line. *)
Lemma find_terminator_free w s : 0x0D ∉ w →
  find_header_terminator (w ++ s) = Z.add (zlen w) <$> find_header_terminator s.
Proof.
  induction w as [|b w IH]; intros Hn.
  - simpl. rewrite zlen_nil. by destruct (find_header_terminator s).
  - apply not_elem_of_cons in Hn as [Hb Hn]. simpl app. rewrite find_terminator_cons.
    rewrite bool_decide_eq_false_2 by (unfold CRLF2; simpl; naive_solver). rewrite IH by done. rewrite zlen_cons.
    destruct (find_header_terminator s); simpl; [|done]. f_equal. lia.
Qed.

(** A line that is not the last of its block: the next one is not empty. *)
Lemma find_terminator_line w c s : 0x0D ∉ w → c ≠ 0x0D →
  find_header_terminator (w ++ CRLF ++ c :: s) = Z.add (zlen w + 2) <$> find_header_terminator (c :: s).
Proof.
  intros Hw Hc. rewrite find_terminator_free by done. unfold CRLF. simpl app.
  rewrite !(find_terminator_cons (0x0D)), !(find_terminator_cons (0x0A)).
  rewrite !bool_decide_eq_false_2 by (unfold CRLF2; simpl; naive_solver).
  destruct (find_header_terminator (c :: s)); simpl; [|done]. f_equal. lia.
Qed.

(** The octets of a block of lines. *)
Definition block (lines : list (list Z)) : list Z := concat ((λ w, w ++ CRLF) <$> lines).

Lemma block_cons w lines : block (w :: lines) = w ++ CRLF ++ block lines.
Proof. unfold block. simpl. by rewrite <-app_assoc. Qed.

Lemma block_app lines lines' : block (lines ++ lines') = block lines ++ block lines'.
Proof. unfold block. by rewrite fmap_app, concat_app. Qed.

(** The end of a block of nonempty lines. *)
Lemma find_terminator_block (lines : list (list Z)) rest :
  Forall (λ w, w ≠ [] ∧ 0x0D ∉ w) lines → lines ≠ [] →
  find_header_terminator (block lines ++ CRLF ++ rest) = Some (zlen (block lines) - 2).
Proof.
  intros Hl Hne. induction Hl as [|w lines [Hw Hr] Hl IH]; [done|]. rewrite block_cons. destruct lines as [|w' lines].
  - change (block []) with (@nil Z). rewrite app_nil_r, <-app_assoc.
    change (CRLF ++ CRLF ++ rest) with (CRLF2 ++ rest). rewrite find_terminator_free by done. unfold CRLF2, CRLF.
    simpl app. rewrite find_terminator_cons, bool_decide_eq_true_2 by done. simpl. f_equal. zlia.
  - specialize (IH ltac:(done)). apply Forall_cons in Hl as [[Hw' Hr'] _]. destruct w' as [|c w']; [done|].
    apply not_elem_of_cons in Hr' as [Hc _]. rewrite block_cons in *. rewrite <-!app_comm_cons in *.
    rewrite <-!app_assoc in *. rewrite <-!app_comm_cons in *.
    rewrite (find_terminator_line w c) by done. rewrite <-!app_assoc in *. rewrite IH. simpl. f_equal. unfold CRLF. zlia.
Qed.

(** A start line and fields make a head that ends where its blank line ends. *)
Definition line_of (h : str * str) : str := h.1 ++ lit ": " ++ h.2.

Lemma header_lines_block headers :
  utf8_encode (header_lines headers) = block ((λ h, utf8_encode (line_of h)) <$> headers).
Proof.
  induction headers as [|h headers IH]; [done|]. rewrite fmap_cons, block_cons, <-IH.
  change (header_lines (h :: headers)) with ((h.1 ++ lit ": " ++ h.2 ++ CRLF) ++ header_lines headers).
  unfold line_of. rewrite !utf8_encode_app, <-!app_assoc. done.
Qed.

Lemma head_terminator start headers rest : start ≠ [] → line_free start → str_ok start → Forall field_ok headers →
  let head := utf8_encode (start ++ CRLF ++ header_lines headers ++ CRLF) in
  find_header_terminator (head ++ rest) = Some (zlen head - 4).
Proof.
  intros Hne [Hs _] Hok Hf head.
  assert (head = block (utf8_encode start :: ((λ h, utf8_encode (line_of h)) <$> headers)) ++ CRLF) as ->.
  { subst head. by rewrite !utf8_encode_app, header_lines_block, block_cons, <-!app_assoc. }
  rewrite <-app_assoc, find_terminator_block; [f_equal; unfold CRLF; zlia| |done].
  constructor; [split; [|by apply utf8_encode_free]|].
  - destruct start as [|c start]; [done|]. intros E%(f_equal zlen). unfold utf8_encode in E. rewrite bind_cons, zlen_app in E.
    pose proof (zlen_nonneg (start ≫= utf8_char)). unfold utf8_char in E. repeat case_match; revert E; zlia.
  - apply Forall_fmap. eapply Forall_impl; [done|]. intros h (([Hr _] & Ho) & ([Hv _] & Hvo) & _). unfold compose, line_of. split.
    + rewrite !utf8_encode_app. intros E%(f_equal zlen). revert E. change (utf8_encode (lit ": ")) with [0x3A; 0x20]. zlia.
    + apply utf8_encode_free; [rewrite !str_ok_app; split_and!; try done; by apply (bool_decide_unpack (Forall _ _))|lia|].
      rewrite !not_elem_of_app. split_and!; try done. by apply (bool_decide_unpack (0x0D ∉ lit ": ")).
Qed.

(** ** Numbers *)
Lemma digit_char x : (x < 10)%N → Z.of_N (Ascii.N_of_ascii (pretty_N_char x)) = 0x30 + Z.of_N x.
Proof.
  intros Hx. assert (x ∈ [0; 1; 2; 3; 4; 5; 6; 7; 8; 9]%N) as Hin by (rewrite !elem_of_cons; lia).
  rewrite !elem_of_cons, elem_of_nil in Hin. by destruct_or!; subst.
Qed.

Lemma digits_value_app s t : digits_value (s ++ t) = digits_value s * 10 ^ zlen t + digits_value t.
Proof.
  unfold digits_value. rewrite foldl_app. generalize (foldl (λ v c, v * 10 + (c - 0x30)) 0 s) as a.
  assert (∀ a b, foldl (λ v c, v * 10 + (c - 0x30)) (a + b) t =
    a * 10 ^ zlen t + foldl (λ v c, v * 10 + (c - 0x30)) b t) as H.
  { induction t as [|c t IH]; intros a b; [change (a + b = a * 10 ^ 0 + b); lia|].
    cbn [foldl]. replace ((a + b) * 10 + (c - 48)) with (a * 10 + (b * 10 + (c - 48))) by lia. rewrite IH, zlen_cons.
    rewrite Z.pow_add_r by zlia. lia. }
  intros a. rewrite <-(Z.add_0_r a) at 1. apply H.
Qed.

Lemma pretty_N_go_digits x s : ∃ d, lit (pretty_N_go x s) = d ++ lit s ∧ all_digits d = true ∧
  digits_value d = Z.of_N x ∧ ((0 < x)%N → d ≠ []).
Proof.
  revert s. induction (N.lt_wf_0 x) as [x _ IH]. intros s. destruct (N.eq_dec x 0) as [->|Hx].
  - exists []. by rewrite pretty_N_go_0.
  - rewrite pretty_N_go_step by lia. destruct (IH (x `div` 10)%N ltac:(apply N.div_lt; lia)
      (String (pretty_N_char (x `mod` 10)) s)) as (d & Hd & Ha & Hv & _).
    pose proof (N.mod_lt x 10 ltac:(done)) as Hm. pose proof (N.div_mod x 10 ltac:(done)) as Hx'.
    generalize dependent (x `mod` 10)%N. generalize dependent (x `div` 10)%N. intros q Hv m Hd Hm Hx'.
    exists (d ++ [0x30 + Z.of_N m]). rewrite Hd. cbn [lit]. rewrite digit_char by done. split_and!.
    + by rewrite <-app_assoc.
    + unfold all_digits in *. rewrite forallb_app, Ha. cbn [forallb]. unfold is_ascii_digit. lia.
    + rewrite digits_value_app, Hv. change (digits_value [?c]) with (0 * 10 + (c - 0x30)).
      change (zlen [0x30 + Z.of_N m]) with 1. rewrite Z.pow_1_r. lia.
    + by destruct d.
Qed.

(** A number is written in digits of its value. *)
Lemma show_number_digits n : 0 ≤ n →
  all_digits (show_number n) = true ∧ digits_value (show_number n) = n ∧ show_number n ≠ [].
Proof.
  intros Hn. unfold show_number, pretty, pretty_Z. destruct n as [|p|p]; [done| |lia].
  unfold pretty, pretty_positive, pretty, pretty_N. rewrite decide_False by done.
  destruct (pretty_N_go_digits (N.pos p) "") as (d & Hd & Ha & Hv & Hne). simpl lit in Hd. rewrite app_nil_r in Hd.
  rewrite Hd. split_and!; [done|done|by apply Hne].
Qed.
