(* ===== verification/FileSender.v ===== *)
(** * Zero-copy file segments

    [RawSocketFileSender::send_file_segment] of [ct_core/src/rawsocket.rs]
    (Linux): a byte range of a file is sent with [sendfile] in as many calls as
    the socket needs.  [sendfile_event] is what each round of the loop meets. *)
From S2P Require Import Prelude Bytes IoStream.

Definition MAX_SENDFILE_COUNT : Z := 0x7ffff000.

Inductive sendfile_event : Type :=
  | SfWritableErr (e : io_error)   (* [socket.writable()] fails *)
  | SfSent (k : Z)                 (* the socket has room for [k] bytes *)
  | SfInterrupted                  (* EINTR *)
  | SfErr (e : io_error)           (* another error of [sendfile] *)
  | SfWouldBlock.                  (* the readiness was stale *)

Record SendState : Type := mkSendState {
  offset : Z;
  remaining : Z;
  (** bytes on the wire, and the zero-copy metrics *)
  sent : list Z;
  zero_copy_calls : Z;
  zero_copy_bytes : Z;
}.

(** [libc::sendfile(socket, file, &mut offset, count)] with room for [k] bytes:
    at least one byte unless the file ends at [offset]. *)
Definition sendfile (file : list Z) (offset count k : Z) : list Z :=
  let available := zlen file - offset in
  sub_bytes file offset (offset + Z.max 0 (Z.min (Z.max 1 k) (Z.min count available))).

Inductive send_result : Type :=
  | SendDone
  | SendErr (e : io_error)
  | SendPending.   (* the script ended while the loop awaits the socket *)

Fixpoint send_file_segment (events : list sendfile_event) (file : list Z) (st : SendState) :
    send_result * SendState :=
  if negb (0 <? remaining st) then (SendDone, st)
  else match events with
  | [] => (SendPending, st)
  | SfWritableErr e :: _ => (SendErr e, st)
  | SfWouldBlock :: events => send_file_segment events file st
  | ev :: events =>
      let count := Z.min (remaining st) MAX_SENDFILE_COUNT in
      (* off_t::try_from(offset) *)
      if negb (offset st <? 2 ^ 63) then (SendErr InvalidInput, st)
      else match ev with
      | SfInterrupted => send_file_segment events file st
      | SfErr e => (SendErr e, st)
      | SfSent k =>
          let bytes := sendfile file (offset st) count k in
          if zlen bytes =? 0 then (SendErr UnexpectedEof, st)
          else
            send_file_segment events file
              (mkSendState (offset st + zlen bytes) (remaining st - zlen bytes)
                 (sent st ++ bytes) (zero_copy_calls st + 1) (zero_copy_bytes st + zlen bytes))
      | _ => (SendErr OtherIo, st)
      end
  end.

Lemma sendfile_spec file off count k : 0 ≤ off → 0 < count →
  ∃ n, 0 ≤ n ≤ count ∧ n ≤ Z.max 0 (zlen file - off)
    ∧ sendfile file off count k = sub_bytes file off (off + n)
    ∧ zlen (sendfile file off count k) = n ∧ (n = 0 → zlen file ≤ off).
Proof.
  intros Hoff Hc. unfold sendfile. cbv zeta.
  exists (Z.max 0 (Z.min (Z.max 1 k) (Z.min count (zlen file - off)))).
  split_and!; try lia; [done|].
  destruct (decide (zlen file ≤ off)).
  - rewrite sub_bytes_nil by lia. rewrite zlen_nil. lia.
  - rewrite zlen_sub_bytes; lia.
Qed.

(** [n] more bytes of the range went out, in order. *)
Definition sent_more (file : list Z) (st st' : SendState) (n : Z) : Prop :=
  0 ≤ n ≤ remaining st ∧ offset st' = offset st + n ∧ remaining st' = remaining st - n
  ∧ sent st' = sent st ++ sub_bytes file (offset st) (offset st + n)
  ∧ zlen (sub_bytes file (offset st) (offset st + n)) = n
  ∧ zero_copy_bytes st' = zero_copy_bytes st + n.

Lemma sent_more_refl file st : 0 ≤ remaining st → sent_more file st st 0.
Proof.
  intros. unfold sent_more.
  rewrite (sub_bytes_nil file (offset st) (offset st + 0)), app_nil_r by lia.
  split_and!; first [done | lia].
Qed.

Lemma sent_more_trans file st1 st2 st3 n m : 0 ≤ offset st1 →
  sent_more file st1 st2 n → sent_more file st2 st3 m → sent_more file st1 st3 (n + m).
Proof.
  unfold sent_more. intros Hoff (? & Ho & Hr & Hs & Hz & Hb) (? & Ho' & Hr' & Hs' & Hz' & Hb').
  rewrite Ho, Hr in *. rewrite Hs in Hs'.
  assert (sub_bytes file (offset st1) (offset st1 + (n + m))
    = sub_bytes file (offset st1) (offset st1 + n)
      ++ sub_bytes file (offset st1 + n) (offset st1 + n + m)) as E.
  { rewrite Z.add_assoc. symmetry. apply sub_bytes_join; lia. }
  rewrite E. split_and!; try lia.
  - by rewrite Hs', (assoc_L (++)).
  - rewrite zlen_app. lia.
Qed.

Lemma send_file_segment_sent events file st :
  0 ≤ offset st → 0 ≤ remaining st →
  ∃ n, sent_more file st (send_file_segment events file st).2 n
    ∧ ((send_file_segment events file st).1 = SendDone → n = remaining st).
Proof.
  revert st. induction events as [|ev events IH]; intros st Hoff Hrem; cbn [send_file_segment];
    (destruct (Z.ltb_spec 0 (remaining st)); cbn [negb];
     [|exists 0; split; [by apply sent_more_refl|cbn; lia]]).
  { exists 0. split; [by apply sent_more_refl|done]. }
  assert (∀ e, ∃ n, sent_more file st (SendErr e, st).2 n
    ∧ ((SendErr e, st).1 = SendDone → n = remaining st)) as Hstop
    by (intros e; exists 0; split; [by apply sent_more_refl|done]).
  destruct ev as [e|k| |e|]; [apply Hstop| | | |by apply IH]; cbv zeta;
    (destruct (offset st <? 2 ^ 63); cbn [negb]; [|apply Hstop]);
    [|by apply IH|apply Hstop].
  assert (0 < Z.min (remaining st) MAX_SENDFILE_COUNT) as Hc by (unfold MAX_SENDFILE_COUNT; lia).
  destruct (sendfile_spec file (offset st) _ k Hoff Hc) as (n & Hn & Hav & E & Hz & Hn0).
  rewrite Hz. destruct (Z.eqb_spec n 0); [apply Hstop|].
  match goal with |- context [send_file_segment events file ?s] => set (st1 := s) in * end.
  assert (sent_more file st st1 n) as Hstep.
  { unfold sent_more, st1. cbn. rewrite E in *. split_and!; done || lia. }
  destruct (IH st1) as (m & Hm & Hdone); [unfold st1; cbn; lia..|].
  exists (n + m). split; [by apply (sent_more_trans file st st1)|].
  intros Hd. rewrite (Hdone Hd). unfold st1. cbn. lia.
Qed.

(** ** Properties *)

(** sending a file segment puts on the wire a prefix of exactly the
    requested byte range, in order and without gaps or repeats, however the
    socket splits, interrupts or delays the calls; when it reports success the
    whole range was sent, and the zero-copy byte counter grew by what was
    sent. *)
Theorem send_file_segment_exact events file off len calls bytes :
  0 ≤ off → 0 ≤ len →
  let '(r, st) := send_file_segment events file (mkSendState off len [] calls bytes) in
  ∃ n, 0 ≤ n ≤ len ∧ sent st = sub_bytes file off (off + n) ∧ zlen (sent st) = n
    ∧ zero_copy_bytes st = bytes + n
    ∧ (r = SendDone → sent st = sub_bytes file off (off + len)).
Proof.
  intros Hoff Hlen.
  destruct (send_file_segment_sent events file (mkSendState off len [] calls bytes))
    as (n & (Hn & _ & _ & Hs & Hz & Hb) & Hd); [done..|].
  destruct (send_file_segment _ _ _) as [r st]. cbn in *. exists n.
  rewrite Hs. split_and!; try done; [lia..|]. intros Hr. by rewrite (Hd Hr).
Qed.

Lemma send_file_segment_exact_witness :
  (send_file_segment [SfSent 3; SfWouldBlock; SfInterrupted; SfSent 9]
     [10; 11; 12; 13; 14; 15; 16; 17] (mkSendState 1 5 [] 0 0)).1 = SendDone
  ∧ ∃ n, 0 ≤ n ≤ 5.
Proof.
  split; [reflexivity|].
  destruct (send_file_segment_exact [SfSent 3; SfWouldBlock; SfInterrupted; SfSent 9]
    [10; 11; 12; 13; 14; 15; 16; 17] 1 5 0 0 ltac:(lia) ltac:(lia)) as (n & Hn & _).
  exists n. exact Hn.
Defined.
