(* ===== verification/WireWriter.v ===== *)
(** * A writer task's environment

    The socket a writer task sends to and what else it meets: the results of
    its writes and flushes, of the kernel's zero-copy sends and of its file
    reads, the random masks to come; with the scratch buffer the code passes
    along, and the monad the writers of [ct_core/src/lib.rs] are written in. *)
From S2P Require Import Prelude Bytes IoStream FileSender.

(** The result of one write: how much is accepted (a vectored write), a failure
    after some octets, or a wait nothing ends. *)
Inductive write_result : Type :=
  | WrAccept (n : Z)
  | WrFail (n : Z) (e : io_error)
  | WrStall.

(** The result of one positional read of a file. *)
Inductive file_event : Type :=
  | FeRead (k : Z)
  | FeInterrupted
  | FeErr (e : io_error).

Record Writer : Type := mkWriter {
  w_out : list Z;
  w_vectored : bool;
  w_script : list write_result;
  w_sendfile : list sendfile_event;
  w_reads : list file_event;
  w_rng : list (list Z);
  w_scratch : list Z;
}.

(** Why a writer stops: an error, or an await that nothing ends. *)
Inductive wr_stop : Type :=
  | StopErr (e : io_error)
  | StopPending.

Definition wr (A : Type) : Type := Writer → (wr_stop + A) * Writer.

#[global] Instance wr_ret : MRet wr := λ A a w, (inr a, w).
#[global] Instance wr_bind : MBind wr := λ A B f m w,
  match m w with (inr a, w) => f a w | (inl e, w) => (inl e, w) end.

Definition wr_fail {A} (e : io_error) : wr A := λ w, (inl (StopErr e), w).

Definition w_with (w : Writer) (out : list Z) (script : list write_result) : Writer :=
  mkWriter out (w_vectored w) script (w_sendfile w) (w_reads w) (w_rng w) (w_scratch w).

Definition get_scratch : wr (list Z) := λ w, (inr (w_scratch w), w).
Definition put_scratch (s : list Z) : wr unit := λ w,
  (inr (), mkWriter (w_out w) (w_vectored w) (w_script w) (w_sendfile w) (w_reads w) (w_rng w) s).
Definition is_write_vectored : wr bool := λ w, (inr (w_vectored w), w).

(** The first [n] of [bytes] as octets accepted. *)
Definition accepted (n : Z) (bytes : list Z) : list Z :=
  take (Z.to_nat (Z.max 0 (Z.min n (zlen bytes)))) bytes.

(** [writer.write_all(bytes).await] *)
Definition wr_write_all (bytes : list Z) : wr unit := λ w,
  match w_script w with
  | WrFail n e :: s => (inl (StopErr e), w_with w (w_out w ++ accepted n bytes) s)
  | WrStall :: s => (inl StopPending, w_with w (w_out w) s)
  | s => (inr (), w_with w (w_out w ++ bytes) (tail s))
  end.

(** [writer.write_vectored(&slices).await]: takes a prefix of the slices. *)
Definition wr_write_vectored (bytes : list Z) : wr Z := λ w,
  match w_script w with
  | WrFail _ e :: s => (inl (StopErr e), w_with w (w_out w) s)
  | WrStall :: s => (inl StopPending, w_with w (w_out w) s)
  | WrAccept n :: s =>
      (inr (zlen (accepted n bytes)), w_with w (w_out w ++ accepted n bytes) s)
  | [] => (inr (zlen bytes), w_with w (w_out w ++ bytes) [])
  end.

(** [writer.flush().await] *)
Definition wr_flush : wr unit := λ w,
  match w_script w with
  | WrFail _ e :: s => (inl (StopErr e), w_with w (w_out w) s)
  | WrStall :: s => (inl StopPending, w_with w (w_out w) s)
  | s => (inr (), w_with w (w_out w) (tail s))
  end.

(** [rand::thread_rng().fill_bytes(&mut mask)] *)
Definition random_mask : wr (list Z) := λ w,
  (inr (match w_rng w with m :: _ => m | [] => [0; 0; 0; 0] end),
   mkWriter (w_out w) (w_vectored w) (w_script w) (w_sendfile w) (w_reads w)
     (tail (w_rng w)) (w_scratch w)).

(** The zero-copy send of [len] octets of a file from [offset]; the sender's
    descriptor is a duplicate of the writer's socket. *)
Definition wr_send_file_segment (file : list Z) (offset len : Z) : wr unit := λ w,
  let '(r, st) := send_file_segment (w_sendfile w) file (mkSendState offset len [] 0 0) in
  let w' := mkWriter (w_out w ++ sent st) (w_vectored w) (w_script w) [] (w_reads w)
              (w_rng w) (w_scratch w) in
  match r with
  | SendDone => (inr (), w')
  | SendErr e => (inl (StopErr e), w')
  | SendPending => (inl StopPending, w')
  end.

(** The result of the next read of a file; reads are whole without a script. *)
Definition next_file_event : wr file_event := λ w,
  (inr (match w_reads w with ev :: _ => ev | [] => FeRead (2 ^ 64) end),
   mkWriter (w_out w) (w_vectored w) (w_script w) (w_sendfile w) (tail (w_reads w))
     (w_rng w) (w_scratch w)).

(** ** What went out *)

Lemma wr_bind_ok {A B} (m : wr A) (f : A → wr B) w b w' :
  (m ≫= f) w = (inr b, w') → ∃ a w1, m w = (inr a, w1) ∧ f a w1 = (inr b, w').
Proof. unfold mbind, wr_bind. destruct (m w) as [[e|a] w1]; [done|eauto]. Qed.

(** [bytes] went out; the masks to come are the same, and the scratch buffer is
    free to change. *)
Definition emitted (w w' : Writer) (bytes : list Z) : Prop :=
  w_out w' = w_out w ++ bytes ∧ w_rng w' = w_rng w.

Lemma emitted_nil w w' : w_out w' = w_out w → w_rng w' = w_rng w → emitted w w' [].
Proof. intros. split; [by rewrite app_nil_r|done]. Qed.

Lemma emitted_trans w1 w2 w3 a b : emitted w1 w2 a → emitted w2 w3 b → emitted w1 w3 (a ++ b).
Proof. intros [H1 H2] [H3 H4]. split; [by rewrite H3, H1, (assoc_L (++))|congruence]. Qed.

Lemma wr_write_all_ok bytes w u w' : wr_write_all bytes w = (inr u, w') →
  emitted w w' bytes ∧ w_scratch w' = w_scratch w.
Proof.
  unfold wr_write_all. destruct (w_script w) as [|[n|n e|] s]; intros ?; simplify_eq; by split.
Qed.

Lemma put_scratch_ok s w u w' : put_scratch s w = (inr u, w') →
  emitted w w' [] ∧ w_scratch w' = s.
Proof. unfold put_scratch. intros ?. simplify_eq. split; [by apply emitted_nil|done]. Qed.

Lemma wr_flush_ok w u w' : wr_flush w = (inr u, w') → emitted w w' [].
Proof.
  unfold wr_flush. destruct (w_script w) as [|[n|n e|] s]; intros ?; simplify_eq;
    by apply emitted_nil.
Qed.

Lemma accepted_spec n bytes : 0 ≤ zlen (accepted n bytes) ≤ zlen bytes
  ∧ accepted n bytes = take (Z.to_nat (zlen (accepted n bytes))) bytes.
Proof.
  pose proof (zlen_nonneg bytes). unfold accepted.
  assert (zlen (take (Z.to_nat (Z.max 0 (Z.min n (zlen bytes)))) bytes)
    = Z.max 0 (Z.min n (zlen bytes))) as E by zlia.
  rewrite E. split; [lia|done].
Qed.

Lemma wr_write_vectored_ok bytes w n w' : wr_write_vectored bytes w = (inr n, w') →
  0 ≤ n ≤ zlen bytes ∧ emitted w w' (take (Z.to_nat n) bytes) ∧ w_scratch w' = w_scratch w.
Proof.
  unfold wr_write_vectored. pose proof (zlen_nonneg bytes).
  destruct (w_script w) as [|[k|k e|] s]; intros ?; simplify_eq.
  - split; [lia|]. split; [|done]. split; [|done]. simpl. f_equal. symmetry. apply take_ge.
    unfold zlen. lia.
  - destruct (accepted_spec k bytes) as [? E]. split; [done|]. rewrite <-E. by split.
Qed.

(** ** What goes out, whatever happens

    [m] sends [bytes] and returns a value satisfying [P], or stops after a
    prefix of them. *)
Definition wr_spec {A} (m : wr A) (bytes : list Z) (P : A → Prop) : Prop := ∀ w,
  match m w with
  | (inr a, w') => emitted w w' bytes ∧ P a
  | (inl _, w') => ∃ k, k `prefix_of` bytes ∧ w_out w' = w_out w ++ k
  end.

Lemma wr_spec_ret {A} (a : A) (P : A → Prop) : P a → wr_spec (mret a) [] P.
Proof. intros H w. split; [by apply emitted_nil|done]. Qed.

Lemma wr_spec_fail {A} e bytes (P : A → Prop) : wr_spec (wr_fail e) bytes P.
Proof. intros w. exists []. split; [apply prefix_nil|by rewrite app_nil_r]. Qed.

Lemma wr_spec_bind {A B} (m : wr A) (f : A → wr B) b1 b2 P Q :
  wr_spec m b1 P → (∀ a, P a → wr_spec (f a) b2 Q) → wr_spec (m ≫= f) (b1 ++ b2) Q.
Proof.
  intros Hm Hf w. specialize (Hm w). unfold mbind, wr_bind.
  destruct (m w) as [[e|a] w1].
  - destruct Hm as (k & Hk & Ho). exists k. split; [by apply prefix_app_r|done].
  - destruct Hm as [He Ha]. specialize (Hf a Ha w1). destruct (f a w1) as [[e|b] w2].
    + destruct Hf as (k & Hk & Ho). exists (b1 ++ k). split; [by apply prefix_app|].
      rewrite Ho, (proj1 He). by rewrite (assoc_L (++)).
    + destruct Hf as [He2 Hb]. split; [by apply (emitted_trans _ w1)|done].
Qed.

Lemma wr_spec_weaken {A} (m : wr A) bytes (P Q : A → Prop) :
  wr_spec m bytes P → (∀ a, P a → Q a) → wr_spec m bytes Q.
Proof.
  intros Hm HPQ w. specialize (Hm w). destruct (m w) as [[e|a] w1]; [done|].
  destruct Hm. split; [done|by apply HPQ].
Qed.

Lemma wr_spec_write_all bytes : wr_spec (wr_write_all bytes) bytes (λ _, True).
Proof.
  intros w. unfold wr_write_all. destruct (w_script w) as [|[n|n e|] s]; simpl;
    try (by split); try (exists []; split; [apply prefix_nil|by rewrite app_nil_r]).
  exists (accepted n bytes). split; [|done]. unfold accepted.
  exists (drop (Z.to_nat (Z.max 0 (Z.min n (zlen bytes)))) bytes). by rewrite take_drop.
Qed.

Lemma wr_spec_flush : wr_spec wr_flush [] (λ _, True).
Proof.
  intros w. unfold wr_flush. destruct (w_script w) as [|[n|n e|] s]; simpl;
    first [split; [by apply emitted_nil|done] | exists []; split; [done|by rewrite app_nil_r]].
Qed.

Lemma wr_spec_send_file_segment file off len : 0 ≤ off → 0 ≤ len →
  wr_spec (wr_send_file_segment file off len) (sub_bytes file off (off + len))
    (λ _, zlen (sub_bytes file off (off + len)) = len).
Proof.
  intros Hoff Hlen w. unfold wr_send_file_segment.
  destruct (send_file_segment_sent (w_sendfile w) file (mkSendState off len [] 0 0))
    as (n & (Hn & _ & _ & Hs & Hz & _) & Hd); [done..|].
  destruct (send_file_segment _ _ _) as [r st]. cbn in Hs, Hz, Hn.
  assert (sent st `prefix_of` sub_bytes file off (off + len)) as Hp.
  { exists (sub_bytes file (off + n) (off + len)). rewrite Hs. cbn in *.
    symmetry. apply sub_bytes_join; lia. }
  destruct r as [|e|].
  - cbn in Hd. rewrite (Hd eq_refl) in *. unfold emitted. cbn. rewrite Hs. by split_and!.
  - cbn. by exists (sent st).
  - cbn. by exists (sent st).
Qed.
