(* ===== verification/HttpResponse.v ===== *)
(** * HTTP/1 responses

    The response writers of [ct_core/src/protocol.rs]
    ([write_http_response_inner]) and [lib.rs] ([send_http_dispatch],
    [send_http_simple_response], [write_http1_chunked_response]), over the
    response streams of [http_stream.rs]. *)
From S2P Require Import Prelude Bytes Text TextOps IoStream FileSender WireWriter HttpFraming HttpReader HttpHead.

(** The [http] crate's table of reason phrases, which are one line each. *)
Class StatusLib : Type := {
  canonical_reason : Z → option string;
  canonical_reason_line status reason : canonical_reason status = Some reason →
    line_free (lit reason) ∧ str_ok (lit reason);
}.

(** ** The head *)
Definition http_reason_phrase (status : Z) : string :=
  match status with
  | 100 => "Continue"
  | 101 => "Switching Protocols"
  | 200 => "OK"
  | 201 => "Created"
  | 202 => "Accepted"
  | 204 => "No Content"
  | 301 => "Moved Permanently"
  | 302 => "Found"
  | 304 => "Not Modified"
  | 400 => "Bad Request"
  | 401 => "Unauthorized"
  | 403 => "Forbidden"
  | 404 => "Not Found"
  | 405 => "Method Not Allowed"
  | 409 => "Conflict"
  | 413 => "Payload Too Large"
  | 415 => "Unsupported Media Type"
  | 422 => "Unprocessable Entity"
  | 426 => "Upgrade Required"
  | 429 => "Too Many Requests"
  | 500 => "Internal Server Error"
  | 501 => "Not Implemented"
  | 502 => "Bad Gateway"
  | 503 => "Service Unavailable"
  | 504 => "Gateway Timeout"
  | _ => "OK"
  end%string.

Definition status_line (version status : Z) (reason : string) : str :=
  lit "HTTP/1." ++ show_number version ++ lit " " ++ show_number status ++ lit " " ++ lit reason.

(** The fields that [write_http_response_inner] adds to those it is given. *)
Definition added_fields (version : Z) (headers : http_headers) (body_len : Z) : http_headers :=
  (if has_header "content-length" headers then [] else [(lit "Content-Length", show_number body_len)]) ++
  (if has_header "connection" headers then []
   else [(lit "Connection", lit (if 1 <=? version then "keep-alive" else "close"))]).

Definition response_head (start : str) (headers : http_headers) : list Z :=
  utf8_encode (start ++ CRLF ++ header_lines headers ++ CRLF).

Definition write_http_response_inner (version status : Z) (headers : http_headers) (body : list Z) : wr unit :=
  let reason := http_reason_phrase status in
  let response := response_head (status_line version status reason)
                    (headers ++ added_fields version headers (zlen body)) in
  _ ← wr_write_all response;
  if bool_decide (body = []) then mret () else wr_write_all body.

(** ** Connection fields *)
Definition ensure_connection_header (headers : http_headers) (keep_alive : bool) (version : Z) : http_headers :=
  if has_header "connection" headers then headers
  else if keep_alive && (1 <=? version) then headers ++ [(lit "Connection", lit "keep-alive")]
  else headers ++ [(lit "Connection", lit "close")].

Definition without (name : string) (headers : http_headers) : http_headers :=
  filter (λ h, is_named name h = false) headers.

Definition ensure_chunked_transfer_encoding (headers : http_headers) : http_headers :=
  without "transfer-encoding" headers ++ [(lit "Transfer-Encoding", lit "chunked")].

Definition strip_content_length (headers : http_headers) : http_headers := without "content-length" headers.

(** Whether the connection stays open after a request. *)
Definition should_keep_alive (version : Z) (headers : http_headers) : bool :=
  match find_header "connection" headers with
  | Some value =>
      if version =? 0 then header_has_token value "keep-alive" else negb (header_has_token value "close")
  | None => negb (version =? 0)
  end.

(** ** Response streams *)
Inductive ResponseStreamFrame : Type :=
  | Chunk (bytes : list Z)
  | FinishedFrame.

(** What the receiver of a stream meets: a frame, an empty queue, the end of all
    senders. *)
Inductive stream_event : Type :=
  | SeFrame (frame : ResponseStreamFrame)
  | SeEmpty
  | SeDropped.

(** A task that sends a response: its socket, its stream, how much of what went
    out was flushed, and how much was not each time the task waited. *)
Record HttpWriter : Type := mkHttpWriter {
  hw_socket : Writer;
  hw_stream : list stream_event;
  hw_closed : bool;
  hw_flushed : Z;
  hw_waits : list Z;
}.

Notation hw := (stateful HttpWriter wr_stop).

Definition hw_set_socket (s : Writer) (w : HttpWriter) : HttpWriter :=
  mkHttpWriter s (hw_stream w) (hw_closed w) (hw_flushed w) (hw_waits w).
Definition hw_set_stream (s : list stream_event) (w : HttpWriter) : HttpWriter :=
  mkHttpWriter (hw_socket w) s (hw_closed w) (hw_flushed w) (hw_waits w).

(** An operation of the socket. *)
Definition on_socket {A} (m : wr A) : hw A := λ w,
  match m (hw_socket w) with
  | (inr a, s) => (Ok a, hw_set_socket s w)
  | (inl e, s) => (Err e, hw_set_socket s w)
  end.

(** [writer.flush()], which has flushed all that went out when it succeeds. *)
Definition on_flush : hw unit := λ w,
  match wr_flush (hw_socket w) with
  | (inr _, s) => (Ok (), mkHttpWriter s (hw_stream w) (hw_closed w) (zlen (w_out s)) (hw_waits w))
  | (inl e, s) => (Err e, hw_set_socket s w)
  end.

(** [reader.close()] *)
Definition hw_close : hw unit := λ w,
  (Ok (), mkHttpWriter (hw_socket w) (hw_stream w) true (hw_flushed w) (hw_waits w)).

(** [if let Err(err) = .. { reader.close(); return Err(err) }] *)
Definition or_close {A} (m : hw A) : hw A := λ w,
  match m w with
  | (Err (StopErr e), w) => (Err (StopErr e), (hw_close w).2)
  | r => r
  end.

(** [ResponseStreamError], whose one case is [Closed] *)
Inductive ResponseStreamError : Type := StreamClosed.

(** [reader.next().await]: waits while the queue is empty, for ever when nothing
    more happens to it. *)
Fixpoint stream_wait (unflushed : Z) (events : list stream_event) (waits : list Z) :
    outcome wr_stop (ResponseStreamError + ResponseStreamFrame) * list stream_event * list Z :=
  match events with
  | SeFrame f :: events => (Ok (inr f), events, waits)
  | SeEmpty :: events => stream_wait unflushed events (waits ++ [unflushed])
  | SeDropped :: _ => (Ok (inl StreamClosed), events, waits)
  | [] => (Err StopPending, [], waits ++ [unflushed])
  end.

Definition stream_next : hw (ResponseStreamError + ResponseStreamFrame) := λ w,
  let '(r, events, waits) :=
    stream_wait (zlen (w_out (hw_socket w)) - hw_flushed w) (hw_stream w) (hw_waits w) in
  (r, mkHttpWriter (hw_socket w) events (hw_closed w) (hw_flushed w) waits).

(** [reader.try_next()] *)
Definition stream_try_next : hw (ResponseStreamError + option ResponseStreamFrame) := λ w,
  match hw_stream w with
  | SeFrame f :: events => (Ok (inr (Some f)), hw_set_stream events w)
  | SeEmpty :: _ | [] => (Ok (inr None), w)
  | SeDropped :: _ => (Ok (inl StreamClosed), w)
  end.

(** ** Chunked bodies *)
Definition MAX_BATCH_CHUNKS : Z := 64.
Definition MAX_BATCH_BYTES : Z := 16 * 1024.

Definition hex_digit (d : Z) : Z := if d <? 10 then 0x30 + d else 0x41 + (d - 10).

(** [format!("{:X}", n)] *)
Fixpoint hex_go (fuel : nat) (n : Z) (acc : str) : str :=
  match fuel with
  | O => acc
  | S fuel => if n <? 16 then hex_digit n :: acc else hex_go fuel (n / 16) (hex_digit (n mod 16) :: acc)
  end.
Definition show_hex (n : Z) : str := hex_go (S (Z.to_nat (Z.log2 n))) n [].

Definition write_chunk_frame (bytes : list Z) : hw unit :=
  _ ← or_close (on_socket (wr_write_all (show_hex (zlen bytes) ++ CRLF)));
  _ ← or_close (on_socket (wr_write_all bytes));
  or_close (on_socket (wr_write_all CRLF)).

(** [io::Error::other(..)] *)
Definition streaming_failed : io_error := OtherIo.

(** The loop over the frames. *)
Fixpoint chunk_loop (fuel : nat) (batched_chunks batched_bytes : Z)
    (next : ResponseStreamError + ResponseStreamFrame) : hw unit :=
  match fuel with
  | O => λ w, (NoFuel, w)
  | S fuel =>
      match next with
      | inr (Chunk bytes) =>
          if bool_decide (bytes = []) then next ← stream_next; chunk_loop fuel batched_chunks batched_bytes next
          else
            _ ← write_chunk_frame bytes;
            let batched_chunks := batched_chunks + 1 in
            let batched_bytes := Z.min (2 ^ 64 - 1) (batched_bytes + zlen bytes) in
            if (MAX_BATCH_CHUNKS <=? batched_chunks) || (MAX_BATCH_BYTES <=? batched_bytes) then
              _ ← or_close on_flush;
              next ← stream_next;
              chunk_loop fuel 0 0 next
            else
              tried ← stream_try_next;
              match tried with
              | inr (Some frame) => chunk_loop fuel batched_chunks batched_bytes (inr frame)
              | inr None =>
                  _ ← or_close on_flush;
                  next ← stream_next;
                  chunk_loop fuel 0 0 next
              | inl err => chunk_loop fuel batched_chunks batched_bytes (inl err)
              end
      | inr FinishedFrame =>
          _ ← or_close (on_socket (wr_write_all (lit "0" ++ CRLF ++ CRLF)));
          or_close on_flush
      | inl _ => _ ← hw_close; stateful_fail (StopErr streaming_failed)
      end
  end.

(** One round for each event of the stream, and its last. *)
Definition run_chunks (next : ResponseStreamError + ResponseStreamFrame) : hw unit := λ w,
  chunk_loop (S (length (hw_stream w))) 0 0 next w.

Section chunked.
Context `{SL : !StatusLib}.

Definition write_http1_chunked_response (version status : Z) (headers : http_headers) : hw unit :=
  let status_code := Z.max 100 (Z.min 599 status) in
  let reason := default ""%string (canonical_reason status_code) in
  let response := response_head (status_line version status_code reason) headers in
  _ ← or_close (on_socket (wr_write_all response));
  _ ← or_close on_flush;
  next ← stream_next;
  run_chunks next.

(** ** Sending a response *)
Inductive HttpResponseBody : Type :=
  | BufferedBody (body : list Z)
  | StreamingBody.

Record HttpResponseDispatch : Type := mkDispatch {
  rd_status : Z;
  rd_headers : http_headers;
  rd_body : HttpResponseBody;
}.

Definition write_http_response_shared (version status : Z) (headers : http_headers) (body : list Z) : hw unit :=
  _ ← on_socket (write_http_response_inner version status headers body);
  on_flush.

Definition send_http_dispatch (version : Z) (keep_alive : bool) (dispatch : HttpResponseDispatch) : hw unit :=
  let headers := ensure_connection_header (rd_headers dispatch) keep_alive version in
  match rd_body dispatch with
  | BufferedBody body => write_http_response_shared version (rd_status dispatch) headers body
  | StreamingBody =>
      write_http1_chunked_response version (rd_status dispatch)
        (ensure_chunked_transfer_encoding (strip_content_length headers))
  end.

Definition send_http_simple_response (version status : Z) (keep_alive : bool) (body : list Z)
    (extra_headers : http_headers) : hw unit :=
  write_http_response_shared version status (ensure_connection_header extra_headers keep_alive version) body.
End chunked.

(** ** What the peer reads

    A reference reader: the head up to its blank line, its fields, and the body
    they announce. *)
Definition hex_digit_value (c : Z) : option Z :=
  if is_ascii_digit c then Some (c - 0x30)
  else if (0x41 <=? c) && (c <=? 0x46) then Some (c - 0x41 + 10)
  else if (0x61 <=? c) && (c <=? 0x66) then Some (c - 0x61 + 10)
  else None.

Definition hex_value (s : list Z) : option Z :=
  if bool_decide (s = []) then None
  else foldl (λ v c, v ← v; d ← hex_digit_value c; Some (v * 16 + d)) (Some 0) s.

Fixpoint next_line (l : list Z) : option (list Z * list Z) :=
  match l with
  | [] => None
  | c :: k => if bool_decide (take 2 l = CRLF) then Some ([], drop 2 l) else prod_map (cons c) id <$> next_line k
  end.

(** The rest behind a line end. *)
Definition past_line_end (l : list Z) : option (list Z) :=
  if bool_decide (take 2 l = CRLF) then Some (drop 2 l) else None.

(** RFC 9112, 7.1, without extensions and trailers: the body, and what follows it. *)
Fixpoint decode_chunks (fuel : nat) (l : list Z) : option (list Z * list Z) :=
  match fuel with
  | O => None
  | S fuel =>
      '(size, l) ← next_line l;
      n ← hex_value size;
      if n =? 0 then pair [] <$> past_line_end l
      else if zlen l <? n then None
      else
        l' ← past_line_end (drop (Z.to_nat n) l);
        '(body, rest) ← decode_chunks fuel l';
        Some (take (Z.to_nat n) l ++ body, rest)
  end.
Definition decode_chunked (l : list Z) : option (list Z * list Z) := decode_chunks (S (length l)) l.

Record PeerResponse : Type := mkPeerResponse {
  pr_start : str;
  pr_headers : http_headers;
  pr_body : list Z;
}.

Definition read_body_by (headers : http_headers) (l : list Z) : option (list Z * list Z) :=
  if has_header "transfer-encoding" headers then decode_chunked l
  else
    value ← find_header "content-length" headers;
    if all_digits value && (digits_value value <=? zlen l)
    then Some (take (Z.to_nat (digits_value value)) l, drop (Z.to_nat (digits_value value)) l)
    else None.

Definition read_response (l : list Z) : option (PeerResponse * list Z) :=
  i ← find_header_terminator l;
  text ← utf8_decode (take (Z.to_nat (i + 4)) l);
  match split_crlf text with
  | [] => None
  | start :: lines =>
      match parse_header_lines lines with
      | Ok headers =>
          '(body, rest) ← read_body_by headers (drop (Z.to_nat (i + 4)) l);
          Some (mkPeerResponse start headers body, rest)
      | _ => None
      end
  end.

(** ** Sizes *)
Definition hex_step (v : option Z) (c : Z) : option Z := v ← v; d ← hex_digit_value c; Some (v * 16 + d).

Lemma hex_digit_back d : 0 ≤ d < 16 → hex_digit_value (hex_digit d) = Some d ∧ hex_digit d ≠ 0x0D.
Proof.
  intros Hd. unfold hex_digit, hex_digit_value, is_ascii_digit. destruct (Z.ltb_spec d 10).
  - rewrite (proj2 (Z.leb_le _ _)) by lia. rewrite (proj2 (Z.leb_le _ _)) by lia. split; [simpl; f_equal; lia|lia].
  - assert ((48 <=? 65 + (d - 10)) && (65 + (d - 10) <=? 57) = false) as -> by lia.
    assert ((65 <=? 65 + (d - 10)) && (65 + (d - 10) <=? 70) = true) as -> by lia. split; [f_equal; lia|lia].
Qed.

Lemma hex_go_back fuel n acc : 0 ≤ n < 16 ^ Z.of_nat fuel → (0 < fuel)%nat → ∃ d,
  hex_go fuel n acc = d ++ acc ∧ d ≠ [] ∧ 0x0D ∉ d ∧
  ∀ a, foldl hex_step (Some a) d = Some (a * 16 ^ zlen d + n).
Proof.
  revert n acc. induction fuel as [|fuel IH]; intros n acc Hn Hf; [lia|]. cbn [hex_go].
  destruct (Z.ltb_spec n 16) as [Hs|Hs].
  - destruct (hex_digit_back n ltac:(lia)) as [Hb Hc]. exists [hex_digit n]. split_and!; [done|done| |].
    + by rewrite list_elem_of_singleton.
    + intros a. simpl. by rewrite Hb.
  - rewrite Nat2Z.inj_succ, Z.pow_succ_r in Hn by lia.
    destruct fuel as [|fuel]; [change (16 ^ Z.of_nat 0) with 1 in Hn; lia|].
    destruct (IH (n / 16) (hex_digit (n mod 16) :: acc)) as (d & Hd & Hne & Hr & Hv); [dmlia|lia|].
    pose proof (Z.mod_pos_bound n 16 ltac:(lia)) as Hm.
    destruct (hex_digit_back (n mod 16) Hm) as [Hb Hc]. exists (d ++ [hex_digit (n mod 16)]). split_and!.
    + rewrite Hd. by rewrite <-app_assoc.
    + by destruct d.
    + rewrite not_elem_of_app, list_elem_of_singleton. done.
    + intros a. rewrite foldl_app, Hv. simpl. rewrite Hb. simpl. f_equal.
      rewrite zlen_app. change (zlen [hex_digit (n mod 16)]) with 1.
      rewrite Z.pow_add_r by zlia. pose proof (Z.div_mod n 16 ltac:(lia)). lia.
Qed.

Lemma show_hex_back n : 0 ≤ n → hex_value (show_hex n) = Some n ∧ 0x0D ∉ show_hex n ∧ show_hex n ≠ [].
Proof.
  intros Hn. destruct (hex_go_back (S (Z.to_nat (Z.log2 n))) n []) as (d & Hd & Hne & Hr & Hv); [|lia|].
  - split; [done|]. rewrite Nat2Z.inj_succ, Z2Nat.id by apply Z.log2_nonneg.
    destruct (Z.eq_dec n 0) as [->|]; [done|]. apply Z.lt_le_trans with (2 ^ Z.succ (Z.log2 n)).
    + apply Z.log2_spec. lia.
    + apply Z.pow_le_mono_l. lia.
  - unfold show_hex. rewrite Hd, app_nil_r. split_and!; [|done|done].
    unfold hex_value. rewrite bool_decide_eq_false_2 by done. change (foldl hex_step (Some 0) d = Some n). by rewrite Hv.
Qed.

(** ** The chunks of a body *)
Definition chunk_bytes (bytes : list Z) : list Z := show_hex (zlen bytes) ++ CRLF ++ bytes ++ CRLF.
Definition last_chunk : list Z := lit "0" ++ CRLF ++ CRLF.

Lemma next_line_free w l : 0x0D ∉ w → next_line (w ++ CRLF ++ l) = Some (w, l).
Proof.
  induction w as [|c w IH]; intros Hn; [done|]. apply not_elem_of_cons in Hn as [Hc Hn].
  rewrite <-app_comm_cons. cbn [next_line]. rewrite bool_decide_eq_false_2, (IH Hn); [done|].
  unfold CRLF. simpl. congruence.
Qed.

Lemma decode_chunk fuel bytes l : bytes ≠ [] →
  decode_chunks (S fuel) (chunk_bytes bytes ++ l) = prod_map (app bytes) id <$> decode_chunks fuel l.
Proof.
  intros Hb. destruct (show_hex_back (zlen bytes) (zlen_nonneg bytes)) as (Hv & Hr & _).
  unfold chunk_bytes. rewrite <-!app_assoc. cbn [decode_chunks]. rewrite next_line_free by done.
  cbn [mbind option_bind]. rewrite Hv. cbn [mbind option_bind].
  assert (zlen bytes ≠ 0) by (intros ?%zlen_0_nil; done). destruct (Z.eqb_spec (zlen bytes) 0); [done|].
  destruct (Z.ltb_spec (zlen (bytes ++ CRLF ++ l)) (zlen bytes)) as [Hl|_]; [zlia|].
  unfold zlen. rewrite Nat2Z.id, drop_app_length, take_app_length.
  change (past_line_end (CRLF ++ l)) with (Some l). simpl. by destruct (decode_chunks fuel l) as [[body rest]|].
Qed.

Lemma decode_last fuel l : decode_chunks (S fuel) (last_chunk ++ l) = Some ([], l).
Proof. done. Qed.

Lemma decode_chunks_mono fuel fuel' l r : decode_chunks fuel l = Some r → (fuel ≤ fuel')%nat → decode_chunks fuel' l = Some r.
Proof.
  revert fuel' l r. induction fuel as [|fuel IH]; intros fuel' l r Hd Hf; [done|]. destruct fuel' as [|fuel']; [lia|].
  cbn [decode_chunks] in *. destruct (next_line l) as [[size k]|]; simpl in *; [|done].
  destruct (hex_value size) as [n|]; simpl in *; [|done]. destruct (n =? 0); [done|]. destruct (zlen k <? n); [done|].
  destruct (past_line_end _) as [l'|]; simpl in *; [|done].
  destruct (decode_chunks fuel l') as [[body rest]|] eqn:E; [|done]. rewrite (IH fuel' _ _ E) by lia. done.
Qed.

Lemma chunk_bytes_length bytes : (1 < length (chunk_bytes bytes))%nat.
Proof. unfold chunk_bytes, CRLF. rewrite !length_app. simpl. lia. Qed.

(** A written body is read back, and what follows it is left. *)
Lemma decode_chunked_back chunks rest : Forall (λ b, b ≠ []) chunks →
  decode_chunked (concat (chunk_bytes <$> chunks) ++ last_chunk ++ rest) = Some (concat chunks, rest).
Proof.
  intros Hc. assert (∃ fuel, (fuel ≤ S (length (concat (chunk_bytes <$> chunks) ++ last_chunk ++ rest)))%nat ∧
    decode_chunks fuel (concat (chunk_bytes <$> chunks) ++ last_chunk ++ rest) = Some (concat chunks, rest)) as (fuel & Hf & Hd).
  { induction Hc as [|b chunks Hb _ (fuel & Hf & IH)]; [exists 1%nat; split; [lia|done]|].
    exists (S fuel). rewrite fmap_cons. cbn [concat]. rewrite <-app_assoc, decode_chunk, IH by done. split; [|done].
    rewrite length_app. pose proof (chunk_bytes_length b). lia. }
  by apply (decode_chunks_mono fuel).
Qed.

(** ** A cut body is never read *)
Lemma next_line_app l e size k : next_line l = Some (size, k) → next_line (l ++ e) = Some (size, k ++ e).
Proof.
  revert size k. induction l as [|c l IH]; intros size k; [done|]. rewrite <-app_comm_cons. cbn [next_line].
  case_bool_decide as E.
  - intros [= <- <-]. destruct l as [|d l]; [done|]. by rewrite bool_decide_eq_true_2.
  - intros ([s' k'] & Hn & [= -> ->])%fmap_Some. rewrite (IH _ _ Hn). rewrite bool_decide_eq_false_2; [done|].
    destruct l as [|d l]; [done|]. exact E.
Qed.

Lemma past_line_end_app l e k : past_line_end l = Some k → past_line_end (l ++ e) = Some (k ++ e).
Proof.
  unfold past_line_end. case_bool_decide as E; [|done]. intros [= <-]. destruct l as [|c [|d l]]; [done..|].
  by rewrite bool_decide_eq_true_2.
Qed.

Lemma decode_chunks_app fuel l e body rest : decode_chunks fuel l = Some (body, rest) →
  decode_chunks fuel (l ++ e) = Some (body, rest ++ e).
Proof.
  revert l body rest. induction fuel as [|fuel IH]; intros l body rest; [done|]. cbn [decode_chunks].
  destruct (next_line l) as [[size k]|] eqn:En; simpl; [|done]. rewrite (next_line_app _ _ _ _ En). simpl.
  destruct (hex_value size) as [n|]; simpl; [|done]. destruct (n =? 0).
  - intros (k' & Hk & [= -> ->])%fmap_Some. by rewrite (past_line_end_app _ _ _ Hk).
  - rewrite zlen_app. pose proof (zlen_nonneg e). destruct (Z.ltb_spec (zlen k) n); [done|].
    destruct (Z.ltb_spec (zlen k + zlen e) n); [lia|].
    rewrite drop_app_le, take_app_le by (unfold zlen in *; lia).
    destruct (past_line_end (drop (Z.to_nat n) k)) as [k'|] eqn:Ek; simpl; [|done].
    rewrite (past_line_end_app _ _ _ Ek). simpl.
    destruct (decode_chunks fuel k') as [[b r]|] eqn:Ed; simpl; [|done]. intros [= <- <-]. by rewrite (IH _ _ _ Ed).
Qed.

Lemma decode_unfinished fuel chunks : Forall (λ b, b ≠ []) chunks → decode_chunks fuel (concat (chunk_bytes <$> chunks)) = None.
Proof.
  intros Hc. revert fuel. induction Hc as [|b chunks Hb _ IH]; intros fuel; [by destruct fuel|].
  destruct fuel as [|fuel]; [done|]. rewrite fmap_cons. cbn [concat]. by rewrite decode_chunk, IH.
Qed.

Lemma decode_cut chunks k : Forall (λ b, b ≠ []) chunks → k `prefix_of` concat (chunk_bytes <$> chunks) →
  decode_chunked k = None.
Proof.
  intros Hc [e He]. unfold decode_chunked. destruct (decode_chunks (S (length k)) k) as [[body rest]|] eqn:Ed; [|done].
  apply (decode_chunks_app _ _ e) in Ed. rewrite <-He, decode_unfinished in Ed by done. done.
Qed.

(** ** Steps that only send *)
Definition out (w : HttpWriter) : list Z := w_out (hw_socket w).

(** A socket that takes everything. *)
Definition willing (w : HttpWriter) : Prop :=
  Forall (λ r, match r with WrAccept _ => True | _ => False end) (w_script (hw_socket w)).

(** [m] sends [bytes], or stops after a prefix of them and closes the stream
    unless it waits for ever. *)
Definition sends {A} (m : hw A) (bytes : list Z) : Prop := ∀ w,
  let '(r, w') := m w in
  hw_waits w' = hw_waits w ∧ hw_stream w' = hw_stream w ∧
  match r with
  | Ok _ => out w' = out w ++ bytes ∧ (willing w → willing w')
  | Err s => (∃ k, k `prefix_of` bytes ∧ out w' = out w ++ k) ∧ (s ≠ StopPending → hw_closed w' = true) ∧ ¬ willing w
  | _ => False
  end.

Lemma sends_write bytes : sends (or_close (on_socket (wr_write_all bytes))) bytes.
Proof.
  intros w. unfold or_close, on_socket, wr_write_all, out, willing.
  destruct (w_script (hw_socket w)) as [|[n|n e|] script]; simpl; rewrite ?Forall_cons.
  - done.
  - split_and!; [done..|tauto].
  - split_and!; [done|done| |done|tauto]. exists (accepted n bytes). split; [|done].
    unfold accepted. eexists. symmetry. apply take_drop.
  - split_and!; [done|done| |done|tauto]. exists []. split; [apply prefix_nil|by rewrite app_nil_r].
Qed.

Lemma sends_flush : sends (or_close on_flush) [].
Proof.
  intros w. unfold or_close, on_flush, wr_flush, out, willing.
  destruct (w_script (hw_socket w)) as [|[n|n e|] script]; simpl; rewrite ?Forall_cons, ?app_nil_r.
  - done.
  - split_and!; [done..|tauto].
  - split_and!; [done|done| |done|tauto]. exists []. split; [apply prefix_nil|by rewrite app_nil_r].
  - split_and!; [done|done| |done|tauto]. exists []. split; [apply prefix_nil|by rewrite app_nil_r].
Qed.

Lemma flush_all w w' : or_close on_flush w = (Ok (), w') → hw_flushed w' = zlen (out w').
Proof.
  unfold or_close, on_flush. destruct (wr_flush (hw_socket w)) as [[[e|]|[]] s]; intros [= <-]; done.
Qed.

Lemma sends_bind {A B} (m : hw A) (f : hw B) b1 b2 : sends m b1 → sends f b2 → sends (_ ← m; f) (b1 ++ b2).
Proof.
  intros Hm Hf w. specialize (Hm w). unfold mbind, stateful_bind.
  destruct (m w) as [[a|s| |] w1]; [|destruct Hm as (? & ? & (k & Hk & ?) & ?);
    split_and!; [done|done|exists k; split; [by apply prefix_app_r|done]|tauto..]|tauto..].
  destruct Hm as (Hw & Hs & Ho & Hg). specialize (Hf w1). destruct (f w1) as [[b|s| |] w2]; [| |tauto..].
  - destruct Hf as (Hw2 & Hs2 & Ho2 & Hg2). rewrite Hw2, Hs2, Ho2, Ho, <-app_assoc. split_and!; [done..|auto].
  - destruct Hf as (Hw2 & Hs2 & (k & Hk & Ho2) & Hc & Hg2). rewrite Hw2, Hs2. split_and!; [done|done| |done|auto].
    exists (b1 ++ k). rewrite Ho2, Ho, <-app_assoc. split; [by apply prefix_app|done].
Qed.

Lemma sends_chunk bytes : sends (write_chunk_frame bytes) (chunk_bytes bytes).
Proof.
  unfold write_chunk_frame, chunk_bytes. rewrite (app_assoc _ CRLF). repeat (apply sends_bind; [apply sends_write|]).
  apply sends_write.
Qed.

(** ** What a stream gives *)
Inductive stream_end : Type := EndFinished | EndDropped | EndNever.

Fixpoint stream_outcome (events : list stream_event) : list (list Z) * stream_end :=
  match events with
  | [] => ([], EndNever)
  | SeFrame (Chunk bytes) :: events => prod_map (cons bytes) id (stream_outcome events)
  | SeFrame FinishedFrame :: _ => ([], EndFinished)
  | SeEmpty :: events => stream_outcome events
  | SeDropped :: _ => ([], EndDropped)
  end.

(** No queued chunk is empty: [write_chunk] queues none. *)
Definition chunks_nonempty (events : list stream_event) : Prop := Forall (λ ev, ev ≠ SeFrame (Chunk [])) events.

Definition pulled_outcome (next : ResponseStreamError + ResponseStreamFrame) (events : list stream_event) :
    list (list Z) * stream_end :=
  match next with inr frame => stream_outcome (SeFrame frame :: events) | inl _ => ([], EndDropped) end.

Lemma stream_outcome_nonempty events : chunks_nonempty events → Forall (λ b, b ≠ []) (stream_outcome events).1.
Proof.
  induction 1 as [|[[bytes|]| |] events Hb _ IH]; simpl; [constructor| |constructor|done|constructor].
  constructor; [by intros ->|done].
Qed.

Definition encoding (chunks : list (list Z)) (e : stream_end) : list Z :=
  concat (chunk_bytes <$> chunks) ++ match e with EndFinished => last_chunk | _ => [] end.

(** What becomes of the [whole] that is to be sent from [w]: all of it is sent
    and flushed, or a prefix; nothing is left unflushed while the task waits; a
    failure closes the stream; a willing socket gets all there is. *)
Definition streamed (w : HttpWriter) (whole : list Z) (e : stream_end) (result : outcome wr_stop unit * HttpWriter) : Prop :=
  let '(r, w') := result in
  (∃ waits, hw_waits w' = hw_waits w ++ waits ∧ Forall (λ n, n = 0) waits) ∧
  match r with
  | Ok _ => e = EndFinished ∧ out w' = out w ++ whole ∧ hw_flushed w' = zlen (out w')
  | Err s =>
      (∃ k, k `prefix_of` whole ∧ out w' = out w ++ k) ∧ (s ≠ StopPending → hw_closed w' = true) ∧
      (willing w → out w' = out w ++ whole ∧
         match e with EndFinished => False | EndDropped => s = StopErr streaming_failed | EndNever => s = StopPending end)
  | _ => False
  end.

Lemma streamed_bind {A} (m : hw A) bytes (f : A → hw unit) w whole e : sends m bytes →
  (∀ a w1, m w = (Ok a, w1) → hw_stream w1 = hw_stream w → streamed w1 whole e (f a w1)) →
  streamed w (bytes ++ whole) e ((m ≫= f) w).
Proof.
  intros Hm Hf. specialize (Hm w). unfold mbind, stateful_bind, streamed.
  destruct (m w) as [[a|s| |] w1]; [| |tauto..].
  - destruct Hm as (Hw & Hs & Ho & Hg). specialize (Hf a w1 eq_refl Hs). unfold streamed in Hf.
    destruct (f a w1) as [[b|s| |] w2]; [| |tauto..].
    + destruct Hf as ((waits & Hw2 & Hz) & ? & Ho2 & ?). rewrite Ho2, Ho, <-app_assoc, Hw2, Hw.
      split_and!; [by exists waits|done|done|]. by rewrite (app_assoc (out w)), <-Ho, <-Ho2.
    + destruct Hf as ((waits & Hw2 & Hz) & (k & Hk & Ho2) & Hc & Hg2). rewrite Hw2, Hw.
      split_and!; [by exists waits| |done|].
      * exists (bytes ++ k). rewrite Ho2, Ho, <-app_assoc. split; [by apply prefix_app|done].
      * intros Hwill. destruct (Hg2 (Hg Hwill)) as [Ho3 ?]. rewrite Ho3, Ho, <-app_assoc. done.
  - destruct Hm as (Hw & Hs & (k & Hk & Ho) & Hc & Hg). rewrite Hw. split_and!; [by exists []; rewrite app_nil_r| |done|tauto].
    exists k. split; [by apply prefix_app_r|done].
Qed.

Definition given_streamed (w : HttpWriter) (given : list (list Z) * stream_end) :=
  streamed w (encoding given.1 given.2) given.2.

(** Waiting with everything flushed. *)
Lemma stream_wait_spec events waits : chunks_nonempty events →
  let '(r, events', waits') := stream_wait 0 events waits in
  (∃ ws, waits' = waits ++ ws ∧ Forall (λ n, n = 0) ws) ∧
  match r with
  | Ok next =>
      stream_outcome events = pulled_outcome next events' ∧ chunks_nonempty events' ∧
      match next with
      | inr frame => frame ≠ Chunk [] ∧ (length events' < length events)%nat
      | inl _ => (0 < length events)%nat
      end
  | Err s => s = StopPending ∧ stream_outcome events = ([], EndNever)
  | _ => False
  end.
Proof.
  intros Hne. revert waits. induction Hne as [|ev events Hev Hne IH]; intros waits; cbn [stream_wait].
  - split; [|done]. exists [0]. split; [done|by repeat constructor].
  - destruct ev as [frame| |].
    + split; [exists []; by rewrite app_nil_r|]. split_and!; [done|done| |simpl; lia]. intros ->. by apply Hev.
    + specialize (IH (waits ++ [0])). destruct (stream_wait 0 events (waits ++ [0])) as [[r events'] waits'].
      destruct IH as ((ws & -> & Hz) & Hr). split.
      * exists (0 :: ws). rewrite <-app_assoc. split; [done|by constructor].
      * destruct r as [[err|frame]|s| |]; [..|done|done]; simpl in *; naive_solver lia.
    + split; [exists []; by rewrite app_nil_r|]. split_and!; [done|by constructor|simpl; lia].
Qed.

Lemma streamed_wait (f : ResponseStreamError + ResponseStreamFrame → hw unit) w :
  hw_flushed w = zlen (out w) → chunks_nonempty (hw_stream w) →
  (∀ next w1, chunks_nonempty (hw_stream w1) →
     match next with
     | inr frame => frame ≠ Chunk [] ∧ (length (hw_stream w1) < length (hw_stream w))%nat
     | inl _ => (0 < length (hw_stream w))%nat
     end → given_streamed w1 (pulled_outcome next (hw_stream w1)) (f next w1)) →
  given_streamed w (stream_outcome (hw_stream w)) ((next ← stream_next; f next) w).
Proof.
  intros Hfl Hne Hf. unfold mbind, stateful_bind, stream_next.
  assert (zlen (w_out (hw_socket w)) - hw_flushed w = 0) as -> by (rewrite Hfl; unfold out; lia).
  pose proof (stream_wait_spec (hw_stream w) (hw_waits w) Hne) as Hw.
  destruct (stream_wait 0 (hw_stream w) (hw_waits w)) as [[r events] waits]. destruct Hw as ((ws & -> & Hz) & Hr).
  destruct r as [next|s| |]; [| |done|done].
  - destruct Hr as (-> & Hne' & Hn). set (w1 := mkHttpWriter _ _ _ _ _). specialize (Hf next w1 Hne' Hn).
    revert Hf. unfold given_streamed, streamed. destruct (f next w1) as [[b|s| |] w2]; [| |tauto..].
    + intros ((ws' & Hw' & Hz') & Hr). split; [|exact Hr]. exists (ws ++ ws'). rewrite Hw'. simpl.
      rewrite <-app_assoc. split; [done|]. by apply Forall_app.
    + intros ((ws' & Hw' & Hz') & Hr). split; [|exact Hr]. exists (ws ++ ws'). rewrite Hw'. simpl.
      rewrite <-app_assoc. split; [done|]. by apply Forall_app.
  - destruct Hr as [-> Hr]. rewrite Hr. unfold given_streamed, streamed, encoding. simpl. split_and!; [by exists ws| |done|].
    + exists []. split; [apply prefix_nil|by rewrite app_nil_r].
    + intros _. by rewrite app_nil_r.
Qed.

(** The loop sends what is left of the stream. *)
Lemma chunk_loop_streamed fuel chunks bytes next w : chunks_nonempty (hw_stream w) →
  match next with
  | inr frame => frame ≠ Chunk [] ∧ (length (hw_stream w) < fuel)%nat
  | inl _ => (0 < fuel)%nat
  end → given_streamed w (pulled_outcome next (hw_stream w)) (chunk_loop fuel chunks bytes next w).
Proof.
  revert chunks bytes next w. induction fuel as [|fuel IH]; intros chunks bytes next w Hne Hn;
    [destruct next; lia|]. destruct next as [err|[b|]]; cbn [chunk_loop].
  - unfold given_streamed, streamed, encoding. simpl. split_and!; [by exists []; rewrite app_nil_r| |done|by rewrite app_nil_r].
    exists []. split; [apply prefix_nil|by rewrite app_nil_r].
  - destruct Hn as [Hb Hl]. rewrite bool_decide_eq_false_2 by congruence.
    assert (∀ given, encoding (prod_map (cons b) id given).1 (prod_map (cons b) id given).2 =
      chunk_bytes b ++ encoding given.1 given.2) as He by (intros given; unfold encoding; simpl; by rewrite <-app_assoc).
    unfold given_streamed. cbn [pulled_outcome stream_outcome]. rewrite He.
    apply streamed_bind; [apply sends_chunk|]. intros _ w1 _ Hs1. rewrite <-Hs1 in *.
    assert (∀ w2, hw_stream w2 = hw_stream w1 → given_streamed w2 (stream_outcome (hw_stream w2))
      ((_ ← or_close on_flush; next ← stream_next; chunk_loop fuel 0 0 next) w2)) as Hflush.
    { intros w2 Hs2. apply (streamed_bind _ []); [apply sends_flush|].
      intros [] w3 Hf Hs3. rewrite <-Hs3. apply streamed_wait; [by apply (flush_all w2)|by rewrite Hs3, Hs2|].
      intros next w4 Hne4 Hn4. rewrite Hs3, Hs2 in Hn4. apply IH; [done|]. destruct next; [lia|]. split; [tauto|lia]. }
    case_match; [by apply Hflush|]. unfold mbind at 1, stateful_bind at 1, stream_try_next.
    destruct (hw_stream w1) as [|[frame| |] events] eqn:Es; try by (rewrite <-Es; apply Hflush).
    + apply Forall_cons in Hne as [Hf Hne].
      apply (IH _ _ (inr frame) (hw_set_stream events w1)); [done|]. simpl in *. split; [|lia]. intros ->. by apply Hf.
    + rewrite <-Es. rewrite Es. apply (IH _ _ (inl StreamClosed) w1); [by rewrite Es|simpl in *; lia].
  - unfold given_streamed, streamed. pose proof (sends_bind _ _ _ _ (sends_write last_chunk) sends_flush w) as Hs.
    change (lit "0" ++ CRLF ++ CRLF) with last_chunk. revert Hs.
    destruct ((_ ← or_close (on_socket (wr_write_all last_chunk)); or_close on_flush) w) as [[u|s| |] w2] eqn:Er; [| |tauto..].
    + intros (Hw & Hs & Ho & _). unfold encoding. simpl. rewrite app_nil_r in Ho.
      split_and!; [by exists []; rewrite app_nil_r|done|done|].
      unfold mbind, stateful_bind in Er. destruct (or_close (on_socket (wr_write_all last_chunk)) w) as [[?|?| |] w1]; try done.
      destruct u. by apply (flush_all w1).
    + intros (Hw & Hs & (k & Hk & Ho) & Hc & Hg). rewrite app_nil_r in Hk. unfold encoding. simpl.
      split_and!; [by exists []; rewrite app_nil_r|by exists k|done|tauto].
Qed.

(** ** Reading a head back *)
(** A field that is one line without blanks around its parts. *)
Definition plain_field (h : str * str) : Prop := field_ok h ∧ trimmed_field h = h.
#[global] Instance plain_field_dec h : Decision (plain_field h).
Proof. unfold plain_field. apply _. Defined.

Lemma digits_plain s : all_digits s = true → (line_free s ∧ str_ok s) ∧ trim s = s.
Proof.
  intros Hd%all_digits_Forall. split_and!.
  - split; intros Hin; apply (proj1 (Forall_forall _ _) Hd) in Hin; by vm_compute in Hin.
  - eapply Forall_impl; [done|]. intros c Hc%digit_plain. unfold char_ok. lia.
  - unfold trim. rewrite <-(app_nil_r s) at 1. apply (trim_by_core is_whitespace [] s []); [constructor..|].
    eapply Forall_impl; [done|]. by intros c [? _]%digit_plain.
Qed.

Lemma reason_line status : line_free (lit (http_reason_phrase status)) ∧ str_ok (lit (http_reason_phrase status)).
Proof.
  assert (∀ r, bool_decide (line_free (lit r) ∧ Forall (λ c, char_ok c = true) (lit r)) = true →
    line_free (lit r) ∧ str_ok (lit r)) as H by (intros r ?%bool_decide_eq_true; done).
  apply H. unfold http_reason_phrase. repeat case_match; by vm_compute.
Qed.

Lemma status_line_ok version status reason : 0 ≤ version → 0 ≤ status → line_free (lit reason) → str_ok (lit reason) →
  let start := status_line version status reason in start ≠ [] ∧ line_free start ∧ str_ok start.
Proof.
  intros Hv Hs Hl Hr. destruct (show_number_digits version Hv) as (Hdv & _ & _).
  destruct (show_number_digits status Hs) as (Hds & _ & _).
  destruct (digits_plain _ Hdv) as [[? ?] _]. destruct (digits_plain _ Hds) as [[? ?] _].
  unfold status_line. rewrite !line_free_app, !str_ok_app. unfold str_ok in *.
  split_and!; try done; first [by apply (bool_decide_unpack (line_free _)) | by apply (bool_decide_unpack (Forall _ _))].
Qed.

Lemma header_lines_ok headers : Forall field_ok headers → str_ok (header_lines headers).
Proof.
  induction 1 as [|h headers ((_ & Hn) & (_ & Hv) & _) _ IH]; [constructor|].
  change (header_lines (h :: headers)) with ((h.1 ++ lit ": " ++ h.2 ++ CRLF) ++ header_lines headers).
  rewrite !str_ok_app. unfold str_ok in *. split_and!; try done; by apply (bool_decide_unpack (Forall _ _)).
Qed.

Lemma plain_fields_ok headers : Forall plain_field headers → Forall field_ok headers ∧ trimmed_field <$> headers = headers.
Proof.
  induction 1 as [|h headers [Hf Ht] _ [IHf IHt]]; [done|]. split; [by constructor|]. csimpl. by rewrite Ht, IHt.
Qed.

Lemma read_head_back start headers l : start ≠ [] → line_free start → str_ok start → Forall plain_field headers →
  read_response (response_head start headers ++ l) =
  '(body, rest) ← read_body_by headers l; Some (mkPeerResponse start headers body, rest).
Proof.
  intros Hne Hs Hok [Hf Ht]%plain_fields_ok. unfold read_response. set (head := response_head start headers).
  assert (find_header_terminator (head ++ l) = Some (zlen head - 4)) as -> by (by apply head_terminator).
  cbn [mbind option_bind]. replace (zlen head - 4 + 4) with (zlen head) by lia.
  unfold zlen. rewrite Nat2Z.id, take_app_length, drop_app_length. unfold head, response_head.
  rewrite utf8_decode_encode. 2:{ rewrite !str_ok_app. split_and!; [done| |by apply header_lines_ok|];
    by apply (bool_decide_unpack (Forall _ _)). }
  cbn [mbind option_bind]. rewrite split_crlf_line by done. rewrite <-(app_nil_r CRLF), parse_header_lines_back, Ht by done.
  done.
Qed.

Lemma find_after_head start headers k : start ≠ [] → line_free start → str_ok start → Forall plain_field headers →
  k `prefix_of` response_head start headers → zlen k < zlen (response_head start headers) → read_response k = None.
Proof.
  intros Hne Hs Hok [Hf _]%plain_fields_ok [e He] Hl. unfold read_response.
  destruct (find_header_terminator k) as [i|] eqn:Ei; [|done]. exfalso.
  pose proof (find_terminator_bound _ _ Ei). apply (find_terminator_app _ e) in Ei. rewrite <-He in Ei.
  pose proof (head_terminator start headers [] Hne Hs Hok Hf) as Hh. cbv zeta in Hh. rewrite app_nil_r in Hh.
  unfold response_head in *. rewrite Hh in Ei. apply (inj Some) in Ei. lia.
Qed.

(** ** Whole responses *)
Section responses.
Context `{SL : !StatusLib}.

Definition sent_headers (version : Z) (keep_alive : bool) (d : HttpResponseDispatch) : http_headers :=
  let headers := ensure_connection_header (rd_headers d) keep_alive version in
  match rd_body d with
  | BufferedBody body => headers ++ added_fields version headers (zlen body)
  | StreamingBody => ensure_chunked_transfer_encoding (strip_content_length headers)
  end.

Definition sent_status (d : HttpResponseDispatch) : Z :=
  match rd_body d with BufferedBody _ => rd_status d | StreamingBody => Z.max 100 (Z.min 599 (rd_status d)) end.

Definition sent_reason (d : HttpResponseDispatch) : string :=
  match rd_body d with
  | BufferedBody _ => http_reason_phrase (rd_status d)
  | StreamingBody => default ""%string (canonical_reason (sent_status d))
  end.

Definition sent_start (version : Z) (d : HttpResponseDispatch) : str :=
  status_line version (sent_status d) (sent_reason d).

Definition sent_body (d : HttpResponseDispatch) (events : list stream_event) : list Z :=
  match rd_body d with BufferedBody body => body | StreamingBody => concat (stream_outcome events).1 end.

(** Fields of one line each; those of a buffered response do not contradict its
    body. *)
Definition dispatch_ok (d : HttpResponseDispatch) : Prop :=
  0 ≤ rd_status d ∧ Forall plain_field (rd_headers d) ∧
  match rd_body d with
  | BufferedBody body =>
      has_header "transfer-encoding" (rd_headers d) = false ∧
      (∀ value, find_header "content-length" (rd_headers d) = Some value → value = show_number (zlen body))
  | StreamingBody => True
  end.

Lemma ensure_connection_plain headers keep_alive version :
  Forall plain_field headers → Forall plain_field (ensure_connection_header headers keep_alive version).
Proof.
  intros Hp. unfold ensure_connection_header. repeat case_match; [done|..];
    apply Forall_app; (split; [done|]); by apply (bool_decide_unpack (Forall _ _)).
Qed.

Lemma without_plain name headers : Forall plain_field headers → Forall plain_field (without name headers).
Proof. intros Hp. apply Forall_forall. intros h [_ Hh]%list_elem_of_filter. by apply (proj1 (Forall_forall _ _) Hp). Qed.

Lemma added_plain version headers n : 0 ≤ n → Forall plain_field (added_fields version headers n).
Proof.
  intros Hn. destruct (show_number_digits n Hn) as (Hd & _ & _). destruct (digits_plain _ Hd) as [Hl Ht].
  unfold added_fields. apply Forall_app. split.
  - case_match; constructor; [|constructor]. split.
    + split; [|split; [done|by apply (bool_decide_unpack (0x3A ∉ lit "Content-Length"))]].
      by apply (bool_decide_unpack (line_free (lit "Content-Length") ∧ Forall (λ c, char_ok c = true) (lit "Content-Length"))).
    + unfold trimmed_field. simpl. by rewrite Ht.
  - case_match; constructor; [|constructor]. by case_match; apply (bool_decide_unpack (plain_field _)).
Qed.

Lemma sent_headers_plain version keep_alive d : dispatch_ok d → Forall plain_field (sent_headers version keep_alive d).
Proof.
  intros (_ & Hp & _). apply (ensure_connection_plain _ keep_alive version) in Hp. unfold sent_headers. case_match.
  - apply Forall_app. split; [done|apply added_plain, zlen_nonneg].
  - apply Forall_app. split; [by do 2 apply without_plain|]. by apply (bool_decide_unpack (Forall _ _)).
Qed.

Lemma sent_start_ok version d : 0 ≤ version → dispatch_ok d →
  sent_start version d ≠ [] ∧ line_free (sent_start version d) ∧ str_ok (sent_start version d).
Proof.
  intros Hv (Hs & _). assert (line_free (lit (sent_reason d)) ∧ str_ok (lit (sent_reason d))) as [? ?].
  { unfold sent_reason. destruct (rd_body d); [apply reason_line|]. destruct (canonical_reason (sent_status d)) eqn:E.
    - by apply (canonical_reason_line _ _ E).
    - by split; [apply (bool_decide_unpack (line_free (lit "")))|constructor]. }
  apply status_line_ok; try done. unfold sent_status. destruct (rd_body d); lia.
Qed.

(** ** Which framing the fields announce *)
Lemma has_header_app name l k : has_header name (l ++ k) = has_header name l || has_header name k.
Proof. apply existsb_app. Qed.

Lemma find_header_app name l k :
  find_header name (l ++ k) = match find_header name l with Some v => Some v | None => find_header name k end.
Proof. induction l as [|h l IH]; simpl; [done|]. by destruct (is_named name h). Qed.

Lemma has_header_find name l : has_header name l = bool_decide (is_Some (find_header name l)).
Proof.
  induction l as [|h l IH]; [done|]. simpl. by destruct (is_named name h).
Qed.

Lemma ensure_connection_other name headers keep_alive version : is_named name (lit "Connection", []) = false →
  find_header name (ensure_connection_header headers keep_alive version) = find_header name headers.
Proof.
  intros Hn. assert (∀ v, is_named name (lit "Connection", v) = false) as H by done.
  unfold ensure_connection_header. repeat case_match; [done|..]; rewrite find_header_app; cbn [find_header];
    rewrite H; by destruct (find_header name headers).
Qed.

Lemma buffered_framing version keep_alive d body rest : dispatch_ok d → rd_body d = BufferedBody body →
  read_body_by (sent_headers version keep_alive d) (body ++ rest) = Some (body, rest).
Proof.
  intros (_ & _ & Hd) Eb. rewrite Eb in Hd. destruct Hd as [Ht Hc]. unfold read_body_by, sent_headers. rewrite Eb.
  destruct (show_number_digits (zlen body) (zlen_nonneg body)) as (Hd1 & Hd2 & _).
  set (headers := ensure_connection_header _ _ _).
  assert (has_header "transfer-encoding" (headers ++ added_fields version headers (zlen body)) = false) as ->.
  { rewrite has_header_app, !has_header_find. subst headers. rewrite ensure_connection_other, <-has_header_find, Ht by done.
    unfold added_fields. by repeat case_match. }
  assert (find_header "content-length" (headers ++ added_fields version headers (zlen body)) = Some (show_number (zlen body))) as ->.
  { rewrite find_header_app. unfold added_fields. rewrite (has_header_find "content-length").
    assert (find_header "content-length" headers = find_header "content-length" (rd_headers d)) as ->
      by (by apply ensure_connection_other).
    destruct (find_header "content-length" (rd_headers d)) as [value|] eqn:E; [by rewrite (Hc _ eq_refl)|].
    rewrite bool_decide_eq_false_2 by (by intros [? [=]]). done. }
  cbn [mbind option_bind]. rewrite Hd1, Hd2. rewrite (proj2 (Z.leb_le _ _)) by zlia. simpl.
  unfold zlen. by rewrite Nat2Z.id, take_app_length, drop_app_length.
Qed.

Lemma streaming_framing version keep_alive d l : rd_body d = StreamingBody →
  read_body_by (sent_headers version keep_alive d) l = decode_chunked l.
Proof.
  intros Eb. unfold read_body_by, sent_headers. rewrite Eb. unfold ensure_chunked_transfer_encoding.
  rewrite has_header_app, orb_true_r by done. done.
Qed.

(** ** Both writers *)
Lemma write_inner_spec version status headers body :
  wr_spec (write_http_response_inner version status headers body)
    (response_head (status_line version status (http_reason_phrase status))
       (headers ++ added_fields version headers (zlen body)) ++ body) (λ _, True).
Proof.
  unfold write_http_response_inner. eapply wr_spec_bind; [apply wr_spec_write_all|]. intros _ _.
  case_bool_decide as E; [rewrite E; by apply wr_spec_ret|apply wr_spec_write_all].
Qed.

Lemma buffered_sends version status headers body w w' :
  write_http_response_shared version status headers body w = (Ok (), w') →
  out w' = out w ++ response_head (status_line version status (http_reason_phrase status))
             (headers ++ added_fields version headers (zlen body)) ++ body ∧ hw_flushed w' = zlen (out w').
Proof.
  unfold write_http_response_shared, mbind, stateful_bind, on_socket, on_flush.
  pose proof (write_inner_spec version status headers body (hw_socket w)) as Hs.
  destruct (write_http_response_inner version status headers body (hw_socket w)) as [[e|u] s1]; [done|].
  destruct Hs as [[Ho _] _]. simpl. destruct (wr_flush s1) as [[e|v] s2] eqn:Ef; [done|]. intros [= <-].
  destruct v. apply wr_flush_ok in Ef as [Ho2 _]. unfold out. simpl. by rewrite Ho2, Ho, app_nil_r.
Qed.

Lemma streaming_sends version keep_alive d w : rd_body d = StreamingBody → chunks_nonempty (hw_stream w) →
  let given := stream_outcome (hw_stream w) in
  streamed w (response_head (sent_start version d) (sent_headers version keep_alive d) ++ encoding given.1 given.2) given.2
    (send_http_dispatch version keep_alive d w).
Proof.
  intros Eb Hne given. unfold send_http_dispatch, sent_headers, sent_start, sent_reason, sent_status. rewrite Eb.
  unfold write_http1_chunked_response. apply streamed_bind; [apply sends_write|]. intros _ w1 _ Hs1.
  apply (streamed_bind _ []); [apply sends_flush|]. intros [] w2 Hf Hs2. subst given. rewrite <-Hs1, <-Hs2 in *.
  apply streamed_wait; [by apply (flush_all w1)|done|]. intros next w3 Hne3 Hn. unfold run_chunks.
  apply chunk_loop_streamed; [done|]. destruct next; [lia|]. split; [tauto|lia].
Qed.

(** C31: an HTTP/1 response that is sent is the response the peer reads: the head
    ends where the peer looks for its end, the fields are those that were given
    with the framing and connection fields the code adds, the body is the whole
    body, buffered or streamed in chunks of any sizes, and what is sent after it
    is not touched; and all of it has been flushed. *)
Theorem http_response_read_back version keep_alive d w w' : 0 ≤ version → dispatch_ok d →
  chunks_nonempty (hw_stream w) → send_http_dispatch version keep_alive d w = (Ok (), w') →
  ∃ bytes, out w' = out w ++ bytes ∧ hw_flushed w' = zlen (out w') ∧
    ∀ rest, read_response (bytes ++ rest) = Some (mkPeerResponse (sent_start version d) (sent_headers version keep_alive d)
                                                    (sent_body d (hw_stream w)), rest).
Proof.
  intros Hv Hd Hne Hs. destruct (sent_start_ok version d Hv Hd) as (H1 & H2 & H3).
  pose proof (sent_headers_plain version keep_alive d Hd) as Hp.
  exists (response_head (sent_start version d) (sent_headers version keep_alive d) ++
    match rd_body d with
    | BufferedBody body => body
    | StreamingBody => encoding (stream_outcome (hw_stream w)).1 EndFinished
    end).
  assert (∀ l body rest, read_body_by (sent_headers version keep_alive d) l = Some (body, rest) →
    read_response (response_head (sent_start version d) (sent_headers version keep_alive d) ++ l) =
    Some (mkPeerResponse (sent_start version d) (sent_headers version keep_alive d) body, rest)) as Hr
    by (intros l body rest E; by rewrite read_head_back, E).
  unfold sent_body. destruct (rd_body d) as [body|] eqn:Eb.
  - unfold send_http_dispatch in Hs. rewrite Eb in Hs. apply buffered_sends in Hs as [Ho Hf].
    split_and!; [rewrite Ho; unfold sent_start, sent_headers, sent_reason, sent_status; by rewrite Eb|done|].
    intros rest. rewrite <-app_assoc. apply Hr. by apply buffered_framing.
  - pose proof (streaming_sends version keep_alive d w Eb Hne) as Hst. rewrite Hs in Hst.
    destruct Hst as (_ & He & Ho & Hf). rewrite He in Ho. split_and!; [done|done|]. intros rest. rewrite <-app_assoc.
    apply Hr. rewrite streaming_framing by done. unfold encoding. rewrite <-app_assoc.
    apply decode_chunked_back. by apply stream_outcome_nonempty.
Qed.

Lemma dispatch_ok_start version d : 0 ≤ version → 0 ≤ rd_status d → Forall plain_field (rd_headers d) → rd_body d = StreamingBody →
  dispatch_ok d.
Proof. intros ? ? ? Eb. unfold dispatch_ok. by rewrite Eb. Qed.

(** a streamed response never looks complete when it is not, and keeps
    nothing back: whatever the socket and the producer of the stream do, the
    sender ends or waits for one of them, what it has sent is the head and the
    chunks so far; it never waits for the next chunk with octets unflushed; it
    closes the stream when it fails; and unless the producer finished the stream,
    the peer's reader does not take what was sent for a response. *)
Theorem http_streaming_safe version keep_alive d w : 0 ≤ version → 0 ≤ rd_status d → Forall plain_field (rd_headers d) →
  rd_body d = StreamingBody → chunks_nonempty (hw_stream w) →
  let given := stream_outcome (hw_stream w) in
  let result := send_http_dispatch version keep_alive d w in
  streamed w (response_head (sent_start version d) (sent_headers version keep_alive d) ++ encoding given.1 given.2) given.2 result ∧
  (given.2 ≠ EndFinished → ∀ bytes, out result.2 = out w ++ bytes → read_response bytes = None).
Proof.
  intros Hv Hst Hp Eb Hne given result. pose proof (dispatch_ok_start version d Hv Hst Hp Eb) as Hd.
  destruct (sent_start_ok version d Hv Hd) as (H1 & H2 & H3).
  pose proof (sent_headers_plain version keep_alive d Hd) as Hph.
  pose proof (streaming_sends version keep_alive d w Eb Hne) as Hs. split; [exact Hs|]. intros He bytes Hb.
  cbv zeta in Hs. fold given result in Hs. set (head := response_head _ _) in *.
  assert (bytes `prefix_of` head ++ concat (chunk_bytes <$> given.1)) as [e Hpre].
  { assert (encoding given.1 given.2 = concat (chunk_bytes <$> given.1)) as Henc
      by (unfold encoding; destruct given.2; [done|by rewrite app_nil_r..]). rewrite Henc in Hs.
    unfold streamed in Hs. destruct result as [[u|s| |] w']; simpl in Hb; [..|tauto|tauto].
    - by destruct Hs as (_ & ? & _).
    - destruct Hs as (_ & (k & Hk & Ho) & _). rewrite Ho in Hb. by apply app_inv_head in Hb as <-. }
  destruct (Z.lt_ge_cases (zlen bytes) (zlen head)) as [Hl|Hl].
  - apply (find_after_head (sent_start version d) (sent_headers version keep_alive d)); [done..| |done].
    fold head. destruct (prefix_weak_total bytes head (bytes ++ e)) as [|Hl'%prefix_length];
      [by eexists|rewrite <-Hpre; by eexists|done|unfold zlen in Hl; lia].
  - assert (bytes = head ++ drop (length head) bytes) as Hsplit.
    { apply (f_equal (take (length head))) in Hpre. rewrite take_app_length, take_app_le in Hpre by (unfold zlen in *; lia).
      rewrite Hpre at 1. by rewrite take_drop. }
    rewrite Hsplit, <-app_assoc in Hpre. apply app_inv_head in Hpre. rewrite Hsplit. unfold head. rewrite read_head_back by done.
    rewrite streaming_framing by done. rewrite (decode_cut given.1); [done|by apply stream_outcome_nonempty|by exists e].
Qed.
End responses.

(** ** Keeping the connection open *)

(** From HTTP/1.1 on, a response to which the application adds no field of its
    own announces what the connection does next. *)
Lemma keep_alive_announced headers keep_alive version : 1 ≤ version → has_header "connection" headers = false →
  ∃ value, find_header "connection" (ensure_connection_header headers keep_alive version) = Some value ∧
    header_has_token value "close" = negb keep_alive.
Proof.
  intros Hv Hh. unfold ensure_connection_header. rewrite Hh, (proj2 (Z.leb_le _ _)) by done. rewrite andb_true_r.
  rewrite has_header_find in Hh. apply bool_decide_eq_false in Hh. destruct keep_alive; rewrite find_header_app;
    (destruct (find_header "connection" headers); [by destruct Hh|]); eexists; (split; [reflexivity|by vm_compute]).
Qed.

(** An HTTP/1.0 client that asks for keep-alive is told close, while
    [should_keep_alive] keeps its connection. *)
Lemma keep_alive_http10 : let headers := [(lit "Connection", lit "keep-alive")] in
  should_keep_alive 0 headers = true ∧
  find_header "connection" (ensure_connection_header [] (should_keep_alive 0 headers) 0) = Some (lit "close").
Proof. by vm_compute. Qed.

(** ** Examples *)
Definition demo_status : StatusLib.
Proof.
  refine {| canonical_reason := λ status, if status =? 200 then Some "OK"%string else None |}.
  intros status reason. case_match; [|done]. intros [= <-].
  by apply (bool_decide_unpack (line_free (lit "OK") ∧ Forall (λ c, char_ok c = true) (lit "OK"))).
Defined.

Definition demo_socket : Writer := mkWriter [] false [] [] [] [] [].
Definition demo_http_writer (events : list stream_event) : HttpWriter := mkHttpWriter demo_socket events false 0 [].
Definition demo_events : list stream_event :=
  [SeFrame (Chunk [0x61; 0x62; 0x63]); SeEmpty; SeFrame (Chunk (replicate 17 0x78)); SeFrame FinishedFrame].
Definition demo_dispatch (body : HttpResponseBody) : HttpResponseDispatch :=
  mkDispatch 200 [(lit "Content-Type", lit "text/plain")] body.

Lemma demo_dispatch_ok body : body = StreamingBody ∨ body = BufferedBody [0x68; 0x69] → dispatch_ok (demo_dispatch body).
Proof.
  intros [->| ->]; (split; [done|split; [by apply (bool_decide_unpack (Forall _ _))|]]); [done|].
  split; [by vm_compute|done].
Qed.

Lemma demo_chunks_nonempty : chunks_nonempty demo_events.
Proof. repeat constructor; discriminate. Qed.

Lemma http_response_read_back_witness :
  let d := demo_dispatch StreamingBody in
  let result := @send_http_dispatch demo_status 1 true d (demo_http_writer demo_events) in
  result.1 = Ok () ∧ ∃ bytes, out result.2 = [] ++ bytes ∧ hw_flushed result.2 = zlen (out result.2) ∧
    ∀ rest, read_response (bytes ++ rest) = Some (mkPeerResponse (lit "HTTP/1.1 200 OK")
      [(lit "Content-Type", lit "text/plain"); (lit "Connection", lit "keep-alive"); (lit "Transfer-Encoding", lit "chunked")]
      ([0x61; 0x62; 0x63] ++ replicate 17 0x78), rest).
Proof.
  intros d result. split; [by vm_compute|].
  apply (@http_response_read_back demo_status 1 true d (demo_http_writer demo_events) result.2 ltac:(lia)
    (demo_dispatch_ok _ (or_introl eq_refl)) demo_chunks_nonempty). by vm_compute.
Defined.

(** The producer goes away after one chunk. *)
Lemma http_streaming_safe_witness :
  let events := [SeFrame (Chunk [0x61; 0x62; 0x63]); SeEmpty; SeDropped] in
  let result := @send_http_dispatch demo_status 1 true (demo_dispatch StreamingBody) (demo_http_writer events) in
  result.1 = Err (StopErr OtherIo) ∧ hw_closed result.2 = true ∧ hw_waits result.2 = [0] ∧
  read_response (out result.2) = None.
Proof.
  intros events result. split; [by vm_compute|]. split; [by vm_compute|]. split; [by vm_compute|].
  apply (@http_streaming_safe demo_status 1 true (demo_dispatch StreamingBody) (demo_http_writer events)); try done.
  - by apply (bool_decide_unpack (Forall _ _)).
  - repeat constructor; discriminate.
Defined.

(** A Content-Length of the application is sent as it is, and the peer believes
    it: the rest of the body becomes the start of another response. *)
Lemma content_length_trusted :
  let d := mkDispatch 200 [(lit "Content-Length", lit "1")] (BufferedBody [0x68; 0x69]) in
  let result := @send_http_dispatch demo_status 1 true d (demo_http_writer []) in
  result.1 = Ok () ∧ snd <$> read_response (out result.2) = Some [0x69].
Proof. by vm_compute. Qed.

(** A field value with line ends is sent as it is, and the peer reads the fields
    it spells. *)
Lemma header_value_injected :
  let d := mkDispatch 200 [(lit "X", lit "1" ++ CRLF ++ lit "Set-Cookie: a")] (BufferedBody []) in
  let result := @send_http_dispatch demo_status 1 true d (demo_http_writer []) in
  result.1 = Ok () ∧ (λ r, (pr_headers r.1) !! 1%nat) <$> read_response (out result.2) =
    Some (Some (lit "Set-Cookie", lit "a")).
Proof. by vm_compute. Qed.

(** A stream is sent in chunks to an HTTP/1.0 client too, which knows none. *)
Lemma chunked_to_http10 :
  let result := @send_http_dispatch demo_status 0 false (demo_dispatch StreamingBody) (demo_http_writer demo_events) in
  result.1 = Ok () ∧ (λ r, (pr_start r.1, find_header "transfer-encoding" (pr_headers r.1))) <$> read_response (out result.2) =
    Some (lit "HTTP/1.0 200 OK", Some (lit "chunked")).
Proof. by vm_compute. Qed.
