(* ===== verification/Negotiation.v ===== *)
(** * What an accepted connection speaks

    [negotiate_connection] of [ct_core/src/protocol.rs]: the first four octets
    choose between HTTP/2, HTTP/1 with its WebSocket upgrade, MQTT and RawSocket;
    each is served only where the endpoint enables it, and sees the connection's
    octets from the first on. *)
From S2P Require Import Prelude Bytes Text TextOps IoStream Handshake RouterConfig HttpFraming HttpReader HttpHead HttpResponse.

(** Why a negotiation stops: an error, or an await that nothing ends. *)
Inductive neg_stop : Type :=
  | NegFail (e : NegotiationError)
  | NegPending.

Notation neg := (stateful IoStream neg_stop).

Definition neg_error {A} (detail : string) : neg A := stateful_fail (NegFail (protocol_error detail)).

(** [time::timeout(timeout, stream.read_exact(&mut buf)).await]: the timeout ends
    a stalled read. *)
Definition timed_read_exact (io : io_error → NegotiationError) (len : Z) : neg (list Z) := λ st,
  match read_exact st len with
  | (IoOk _, buf, st) => (Ok buf, st)
  | (IoErr e, _, st) => (Err (NegFail (io e)), st)
  | (Stalled, _, st) => (Err (NegFail NTimeout), st)
  end.

Definition neg_buffer_front (bytes : list Z) : neg unit := λ st, (Ok (), buffer_front st bytes).

(** ** Detection *)
Definition peek_error (e : io_error) : NegotiationError :=
  match e with
  | UnexpectedEof => protocol_error "connection closed before protocol negotiation"
  | e => NIo e
  end.

Definition peek_handshake : neg (list Z) :=
  buf ← timed_read_exact peek_error 4;
  _ ← neg_buffer_front buf;
  mret buf.

Definition http_prefixes : list (list Z) :=
  [lit "GET "; lit "POST"; lit "HEAD"; lit "PUT "; lit "DELE"; lit "OPTI"; lit "PATC"; lit "HTTP"; lit "PRI "].
Definition looks_like_http (buf : list Z) : bool := bool_decide (buf ∈ http_prefixes).

Definition HTTP2_PREFACE : list Z := lit "PRI * HTTP/2.0" ++ CRLF2 ++ lit "SM" ++ CRLF2.

(** ** MQTT *)

(** [remaining |= usize::from(digit & 0x7f) << (7 * length_bytes)] *)
Definition mqtt_digit (remaining digit length_bytes : Z) : Z :=
  Z.lor remaining (Z.shiftl (Z.land digit 0x7F) (7 * length_bytes)).

(** The loop over the digits of the remaining length. *)
Fixpoint mqtt_remaining (fuel : nat) (prefix : list Z) (remaining length_bytes : Z) : neg (list Z * Z) :=
  match fuel with
  | O => λ st, (NoFuel, st)
  | S fuel =>
      digit ← timed_read_exact NIo 1;
      let prefix := prefix ++ digit in
      let digit := octet digit 0 in
      let remaining := mqtt_digit remaining digit length_bytes in
      let length_bytes := length_bytes + 1 in
      if Z.land digit 0x80 =? 0 then
        if (1 <? length_bytes) && (digit =? 0) then neg_error "non-minimal MQTT remaining length"
        else mret (prefix, remaining)
      else if length_bytes =? 4 then neg_error "MQTT remaining length exceeds four bytes"
      else mqtt_remaining fuel prefix remaining length_bytes
  end.

Definition MQTT_NAME : list Z := [0x00; 0x04] ++ lit "MQTT".

(** Returns the protocol level; the octets read go back in front. *)
Definition negotiate_mqtt_connect : neg Z :=
  first ← timed_read_exact NIo 1;
  '(prefix, remaining) ← mqtt_remaining 4 first 0 0;
  if remaining <? 10 then neg_error "MQTT CONNECT remaining length is too short"
  else
    variable_header ← timed_read_exact NIo 10;
    let prefix := prefix ++ variable_header in
    if negb (bool_decide (take 6 variable_header = MQTT_NAME)) then neg_error "invalid MQTT CONNECT protocol name"
    else
      let version := octet variable_header 6 in
      if negb (version =? 4) && negb (version =? 5) then neg_error "unsupported MQTT protocol level"
      else if remaining <? (if version =? 5 then 13 else 12)
      then neg_error "MQTT CONNECT remaining length is too short"
      else
        _ ← neg_buffer_front prefix;
        mret version.

(** ** HTTP *)
Record HttpHandshake : Type := mkHttpHandshake {
  hh_request : HttpRequest;
  hh_body : HttpBodyPhase;
  hh_prefetched : list Z;
}.

Record WebSocketHandshake : Type := mkWebSocketHandshake {
  ws_http : HttpHandshake;
  sec_websocket_key : str;
  sec_websocket_protocols : list str;
  sec_websocket_version : option str;
  sec_websocket_extensions : list str;
}.

Definition body_len (h : HttpHandshake) : Z :=
  match hh_body h with
  | Buffered bytes => zlen bytes
  | Finished => 0
  | NeedsStreaming prefix remaining_len => zlen prefix + remaining_len
  end.

Definition parse_comma_separated (value : str) : list str :=
  filter (λ part, part ≠ []) (trim <$> split_on 0x2C value).

Definition header_equals (request : HttpRequest) (name expected : string) : bool :=
  match header request (lit name) with Some value => eq_ignore_ascii_case value (lit expected) | None => false end.

Definition header_contains_token (request : HttpRequest) (name token : string) : bool :=
  match header request (lit name) with Some value => header_has_token value token | None => false end.

(** [None] keeps the HTTP request. *)
Definition try_into_websocket (h : HttpHandshake) : option WebSocketHandshake :=
  let request := hh_request h in
  if negb (eq_ignore_ascii_case (req_method request) (lit "GET")) then None
  else if negb (header_equals request "Upgrade" "websocket") then None
  else if negb (header_contains_token request "Connection" "upgrade") then None
  else
    match header request (lit "Sec-WebSocket-Key") with
    | None => None
    | Some key =>
        if 0 <? body_len h then None
        else
          Some {|
            ws_http := h;
            sec_websocket_key := trim key;
            sec_websocket_protocols := default [] (parse_comma_separated <$> header request (lit "Sec-WebSocket-Protocol"));
            sec_websocket_version := trim <$> header request (lit "Sec-WebSocket-Version");
            sec_websocket_extensions :=
              default [] (parse_comma_separated <$> header request (lit "Sec-WebSocket-Extensions"));
          |}
    end.

(** [WebSocketHandshake::into_stream]: what the parser read ahead goes back. *)
Definition websocket_stream (h : WebSocketHandshake) (st : IoStream) : IoStream :=
  buffer_front st (hh_prefetched (ws_http h)).

(** [HttpHandshakeError]; a rejection carries the status and the error it becomes. *)
Inductive HttpHandshakeError : Type :=
  | HsNegotiation (e : NegotiationError)
  | HsReject (version status : Z) (detail : str).

Definition classify_http_handshake_error (version : option Z) (err : NegotiationError) : HttpHandshakeError :=
  match err with
  | NProtocol detail =>
      match classify_http_error_status detail with
      | Some status => HsReject (default 1 version) status detail
      | None => HsNegotiation (NProtocol detail)
      end
  | other => HsNegotiation other
  end.

Section http.
Context `{HL : !HttpParseLib} `{UC : !UnicodeCase} {Json : Type}.
Implicit Type endpoint : EndpointRuntimeConfig Json.

Definition parse_http_handshake endpoint (st : IoStream) : outcome HttpHandshakeError HttpHandshake * IoStream :=
  match read_http_request_with_options endpoint false HTTP1_INLINE_BODY_LIMIT (mkBufReader [] st 1024) with
  | (Ok (Some (request, body)), r) =>
      let too_long :=
        match body with
        | Buffered bytes => if body_limit endpoint <? zlen bytes then Some (zlen bytes) else None
        | _ => None
        end in
      match too_long with
      | Some len =>
          (Err (HsReject (req_version request) 413
                  (lit "http body length " ++ show_number len ++ lit " exceeds configured limit " ++
                   show_number (body_limit endpoint))), br_inner r)
      | None => (Ok (mkHttpHandshake request body (br_buffer r)), br_inner r)
      end
  | (Ok None, r) =>
      (Err (HsNegotiation (protocol_error "connection closed before HTTP headers completed")), br_inner r)
  | (Err err, r) => (Err (classify_http_handshake_error None err), br_inner r)
  | (Panic, r) => (Panic, br_inner r)
  | (NoFuel, r) => (NoFuel, br_inner r)
  end.

(** [send_http_status_only_response] on a stream: the head of an empty response
    with [Connection: close], then the shutdown. *)
Definition send_http_status_only_response (version status : Z) : neg unit := λ st,
  let headers := [(lit "Connection", lit "close")] in
  match write_all st (response_head (status_line version status (http_reason_phrase status))
                        (headers ++ added_fields version headers 0)) with
  | (IoOk _, st) => (Ok (), shutdown st)
  | (IoErr e, st) => (Err (NegFail (NIo e)), st)
  | (Stalled, st) => (Err NegPending, st)
  end.

(** ** Negotiation *)
Record Http2Handshake : Type := mkHttp2Handshake {
  h2_protocol : str;
  h2_alpn : option str;
  h2_listener_protocols : list string;
}.

Inductive NegotiatedConnection : Type :=
  | NcRawSocket (session : NegotiatedSession)
  | NcMqtt (version : Z)
  | NcWebSocket (handshake : WebSocketHandshake)
  | NcHttp (handshake : HttpHandshake)
  | NcHttp2 (handshake : Http2Handshake).

Definition listener_protocols endpoint : list string := identifier <$> er_protocols endpoint.

Definition http2_handshake endpoint (negotiated_alpn : option str) : Http2Handshake :=
  let configured :=
    settings ← http_settings endpoint;
    if bool_decide (lit "h2" ∈ alpn settings) then Some (lit "h2") else None in
  mkHttp2Handshake (lit "http/2")
    (match negotiated_alpn with Some a => Some a | None => configured end) (listener_protocols endpoint).

(** The HTTP branch behind the preface check. *)
Definition negotiate_http endpoint : neg NegotiatedConnection := λ st,
  match parse_http_handshake endpoint st with
  | (Ok handshake, st) =>
      if supports_protocol endpoint PWebsocket then
        match try_into_websocket handshake with
        | Some websocket => (Ok (NcWebSocket websocket), st)
        | None =>
            if supports_protocol endpoint PHttp then (Ok (NcHttp handshake), st)
            else neg_error "websocket handshake rejected and HTTP disabled" st
        end
      else if supports_protocol endpoint PHttp then (Ok (NcHttp handshake), st)
      else neg_error "HTTP protocol disabled for listener" st
  | (Err (HsNegotiation err), st) => (Err (NegFail err), st)
  | (Err (HsReject version status detail), st) =>
      (_ ← send_http_status_only_response version status; stateful_fail (NegFail (NProtocol detail))) st
  | (Panic, st) => (Panic, st)
  | (NoFuel, st) => (NoFuel, st)
  end.

(** [rawsocket::negotiate] with its errors converted. *)
Definition negotiate_rawsocket endpoint : neg NegotiatedConnection := λ st,
  match negotiate (er_max_rawsocket_size_exponent endpoint) st with
  | (SOk session, st) => (Ok (NcRawSocket session), st)
  | (SErr (Protocol msg), st) => (Err (NegFail (protocol_error msg)), st)
  | (SErr (Io e), st) => (Err (NegFail (NIo e)), st)
  | (SPending, st) => (Err NegPending, st)
  end.

Definition negotiate_connection endpoint (negotiated_alpn : option str) : neg NegotiatedConnection :=
  prefix ← peek_handshake;
  if looks_like_http prefix then
    if bool_decide (prefix = take 4 HTTP2_PREFACE) then
      if negb (supports_protocol endpoint PHttp2) then neg_error "http2 protocol disabled for listener"
      else mret (NcHttp2 (http2_handshake endpoint negotiated_alpn))
    else if negb (supports_protocol endpoint PHttp) && negb (supports_protocol endpoint PWebsocket)
    then neg_error "http/websocket protocols disabled for listener"
    else negotiate_http endpoint
  else if octet prefix 0 =? 0x10 then
    if negb (supports_protocol endpoint PMqtt) then neg_error "mqtt protocol disabled for listener"
    else version ← negotiate_mqtt_connect; mret (NcMqtt version)
  else if octet prefix 0 =? RAWSOCKET_MAGIC then
    if negb (supports_protocol endpoint PRawsocket) then neg_error "rawsocket protocol disabled for listener"
    else negotiate_rawsocket endpoint
  else neg_error "unsupported listener handshake preamble".
End http.

(** [Http3Handshake::from_endpoint] *)
Record Http3Handshake : Type := mkHttp3Handshake {
  h3_protocol : str;
  h3_alpn : option str;
  h3_listener_protocols : list string;
}.

Definition http3_from_endpoint {Json} (endpoint : EndpointRuntimeConfig Json) : Http3Handshake :=
  mkHttp3Handshake (lit "http/3")
    (settings ← http_settings endpoint;
     snd <$> list_find (λ token, eq_ignore_ascii_case token (lit "h3") || starts_with (lit "h3-") token = true) (alpn settings))
    (listener_protocols endpoint).

(** ** Timed reads *)
Lemma timed_read_op io len st b st' : timed_read_exact io len st = (Ok b, st') ↔ op_read_exact io len st = (SOk b, st').
Proof.
  unfold timed_read_exact, op_read_exact. destruct (read_exact st len) as [[[u|e|] buf] st1]; split; intros E; inversion E; done.
Qed.

Lemma timed_read_ok io len st b st' : front_ok st → 0 ≤ len → timed_read_exact io len st = (Ok b, st') →
  zlen b = len ∧ front_ok st' ∧ unread st = b ++ unread st'.
Proof. intros Hok Hl H%timed_read_op. apply op_read_exact_ok in H as (? & ? & ? & _); done. Qed.

Lemma timed_read_flows io bs rest st n : stream_flows st n → zlen bs ≤ n → unread st = bs ++ rest →
  ∃ st', timed_read_exact io (zlen bs) st = (Ok bs, st') ∧ unread st' = rest ∧ stream_flows st' (n - zlen bs).
Proof. intros Hs Hn Hu. destruct (op_read_exact_prefix io st bs rest n Hs Hn Hu) as (st' & H%timed_read_op & ?). eauto. Qed.

(** A step that ends, with a result or an error. *)
Definition settles {A} (result : outcome neg_stop A) : Prop :=
  match result with Ok _ | Err (NegFail _) => True | _ => False end.

(** A timed read ends. *)
Lemma timed_read_settles io len st : settles (timed_read_exact io len st).1.
Proof. unfold timed_read_exact. by destruct (read_exact st len) as [[[u|e|] buf] st1]. Qed.

Lemma neg_bind_settles {A B} (m : neg A) (f : A → neg B) st : settles (m st).1 →
  (∀ a st1, m st = (Ok a, st1) → settles (f a st1).1) → settles ((m ≫= f) st).1.
Proof. unfold mbind, stateful_bind. destruct (m st) as [[a|e| |] st1]; simpl; intros Hm Hf; [by apply Hf|done..]. Qed.

(** ** MQTT preludes *)

(** The variable byte integer of MQTT, in its one shortest form. *)
Fixpoint mqtt_varint (digits : nat) (n : Z) : list Z :=
  match digits with
  | O => []
  | S digits => if n <? 128 then [n] else (n mod 128 + 128) :: mqtt_varint digits (n / 128)
  end.

(** What a connection that speaks MQTT starts with, and its protocol level. *)
Definition mqtt_prelude (l : list Z) (version : Z) : Prop :=
  ∃ first remaining flags rest,
    l = first :: mqtt_varint 4 remaining ++ MQTT_NAME ++ version :: flags ++ rest ∧ zlen flags = 3 ∧
    0 ≤ remaining < 128 ^ 4 ∧ (version = 4 ∧ 12 ≤ remaining ∨ version = 5 ∧ 13 ≤ remaining).

Lemma lor_shiftl a b n : 0 ≤ n → 0 ≤ a < 2 ^ n → 0 ≤ b → Z.lor a (Z.shiftl b n) = a + b * 2 ^ n.
Proof.
  intros Hn Ha Hb. rewrite <-Z.shiftl_mul_pow2 by done.
  assert (Z.land a (Z.shiftl b n) = 0) as Hz.
  { apply Z.bits_inj'. intros i Hi. rewrite Z.land_spec, Z.bits_0. destruct (Z.lt_ge_cases i n).
    - rewrite Z.shiftl_spec_low by done. apply andb_false_r.
    - destruct (Z.eq_dec a 0) as [->|]; [by rewrite Z.bits_0|].
      rewrite Z.bits_above_log2; [done|lia|]. apply Z.lt_le_trans with n; [|done]. apply Z.log2_lt_pow2; lia. }
  by rewrite Z.add_nocarry_lxor, Z.lxor_lor by done.
Qed.

Lemma mqtt_digit_value remaining digit (k : nat) : 0 ≤ remaining < 128 ^ Z.of_nat k → 0 ≤ digit →
  mqtt_digit remaining digit (Z.of_nat k) = remaining + (digit mod 128) * 128 ^ Z.of_nat k.
Proof.
  intros Hr Hd. unfold mqtt_digit. change 0x7F with (Z.ones 7). rewrite land_low by lia. change (2 ^ 7) with 128.
  assert (128 ^ Z.of_nat k = 2 ^ (7 * Z.of_nat k)) as Hp by (change 128 with (2 ^ 7); rewrite <-Z.pow_mul_r; lia).
  rewrite Hp in *. apply lor_shiftl; [lia|done|]. apply Z.mod_pos_bound. lia.
Qed.

Lemma octet_high d : u8_ok d → (Z.land d 0x80 =? 0) = (d <? 128).
Proof.
  intros Hd. pattern d. u8_decide Hd.
Qed.

Lemma mqtt_varint_length digits n : (0 < digits)%nat → 0 ≤ n < 128 ^ Z.of_nat digits →
  1 ≤ zlen (mqtt_varint digits n) ≤ Z.of_nat digits.
Proof.
  revert n. induction digits as [|digits IH]; intros n Hd Hn; [lia|]. cbn [mqtt_varint].
  destruct (Z.ltb_spec n 128); [change (zlen [n]) with 1; lia|]. rewrite zlen_cons.
  rewrite Nat2Z.inj_succ, Z.pow_succ_r in Hn by lia. destruct digits as [|digits]; [simpl in Hn; lia|].
  specialize (IH (n / 128) ltac:(lia) ltac:(dmlia)). lia.
Qed.

(** One digit of the remaining length. *)
Definition mqtt_step (fuel : nat) (prefix : list Z) (remaining : Z) (k : nat) (digit : Z) : neg (list Z * Z) :=
  let remaining := mqtt_digit remaining digit (Z.of_nat k) in
  if Z.land digit 0x80 =? 0 then
    if (1 <? Z.of_nat k + 1) && (digit =? 0) then neg_error "non-minimal MQTT remaining length"
    else mret (prefix ++ [digit], remaining)
  else if Z.of_nat k + 1 =? 4 then neg_error "MQTT remaining length exceeds four bytes"
  else mqtt_remaining fuel (prefix ++ [digit]) remaining (Z.of_nat (S k)).

Lemma mqtt_remaining_step fuel prefix remaining k st digit st1 : timed_read_exact NIo 1 st = (Ok [digit], st1) →
  mqtt_remaining (S fuel) prefix remaining (Z.of_nat k) st = mqtt_step fuel prefix remaining k digit st1.
Proof.
  intros Hr. cbn [mqtt_remaining]. rewrite (stateful_bind_run _ _ _ _ _ Hr). unfold mqtt_step, octet. cbn [nth].
  replace (Z.of_nat (S k)) with (Z.of_nat k + 1) by lia. done.
Qed.

(** What the loop accepts is the shortest form of what it adds. *)
Lemma mqtt_remaining_ok fuel prefix remaining k st result st' : front_ok st → bytes_ok (unread st) →
  (k + fuel = 4)%nat → 0 ≤ remaining < 128 ^ Z.of_nat k →
  mqtt_remaining fuel prefix remaining (Z.of_nat k) st = (Ok result, st') → ∃ v,
    result = (prefix ++ mqtt_varint fuel v, remaining + v * 128 ^ Z.of_nat k) ∧ 0 ≤ v < 128 ^ Z.of_nat fuel ∧
    ((0 < k)%nat → 0 < v) ∧ front_ok st' ∧ unread st = mqtt_varint fuel v ++ unread st'.
Proof.
  revert prefix remaining k st. induction fuel as [|fuel IH]; intros prefix remaining k st Hok Hb Hk Hr; [done|].
  intros H. pose proof H as (digit & st1 & Hd & _)%stateful_bind_ok.
  pose proof (timed_read_ok NIo 1 _ _ _ Hok ltac:(lia) Hd) as (Hz & Hok1 & Hu).
  destruct digit as [|d [|? ?]]; [by rewrite zlen_nil in Hz| |revert Hz; zlia].
  rewrite (mqtt_remaining_step _ _ _ _ _ _ _ Hd) in H. unfold mqtt_step in H.
  assert (u8_ok d) as Hd8 by (rewrite Hu in Hb; by apply Forall_cons in Hb as [? _]).
  rewrite octet_high in H by done. unfold u8_ok in Hd8. rewrite mqtt_digit_value in H by lia.
  destruct (Z.ltb_spec d 128) as [Hlow|Hhigh].
  - destruct ((1 <? Z.of_nat k + 1) && (d =? 0)) eqn:Ez; [done|]. injection H as <- ->. exists d.
    cbn [mqtt_varint]. destruct (Z.ltb_spec d 128); [|lia]. rewrite Z.mod_small by lia.
    rewrite Nat2Z.inj_succ, Z.pow_succ_r by lia. split_and!; [done|lia| |lia|done|done].
    assert (0 < 128 ^ Z.of_nat fuel) by (apply Z.pow_pos_nonneg; lia). nia.
  - destruct (Z.eqb_spec (Z.of_nat k + 1) 4); [done|].
    assert (d mod 128 = d - 128) as Hm by dmlia. rewrite Hm in H.
    assert (128 ^ Z.of_nat (S k) = 128 * 128 ^ Z.of_nat k) as Hp by (rewrite Nat2Z.inj_succ, Z.pow_succ_r; lia).
    apply IH in H as (v & -> & Hv & Hpos & Hok' & Hu'); [|done|rewrite Hu in Hb; by apply Forall_cons in Hb as [_ ?]|lia|rewrite Hp; nia].
    specialize (Hpos ltac:(lia)). exists (d - 128 + 128 * v). cbn [mqtt_varint].
    destruct (Z.ltb_spec (d - 128 + 128 * v) 128); [lia|].
    assert ((d - 128 + 128 * v) mod 128 = d - 128) as -> by dmlia.
    assert ((d - 128 + 128 * v) / 128 = v) as -> by dmlia. replace (d - 128 + 128) with d by lia.
    assert (128 ^ Z.of_nat (S fuel) = 128 * 128 ^ Z.of_nat fuel) as Hpf by (rewrite Nat2Z.inj_succ, Z.pow_succ_r; lia).
    rewrite Hpf. split_and!; try lia; try done.
    + rewrite <-app_assoc. f_equal. lia.
    + by rewrite Hu, Hu'.
Qed.

(** Every shortest form is accepted. *)
Lemma mqtt_remaining_flows fuel prefix remaining k st v rest n : (k + fuel = 4)%nat → (0 < fuel)%nat →
  0 ≤ remaining < 128 ^ Z.of_nat k → 0 ≤ v < 128 ^ Z.of_nat fuel → ((0 < k)%nat → 0 < v) →
  unread st = mqtt_varint fuel v ++ rest → zlen (mqtt_varint fuel v) ≤ n → stream_flows st n →
  ∃ st', mqtt_remaining fuel prefix remaining (Z.of_nat k) st =
      (Ok (prefix ++ mqtt_varint fuel v, remaining + v * 128 ^ Z.of_nat k), st') ∧
    unread st' = rest ∧ stream_flows st' (n - zlen (mqtt_varint fuel v)).
Proof.
  revert prefix remaining k st v n. induction fuel as [|fuel IH]; intros prefix remaining k st v n Hk Hf Hr Hv Hpos; [lia|].
  cbn [mqtt_varint]. assert (128 ^ Z.of_nat (S k) = 128 * 128 ^ Z.of_nat k) as Hp by (rewrite Nat2Z.inj_succ, Z.pow_succ_r; lia).
  rewrite Nat2Z.inj_succ, Z.pow_succ_r in Hv by lia. destruct (Z.ltb_spec v 128) as [Hlow|Hhigh]; intros Hu Hn Hs.
  - destruct (timed_read_flows NIo [v] rest st n Hs Hn Hu) as (st1 & Hd & Hu1 & Hs1). exists st1.
    rewrite (mqtt_remaining_step _ _ _ _ _ _ _ Hd). unfold mqtt_step. rewrite octet_high by (unfold u8_ok; lia).
    rewrite (proj2 (Z.ltb_lt _ _)) by done. rewrite mqtt_digit_value, Z.mod_small by lia.
    assert ((1 <? Z.of_nat k + 1) && (v =? 0) = false) as -> by lia. done.
  - destruct fuel as [|fuel]; [simpl in Hv; lia|]. set (d := v mod 128 + 128) in *.
    assert (d mod 128 = v mod 128 ∧ 128 ≤ d < 256) as [Hd128 Hd] by (unfold d; dmlia).
    rewrite zlen_cons in Hn. pose proof (zlen_nonneg (mqtt_varint (S fuel) (v / 128))).
    destruct (timed_read_flows NIo [d] (mqtt_varint (S fuel) (v / 128) ++ rest) st n Hs) as (st1 & Hd1 & Hu1 & Hs1);
      [change (zlen [d]) with 1; lia|done|]. change (zlen [d]) with 1 in *.
    destruct (IH (prefix ++ [d]) (remaining + v mod 128 * 128 ^ Z.of_nat k) (S k) st1 (v / 128) (n - 1))
      as (st' & Hm & Hu' & Hs'); [lia|lia|rewrite Hp; pose proof (Z.mod_pos_bound v 128); nia|dmlia|dmlia|done|lia|done|].
    exists st'. rewrite (mqtt_remaining_step _ _ _ _ _ _ _ Hd1). unfold mqtt_step. rewrite octet_high by (unfold u8_ok; lia).
    rewrite (proj2 (Z.ltb_ge _ _)) by lia. rewrite (proj2 (Z.eqb_neq _ _)) by lia. rewrite mqtt_digit_value, Hd128 by lia.
    rewrite Hm. split_and!; [|done|rewrite zlen_cons; by rewrite Z.sub_add_distr].
    rewrite <-app_assoc. do 3 f_equal. rewrite Hp. pose proof (Z.div_mod v 128 ltac:(lia)). nia.
Qed.

(** What follows the remaining length. *)
Definition mqtt_header (prefix : list Z) (remaining : Z) : neg Z :=
  variable_header ← timed_read_exact NIo 10;
  let prefix := prefix ++ variable_header in
  if negb (bool_decide (take 6 variable_header = MQTT_NAME)) then neg_error "invalid MQTT CONNECT protocol name"
  else
    let version := octet variable_header 6 in
    if negb (version =? 4) && negb (version =? 5) then neg_error "unsupported MQTT protocol level"
    else if remaining <? (if version =? 5 then 13 else 12)
    then neg_error "MQTT CONNECT remaining length is too short"
    else
      _ ← neg_buffer_front prefix;
      mret version.

Definition mqtt_rest (result : list Z * Z) : neg Z :=
  let '(prefix, remaining) := result in
  if remaining <? 10 then neg_error "MQTT CONNECT remaining length is too short" else mqtt_header prefix remaining.

Lemma negotiate_mqtt_steps : negotiate_mqtt_connect =
  (first ← timed_read_exact NIo 1; result ← mqtt_remaining 4 first 0 0; mqtt_rest result).
Proof. done. Qed.

Definition level_ok (version remaining : Z) : Prop := version = 4 ∧ 12 ≤ remaining ∨ version = 5 ∧ 13 ≤ remaining.

Lemma mqtt_rest_ok prefix remaining st version st' : front_ok st → mqtt_rest (prefix, remaining) st = (Ok version, st') →
  ∃ flags, zlen flags = 3 ∧ level_ok version remaining ∧ front_ok st' ∧
    unread st' = prefix ++ unread st ∧ ∃ rest, unread st = MQTT_NAME ++ version :: flags ++ rest.
Proof.
  intros Hok. unfold mqtt_rest. destruct (Z.ltb_spec remaining 10) as [|_]; [done|].
  intros (header & st1 & Hr & H)%stateful_bind_ok.
  pose proof (timed_read_ok NIo 10 _ _ _ Hok ltac:(lia) Hr) as (Hz & Hok1 & Hu).
  case_bool_decide as Hname; [|done]. cbn [negb] in H.
  assert (header = MQTT_NAME ++ drop 6 header) as Hsplit by (rewrite <-Hname; by rewrite take_drop).
  destruct (drop 6 header) as [|level flags] eqn:Ed.
  { rewrite Hsplit in Hz. by vm_compute in Hz. }
  assert (octet header 6 = level) as Hl by (rewrite Hsplit; done). rewrite Hl in H.
  destruct (negb (level =? 4) && negb (level =? 5)) eqn:El; [done|].
  destruct (Z.ltb_spec remaining (if level =? 5 then 13 else 12)) as [|Hlen]; [done|].
  injection H as <- <-. exists flags. split_and!.
  - rewrite Hsplit in Hz. rewrite zlen_app, zlen_cons in Hz. change (zlen MQTT_NAME) with 6 in Hz. lia.
  - unfold level_ok. destruct (Z.eqb_spec level 5); [lia|]. destruct (Z.eqb_spec level 4); [lia|done].
  - by apply buffer_front_ok.
  - rewrite unread_buffer_front by done. by rewrite <-app_assoc, <-Hu.
  - exists (unread st1). rewrite Hu, Hsplit at 1. by rewrite <-app_assoc.
Qed.

Lemma mqtt_rest_flows prefix remaining st version flags rest n : level_ok version remaining → zlen flags = 3 →
  unread st = MQTT_NAME ++ version :: flags ++ rest → stream_flows st n → 10 ≤ n →
  ∃ st', mqtt_rest (prefix, remaining) st = (Ok version, st').
Proof.
  intros Hl Hf Hu Hs Hn. unfold mqtt_rest. assert (remaining <? 10 = false) as -> by (unfold level_ok in Hl; lia).
  assert (zlen (MQTT_NAME ++ version :: flags) = 10) as Hz by (rewrite zlen_app, zlen_cons, Hf; done).
  destruct (timed_read_flows NIo (MQTT_NAME ++ version :: flags) rest st n Hs) as (st1 & Hr & _); [lia|by rewrite <-app_assoc|].
  rewrite Hz in Hr. unfold mqtt_header. rewrite (stateful_bind_run _ _ _ _ _ Hr).
  rewrite bool_decide_eq_true_2 by done. cbn [negb].
  change (octet (MQTT_NAME ++ version :: flags) 6) with version.
  assert (negb (version =? 4) && negb (version =? 5) = false) as -> by (unfold level_ok in Hl; lia).
  assert (remaining <? (if version =? 5 then 13 else 12) = false) as -> by
    (unfold level_ok in Hl; destruct (Z.eqb_spec version 5); lia).
  eexists. reflexivity.
Qed.

Lemma mqtt_connect_ok st version st' : front_ok st → bytes_ok (unread st) → negotiate_mqtt_connect st = (Ok version, st') →
  mqtt_prelude (unread st) version ∧ unread st' = unread st ∧ front_ok st'.
Proof.
  rewrite negotiate_mqtt_steps. intros Hok Hb (first & st1 & Hr & H)%stateful_bind_ok.
  pose proof (timed_read_ok NIo 1 _ _ _ Hok ltac:(lia) Hr) as (Hz & Hok1 & Hu).
  destruct first as [|b [|? ?]]; [by rewrite zlen_nil in Hz| |revert Hz; zlia].
  apply stateful_bind_ok in H as (result & st2 & Hm & H).
  assert (bytes_ok (unread st1)) as Hb1 by (rewrite Hu in Hb; by apply Forall_cons in Hb as [_ ?]).
  destruct (mqtt_remaining_ok 4 [b] 0 0 st1 _ _ Hok1 Hb1 eq_refl ltac:(done) Hm) as (v & -> & Hv & _ & Hok2 & Hu2).
  destruct (mqtt_rest_ok _ _ _ _ _ Hok2 H) as (flags & Hf & Hl & Hok' & Hu' & rest & Hrest).
  rewrite Hu' in *. rewrite Hu, Hu2. split_and!; [|by rewrite <-app_assoc|done].
  exists b, v, flags, rest. rewrite Hrest. split_and!; [done|done|lia|lia|]. rewrite Z.mul_1_r in Hl. exact Hl.
Qed.

(** Negotiating MQTT always ends. *)
Lemma mqtt_remaining_settles fuel prefix remaining k st : (k + fuel = 4)%nat → (0 < fuel)%nat →
  settles (mqtt_remaining fuel prefix remaining (Z.of_nat k) st).1.
Proof.
  revert prefix remaining k st. induction fuel as [|fuel IH]; intros prefix remaining k st Hk Hf; [lia|].
  cbn [mqtt_remaining]. apply neg_bind_settles; [apply timed_read_settles|]. intros digit st1 _.
  case_match; [by case_match|]. destruct (Z.eqb_spec (Z.of_nat k + 1) 4); [done|].
  replace (Z.of_nat k + 1) with (Z.of_nat (S k)) by lia. apply IH; lia.
Qed.

Lemma mqtt_connect_settles st : settles (negotiate_mqtt_connect st).1.
Proof.
  rewrite negotiate_mqtt_steps. apply neg_bind_settles; [apply timed_read_settles|]. intros first st1 _.
  apply neg_bind_settles; [by apply (mqtt_remaining_settles 4 first 0 0); lia|]. intros [prefix remaining] st2 _.
  unfold mqtt_rest. case_match; [done|]. apply neg_bind_settles; [apply timed_read_settles|]. intros header st3 _.
  do 2 (case_match; [exact I|]; cbv zeta). case_match; exact I.
Qed.

(** an MQTT connection is accepted exactly when it starts with a CONNECT
    prelude: a remaining length in the shortest form of at most four digits, the
    name MQTT, and a level 4 or 5 for which that length leaves room.  The packet
    codec then sees the connection from its first octet on.  Detection always
    ends. *)
Theorem mqtt_connect_exact st : front_ok st → bytes_ok (unread st) →
  settles (negotiate_mqtt_connect st).1 ∧
  (∀ version st', negotiate_mqtt_connect st = (Ok version, st') →
     mqtt_prelude (unread st) version ∧ unread st' = unread st) ∧
  (∀ version, mqtt_prelude (unread st) version → stream_flows st (zlen (unread st)) →
     ∃ st', negotiate_mqtt_connect st = (Ok version, st') ∧ unread st' = unread st).
Proof.
  intros Hok Hb. split; [apply mqtt_connect_settles|]. split.
  { intros version st' H. by destruct (mqtt_connect_ok _ _ _ Hok Hb H) as (? & ? & _). }
  intros version (first & v & flags & rest & Hu & Hf & Hv & Hl) Hs.
  assert (∃ st', negotiate_mqtt_connect st = (Ok version, st')) as [st' H].
  { pose proof (mqtt_varint_length 4 v ltac:(lia) Hv) as Hvl. pose proof (zlen_nonneg rest).
    assert (zlen (unread st) = 1 + (zlen (mqtt_varint 4 v) + (6 + (1 + (3 + zlen rest))))) as Hz
      by (rewrite Hu, zlen_cons, !zlen_app, zlen_cons, zlen_app, Hf; done).
    rewrite negotiate_mqtt_steps.
    destruct (timed_read_flows NIo [first] _ st _ Hs ltac:(change (zlen [first]) with 1; lia) Hu) as (st1 & Hr & Hu1 & Hs1).
    change (zlen [first]) with 1 in *. rewrite (stateful_bind_run _ _ _ _ _ Hr).
    destruct (mqtt_remaining_flows 4 [first] 0 0 st1 v _ (zlen (unread st) - 1) eq_refl ltac:(lia) ltac:(done) Hv ltac:(lia) Hu1 ltac:(lia) Hs1)
      as (st2 & Hm & Hu2 & Hs2).
    rewrite (stateful_bind_run _ _ _ _ _ Hm).
    apply (mqtt_rest_flows _ _ st2 version flags rest (zlen (unread st) - 1 - zlen (mqtt_varint 4 v))); [|done|done|done|lia].
    unfold level_ok. simpl. lia. }
  exists st'. split; [done|]. by destruct (mqtt_connect_ok _ _ _ Hok Hb H) as (_ & ? & _).
Qed.

(** ** Reading a request sends nothing *)
Definition quiet (st st' : IoStream) : Prop := written st' = written st ∧ writes st' = writes st ∧ is_shutdown st' = is_shutdown st.

#[global] Instance quiet_preorder : PreOrder quiet.
Proof. split; [done|]. unfold quiet. intros x y z (? & ? & ?) (? & ? & ?). split_and!; congruence. Qed.

Lemma poll_read_quiet st room : quiet st (poll_read st room).2.
Proof. unfold poll_read. repeat case_match; done. Qed.

Lemma fill_buf_quiet r : quiet (br_inner r) (br_inner (fill_buf r).2).
Proof.
  unfold fill_buf. destruct (br_buffer r); [|done]. pose proof (poll_read_quiet (br_inner r) (br_capacity r)) as Hq.
  by destruct (poll_read _ _) as [[bs|e|] st].
Qed.

Lemma fill_loop_quiet fuel st len filled : quiet st (fill_loop fuel st len filled).2.
Proof.
  revert st filled. induction fuel as [|fuel IH]; intros st filled; cbn [fill_loop]; [by case_match|].
  case_match; [done|]. pose proof (poll_read_quiet st (len - zlen filled)) as Hq.
  destruct (poll_read _ _) as [[[|b bs]|e|] st1]; try done. etransitivity; [exact Hq|apply IH].
Qed.

Lemma timed_read_quiet io len st : quiet st (timed_read_exact io len st).2.
Proof.
  unfold timed_read_exact, read_exact. pose proof (fill_loop_quiet (Z.to_nat len) st len []) as Hq.
  by destruct (fill_loop _ _ _ _) as [[[u|e|] buf] st1].
Qed.

Lemma buffer_front_quiet st bytes : quiet st (buffer_front st bytes).
Proof. unfold buffer_front. repeat case_match; done. Qed.

Lemma neg_bind_quiet {A B} (m : neg A) (f : A → neg B) st : quiet st (m st).2 →
  (∀ a st1, m st = (Ok a, st1) → quiet st1 (f a st1).2) → quiet st ((m ≫= f) st).2.
Proof.
  unfold mbind, stateful_bind. destruct (m st) as [[a|e| |] st1]; simpl; intros Hm Hf; [|done..].
  etransitivity; [exact Hm|by apply Hf].
Qed.

Lemma mqtt_remaining_quiet fuel prefix remaining k st : quiet st (mqtt_remaining fuel prefix remaining k st).2.
Proof.
  revert prefix remaining k st. induction fuel as [|fuel IH]; intros prefix remaining k st; [done|]. cbn [mqtt_remaining].
  apply neg_bind_quiet; [apply timed_read_quiet|]. intros digit st1 _. case_match; [by case_match|]. case_match; [done|]. apply IH.
Qed.

Lemma mqtt_connect_quiet st : quiet st (negotiate_mqtt_connect st).2.
Proof.
  rewrite negotiate_mqtt_steps. apply neg_bind_quiet; [apply timed_read_quiet|]. intros first st1 _.
  apply neg_bind_quiet; [apply mqtt_remaining_quiet|]. intros [prefix remaining] st2 _.
  unfold mqtt_rest. case_match; [done|]. apply neg_bind_quiet; [apply timed_read_quiet|]. intros header st3 _.
  do 2 (case_match; [done|]; cbv zeta). case_match; [done|]. apply buffer_front_quiet.
Qed.

Lemma read_head_quiet fuel eof header r : quiet (br_inner r) (br_inner (read_head fuel eof header r).2).
Proof.
  revert header r. induction fuel as [|fuel IH]; intros header r; [done|]. cbn [read_head].
  pose proof (fill_buf_quiet r) as Hq. destruct (fill_buf r) as [[available|e|] r1]; [|done..]. simpl in Hq.
  case_match; [by case_match|]. cbv zeta. case_match; [by repeat case_match|]. case_match; [done|].
  etransitivity; [exact Hq|]. apply (IH _ (consume (zlen available) r1)).
Qed.

Lemma read_body_quiet fuel len body r : quiet (br_inner r) (br_inner (read_body fuel len body r).2).
Proof.
  revert body r. induction fuel as [|fuel IH]; intros body r; cbn [read_body]; case_match; try done.
  pose proof (fill_buf_quiet r) as Hq. destruct (fill_buf r) as [[available|e|] r1]; [|done..]. simpl in Hq. cbv zeta.
  case_match; [done|]. etransitivity; [exact Hq|].
  apply (IH _ (consume (Z.min (len - zlen body) (zlen available)) r1)).
Qed.

Section sound.
Context `{HL : !HttpParseLib} `{UC : !UnicodeCase} {Json : Type} (endpoint : EndpointRuntimeConfig Json).

Lemma read_request_quiet eof limit r : quiet (br_inner r) (br_inner (read_http_request_with_options endpoint eof limit r).2).
Proof.
  unfold read_http_request_with_options. pose proof (read_head_quiet (head_fuel r) eof [] r) as Hq.
  destruct (read_head _ _ _ _) as [[[head|]|e| |] r1]; try done. simpl in Hq. etransitivity; [exact Hq|].
  unfold read_after_head. destruct (parse_http_request head) as [[request [n|]]|e| |]; try done. cbv zeta. case_match; [done|].
  case_match; [|done]. pose proof (read_body_quiet (Z.to_nat n) n [] r1) as Hq'. by destruct (read_body _ _ _ _) as [[b|e| |] r2].
Qed.

(** ** What negotiation promises *)
Definition negotiated_protocol (conn : NegotiatedConnection) : TransportProtocol :=
  match conn with
  | NcRawSocket _ => PRawsocket
  | NcMqtt _ => PMqtt
  | NcWebSocket _ => PWebsocket
  | NcHttp _ => PHttp
  | NcHttp2 _ => PHttp2
  end.

(** The handshake [h] was read off the start of [all]; what was read ahead of it
    and what is left in the stream follow. *)
Definition http_octets (h : HttpHandshake) (all : list Z) (st' : IoStream) : Prop :=
  ∃ head len read, head_of all head ∧ parse_http_request head = Ok (hh_request h, len) ∧
    all = head ++ read ++ hh_prefetched h ++ unread st' ∧ (∀ n, len = Some n → n ≤ body_limit endpoint) ∧
    phase_of (hh_body h) read (default 0 len) HTTP1_INLINE_BODY_LIMIT.

(** The status line and fields of a rejection. *)
Definition rejection (version status : Z) : list Z :=
  response_head (status_line version status (http_reason_phrase status))
    [(lit "Connection", lit "close"); (lit "Content-Length", lit "0")].

(** What becomes of the octets [all] of a connection from [st]. *)
Definition negotiated (all : list Z) (st : IoStream) (conn : NegotiatedConnection) (st' : IoStream) : Prop :=
  let prefix := take 4 all in
  match conn with
  | NcHttp2 _ => prefix = lit "PRI " ∧ unread st' = all ∧ quiet st st'
  | NcMqtt version => head all = Some 0x10 ∧ mqtt_prelude all version ∧ unread st' = all ∧ quiet st st'
  | NcHttp h => looks_like_http prefix = true ∧ http_octets h all st' ∧ quiet st st'
  | NcWebSocket w =>
      looks_like_http prefix = true ∧ http_octets (ws_http w) all st' ∧ try_into_websocket (ws_http w) = Some w ∧
      (∃ head, head_of all head ∧ all = head ++ unread (websocket_stream w st')) ∧ quiet st st'
  | NcRawSocket session =>
      head all = Some RAWSOCKET_MAGIC ∧ ∃ st1, unread st1 = all ∧ quiet st st1 ∧
        negotiate (er_max_rawsocket_size_exponent endpoint) st1 = (SOk session, st')
  end.

Lemma parse_http_handshake_spec st : front_ok st →
  match parse_http_handshake endpoint st with
  | (Ok h, st') => front_ok st' ∧ http_octets h (unread st) st' ∧ quiet st st'
  | (Err _, st') => quiet st st'
  | _ => False
  end.
Proof.
  intros Hok. unfold parse_http_handshake. set (r := mkBufReader [] st 1024).
  pose proof (read_request_spec endpoint false HTTP1_INLINE_BODY_LIMIT r ltac:(by split) ltac:(done)) as Hr.
  pose proof (read_request_quiet false HTTP1_INLINE_BODY_LIMIT r) as Hq.
  destruct (read_http_request_with_options _ _ _ _) as [[[[request body]|]|e| |] r']; simpl in Hq; [..|done|done].
  - destruct Hr as ([Hok' _] & head & len & read & Hh & Hp & Hu & Hl & Hph).
    assert (http_octets (mkHttpHandshake request body (br_buffer r')) (unread st) (br_inner r')) as Ho by (by exists head, len, read).
    cbv zeta. by destruct (match body with Buffered _ => _ | _ => _ end).
  - done.
  - done.
Qed.

Lemma websocket_octets h w all st' : front_ok st' → http_octets h all st' → try_into_websocket h = Some w →
  ws_http w = h ∧ ∃ head, head_of all head ∧ all = head ++ unread (websocket_stream w st').
Proof.
  intros Hok (head & len & read & Hh & _ & Hall & _ & Hph). unfold try_into_websocket.
  do 3 (case_match; [done|]). case_match; [|done]. destruct (Z.ltb_spec 0 (body_len h)) as [|Hb]; [done|].
  intros [= <-]. split; [done|]. exists head. split; [done|]. unfold websocket_stream. cbn [ws_http].
  rewrite unread_buffer_front by done. rewrite Hall at 1. f_equal.
  assert (read = []) as ->; [|done]. unfold body_len in Hb. destruct (hh_body h) as [bytes|prefix n|]; simpl in Hph; [| |done].
  - destruct Hph as [-> _]. apply zlen_0_nil. pose proof (zlen_nonneg read). lia.
  - destruct Hph as (-> & _ & ? & _). pose proof (zlen_nonneg read). lia.
Qed.

(** *** How a negotiation fails *)

(** Without a word. *)
Definition silent (err : NegotiationError) (st st' : IoStream) (e : neg_stop) : Prop :=
  quiet st st' ∧ e = NegFail err.

(** With one answer, and the connection shut down behind it; or the write of the
    answer fails, or stalls, which nothing ends. *)
Definition answered (answer : list Z) (detail : str) (st st' : IoStream) (e : neg_stop) : Prop :=
  match writes st with
  | WErr io :: _ => e = NegFail (NIo io) ∧ written st' = written st ∧ is_shutdown st' = is_shutdown st
  | WStall :: _ => e = NegPending ∧ written st' = written st ∧ is_shutdown st' = is_shutdown st
  | _ => e = NegFail (NProtocol detail) ∧ written st' = written st ++ answer ∧ is_shutdown st' = true
  end.

(** An HTTP error that has a status is answered with it. *)
Definition http_reported (err : NegotiationError) (st st' : IoStream) (e : neg_stop) : Prop :=
  match err with
  | NProtocol detail =>
      match classify_http_error_status detail with
      | Some status => answered (rejection 1 status) detail st st' e
      | None => silent err st st' e
      end
  | _ => silent err st st' e
  end.

(** Reading the request, from the connection's first octet, gives the error; or
    the endpoint does not serve what was read. *)
Definition http_refused (st st' : IoStream) (e : neg_stop) : Prop :=
  ∃ st1, quiet st st1 ∧ unread st1 = unread st ∧
    match (read_http_request_with_options endpoint false HTTP1_INLINE_BODY_LIMIT (mkBufReader [] st1 1024)).1 with
    | Ok (Some (request, body)) =>
        supports_protocol endpoint PHttp = false ∧
        silent (protocol_error (if supports_protocol endpoint PWebsocket then "websocket handshake rejected and HTTP disabled"
                                else "HTTP protocol disabled for listener")) st st' e
    | Err err => http_reported err st st' e
    | _ => False
    end.

(** The code with which a RawSocket header is refused, and the reason. *)
Definition rawsocket_refusal (limit b1 b2 b3 : Z) : option (Z * string) :=
  if negb (b2 =? 0) || negb (b3 =? 0) then Some (ERROR_RESERVED_BITS, "reserved bits must be zero"%string)
  else if bool_decide (serializer_from_wire_id (b1 mod 16) = None)
  then Some (ERROR_SERIALIZER_UNSUPPORTED, "unsupported serializer"%string)
  else if limit <? 9 then Some (ERROR_MESSAGE_LENGTH_EXCEEDED, "negotiated exponent below minimum"%string)
  else None.

(** The answer to a header that is not refused: the serializer asked for, and the
    smaller of the two exponents. *)
Definition rawsocket_answer (limit b1 : Z) : list Z :=
  [RAWSOCKET_MAGIC; 16 * (Z.min (b1 / 16 + 9) (Z.min limit 24) - 9) + b1 mod 16; 0; 0].

Definition io_failed (e : neg_stop) : Prop := ∃ io, e = NegFail (NIo io).

(** Behind the answer only i/o fails: reading an upgrade request, answering it (to
    the smaller exponent), duplicating the socket. *)
Definition rawsocket_broken (limit b1 : Z) (all : list Z) (st st' : IoStream) (e : neg_stop) : Prop :=
  let sent := written st ++ rawsocket_answer limit b1 in
  is_shutdown st' = is_shutdown st ∧
  (written st' = sent ∧ io_failed e ∨
   24 < limit ∧ b1 / 16 = 15 ∧ ∃ c, take 6 all = take 4 all ++ [RAWSOCKET_UPGRADE_MAGIC; c] ∧
     (written st' = sent ++ [RAWSOCKET_UPGRADE_MAGIC; Z.min (Z.min limit 30 - 25) (c mod 16)] ∧ io_failed e ∨
      written st' = sent ∧ e = NegPending ∧ ∃ w ws, writes st = w :: WStall :: ws)).

Definition rawsocket_refused (all : list Z) (b1 b2 b3 : Z) (st st' : IoStream) (e : neg_stop) : Prop :=
  let limit := er_max_rawsocket_size_exponent endpoint in
  match rawsocket_refusal limit b1 b2 b3 with
  | Some (code, reason) => answered [RAWSOCKET_MAGIC; 16 * code; 0; 0] (lit reason) st st' e
  | None =>
      match writes st with
      | WErr io :: _ => e = NegFail (NIo io) ∧ written st' = written st ∧ is_shutdown st' = is_shutdown st
      | WStall :: _ => e = NegPending ∧ written st' = written st ∧ is_shutdown st' = is_shutdown st
      | _ => rawsocket_broken limit b1 all st st' e
      end
  end.

(** What a connection that is not negotiated has been sent, and why. *)
Definition refused (all : list Z) (st st' : IoStream) (e : neg_stop) : Prop :=
  match timed_read_exact peek_error 4 st with
  | (Err stop, _) => quiet st st' ∧ e = stop
  | _ =>
      let prefix := take 4 all in
      if looks_like_http prefix then
        if bool_decide (prefix = lit "PRI ") then
          supports_protocol endpoint PHttp2 = false ∧ silent (protocol_error "http2 protocol disabled for listener") st st' e
        else if supports_protocol endpoint PHttp || supports_protocol endpoint PWebsocket then http_refused st st' e
        else silent (protocol_error "http/websocket protocols disabled for listener") st st' e
      else
        if bool_decide (head all = Some 0x10) then
          if supports_protocol endpoint PMqtt then ∃ err, silent err st st' e
          else silent (protocol_error "mqtt protocol disabled for listener") st st' e
        else if bool_decide (head all = Some RAWSOCKET_MAGIC) then
          if supports_protocol endpoint PRawsocket then
            ∃ b1 b2 b3, prefix = [RAWSOCKET_MAGIC; b1; b2; b3] ∧ rawsocket_refused all b1 b2 b3 st st' e
          else silent (protocol_error "rawsocket protocol disabled for listener") st st' e
        else silent (protocol_error "unsupported listener handshake preamble") st st' e
  end.

(** All that is said of [st] holds of a state that has sent no more. *)
Lemma answered_quiet answer detail st0 st st' e : quiet st0 st → answered answer detail st st' e → answered answer detail st0 st' e.
Proof. intros (Hw & Hws & Hsd). unfold answered. by rewrite Hw, Hws, Hsd. Qed.

Lemma silent_quiet err st0 st st' e : quiet st0 st → silent err st st' e → silent err st0 st' e.
Proof. intros Hq [Hq' ->]. split; [by etransitivity|done]. Qed.

Lemma http_reported_quiet err st0 st st' e : quiet st0 st → http_reported err st st' e → http_reported err st0 st' e.
Proof.
  intros Hq. unfold http_reported. repeat case_match; eauto using answered_quiet, silent_quiet.
Qed.

Lemma http_refused_quiet st0 st st' e : quiet st0 st → unread st = unread st0 → http_refused st st' e → http_refused st0 st' e.
Proof.
  intros Hq Hu (st1 & Hq1 & Hu1 & H). exists st1. split; [by etransitivity|]. split; [congruence|].
  destruct (read_http_request_with_options _ _ _ _).1 as [[[request body]|]|err| |]; try done.
  - destruct H as [? ?]. split; [done|]. by eapply silent_quiet.
  - by eapply http_reported_quiet.
Qed.

Lemma rawsocket_refused_quiet all b1 b2 b3 st0 st st' e : quiet st0 st →
  rawsocket_refused all b1 b2 b3 st st' e → rawsocket_refused all b1 b2 b3 st0 st' e.
Proof. intros (Hw & Hws & Hsd). unfold rawsocket_refused, rawsocket_broken, answered. by rewrite Hw, Hws, Hsd. Qed.

(** *** Refusing a request *)
Lemma parse_http_handshake_failed st e st' : front_ok st → 0 ≤ body_limit endpoint → parse_http_handshake endpoint st = (Err e, st') →
  quiet st st' ∧ ∃ err, e = classify_http_handshake_error None err ∧
    (read_http_request_with_options endpoint false HTTP1_INLINE_BODY_LIMIT (mkBufReader [] st 1024)).1 = Err err.
Proof.
  intros Hok Hlim. unfold parse_http_handshake. set (r := mkBufReader [] st 1024).
  pose proof (read_request_spec endpoint false HTTP1_INLINE_BODY_LIMIT r ltac:(by split) ltac:(done)) as Hr.
  pose proof (read_request_quiet false HTTP1_INLINE_BODY_LIMIT r) as Hq.
  destruct (read_http_request_with_options _ _ _ _) as [[[[request body]|]|err| |] r']; simpl in Hq; [..|done|done].
  - destruct Hr as (_ & head & len & read & _ & _ & _ & Hl & Hph). cbv zeta. case_match eqn:Em; [|done]. exfalso.
    destruct body as [bytes| |]; try done. destruct Hph as [-> Hz]. destruct (Z.ltb_spec (body_limit endpoint) (zlen read)); [|done].
    destruct len as [n|]; simpl in Hz; [specialize (Hl n eq_refl); lia|]. lia.
  - by destruct Hr.
  - intros [= <- <-]. split; [done|]. by exists err.
Qed.

Lemma send_status_answered detail status st e st' :
  (_ ← send_http_status_only_response 1 status; stateful_fail (A := NegotiatedConnection) (NegFail (NProtocol detail))) st = (Err e, st') →
  answered (rejection 1 status) detail st st' e.
Proof.
  unfold send_http_status_only_response, mbind, stateful_bind, answered, write_all.
  destruct (writes st) as [|[|io|] ws]; intros [= <- <-]; done.
Qed.

Lemma negotiate_http_refused st e st' : front_ok st → 0 ≤ body_limit endpoint →
  negotiate_http endpoint st = (Err e, st') → http_refused st st' e.
Proof.
  intros Hok Hlim H. exists st. split; [done|]. split; [done|]. unfold negotiate_http in H.
  destruct (parse_http_handshake endpoint st) as [[h|err| |] st1] eqn:Eh; try done.
  - assert (quiet st st1 ∧ ∃ request body,
      (read_http_request_with_options endpoint false HTTP1_INLINE_BODY_LIMIT (mkBufReader [] st 1024)).1 = Ok (Some (request, body)))
      as (Hq & request & body & ->).
    { split; [by pose proof (parse_http_handshake_spec st Hok) as Hp; rewrite Eh in Hp; apply Hp|]. unfold parse_http_handshake in Eh.
      destruct (read_http_request_with_options _ _ _ _) as [[[[request body]|]|? | |] r]; try done. by exists request, body. }
    destruct (supports_protocol endpoint PWebsocket); [destruct (try_into_websocket h); [done|]|];
      (destruct (supports_protocol endpoint PHttp); [done|by injection H as <- <-]).
  - apply parse_http_handshake_failed in Eh as (Hq & cause & -> & ->); [|done..]. unfold http_reported.
    destruct cause as [io|detail|]; [by injection H as <- <-| |by injection H as <- <-].
    simpl in H. destruct (classify_http_error_status detail); [|by injection H as <- <-].
    by eapply answered_quiet, send_status_answered.
Qed.

Lemma negotiate_http_spec all st : front_ok st → 0 ≤ body_limit endpoint → unread st = all → looks_like_http (take 4 all) = true →
  match negotiate_http endpoint st with
  | (Ok conn, st') => supports_protocol endpoint (negotiated_protocol conn) = true ∧ negotiated all st conn st' ∧ front_ok st'
  | (Err e, st') => http_refused st st' e
  | _ => False
  end.
Proof.
  intros Hok Hlim <- Hl. destruct (negotiate_http endpoint st) as [[conn|e| |] st'] eqn:En; [|by apply negotiate_http_refused|..];
    pose proof (parse_http_handshake_spec st Hok) as Hp; unfold negotiate_http in En;
    destruct (parse_http_handshake endpoint st) as [[h|[e|version status detail]| |] st1]; try done.
  - destruct Hp as (Hok1 & Ho & Hq).
    assert (supports_protocol endpoint PHttp = true → conn = NcHttp h → st' = st1 →
      supports_protocol endpoint (negotiated_protocol conn) = true ∧ negotiated (unread st) st conn st' ∧ front_ok st') as Hplain
      by (intros Hs -> ->; by split_and!).
    destruct (supports_protocol endpoint PWebsocket) eqn:Ew; [destruct (try_into_websocket h) as [w|] eqn:Et|].
    + injection En as <- <-. destruct (websocket_octets h w _ _ Hok1 Ho Et) as [Hw Hhead]. split; [done|]. split; [|done].
      simpl. rewrite Hw. by split_and!.
    + destruct (supports_protocol endpoint PHttp); [|done]. injection En as <- <-. by apply Hplain.
    + destruct (supports_protocol endpoint PHttp); [|done]. injection En as <- <-. by apply Hplain.
  - exfalso. revert En. unfold send_http_status_only_response, mbind, stateful_bind. by repeat case_match.
  - destruct (supports_protocol endpoint PWebsocket); [destruct (try_into_websocket h); [done|]|];
      by destruct (supports_protocol endpoint PHttp).
  - exfalso. revert En. unfold send_http_status_only_response, mbind, stateful_bind. by repeat case_match.
  - destruct (supports_protocol endpoint PWebsocket); [destruct (try_into_websocket h); [done|]|];
      by destruct (supports_protocol endpoint PHttp).
  - exfalso. revert En. unfold send_http_status_only_response, mbind, stateful_bind. by repeat case_match.
Qed.

(** *** Refusing a RawSocket handshake *)
Lemma fronted_flows st bytes : front_ok st → stream_flows (buffer_front st bytes) (zlen bytes).
Proof.
  intros Hok. pose proof (buffer_front_ok st bytes Hok) as Hok'. split; [done|].
  assert (zlen bytes ≤ zlen (unread_front (buffer_front st bytes))) as Hz; [|destruct (reads _); simpl; left; lia].
  unfold buffer_front, unread_front. destruct bytes as [|b bs]; [apply zlen_nonneg|].
  case_match; cbn [buffered buffered_offset set_front]; rewrite sub_bytes_full; [rewrite zlen_app; zlia|done].
Qed.

Lemma read_with_timeout_prefix st bs : stream_flows st (zlen bs) → bs `prefix_of` unread st →
  ∃ st', read_with_timeout (zlen bs) st = (SOk bs, st') ∧ quiet st st' ∧ front_ok st' ∧ unread st = bs ++ unread st'.
Proof.
  intros Hs [rest Hu]. destruct (op_read_exact_prefix Io st bs rest (zlen bs) Hs ltac:(done) Hu) as (st' & H & Hu' & [Hok' _]).
  exists st'. unfold op_read_exact, read_exact in H. unfold read_with_timeout, read_exact.
  pose proof (fill_loop_quiet (Z.to_nat (zlen bs)) st (zlen bs) []) as Hq.
  destruct (fill_loop _ _ _ _) as [[[u|e|] buf] st1]; inversion H; subst. by split_and!.
Qed.

(** How [negotiate_rawsocket] hands on what stops [negotiate]. *)
Definition stop_of {A} (r : sres HandshakeError A) : option neg_stop :=
  match r with
  | SOk _ => None
  | SErr (Protocol msg) => Some (NegFail (protocol_error msg))
  | SErr (Io e) => Some (NegFail (NIo e))
  | SPending => Some NegPending
  end.

Lemma rawsocket_stop st e st' : negotiate_rawsocket endpoint st = (Err e, st') →
  ∃ r, negotiate (er_max_rawsocket_size_exponent endpoint) st = (r, st') ∧ stop_of r = Some e.
Proof.
  unfold negotiate_rawsocket. destruct (negotiate _ st) as [[session|[msg|io]|] st1]; intros [= <- <-]; eexists; done.
Qed.

Lemma send_error_answered {A} code reason st (r : sres HandshakeError A) st' e : 0 ≤ code →
  (_ ← send_error code; hs_fail (Protocol reason)) st = (r, st') → stop_of r = Some e →
  answered [RAWSOCKET_MAGIC; 16 * code; 0; 0] (lit reason) st st' e.
Proof.
  intros Hc. unfold send_error, hs_write, hs_shutdown, mbind, stream_op_bind, answered, write_all.
  rewrite Z.shiftl_mul_pow2, Z.mul_comm by lia.
  destruct (writes st) as [|[|io|] ws]; intros [= <- <-] [= <-]; done.
Qed.

Lemma make_session_broken s exponent up st r st' e : make_session s exponent up st = (r, st') → stop_of r = Some e →
  st' = st ∧ io_failed e.
Proof.
  unfold make_session, file_sender_from_stream, mbind, stream_op_bind.
  destruct s; try (intros [= <- <-]; done); destruct (plain_fd st); intros [= <- <-] [= <-]; (split; [done|by eexists]).
Qed.

(** The octets of the answers. *)
Lemma header_nibbles b : u8_ok b → Z.shiftr (Z.land b 0xF0) 4 = b / 16 ∧ Z.land b 0x0F = b mod 16 ∧ 0 ≤ b / 16 ≤ 15.
Proof.
  intros Hb. assert (bool_decide (Z.shiftr (Z.land b 0xF0) 4 = b / 16) && bool_decide (Z.land b 0x0F = b mod 16) = true)
    as [H1%bool_decide_eq_true H2%bool_decide_eq_true]%andb_true_iff by u8_decide Hb.
  unfold u8_ok in Hb. split_and!; [done|done|dmlia..].
Qed.

Lemma response_octet exponent id : 9 ≤ exponent ≤ 24 → 0 ≤ id < 16 →
  Z.lor (Z.shiftl (Z.min (exponent - 9) 15) 4) id = 16 * (exponent - 9) + id.
Proof. intros. rewrite Z.lor_comm, lor_shiftl, Z.min_l by lia. change (2 ^ 4) with 16. lia. Qed.

Lemma upgrade_octet limit c : 24 < limit → u8_ok c →
  let negotiated := Z.min (Z.min (Z.min limit 30) (Z.land c 0x0F + 25)) 30 in
  24 < negotiated ∧ Z.land (Z.min (negotiated - 25) 15) 0x0F = Z.min (Z.min limit 30 - 25) (c mod 16).
Proof.
  intros Hl Hc. destruct (header_nibbles c Hc) as (_ & -> & _). cbv zeta. pose proof (Z.mod_pos_bound c 16 ltac:(lia)). split; [lia|].
  change 0x0F with (Z.ones 4). rewrite Z.land_ones by lia. change (2 ^ 4) with 16. set (n := c mod 16) in *. change (Z.ones 4) with 15. rewrite Z.mod_small; lia.
Qed.

(** What can still fail behind the answer. *)
Lemma upgrade_broken limit b1 s all st r st' e : front_ok st → bytes_ok (unread st) → 24 < limit →
  drop 4 all = unread st →
  ('(final_exponent, up) ← negotiate_upgrade (Z.min limit 30) b1; make_session s final_exponent up) st = (r, st') →
  stop_of r = Some e →
  is_shutdown st' = is_shutdown st ∧
  (written st' = written st ∧ io_failed e ∨
   ∃ c, take 6 all = take 4 all ++ [RAWSOCKET_UPGRADE_MAGIC; c] ∧
     (written st' = written st ++ [RAWSOCKET_UPGRADE_MAGIC; Z.min (Z.min limit 30 - 25) (c mod 16)] ∧ io_failed e ∨
      written st' = written st ∧ e = NegPending ∧ ∃ ws, writes st = WStall :: ws)).
Proof.
  intros Hok Hb Hl Hall. unfold negotiate_upgrade. pose proof (fill_loop_quiet 2 st 2 []) as (Hqw & Hqs & Hqd).
  pose proof (fill_loop_spec 2 st 2 [] Hok ltac:(zlia)) as Hf. unfold mbind at 1, stream_op_bind at 1.
  destruct (fill_loop 2 st 2 []) as [[result buf] st1]. cbn [snd] in *.
  destruct Hf as ((bs & -> & Hu) & _ & Hz & _). cbn [app] in *.
  assert (∀ x, make_session s x false (buffer_front st1 bs) = (r, st') → stop_of r = Some e →
    is_shutdown st' = is_shutdown st ∧ written st' = written st ∧ io_failed e) as Hback.
  { intros x Hm Hs. destruct (make_session_broken _ _ _ _ _ _ _ Hm Hs) as [-> ?].
    pose proof (buffer_front_quiet st1 bs) as (? & ? & ?). split_and!; congruence. }
  destruct result as [[]|io|].
  2: { intros [= <- <-] [= <-]. split; [done|]. left. split; [done|by eexists]. }
  2: { intros Hm Hs. destruct (Hback _ Hm Hs) as (? & ? & ?). split; [done|]. by left. }
  specialize (Hz eq_refl). destruct bs as [|b0 [|c [|? ?]]]; [by zlia|by zlia| |by zlia].
  change (octet [b0; c] 0) with b0. change (octet [b0; c] 1) with c.
  destruct (Z.eqb_spec b0 RAWSOCKET_UPGRADE_MAGIC) as [->|];
    [|intros Hm Hs; destruct (Hback _ Hm Hs) as (? & ? & ?); split; [done|]; by left].
  assert (u8_ok c) as Hc by (rewrite Hu in Hb; by apply Forall_cons in Hb as [_ [? _]%Forall_cons]).
  destruct (upgrade_octet limit c Hl Hc) as [Hgt Hoct]. change CONNECTANUM_MAX_RAWSOCKET_SIZE_EXPONENT with 30.
  rewrite (proj2 (Z.leb_gt _ _)) by done. rewrite Hoct. clear Hoct Hgt.
  assert (take 6 all = take 4 all ++ [RAWSOCKET_UPGRADE_MAGIC; c]) as Htake.
  { change 6%nat with (4 + 2)%nat. by rewrite <-take_take_drop, Hall, Hu. }
  unfold hs_write, write_all, mbind, stream_op_bind. rewrite Hqs.
  destruct (writes st) as [|[|io|] ws] eqn:Ew; cbn [tail].
  1, 2: intros Hm Hs; destruct (make_session_broken _ _ _ _ _ _ _ Hm Hs) as [-> ?]; cbn [set_writes written is_shutdown];
    (split; [done|]); right; exists c; (split; [done|]); left; by rewrite Hqw.
  - intros [= <- <-] [= <-]. split; [done|]. left. split; [done|by eexists].
  - intros [= <- <-] [= <-]. split; [done|]. right. exists c. split; [done|]. right. split_and!; [done|done|by eexists].
Qed.

Lemma rawsocket_refusal_spec st b1 b2 b3 e st' : front_ok st → bytes_ok (unread st) → stream_flows st 4 →
  take 4 (unread st) = [RAWSOCKET_MAGIC; b1; b2; b3] → negotiate_rawsocket endpoint st = (Err e, st') →
  rawsocket_refused (unread st) b1 b2 b3 st st' e.
Proof.
  intros Hok Hb Hs Htake (r & H & Hr)%rawsocket_stop. set (limit := er_max_rawsocket_size_exponent endpoint) in *.
  destruct (read_with_timeout_prefix st [RAWSOCKET_MAGIC; b1; b2; b3] Hs) as (st1 & Hrd & Hq & Hok1 & Hu);
    [exists (drop 4 (unread st)); by rewrite <-Htake, take_drop|].
  change (zlen [RAWSOCKET_MAGIC; b1; b2; b3]) with 4 in Hrd.
  assert (u8_ok b1 ∧ bytes_ok (unread st1)) as [Hb1 Hbs] by (rewrite Hu in Hb; by repeat apply Forall_cons in Hb as [? Hb]).
  destruct (header_nibbles b1 Hb1) as (Hhigh & Hlow & Hn). pose proof (Z.mod_pos_bound b1 16 ltac:(lia)) as Hm.
  unfold negotiate in H. rewrite (op_bind_run _ _ _ _ _ Hrd) in H. unfold octet in H. cbn [nth] in H.
  rewrite Z.eqb_refl in H. cbn [negb] in H. rewrite Hlow, Hhigh in H. cbv zeta in H.
  unfold rawsocket_refused, rawsocket_refusal. fold limit.
  destruct (negb (b2 =? 0) || negb (b3 =? 0)); [by eapply answered_quiet, send_error_answered|].
  destruct (serializer_from_wire_id (b1 mod 16)) as [s|] eqn:Es; [|by eapply answered_quiet, send_error_answered].
  rewrite bool_decide_eq_false_2 by done.
  replace (Z.min (b1 / 16 + 9) (Z.min (Z.min limit CONNECTANUM_MAX_RAWSOCKET_SIZE_EXPONENT) 24))
    with (Z.min (b1 / 16 + 9) (Z.min limit 24)) in H by (unfold CONNECTANUM_MAX_RAWSOCKET_SIZE_EXPONENT; lia).
  destruct (Z.ltb_spec limit 9) as [Hlt|Hge].
  { rewrite (proj2 (Z.ltb_lt _ _)) in H by lia. by eapply answered_quiet, send_error_answered. }
  rewrite (proj2 (Z.ltb_ge _ _)) in H by lia. rewrite response_octet in H by lia. fold (rawsocket_answer limit b1) in H.
  destruct Hq as (Hqw & Hqs & Hqd). unfold hs_write, write_all in H. unfold mbind at 1, stream_op_bind at 1 in H. rewrite Hqs in H.
  set (cond := _ && _) in H. assert (cond = true → 24 < limit ∧ b1 / 16 = 15) as Hcond.
  { unfold cond, CONNECTANUM_MAX_RAWSOCKET_SIZE_EXPONENT. lia. }
  assert (∀ ws, let st2 := set_writes st1 ws (written st1 ++ rawsocket_answer limit b1) in
    (writes st = [] ∧ ws = [] ∨ ∃ w, writes st = w :: ws) →
    ('(final_exponent, up) ← if cond then negotiate_upgrade (Z.min limit 30) (Z.min (b1 / 16 + 9) (Z.min limit 24))
                             else mret (Z.min (b1 / 16 + 9) (Z.min limit 24), false);
     make_session s final_exponent up) st2 = (r, st') → rawsocket_broken limit b1 (unread st) st st' e) as Hrest.
  { intros ws st2 Hws H2. unfold rawsocket_broken. rewrite <-Hqd, <-Hqw. destruct cond.
    - destruct Hcond as [Hl Hc]; [done|].
      destruct (upgrade_broken limit _ s (unread st) st2 r st' e ltac:(done) ltac:(done) Hl ltac:(by rewrite Hu) H2 Hr)
        as (? & [[? ?]|(c & ? & [[? ?]|(? & ? & ws' & ?)])]); (split; [done|]); [by left|right..]; (split_and!; [done..|]);
        exists c; (split; [done|]); [by left|right]. split_and!; [done..|].
      destruct Hws as [[_ ->]|[w Hw]]; [done|]. exists w, ws'. simpl in *. congruence.
    - apply make_session_broken with (e := e) in H2 as [-> ?]; [|done]. split; [done|]. by left. }
  destruct (writes st) as [|[|io|] ws]; cbn [tail] in H.
  - by apply (Hrest []); [left|].
  - by apply (Hrest ws); [right; eexists|].
  - injection H as <- <-. injection Hr as <-. cbn [set_writes written is_shutdown]. by rewrite Hqw, Hqd.
  - injection H as <- <-. injection Hr as <-. cbn [set_writes written is_shutdown]. by rewrite Hqw, Hqd.
Qed.

Lemma mqtt_refused st : ∀ e st', negotiate_mqtt_connect st = (Err e, st') → quiet st st' ∧ ∃ err, e = NegFail err.
Proof.
  intros e st' Em. pose proof (mqtt_connect_settles st) as Hs. pose proof (mqtt_connect_quiet st) as Hq. rewrite Em in *.
  split; [done|]. destruct e; [by eexists|done].
Qed.

(** The peek: the first four octets, which stay in front. *)
Lemma peek_spec st : front_ok st →
  match timed_read_exact peek_error 4 st with
  | (Ok prefix, _) =>
      ∃ st2, peek_handshake st = (Ok prefix, st2) ∧ quiet st st2 ∧ front_ok st2 ∧ unread st2 = unread st ∧
        stream_flows st2 4 ∧ take 4 (unread st) = prefix ∧ head (unread st) = Some (octet prefix 0) ∧
        ∃ b0 b1 b2 b3, prefix = [b0; b1; b2; b3]
  | (Err e, st1) => peek_handshake st = (Err e, st1) ∧ quiet st st1
  | _ => False
  end.
Proof.
  intros Hok. pose proof (timed_read_settles peek_error 4 st) as Hret. pose proof (timed_read_quiet peek_error 4 st) as Hq.
  unfold peek_handshake, mbind, stateful_bind. destruct (timed_read_exact peek_error 4 st) as [[prefix|e| |] st1] eqn:Er; try done.
  pose proof (timed_read_ok peek_error 4 _ _ _ Hok ltac:(lia) Er) as (Hz & Hok1 & Hu).
  destruct prefix as [|b0 [|b1 [|b2 [|b3 [|? ?]]]]]; try by zlia.
  exists (buffer_front st1 [b0; b1; b2; b3]). rewrite unread_buffer_front by done. rewrite Hu. split_and!; try done.
  - etransitivity; [exact Hq|apply buffer_front_quiet].
  - by apply buffer_front_ok.
  - rewrite <-Hz. by apply fronted_flows.
  - by exists b0, b1, b2, b3.
Qed.

Lemma negotiated_quiet st st2 conn st' : quiet st st2 → negotiated (unread st) st2 conn st' → negotiated (unread st) st conn st'.
Proof.
  intros Hq. destruct conn; simpl.
  - intros (? & sx & ? & ? & ?). split; [done|]. exists sx. split_and!; [done|by etransitivity|done].
  - intros (? & ? & ? & ?). split_and!; try done. by etransitivity.
  - intros (? & ? & ? & ? & ?). split_and!; try done. by etransitivity.
  - intros (? & ? & ?). split_and!; try done. by etransitivity.
  - intros (? & ? & ?). split_and!; try done. by etransitivity.
Qed.

End sound.

(** ** Examples *)

(** CONNECT of MQTT 3.1.1 with a remaining length of 12, in two pieces. *)
Definition demo_connect : list Z := [0x10; 0x0C] ++ MQTT_NAME ++ [4; 2; 0; 60; 0; 0].
Definition demo_mqtt_stream : IoStream := IoStream_plain [RBytes (take 5 demo_connect); RBytes (drop 5 demo_connect)] [] (inr true).

Lemma mqtt_connect_exact_witness :
  ∃ st', negotiate_mqtt_connect demo_mqtt_stream = (Ok 4, st') ∧ unread st' = demo_connect.
Proof.
  destruct (mqtt_connect_exact demo_mqtt_stream ltac:(by vm_compute)
    ltac:(by apply (bool_decide_unpack (bytes_ok _)))) as (_ & _ & H). apply H.
  - exists 0x10, 12, [2; 0; 60], [0; 0]. split; [reflexivity|]. split; [reflexivity|]. split; [lia|]. left. lia.
  - split; [by vm_compute|]. vm_compute. by repeat (right; split; [done|]); left.
Defined.

Definition demo_listener : EndpointRuntimeConfig unit := {|
  er_host := lit "localhost"; er_port := 8080; er_tls_mode := TlsDisabled; er_client_auth := None;
  er_protocols := [PWebsocket; PHttp; PMqtt]; er_idle_timeout := None; er_heartbeat_interval := None;
  er_heartbeat_timeout := None; er_handshake_timeout := 5000; er_max_http_content_length := None;
  er_max_rawsocket_size_exponent := 16; er_max_rawsocket_size := 65536; er_max_upgrade_exponent := None;
  er_outbound_send_queue_capacity := 1024; er_websocket_path := None; er_sni_certificates := [];
  er_http_routes := []; er_http := None;
|}.

(** A parser that knows one upgrade request. *)
Definition demo_upgrade_parser : HttpParseLib := {|
  http_parse _ := HttpComplete (Some (lit "GET")) (Some (lit "/")) (Some 1)
    [(lit "Upgrade", lit "WebSocket"); (lit "Connection", lit "keep-alive, Upgrade"); (lit "Sec-WebSocket-Key", lit "abc")];
|}.

(** The request and the first octets of a frame, in one piece. *)
Definition demo_upgrade_stream : IoStream :=
  IoStream_plain [RBytes (lit "GET / HTTP/1.1" ++ CRLF2 ++ [0x81; 0x00])] [] (inr true).

