(* ===== verification/HttpConnection.v ===== *)
(** * A connection's HTTP/1 requests

    [serve_http_connection] of [ct_core/src/lib.rs]: reads one request after the
    other off a connection, routes it, hands it to the application or refuses it,
    and sends the response.  Reading and sending use separate halves of the
    socket; a long body is read by its own task ([HttpBody]), which the loop waits
    for before it reads on. *)
From stdpp Require Import relations.
From S2P Require Import Prelude Bytes Text TextOps IoStream Handshake WireWriter RouterConfig HttpRoutes HttpAuth HttpFraming HttpReader HttpBody HttpHead HttpResponse Negotiation.

(** [HttpRequestSummary], over what stands for a body. *)
Record HttpRequestSummary (B : Type) : Type := mkSummary {
  sum_method : list Z;
  sum_target : list Z;
  sum_path : list Z;
  sum_query : option (list Z);
  sum_protocol : list Z;
  sum_version : Z;
  sum_headers : list (list Z * list Z);
  sum_body : B;
  sum_realm : option (list Z);
  sum_procedure : option (list Z);
  sum_route : option HttpRouteResolution;
}.
Arguments mkSummary {B}.
Arguments sum_method {B}.
Arguments sum_target {B}.
Arguments sum_path {B}.
Arguments sum_query {B}.
Arguments sum_protocol {B}.
Arguments sum_version {B}.
Arguments sum_headers {B}.
Arguments sum_body {B}.
Arguments sum_realm {B}.
Arguments sum_procedure {B}.
Arguments sum_route {B}.

(** The body of a request: its octets, or the body task started with a prefix, a
    number of octets to come, and the stream they come from. *)
Inductive request_body : Type :=
  | BodyInline (bytes : list Z)
  | BodyStreamed (prefix : list Z) (remaining : Z) (reader : IoStream).

(** What becomes of a request that is handed over: the queue refuses it, the
    handle of its response is dropped, or it is answered, with what the stream of
    a streamed answer will give. *)
Inductive app_answer : Type :=
  | AppQueueFails
  | AppDrops
  | AppAnswers (dispatch : HttpResponseDispatch) (events : list stream_event).

Record HttpConnection : Type := mkHttpConnection {
  hc_reader : option BufReader;
  hc_reclaim : option (Z * IoStream);
  hc_writer : HttpWriter;
  hc_shutdown : bool;
  hc_answers : list app_answer;
  hc_queue : list (HttpRequestSummary request_body);
}.

(** The loop ends, or waits for what does not come. *)
Inductive conn_stop : Type := ConnClosed | ConnPending.

Notation hcm := (stateful HttpConnection conn_stop).

Definition hc_set_reader (r : option BufReader) (c : HttpConnection) : HttpConnection :=
  mkHttpConnection r (hc_reclaim c) (hc_writer c) (hc_shutdown c) (hc_answers c) (hc_queue c).
Definition hc_set_reclaim (r : option (Z * IoStream)) (c : HttpConnection) : HttpConnection :=
  mkHttpConnection (hc_reader c) r (hc_writer c) (hc_shutdown c) (hc_answers c) (hc_queue c).
Definition hc_set_writer (w : HttpWriter) (c : HttpConnection) : HttpConnection :=
  mkHttpConnection (hc_reader c) (hc_reclaim c) w (hc_shutdown c) (hc_answers c) (hc_queue c).
Definition hc_set_answers (l : list app_answer) (c : HttpConnection) : HttpConnection :=
  mkHttpConnection (hc_reader c) (hc_reclaim c) (hc_writer c) (hc_shutdown c) l (hc_queue c).
Definition hc_enqueue (s : HttpRequestSummary request_body) (c : HttpConnection) : HttpConnection :=
  mkHttpConnection (hc_reader c) (hc_reclaim c) (hc_writer c) (hc_shutdown c) (hc_answers c) (hc_queue c ++ [s]).
Definition hc_shut (c : HttpConnection) : HttpConnection :=
  mkHttpConnection (hc_reader c) (hc_reclaim c) (hc_writer c) true (hc_answers c) (hc_queue c).

(** A break out of the loop. *)
Definition conn_close {A} : hcm A := stateful_fail ConnClosed.

(** [BufReader::new] *)
Definition buf_reader (st : IoStream) : BufReader := mkBufReader [] st (8 * 1024).

(** What [Http1BodyReclaim::wait] gives: the stream, if the body task takes its
    whole body off it.  The task's reads do not depend on what becomes of the
    body. *)
Fixpoint drain_body (fuel : nat) (remaining : Z) (reader : IoStream) : option IoStream :=
  if 0 <? remaining then
    match fuel with
    | O => None
    | S fuel =>
        match poll_read reader (Z.min remaining STREAMING_CHUNK_SIZE) with
        | (IoOk [], _) => None
        | (IoOk bytes, reader) => drain_body fuel (saturating_sub remaining (zlen bytes)) reader
        | (_, _) => None
        end
    end
  else Some reader.
Definition reclaim_wait (remaining : Z) (reader : IoStream) : option IoStream := drain_body (Z.to_nat remaining) remaining reader.

(** [if reader.is_none() { ... reclaim.wait().await ... }] *)
Definition await_reader : hcm unit := λ c,
  match hc_reader c with
  | Some _ => (Ok (), c)
  | None =>
      match hc_reclaim c with
      | Some (remaining, reader) =>
          match reclaim_wait remaining reader with
          | Some st => (Ok (), hc_set_reader (Some (buf_reader st)) (hc_set_reclaim None c))
          | None => (Err ConnClosed, hc_set_reclaim None c)
          end
      | None => (Err ConnClosed, c)
      end
  end.

(** A send whose failure ends the loop. *)
Definition send_or_close (m : hw unit) : hcm unit := λ c,
  match m (hc_writer c) with
  | (Ok _, w) => (Ok (), hc_set_writer w c)
  | (Err (StopErr _), w) => (Err ConnClosed, hc_set_writer w c)
  | (Err StopPending, w) => (Err ConnPending, hc_set_writer w c)
  | (Panic, w) => (Panic, hc_set_writer w c)
  | (NoFuel, w) => (NoFuel, hc_set_writer w c)
  end.

(** A send whose failure is ignored. *)
Definition send_anyway (m : hw unit) : hcm unit := λ c,
  match send_or_close m c with (Err ConnClosed, c) => (Ok (), c) | r => r end.

Definition shutdown_writer : hcm unit := λ c, (Ok (), hc_shut c).

(** The stream of a new response, on the same socket. *)
Definition with_stream (events : list stream_event) : hcm unit := λ c,
  let w := hc_writer c in (Ok (), hc_set_writer (mkHttpWriter (hw_socket w) events false (hw_flushed w) (hw_waits w)) c).

Section connection.
Context `{HL : !HttpParseLib} `{UC : !UnicodeCase} `{SL : !StatusLib} {Json : Type} (endpoint : EndpointRuntimeConfig Json).

(** ** One request *)
Definition request_parts (request : HttpRequest) : str * option str * str * str :=
  let normalized_method := to_uppercase (req_method request) in
  let '(path, query) := split_http_target (req_target request) in
  let normalized_path := if bool_decide (path = []) then lit "/" else path in
  (normalized_path, query, normalized_method, lit "http/1." ++ show_number (req_version request)).

(** A refusal has its status, its text and its fields; those of the transport
    requirements are marked. *)
Inductive routed : Type :=
  | Refuse (status : Z) (text : string) (extra_headers : http_headers) (transport : bool)
  | Forward (resolution : HttpRouteResolution).

Definition route_request (request : HttpRequest) : routed :=
  let '(path, query, method, protocol) := request_parts request in
  match match_http_route endpoint path query method protocol with
  | Resolved resolution =>
      match evaluate_http_transport_auth_string_headers (res_transport_auth resolution) endpoint method (req_headers request) with
      | Some BearerRequired => Refuse 401 "bearer token required" [(lit "WWW-Authenticate", lit "Bearer")] true
      | Some TlsRequired => Refuse 403 "tls required" [] true
      | Some MutualTlsRequired => Refuse 403 "mutual tls required" [] true
      | None => Forward resolution
      end
  | MethodNotAllowed allowed_methods =>
      Refuse 405 "method not allowed" [(lit "Allow", join (lit ", ") allowed_methods)] false
  | ProtocolNotAllowed allowed_protocols =>
      Refuse 426 "protocol not allowed" [(lit "Upgrade", join (lit ", ") allowed_protocols)] false
  | NotFound => Refuse 404 "route not found" [] false
  end.

Definition request_summary {B} (request : HttpRequest) (resolution : HttpRouteResolution) (body : B) : HttpRequestSummary B :=
  let '(path, query, _, protocol) := request_parts request in
  {|
    sum_method := utf8_encode (req_method request);
    sum_target := utf8_encode (req_target request);
    sum_path := utf8_encode path;
    sum_query := utf8_encode <$> query;
    sum_protocol := utf8_encode protocol;
    sum_version := req_version request;
    sum_headers := (λ h, (utf8_encode h.1, utf8_encode h.2)) <$> req_headers request;
    sum_body := body;
    sum_realm := Some (utf8_encode (res_realm resolution));
    sum_procedure := Some (utf8_encode (res_procedure resolution));
    sum_route := Some resolution;
  |}.

(** The body of a request; a long one takes the reader. *)
Definition take_body (phase : HttpBodyPhase) : hcm request_body := λ c,
  match phase with
  | Buffered bytes => (Ok (BodyInline bytes), c)
  | Finished => (Ok (BodyInline []), c)
  | NeedsStreaming prefix remaining =>
      match hc_reader c with
      | Some buf =>
          let reader := br_inner buf in
          (Ok (BodyStreamed prefix remaining reader),
           hc_set_reclaim (Some (remaining, reader)) (hc_set_reader None c))
      | None => (Err ConnClosed, c)
      end
  end.

(** The request on its way to the application, and the response. *)
Definition forward_request (request : HttpRequest) (keep_alive : bool) (resolution : HttpRouteResolution) (body : request_body) :
    hcm unit := λ c,
  match hc_answers c with
  | [] => (Err ConnPending, hc_enqueue (request_summary request resolution body) c)
  | AppQueueFails :: answers => (Err ConnClosed, hc_set_answers answers c)
  | AppDrops :: answers =>
      (_ ← send_anyway (send_http_simple_response (req_version request) 500 keep_alive (lit "http request cancelled") []);
       conn_close) (hc_enqueue (request_summary request resolution body) (hc_set_answers answers c))
  | AppAnswers dispatch events :: answers =>
      (_ ← with_stream events;
       send_or_close (send_http_dispatch (req_version request) keep_alive dispatch))
        (hc_enqueue (request_summary request resolution body) (hc_set_answers answers c))
  end.

(** [continue] skips what follows the match on the route. *)
Definition serve_request (request : HttpRequest) (phase : HttpBodyPhase) : hcm unit :=
  body ← take_body phase;
  let keep_alive := should_keep_alive (req_version request) (req_headers request) in
  let rest_of_round :=
    _ ← await_reader;
    if negb keep_alive then conn_close else mret () in
  match route_request request with
  | Refuse status text extra_headers transport =>
      _ ← send_or_close (send_http_simple_response (req_version request) status keep_alive (lit text) extra_headers);
      if transport then mret () else rest_of_round
  | Forward resolution =>
      _ ← forward_request request keep_alive resolution body;
      rest_of_round
  end.

(** An invalid request is answered, and ends the connection. *)
Definition refuse_invalid (initial_version status : Z) : hcm (HttpRequest * HttpBodyPhase) :=
  _ ← send_anyway (send_http_simple_response initial_version status false (lit "invalid HTTP request") []);
  _ ← shutdown_writer;
  conn_close.

Definition read_next (initial_version : Z) : hcm (HttpRequest * HttpBodyPhase) := λ c,
  match hc_reader c with
  | None => (Panic, c)
  | Some reader =>
      match read_http_request endpoint reader with
      | (Ok (Some value), reader) => (Ok value, hc_set_reader (Some reader) c)
      | (Ok None, reader) => (Err ConnClosed, hc_set_reader (Some reader) c)
      | (Err (NProtocol detail), reader) =>
          match classify_http_error_status detail with
          | Some status => refuse_invalid initial_version status (hc_set_reader (Some reader) c)
          | None => (Err ConnClosed, hc_set_reader (Some reader) c)
          end
      | (Err _, reader) => (Err ConnClosed, hc_set_reader (Some reader) c)
      | (Panic, reader) => (Panic, hc_set_reader (Some reader) c)
      | (NoFuel, reader) => (NoFuel, hc_set_reader (Some reader) c)
      end
  end.

(** The next request off the connection. *)
Definition next_request (initial_version : Z) : hcm (HttpRequest * HttpBodyPhase) :=
  _ ← await_reader;
  read_next initial_version.

Fixpoint serve_loop (fuel : nat) (initial_version : Z) (pending : option (HttpRequest * HttpBodyPhase)) : hcm unit :=
  match fuel with
  | O => λ c, (NoFuel, c)
  | S fuel =>
      value ← match pending with Some value => mret value | None => next_request initial_version end;
      _ ← serve_request value.1 value.2;
      serve_loop fuel initial_version None
  end.

(** Each request takes an octet at least; the first is there already. *)
Definition serve_http_connection (handshake : HttpHandshake) (st : IoStream) (w : HttpWriter) (answers : list app_answer) :
    outcome conn_stop unit * HttpConnection :=
  let request := hh_request handshake in
  let st := if bool_decide (hh_prefetched handshake = []) then st else buffer_front st (hh_prefetched handshake) in
  serve_loop (S (S (length (unread st)))) (req_version request) (Some (request, hh_body handshake))
    (mkHttpConnection (Some (buf_reader st)) None w false answers []).
End connection.

(** ** The body task *)
Lemma drain_body_spec fuel remaining reader : front_ok reader → 0 ≤ remaining ≤ Z.of_nat fuel →
  match drain_body fuel remaining reader with
  | Some st => front_ok st ∧ remaining ≤ zlen (unread reader) ∧ unread st = drop (Z.to_nat remaining) (unread reader)
  | None => True
  end.
Proof.
  revert remaining reader. induction fuel as [|fuel IH]; intros remaining reader Hok Hf; cbn [drain_body];
    destruct (Z.ltb_spec 0 remaining) as [Hpos|]; try lia;
    try (pose proof (zlen_nonneg (unread reader)); replace remaining with 0 by lia; by split_and!).
  pose proof (poll_read_ok reader (Z.min remaining STREAMING_CHUNK_SIZE) Hok ltac:(unfold STREAMING_CHUNK_SIZE; lia)) as Hok'.
  pose proof (poll_read_unread reader (Z.min remaining STREAMING_CHUNK_SIZE) Hok ltac:(unfold STREAMING_CHUNK_SIZE; lia)) as (Hu & _).
  destruct (poll_read reader _) as [[[|b bytes]|e|] reader']; try done. destruct Hu as [Hu Hz]. cbn [snd] in Hok'.
  remember (b :: bytes) as read eqn:Eread. assert (0 < zlen read) by (subst; rewrite zlen_cons; pose proof (zlen_nonneg bytes); lia).
  assert (saturating_sub remaining (zlen read) = remaining - zlen read) as Er by (unfold saturating_sub; lia). rewrite Er in *.
  specialize (IH (remaining - zlen read) reader' Hok' ltac:(lia)).
  destruct (drain_body fuel _ reader') as [st|]; [|done]. destruct IH as (? & ? & Hs). rewrite Hu, zlen_app. split_and!; [done|lia|].
  rewrite Hs, drop_app_ge by (unfold zlen in *; lia). f_equal. unfold zlen in *. lia.
Qed.

(** A body that is not there to its end is not drained. *)
Lemma drain_body_short fuel remaining reader : front_ok reader → 0 ≤ remaining ≤ Z.of_nat fuel →
  zlen (unread reader) < remaining → drain_body fuel remaining reader = None.
Proof.
  intros Hok Hf Hs. pose proof (drain_body_spec fuel remaining reader Hok Hf) as H.
  destruct (drain_body fuel remaining reader); [|done]. destruct H as (_ & ? & _). lia.
Qed.

(** The body task of [HttpBody] gives back what the loop waits for, whatever else
    happens: it reads the same octets in every interleaving. *)
Definition will_reclaim (w : BodyWorld) : option IoStream :=
  match w_producer w with
  | PRun | PPush _ | PNotify => reclaim_wait (w_remaining w) (w_reader w)
  | PFail _ | PFailed => None
  | PFinish => if w_remaining w =? 0 then Some (w_reader w) else None
  | PDone reclaimed => reclaimed
  end.

Lemma drain_body_fuel fuel fuel' remaining reader : front_ok reader → 0 ≤ remaining → (Z.to_nat remaining ≤ fuel)%nat →
  (Z.to_nat remaining ≤ fuel')%nat → drain_body fuel remaining reader = drain_body fuel' remaining reader.
Proof.
  revert fuel' remaining reader. induction fuel as [|fuel IH]; intros fuel' remaining reader Hok Hr Hf Hf'.
  - assert (remaining = 0) as -> by lia. by destruct fuel'.
  - cbn [drain_body]. destruct fuel' as [|fuel']; cbn [drain_body]; destruct (Z.ltb_spec 0 remaining); try lia; try done.
    pose proof (poll_read_ok reader (Z.min remaining STREAMING_CHUNK_SIZE) Hok ltac:(unfold STREAMING_CHUNK_SIZE; lia)) as Hok'.
    destruct (poll_read reader _) as [[[|b bytes]|e|] reader']; try done. cbn [snd] in Hok'.
    pose proof (zlen_nonneg bytes). apply IH; [done|unfold saturating_sub; lia|..]; unfold saturating_sub; rewrite zlen_cons; lia.
Qed.

Lemma will_reclaim_step prefix all length w w' : body_inv prefix all length w → body_step w w' → will_reclaim w' = will_reclaim w.
Proof.
  intros [_ [Hr Hrem] _ Hp _] Hstep. destruct Hstep as [w|w|w len _ _|w|w]; try done;
    destruct w as [st p reader remaining id c got result]; fields; [|by destruct c; unfold consumer_step; fields; repeat case_match].
  unfold producer_step. fields. destruct p as [|bytes| |e| | |reclaimed]; try done.
  - unfold will_reclaim at 2. cbn [w_producer w_remaining w_reader]. unfold reclaim_wait.
    destruct (Z.ltb_spec 0 remaining) as [Hpos|Hz].
    2: { assert (remaining = 0) as -> by lia. done. }
    destruct (Z.to_nat remaining) as [|fuel] eqn:Ef; [lia|]. cbn [drain_body]. rewrite (proj2 (Z.ltb_lt _ _)) by done.
    pose proof (poll_read_ok reader (Z.min remaining STREAMING_CHUNK_SIZE) Hr ltac:(unfold STREAMING_CHUNK_SIZE; lia)) as Hok'.
    destruct (poll_read reader _) as [[[|b bytes]|e|] reader']; try done. cbn [snd] in Hok'. pose proof (zlen_nonneg bytes).
    transitivity (reclaim_wait (saturating_sub remaining (zlen (b :: bytes))) reader').
    + unfold will_reclaim. simpl. by destruct (bs_finish_requested st).
    + apply drain_body_fuel; [done|unfold saturating_sub; lia|lia|]. unfold saturating_sub. rewrite zlen_cons. lia.
  - simpl in Hp. destruct Hp as (_ & _ & Hpos). unfold will_reclaim. simpl. destruct (Z.eqb_spec remaining 0); [lia|done].
Qed.

Lemma body_task_reclaims prefix reader remaining w reclaimed : front_ok reader → 0 ≤ remaining →
  rtc body_step (spawn_http1_streaming_body prefix reader remaining) w → w_producer w = PDone reclaimed →
  reclaimed = reclaim_wait remaining reader.
Proof.
  intros Hok Hrem Hrun Hdone. assert (will_reclaim w = reclaim_wait remaining reader) as H; [|unfold will_reclaim in H; by rewrite Hdone in H].
  clear Hdone. revert w Hrun. apply (rtc_ind_r (λ w, will_reclaim w = reclaim_wait remaining reader)); [done|].
  intros w w' Hrun Hstep IH. rewrite <-IH. eapply will_reclaim_step; [|exact Hstep]. by apply run_inv.
Qed.

(** ** What a connection is, octet by octet *)

(** The octets of a body: those at hand, and those to come. *)
Definition body_octets (b : request_body) : list Z :=
  match b with
  | BodyInline bytes => bytes
  | BodyStreamed prefix remaining reader => prefix ++ take (Z.to_nat remaining) (unread reader)
  end.

Definition over_body {B C} (f : B → C) (s : HttpRequestSummary B) : HttpRequestSummary C :=
  mkSummary (sum_method s) (sum_target s) (sum_path s) (sum_query s) (sum_protocol s) (sum_version s) (sum_headers s)
    (f (sum_body s)) (sum_realm s) (sum_procedure s) (sum_route s).

Lemma over_summary `{UC : !UnicodeCase} {B C} (f : B → C) request resolution body :
  over_body f (request_summary request resolution body) = request_summary request resolution (f body).
Proof. unfold over_body, request_summary. by destruct (request_parts request) as [[[]]]. Qed.

Section responses.
Context `{SL : !StatusLib}.

(** The whole response of a dispatch. *)
Definition whole_response (version : Z) (keep_alive : bool) (d : HttpResponseDispatch) (events : list stream_event) : list Z :=
  response_head (sent_start version d) (sent_headers version keep_alive d) ++
  match rd_body d with
  | BufferedBody body => body
  | StreamingBody => encoding (stream_outcome events).1 (stream_outcome events).2
  end.

(** The stream of a streamed response was finished. *)
Definition given_whole (d : HttpResponseDispatch) (events : list stream_event) : Prop :=
  match rd_body d with BufferedBody _ => True | StreamingBody => (stream_outcome events).2 = EndFinished end.

Lemma dispatch_sends version keep_alive d w : (rd_body d = StreamingBody → chunks_nonempty (hw_stream w)) →
  match send_http_dispatch version keep_alive d w with
  | (Ok _, w') => out w' = out w ++ whole_response version keep_alive d (hw_stream w) ∧ given_whole d (hw_stream w)
  | (Err _, w') => ∃ k, k `prefix_of` whole_response version keep_alive d (hw_stream w) ∧ out w' = out w ++ k
  | _ => False
  end.
Proof.
  intros Hne. unfold whole_response, given_whole. destruct (rd_body d) as [body|] eqn:Eb.
  - unfold send_http_dispatch, sent_start, sent_headers, sent_status, sent_reason. rewrite Eb.
    unfold write_http_response_shared, mbind, stateful_bind, on_socket, on_flush.
    pose proof (write_inner_spec version (rd_status d) (ensure_connection_header (rd_headers d) keep_alive version) body (hw_socket w)) as Hs.
    destruct (write_http_response_inner _ _ _ _ (hw_socket w)) as [[e|u] s1]; [exact Hs|].
    destruct Hs as [[Ho _] _]. simpl. unfold wr_flush, out in *.
    destruct (w_script s1) as [|[n|n e|] script]; simpl; rewrite Ho; first [by split|eexists; by split].
  - pose proof (streaming_sends version keep_alive d w Eb (Hne eq_refl)) as Hs. cbv zeta in Hs. unfold streamed in Hs.
    destruct (send_http_dispatch _ _ _ w) as [[u|e| |] w']; [| |tauto..].
    + by destruct Hs as (_ & He & Ho & _).
    + by destruct Hs as (_ & Hs & _).
Qed.
End responses.

Section session.
Context `{HL : !HttpParseLib} `{UC : !UnicodeCase} `{SL : !StatusLib} {Json : Type} (endpoint : EndpointRuntimeConfig Json).

(** The request at the start of [all]: its head, its body of the announced
    length, or all there is of it, and the rest. *)
Definition takes (all : list Z) (request : HttpRequest) (len : option Z) (body rest : list Z) : Prop :=
  ∃ head, all = head ++ body ++ rest ∧ head_of all head ∧ parse_http_request head = Ok (request, len) ∧
    (∀ n, len = Some n → n ≤ body_limit endpoint) ∧ zlen body ≤ default 0 len ∧
    (zlen body < default 0 len → rest = []).

(** A request meets its answer: a refusal, or what the application answers to it. *)
Inductive exchange (request : HttpRequest) (body : list Z) : list app_answer → HttpResponseDispatch → list stream_event →
    list app_answer → list (HttpRequestSummary (list Z)) → bool → Prop :=
  | exchange_refused status text extra transport answers :
      route_request endpoint request = Refuse status text extra transport →
      exchange request body answers (mkDispatch status extra (BufferedBody (lit text))) [] answers [] transport
  | exchange_forwarded resolution d events answers :
      route_request endpoint request = Forward resolution →
      exchange request body (AppAnswers d events :: answers) d events answers [request_summary request resolution body] false.

Definition keeps_alive (request : HttpRequest) : bool := should_keep_alive (req_version request) (req_headers request).
Definition response_of (request : HttpRequest) : HttpResponseDispatch → list stream_event → list Z :=
  whole_response (req_version request) (keeps_alive request).
Definition invalid_response (version status : Z) : list Z :=
  whole_response version false (mkDispatch status [] (BufferedBody (lit "invalid HTTP request"))) [].

(** A session: the octets of the client, the answers of the application, the
    requests it sees with their bodies, and the octets of the server. *)
Inductive session (version : Z) : list Z → list app_answer → list (HttpRequestSummary (list Z)) → list Z → Prop :=
  | session_over all answers status o : o `prefix_of` invalid_response version status →
      session version all answers [] o
  | session_next all request len body rest answers d events answers' queued transport queue o :
      takes all request len body rest → zlen body = default 0 len →
      exchange request body answers d events answers' queued transport → given_whole d events →
      keeps_alive request = true ∨ transport = true →
      session version rest answers' queue o →
      session version all answers (queued ++ queue) (response_of request d events ++ o)
  | session_last all request len body rest answers d events answers' queued transport o :
      takes all request len body rest → exchange request body answers d events answers' queued transport →
      o `prefix_of` response_of request d events →
      session version all answers queued o
  | session_unanswered all request len body rest answers resolution queue o :
      takes all request len body rest → route_request endpoint request = Forward resolution →
      match answers with
      | [] => queue = [request_summary request resolution body] ∧ o = []
      | AppQueueFails :: _ => queue = [] ∧ o = []
      | AppDrops :: _ => queue = [request_summary request resolution body] ∧
          o `prefix_of` response_of request (mkDispatch 500 [] (BufferedBody (lit "http request cancelled"))) []
      | AppAnswers _ _ :: _ => False
      end →
      session version all answers queue o.

Definition answer_ok (a : app_answer) : Prop :=
  match a with AppAnswers _ events => chunks_nonempty events | _ => True end.

(** ** The state between two requests *)
Definition ahead (c : HttpConnection) : list Z :=
  match hc_reader c with
  | Some r => unread_all r
  | None => match hc_reclaim c with Some (n, reader) => drop (Z.to_nat n) (unread reader) | None => [] end
  end.

Definition conn_ok (c : HttpConnection) : Prop :=
  match hc_reader c with
  | Some r => br_ok r
  | None => match hc_reclaim c with Some (n, reader) => front_ok reader ∧ 0 ≤ n | None => True end
  end.

(** The body that is still being read is all there. *)
Definition body_there (c : HttpConnection) : Prop :=
  match hc_reader c, hc_reclaim c with
  | None, Some (n, reader) => n ≤ zlen (unread reader)
  | None, None => False
  | _, _ => True
  end.

#[global] Instance body_there_dec c : Decision (body_there c).
Proof. unfold body_there. destruct (hc_reader c), (hc_reclaim c) as [[]|]; apply _. Defined.

(** Nothing but the reading side changes. *)
Definition same_talk (c c' : HttpConnection) : Prop :=
  hc_writer c' = hc_writer c ∧ hc_answers c' = hc_answers c ∧ hc_queue c' = hc_queue c.

Lemma await_reader_spec c : conn_ok c →
  match await_reader c with
  | (Ok _, c') => same_talk c c' ∧ conn_ok c' ∧ ahead c' = ahead c ∧ body_there c ∧ ∃ r, hc_reader c' = Some r
  | (Err s, c') => s = ConnClosed ∧ same_talk c c'
  | _ => False
  end.
Proof.
  intros Hok. unfold await_reader, conn_ok, ahead, body_there in *. destruct (hc_reader c) as [r|] eqn:Er.
  { rewrite Er. split_and!; [done|done|done|done|by exists r]. }
  destruct (hc_reclaim c) as [[n reader]|]; [|by split]. destruct Hok as [Hok Hn]. unfold reclaim_wait.
  pose proof (drain_body_spec (Z.to_nat n) n reader Hok ltac:(lia)) as Hd. destruct (drain_body _ n reader) as [st|]; [|by split].
  destruct Hd as (Hst & Hl & Hu). simpl. split_and!; [done|by split|by unfold unread_all; simpl|done|by eexists].
Qed.

Lemma await_reader_cut c : conn_ok c → ¬ body_there c → ∃ c', await_reader c = (Err ConnClosed, c') ∧ same_talk c c'.
Proof.
  intros Hok Hno. unfold await_reader, conn_ok, body_there in *. destruct (hc_reader c) as [r|]; [done|].
  destruct (hc_reclaim c) as [[n reader]|]; [|by exists c]. destruct Hok as [Hok Hn]. unfold reclaim_wait.
  rewrite drain_body_short by (done || lia). by eexists.
Qed.

(** What the reading of a request leaves: the request with the phase of its body,
    and the reader behind what it has of it. *)
Definition pending_ok (all : list Z) (request : HttpRequest) (phase : HttpBodyPhase) (c : HttpConnection) : Prop :=
  ∃ r len head read, hc_reader c = Some r ∧ br_ok r ∧ all = head ++ read ++ unread_all r ∧ head_of all head ∧
    parse_http_request head = Ok (request, len) ∧ (∀ n, len = Some n → n ≤ body_limit endpoint) ∧
    phase_of phase read (default 0 len) HTTP1_INLINE_BODY_LIMIT ∧
    (∀ prefix n, phase = NeedsStreaming prefix n → br_buffer r = []).

Lemma streaming_buffer eof limit r request prefix n r' :
  read_http_request_with_options endpoint eof limit r = (Ok (Some (request, NeedsStreaming prefix n)), r') → br_buffer r' = [].
Proof.
  unfold read_http_request_with_options. destruct (read_head _ _ _ _) as [[[head|]|e| |] r1]; try done.
  unfold read_after_head. destruct (parse_http_request head) as [[q [len|]]|e| |]; try done.
  destruct (body_limit endpoint <? len); [done|]. destruct (len <=? limit).
  { by destruct (read_body _ _ _ _) as [[b|e| |] r2]. }
  set (k := Z.min len (zlen (br_buffer r1))). pose proof (zlen_nonneg (br_buffer r1)). unfold classify_http_body.
  destruct (len =? 0); [done|]. destruct (Z.leb_spec len (zlen (take (Z.to_nat k) (br_buffer r1)))) as [|Hlt]; [done|].
  intros [= <- <- <- <-]. unfold consume. simpl. apply drop_ge. revert Hlt. unfold k, zlen. rewrite length_take. lia.
Qed.

(** Taking the body: its octets, and what is ahead behind it. *)
Lemma take_body_spec all request phase c : pending_ok all request phase c →
  ∃ body c' len, take_body phase c = (Ok body, c') ∧ same_talk c c' ∧ conn_ok c' ∧
    takes all request len (body_octets body) (ahead c') ∧ (body_there c' ↔ zlen (body_octets body) = default 0 len) ∧
    (length (ahead c') < length all ∧ length (ahead c') ≤ length (ahead c))%nat.
Proof.
  intros (r & len & head & read & Hr & Hok & Hall & Hhead & Hparse & Hlim & Hph & Hbuf).
  assert (4 ≤ zlen head) as H4.
  { destruct Hhead as (_ & Hf & _). apply find_terminator_bound in Hf. lia. }
  unfold take_body. destruct phase as [bytes|prefix n|]; simpl in Hph; [| |done].
  - destruct Hph as [-> Hz]. exists (BodyInline read), c, len. unfold conn_ok, ahead, body_there. rewrite Hr. simpl.
    split_and!; [done|done|done| |by split|rewrite Hall, !length_app; unfold zlen in *; lia|lia].
    exists head. split_and!; [done|done|done|done|lia|lia].
  - destruct Hph as (-> & _ & Hn & Hz). rewrite Hr. eexists (BodyStreamed read n (br_inner r)), _, len.
    split; [reflexivity|]. unfold conn_ok, ahead, body_there. simpl. destruct Hok as [Hok _].
    assert (unread_all r = unread (br_inner r)) as Hu by (unfold unread_all; by rewrite (Hbuf read n eq_refl)).
    rewrite Hu in Hall. split_and!; [done|done|lia| | |rewrite Hall, !length_app, length_drop; unfold zlen in *; lia|].
    + exists head. split_and!; [|done|done|done|zlia|].
      * by rewrite <-app_assoc, take_drop.
      * rewrite zlen_app. intros Hs. apply drop_ge. unfold zlen in *. rewrite length_take in Hs. lia.
    + split; zlia.
    + rewrite Hr, Hu, length_drop. lia.
Qed.

(** ** Serving one request *)

(** What has been said since [c]: requests handed over, and octets sent. *)
Definition said (c c' : HttpConnection) (answers : list app_answer) (queue : list (HttpRequestSummary (list Z))) (o : list Z) : Prop :=
  hc_answers c' = answers ∧
  over_body body_octets <$> hc_queue c' = (over_body body_octets <$> hc_queue c) ++ queue ∧
  out (hc_writer c') = out (hc_writer c) ++ o.

Definition same_reading (c c' : HttpConnection) : Prop := hc_reader c' = hc_reader c ∧ hc_reclaim c' = hc_reclaim c.

Lemma said_nothing c c' : same_talk c c' → said c c' (hc_answers c) [] [].
Proof. intros (Hw & Ha & Hq). unfold said. by rewrite Hw, Ha, Hq, !app_nil_r. Qed.

Lemma said_trans c1 c2 c3 a2 a3 q1 q2 o1 o2 : said c1 c2 a2 q1 o1 → said c2 c3 a3 q2 o2 → said c1 c3 a3 (q1 ++ q2) (o1 ++ o2).
Proof. intros (_ & Hq1 & Ho1) (Ha & Hq2 & Ho2). split_and!; [done|by rewrite Hq2, Hq1, app_assoc|by rewrite Ho2, Ho1, app_assoc]. Qed.

Lemma said_quiet c1 c2 c3 a q o : said c1 c2 a q o → same_talk c2 c3 → said c1 c3 a q o.
Proof. intros (Ha & Hq & Ho) (Hw & Ha' & Hq'). unfold said. by rewrite Hw, Ha', Hq'. Qed.

Lemma send_response_spec c version keep_alive d events :
  match rd_body d with BufferedBody _ => True | StreamingBody => hw_stream (hc_writer c) = events ∧ chunks_nonempty events end →
  match send_or_close (send_http_dispatch version keep_alive d) c with
  | (Ok _, c') => same_reading c c' ∧ said c c' (hc_answers c) [] (whole_response version keep_alive d events) ∧ given_whole d events
  | (Err _, c') => same_reading c c' ∧ ∃ k, k `prefix_of` whole_response version keep_alive d events ∧ said c c' (hc_answers c) [] k
  | _ => False
  end.
Proof.
  intros He. assert (rd_body d = StreamingBody → chunks_nonempty (hw_stream (hc_writer c))) as Hne.
  { intros Eb. rewrite Eb in He. by destruct He as [-> ?]. }
  pose proof (dispatch_sends version keep_alive d (hc_writer c) Hne) as Hs. unfold send_or_close, said.
  assert (whole_response version keep_alive d (hw_stream (hc_writer c)) = whole_response version keep_alive d events ∧
    (given_whole d (hw_stream (hc_writer c)) → given_whole d events)) as [Hwhole Hgiven].
  { unfold whole_response, given_whole. destruct (rd_body d); [done|]. by destruct He as [-> _]. }
  rewrite Hwhole in Hs. destruct (send_http_dispatch version keep_alive d (hc_writer c)) as [[u|[e|]| |] w]; try done; simpl.
  - destruct Hs as [Ho Hg]. rewrite app_nil_r. split; [by split|]. split; [done|auto].
  - destruct Hs as (k & Hk & Ho). rewrite app_nil_r. split; [by split|]. by exists k.
  - destruct Hs as (k & Hk & Ho). rewrite app_nil_r. split; [by split|]. by exists k.
Qed.

Lemma refusal_spec c version status keep_alive text extra :
  match send_or_close (send_http_simple_response version status keep_alive text extra) c with
  | (Ok _, c') => same_reading c c' ∧
      said c c' (hc_answers c) [] (whole_response version keep_alive (mkDispatch status extra (BufferedBody text)) [])
  | (Err _, c') => same_reading c c' ∧ ∃ k,
      k `prefix_of` whole_response version keep_alive (mkDispatch status extra (BufferedBody text)) [] ∧ said c c' (hc_answers c) [] k
  | _ => False
  end.
Proof.
  pose proof (send_response_spec c version keep_alive (mkDispatch status extra (BufferedBody text)) [] I) as H.
  change (send_http_simple_response version status keep_alive text extra) with
    (send_http_dispatch version keep_alive (mkDispatch status extra (BufferedBody text))).
  destruct (send_or_close _ c) as [[u|e| |] c']; [|done..]. tauto.
Qed.

(** What a send whose failure is ignored leaves. *)
Lemma ignored_spec c version status keep_alive text extra :
  match send_anyway (send_http_simple_response version status keep_alive text extra) c with
  | (Ok _, c') | (Err _, c') => same_reading c c' ∧ ∃ k,
      k `prefix_of` whole_response version keep_alive (mkDispatch status extra (BufferedBody text)) [] ∧ said c c' (hc_answers c) [] k
  | _ => False
  end.
Proof.
  unfold send_anyway. pose proof (refusal_spec c version status keep_alive text extra) as H.
  destruct (send_or_close _ c) as [[u|[]| |] c']; try done. destruct H as [? ?]. split; [done|]. by eexists.
Qed.

(** What a request is answered: a whole response, to go on from, or the last of
    the session. *)
Lemma forward_spec version all request len body rest resolution c : takes all request len (body_octets body) rest →
  route_request endpoint request = Forward resolution → Forall answer_ok (hc_answers c) →
  match forward_request request (keeps_alive request) resolution body c with
  | (Ok _, c') => same_reading c c' ∧ ∃ d events answers,
      exchange request (body_octets body) (hc_answers c) d events answers [request_summary request resolution (body_octets body)] false ∧
      given_whole d events ∧ Forall answer_ok answers ∧
      said c c' answers [request_summary request resolution (body_octets body)] (response_of request d events)
  | (Err _, c') => ∃ answers queue o, said c c' answers queue o ∧ session version all (hc_answers c) queue o
  | _ => False
  end.
Proof.
  intros Ht Hr Ha. set (seen := request_summary request resolution (body_octets body)).
  assert (∀ answers, said c (hc_enqueue (request_summary request resolution body) (hc_set_answers answers c)) answers [seen] []) as Hsaid.
  { intros answers. unfold said. simpl. rewrite fmap_app, app_nil_r. cbn [fmap list_fmap]. by rewrite over_summary. }
  unfold forward_request. destruct (hc_answers c) as [|[| |d events] answers] eqn:Ea.
  - exists [], [seen], []. split; [|by eapply session_unanswered].
    destruct (Hsaid []) as (_ & Hq & Ho). split_and!; [done|exact Hq|exact Ho].
  - exists answers, [], []. split; [|by eapply session_unanswered]. unfold said. simpl. by rewrite !app_nil_r.
  - set (c1 := hc_enqueue _ _). pose proof (ignored_spec c1 (req_version request) 500 (keeps_alive request) (lit "http request cancelled") []) as Hi.
    unfold mbind, stateful_bind. destruct (send_anyway _ c1) as [[u|e| |] c2]; try done; destruct Hi as (_ & k & Hk & Hs);
      exists answers, [seen], k; (split; [apply (said_trans _ _ _ _ _ _ [] [] k (Hsaid answers) Hs)|by eapply session_unanswered]).
  - apply Forall_cons in Ha as [Hev Hrest]. simpl in Hev.
    set (c1 := hc_enqueue _ _). unfold mbind, stateful_bind, with_stream. set (c2 := hc_set_writer _ c1).
    assert (said c c2 answers [seen] []) as Hs2 by (destruct (Hsaid answers) as (? & ? & ?); by split_and!).
    pose proof (send_response_spec c2 (req_version request) (keeps_alive request) d events ltac:(by destruct (rd_body d))) as Hs.
    destruct (send_or_close _ c2) as [[u|e| |] c3]; try done.
    + destruct Hs as (Hread & Hs & Hg). split; [exact Hread|]. exists d, events, answers.
      split; [by constructor|]. split; [done|]. split; [done|]. by apply (said_trans _ _ _ _ _ _ [] [] _ Hs2).
    + destruct Hs as (_ & k & Hk & Hs). exists answers, [seen], k.
      split; [by apply (said_trans _ _ _ _ _ _ [] [] k Hs2)|]. eapply session_last; [exact Ht|by constructor|exact Hk].
Qed.

(** The end of a round. *)
Definition end_of_round (keep_alive : bool) : hcm unit := _ ← await_reader; if negb keep_alive then conn_close else mret ().

Lemma end_of_round_spec keep_alive c : conn_ok c →
  match end_of_round keep_alive c with
  | (Ok _, c') => same_talk c c' ∧ conn_ok c' ∧ ahead c' = ahead c ∧ body_there c ∧ body_there c' ∧ keep_alive = true
  | (Err _, c') => same_talk c c'
  | _ => False
  end.
Proof.
  intros Hok. unfold end_of_round, mbind, stateful_bind. pose proof (await_reader_spec c Hok) as H.
  destruct (await_reader c) as [[u|s| |] c1]; try done; [|by destruct H]. destruct H as (Ht & Hok1 & Ha & Hb & r & Hr).
  destruct keep_alive; [|done]. simpl. split_and!; try done; [apply Ht..|]. unfold body_there. by rewrite Hr.
Qed.

(** A round from [c] ends the session, or what follows does. *)
Definition round_result (version : Z) (all : list Z) (c : HttpConnection) (result : outcome conn_stop unit * HttpConnection) : Prop :=
  match result with
  | (Ok _, c') => conn_ok c' ∧ Forall answer_ok (hc_answers c') ∧
      (length (ahead c') < length all ∧ length (ahead c') ≤ length (ahead c))%nat ∧
      ∃ queued o, said c c' (hc_answers c') queued o ∧
        (¬ body_there c' → session version all (hc_answers c) queued o) ∧
        (body_there c' → ∀ queue o', session version (ahead c') (hc_answers c') queue o' →
           session version all (hc_answers c) (queued ++ queue) (o ++ o'))
  | (Err _, c') => ∃ answers queue o, said c c' answers queue o ∧ session version all (hc_answers c) queue o
  | _ => False
  end.

Lemma same_reading_ahead c c' : same_reading c c' →
  ahead c' = ahead c ∧ (conn_ok c → conn_ok c') ∧ (body_there c' ↔ body_there c).
Proof. intros [Hr Hc]. unfold ahead, conn_ok, body_there. by rewrite Hr, Hc. Qed.

(** A whole response was sent. *)
Lemma answered_round version all request len body c c' d events queued transport :
  takes all request len body (ahead c') → (body_there c' ↔ zlen body = default 0 len) → conn_ok c' →
  (length (ahead c') < length all ∧ length (ahead c') ≤ length (ahead c))%nat → Forall answer_ok (hc_answers c') →
  exchange request body (hc_answers c) d events (hc_answers c') queued transport → given_whole d events →
  said c c' (hc_answers c') queued (response_of request d events) →
  round_result version all c ((if transport then mret () else end_of_round (keeps_alive request)) c').
Proof.
  intros Ht Hthere Hok Hlen Ha Hx Hg Hs.
  assert (session version all (hc_answers c) queued (response_of request d events)) as Hlast
    by (by eapply session_last; [exact Ht|exact Hx|]).
  destruct transport.
  - split; [done|]. split; [done|]. split; [done|]. exists queued, (response_of request d events). split_and!; [done|done|].
    intros Hb queue o' Hn. eapply session_next; [exact Ht|by apply Hthere|exact Hx|done|by right|done].
  - pose proof (end_of_round_spec (keeps_alive request) c' Hok) as He.
    destruct (end_of_round (keeps_alive request) c') as [[u|s| |] c2]; try done.
    + destruct He as (Htalk & Hok2 & Hahead & Hb & Hb2 & Hk). pose proof (said_quiet _ _ _ _ _ _ Hs Htalk) as Hs2.
      destruct Htalk as (_ & Ha2 & _). rewrite <-Ha2 in *. rewrite <-Hahead in *. split; [done|]. split; [done|]. split; [done|].
      exists queued, (response_of request d events). split_and!; [done|done|].
      intros _ queue o' Hn. eapply session_next; [exact Ht|by apply Hthere|exact Hx|done|by left|done].
    + eexists _, _, _. split; [exact (said_quiet _ _ _ _ _ _ Hs He)|done].
Qed.

Lemma serve_request_spec version all request phase c : pending_ok all request phase c → Forall answer_ok (hc_answers c) →
  round_result version all c (serve_request endpoint request phase c).
Proof.
  intros Hp Ha. destruct (take_body_spec all request phase c Hp) as (body & c1 & len & Hbody & Htalk & Hok1 & Htakes & Hthere & Hlen).
  unfold serve_request. rewrite (stateful_bind_run _ _ _ _ _ Hbody). fold (keeps_alive request). fold (end_of_round (keeps_alive request)).
  pose proof (said_nothing _ _ Htalk) as Hs1. destruct Htalk as (_ & Ha1 & _). rewrite <-Ha1 in Ha, Hs1.
  assert (∀ c2, same_reading c1 c2 → conn_ok c2 ∧ takes all request len (body_octets body) (ahead c2) ∧
    (body_there c2 ↔ zlen (body_octets body) = default 0 len) ∧
    (length (ahead c2) < length all ∧ length (ahead c2) ≤ length (ahead c))%nat) as Hread.
  { intros c2 Hr. destruct (same_reading_ahead c1 c2 Hr) as (-> & Hok2 & Hb2). rewrite Hb2. split; [by apply Hok2|]. by split; [|split]. }
  destruct (route_request endpoint request) as [status text extra transport|resolution] eqn:Er.
  - unfold mbind, stateful_bind. pose proof (refusal_spec c1 (req_version request) status (keeps_alive request) (lit text) extra) as Hs.
    destruct (send_or_close _ c1) as [[u|e| |] c2] eqn:Esend; try done.
    + destruct Hs as [Hr Hs2]. destruct (Hread c2 Hr) as (Hok2 & Ht2 & Hb2 & Hl2).
      assert (hc_answers c2 = hc_answers c1) as Ha2 by apply Hs2.
      apply (answered_round version all request len (body_octets body) c c2 (mkDispatch status extra (BufferedBody (lit text))) [] [] transport);
        [done|done|done|done|by rewrite Ha2|rewrite Ha2, Ha1; by eapply exchange_refused|done|].
      rewrite Ha2. exact (said_trans _ _ _ _ _ [] [] [] _ Hs1 Hs2).
    + destruct Hs as (_ & k & Hk & Hs2). eexists _, _, _. split; [exact (said_trans _ _ _ _ _ _ _ _ _ Hs1 Hs2)|].
      eapply session_last; [exact Htakes|by eapply exchange_refused|exact Hk].
  - pose proof (forward_spec version all request len body (ahead c1) resolution c1 Htakes Er Ha) as Hs.
    unfold mbind at 1, stateful_bind at 1. destruct (forward_request _ _ _ _ c1) as [[u|e| |] c2]; try done.
    + destruct Hs as (Hr & d & events & answers & Hx & Hg & Ha3 & Hs2). destruct (Hread c2 Hr) as (Hok2 & Ht2 & Hb2 & Hl2).
      assert (hc_answers c2 = answers) as Ha2 by apply Hs2. rewrite <-Ha2 in Hx, Hs2. rewrite Ha1 in Hx.
      apply (answered_round version all request len (body_octets body) c c2 d events
        [request_summary request resolution (body_octets body)] false); try done.
      * by rewrite Ha2.
      * exact (said_trans _ _ _ _ _ [] _ [] _ Hs1 Hs2).
    + destruct Hs as (answers & queue & o & Hs2 & Hn). eexists _, _, _. split; [exact (said_trans _ _ _ _ _ [] queue [] o Hs1 Hs2)|].
      rewrite <-Ha1. exact Hn.
Qed.

(** ** The loop *)
Lemma read_next_spec version c r : hc_reader c = Some r → br_ok r →
  match read_next endpoint version c with
  | (Ok (request, phase), c') => same_talk c c' ∧ pending_ok (unread_all r) request phase c'
  | (Err _, c') => ∃ o, said c c' (hc_answers c) [] o ∧ session version (unread_all r) (hc_answers c) [] o
  | _ => False
  end.
Proof.
  intros Hr Hok. unfold read_next. rewrite Hr. unfold read_http_request.
  pose proof (read_request_spec endpoint true HTTP1_INLINE_BODY_LIMIT r Hok ltac:(done)) as Hs.
  pose proof (streaming_buffer true HTTP1_INLINE_BODY_LIMIT r) as Hb.
  assert (∀ r', ∃ o, said c (hc_set_reader (Some r') c) (hc_answers c) [] o ∧ session version (unread_all r) (hc_answers c) [] o) as Hend.
  { intros r'. exists []. split; [by apply said_nothing|]. apply (session_over _ _ _ 400). apply prefix_nil. }
  destruct (read_http_request_with_options _ _ _ r) as [[[[request phase]|]|e| |] r']; [| |destruct e as [|detail|e]|done|done];
    try apply Hend.
  - destruct Hs as (Hok' & head & len & read & Hhead & Hparse & Hall & Hlim & Hph). split; [done|].
    exists r', len, head, read. split_and!; try done. intros prefix n ->. by eapply Hb.
  - destruct (classify_http_error_status detail) as [status|]; [|apply Hend].
    set (c1 := hc_set_reader (Some r') c). unfold refuse_invalid.
    pose proof (ignored_spec c1 version status false (lit "invalid HTTP request") []) as Hi.
    unfold mbind, stateful_bind. destruct (send_anyway _ c1) as [[u|x| |] c2]; try done;
      destruct Hi as (_ & k & Hk & Hsaid); exists k; (split; [by destruct Hsaid|by apply (session_over _ _ _ status)]).
Qed.

Lemma serve_loop_session version fuel c : conn_ok c → Forall answer_ok (hc_answers c) → (length (ahead c) < fuel)%nat →
  match serve_loop endpoint fuel version None c with
  | (Err _, c') => ∃ answers queue o, said c c' answers queue o ∧
      (body_there c → session version (ahead c) (hc_answers c) queue o) ∧ (¬ body_there c → queue = [] ∧ o = [])
  | _ => False
  end.
Proof.
  revert c. induction fuel as [|fuel IH]; intros c Hok Ha Hf; [lia|]. cbn [serve_loop]. unfold next_request.
  pose proof (await_reader_spec c Hok) as Hw. unfold mbind, stateful_bind.
  destruct (await_reader c) as [[u|x| |] c1] eqn:Ew; try done.
  2: { destruct Hw as [-> Htalk]. exists (hc_answers c), [], []. split; [by apply said_nothing|]. split; [|done].
       intros Hb. apply (session_over _ _ _ 400). apply prefix_nil. }
  destruct Hw as (Htalk & Hok1 & Hahead & Hb & r & Hr). pose proof (said_nothing _ _ Htalk) as Hs1.
  destruct Htalk as (_ & Ha1 & _). unfold conn_ok in Hok1. unfold ahead in Hahead. rewrite Hr in Hok1, Hahead. fold (ahead c) in Hahead.
  pose proof (read_next_spec version c1 r Hr Hok1) as Hn. rewrite Hahead, Ha1 in Hn.
  destruct (read_next endpoint version c1) as [[[request phase]|x| |] c2]; try done.
  2: { destruct Hn as (o & Hs2 & Hn). exists (hc_answers c), [], o. split; [exact (said_trans _ _ _ _ _ [] [] [] o Hs1 Hs2)|].
       split; [done|]. intros Hno. by destruct Hno. }
  destruct Hn as [Htalk2 Hp]. pose proof (said_quiet _ _ _ _ _ _ Hs1 Htalk2) as Hs2. destruct Htalk2 as (_ & Ha2 & _).
  assert (hc_answers c2 = hc_answers c) as Hac by (by rewrite Ha2, Ha1).
  pose proof (serve_request_spec version (ahead c) request phase c2 Hp ltac:(by rewrite Hac)) as Hround. cbn [fst snd].
  unfold round_result in Hround. rewrite Hac in Hround. destruct (serve_request endpoint request phase c2) as [[v|x| |] c3]; try done.
  - destruct Hround as (Hok3 & Ha3 & [Hlen _] & queued & o & Hs3 & Hcut & Hnext). specialize (IH c3 Hok3 Ha3 ltac:(lia)).
    destruct (serve_loop endpoint fuel version None c3) as [[w|x| |] c4]; try done.
    destruct IH as (answers & queue & o' & Hs4 & Hthere & Hgone).
    exists answers, (queued ++ queue), (o ++ o'). split; [exact (said_trans _ _ _ _ _ [] _ [] _ Hs2 (said_trans _ _ _ _ _ _ _ _ _ Hs3 Hs4))|].
    split; [|intros Hno; by destruct Hno]. intros _. destruct (decide (body_there c3)) as [Hb3|Hb3].
    + apply Hnext; [done|]. by apply Hthere.
    + destruct (Hgone Hb3) as [-> ->]. rewrite !app_nil_r. by apply Hcut.
  - destruct Hround as (answers & queue & o & Hs3 & Hsess). exists answers, queue, o.
    split; [exact (said_trans _ _ _ _ _ [] queue [] o Hs2 Hs3)|]. split; [done|]. intros Hno. by destruct Hno.
Qed.

Lemma handshake_streaming st0 h st : parse_http_handshake endpoint st0 = (Ok h, st) →
  ∀ prefix n, hh_body h = NeedsStreaming prefix n → hh_prefetched h = [].
Proof.
  unfold parse_http_handshake. pose proof (streaming_buffer false HTTP1_INLINE_BODY_LIMIT (mkBufReader [] st0 1024)) as Hb.
  destruct (read_http_request_with_options _ _ _ _) as [[[[request body]|]|e| |] r]; try done. cbv zeta.
  destruct body as [bytes|prefix n|]; [by case_match; [|intros [= <- <-]]| |by intros [= <- <-]].
  intros [= <- <-] prefix' n' [= <- <-]. by eapply Hb.
Qed.

(** C21: serving an HTTP/1 connection is a session, for every client, socket and
    application: requests are read off the connection one behind the other, each
    from the octet after the body of the one before, so no octet of a body is
    ever taken for a request; each is refused or handed over with exactly its
    body, and answered by one response before the next is looked at; what goes out
    is these responses in order, the last of them possibly cut; and it goes on
    only after a whole response to a whole request that keeps the connection
    alive, or that failed a transport requirement.  Serving always ends or waits
    for the application or the socket. *)
Theorem http_connection_refines st0 h st w answers : front_ok st0 → parse_http_handshake endpoint st0 = (Ok h, st) →
  Forall answer_ok answers →
  match serve_http_connection endpoint h st w answers with
  | (Err _, c) => ∃ o, out (hc_writer c) = out w ++ o ∧
      session (req_version (hh_request h)) (unread st0) answers (over_body body_octets <$> hc_queue c) o
  | _ => False
  end.
Proof.
  intros Hok0 Eh Ha. pose proof (parse_http_handshake_spec endpoint st0 Hok0) as Hspec.
  pose proof (handshake_streaming _ _ _ Eh) as Hpre. rewrite Eh in Hspec.
  destruct Hspec as (Hok & (head & len & read & Hhead & Hparse & Hall & Hlim & Hph) & _). unfold serve_http_connection.
  set (all := unread st0) in *.
  set (st1 := if bool_decide (hh_prefetched h = []) then st else buffer_front st (hh_prefetched h)).
  assert (front_ok st1 ∧ unread st1 = hh_prefetched h ++ unread st) as [Hok1 Hu].
  { unfold st1. case_bool_decide as E; [by rewrite E|]. split; [by apply buffer_front_ok|]. by apply unread_buffer_front. }
  clearbody st1. rewrite <-Hu in Hall.
  set (c := mkHttpConnection (Some (buf_reader st1)) None w false answers []).
  assert (pending_ok all (hh_request h) (hh_body h) c) as Hp.
  { exists (buf_reader st1), len, head, read. by split_and!. }
  remember (S (length (unread st1))) as fuel eqn:Efuel.
  cbn [serve_loop]. unfold mbind, stateful_bind, mret, stateful_ret. cbn [fst snd].
  pose proof (serve_request_spec (req_version (hh_request h)) all _ _ c Hp Ha) as Hround. unfold round_result in Hround.
  destruct (serve_request endpoint (hh_request h) (hh_body h) c) as [[v|x| |] c1]; try done.
  - destruct Hround as (Hok2 & Ha2 & [_ Hlen] & queued & o & Hs & Hcut & Hnext).
    pose proof (serve_loop_session (req_version (hh_request h)) fuel c1 Hok2 Ha2) as Hl.
    change (ahead c) with (unread st1) in Hlen. specialize (Hl ltac:(lia)).
    destruct (serve_loop endpoint _ _ None c1) as [[y|x| |] c2]; try done.
    destruct Hl as (answers' & queue & o' & Hs2 & Hthere & Hgone). pose proof (said_trans _ _ _ _ _ _ _ _ _ Hs Hs2) as (_ & Hq & Ho).
    simpl in Hq. exists (o ++ o'). split; [done|]. rewrite Hq. destruct (decide (body_there c1)) as [Hb|Hb].
    + apply Hnext; [done|]. by apply Hthere.
    + destruct (Hgone Hb) as [-> ->]. rewrite !app_nil_r. by apply Hcut.
  - destruct Hround as (answers' & queue & o & (_ & Hq & Ho) & Hsess). exists o. split; [done|]. simpl in Hq. by rewrite Hq.
Qed.
End session.

(** ** Examples *)

(** A parser of two requests: the first has a body of eighteen octets, the second
    closes the connection. *)
Definition demo_requests : HttpParseLib := {|
  http_parse bytes :=
    match bytes with
    | 0x50 :: _ => HttpComplete (Some (lit "GET")) (Some (lit "/api/x")) (Some 1) [(lit "Content-Length", lit "18"); (lit "Authorization", lit "Bearer t")]
    | 0x47 :: _ => HttpComplete (Some (lit "GET")) (Some (lit "/none")) (Some 1) [(lit "Connection", lit "close")]
    | _ => HttpInvalid
    end;
|}.

(** The body looks like a request of its own. *)
Definition demo_decoy : list Z := lit "GET / HTTP/1.1" ++ CRLF2.
Definition demo_pipeline : list Z :=
  lit "POST /api/x HTTP/1.1" ++ CRLF2 ++ demo_decoy ++ lit "GET /none HTTP/1.1" ++ CRLF2.
Definition demo_client_stream : IoStream :=
  IoStream_plain [RBytes (take 30 demo_pipeline); RBytes (drop 30 demo_pipeline)] [] (inr true).
Definition demo_app : list app_answer := [AppAnswers (demo_dispatch StreamingBody) demo_events; AppAnswers (demo_dispatch (BufferedBody [0x68; 0x69])) []].

#[local] Existing Instance ascii_case.

Lemma http_connection_refines_witness :
  ∃ h st c o, @parse_http_handshake demo_requests unit demo_runtime demo_client_stream = (Ok h, st) ∧
    @serve_http_connection demo_requests ascii_case demo_status unit demo_runtime h st (demo_http_writer []) demo_app = (Err ConnClosed, c) ∧
    sum_body <$> (over_body body_octets <$> hc_queue c) = [demo_decoy; []] ∧ out (hc_writer c) = o ∧
    @session demo_requests ascii_case demo_status unit demo_runtime 1 demo_pipeline demo_app (over_body body_octets <$> hc_queue c) o.
Proof.
  destruct (@parse_http_handshake demo_requests unit demo_runtime demo_client_stream) as [[h|e| |] st] eqn:Eh;
    try (vm_compute in Eh; discriminate Eh).
  pose proof (@http_connection_refines demo_requests ascii_case demo_status unit demo_runtime demo_client_stream h st
    (demo_http_writer []) demo_app ltac:(by vm_compute) Eh ltac:(constructor; [exact demo_chunks_nonempty|by repeat constructor])) as H.
  assert (req_version (hh_request h) = 1) as Hv by (vm_compute in Eh; by injection Eh as <- <-).
  assert (unread demo_client_stream = demo_pipeline) as Hu by (by vm_compute).
  destruct (serve_http_connection _ h st _ _) as [[u|x| |] c] eqn:Es; try done.
  destruct H as (o & Ho & Hs). rewrite Hv, Hu in Hs. exists h, st, c, o. split; [reflexivity|].
  vm_compute in Eh. injection Eh as <- <-.
  vm_compute in Es. injection Es as <- <-. split; [reflexivity|]. split; [by vm_compute|]. split; [|exact Hs].
  rewrite Ho. by vm_compute.
Defined.

(** A request that closes the connection and fails a transport requirement is
    told so, and the next request is served all the same. *)
Definition demo_closing : HttpParseLib := {|
  http_parse bytes :=
    match bytes with
    | 0x50 :: _ => HttpComplete (Some (lit "GET")) (Some (lit "/api/x")) (Some 1) [(lit "Connection", lit "close")]
    | _ => HttpComplete (Some (lit "GET")) (Some (lit "/none")) (Some 1) [(lit "Connection", lit "close")]
    end;
|}.

Lemma close_after_rejection :
  let st := IoStream_plain [RBytes (lit "POST /api/x HTTP/1.1" ++ CRLF2 ++ lit "GET /none HTTP/1.1" ++ CRLF2)] [] (inr true) in
  ∃ h st' c, @parse_http_handshake demo_closing unit demo_runtime st = (Ok h, st') ∧
    @should_keep_alive (req_version (hh_request h)) (req_headers (hh_request h)) = false ∧
    @serve_http_connection demo_closing ascii_case demo_status unit demo_runtime h st' (demo_http_writer [])
      [AppAnswers (demo_dispatch (BufferedBody [])) []] = (Err ConnClosed, c) ∧ length (hc_queue c) = 1%nat.
Proof. do 3 eexists. split; [by vm_compute|]. split; [by vm_compute|]. split; by vm_compute. Qed.
