(* ===== verification/RawSocketFrames.v ===== *)
(** * RawSocket frames

    The frame header encoder and the frame reader of [ct_core/src/lib.rs]:
    four-octet headers with 24-bit lengths (and bit 3 for exactly [2^24]) on
    standard connections, five-octet headers with 32-bit lengths on upgraded
    ones. *)
From S2P Require Import Prelude Bytes IoStream.

Definition MAX_FRAME_LEN : Z := 2 ^ 24.

Inductive FrameReadError : Type :=
  | FrameIo (e : io_error)
  | FrameProtocol (reason : string).

Inductive InboundFrame : Type :=
  | Message (payload : list Z)
  | Ping (payload : list Z)
  | Pong (payload : list Z).

(** [encode_frame_header]: the bytes [EncodedFrameHeader::as_bytes] shows. *)
Definition encode_frame_header (frame_type payload_len : Z) (upgraded_protocol : bool) :
    FrameReadError + list Z :=
  if 0x07 <? frame_type
  then inl (FrameProtocol ("invalid frame type " +:+ pretty frame_type))
  else if upgraded_protocol then
    if 2 ^ 32 <=? payload_len
    then inl (FrameProtocol ("payload length " +:+ pretty payload_len
           +:+ " exceeds supported maximum " +:+ pretty (2 ^ 32 - 1)))
    else inr (Z.land frame_type 0x07 :: be_bytes 4 payload_len)
  else if MAX_FRAME_LEN <? payload_len
  then inl (FrameProtocol ("payload length " +:+ pretty payload_len
         +:+ " exceeds supported maximum " +:+ pretty MAX_FRAME_LEN))
  else
    let first := Z.land frame_type 0x07 in
    if payload_len =? MAX_FRAME_LEN
    then inr [Z.lor first 0x08; 0; 0; 0]
    else inr [first; Z.land (Z.shiftr payload_len 16) 0xFF;
              Z.land (Z.shiftr payload_len 8) 0xFF; Z.land payload_len 0xFF].

Definition byte_of (l : list Z) (i : nat) : Z := nth i l 0.

(** The header part of [read_inbound_frame]: frame type and length. *)
Definition read_frame_header (upgraded_protocol : bool) :
    stream_op FrameReadError (Z * Z) :=
  if upgraded_protocol then
    header ← op_read_exact FrameIo 5;
    if negb (Z.land (byte_of header 0) 0xF8 =? 0)
    then op_fail (FrameProtocol "reserved bits must be zero")
    else mret (Z.land (byte_of header 0) 0x07,
               be_value [byte_of header 1; byte_of header 2; byte_of header 3; byte_of header 4])
  else
    header ← op_read_exact FrameIo 4;
    let reserved := Z.shiftr (byte_of header 0) 4 in
    if negb (reserved =? 0) then op_fail (FrameProtocol "reserved bits must be zero")
    else
      let length_hi := Z.land (Z.shiftr (byte_of header 0) 3) 0x01 in
      let frame_type := Z.land (byte_of header 0) 0x07 in
      let length := Z.lor (Z.lor (Z.shiftl (byte_of header 1) 16)
                             (Z.shiftl (byte_of header 2) 8)) (byte_of header 3) in
      if length_hi =? 1 then
        if negb (length =? 0)
        then op_fail (FrameProtocol "extended length bit set with non-zero length bytes")
        else mret (frame_type, Z.shiftl 1 24)
      else mret (frame_type, length).

(** [read_exact_frame_payload]: reads into the buffer's spare capacity, which is
    the requested length, until it is full. *)
Definition read_exact_frame_payload (length : Z) : stream_op FrameReadError (list Z) :=
  op_read_exact FrameIo length.

Definition read_inbound_frame (max_payload : Z) (upgraded_protocol : bool) :
    stream_op FrameReadError InboundFrame :=
  '(frame_type, length) ← read_frame_header upgraded_protocol;
  if max_payload <? length
  then op_fail (FrameProtocol ("frame length " +:+ pretty length
         +:+ " exceeds negotiated maximum " +:+ pretty max_payload))
  else if negb upgraded_protocol && (MAX_FRAME_LEN <? length)
  then op_fail (FrameProtocol ("frame length " +:+ pretty length
         +:+ " exceeds supported maximum " +:+ pretty MAX_FRAME_LEN))
  else
    payload ← read_exact_frame_payload length;
    if frame_type =? 0 then mret (Message payload)
    else if frame_type =? 1 then mret (Ping payload)
    else if frame_type =? 2 then mret (Pong payload)
    else op_fail (FrameProtocol ("unsupported frame type " +:+ pretty frame_type)).

(** The frame a type octet and payload stand for. *)
Definition frame_of (frame_type : Z) (payload : list Z) : InboundFrame :=
  if frame_type =? 0 then Message payload
  else if frame_type =? 1 then Ping payload else Pong payload.

(** ** Headers read back *)

Lemma lor_3_bytes a b c : u8_ok a → u8_ok b → u8_ok c →
  Z.lor (Z.lor (Z.shiftl a 16) (Z.shiftl b 8)) c = be_value [a; b; c].
Proof.
  intros Ha Hb Hc.
  assert (Z.lor (Z.shiftl a 16) (Z.shiftl b 8) = Z.shiftl (a * 256 + b) 8) as ->.
  { rewrite <-(shl_or_byte a b) by (done || apply Ha). rewrite Z.shiftl_lor.
    rewrite Z.shiftl_shiftl by lia. done. }
  rewrite shl_or_byte; [|destruct Ha, Hb; lia|done].
  unfold be_value. simpl. lia.
Qed.

Lemma header_bytes_24 n : 0 ≤ n < 2 ^ 24 →
  [Z.land (Z.shiftr n 16) 0xFF; Z.land (Z.shiftr n 8) 0xFF; Z.land n 0xFF] = be_bytes 3 n.
Proof.
  intros Hn. change 0xFF with (Z.ones 8). rewrite !Z.land_ones, !Z.shiftr_div_pow2 by lia.
  cbn [be_bytes]. change (2 ^ 16) with (256 ^ Z.of_nat 2). change (2 ^ 8) with (256 ^ Z.of_nat 1) at 2.
  change (2 ^ 8) with 256. by rewrite Z.div_1_r.
Qed.

Lemma encode_frame_header_len t n up header :
  encode_frame_header t n up = inr header → zlen header = if up then 5 else 4.
Proof.
  unfold encode_frame_header. destruct (_ <? t); [done|]. destruct up.
  - case_match; [done|]. intros [= <-]. done.
  - case_match; [done|]. cbv zeta. case_match; by intros [= <-].
Qed.

(** The three frame types in use. *)
Lemma frame_type_cases t : 0 ≤ t ≤ 2 → t = 0 ∨ t = 1 ∨ t = 2.
Proof. lia. Qed.

Lemma read_frame_header_encoded t n up header st rest m :
  0 ≤ t ≤ 2 → 0 ≤ n → encode_frame_header t n up = inr header →
  stream_flows st m → zlen header ≤ m → unread st = header ++ rest →
  ∃ st', read_frame_header up st = (SOk (t, n), st')
    ∧ unread st' = rest ∧ stream_flows st' (m - zlen header).
Proof.
  intros Ht Hn He Hs Hm Hu.
  destruct (op_read_exact_prefix FrameIo st header rest m Hs Hm Hu) as (st' & Hr & Hu' & Hs').
  pose proof (encode_frame_header_len _ _ _ _ He) as Hz. rewrite Hz in Hr.
  exists st'. split; [|done].
  unfold encode_frame_header in He.
  assert (0x07 <? t = false) as E7 by lia. rewrite E7 in He.
  assert (Z.land t 0x07 = t) as E8 by (by destruct (frame_type_cases t Ht) as [-> | [-> | ->]]). rewrite E8 in He.
  unfold read_frame_header. destruct up; cbv beta iota zeta in *;
    rewrite (op_bind_run _ _ _ _ _ Hr); clear Hr.
  - destruct (Z.leb_spec (2 ^ 32) n); [done|]. injection He as <-.
    unfold byte_of. cbn [nth be_bytes].
    assert (Z.land t 0xF8 = 0) as -> by (by destruct (frame_type_cases t Ht) as [-> | [-> | ->]]).
    rewrite E8. cbn [negb Z.eqb]. unfold mret, stream_op_ret. do 3 f_equal.
    pose proof (be_value_bytes_small 4 n ltac:(simpl; lia)) as Hb. done.
  - destruct (Z.ltb_spec MAX_FRAME_LEN n) as [|Hmax]; [done|].
    destruct (Z.eqb_spec n MAX_FRAME_LEN) as [->|Hne].
    + injection He as <-. by destruct (frame_type_cases t Ht) as [-> | [-> | ->]].
    + injection He as <-. unfold byte_of. cbn [nth].
      assert (Z.shiftr t 4 = 0 ∧ Z.land (Z.shiftr t 3) 1 = 0) as [-> ->]
        by (by destruct (frame_type_cases t Ht) as [-> | [-> | ->]]).
      rewrite E8. cbn [negb Z.eqb]. unfold mret, stream_op_ret. do 3 f_equal.
      unfold MAX_FRAME_LEN in *.
      pose proof (header_bytes_24 n ltac:(lia)) as Hh. pose proof (be_bytes_ok 3 n) as Hb.
      rewrite <-Hh in Hb. repeat (apply Forall_cons in Hb as [? Hb]).
      rewrite lor_3_bytes by done. rewrite Hh. apply be_value_bytes_small. simpl. lia.
Qed.

Lemma read_inbound_frame_encoded t payload up max header st rest m :
  0 ≤ t ≤ 2 → zlen payload ≤ max → encode_frame_header t (zlen payload) up = inr header →
  stream_flows st m → zlen (header ++ payload) ≤ m → unread st = header ++ payload ++ rest →
  ∃ st', read_inbound_frame max up st = (SOk (frame_of t payload), st')
    ∧ unread st' = rest ∧ stream_flows st' (m - zlen (header ++ payload)).
Proof.
  intros Ht Hmax He Hs Hm Hu. rewrite zlen_app in *. pose proof (zlen_nonneg payload).
  destruct (read_frame_header_encoded t (zlen payload) up header st (payload ++ rest) m)
    as (st1 & H1 & Hu1 & Hs1); [done|done|done|done|lia|done|].
  destruct (op_read_exact_prefix FrameIo st1 payload rest (m - zlen header))
    as (st2 & H2 & Hu2 & Hs2); [done|lia|done|].
  exists st2. split; [|split; [done|by replace (m - (zlen header + zlen payload))
    with (m - zlen header - zlen payload) by lia]].
  unfold read_inbound_frame. rewrite (op_bind_run _ _ _ _ _ H1). cbv beta iota.
  rewrite (proj2 (Z.ltb_ge _ _)) by lia.
  assert (negb up && (MAX_FRAME_LEN <? zlen payload) = false) as ->.
  { destruct up; [done|]. simpl. unfold encode_frame_header in He.
    destruct (0x07 <? t); [done|]. by destruct (MAX_FRAME_LEN <? zlen payload). }
  rewrite (op_bind_run _ _ _ _ _ H2). unfold frame_of.
  by destruct (frame_type_cases t Ht) as [-> | [-> | ->]].
Qed.

(** What a successful header read consumed and found. *)
Lemma read_frame_header_ok up st t n st' :
  front_ok st → bytes_ok (unread st) → read_frame_header up st = (SOk (t, n), st') →
  0 ≤ t ∧ 0 ≤ n < 2 ^ 32 ∧
  ∃ header, zlen header = (if up then 5 else 4) ∧ step_io st st' header [].
Proof.
  intros Hok Hb H. unfold read_frame_header in H. destruct up.
  - apply op_bind_ok in H as (header & st2 & H2 & H).
    apply op_read_exact_ok in H2 as [Hz Hs]; [|done|lia].
    assert (bytes_ok header) as Hh.
    { destruct Hs as (_ & E & _). rewrite E in Hb. by apply Forall_app in Hb as [? _]. }
    destruct header as [|b0 [|b1 [|b2 [|b3 [|b4 [|b5 l]]]]]]; try by zlia.
    cbn [byte_of nth] in H. destruct (negb _); [done|]. injection H as <- <- <-.
    split; [apply Z.land_nonneg; right; lia|]. split; [|by exists [b0; b1; b2; b3; b4]].
    apply Forall_cons in Hh as [_ Hh].
    pose proof (be_value_bound _ Hh) as Hv. exact Hv.
  - apply op_bind_ok in H as (header & st2 & H2 & H).
    apply op_read_exact_ok in H2 as [Hz Hs]; [|done|lia].
    assert (bytes_ok header) as Hh.
    { destruct Hs as (_ & E & _). rewrite E in Hb. by apply Forall_app in Hb as [? _]. }
    destruct header as [|b0 [|b1 [|b2 [|b3 [|b4 l]]]]]; try by zlia.
    cbv zeta in H. unfold byte_of in H. cbn [nth] in H.
    apply Forall_cons in Hh as [_ Hh].
    pose proof (be_value_bound _ Hh) as Hv. change (256 ^ zlen [b1; b2; b3]) with (2 ^ 24) in Hv.
    repeat (apply Forall_cons in Hh as [? Hh]). rewrite lor_3_bytes in H by done.
    destruct (negb _); [done|].
    assert (0 ≤ Z.land b0 7) by (apply Z.land_nonneg; right; lia).
    destruct (_ =? 1).
    + destruct (negb _); [done|]. injection H as <- <- <-.
      split; [done|]. split; [done|]. by exists [b0; b1; b2; b3].
    + injection H as <- <- <-. split; [done|]. split; [lia|]. by exists [b0; b1; b2; b3].
Qed.

Lemma frame_dispatch_ok t payload st f st' : 0 ≤ t →
  (if t =? 0 then mret (Message payload)
   else if t =? 1 then mret (Ping payload)
   else if t =? 2 then mret (Pong payload)
   else op_fail (FrameProtocol ("unsupported frame type " +:+ pretty t))) st = (SOk f, st') →
  f = frame_of t payload ∧ t ≤ 2 ∧ st' = st.
Proof.
  intros Ht H. unfold frame_of.
  destruct (Z.eqb_spec t 0) as [->|]; [by injection H as <- <-|].
  destruct (Z.eqb_spec t 1) as [->|]; [by injection H as <- <-|].
  destruct (Z.eqb_spec t 2) as [->|]; [by injection H as <- <-|done].
Qed.

(** ** Properties *)

(** a RawSocket frame that is written is read back.  For every frame type in
    use, every payload the header encoder accepts and both header formats, the
    reader gets the frame from the encoded bytes however the socket splits
    them, and leaves exactly what follows; the encoder refuses exactly the
    lengths that do not fit: above [2^24] on a standard connection, from [2^32]
    on an upgraded one. *)
Theorem rawsocket_frame_roundtrip t payload up max st rest :
  0 ≤ t ≤ 2 → zlen payload ≤ max →
  match encode_frame_header t (zlen payload) up with
  | inr header =>
      zlen payload ≤ (if up then 2 ^ 32 - 1 else 2 ^ 24)
      ∧ (stream_flows st (zlen (header ++ payload)) → unread st = header ++ payload ++ rest →
         ∃ st', read_inbound_frame max up st = (SOk (frame_of t payload), st')
           ∧ unread st' = rest)
  | inl _ => (if up then 2 ^ 32 - 1 else 2 ^ 24) < zlen payload
  end.
Proof.
  intros Ht Hmax. destruct (encode_frame_header t (zlen payload) up) as [e|header] eqn:He.
  - unfold encode_frame_header in He.
    replace (0x07 <? t) with false in He by lia. destruct up.
    + destruct (Z.leb_spec (2 ^ 32) (zlen payload)); [lia|done].
    + unfold MAX_FRAME_LEN in He. destruct (Z.ltb_spec (2 ^ 24) (zlen payload)); [lia|].
      cbv zeta in He. by destruct (_ =? _).
  - split.
    + unfold encode_frame_header in He.
      replace (0x07 <? t) with false in He by lia. destruct up.
      * destruct (Z.leb_spec (2 ^ 32) (zlen payload)); [done|lia].
      * unfold MAX_FRAME_LEN in He. by destruct (Z.ltb_spec (2 ^ 24) (zlen payload)).
    + intros Hs Hu.
      destruct (read_inbound_frame_encoded t payload up max header st rest _ Ht Hmax He Hs
        ltac:(done) Hu) as (st' & H1 & H2 & _). by exists st'.
Qed.

Lemma rawsocket_frame_roundtrip_witness :
  ∃ st', read_inbound_frame 10 true
    (IoStream_plain [RBytes [1; 0]; RBytes [0; 0; 3; 7]; RBytes [8; 9; 42]] [] (inr true))
    = (SOk (Ping [7; 8; 9]), st') ∧ unread st' = [42].
Proof.
  refine (proj2 (rawsocket_frame_roundtrip 1 [7; 8; 9] true 10
    (IoStream_plain [RBytes [1; 0]; RBytes [0; 0; 3; 7]; RBytes [8; 9; 42]] [] (inr true)) [42]
    ltac:(lia) ltac:(vm_compute; discriminate)) _ _).
  - split; [unfold front_ok; vm_compute; split; discriminate|].
    simpl. right. split; [discriminate|]. right. split; [discriminate|].
    right. split; [discriminate|]. left. vm_compute. discriminate.
  - reflexivity.
Defined.

(** the reader enforces the negotiated limit before it allocates or reads a
    payload: a frame it returns carries at most the negotiated maximum (and at
    most [2^24] bytes on a standard connection), has one of the three types,
    and is exactly the header and payload octets consumed. *)
Theorem read_inbound_frame_bounded max up st f st' :
  front_ok st → bytes_ok (unread st) → read_inbound_frame max up st = (SOk f, st') →
  ∃ t payload header, f = frame_of t payload ∧ 0 ≤ t ≤ 2 ∧ zlen payload ≤ max
    ∧ (up = false → zlen payload ≤ 2 ^ 24)
    ∧ zlen header = (if up then 5 else 4)
    ∧ unread st = header ++ payload ++ unread st' ∧ written st' = written st.
Proof.
  intros Hok Hb H. unfold read_inbound_frame in H.
  apply op_bind_ok in H as ([t n] & st1 & H1 & H).
  apply read_frame_header_ok in H1 as (Ht & Hn & header & Hh & Hs1); [|done..].
  destruct (Z.ltb_spec max n); [done|].
  destruct (negb up && (MAX_FRAME_LEN <? n)) eqn:Hup; [done|].
  apply op_bind_ok in H as (payload & st2 & H2 & H).
  apply op_read_exact_ok in H2 as [Hz Hs2]; [|apply Hs1|lia].
  apply frame_dispatch_ok in H as (-> & ? & ->); [|done].
  pose proof (step_io_trans _ _ _ _ _ _ _ Hs1 Hs2) as (_ & Hu & Hw & _).
  exists t, payload, header. rewrite app_nil_r in Hw. rewrite <-(assoc_L (++)) in Hu.
  split_and!; try done; [lia|]. intros ->. unfold MAX_FRAME_LEN in *. simpl in Hup. lia.
Qed.

Lemma read_inbound_frame_bounded_witness :
  ∃ t payload header, Message [5] = frame_of t payload ∧ zlen (header : list Z) = 4.
Proof.
  destruct (read_inbound_frame_bounded 10 false
    (IoStream_plain [RBytes [0; 0; 0; 1; 5]] [] (inr true)) (Message [5])
    (IoStream_plain [] [] (inr true))) as (t & payload & header & H1 & _ & _ & _ & H2 & _).
  - unfold front_ok. vm_compute. split; discriminate.
  - unfold bytes_ok, u8_ok. vm_compute. repeat constructor; discriminate.
  - vm_compute. reflexivity.
  - exists t, payload, header. split; [exact H1|exact H2].
Defined.
