(* ===== verification/WsMask.v ===== *)
(** * WebSocket masking

    [xor_websocket_mask] of [ct_core/src/lib.rs] masks 16 octets at a time as
    one [u128] of the host's byte order, and the tail octet by octet.
    [mask_from] is the masking RFC 6455 defines. *)
From S2P Require Import Prelude Bytes.

(** The host's byte order; the code is the same on both. *)
Inductive endianness : Type := LittleEndian | BigEndian.

Definition u128_from_ne_bytes (e : endianness) (l : list Z) : Z :=
  match e with LittleEndian => be_value (rev l) | BigEndian => be_value l end.

Definition u128_to_ne_bytes (e : endianness) (v : Z) : list Z :=
  match e with LittleEndian => rev (be_bytes 16 v) | BigEndian => be_bytes 16 v end.

(** [mask[i & 3]] *)
Definition mask_at (mask : list Z) (i : Z) : Z := nth (Z.to_nat (Z.land i 3)) mask 0.

(** The [chunks_exact_mut(16)] loop and the remainder loop after it. *)
Fixpoint mask_chunks (fuel : nat) (e : endianness) (mask_word : Z) (mask : list Z)
    (mask_offset : Z) (payload : list Z) : list Z :=
  match fuel with
  | O => payload
  | S fuel =>
      if Nat.leb 16 (length payload) then
        let chunk := take 16 payload in
        let value := u128_from_ne_bytes e chunk in
        u128_to_ne_bytes e (Z.lxor value mask_word)
        ++ mask_chunks fuel e mask_word mask mask_offset (drop 16 payload)
      else imap (λ index byte, Z.lxor byte (mask_at mask (mask_offset + Z.of_nat index))) payload
  end.

Definition xor_websocket_mask (e : endianness) (payload mask : list Z) (offset : Z) : list Z :=
  let mask_offset := Z.land offset 3 in
  let mask_bytes := (λ index, mask_at mask (mask_offset + Z.of_nat index)) <$> seq 0 16 in
  let mask_word := u128_from_ne_bytes e mask_bytes in
  mask_chunks (S (length payload)) e mask_word mask mask_offset payload.

(** RFC 6455, section 5.3: octet [i] of the payload is xored with octet
    [i mod 4] of the mask. *)
Definition mask_from (mask : list Z) (offset : Z) (payload : list Z) : list Z :=
  imap (λ i b, Z.lxor b (nth (Z.to_nat ((offset + Z.of_nat i) mod 4)) mask 0)) payload.

(** ** Words and octets *)

Lemma lxor_octet a b : u8_ok a → u8_ok b → u8_ok (Z.lxor a b).
Proof.
  intros [Ha0 Ha] [Hb0 Hb]. split; [apply Z.lxor_nonneg; lia|].
  destruct (decide (Z.lxor a b = 0)) as [->|Hne]; [lia|].
  assert (0 < Z.lxor a b) by (pose proof (proj2 (Z.lxor_nonneg a b) ltac:(lia)); lia).
  apply (Z.log2_lt_cancel _ 256).
  pose proof (Z.log2_lxor a b Ha0 Hb0). change (Z.log2 256) with 8.
  assert (∀ x, 0 ≤ x < 256 → Z.log2 x < 8) as Hlog.
  { intros x Hx. destruct (decide (x = 0)) as [->|]; [done|]. apply Z.log2_lt_pow2; lia. }
  pose proof (Hlog a ltac:(lia)). pose proof (Hlog b ltac:(lia)). lia.
Qed.

Lemma be_bytes_digit n v :
  be_bytes (S n) v = Z.land (Z.shiftr v (8 * Z.of_nat n)) (Z.ones 8) :: be_bytes n v.
Proof.
  cbn [be_bytes]. f_equal. rewrite Z.land_ones, Z.shiftr_div_pow2 by lia.
  by rewrite Z.pow_mul_r by lia.
Qed.

Lemma land_lxor_l a b c : Z.land (Z.lxor a b) c = Z.lxor (Z.land a c) (Z.land b c).
Proof.
  apply Z.bits_inj'. intros n _. rewrite !Z.land_spec, !Z.lxor_spec, !Z.land_spec.
  by destruct (Z.testbit a n), (Z.testbit b n), (Z.testbit c n).
Qed.

Lemma be_bytes_lxor n v w :
  be_bytes n (Z.lxor v w) = zip_with Z.lxor (be_bytes n v) (be_bytes n w).
Proof.
  induction n as [|n IH]; [done|]. rewrite !be_bytes_digit. cbn [zip_with]. rewrite IH.
  f_equal. by rewrite Z.shiftr_lxor, land_lxor_l.
Qed.

Lemma be_bytes_value l : bytes_ok l → be_bytes (length l) (be_value l) = l.
Proof.
  induction l as [|b l IH]; intros Hl; [done|].
  apply Forall_cons in Hl as [Hb Hl]. change (b :: l) with ([b] ++ l).
  rewrite be_value_app. change (be_value [b]) with b. cbn [app length be_bytes].
  pose proof (be_value_bound l Hl) as Hv. change (Z.of_nat (length l)) with (zlen l).
  assert (0 < 256 ^ zlen l) by lia.
  f_equal.
  - rewrite Z.div_add_l, (Z.div_small (be_value l)) by lia. rewrite Z.add_0_r.
    by apply Z.mod_small.
  - transitivity (be_bytes (length l) (be_value l)); [|by apply IH]. unfold zlen.
    assert (∀ n m v, (n ≤ m)%nat → be_bytes n (b * 256 ^ Z.of_nat m + v) = be_bytes n v) as Hk.
    { induction n as [|n IHn]; intros m v Hnm; [done|]. cbn [be_bytes].
      rewrite IHn by lia. f_equal.
      replace (256 ^ Z.of_nat m) with (256 ^ Z.of_nat (m - S n) * 256 * 256 ^ Z.of_nat n)
        by (rewrite <-(Z.pow_1_r 256) at 2; rewrite <-!Z.pow_add_r by lia; f_equal; lia).
      rewrite !Z.mul_assoc, Z.div_add_l by (apply Z.pow_nonzero; lia).
      by rewrite Z.add_comm, Z_mod_plus_full. }
    by apply Hk.
Qed.

Lemma be_value_lxor a b : length a = length b → bytes_ok a → bytes_ok b →
  be_bytes (length a) (Z.lxor (be_value a) (be_value b)) = zip_with Z.lxor a b.
Proof.
  intros Hlen Ha Hb. rewrite be_bytes_lxor. rewrite (be_bytes_value a) by done.
  by rewrite Hlen, be_bytes_value.
Qed.

Lemma zip_with_rev {A B C} (f : A → B → C) l k : length l = length k →
  zip_with f (rev l) (rev k) = rev (zip_with f l k).
Proof.
  revert k. induction l as [|x l IH]; intros [|y k] Hlen; try done. simpl in *.
  rewrite zip_with_app by (rewrite !length_rev; lia). rewrite IH by lia. done.
Qed.

(** The word xor is the octet-wise xor, in either byte order. *)
Lemma u128_xor e a b : length a = 16%nat → length b = 16%nat → bytes_ok a → bytes_ok b →
  u128_to_ne_bytes e (Z.lxor (u128_from_ne_bytes e a) (u128_from_ne_bytes e b))
  = zip_with Z.lxor a b.
Proof.
  intros Ha Hb Hao Hbo. unfold u128_to_ne_bytes, u128_from_ne_bytes. destruct e.
  - assert (be_bytes 16 (Z.lxor (be_value (rev a)) (be_value (rev b)))
      = zip_with Z.lxor (rev a) (rev b)) as ->.
    { rewrite <-Ha, <-(length_rev a).
      apply be_value_lxor; [by rewrite !length_rev, Ha, Hb|by apply Forall_rev..]. }
    rewrite <-zip_with_rev by (by rewrite !length_rev, Ha, Hb). by rewrite !rev_involutive.
  - rewrite <-Ha. apply be_value_lxor; [by rewrite Ha, Hb|done..].
Qed.

(** ** Masking position by position *)

Lemma mask_at_mod mask i : mask_at mask i = nth (Z.to_nat (i mod 4)) mask 0.
Proof. unfold mask_at. change 3 with (Z.ones 2). by rewrite Z.land_ones by lia. Qed.

Lemma mask_at_land mask offset i : 
  mask_at mask (Z.land offset 3 + i) = nth (Z.to_nat ((offset + i) mod 4)) mask 0.
Proof.
  rewrite mask_at_mod. change 3 with (Z.ones 2). rewrite Z.land_ones by lia.
  change (2 ^ 2) with 4. by rewrite Z.add_mod_idemp_l by lia.
Qed.

Lemma mask_from_app mask offset a b :
  mask_from mask offset (a ++ b) = mask_from mask offset a ++ mask_from mask (offset + zlen a) b.
Proof.
  unfold mask_from. rewrite imap_app. f_equal. apply imap_ext. intros i x _. simpl.
  do 3 f_equal. unfold zlen. f_equal. lia.
Qed.

Lemma mask_from_shift mask offset payload : 
  mask_from mask (offset + 16) payload = mask_from mask offset payload.
Proof.
  unfold mask_from. apply imap_ext. intros i x _. simpl. do 3 f_equal.
  replace (offset + 16 + Z.of_nat i) with (offset + Z.of_nat i + 4 * 4) by lia.
  apply Z_mod_plus_full.
Qed.

Lemma length_mask_from mask offset payload :
  length (mask_from mask offset payload) = length payload.
Proof. apply length_imap. Qed.

Lemma mask_chunk_octets mask offset chunk : length chunk = 16%nat →
  zip_with Z.lxor chunk
    ((λ index, mask_at mask (Z.land offset 3 + Z.of_nat index)) <$> seq 0 16)
  = mask_from mask offset chunk.
Proof.
  intros Hlen. apply list_eq. intros i. unfold mask_from.
  rewrite lookup_zip_with, list_lookup_imap, list_lookup_fmap.
  destruct (decide (i < 16)%nat).
  - rewrite lookup_seq_lt by lia. destruct (chunk !! i); [|done]. simpl.
    by rewrite mask_at_land.
  - rewrite (lookup_ge_None_2 chunk) by lia. done.
Qed.

Lemma mask_chunks_spec fuel e mask offset payload :
  bytes_ok payload → bytes_ok mask → (length payload < fuel)%nat →
  mask_chunks fuel e
    (u128_from_ne_bytes e ((λ index, mask_at mask (Z.land offset 3 + Z.of_nat index)) <$> seq 0 16))
    mask (Z.land offset 3) payload
  = mask_from mask offset payload.
Proof.
  intros Hp Hm. revert payload Hp. induction fuel as [|fuel IH]; intros payload Hp Hf; [lia|].
  cbn [mask_chunks]. destruct (Nat.leb_spec 16 (length payload)) as [Hle|].
  - cbv zeta. rewrite u128_xor.
    + rewrite mask_chunk_octets by (rewrite length_take; lia).
      rewrite IH; [|by apply Forall_drop|rewrite length_drop; lia].
      rewrite <-(take_drop 16 payload) at 3. rewrite mask_from_app.
      f_equal. replace (zlen (take 16 payload)) with 16
        by (unfold zlen; rewrite length_take; lia).
      by rewrite mask_from_shift.
    + rewrite length_take. lia.
    + done.
    + by apply Forall_take.
    + apply Forall_fmap, Forall_forall. intros i _. simpl. unfold mask_at.
      destruct (nth_in_or_default (Z.to_nat (Z.land (Z.land offset 3 + Z.of_nat i) 3)) mask 0)
        as [Hin| ->]; [|unfold u8_ok; lia].
      apply list_elem_of_In in Hin. by eapply Forall_forall in Hin.
  - apply imap_ext. intros i x _. simpl. by rewrite mask_at_land.
Qed.

Lemma xor_websocket_mask_spec e payload mask offset : bytes_ok payload → bytes_ok mask →
  xor_websocket_mask e payload mask offset = mask_from mask offset payload.
Proof. intros. apply mask_chunks_spec; [done..|lia]. Qed.

Lemma mask_from_involutive mask offset payload :
  mask_from mask offset (mask_from mask offset payload) = payload.
Proof.
  unfold mask_from. apply list_eq. intros i. rewrite !list_lookup_imap.
  destruct (payload !! i); [|done]. simpl. by rewrite Z.lxor_assoc, Z.lxor_nilpotent, Z.lxor_0_r.
Qed.

Lemma mask_from_ok mask offset payload : bytes_ok payload → bytes_ok mask →
  bytes_ok (mask_from mask offset payload).
Proof.
  intros Hp Hm. unfold mask_from. apply Forall_lookup_2. intros i x Hx.
  rewrite list_lookup_imap in Hx. apply fmap_Some in Hx as (b & Hb & ->).
  apply lxor_octet; [exact (Forall_lookup_1 _ _ _ _ Hp Hb)|].
  destruct (nth_in_or_default (Z.to_nat ((offset + Z.of_nat i) mod 4)) mask 0)
    as [Hin| ->]; [|unfold u8_ok; lia].
  apply list_elem_of_In in Hin. by eapply Forall_forall in Hin.
Qed.

(** ** Properties *)

(** the vectorised masking is the masking of RFC 6455.  On hosts of either
    byte order it xors each octet with the mask octet of its position, starting
    at any offset; masking again restores the payload; and masking a payload in
    pieces, each at its running offset, masks the whole. *)
Theorem xor_websocket_mask_exact e payload mask offset :
  bytes_ok payload → bytes_ok mask →
  xor_websocket_mask e payload mask offset = mask_from mask offset payload
  ∧ xor_websocket_mask e (xor_websocket_mask e payload mask offset) mask offset = payload
  ∧ ∀ a b, payload = a ++ b →
      xor_websocket_mask e payload mask offset
      = xor_websocket_mask e a mask offset ++ xor_websocket_mask e b mask (offset + zlen a).
Proof.
  intros Hp Hm. rewrite (xor_websocket_mask_spec e payload) by done. split_and!; [done|..].
  - rewrite xor_websocket_mask_spec by (done || by apply mask_from_ok).
    apply mask_from_involutive.
  - intros a b ->. apply Forall_app in Hp as [Ha Hb].
    rewrite !xor_websocket_mask_spec by done. apply mask_from_app.
Qed.

Lemma xor_websocket_mask_exact_witness :
  xor_websocket_mask LittleEndian
    [72; 101; 108; 108; 111; 32; 87; 101; 98; 83; 111; 99; 107; 101; 116; 32; 33] [1; 2; 3; 4] 5
  = mask_from [1; 2; 3; 4] 5
      [72; 101; 108; 108; 111; 32; 87; 101; 98; 83; 111; 99; 107; 101; 116; 32; 33].
Proof.
  apply (xor_websocket_mask_exact LittleEndian
    [72; 101; 108; 108; 111; 32; 87; 101; 98; 83; 111; 99; 107; 101; 116; 32; 33] [1; 2; 3; 4] 5);
    unfold bytes_ok, u8_ok; repeat constructor; lia.
Defined.
