(* ===== verification/WsFrame.v ===== *)
(** * WebSocket frames

    The frame reader and writers of [ct_core/src/lib.rs]: header parsing and
    encoding, masking, close payloads, and the ways a frame reaches the socket
    (vectored, coalesced, masked in chunks). *)
From S2P Require Import Prelude Bytes Text IoStream WsMask WireWriter.

Definition MAX_WEBSOCKET_MESSAGE_LEN : Z := 2 ^ 24.
Definition WEBSOCKET_MASK_CHUNK_SIZE : Z := 1024 * 1024.
Definition WEBSOCKET_COALESCE_FRAME_SIZE : Z := 64 * 1024.

Inductive WebSocketFrame : Type :=
  | Data (opcode : Z) (fin : bool) (payload : list Z)
  | WsPing (payload : list Z)
  | WsPong (payload : list Z)
  | Close (code : option Z) (reason : str).

(** [WebSocketFrameError]; an I/O error's text is its kind. *)
Record WebSocketFrameError : Type := mkWebSocketFrameError {
  err_message : string;
  close_code : option Z;
  io_kind : option io_error;
}.

Definition ws_io (e : io_error) : WebSocketFrameError :=
  mkWebSocketFrameError "io error" None (Some e).
Definition ws_protocol (message : string) : WebSocketFrameError :=
  mkWebSocketFrameError message (Some 1002) None.
Definition ws_invalid_payload (message : string) : WebSocketFrameError :=
  mkWebSocketFrameError message (Some 1007) None.
Definition ws_message_too_big (message : string) : WebSocketFrameError :=
  mkWebSocketFrameError message (Some 1009) None.

Definition is_peer_disconnect (e : WebSocketFrameError) : bool :=
  match io_kind e with
  | Some (UnexpectedEof | BrokenPipe | ConnectionReset | ConnectionAborted) => true
  | _ => false
  end.

(** ** Close payloads *)
Definition parse_websocket_close_frame_payload (payload : list Z) :
    WebSocketFrameError + (option Z * str) :=
  match payload with
  | [] => inr (None, [])
  | [_] => inl (ws_protocol "websocket close frame payload must be empty or include a 2-byte status code")
  | b0 :: b1 :: rest =>
      let code := be_value [b0; b1] in
      match utf8_decode rest with
      | None => inl (ws_invalid_payload "websocket close reason must be valid UTF-8")
      | Some reason => inr (Some code, reason)
      end
  end.

Definition encode_websocket_close_payload (code : option Z) (reason : str) : list Z :=
  match code with
  | None => []
  | Some code =>
      let payload := be_bytes 2 code in
      let reason_bytes := utf8_encode reason in
      let remaining := Z.max 0 (125 - zlen payload) in
      payload ++ take (Z.to_nat (Z.min (zlen reason_bytes) remaining)) reason_bytes
  end.

(** ** Reading *)
Definition hd_byte (l : list Z) (i : nat) : Z := nth i l 0.

(** The extended length octets of a header. *)
Definition read_ws_length (length_code : Z) : stream_op WebSocketFrameError Z :=
  if length_code =? 126 then
    extended ← op_read_exact ws_io 2; mret (be_value extended)
  else if length_code =? 127 then
    extended ← op_read_exact ws_io 8; mret (be_value extended)
  else mret length_code.

Definition ws_from_result {A} (r : WebSocketFrameError + A) : stream_op WebSocketFrameError A :=
  match r with inl e => op_fail e | inr a => mret a end.

Definition read_websocket_frame_mode (e : endianness) (expect_masked : bool) :
    stream_op WebSocketFrameError WebSocketFrame :=
  header ← op_read_exact ws_io 2;
  if negb (Z.land (hd_byte header 0) 0x70 =? 0)
  then op_fail (ws_protocol "websocket reserved bits must be zero")
  else
    let fin := negb (Z.land (hd_byte header 0) 0x80 =? 0) in
    let opcode := Z.land (hd_byte header 0) 0x0F in
    let masked := negb (Z.land (hd_byte header 1) 0x80 =? 0) in
    if negb (Bool.eqb masked expect_masked)
    then op_fail (ws_protocol (if expect_masked
                               then "client websocket frames must be masked"
                               else "server websocket frames must not be masked"))
    else
      let is_control_frame := negb (Z.land opcode 0x08 =? 0) in
      if is_control_frame && negb fin
      then op_fail (ws_protocol "websocket control frames must not be fragmented")
      else
        len ← read_ws_length (Z.land (hd_byte header 1) 0x7F);
        if is_control_frame && (125 <? len)
        then op_fail (ws_protocol "websocket control frames must not exceed 125 bytes")
        else if MAX_WEBSOCKET_MESSAGE_LEN <? len
        then op_fail (ws_message_too_big "websocket frame exceeds supported length")
        else
          mask ← (if masked then op_read_exact ws_io 4 else mret [0; 0; 0; 0]);
          payload ← (if 0 <? len then
                       raw ← op_read_exact ws_io len;
                       mret (if masked then xor_websocket_mask e raw mask 0 else raw)
                     else mret []);
          if (opcode =? 0x0) || (opcode =? 0x1) || (opcode =? 0x2)
          then mret (Data opcode fin payload)
          else if opcode =? 0x8 then
            '(code, reason) ← ws_from_result (parse_websocket_close_frame_payload payload);
            mret (Close code reason)
          else if opcode =? 0x9 then mret (WsPing payload)
          else if opcode =? 0xA then mret (WsPong payload)
          else op_fail (ws_protocol "unsupported websocket opcode").

Definition websocket_buffer_contains_complete_frame (buffer : list Z) : bool :=
  if zlen buffer <? 2 then false
  else
    let length_code := Z.land (hd_byte buffer 1) 0x7f in
    let extended_length :=
      if length_code =? 126 then 2 else if length_code =? 127 then 8 else 0 in
    let header_length :=
      2 + extended_length + (if negb (Z.land (hd_byte buffer 1) 0x80 =? 0) then 4 else 0) in
    if zlen buffer <? header_length then false
    else
      let payload_length :=
        if length_code =? 126 then be_value (sub_bytes buffer 2 4)
        else if length_code =? 127 then be_value (sub_bytes buffer 2 10)
        else length_code in
      payload_length <=? zlen buffer - header_length.

(** ** Writing

    A frame reaches the writer's socket in the monad [wr]. *)

(** The header bytes without the mask; [mask_payload] sets the mask bit. *)
Definition ws_header_bytes (opcode : Z) (fin : bool) (payload_len : Z) (mask_payload : bool) :
    list Z :=
  let bit := if mask_payload then 0x80 else 0 in
  Z.lor (if fin then 0x80 else 0x00) (Z.land opcode 0x0F) ::
  (if payload_len <? 126 then [Z.lor payload_len bit]
   else if payload_len <=? 0xFFFF then Z.lor 126 bit :: be_bytes 2 payload_len
   else Z.lor 127 bit :: be_bytes 8 payload_len).

Definition websocket_frame_header (opcode : Z) (fin : bool) (payload_len : Z)
    (mask_payload : bool) : wr (list Z * option (list Z)) :=
  let header := ws_header_bytes opcode fin payload_len mask_payload in
  if mask_payload then mask ← random_mask; mret (header ++ mask, Some mask)
  else mret (header, None).

(** [v\[..new.len()\].copy_from_slice(new)] after growing [v] to fit. *)
Definition overlay (v new : list Z) : list Z := new ++ drop (length new) v.

(** The vectored loop of [write_unmasked_websocket_frame]. *)
Fixpoint write_vectored_loop (fuel : nat) (header payload : list Z)
    (header_offset payload_offset : Z) : wr unit :=
  if negb ((header_offset <? zlen header) || (payload_offset <? zlen payload)) then mret ()
  else match fuel with
  | O => wr_fail OtherIo
  | S fuel =>
      written ← wr_write_vectored
        (sub_bytes header header_offset (zlen header)
         ++ sub_bytes payload payload_offset (zlen payload));
      if written =? 0 then wr_fail WriteZero
      else
        let header_remaining := zlen header - header_offset in
        if written <? header_remaining
        then write_vectored_loop fuel header payload (header_offset + written) payload_offset
        else write_vectored_loop fuel header payload (zlen header)
               (payload_offset + (written - header_remaining))
  end.

Definition write_unmasked_websocket_frame (header payload : list Z) : wr unit :=
  match payload with
  | [] => wr_write_all header
  | _ =>
      vectored ← is_write_vectored;
      if (vectored : bool)
      then write_vectored_loop (length header + length payload) header payload 0 0
      else if zlen payload <=? WEBSOCKET_COALESCE_FRAME_SIZE then
        scratch ← get_scratch;
        let scratch := overlay scratch (header ++ payload) in
        _ ← put_scratch scratch;
        wr_write_all (take (length header + length payload) scratch)
      else
        _ ← wr_write_all header;
        wr_write_all payload
  end.

(** The chunk loop shared by [write_masked_websocket_frame] and
    [write_websocket_payload]: returns the running offset. *)
Fixpoint write_masked_chunks (fuel : nat) (e : endianness) (mask remaining : list Z)
    (payload_offset : Z) {struct fuel} : wr Z :=
  match remaining with
  | [] => mret payload_offset
  | _ :: _ =>
      match fuel with
      | O => wr_fail OtherIo
      | S fuel =>
          let chunk_len := Z.min (zlen remaining) WEBSOCKET_MASK_CHUNK_SIZE in
          let chunk := take (Z.to_nat chunk_len) remaining in
          scratch ← get_scratch;
          let scratch := overlay scratch (xor_websocket_mask e chunk mask payload_offset) in
          _ ← put_scratch scratch;
          _ ← wr_write_all (take (Z.to_nat chunk_len) scratch);
          write_masked_chunks fuel e mask (drop (Z.to_nat chunk_len) remaining)
            (payload_offset + chunk_len)
      end
  end.

Definition write_masked_websocket_frame (e : endianness) (header payload mask : list Z) :
    wr unit :=
  match payload with
  | [] => wr_write_all header
  | _ =>
      let first_chunk_len := Z.min (zlen payload) WEBSOCKET_MASK_CHUNK_SIZE in
      let first_chunk := take (Z.to_nat first_chunk_len) payload in
      scratch ← get_scratch;
      let scratch := overlay scratch (header ++ xor_websocket_mask e first_chunk mask 0) in
      _ ← put_scratch scratch;
      _ ← wr_write_all (take (length header + Z.to_nat first_chunk_len) scratch);
      _ ← write_masked_chunks (length payload) e mask
            (drop (Z.to_nat first_chunk_len) payload) first_chunk_len;
      mret ()
  end.

Definition write_websocket_frame_fragment_mode (e : endianness) (opcode : Z) (fin : bool)
    (payload_len : Z) (payload : list Z) (mask_payload : bool) : wr unit :=
  '(header, mask) ← websocket_frame_header opcode fin payload_len mask_payload;
  match mask with
  | Some mask => write_masked_websocket_frame e header payload mask
  | None => write_unmasked_websocket_frame header payload
  end.

(** [write_websocket_payload]: the running offset after the payload. *)
Definition write_websocket_payload (e : endianness) (payload : list Z)
    (mask : option (list Z)) (payload_offset : Z) : wr Z :=
  match mask with
  | None =>
      match payload with
      | [] => mret payload_offset
      | _ => _ ← wr_write_all payload; mret (payload_offset + zlen payload)
      end
  | Some mask => write_masked_chunks (length payload) e mask payload payload_offset
  end.

Definition flush_websocket_frame_batch : wr unit :=
  scratch ← get_scratch;
  match scratch with
  | [] => mret ()
  | _ => _ ← wr_write_all scratch; put_scratch []
  end.

Definition non_empty (segment : list Z) : bool := match segment with [] => false | _ => true end.

(** The loop of [write_websocket_continuation_frames]; [last_index] is the index
    of the last non-empty segment. *)
Fixpoint write_continuations (e : endianness) (opcode : Z) (segments : list (list Z))
    (mask_payload : bool) (index last_index : nat) (sent_first : bool) : wr unit :=
  match segments with
  | [] => mret ()
  | segment :: rest =>
      if negb (non_empty segment)
      then write_continuations e opcode rest mask_payload (S index) last_index sent_first
      else
        let frame_opcode := if sent_first then 0x0 else opcode in
        let fin := Nat.eqb index last_index in
        '(header, mask) ← websocket_frame_header frame_opcode fin (zlen segment) mask_payload;
        let frame_len := zlen header + zlen segment in
        _ ← (if WEBSOCKET_COALESCE_FRAME_SIZE <? frame_len then
               _ ← flush_websocket_frame_batch;
               _ ← write_websocket_frame_fragment_mode e frame_opcode fin (zlen segment)
                     segment mask_payload;
               put_scratch []
             else
               scratch ← get_scratch;
               _ ← (if WEBSOCKET_COALESCE_FRAME_SIZE <? zlen scratch + frame_len
                    then flush_websocket_frame_batch else mret ());
               scratch ← get_scratch;
               put_scratch (scratch ++ header ++
                 match mask with
                 | Some mask => xor_websocket_mask e segment mask 0
                 | None => segment
                 end));
        write_continuations e opcode rest mask_payload (S index) last_index true
  end.

(** The index of the last non-empty segment. *)
Fixpoint last_non_empty (segments : list (list Z)) (index : nat) : option nat :=
  match segments with
  | [] => None
  | segment :: rest =>
      match last_non_empty rest (S index) with
      | Some i => Some i
      | None => if non_empty segment then Some index else None
      end
  end.

Definition first_non_empty (segments : list (list Z)) : list Z :=
  default [] (head (List.filter non_empty segments)).

Definition write_websocket_continuation_frames (e : endianness) (opcode : Z)
    (segments : list (list Z)) (mask_payload : bool) : wr unit :=
  if Nat.leb (length (List.filter non_empty segments)) 1 then
    let payload := first_non_empty segments in
    write_websocket_frame_fragment_mode e opcode true (zlen payload) payload mask_payload
  else
    match last_non_empty segments 0 with
    | None => wr_fail OtherIo
    | Some last_index =>
        _ ← put_scratch [];
        _ ← write_continuations e opcode segments mask_payload 0 last_index false;
        flush_websocket_frame_batch
    end.

Definition write_websocket_frame_mode (e : endianness) (opcode payload_len : Z)
    (segments suffix_segments : list (list Z)) (mask_payload : bool) : wr unit :=
  let segments := segments ++ suffix_segments in
  let is_data_frame := (opcode =? 0x1) || (opcode =? 0x2) in
  if is_data_frame && Nat.ltb 1 (length (List.filter non_empty segments))
  then write_websocket_continuation_frames e opcode segments mask_payload
  else
    let payload := first_non_empty segments in
    write_websocket_frame_fragment_mode e opcode true (Z.min payload_len (zlen payload))
      payload mask_payload.

(** ** Header octets *)

Lemma header_first_octet op (fin : bool) : 0 ≤ op < 16 →
  let b := Z.lor (if fin then 0x80 else 0x00) (Z.land op 0x0F) in
  Z.land b 0x70 = 0 ∧ Z.land b 0x80 = (if fin then 0x80 else 0) ∧ Z.land b 0x0F = op ∧ u8_ok b.
Proof.
  intros Hop. assert (op ∈ zrange 0 16) as Hin by (apply elem_of_zrange; lia).
  unfold zrange in Hin. simpl in Hin.
  repeat (apply elem_of_cons in Hin as [->|Hin]); [..|by apply elem_of_nil in Hin];
    destruct fin; vm_compute; done.
Qed.

Lemma header_second_octet l (m : bool) : 0 ≤ l < 128 →
  let b := Z.lor l (if m then 0x80 else 0) in
  Z.land b 0x80 = (if m then 0x80 else 0) ∧ Z.land b 0x7F = l ∧ u8_ok b.
Proof.
  intros Hl.
  assert (forallb (λ l, forallb (λ m : bool,
    let b := Z.lor l (if m then 0x80 else 0) in
    (Z.land b 0x80 =? (if m then 0x80 else 0)) && (Z.land b 0x7F =? l)
    && (0 <=? b) && (b <? 256)) [true; false]) (zrange 0 128) = true) as H
    by (vm_compute; reflexivity).
  apply (forallb_elem _ _ l) in H; [|apply elem_of_zrange; lia].
  apply (forallb_elem _ _ m) in H; [|destruct m; repeat constructor].
  cbv zeta in *. unfold u8_ok.
  repeat (apply andb_true_iff in H as [H ?]). destruct m; lia.
Qed.

(** The extended length octets [ext] of length code [code] give [n]. *)
Definition length_octets (code n : Z) (ext : list Z) : Prop :=
  if code =? 126 then zlen ext = 2 ∧ be_value ext = n
  else if code =? 127 then zlen ext = 8 ∧ be_value ext = n
  else ext = [] ∧ code = n.

Lemma ws_header_split op fin n m : 0 ≤ n < 2 ^ 64 →
  ∃ code ext, ws_header_bytes op fin n m
    = Z.lor (if fin then 0x80 else 0x00) (Z.land op 0x0F)
      :: Z.lor code (if m then 0x80 else 0) :: ext
    ∧ 0 ≤ code < 128 ∧ length_octets code n ext ∧ bytes_ok ext.
Proof.
  intros Hn. unfold ws_header_bytes, length_octets. cbv zeta.
  destruct (Z.ltb_spec n 126); [|destruct (Z.leb_spec n 0xFFFF)].
  - exists n, []. rewrite (proj2 (Z.eqb_neq n 126)), (proj2 (Z.eqb_neq n 127)) by lia.
    split_and!; try done; [lia|lia|constructor].
  - exists 126, (be_bytes 2 n). split_and!; try done; [|apply be_bytes_ok].
    split; [done|]. apply be_value_bytes_small. simpl. lia.
  - exists 127, (be_bytes 8 n). split_and!; try done; [|apply be_bytes_ok].
    split; [done|]. apply be_value_bytes_small. simpl. lia.
Qed.

Lemma ws_header_ok op fin n m : 0 ≤ n < 2 ^ 64 → 0 ≤ op < 16 →
  bytes_ok (ws_header_bytes op fin n m).
Proof.
  intros Hn Hop.
  destruct (ws_header_split op fin n m Hn) as (c & ext & -> & Hc & _ & He).
  destruct (header_first_octet op fin Hop) as (_ & _ & _ & ?).
  destruct (header_second_octet c m Hc) as (_ & _ & ?).
  by repeat apply Forall_cons_2.
Qed.

(** ** A frame on the wire *)
Definition mask_ok (mask : option (list Z)) : Prop :=
  match mask with Some m => bytes_ok m ∧ zlen m = 4 | None => True end.

(** The octets of one frame: header, mask if there is one, (masked) payload. *)
Definition frame_bytes (opcode : Z) (fin : bool) (payload : list Z) (mask : option (list Z)) :
    list Z :=
  ws_header_bytes opcode fin (zlen payload) (match mask with Some _ => true | None => false end)
  ++ match mask with Some m => m ++ mask_from m 0 payload | None => payload end.

(** The frame a reader should make of an opcode and payload. *)
Definition frame_meaning (opcode : Z) (fin : bool) (payload : list Z) :
    sres WebSocketFrameError WebSocketFrame :=
  if (opcode =? 0x0) || (opcode =? 0x1) || (opcode =? 0x2) then SOk (Data opcode fin payload)
  else if opcode =? 0x8 then
    match parse_websocket_close_frame_payload payload with
    | inr (code, reason) => SOk (Close code reason)
    | inl e => SErr e
    end
  else if opcode =? 0x9 then SOk (WsPing payload)
  else if opcode =? 0xA then SOk (WsPong payload)
  else SErr (ws_protocol "unsupported websocket opcode").

Lemma read_ws_length_spec code ext n st rest m :
  length_octets code n ext → stream_flows st m → zlen ext ≤ m → unread st = ext ++ rest →
  ∃ st', read_ws_length code st = (SOk n, st') ∧ unread st' = rest
    ∧ stream_flows st' (m - zlen ext).
Proof.
  unfold length_octets. intros He Hs Hm Hu. unfold read_ws_length.
  destruct (op_read_exact_prefix ws_io st ext rest m Hs Hm Hu) as (st' & Hr & ? & ?).
  destruct (code =? 126); [|destruct (code =? 127)].
  - destruct He as [Hz <-]. rewrite Hz in Hr. exists st'. by rewrite (op_bind_run _ _ _ _ _ Hr).
  - destruct He as [Hz <-]. rewrite Hz in Hr. exists st'. by rewrite (op_bind_run _ _ _ _ _ Hr).
  - destruct He as [-> ->]. exists st. simpl in Hu. by rewrite zlen_nil, Z.sub_0_r.
Qed.

(** The mask and payload of a frame are read back. *)
Lemma read_ws_body {A} e (k : list Z → stream_op WebSocketFrameError A) payload mask st rest m :
  bytes_ok payload → mask_ok mask → stream_flows st m →
  let body := match mask with Some m => m ++ mask_from m 0 payload | None => payload end in
  let masked := match mask with Some _ => true | None => false end in
  zlen body ≤ m → unread st = body ++ rest →
  ∃ st', (mask ← (if masked then op_read_exact ws_io 4 else mret [0; 0; 0; 0]);
          payload ← (if 0 <? zlen payload then
                       raw ← op_read_exact ws_io (zlen payload);
                       mret (if masked then xor_websocket_mask e raw mask 0 else raw)
                     else mret []);
          k payload) st = k payload st'
    ∧ unread st' = rest ∧ stream_flows st' (m - zlen body).
Proof.
  intros Hpay Hmask Hs body masked Hm Hu. destruct mask as [mk|]; subst body masked.
  - destruct Hmask as [Hmo Hm4]. rewrite zlen_app in Hm. rewrite <-(assoc_L (++)) in Hu.
    assert (zlen (mask_from mk 0 payload) = zlen payload) as Hz
      by (unfold zlen; by rewrite length_mask_from).
    pose proof (zlen_nonneg payload).
    destruct (op_read_exact_prefix ws_io st mk (mask_from mk 0 payload ++ rest) m)
      as (st1 & Hr1 & Hu1 & Hs1); [done|lia|done|].
    rewrite Hm4 in Hr1. rewrite (op_bind_run _ _ _ _ _ Hr1).
    destruct (Z.ltb_spec 0 (zlen payload)).
    + destruct (op_read_exact_prefix ws_io st1 (mask_from mk 0 payload) rest (m - zlen mk))
        as (st2 & Hr2 & Hu2 & Hs2); [done|lia|done|].
      exists st2. rewrite Hz in Hr2. erewrite op_bind_run;
        [|rewrite (op_bind_run _ _ _ _ _ Hr2); reflexivity].
      rewrite xor_websocket_mask_spec, mask_from_involutive
        by (done || by apply mask_from_ok).
      split_and!; [done|done|]. rewrite zlen_app. by rewrite Z.sub_add_distr.
    + exists st1. assert (payload = []) as -> by (apply zlen_0_nil; lia).
      simpl in Hu1. split_and!; [done|done|]. by rewrite app_nil_r.
  - destruct (Z.ltb_spec 0 (zlen payload)).
    + destruct (op_read_exact_prefix ws_io st payload rest m) as (st2 & Hr2 & Hu2 & Hs2);
        [done|lia|done|].
      exists st2. erewrite op_bind_run; [|reflexivity].
      erewrite op_bind_run; [|rewrite (op_bind_run _ _ _ _ _ Hr2); reflexivity]. done.
    + exists st. assert (payload = []) as -> by (apply zlen_0_nil; zlia).
      simpl in Hu. split_and!; [done|done|]. by rewrite zlen_nil, Z.sub_0_r.
Qed.

(** A frame's octets are read back as the frame, however they arrive. *)
Lemma read_frame_bytes e op fin payload mask st rest m :
  0 ≤ op < 16 → bytes_ok payload → mask_ok mask → zlen payload ≤ MAX_WEBSOCKET_MESSAGE_LEN →
  (Z.land op 8 ≠ 0 → fin = true ∧ zlen payload ≤ 125) →
  stream_flows st m → zlen (frame_bytes op fin payload mask) ≤ m →
  unread st = frame_bytes op fin payload mask ++ rest →
  ∃ st', read_websocket_frame_mode e (match mask with Some _ => true | None => false end) st
         = (frame_meaning op fin payload, st')
    ∧ unread st' = rest ∧ stream_flows st' (m - zlen (frame_bytes op fin payload mask)).
Proof.
  intros Hop Hpay Hmask Hmax Hctl Hs Hm Hu. unfold frame_bytes in *.
  set (masked := match mask with Some _ => true | None => false end) in *.
  pose proof (zlen_nonneg payload) as Hn. unfold MAX_WEBSOCKET_MESSAGE_LEN in Hmax.
  destruct (ws_header_split op fin (zlen payload) masked ltac:(lia))
    as (code & ext & Hh & Hcode & Hext & _).
  rewrite Hh in *. destruct (header_first_octet op fin Hop) as (H70 & H80 & H0F & _).
  destruct (header_second_octet code masked Hcode) as (Hm80 & Hm7F & _).
  set (b0 := Z.lor (if fin then 0x80 else 0x00) (Z.land op 0x0F)) in *.
  set (b1 := Z.lor code (if masked then 0x80 else 0)) in *.
  set (body := match mask with Some m => m ++ mask_from m 0 payload | None => payload end) in *.
  change ((b0 :: b1 :: ext) ++ body) with ([b0; b1] ++ ext ++ body) in *.
  rewrite !zlen_app in *. change (zlen [b0; b1]) with 2 in *.
  pose proof (zlen_nonneg ext). pose proof (zlen_nonneg body).
  destruct (op_read_exact_prefix ws_io st [b0; b1] (ext ++ body ++ rest) m)
    as (st1 & Hr1 & Hu1 & Hs1); [done|change (zlen [b0; b1]) with 2; lia|
      by rewrite Hu, <-!(assoc_L (++))|].
  change (zlen [b0; b1]) with 2 in *.
  destruct (read_ws_length_spec code ext (zlen payload) st1 (body ++ rest) (m - 2))
    as (st2 & Hr2 & Hu2 & Hs2); [done|done|lia|done|].
  unfold read_websocket_frame_mode. rewrite (op_bind_run _ _ _ _ _ Hr1).
  unfold hd_byte. cbn [nth]. rewrite H70, H80, H0F, Hm80, Hm7F. cbn [Z.eqb negb].
  replace (negb ((if masked then 128 else 0) =? 0)) with masked by (by destruct masked).
  rewrite Bool.eqb_reflx. cbn [negb].
  replace (negb ((if fin then 128 else 0) =? 0)) with fin by (by destruct fin).
  assert (negb (Z.land op 8 =? 0) && negb fin = false) as ->.
  { destruct (Z.eqb_spec (Z.land op 8) 0) as [|Hc]; [done|]. by destruct (Hctl Hc) as [-> _]. }
  rewrite (op_bind_run _ _ _ _ _ Hr2).
  assert (negb (Z.land op 8 =? 0) && (125 <? zlen payload) = false) as ->.
  { destruct (Z.eqb_spec (Z.land op 8) 0) as [|Hc]; [done|]. destruct (Hctl Hc). simpl. lia. }
  unfold MAX_WEBSOCKET_MESSAGE_LEN. rewrite (proj2 (Z.ltb_ge _ _)) by lia.
  destruct (read_ws_body e (λ payload,
      if (op =? 0x0) || (op =? 0x1) || (op =? 0x2)
      then mret (Data op fin payload)
      else if op =? 0x8 then
        '(code, reason) ← ws_from_result (parse_websocket_close_frame_payload payload);
        mret (Close code reason)
      else if op =? 0x9 then mret (WsPing payload)
      else if op =? 0xA then mret (WsPong payload)
      else op_fail (ws_protocol "unsupported websocket opcode"))
    payload mask st2 rest (m - 2 - zlen ext) Hpay Hmask Hs2) as (st3 & Hr3 & Hu3 & Hs3);
    [fold body; lia|exact Hu2|].
  fold masked body in Hr3, Hs3. exists st3. rewrite Hr3. split_and!; [|done|].
  - unfold frame_meaning. destruct ((op =? 0) || (op =? 1) || (op =? 2)); [done|].
    destruct (op =? 8); [|destruct (op =? 9); [done|by destruct (op =? 10)]].
    unfold mbind, stream_op_bind, ws_from_result.
    by destruct (parse_websocket_close_frame_payload payload) as [|[]].
  - match goal with |- stream_flows _ ?x =>
      replace x with (m - 2 - zlen ext - zlen body) by (rewrite ?zlen_cons; lia) end.
    exact Hs3.
Qed.

(** ** What the writers put on the wire *)

(** What the two slices still hold. *)
Definition slices_left (header payload : list Z) (ho po : Z) : list Z :=
  sub_bytes header ho (zlen header) ++ sub_bytes payload po (zlen payload).

(** Taking [n] bytes of the slices advances the offsets as the loop does. *)
Lemma slices_advance header payload ho po n :
  0 ≤ ho ≤ zlen header → 0 ≤ po ≤ zlen payload →
  0 ≤ n ≤ zlen (slices_left header payload ho po) →
  let hr := zlen header - ho in
  take (Z.to_nat n) (slices_left header payload ho po)
  ++ (if n <? hr then slices_left header payload (ho + n) po
      else slices_left header payload (zlen header) (po + (n - hr)))
  = slices_left header payload ho po.
Proof.
  intros Hho Hpo Hn hr. unfold slices_left in *.
  rewrite zlen_app, !zlen_sub_bytes in Hn by lia.
  destruct (Z.ltb_spec n hr) as [Hl|Hl].
  - rewrite take_app_le
      by (pose proof (zlen_sub_bytes header ho (zlen header)); unfold zlen in *; lia).
    rewrite sub_bytes_take by lia. rewrite (assoc_L (++)). f_equal. apply sub_bytes_join; lia.
  - rewrite (sub_bytes_nil header (zlen header)) by lia. simpl.
    rewrite take_app_ge
      by (pose proof (zlen_sub_bytes header ho (zlen header)); unfold zlen in *; lia).
    rewrite <-(assoc_L (++)). f_equal.
    replace (Z.to_nat n - length (sub_bytes header ho (zlen header)))%nat with (Z.to_nat (n - hr))
      by (pose proof (zlen_sub_bytes header ho (zlen header)); unfold zlen in *; lia).
    rewrite sub_bytes_take by lia. apply sub_bytes_join; lia.
Qed.

Lemma write_vectored_loop_ok fuel header payload ho po w u w' :
  0 ≤ ho ≤ zlen header → 0 ≤ po ≤ zlen payload →
  write_vectored_loop fuel header payload ho po w = (inr u, w') →
  emitted w w' (slices_left header payload ho po).
Proof.
  revert ho po w. induction fuel as [|fuel IH]; intros ho po w Hho Hpo H;
    cbn [write_vectored_loop] in H;
    destruct (negb _) eqn:Hd; try done;
    try (injection H; intros; subst; unfold slices_left; rewrite !sub_bytes_nil by lia; by apply emitted_nil).
  apply wr_bind_ok in H as (n & w1 & H1 & H).
  apply wr_write_vectored_ok in H1 as (Hn & Hem & _). fold (slices_left header payload ho po) in *.
  destruct (n =? 0); [done|]. cbv zeta in H.
  rewrite <-(slices_advance header payload ho po n) by done. cbv zeta.
  unfold slices_left in Hn. rewrite zlen_app, !zlen_sub_bytes in Hn by lia.
  destruct (Z.ltb_spec n (zlen header - ho)); (eapply emitted_trans; [exact Hem|]);
    (apply (IH _ _ _) in H; [done|lia|lia]).
Qed.

Lemma take_overlay v new : take (length new) (overlay v new) = new.
Proof. unfold overlay. apply take_app_length. Qed.

Lemma write_unmasked_ok header payload w u w' :
  write_unmasked_websocket_frame header payload w = (inr u, w') →
  emitted w w' (header ++ payload).
Proof.
  intros H. unfold write_unmasked_websocket_frame in H. destruct payload as [|b payload].
  { apply wr_write_all_ok in H as [H _]. by rewrite app_nil_r. }
  apply wr_bind_ok in H as (v & w1 & H1 & H). injection H1 as <- <-.
  destruct (w_vectored w).
  { apply write_vectored_loop_ok in H; [|zlia..]. unfold slices_left in H.
    by rewrite !sub_bytes_full in H. }
  destruct (_ <=? WEBSOCKET_COALESCE_FRAME_SIZE).
  - apply wr_bind_ok in H as (scratch & w1 & H1 & H). injection H1 as <- <-. cbv zeta in H.
    apply wr_bind_ok in H as (? & w1 & H1 & H). apply put_scratch_ok in H1 as [H1 _].
    rewrite <-length_app, take_overlay in H.
    apply wr_write_all_ok in H as [H _]. apply (emitted_trans _ _ _ _ _ H1 H).
  - apply wr_bind_ok in H as (? & w1 & H1 & H).
    apply wr_write_all_ok in H1 as [H1 _]. apply wr_write_all_ok in H as [H _].
    apply (emitted_trans _ _ _ _ _ H1 H).
Qed.

Lemma write_masked_chunks_ok fuel e mask remaining off w off' w' :
  bytes_ok remaining → bytes_ok mask →
  write_masked_chunks fuel e mask remaining off w = (inr off', w') →
  emitted w w' (mask_from mask off remaining) ∧ off' = off + zlen remaining.
Proof.
  intros Hr Hm. revert remaining off w Hr. induction fuel as [|fuel IH]; intros remaining off w Hr H;
    cbn [write_masked_chunks] in H; destruct remaining as [|b rest] eqn:E; try done;
    try (injection H as <- <-; rewrite zlen_nil; split; [by apply emitted_nil|lia]).
  rewrite <-E in *. cbv zeta in H.
  assert (0 < zlen remaining) as Hpos by (rewrite E; zlia). clear E b rest.
  set (n := Z.min (zlen remaining) WEBSOCKET_MASK_CHUNK_SIZE) in *.
  assert (0 ≤ n ≤ zlen remaining) as Hn by (unfold n, WEBSOCKET_MASK_CHUNK_SIZE; lia).
  set (chunk := take (Z.to_nat n) remaining) in *.
  assert (zlen chunk = n) as Hz by (unfold chunk; zlia).
  assert (bytes_ok chunk) as Hc by by apply Forall_take.
  apply wr_bind_ok in H as (scratch & w1 & H1 & H). injection H1 as <- <-.
  apply wr_bind_ok in H as (? & w1 & H1 & H). apply put_scratch_ok in H1 as [He1 _].
  apply wr_bind_ok in H as (? & w2 & H2 & H).
  rewrite xor_websocket_mask_spec in H2 by done.
  replace (Z.to_nat n) with (length (mask_from mask off chunk)) in H2
    by (rewrite length_mask_from; unfold zlen in *; lia).
  rewrite take_overlay in H2. apply wr_write_all_ok in H2 as [He2 _].
  apply IH in H as [He3 ->]; [|by apply Forall_drop].
  pose proof (emitted_trans _ _ _ _ _ (emitted_trans _ _ _ _ _ He1 He2) He3) as He.
  assert (remaining = chunk ++ drop (Z.to_nat n) remaining) as Hsplit
    by (unfold chunk; by rewrite take_drop).
  split.
  - rewrite Hsplit at 1. rewrite mask_from_app, Hz. exact He.
  - rewrite Hsplit at 2. rewrite zlen_app. lia.
Qed.

Lemma write_masked_ok e header payload mask w u w' : bytes_ok payload → bytes_ok mask →
  write_masked_websocket_frame e header payload mask w = (inr u, w') →
  emitted w w' (header ++ mask_from mask 0 payload).
Proof.
  intros Hp Hm H. unfold write_masked_websocket_frame in H.
  destruct payload as [|b rest] eqn:E.
  { apply wr_write_all_ok in H as [H _]. by rewrite app_nil_r. }
  rewrite <-E in *. clear E b rest. cbv zeta in H.
  set (n := Z.min (zlen payload) WEBSOCKET_MASK_CHUNK_SIZE) in *.
  assert (0 ≤ n ≤ zlen payload) as Hn
    by (unfold n, WEBSOCKET_MASK_CHUNK_SIZE; pose proof (zlen_nonneg payload); lia).
  set (chunk := take (Z.to_nat n) payload) in *.
  assert (zlen chunk = n) as Hz by (unfold chunk; zlia).
  apply wr_bind_ok in H as (scratch & w1 & H1 & H). injection H1 as <- <-.
  apply wr_bind_ok in H as (? & w1 & H1 & H). apply put_scratch_ok in H1 as [He1 _].
  apply wr_bind_ok in H as (? & w2 & H2 & H).
  rewrite xor_websocket_mask_spec in H2 by (done || by apply Forall_take).
  replace (length header + Z.to_nat n)%nat with (length (header ++ mask_from mask 0 chunk)) in H2
    by (rewrite length_app, length_mask_from; unfold zlen in *; lia).
  rewrite take_overlay in H2. apply wr_write_all_ok in H2 as [He2 _].
  apply wr_bind_ok in H as (? & w3 & H3 & H). injection H; intros; subst.
  apply write_masked_chunks_ok in H3 as [He3 _]; [|by apply Forall_drop|done].
  pose proof (emitted_trans _ _ _ _ _ (emitted_trans _ _ _ _ _ He1 He2) He3) as He.
  assert (payload = chunk ++ drop (Z.to_nat n) payload) as Hsplit
    by (unfold chunk; by rewrite take_drop).
  rewrite Hsplit, mask_from_app, Hz, (assoc_L (++)). exact He.
Qed.

(** The masks still to be drawn are four octets each. *)
Definition rng_ok (w : Writer) : Prop := Forall (λ m, bytes_ok m ∧ zlen m = 4) (w_rng w).

Definition is_masked (mask : option (list Z)) : bool :=
  match mask with Some _ => true | None => false end.

Lemma websocket_frame_header_ok op fin n mp w header mask w' : rng_ok w →
  websocket_frame_header op fin n mp w = (inr (header, mask), w') →
  rng_ok w' ∧ is_masked mask = mp ∧ mask_ok mask ∧ w_out w' = w_out w
  ∧ w_scratch w' = w_scratch w ∧ header = ws_header_bytes op fin n mp ++ default [] mask.
Proof.
  intros Hr H. unfold websocket_frame_header in H. destruct mp.
  - apply wr_bind_ok in H as (m & w1 & H1 & H). unfold random_mask in H1.
    injection H as <- <- <-. injection H1 as <- <-. unfold rng_ok in *. simpl.
    destruct (w_rng w) as [|m ms]; [|apply Forall_cons in Hr as [[? ?] ?]; by split_and!].
    split_and!; try done. by repeat (constructor; [unfold u8_ok; lia|]).
  - injection H as <- <- <-. by rewrite app_nil_r.
Qed.

Lemma fragment_ok e op fin payload mp w u w' : bytes_ok payload → rng_ok w →
  write_websocket_frame_fragment_mode e op fin (zlen payload) payload mp w = (inr u, w') →
  ∃ mask, is_masked mask = mp ∧ mask_ok mask
    ∧ w_out w' = w_out w ++ frame_bytes op fin payload mask ∧ rng_ok w'.
Proof.
  intros Hp Hr H. unfold write_websocket_frame_fragment_mode in H.
  apply wr_bind_ok in H as ([header mask] & w1 & H1 & H).
  apply websocket_frame_header_ok in H1 as (Hr1 & Hmp & Hmask & Ho & _ & ->); [|done].
  exists mask. split; [done|]. split; [done|]. unfold frame_bytes. fold (is_masked mask).
  rewrite Hmp. unfold rng_ok. destruct mask as [m|].
  - destruct Hmask as [Hmo Hm4].
    apply write_masked_ok in H as [H1 H2]; [|done..]. rewrite H1, H2, Ho.
    simpl. by rewrite !(assoc_L (++)).
  - apply write_unmasked_ok in H as [H1 H2]. rewrite H1, H2, Ho. simpl.
    by rewrite app_nil_r.
Qed.

(** ** A buffered frame *)

(** The extended-length size and the length a header announces. *)
Definition ext_size (code : Z) : Z := if code =? 126 then 2 else if code =? 127 then 8 else 0.
Definition announced (code : Z) (ext : list Z) : Z :=
  if (code =? 126) || (code =? 127) then be_value ext else code.

(** [buffer] holds a whole frame: both header octets, the extended length, the
    mask, and as many payload octets as announced. *)
Definition holds_frame (buffer : list Z) : Prop :=
  ∃ b0 b1 ext mask payload rest,
    buffer = [b0; b1] ++ ext ++ mask ++ payload ++ rest
    ∧ zlen ext = ext_size (Z.land b1 0x7f)
    ∧ zlen mask = (if negb (Z.land b1 0x80 =? 0) then 4 else 0)
    ∧ zlen payload = announced (Z.land b1 0x7f) ext.

Lemma contains_complete_iff buffer : bytes_ok buffer →
  websocket_buffer_contains_complete_frame buffer = true ↔ holds_frame buffer.
Proof.
  intros Hb. unfold websocket_buffer_contains_complete_frame, holds_frame.
  destruct (Z.ltb_spec (zlen buffer) 2) as [Hl|Hl].
  { split; [done|]. intros (b0 & b1 & ext & mask & payload & rest & -> & _). zlia. }
  destruct buffer as [|b0 [|b1 l]]; try by zlia. unfold hd_byte. cbn [nth]. cbv zeta.
  set (code := Z.land b1 0x7f). set (m := negb (Z.land b1 0x80 =? 0)).
  change (if code =? 126 then 2 else if code =? 127 then 8 else 0) with (ext_size code).
  assert (0 ≤ ext_size code) as Hext0 by (unfold ext_size; repeat case_match; lia).
  set (ml := if m then 4 else 0). assert (0 ≤ ml) by (unfold ml; destruct m; lia).
  rewrite !zlen_cons. 
  set (value := if code =? 126 then be_value (sub_bytes (b0 :: b1 :: l) 2 4)
                else if code =? 127 then be_value (sub_bytes (b0 :: b1 :: l) 2 10) else code).
  assert (value = announced code (sub_bytes l 0 (ext_size code))) as Hvalue.
  { unfold value, announced, ext_size, sub_bytes.
    destruct (code =? 126); [done|]. by destruct (code =? 127). }
  assert (0 ≤ code) as Hcode by (apply Z.land_nonneg; right; lia).
  assert (0 ≤ value) as Hv0.
  { rewrite Hvalue. unfold announced. case_match; [|done].
    apply be_value_bound, sub_bytes_ok. by do 2 apply Forall_cons in Hb as [_ Hb]. }
  split.
  - destruct (Z.ltb_spec (1 + (1 + zlen l)) (2 + ext_size code + ml)); [done|].
    intros Hle%Z.leb_le.
    exists b0, b1, (sub_bytes l 0 (ext_size code)),
      (sub_bytes l (ext_size code) (ext_size code + ml)),
      (sub_bytes l (ext_size code + ml) (ext_size code + ml + value)),
      (sub_bytes l (ext_size code + ml + value) (zlen l)).
    split_and!.
    + simpl. f_equal. f_equal. rewrite !(assoc_L (++)), !sub_bytes_join by lia.
      by rewrite sub_bytes_full.
    + fold code. rewrite zlen_sub_bytes; lia.
    + fold m ml. rewrite zlen_sub_bytes; lia.
    + fold code. rewrite zlen_sub_bytes by lia. rewrite <-Hvalue. lia.
  - intros (c0 & c1 & ext & mask & payload & rest & E & He & Hm & Hp).
    simpl in E. injection E as <- <- ->. fold code m ml in He, Hm, Hp.
    assert (sub_bytes (ext ++ mask ++ payload ++ rest) 0 (ext_size code) = ext) as Hs.
    { rewrite <-He. apply (sub_bytes_app_mid [] ext). }
    rewrite Hs in Hvalue. rewrite <-Hvalue in Hp. rewrite !zlen_app.
    pose proof (zlen_nonneg rest).
    destruct (Z.ltb_spec (1 + (1 + (zlen ext + (zlen mask + (zlen payload + zlen rest)))))
      (2 + ext_size code + ml)); [lia|]. apply Z.leb_le. lia.
Qed.

(** A bind whose first step succeeds, fails or waits. *)
Lemma op_bind_post {E A B} (m : stream_op E A) (f : A → stream_op E B) st (Q : sres E B → Prop) :
  (∀ a st1, m st = (SOk a, st1) → Q (f a st1).1) →
  (∀ e st1, m st = (SErr e, st1) → Q (SErr e)) →
  (∀ st1, m st = (SPending, st1) → Q SPending) → Q ((m ≫= f) st).1.
Proof.
  intros H1 H2 H3. unfold mbind, stream_op_bind.
  destruct (m st) as [[a|e|] st1]; [by apply H1|by eapply H2|by eapply H3].
Qed.

(** With the octets of [bs] on hand a read of them does not wait. *)
Lemma read_ready {E} (io : io_error → E) st bs rest :
  stream_flows st (zlen (bs ++ rest)) → unread st = bs ++ rest →
  ∃ st', op_read_exact io (zlen bs) st = (SOk bs, st') ∧ unread st' = rest
    ∧ stream_flows st' (zlen rest).
Proof.
  intros Hs Hu. rewrite zlen_app in Hs.
  destruct (op_read_exact_prefix io st bs rest _ Hs ltac:(zlia) Hu) as (st' & ? & ? & Hs').
  exists st'. split_and!; [done|done|].
  by replace (zlen bs + zlen rest - zlen bs) with (zlen rest) in Hs' by lia.
Qed.

Lemma read_ws_length_ready code ext st rest : 0 ≤ code → zlen ext = ext_size code →
  stream_flows st (zlen (ext ++ rest)) → unread st = ext ++ rest →
  ∃ st', read_ws_length code st = (SOk (announced code ext), st') ∧ unread st' = rest
    ∧ stream_flows st' (zlen rest).
Proof.
  intros Hc He Hs Hu. unfold read_ws_length, announced. unfold ext_size in He.
  destruct (read_ready ws_io st ext rest Hs Hu) as (st' & Hr & ? & ?).
  destruct (code =? 126); [|destruct (code =? 127)]; simpl.
  - rewrite He in Hr. exists st'. by rewrite (op_bind_run _ _ _ _ _ Hr).
  - rewrite He in Hr. exists st'. by rewrite (op_bind_run _ _ _ _ _ Hr).
  - apply zlen_0_nil in He as ->. by exists st.
Qed.

Lemma read_frame_ready e expect st : stream_flows st (zlen (unread st)) →
  holds_frame (unread st) → (read_websocket_frame_mode e expect st).1 ≠ SPending.
Proof.
  intros Hs (b0 & b1 & ext & mask & payload & rest & Hu & He & Hm & Hp). rewrite Hu in Hs.
  destruct (read_ready ws_io st _ _ Hs Hu) as (st1 & Hr1 & Hu1 & Hs1).
  unfold read_websocket_frame_mode. rewrite (op_bind_run _ _ _ _ _ Hr1).
  unfold hd_byte. cbn [nth]. cbv zeta.
  set (m := negb (Z.land b1 0x80 =? 0)) in *. set (code := Z.land b1 0x7f) in *.
  destruct (negb (Z.land b0 0x70 =? 0)); [done|]. destruct (negb (Bool.eqb _ _)); [done|].
  destruct (_ && _); [done|].
  destruct (read_ws_length_ready code ext st1 (mask ++ payload ++ rest))
    as (st2 & Hr2 & Hu2 & Hs2); [apply Z.land_nonneg; right; lia|done..|].
  rewrite (op_bind_run _ _ _ _ _ Hr2). rewrite <-Hp.
  destruct (_ && _); [done|]. destruct (_ <? _); [done|].
  assert (∃ mk st3, (if m then op_read_exact ws_io 4 else mret [0; 0; 0; 0]) st2 = (SOk mk, st3)
    ∧ unread st3 = payload ++ rest ∧ stream_flows st3 (zlen (payload ++ rest)))
    as (mk & st3 & Hr3 & Hu3 & Hs3).
  { destruct m.
    - destruct (read_ready ws_io st2 mask (payload ++ rest)) as (st3 & Hr3 & ? & ?);
        [done..|]. rewrite Hm in Hr3. by exists mask, st3.
    - apply zlen_0_nil in Hm as ->. by exists [0; 0; 0; 0], st2. }
  rewrite (op_bind_run _ _ _ _ _ Hr3).
  assert (∃ pl st4, (if 0 <? zlen payload then
       raw ← op_read_exact ws_io (zlen payload);
       mret (if m then xor_websocket_mask e raw mk 0 else raw)
     else mret []) st3 = (SOk pl, st4)) as (pl & st4 & Hr4).
  { destruct (0 <? zlen payload); [|by eexists _, _].
    destruct (read_ready ws_io st3 payload rest Hs3 Hu3) as (st4 & Hr4 & _ & _).
    rewrite (op_bind_run _ _ _ _ _ Hr4). by eexists _, _. }
  rewrite (op_bind_run _ _ _ _ _ Hr4).
  destruct (_ || _); [done|]. destruct (_ =? 8).
  { unfold mbind, stream_op_bind, ws_from_result.
    by destruct (parse_websocket_close_frame_payload pl) as [|[]]. }
  by repeat (match goal with |- context [if ?b then _ else _] => destruct b end).
Qed.

Lemma read_ws_length_ok code st n st' : front_ok st → 0 ≤ code →
  read_ws_length code st = (SOk n, st') →
  ∃ ext, zlen ext = ext_size code ∧ n = announced code ext ∧ step_io st st' ext [].
Proof.
  intros Hok Hc H. unfold read_ws_length, ext_size, announced in *.
  destruct (code =? 126); [|destruct (code =? 127)]; simpl.
  - apply op_bind_ok in H as (ext & st1 & H1 & H). injection H as <- <-.
    apply op_read_exact_ok in H1 as [? ?]; [|done|lia]. by exists ext.
  - apply op_bind_ok in H as (ext & st1 & H1 & H). injection H as <- <-.
    apply op_read_exact_ok in H1 as [? ?]; [|done|lia]. by exists ext.
  - injection H as <- <-. exists []. split_and!; [done..|by apply step_io_refl].
Qed.

(** What a frame that was read consumed, and its bounds. *)
Definition frame_bounds (f : WebSocketFrame) : Prop :=
  match f with
  | Data op _ p => (op = 0 ∨ op = 1 ∨ op = 2) ∧ zlen p ≤ MAX_WEBSOCKET_MESSAGE_LEN
  | WsPing p | WsPong p => zlen p ≤ 125
  | Close _ _ => True
  end.

(** An error is an I/O error without a close code, or a violation with one. *)
Definition error_class (e : WebSocketFrameError) : Prop :=
  (close_code e = None ∧ is_Some (io_kind e))
  ∨ (io_kind e = None ∧
     (close_code e = Some 1002 ∨ close_code e = Some 1007 ∨ close_code e = Some 1009)).

Lemma op_read_exact_errors st n e st' :
  op_read_exact ws_io n st = (SErr e, st') → error_class e.
Proof.
  unfold op_read_exact. destruct (read_exact st n) as [[[]] ?]; intros [= <- _].
  left. simpl. eauto.
Qed.

(** The stream stays a stream of octets. *)
Definition octets_ok (st : IoStream) : Prop := front_ok st ∧ bytes_ok (unread st).

Lemma octets_step st st' consumed sent : octets_ok st → step_io st st' consumed sent →
  octets_ok st' ∧ bytes_ok consumed.
Proof.
  intros [_ Hb] (Hok & E & _). rewrite E in Hb. apply Forall_app in Hb as [? ?]. by split.
Qed.

Lemma op_read_exact_octets st n buf st' : octets_ok st → 0 ≤ n →
  op_read_exact ws_io n st = (SOk buf, st') → zlen buf = n ∧ octets_ok st' ∧ bytes_ok buf.
Proof.
  intros Hok Hn H. apply op_read_exact_ok in H as [Hz Hs]; [|apply Hok|done].
  apply octets_step in Hs; [|done]. naive_solver.
Qed.

(** The mask and payload part of the reader, whatever follows it. *)
Lemma read_payload_post e (masked : bool) len st
    (k : list Z → stream_op WebSocketFrameError WebSocketFrame)
    (Q : sres WebSocketFrameError WebSocketFrame → Prop) :
  octets_ok st → 0 ≤ len → Q SPending → (∀ e, error_class e → Q (SErr e)) →
  (∀ payload st', zlen payload = len → Q (k payload st').1) →
  Q ((mask ← (if masked then op_read_exact ws_io 4 else mret [0; 0; 0; 0]);
      payload ← (if 0 <? len then
                   raw ← op_read_exact ws_io len;
                   mret (if masked then xor_websocket_mask e raw mask 0 else raw)
                 else mret []);
      k payload) st).1.
Proof.
  intros Hok Hlen Hwait Herr Hk.
  apply op_bind_post; [|intros e' st1 H|done].
  2: { apply Herr. destruct masked; [by eapply op_read_exact_errors|done]. }
  intros mask st1 H1.
  assert (octets_ok st1 ∧ bytes_ok mask) as [Hok1 Hm].
  { destruct masked; [by apply op_read_exact_octets in H1 as (_ & ? & ?); [|done|lia]|].
    injection H1 as <- <-. split; [done|]. unfold bytes_ok, u8_ok. repeat constructor; lia. }
  apply op_bind_post; [|intros e' st2 H|done].
  2: { apply Herr. destruct (0 <? len); [|done]. unfold mbind, stream_op_bind in H.
       destruct (op_read_exact ws_io len st1) as [[a|e''|] st5] eqn:E; try done.
       injection H as -> ->. by eapply op_read_exact_errors. }
  intros payload st2 H2. apply Hk. destruct (Z.ltb_spec 0 len).
  - apply op_bind_ok in H2 as (raw & st3 & H2 & H3).
    apply op_read_exact_octets in H2 as (Hz & _ & Hraw); [|done|done]. injection H3 as <- _.
    destruct masked; [|done]. rewrite xor_websocket_mask_spec by done.
    unfold zlen. by rewrite length_mask_from.
  - injection H2 as <- _. rewrite zlen_nil. lia.
Qed.

(** The reader's outcome, whatever arrives. *)
Lemma read_frame_post e expect st : octets_ok st →
  match (read_websocket_frame_mode e expect st).1 with
  | SOk f => frame_bounds f
  | SErr e => error_class e
  | SPending => True
  end.
Proof.
  intros Hok. set (Q := λ r : sres WebSocketFrameError WebSocketFrame, match r with
    | SOk f => frame_bounds f | SErr e => error_class e | SPending => True end).
  change (Q (read_websocket_frame_mode e expect st).1).
  assert (∀ s, error_class (ws_protocol s)) as Hproto by (intros s; right; simpl; auto).
  unfold read_websocket_frame_mode. apply op_bind_post; [|by apply op_read_exact_errors|done].
  intros header st1 H1. apply op_read_exact_octets in H1 as (Hz1 & Hok1 & _); [|done|lia].
  cbv zeta. destruct (negb (Z.land (hd_byte header 0) 0x70 =? 0)); [apply Hproto|].
  destruct (negb (Bool.eqb _ _)); [apply Hproto|]. set (op := Z.land (hd_byte header 0) 0x0F).
  set (ctl := negb (Z.land op 8 =? 0)). set (fin := negb (Z.land (hd_byte header 0) 0x80 =? 0)).
  destruct (ctl && negb fin); [apply Hproto|].
  assert (0 ≤ Z.land (hd_byte header 1) 0x7F) as Hc0 by (apply Z.land_nonneg; right; lia).
  apply op_bind_post; [|intros e' st2 H|done].
  2: { unfold read_ws_length in H. unfold mbind, stream_op_bind in H.
       repeat case_match; simplify_eq; by eapply op_read_exact_errors. }
  intros len st2 H2. apply read_ws_length_ok in H2 as (ext & He & -> & Hs2); [|apply Hok1|done].
  set (len := announced (Z.land (hd_byte header 1) 0x7F) ext).
  apply octets_step in Hs2 as [Hok2 Hext]; [|done].
  assert (0 ≤ len) as Hlen
    by (unfold len, announced; case_match; [by apply be_value_bound|done]).
  destruct (ctl && (125 <? len)) eqn:Hctl; [apply Hproto|].
  destruct (Z.ltb_spec MAX_WEBSOCKET_MESSAGE_LEN len); [right; simpl; auto|].
  apply read_payload_post; [done|done|done|done|]. intros payload st' Hp.
  destruct ((op =? 0) || (op =? 1) || (op =? 2)) eqn:Hop.
  { simpl. split; [lia|]. by rewrite Hp. }
  destruct (Z.eqb_spec op 8).
  { unfold mbind, stream_op_bind, ws_from_result.
    destruct (parse_websocket_close_frame_payload payload) as [err|[c r]] eqn:Ec; [|done].
    simpl. unfold parse_websocket_close_frame_payload in Ec.
    repeat case_match; simplify_eq; right; simpl; auto. }
  destruct (Z.eqb_spec op 9) as [Ho|]; [|destruct (Z.eqb_spec op 10) as [Ho|]; [|apply Hproto]];
    unfold ctl in Hctl; rewrite Ho in Hctl; simpl in *; lia.
Qed.

Lemma octets_plain bs fd : bytes_ok bs → octets_ok (IoStream_plain [RBytes bs] [] fd).
Proof.
  intros H. split; [apply front_ok_plain|]. rewrite unread_plain. simpl. by rewrite app_nil_r.
Qed.

(** ** Properties *)

(** a WebSocket frame that is written is read back.  Every writer path
    (vectored in any pieces, coalesced through the scratch buffer, masked in
    chunks, with any random mask and on either byte order) puts the same frame
    on the wire: header, mask, masked payload; and the peer's reader, however
    the socket splits the octets, gets the opcode, FIN bit and payload back and
    leaves exactly what follows. *)
Theorem websocket_frame_roundtrip e e' op fin payload mp w w' st rest :
  0 ≤ op < 16 → bytes_ok payload → zlen payload ≤ MAX_WEBSOCKET_MESSAGE_LEN →
  (Z.land op 8 ≠ 0 → fin = true ∧ zlen payload ≤ 125) → rng_ok w →
  write_websocket_frame_fragment_mode e op fin (zlen payload) payload mp w = (inr (), w') →
  ∃ mask, is_masked mask = mp ∧ w_out w' = w_out w ++ frame_bytes op fin payload mask ∧
    (stream_flows st (zlen (frame_bytes op fin payload mask)) →
     unread st = frame_bytes op fin payload mask ++ rest →
     ∃ st', read_websocket_frame_mode e' mp st = (frame_meaning op fin payload, st')
       ∧ unread st' = rest).
Proof.
  intros Hop Hpay Hmax Hctl Hrng H. apply fragment_ok in H as (mask & <- & Hmask & Hout & _);
    [|done..].
  exists mask. split; [done|]. split; [done|]. intros Hs Hu.
  destruct (read_frame_bytes e' op fin payload mask st rest _ Hop Hpay Hmask Hmax Hctl Hs
    ltac:(done) Hu) as (st' & H1 & H2 & _). by exists st'.
Qed.

Lemma websocket_frame_roundtrip_witness :
  ∃ st', read_websocket_frame_mode BigEndian true
    (IoStream_plain [RBytes [0x82; 0x83; 1; 2; 3; 4; 104; 107]; RBytes [106; 9]] [] (inr true))
    = (SOk (Data 2 true [105; 105; 105]), st') ∧ unread st' = [9].
Proof.
  destruct (websocket_frame_roundtrip LittleEndian BigEndian 2 true [105; 105; 105] true
    (mkWriter [] true [] [] [] [[1; 2; 3; 4]] [])
    (mkWriter [0x82; 0x83; 1; 2; 3; 4; 104; 107; 106] true [] [] [] []
       [0x82; 0x83; 1; 2; 3; 4; 104; 107; 106])
    (IoStream_plain [RBytes [0x82; 0x83; 1; 2; 3; 4; 104; 107]; RBytes [106; 9]] [] (inr true))
    [9]) as (mask & H1 & H2 & H3).
  - lia.
  - unfold bytes_ok, u8_ok. repeat constructor; lia.
  - vm_compute. discriminate.
  - intros H. destruct H. reflexivity.
  - constructor; [|constructor]. split; [|reflexivity].
    unfold bytes_ok, u8_ok. repeat constructor; lia.
  - vm_compute. reflexivity.
  - simpl in H2. rewrite <-H2 in H3. apply H3.
    + split; [apply front_ok_plain|].
      simpl. right. split; [discriminate|]. right. split; [discriminate|].
      left. vm_compute. discriminate.
    + reflexivity.
Defined.

(** the frame reader keeps its limits on any input.  A data frame it returns
    carries at most [2^24] octets and opcode 0, 1 or 2; a ping or pong at most
    125 octets; and every failure is either an I/O error, which closes without
    a code, or a violation with close code 1002, 1007 or 1009. *)
Theorem websocket_reader_bounds e expect st :
  octets_ok st →
  match (read_websocket_frame_mode e expect st).1 with
  | SOk f => frame_bounds f
  | SErr err => error_class err
  | SPending => True
  end.
Proof. apply read_frame_post. Qed.

Lemma websocket_reader_bounds_witness :
  error_class (ws_message_too_big "websocket frame exceeds supported length").
Proof.
  apply (websocket_reader_bounds LittleEndian false
    (IoStream_plain [RBytes [0x82; 0x7f; 0; 0; 0; 0; 1; 0; 0; 1]] [] (inr true))).
  apply octets_plain. unfold bytes_ok, u8_ok. repeat constructor; lia.
Defined.

(** [websocket_buffer_contains_complete_frame] decides exactly whether the
    buffered octets hold a whole frame, and when it says so the reader finishes
    on them, with a frame or an error, without waiting for more input. *)
Theorem contains_complete_frame_exact e expect buffer :
  bytes_ok buffer →
  (websocket_buffer_contains_complete_frame buffer = true ↔ holds_frame buffer)
  ∧ (websocket_buffer_contains_complete_frame buffer = true →
     (read_websocket_frame_mode e expect
        (IoStream_plain [RBytes buffer; RStall] [] (inr true))).1 ≠ SPending).
Proof.
  intros Hb. split; [by apply contains_complete_iff|].
  intros Hc. apply contains_complete_iff in Hc; [|done].
  assert (unread (IoStream_plain [RBytes buffer; RStall] [] (inr true)) = buffer) as Hu.
  { rewrite unread_plain. simpl. by rewrite app_nil_r. }
  apply read_frame_ready; [|by rewrite Hu]. rewrite Hu.
  split; [apply front_ok_plain|].
  simpl. right. split.
  - destruct Hc as (b0 & b1 & ext & mask & payload & rest & -> & _). done.
  - left. change (unread_front _) with (@nil Z). rewrite zlen_nil. lia.
Qed.

Lemma contains_complete_frame_exact_witness :
  (read_websocket_frame_mode LittleEndian true
     (IoStream_plain [RBytes [0x89; 0x81; 1; 2; 3; 4; 9]; RStall] [] (inr true))).1 ≠ SPending.
Proof.
  apply (contains_complete_frame_exact LittleEndian true [0x89; 0x81; 1; 2; 3; 4; 9]).
  - unfold bytes_ok, u8_ok. repeat constructor; lia.
  - vm_compute. reflexivity.
Defined.

(** close payloads.  An encoded close payload fits a control frame (at most
    125 octets), and the peer's parser gets the code and the reason back
    whenever the reason's UTF-8 is at most 123 octets. *)
Theorem websocket_close_roundtrip code reason :
  match code with Some c => 0 ≤ c < 2 ^ 16 | None => reason = [] end → str_ok reason →
  zlen (encode_websocket_close_payload code reason) ≤ 125
  ∧ (str_len reason ≤ 123 →
     parse_websocket_close_frame_payload (encode_websocket_close_payload code reason)
     = inr (code, reason)).
Proof.
  intros Hc Hr. unfold encode_websocket_close_payload. destruct code as [c|]; [|by rewrite Hc].
  cbv zeta. change (Z.max 0 (125 - zlen (be_bytes 2 c))) with 123. split.
  - rewrite zlen_app, zlen_be_bytes. zlia.
  - intros Hl. unfold str_len in Hl.
    rewrite take_ge by (unfold zlen in *; lia).
    pose proof (be_value_bytes_small 2 c ltac:(simpl; lia)) as Hv.
    cbn [be_bytes app] in *. unfold parse_websocket_close_frame_payload.
    rewrite utf8_decode_encode by done. by rewrite Hv.
Qed.

Lemma websocket_close_roundtrip_witness :
  parse_websocket_close_frame_payload
    (encode_websocket_close_payload (Some 1001) [98; 0xfc; 0x20ac])
  = inr (Some 1001, [98; 0xfc; 0x20ac]).
Proof.
  apply (websocket_close_roundtrip (Some 1001) [98; 0xfc; 0x20ac]).
  - lia.
  - unfold str_ok. repeat constructor.
  - vm_compute. discriminate.
Defined.

(** a longer close reason is cut at octet 123, in the middle of a character
    if it falls there, and the receiver of such a frame rejects it: for every
    two-octet character the reason of 122 ASCII octets and that character is
    answered with close code 1007. *)
Theorem websocket_close_reason_cut code c :
  0 ≤ code < 2 ^ 16 → 0x80 ≤ c < 0x800 →
  parse_websocket_close_frame_payload
    (encode_websocket_close_payload (Some code) (replicate 122 0x61 ++ [c]))
  = inl (ws_invalid_payload "websocket close reason must be valid UTF-8").
Proof.
  intros Hcode Hc. unfold encode_websocket_close_payload. cbv zeta.
  change (Z.max 0 (125 - zlen (be_bytes 2 code))) with 123.
  assert (utf8_encode (replicate 122 0x61 ++ [c])
    = replicate 122 0x61 ++ [0xC0 + c / 64; 0x80 + c mod 64]) as ->.
  { rewrite utf8_encode_app. f_equal. simpl. unfold utf8_char.
    rewrite (proj2 (Z.ltb_ge c 0x80)), (proj2 (Z.ltb_lt c 0x800)) by lia. done. }
  replace (Z.to_nat (Z.min _ 123)) with (122 + 1)%nat
    by (rewrite zlen_app, zlen_replicate; change (zlen [_; _]) with 2; lia).
  rewrite <-(length_replicate 122 0x61) at 1. rewrite take_app_add. cbn [take be_bytes app].
  unfold parse_websocket_close_frame_payload.
  assert (∀ n, utf8_decode (replicate n 0x61 ++ [0xC0 + c / 64]) = None) as ->; [|done].
  intros n. induction n as [|n IH].
  - simpl. guard_false. by repeat (match goal with |- context [if ?b then _ else _] => destruct b end).
  - cbn [replicate app utf8_decode]. change ((0 <=? 0x61) && (0x61 <? 0x80)) with true.
    by rewrite IH.
Qed.

Lemma websocket_close_reason_cut_witness :
  parse_websocket_close_frame_payload
    (encode_websocket_close_payload (Some 1000) (replicate 122 0x61 ++ [0xe9]))
  = inl (ws_invalid_payload "websocket close reason must be valid UTF-8").
Proof. apply (websocket_close_reason_cut 1000 0xe9); lia. Defined.
