(* ===== verification/OutboundFrame.v ===== *)
(** * Outbound frames and their write receipts

    [OutboundFrame] of [ct_core/src/lib.rs] with its constructors and the
    resolution of deferred segments, and the guards and receipts of
    [ct_core/src/write_completion.rs]. *)
From stdpp Require Import gmap.
From S2P Require Import Prelude Bytes Text IoStream WsFrame.

(** ** Write completion *)
Inductive WriteOutcome : Type := Pending | Written | Abandoned.

#[global] Instance WriteOutcome_eq_dec : EqDecision WriteOutcome.
Proof. solve_decision. Defined.

(** The watch channels of the receipts, by number. *)
Record Receipts : Type := mkReceipts {
  next_channel : nat;
  outcomes : gmap nat WriteOutcome;
}.

(** [WriteReceipt] *)
Definition WriteReceipt : Type := nat.

(** [WriteReceipt::outcome] *)
Definition outcome_of (receipt : WriteReceipt) (rs : Receipts) : WriteOutcome :=
  default Abandoned (outcomes rs !! receipt).

(** [WriteReceipt::wait]: [None] while the outcome is pending and the sender
    alive. *)
Definition wait (receipt : WriteReceipt) (sender_alive : bool) (rs : Receipts) :
    option WriteOutcome :=
  let outcome := outcome_of receipt rs in
  if negb (bool_decide (outcome = Pending)) then Some outcome
  else if sender_alive then None else Some Abandoned.

Record WriteGuard : Type := mkWriteGuard { guard_channel : nat; guard_sender : bool }.

Definition send_replace (channel : nat) (o : WriteOutcome) (rs : Receipts) : Receipts :=
  mkReceipts (next_channel rs) (<[channel := o]> (outcomes rs)).

(** [WriteGuard::new] *)
Definition WriteGuard_new (rs : Receipts) : WriteGuard * WriteReceipt * Receipts :=
  let channel := next_channel rs in
  (mkWriteGuard channel true, channel,
   mkReceipts (S channel) (<[channel := Pending]> (outcomes rs))).

(** [Drop for WriteGuard] *)
Definition drop_guard (g : WriteGuard) (rs : Receipts) : Receipts :=
  if guard_sender g then send_replace (guard_channel g) Abandoned rs else rs.

(** [WriteGuard::written]: the sender is taken, then the guard is dropped. *)
Definition guard_written (g : WriteGuard) (rs : Receipts) : Receipts :=
  let rs := if guard_sender g then send_replace (guard_channel g) Written rs else rs in
  drop_guard (mkWriteGuard (guard_channel g) false) rs.

(** ** Frames *)
Inductive FileSegmentEncoding : Type := Identity | Base64.

#[global] Instance FileSegmentEncoding_eq_dec : EqDecision FileSegmentEncoding.
Proof. solve_decision. Defined.

Definition USIZE_MAX : Z := 2 ^ 64 - 1.

(** [usize::checked_add] and [usize::checked_mul] *)
Definition checked_add (a b : Z) : option Z := if a + b <=? USIZE_MAX then Some (a + b) else None.
Definition checked_mul (a b : Z) : option Z := if a * b <=? USIZE_MAX then Some (a * b) else None.

(** [FileSegmentEncoding::wire_len] *)
Definition wire_len (encoding : FileSegmentEncoding) (source_len : Z) : option Z :=
  match encoding with
  | Identity => Some source_len
  | Base64 =>
      value ← checked_add source_len 2;
      checked_mul (value / 3) 4
  end.

(** [OutboundFileSegment]; the file is its contents. *)
Record OutboundFileSegment : Type := mkOutboundFileSegment {
  seg_file : list Z;
  seg_offset : Z;
  seg_len : Z;
  seg_encoding : FileSegmentEncoding;
}.

(** What running a deferred segment's closure on the blocking pool gives. *)
Inductive prepared : Type :=
  | Prepared (bytes : list Z)
  | PrepareErr (reason : string)
  | PrepareFailed (join_error : string).

Record OutboundFrame : Type := mkOutboundFrame {
  frame_type : Z;
  payload_len : Z;
  segments : list (list Z);
  deferred_segment : option prepared;
  file_segment : option OutboundFileSegment;
  suffix_segments : list (list Z);
  completion : option WriteGuard;
}.

(** [Error::InvalidDeferredSegment] and [Error::InvalidFileSegment] *)
Inductive SegmentError : Type :=
  | InvalidDeferredSegment (reason : string)
  | InvalidFileSegment (reason : string).

Definition control (frame_type : Z) (payload : list Z) : OutboundFrame :=
  mkOutboundFrame frame_type (zlen payload) [payload] None None [] None.

Definition barrier : OutboundFrame := control 0xff [].

Definition close (code : option Z) (reason : str) : OutboundFrame :=
  control 0x03 (encode_websocket_close_payload code reason).

Definition OutboundFrame_message (payload : list Z) : OutboundFrame :=
  mkOutboundFrame 0 (zlen payload) [payload] None None [] None.

(** The sum of the lengths of some segments. *)
Definition sum_len (segs : list (list Z)) : Z := foldr (λ s n, zlen s + n) 0 segs.

Definition message_segments (segs : list (list Z)) : OutboundFrame :=
  mkOutboundFrame 0 (sum_len segs) segs None None [] None.

Definition tracked (f : OutboundFrame) (rs : Receipts) : OutboundFrame * WriteReceipt * Receipts :=
  let '(guard, receipt, rs) := WriteGuard_new rs in
  (mkOutboundFrame (frame_type f) (payload_len f) (segments f) (deferred_segment f)
     (file_segment f) (suffix_segments f) (Some guard), receipt, rs).

Definition message_deferred_segment_with_suffix (prefix : list Z) (deferred_len : Z)
    (suffix : list Z) (prepare : prepared) : SegmentError + OutboundFrame :=
  match (value ← checked_add (zlen prefix) deferred_len; checked_add value (zlen suffix)) with
  | None => inl (InvalidDeferredSegment "payload length overflow")
  | Some payload_len =>
      inr (mkOutboundFrame 0 payload_len [prefix] (Some prepare) None
             (match suffix with [] => [] | _ => [suffix] end) None)
  end.

Definition message_deferred_segment (prefix : list Z) (deferred_len : Z) (prepare : prepared) :
    SegmentError + OutboundFrame :=
  message_deferred_segment_with_suffix prefix deferred_len [] prepare.

Definition message_file_segment (prefix file : list Z) (offset len : Z) (suffix : list Z)
    (encoding : FileSegmentEncoding) : SegmentError + OutboundFrame :=
  match wire_len encoding len with
  | None => inl (InvalidFileSegment "encoded file length overflow")
  | Some wlen =>
      match (value ← checked_add (zlen prefix) wlen; checked_add value (zlen suffix)) with
      | None => inl (InvalidFileSegment "payload length overflow")
      | Some payload_len =>
          inr (mkOutboundFrame 0 payload_len [prefix] None
                 (Some (mkOutboundFileSegment file offset len encoding)) [suffix] None)
      end
  end.

(** [try_fold] over the parts with [checked_add]. *)
Definition checked_sum (start : Z) (parts : list (list Z)) : option Z :=
  foldl (λ acc part, sum ← acc; checked_add sum (zlen part)) (Some start) parts.

(** The length a file segment takes on the wire, as [resolve_deferred_segment]
    counts it. *)
Definition file_wire_len (file : option OutboundFileSegment) : Z :=
  default 0 (f ← file; wire_len (seg_encoding f) (seg_len f)).

Definition resolve_deferred_segment (f : OutboundFrame) : string + OutboundFrame :=
  match deferred_segment f with
  | None => inr f
  | Some (PrepareFailed err) => inl ("preparation task failed: " +:+ err)%string
  | Some (PrepareErr reason) => inl reason
  | Some (Prepared segment) =>
      match checked_sum (file_wire_len (file_segment f))
              (segments f ++ segment :: suffix_segments f) with
      | None => inl "prepared payload length overflow"%string
      | Some actual_len =>
          if negb (actual_len =? payload_len f)
          then inl ("prepared payload length " +:+ pretty actual_len
                    +:+ " did not match expected " +:+ pretty (payload_len f))%string
          else inr (mkOutboundFrame (frame_type f) (payload_len f) (segments f ++ [segment]) None
                      (file_segment f) (suffix_segments f) (completion f))
      end
  end.

(** ** Announced lengths *)

Lemma sum_len_concat segs : sum_len segs = zlen (concat segs).
Proof. induction segs as [|s segs IH]; simpl; [done|]. rewrite zlen_app. lia. Qed.

(** The length of what a resolved frame sends. *)
Definition parts_len (f : OutboundFrame) : Z :=
  sum_len (segments f) + file_wire_len (file_segment f) + sum_len (suffix_segments f).

(** The frames the constructors make. *)
Inductive constructed : OutboundFrame → Prop :=
  | constructed_control t payload : constructed (control t payload)
  | constructed_message payload : constructed (OutboundFrame_message payload)
  | constructed_segments segs : constructed (message_segments segs)
  | constructed_deferred prefix deferred_len suffix prepare f :
      message_deferred_segment_with_suffix prefix deferred_len suffix prepare = inr f →
      constructed f
  | constructed_file prefix file offset len suffix encoding f :
      message_file_segment prefix file offset len suffix encoding = inr f → constructed f
  | constructed_tracked f rs : constructed f → constructed (tracked f rs).1.1.

(** A frame without a deferred segment announces the length of its parts. *)
Definition frame_wf (f : OutboundFrame) : Prop :=
  deferred_segment f = None → payload_len f = parts_len f.

Lemma checked_add_Some a b n : checked_add a b = Some n → n = a + b ∧ n ≤ USIZE_MAX.
Proof. unfold checked_add. destruct (Z.leb_spec (a + b) USIZE_MAX); naive_solver. Qed.

Lemma checked_sum_fail (parts : list (list Z)) :
  foldl (λ acc part, sum ← acc; checked_add sum (zlen part)) None parts = None.
Proof. by induction parts. Qed.

Lemma checked_sum_Some start parts n :
  checked_sum start parts = Some n → n = start + sum_len parts.
Proof.
  unfold checked_sum. revert start. induction parts as [|p parts IH]; intros start H.
  { simpl in *. injection H as <-. lia. }
  cbn [foldl] in H. cbn [mbind option_bind] in H.
  destruct (checked_add start (zlen p)) as [m|] eqn:E.
  - apply IH in H. apply checked_add_Some in E as [-> _]. simpl. lia.
  -     by rewrite (checked_sum_fail parts) in H.
Qed.

Lemma checked_sum_None start parts :
  checked_sum start parts = None → USIZE_MAX < start + sum_len parts.
Proof.
  unfold checked_sum. revert start. induction parts as [|p parts IH]; intros start H; [done|].
  cbn [foldl] in H. cbn [mbind option_bind] in H. unfold checked_add at 2 in H.
  pose proof (zlen_nonneg (concat parts)). rewrite <-sum_len_concat in *. simpl.
  destruct (Z.leb_spec (start + zlen p) USIZE_MAX).
  - apply IH in H. lia.
  - lia.
Qed.

Lemma sum_len_app a b : sum_len (a ++ b) = sum_len a + sum_len b.
Proof. rewrite !sum_len_concat, concat_app. apply zlen_app. Qed.

Lemma constructed_wf f : constructed f → frame_wf f.
Proof.
  induction 1 as [t p|p|segs|prefix dl suffix prep f H|prefix file off len suffix enc f H|f rs H IH];
    unfold frame_wf, parts_len in *; intros Hd.
  - unfold file_wire_len. simpl. lia.
  - unfold file_wire_len. simpl. lia.
  - unfold file_wire_len. simpl. lia.
  - unfold message_deferred_segment_with_suffix in H. case_match; [|done]. by injection H as <-.
  - unfold message_file_segment in H. destruct (wire_len enc len) as [wl|] eqn:Ew; [|done].
    destruct (checked_add (zlen prefix) wl ≫= _) as [n|] eqn:En; [|done]. injection H as <-.
    apply bind_Some in En as (m & Em & En). apply checked_add_Some in Em as [-> _], En as [-> _].
    unfold file_wire_len. simpl. rewrite Ew. simpl. lia.
  - by apply IH.
Qed.

Lemma resolve_deferred_ok f f' : frame_wf f → resolve_deferred_segment f = inr f' →
  deferred_segment f' = None ∧ payload_len f' = parts_len f'
  ∧ frame_type f' = frame_type f ∧ completion f' = completion f
  ∧ file_segment f' = file_segment f ∧ suffix_segments f' = suffix_segments f
  ∧ (segments f' = segments f
     ∨ ∃ b, deferred_segment f = Some (Prepared b) ∧ segments f' = segments f ++ [b]).
Proof.
  intros Hwf H. unfold resolve_deferred_segment in H.
  destruct (deferred_segment f) as [[b|r|e]|] eqn:Hd; try done.
  - destruct (checked_sum _ _) as [n|] eqn:En; [|done].
    destruct (Z.eqb_spec n (payload_len f)) as [->|]; [|done]. simpl in H. injection H as <-.
    apply checked_sum_Some in En. unfold parts_len. simpl.
    rewrite sum_len_app in *. simpl in *. split_and!; try done; [lia|]. right. eauto.
  - injection H as <-. split_and!; try done; [|by left]. by apply Hwf.
Qed.

(** ** Properties *)

(** a frame that reaches the socket announces the length of what it sends.
    For every frame the constructors make, tracked or not, once its deferred
    segment is prepared the announced payload length is the sum of its
    segments, its file segment's length on the wire (base64 included) and its
    suffix; a deferred segment that fails or has another length than announced
    fails the frame, and nothing else does (short of a length beyond 64
    bits). *)
Theorem resolved_frame_length f : constructed f →
  match resolve_deferred_segment f with
  | inr f' => payload_len f' = parts_len f'
      ∧ segments f' = segments f ++ match deferred_segment f with
                                    | Some (Prepared b) => [b] | _ => [] end
      ∧ suffix_segments f' = suffix_segments f ∧ file_segment f' = file_segment f
  | inl _ => ∃ p, deferred_segment f = Some p ∧
      ∀ b, p = Prepared b → payload_len f ≠ parts_len f + zlen b ∨ USIZE_MAX < parts_len f + zlen b
  end.
Proof.
  intros Hc. apply constructed_wf in Hc as Hwf.
  destruct (resolve_deferred_segment f) as [e|f'] eqn:Hr.
  - unfold resolve_deferred_segment in Hr.
    destruct (deferred_segment f) as [p|] eqn:Hd; [|done]. exists p. split; [done|].
    intros b ->. destruct (checked_sum _ _) as [n|] eqn:En.
    + left. apply checked_sum_Some in En. rewrite sum_len_app in En. simpl in En.
      destruct (Z.eqb_spec n (payload_len f)); [done|]. unfold parts_len. lia.
    + right. unfold parts_len.
      replace (sum_len (segments f) + file_wire_len (file_segment f) + sum_len (suffix_segments f)
        + zlen b) with (file_wire_len (file_segment f)
                        + sum_len (segments f ++ b :: suffix_segments f))
        by (rewrite sum_len_app; simpl; lia).
      apply checked_sum_None in En. done.
  - pose proof (resolve_deferred_ok f f' Hwf Hr) as (_ & -> & _ & _ & Hf & Hs & Hsegs).
    split_and!; try done. unfold resolve_deferred_segment in Hr.
    destruct Hsegs as [Hs'|(b & -> & ->)]; [|done]. rewrite Hs'.
    destruct (deferred_segment f) as [[b|?|?]|]; [|by rewrite app_nil_r..].
    repeat case_match; try done. injection Hr as <-. simpl in Hs'.
    apply (f_equal length) in Hs'. rewrite length_app in Hs'. simpl in Hs'. lia.
Qed.

Lemma resolved_frame_length_witness :
  payload_len (mkOutboundFrame 0 13 [[1; 2; 3]] None
    (Some (mkOutboundFileSegment [7; 7; 7; 7] 0 4 Base64)) [[9; 9]] None) = 13.
Proof.
  pose proof (resolved_frame_length (mkOutboundFrame 0 13 [[1; 2; 3]] None
    (Some (mkOutboundFileSegment [7; 7; 7; 7] 0 4 Base64)) [[9; 9]] None)
    (constructed_file [1; 2; 3] [7; 7; 7; 7] 0 4 [9; 9] Base64 _ eq_refl)) as H.
  cbn [resolve_deferred_segment deferred_segment] in H. exact (proj1 H).
Defined.
