(* ===== verification/WsMessage.v ===== *)
(** * WebSocket messages

    The accumulator that joins data frames, completed messages and the buffer
    pool of [ct_core/src/lib.rs]. *)
From S2P Require Import Prelude Bytes Text IoStream WsMask WireWriter WsFrame.

(** ** The buffer pool *)
Definition MAX_POOLED_WEBSOCKET_BUFFERS : nat := 32.

(** A [Vec<u8>]: its contents and its capacity. *)
Record ByteVec : Type := mkByteVec { vec_data : list Z; vec_capacity : Z }.

(** [Vec::clear], [Vec::resize] and [Vec::extend_from_slice]; a vector that has
    to grow gets just enough room. *)
Definition vec_clear (v : ByteVec) : ByteVec := mkByteVec [] (vec_capacity v).
Definition vec_resize (v : ByteVec) (len : Z) : ByteVec :=
  mkByteVec (take (Z.to_nat len) (vec_data v)
             ++ replicate (Z.to_nat len - length (vec_data v)) 0)
    (Z.max (vec_capacity v) len).
Definition vec_extend (v : ByteVec) (bytes : list Z) : ByteVec :=
  mkByteVec (vec_data v ++ bytes) (Z.max (vec_capacity v) (zlen (vec_data v) + zlen bytes)).

(** [Vec::swap_remove] at an index in range. *)
Definition swap_remove {A} (l : list A) (index : nat) : option (A * list A) :=
  match l !! index, last l with
  | Some x, Some z => Some (x, take (length l - 1) (<[index := z]> l))
  | _, _ => None
  end.

(** [take_buffer] on the pooled buffers. *)
Definition take_buffer (pool : list ByteVec) (min_capacity : Z) : ByteVec * list ByteVec :=
  match list_find (λ v, min_capacity ≤ vec_capacity v) pool with
  | Some (index, _) =>
      match swap_remove pool index with
      | Some r => r
      | None => (mkByteVec [] min_capacity, pool)
      end
  | None => (mkByteVec [] min_capacity, pool)
  end.

Definition acquire (pool : list ByteVec) (len : Z) : ByteVec * list ByteVec :=
  let '(buffer, pool) := take_buffer pool len in (vec_resize buffer len, pool).

Definition acquire_capacity (pool : list ByteVec) (capacity : Z) : ByteVec * list ByteVec :=
  take_buffer pool capacity.

Definition recycle (pool : list ByteVec) (buffer : ByteVec) : list ByteVec :=
  if Nat.ltb (length pool) MAX_POOLED_WEBSOCKET_BUFFERS then pool ++ [vec_clear buffer] else pool.

(** [Drop for PooledWebSocketBuffer] *)
Definition drop_buffer (pool : list ByteVec) (buffer : ByteVec) : list ByteVec :=
  if 0 <? vec_capacity buffer then recycle pool buffer else pool.

(** ** Messages *)
Inductive WebSocketMessageStorage : Type :=
  | StorageSingle (bytes : list Z)
  | StorageSegmented (segments : list (list Z)) (len : Z).

Inductive CompletedWebSocketMessage : Type :=
  | CompletedSingle (bytes : list Z)
  | CompletedSegmented (segments : list (list Z)) (len : Z).

(** [CompletedWebSocketMessage::into_bytes]: the bytes, the buffer that holds
    them if one was taken, and the pool left. *)
Definition completed_into_bytes (m : CompletedWebSocketMessage) (pool : list ByteVec) :
    list Z * option ByteVec * list ByteVec :=
  match m with
  | CompletedSingle bytes => (bytes, None, pool)
  | CompletedSegmented segments len =>
      let '(pooled, pool) := acquire_capacity pool len in
      let pooled := foldl (λ v segment, match segment with [] => v | _ => vec_extend v segment end)
                      pooled segments in
      (vec_data pooled, Some pooled, pool)
  end.

Record WebSocketMessageAccumulator : Type := mkAccumulator {
  acc_opcode : option Z;
  acc_storage : option WebSocketMessageStorage;
  acc_complete : bool;
}.

Definition accumulator_new : WebSocketMessageAccumulator := mkAccumulator None None false.

Definition acc_len (a : WebSocketMessageAccumulator) : Z :=
  match acc_storage a with
  | Some (StorageSingle bytes) => zlen bytes
  | Some (StorageSegmented _ len) => len
  | None => 0
  end.

(** The second half of [push]: the payload is appended. *)
Definition push_payload (a : WebSocketMessageAccumulator) (opcode : option Z) (fin : bool)
    (payload : list Z) : (WebSocketFrameError + unit) * WebSocketMessageAccumulator :=
  if MAX_WEBSOCKET_MESSAGE_LEN <? acc_len a + zlen payload
  then (inl (ws_message_too_big "websocket message exceeds supported length"),
        mkAccumulator opcode (acc_storage a) (acc_complete a))
  else
    let storage :=
      match acc_storage a with
      | None => StorageSingle payload
      | Some (StorageSingle existing) =>
          StorageSegmented [existing; payload] (zlen existing + zlen payload)
      | Some (StorageSegmented segments len) =>
          StorageSegmented (segments ++ [payload]) (len + zlen payload)
      end in
    (inr (), mkAccumulator opcode (Some storage) (if fin then true else acc_complete a)).

Definition push (a : WebSocketMessageAccumulator) (opcode : Z) (fin : bool) (payload : list Z) :
    (WebSocketFrameError + unit) * WebSocketMessageAccumulator :=
  if opcode =? 0x0 then
    match acc_opcode a with
    | None => (inl (ws_protocol "received continuation frame without initial opcode"), a)
    | Some _ => push_payload a (acc_opcode a) fin payload
    end
  else if (opcode =? 0x1) || (opcode =? 0x2) then
    match acc_opcode a with
    | Some _ => (inl (ws_protocol "received new data frame before finishing continuation"), a)
    | None => push_payload a (Some opcode) fin payload
    end
  else (inl (ws_protocol "unsupported data opcode"), a).

Definition take_complete (a : WebSocketMessageAccumulator) :
    option CompletedWebSocketMessage * WebSocketMessageAccumulator :=
  if acc_complete a then
    (match acc_storage a with
     | Some (StorageSingle bytes) => Some (CompletedSingle bytes)
     | Some (StorageSegmented segments len) => Some (CompletedSegmented segments len)
     | None => None
     end, mkAccumulator None None false)
  else (None, a).

(** ** Abstract specification

    A message under assembly is the list of its fragments.  [spec_push] is what
    RFC 6455 asks of the next data frame: the fragments with it, or the close
    code of the violation. *)
Definition spec_push (current : option (list (list Z))) (opcode : Z) (payload : list Z) :
    Z + list (list Z) :=
  let total := zlen (concat (default [] current)) + zlen payload in
  match current with
  | None =>
      if (opcode =? 1) || (opcode =? 2)
      then if MAX_WEBSOCKET_MESSAGE_LEN <? total then inl 1009 else inr [payload]
      else inl 1002
  | Some parts =>
      if opcode =? 0
      then if MAX_WEBSOCKET_MESSAGE_LEN <? total then inl 1009 else inr (parts ++ [payload])
      else inl 1002
  end.

(** One data frame in the reader loop: the frame is pushed and a completed
    message is taken. *)
Definition spec_frame (current : option (list (list Z))) (opcode : Z) (fin : bool)
    (payload : list Z) : Z + (option (list (list Z)) * option (list (list Z))) :=
  match spec_push current opcode payload with
  | inl code => inl code
  | inr parts => if fin then inr (Some parts, None) else inr (None, Some parts)
  end.

(** The message the accumulator hands over for some fragments. *)
Definition completed_of (parts : list (list Z)) : CompletedWebSocketMessage :=
  match parts with
  | [bytes] => CompletedSingle bytes
  | _ => CompletedSegmented parts (zlen (concat parts))
  end.

Definition storage_of (parts : list (list Z)) : WebSocketMessageStorage :=
  match parts with
  | [bytes] => StorageSingle bytes
  | _ => StorageSegmented parts (zlen (concat parts))
  end.

(** The accumulator holds [current]. *)
Definition holds_message (a : WebSocketMessageAccumulator) (current : option (list (list Z))) :
    Prop :=
  acc_complete a = false ∧
  match current with
  | None => acc_opcode a = None ∧ acc_storage a = None
  | Some parts =>
      is_Some (acc_opcode a) ∧ acc_storage a = Some (storage_of parts) ∧ parts ≠ []
      ∧ zlen (concat parts) ≤ MAX_WEBSOCKET_MESSAGE_LEN
  end.

Lemma acc_len_holds a current : holds_message a current →
  acc_len a = zlen (concat (default [] current)).
Proof.
  intros [_ H]. unfold acc_len. destruct current as [parts|]; [|by destruct H as [_ ->]].
  destruct H as (_ & -> & Hne & _). destruct parts as [|p [|q parts]]; [done| |done].
  simpl. by rewrite app_nil_r.
Qed.

Lemma storage_push parts payload : parts ≠ [] →
  match storage_of parts with
  | StorageSingle existing =>
      StorageSegmented [existing; payload] (zlen existing + zlen payload)
  | StorageSegmented segments len =>
      StorageSegmented (segments ++ [payload]) (len + zlen payload)
  end = storage_of (parts ++ [payload]).
Proof.
  destruct parts as [|p [|q parts]]; [done| |]; intros _; simpl.
  - by rewrite app_nil_r, zlen_app.
  - f_equal. rewrite concat_app, !zlen_app. simpl. rewrite app_nil_r. lia.
Qed.

Definition accumulate (a : WebSocketMessageAccumulator) (opcode : Z) (fin : bool)
    (payload : list Z) :
    (WebSocketFrameError + option CompletedWebSocketMessage) * WebSocketMessageAccumulator :=
  match push a opcode fin payload with
  | (inl e, a) => (inl e, a)
  | (inr _, a) => let '(m, a) := take_complete a in (inr m, a)
  end.

Lemma take_complete_of (opcode : Z) parts : parts ≠ [] →
  take_complete (mkAccumulator (Some opcode) (Some (storage_of parts)) true)
  = (Some (completed_of parts), accumulator_new).
Proof. by destruct parts as [|p [|q parts]]. Qed.

Lemma accumulate_spec a current opcode fin payload :
  holds_message a current →
  match accumulate a opcode fin payload, spec_frame current opcode fin payload with
  | (inl e, _), inl code => close_code e = Some code ∧ io_kind e = None
  | (inr m, a'), inr (finished, next) => m = completed_of <$> finished ∧ holds_message a' next
  | _, _ => False
  end.
Proof.
  intros Hh. pose proof (acc_len_holds a current Hh) as Hlen. destruct Hh as [Hc Hh].
  unfold accumulate, push, spec_frame, spec_push, push_payload. rewrite Hlen, Hc. cbv zeta.
  destruct current as [parts|]; simpl in *.
  - destruct Hh as ([op Hop] & Hst & Hne & Hle). rewrite Hop, Hst.
    destruct (Z.eqb_spec opcode 0) as [->|]; [|by destruct (_ || _)].
    destruct (Z.ltb_spec MAX_WEBSOCKET_MESSAGE_LEN (zlen (concat parts) + zlen payload)); [done|].
    pose proof (storage_push parts payload Hne) as Hsp.
    assert (parts ++ [payload] ≠ []) as Hne' by by destruct parts.
    destruct fin.
    + rewrite Hsp, take_complete_of by done. split; [done|]. by split_and!.
    + rewrite Hsp. unfold take_complete. simpl. split; [done|]. split_and!; try done.
      rewrite concat_app, zlen_app. simpl. rewrite app_nil_r. lia.
  - destruct Hh as [Hop Hst]. rewrite Hop, Hst.
    destruct (Z.eqb_spec opcode 0) as [->|]; [done|].
    destruct ((opcode =? 1) || (opcode =? 2)); [|done]. change (zlen []) with 0.
    destruct (Z.ltb_spec MAX_WEBSOCKET_MESSAGE_LEN (0 + zlen payload)); [done|].
    destruct fin; simpl; (split; [done|]); split_and!; try done.
    simpl in *; rewrite ?app_nil_r; lia.
Qed.

(** ** Clean buffers *)

(** Pooled buffers are empty, and there are at most 32 of them. *)
Definition pool_ok (pool : list ByteVec) : Prop :=
  Forall (λ v, vec_data v = []) pool ∧ (length pool ≤ MAX_POOLED_WEBSOCKET_BUFFERS)%nat.

Lemma swap_remove_perm {A} (l : list A) index x l' :
  swap_remove l index = Some (x, l') → l ≡ₚ x :: l'.
Proof.
  unfold swap_remove. destruct (l !! index) as [y|] eqn:Hi; [|done].
  destruct (last l) as [z|] eqn:Hl; [|done]. intros [= -> <-].
  apply last_Some in Hl as [l0 ->]. rewrite length_app. simpl.
  replace (length l0 + 1 - 1)%nat with (length l0) by lia.
  assert (index ≤ length l0)%nat as Hle.
  { apply lookup_lt_Some in Hi. rewrite length_app in Hi. simpl in Hi. lia. }
  destruct (decide (index = length l0)) as [->|Hne].
  - rewrite insert_app_r_alt, Nat.sub_diag by lia. rewrite take_app_length.
    rewrite lookup_app_r, Nat.sub_diag in Hi by lia. injection Hi as ->.
    by rewrite Permutation_app_comm.
  - rewrite insert_app_l, take_app_length' by (rewrite ?length_insert; lia).
    rewrite lookup_app_l in Hi by lia.
    rewrite (Permutation_app_comm l0 [z]). simpl.
    rewrite <-(take_drop_middle l0 index x Hi) at 1.
    rewrite (insert_take_drop l0 index z) by lia. simpl.
    rewrite <-!Permutation_middle. apply perm_swap.
Qed.

Lemma take_buffer_ok pool n v pool' : pool_ok pool → take_buffer pool n = (v, pool') →
  vec_data v = [] ∧ pool_ok pool' ∧ (length pool' ≤ length pool)%nat.
Proof.
  intros [He Hl] H. unfold take_buffer in H.
  destruct (list_find _ _) as [[i w]|]; [|by injection H as <- <-].
  destruct (swap_remove pool i) as [[x l]|] eqn:Hs; [|by injection H as <- <-].
  injection H as -> ->. apply swap_remove_perm in Hs. unfold pool_ok. rewrite Hs in He, Hl.
  apply Forall_cons in He as [? ?]. rewrite Hs. simpl in *. split_and!; try done; lia.
Qed.

Lemma drop_buffer_ok pool v : pool_ok pool → pool_ok (drop_buffer pool v).
Proof.
  intros [He Hl]. unfold drop_buffer, recycle. destruct (0 <? _); [|done].
  destruct (Nat.ltb_spec (length pool) MAX_POOLED_WEBSOCKET_BUFFERS); [|done].
  split; [apply Forall_app; split; [done|by constructor]|]. rewrite length_app. simpl. lia.
Qed.

Lemma vec_extend_segments segments v :
  vec_data (foldl (λ v segment, match segment with [] => v | _ => vec_extend v segment end)
              v segments) = vec_data v ++ concat segments.
Proof.
  revert v. induction segments as [|s segments IH]; intros v; simpl; [by rewrite app_nil_r|].
  rewrite IH. destruct s; [done|]. simpl. by rewrite <-(assoc_L (++)).
Qed.

Definition completed_segments (m : CompletedWebSocketMessage) : list (list Z) :=
  match m with CompletedSingle b => [b] | CompletedSegmented segments _ => segments end.

Lemma completed_into_bytes_ok m pool : pool_ok pool →
  let '(bytes, v, pool') := completed_into_bytes m pool in
  bytes = concat (completed_segments m) ∧ pool_ok pool'
  ∧ (∀ w, v = Some w → vec_data w = bytes).
Proof.
  intros Hp. unfold completed_into_bytes. destruct m as [b|segments len]; simpl.
  { by rewrite app_nil_r. }
  destruct (acquire_capacity pool len) as [v pool'] eqn:E.
  apply take_buffer_ok in E as (Hv & Hp' & _); [|done].
  rewrite vec_extend_segments, Hv. split_and!; [done|done|]. intros w [= <-].
  by rewrite vec_extend_segments, Hv.
Qed.

(** ** Pools in use

    The pool with the buffers lent out.  Owners overwrite their buffers and drop
    them in any order. *)
Inductive pool_op : Type :=
  | PoolAcquire (len : Z)
  | PoolAcquireCapacity (capacity : Z)
  | PoolWrite (index : nat) (v : ByteVec)
  | PoolDrop (index : nat).

Definition pool_step (st : list ByteVec * list ByteVec) (op : pool_op) :
    list ByteVec * list ByteVec :=
  let '(pool, lent) := st in
  match op with
  | PoolAcquire len => let '(v, pool) := acquire pool len in (pool, lent ++ [v])
  | PoolAcquireCapacity n => let '(v, pool) := acquire_capacity pool n in (pool, lent ++ [v])
  | PoolWrite index v => (pool, <[index := v]> lent)
  | PoolDrop index =>
      match lent !! index with
      | Some v => (drop_buffer pool v, delete index lent)
      | None => (pool, lent)
      end
  end.

Lemma acquire_ok pool len v pool' : pool_ok pool → acquire pool len = (v, pool') →
  vec_data v = replicate (Z.to_nat len) 0 ∧ pool_ok pool'.
Proof.
  intros Hp H. unfold acquire in H. destruct (take_buffer pool len) as [w p] eqn:E.
  injection H as <- <-. apply take_buffer_ok in E as (Hw & ? & _); [|done].
  unfold vec_resize. simpl. rewrite Hw, take_nil. simpl. by rewrite Nat.sub_0_r.
Qed.

Lemma pool_step_ok st op : pool_ok st.1 → pool_ok (pool_step st op).1.
Proof.
  destruct st as [pool lent]. intros Hp. destruct op as [len|n|i v|i]; simpl; [| |done|].
  - destruct (acquire pool len) as [v p] eqn:E. by apply acquire_ok in E as [_ ?].
  - destruct (acquire_capacity pool n) as [v p] eqn:E. by apply take_buffer_ok in E as (_ & ? & _).
  - destruct (lent !! i); [by apply drop_buffer_ok|done].
Qed.

Lemma pool_run_ok st ops : pool_ok st.1 → pool_ok (foldl pool_step st ops).1.
Proof.
  revert st. induction ops as [|op ops IH]; intros st H; [done|]. by apply IH, pool_step_ok.
Qed.

(** ** Properties *)

(** C15: the accumulator implements message assembly as RFC 6455 asks.  Holding
    the fragments of the current message, a data frame has exactly the specified
    effect: a violation (a continuation with nothing to continue, a new message
    inside one, an unknown opcode) fails with close code 1002, a message beyond
    [2^24] octets with 1009, a final frame hands over all fragments in order and
    leaves the accumulator empty, any other frame extends the message. *)
Theorem accumulator_refines a current opcode fin payload :
  holds_message a current →
  match accumulate a opcode fin payload, spec_frame current opcode fin payload with
  | (inl e, _), inl code => close_code e = Some code ∧ io_kind e = None
  | (inr m, a'), inr (finished, next) => m = completed_of <$> finished ∧ holds_message a' next
  | _, _ => False
  end.
Proof. apply accumulate_spec. Qed.

Lemma accumulator_refines_witness :
  holds_message (accumulate (mkAccumulator (Some 2) (Some (StorageSingle [1])) false)
                   0 false [2; 3]).2 (Some [[1]; [2; 3]]).
Proof.
  apply (accumulator_refines (mkAccumulator (Some 2) (Some (StorageSingle [1])) false)
    (Some [[1]]) 0 false [2; 3]).
  split; [reflexivity|]. split_and!; [by eexists|reflexivity|discriminate|].
  vm_compute. discriminate.
Defined.

(** pooled buffers never leak.  However buffers are taken, overwritten and
    dropped, at most 32 are kept, a buffer taken for a frame reads as zeros, and
    a fragmented message is joined to exactly its fragments' octets: nothing of
    an earlier message shows. *)
Theorem buffer_pool_clean ops :
  let pool := (foldl pool_step ([], []) ops).1 in
  (length pool ≤ 32)%nat
  ∧ (∀ len, vec_data (acquire pool len).1 = replicate (Z.to_nat len) 0)
  ∧ (∀ m, (completed_into_bytes m pool).1.1 = concat (completed_segments m)).
Proof.
  intros pool. assert (pool_ok pool) as Hp by (apply pool_run_ok; split; simpl; [constructor|lia]).
  split_and!.
  - apply Hp.
  - intros len. destruct (acquire pool len) as [v p] eqn:E. by apply acquire_ok in E as [? _].
  - intros m. pose proof (completed_into_bytes_ok m pool Hp) as H.
    destruct (completed_into_bytes m pool) as [[bytes v] p]. by destruct H.
Qed.
