(* ===== verification/WsMessageWire.v ===== *)
(** * WebSocket messages on the wire

    What [write_websocket_frame_mode] makes of a message of several segments:
    one frame per non-empty segment, batched through the scratch buffer. *)
From S2P Require Import Prelude Bytes Text IoStream WsMask WireWriter WsFrame WsMessage.

(** The frames of a message with fragments [parts]: the first has the opcode,
    the others are continuations, the last is final. *)
Fixpoint message_frames (opcode : Z) (parts : list (list Z)) (masks : list (option (list Z))) :
    list Z :=
  match parts, masks with
  | p :: ps, m :: ms =>
      match ps with
      | [] => frame_bytes opcode true p m
      | _ => frame_bytes opcode false p m ++ message_frames 0 ps ms
      end
  | _, _ => []
  end.

Definition masks_ok (mp : bool) (masks : list (option (list Z))) : Prop :=
  Forall (λ m, is_masked m = mp ∧ mask_ok m) masks.

(** [p] was sent by way of the scratch buffer: what is out and what is still
    batched, together. *)
Definition batched (w w' : Writer) (bytes : list Z) : Prop :=
  w_out w' ++ w_scratch w' = w_out w ++ w_scratch w ++ bytes.

Lemma batched_trans w1 w2 w3 a b : batched w1 w2 a → batched w2 w3 b → batched w1 w3 (a ++ b).
Proof.
  unfold batched. intros H1 H2. rewrite H2, (assoc_L (++)), H1. by rewrite !(assoc_L (++)).
Qed.

Lemma flush_batch_ok w u w' : flush_websocket_frame_batch w = (inr u, w') →
  w_out w' = w_out w ++ w_scratch w ∧ w_scratch w' = [] ∧ w_rng w' = w_rng w.
Proof.
  intros H. unfold flush_websocket_frame_batch in H.
  apply wr_bind_ok in H as (s & w1 & H1 & H). injection H1 as <- <-.
  destruct (w_scratch w) as [|b s] eqn:Es.
  - injection H as _ <-. by rewrite app_nil_r.
  - apply wr_bind_ok in H as (? & w1 & H1 & H).
    apply wr_write_all_ok in H1 as [[H1 H2] _]. apply put_scratch_ok in H as [[H3 H4] H5].
    rewrite H5, H3, H1, H4, H2. by rewrite app_nil_r.
Qed.

Lemma last_non_empty_None segs index :
  last_non_empty segs index = None ↔ List.filter non_empty segs = [].
Proof.
  revert index. induction segs as [|s segs IH]; intros index; simpl; [done|].
  destruct (last_non_empty segs (S index)) eqn:E.
  - split; [done|]. destruct (non_empty s); [done|]. rewrite <-(IH (S index)). by rewrite E.
  - apply IH in E. rewrite E. by destruct (non_empty s).
Qed.

Lemma last_non_empty_ge segs index last : last_non_empty segs index = Some last → (index ≤ last)%nat.
Proof.
  revert index. induction segs as [|s segs IH]; intros index; simpl; [done|].
  destruct (last_non_empty segs (S index)) eqn:E.
  - intros [= <-]. apply IH in E. lia.
  - destruct (non_empty s); [|done]. intros [= <-]. lia.
Qed.

Lemma write_continuations_none e op segs mp index last sent w :
  List.filter non_empty segs = [] →
  write_continuations e op segs mp index last sent w = (inr (), w).
Proof.
  revert index. induction segs as [|s segs IH]; intros index; simpl; [done|].
  destruct (non_empty s); [done|]. intros H. simpl. by apply IH.
Qed.

(** One fragment of the continuation loop. *)
Definition write_one (e : endianness) (opcode : Z) (fin : bool) (segment : list Z)
    (mask_payload : bool) : wr unit :=
  '(header, mask) ← websocket_frame_header opcode fin (zlen segment) mask_payload;
  let frame_len := zlen header + zlen segment in
  (if WEBSOCKET_COALESCE_FRAME_SIZE <? frame_len then
     _ ← flush_websocket_frame_batch;
     _ ← write_websocket_frame_fragment_mode e opcode fin (zlen segment) segment mask_payload;
     put_scratch []
   else
     scratch ← get_scratch;
     _ ← (if WEBSOCKET_COALESCE_FRAME_SIZE <? zlen scratch + frame_len
          then flush_websocket_frame_batch else mret ());
     scratch ← get_scratch;
     put_scratch (scratch ++ header ++
       match mask with
       | Some mask => xor_websocket_mask e segment mask 0
       | None => segment
       end)).

Lemma write_one_ok e op fin s mp w u w' : bytes_ok s → rng_ok w →
  write_one e op fin s mp w = (inr u, w') →
  ∃ m, is_masked m = mp ∧ mask_ok m ∧ rng_ok w' ∧ batched w w' (frame_bytes op fin s m).
Proof.
  intros Hs Hr H. unfold write_one in H.
  apply wr_bind_ok in H as ([header mask] & w1 & H1 & H).
  apply websocket_frame_header_ok in H1 as (Hr1 & Hmp & Hm & Ho1 & Hs1 & Hh); [|done].
  cbv zeta in H. unfold batched. rewrite <-Ho1, <-Hs1.
  destruct (WEBSOCKET_COALESCE_FRAME_SIZE <? zlen header + zlen s).
  - apply wr_bind_ok in H as (? & w2 & H2 & H). apply flush_batch_ok in H2 as (Ho2 & Hs2 & Hr2).
    apply wr_bind_ok in H as (? & w3 & H3 & H).
    apply fragment_ok in H3 as (m & ? & ? & Ho3 & Hr3); [|done|unfold rng_ok in *; by rewrite Hr2].
    apply put_scratch_ok in H as [[Ho4 Hr4] Hs4]. exists m. split_and!; try done.
    + unfold rng_ok in *. by rewrite Hr4.
    + rewrite Hs4, Ho4, !app_nil_r, Ho3, Ho2. by rewrite (assoc_L (++)).
  - apply wr_bind_ok in H as (sc & w2 & H2 & H). injection H2 as <- <-.
    apply wr_bind_ok in H as (? & w3 & H3 & H).
    assert (w_out w3 ++ w_scratch w3 = w_out w1 ++ w_scratch w1 ∧ w_rng w3 = w_rng w1)
      as [Hos3 Hr3].
    { destruct (WEBSOCKET_COALESCE_FRAME_SIZE <? _); [|by injection H3 as _ <-].
      apply flush_batch_ok in H3 as (-> & -> & ->). by rewrite app_nil_r. }
    apply wr_bind_ok in H as (sc2 & w4 & H4 & H). injection H4 as <- <-.
    apply put_scratch_ok in H as [[Ho4 Hr4] Hs4]. exists mask. split_and!; try done.
    + unfold rng_ok in *. by rewrite Hr4, Hr3.
    + assert (header ++ match mask with
                        | Some m => xor_websocket_mask e s m 0 | None => s end
        = frame_bytes op fin s mask) as Hf.
      { subst header. unfold frame_bytes. fold (is_masked mask). rewrite Hmp.
        destruct mask as [m|]; simpl; [|by rewrite app_nil_r].
        destruct Hm. rewrite xor_websocket_mask_spec by done. by rewrite <-!(assoc_L (++)). }
      rewrite Hs4, Ho4, app_nil_r, Hf, (assoc_L (++)), Hos3. by rewrite <-!(assoc_L (++)).
Qed.

Lemma write_continuations_cons e op s segs mp index last sent w :
  non_empty s = true →
  write_continuations e op (s :: segs) mp index last sent w
  = (_ ← write_one e (if sent then 0 else op) (Nat.eqb index last) s mp;
     write_continuations e op segs mp (S index) last true) w.
Proof.
  intros Hs. cbn [write_continuations]. rewrite Hs. cbn [negb]. unfold write_one.
  unfold mbind, wr_bind.
  destruct (websocket_frame_header _ _ _ _ w) as [[e0|[header mask]] w1]; [done|]. cbv zeta.
  by destruct (WEBSOCKET_COALESCE_FRAME_SIZE <? _).
Qed.

Lemma write_continuations_ok e op mp segs index last sent w u w' :
  Forall bytes_ok segs → rng_ok w → last_non_empty segs index = Some last →
  write_continuations e op segs mp index last sent w = (inr u, w') →
  ∃ masks, length masks = length (List.filter non_empty segs) ∧ masks_ok mp masks ∧ rng_ok w'
    ∧ batched w w' (message_frames (if sent then 0 else op) (List.filter non_empty segs) masks).
Proof.
  revert index sent w. induction segs as [|s segs IH]; intros index sent w Hb Hr Hlast H; [done|].
  apply Forall_cons in Hb as [Hs Hb]. simpl in Hlast.
  destruct (non_empty s) eqn:Hne; [|].
  - rewrite write_continuations_cons in H by done. apply wr_bind_ok in H as (? & w1 & H1 & H).
    apply write_one_ok in H1 as (m & Hmp & Hm & Hr1 & Hb1); [|done..].
    simpl. rewrite Hne. destruct (last_non_empty segs (S index)) as [l|] eqn:El.
    + injection Hlast as ->. pose proof (last_non_empty_ge _ _ _ El).
      rewrite (proj2 (Nat.eqb_neq index last)) in Hb1 by lia.
      apply IH in H as (masks & Hlen & Hms & Hr' & Hb2); [|done..].
      exists (m :: masks). split_and!; [by simpl; f_equal|by constructor|done|].
      cbn [message_frames]. destruct (List.filter non_empty segs) as [|p ps] eqn:Ef.
      { apply last_non_empty_None with (index := S index) in Ef. by rewrite Ef in El. }
      by apply (batched_trans _ w1).
    + injection Hlast as <-. rewrite Nat.eqb_refl in Hb1.
      apply last_non_empty_None in El. rewrite El.
      rewrite write_continuations_none in H by done. injection H as _ <-.
      exists [m]. split_and!; try done. by constructor.
  - destruct (last_non_empty segs (S index)) as [l|] eqn:El; [|done]. injection Hlast as ->.
    cbn [write_continuations] in H. rewrite Hne in H. cbn [negb] in H. simpl. rewrite Hne.
    by apply IH in H.
Qed.

Lemma message_frames_single op p m : message_frames op [p] [m] = frame_bytes op true p m.
Proof. done. Qed.

Lemma filter_non_empty_concat segs : concat (List.filter non_empty segs) = concat segs.
Proof.
  induction segs as [|[|b s] segs IH]; [done|done|]. simpl. by rewrite IH.
Qed.

(** A data message on the wire, whichever way it is framed. *)
Definition message_parts (segs : list (list Z)) : list (list Z) :=
  match List.filter non_empty segs with [] => [[]] | parts => parts end.

Lemma message_parts_concat segs : concat (message_parts segs) = concat segs.
Proof.
  rewrite <-(filter_non_empty_concat segs). unfold message_parts.
  by destruct (List.filter non_empty segs).
Qed.

Lemma filter_non_empty_ok segs : Forall bytes_ok segs →
  Forall bytes_ok (List.filter non_empty segs).
Proof.
  induction 1 as [|s segs Hs _ IH]; simpl; [done|]. destruct (non_empty s); [by constructor|done].
Qed.

Lemma message_parts_ok segs : Forall bytes_ok segs →
  message_parts segs ≠ [] ∧ Forall bytes_ok (message_parts segs).
Proof.
  intros H%filter_non_empty_ok. unfold message_parts.
  destruct (List.filter non_empty segs); [|done]. split; [done|]. by repeat constructor.
Qed.

Lemma write_continuation_frames_ok e op segs mp w u w' : Forall bytes_ok segs → rng_ok w →
  write_websocket_continuation_frames e op segs mp w = (inr u, w') →
  ∃ masks, length masks = length (message_parts segs) ∧ masks_ok mp masks ∧ rng_ok w'
    ∧ w_out w' = w_out w ++ message_frames op (message_parts segs) masks.
Proof.
  intros Hb Hr H. unfold write_websocket_continuation_frames in H.
  pose proof (filter_non_empty_ok segs Hb) as Hfb.
  unfold message_parts, first_non_empty in *.
  destruct (Nat.leb_spec (length (List.filter non_empty segs)) 1) as [Hle|Hgt].
  - apply fragment_ok in H as (m & Hmp & Hm & Ho & Hr'); [|destruct Hfb; [by constructor|done]|done].
    exists [m]. destruct (List.filter non_empty segs) as [|p [|q ps]]; [..|simpl in Hle; lia];
      (split_and!; [done|by repeat constructor|done|done]).
  - destruct (last_non_empty segs 0) as [last|] eqn:El; [|done].
    apply wr_bind_ok in H as (? & w1 & H1 & H). apply put_scratch_ok in H1 as [[Ho1 Hr1] Hs1].
    apply wr_bind_ok in H as (? & w2 & H2 & H).
    apply write_continuations_ok in H2 as (masks & Hlen & Hms & Hr2 & Hb2);
      [|done|unfold rng_ok in *; by rewrite Hr1|done].
    apply flush_batch_ok in H as (Ho & _ & Hr3). unfold batched in Hb2.
    rewrite Hs1, Ho1, app_nil_r in Hb2. exists masks.
    destruct (List.filter non_empty segs) as [|p ps] eqn:Ef; [simpl in Hgt; lia|].
    split_and!; [done|done|unfold rng_ok in *; by rewrite Hr3|]. by rewrite Ho, Hb2.
Qed.

(** Data messages, and frames of any opcode with one segment. *)
Lemma write_frame_mode_ok e op n segs suffix mp w u w' :
  op = 1 ∨ op = 2 ∨ (length (List.filter non_empty (segs ++ suffix)) ≤ 1)%nat →
  zlen (concat (segs ++ suffix)) ≤ n → Forall bytes_ok (segs ++ suffix) → rng_ok w →
  write_websocket_frame_mode e op n segs suffix mp w = (inr u, w') →
  ∃ masks, length masks = length (message_parts (segs ++ suffix)) ∧ masks_ok mp masks
    ∧ rng_ok w' ∧ w_out w' = w_out w ++ message_frames op (message_parts (segs ++ suffix)) masks.
Proof.
  intros Hop Hn Hb Hr H. unfold write_websocket_frame_mode in H. cbv zeta in H.
  set (l := segs ++ suffix) in *.
  destruct (((op =? 1) || (op =? 2)) && Nat.ltb 1 (length (List.filter non_empty l))) eqn:Hd.
  - by apply write_continuation_frames_ok in H.
  - assert (length (List.filter non_empty l) ≤ 1)%nat as Hle.
    { destruct Hop as [-> |[-> |Hle]]; [..|done]; by apply Nat.ltb_ge in Hd. }
    assert (zlen (first_non_empty l) ≤ n) as Hfn.
    { rewrite <-filter_non_empty_concat in Hn. unfold first_non_empty.
      destruct (List.filter non_empty l) as [|p ps]; simpl in *; [done|].
      rewrite zlen_app in Hn. pose proof (zlen_nonneg (concat ps)). lia. }
    rewrite Z.min_r in H by done.
    apply (write_continuation_frames_ok e op l mp w u w' Hb Hr).
    unfold write_websocket_continuation_frames. by rewrite (proj2 (Nat.leb_le _ _)).
Qed.

(** ** Output only grows *)
Definition grows {A} (m : wr A) : Prop := ∀ w, w_out w `prefix_of` w_out (m w).2.

Lemma grows_bind {A B} (m : wr A) (f : A → wr B) :
  grows m → (∀ a, grows (f a)) → grows (m ≫= f).
Proof.
  intros Hm Hf w. specialize (Hm w). unfold mbind, wr_bind.
  destruct (m w) as [[e|a] w1]; [done|]. simpl in Hm. etrans; [exact Hm|apply Hf].
Qed.

Lemma grows_same {A} (m : wr A) : (∀ w, w_out (m w).2 = w_out w) → grows m.
Proof. intros H w. by rewrite H. Qed.

Lemma grows_spec {A} (m : wr A) bytes P : wr_spec m bytes P → grows m.
Proof.
  intros H w. specialize (H w). destruct (m w) as [[e|a] w1]; simpl.
  - destruct H as (k & _ & ->). by exists k.
  - destruct H as [[-> _] _]. by exists bytes.
Qed.

Lemma grows_vectored bytes : grows (wr_write_vectored bytes).
Proof.
  intros w. unfold wr_write_vectored. destruct (w_script w) as [|[n|n e|] s]; simpl;
    first [done | by eexists].
Qed.

Ltac solve_grows :=
  repeat first
    [ solve [auto]
    | apply grows_bind; [|intros]
    | apply (grows_spec _ _ _ (wr_spec_write_all _))
    | apply (grows_spec _ _ _ wr_spec_flush)
    | apply grows_vectored
    | match goal with
      | |- grows (mret _) => by apply grows_same
      | |- grows (wr_fail _) => by apply grows_same
      | |- grows get_scratch => by apply grows_same
      | |- grows (put_scratch _) => by apply grows_same
      | |- grows random_mask => by apply grows_same
      | |- grows is_write_vectored => by apply grows_same
      | |- grows (match ?x with _ => _ end) => destruct x
      | |- grows (let _ := _ in _) => cbv zeta
      end ].

Lemma grows_write_vectored_loop fuel header payload ho po :
  grows (write_vectored_loop fuel header payload ho po).
Proof.
  revert ho po. induction fuel as [|fuel IH]; intros; cbn [write_vectored_loop]; solve_grows.
Qed.

Lemma grows_masked_chunks fuel e mask remaining off :
  grows (write_masked_chunks fuel e mask remaining off).
Proof.
  revert remaining off. induction fuel as [|fuel IH]; intros; cbn [write_masked_chunks]; solve_grows.
Qed.

Lemma grows_frame_header op fin n mp : grows (websocket_frame_header op fin n mp).
Proof. unfold websocket_frame_header. solve_grows. Qed.

Lemma grows_fragment e op fin n payload mp :
  grows (write_websocket_frame_fragment_mode e op fin n payload mp).
Proof.
  unfold write_websocket_frame_fragment_mode, write_masked_websocket_frame,
    write_unmasked_websocket_frame.
  pose proof grows_frame_header. pose proof grows_masked_chunks.
  pose proof grows_write_vectored_loop. solve_grows.
Qed.

Lemma grows_flush_batch : grows flush_websocket_frame_batch.
Proof. unfold flush_websocket_frame_batch. solve_grows. Qed.

Lemma grows_write_continuations e op segs mp index last sent :
  grows (write_continuations e op segs mp index last sent).
Proof.
  pose proof grows_frame_header. pose proof grows_flush_batch. pose proof grows_fragment.
  revert index sent. induction segs as [|s segs IH]; intros; cbn [write_continuations]; solve_grows.
Qed.

Lemma grows_frame_mode e op n segs suffix mp :
  grows (write_websocket_frame_mode e op n segs suffix mp).
Proof.
  unfold write_websocket_frame_mode, write_websocket_continuation_frames.
  pose proof grows_fragment. pose proof grows_flush_batch.
  pose proof grows_write_continuations. solve_grows.
Qed.
