(* ===== verification/Readers.v ===== *)
(** * Connection readers

    The reader tasks of [ct_core/src/lib.rs]: [spawn_connection_reader] for
    RawSocket, [spawn_websocket_reader] with [handle_websocket_message].  A
    reader runs on its half of the stream and posts to the channels of the
    connection; what the channels and the shared buffer pool answer is the
    environment's. *)
From S2P Require Import Prelude Bytes Text WampTypes RawFrame DemoSerde MsgpackMessage Json WampParse IoStream WsMask.
From S2P Require Import RawSocketFrames WireWriter WsFrame OutboundFrame WsMessage WsMessageWire.

Inductive ConnectionTaskSignal : Type := ReaderClosed | ReaderGracefulClose | WriterClosed.

(** Whether the [n]-th send of a channel succeeds, whether there is a heartbeat
    to tell pongs to and an idle timeout, and the pooled buffers when the [n]-th
    message is handled. *)
Record ReaderEnv : Type := mkReaderEnv {
  frame_tx_ok : nat → bool;
  send_tx_ok : nat → bool;
  pong_tx : bool;
  idle_timeout : bool;
  pool_at : nat → list ByteVec;
}.

(** What a reader posted: parsed messages, frames for the writer, pongs. *)
Record ReaderOut : Type := mkReaderOut {
  posted : list ParsedMessage;
  replies : list OutboundFrame;
  pongs : list (list Z);
}.

Definition out_empty : ReaderOut := mkReaderOut [] [] [].

(** How one round of a reader loop ends. *)
Inductive round : Type :=
  | Next
  | Done (signal : ConnectionTaskSignal)
  | Waiting     (* an await that nothing ends *)
  | Panicked.

(** [frame_tx.send(parsed).await] and [send_tx.send(frame).await]: whether they
    succeed. *)
Definition post_frame (env : ReaderEnv) (p : ParsedMessage) (o : ReaderOut) : bool * ReaderOut :=
  if frame_tx_ok env (length (posted o))
  then (true, mkReaderOut (posted o ++ [p]) (replies o) (pongs o)) else (false, o).

Definition post_reply (env : ReaderEnv) (f : OutboundFrame) (o : ReaderOut) : bool * ReaderOut :=
  if send_tx_ok env (length (replies o))
  then (true, mkReaderOut (posted o) (replies o ++ [f]) (pongs o)) else (false, o).

Definition post_pong (env : ReaderEnv) (payload : list Z) (o : ReaderOut) : ReaderOut :=
  if pong_tx env then mkReaderOut (posted o) (replies o) (pongs o ++ [payload]) else o.

Section readers.
Context `{SL : !SerdeLib}.

(** ** RawSocket *)

(** One round of [spawn_connection_reader] for a frame that was read. *)
Definition rawsocket_frame (env : ReaderEnv) (s : Serializer) (frame : InboundFrame)
    (o : ReaderOut) : round * ReaderOut :=
  match frame with
  | Message payload =>
      match parse_message s payload with
      | Ok parsed =>
          let '(ok, o) := post_frame env parsed o in
          (if (ok : bool) then Next else Done ReaderClosed, o)
      | Err _ => (Done ReaderClosed, o)
      | _ => (Panicked, o)
      end
  | Ping payload =>
      let '(ok, o) := post_reply env (control 0x02 payload) o in
      (if (ok : bool) then Next else Done ReaderClosed, o)
  | Pong payload => (Next, post_pong env payload o)
  end.

Definition connection_reader_round (env : ReaderEnv) (s : Serializer) (exponent : Z)
    (o : ReaderOut) (st : IoStream) : round * ReaderOut * IoStream :=
  let max_payload := Z.shiftl 1 exponent in
  let upgraded_protocol := 24 <? exponent in
  match read_inbound_frame max_payload upgraded_protocol st with
  | (SPending, st) => (if idle_timeout env then Done ReaderClosed else Waiting, o, st)
  | (SErr _, st) => (Done ReaderClosed, o, st)
  | (SOk frame, st) => (rawsocket_frame env s frame o, st)
  end.

Fixpoint connection_reader (fuel : nat) (env : ReaderEnv) (s : Serializer) (exponent : Z)
    (o : ReaderOut) (st : IoStream) : round * ReaderOut * IoStream :=
  match fuel with
  | O => (Next, o, st)
  | S fuel =>
      match connection_reader_round env s exponent o st with
      | (Next, o, st) => connection_reader fuel env s exponent o st
      | r => r
      end
  end.

(** ** WebSocket *)

(** Why a message is not posted. *)
Inductive HandleError : Type :=
  | NotUtf8
  | EnqueueFailed
  | ParseFailed (e : ParseError)
  | HandlePanic.

Definition post_parsed (env : ReaderEnv) (parsed : outcome ParseError ParsedMessage)
    (o : ReaderOut) : (HandleError + unit) * ReaderOut :=
  match parsed with
  | Ok parsed =>
      let '(ok, o) := post_frame env parsed o in
      (if (ok : bool) then inr () else inl EnqueueFailed, o)
  | Err e => (inl (ParseFailed e), o)
  | _ => (inl HandlePanic, o)
  end.

(** [std::str::from_utf8(bytes).is_err()] *)
Definition not_utf8 (bytes : list Z) : bool :=
  match utf8_decode bytes with None => true | Some _ => false end.

Definition handle_websocket_message (env : ReaderEnv) (s : Serializer)
    (data : CompletedWebSocketMessage) (o : ReaderOut) : (HandleError + unit) * ReaderOut :=
  match data with
  | CompletedSingle data =>
      match s with
      | Json =>
          if not_utf8 data then (inl NotUtf8, o)
          else post_parsed env (parse_message s data) o
      | _ => post_parsed env (parse_message s data) o
      end
  | CompletedSegmented segments len =>
      match s with
      | Json =>
          let '(payload, _, _) :=
            completed_into_bytes (CompletedSegmented segments len)
              (pool_at env (length (posted o))) in
          if not_utf8 payload then (inl NotUtf8, o)
          else post_parsed env (parse_message s payload) o
      | _ => post_parsed env (parse_message_segments s segments) o
      end
  end.

(** The reply with a close code after a violation; [graceful_close_requested]. *)
Definition close_with (env : ReaderEnv) (e : WebSocketFrameError) (o : ReaderOut) :
    round * ReaderOut :=
  match close_code e with
  | Some code =>
      let '(ok, o) := post_reply env (close (Some code) []) o in
      (Done (if (ok : bool) then ReaderGracefulClose else ReaderClosed), o)
  | None => (Done ReaderClosed, o)
  end.

Definition websocket_frame (env : ReaderEnv) (s : Serializer) (frame : WebSocketFrame)
    (a : WebSocketMessageAccumulator) (o : ReaderOut) :
    round * WebSocketMessageAccumulator * ReaderOut :=
  match frame with
  | Data opcode fin payload =>
      match push a opcode fin payload with
      | (inl e, a) => let '(r, o) := close_with env e o in (r, a, o)
      | (inr _, a) =>
          match take_complete a with
          | (Some message, a) =>
              match handle_websocket_message env s message o with
              | (inr _, o) => (Next, a, o)
              | (inl HandlePanic, o) => (Panicked, a, o)
              | (inl _, o) => (Done ReaderClosed, a, o)
              end
          | (None, a) => (Next, a, o)
          end
      end
  | WsPing payload => (Next, a, (post_reply env (control 0x02 payload) o).2)
  | WsPong payload => (Next, a, post_pong env payload o)
  | Close code reason =>
      let '(ok, o) := post_reply env (close code reason) o in
      (Done (if (ok : bool) then ReaderGracefulClose else ReaderClosed), a, o)
  end.

Definition websocket_reader_round (env : ReaderEnv) (s : Serializer) (e : endianness)
    (expect_masked : bool) (a : WebSocketMessageAccumulator) (o : ReaderOut) (st : IoStream) :
    round * WebSocketMessageAccumulator * ReaderOut * IoStream :=
  match read_websocket_frame_mode e expect_masked st with
  | (SPending, st) => (if idle_timeout env then Done ReaderClosed else Waiting, a, o, st)
  | (SErr err, st) =>
      if is_peer_disconnect err then (Done ReaderClosed, a, o, st)
      else let '(r, o) := close_with env err o in (r, a, o, st)
  | (SOk frame, st) => (websocket_frame env s frame a o, st)
  end.

Fixpoint websocket_reader (fuel : nat) (env : ReaderEnv) (s : Serializer) (e : endianness)
    (expect_masked : bool) (a : WebSocketMessageAccumulator) (o : ReaderOut) (st : IoStream) :
    round * WebSocketMessageAccumulator * ReaderOut * IoStream :=
  match fuel with
  | O => (Next, a, o, st)
  | S fuel =>
      match websocket_reader_round env s e expect_masked a o st with
      | (Next, a, o, st) => websocket_reader fuel env s e expect_masked a o st
      | r => r
      end
  end.

End readers.

(** ** Progress *)

(** Whatever an operation returns, it only consumes octets from the front. *)
Definition consumes {E A} (m : stream_op E A) (n : Z) : Prop :=
  ∀ st, front_ok st → let '(r, st') := m st in
    front_ok st' ∧ ∃ c, unread st = c ++ unread st' ∧ (∀ a, r = SOk a → n ≤ zlen c).

Lemma consumes_ret {E A} (a : A) : consumes (E := E) (mret a) 0.
Proof. intros st Hok. simpl. split; [done|]. exists []. split; [done|]. by intros. Qed.

Lemma consumes_fail {E A} (e : E) n : consumes (A := A) (op_fail e) n.
Proof. intros st Hok. simpl. split; [done|]. by exists []. Qed.

Lemma consumes_read {E} (io : io_error → E) n : 0 ≤ n → consumes (op_read_exact io n) n.
Proof.
  intros Hn st Hok. unfold op_read_exact, read_exact.
  pose proof (fill_loop_spec (Z.to_nat n) st n [] Hok ltac:(zlia)) as Hf.
  destruct (fill_loop _ _ _ _) as [[r got] st'].
  destruct Hf as ((bs & -> & Hu) & _ & Hz & Hok' & _). simpl in *.
  destruct r as [[]|e|]; (split; [done|]); exists bs; (split; [done|]); intros a H; [|done..].
  rewrite Hz by done. lia.
Qed.

Lemma consumes_le {E A} (m : stream_op E A) n k : consumes m n → k ≤ n → consumes m k.
Proof.
  intros H Hk st Hok. specialize (H st Hok). destruct (m st) as [r st'].
  destruct H as (? & c & ? & Hc). split; [done|]. exists c. split; [done|].
  intros a Ha. specialize (Hc a Ha). lia.
Qed.

Lemma consumes_read_any {E} (io : io_error → E) n : consumes (op_read_exact io n) 0.
Proof.
  destruct (Z.leb_spec 0 n) as [H|H].
  { eapply consumes_le; [by apply consumes_read|done]. }
  intros st Hok. unfold op_read_exact, read_exact.
  replace (Z.to_nat n) with 0%nat by lia. cbn [fill_loop].
  destruct (Z.ltb_spec (zlen (@nil Z)) n); [zlia|]. simpl. split; [done|]. exists [].
  split; [done|]. intros. zlia.
Qed.

Lemma consumes_bind {E A B} (m : stream_op E A) (f : A → stream_op E B) n k :
  consumes m n → (∀ a, consumes (f a) k) → consumes (m ≫= f) (n + k).
Proof.
  intros Hm Hf st Hok. specialize (Hm st Hok). unfold mbind, stream_op_bind.
  destruct (m st) as [[a|e|] st1]; destruct Hm as (Hok1 & c1 & Hu1 & Hc1).
  - specialize (Hf a st1 Hok1). destruct (f a st1) as [r st2].
    destruct Hf as (Hok2 & c2 & Hu2 & Hc2). split; [done|]. exists (c1 ++ c2).
    split; [by rewrite Hu1, Hu2, (assoc_L (++))|]. intros b Hb. rewrite zlen_app.
    specialize (Hc1 a eq_refl). specialize (Hc2 b Hb). lia.
  - split; [done|]. exists c1. by split.
  - split; [done|]. exists c1. by split.
Qed.

Ltac solve_consumes :=
  repeat first
    [ progress intros
    | apply consumes_fail
    | apply (consumes_bind _ _ 0 0)
    | match goal with
      | |- consumes (mret _) 0 => apply consumes_ret
      | |- consumes (op_read_exact _ _) 0 => apply consumes_read_any
      | |- consumes (match ?x with _ => _ end) _ => destruct x eqn:?
      | |- consumes (let _ := _ in _) _ => cbv zeta
      end ].

Lemma read_frame_header_consumes up : consumes (read_frame_header up) 4.
Proof.
  unfold read_frame_header. destruct up.
  - eapply consumes_le; [apply (consumes_bind _ _ 5 0)|]; [apply consumes_read; lia| |lia].
    solve_consumes.
  - apply (consumes_bind _ _ 4 0); [apply consumes_read; lia|]. solve_consumes.
Qed.


Lemma read_inbound_frame_consumes max up : consumes (read_inbound_frame max up) 4.
Proof.
  unfold read_inbound_frame, read_exact_frame_payload.
  apply (consumes_bind _ _ 4 0); [apply read_frame_header_consumes|]. solve_consumes.
Qed.

Lemma read_websocket_frame_consumes e expect : consumes (read_websocket_frame_mode e expect) 2.
Proof.
  unfold read_websocket_frame_mode, read_ws_length, ws_from_result.
  apply (consumes_bind _ _ 2 0); [by apply consumes_read|]. solve_consumes.
Qed.

(** A loop whose every further round consumes an octet ends within its fuel. *)
Section progress.
Context `{SL : !SerdeLib}.

Lemma connection_reader_ends fuel env s exponent o st : front_ok st →
  (length (unread st) < fuel)%nat →
  (connection_reader fuel env s exponent o st).1.1 ≠ Next.
Proof.
  revert o st. induction fuel as [|fuel IH]; intros o st Hok Hf; [lia|].
  cbn [connection_reader]. unfold connection_reader_round.
  pose proof (read_inbound_frame_consumes (Z.shiftl 1 exponent) (24 <? exponent) st Hok) as H.
  destruct (read_inbound_frame _ _ st) as [[f|err|] st1]; [|done|by destruct (idle_timeout env)].
  destruct H as (Hok1 & c & Hu & Hc). specialize (Hc f eq_refl).
  destruct (rawsocket_frame env s f o) as [[] o1]; try done. apply IH; [done|].
  rewrite Hu, length_app in Hf. unfold zlen in Hc. lia.
Qed.

Lemma websocket_reader_ends fuel env s e expect a o st : front_ok st →
  (length (unread st) < fuel)%nat →
  (websocket_reader fuel env s e expect a o st).1.1.1 ≠ Next.
Proof.
  revert a o st. induction fuel as [|fuel IH]; intros a o st Hok Hf; [lia|].
  cbn [websocket_reader]. unfold websocket_reader_round.
  pose proof (read_websocket_frame_consumes e expect st Hok) as H.
  destruct (read_websocket_frame_mode e expect st) as [[f|err|] st1].
  - destruct H as (Hok1 & c & Hu & Hc). specialize (Hc f eq_refl).
    destruct (websocket_frame env s f a o) as [[[] a1] o1]; try done. apply IH; [done|].
    rewrite Hu, length_app in Hf. unfold zlen in Hc. lia.
  - destruct (is_peer_disconnect err); [done|].
    unfold close_with. destruct (close_code err); [|done].
    destruct (post_reply env _ o) as [[] ?]; done.
  - by destruct (idle_timeout env).
Qed.

End progress.

(** ** Messages read back *)
Section delivery.
Context `{SL : !SerdeLib}.

(** What the loop does with a completed message. *)
Definition after_message (env : ReaderEnv) (s : Serializer) (m : CompletedWebSocketMessage)
    (o : ReaderOut) : round * ReaderOut :=
  match handle_websocket_message env s m o with
  | (inr _, o) => (Next, o)
  | (inl HandlePanic, o) => (Panicked, o)
  | (inl _, o) => (Done ReaderClosed, o)
  end.

Lemma websocket_data_frame env s op fin p a o :
  websocket_frame env s (Data op fin p) a o
  = match accumulate a op fin p with
    | (inl e, a) => let '(r, o) := close_with env e o in (r, a, o)
    | (inr (Some m), a) => let '(r, o) := after_message env s m o in (r, a, o)
    | (inr None, a) => (Next, a, o)
    end.
Proof.
  unfold websocket_frame, accumulate, after_message.
  destruct (push a op fin p) as [[e|[]] a1]; [done|].
  destruct (take_complete a1) as [[m|] a2]; [|done].
  by destruct (handle_websocket_message env s m o) as [[[]|[]] o1].
Qed.

Lemma holds_nothing a : holds_message a None → a = accumulator_new.
Proof. destruct a. intros (H1 & H2 & H3). simpl in *. by subst. Qed.

(** The fragments of a message that fits are accepted whatever their number. *)
Lemma accumulate_part a current op p fin :
  holds_message a current →
  match current with Some _ => op = 0 | None => op = 1 ∨ op = 2 end →
  zlen (concat (default [] current)) + zlen p ≤ MAX_WEBSOCKET_MESSAGE_LEN →
  ∃ a', accumulate a op fin p
    = (inr (if fin then Some (completed_of (default [] current ++ [p])) else None), a')
  ∧ holds_message a' (if fin then None else Some (default [] current ++ [p])).
Proof.
  intros Hh Hop Hlen. pose proof (accumulate_spec a current op fin p Hh) as H.
  assert (spec_frame current op fin p
    = if fin then inr (Some (default [] current ++ [p]), None)
      else inr (None, Some (default [] current ++ [p]))) as E.
  { unfold spec_frame, spec_push. cbv zeta.
    destruct (Z.ltb_spec MAX_WEBSOCKET_MESSAGE_LEN
      (zlen (concat (default [] current)) + zlen p)); [lia|].
    destruct current as [parts|]; cbn iota in Hop; [by rewrite Hop|].
    replace ((op =? 1) || (op =? 2)) with true by lia. done. }
  rewrite E in H. destruct (accumulate a op fin p) as [[e|m] a1]; [by destruct fin|].
  exists a1. by destruct fin, H as [-> H].
Qed.

Lemma websocket_reader_S fuel env s e expect a o st :
  websocket_reader (S fuel) env s e expect a o st
  = match websocket_reader_round env s e expect a o st with
    | (Next, a, o, st) => websocket_reader fuel env s e expect a o st
    | r => r
    end.
Proof. done. Qed.

Lemma websocket_reader_message env s e mp parts : ∀ op masks a current o st rest n,
  holds_message a current →
  match current with Some _ => op = 0 | None => op = 1 ∨ op = 2 end →
  parts ≠ [] → length masks = length parts → masks_ok mp masks → Forall bytes_ok parts →
  zlen (concat (default [] current)) + zlen (concat parts) ≤ MAX_WEBSOCKET_MESSAGE_LEN →
  stream_flows st n → zlen (message_frames op parts masks) ≤ n →
  unread st = message_frames op parts masks ++ rest →
  ∃ st', unread st' = rest ∧ stream_flows st' (n - zlen (message_frames op parts masks)) ∧ ∀ fuel,
    websocket_reader (length parts + fuel) env s e mp a o st
    = match after_message env s (completed_of (default [] current ++ parts)) o with
      | (Next, o) => websocket_reader fuel env s e mp accumulator_new o st'
      | (r, o) => (r, accumulator_new, o, st')
      end.
Proof.
  induction parts as [|p parts IH]; intros op masks a current o st rest n
    Hh Hop Hne Hlen Hms Hb Htotal Hs Hn Hu; [done|].
  destruct masks as [|m masks]; [done|]. injection Hlen as Hlen.
  apply Forall_cons in Hms as [[Hmp Hm] Hms], Hb as [Hp Hb].
  cbn [concat] in Htotal. rewrite zlen_app in Htotal. pose proof (zlen_nonneg (concat parts)).
  pose proof (zlen_nonneg (concat (default [] current))).
  set (fin := match parts with [] => true | _ => false end).
  assert (∃ tl, message_frames op (p :: parts) (m :: masks) = frame_bytes op fin p m ++ tl
    ∧ tl = match parts with [] => [] | _ => message_frames 0 parts masks end) as (tl & Etl & Htl).
  { unfold fin. simpl. destruct parts; [exists []; by rewrite app_nil_r|eauto]. }
  rewrite Etl, zlen_app in *. pose proof (zlen_nonneg tl). rewrite <-(assoc_L (++)) in Hu.
  assert (op = 0 ∨ op = 1 ∨ op = 2) as Hop3 by (destruct current; tauto).
  destruct (read_frame_bytes e op fin p m st (tl ++ rest) n) as (st1 & Hr1 & Hu1 & Hs1);
    [lia|done|done|lia|by destruct Hop3 as [-> |[-> | ->]]|done|lia|done|].
  fold (is_masked m) in Hr1. rewrite Hmp in Hr1. unfold frame_meaning in Hr1.
  replace ((op =? 0) || (op =? 1) || (op =? 2)) with true in Hr1 by lia.
  destruct (accumulate_part a current op p fin Hh Hop ltac:(lia)) as (a1 & Ha1 & Hh1).
  destruct parts as [|q parts].
  - subst fin tl. cbn in Hh1, Hu1. apply holds_nothing in Hh1 as ->.
    exists st1. rewrite zlen_nil, Z.add_0_r. split_and!; [done|done|]. intros fuel.
    change (length [p] + fuel)%nat with (S fuel).
    rewrite websocket_reader_S. unfold websocket_reader_round.
    rewrite Hr1, websocket_data_frame, Ha1. by destruct (after_message env s _ o) as [[] o1].
  - subst fin tl. cbn iota in Hh1. cbn iota.
    destruct (IH 0 masks a1 (Some (default [] current ++ [p])) o st1 rest
      (n - zlen (frame_bytes op false p m))) as (st2 & Hu2 & Hs2 & Hr2); try done; [|lia|].
    { cbn [default from_option]. change (id ?x) with x. rewrite concat_app, zlen_app.
      replace (concat [p]) with p by (simpl; by rewrite app_nil_r). lia. }
    exists st2. split; [done|]. split.
    { by rewrite Z.sub_add_distr. }
    intros fuel. change (length (p :: q :: parts) + fuel)%nat with (S (length (q :: parts) + fuel)).
    rewrite websocket_reader_S. unfold websocket_reader_round.
    rewrite Hr1, websocket_data_frame, Ha1, Hr2. change (default [] (Some (default [] current ++ [p]))) with (default [] current ++ [p]).
    by rewrite <-(assoc_L (++)).
Qed.


Lemma post_parsed_ok env p o : frame_tx_ok env (length (posted o)) = true →
  post_parsed env (Ok p) o = (inr (), mkReaderOut (posted o ++ [p]) (replies o) (pongs o)).
Proof. intros H. unfold post_parsed, post_frame. by rewrite H. Qed.

(** A message of the opcode's serializer, however fragmented, is posted. *)
Lemma handle_delivers env s parts p o : s = Json ∨ s = MessagePack ∨ s = Flatbuffers →
  Forall bytes_ok parts → parts ≠ [] → pool_ok (pool_at env (length (posted o))) →
  parse_message s (concat parts) = Ok p →
  (s = Json → utf8_decode (concat parts) ≠ None) →
  frame_tx_ok env (length (posted o)) = true →
  ∃ p', message p' = message p ∧ after_message env s (completed_of parts) o
    = (Next, mkReaderOut (posted o ++ [p']) (replies o) (pongs o)).
Proof.
  intros Hs Hb Hne Hpool Hparse Hutf Htx. unfold after_message, handle_websocket_message.
  assert (s = Json → not_utf8 (concat parts) = false) as Hnu.
  { intros HJ. specialize (Hutf HJ). unfold not_utf8. by destruct (utf8_decode (concat parts)). }
  destruct parts as [|b [|c parts]]; [done| |]; cbn [completed_of].
  - cbn [concat] in *. rewrite app_nil_r in *. exists p. split; [done|].
    destruct Hs as [->|[-> | ->]]; [rewrite Hnu by done|..]; by rewrite Hparse, post_parsed_ok.
  - destruct Hs as [->|Hs].
    + pose proof (completed_into_bytes_ok (CompletedSegmented (b :: c :: parts)
        (zlen (concat (b :: c :: parts)))) _ Hpool) as H.
      destruct (completed_into_bytes _ _) as [[bytes v] pool']. destruct H as (-> & _).
      cbn [completed_segments]. rewrite Hnu by done. rewrite Hparse. exists p.
      by rewrite post_parsed_ok.
    + pose proof (parse_segments_equiv s _ Hb Hs) as E. rewrite Hparse in E.
      destruct (parse_message_segments s (b :: c :: parts)) as [p'| | |] eqn:Ep;
        try discriminate E. injection E as E. exists p'. split; [done|].
      destruct Hs as [-> | ->]; by rewrite post_parsed_ok.
Qed.

End delivery.

(** ** Replies *)

(** [o'] has the pongs [answers] and, if [closed], a close frame more than [o]. *)
Definition answered (closed : bool) (o o' : ReaderOut) : Prop :=
  ∃ answers, Forall (λ f, ∃ payload, f = control 0x02 payload) answers
    ∧ if closed then ∃ code reason, replies o' = replies o ++ answers ++ [close code reason]
      else replies o' = replies o ++ answers.

Definition graceful (r : round) : bool :=
  match r with Done ReaderGracefulClose => true | _ => false end.

Lemma answered_same o o' : replies o' = replies o → answered false o o'.
Proof. intros H. exists []. by rewrite app_nil_r, H. Qed.

Lemma answered_trans b o1 o2 o3 : answered false o1 o2 → answered b o2 o3 → answered b o1 o3.
Proof.
  intros (l1 & H1 & E1) (l2 & H2 & E2). exists (l1 ++ l2). split; [by apply Forall_app|].
  destruct b.
  - destruct E2 as (code & reason & E2). exists code, reason. rewrite E2, E1.
    by rewrite !(assoc_L (++)).
  - by rewrite E2, E1, (assoc_L (++)).
Qed.

Lemma answered_close env code reason o :
  let '(ok, o') := post_reply env (close code reason) o in answered ok o o'.
Proof.
  unfold post_reply. destruct (send_tx_ok _ _); [|by apply answered_same].
  exists []. split; [done|]. by exists code, reason.
Qed.

Section replies.
Context `{SL : !SerdeLib}.

Lemma handle_replies env s m o :
  replies (handle_websocket_message env s m o).2 = replies o.
Proof.
  assert (∀ x, replies (post_parsed env x o).2 = replies o) as Hp.
  { intros [p| | |]; simpl; try done. unfold post_frame. by destruct (frame_tx_ok _ _). }
  unfold handle_websocket_message. destruct m as [b|segs len]; destruct s; try done;
    try apply Hp.
  - by destruct (not_utf8 b).
  - destruct (completed_into_bytes _ _) as [[bytes ?] ?]. by destruct (not_utf8 bytes).
Qed.

Lemma websocket_round_replies env s e expect a o st :
  let '(r, _, o', _) := websocket_reader_round env s e expect a o st in
  answered (graceful r) o o'.
Proof.
  assert (∀ err, let '(r, o') := close_with env err o in answered (graceful r) o o') as Hclose.
  { intros err. unfold close_with. destruct (close_code err) as [code|]; [|by apply answered_same].
    pose proof (answered_close env (Some code) [] o) as H.
    by destruct (post_reply env _ o) as [[] o']. }
  unfold websocket_reader_round.
  destruct (read_websocket_frame_mode e expect st) as [[f|err|] st1].
  - destruct f as [op fin p|p|p|code reason].
    + rewrite websocket_data_frame. destruct (accumulate a op fin p) as [[err|[m|]] a1].
      * specialize (Hclose err). by destruct (close_with env err o) as [r o1].
      * pose proof (handle_replies env s m o) as Hr. unfold after_message.
        destruct (handle_websocket_message env s m o) as [[[]|[]] o1]; by apply answered_same.
      * by apply answered_same.
    + unfold websocket_frame, post_reply. destruct (send_tx_ok _ _); [|by apply answered_same].
      exists [control 0x02 p]. split; [|done]. repeat constructor. by exists p.
    + unfold websocket_frame, post_pong. by destruct (pong_tx env); apply answered_same.
    + unfold websocket_frame. pose proof (answered_close env code reason o) as H.
      by destruct (post_reply env _ o) as [[] o1].
  - destruct (is_peer_disconnect err); [by apply answered_same|].
    specialize (Hclose err). by destruct (close_with env err o) as [r o1].
  - by destruct (idle_timeout env); apply answered_same.
Qed.

Lemma websocket_reader_reply_inv fuel env s e expect a o st :
  let '(r, _, o', _) := websocket_reader fuel env s e expect a o st in
  answered (graceful r) o o'.
Proof.
  revert a o st. induction fuel as [|fuel IH]; intros a o st; cbn [websocket_reader].
  { by apply answered_same. }
  pose proof (websocket_round_replies env s e expect a o st) as H.
  destruct (websocket_reader_round env s e expect a o st) as [[[r a1] o1] st1].
  destruct r as [|sig| |]; try done. specialize (IH a1 o1 st1).
  destruct (websocket_reader fuel env s e expect a1 o1 st1) as [[[r a2] o2] st2].
  by apply (answered_trans _ _ o1).
Qed.

End replies.

(** The opcode of a serializer's data frames. *)
Definition data_opcode (s : Serializer) : Z := match s with Json => 0x1 | _ => 0x2 end.

(** ** Properties *)

(** C1: a WAMP message sent over WebSocket arrives.  However a JSON,
    MessagePack or FlatBuffers message is cut into segments, batched, coalesced, masked and
    split on the wire, the peer's reader posts exactly one message, the one its
    bytes parse to as a whole, is ready for the next one, and has left the
    stream at what follows. *)
Theorem websocket_message_delivery `{SL : !SerdeLib} env s e e' segs suffix mp w w' p o :
  s = Json ∨ s = MessagePack ∨ s = Flatbuffers →
  Forall bytes_ok (segs ++ suffix) →
  zlen (concat (segs ++ suffix)) ≤ MAX_WEBSOCKET_MESSAGE_LEN → rng_ok w →
  write_websocket_frame_mode e (data_opcode s) (zlen (concat (segs ++ suffix))) segs suffix mp w
    = (inr (), w') →
  parse_message s (concat (segs ++ suffix)) = Ok p →
  (s = Json → utf8_decode (concat (segs ++ suffix)) ≠ None) →
  frame_tx_ok env (length (posted o)) = true → pool_ok (pool_at env (length (posted o))) →
  ∃ wire k p', w_out w' = w_out w ++ wire ∧ message p' = message p ∧
    ∀ st rest, stream_flows st (zlen wire) → unread st = wire ++ rest →
    ∃ st', unread st' = rest ∧ ∀ fuel,
      websocket_reader (k + fuel) env s e' mp accumulator_new o st
      = websocket_reader fuel env s e' mp accumulator_new
          (mkReaderOut (posted o ++ [p']) (replies o) (pongs o)) st'.
Proof.
  intros Hs Hb Hmax Hr Hw Hparse Hutf Htx Hpool.
  apply write_frame_mode_ok in Hw as (masks & Hlen & Hms & _ & Hout);
    [|destruct Hs as [->|[-> | ->]]; [by left|by right; left..]|done..].
  set (parts := message_parts (segs ++ suffix)) in *.
  assert (concat parts = concat (segs ++ suffix)) as Hc by apply message_parts_concat.
  destruct (message_parts_ok (segs ++ suffix) Hb) as [Hne Hpb]. fold parts in Hne, Hpb.
  rewrite <-Hc in *. clearbody parts.
  destruct (handle_delivers env s parts p o) as (p' & Hp' & Ha); [done..|].
  exists (message_frames (data_opcode s) parts masks), (length parts), p'.
  split_and!; [done|done|]. intros st rest Hst Hu.
  destruct (websocket_reader_message env s e' mp parts (data_opcode s) masks accumulator_new
    None o st rest _ ltac:(done) ltac:(destruct Hs as [->|[-> | ->]]; [by left|by right..]) Hne Hlen Hms
    Hpb ltac:(done) Hst ltac:(done) Hu) as (st' & Hu' & _ & Hrun).
  exists st'. split; [done|]. intros fuel. rewrite Hrun. cbn [default from_option app].
  by rewrite Ha.
Qed.

Lemma websocket_message_delivery_witness :
  ∃ k p', message p' = demo_call_message ∧ ∃ st',
    unread st' = [9] ∧
    websocket_reader (SL := DemoSerde) (k + 0)
      (mkReaderEnv (λ _, true) (λ _, true) false false (λ _, [])) MessagePack LittleEndian false
      accumulator_new out_empty
      (IoStream_plain [RBytes [0x02; 4; 0x95; 48; 7; 0x80; 0x80; 4; 0xa1; 0x61; 0x91]; RBytes [1; 9]]
         [] (inr true))
    = (Next, accumulator_new, mkReaderOut [p'] [] [], st').
Proof.
  destruct (websocket_message_delivery (SL := DemoSerde)
    (mkReaderEnv (λ _, true) (λ _, true) false false (λ _, [])) MessagePack LittleEndian
    LittleEndian [[0x95; 48; 7; 0x80]; []; [0xa1; 0x61; 0x91; 1]] [] false
    (mkWriter [] true [] [] [] [] [])
    (mkWriter [0x02; 4; 0x95; 48; 7; 0x80; 0x80; 4; 0xa1; 0x61; 0x91; 1] true [] [] [] [] [])
    (mkParsedMessage demo_call_message (Contiguous [0x95; 48; 7; 0x80; 0xa1; 0x61; 0x91; 1])
       MessagePack None) out_empty)
    as (wire & k & p' & H1 & H2 & H3).
  - right. left. reflexivity.
  - unfold bytes_ok, u8_ok. repeat constructor; lia.
  - vm_compute. discriminate.
  - constructor.
  - vm_compute. reflexivity.
  - vm_compute. reflexivity.
  - discriminate.
  - reflexivity.
  - split; [constructor|simpl; lia].
  - simpl in H1. subst wire. exists k, p'. split; [exact H2|].
    destruct (H3 (IoStream_plain
      [RBytes [0x02; 4; 0x95; 48; 7; 0x80; 0x80; 4; 0xa1; 0x61; 0x91]; RBytes [1; 9]] []
      (inr true)) [9]) as (st' & Hu & Hrun).
    + split; [apply front_ok_plain|]. simpl. right. split; [discriminate|].
      right. split; [discriminate|]. left. vm_compute. discriminate.
    + reflexivity.
    + exists st'. split; [exact Hu|]. rewrite (Hrun 0%nat). reflexivity.
Defined.

(** the readers end.  On any input each round of the RawSocket and of the
    WebSocket reader consumes octets, so a connection's reader stops, reports a
    signal, or waits for the peer, within as many rounds as octets arrived. *)
Theorem readers_end `{SL : !SerdeLib} env s exponent e expect a o st :
  front_ok st →
  (connection_reader (S (length (unread st))) env s exponent o st).1.1 ≠ Next
  ∧ (websocket_reader (S (length (unread st))) env s e expect a o st).1.1.1 ≠ Next.
Proof.
  intros Hok. split; [apply connection_reader_ends|apply websocket_reader_ends]; try done; lia.
Qed.

Lemma readers_end_witness :
  (websocket_reader (SL := DemoSerde) 4
     (mkReaderEnv (λ _, true) (λ _, true) false false (λ _, [])) MessagePack LittleEndian true
     accumulator_new out_empty (IoStream_plain [RBytes [0x88; 0x80; 1]] [] (inr true))).1.1.1 ≠ Next.
Proof.
  apply (readers_end (SL := DemoSerde)
    (mkReaderEnv (λ _, true) (λ _, true) false false (λ _, [])) MessagePack 24 LittleEndian true
    accumulator_new out_empty (IoStream_plain [RBytes [0x88; 0x80; 1]] [] (inr true))).
  apply front_ok_plain.
Defined.

(** what the WebSocket reader answers.  Whatever arrives, its replies are
    pongs followed, at the very end, by at most one close frame; the close frame
    is there exactly when the reader reports a graceful close. *)
Theorem websocket_reader_replies `{SL : !SerdeLib} fuel env s e expect a o st :
  let '(r, _, o', _) := websocket_reader fuel env s e expect a o st in
  ∃ answers, Forall (λ f, ∃ payload, f = control 0x02 payload) answers
    ∧ match r with
      | Done ReaderGracefulClose =>
          ∃ code reason, replies o' = replies o ++ answers ++ [close code reason]
      | _ => replies o' = replies o ++ answers
      end.
Proof.
  pose proof (websocket_reader_reply_inv fuel env s e expect a o st) as H.
  destruct (websocket_reader fuel env s e expect a o st) as [[[r a'] o'] st'].
  destruct H as (l & Hl & H). exists l. split; [done|]. by destruct r as [|[]| |].
Qed.
