(* ===== verification/FileSegments.v ===== *)
(** * File segments on the wire

    How a frame's file segment is sent without zero-copy: positional reads in
    chunks, base64 encoding, masking, in [write_file_segment_buffered],
    [read_file_chunk_at], [read_file_exact_at] and
    [write_websocket_file_frame_mode] of [ct_core/src/lib.rs]. *)
From S2P Require Import Prelude Bytes Text IoStream FileSender WireWriter WsMask WsFrame.
From S2P Require Import OutboundFrame.

Definition FILE_SEGMENT_BUFFER_SIZE : Z := 4 * 1024 * 1024.
Definition BASE64_FILE_SEGMENT_INPUT_SIZE : Z :=
  FILE_SEGMENT_BUFFER_SIZE - (FILE_SEGMENT_BUFFER_SIZE mod 3).

(** The [base64] crate's standard engine with padding: four octets for every
    three, and groups of three encode independently. *)
Class Base64Lib : Type := {
  b64_encode : list Z → list Z;
  b64_encode_len l : zlen (b64_encode l) = (zlen l + 2) / 3 * 4;
  b64_encode_app a b : zlen a mod 3 = 0 → b64_encode (a ++ b) = b64_encode a ++ b64_encode b;
  b64_encode_ok l : bytes_ok (b64_encode l);
}.

(** ** Reading *)

(** [file.read_at(buffer, offset)]: some of the octets at the offset, none only
    at the end of the file. *)
Definition read_at (file : list Z) (offset want k : Z) : list Z := sendfile file offset want k.

(** [read_file_exact_at] on the events of its reads; without more events a read
    gets all there is. *)
Fixpoint read_file_exact_at (events : list file_event) (file : list Z) (offset want : Z)
    (buffer : list Z) : (io_error + list Z) * list file_event :=
  if want =? 0 then (inr buffer, events)
  else match events with
  | [] =>
      let read := sub_bytes file offset (offset + want) in
      if zlen read <? want then (inl UnexpectedEof, [])
      else if 2 ^ 64 <=? offset + want then (inl InvalidInput, [])
      else (inr (buffer ++ read), [])
  | FeErr e :: events => (inl e, events)
  | FeInterrupted :: events => read_file_exact_at events file offset want buffer
  | FeRead k :: events =>
      let read := read_at file offset want k in
      if zlen read =? 0 then (inl UnexpectedEof, events)
      else if 2 ^ 64 <=? offset + zlen read then (inl InvalidInput, events)
      else read_file_exact_at events file (offset + zlen read) (want - zlen read) (buffer ++ read)
  end.

Definition read_file_chunk_at (file : list Z) (offset chunk_len : Z) : wr (list Z) := λ w,
  let '(r, events) := read_file_exact_at (w_reads w) file offset chunk_len [] in
  let w := mkWriter (w_out w) (w_vectored w) (w_script w) (w_sendfile w) events
             (w_rng w) (w_scratch w) in
  match r with inl e => (inl (StopErr e), w) | inr bytes => (inr bytes, w) end.

(** ** Writing *)
Section base64.
Context `{B64 : !Base64Lib}.

Definition segment_chunk_len (encoding : FileSegmentEncoding) (remaining : Z) : Z :=
  match encoding with
  | Identity => Z.min remaining FILE_SEGMENT_BUFFER_SIZE
  | Base64 => Z.min remaining BASE64_FILE_SEGMENT_INPUT_SIZE
  end.

(** [Base64Engine.encode_slice] into a buffer of the chunk's wire length. *)
Definition encode_chunk (chunk : list Z) (chunk_len : Z) : wr (list Z) :=
  match wire_len Base64 chunk_len with
  | None => wr_fail InvalidInput
  | Some encoded_len =>
      let encoded := b64_encode chunk in
      if encoded_len <? zlen encoded then wr_fail InvalidData else mret encoded
  end.

(** The octets a chunk of the file takes on the wire. *)
Definition chunk_octets (encoding : FileSegmentEncoding) (chunk : list Z) (chunk_len : Z) :
    wr (list Z) :=
  match encoding with Identity => mret chunk | Base64 => encode_chunk chunk chunk_len end.

(** The loop of [write_file_segment_buffered]. *)
Fixpoint write_file_chunks (fuel : nat) (seg : OutboundFileSegment) (file_offset remaining : Z) :
    wr unit :=
  if negb (0 <? remaining) then mret ()
  else match fuel with
  | O => wr_fail OtherIo
  | S fuel =>
      let chunk_len := segment_chunk_len (seg_encoding seg) remaining in
      chunk ← read_file_chunk_at (seg_file seg) file_offset chunk_len;
      octets ← chunk_octets (seg_encoding seg) chunk chunk_len;
      _ ← wr_write_all octets;
      if 2 ^ 64 <=? file_offset + chunk_len then wr_fail InvalidInput
      else write_file_chunks fuel seg (file_offset + chunk_len) (remaining - chunk_len)
  end.

Definition write_file_segment_buffered (seg : OutboundFileSegment) : wr unit :=
  write_file_chunks (Z.to_nat (seg_len seg)) seg (seg_offset seg) (seg_len seg).

(** The segments around a file, each masked at the running offset. *)
Fixpoint write_websocket_payloads (e : endianness) (segs : list (list Z))
    (mask : option (list Z)) (payload_offset : Z) : wr Z :=
  match segs with
  | [] => mret payload_offset
  | s :: segs =>
      payload_offset ← write_websocket_payload e s mask payload_offset;
      write_websocket_payloads e segs mask payload_offset
  end.

(** The file loop of [write_websocket_file_frame_mode]: the running offset. *)
Fixpoint write_websocket_file_chunks (fuel : nat) (e : endianness) (seg : OutboundFileSegment)
    (mask : option (list Z)) (file_offset remaining payload_offset : Z) : wr Z :=
  if negb (0 <? remaining) then mret payload_offset
  else match fuel with
  | O => wr_fail OtherIo
  | S fuel =>
      let chunk_len := segment_chunk_len (seg_encoding seg) remaining in
      chunk ← read_file_chunk_at (seg_file seg) file_offset chunk_len;
      octets ← chunk_octets (seg_encoding seg) chunk chunk_len;
      let octets := match mask with
                    | Some mask => xor_websocket_mask e octets mask payload_offset
                    | None => octets
                    end in
      _ ← wr_write_all octets;
      let payload_offset := payload_offset +
        match seg_encoding seg with Identity => chunk_len | Base64 => zlen octets end in
      if 2 ^ 64 <=? file_offset + chunk_len then wr_fail InvalidInput
      else write_websocket_file_chunks fuel e seg mask (file_offset + chunk_len)
             (remaining - chunk_len) payload_offset
  end.

Definition write_websocket_file_frame_mode (e : endianness) (opcode payload_len : Z)
    (prefix_segments : list (list Z)) (seg : OutboundFileSegment)
    (suffix_segments : list (list Z)) (mask_payload : bool) : wr unit :=
  '(header, mask) ← websocket_frame_header opcode true payload_len mask_payload;
  _ ← wr_write_all header;
  payload_offset ← write_websocket_payloads e prefix_segments mask 0;
  payload_offset ← write_websocket_file_chunks (Z.to_nat (seg_len seg)) e seg mask
                     (seg_offset seg) (seg_len seg) payload_offset;
  payload_offset ← write_websocket_payloads e suffix_segments mask payload_offset;
  if negb (payload_offset =? payload_len) then wr_fail InvalidData else mret ().

End base64.

(** ** The octets of a range *)

Lemma read_file_exact_at_ok events file off want buffer bytes events' : 0 ≤ off → 0 ≤ want →
  read_file_exact_at events file off want buffer = (inr bytes, events') →
  bytes = buffer ++ sub_bytes file off (off + want)
  ∧ zlen (sub_bytes file off (off + want)) = want.
Proof.
  revert off want buffer. induction events as [|ev events IH]; intros off want buffer Hoff Hw H;
    cbn [read_file_exact_at] in H; destruct (Z.eqb_spec want 0) as [->|Hne].
  1, 3: injection H as <- _; rewrite Z.add_0_r, sub_bytes_nil, app_nil_r by lia; done.
  - cbv zeta in H. destruct (Z.ltb_spec (zlen (sub_bytes file off (off + want))) want) as [|Hge];
      [done|]. destruct (2 ^ 64 <=? off + want); [done|]. injection H as <- _. split; [done|].
    unfold sub_bytes in *. zlia.
  - destruct ev as [k| |e]; [|by apply (IH off want buffer)|done]. cbv zeta in H.
    unfold read_at in H.
    destruct (sendfile_spec file off want k Hoff ltac:(lia)) as (n & Hn & Hav & E & Hz & Hn0).
    rewrite Hz in H. destruct (Z.eqb_spec n 0); [done|]. destruct (2 ^ 64 <=? off + n); [done|].
    apply IH in H as [-> Hz2]; [|lia..]. rewrite E in Hz |- *.
    replace (off + n + (want - n)) with (off + want) in * by lia. rewrite <-(assoc_L (++)).
    assert (sub_bytes file off (off + n) ++ sub_bytes file (off + n) (off + want)
      = sub_bytes file off (off + want)) as Ej by (apply sub_bytes_join; lia).
    rewrite Ej. split; [done|]. rewrite <-Ej, zlen_app. lia.
Qed.

Lemma wr_spec_read_chunk file off n : 0 ≤ off → 0 ≤ n →
  wr_spec (read_file_chunk_at file off n) []
    (λ chunk, chunk = sub_bytes file off (off + n) ∧ zlen chunk = n).
Proof.
  intros Hoff Hn w. unfold read_file_chunk_at.
  destruct (read_file_exact_at _ _ _ _ _) as [[e|bytes] events] eqn:E; cbv zeta.
  - exists []. split; [done|]. simpl. by rewrite app_nil_r.
  - apply read_file_exact_at_ok in E as [-> Hz]; [|done..].
    split; [by apply emitted_nil|done].
Qed.

Section octets.
Context `{B64 : !Base64Lib}.

(** What [n] octets of a file from [off] are on the wire. *)
Definition file_octets (encoding : FileSegmentEncoding) (file : list Z) (off n : Z) : list Z :=
  match encoding with
  | Identity => sub_bytes file off (off + n)
  | Base64 => b64_encode (sub_bytes file off (off + n))
  end.

Lemma b64_encode_nil : b64_encode [] = [].
Proof. apply zlen_0_nil. by rewrite b64_encode_len. Qed.

Lemma file_octets_nil enc file off n : n ≤ 0 → file_octets enc file off n = [].
Proof.
  intros. unfold file_octets. rewrite sub_bytes_nil by lia. destruct enc; [done|].
  apply b64_encode_nil.
Qed.

Lemma segment_chunk_pos enc n : 0 < n → 0 < segment_chunk_len enc n ≤ n.
Proof.
  unfold segment_chunk_len, BASE64_FILE_SEGMENT_INPUT_SIZE, FILE_SEGMENT_BUFFER_SIZE.
  change ((4 * 1024 * 1024) mod 3) with 1. destruct enc; lia.
Qed.

(** A chunk of the loops is a whole number of base64 groups, or the last. *)
Lemma file_octets_chunk enc file off n : 0 ≤ off → 0 < n →
  let c := segment_chunk_len enc n in
  zlen (sub_bytes file off (off + c)) = c →
  file_octets enc file off n
  = file_octets enc file off c ++ file_octets enc file (off + c) (n - c).
Proof.
  intros Hoff Hn c Hz. pose proof (segment_chunk_pos enc n Hn) as Hc. fold c in Hc.
  destruct (decide (c = n)) as [E|Hne].
  { rewrite E, (file_octets_nil _ _ _ (n - n)) by lia. by rewrite app_nil_r. }
  unfold file_octets. replace (off + c + (n - c)) with (off + n) by lia.
  assert (sub_bytes file off (off + n)
    = sub_bytes file off (off + c) ++ sub_bytes file (off + c) (off + n)) as Es
    by (symmetry; apply sub_bytes_join; lia).
  destruct enc; [done|]. rewrite Es. apply b64_encode_app. rewrite Hz.
  unfold c, segment_chunk_len in *. rewrite Z.min_r by lia. done.
Qed.

Lemma file_octets_len enc file off n : 0 ≤ n →
  zlen (sub_bytes file off (off + n)) = n → n + 2 ≤ USIZE_MAX →
  wire_len enc n = Some (zlen (file_octets enc file off n)) ∨ USIZE_MAX < zlen (file_octets enc file off n).
Proof.
  intros Hn Hz Hmax. unfold wire_len, file_octets. destruct enc; [left; by rewrite Hz|].
  rewrite b64_encode_len, Hz. unfold checked_add.
  rewrite (proj2 (Z.leb_le _ _)) by lia. simpl. unfold checked_mul.
  destruct (Z.leb_spec ((n + 2) / 3 * 4) USIZE_MAX); [by left|right; lia].
Qed.

Lemma wire_len_octets enc file off n wl : 0 ≤ n → wire_len enc n = Some wl →
  zlen (sub_bytes file off (off + n)) = n → zlen (file_octets enc file off n) = wl.
Proof.
  intros Hn Hw Hz. unfold wire_len, file_octets in *. destruct enc; [by injection Hw as <-|].
  apply bind_Some in Hw as (v & Hv & Hw). apply checked_add_Some in Hv as [-> _].
  unfold checked_mul in Hw. case_match; [|done]. injection Hw as <-.
  by rewrite b64_encode_len, Hz.
Qed.

Lemma wr_spec_chunk_octets enc file off n chunk :
  chunk = sub_bytes file off (off + n) ∧ zlen chunk = n →
  wr_spec (chunk_octets enc chunk n) [] (λ octets, octets = file_octets enc file off n).
Proof.
  intros [-> Hz]. destruct enc; simpl; [by apply wr_spec_ret|]. unfold encode_chunk.
  destruct (wire_len Base64 n) as [l|]; [|apply wr_spec_fail].
  destruct (l <? _); [apply wr_spec_fail|by apply wr_spec_ret].
Qed.

Lemma write_file_chunks_spec fuel seg off n : 0 ≤ off → 0 ≤ n → (Z.to_nat n ≤ fuel)%nat →
  wr_spec (write_file_chunks fuel seg off n)
    (file_octets (seg_encoding seg) (seg_file seg) off n)
    (λ _, zlen (sub_bytes (seg_file seg) off (off + n)) = n).
Proof.
  revert off n. induction fuel as [|fuel IH]; intros off n Hoff Hn Hf; cbn [write_file_chunks];
    (destruct (Z.ltb_spec 0 n); cbn [negb]; [|rewrite file_octets_nil by lia;
      apply wr_spec_ret; rewrite sub_bytes_nil by lia; zlia]); [lia|].
  set (enc := seg_encoding seg). set (file := seg_file seg). cbv zeta.
  set (c := segment_chunk_len enc n).
  assert (0 < c ≤ n) as Hc by by apply segment_chunk_pos.
  destruct (decide (zlen (sub_bytes file off (off + c)) = c)) as [Hz|Hz].
  - rewrite file_octets_chunk by done. fold c.
    change (file_octets enc file off c ++ ?x) with ([] ++ (file_octets enc file off c ++ x)).
    eapply wr_spec_bind; [apply wr_spec_read_chunk; lia|]. intros chunk Hchunk.
    change (file_octets enc file off c ++ ?x) with ([] ++ (file_octets enc file off c ++ x)).
    eapply wr_spec_bind; [apply (wr_spec_chunk_octets enc file off c chunk Hchunk)|]. intros octets ->.
    eapply wr_spec_bind; [apply wr_spec_write_all|]. intros _ _.
    destruct (2 ^ 64 <=? off + c); [apply wr_spec_fail|].
    apply (wr_spec_weaken _ _ (λ _, zlen (sub_bytes file (off + c) (off + c + (n - c))) = n - c));
      [apply IH; lia|]. intros _ Hz2. rewrite <-(sub_bytes_join file off (off + c)) by lia.
    rewrite zlen_app, Hz. replace (off + c + (n - c)) with (off + n) in Hz2 by lia. lia.
  - intros w. pose proof (wr_spec_read_chunk file off c ltac:(lia) ltac:(lia) w) as Hr.
    unfold mbind, wr_bind. destruct (read_file_chunk_at file off c w) as [[e|chunk] w1].
    + destruct Hr as (k & Hk & Ho). apply prefix_nil_inv in Hk as ->. exists [].
      split; [apply prefix_nil|done].
    + by destruct Hr as (_ & -> & Hz').
Qed.


(** ** WebSocket file frames *)

Definition masked (mask : option (list Z)) (off : Z) (payload : list Z) : list Z :=
  match mask with Some m => mask_from m off payload | None => payload end.

Lemma masked_app mask off a b :
  masked mask off (a ++ b) = masked mask off a ++ masked mask (off + zlen a) b.
Proof. destruct mask; [apply mask_from_app|done]. Qed.

Lemma masked_nil mask off : masked mask off [] = [].
Proof. by destruct mask. Qed.

Lemma zlen_masked mask off l : zlen (masked mask off l) = zlen l.
Proof. destruct mask; [|done]. unfold zlen. simpl. by rewrite length_mask_from. Qed.

Lemma write_websocket_payload_ok e payload mask off w off' w' :
  bytes_ok payload → mask_ok mask →
  write_websocket_payload e payload mask off w = (inr off', w') →
  emitted w w' (masked mask off payload) ∧ off' = off + zlen payload.
Proof.
  intros Hp Hm H. unfold write_websocket_payload in H. destruct mask as [m|].
  - destruct Hm. by apply write_masked_chunks_ok in H.
  - destruct payload as [|b l].
    + injection H as <- <-. split; [by apply emitted_nil|]. rewrite zlen_nil. lia.
    + apply wr_bind_ok in H as (? & w1 & H1 & H). injection H as <- <-.
      by apply wr_write_all_ok in H1 as [? _].
Qed.

Lemma write_websocket_payloads_ok e segs mask off w off' w' :
  Forall bytes_ok segs → mask_ok mask →
  write_websocket_payloads e segs mask off w = (inr off', w') →
  emitted w w' (masked mask off (concat segs)) ∧ off' = off + zlen (concat segs).
Proof.
  revert off w. induction segs as [|s segs IH]; intros off w Hb Hm H; simpl in *.
  { injection H as <- <-. rewrite masked_nil. split; [by apply emitted_nil|].
    rewrite zlen_nil. lia. }
  apply Forall_cons in Hb as [Hs Hb]. apply wr_bind_ok in H as (off1 & w1 & H1 & H).
  apply write_websocket_payload_ok in H1 as [He1 ->]; [|done..].
  apply IH in H as [He2 ->]; [|done..]. rewrite masked_app, zlen_app.
  split; [by apply (emitted_trans _ w1)|lia].
Qed.

Lemma wr_spec_ok {A} (m : wr A) bytes P w a w' :
  wr_spec m bytes P → m w = (inr a, w') → emitted w w' bytes ∧ P a.
Proof. intros Hm H. specialize (Hm w). by rewrite H in Hm. Qed.

Lemma file_octets_ok enc file off n : bytes_ok file → bytes_ok (file_octets enc file off n).
Proof.
  intros. destruct enc; simpl; [by apply sub_bytes_ok|apply b64_encode_ok].
Qed.

Lemma write_websocket_file_chunks_ok fuel e seg mask off n poff w poff' w' :
  0 ≤ off → 0 ≤ n → bytes_ok (seg_file seg) → mask_ok mask →
  write_websocket_file_chunks fuel e seg mask off n poff w = (inr poff', w') →
  let octets := file_octets (seg_encoding seg) (seg_file seg) off n in
  emitted w w' (masked mask poff octets) ∧ poff' = poff + zlen octets
  ∧ zlen (sub_bytes (seg_file seg) off (off + n)) = n.
Proof.
  revert off n poff w. induction fuel as [|fuel IH]; intros off n poff w Hoff Hn Hb Hm H octets;
    cbn [write_websocket_file_chunks] in H; destruct (Z.ltb_spec 0 n); cbn [negb] in H; [done| | |].
  1, 3: injection H as <- <-; unfold octets; rewrite file_octets_nil, masked_nil by lia;
    (split; [by apply emitted_nil|]); rewrite sub_bytes_nil by lia; zlia.
  set (enc := seg_encoding seg) in *. set (file := seg_file seg) in *. cbv zeta in H.
  set (c := segment_chunk_len enc n) in *.
  assert (0 < c ≤ n) as Hc by by apply segment_chunk_pos.
  apply wr_bind_ok in H as (chunk & w1 & H1 & H).
  apply (wr_spec_ok _ _ _ _ _ _ (wr_spec_read_chunk file off c ltac:(lia) ltac:(lia))) in H1
    as [He1 Hchunk].
  apply wr_bind_ok in H as (o & w2 & H2 & H).
  apply (wr_spec_ok _ _ _ _ _ _ (wr_spec_chunk_octets enc file off c chunk Hchunk)) in H2
    as [He2 ->].
  destruct Hchunk as [-> Hz]. apply wr_bind_ok in H as (? & w3 & H3 & H).
  set (o := file_octets enc file off c) in *.
  assert (bytes_ok o) as Ho by by apply file_octets_ok.
  replace (match mask with Some m => xor_websocket_mask e o m poff | None => o end)
    with (masked mask poff o) in *
    by (destruct mask as [m|]; [|done]; destruct Hm; by rewrite xor_websocket_mask_spec).
  apply wr_write_all_ok in H3 as [He3 _]. destruct (2 ^ 64 <=? off + c); [done|].
  assert (match enc with Identity => c | Base64 => zlen (masked mask poff o) end = zlen o) as Hadv.
  { rewrite zlen_masked. unfold o, file_octets. destruct enc; [by rewrite Hz|done]. }
  rewrite Hadv in H. apply IH in H as (He4 & -> & Hz4); [|lia|lia|done|done].
  fold enc file in He4, Hz4 |- *.
  unfold octets. rewrite (file_octets_chunk enc file off n) by done. fold c o.
  rewrite masked_app, zlen_app. split_and!.
  - pose proof (emitted_trans _ _ _ _ _ (emitted_trans _ _ _ _ _ (emitted_trans _ _ _ _ _ He1 He2)
      He3) He4) as He. exact He.
  - lia.
  - rewrite <-(sub_bytes_join file off (off + c)) by lia.
    rewrite zlen_app, Hz. replace (off + c + (n - c)) with (off + n) in Hz4 by lia. lia.
Qed.

(** The whole payload of a frame with a file segment. *)
Definition file_frame_payload (prefixes : list (list Z)) (seg : OutboundFileSegment)
    (suffixes : list (list Z)) : list Z :=
  concat prefixes
  ++ file_octets (seg_encoding seg) (seg_file seg) (seg_offset seg) (seg_len seg)
  ++ concat suffixes.

Definition seg_ok (seg : OutboundFileSegment) : Prop :=
  0 ≤ seg_offset seg ∧ 0 ≤ seg_len seg ∧ bytes_ok (seg_file seg).

Lemma write_file_frame_ok e op n prefixes seg suffixes mp w u w' :
  Forall bytes_ok prefixes → seg_ok seg → Forall bytes_ok suffixes → rng_ok w →
  write_websocket_file_frame_mode e op n prefixes seg suffixes mp w = (inr u, w') →
  ∃ mask, is_masked mask = mp ∧ mask_ok mask ∧ rng_ok w'
    ∧ n = zlen (file_frame_payload prefixes seg suffixes)
    ∧ w_out w' = w_out w ++ frame_bytes op true (file_frame_payload prefixes seg suffixes) mask.
Proof.
  intros Hp (Hoff & Hlen & Hfile) Hsuf Hr H. unfold write_websocket_file_frame_mode in H.
  apply wr_bind_ok in H as ([header mask] & w1 & H1 & H).
  apply websocket_frame_header_ok in H1 as (Hr1 & Hmp & Hmask & Ho1 & _ & ->); [|done].
  apply wr_bind_ok in H as (? & w2 & H2 & H). apply wr_write_all_ok in H2 as [He2 _].
  apply wr_bind_ok in H as (o3 & w3 & H3 & H).
  apply write_websocket_payloads_ok in H3 as [He3 ->]; [|done..].
  apply wr_bind_ok in H as (o4 & w4 & H4 & H).
  apply write_websocket_file_chunks_ok in H4 as (He4 & -> & _); [|done..].
  apply wr_bind_ok in H as (o5 & w5 & H5 & H).
  apply write_websocket_payloads_ok in H5 as [He5 ->]; [|done..].
  destruct (Z.eqb_spec (0 + zlen (concat prefixes) + zlen (file_octets (seg_encoding seg)
    (seg_file seg) (seg_offset seg) (seg_len seg)) + zlen (concat suffixes)) n) as [<-|]; [|done].
  injection H as <- <-.
  pose proof (emitted_trans _ _ _ _ _ (emitted_trans _ _ _ _ _ (emitted_trans _ _ _ _ _ He2 He3)
    He4) He5) as [He Hrng].
  exists mask. split_and!; try done.
  - unfold rng_ok in *. by rewrite Hrng.
  - unfold file_frame_payload. rewrite !zlen_app. lia.
  - rewrite He, Ho1. unfold frame_bytes. fold (is_masked mask). rewrite Hmp.
    replace (zlen (file_frame_payload prefixes seg suffixes)) with (0 + zlen (concat prefixes)
      + zlen (file_octets (seg_encoding seg) (seg_file seg) (seg_offset seg) (seg_len seg))
      + zlen (concat suffixes)) by (unfold file_frame_payload; rewrite !zlen_app; lia).
    rewrite <-!(assoc_L (++)). do 2 f_equal. unfold file_frame_payload.
    destruct mask as [m|]; simpl; [|done]. f_equal.
    rewrite (mask_from_app m 0 (concat prefixes)), mask_from_app. do 2 f_equal.
Qed.

End octets.

(** ** A concrete base64

    The alphabet of RFC 4648, to evaluate the model with. *)
Definition b64_char (n : Z) : Z :=
  if n <? 26 then 65 + n else if n <? 52 then 71 + n else if n <? 62 then n - 4
  else if n =? 62 then 43 else 47.

Fixpoint demo_b64 (l : list Z) : list Z :=
  match l with
  | [] => []
  | [a] => [b64_char (Z.shiftr a 2 mod 64); b64_char (Z.shiftl (a mod 4) 4); 61; 61]
  | [a; b] =>
      [b64_char (Z.shiftr a 2 mod 64); b64_char (Z.lor (Z.shiftl (a mod 4) 4) (Z.shiftr b 4) mod 64);
       b64_char (Z.shiftl (b mod 16) 2); 61]
  | a :: b :: c :: l =>
      b64_char (Z.shiftr a 2 mod 64)
      :: b64_char (Z.lor (Z.shiftl (a mod 4) 4) (Z.shiftr b 4) mod 64)
      :: b64_char (Z.lor (Z.shiftl (b mod 16) 2) (Z.shiftr c 6) mod 64)
      :: b64_char (c mod 64) :: demo_b64 l
  end.

Lemma b64_char_ok n : n < 64 → 0 ≤ n → u8_ok (b64_char n).
Proof. intros. unfold b64_char, u8_ok. repeat case_match; lia. Qed.

(** Induction in groups of three. *)
Lemma groups_ind (P : list Z → Prop) :
  P [] → (∀ a, P [a]) → (∀ a b, P [a; b]) → (∀ a b c l, P l → P (a :: b :: c :: l)) → ∀ l, P l.
Proof.
  intros H0 H1 H2 H3. fix IH 1. intros [|a [|b [|c l]]]; [done|apply H1|apply H2|].
  apply H3, IH.
Qed.

Lemma demo_b64_len l : zlen (demo_b64 l) = (zlen l + 2) / 3 * 4.
Proof.
  induction l as [|a|a b|a b c l IH] using groups_ind; [done..|]. cbn [demo_b64].
  rewrite !zlen_cons, IH. dmlia.
Qed.

Lemma demo_b64_app a b : zlen a mod 3 = 0 → demo_b64 (a ++ b) = demo_b64 a ++ demo_b64 b.
Proof.
  induction a as [|x|x y|x y z a IH] using groups_ind; [done..|]. intros H.
  rewrite !zlen_cons in H. cbn [demo_b64 app]. rewrite IH by dmlia. done.
Qed.

Lemma demo_b64_ok l : bytes_ok (demo_b64 l).
Proof.
  assert (∀ x, u8_ok (b64_char (x mod 64))) as Hm
    by (intros x; apply b64_char_ok; pose proof (Z.mod_pos_bound x 64); lia).
  assert (∀ x, u8_ok (b64_char (Z.shiftl (x mod 4) 4))) as H4.
  { intros x. rewrite Z.shiftl_mul_pow2 by lia. pose proof (Z.mod_pos_bound x 4 ltac:(lia)).
    apply b64_char_ok; lia. }
  assert (∀ x, u8_ok (b64_char (Z.shiftl (x mod 16) 2))) as H16.
  { intros x. rewrite Z.shiftl_mul_pow2 by lia. pose proof (Z.mod_pos_bound x 16 ltac:(lia)).
    apply b64_char_ok; lia. }
  assert (u8_ok 61) by (unfold u8_ok; lia).
  induction l as [|a|a b|a b c l IH] using groups_ind; unfold bytes_ok in *; cbn [demo_b64];
    repeat (apply Forall_cons_2; [auto|]); auto.
Qed.

#[global] Instance DemoBase64 : Base64Lib := {|
  b64_encode := demo_b64;
  b64_encode_len := demo_b64_len;
  b64_encode_app := demo_b64_app;
  b64_encode_ok := demo_b64_ok;
|}.

(** ** Properties *)

(** the buffered send of a file segment.  Reading and writing in chunks puts
    on the wire exactly the range of the file, or exactly the base64 encoding of
    the whole range (no padding between chunks), of the length announced for
    it; if it stops early, on a short file or an error, a prefix of that went
    out. *)
Theorem file_segment_buffered_exact `{B64 : !Base64Lib} seg w :
  0 ≤ seg_offset seg → 0 ≤ seg_len seg →
  let octets := file_octets (seg_encoding seg) (seg_file seg) (seg_offset seg) (seg_len seg) in
  match write_file_segment_buffered seg w with
  | (inr _, w') => w_out w' = w_out w ++ octets
      ∧ (∀ wl, wire_len (seg_encoding seg) (seg_len seg) = Some wl → zlen octets = wl)
  | (inl _, w') => ∃ k, k `prefix_of` octets ∧ w_out w' = w_out w ++ k
  end.
Proof.
  intros Hoff Hlen octets.
  pose proof (write_file_chunks_spec _ seg _ _ Hoff Hlen (Nat.le_refl _) w) as H.
  unfold write_file_segment_buffered. destruct (write_file_chunks _ _ _ _ w) as [[e|a] w1]; [done|].
  destruct H as [[Ho _] Hz]. split; [done|]. intros wl Hw. by apply wire_len_octets.
Qed.

Lemma file_segment_buffered_exact_witness :
  (write_file_segment_buffered (mkOutboundFileSegment [0; 77; 97; 110; 0] 1 3 Base64)
     (mkWriter [] true [] [] [FeRead 2; FeInterrupted] [] [])).1 = inr ()
  ∧ zlen (file_octets Base64 [0; 77; 97; 110; 0] 1 3) = 4.
Proof.
  split; [vm_compute; reflexivity|].
  pose proof (file_segment_buffered_exact (mkOutboundFileSegment [0; 77; 97; 110; 0] 1 3 Base64)
    (mkWriter [] true [] [] [FeRead 2; FeInterrupted] [] []) ltac:(simpl; lia) ltac:(simpl; lia)) as H.
  vm_compute in H. exact (proj2 H 4 eq_refl).
Defined.

(** a WebSocket frame with a file segment.  Written in masked pieces at a
    running offset, it is one final frame whose payload is the prefix segments,
    the range of the file (base64 encoded where asked) and the suffix segments,
    and a frame reported as written announced exactly that length; the peer's
    reader gets it back. *)
Theorem websocket_file_frame_roundtrip `{B64 : !Base64Lib} e e' op n prefixes seg suffixes mp w w'
    st rest :
  let payload := file_frame_payload prefixes seg suffixes in
  op = 1 ∨ op = 2 → Forall bytes_ok prefixes → seg_ok seg → Forall bytes_ok suffixes → rng_ok w →
  zlen payload ≤ MAX_WEBSOCKET_MESSAGE_LEN →
  write_websocket_file_frame_mode e op n prefixes seg suffixes mp w = (inr (), w') →
  n = zlen payload ∧
  ∃ wire, w_out w' = w_out w ++ wire ∧
    (stream_flows st (zlen wire) → unread st = wire ++ rest →
     ∃ st', read_websocket_frame_mode e' mp st = (SOk (Data op true payload), st')
       ∧ unread st' = rest).
Proof.
  intros payload Hop Hp Hseg Hsuf Hr Hmax H.
  apply write_file_frame_ok in H as (mask & <- & Hmask & _ & -> & Ho); [|done..].
  fold payload. split; [done|]. exists (frame_bytes op true payload mask). split; [done|].
  intros Hs Hu.
  assert (bytes_ok payload) as Hb.
  { unfold payload, file_frame_payload. apply Forall_app. split; [by apply Forall_concat|].
    apply Forall_app. split; [|by apply Forall_concat]. apply file_octets_ok, Hseg. }
  destruct (read_frame_bytes e' op true payload mask st rest _ ltac:(lia) Hb Hmask Hmax
    ltac:(by destruct Hop as [-> | ->]) Hs ltac:(done) Hu) as (st' & Hrd & Hu' & _).
  exists st'. split; [|done]. unfold frame_meaning in Hrd.
  replace ((op =? 0) || (op =? 1) || (op =? 2)) with true in Hrd by lia. exact Hrd.
Qed.

Lemma websocket_file_frame_roundtrip_witness :
  7 = zlen (file_frame_payload [[1; 2]] (mkOutboundFileSegment [0; 77; 97; 110; 0] 1 3 Base64) [[3]]).
Proof.
  apply (websocket_file_frame_roundtrip LittleEndian LittleEndian 2 7 [[1; 2]]
    (mkOutboundFileSegment [0; 77; 97; 110; 0] 1 3 Base64) [[3]] true
    (mkWriter [] true [] [] [] [[9; 9; 9; 9]] [])
    (mkWriter [130; 135; 9; 9; 9; 9; 8; 11; 93; 94; 79; 124; 10] true [] [] [] [] [10; 11])
    (IoStream_plain [] [] (inr true)) []).
  - right. reflexivity.
  - unfold bytes_ok, u8_ok. repeat constructor; lia.
  - unfold seg_ok, bytes_ok, u8_ok. simpl. repeat constructor; lia.
  - unfold bytes_ok, u8_ok. repeat constructor; lia.
  - constructor; [|constructor]. split; [|reflexivity].
    unfold bytes_ok, u8_ok. repeat constructor; lia.
  - vm_compute. discriminate.
  - vm_compute. reflexivity.
Defined.
