(* ===== verification/WsHandshake.v ===== *)
(** * The WebSocket handshake

    Of [ct_core/src/lib.rs]: the client's upgrade request and its check of the
    answer ([perform_websocket_client_handshake]), the server's answer
    ([write_websocket_handshake_response]), and what they compute from the key. *)
From S2P Require Import Prelude Bytes Text TextOps IoStream Handshake WampTypes RouterConfig HttpFraming HttpReader HttpHead HttpResponse Negotiation FileSegments.

(** The [sha1] crate, and the decoder of [base64], which undoes its encoder. *)
Class WsCrypto `{BL : !Base64Lib} : Type := {
  sha1 : list Z → list Z;
  b64_decode : list Z → option (list Z);
  b64_decode_encode l : bytes_ok l → b64_decode (b64_encode l) = Some l;
  (** the standard alphabet *)
  b64_encode_text l : Forall (λ c, 0x2B ≤ c ≤ 0x7A) (b64_encode l);
}.

Definition WEBSOCKET_GUID : str := lit "258EAFA5-E914-47DA-95CA-C5AB0DC85B11".

(** ** The client's side of an endpoint *)

(** Milliseconds past the longest [Duration], the bound of its [checked_mul]. *)
Definition DURATION_LIMIT : Z := 2 ^ 64 * 1000.

Definition build_client_endpoint_config {Json} (host : str) (port : Z) (use_tls : bool) (protocol : TransportProtocol)
    (max_rawsocket_size_exponent : Z) (heartbeat_interval heartbeat_timeout : option Z) : EndpointRuntimeConfig Json :=
  let exponent := Z.max MIN_RAWSOCKET_SIZE_EXPONENT
                    (Z.min CONNECTANUM_MAX_RAWSOCKET_SIZE_EXPONENT max_rawsocket_size_exponent) in
  {|
    er_host := host;
    er_port := port;
    er_tls_mode := if use_tls then TlsNative else TlsDisabled;
    er_client_auth := None;
    er_protocols := [protocol];
    er_idle_timeout := None;
    er_heartbeat_interval := heartbeat_interval;
    er_heartbeat_timeout :=
      match heartbeat_timeout with
      | Some t => Some t
      | None => i ← heartbeat_interval; if i * 2 <? DURATION_LIMIT then Some (i * 2) else None
      end;
    er_handshake_timeout := DEFAULT_HANDSHAKE_TIMEOUT;
    er_max_http_content_length := None;
    er_max_rawsocket_size_exponent := exponent;
    er_max_rawsocket_size := Z.shiftl 1 exponent;
    er_max_upgrade_exponent := if 24 <? exponent then Some exponent else None;
    er_outbound_send_queue_capacity := DEFAULT_OUTBOUND_SEND_QUEUE_CAPACITY;
    er_websocket_path := None;
    er_sni_certificates := [];
    er_http_routes := [];
    er_http := None;
  |}.

(** [None] is the error of an unsupported serializer. *)
Definition websocket_subprotocol (serializer : Serializer) : option string :=
  match serializer with
  | Json => Some "wamp.2.json"%string
  | MessagePack => Some "wamp.2.msgpack"%string
  | Cbor => Some "wamp.2.cbor"%string
  | Flatbuffers => Some "wamp.2.flatbuffers"%string
  | _ => None
  end.

Definition websocket_host_header (host : str) (port : Z) (use_tls : bool) : str :=
  let default_port := if use_tls then 443 else 80 in
  let base := if bool_decide (0x3A ∈ host) && negb (starts_with (lit "[") host)
              then lit "[" ++ host ++ lit "]" else host in
  if port =? default_port then base else base ++ lit ":" ++ show_number port.

(** ** Streams *)

(** The errors of the handshake, all of them [Error::Io]: of the stream, a
    timeout, [ErrorKind::InvalidData] and [ErrorKind::ConnectionRefused]; and a
    wait that does not end. *)
Inductive WsError : Type :=
  | WsIo (e : io_error)
  | WsPending
  | WsTimedOut
  | WsInvalidData (reason : str)
  | WsRefused (reason : str).

Notation wsh := (stateful IoStream WsError).

Definition ws_invalid {A} (reason : string) : wsh A := stateful_fail (WsInvalidData (lit reason)).

(** [time::timeout(timeout, write_all and flush)] *)
Definition ws_write (bytes : list Z) : wsh unit := λ st,
  match write_all st bytes with
  | (IoOk _, st) => (Ok (), st)
  | (IoErr e, st) => (Err (WsIo e), st)
  | (Stalled, st) => (Err WsTimedOut, st)
  end.

Definition HEADER_LIMIT : Z := 64 * 1024.

(** The loop of [read_http_header_block]. *)
Fixpoint header_block_loop (fuel : nat) (buffer : list Z) : wsh (list Z) := λ st,
  match fuel with
  | O => (NoFuel, st)
  | S fuel =>
      match find_header_terminator buffer with
      | Some i =>
          let header_end := Z.to_nat (i + 4) in
          (Ok (take header_end buffer), buffer_front st (drop header_end buffer))
      | None =>
          if HEADER_LIMIT <=? zlen buffer then (Err (WsInvalidData (lit "http header block exceeded limit")), st)
          else
            match poll_read st 1024 with
            | (IoOk [], st) => (Err (WsIo UnexpectedEof), st)
            | (IoOk bs, st) => header_block_loop fuel (buffer ++ bs) st
            | (IoErr e, st) => (Err (WsIo e), st)
            | (Stalled, st) => (Err WsTimedOut, st)
            end
      end
  end.

(** Each round reads at least one octet. *)
Definition read_http_header_block : wsh (list Z) := λ st, header_block_loop (S (S (length (unread st)))) [] st.

Section handshake.
Context `{WC : WsCrypto}.

(** [Base64Engine.encode(sha1(key + GUID))]; octets of ASCII text are its
    characters. *)
Definition websocket_accept_value (key : str) : str := b64_encode (sha1 (utf8_encode key ++ utf8_encode WEBSOCKET_GUID)).

(** ** The client *)
Definition reserved_header (name : str) : bool :=
  existsb (λ n, eq_ignore_ascii_case name (lit n))
    ["host"; "upgrade"; "connection"; "sec-websocket-version"; "sec-websocket-key"; "sec-websocket-protocol"]%string.

(** The fields of the request: those of the handshake, and the caller's others. *)
Definition upgrade_fields (host_header nonce subprotocol : str) (headers : http_headers) : http_headers :=
  [(lit "Host", host_header); (lit "Upgrade", lit "websocket"); (lit "Connection", lit "Upgrade");
   (lit "Sec-WebSocket-Version", lit "13"); (lit "Sec-WebSocket-Key", nonce); (lit "Sec-WebSocket-Protocol", subprotocol)] ++
  filter (λ h, reserved_header h.1 = false) headers.

Definition upgrade_start (target : str) : str :=
  lit "GET " ++ (if bool_decide (target = []) then lit "/" else target) ++ lit " HTTP/1.1".

Definition upgrade_request (host : str) (port : Z) (use_tls : bool) (target nonce subprotocol : str)
    (headers : http_headers) : list Z :=
  response_head (upgrade_start target) (upgrade_fields (websocket_host_header host port use_tls) nonce subprotocol headers).

(** The check of the answer's head. *)
Definition check_upgrade_answer (nonce subprotocol : str) (header_block : list Z) : outcome WsError unit :=
  match utf8_decode header_block with
  | None => Err (WsInvalidData (lit "websocket handshake response is not valid utf-8"))
  | Some header_text =>
      match split_crlf header_text with
      | [] => Err (WsInvalidData (lit "websocket handshake response missing status line"))
      | status_line :: lines =>
          if negb (starts_with (lit "HTTP/1.1 101 ") status_line) && negb (starts_with (lit "HTTP/1.0 101 ") status_line)
          then Err (WsRefused (lit "websocket upgrade failed: " ++ status_line))
          else
            response_headers ← map_err (λ line, WsInvalidData (lit "invalid websocket handshake header: " ++ line))
                                 (parse_header_lines lines);
            let upgrade := default [] (find_header "upgrade" response_headers) in
            if negb (eq_ignore_ascii_case upgrade (lit "websocket"))
            then Err (WsInvalidData (lit "websocket handshake missing Upgrade: websocket"))
            else
              let connection := default [] (find_header "connection" response_headers) in
              if negb (header_has_token connection "upgrade")
              then Err (WsInvalidData (lit "websocket handshake missing Connection: Upgrade"))
              else
                accept ← ok_or (WsInvalidData (lit "websocket handshake missing Sec-WebSocket-Accept"))
                           (find_header "sec-websocket-accept" response_headers);
                if negb (bool_decide (accept = websocket_accept_value nonce))
                then Err (WsInvalidData (lit "websocket handshake accept value mismatch"))
                else
                  if negb (bool_decide (find_header "sec-websocket-protocol" response_headers = Some subprotocol))
                  then Err (WsInvalidData (lit "websocket handshake negotiated unexpected protocol"))
                  else Ok ()
      end
  end.

(** [nonce_bytes] are the sixteen random octets. *)
Definition perform_websocket_client_handshake (nonce_bytes : list Z) (host : str) (port : Z) (use_tls : bool)
    (target subprotocol : str) (headers : http_headers) : wsh unit :=
  let nonce := b64_encode nonce_bytes in
  _ ← ws_write (upgrade_request host port use_tls target nonce subprotocol headers);
  header_block ← read_http_header_block;
  (λ st, (check_upgrade_answer nonce subprotocol header_block, st)) : wsh unit.

(** ** The server *)
Definition answer_fields (accept_value : str) (protocol : option str) : http_headers :=
  [(lit "Upgrade", lit "websocket"); (lit "Connection", lit "Upgrade"); (lit "Sec-WebSocket-Accept", accept_value)] ++
  match protocol with Some p => [(lit "Sec-WebSocket-Protocol", p)] | None => [] end.

Definition upgrade_answer (accept_value : str) (protocol : option str) : list Z :=
  response_head (lit "HTTP/1.1 101 Switching Protocols") (answer_fields accept_value protocol).

Definition write_websocket_handshake_response (accept_value : str) (protocol : option str) : wsh unit := λ st,
  match write_all st (upgrade_answer accept_value protocol) with
  | (IoOk _, st) => (Ok (), st)
  | (IoErr e, st) => (Err (WsIo e), st)
  | (Stalled, st) => (Err WsPending, st)
  end.

(** [accept_websocket_connection] up to the registration: the stream that the
    reader and writer tasks get. *)
Definition accept_websocket (handshake : WebSocketHandshake) (protocol : option str) : wsh unit := λ st,
  write_websocket_handshake_response (websocket_accept_value (sec_websocket_key handshake)) protocol
    (websocket_stream handshake st).

(** The further check of an upgrade to MQTT. *)
Definition mqtt_upgrade_ok (handshake : WebSocketHandshake) : bool :=
  bool_decide (sec_websocket_version handshake = Some (lit "13")) &&
  match b64_decode (utf8_encode (sec_websocket_key handshake)) with
  | Some decoded => zlen decoded =? 16
  | None => false
  end.

Definition accept_mqtt_websocket (handshake : WebSocketHandshake) : wsh unit := λ st,
  if mqtt_upgrade_ok handshake then accept_websocket handshake (Some (lit "mqtt")) st
  else (Err (WsInvalidData (lit "invalid MQTT WebSocket upgrade")), st).
End handshake.

(** ** Reading a header block *)
Lemma header_block_spec fuel buffer st : front_ok st → (length (unread st) < fuel)%nat →
  match header_block_loop fuel buffer st with
  | (Ok head, st') => front_ok st' ∧ buffer ++ unread st = head ++ unread st' ∧
      find_header_terminator (buffer ++ unread st) = Some (zlen head - 4) ∧ written st' = written st
  | (Err _, st') => written st' = written st
  | _ => False
  end.
Proof.
  revert buffer st. induction fuel as [|fuel IH]; intros buffer st Hok Hf; [lia|]. cbn [header_block_loop].
  destruct (find_header_terminator buffer) as [i|] eqn:Ei.
  - pose proof (find_terminator_bound _ _ Ei) as [? ?].
    split_and!; [by apply buffer_front_ok|..].
    + rewrite unread_buffer_front by done. by rewrite app_assoc, take_drop.
    + rewrite (find_terminator_app _ _ _ Ei). f_equal. zlia.
    + apply buffer_front_quiet.
  - destruct (Z.leb_spec HEADER_LIMIT (zlen buffer)); [done|]. pose proof (poll_read_ok st 1024 Hok ltac:(lia)) as Hok'.
    pose proof (poll_read_unread st 1024 Hok ltac:(lia)) as (Hu & Hw & _).
    destruct (poll_read st 1024) as [[[|b bs]|e|] st1]; cbn [fst snd] in *; try done.
    destruct Hu as [Hu _]. specialize (IH (buffer ++ b :: bs) st1 Hok').
    rewrite Hu in *. rewrite length_app in Hf. simpl in Hf. specialize (IH ltac:(lia)).
    rewrite <-app_assoc in IH. destruct (header_block_loop _ _ _) as [[head|err| |] st']; [|congruence|done|done].
    destruct IH as (? & ? & ? & ?). split_and!; congruence.
Qed.

Lemma header_block_flows fuel buffer st i n : (length (unread st) < fuel)%nat →
  find_header_terminator (buffer ++ unread st) = Some i → i + 4 ≤ HEADER_LIMIT → stream_flows st n →
  i + 4 ≤ zlen buffer + n → ∃ head st', header_block_loop fuel buffer st = (Ok head, st').
Proof.
  revert buffer st n. induction fuel as [|fuel IH]; intros buffer st n Hf Hi Hl Hs Hn; [lia|]. cbn [header_block_loop].
  destruct (find_header_terminator buffer) as [j|] eqn:Ej; [by eexists _, _|].
  pose proof (find_terminator_after _ _ _ Ej Hi) as Ha. destruct (Z.leb_spec HEADER_LIMIT (zlen buffer)); [lia|].
  destruct (stream_flows_poll st 1024 n) as (bs & st1 & Hp & Hne & Hs1); [lia|lia|done|].
  pose proof (poll_read_unread st 1024 ltac:(apply Hs) ltac:(lia)) as (Hu & _). rewrite Hp in *. destruct Hu as [Hu _].
  destruct bs as [|b bs]; [done|]. rewrite Hu in *. rewrite length_app in Hf. simpl in Hf.
  apply (IH _ _ (n - zlen (b :: bs))); [lia|by rewrite <-app_assoc|done|done|zlia].
Qed.

Lemma buffer_front_flows st bytes n : stream_flows st n → stream_flows (buffer_front st bytes) (n + zlen bytes).
Proof.
  intros [Hok Hf]. split; [by apply buffer_front_ok|]. unfold buffer_front, unread_front, front_ok in *.
  destruct bytes as [|b bytes]; [change (zlen (@nil Z)) with 0; by rewrite Z.add_0_r|].
  destruct (Z.ltb_spec (buffered_offset st) (zlen (buffered st))); cbn [buffered buffered_offset reads set_front];
    rewrite sub_bytes_full; (eapply flows_le; [exact Hf|]); rewrite ?zlen_app, zlen_sub_bytes by lia; lia.
Qed.

(** ** The answer *)
Section agreement.
Context `{WC : WsCrypto}.

(** The answer that is checked is read off its fields. *)
Lemma check_answer_back nonce subprotocol start fields : start ≠ [] → line_free start → str_ok start →
  Forall plain_field fields → starts_with (lit "HTTP/1.1 101 ") start = true →
  check_upgrade_answer nonce subprotocol (response_head start fields) = Ok () ↔
    eq_ignore_ascii_case (default [] (find_header "upgrade" fields)) (lit "websocket") = true ∧
    header_has_token (default [] (find_header "connection" fields)) "upgrade" = true ∧
    find_header "sec-websocket-accept" fields = Some (websocket_accept_value nonce) ∧
    find_header "sec-websocket-protocol" fields = Some subprotocol.
Proof.
  intros Hne Hl Hok [Hf Ht]%plain_fields_ok Hst. unfold check_upgrade_answer, response_head.
  rewrite utf8_decode_encode. 2:{ rewrite !str_ok_app. split_and!; [done| |by apply header_lines_ok|];
    by apply (bool_decide_unpack (Forall _ _)). }
  rewrite split_crlf_line by done. rewrite Hst. cbn [negb andb].
  rewrite <-(app_nil_r CRLF), parse_header_lines_back, Ht by done. cbn [map_err mbind outcome_bind].
  destruct (eq_ignore_ascii_case _ (lit "websocket")); cbn [negb]; [|naive_solver].
  destruct (header_has_token _ "upgrade"); cbn [negb]; [|naive_solver].
  destruct (find_header "sec-websocket-accept" fields) as [a|]; cbn [ok_or mbind outcome_bind]; [|naive_solver].
  repeat case_bool_decide; naive_solver.
Qed.

Lemma accept_value_plain key : plain_field (lit "Sec-WebSocket-Accept", websocket_accept_value key).
Proof.
  assert (∀ c, c ∈ websocket_accept_value key → 0x2B ≤ c ≤ 0x7A) as Hc.
  { intros c. apply (proj1 (Forall_forall _ _) (b64_encode_text _)). }
  split; [split; [|split; [split|]]|].
  - by apply (bool_decide_unpack (line_free (lit "Sec-WebSocket-Accept") ∧ Forall (λ c, char_ok c = true) (lit "Sec-WebSocket-Accept"))).
  - split; intros ?%Hc; lia.
  - apply Forall_forall. intros c ?%Hc. unfold char_ok. lia.
  - by apply (bool_decide_unpack (0x3A ∉ lit "Sec-WebSocket-Accept")).
  - unfold trimmed_field. cbn [fst snd]. f_equal. unfold trim.
    rewrite <-(app_nil_r (websocket_accept_value key)) at 1. apply (trim_by_core is_whitespace [] _ []); [constructor..|].
    apply Forall_forall. intros c ?%Hc. unfold is_whitespace. lia.
Qed.

Lemma answer_fields_plain key protocol :
  match protocol with Some p => plain_field (lit "Sec-WebSocket-Protocol", p) | None => True end →
  Forall plain_field (answer_fields (websocket_accept_value key) protocol).
Proof.
  intros Hp. apply Forall_app. split.
  - do 2 (constructor; [by apply (bool_decide_unpack (plain_field _))|]). constructor; [apply accept_value_plain|constructor].
  - destruct protocol; constructor; [done|constructor].
Qed.

(** ** Client and server *)
Section session.
Context `{HL : !HttpParseLib}.
Context (nonce_bytes : list Z) (host : str) (port : Z) (use_tls : bool) (target subprotocol : str) (headers : http_headers).

Notation nonce := (b64_encode nonce_bytes).
Notation fields := (upgrade_fields (websocket_host_header host port use_tls) nonce subprotocol headers).
Notation request := (upgrade_request host port use_tls target nonce subprotocol headers).

(** A request that stays on its lines, is ASCII text and short enough, and whose
    further fields do not speak of a body. *)
Record request_ok : Prop := {
  rq_start : line_free (upgrade_start target) ∧ str_ok (upgrade_start target);
  rq_fields : Forall (λ h, plain_field h ∧ is_ascii h.2) fields;
  rq_subprotocol : subprotocol ≠ [] ∧ 0x2C ∉ subprotocol;
  rq_framing : Forall (λ h, is_named "content-length" h = false ∧ is_named "transfer-encoding" h = false) headers;
  rq_size : zlen request ≤ MAX_HTTP_HEADER_BYTES;
}.

(** What the parser of requests gives for it: its parts. *)
Definition parses_request : Prop :=
  http_parse request = HttpComplete (Some (lit "GET")) (Some (if bool_decide (target = []) then lit "/" else target))
    (Some 1) ((λ h, (h.1, h.2)) <$> fields).

Lemma ascii_utf8 s : is_ascii s → utf8_encode s = s.
Proof.
  induction 1 as [|c s Hc _ IH]; [done|]. unfold utf8_encode in *. rewrite bind_cons, IH. unfold utf8_char.
  by rewrite (proj2 (Z.ltb_lt _ _)) by lia.
Qed.

Lemma header_value_plain v : is_ascii v → trim v = v → header_value v = v.
Proof. intros Ha Ht. unfold header_value. by rewrite from_utf8_lossy_ascii. Qed.

Lemma request_parsed : request_ok → parses_request →
  parse_http_request request =
    Ok (mkHttpRequest (lit "GET") (if bool_decide (target = []) then lit "/" else target) 1 fields, None).
Proof.
  intros Hok Hp.
  assert (fields = (λ h, (h.1, header_value h.2)) <$> ((λ h, (h.1, h.2)) <$> fields)) as Hv.
  { rewrite <-list_fmap_compose. symmetry. rewrite <-(list_fmap_id fields) at 2. apply Forall_fmap_ext.
    eapply Forall_impl; [apply (rq_fields Hok)|]. intros [name value] [[_ Ht] Ha]. unfold compose. simpl in *.
    f_equal. apply header_value_plain; [done|]. by injection Ht. }
  assert (∀ n, n = "Content-Length"%string ∨ n = "Transfer-Encoding"%string →
    ∀ h, h ∈ (λ h, (h.1, h.2)) <$> fields → eq_ignore_ascii_case h.1 (lit n) = false) as Hnot.
  { intros n Hn h (h' & -> & Hin)%list_elem_of_fmap. apply elem_of_app in Hin as [Hin|Hin].
    - repeat (apply elem_of_cons in Hin as [->|Hin]; [destruct Hn as [-> | ->]; by vm_compute|]). by apply not_elem_of_nil in Hin.
    - apply list_elem_of_filter in Hin as [_ Hin]. apply (proj1 (Forall_forall _ _) (rq_framing Hok)) in Hin as [Hc Ht].
      unfold is_named, eq_ignore_ascii_case in *. destruct Hn as [-> | ->]; [exact Hc|exact Ht]. }
  assert (∀ n, n = "Content-Length"%string ∨ n = "Transfer-Encoding"%string →
    ∀ h, h ∈ (λ h, (h.1, h.2)) <$> fields → ¬ named n h) as Hno.
  { intros n Hn h Hin Hnamed. exact (eq_true_false_abs _ Hnamed (Hnot n Hn h Hin)). }
  pose proof (parse_http_request_spec request) as Hs. unfold parses_request in Hp.
  destruct (parse_http_request request) as [[req len]|e| |]; [| |done|done].
  - destruct Hs as (m & p & v & hs & Hp' & -> & Hd & _). rewrite Hp in Hp'. injection Hp' as <- <- <- <-.
    destruct len as [n|]; [destruct Hd as ((h & Hin & Hn) & _); destruct (Hno _ (or_introl eq_refl) h Hin Hn)|].
    exact (f_equal (λ l, Ok (mkHttpRequest _ _ 1 l, None)) (eq_sym Hv)).
  - exfalso. destruct Hs as (detail & _ & Href). unfold head_refused in Href. rewrite Hp in Href.
    destruct Href as [Href|(_ & (h & Hin & Hn) & _)]; [|exact (Hno _ (or_intror eq_refl) h Hin Hn)].
    apply (length_refused_no _ _ None Href). intros h Hin. apply Hno; [by left|done].
Qed.

Lemma header_find req name : header req (lit name) = find_header name (req_headers req).
Proof.
  unfold header. induction (req_headers req) as [|h hs IH]; [done|]. simpl. unfold is_named.
  destruct (eq_ignore_ascii_case h.1 (lit name)) eqn:E.
  - by rewrite decide_True.
  - rewrite decide_False by congruence. rewrite <-IH. by destruct (list_find _ hs) as [[]|].
Qed.

Lemma split_on_one c w : c ∉ w → split_on c w = [w].
Proof.
  induction w as [|d w IH]; intros Hn; [done|]. apply not_elem_of_cons in Hn as [Hd Hn]. simpl.
  destruct (Z.eqb_spec d c); [by subst|]. by rewrite IH.
Qed.

(** A handshake with that request is an upgrade. *)
Lemma request_upgrades body prefetched : request_ok → body_len (mkHttpHandshake (mkHttpRequest [] [] 1 []) body prefetched) = 0 →
  let h := mkHttpHandshake (mkHttpRequest (lit "GET") (if bool_decide (target = []) then lit "/" else target) 1 fields) body prefetched in
  ∃ w, try_into_websocket h = Some w ∧ ws_http w = h ∧ sec_websocket_key w = nonce ∧
    sec_websocket_protocols w = [subprotocol] ∧ sec_websocket_version w = Some (lit "13").
Proof.
  intros Hok Hb h. pose proof (rq_fields Hok) as Hf. unfold upgrade_fields in Hf.
  do 6 (apply Forall_cons in Hf as [? Hf]).
  assert (trim nonce = nonce) as Hn by (match goal with H : plain_field (lit "Sec-WebSocket-Key", _) ∧ _ |- _ => by injection (proj2 (proj1 H)) end).
  assert (trim subprotocol = subprotocol) as Hs by (match goal with H : plain_field (lit "Sec-WebSocket-Protocol", _) ∧ _ |- _ => by injection (proj2 (proj1 H)) end).
  unfold try_into_websocket. subst h. unfold header_equals, header_contains_token. cbn [hh_request req_method].
  rewrite !header_find. cbn [req_headers].
  change (find_header "Upgrade" fields) with (Some (lit "websocket")).
  change (find_header "Connection" fields) with (Some (lit "Upgrade")).
  change (find_header "Sec-WebSocket-Key" fields) with (Some nonce).
  change (find_header "Sec-WebSocket-Protocol" fields) with (Some subprotocol).
  change (find_header "Sec-WebSocket-Version" fields) with (Some (lit "13")).
  cbn [negb]. unfold body_len in *. cbn [hh_body] in *. cbv beta iota.
  change (eq_ignore_ascii_case (lit "GET") (lit "GET")) with true.
  change (eq_ignore_ascii_case (lit "websocket") (lit "websocket")) with true.
  change (header_has_token (lit "Upgrade") "upgrade") with true. cbn [negb]. rewrite Hb. cbn [Z.ltb Z.compare].
  eexists. split; [reflexivity|]. cbn. split_and!; [done|done| |done].
  destruct (rq_subprotocol Hok) as [Hne Hc]. unfold parse_comma_separated. rewrite split_on_one by done. cbn.
  rewrite Hs. by rewrite decide_True.
Qed.

Lemma request_head early : request_ok → head_of (request ++ early) request.
Proof.
  intros Hok. split; [by exists early|]. split; [|apply Hok]. destruct (rq_start Hok) as [Hl Hs].
  unfold upgrade_request, response_head. apply head_terminator; [done|done|done|].
  eapply Forall_impl; [apply (rq_fields Hok)|]. by intros h [[? _] _].
Qed.

(** The server reads the whole upgrade, and keeps what follows. *)
Lemma server_upgrades {Json} (endpoint : EndpointRuntimeConfig Json) st early : request_ok → parses_request →
  0 ≤ body_limit endpoint → unread st = request ++ early → stream_flows st (zlen request) →
  ∃ h st', parse_http_handshake endpoint st = (Ok h, st') ∧ front_ok st' ∧
    req_method (hh_request h) = lit "GET" ∧
    (∃ w, try_into_websocket h = Some w ∧ ws_http w = h ∧ sec_websocket_key w = nonce ∧
      sec_websocket_protocols w = [subprotocol] ∧ sec_websocket_version w = Some (lit "13")) ∧
    hh_prefetched h ++ unread st' = early.
Proof.
  intros Hok Hp Hlim Hu Hs. set (r := mkBufReader [] st 1024).
  assert (unread_all r = request ++ early) as Hr by done.
  pose proof (request_head early Hok) as Hhead. rewrite <-Hr in Hhead.
  destruct (read_request_arrives endpoint false HTTP1_INLINE_BODY_LIMIT r request _ None ltac:(done) Hhead
    (request_parsed Hok Hp) Hlim) as (phase & r' & E).
  { simpl. rewrite Z.add_0_r. split; [|done]. simpl. by rewrite zlen_nil, Z.sub_0_r. }
  pose proof (read_request_spec endpoint false HTTP1_INLINE_BODY_LIMIT r ltac:(by destruct Hs) ltac:(done)) as Hspec.
  rewrite E in Hspec. destruct Hspec as ([Hok' _] & head & len & read & Hhead' & Hparse & Hall & _ & Hph).
  assert (head = request) as ->.
  { destruct Hhead as (_ & Hf & _), Hhead' as (_ & Hf' & _). rewrite Hf in Hf'. injection Hf' as Hz.
    rewrite Hr in Hall. apply app_inj_1 in Hall as [? _]; [done|]. unfold zlen in Hz. lia. }
  rewrite (request_parsed Hok Hp) in Hparse. injection Hparse as <-.
  assert (phase = Buffered [] ∧ read = []) as [-> ->].
  { simpl in Hph. destruct phase as [bytes|prefix n|]; simpl in Hph; [|unfold HTTP1_INLINE_BODY_LIMIT in *; lia|done].
    destruct Hph as [-> Hz]. by rewrite (zlen_0_nil _ Hz). }
  rewrite Hr in Hall. apply app_inv_head in Hall. unfold parse_http_handshake. fold r. rewrite E. cbv zeta.
  assert (body_limit endpoint <? zlen (@nil Z) = false) as -> by (rewrite zlen_nil; lia).
  eexists _, _. split; [reflexivity|]. split; [done|]. split; [done|]. split; [by apply request_upgrades|].
  by rewrite Hall.
Qed.

Lemma request_starts : ∃ rest, request = lit "GET " ++ rest.
Proof.
  unfold upgrade_request, response_head, upgrade_start. rewrite !utf8_encode_app, <-!app_assoc. eexists. reflexivity.
Qed.

Lemma server_negotiates {Json} (endpoint : EndpointRuntimeConfig Json) alpn st early : request_ok → parses_request →
  supports_protocol endpoint PWebsocket = true → 0 ≤ body_limit endpoint →
  unread st = request ++ early → stream_flows st (zlen request) →
  ∃ w st', negotiate_connection endpoint alpn st = (Ok (NcWebSocket w), st') ∧ sec_websocket_key w = nonce ∧
    sec_websocket_protocols w = [subprotocol] ∧ sec_websocket_version w = Some (lit "13") ∧
    unread (websocket_stream w st') = early.
Proof.
  intros Hok Hp Hws Hlim Hu Hs. destruct request_starts as [rest Hrest]. pose proof (zlen_nonneg rest).
  assert (zlen request = 4 + zlen rest) as Hz by (rewrite Hrest, zlen_app; done).
  destruct (timed_read_flows peek_error (lit "GET ") (rest ++ early) st (zlen request) Hs) as (st1 & Hr & Hu1 & Hs1);
    [rewrite Hz; change (zlen (lit "GET ")) with 4; lia|by rewrite Hu, Hrest, <-app_assoc|].
  change (zlen (lit "GET ")) with 4 in *. set (st2 := buffer_front st1 (lit "GET ")).
  assert (unread st2 = request ++ early) as Hu2
    by (unfold st2; rewrite unread_buffer_front by apply Hs1; by rewrite Hu1, Hrest, <-app_assoc).
  assert (stream_flows st2 (zlen request)) as Hs2.
  { replace (zlen request) with (zlen request - 4 + zlen (lit "GET ")) by (change (zlen (lit "GET ")) with 4; lia).
    by apply buffer_front_flows. }
  assert (peek_handshake st = (Ok (lit "GET "), st2)) as Hpeek.
  { unfold peek_handshake. rewrite (stateful_bind_run _ _ _ _ _ Hr). done. }
  destruct (server_upgrades endpoint st2 early Hok Hp Hlim Hu2 Hs2) as (h & st' & Hh & Hok' & _ & (w & Ht & Hw & ? & ? & ?) & He).
  unfold negotiate_connection. rewrite (stateful_bind_run _ _ _ _ _ Hpeek).
  change (looks_like_http (lit "GET ")) with true. cbv iota. rewrite bool_decide_eq_false_2 by done.
  rewrite Hws, andb_false_r. unfold negotiate_http. rewrite Hh, Hws, Ht.
  exists w, st'. split_and!; try done. unfold websocket_stream. rewrite unread_buffer_front by done. by rewrite Hw.
Qed.

Notation answer key := (upgrade_answer (websocket_accept_value key) (Some subprotocol)).

Lemma answer_head key protocol frames : match protocol with Some p => plain_field (lit "Sec-WebSocket-Protocol", p) | None => True end →
  let head := upgrade_answer (websocket_accept_value key) protocol in
  find_header_terminator (head ++ frames) = Some (zlen head - 4).
Proof.
  intros Hp. apply head_terminator; [done| |by apply (bool_decide_unpack (Forall _ _))|].
  - by apply (bool_decide_unpack (line_free _)).
  - eapply Forall_impl; [by apply answer_fields_plain|]. by intros h [? _].
Qed.

(** The client takes exactly the answer's head off its stream. *)
Lemma client_reads key protocol st frames :
  match protocol with Some p => plain_field (lit "Sec-WebSocket-Protocol", p) | None => True end →
  let head := upgrade_answer (websocket_accept_value key) protocol in
  writes st = [] → unread st = head ++ frames → zlen head ≤ HEADER_LIMIT → stream_flows st (zlen head) →
  ∃ st', unread st' = frames ∧ written st' = written st ++ request ∧
    perform_websocket_client_handshake nonce_bytes host port use_tls target subprotocol headers st =
      (check_upgrade_answer nonce subprotocol head, st').
Proof.
  intros Hp head Hw Hu Hlim Hs. unfold perform_websocket_client_handshake.
  set (st1 := set_writes st [] (written st ++ request)).
  assert (ws_write request st = (Ok (), st1)) as Hwrite by (unfold ws_write, write_all; by rewrite Hw).
  rewrite (stateful_bind_run _ _ _ _ _ Hwrite).
  assert (unread st1 = head ++ frames ∧ stream_flows st1 (zlen head)) as [Hu1 Hs1] by done.
  pose proof (answer_head key protocol frames Hp) as Ht. cbv zeta in Ht. fold head in Ht. clearbody head.
  unfold read_http_header_block.
  destruct (header_block_flows (S (S (length (unread st1)))) [] st1 (zlen head - 4) (zlen head)) as (head' & st' & E);
    [lia|by rewrite Hu1|lia|done|rewrite zlen_nil; lia|].
  pose proof (header_block_spec (S (S (length (unread st1)))) [] st1 ltac:(apply Hs1) ltac:(lia)) as Hspec. rewrite E in Hspec.
  destruct Hspec as (_ & Hall & Ht' & Hw'). simpl in Hall, Ht'. rewrite Hu1 in Hall, Ht'. rewrite Ht in Ht'.
  injection Ht' as Hz. apply app_inj_1 in Hall as [-> ->]; [|unfold zlen in Hz; lia].
  exists st'. split; [done|]. split; [by rewrite Hw'|].
  by rewrite (stateful_bind_run read_http_header_block _ st1 head' st' E).
Qed.

(** It accepts the answer to its key that names its protocol, and no other. *)
Lemma client_accepts key protocol :
  match protocol with Some p => plain_field (lit "Sec-WebSocket-Protocol", p) | None => True end →
  check_upgrade_answer nonce subprotocol (upgrade_answer (websocket_accept_value key) protocol) = Ok () ↔
    websocket_accept_value key = websocket_accept_value nonce ∧ protocol = Some subprotocol.
Proof.
  intros Hp. unfold upgrade_answer. rewrite check_answer_back; [|done| | |by apply answer_fields_plain|done].
  - set (fs := answer_fields _ _). change (find_header "upgrade" fs) with (Some (lit "websocket")).
    change (find_header "connection" fs) with (Some (lit "Upgrade")).
    change (find_header "sec-websocket-accept" fs) with (Some (websocket_accept_value key)).
    assert (find_header "sec-websocket-protocol" fs = protocol) as -> by (by destruct protocol).
    assert (eq_ignore_ascii_case (lit "websocket") (lit "websocket") = true) as Hu by done.
    assert (header_has_token (lit "Upgrade") "upgrade" = true) as Hc by done. cbn [default from_option].
    split; [intros (_ & _ & [= Ha] & ?)|intros [-> ->]]; done.
  - by apply (bool_decide_unpack (line_free _)).
  - by apply (bool_decide_unpack (Forall _ _)).
Qed.

(** C32: the two ends of the WebSocket handshake agree. A client's request on an
    endpoint that serves WebSocket is negotiated to a WebSocket with the client's
    key, version 13 and its one subprotocol, also where the endpoint speaks MQTT,
    and whatever the client sends early waits as the first frames. The client
    that gets the server's answer, in whatever pieces, accepts it with exactly the
    frames behind it left; an answer for another subprotocol, or none, it refuses. *)
Theorem websocket_handshake_agreement {Json} (endpoint : EndpointRuntimeConfig Json) alpn st early :
  request_ok → parses_request → bytes_ok nonce_bytes → zlen nonce_bytes = 16 →
  supports_protocol endpoint PWebsocket = true → 0 ≤ body_limit endpoint →
  unread st = request ++ early → stream_flows st (zlen request) →
  ∃ w st', negotiate_connection endpoint alpn st = (Ok (NcWebSocket w), st') ∧
    sec_websocket_protocols w = [subprotocol] ∧ mqtt_upgrade_ok w = true ∧ unread (websocket_stream w st') = early ∧
    ∀ protocol client frames, let head := upgrade_answer (websocket_accept_value (sec_websocket_key w)) protocol in
      match protocol with Some p => plain_field (lit "Sec-WebSocket-Protocol", p) | None => True end →
      writes client = [] → unread client = head ++ frames → zlen head ≤ HEADER_LIMIT → stream_flows client (zlen head) →
      ∃ res client', perform_websocket_client_handshake nonce_bytes host port use_tls target subprotocol headers client =
          (res, client') ∧ written client' = written client ++ request ∧ unread client' = frames ∧
        (res = Ok () ↔ protocol = Some subprotocol).
Proof.
  intros Hok Hp Hb Hn Hws Hlim Hu Hs.
  destruct (server_negotiates endpoint alpn st early Hok Hp Hws Hlim Hu Hs) as (w & st' & Hneg & Hk & Hpr & Hv & He).
  exists w, st'. split_and!; [done|done| |done|].
  - unfold mqtt_upgrade_ok. rewrite Hv, Hk, bool_decide_eq_true_2 by done.
    rewrite ascii_utf8 by (eapply Forall_impl; [apply b64_encode_text|]; intros c; simpl; lia).
    by rewrite b64_decode_encode, Hn.
  - intros protocol client frames head Hpl Hw Hcu Hl Hcs. unfold head in *. rewrite Hk in *.
    destruct (client_reads nonce protocol client frames Hpl Hw Hcu Hl Hcs) as (client' & ? & ? & E).
    eexists _, client'. split; [exact E|]. split; [done|]. split; [done|]. rewrite client_accepts by done. naive_solver.
Qed.
End session.
End agreement.

(** ** Examples *)
Definition b64_value (c : Z) : Z :=
  if c =? 43 then 62 else if c =? 47 then 63 else if c <? 58 then c + 4 else if c <? 91 then c - 65 else c - 71.

Fixpoint demo_unb64 (l : list Z) : option (list Z) :=
  match l with
  | [] => Some []
  | a :: b :: c :: d :: l =>
      let x := b64_value a * 4 + b64_value b / 16 in
      let y := b64_value b mod 16 * 16 + b64_value c / 4 in
      let z := b64_value c mod 4 * 64 + b64_value d in
      if d =? 61 then Some (if c =? 61 then [x] else [x; y]) else (λ l, x :: y :: z :: l) <$> demo_unb64 l
  | _ => None
  end.

Lemma b64_value_char n : 0 ≤ n < 64 → b64_value (b64_char n) = n ∧ b64_char n ≠ 61 ∧ 0x2B ≤ b64_char n ≤ 0x7A.
Proof. intros. unfold b64_char, b64_value. repeat case_match; lia. Qed.

(** The digits of a group, as arithmetic. *)
Lemma b64_digits a b c : u8_ok a → u8_ok b → u8_ok c →
  Z.shiftr a 2 mod 64 = a / 4 ∧ Z.shiftl (a mod 4) 4 = a mod 4 * 16 ∧
  Z.lor (Z.shiftl (a mod 4) 4) (Z.shiftr b 4) mod 64 = a mod 4 * 16 + b / 16 ∧
  Z.shiftl (b mod 16) 2 = b mod 16 * 4 ∧
  Z.lor (Z.shiftl (b mod 16) 2) (Z.shiftr c 6) mod 64 = b mod 16 * 4 + c / 64.
Proof.
  unfold u8_ok. intros. rewrite !Z.shiftr_div_pow2 by lia. rewrite (Z.lor_comm (Z.shiftl (a mod 4) 4)).
  rewrite (Z.lor_comm (Z.shiftl (b mod 16) 2)). change (2 ^ 2) with 4. change (2 ^ 4) with 16. change (2 ^ 6) with 64.
  rewrite !lor_shiftl, !Z.shiftl_mul_pow2 by dmlia. change (2 ^ 2) with 4. change (2 ^ 4) with 16. split_and!; dmlia.
Qed.

Lemma demo_unb64_b64 l : bytes_ok l → demo_unb64 (demo_b64 l) = Some l.
Proof.
  assert (∀ n, 0 ≤ n < 64 → b64_value (b64_char n) = n) as Hv by (intros; by apply b64_value_char).
  assert (∀ n, 0 ≤ n < 64 → (b64_char n =? 61) = false) as Hne.
  { intros n Hn. apply Z.eqb_neq. by apply b64_value_char. }
  induction l as [|a|a b|a b c l IH] using groups_ind; [done|..]; intros Hb; cbn [demo_b64].
  - apply Forall_cons in Hb as [Ha _]. destruct (b64_digits a a a Ha Ha Ha) as (-> & -> & _). unfold u8_ok in Ha.
    cbn. rewrite !Hv by dmlia. do 2 f_equal. dmlia.
  - apply Forall_cons in Hb as [Ha [Hb _]%Forall_cons]. destruct (b64_digits a b b Ha Hb Hb) as (-> & _ & -> & -> & _).
    unfold u8_ok in *. cbn. rewrite Hne, !Hv by dmlia. do 3 f_equal; dmlia.
  - apply Forall_cons in Hb as [Ha [Hb [Hc Hl]%Forall_cons]%Forall_cons].
    destruct (b64_digits a b c Ha Hb Hc) as (-> & _ & -> & _ & ->). unfold u8_ok in *.
    cbn [demo_unb64]. rewrite Hne, !Hv, IH by (done || dmlia). cbn. do 2 f_equal; [dmlia|]. f_equal; [dmlia|]. f_equal. dmlia.
Qed.

Lemma demo_b64_text l : Forall (λ c, 0x2B ≤ c ≤ 0x7A) (demo_b64 l).
Proof.
  assert (∀ n, 0 ≤ n < 64 → 0x2B ≤ b64_char n ≤ 0x7A) as Hv by (intros; by apply b64_value_char).
  induction l as [|a|a b|a b c l IH] using groups_ind; cbn [demo_b64];
    repeat (constructor; [first [lia|apply Hv; rewrite ?Z.shiftl_mul_pow2 by lia; dmlia]|]); done.
Qed.

#[local] Instance demo_crypto : WsCrypto := {|
  sha1 l := [foldl Z.add 0 l mod 256; zlen l mod 256];
  b64_decode := demo_unb64;
  b64_decode_encode := demo_unb64_b64;
  b64_encode_text := demo_b64_text;
|}.

Definition demo_nonce : list Z := [7; 1; 255; 3; 8; 90; 100; 31; 17; 0; 200; 201; 45; 66; 12; 128].
Definition demo_extra : http_headers := [(lit "User-Agent", lit "dart"); (lit "HOST", lit "dropped")].

Definition demo_request_parser : HttpParseLib := {|
  http_parse _ := HttpComplete (Some (lit "GET")) (Some (lit "/ws")) (Some 1)
    ((λ h, (h.1, h.2)) <$> upgrade_fields (websocket_host_header (lit "::1") 8080 false) (b64_encode demo_nonce)
       (lit "wamp.2.json") demo_extra);
|}.

Definition demo_upgrade : list Z :=
  upgrade_request (lit "::1") 8080 false (lit "/ws") (b64_encode demo_nonce) (lit "wamp.2.json") demo_extra.
Definition demo_upgrade_arrival : IoStream :=
  IoStream_plain [RBytes (take 50 demo_upgrade); RBytes (drop 50 demo_upgrade ++ [0x81])] [] (inr true).

(** The server's answer, in two pieces with the first octets of a frame. *)
Definition demo_answer (protocol : str) : list Z :=
  upgrade_answer (websocket_accept_value (b64_encode demo_nonce)) (Some protocol).
Definition demo_client (protocol : str) : IoStream :=
  IoStream_plain [RBytes (take 30 (demo_answer protocol)); RBytes (drop 30 (demo_answer protocol) ++ [0x82; 0x00])] [] (inr true).

Lemma demo_request_ok : request_ok demo_nonce (lit "::1") 8080 false (lit "/ws") (lit "wamp.2.json") demo_extra.
Proof.
  split.
  - by apply (bool_decide_unpack (line_free _ ∧ Forall _ _)).
  - apply Forall_forall. intros h Hh. split; revert h Hh; apply Forall_forall.
    + by apply (bool_decide_unpack (Forall plain_field _)).
    + by apply (bool_decide_unpack (Forall (λ h, Forall (λ c, 0 ≤ c < 128) h.2) _)).
  - split; [done|]. by apply (bool_decide_unpack (0x2C ∉ lit "wamp.2.json")).
  - by repeat constructor.
  - by vm_compute.
Qed.

Lemma websocket_handshake_agreement_witness :
  ∃ w st', @negotiate_connection demo_request_parser unit demo_listener None demo_upgrade_arrival = (Ok (NcWebSocket w), st') ∧
    unread (websocket_stream w st') = [0x81] ∧
    ∃ client', perform_websocket_client_handshake demo_nonce (lit "::1") 8080 false (lit "/ws") (lit "wamp.2.json") demo_extra
        (demo_client (lit "wamp.2.json")) = (Ok (), client') ∧ unread client' = [0x82; 0x00].
Proof.
  destruct (@websocket_handshake_agreement _ _ demo_request_parser demo_nonce (lit "::1") 8080 false (lit "/ws")
    (lit "wamp.2.json") demo_extra unit demo_listener None demo_upgrade_arrival [0x81])
    as (w & st' & Hn & Hp & _ & He & Hc); [exact demo_request_ok|reflexivity|..].
  - by apply (bool_decide_unpack (bytes_ok _)).
  - reflexivity.
  - reflexivity.
  - by vm_compute.
  - by vm_compute.
  - split; [by vm_compute|]. vm_compute. by repeat (right; split; [done|]); left.
  - exists w, st'. split; [exact Hn|]. split; [exact He|].
    assert (sec_websocket_key w = b64_encode demo_nonce) as Hk.
    { vm_compute in Hn. injection Hn as <- _. by vm_compute. }
    rewrite Hk in Hc.
    destruct (Hc (Some (lit "wamp.2.json")) (demo_client (lit "wamp.2.json")) [0x82; 0x00]) as (res & client' & E & _ & Hf & Hres).
    + by apply (bool_decide_unpack (plain_field _)).
    + reflexivity.
    + by vm_compute.
    + by vm_compute.
    + split; [by vm_compute|]. vm_compute. by repeat (right; split; [done|]); left.
    + exists client'. rewrite (proj2 Hres) in E by done. split; [exact E|exact Hf].
Defined.
