(* ===== verification/Writers.v ===== *)
(** * Connection writers

    The writer tasks of [ct_core/src/lib.rs]: [spawn_connection_writer] for
    RawSocket and [spawn_websocket_writer].  A writer takes the frames of its
    queue in order; a frame's receipt resolves when the frame is written, or
    dropped. *)
From stdpp Require Import gmap.
From S2P Require Import Prelude Bytes Text WampTypes RawFrame MsgpackMessage WampParse IoStream.
From S2P Require Import FileSender WireWriter RawSocketFrames WsMask WsFrame OutboundFrame.
From S2P Require Import WsMessage WsMessageWire Readers FileSegments DemoSerde.

(** How a writer deals with one frame: written, skipped, the end of the loop,
    the end after a close frame, or an await that nothing ends. *)
Inductive frame_end : Type :=
  | EndWritten
  | EndSkipped
  | EndBreak
  | EndClosed
  | EndPending.

Definition end_of {A} (ok : frame_end) (r : (wr_stop + A) * Writer) : frame_end * Writer :=
  match r with
  | (inr _, w) => (ok, w)
  | (inl (StopErr _), w) => (EndBreak, w)
  | (inl StopPending, w) => (EndPending, w)
  end.

(** ** Receipts *)

(** [completion.written()], and the drop of a frame. *)
Definition complete (f : OutboundFrame) (rs : Receipts) : Receipts :=
  match completion f with Some g => guard_written g rs | None => rs end.
Definition drop_frame (f : OutboundFrame) (rs : Receipts) : Receipts :=
  match completion f with Some g => drop_guard g rs | None => rs end.

Definition drop_frames (fs : list OutboundFrame) (rs : Receipts) : Receipts :=
  foldl (λ rs f, drop_frame f rs) rs fs.

Inductive writer_end : Type :=
  | QueueClosed     (* the senders are gone *)
  | WriterFailed
  | CloseSent
  | WriterPending.

(** The loop of a writer task over what its queue yields.  When the task ends
    its receiver goes, and the frames left in the queue with it. *)
Fixpoint writer_loop (step : OutboundFrame → Writer → frame_end * Writer)
    (rx : list OutboundFrame) (w : Writer) (rs : Receipts) : writer_end * Writer * Receipts :=
  match rx with
  | [] => (QueueClosed, w, rs)
  | f :: rx =>
      match step f w with
      | (EndWritten, w) => writer_loop step rx w (complete f rs)
      | (EndSkipped, w) => writer_loop step rx w (drop_frame f rs)
      | (EndBreak, w) => (WriterFailed, w, drop_frames (f :: rx) rs)
      | (EndClosed, w) => (CloseSent, w, drop_frames rx (complete f rs))
      | (EndPending, w) => (WriterPending, w, rs)
      end
  end.

Section writers.
Context `{B64 : !Base64Lib}.

(** The [for] loops over segments. *)
Fixpoint write_segments (segs : list (list Z)) : wr unit :=
  match segs with
  | [] => mret ()
  | s :: segs =>
      match s with
      | [] => write_segments segs
      | _ => _ ← wr_write_all s; write_segments segs
      end
  end.

(** ** RawSocket *)
Definition write_rawsocket_file (file_sender : bool) (seg : OutboundFileSegment) : wr unit :=
  match seg_encoding seg with
  | Identity =>
      if file_sender then wr_send_file_segment (seg_file seg) (seg_offset seg) (seg_len seg)
      else write_file_segment_buffered seg
  | Base64 => write_file_segment_buffered seg
  end.

Definition write_rawsocket_frame (file_sender : bool) (header : list Z) (f : OutboundFrame) :
    wr unit :=
  _ ← wr_write_all header;
  _ ← write_segments (segments f);
  _ ← match file_segment f with
      | Some seg => write_rawsocket_file file_sender seg
      | None => mret ()
      end;
  _ ← write_segments (suffix_segments f);
  wr_flush.

(** One round of [spawn_connection_writer]. *)
Definition connection_step (file_sender : bool) (exponent : Z) (f : OutboundFrame) (w : Writer) :
    frame_end * Writer :=
  let upgraded_protocol := 24 <? exponent in
  match resolve_deferred_segment f with
  | inl _ => (EndBreak, w)
  | inr f =>
      if frame_type f =? 0xff then end_of EndWritten (wr_flush w)
      else if 2 <? frame_type f then (EndSkipped, w)
      else match encode_frame_header (frame_type f) (payload_len f) upgraded_protocol with
      | inl _ => (EndSkipped, w)
      | inr header => end_of EndWritten (write_rawsocket_frame file_sender header f w)
      end
  end.

Definition connection_writer (file_sender : bool) (exponent : Z) :
    list OutboundFrame → Writer → Receipts → writer_end * Writer * Receipts :=
  writer_loop (connection_step file_sender exponent).

(** ** WebSocket *)
Definition frame_opcode (s : Serializer) (frame_type : Z) : option Z :=
  if frame_type =? 0 then Some (match s with Json => 0x1 | _ => 0x2 end)
  else if frame_type =? 1 then Some 0x9
  else if frame_type =? 2 then Some 0xA
  else if frame_type =? 3 then Some 0x8
  else None.

Definition write_websocket_frame (e : endianness) (mask : bool) (opcode : Z) (f : OutboundFrame) :
    wr unit :=
  _ ← match file_segment f with
      | Some seg =>
          write_websocket_file_frame_mode e opcode (payload_len f) (segments f) seg
            (suffix_segments f) mask
      | None =>
          write_websocket_frame_mode e opcode (payload_len f) (segments f) (suffix_segments f) mask
      end;
  wr_flush.

(** One round of [spawn_websocket_writer]. *)
Definition websocket_step (s : Serializer) (e : endianness) (mask : bool) (f : OutboundFrame)
    (w : Writer) : frame_end * Writer :=
  match resolve_deferred_segment f with
  | inl _ => (EndBreak, w)
  | inr f =>
      if frame_type f =? 0xff then end_of EndWritten (wr_flush w)
      else match frame_opcode s (frame_type f) with
      | None => (EndSkipped, w)
      | Some opcode =>
          end_of (if frame_type f =? 3 then EndClosed else EndWritten)
            (write_websocket_frame e mask opcode f w)
      end
  end.

(** After the loop a connection that neither failed nor closed says goodbye;
    that frame's errors are ignored. *)
Definition websocket_writer (s : Serializer) (e : endianness) (mask : bool)
    (rx : list OutboundFrame) (w : Writer) (rs : Receipts) : writer_end * Writer * Receipts :=
  match writer_loop (websocket_step s e mask) rx w rs with
  | (QueueClosed, w, rs) =>
      let close_frame := close (Some 1000) [] in
      match write_websocket_frame_mode e 0x8 (payload_len close_frame) (segments close_frame)
              (suffix_segments close_frame) mask w with
      | (inl StopPending, w) => (WriterPending, w, rs)
      | (_, w) => (QueueClosed, w, rs)
      end
  | r => r
  end.

End writers.

(** ** Receipts of a run *)

(** The channel a frame's receipt watches. *)
Definition channel_of (f : OutboundFrame) : option nat :=
  g ← completion f; if guard_sender g then Some (guard_channel g) else None.

Definition channels (fs : list OutboundFrame) : list nat := omap channel_of fs.

Lemma outcome_complete f rs c :
  outcome_of c (complete f rs) = if decide (channel_of f = Some c) then Written else outcome_of c rs.
Proof.
  unfold complete, channel_of. destruct (completion f) as [[ch []]|]; simpl; [|done..].
  unfold guard_written, drop_guard, send_replace, outcome_of. simpl.
  destruct (decide (Some ch = Some c)) as [E|E].
  - injection E as ->. by rewrite lookup_insert_eq.
  - rewrite lookup_insert_ne; [done|]. by intros ->.
Qed.

Lemma outcome_drop f rs c :
  outcome_of c (drop_frame f rs)
  = if decide (channel_of f = Some c) then Abandoned else outcome_of c rs.
Proof.
  unfold drop_frame, channel_of. destruct (completion f) as [[ch []]|]; simpl; [|done..].
  unfold drop_guard, send_replace, outcome_of. simpl.
  destruct (decide (Some ch = Some c)) as [E|E].
  - injection E as ->. by rewrite lookup_insert_eq.
  - rewrite lookup_insert_ne; [done|]. by intros ->.
Qed.

Lemma outcome_drops fs rs c :
  outcome_of c (drop_frames fs rs)
  = if decide (c ∈ channels fs) then Abandoned else outcome_of c rs.
Proof.
  unfold drop_frames, channels. revert rs. induction fs as [|f fs IH]; intros rs; simpl.
  { done. }
  rewrite IH, outcome_drop.
  destruct (channel_of f) as [ch|] eqn:E.
  - destruct (decide (c ∈ omap channel_of fs)).
    { by rewrite decide_True by by apply list_elem_of_further. }
    destruct (decide (Some ch = Some c)) as [Ec|Ec].
    + injection Ec as ->. by rewrite decide_True by by apply list_elem_of_here.
    + rewrite decide_False; [done|]. intros [->|?]%elem_of_cons; done.
  - rewrite (decide_False (P := None = Some c)) by done. done.
Qed.

(** ** The account of a run

    What became of the frames a writer took from its queue: each was written, as
    some octets, or skipped. *)
Definition account : Type := list (OutboundFrame * option (list Z)).

Definition account_frames (log : account) : list OutboundFrame := log.*1.
Definition account_octets (log : account) : list Z := concat (omap snd log).
Definition written_frames (log : account) : list OutboundFrame :=
  omap (λ '(f, b), match b with Some _ => Some f | None => None end) log.

Section account.
Context (step : OutboundFrame → Writer → frame_end * Writer).
(** What a frame may be on the wire, which prefixes a failure may leave, which
    frames are queued, skipped and close the connection, and what the
    environment keeps. *)
Context (wire : OutboundFrame → list Z → Prop) (partial : OutboundFrame → list Z → Prop).
Context (allowed skipped closes : OutboundFrame → Prop) (inv : Writer → Prop).

Definition step_spec : Prop := ∀ f w, allowed f → inv w →
  match step f w with
  | (EndWritten, w') => inv w' ∧ ¬ closes f ∧ ∃ b, wire f b ∧ w_out w' = w_out w ++ b
  | (EndClosed, w') => inv w' ∧ closes f ∧ ∃ b, wire f b ∧ w_out w' = w_out w ++ b
  | (EndSkipped, w') => inv w' ∧ skipped f ∧ w_out w' = w_out w
  | (EndBreak, w') | (EndPending, w') =>
      ∃ b, partial f b ∧ w_out w' = w_out w ++ b
  end.

Definition logged (e : OutboundFrame * option (list Z)) : Prop :=
  match e.2 with Some b => wire e.1 b | None => skipped e.1 end.

(** The frames not taken when the loop ended, and what the last one left. *)
Definition left_over (fin : writer_end) (rest : list OutboundFrame) (tail : list Z) : Prop :=
  match fin with
  | QueueClosed => rest = [] ∧ tail = []
  | CloseSent => tail = []
  | WriterFailed | WriterPending => ∃ f fs, rest = f :: fs ∧ partial f tail
  end.

Definition receipts_follow (rx : list OutboundFrame) (log : account) (fin : writer_end)
    (rs rs' : Receipts) : Prop :=
  (∀ c, c ∈ channels (written_frames log) → outcome_of c rs' = Written)
  ∧ (∀ c, c ∈ channels rx → c ∉ channels (written_frames log) →
      outcome_of c rs' = Abandoned ∨ fin = WriterPending ∧ outcome_of c rs' = outcome_of c rs)
  ∧ (∀ c, c ∉ channels rx → outcome_of c rs' = outcome_of c rs).

#[local] Arguments channels : simpl never.

(** A close frame is the last one written. *)
Definition no_close (log : account) : Prop := Forall (λ f, ¬ closes f) (written_frames log).
Definition close_last (fin : writer_end) (log : account) : Prop :=
  match fin with
  | CloseSent => ∃ log0 f b, log = log0 ++ [(f, Some b)] ∧ closes f ∧ no_close log0
  | _ => no_close log
  end.

Lemma close_last_cons fin log f b : (b ≠ None → ¬ closes f) →
  close_last fin log → close_last fin ((f, b) :: log).
Proof.
  intros Hf. assert (∀ l, no_close l → no_close ((f, b) :: l)) as Hcons.
  { intros l Hl. unfold no_close. destruct b; simpl; [|done]. constructor; [by apply Hf|done]. }
  destruct fin; simpl; try apply Hcons. intros (log0 & f0 & b0 & -> & Hc & Hn).
  exists ((f, b) :: log0), f0, b0. by split_and!; [|..|apply Hcons].
Qed.

Lemma channels_cons f fs :
  channels (f :: fs) = match channel_of f with Some c => c :: channels fs | None => channels fs end.
Proof. unfold channels. simpl. by destruct (channel_of f). Qed.

Lemma elem_of_channels_cons c f fs :
  c ∈ channels (f :: fs) ↔ channel_of f = Some c ∨ c ∈ channels fs.
Proof.
  rewrite channels_cons. destruct (channel_of f) as [d|]; [rewrite elem_of_cons|]; naive_solver.
Qed.

Lemma NoDup_channels_cons f fs : NoDup (channels (f :: fs)) →
  NoDup (channels fs) ∧ (∀ c, channel_of f = Some c → c ∉ channels fs).
Proof.
  rewrite channels_cons. destruct (channel_of f) as [d|]; [rewrite NoDup_cons|]; naive_solver.
Qed.

Lemma written_frames_sub c log : c ∈ channels (written_frames log) → c ∈ channels log.*1.
Proof.
  induction log as [|[f [b|]] log IH]; simpl; [done|..].
  - rewrite !elem_of_channels_cons. naive_solver.
  - rewrite elem_of_channels_cons. auto.
Qed.

(** One more frame at the front, written or skipped. *)
Lemma receipts_follow_cons f b rx log fin rs rs' rest :
  NoDup (channels (f :: rx)) → rx = log.*1 ++ rest →
  receipts_follow rx log fin (match b with Some _ => complete f rs | None => drop_frame f rs end) rs' →
  receipts_follow (f :: rx) ((f, b) :: log) fin rs rs'.
Proof.
  intros Hnd Hrx (H1 & H2 & H3). apply NoDup_channels_cons in Hnd as [_ Hf].
  assert (∀ c, c ∈ channels (written_frames log) → c ∈ channels rx) as Hsub.
  { intros c Hc%written_frames_sub. subst rx. unfold channels in *. rewrite omap_app.
    apply elem_of_app. by left. }
  assert (∀ c, outcome_of c (match b with Some _ => complete f rs | None => drop_frame f rs end)
    = if decide (channel_of f = Some c) then match b with Some _ => Written | None => Abandoned end
      else outcome_of c rs) as Ho.
  { intros c. destruct b; [apply outcome_complete|apply outcome_drop]. }
  unfold receipts_follow. split_and!.
  - intros c. destruct b as [b|]; simpl; [|apply H1].
    rewrite elem_of_channels_cons. intros [Hc|Hc]; [|by apply H1].
    rewrite H3 by by apply Hf. rewrite Ho. by rewrite decide_True.
  - intros c. rewrite elem_of_channels_cons. intros [Hc|Hc] Hnw.
    + rewrite H3 by by apply Hf. rewrite Ho, decide_True by done. destruct b as [b|]; [|by left].
      exfalso. apply Hnw. simpl. apply elem_of_channels_cons. by left.
    + assert (channel_of f ≠ Some c) as Hne by (intros E; by apply (Hf c)).
      destruct (H2 c Hc) as [?|[? Hsame]].
      * intros Hw. apply Hnw. destruct b; simpl; [|done]. apply elem_of_channels_cons. by right.
      * by left.
      * right. split; [done|]. by rewrite Hsame, Ho, decide_False.
  - intros c. rewrite elem_of_channels_cons. intros Hc.
    rewrite H3, Ho, decide_False; naive_solver.
Qed.

(** The frames left over when the loop ends are dropped, or stay as they are. *)
Lemma receipts_follow_left rest fin rs :
  receipts_follow rest [] fin rs
    (match fin with WriterPending => rs | _ => drop_frames rest rs end).
Proof.
  unfold receipts_follow. split_and!.
  - intros c Hc. by apply not_elem_of_nil in Hc.
  - intros c Hc _. destruct fin; [left|left|left|by right];
      rewrite outcome_drops; by rewrite decide_True.
  - intros c Hc. destruct fin; [..|done]; rewrite outcome_drops; by rewrite decide_False.
Qed.

Lemma writer_loop_spec rx w rs : step_spec → Forall allowed rx → inv w → NoDup (channels rx) →
  let '(fin, w', rs') := writer_loop step rx w rs in
  ∃ log rest tail, rx = account_frames log ++ rest ∧ Forall logged log
    ∧ w_out w' = w_out w ++ account_octets log ++ tail
    ∧ left_over fin rest tail ∧ receipts_follow rx log fin rs rs' ∧ close_last fin log
    ∧ match fin with QueueClosed | CloseSent => inv w' | _ => True end.
Proof.
  intros Hstep. revert w rs. induction rx as [|f rx IH]; intros w rs Hall Hinv Hnd;
    cbn [writer_loop].
  { exists [], [], []. rewrite !app_nil_r. split_and!; try done.
    - apply (receipts_follow_left [] QueueClosed).
    - by constructor. }
  apply Forall_cons in Hall as [Hal Hall]. pose proof (Hstep f w Hal Hinv) as Hf. destruct (step f w) as [[] w1].
  - destruct Hf as (Hinv1 & Hnc & b & Hb & Ho). apply NoDup_channels_cons in Hnd as Hnd'.
    specialize (IH w1 (complete f rs) Hall Hinv1 (proj1 Hnd')).
    destruct (writer_loop step rx w1 _) as [[fin w'] rs'].
    destruct IH as (log & rest & tail & Hrx & Hlog & Ho' & Hleft & Hrs & Hcl & Hi).
    exists ((f, Some b) :: log), rest, tail. split_and!; try done.
    + simpl. by f_equal.
    + by constructor.
    + rewrite Ho', Ho. unfold account_octets. simpl. by rewrite <-!(assoc_L (++)).
    + by apply (receipts_follow_cons f (Some b) rx log fin rs rs' rest).
    + by apply close_last_cons.
  - destruct Hf as (Hinv1 & Hskip & Ho). apply NoDup_channels_cons in Hnd as Hnd'.
    specialize (IH w1 (drop_frame f rs) Hall Hinv1 (proj1 Hnd')).
    destruct (writer_loop step rx w1 _) as [[fin w'] rs'].
    destruct IH as (log & rest & tail & Hrx & Hlog & Ho' & Hleft & Hrs & Hcl & Hi).
    exists ((f, None) :: log), rest, tail. split_and!; try done.
    + simpl. by f_equal.
    + by constructor.
    + by rewrite Ho', Ho.
    + by apply (receipts_follow_cons f None rx log fin rs rs' rest).
    + by apply close_last_cons.
  - destruct Hf as (b & Hb & Ho). exists [], (f :: rx), b. split_and!; try done.
    + by exists f, rx.
    + apply (receipts_follow_left (f :: rx) WriterFailed).
    + by constructor.
  - destruct Hf as (Hinv1 & Hc & b & Hb & Ho). exists [(f, Some b)], rx, []. split_and!; try done.
    + by repeat constructor.
    + rewrite Ho. unfold account_octets. simpl. by rewrite !app_nil_r.
    + apply (receipts_follow_cons f (Some b) rx [] CloseSent rs _ rx); [done|done|].
      apply (receipts_follow_left rx CloseSent).
    + exists [], f, b. by split_and!; [..|constructor].
  - destruct Hf as (b & Hb & Ho). exists [], (f :: rx), b. split_and!; try done.
    + by exists f, rx.
    + apply (receipts_follow_left (f :: rx) WriterPending).
    + by constructor.
Qed.

End account.

(** ** RawSocket frames written *)
Section rawsocket.
Context `{B64 : !Base64Lib}.

(** The payload of a resolved frame. *)
Definition segment_octets (file : option OutboundFileSegment) : list Z :=
  match file with
  | Some seg => file_octets (seg_encoding seg) (seg_file seg) (seg_offset seg) (seg_len seg)
  | None => []
  end.

Definition frame_payload (f : OutboundFrame) : list Z :=
  concat (segments f) ++ segment_octets (file_segment f) ++ concat (suffix_segments f).

(** A frame the API can queue: made by a constructor, of octets, with a file
    range at non-negative positions. *)
Definition queueable (f : OutboundFrame) : Prop :=
  constructed f ∧ 0 ≤ frame_type f ∧ Forall bytes_ok (segments f)
  ∧ Forall bytes_ok (suffix_segments f)
  ∧ (∀ seg, file_segment f = Some seg → seg_ok seg ∧ is_Some (wire_len (seg_encoding seg) (seg_len seg)))
  ∧ (∀ b, deferred_segment f = Some (Prepared b) → bytes_ok b).

(** The octets of a frame on a RawSocket connection: none for a barrier, a
    header and the payload otherwise. *)
Definition rawsocket_octets (up : bool) (f' : OutboundFrame) (b : list Z) : Prop :=
  frame_type f' = 0xff ∧ b = []
  ∨ frame_type f' ≤ 2 ∧ ∃ header,
      encode_frame_header (frame_type f') (payload_len f') up = inr header
      ∧ b = header ++ frame_payload f'.

(** A frame that is written has the payload it announced; one that fails left a
    prefix. *)
Definition rawsocket_wire (up : bool) (f : OutboundFrame) (b : list Z) : Prop :=
  ∃ f', resolve_deferred_segment f = inr f' ∧ rawsocket_octets up f' b
    ∧ (frame_type f' ≠ 0xff → zlen (frame_payload f') = payload_len f').

Definition rawsocket_partial (up : bool) (f : OutboundFrame) (k : list Z) : Prop :=
  k = [] ∨ ∃ f' b, resolve_deferred_segment f = inr f' ∧ rawsocket_octets up f' b
    ∧ k `prefix_of` b.

Definition rawsocket_skipped (up : bool) (f : OutboundFrame) : Prop :=
  ∃ f', resolve_deferred_segment f = inr f' ∧ frame_type f' ≠ 0xff
    ∧ (2 < frame_type f' ∨ ∃ e, encode_frame_header (frame_type f') (payload_len f') up = inl e).

Lemma write_segments_spec segs : wr_spec (write_segments segs) (concat segs) (λ _, True).
Proof.
  induction segs as [|s segs IH]; simpl; [by apply wr_spec_ret|].
  destruct s as [|b s]; [done|]. eapply wr_spec_bind; [apply wr_spec_write_all|]. by intros.
Qed.

(** The range of a file segment is whole. *)
Definition range_whole (file : option OutboundFileSegment) : Prop :=
  match file with
  | Some seg =>
      zlen (sub_bytes (seg_file seg) (seg_offset seg) (seg_offset seg + seg_len seg)) = seg_len seg
  | None => True
  end.

Lemma write_rawsocket_frame_spec sender header f :
  (∀ seg, file_segment f = Some seg → seg_ok seg) →
  wr_spec (write_rawsocket_frame sender header f) (header ++ frame_payload f)
    (λ _, range_whole (file_segment f)).
Proof.
  intros Hseg. unfold write_rawsocket_frame, frame_payload.
  eapply wr_spec_bind; [apply wr_spec_write_all|]. intros _ _.
  eapply wr_spec_bind; [apply write_segments_spec|]. intros _ _.
  apply (wr_spec_bind _ _ _ _ (λ _, range_whole (file_segment f))).
  - destruct (file_segment f) as [seg|]; [|by apply wr_spec_ret].
    destruct (Hseg seg eq_refl) as (Hoff & Hlen & _). unfold write_rawsocket_file, segment_octets.
    pose proof (write_file_chunks_spec _ seg _ _ Hoff Hlen (Nat.le_refl _)) as Hb.
    fold (write_file_segment_buffered seg) in Hb.
    destruct (seg_encoding seg) eqn:Ee; [|exact Hb]. destruct sender; [|exact Hb].
    by apply wr_spec_send_file_segment.
  - intros _ Hw. rewrite <-(app_nil_r (concat (suffix_segments f))).
    eapply wr_spec_bind; [apply write_segments_spec|]. intros _ _.
    eapply wr_spec_weaken; [apply wr_spec_flush|]. by intros.
Qed.

Lemma resolve_queueable f f' : queueable f → resolve_deferred_segment f = inr f' →
  Forall bytes_ok (segments f') ∧ Forall bytes_ok (suffix_segments f')
  ∧ 0 ≤ frame_type f' ∧ payload_len f' = parts_len f'
  ∧ (∀ seg, file_segment f' = Some seg →
      seg_ok seg ∧ is_Some (wire_len (seg_encoding seg) (seg_len seg))).
Proof.
  intros (Hc & Ht & Hs & Hx & Hf & Hd) Hr. apply constructed_wf in Hc.
  pose proof (resolve_deferred_ok f f' Hc Hr) as (_ & Hp & Ht' & _ & Hf' & Hx' & Hs').
  rewrite Ht', Hf', Hx'. split_and!; try done.
  destruct Hs' as [-> |(b & Hb & ->)]; [done|]. apply Forall_app. split; [done|].
  constructor; [by apply Hd|done].
Qed.

Lemma frame_payload_len f : payload_len f = parts_len f → range_whole (file_segment f) →
  (∀ seg, file_segment f = Some seg →
    seg_ok seg ∧ is_Some (wire_len (seg_encoding seg) (seg_len seg))) →
  zlen (frame_payload f) = payload_len f.
Proof.
  intros -> Hw Hf. unfold frame_payload, parts_len. rewrite !zlen_app, !sum_len_concat.
  destruct (file_segment f) as [seg|]; simpl in *; [|unfold file_wire_len; simpl; zlia].
  destruct (Hf seg eq_refl) as [(_ & Hl & _) [wl Hwl]]. unfold file_wire_len. simpl.
  rewrite Hwl. simpl. rewrite (wire_len_octets _ _ _ _ _ Hl Hwl Hw). lia.
Qed.

Lemma end_of_spec {A} (ok : frame_end) (m : wr A) bytes P w : wr_spec m bytes P →
  match end_of ok (m w) with
  | (e, w') =>
      (e = ok ∧ emitted w w' bytes ∧ ∃ a, P a)
      ∨ (e = EndBreak ∨ e = EndPending) ∧ ∃ k, k `prefix_of` bytes ∧ w_out w' = w_out w ++ k
  end.
Proof.
  intros Hm. specialize (Hm w). unfold end_of.
  destruct (m w) as [[[e|]|a] w1]; [right; auto..|]. destruct Hm as [He Ha]. left. eauto.
Qed.

(** Every round of the RawSocket writer is one of the three. *)
Lemma connection_step_spec sender exponent : let up := 24 <? exponent in
  step_spec (connection_step sender exponent) (rawsocket_wire up) (rawsocket_partial up)
    queueable (rawsocket_skipped up) (λ _, False) (λ _, True).
Proof.
  intros up f w Hq _. unfold connection_step. fold up.
  destruct (resolve_deferred_segment f) as [e|f'] eqn:Hr.
  { exists []. split; [by left|by rewrite app_nil_r]. }
  pose proof (resolve_queueable f f' Hq Hr) as (_ & _ & Ht & Hp & Hf).
  assert (range_whole (file_segment f') → zlen (frame_payload f') = payload_len f') as Hlen
    by (intros; by apply frame_payload_len).
  destruct (Z.eqb_spec (frame_type f') 0xff) as [Hb|Hb].
  { assert (rawsocket_octets up f' []) as Ho by by left.
    pose proof (end_of_spec EndWritten _ _ _ w wr_spec_flush) as H.
    destruct (end_of EndWritten (wr_flush w)) as [e w1].
    destruct H as [(-> & [Hw _] & _)|[[-> | ->] (k & Hk & Hw)]].
    - split; [done|]. split; [tauto|]. exists []. split; [|done]. exists f'. by split_and!.
    - exists k. split; [right; by exists f', []|done].
    - exists k. split; [right; by exists f', []|done]. }
  destruct (Z.ltb_spec 2 (frame_type f')) as [H2|H2].
  { split; [done|]. split; [|done]. exists f'. split_and!; [done|done|by left]. }
  destruct (encode_frame_header (frame_type f') (payload_len f') up) as [e|header] eqn:He.
  { split; [done|]. split; [|done]. exists f'. split; [done|]. split; [done|]. right. by exists e. }
  assert (rawsocket_octets up f' (header ++ frame_payload f')) as Ho
    by (right; split; [done|by exists header]).
  pose proof (end_of_spec EndWritten _ _ _ w
    (write_rawsocket_frame_spec sender header f' (λ seg Hs, proj1 (Hf seg Hs)))) as H.
  destruct (end_of EndWritten _) as [e w1].
  destruct H as [(-> & [Hw _] & _ & Hwhole)|[[-> | ->] (k & Hk & Hw)]].
  - split; [done|]. split; [tauto|]. eexists. split; [|exact Hw]. exists f'.
    split; [done|]. split; [done|]. intros _. by apply Hlen.
  - exists k. split; [right; by eexists f', _|done].
  - exists k. split; [right; by eexists f', _|done].
Qed.

(** ** Read back *)
Context `{SL : !SerdeLib}.

(** What the peer's reader should see of a written frame. *)
Definition inbound_of (f : OutboundFrame) : option InboundFrame :=
  match resolve_deferred_segment f with
  | inr f' => if frame_type f' =? 0xff then None
              else Some (frame_of (frame_type f') (frame_payload f'))
  | inl _ => None
  end.

Definition inbound (log : account) : list InboundFrame := omap inbound_of (written_frames log).

(** A reader dealing with some frames. *)
Fixpoint deliver (env : ReaderEnv) (s : Serializer) (frames : list InboundFrame) (o : ReaderOut) :
    round * ReaderOut :=
  match frames with
  | [] => (Next, o)
  | f :: frames =>
      match rawsocket_frame env s f o with
      | (Next, o) => deliver env s frames o
      | r => r
      end
  end.

(** The payloads written stay within the peer's limit. *)
Definition within (exponent : Z) (f : OutboundFrame) : Prop :=
  ∀ f', resolve_deferred_segment f = inr f' → payload_len f' ≤ Z.shiftl 1 exponent.

Lemma connection_reader_S fuel env s exponent o st :
  connection_reader (S fuel) env s exponent o st
  = match connection_reader_round env s exponent o st with
    | (Next, o, st) => connection_reader fuel env s exponent o st
    | r => r
    end.
Proof. done. Qed.

(** The reader, on what was written, does what delivering the frames does. *)
Definition reads_as (env : ReaderEnv) (s : Serializer) (exponent : Z) (frames : list InboundFrame)
    (o : ReaderOut) (st : IoStream) (rest : list Z) (n : Z) : Prop :=
  match deliver env s frames o with
  | (Next, o') => ∃ st', unread st' = rest ∧ stream_flows st' n ∧
      ∀ fuel, connection_reader (length frames + fuel) env s exponent o st
              = connection_reader fuel env s exponent o' st'
  | (r, o') => ∃ st', ∀ fuel,
      connection_reader (length frames + fuel) env s exponent o st = (r, o', st')
  end.

Lemma reads_as_cons env s exponent frame frames o st st1 rest n :
  read_inbound_frame (Z.shiftl 1 exponent) (24 <? exponent) st = (SOk frame, st1) →
  (∀ o', reads_as env s exponent frames o' st1 rest n) →
  reads_as env s exponent (frame :: frames) o st rest n.
Proof.
  intros Hr Hrest. unfold reads_as in *. cbn [deliver].
  assert (∀ fuel, connection_reader (length (frame :: frames) + fuel) env s exponent o st
    = match rawsocket_frame env s frame o with
      | (Next, o) => connection_reader (length frames + fuel) env s exponent o st1
      | (r, o) => (r, o, st1)
      end) as Hrun.
  { intros fuel. change (length (frame :: frames) + fuel)%nat with (S (length frames + fuel)).
    rewrite connection_reader_S. unfold connection_reader_round. rewrite Hr.
    by destruct (rawsocket_frame env s frame o) as [[] o1]. }
  destruct (rawsocket_frame env s frame o) as [[] o1]; [|by exists st1..].
  specialize (Hrest o1). destruct (deliver env s frames o1) as [[] o2].
  - destruct Hrest as (st' & Hu & Hs & Hf). exists st'. split_and!; [done|done|].
    intros fuel. by rewrite Hrun.
  - destruct Hrest as (st' & Hf). exists st'. intros fuel. by rewrite Hrun.
  - destruct Hrest as (st' & Hf). exists st'. intros fuel. by rewrite Hrun.
  - destruct Hrest as (st' & Hf). exists st'. intros fuel. by rewrite Hrun.
Qed.

Lemma account_read_back env s exponent log : ∀ o st rest n,
  let up := 24 <? exponent in
  Forall (logged (rawsocket_wire up) (rawsocket_skipped up)) log →
  Forall queueable (account_frames log) → Forall (within exponent) (account_frames log) →
  stream_flows st n → zlen (account_octets log) ≤ n → unread st = account_octets log ++ rest →
  reads_as env s exponent (inbound log) o st rest (n - zlen (account_octets log)).
Proof.
  intros o st rest n up. revert o st n.
  induction log as [|[f [b|]] log IH]; intros o st n Hlog Hq Hw Hs Hn Hu.
  - unfold reads_as, account_octets in *. simpl in *. exists st. rewrite zlen_nil, Z.sub_0_r.
    by split_and!.
  - apply Forall_cons in Hlog as [Hf Hlog], Hq as [Hqf Hq], Hw as [Hwf Hw].
    destruct Hf as (f' & Hr & Ho & Hz). simpl in Hr, Hqf, Hwf.
    pose proof (resolve_queueable f f' Hqf Hr) as (_ & _ & Ht & _).
    unfold account_octets in *. cbn [omap list_omap concat snd] in *.
    unfold inbound in *. cbn [written_frames omap list_omap]. unfold inbound_of at 1. rewrite Hr.
    destruct Ho as [[Hb ->]|(H2 & header & He & ->)].
    { rewrite Hb. simpl. by apply IH. }
    destruct (Z.eqb_spec (frame_type f') 0xff); [lia|]. specialize (Hz ltac:(done)).
    rewrite zlen_app in *. rewrite <-(assoc_L (++)) in Hu.
    pose proof (zlen_nonneg (concat (omap snd log))).
    rewrite <-Hz in He.
    destruct (read_inbound_frame_encoded (frame_type f') (frame_payload f') up
      (Z.shiftl 1 exponent) header st (concat (omap snd log) ++ rest) n) as (st1 & Hrd & Hu1 & Hs1);
      [lia|rewrite Hz; by apply Hwf|done|done|lia|by rewrite Hu, <-!(assoc_L (++))|].
    apply (reads_as_cons _ _ _ _ _ _ _ st1); [done|]. intros o'.
    rewrite Z.sub_add_distr. apply IH; try done. lia.
  - apply Forall_cons in Hlog as [_ Hlog], Hq as [_ Hq], Hw as [_ Hw]. by apply IH.
Qed.

End rawsocket.
(** ** WebSocket frames written *)
Section websocket.
Context `{B64 : !Base64Lib}.

(** The octets of a frame on a WebSocket connection: the payload in one or more
    masked or unmasked frames. *)
Definition websocket_octets (s : Serializer) (mp : bool) (f' : OutboundFrame) (b : list Z) : Prop :=
  frame_type f' = 0xff ∧ b = []
  ∨ ∃ op parts masks, frame_opcode s (frame_type f') = Some op
      ∧ concat parts = frame_payload f' ∧ Forall bytes_ok parts
      ∧ (frame_type f' ≠ 0 → parts = [frame_payload f'])
      ∧ parts ≠ [] ∧ length masks = length parts ∧ masks_ok mp masks
      ∧ b = message_frames op parts masks.

Definition websocket_wire (s : Serializer) (mp : bool) (f : OutboundFrame) (b : list Z) : Prop :=
  ∃ f', resolve_deferred_segment f = inr f' ∧ websocket_octets s mp f' b.

Definition websocket_skipped (s : Serializer) (f : OutboundFrame) : Prop :=
  ∃ f', resolve_deferred_segment f = inr f' ∧ frame_type f' ≠ 0xff
    ∧ frame_opcode s (frame_type f') = None.

Definition is_close (f : OutboundFrame) : Prop := frame_type f = 3.

(** Only [control] makes frames of other types than 0. *)
Lemma constructed_type f : constructed f → frame_type f ≠ 0 →
  ∃ payload, segments f = [payload] ∧ suffix_segments f = [] ∧ deferred_segment f = None
    ∧ file_segment f = None.
Proof.
  induction 1 as [t p|p|segs|prefix dl suffix prep f H|prefix file off len suffix enc f H|f rs H IH];
    intros Ht; try done.
  - by exists p.
  - unfold message_deferred_segment_with_suffix in H. case_match; [|done]. by injection H as <-.
  - unfold message_file_segment in H. case_match; [|done]. case_match; [|done].
    by injection H as <-.
  - by apply IH.
Qed.

Lemma grows_read_chunk file off n : grows (read_file_chunk_at file off n).
Proof.
  intros w. unfold read_file_chunk_at. by destruct (read_file_exact_at _ _ _ _ _) as [[e|b] ev].
Qed.

Lemma grows_file_frame e op n prefixes seg suffixes mp :
  grows (write_websocket_file_frame_mode e op n prefixes seg suffixes mp).
Proof.
  pose proof grows_frame_header. pose proof grows_read_chunk. pose proof grows_masked_chunks.
  assert (∀ s mask off, grows (write_websocket_payload e s mask off)) as Hp
    by (intros; unfold write_websocket_payload; solve_grows).
  assert (∀ segs mask off, grows (write_websocket_payloads e segs mask off)) as Hps.
  { intros segs. induction segs as [|s segs IH]; intros; simpl; solve_grows. }
  assert (∀ fuel mask off m poff, grows (write_websocket_file_chunks fuel e seg mask off m poff)).
  { intros fuel. induction fuel as [|fuel IH]; intros; cbn [write_websocket_file_chunks];
      unfold chunk_octets, encode_chunk; solve_grows. }
  unfold write_websocket_file_frame_mode. solve_grows.
Qed.

Lemma grows_websocket_frame e mp op f : grows (write_websocket_frame e mp op f).
Proof.
  unfold write_websocket_frame. pose proof grows_file_frame. pose proof grows_frame_mode.
  solve_grows.
Qed.

Lemma sum_len_nonneg segs : 0 ≤ sum_len segs.
Proof. rewrite sum_len_concat. apply zlen_nonneg. Qed.

(** A frame that is written whole. *)
Lemma write_websocket_frame_ok s e mp op f f' w u w' : queueable f →
  resolve_deferred_segment f = inr f' → frame_opcode s (frame_type f') = Some op → rng_ok w →
  write_websocket_frame e mp op f' w = (inr u, w') →
  rng_ok w' ∧ ∃ b, websocket_octets s mp f' b ∧ w_out w' = w_out w ++ b.
Proof.
  intros Hq Hres Hop Hr H. pose proof (resolve_queueable f f' Hq Hres) as (Hs & Hx & _ & Hp & Hf).
  unfold write_websocket_frame in H. apply wr_bind_ok in H as (? & w1 & H1 & H).
  apply wr_flush_ok in H as [Ho Hrng]. rewrite app_nil_r in Ho.
  assert (frame_type f' ≠ 0 → ∃ payload, segments f' = [payload] ∧ suffix_segments f' = []
    ∧ file_segment f' = None) as Hctl.
  { destruct Hq as (Hc & _). apply constructed_wf in Hc as Hwf.
    pose proof (resolve_deferred_ok f f' Hwf Hres) as (_ & _ & -> & _ & -> & -> & Hsegs).
    intros Ht. destruct (constructed_type f Hc Ht) as (p & E1 & E2 & E3 & E4).
    exists p. destruct Hsegs as [-> |(b & Hb & _)]; [done|congruence]. }
  destruct (file_segment f') as [seg|] eqn:Eseg.
  - destruct (Hf seg eq_refl) as [Hseg _].
    apply write_file_frame_ok in H1 as (m & Hmp & Hm & Hr1 & _ & Ho1); [|done..].
    split; [unfold rng_ok in *; by rewrite Hrng|]. eexists. split; [|by rewrite Ho, Ho1].
    right. exists op, [frame_payload f'], [m].
    assert (file_frame_payload (segments f') seg (suffix_segments f') = frame_payload f') as Efp
      by (unfold file_frame_payload, frame_payload; by rewrite Eseg).
    rewrite Efp. split_and!; try done.
    + simpl. by rewrite app_nil_r.
    + constructor; [|done]. unfold frame_payload. rewrite Eseg. simpl.
      repeat (apply Forall_app; split); [by apply Forall_concat| |by apply Forall_concat].
      apply file_octets_ok, Hseg.
    + by constructor.
  - assert (frame_payload f' = concat (segments f' ++ suffix_segments f')) as Efp
      by (unfold frame_payload; rewrite Eseg; by rewrite concat_app).
    apply write_frame_mode_ok in H1 as (masks & Hlen & Hms & Hr1 & Ho1).
    + split; [unfold rng_ok in *; by rewrite Hrng|]. eexists. split; [|by rewrite Ho, Ho1].
      right. exists op, (message_parts (segments f' ++ suffix_segments f')), masks.
      destruct (message_parts_ok (segments f' ++ suffix_segments f')) as [Hne Hb];
        [by apply Forall_app|].
      split_and!; try done.
      * by rewrite message_parts_concat.
      * intros Ht. destruct (Hctl Ht) as (p & E1 & E2 & _). rewrite Efp, E1, E2.
        destruct p; [done|]. unfold message_parts. simpl. by rewrite app_nil_r.
    + destruct (decide (frame_type f' = 0)) as [E|E].
      * unfold frame_opcode in Hop. rewrite E in Hop. simpl in Hop. injection Hop as <-.
        destruct s; [by left|by right; left..].
      * right. right. destruct (Hctl E) as (p & -> & -> & _). destruct p; simpl; lia.
    + rewrite Hp. unfold parts_len. rewrite Eseg, concat_app, zlen_app, <-!sum_len_concat.
      unfold file_wire_len. simpl. lia.
    + by apply Forall_app.
    + done.
Qed.

Lemma websocket_step_spec s e mp :
  step_spec (websocket_step s e mp) (websocket_wire s mp) (λ _ _, True) queueable
    (websocket_skipped s) is_close rng_ok.
Proof.
  intros f w Hq Hr. unfold websocket_step.
  destruct (resolve_deferred_segment f) as [err|f'] eqn:Hres.
  { exists []. by rewrite app_nil_r. }
  assert (frame_type f' = frame_type f) as Ht.
  { destruct Hq as (Hc & _). apply constructed_wf in Hc. by apply (resolve_deferred_ok f f' Hc). }
  destruct (Z.eqb_spec (frame_type f') 0xff) as [Hb|Hb].
  { pose proof (end_of_spec EndWritten _ _ _ w wr_spec_flush) as H.
    destruct (end_of EndWritten (wr_flush w)) as [e1 w1].
    destruct H as [(-> & [Hw Hrng] & _)|[[-> | ->] (k & Hk & Hw)]]; [|by exists k..].
    split; [unfold rng_ok in *; by rewrite Hrng|]. split; [unfold is_close; lia|].
    exists []. split; [|done]. exists f'. split; [done|by left]. }
  destruct (frame_opcode s (frame_type f')) as [op|] eqn:Hop.
  2: { split; [done|]. split; [|done]. by exists f'. }
  pose proof (grows_websocket_frame e mp op f' w) as [k Hk].
  pose proof (write_websocket_frame_ok s e mp op f f' w) as Hok.
  destruct (write_websocket_frame e mp op f' w) as [[[err|]|[]] w1]; simpl in *.
  - by exists k.
  - by exists k.
  - destruct (Hok () w1 Hq Hres Hop Hr eq_refl) as (Hr1 & b & Hbo & Ho).
    unfold is_close. rewrite <-Ht.
    destruct (Z.eqb_spec (frame_type f') 3); (split; [done|]); (split; [done|]);
      exists b; (split; [by exists f'|done]).
Qed.

End websocket.

(** ** Properties *)

(** C3: the account of a RawSocket writer.  For every queue of frames the API
    can make, the socket gets the frames in order, each header followed by
    exactly the payload it announces, whatever the mix of segments, files and
    suffixes; a failure leaves a prefix of one more frame and nothing after it.
    A receipt says written exactly for the frames that went out whole; every
    other frame's receipt says abandoned once the writer has ended. *)
Theorem rawsocket_writer_account `{B64 : !Base64Lib} sender exponent rx w rs :
  let up := 24 <? exponent in
  Forall queueable rx → NoDup (channels rx) →
  let '(fin, w', rs') := connection_writer sender exponent rx w rs in
  ∃ log rest tail, rx = account_frames log ++ rest
    ∧ Forall (logged (rawsocket_wire up) (rawsocket_skipped up)) log
    ∧ w_out w' = w_out w ++ account_octets log ++ tail
    ∧ left_over (rawsocket_partial up) fin rest tail
    ∧ receipts_follow rx log fin rs rs'.
Proof.
  intros up Hq Hnd.
  pose proof (writer_loop_spec _ _ _ _ _ _ _ rx w rs (connection_step_spec sender exponent)
    Hq I Hnd) as H.
  unfold connection_writer. destruct (writer_loop _ rx w rs) as [[fin w'] rs'].
  destruct H as (log & rest & tail & ? & ? & ? & ? & ? & _). by exists log, rest, tail.
Qed.

(** the account of a WebSocket writer.  Frames go out in order, each whole
    and masked as the connection asks, data messages in one or more frames;
    receipts say written exactly for those, and abandoned for the rest once the
    writer has ended; and no frame is written after a close frame. *)
Theorem websocket_writer_account `{B64 : !Base64Lib} s e mp rx w rs :
  Forall queueable rx → NoDup (channels rx) → rng_ok w →
  let '(fin, w', rs') := websocket_writer s e mp rx w rs in
  ∃ log rest tail, rx = account_frames log ++ rest
    ∧ Forall (logged (websocket_wire s mp) (websocket_skipped s)) log
    ∧ w_out w' = w_out w ++ account_octets log ++ tail
    ∧ (fin = QueueClosed → rest = []) ∧ (fin = CloseSent → tail = [])
    ∧ receipts_follow rx log fin rs rs' ∧ close_last is_close fin log.
Proof.
  intros Hq Hnd Hr.
  pose proof (writer_loop_spec _ _ _ _ _ _ _ rx w rs (websocket_step_spec s e mp) Hq Hr Hnd) as H.
  unfold websocket_writer. destruct (writer_loop _ rx w rs) as [[fin w1] rs'].
  destruct H as (log & rest & tail & Hrx & Hlog & Ho & Hleft & Hrs & Hcl & _).
  destruct fin; try (exists log, rest, tail; by split_and!).
  destruct Hleft as [-> ->]. rewrite app_nil_r in Ho. cbv zeta.
  match goal with |- context [write_websocket_frame_mode ?a ?b ?c ?d ?f ?g w1] =>
    pose proof (grows_frame_mode a b c d f g w1) as [k Hk];
    destruct (write_websocket_frame_mode a b c d f g w1) as [[[err|]|[]] w2] end;
    exists log, [], k; simpl in Hk; rewrite Ho, <-(assoc_L (++)) in Hk;
    (split_and!; try done); destruct Hrs as (H1 & H2 & H3); split_and!; try done;
    intros c Hc Hn; destruct (H2 c Hc Hn) as [?|[? _]]; auto; done.
Qed.

(** C2: a RawSocket session, end to end.  What the writer of one side puts on the
    wire, the reader of the other side turns into the same messages, pings and
    pongs in the same order, however the bytes arrive: it posts the parsed
    messages and answers the pings as if the frames had been handed over, until
    one of them stops it, and else has read exactly the frames' octets. *)
Theorem rawsocket_session_roundtrip `{B64 : !Base64Lib} `{SL : !SerdeLib} sender exponent rx w rs :
  Forall queueable rx → Forall (within exponent) rx → NoDup (channels rx) →
  let '(fin, w', _) := connection_writer sender exponent rx w rs in
  ∃ log rest tail, rx = account_frames log ++ rest
    ∧ w_out w' = w_out w ++ account_octets log ++ tail
    ∧ (fin = QueueClosed → rest = [] ∧ tail = [])
    ∧ ∀ env s o st extra, stream_flows st (zlen (account_octets log)) →
      unread st = account_octets log ++ extra →
      reads_as env s exponent (inbound log) o st extra 0.
Proof.
  intros Hq Hw Hnd.
  pose proof (writer_loop_spec _ _ _ _ _ _ _ rx w rs (connection_step_spec sender exponent)
    Hq I Hnd) as H.
  unfold connection_writer. destruct (writer_loop _ rx w rs) as [[fin w'] rs'].
  destruct H as (log & rest & tail & Hrx & Hlog & Ho & Hleft & _).
  exists log, rest, tail. split_and!; [done|done|by destruct fin|].
  rewrite Hrx in Hq, Hw. apply Forall_app in Hq as [Hq _], Hw as [Hw _].
  intros env s o st extra Hs Hu.
  rewrite <-(Z.sub_diag (zlen (account_octets log))). by apply account_read_back.
Qed.

Definition demo_ping : OutboundFrame :=
  mkOutboundFrame 1 2 [[7; 8]] None None [] (Some (mkWriteGuard 0 true)).
Definition demo_file_frame : OutboundFrame :=
  mkOutboundFrame 0 6 [[1]] None (Some (mkOutboundFileSegment [0; 77; 97; 110; 0] 1 3 Base64))
    [[2]] (Some (mkWriteGuard 1 true)).

Definition demo_receipts : Receipts := mkReceipts 2 (<[1%nat := Pending]> {[0%nat := Pending]}).

Lemma demo_ping_queueable : queueable demo_ping.
Proof.
  split; [exact (constructed_tracked (control 1 [7; 8]) (mkReceipts 0 ∅) (constructed_control 1 [7; 8]))|].
  unfold bytes_ok, u8_ok. split; [done|].
  split; [repeat (apply Forall_cons_2 || apply Forall_nil_2); lia|]. split; [constructor|]. by split.
Qed.

Lemma demo_file_queueable : queueable demo_file_frame.
Proof.
  split.
  { exact (constructed_tracked _ (mkReceipts 1 ∅)
      (constructed_file [1] [0; 77; 97; 110; 0] 1 3 [2] Base64 _ eq_refl)). }
  unfold bytes_ok, u8_ok. split; [done|].
  split; [by repeat (constructor; try lia)|]. split; [by repeat (constructor; try lia)|].
  split; [|done]. intros seg [= <-]. split; [|by eexists].
  unfold seg_ok, bytes_ok, u8_ok. simpl. by repeat (constructor; try lia).
Qed.

Lemma demo_queue : Forall queueable [demo_ping; demo_file_frame]
  ∧ NoDup (channels [demo_ping; demo_file_frame]).
Proof.
  split.
  { apply Forall_cons_2; [apply demo_ping_queueable|].
    apply Forall_cons_2; [apply demo_file_queueable|constructor]. }
  change (NoDup [0%nat; 1%nat]). repeat constructor; set_solver.
Qed.

Lemma rawsocket_writer_account_witness :
  let '(fin, w', _) := connection_writer false 24 [demo_ping; demo_file_frame]
    (mkWriter [] true [WrAccept 0; WrAccept 0; WrAccept 0; WrFail 2 BrokenPipe] [] [] [] [])
    demo_receipts in
  fin = WriterFailed ∧ w_out w' = [1; 0; 0; 2; 7; 8; 0; 0]
  ∧ ∃ log tail, w_out w' = account_octets log ++ tail.
Proof.
  pose proof (rawsocket_writer_account false 24 [demo_ping; demo_file_frame]
    (mkWriter [] true [WrAccept 0; WrAccept 0; WrAccept 0; WrFail 2 BrokenPipe] [] [] [] [])
    demo_receipts (proj1 demo_queue) (proj2 demo_queue)) as H.
  destruct (connection_writer _ _ _ _ _) as [[fin w'] rs'] eqn:E.
  vm_compute in E. injection E as <- <- <-.
  destruct H as (log & rest & tail & _ & _ & Ho & _).
  split; [reflexivity|]. split; [reflexivity|]. exists log, tail. exact Ho.
Defined.

Lemma websocket_writer_account_witness :
  let '(fin, w', rs') := websocket_writer MessagePack LittleEndian false
    [demo_ping; demo_file_frame] (mkWriter [] true [] [] [] [] []) demo_receipts in
  w_out w' = [0x89; 2; 7; 8; 0x82; 6; 1; 84; 87; 70; 117; 2; 0x88; 2; 3; 232]
  ∧ ∃ log tail, w_out w' = account_octets log ++ tail.
Proof.
  pose proof (websocket_writer_account MessagePack LittleEndian false [demo_ping; demo_file_frame]
    (mkWriter [] true [] [] [] [] []) demo_receipts (proj1 demo_queue) (proj2 demo_queue)
    (Forall_nil_2 _)) as H.
  destruct (websocket_writer _ _ _ _ _ _) as [[fin w'] rs'] eqn:E.
  vm_compute in E. injection E as <- <- <-.
  destruct H as (log & rest & tail & _ & _ & Ho & _).
  split; [reflexivity|]. exists log, tail. exact Ho.
Defined.

Lemma rawsocket_session_roundtrip_witness :
  let '(fin, w', _) := connection_writer false 24 [demo_ping; demo_file_frame]
    (mkWriter [] true [] [] [] [] []) demo_receipts in
  fin = QueueClosed ∧ ∃ log, account_frames log = [demo_ping; demo_file_frame]
    ∧ w_out w' = account_octets log.
Proof.
  pose proof (rawsocket_session_roundtrip (SL := DemoSerde) false 24
    [demo_ping; demo_file_frame] (mkWriter [] true [] [] [] [] []) demo_receipts
    (proj1 demo_queue)) as H.
  destruct (connection_writer _ _ _ _ _) as [[fin w'] rs'] eqn:E.
  vm_compute in E. injection E as <- <- <-.
  split; [reflexivity|].
  destruct H as (log & rest & tail & Hrx & Ho & Hend & _).
  - repeat constructor; intros f' H; injection H as <-; vm_compute; discriminate.
  - apply demo_queue.
  - destruct (Hend eq_refl) as [-> ->]. exists log. rewrite app_nil_r in Hrx, Ho.
    split; [symmetry; exact Hrx|exact Ho].
Defined.
