(* ===== verification/Handles.v ===== *)
(** * Handles

    Resources cross the C boundary as integer handles.  [insert_resource] of
    [ct_ffi/src/runtime/resource_handles.rs] allocates them for most tables;
    [MessageStore] of [state.rs] and [WideMessageStore] of
    [message_handles.rs] do the same for messages.  A table is a counter and a
    concurrent map; allocation is two atomic steps, a [fetch_update] of the
    counter and an [entry] of the map, which other threads may interleave. *)
From stdpp Require Import gmap.
From S2P Require Import Prelude Bytes.

(** ** Tables *)
Record Table (T : Type) : Type := mkTable {
  next_id : Z;
  entries : gmap Z T;
}.
Arguments mkTable {T}.
Arguments next_id {T}.
Arguments entries {T}.

(** [DashMap::get], [DashMap::remove], [DashMap::clear] *)
Definition table_get {T} (t : Table T) (id : Z) : option T := entries t !! id.
Definition table_remove {T} (t : Table T) (id : Z) : option T * Table T :=
  (entries t !! id, mkTable (next_id t) (delete id (entries t))).
Definition table_clear {T} (t : Table T) : Table T := mkTable (next_id t) ∅.

Inductive ResourceHandleError : Type := ResourceExhausted.

Definition I32_MAX : Z := 2 ^ 31 - 1.
Definition I64_MAX : Z := 2 ^ 63 - 1.

(** The closure [insert_resource] gives [fetch_update]: the counter after the
    id [next] is claimed, or [None] to leave it. *)
Definition advance_resource (next : Z) : option Z :=
  if (next =? 0) || (I32_MAX <? next) then None else Some (next + 1).

Definition insert_resource {T} (t : Table T) (resource : T) :
    outcome ResourceHandleError Z * Table T :=
  match advance_resource (next_id t) with
  | None => (Err ResourceExhausted, t)
  | Some next =>
      let id := next_id t in
      match entries t !! id with
      | None => (Ok id, mkTable next (<[id := resource]> (entries t)))
      | Some _ => (Err ResourceExhausted, mkTable next (entries t))
      end
  end.

(** [MessageStore::insert] and [WideMessageStore::insert] *)
Inductive MessageHandleError : Type := Unavailable | MessageExhausted.

Definition message_store_insert {M} (t : Table M) (message : M) :
    outcome MessageHandleError Z * Table M :=
  match advance_resource (next_id t) with
  | None => (Err MessageExhausted, t)
  | Some next =>
      let id := next_id t in
      match entries t !! id with
      | None => (Ok id, mkTable next (<[id := message]> (entries t)))
      | Some _ => (Err MessageExhausted, mkTable next (entries t))
      end
  end.

Definition NARROW_SIGN_BIT : Z := Z.shiftl 1 31.
Definition FIRST_WIDE_HANDLE : Z := Z.lor (Z.shiftl 1 32) NARROW_SIGN_BIT.

Definition advance_wide (next : Z) : option Z :=
  if negb ((FIRST_WIDE_HANDLE <=? next) && (next <=? I64_MAX))
     || (Z.land next NARROW_SIGN_BIT =? 0)
  then None
  else Some (next + if next mod 2 ^ 32 =? 2 ^ 32 - 1 then NARROW_SIGN_BIT + 1 else 1).

Definition wide_store_insert {M} (t : Table M) (message : M) :
    outcome MessageHandleError Z * Table M :=
  match advance_wide (next_id t) with
  | None => (Err MessageExhausted, t)
  | Some next =>
      let id := next_id t in
      match entries t !! id with
      | None => (Ok id, mkTable next (<[id := message]> (entries t)))
      | Some _ => (Err MessageExhausted, mkTable next (entries t))
      end
  end.

(** [Default] of the tables. *)
Definition resource_table {T} : Table T := mkTable 1 ∅.
Definition wide_table {M} : Table M := mkTable FIRST_WIDE_HANDLE ∅.

(** ** The two message stores *)
Record Messages (M : Type) : Type := mkMessages {
  legacy : Table M;
  wide : Table M;
}.
Arguments mkMessages {M}.
Arguments legacy {M}.
Arguments wide {M}.

Definition fresh_messages {M} : Messages M := mkMessages resource_table wide_table.

(** [store_message] and [clone_message] of [state.rs]: the legacy ABI. *)
Definition store_message {M} (s : Messages M) (message : M) :
    outcome MessageHandleError Z * Messages M :=
  let '(r, t) := message_store_insert (legacy s) message in (r, mkMessages t (wide s)).

Definition clone_message {M} (s : Messages M) (id : Z) :
    outcome MessageHandleError Z * Messages M :=
  match table_get (legacy s) id with
  | None => (Err Unavailable, s)
  | Some message => store_message s message
  end.

(** [insert], [retain_allocation], [remove], [retain] of [message_handles.rs] *)
Definition insert_message {M} (s : Messages M) (message : M) :
    outcome MessageHandleError Z * Messages M :=
  let '(r, t) := wide_store_insert (wide s) message in (r, mkMessages (legacy s) t).

Definition retain_allocation {M} (s : Messages M) (id : Z) : option M :=
  if id <=? I32_MAX then table_get (legacy s) (id mod 2 ^ 32)
  else table_get (wide s) id.

Definition remove_message {M} (s : Messages M) (id : Z) : option M * Messages M :=
  if id <=? I32_MAX then
    let '(r, t) := table_remove (legacy s) (id mod 2 ^ 32) in (r, mkMessages t (wide s))
  else
    let '(r, t) := table_remove (wide s) id in (r, mkMessages (legacy s) t).

Definition retain_message {M} (s : Messages M) (id : Z) :
    outcome MessageHandleError Z * Messages M :=
  match retain_allocation s id with
  | None => (Err Unavailable, s)
  | Some message => insert_message s message
  end.

(** [clear_messages] *)
Definition clear_messages {M} (s : Messages M) : Messages M :=
  mkMessages (table_clear (legacy s)) (table_clear (wide s)).

(** [id as i32]: the low word, read as signed. *)
Definition as_i32 (id : Z) : Z :=
  let low := id mod 2 ^ 32 in if low <? 2 ^ 31 then low else low - 2 ^ 32.

(** ** Concurrent use

    What an allocator promises: from [first] on, its counter only grows, the
    ids it hands out are valid, and it stops only after [last]. *)
Class IdCounter (advance : Z → option Z) (first last : Z) (valid : Z → Prop) : Type := {
  counter_inv : Z → Prop;
  counter_first : counter_inv first;
  counter_step n n' : counter_inv n → advance n = Some n' → counter_inv n' ∧ n < n' ∧ valid n;
  counter_stuck n : counter_inv n → advance n = None ↔ last < n;
}.

Definition valid_resource (id : Z) : Prop := 0 < id ≤ I32_MAX.
Definition valid_wide (id : Z) : Prop :=
  FIRST_WIDE_HANDLE ≤ id ≤ I64_MAX ∧ as_i32 id < 0.

(** A run of threads that share a table: [claimed] are the ids whose
    [fetch_update] is done and whose [entry] is not, [issued] is every id ever
    claimed, with its resource. *)
Record Shared (T : Type) : Type := mkShared {
  table : Table T;
  claimed : list (Z * T);
  issued : list (Z * T);
}.
Arguments mkShared {T}.
Arguments table {T}.
Arguments claimed {T}.
Arguments issued {T}.

Inductive shared_step {T} (advance : Z → option Z) : Shared T → Shared T → Prop :=
  | step_claim t cs h r n :
      advance (next_id t) = Some n →
      shared_step advance (mkShared t cs h)
        (mkShared (mkTable n (entries t)) ((next_id t, r) :: cs) ((next_id t, r) :: h))
  | step_publish t c1 c2 h id r :
      entries t !! id = None →
      shared_step advance (mkShared t (c1 ++ (id, r) :: c2) h)
        (mkShared (mkTable (next_id t) (<[id := r]> (entries t))) (c1 ++ c2) h)
  | step_collide t c1 c2 h id r r' :
      entries t !! id = Some r' →
      shared_step advance (mkShared t (c1 ++ (id, r) :: c2) h) (mkShared t (c1 ++ c2) h)
  | step_remove t cs h id :
      shared_step advance (mkShared t cs h) (mkShared (table_remove t id).2 cs h)
  | step_clear t cs h :
      shared_step advance (mkShared t cs h) (mkShared (table_clear t) cs h).

Definition shared_start {T} (first : Z) : Shared T := mkShared (mkTable first ∅) [] [].

(** The safety of a shared table: claimed ids are never taken, ids are issued
    once, and a handle names the resource it was issued for or nothing. *)
Definition handles_safe {T} (valid : Z → Prop) (s : Shared T) : Prop :=
  NoDup (issued s).*1 ∧
  (∀ id r, (id, r) ∈ claimed s → entries (table s) !! id = None) ∧
  (∀ id r, entries (table s) !! id = Some r → (id, r) ∈ issued s) ∧
  (∀ id r, (id, r) ∈ issued s → valid id).

Section shared.
Context {T : Type} (advance : Z → option Z) (first last : Z) (valid : Z → Prop).
Context `{HC : !IdCounter advance first last valid}.

Definition shared_inv (s : Shared T) : Prop :=
  counter_inv (next_id (table s)) ∧ handles_safe valid s ∧ NoDup (claimed s).*1 ∧ claimed s ⊆ issued s ∧
  (∀ id r, (id, r) ∈ issued s → id < next_id (table s)).

Lemma NoDup_fst_unique (l : list (Z * T)) id r r' :
  NoDup l.*1 → (id, r) ∈ l → (id, r') ∈ l → r = r'.
Proof.
  intros Hnd H H'. apply list_elem_of_lookup in H as [i Hi], H' as [j Hj].
  assert (i = j) as ->.
  { apply (NoDup_lookup _ i j id Hnd); by rewrite list_lookup_fmap, ?Hi, ?Hj. }
  congruence.
Qed.

Lemma shared_inv_start : shared_inv (shared_start first).
Proof.
  unfold shared_inv, handles_safe. split_and!; simpl; try apply counter_first; try apply NoDup_nil_2; try done;
    try (intros id r; rewrite lookup_empty; done); set_solver.
Qed.

Lemma shared_inv_step s s' : shared_inv s → shared_step advance s s' → shared_inv s'.
Proof.
  intros (Hinv&(Hnd&Hcl&Hen&Hval)&Hndc&Hsub&Hlt) Hstep.
  destruct Hstep as [t cs h r n Hadv|t c1 c2 h id r Hno|t c1 c2 h id r r' Hyes|t cs h id|t cs h];
    simpl in *.
  - assert (next_id t ∉ h.*1) as Hnew.
    { intros (p&Heq&Hp)%list_elem_of_fmap. destruct p as [i q]. simpl in Heq. subst i.
      apply Hlt in Hp. lia. }
    assert (entries t !! next_id t = None) as Hvac.
    { destruct (entries t !! next_id t) as [q|] eqn:E; [|done].
      apply Hen, Hlt in E. lia. }
    destruct (counter_step _ _ Hinv Hadv) as (Hinv'&Hg&Hv). unfold shared_inv, handles_safe. simpl. split_and!.
    + done.
    + by apply NoDup_cons_2.
    + intros i q [[= -> ->]|Hq]%elem_of_cons; [done|eauto].
    + intros i q Hq. apply elem_of_cons. eauto.
    + intros i q [[= -> ->]|Hq]%elem_of_cons; [done|eauto].
    + apply NoDup_cons_2; [|done]. intros (p&Heq&Hp)%list_elem_of_fmap. apply Hnew.
      apply list_elem_of_fmap. eauto.
    + intros p [->|Hp]%elem_of_cons; apply elem_of_cons; auto.
    + intros i q [[= -> ->]|Hq]%elem_of_cons; [done|]. apply Hlt in Hq. lia.
  - rewrite fmap_app in Hndc. simpl in Hndc.
    assert ((id, r) ∈ c1 ++ (id, r) :: c2) as Hin by set_solver.
    assert (NoDup (c1 ++ c2).*1 ∧ ∀ q, (id, q) ∉ c1 ++ c2) as [Hnd' Hnot].
    { rewrite fmap_app. apply NoDup_app in Hndc as (H1&H2&H3).
      apply NoDup_cons in H3 as [H3 H4]. split.
      - apply NoDup_app. set_solver.
      - intros q [Hq|Hq]%elem_of_app.
        + apply (H2 id); [|set_solver]. apply list_elem_of_fmap. by exists (id, q).
        + apply H3. apply list_elem_of_fmap. by exists (id, q). }
    unfold shared_inv, handles_safe. simpl. split_and!; try done.
    + intros i q Hq. rewrite lookup_insert_ne by (intros ->; by apply (Hnot q)).
      apply (Hcl i q). set_solver.
    + intros i q. rewrite lookup_insert_Some. intros [[<- <-]|[_ Hq]]; [by apply Hsub|eauto].
    + set_solver.
  - exfalso. rewrite (Hcl id r) in Hyes by set_solver. done.
  - unfold shared_inv, handles_safe. simpl. split_and!; try done.
    + intros i q Hq. rewrite lookup_delete_None. eauto.
    + intros i q. rewrite lookup_delete_Some. intros [_ Hq]. eauto.
  - unfold shared_inv, handles_safe. simpl. split_and!; try done.
Qed.

Lemma shared_reachable s : rtc (shared_step advance) (shared_start first) s → shared_inv s.
Proof.
  intros Hrun. pattern s. eapply rtc_ind_r; [apply shared_inv_start| |exact Hrun].
  intros s1 s2 _ Hstep Hinv. by eapply shared_inv_step.
Qed.
End shared.

(** ** The two counters *)
#[global] Program Instance resource_counter :
  IdCounter advance_resource 1 I32_MAX valid_resource := {| counter_inv n := 0 < n |}.
Next Obligation. done. Qed.
Next Obligation.
  cbv beta. intros n n' Hn. unfold advance_resource, valid_resource.
  destruct (Z.eqb_spec n 0), (Z.ltb_spec I32_MAX n); simpl; try done; intros [= <-]; lia.
Qed.
Next Obligation.
  cbv beta. intros n Hn. unfold advance_resource.
  destruct (Z.eqb_spec n 0), (Z.ltb_spec I32_MAX n); simpl; try lia; split; done || lia.
Qed.

Lemma first_wide_value : FIRST_WIDE_HANDLE = 2 ^ 32 + 2 ^ 31.
Proof. done. Qed.

Lemma as_i32_neg n : as_i32 n < 0 ↔ 2 ^ 31 ≤ n mod 2 ^ 32.
Proof. unfold as_i32. destruct (Z.ltb_spec (n mod 2 ^ 32) (2 ^ 31)); dmlia. Qed.

Lemma sign_bit_clear n : 0 ≤ n → Z.land n NARROW_SIGN_BIT = 0 ↔ n mod 2 ^ 32 < 2 ^ 31.
Proof.
  intros Hn. change NARROW_SIGN_BIT with (2 ^ 31).
  assert (Z.testbit n 31 = ((n / 2 ^ 31) mod 2 =? 1)) as Hb by (by apply Z.testbit_eqb).
  assert (Z.land n (2 ^ 31) = 0 ↔ Z.testbit n 31 = false) as ->.
  { split.
    - intros Hz. assert (Z.testbit (Z.land n (2 ^ 31)) 31 = false) as H' by (by rewrite Hz).
      by rewrite Z.land_spec, Z.pow2_bits_true, andb_true_r in H' by lia.
    - intros Hf. apply Z.bits_inj'. intros k Hk. rewrite Z.land_spec, Z.bits_0.
      destruct (decide (k = 31)) as [->|]; [by rewrite Hf|].
      by rewrite Z.pow2_bits_false, andb_false_r by lia. }
  rewrite Hb. destruct (Z.eqb_spec ((n / 2 ^ 31) mod 2) 1); split; intros; try done; dmlia.
Qed.

Lemma advance_wide_eq n : 0 ≤ n → as_i32 n < 0 → FIRST_WIDE_HANDLE ≤ n →
  advance_wide n = if I64_MAX <? n then None
    else Some (n + if n mod 2 ^ 32 =? 2 ^ 32 - 1 then 2 ^ 31 + 1 else 1).
Proof.
  intros H0 Hneg Hf. unfold advance_wide. rewrite (proj2 (Z.leb_le _ _)) by done.
  apply as_i32_neg in Hneg.
  assert ((Z.land n NARROW_SIGN_BIT =? 0) = false) as ->.
  { apply Z.eqb_neq. intros Hz%sign_bit_clear; lia. }
  rewrite orb_false_r. simpl. by destruct (Z.leb_spec n I64_MAX), (Z.ltb_spec I64_MAX n); try lia.
Qed.

#[global] Program Instance wide_counter :
  IdCounter advance_wide FIRST_WIDE_HANDLE I64_MAX valid_wide :=
  {| counter_inv n := FIRST_WIDE_HANDLE ≤ n ∧ as_i32 n < 0 |}.
Next Obligation. split; done. Qed.
Next Obligation.
  cbv beta. intros n n' [Hf Hneg]. assert (0 ≤ n) by (rewrite first_wide_value in Hf; lia).
  rewrite advance_wide_eq by done. unfold valid_wide.
  destruct (Z.ltb_spec I64_MAX n); [done|]. intros [= <-]. rewrite !as_i32_neg in *.
  destruct (Z.eqb_spec (n mod 2 ^ 32) (2 ^ 32 - 1)); split_and!; try lia; dmlia.
Qed.
Next Obligation.
  cbv beta. intros n [Hf Hneg]. assert (0 ≤ n) by (rewrite first_wide_value in Hf; lia).
  rewrite advance_wide_eq by done. destruct (Z.ltb_spec I64_MAX n); split; done || lia.
Qed.

(** ** Operations on a shared table *)
Section operations.
Context {T : Type}.

Definition resources_run (s : Shared T) : Prop := rtc (shared_step advance_resource) (shared_start 1) s.
Definition wide_run (s : Shared T) : Prop := rtc (shared_step advance_wide) (shared_start FIRST_WIDE_HANDLE) s.

(** The next id of a reachable table is vacant: what the second atomic step
    finds when nothing comes between. *)
Lemma next_vacant advance first last valid `{HC : !IdCounter advance first last valid} s :
  rtc (shared_step advance) (shared_start first) s →
  counter_inv (next_id (table s)) ∧ entries (table (T:=T) s) !! next_id (table s) = None.
Proof.
  intros (Hi&(_&_&Hen&_)&_&_&Hlt)%(shared_reachable advance first last valid). split; [done|].
  destruct (entries (table s) !! next_id (table s)) as [r|] eqn:E; [|done].
  apply Hen, Hlt in E. lia.
Qed.

Lemma insert_resource_run s r : resources_run s →
  insert_resource (table s) r =
    if I32_MAX <? next_id (table s) then (Err ResourceExhausted, table s)
    else (Ok (next_id (table s)),
          mkTable (next_id (table s) + 1) (<[next_id (table s) := r]> (entries (table s)))).
Proof.
  intros [Hi Hv]%(next_vacant advance_resource 1 I32_MAX valid_resource). simpl in Hi.
  unfold insert_resource, advance_resource. rewrite (proj2 (Z.eqb_neq _ _)) by lia. simpl.
  destruct (I32_MAX <? next_id (table s)); [done|]. by rewrite Hv.
Qed.

Lemma message_store_run s r : resources_run s →
  message_store_insert (table s) r =
    if I32_MAX <? next_id (table s) then (Err MessageExhausted, table s)
    else (Ok (next_id (table s)),
          mkTable (next_id (table s) + 1) (<[next_id (table s) := r]> (entries (table s)))).
Proof.
  intros [Hi Hv]%(next_vacant advance_resource 1 I32_MAX valid_resource). simpl in Hi.
  unfold message_store_insert, advance_resource. rewrite (proj2 (Z.eqb_neq _ _)) by lia. simpl.
  destruct (I32_MAX <? next_id (table s)); [done|]. by rewrite Hv.
Qed.

Lemma wide_store_run s r : wide_run s →
  wide_store_insert (table s) r =
    if I64_MAX <? next_id (table s) then (Err MessageExhausted, table s)
    else (Ok (next_id (table s)),
          mkTable (next_id (table s) + if next_id (table s) mod 2 ^ 32 =? 2 ^ 32 - 1
                                       then 2 ^ 31 + 1 else 1)
            (<[next_id (table s) := r]> (entries (table s)))).
Proof.
  intros [[Hf Hneg] Hv]%(next_vacant advance_wide FIRST_WIDE_HANDLE I64_MAX valid_wide).
  assert (0 ≤ next_id (table s)) by (rewrite first_wide_value in Hf; lia).
  unfold wide_store_insert. rewrite advance_wide_eq by done.
  destruct (I64_MAX <? next_id (table s)); [done|]. by rewrite Hv.
Qed.
End operations.

(** The message stores under concurrent use. *)
Definition messages_of {M} (sl sw : Shared M) : Messages M := mkMessages (table sl) (table sw).

Lemma retain_allocation_issued {M} (sl sw : Shared M) id m :
  resources_run sl → wide_run sw → 0 ≤ id →
  retain_allocation (messages_of sl sw) id = Some m →
  id ≤ I32_MAX ∧ (id, m) ∈ issued sl ∨ FIRST_WIDE_HANDLE ≤ id ∧ (id, m) ∈ issued sw.
Proof.
  intros (_&(_&_&Hl&_)&_)%(shared_reachable advance_resource 1 I32_MAX valid_resource)
    (_&(_&_&Hw&Hwv)&_)%(shared_reachable advance_wide FIRST_WIDE_HANDLE I64_MAX valid_wide) H0.
  unfold retain_allocation, table_get. simpl. destruct (Z.leb_spec id I32_MAX) as [Hle|].
  - assert (id < 2 ^ 32) by (unfold I32_MAX in Hle; lia).
    rewrite Z.mod_small by lia. intros ?%Hl. by left.
  - intros Hm%Hw. right. split; [|done]. by apply Hwv in Hm as [[? _] _].
Qed.

(** ** Theorems *)

(** C13: However threads interleave the two atomic steps of an allocation with
    removals and clears, the ids of a resource table and of the wide message
    table are issued once each, stay in range, are vacant until published, and
    name only the resource they were issued for; an insertion that is not
    interleaved fails only when the range is used up. *)
Theorem handles_never_alias {T} (s : Shared T) :
  (resources_run s →
    handles_safe valid_resource s ∧ ∀ r, insert_resource (table s) r =
      if I32_MAX <? next_id (table s) then (Err ResourceExhausted, table s)
      else (Ok (next_id (table s)),
            mkTable (next_id (table s) + 1) (<[next_id (table s) := r]> (entries (table s))))) ∧
  (wide_run s →
    handles_safe valid_wide s ∧ ∀ r, (∃ id t, wide_store_insert (table s) r = (Ok id, t)
        ∧ valid_wide id ∧ entries (table s) !! id = None ∧ entries t = <[id := r]> (entries (table s)))
      ∨ wide_store_insert (table s) r = (Err MessageExhausted, table s)
        ∧ I64_MAX < next_id (table s)).
Proof.
  split; intros Hrun.
  - pose proof Hrun as (_&?&_)%(shared_reachable advance_resource 1 I32_MAX valid_resource).
    split; [done|]. intros r. by apply insert_resource_run.
  - pose proof Hrun as (_&?&_)%(shared_reachable advance_wide FIRST_WIDE_HANDLE I64_MAX valid_wide).
    split; [done|]. intros r.
    destruct (next_vacant advance_wide FIRST_WIDE_HANDLE I64_MAX valid_wide s Hrun) as [[Hf Hneg] Hv].
    rewrite wide_store_run by done. destruct (Z.ltb_spec I64_MAX (next_id (table s))); [by right|].
    left. eexists _, _. split; [done|]. unfold valid_wide. split_and!; done.
Qed.

(** Message handles are well typed on both sides of the C boundary: a
    legacy handle is a positive [i32], a wide one a positive [i64] above it,
    and a wide handle that a caller narrows to [i32] by mistake is negative, so
    it never names a legacy message. *)
Theorem message_handles_typed {M} (sl sw : Shared M) id m :
  resources_run sl → wide_run sw → 0 ≤ id →
  retain_allocation (messages_of sl sw) id = Some m →
  0 < id ≤ I64_MAX ∧
  (0 < as_i32 id → id ≤ I32_MAX ∧ as_i32 id = id ∧ (id, m) ∈ issued sl) ∧
  (as_i32 id ≤ 0 → FIRST_WIDE_HANDLE ≤ id ∧ as_i32 id < 0 ∧ (id, m) ∈ issued sw).
Proof.
  intros Hl Hw H0 Hm.
  destruct (retain_allocation_issued sl sw id m Hl Hw H0 Hm) as [[Hle Hin]|[Hge Hin]].
  - apply (shared_reachable advance_resource 1 I32_MAX valid_resource) in Hl as (_&(_&_&_&Hv)&_).
    apply Hv in Hin as Hr. unfold valid_resource, I32_MAX in *.
    assert (as_i32 id = id) as Hsame.
    { unfold as_i32. rewrite Z.mod_small by lia. destruct (Z.ltb_spec id (2 ^ 31)); lia. }
    rewrite Hsame. unfold I64_MAX. split_and!; try lia; intros; split_and!; done || lia.
  - apply (shared_reachable advance_wide FIRST_WIDE_HANDLE I64_MAX valid_wide) in Hw as (_&(_&_&_&Hv)&_).
    apply Hv in Hin as Hr. destruct Hr as [[??]?]. rewrite first_wide_value in *.
    split_and!; try lia; intros; split_and!; done || lia.
Qed.

(** Retaining a message gives a new handle to the same message and leaves
    every other handle as it was; releasing the old handle does not release the
    new one.  It fails on a dead handle, and else only when the wide range is
    used up. *)
Theorem retain_message_exact {M} (sl sw : Shared M) id :
  resources_run sl → wide_run sw → 0 ≤ id →
  let s := messages_of sl sw in
  match retain_allocation s id with
  | None => retain_message s id = (Err Unavailable, s)
  | Some m =>
      (retain_message s id = (Err MessageExhausted, s) ∧ I64_MAX < next_id (wide s)) ∨
      ∃ id' s', retain_message s id = (Ok id', s') ∧ id' ≠ id ∧ valid_wide id' ∧
        retain_allocation s id' = None ∧ retain_allocation s' id' = Some m ∧
        (∀ k, 0 ≤ k → k ≠ id' → retain_allocation s' k = retain_allocation s k) ∧
        (remove_message s' id).1 = Some m ∧
        retain_allocation (remove_message s' id).2 id = None ∧
        retain_allocation (remove_message s' id).2 id' = Some m
  end.
Proof.
  intros Hl Hw H0 s. unfold retain_message.
  destruct (retain_allocation s id) as [m|] eqn:Hid; [|done].
  unfold insert_message, s, messages_of. simpl. rewrite wide_store_run by done.
  destruct (next_vacant advance_wide FIRST_WIDE_HANDLE I64_MAX valid_wide sw Hw) as [[Hf Hneg] Hv].
  destruct (Z.ltb_spec I64_MAX (next_id (table sw))); [by left|right].
  set (id' := next_id (table sw)) in *. rewrite first_wide_value in Hf.
  assert (I32_MAX = 2 ^ 31 - 1) as HI by done.
  assert (∀ (t : Messages M) k, I32_MAX < k → retain_allocation t k = entries (wide t) !! k) as Hhi.
  { intros t k Hk. unfold retain_allocation. by rewrite (proj2 (Z.leb_gt _ _)). }
  eexists id', _. split; [done|].
  assert (id' ≠ id) as Hne.
  { intros ->. rewrite Hhi in Hid by lia. simpl in Hid. congruence. }
  unfold valid_wide. rewrite first_wide_value. split_and!; try done.
  - by rewrite Hhi by lia.
  - rewrite Hhi by lia. apply lookup_insert_eq.
  - intros k Hk Hk'. unfold retain_allocation, table_get. simpl. case_match; [done|].
    by rewrite lookup_insert_ne.
  - unfold retain_allocation, remove_message, table_get in *. simpl in *.
    destruct (id <=? I32_MAX); simpl; [done|]. by rewrite lookup_insert_ne.
  - unfold remove_message, table_remove. destruct (Z.leb_spec id I32_MAX) as [Hle|Hgt].
    + unfold retain_allocation, table_get. simpl. rewrite (proj2 (Z.leb_le _ _)) by done.
      apply lookup_delete_eq.
    + rewrite Hhi by lia. apply lookup_delete_eq.
  - rewrite Hhi by lia. unfold remove_message. destruct (Z.leb_spec id I32_MAX); simpl.
    + apply lookup_insert_eq.
    + rewrite lookup_delete_ne by done. apply lookup_insert_eq.
Qed.

(** ** Concrete runs: two threads claim ids before either publishes. *)
Definition demo_shared : Shared Z :=
  mkShared (mkTable 3 (<[1 := 10]> (<[2 := 20]> ∅))) [] [(2, 20); (1, 10)].

Lemma demo_shared_run : resources_run demo_shared.
Proof.
  eapply rtc_l; [apply (step_claim _ _ _ _ 10 2); done|].
  eapply rtc_l; [apply (step_claim _ _ _ _ 20 3); done|].
  eapply rtc_l; [apply (step_publish _ _ [] [(1, 10)] _ 2 20); done|].
  eapply rtc_l; [apply (step_publish _ _ [] [] _ 1 10); by vm_compute|].
  apply rtc_refl.
Qed.

Definition demo_wide : Shared Z :=
  mkShared (mkTable (FIRST_WIDE_HANDLE + 1) {[FIRST_WIDE_HANDLE := 30]}) [] [(FIRST_WIDE_HANDLE, 30)].

Lemma demo_wide_run : wide_run demo_wide.
Proof.
  eapply rtc_l; [apply (step_claim _ _ _ _ 30 (FIRST_WIDE_HANDLE + 1)); done|].
  eapply rtc_l; [apply (step_publish _ _ [] [] _ FIRST_WIDE_HANDLE 30); done|].
  apply rtc_refl.
Qed.

Lemma handles_never_alias_witness :
  handles_safe valid_resource demo_shared ∧ handles_safe valid_wide demo_wide.
Proof.
  split.
  - apply (proj1 (handles_never_alias demo_shared) demo_shared_run).
  - apply (proj2 (handles_never_alias demo_wide) demo_wide_run).
Defined.

Lemma message_handles_typed_witness :
  retain_allocation (messages_of demo_shared demo_wide) FIRST_WIDE_HANDLE = Some 30
  ∧ as_i32 FIRST_WIDE_HANDLE < 0.
Proof.
  assert (retain_allocation (messages_of demo_shared demo_wide) FIRST_WIDE_HANDLE = Some 30) as H
    by (vm_compute; reflexivity).
  split; [exact H|].
  apply (message_handles_typed demo_shared demo_wide FIRST_WIDE_HANDLE 30 demo_shared_run
    demo_wide_run) in H as (_&_&H); [|by vm_compute].
  apply H. by vm_compute.
Defined.

Lemma retain_message_exact_witness :
  let s := messages_of demo_shared demo_wide in
  ∃ id' s', retain_message s 1 = (Ok id', s') ∧ retain_allocation s' id' = Some 10.
Proof.
  pose proof (retain_message_exact demo_shared demo_wide 1 demo_shared_run demo_wide_run) as H.
  specialize (H ltac:(lia)). simpl in H. destruct H as [[_ H]|(id'&s'&H&_&_&_&Hm&_)].
  - by vm_compute in H.
  - by exists id', s'.
Defined.
