(* ===== verification/OwnedBuffers.v ===== *)
(** * Owned buffers

    [ct_ffi/src/runtime/owned_buffers.rs]: outbound storage behind handles.  A
    buffer is written through its pointer while mutable, then frozen to a range;
    frozen buffers are sliced, borrowed, exported and taken without copying, and
    a slot can be reserved for a loan that is not yet admitted.  The abstract
    store keeps only the bytes a handle shows; the detailed one refines it. *)
From stdpp Require Import gmap.
From S2P Require Import Prelude Bytes Handles.

(** ** Error codes of [constants.rs] *)
Definition SUCCESS : Z := 0.
Definition ERR_INVALID_ARGUMENT : Z := -4.
Definition ERR_IO : Z := -7.
Definition ERR_HANDLE_UNAVAILABLE : Z := -14.

(** ** The store *)

(** The bytes of an allocation, with the address and the capacity the allocator
    gave it. *)
Record Allocation : Type := mkAllocation {
  alloc_base : Z;
  alloc_capacity : Z;
  storage : list Z;
}.

Record Frozen : Type := mkFrozen {
  allocation : Allocation;
  capacity : Z;
  range_start : Z;
  range_end : Z;
}.

(** [Frozen::bytes]: [self.allocation.slice(self.range.clone())] *)
Definition frozen_bytes (f : Frozen) : list Z :=
  sub_bytes (storage (allocation f)) (range_start f) (range_end f).

Inductive Storage : Type :=
  | Reserved
  | Mutable (a : Allocation)
  | FrozenStorage (f : Frozen).

Definition BufferStore : Type := Table Storage.

Definition buffer_insert (s : BufferStore) (st : Storage) : outcome Z Z * BufferStore :=
  let '(r, s) := insert_resource s st in (map_err (λ _, ERR_HANDLE_UNAVAILABLE) r, s).

(** [try_reserve_exact] answers with a base and a capacity, or fails. *)
Definition buffer_allocate (allocator : option (Z * Z)) (length : Z) (s : BufferStore) :
    outcome Z Z * BufferStore :=
  if I32_MAX <? length then (Err ERR_INVALID_ARGUMENT, s)
  else match allocator with
  | None => (Err ERR_IO, s)
  | Some (base, capacity) =>
      buffer_insert s (Mutable (mkAllocation base capacity (replicate (Z.to_nat length) 0)))
  end.

Record CtOwnedBufferInfo : Type := mkInfo {
  info_base : Z;
  info_capacity : Z;
  initialized_length : Z;
  info_offset : Z;
  info_length : Z;
  writable : Z;
}.

Definition buffer_info (s : BufferStore) (handle : Z) : outcome Z CtOwnedBufferInfo :=
  match table_get s handle with
  | None => Err ERR_INVALID_ARGUMENT
  | Some Reserved => Err ERR_INVALID_ARGUMENT
  | Some (Mutable a) =>
      Ok (mkInfo (alloc_base a) (alloc_capacity a) (zlen (storage a)) 0 (zlen (storage a)) 1)
  | Some (FrozenStorage f) =>
      Ok (mkInfo (alloc_base (allocation f)) (capacity f) (zlen (storage (allocation f)))
            (range_start f) (range_end f - range_start f) 0)
  end.

(** [offset.checked_add(length)] *)
Definition checked_end (offset length : Z) : outcome Z Z :=
  if offset + length <? 2 ^ 64 then Ok (offset + length) else Err ERR_INVALID_ARGUMENT.

Definition set_storage (s : BufferStore) (handle : Z) (st : Storage) : BufferStore :=
  mkTable (next_id s) (<[handle := st]> (entries s)).

Definition buffer_freeze (handle offset length : Z) (s : BufferStore) :
    outcome Z unit * BufferStore :=
  match table_get s handle with
  | Some (Mutable a) =>
      match checked_end offset length with
      | Ok stop =>
          if zlen (storage a) <? stop then (Err ERR_INVALID_ARGUMENT, s)
          else (Ok tt, set_storage s handle (FrozenStorage (mkFrozen a (alloc_capacity a) offset stop)))
      | _ => (Err ERR_INVALID_ARGUMENT, s)
      end
  | _ => (Err ERR_INVALID_ARGUMENT, s)
  end.

(** [BufferStore::frozen], and [borrow_frozen] *)
Definition buffer_frozen (s : BufferStore) (handle : Z) : outcome Z Frozen :=
  match table_get s handle with
  | Some (FrozenStorage f) => Ok f
  | _ => Err ERR_INVALID_ARGUMENT
  end.

Definition buffer_slice (handle offset length : Z) (s : BufferStore) : outcome Z Z * BufferStore :=
  match buffer_frozen s handle with
  | Ok f =>
      match checked_end offset length with
      | Ok stop =>
          if range_end f - range_start f <? stop then (Err ERR_INVALID_ARGUMENT, s)
          else buffer_insert s (FrozenStorage
                 (mkFrozen (allocation f) (capacity f) (range_start f + offset) (range_start f + stop)))
      | _ => (Err ERR_INVALID_ARGUMENT, s)
      end
  | _ => (Err ERR_INVALID_ARGUMENT, s)
  end.

Definition buffer_take (handle : Z) (s : BufferStore) : outcome Z (list Z) * BufferStore :=
  match table_get s handle with
  | Some (FrozenStorage f) => (Ok (frozen_bytes f), (table_remove s handle).2)
  | _ => (Err ERR_INVALID_ARGUMENT, s)
  end.

Definition buffer_release (handle : Z) (s : BufferStore) : outcome Z unit * BufferStore :=
  match table_get s handle with
  | Some (Mutable _) | Some (FrozenStorage _) => (Ok tt, (table_remove s handle).2)
  | _ => (Err ERR_INVALID_ARGUMENT, s)
  end.

(** [reserve_frozen], [FrozenReservation::commit] and the reservation's drop
    before a commit *)
Definition reserve_frozen (s : BufferStore) : outcome Z Z * BufferStore := buffer_insert s Reserved.

Definition commit_reservation (handle : Z) (a : Allocation) (start stop : Z) (s : BufferStore) :
    outcome Z Z * BufferStore :=
  if negb ((start <=? stop) && (stop <=? zlen (storage a))) then (Panic, s)
  else match table_get s handle with
  | Some Reserved =>
      (Ok handle, set_storage s handle (FrozenStorage (mkFrozen a (zlen (storage a)) start stop)))
  | _ => (Panic, s)
  end.

Definition drop_reservation (handle : Z) (s : BufferStore) : BufferStore := (table_remove s handle).2.

(** [retain_frozen_buffer] *)
Definition retain_frozen_buffer (f : Frozen) (s : BufferStore) : outcome Z Z * BufferStore :=
  buffer_insert s (FrozenStorage f).

(** ** The exported functions *)
Definition code {A} (f : A → Z) (r : outcome Z A) : Z :=
  match r with Ok a => f a | Err e => e | Panic | NoFuel => 0 end.

Definition take_frozen (handle : Z) (s : BufferStore) : outcome Z (list Z) * BufferStore :=
  if handle <=? 0 then (Err ERR_INVALID_ARGUMENT, s) else buffer_take handle s.

Definition borrow_frozen (handle : Z) (s : BufferStore) : outcome Z Frozen :=
  if handle <=? 0 then Err ERR_INVALID_ARGUMENT else buffer_frozen s handle.

(** [submit_frozen]: the payload is taken before [submit] runs. *)
Definition submit_frozen {W} (handle : Z) (submit : list Z → W → Z * W) (s : BufferStore) (w : W) :
    Z * BufferStore * W :=
  match take_frozen handle s with
  | (Ok payload, s) => let '(r, w) := submit payload w in (r, s, w)
  | (r, s) => (code (λ _, 0) r, s, w)
  end.

Definition ct_owned_buffer_allocate (allocator : option (Z * Z)) (length : Z) (s : BufferStore) :
    Z * BufferStore :=
  if length <? 0 then (ERR_INVALID_ARGUMENT, s)
  else let '(r, s) := buffer_allocate allocator length s in (code id r, s).

Definition ct_owned_buffer_info (handle : Z) (s : BufferStore) : Z * option CtOwnedBufferInfo :=
  if handle <=? 0 then (ERR_INVALID_ARGUMENT, None)
  else match buffer_info s handle with
  | Ok info => (SUCCESS, Some info)
  | r => (code (λ _, SUCCESS) r, None)
  end.

Definition ct_owned_buffer_freeze (handle offset length : Z) (s : BufferStore) : Z * BufferStore :=
  if handle <=? 0 then (ERR_INVALID_ARGUMENT, s)
  else let '(r, s) := buffer_freeze handle offset length s in (code (λ _, SUCCESS) r, s).

Definition ct_owned_buffer_slice (handle offset length : Z) (s : BufferStore) : Z * BufferStore :=
  if handle <=? 0 then (ERR_INVALID_ARGUMENT, s)
  else let '(r, s) := buffer_slice handle offset length s in (code id r, s).

Definition ct_owned_buffer_release (handle : Z) (s : BufferStore) : Z * BufferStore :=
  if handle <=? 0 then (ERR_INVALID_ARGUMENT, s)
  else let '(r, s) := buffer_release handle s in (code (λ _, SUCCESS) r, s).

Definition ct_owned_buffer_handle_finalizer (token : Z) (s : BufferStore) : BufferStore :=
  if (0 <? token) && (token <=? I32_MAX) then (buffer_release token s).2 else s.

(** [ct_owned_buffer_export]: the view, and the [Frozen] that keeps it alive. *)
Definition ct_owned_buffer_export (handle : Z) (s : BufferStore) : Z * option (Z * Z * Frozen) :=
  if handle <=? 0 then (ERR_INVALID_ARGUMENT, None)
  else match buffer_frozen s handle with
  | Ok f => (SUCCESS, Some (alloc_base (allocation f) + range_start f, range_end f - range_start f, f))
  | r => (code (λ _, SUCCESS) r, None)
  end.

(** ** The abstract store

    A handle shows nothing, bytes that may still be written, or fixed bytes. *)
Inductive Buffer : Type :=
  | Hidden
  | Draft (bytes : list Z)
  | Sealed (bytes : list Z).

Definition AbstractStore : Type := Table Buffer.

Definition view (st : Storage) : Buffer :=
  match st with
  | Reserved => Hidden
  | Mutable a => Draft (storage a)
  | FrozenStorage f => Sealed (frozen_bytes f)
  end.

Definition table_map {A B} (f : A → B) (t : Table A) : Table B :=
  mkTable (next_id t) (f <$> entries t).
Definition abs (s : BufferStore) : AbstractStore := table_map view s.

(** What a client does, by atomic operations: [Write] goes through the pointer
    of a mutable buffer; [Commit] and [Rollback] end a reservation. *)
Inductive buffer_op : Type :=
  | Allocate (allocator : option (Z * Z)) (length : Z)
  | Write (handle offset : Z) (data : list Z)
  | Freeze (handle offset length : Z)
  | Slice (handle offset length : Z)
  | Take (handle : Z)
  | Release (handle : Z)
  | Reserve
  | Commit (handle : Z) (a : Allocation) (start stop : Z)
  | Rollback (handle : Z)
  | Retain (handle : Z).

Inductive answer : Type := Done | Handle (h : Z) | Payload (bytes : list Z).

Definition answered {A} (f : A → answer) {S} (p : outcome Z A * S) : outcome Z answer * S :=
  let '(r, s) := p in (f <$> r, s).

(** Bytes stored through a pointer into a buffer. *)
Definition overwrite (bytes : list Z) (offset : Z) (data : list Z) : list Z :=
  sub_bytes bytes 0 offset ++ data ++ sub_bytes bytes (offset + zlen data) (zlen bytes).

Definition write_storage (handle offset : Z) (data : list Z) (s : BufferStore) : BufferStore :=
  match table_get s handle with
  | Some (Mutable a) =>
      if offset + zlen data <=? zlen (storage a) then
        set_storage s handle
          (Mutable (mkAllocation (alloc_base a) (alloc_capacity a) (overwrite (storage a) offset data)))
      else s
  | _ => s
  end.

Definition run_op (op : buffer_op) (s : BufferStore) : outcome Z answer * BufferStore :=
  match op with
  | Allocate allocator length => answered Handle (buffer_allocate allocator length s)
  | Write h offset data => (Ok Done, write_storage h offset data s)
  | Freeze h offset length => answered (λ _, Done) (buffer_freeze h offset length s)
  | Slice h offset length => answered Handle (buffer_slice h offset length s)
  | Take h => answered Payload (buffer_take h s)
  | Release h => answered (λ _, Done) (buffer_release h s)
  | Reserve => answered Handle (reserve_frozen s)
  | Commit h a start stop => answered Handle (commit_reservation h a start stop s)
  | Rollback h => (Ok Done, drop_reservation h s)
  | Retain h =>
      match buffer_frozen s h with
      | Ok f => answered Handle (retain_frozen_buffer f s)
      | _ => (Err ERR_INVALID_ARGUMENT, s)
      end
  end.

Definition spec_insert (b : Buffer) (t : AbstractStore) : outcome Z answer * AbstractStore :=
  let '(r, t) := insert_resource t b in (Handle <$> map_err (λ _, ERR_HANDLE_UNAVAILABLE) r, t).

Definition spec_set (t : AbstractStore) (h : Z) (b : Buffer) : AbstractStore :=
  mkTable (next_id t) (<[h := b]> (entries t)).

(** A range of [length] bytes of a buffer. *)
Definition in_buffer (bytes : list Z) (offset length : Z) : bool :=
  (offset + length <? 2 ^ 64) && (offset + length <=? zlen bytes).

Definition refused : outcome Z answer := Err ERR_INVALID_ARGUMENT.

Definition spec_op (op : buffer_op) (t : AbstractStore) : outcome Z answer * AbstractStore :=
  match op with
  | Allocate allocator length =>
      if I32_MAX <? length then (refused, t)
      else if allocator then spec_insert (Draft (replicate (Z.to_nat length) 0)) t
      else (Err ERR_IO, t)
  | Write h offset data =>
      match table_get t h with
      | Some (Draft b) =>
          (Ok Done, if offset + zlen data <=? zlen b then spec_set t h (Draft (overwrite b offset data)) else t)
      | _ => (Ok Done, t)
      end
  | Freeze h offset length =>
      match table_get t h with
      | Some (Draft b) =>
          if in_buffer b offset length
          then (Ok Done, spec_set t h (Sealed (sub_bytes b offset (offset + length))))
          else (refused, t)
      | _ => (refused, t)
      end
  | Slice h offset length =>
      match table_get t h with
      | Some (Sealed b) =>
          if in_buffer b offset length
          then spec_insert (Sealed (sub_bytes b offset (offset + length))) t
          else (refused, t)
      | _ => (refused, t)
      end
  | Take h =>
      match table_get t h with
      | Some (Sealed b) => (Ok (Payload b), (table_remove t h).2)
      | _ => (refused, t)
      end
  | Release h =>
      match table_get t h with
      | Some (Draft _) | Some (Sealed _) => (Ok Done, (table_remove t h).2)
      | _ => (refused, t)
      end
  | Reserve => spec_insert Hidden t
  | Commit h a start stop =>
      match table_get t h with
      | Some Hidden =>
          if (start <=? stop) && (stop <=? zlen (storage a))
          then (Ok (Handle h), spec_set t h (Sealed (sub_bytes (storage a) start stop)))
          else (Panic, t)
      | _ => (Panic, t)
      end
  | Rollback h => (Ok Done, (table_remove t h).2)
  | Retain h =>
      match table_get t h with
      | Some (Sealed b) => spec_insert (Sealed b) t
      | _ => (refused, t)
      end
  end.

(** [usize] arguments are not negative. *)
Definition op_unsigned (op : buffer_op) : Prop :=
  match op with
  | Write _ offset _ => 0 ≤ offset
  | Freeze _ offset length | Slice _ offset length => 0 ≤ offset ∧ 0 ≤ length
  | Commit _ _ start _ => 0 ≤ start
  | _ => True
  end.

(** Every frozen range lies in its allocation. *)
Definition storage_ok (st : Storage) : Prop :=
  match st with
  | FrozenStorage f => 0 ≤ range_start f ≤ range_end f ∧ range_end f ≤ zlen (storage (allocation f))
  | _ => True
  end.
Definition store_ok (s : BufferStore) : Prop := map_Forall (λ _, storage_ok) (entries s).

(** ** The refinement *)
Lemma insert_resource_map {A B} (f : A → B) (t : Table A) r :
  insert_resource (table_map f t) (f r) =
    let '(o, t) := insert_resource t r in (o, table_map f t).
Proof.
  unfold insert_resource, table_map. simpl. destruct (advance_resource (next_id t)); [|done].
  rewrite lookup_fmap. destruct (entries t !! next_id t); simpl; [done|].
  by rewrite fmap_insert.
Qed.

Lemma insert_resource_ok {A} (P : A → Prop) (t : Table A) r :
  map_Forall (λ _, P) (entries t) → P r → map_Forall (λ _, P) (entries (insert_resource t r).2).
Proof.
  intros Ht Hr. unfold insert_resource. destruct (advance_resource _); [|done].
  destruct (entries t !! next_id t) eqn:E; simpl; [done|]. by apply map_Forall_insert_2.
Qed.

Lemma abs_get s h : table_get (abs s) h = view <$> table_get s h.
Proof. unfold table_get, abs, table_map. simpl. apply lookup_fmap. Qed.

Lemma abs_set s h st : abs (set_storage s h st) = spec_set (abs s) h (view st).
Proof. unfold abs, table_map, set_storage, spec_set. simpl. by rewrite fmap_insert. Qed.

Lemma abs_remove s h : abs (table_remove s h).2 = (table_remove (abs s) h).2.
Proof. unfold abs, table_map, table_remove. simpl. by rewrite fmap_delete. Qed.

Lemma abs_insert s st : spec_insert (view st) (abs s) =
  let '(r, s) := answered Handle (buffer_insert s st) in (r, abs s).
Proof.
  unfold spec_insert, abs, buffer_insert. rewrite insert_resource_map.
  by destruct (insert_resource s st).
Qed.

Lemma set_ok s h st : store_ok s → storage_ok st → store_ok (set_storage s h st).
Proof. intros. by apply map_Forall_insert_2. Qed.
Lemma remove_ok s h : store_ok s → store_ok (table_remove s h).2.
Proof. intros. by apply map_Forall_delete. Qed.
Lemma buffer_insert_ok s st : store_ok s → storage_ok st → store_ok (buffer_insert s st).2.
Proof.
  intros Hs Hst. unfold buffer_insert.
  pose proof (insert_resource_ok storage_ok s st Hs Hst) as H. by destruct (insert_resource s st).
Qed.
Lemma answered_2 {A S} (f : A → answer) (p : outcome Z A * S) : (answered f p).2 = p.2.
Proof. by destruct p. Qed.

Lemma get_ok s h f : store_ok s → table_get s h = Some (FrozenStorage f) → storage_ok (FrozenStorage f).
Proof. intros Hs Hh. by apply (Hs h). Qed.

Lemma frozen_bytes_len f : storage_ok (FrozenStorage f) →
  zlen (frozen_bytes f) = range_end f - range_start f.
Proof. intros [??]. apply zlen_sub_bytes; lia. Qed.

(** A range check of the code and the one of the specification. *)
Lemma checked_range {A} (bytes : list Z) n offset length (yes no : A) : zlen bytes = n →
  (if in_buffer bytes offset length then yes else no) =
  match checked_end offset length with
  | Ok stop => if n <? stop then no else yes
  | _ => no
  end.
Proof.
  intros <-. unfold in_buffer, checked_end. destruct (offset + length <? 2 ^ 64); [|done]. simpl.
  by destruct (Z.leb_spec (offset + length) (zlen bytes)), (Z.ltb_spec (zlen bytes) (offset + length)); try lia.
Qed.

Definition refines (op : buffer_op) (s : BufferStore) : Prop :=
  store_ok (run_op op s).2 ∧ spec_op op (abs s) = ((run_op op s).1, abs (run_op op s).2).

Lemma remove_refines s h (r : outcome Z answer) : store_ok s →
  store_ok (table_remove s h).2 ∧ (r, (table_remove (abs s) h).2) = (r, abs (table_remove s h).2).
Proof. intros. split; [by apply remove_ok|]. by rewrite abs_remove. Qed.

Lemma refines_insert op s st : store_ok s → storage_ok st →
  run_op op s = answered Handle (buffer_insert s st) →
  spec_op op (abs s) = spec_insert (view st) (abs s) → refines op s.
Proof.
  intros Hs Hst Hrun Hspec. unfold refines. rewrite Hrun, Hspec, abs_insert.
  split; [rewrite answered_2; by apply buffer_insert_ok|]. by destruct (answered _ _).
Qed.

Lemma refines_freeze h offset length s : store_ok s → 0 ≤ offset → 0 ≤ length →
  refines (Freeze h offset length) s.
Proof.
  intros Hs Ho Hl. unfold refines, run_op, spec_op, buffer_freeze. rewrite abs_get.
  destruct (table_get s h) as [[|a|f]|]; simpl; try done.
  rewrite (checked_range (storage a) (zlen (storage a))) by done. unfold checked_end.
  destruct (Z.ltb_spec (offset + length) (2 ^ 64)); [|done].
  destruct (Z.ltb_spec (zlen (storage a)) (offset + length)); [done|]. simpl.
  rewrite abs_set. split; [|done]. apply set_ok; [done|]. simpl. lia.
Qed.

Lemma refines_slice h offset length s : store_ok s → 0 ≤ offset → 0 ≤ length →
  refines (Slice h offset length) s.
Proof.
  intros Hs Ho Hl. destruct (table_get s h) as [[|a|f]|] eqn:E.
  1,2,4: unfold refines; simpl; unfold buffer_slice, buffer_frozen; rewrite abs_get, E; done.
  pose proof (get_ok s h f Hs E) as Hf. pose proof (frozen_bytes_len f Hf) as Hlen. simpl in Hf.
  destruct (in_buffer (frozen_bytes f) offset length) eqn:Hin.
  - assert (offset + length < 2 ^ 64 ∧ offset + length ≤ range_end f - range_start f) as [??]
      by (unfold in_buffer in Hin; rewrite Hlen in Hin; lia).
    apply (refines_insert _ s (FrozenStorage (mkFrozen (allocation f) (capacity f)
      (range_start f + offset) (range_start f + (offset + length))))); [done|simpl; lia|..].
    + simpl. unfold buffer_slice, buffer_frozen, checked_end. rewrite E.
      rewrite (proj2 (Z.ltb_lt _ _)) by lia. simpl.
      by destruct (Z.ltb_spec (range_end f - range_start f) (offset + length)); [lia|].
    + simpl. rewrite abs_get, E. simpl. rewrite Hin. unfold frozen_bytes. simpl.
      by rewrite sub_bytes_sub by lia.
  - unfold refines. simpl. rewrite abs_get, E. simpl. rewrite Hin.
    unfold buffer_slice, buffer_frozen. rewrite E. unfold in_buffer in Hin. rewrite Hlen in Hin.
    unfold checked_end. destruct (offset + length <? 2 ^ 64); [|done].
    by rewrite (proj2 (Z.ltb_lt _ _)) by lia.
Qed.

(** [run_op] refines [spec_op]. *)
Lemma run_op_refines op s : store_ok s → op_unsigned op → refines op s.
Proof.
  intros Hs Hop. destruct op as [al n|h off data|h off n|h off n|h|h| |h a st sp|h|h].
  - unfold refines. simpl. unfold buffer_allocate. destruct (I32_MAX <? n) eqn:E; [done|].
    destruct al as [[base cap]|]; [|done].
    pose proof (refines_insert (Allocate (Some (base, cap)) n) s
      (Mutable (mkAllocation base cap (replicate (Z.to_nat n) 0))) Hs I) as H.
    unfold refines in H. simpl in H. unfold buffer_allocate in H. rewrite E in H. by apply H.
  - unfold refines. simpl. unfold write_storage. rewrite abs_get.
    destruct (table_get s h) as [[|a|f]|]; simpl; try done.
    destruct (off + zlen data <=? zlen (storage a)); [|done].
    rewrite abs_set. split; [by apply set_ok|done].
  - by apply refines_freeze; destruct Hop.
  - by apply refines_slice; destruct Hop.
  - unfold refines. simpl. unfold buffer_take. rewrite abs_get.
    destruct (table_get s h) as [[|a|f]|]; simpl; try done.
    by apply remove_refines.
  - unfold refines. simpl. unfold buffer_release. rewrite abs_get.
    destruct (table_get s h) as [[|a|f]|]; simpl; try done;
      by apply remove_refines.
  - by apply (refines_insert _ s Reserved).
  - unfold refines. simpl. unfold commit_reservation. rewrite abs_get. simpl in Hop.
    destruct (Z.leb_spec st sp), (Z.leb_spec sp (zlen (storage a))); simpl;
      destruct (table_get s h) as [[|b|f]|]; simpl; try done.
    rewrite abs_set. split; [|done]. apply set_ok; [done|]. simpl. lia.
  - unfold refines. simpl. by apply remove_refines.
  - destruct (table_get s h) as [[|a|f]|] eqn:E.
    1,2,4: unfold refines; simpl; unfold buffer_frozen; rewrite abs_get, E; done.
    apply (refines_insert _ s (FrozenStorage f)); [done|by eapply get_ok|..].
    + simpl. unfold buffer_frozen. by rewrite E.
    + simpl. rewrite abs_get, E. done.
Qed.

(** ** Runs *)
Fixpoint run_ops (ops : list buffer_op) (s : BufferStore) : list (outcome Z answer) * BufferStore :=
  match ops with
  | [] => ([], s)
  | op :: ops =>
      let '(r, s) := run_op op s in
      let '(rs, s) := run_ops ops s in (r :: rs, s)
  end.

Fixpoint spec_ops (ops : list buffer_op) (t : AbstractStore) :
    list (outcome Z answer) * AbstractStore :=
  match ops with
  | [] => ([], t)
  | op :: ops =>
      let '(r, t) := spec_op op t in
      let '(rs, t) := spec_ops ops t in (r :: rs, t)
  end.

Lemma run_ops_refines ops s : store_ok s → Forall op_unsigned ops →
  store_ok (run_ops ops s).2 ∧ spec_ops ops (abs s) = ((run_ops ops s).1, abs (run_ops ops s).2).
Proof.
  intros Hs Hops. revert s Hs. induction Hops as [|op ops Hop _ IH]; intros s Hs; [done|].
  destruct (run_op_refines op s Hs Hop) as [Hs' Hspec]. simpl. rewrite Hspec.
  destruct (run_op op s) as [r s']. simpl in *. destruct (IH s' Hs') as [? ->].
  by destruct (run_ops ops s').
Qed.

Lemma spec_insert_get b t h c : table_get t h = Some c →
  table_get (spec_insert b t).2 h = Some c.
Proof.
  intros Hh. unfold spec_insert, insert_resource, table_get in *.
  destruct (advance_resource (next_id t)); [|done].
  destruct (entries t !! next_id t) eqn:E; simpl; [done|].
  rewrite lookup_insert_ne; [done|]. intros <-. congruence.
Qed.

Lemma spec_set_get t h k b c : table_get t h = Some (Sealed c) → 
  table_get t k ≠ Some (Sealed c) → table_get (spec_set t k b) h = Some (Sealed c).
Proof.
  intros Hh Hk. unfold spec_set, table_get in *. simpl. rewrite lookup_insert_ne; [done|].
  intros ->. congruence.
Qed.

Lemma spec_remove_get (t : AbstractStore) h k c : table_get t h = Some c →
  table_get (table_remove t k).2 h = Some c ∨ h = k ∧ table_get (table_remove t k).2 h = None.
Proof.
  intros Hh. unfold table_get, table_remove in *. simpl. destruct (decide (h = k)) as [->|].
  - right. by rewrite lookup_delete_eq.
  - left. by rewrite lookup_delete_ne.
Qed.

(** Sealed bytes stay until the handle is given up. *)
Lemma sealed_stays op t h b : table_get t h = Some (Sealed b) →
  table_get (spec_op op t).2 h = Some (Sealed b) ∨
  table_get (spec_op op t).2 h = None ∧ op ∈ [Take h; Release h; Rollback h].
Proof.
  intros Hh. destruct op as [al n|k off data|k off n|k off n|k|k| |k a st sp|k|k]; simpl.
  - left. destruct (I32_MAX <? n), al; simpl; try done; by apply spec_insert_get.
  - left. destruct (table_get t k) as [[|c|c]|] eqn:E; simpl; try done.
    case_match; [|done]. apply spec_set_get; [done|congruence].
  - left. destruct (table_get t k) as [[|c|c]|] eqn:E; simpl; try done.
    case_match; [|done]. apply spec_set_get; [done|congruence].
  - left. destruct (table_get t k) as [[|c|c]|] eqn:E; simpl; try done.
    case_match; [|done]. by apply spec_insert_get.
  - destruct (table_get t k) as [[|c|c]|] eqn:E; try by left.
    destruct (spec_remove_get t h k (Sealed b) Hh) as [?|[-> ?]]; [by left|right]. split; [done|set_solver].
  - destruct (table_get t k) as [[|c|c]|] eqn:E; try by left.
    all: destruct (spec_remove_get t h k (Sealed b) Hh) as [?|[-> ?]]; [by left|right]; split; [done|set_solver].
  - left. by apply spec_insert_get.
  - left. destruct (table_get t k) as [[|c|c]|] eqn:E; simpl; try done.
    case_match; [|done]. apply spec_set_get; [done|congruence].
  - destruct (spec_remove_get t h k (Sealed b) Hh) as [?|[-> ?]]; [by left|right]. split; [done|set_solver].
  - left. destruct (table_get t k) as [[|c|c]|] eqn:E; simpl; try done. by apply spec_insert_get.
Qed.

(** ** Theorems *)

(** C7: Under any sequence of atomic operations the store of owned buffers
    behaves as a map from handles to the bytes they show: freezing and slicing
    cut exactly the asked range, taking returns exactly the sealed bytes, a
    reserved slot shows nothing until it is committed, and sealed bytes never
    change while their handle lives. *)
Theorem owned_buffers_refine ops : Forall op_unsigned ops →
  let answers := (run_ops ops resource_table).1 in
  let s := (run_ops ops resource_table).2 in
  spec_ops ops resource_table = (answers, abs s) ∧
  ∀ op h b, op_unsigned op → table_get (abs s) h = Some (Sealed b) →
    table_get (abs (run_op op s).2) h = Some (Sealed b) ∨
    table_get (abs (run_op op s).2) h = None ∧ op ∈ [Take h; Release h; Rollback h].
Proof.
  intros Hops answers s.
  destruct (run_ops_refines ops resource_table) as [Hs Hspec]; [apply map_Forall_empty|done|].
  split.
  - by subst answers s; rewrite <-Hspec.
  - intros op h b Hop Hh. destruct (run_op_refines op s Hs Hop) as [_ Hr].
    assert (abs (run_op op s).2 = (spec_op op (abs s)).2) as -> by (by rewrite Hr).
    by apply sealed_stays.
Qed.

Definition demo_ops : list buffer_op :=
  [Allocate (Some (4096, 16)) 8; Write 1 0 [1; 2; 3; 4; 5; 6; 7; 8]; Freeze 1 2 5; Slice 1 1 3;
   Reserve; Take 3; Commit 3 (mkAllocation 8192 2 [9; 9]) 0 1; Take 2; Take 2].

Lemma owned_buffers_refine_witness :
  (run_ops demo_ops resource_table).1 =
    [Ok (Handle 1); Ok Done; Ok Done; Ok (Handle 2); Ok (Handle 3); refused; Ok (Handle 3);
     Ok (Payload [4; 5; 6]); refused] ∧
  (spec_ops demo_ops resource_table).1 = (run_ops demo_ops resource_table).1.
Proof.
  split; [vm_compute; reflexivity|].
  destruct (owned_buffers_refine demo_ops) as [H _]; [repeat (apply Forall_cons_2; [simpl; first [exact I|lia]|]); apply Forall_nil_2|].
  rewrite H. reflexivity.
Defined.
