(* ===== verification/Leases.v ===== *)
(** * External leases

    [ct_ffi/src/runtime/external_leases.rs] lends memory of a native producer
    to the transport and queues the producer's release callbacks for its own
    thread; [external_lease_ffi.rs] registers the owners and publishes a loan as
    a frozen buffer.  The owner's state is behind a mutex: each method is a
    sequence of the atomic steps below, which other threads interleave. *)
From stdpp Require Import gmap.
From S2P Require Import Prelude Bytes Handles OwnedBuffers.

(** ** The owner *)
Inductive LeaseError : Type :=
  | LeaseInvalidArgument
  | WrongThread
  | Closing
  | QuotaExceeded
  | Busy
  | Reentrant
  | AllocationFailed.

Record LeaseLimits : Type := mkLimits { limit_bytes : Z; limit_leases : Z }.

Record LeaseMetrics : Type := mkMetrics {
  metric_bytes : Z;
  metric_leases : Z;
  pending_releases : Z;
  metric_closing : bool;
}.

Record Release : Type := mkRelease { callback : Z; token : Z; release_bytes : Z }.

#[global] Instance Release_eq_dec : EqDecision Release.
Proof. solve_decision. Defined.

(** [State], what the mutex guards. *)
Record LeaseState : Type := mkLeaseState {
  bytes : Z;
  leases : Z;
  releases : list Release;
  closing : bool;
  dispatching : bool;
}.

Record LeaseOwner : Type := mkLeaseOwner { owner_thread : Z; limits : LeaseLimits }.

(** The limits of an owner that [LeaseOwner::new] accepted. *)
Definition owner_ok (o : LeaseOwner) : Prop :=
  0 ≤ limit_bytes (limits o) ∧ 0 < limit_leases (limits o) ≤ I32_MAX.

Record ExternalLoan : Type := mkExternalLoan { loan_base : Z; loan_length : Z; loan_release : Release }.

(** [LeaseOwner::new], on the thread [tid]; [reserved] is what
    [try_reserve_exact] answers. *)
Definition LeaseOwner_new (tid : Z) (limits : LeaseLimits) (reserved : bool) :
    outcome LeaseError (LeaseOwner * LeaseState) :=
  if (limit_leases limits =? 0) || (I32_MAX <? limit_leases limits) then Err LeaseInvalidArgument
  else if negb reserved then Err AllocationFailed
  else Ok (mkLeaseOwner tid limits, mkLeaseState 0 0 [] false false).

Section owner.
Context (o : LeaseOwner).

Definition on_owner_thread (tid : Z) : outcome LeaseError unit :=
  if negb (tid =? owner_thread o) then Err WrongThread else Ok tt.

Definition ISIZE_MAX : Z := 2 ^ 63 - 1.

(** The checks of [admit_loan] before the lock is taken. *)
Definition admit_checks (tid base length : Z) : outcome LeaseError unit :=
  _ ← on_owner_thread tid;
  if (ISIZE_MAX <? length) || (negb (length =? 0) && (base =? 0)) || (2 ^ 64 <=? base + length)
  then Err LeaseInvalidArgument else Ok tt.

(** [NonNull::dangling] for bytes. *)
Definition dangling : Z := 1.

(** [state.bytes.checked_add(length).filter(..)] *)
Definition charged_bytes (st : LeaseState) (length : Z) : option Z :=
  if (bytes st + length <? 2 ^ 64) && (bytes st + length <=? limit_bytes (limits o))
  then Some (bytes st + length) else None.

Definition admit_loan (tid base length callback token : Z) (st : LeaseState) :
    outcome LeaseError ExternalLoan * LeaseState :=
  match admit_checks tid base length with
  | Ok _ =>
      if closing st then (Err Closing, st)
      else match charged_bytes st length with
      | None => (Err QuotaExceeded, st)
      | Some bytes =>
          if leases st =? limit_leases (limits o) then (Err QuotaExceeded, st)
          else
            (Ok (mkExternalLoan (if base =? 0 then dangling else base) length
                   (mkRelease callback token length)),
             mkLeaseState bytes (leases st + 1) (releases st) (closing st) (dispatching st))
      end
  | Err e => (Err e, st)
  | Panic => (Panic, st)
  | NoFuel => (NoFuel, st)
  end.

Definition metrics (st : LeaseState) : LeaseMetrics :=
  mkMetrics (bytes st) (leases st) (zlen (releases st)) (closing st).

Definition close_owner (tid : Z) (st : LeaseState) : outcome LeaseError unit * LeaseState :=
  match on_owner_thread tid with
  | Ok _ =>
      let st := mkLeaseState (bytes st) (leases st) (releases st) true (dispatching st) in
      if negb (leases st =? 0) then (Err Busy, st) else (Ok tt, st)
  | r => (r, st)
  end.

(** [wait_for_release]: [woken] is the state in which the condition variable
    hands the lock back, because the condition failed or the time ran out. *)
Definition wait_for_release (tid : Z) (st woken : LeaseState) : outcome LeaseError bool :=
  _ ← on_owner_thread tid;
  if dispatching st then Err Reentrant
  else Ok (negb (bool_decide (releases woken = []))).

(** [Drop for ExternalLoan] *)
Definition drop_loan (loan : ExternalLoan) (st : LeaseState) : LeaseState :=
  mkLeaseState (bytes st) (leases st) (releases st ++ [loan_release loan])
    (closing st) (dispatching st).

(** The critical sections of [dispatch]: its entry, a [pop_front], the
    settlement after a callback, and the drop of its [DispatchGuard]. *)
Definition set_dispatching (d : bool) (st : LeaseState) : LeaseState :=
  mkLeaseState (bytes st) (leases st) (releases st) (closing st) d.

Definition dispatch_begin (tid : Z) (st : LeaseState) : outcome LeaseError unit * LeaseState :=
  match on_owner_thread tid with
  | Ok _ => if dispatching st then (Err Reentrant, st) else (Ok tt, set_dispatching true st)
  | r => (r, st)
  end.

Definition pop_release (st : LeaseState) : option Release * LeaseState :=
  match releases st with
  | [] => (None, st)
  | r :: rs => (Some r, mkLeaseState (bytes st) (leases st) rs (closing st) (dispatching st))
  end.

Definition settle (r : Release) (st : LeaseState) : LeaseState :=
  mkLeaseState (bytes st - release_bytes r) (leases st - 1) (releases st) (closing st) (dispatching st).

(** The loop of [dispatch]; a callback may itself call methods of the owner,
    which is [run_callback]'s effect on the state. *)
Fixpoint dispatch_loop {W} (run_callback : Release → LeaseState * W → LeaseState * W)
    (maximum : nat) (count : Z) (st : LeaseState) (w : W) : Z * LeaseState * W :=
  match maximum with
  | O => (count, st, w)
  | S maximum =>
      match pop_release st with
      | (None, st) => (count, st, w)
      | (Some release, st) =>
          let '(st, w) := run_callback release (st, w) in
          dispatch_loop run_callback maximum (count + 1) (settle release st) w
      end
  end.

Definition dispatch {W} (run_callback : Release → LeaseState * W → LeaseState * W)
    (tid : Z) (maximum : nat) (st : LeaseState) (w : W) : outcome LeaseError Z * LeaseState * W :=
  match dispatch_begin tid st with
  | (Ok _, st) =>
      let '(count, st, w) := dispatch_loop run_callback maximum 0 st w in
      (Ok count, set_dispatching false st, w)
  | (Err e, st) => (Err e, st, w)
  | (_, st) => (Panic, st, w)
  end.

(** ** Interleaved runs

    [loans] are the live loans; [inflight] the dispatcher's progress: [None]
    outside [dispatch], else the thread that is in it, with the release whose
    callback has been entered and is not yet settled; [ran] the callbacks entered so far, with their threads;
    [admitted] and [dropped] the loans ever admitted and dropped, in order. *)
Record LeaseWorld : Type := mkLeaseWorld {
  state : LeaseState;
  loans : list ExternalLoan;
  inflight : option (Z * option Release);
  ran : list (Z * Release);
  admitted : list Release;
  dropped : list Release;
}.

Inductive lease_step : LeaseWorld → LeaseWorld → Prop :=
  | step_admit tid base length cb tok st st' loan ls fl rn ad dr :
      0 ≤ length → 0 ≤ base →
      admit_loan tid base length cb tok st = (Ok loan, st') →
      lease_step (mkLeaseWorld st ls fl rn ad dr)
        (mkLeaseWorld st' (loan :: ls) fl rn (ad ++ [loan_release loan]) dr)
  | step_drop st l1 loan l2 fl rn ad dr :
      lease_step (mkLeaseWorld st (l1 ++ loan :: l2) fl rn ad dr)
        (mkLeaseWorld (drop_loan loan st) (l1 ++ l2) fl rn ad (dr ++ [loan_release loan]))
  | step_close tid st st' r ls fl rn ad dr :
      close_owner tid st = (r, st') →
      lease_step (mkLeaseWorld st ls fl rn ad dr) (mkLeaseWorld st' ls fl rn ad dr)
  | step_begin tid st st' ls fl rn ad dr :
      dispatch_begin tid st = (Ok tt, st') →
      lease_step (mkLeaseWorld st ls fl rn ad dr) (mkLeaseWorld st' ls (Some (tid, None)) rn ad dr)
  | step_pop st st' tid r ls rn ad dr :
      pop_release st = (Some r, st') →
      lease_step (mkLeaseWorld st ls (Some (tid, None)) rn ad dr)
        (mkLeaseWorld st' ls (Some (tid, Some r)) (rn ++ [(tid, r)]) ad dr)
  | step_settle st tid r ls rn ad dr :
      lease_step (mkLeaseWorld st ls (Some (tid, Some r)) rn ad dr)
        (mkLeaseWorld (settle r st) ls (Some (tid, None)) rn ad dr)
  | step_end st tid ls rn ad dr :
      lease_step (mkLeaseWorld st ls (Some (tid, None)) rn ad dr)
        (mkLeaseWorld (set_dispatching false st) ls None rn ad dr).

Definition lease_start : LeaseWorld :=
  mkLeaseWorld (mkLeaseState 0 0 [] false false) [] None [] [] [].
Definition lease_run (w : LeaseWorld) : Prop := rtc lease_step lease_start w.

(** What is still charged: live loans, queued releases, the one in flight. *)
Definition outstanding (w : LeaseWorld) : list Release :=
  (loan_release <$> loans w) ++ releases (state w) ++
  match inflight w with Some (_, Some r) => [r] | _ => [] end.

Definition release_total (rs : list Release) : Z := foldr (λ r acc, release_bytes r + acc) 0 rs.

(** The accounts of a reachable owner. *)
Definition lease_accounts (w : LeaseWorld) : Prop :=
  leases (state w) = zlen (outstanding w) ∧
  bytes (state w) = release_total (outstanding w) ∧
  0 ≤ leases (state w) ≤ limit_leases (limits o) ∧
  0 ≤ bytes (state w) ≤ limit_bytes (limits o) ∧
  zlen (releases (state w)) ≤ limit_leases (limits o).

(** Every admitted loan is released exactly once, in the order of the drops, on
    the owner's thread, which [dispatch_begin] lets in alone. *)
Definition lease_releases (w : LeaseWorld) : Prop :=
  admitted w ≡ₚ (loan_release <$> loans w) ++ dropped w ∧
  dropped w = (ran w).*2 ++ releases (state w) ∧
  Forall (λ e, e.1 = owner_thread o) (ran w).

Definition lease_inv (w : LeaseWorld) : Prop :=
  lease_accounts w ∧ lease_releases w ∧
  Forall (λ r, 0 ≤ release_bytes r) (outstanding w) ∧
  dispatching (state w) = bool_decide (is_Some (inflight w)) ∧
  ∀ p, inflight w = Some p → p.1 = owner_thread o.

(** *** Invariance *)
Lemma release_total_app rs ss : release_total (rs ++ ss) = release_total rs + release_total ss.
Proof. induction rs as [|r rs IH]; simpl; lia. Qed.

Lemma release_total_perm rs ss : rs ≡ₚ ss → release_total rs = release_total ss.
Proof. induction 1; simpl; lia. Qed.

Lemma release_total_nonneg rs : Forall (λ r, 0 ≤ release_bytes r) rs → 0 ≤ release_total rs.
Proof. induction 1; simpl; lia. Qed.

(** The charges depend on what is outstanding only up to order. *)
Lemma accounts_perm w w' : outstanding w' ≡ₚ outstanding w →
  leases (state w') = leases (state w) → bytes (state w') = bytes (state w) →
  zlen (releases (state w')) ≤ limit_leases (limits o) →
  lease_accounts w → lease_accounts w'.
Proof.
  intros Hp Hl Hb Hq (H1&H2&H3&H4&H5). unfold lease_accounts. rewrite Hl, Hb.
  rewrite (release_total_perm _ _ Hp). unfold zlen in *. rewrite Hp. done.
Qed.

Lemma queue_le_outstanding w : lease_accounts w → zlen (releases (state w)) ≤ leases (state w).
Proof. intros (->&_). unfold outstanding. zlia. Qed.

Lemma admit_Ok_inv tid base length cb tok st loan st' :
  admit_loan tid base length cb tok st = (Ok loan, st') →
  tid = owner_thread o ∧ closing st = false ∧ loan_release loan = mkRelease cb tok length ∧
  bytes st + length ≤ limit_bytes (limits o) ∧ leases st ≠ limit_leases (limits o) ∧
  loan_length loan = length ∧
  st' = mkLeaseState (bytes st + length) (leases st + 1) (releases st) false (dispatching st).
Proof.
  unfold admit_loan, admit_checks, on_owner_thread.
  destruct (Z.eqb_spec tid (owner_thread o)); simpl; [|done]. destruct (_ || _); [done|]. simpl.
  destruct (closing st) eqn:Hc; [done|]. unfold charged_bytes.
  destruct (_ && _) eqn:Hq; [|done].
  destruct (Z.eqb_spec (leases st) (limit_leases (limits o))); [done|].
  intros [= <- <-]. simpl. split_and!; try done. lia.
Qed.

Lemma admit_inv w tid base length cb tok st' loan :
  lease_inv w → 0 ≤ length → admit_loan tid base length cb tok (state w) = (Ok loan, st') →
  lease_inv (mkLeaseWorld st' (loan :: loans w) (inflight w) (ran w)
               (admitted w ++ [loan_release loan]) (dropped w)).
Proof.
  intros (Hacc&(Hadm&Hdr&Hran)&Hpos&Hd&Hth) Hlen (_&_&Hrel&Hlim&Hne&_&->)%admit_Ok_inv.
  destruct Hacc as (H1&H2&H3&H4&H5).
  assert (outstanding (mkLeaseWorld (mkLeaseState (bytes (state w) + length) (leases (state w) + 1)
    (releases (state w)) false (dispatching (state w))) (loan :: loans w) (inflight w) (ran w)
    (admitted w ++ [loan_release loan]) (dropped w)) = mkRelease cb tok length :: outstanding w) as Ho
    by (unfold outstanding; simpl; by rewrite Hrel).
  unfold lease_inv, lease_accounts, lease_releases. rewrite Ho. simpl. split_and!; try done; try lia.
  - rewrite H1. zlia.
  - by rewrite Hadm, Permutation_app_comm, Hrel.
  - by constructor.
Qed.

Lemma drop_inv st l1 loan l2 fl rn ad dr :
  lease_inv (mkLeaseWorld st (l1 ++ loan :: l2) fl rn ad dr) →
  lease_inv (mkLeaseWorld (drop_loan loan st) (l1 ++ l2) fl rn ad (dr ++ [loan_release loan])).
Proof.
  intros (Hacc&(Hadm&Hdr&Hran)&Hpos&Hd&Hth). simpl in *.
  set (w := mkLeaseWorld st (l1 ++ loan :: l2) fl rn ad dr) in *.
  assert (outstanding (mkLeaseWorld (drop_loan loan st) (l1 ++ l2) fl rn ad (dr ++ [loan_release loan]))
    ≡ₚ outstanding w) as Ho.
  { unfold outstanding, w, drop_loan. simpl. rewrite !fmap_app, fmap_cons. simpl.
    rewrite <-!app_assoc. solve_Permutation. }
  split_and!.
  - apply (accounts_perm w); [done..| |done].
    pose proof (Hacc) as (H1&_&[_ H3]&_). unfold zlen in *. 
    assert (length (outstanding w) ≥ length (releases st) + 1)%nat.
    { unfold outstanding, w. simpl. rewrite !length_app, fmap_app, length_app. simpl. lia. }
    simpl in *. rewrite length_app. simpl. lia.
  - unfold lease_releases. simpl. split_and!; [|by rewrite Hdr, app_assoc|done].
    rewrite Hadm, !fmap_app, fmap_cons. solve_Permutation.
  - by rewrite Ho.
  - done.
  - exact Hth.
Qed.

Lemma close_owner_state tid st st' r : close_owner tid st = (r, st') →
  st' = st ∨ st' = mkLeaseState (bytes st) (leases st) (releases st) true (dispatching st).
Proof.
  unfold close_owner, on_owner_thread. destruct (negb _); [intros [= <- <-]; by left|].
  simpl. intros Hc. right. by destruct (leases st =? 0); simplify_eq/=.
Qed.

Lemma close_inv tid st st' r ls fl rn ad dr : close_owner tid st = (r, st') →
  lease_inv (mkLeaseWorld st ls fl rn ad dr) → lease_inv (mkLeaseWorld st' ls fl rn ad dr).
Proof.
  by intros [-> | ->]%close_owner_state.
Qed.

Lemma pop_inv st st' tid r ls rn ad dr : pop_release st = (Some r, st') →
  lease_inv (mkLeaseWorld st ls (Some (tid, None)) rn ad dr) →
  lease_inv (mkLeaseWorld st' ls (Some (tid, Some r)) (rn ++ [(tid, r)]) ad dr).
Proof.
  unfold pop_release. destruct (releases st) as [|r' rs] eqn:Er; [done|]. intros [= -> <-].
  intros (Hacc&(Hadm&Hdr&Hran)&Hpos&Hd&Hth). simpl in *.
  set (w := mkLeaseWorld st ls (Some (tid, None)) rn ad dr) in *.
  set (w' := mkLeaseWorld _ _ _ _ _ _).
  assert (outstanding w' ≡ₚ outstanding w) as Ho.
  { unfold outstanding, w, w'. simpl. rewrite Er, app_nil_r. solve_Permutation. }
  split_and!.
  - apply (accounts_perm w); [done..| |done]. destruct Hacc as (_&_&_&_&H5).
    simpl in *. rewrite Er in H5. zlia.
  - unfold lease_releases, w'. simpl. split_and!; [done| |].
    + rewrite Hdr, Er, fmap_app, <-app_assoc. done.
    + apply Forall_app_2; [done|]. constructor; [|done]. by apply (Hth (tid, None)).
  - by rewrite Ho.
  - done.
  - intros q [= <-]. by apply (Hth (tid, None)).
Qed.

Lemma settle_inv st tid r ls rn ad dr :
  lease_inv (mkLeaseWorld st ls (Some (tid, Some r)) rn ad dr) →
  lease_inv (mkLeaseWorld (settle r st) ls (Some (tid, None)) rn ad dr).
Proof.
  intros (Hacc&(Hadm&Hdr&Hran)&Hpos&Hd&Hth). simpl in *.
  set (w := mkLeaseWorld st ls (Some (tid, Some r)) rn ad dr) in *.
  set (w' := mkLeaseWorld _ _ _ _ _ _).
  assert (outstanding w = outstanding w' ++ [r]) as Ho.
  { unfold outstanding, w, w'. simpl. by rewrite app_nil_r, app_assoc. }
  rewrite Ho in Hpos. apply Forall_app in Hpos as [Hpos Hr]. apply Forall_inv in Hr.
  pose proof (release_total_nonneg _ Hpos) as Hnn.
  destruct Hacc as (H1&H2&H3&H4&H5). rewrite Ho in H1, H2.
  rewrite release_total_app in H2. simpl in H2.
  unfold lease_inv, lease_accounts. simpl in *. split_and!; try done; try zlia.
  intros q [= <-]. by apply (Hth (tid, Some r)).
Qed.

Lemma lease_inv_step w w' : lease_inv w → lease_step w w' → lease_inv w'.
Proof.
  intros Hinv Hstep. destruct Hstep as [tid base length cb tok st st' loan ls fl rn ad dr ?? Hadm
    |st l1 loan l2 fl rn ad dr|tid st st' r ls fl rn ad dr Hc|tid st st' ls fl rn ad dr Hb
    |st st' tid r ls rn ad dr Hp|st tid r ls rn ad dr|st tid ls rn ad dr].
  - by apply (admit_inv (mkLeaseWorld st ls fl rn ad dr) tid base length cb tok).
  - by apply drop_inv.
  - by apply (close_inv tid st st' r).
  - unfold dispatch_begin, on_owner_thread in Hb. destruct (Z.eqb_spec tid (owner_thread o)) as [Ht|]; [|done].
    destruct (dispatching st) eqn:Hd; [done|]. injection Hb as <-.
    destruct Hinv as (Hacc&Hrel&Hpos&Hfl&_). simpl in Hfl. rewrite Hd in Hfl.
    symmetry in Hfl. apply bool_decide_eq_false, eq_None_not_Some in Hfl as ->.
    split_and!; [exact Hacc|exact Hrel|exact Hpos|done|]. by intros q [= <-].
  - by apply (pop_inv st).
  - by apply settle_inv.
  - destruct Hinv as (Hacc&Hrel&Hpos&_). by split_and!.
Qed.

Lemma lease_inv_run w : owner_ok o → lease_run w → lease_inv w.
Proof.
  intros Hok Hrun. pattern w. eapply rtc_ind_r; [| |exact Hrun].
  - destruct Hok as [? [? _]]. unfold lease_inv, lease_accounts, lease_releases, lease_start. simpl.
    split_and!; try done; zlia.
  - intros w1 w2 _ Hstep Hinv. by eapply lease_inv_step.
Qed.

(** *** Closing *)
Definition closed (ad : list Release) (rn : list (Z * Release)) (w : LeaseWorld) : Prop :=
  closing (state w) = true ∧ loans w = [] ∧ releases (state w) = [] ∧
  (∀ tid r, inflight w ≠ Some (tid, Some r)) ∧ admitted w = ad ∧ ran w = rn.

Lemma closed_step ad rn w w' : closed ad rn w → lease_step w w' → closed ad rn w'.
Proof.
  intros (Hc&Hl&Hq&Hf&Ha&Hr) Hstep. destruct Hstep as [tid base length cb tok st st' loan ls fl rn' ad' dr ?? Hadm
    |st l1 loan l2 fl rn' ad' dr|tid st st' r ls fl rn' ad' dr Hclose|tid st st' ls fl rn' ad' dr Hb
    |st st' tid r ls rn' ad' dr Hp|st tid r ls rn' ad' dr|st tid ls rn' ad' dr]; simpl in *.
  - apply admit_Ok_inv in Hadm as (_&Hc'&_). congruence.
  - by destruct l1.
  - apply close_owner_state in Hclose as [-> | ->]; by split_and!.
  - unfold dispatch_begin, on_owner_thread in Hb. destruct (negb _); [done|].
    destruct (dispatching st); [done|]. injection Hb as <-. unfold closed. simpl. split_and!; auto.
  - unfold pop_release in Hp. by rewrite Hq in Hp.
  - by destruct (Hf tid r).
  - unfold closed. simpl. split_and!; auto.
Qed.

Lemma closed_run ad rn w w' : closed ad rn w → rtc lease_step w w' → closed ad rn w'.
Proof. intros Hc. induction 1; [done|]. eauto using closed_step. Qed.

(** A successful close finds nothing outstanding. *)
Lemma close_Ok_inv tid w st' : lease_inv w → close_owner tid (state w) = (Ok tt, st') →
  st' = mkLeaseState (bytes (state w)) 0 [] true (dispatching (state w)) ∧
  loans w = [] ∧ releases (state w) = [] ∧ (∀ tid r, inflight w ≠ Some (tid, Some r)).
Proof.
  intros ((H1&_)&_). unfold close_owner. destruct (on_owner_thread tid); try done. simpl.
  destruct (Z.eqb_spec (leases (state w)) 0) as [H0|]; [|done]. intros [= <-].
  rewrite H0 in H1. symmetry in H1. apply zlen_0_nil in H1. unfold outstanding in H1.
  apply app_nil in H1 as [Hl H1]. apply app_nil in H1 as [Hq Hf].
  rewrite Hq, H0. apply fmap_nil_inv in Hl. split_and!; [done..|].
  destruct (inflight w) as [[tid0 [r|]]|]; [done|by intros ? ? [=]|done].
Qed.

(** *** Dispatching

    Callbacks that leave the owner alone, and keep a log of the tokens. *)
Definition log_callback (r : Release) (p : LeaseState * list Release) : LeaseState * list Release :=
  (p.1, p.2 ++ [r]).

Definition after_dispatch (k : nat) (st : LeaseState) : LeaseState :=
  mkLeaseState (bytes st - release_total (take k (releases st))) (leases st - Z.of_nat k)
    (drop k (releases st)) (closing st) (dispatching st).

Lemma dispatch_loop_log maximum count st log :
  let k := Nat.min maximum (length (releases st)) in
  dispatch_loop log_callback maximum count st log
  = (count + Z.of_nat k, after_dispatch k st, log ++ take k (releases st)).
Proof.
  revert count st log. induction maximum as [|maximum IH]; intros count st log; simpl.
  { unfold after_dispatch. simpl. rewrite !Z.sub_0_r, Z.add_0_r, app_nil_r. by destruct st. }
  unfold pop_release. destruct st as [b l [|r rs] c d]; simpl.
  { unfold after_dispatch. simpl. by rewrite !Z.sub_0_r, Z.add_0_r, app_nil_r. }
  rewrite IH. unfold after_dispatch. simpl.
  rewrite <-app_assoc. simpl. set (k := Nat.min maximum (length rs)).
  replace (count + 1 + Z.of_nat k) with (count + Z.of_nat (S k)) by lia.
  replace (b - (release_bytes r + release_total (take k rs)))
    with (b - release_bytes r - release_total (take k rs)) by lia.
  by replace (l - 1 - Z.of_nat k) with (l - Z.of_nat (S k)) by lia.
Qed.

(** The critical sections of a dispatch are steps of the interleaved runs. *)
Lemma dispatch_steps k : ∀ st ls rn ad dr, (k ≤ length (releases st))%nat →
  rtc lease_step (mkLeaseWorld st ls (Some (owner_thread o, None)) rn ad dr)
    (mkLeaseWorld (after_dispatch k st) ls (Some (owner_thread o, None))
       (rn ++ (pair (owner_thread o) <$> take k (releases st))) ad dr).
Proof.
  induction k as [|k IH]; intros st ls rn ad dr Hk.
  { unfold after_dispatch. simpl. rewrite !Z.sub_0_r, app_nil_r. by destruct st. }
  destruct st as [b l [|r rs] c d]; [simpl in Hk; lia|]. simpl in Hk.
  eapply rtc_l; [by apply step_pop|]. eapply rtc_l; [by apply step_settle|].
  specialize (IH (settle r (mkLeaseState b l rs c d)) ls (rn ++ [(owner_thread o, r)]) ad dr).
  simpl in IH. unfold settle in IH at 1. simpl in IH. unfold settle. simpl.
  unfold after_dispatch in *. simpl in *.
  replace (b - (release_bytes r + release_total (take k rs)))
    with (b - release_bytes r - release_total (take k rs)) by lia.
  replace (l - Z.of_nat (S k)) with (l - 1 - Z.of_nat k) by lia.
  rewrite <-app_assoc in IH. apply IH. lia.
Qed.
End owner.

(** ** The registry of owners *)
Definition ERR_LEASE_WRONG_THREAD : Z := -20.
Definition ERR_LEASE_CLOSING : Z := -21.
Definition ERR_LEASE_QUOTA_EXCEEDED : Z := -22.
Definition ERR_LEASE_BUSY : Z := -23.
Definition ERR_LEASE_REENTRANT : Z := -24.

Definition status (e : LeaseError) : Z :=
  match e with
  | LeaseInvalidArgument => ERR_INVALID_ARGUMENT
  | WrongThread => ERR_LEASE_WRONG_THREAD
  | Closing => ERR_LEASE_CLOSING
  | QuotaExceeded => ERR_LEASE_QUOTA_EXCEEDED
  | Busy => ERR_LEASE_BUSY
  | Reentrant => ERR_LEASE_REENTRANT
  | AllocationFailed => ERR_IO
  end.

(** [OwnerRegistry]; an owner is kept with what its mutex guards. *)
Record OwnerRegistry : Type := mkRegistry {
  registry_count : Z;
  registry_maximum : Z;
  owners : Table (LeaseOwner * LeaseState);
}.

Definition OwnerRegistry_new (maximum : Z) : OwnerRegistry := mkRegistry 0 maximum resource_table.

(** [OwnerRegistry::create]: the [OwnerSlot] gives the count back on an early
    return. *)
Definition create_owner (tid : Z) (limits : LeaseLimits) (reserved : bool) (g : OwnerRegistry) :
    outcome Z Z * OwnerRegistry :=
  if negb (registry_count g <? registry_maximum g) then (Err ERR_LEASE_QUOTA_EXCEEDED, g)
  else
    let slot_dropped t := mkRegistry (registry_count g + 1 - 1) (registry_maximum g) t in
    match LeaseOwner_new tid limits reserved with
    | Ok owner =>
        match insert_resource (owners g) owner with
        | (Ok handle, t) => (Ok handle, mkRegistry (registry_count g + 1) (registry_maximum g) t)
        | (_, t) => (Err ERR_HANDLE_UNAVAILABLE, slot_dropped t)
        end
    | Err e => (Err (status e), slot_dropped (owners g))
    | _ => (Panic, g)
    end.

Definition get_owner (g : OwnerRegistry) (handle : Z) : outcome Z (LeaseOwner * LeaseState) :=
  if handle <=? 0 then Err ERR_INVALID_ARGUMENT
  else ok_or ERR_INVALID_ARGUMENT (table_get (owners g) handle).

Definition set_owner (g : OwnerRegistry) (handle : Z) (o : LeaseOwner * LeaseState) : OwnerRegistry :=
  mkRegistry (registry_count g) (registry_maximum g)
    (mkTable (next_id (owners g)) (<[handle := o]> (entries (owners g)))).

Definition destroy_owner (tid handle : Z) (g : OwnerRegistry) : outcome Z unit * OwnerRegistry :=
  match get_owner g handle with
  | Ok (o, st) =>
      match close_owner o tid st with
      | (Ok _, _) =>
          (Ok tt, mkRegistry (registry_count g - 1) (registry_maximum g) (table_remove (owners g) handle).2)
      | (Err e, st) => (Err (status e), set_owner g handle (o, st))
      | (_, st) => (Panic, g)
      end
  | Err e => (Err e, g)
  | _ => (Panic, g)
  end.

(** [register_with]: a slot is reserved, then the loan admitted, then the slot
    committed; an error drops the reservation.  [memory] are the bytes of the
    span. *)
Definition register_with (o : LeaseOwner) (tid base : Z) (memory : list Z) (offset length : Z)
    (callback token : Z) (st : LeaseState) (s : BufferStore) :
    outcome Z (Z * ExternalLoan) * LeaseState * BufferStore :=
  let span_length := zlen memory in
  if negb ((offset + length <? 2 ^ 64) && (offset + length <=? span_length))
  then (Err ERR_INVALID_ARGUMENT, st, s)
  else if I32_MAX <? span_length then (Err ERR_INVALID_ARGUMENT, st, s)
  else match reserve_frozen s with
  | (Ok handle, s) =>
      match admit_loan o tid base span_length callback token st with
      | (Ok loan, st) =>
          let '(r, s) := commit_reservation handle (mkAllocation (loan_base loan) span_length memory)
                           offset (offset + length) s in
          ((λ handle, (handle, loan)) <$> r, st, s)
      | (Err e, st) => (Err (status e), st, drop_reservation handle s)
      | (_, st) => (Panic, st, s)
      end
  | (Err e, s) => (Err e, st, s)
  | (_, s) => (Panic, st, s)
  end.

(** ** The exported functions

    They run on the calling thread [tid], against the one registry. *)
Definition MAX_REGISTERED_OWNERS : Z := 1024.

Definition ct_external_owner_create (tid maximum_bytes maximum_leases : Z) (reserved : bool)
    (g : OwnerRegistry) : Z * OwnerRegistry :=
  let '(r, g) := create_owner tid (mkLimits maximum_bytes maximum_leases) reserved g in (code id r, g).

(** [owners().get(handle).and_then(|owner| ..)]: a method of a registered owner. *)
Definition with_owner {A} (handle : Z) (g : OwnerRegistry)
    (method : LeaseOwner → LeaseState → outcome LeaseError A * LeaseState) :
    outcome Z A * OwnerRegistry :=
  match get_owner g handle with
  | Ok (o, st) => let '(r, st) := method o st in (map_err status r, set_owner g handle (o, st))
  | Err e => (Err e, g)
  | _ => (Panic, g)
  end.

Definition ct_external_owner_close (tid handle : Z) (g : OwnerRegistry) : Z * OwnerRegistry :=
  let '(r, g) := with_owner handle g (λ o st, close_owner o tid st) in (code (λ _, SUCCESS) r, g).

Definition ct_external_owner_destroy (tid handle : Z) (g : OwnerRegistry) : Z * OwnerRegistry :=
  let '(r, g) := destroy_owner tid handle g in (code (λ _, SUCCESS) r, g).

(** Callbacks act on the owner's state and on [W]. *)
Definition ct_external_owner_dispatch {W} (run_callback : Release → LeaseState * W → LeaseState * W)
    (tid handle maximum : Z) (g : OwnerRegistry) (w : W) : Z * OwnerRegistry * W :=
  if I32_MAX <? maximum then (ERR_INVALID_ARGUMENT, g, w)
  else match get_owner g handle with
  | Ok (o, st) =>
      let '(r, st, w) := dispatch o run_callback tid (Z.to_nat maximum) st w in
      (code id (map_err status r), set_owner g handle (o, st), w)
  | r => (code (λ _, 0) r, g, w)
  end.

Definition ct_external_owner_wait (tid handle : Z) (woken : LeaseState → LeaseState) (g : OwnerRegistry) : Z :=
  code Z.b2z (p ← get_owner g handle; map_err status (wait_for_release p.1 tid p.2 (woken p.2))).

Definition ct_external_owner_metrics (handle : Z) (g : OwnerRegistry) : Z * option LeaseMetrics :=
  match get_owner g handle with
  | Ok (o, st) => (SUCCESS, Some (metrics st))
  | r => (code (λ _, 0) r, None)
  end.

(** The output token: its handle, zero unless the call succeeds. *)
Definition ct_external_buffer_register (tid owner base : Z) (memory : list Z) (offset length : Z)
    (callback : option Z) (token : Z) (g : OwnerRegistry) (s : BufferStore) :
    Z * Z * OwnerRegistry * BufferStore :=
  match callback with
  | None => (ERR_INVALID_ARGUMENT, 0, g, s)
  | Some callback =>
      match get_owner g owner with
      | Ok (o, st) =>
          let '(r, st, s) := register_with o tid base memory offset length callback token st s in
          let g := set_owner g owner (o, st) in
          match r with
          | Ok (handle, _) => (SUCCESS, handle, g, s)
          | r => (code (λ _, 0) r, 0, g, s)
          end
      | r => (code (λ _, 0) r, 0, g, s)
      end
  end.

(** ** Theorems *)

(** C12: In every interleaving of admissions, drops on any thread, closes and
    dispatches, an owner's counters equal the loans and bytes outstanding and
    stay within its limits, so no counter underflows and the release queue never
    grows past its reserved capacity; and every loan is released exactly once,
    in the order of the drops, on the owner's thread. *)
Theorem leases_account o w : owner_ok o → lease_run o w →
  lease_accounts o w ∧ lease_releases o w.
Proof. intros Hok Hrun. by destruct (lease_inv_run o w Hok Hrun) as (?&?&_). Qed.

(** When closing succeeds, the callback of every loan ever admitted has been
    entered and settled, and nothing is admitted or released afterwards,
    whatever the threads do. *)
Theorem lease_close_final o tid w st' w' : owner_ok o → lease_run o w →
  close_owner o tid (state w) = (Ok tt, st') →
  rtc (lease_step o) (mkLeaseWorld st' (loans w) (inflight w) (ran w) (admitted w) (dropped w)) w' →
  admitted w ≡ₚ (ran w).*2 ∧ admitted w' = admitted w ∧ ran w' = ran w ∧ loans w' = [].
Proof.
  intros Hok Hrun Hclose Hafter.
  pose proof (lease_inv_run o w Hok Hrun) as Hinv. pose proof Hinv as (_&(Ha&Hd&_)&_).
  destruct (close_Ok_inv o tid w st') as (->&Hl&Hq&Hf); [done..|].
  split.
  - rewrite Ha, Hd, Hl, Hq. by rewrite app_nil_r.
  - apply (closed_run o (admitted w) (ran w)) in Hafter; [|by split_and!].
    by destruct Hafter as (_&?&_&_&?&?).
Qed.

(** A dispatch on the owner's thread, not nested in another, calls back for
    the oldest queued releases up to its maximum, returns how many, and its
    critical sections are steps of the interleaved runs. *)
Theorem lease_dispatch_drains o w maximum log : owner_ok o → lease_run o w → inflight w = None →
  let k := Nat.min maximum (length (releases (state w))) in
  ∃ st', dispatch o log_callback (owner_thread o) maximum (state w) log
      = (Ok (Z.of_nat k), st', log ++ take k (releases (state w))) ∧
    releases st' = drop k (releases (state w)) ∧
    lease_run o (mkLeaseWorld st' (loans w) None
      (ran w ++ (pair (owner_thread o) <$> take k (releases (state w)))) (admitted w) (dropped w)).
Proof.
  intros Hok Hrun Hfl k. pose proof (lease_inv_run o w Hok Hrun) as (_&_&_&Hd&_).
  rewrite Hfl in Hd. destruct w as [st ls fl rn ad dr]. simpl in *. subst fl.
  assert (dispatch_begin o (owner_thread o) st = (Ok tt, set_dispatching true st)) as Hbegin.
  { unfold dispatch_begin, on_owner_thread. by rewrite Z.eqb_refl, Hd. }
  exists (set_dispatching false (after_dispatch k (set_dispatching true st))). split_and!.
  - unfold dispatch. rewrite Hbegin, dispatch_loop_log. done.
  - done.
  - unfold lease_run. etrans; [exact Hrun|]. eapply rtc_l; [by eapply (step_begin o (owner_thread o))|].
    etrans; [apply (dispatch_steps o k)|apply rtc_once, step_end].
    simpl. unfold k. lia.
Qed.

(** The entries of a store after a reservation that is given up. *)
Lemma reserve_rollback s handle s' : reserve_frozen s = (Ok handle, s') →
  table_get s handle = None ∧ table_get s' handle = Some Reserved ∧
  entries (drop_reservation handle s') = entries s ∧ ∀ k, k ≠ handle → table_get s' k = table_get s k.
Proof.
  unfold reserve_frozen, buffer_insert, insert_resource, table_get.
  destruct (advance_resource (next_id s)); [|done].
  destruct (entries s !! next_id s) eqn:E; [done|]. simpl. intros [= <- <-]. simpl. split_and!.
  - done.
  - apply lookup_insert_eq.
  - by apply delete_insert_id.
  - intros k Hk. by rewrite lookup_insert_ne.
Qed.

(** Registering a foreign span either publishes a fresh handle that shows
    exactly the asked range of the span and charges the owner for the whole
    span, or returns an error and leaves the owner and every buffer as they
    were; it never panics. *)
Theorem register_external_exact o tid base memory offset length cb tok st s :
  0 ≤ offset → 0 ≤ length →
  (∃ handle loan st' s', register_with o tid base memory offset length cb tok st s
      = (Ok (handle, loan), st', s') ∧
    admit_loan o tid base (zlen memory) cb tok st = (Ok loan, st') ∧
    table_get s handle = None ∧
    (view <$> table_get s' handle) = Some (Sealed (sub_bytes memory offset (offset + length))) ∧
    ∀ k, k ≠ handle → table_get s' k = table_get s k) ∨
  (∃ e s', register_with o tid base memory offset length cb tok st s = (Err e, st, s') ∧
    e < 0 ∧ entries s' = entries s).
Proof.
  intros Ho Hl. unfold register_with.
  destruct (negb _) eqn:Hr; [right; by eexists _, _|].
  destruct (I32_MAX <? zlen memory); [right; by eexists _, _|].
  destruct (reserve_frozen s) as [r s1] eqn:Hres. destruct r as [handle|e| |].
  - destruct (reserve_rollback s handle s1 Hres) as (Hnone&Hslot&Hent&Hother).
    destruct (admit_loan o tid base (zlen memory) cb tok st) as [r st'] eqn:Hadm.
    destruct r as [loan|e| |].
    + left. unfold commit_reservation. simpl.
      rewrite !(proj2 (Z.leb_le _ _)) by lia. rewrite Hslot. simpl.
      eexists handle, loan, st', _. split_and!; try done.
      * unfold table_get, set_storage. simpl. by rewrite lookup_insert_eq.
      * intros k Hk. unfold table_get, set_storage. simpl. rewrite lookup_insert_ne by done.
        by apply Hother.
    + right. assert (st' = st) as ->.
      { unfold admit_loan in Hadm. repeat case_match; simplify_eq/=; done. }
      exists (status e), (drop_reservation handle s1). split_and!; [done|by destruct e|done].
    + exfalso. unfold admit_loan, admit_checks, on_owner_thread in Hadm.
      repeat (case_match; simplify_eq/=).
    + exfalso. unfold admit_loan, admit_checks, on_owner_thread in Hadm.
      repeat (case_match; simplify_eq/=).
  - right. unfold reserve_frozen, buffer_insert, insert_resource in Hres.
    repeat (case_match; simplify_eq/=); by eexists _, _.
  - exfalso. unfold reserve_frozen, buffer_insert, insert_resource in Hres.
    repeat (case_match; simplify_eq/=).
  - exfalso. unfold reserve_frozen, buffer_insert, insert_resource in Hres.
    repeat (case_match; simplify_eq/=).
Qed.

(** ** Concrete runs *)
Definition demo_owner : LeaseOwner := mkLeaseOwner 7 (mkLimits 16 2).
Definition demo_release : Release := mkRelease 5 77 4.
Definition demo_loan : ExternalLoan := mkExternalLoan 4096 4 demo_release.
Definition demo_queued : LeaseWorld :=
  mkLeaseWorld (mkLeaseState 4 1 [demo_release] false false) [] None [] [demo_release] [demo_release].
Definition demo_drained : LeaseWorld :=
  mkLeaseWorld (mkLeaseState 0 0 [] false false) [] None [(7, demo_release)] [demo_release]
    [demo_release].

Lemma demo_owner_ok : owner_ok demo_owner.
Proof. unfold owner_ok. simpl. unfold I32_MAX. lia. Qed.

Lemma demo_queued_run : lease_run demo_owner demo_queued.
Proof.
  eapply rtc_l; [apply (step_admit _ 7 4096 4 5 77 _ (mkLeaseState 4 1 [] false false) demo_loan); done|].
  eapply rtc_l; [apply (step_drop _ _ [] demo_loan [])|]. apply rtc_refl.
Qed.

Lemma demo_drained_run : lease_run demo_owner demo_drained.
Proof.
  unfold lease_run. etrans; [exact demo_queued_run|].
  eapply rtc_l; [by eapply (step_begin _ 7)|]. eapply rtc_l; [by eapply step_pop|].
  eapply rtc_l; [apply step_settle|]. eapply rtc_l; [apply step_end|]. apply rtc_refl.
Qed.

Lemma leases_account_witness : lease_accounts demo_owner demo_queued ∧ leases (state demo_queued) = 1.
Proof.
  split; [|reflexivity].
  apply (leases_account demo_owner demo_queued demo_owner_ok demo_queued_run).
Defined.

Lemma lease_close_final_witness :
  close_owner demo_owner 7 (state demo_drained) = (Ok tt, mkLeaseState 0 0 [] true false) ∧
  admitted demo_drained ≡ₚ (ran demo_drained).*2.
Proof.
  split; [reflexivity|].
  refine (proj1 (lease_close_final demo_owner 7 demo_drained (mkLeaseState 0 0 [] true false) _
    demo_owner_ok demo_drained_run _ (rtc_refl _ _))). reflexivity.
Defined.

Lemma lease_dispatch_drains_witness :
  ∃ st', dispatch demo_owner log_callback 7 8 (state demo_queued) [] = (Ok 1, st', [demo_release])
    ∧ releases st' = [].
Proof.
  destruct (lease_dispatch_drains demo_owner demo_queued 8 [] demo_owner_ok demo_queued_run eq_refl)
    as (st'&H1&H2&_).
  exists st'. split; [exact H1|exact H2].
Defined.

Lemma register_external_exact_witness :
  ∃ r st' s', register_with demo_owner 7 4096 [1; 2; 3; 4] 1 2 5 77 (mkLeaseState 0 0 [] false false)
    resource_table = (r, st', s') ∧ returns r.
Proof.
  destruct (register_external_exact demo_owner 7 4096 [1; 2; 3; 4] 1 2 5 77
    (mkLeaseState 0 0 [] false false) resource_table) as [(h&loan&st'&s'&H&_)|(e&s'&H&_)]; [lia|lia|..].
  - by exists (Ok (h, loan)), st', s'.
  - by exists (Err e), (mkLeaseState 0 0 [] false false), s'.
Defined.
