(* ===== verification/Mqtt.v ===== *)
(** * MQTT queues and wakeups

    Of [ct_core/src/lib.rs]: [MqttOutboundQueue], the byte-budgeted queue to an
    MQTT connection's writer, with the two writer tasks; [MqttInbound], which
    cuts received chunks to what a poll asks for; and the wakeup protocol
    between the reader task and the polling side, whose atomic steps
    interleave. *)
From stdpp Require Import relations.
From S2P Require Import Prelude Bytes IoStream WireWriter WsMask WsFrame WsMessageWire.

(** ** The outbound queue *)
Definition MQTT_OUTBOUND_QUEUE_MAX_CHUNKS : Z := 512.
Definition MQTT_OUTBOUND_QUEUE_MAX_BYTES : Z := 8 * 1024 * 1024.

(** [mpsc::Sender] and [Semaphore]: the chunks queued with their permits, and
    the permits left. *)
Record MqttOutboundQueue : Type := mkMqttOutboundQueue {
  mqtt_capacity : Z;
  mqtt_queued : list (list Z * Z);
  byte_budget : Z;
  receiver_alive : bool;
}.

Inductive EnqueueError : Type := SendQueueFull | ConnectionNotFound.

(** [mpsc::channel] panics on a capacity of zero. *)
Definition MqttOutboundQueue_new (configured_capacity : Z) : outcome EnqueueError MqttOutboundQueue :=
  let capacity := Z.min configured_capacity MQTT_OUTBOUND_QUEUE_MAX_CHUNKS in
  if capacity =? 0 then Panic
  else Ok (mkMqttOutboundQueue capacity [] MQTT_OUTBOUND_QUEUE_MAX_BYTES true).

(** [enqueue]: the permit of a chunk that is not sent is dropped. *)
Definition mqtt_enqueue (chunk : list Z) (q : MqttOutboundQueue) :
    outcome EnqueueError unit * MqttOutboundQueue :=
  if MQTT_OUTBOUND_QUEUE_MAX_BYTES <? zlen chunk then (Err SendQueueFull, q)
  else
    let permit := zlen chunk mod 2 ^ 32 in
    if byte_budget q <? permit then (Err SendQueueFull, q)
    else if negb (receiver_alive q) then (Err ConnectionNotFound, q)
    else if mqtt_capacity q <=? zlen (mqtt_queued q) then (Err SendQueueFull, q)
    else
      (Ok tt, mkMqttOutboundQueue (mqtt_capacity q) (mqtt_queued q ++ [(chunk, permit)])
                (byte_budget q - permit) (receiver_alive q)).

(** [send_rx.recv()], and the drop of a chunk's permit. *)
Definition mqtt_recv (q : MqttOutboundQueue) : option (list Z * Z) * MqttOutboundQueue :=
  match mqtt_queued q with
  | [] => (None, q)
  | c :: cs => (Some c, mkMqttOutboundQueue (mqtt_capacity q) cs (byte_budget q) (receiver_alive q))
  end.

Definition drop_permit (permit : Z) (q : MqttOutboundQueue) : MqttOutboundQueue :=
  mkMqttOutboundQueue (mqtt_capacity q) (mqtt_queued q) (byte_budget q + permit) (receiver_alive q).

(** A dropped receiver drops what is queued. *)
Definition drop_receiver (q : MqttOutboundQueue) : MqttOutboundQueue :=
  mkMqttOutboundQueue (mqtt_capacity q) []
    (byte_budget q + foldr (λ c acc, c.2 + acc) 0 (mqtt_queued q)) false.

(** *** The writer tasks

    [spawn_mqtt_tcp_writer] over the chunks its queue delivers. *)
Fixpoint mqtt_tcp_writer (chunks : list (list Z)) : wr unit :=
  match chunks with
  | [] => mret ()
  | bytes :: chunks => _ ← wr_write_all bytes; mqtt_tcp_writer chunks
  end.

(** What the biased [select!] of [spawn_mqtt_websocket_writer] delivers next:
    a control frame, or a chunk when no control frame is ready. *)
Inductive mqtt_out : Type := ControlOut (opcode : Z) (bytes : list Z) | ChunkOut (bytes : list Z).

Definition mqtt_out_opcode (m : mqtt_out) : Z :=
  match m with ControlOut opcode _ => opcode | ChunkOut _ => 0x2 end.
Definition mqtt_out_bytes (m : mqtt_out) : list Z :=
  match m with ControlOut _ bytes | ChunkOut bytes => bytes end.

Fixpoint mqtt_websocket_writer (e : endianness) (rx : list mqtt_out) : wr unit :=
  match rx with
  | [] => mret ()
  | m :: rx =>
      let bytes := mqtt_out_bytes m in
      _ ← write_websocket_frame_mode e (mqtt_out_opcode m) (zlen bytes) [bytes] [] false;
      _ ← wr_flush;
      if mqtt_out_opcode m =? 0x8 then mret () else mqtt_websocket_writer e rx
  end.

(** ** Inbound chunks *)
Inductive TryRecvError : Type := Empty | Disconnected.

#[global] Instance TryRecvError_eq_dec : EqDecision TryRecvError.
Proof. solve_decision. Defined.

(** The receiving end of a channel: what is queued, and whether a sender is
    left. *)
Record ChunkReceiver : Type := mkChunkReceiver { queued : list (list Z); sender_alive : bool }.

Definition try_recv (r : ChunkReceiver) : outcome TryRecvError (list Z) * ChunkReceiver :=
  match queued r with
  | [] => (Err (if sender_alive r then Empty else Disconnected), r)
  | c :: cs => (Ok c, mkChunkReceiver cs (sender_alive r))
  end.

Record MqttInbound : Type := mkMqttInbound { receiver : ChunkReceiver; pending : option (list Z) }.

(** The [while] loop of [try_recv_limited]; it takes one queued chunk per round. *)
Fixpoint combine_chunks (max_bytes : Z) (chunks : list (list Z)) (alive : bool) (buffer : list Z) :
    list Z * MqttInbound :=
  if negb (zlen buffer <? max_bytes) then (buffer, mkMqttInbound (mkChunkReceiver chunks alive) None)
  else match chunks with
  | [] => (buffer, mkMqttInbound (mkChunkReceiver [] alive) None)
  | next :: chunks =>
      let remaining := max_bytes - zlen buffer in
      if remaining <? zlen next then
        (buffer ++ take (Z.to_nat remaining) next,
         mkMqttInbound (mkChunkReceiver chunks alive) (Some (drop (Z.to_nat remaining) next)))
      else combine_chunks max_bytes chunks alive (buffer ++ next)
  end.

Definition try_recv_limited (max_bytes : Z) (m : MqttInbound) :
    outcome TryRecvError (list Z) * MqttInbound :=
  let '(first, r) :=
    match pending m with
    | Some bytes => (Ok bytes, receiver m)
    | None => try_recv (receiver m)
    end in
  match first with
  | Ok bytes =>
      if max_bytes <? zlen bytes then
        (Ok (take (Z.to_nat max_bytes) bytes),
         mkMqttInbound r (Some (drop (Z.to_nat max_bytes) bytes)))
      else
        let '(bytes, m) := combine_chunks max_bytes (queued r) (sender_alive r) bytes in
        (Ok bytes, m)
  | e => (e, mkMqttInbound r None)
  end.

(** [poll_with_wake_reset]: [after] is the inbound side when the retry runs,
    after the flag is cleared. *)
Definition poll_with_wake_reset (max_bytes : Z) (m : MqttInbound) (flag : bool)
    (after : MqttInbound → MqttInbound) : option (list Z) * MqttInbound * bool :=
  match try_recv_limited max_bytes m with
  | (Ok bytes, m) => (Some bytes, m, flag)
  | (Err Empty, m) =>
      match try_recv_limited max_bytes (after m) with
      | (Ok bytes, m) => (Some bytes, m, false)
      | (_, m) => (None, m, false)
      end
  | (_, m) => (None, m, flag)
  end.

(** The bytes received and not yet polled. *)
Definition backlog (m : MqttInbound) : list Z := default [] (pending m) ++ concat (queued (receiver m)).

(** ** The wakeup protocol *)

(** The reader task between its calls: [PSent] after its [send], [PSwapped] after
    a [swap] that found the flag down, before it locks and reads the callback. *)
Inductive producer_state : Type := PIdle | PSent | PSwapped | PGone.

(** The polling side: between two polls, in [try_recv_limited], or between the
    store that clears the flag and the retry. *)
Inductive consumer_state : Type := CIdle | CPolling | CReset.

(** [notification_pending] as the reader's [swap] finds it; the stores of the
    polling side that are not visible yet; the registered callback, and its calls
    not yet taken up. *)
Record WakeWorld : Type := mkWakeWorld {
  inbound : MqttInbound;
  notification_pending : bool;
  resets : nat;
  wakeup : bool;
  notifies : nat;
  producer : producer_state;
  consumer : consumer_state;
}.

(** The polling side registers its callback and polls once, then polls whenever
    it is called back, until a poll gives nothing.

    It clears the flag with [store(false, Ordering::Release)], which does not wait
    for the store to be visible before the loads of the retry: the store is kept
    back, as in a store buffer, and [wake_visible] makes it visible at any later
    time.  The [swap] reads and writes what is visible.  [ordered] says whether the
    retry waits for the store, as behind a sequentially consistent fence; the code
    is [ordered = false]. *)
Inductive wake_step (ordered : bool) (max_bytes : Z) : WakeWorld → WakeWorld → Prop :=
  | wake_send m f b k n c chunk :
      sender_alive (receiver m) = true → chunk ≠ [] →
      wake_step ordered max_bytes (mkWakeWorld m f b k n PIdle c)
        (mkWakeWorld (mkMqttInbound (mkChunkReceiver (queued (receiver m) ++ [chunk])
                        (sender_alive (receiver m))) (pending m)) f b k n PSent c)
  | wake_swap m f b k n c :
      wake_step ordered max_bytes (mkWakeWorld m f b k n PSent c)
        (mkWakeWorld m true b k n (if f then PIdle else PSwapped) c)
  | wake_callback m f b k n c :
      wake_step ordered max_bytes (mkWakeWorld m f b k n PSwapped c)
        (mkWakeWorld m f b k (if k then S n else n) PIdle c)
  | wake_gone m f b k n c :
      wake_step ordered max_bytes (mkWakeWorld m f b k n PIdle c)
        (mkWakeWorld (mkMqttInbound (mkChunkReceiver (queued (receiver m)) false) (pending m))
           f b k n PGone c)
  | wake_visible m f b k n p c :
      wake_step ordered max_bytes (mkWakeWorld m f (S b) k n p c) (mkWakeWorld m false b k n p c)
  | wake_register m f b n p :
      wake_step ordered max_bytes (mkWakeWorld m f b false n p CIdle) (mkWakeWorld m f b true n p CPolling)
  | wake_called m f b k n p :
      wake_step ordered max_bytes (mkWakeWorld m f b k (S n) p CIdle) (mkWakeWorld m f b k n p CPolling)
  | wake_poll_some m m' f b k n p bytes :
      try_recv_limited max_bytes m = (Ok bytes, m') →
      wake_step ordered max_bytes (mkWakeWorld m f b k n p CPolling) (mkWakeWorld m' f b k n p CPolling)
  | wake_poll_empty m m' f b k n p :
      try_recv_limited max_bytes m = (Err Empty, m') →
      wake_step ordered max_bytes (mkWakeWorld m f b k n p CPolling) (mkWakeWorld m' f (S b) k n p CReset)
  | wake_poll_gone m m' f b k n p :
      try_recv_limited max_bytes m = (Err Disconnected, m') →
      wake_step ordered max_bytes (mkWakeWorld m f b k n p CPolling) (mkWakeWorld m' f b k n p CIdle)
  | wake_retry_some m m' f b k n p bytes :
      try_recv_limited max_bytes m = (Ok bytes, m') → (ordered = true → b = 0%nat) →
      wake_step ordered max_bytes (mkWakeWorld m f b k n p CReset) (mkWakeWorld m' f b k n p CPolling)
  | wake_retry_none m m' f b k n p e :
      try_recv_limited max_bytes m = (Err e, m') → (ordered = true → b = 0%nat) →
      wake_step ordered max_bytes (mkWakeWorld m f b k n p CReset) (mkWakeWorld m' f b k n p CIdle).

Definition wake_start : WakeWorld :=
  mkWakeWorld (mkMqttInbound (mkChunkReceiver [] true) None) false 0 false 0 PIdle CIdle.

(** ** Polling *)
Lemma combine_chunks_spec max chunks alive buffer bytes m :
  zlen buffer ≤ max → combine_chunks max chunks alive buffer = (bytes, m) →
  zlen bytes ≤ max ∧ bytes ++ backlog m = buffer ++ concat chunks ∧
  (zlen bytes = max ∨ backlog m = []) ∧ sender_alive (receiver m) = alive.
Proof.
  revert buffer. induction chunks as [|next chunks IH]; intros buffer Hb; simpl;
    destruct (Z.ltb_spec (zlen buffer) max); simpl.
  - intros [= <- <-]. unfold backlog. simpl. split_and!; [done|done|by right|done].
  - intros [= <- <-]. unfold backlog. simpl. split_and!; [done|done|left; lia|done].
  - destruct (Z.ltb_spec (max - zlen buffer) (zlen next)).
    + intros [= <- <-]. unfold backlog. simpl. split_and!; [zlia| |left; zlia|done].
      by rewrite <-!app_assoc, (app_assoc (take _ next)), take_drop.
    + intros (?&Heq&?&?)%IH; [|zlia]. rewrite <-app_assoc in Heq. done.
  - intros [= <- <-]. unfold backlog. simpl. split_and!; [done|done|left; lia|done].
Qed.

Lemma try_recv_limited_Ok max m bytes m' : 0 ≤ max → try_recv_limited max m = (Ok bytes, m') →
  zlen bytes ≤ max ∧ bytes ++ backlog m' = backlog m ∧ (zlen bytes = max ∨ backlog m' = []) ∧
  sender_alive (receiver m') = sender_alive (receiver m).
Proof.
  intros Hmax. unfold try_recv_limited.
  assert (∀ first r, first ++ concat (queued r) = backlog m →
    sender_alive r = sender_alive (receiver m) →
    (if max <? zlen first
     then (Ok (E:=TryRecvError) (take (Z.to_nat max) first), mkMqttInbound r (Some (drop (Z.to_nat max) first)))
     else let '(bytes, m) := combine_chunks max (queued r) (sender_alive r) first in (Ok bytes, m))
    = (Ok bytes, m') →
    zlen bytes ≤ max ∧ bytes ++ backlog m' = backlog m ∧ (zlen bytes = max ∨ backlog m' = []) ∧
    sender_alive (receiver m') = sender_alive (receiver m)) as Hgo.
  { intros first r Hback Halive. destruct (Z.ltb_spec max (zlen first)).
    - intros [= <- <-]. unfold backlog at 1. simpl. rewrite app_assoc, take_drop.
      split_and!; [zlia|done|left; zlia|done].
    - destruct (combine_chunks _ _ _ _) as [b m1] eqn:E. intros [= <- <-].
      apply combine_chunks_spec in E as (?&?&?&Ha); [|lia].
      split_and!; [done|congruence|done|congruence]. }
  destruct m as [[[|c cs] alive] [p|]]; unfold try_recv; simpl;
    try (apply Hgo; done); done.
Qed.

Lemma try_recv_limited_Err max m e m' : try_recv_limited max m = (Err e, m') →
  m' = m ∧ backlog m = [] ∧ e = if sender_alive (receiver m) then Empty else Disconnected.
Proof.
  unfold try_recv_limited. destruct m as [[[|c cs] alive] [p|]]; unfold try_recv; simpl;
    try (intros [= <- <-]; done); repeat case_match; intros; simplify_eq.
Qed.

(** ** Wakeups *)

(** A callback is called, or the reader is about to call it. *)
Definition on_its_way (w : WakeWorld) : Prop := producer w = PSwapped ∨ (0 < notifies w)%nat.

(** The flag is down, or a store that takes it down is under way: the next chunk
    whose [swap] meets it calls back. *)
Definition flag_falls (w : WakeWorld) : Prop := (0 < resets w)%nat ∨ notification_pending w = false.

Record wake_inv (ordered : bool) (w : WakeWorld) : Prop := {
  wi_gone : sender_alive (receiver (inbound w)) = false ↔ producer w = PGone;
  wi_unregistered : wakeup w = false → consumer w = CIdle ∧ notifies w = 0%nat;
  wi_ordered : ordered = true → consumer w ≠ CReset → resets w = 0%nat;
  wi_flag : wakeup w = true → producer w ≠ PGone → consumer w ≠ CPolling → flag_falls w ∨ on_its_way w;
  wi_backlog : wakeup w = true → consumer w = CIdle → backlog (inbound w) ≠ [] →
    producer w = PSent ∨ on_its_way w ∨ ordered = false ∧ flag_falls w;
}.

Lemma wake_inv_step ordered max w w' : 0 ≤ max → wake_inv ordered w → wake_step ordered max w w' → wake_inv ordered w'.
Proof.
  intros Hmax [Hp Hr Ho H1 H2] Hstep.
  destruct Hstep as [m f b k n c chunk Hs Hne|m f b k n c|m f b k n c|m f b k n c|m f b k n p c|m f b n p|m f b k n p
    |m m' f b k n p bytes Ht|m m' f b k n p Ht|m m' f b k n p Ht|m m' f b k n p bytes Ht Hb|m m' f b k n p e Ht Hb];
    try (apply try_recv_limited_Ok in Ht as (_&_&_&Ha); [|done]);
    try (apply try_recv_limited_Err in Ht as (->&Hback&Hdead));
    unfold flag_falls, on_its_way in *; split; unfold flag_falls, on_its_way in *; simpl in *; try rewrite Ha; try done;
    try (by intros [? ?]%Hr); try (by intros [? _]%Hr); try (by intros E _; apply (Ho E)).
  - split; [congruence|done].
  - intros Hk _ Hc. destruct (H1 Hk ltac:(done) Hc) as [?|[?|?]]; (done || auto).
  - auto.
  - rewrite Hp. by destruct f.
  - intros Hk _ Hc. destruct f; [|by right; left]. destruct (H1 Hk ltac:(done) Hc) as [[?|?]|[?|?]]; (done || auto).
  - intros Hk Hc Hb. destruct f; [|by right; left; left].
    destruct (H1 Hk ltac:(done) ltac:(by rewrite Hc)) as [[?|?]|[?|?]]; try done; [|by right; left; right].
    destruct ordered; [|by right; right; split; [|left]]. specialize (Ho eq_refl ltac:(by rewrite Hc)). lia.
  - by rewrite Hp.
  - intros ->. by destruct (Hr eq_refl).
  - intros -> _ _. right. right. lia.
  - intros -> _ _. right. left. right. lia.
  - intros Hk Hc Hb. destruct (H2 Hk Hc Hb) as [?|[[?|?]|?]]; (done || auto).
  - intros E Hne. by specialize (Ho E Hne).
  - auto.
  - intros Hk Hc Hb. destruct (H2 Hk Hc Hb) as [?|[?|[??]]]; (done || auto).
  - intros _ _ _. left. left. lia.
  - intros _ Hg _. exfalso. apply Hg, Hp. by destruct (sender_alive (receiver m)).
  - auto.
  - auto.
  - intros Hk Hg _. by apply H1.
Qed.

Lemma wake_inv_run ordered max w : 0 ≤ max → rtc (wake_step ordered max) wake_start w → wake_inv ordered w.
Proof.
  intros Hmax Hrun. pattern w. eapply rtc_ind_r; [| |exact Hrun].
  - split; simpl; try done; intros; left; by right.
  - intros w1 w2 _ Hstep Hinv. by eapply wake_inv_step.
Qed.

(** ** The outbound queue

    Enqueues, receptions and drops of permits, with the permits of the chunks
    being written. *)
Inductive queue_step : MqttOutboundQueue * list Z → MqttOutboundQueue * list Z → Prop :=
  | queue_enqueue chunk q q' ps :
      mqtt_enqueue chunk q = (Ok tt, q') → queue_step (q, ps) (q', ps)
  | queue_recv q q' chunk permit ps :
      mqtt_recv q = (Some (chunk, permit), q') → queue_step (q, ps) (q', permit :: ps)
  | queue_permit q p1 permit p2 :
      queue_step (q, p1 ++ permit :: p2) (drop_permit permit q, p1 ++ p2)
  | queue_gone q ps : queue_step (q, ps) (drop_receiver q, ps).

Definition sum_permits (ps : list Z) : Z := foldr Z.add 0 ps.

(** The bytes held for a connection: queued or being written. *)
Definition held_bytes (q : MqttOutboundQueue) : Z := foldr (λ c acc, zlen c.1 + acc) 0 (mqtt_queued q).

Definition queue_inv (p : MqttOutboundQueue * list Z) : Prop :=
  let '(q, ps) := p in
  byte_budget q + held_bytes q + sum_permits ps = MQTT_OUTBOUND_QUEUE_MAX_BYTES ∧
  0 ≤ byte_budget q ∧ Forall (λ p, 0 ≤ p) ps ∧
  Forall (λ c, c.2 = zlen c.1) (mqtt_queued q) ∧
  zlen (mqtt_queued q) ≤ mqtt_capacity q ∧ 0 ≤ mqtt_capacity q.

Lemma held_app l k : foldr (λ c acc, zlen c.1 + acc) 0 (l ++ k) =
  foldr (λ c acc, zlen c.1 + acc) 0 l + foldr (λ (c : list Z * Z) acc, zlen c.1 + acc) 0 k.
Proof. induction l as [|c l IH]; simpl; lia. Qed.

Lemma permits_held (l : list (list Z * Z)) : Forall (λ c, c.2 = zlen c.1) l →
  foldr (λ c acc, c.2 + acc) 0 l = foldr (λ c acc, zlen c.1 + acc) 0 l.
Proof. induction 1; simpl; lia. Qed.

Lemma sum_permits_nonneg ps : Forall (λ p, 0 ≤ p) ps → 0 ≤ sum_permits ps.
Proof. unfold sum_permits. induction 1; simpl; lia. Qed.

Lemma held_nonneg q : 0 ≤ held_bytes q.
Proof. unfold held_bytes. induction (mqtt_queued q) as [|c l IH]; simpl; zlia. Qed.

Lemma sum_permits_app l k : sum_permits (l ++ k) = sum_permits l + sum_permits k.
Proof. unfold sum_permits. induction l; simpl; lia. Qed.

(** A chunk within the budget's size has its length for permit. *)
Lemma permit_len (chunk : list Z) : zlen chunk ≤ MQTT_OUTBOUND_QUEUE_MAX_BYTES →
  zlen chunk mod 2 ^ 32 = zlen chunk.
Proof. intros H. unfold MQTT_OUTBOUND_QUEUE_MAX_BYTES in H. apply Z.mod_small. zlia. Qed.

Lemma mqtt_enqueue_eq chunk q : 0 ≤ byte_budget q ≤ MQTT_OUTBOUND_QUEUE_MAX_BYTES →
  mqtt_enqueue chunk q =
    if byte_budget q <? zlen chunk then (Err SendQueueFull, q)
    else if negb (receiver_alive q) then (Err ConnectionNotFound, q)
    else if mqtt_capacity q <=? zlen (mqtt_queued q) then (Err SendQueueFull, q)
    else (Ok tt, mkMqttOutboundQueue (mqtt_capacity q) (mqtt_queued q ++ [(chunk, zlen chunk)])
                   (byte_budget q - zlen chunk) (receiver_alive q)).
Proof.
  intros Hq. unfold mqtt_enqueue.
  destruct (Z.ltb_spec MQTT_OUTBOUND_QUEUE_MAX_BYTES (zlen chunk)).
  - by rewrite (proj2 (Z.ltb_lt _ _)) by lia.
  - by rewrite permit_len.
Qed.

Lemma queue_inv_step p p' : queue_inv p → queue_step p p' → queue_inv p'.
Proof.
  intros Hinv Hstep. destruct Hstep as [chunk q q' ps He|q q' chunk permit ps Hr|q p1 permit p2|q ps];
    destruct Hinv as (Hsum&Hb&Hps&Hq&Hlen&Hcap); unfold held_bytes in *.
  - rewrite mqtt_enqueue_eq in He
      by (pose proof (held_nonneg q); pose proof (sum_permits_nonneg ps Hps); unfold held_bytes in *; lia).
    destruct (Z.ltb_spec (byte_budget q) (zlen chunk)); [done|]. destruct (negb _); [done|].
    destruct (Z.leb_spec (mqtt_capacity q) (zlen (mqtt_queued q))); [done|]. injection He as <-.
    unfold queue_inv, held_bytes. simpl. rewrite held_app. simpl.
    split_and!; [lia|lia|done| |zlia|done]. apply Forall_app_2; [done|]. by constructor.
  - unfold mqtt_recv in Hr. destruct (mqtt_queued q) as [|c cs] eqn:E; [done|]. injection Hr as -> <-.
    apply Forall_cons in Hq as [Hc Hq]. simpl in *.
    unfold queue_inv, held_bytes. simpl. split_and!; [lia|lia| |done|zlia|done].
    constructor; [zlia|done].
  - apply Forall_app in Hps as [H1 [H2 H3]%Forall_cons]. rewrite sum_permits_app in Hsum. simpl in Hsum.
    unfold queue_inv, held_bytes. simpl. rewrite sum_permits_app. split_and!; [lia|lia| |done..].
    by apply Forall_app_2.
  - unfold queue_inv, held_bytes. simpl. rewrite permits_held by done.
    pose proof (held_nonneg q). unfold held_bytes in *.
    split_and!; [lia|lia|done|constructor|zlia|done].
Qed.

Lemma queue_step_capacity p p' : queue_step p p' → mqtt_capacity p'.1 = mqtt_capacity p.1.
Proof.
  destruct 1 as [chunk q q' ps He|q q' chunk permit ps Hr|q p1 permit p2|q ps]; simpl; try done.
  - unfold mqtt_enqueue in He. repeat case_match; by simplify_eq.
  - unfold mqtt_recv in Hr. by destruct (mqtt_queued q); simplify_eq.
Qed.

Lemma queue_inv_run p p' : queue_inv p → rtc queue_step p p' →
  queue_inv p' ∧ mqtt_capacity p'.1 = mqtt_capacity p.1.
Proof.
  intros Hp. induction 1 as [|p1 p2 p3 Hstep _ IH]; [done|].
  destruct IH as [? ->]; [by eapply queue_inv_step|]. split; [done|by apply queue_step_capacity].
Qed.

(** *** The writers *)
Lemma mqtt_tcp_writer_spec chunks : wr_spec (mqtt_tcp_writer chunks) (concat chunks) (λ _, True).
Proof.
  induction chunks as [|c cs IH]; simpl; [by apply wr_spec_ret|].
  eapply wr_spec_bind; [apply wr_spec_write_all|]. by intros.
Qed.

(** What goes out: the frames up to the first close frame. *)
Fixpoint mqtt_frames (rx : list mqtt_out) : list Z :=
  match rx with
  | [] => []
  | m :: rx =>
      frame_bytes (mqtt_out_opcode m) true (mqtt_out_bytes m) None ++
      if mqtt_out_opcode m =? 0x8 then [] else mqtt_frames rx
  end.

Lemma message_frames_unmasked op bytes masks :
  length masks = length (message_parts ([bytes] ++ [])) → masks_ok false masks →
  message_frames op (message_parts ([bytes] ++ [])) masks = frame_bytes op true bytes None.
Proof.
  intros Hl Hm. assert (message_parts ([bytes] ++ []) = [bytes]) as E.
  { unfold message_parts. simpl. by destruct bytes. }
  rewrite E in *. destruct masks as [|m [|? ?]]; try done.
  apply Forall_inv in Hm as [Hm _]. by destruct m.
Qed.

(** ** A wakeup that is lost

    The polling side is called back and drains the queue, sees it empty, and its
    retry reads the queue before its store is visible; a chunk comes in between
    and its swap finds the flag up. *)
Definition one_chunk (c : Z) : MqttInbound := mkMqttInbound (mkChunkReceiver [[c]] true) None.
Definition no_chunks : MqttInbound := mkMqttInbound (mkChunkReceiver [] true) None.

Lemma take_one_chunk max : 0 < max → try_recv_limited max (one_chunk 1) = (Ok [1], no_chunks).
Proof.
  intros Hmax. unfold try_recv_limited, one_chunk, try_recv. simpl. change (zlen [1]) with 1.
  destruct (Z.ltb_spec max 1); [lia|]. by destruct (negb _).
Qed.

Lemma lost_wakeup max : 0 < max → ∃ w, rtc (wake_step false max) wake_start w ∧
  wakeup w = true ∧ consumer w = CIdle ∧ producer w = PIdle ∧ backlog (inbound w) ≠ [] ∧
  resets w = 0%nat ∧ notification_pending w = false ∧ notifies w = 0%nat.
Proof.
  intros Hmax. exists (mkWakeWorld (one_chunk 2) false 0 true 0 PIdle CIdle). split; [|by split_and!].
  (* the first chunk arrives before the callback is registered *)
  eapply rtc_l; [by apply (wake_send _ _ _ _ _ _ _ _ [1])|]. eapply rtc_l; [apply wake_swap|]. eapply rtc_l; [apply wake_callback|].
  eapply rtc_l; [apply wake_register|]. eapply rtc_l; [eapply wake_poll_some, take_one_chunk, Hmax|].
  (* the flag is up; the store that clears it is kept back *)
  eapply rtc_l; [by eapply (wake_poll_empty _ _ no_chunks no_chunks)|].
  eapply rtc_l; [by eapply (wake_retry_none _ _ no_chunks no_chunks)|].
  eapply rtc_l; [by apply (wake_send _ _ no_chunks _ _ _ _ _ [2])|]. eapply rtc_l; [apply wake_swap|].
  eapply rtc_l; [apply wake_visible|]. apply rtc_refl.
Qed.

(** ** Theorems *)

(** A poll of an MQTT connection returns at most the bytes asked for, the
    next ones in the order received, losing, repeating and splitting nothing
    else: what it returned followed by what is left is what was there, and it
    returns less than asked only when nothing is left.  It fails exactly when
    nothing is there. *)
Theorem mqtt_inbound_exact max m : 0 < max →
  match try_recv_limited max m with
  | (Ok bytes, m') => zlen bytes ≤ max ∧ bytes ++ backlog m' = backlog m ∧
      (zlen bytes = max ∨ backlog m' = [])
  | (Err e, m') => m' = m ∧ backlog m = [] ∧
      e = (if sender_alive (receiver m) then Empty else Disconnected)
  | _ => False
  end.
Proof.
  intros Hmax. destruct (try_recv_limited max m) as [[bytes|e| |] m'] eqn:E.
  - apply try_recv_limited_Ok in E as (?&?&?&_); [done|lia].
  - by apply try_recv_limited_Err in E.
  - unfold try_recv_limited, try_recv in E. repeat case_match; simplify_eq.
  - unfold try_recv_limited, try_recv in E. repeat case_match; simplify_eq.
Qed.

(** C16: When a wakeup of the polling side is lost.  Where the store that clears
    the flag is visible before the retry, none is: whenever bytes are left over
    while the polling side is idle and the reader is not between its send and its
    swap, a callback is called or about to be, however the steps of both sides
    interleave.  With the store of the code, which the retry does not wait for,
    that holds or the flag falls, so that the reader's next chunk calls back; and
    a run exists that ends with bytes left over, the flag down, and no callback on
    its way: they wait for the next chunk. *)
Theorem mqtt_wakeup_exact max : 0 < max →
  (∀ ordered w, rtc (wake_step ordered max) wake_start w →
     wakeup w = true → consumer w = CIdle → producer w ≠ PSent → backlog (inbound w) ≠ [] →
     on_its_way w ∨ ordered = false ∧ flag_falls w) ∧
  (∀ ordered w (chunk : list Z), consumer w = CIdle → producer w = PIdle → wakeup w = true → resets w = 0%nat →
     notification_pending w = false → sender_alive (receiver (inbound w)) = true → chunk ≠ [] →
     ∃ w', rtc (wake_step ordered max) w w' ∧ producer w' = PIdle ∧ consumer w' = CIdle ∧
        notifies w' = S (notifies w)) ∧
  (∃ w, rtc (wake_step false max) wake_start w ∧
     wakeup w = true ∧ consumer w = CIdle ∧ producer w = PIdle ∧ backlog (inbound w) ≠ [] ∧
     resets w = 0%nat ∧ notification_pending w = false ∧ notifies w = 0%nat).
Proof.
  intros Hmax. split; [|split].
  - intros ordered w Hrun Hk Hc Hp Hb. destruct (wake_inv_run ordered max w ltac:(lia) Hrun) as [_ _ _ _ H2].
    destruct (H2 Hk Hc Hb) as [?|?]; [done|done].
  - intros ordered [m f b k n p c] chunk; simpl; intros -> -> -> -> -> Hs Hne. eexists. split.
    + eapply rtc_l; [by eapply (wake_send _ _ _ _ _ _ _ _ chunk)|]. eapply rtc_l; [apply wake_swap|]. eapply rtc_l; [apply wake_callback|]. apply rtc_refl.
    + done.
  - eapply lost_wakeup. lia.
Qed.

(** C35: What is queued or being written for an MQTT connection never exceeds
    8 MiB and the configured number of chunks, capped at 512, whatever the
    enqueues, receptions and drops; an enqueue succeeds exactly when the chunk
    fits the budget left, the connection lives and a slot is free. *)
Theorem mqtt_queue_bounded configured q0 q ps : 0 < configured →
  MqttOutboundQueue_new configured = Ok q0 → rtc queue_step (q0, []) (q, ps) →
  held_bytes q + sum_permits ps ≤ MQTT_OUTBOUND_QUEUE_MAX_BYTES ∧
  zlen (mqtt_queued q) ≤ 512 ∧ mqtt_capacity q = Z.min configured 512 ∧
  ∀ chunk, (mqtt_enqueue chunk q).1 = Ok tt ↔
    zlen chunk ≤ MQTT_OUTBOUND_QUEUE_MAX_BYTES - held_bytes q - sum_permits ps ∧
    receiver_alive q = true ∧ zlen (mqtt_queued q) < mqtt_capacity q.
Proof.
  intros Hc Hnew Hrun. assert (queue_inv (q0, []) ∧ mqtt_capacity q0 = Z.min configured 512) as [H0 Hcap].
  { unfold MqttOutboundQueue_new, MQTT_OUTBOUND_QUEUE_MAX_CHUNKS in Hnew.
    destruct (Z.min configured 512 =? 0); [done|]. injection Hnew as <-.
    unfold queue_inv, held_bytes. simpl. split_and!; try done; zlia. }
  destruct (queue_inv_run (q0, []) (q, ps) H0 Hrun) as [(Hsum&Hb&Hps&Hq&Hlen&_) Heq]. simpl in Heq.
  pose proof (held_nonneg q). pose proof (sum_permits_nonneg ps Hps).
  split_and!; [lia|lia|lia|]. intros chunk. rewrite mqtt_enqueue_eq by lia.
  destruct (Z.ltb_spec (byte_budget q) (zlen chunk)); simpl; [split; [done|lia]|].
  destruct (receiver_alive q); simpl; [|split; [done|by intros (_&?&_)]].
  destruct (Z.leb_spec (mqtt_capacity q) (zlen (mqtt_queued q))); simpl; split; try done; lia.
Qed.

(** The MQTT writers put what their queues deliver on the wire and nothing
    else: over TCP the chunks themselves, over WebSocket one unmasked frame per
    control message or chunk up to the first close frame, after which nothing
    is written; on a failure what went out is a prefix. *)
Theorem mqtt_writers_exact e chunks rx w w' :
  wr_spec (mqtt_tcp_writer chunks) (concat chunks) (λ _, True) ∧
  (Forall (λ m, bytes_ok (mqtt_out_bytes m)) rx → rng_ok w →
   mqtt_websocket_writer e rx w = (inr tt, w') → w_out w' = w_out w ++ mqtt_frames rx).
Proof.
  split; [apply mqtt_tcp_writer_spec|]. revert w. induction rx as [|m rx IH]; intros w Hok Hr H.
  { injection H as <-. by rewrite app_nil_r. }
  apply Forall_cons in Hok as [Hm Hok]. cbn [mqtt_websocket_writer mqtt_frames] in *. cbv zeta in H.
  apply wr_bind_ok in H as ([]&w1&H1&H). apply wr_bind_ok in H as ([]&w2&H2&H).
  apply write_frame_mode_ok in H1 as (masks&Hl&Hms&Hr1&Ho1);
    [|right; right; simpl; destruct (mqtt_out_bytes m); simpl; lia|simpl; rewrite app_nil_r; lia
     |by constructor|done].
  rewrite message_frames_unmasked in Ho1 by done.
  apply wr_flush_ok in H2 as [Ho2 Hr2]. rewrite app_nil_r in Ho2.
  destruct (mqtt_out_opcode m =? 8).
  - injection H as <-. by rewrite Ho2, Ho1, app_nil_r.
  - apply IH in H; [|done|by unfold rng_ok in *; rewrite Hr2]. rewrite H, Ho2, Ho1. by rewrite <-app_assoc.
Qed.

(** ** Concrete runs *)
Definition demo_inbound : MqttInbound :=
  mkMqttInbound (mkChunkReceiver [[1; 2; 3]; []; [4; 5; 6; 7]] true) None.

Lemma mqtt_inbound_exact_witness :
  (try_recv_limited 5 demo_inbound).1 = Ok [1; 2; 3; 4; 5] ∧
  backlog (try_recv_limited 5 demo_inbound).2 = [6; 7].
Proof.
  pose proof (mqtt_inbound_exact 5 demo_inbound ltac:(lia)) as H.
  destruct (try_recv_limited 5 demo_inbound) as [r m'] eqn:E. vm_compute in E.
  injection E as <- <-. destruct H as (_&H&_). split; [reflexivity|].
  apply (app_inv_head [1; 2; 3; 4; 5]). exact H.
Defined.

Definition demo_woken : WakeWorld :=
  mkWakeWorld (mkMqttInbound (mkChunkReceiver [[9]] true) None) true 0 true 1 PIdle CIdle.

Lemma demo_woken_run : rtc (wake_step true 4) wake_start demo_woken.
Proof.
  eapply rtc_l; [apply wake_register|]. eapply rtc_l; [by apply wake_poll_empty|].
  eapply rtc_l; [apply wake_visible|]. eapply rtc_l; [by eapply wake_retry_none|].
  eapply rtc_l; [by apply (wake_send _ _ _ _ _ _ _ _ [9])|].
  eapply rtc_l; [apply wake_swap|]. eapply rtc_l; [apply wake_callback|]. apply rtc_refl.
Qed.

Lemma mqtt_wakeup_exact_witness : on_its_way demo_woken.
Proof.
  destruct (proj1 (mqtt_wakeup_exact 4 ltac:(lia)) true demo_woken demo_woken_run) as [H|[H _]];
    [reflexivity|reflexivity|discriminate|discriminate|exact H|discriminate H].
Defined.

Definition demo_queue_state : MqttOutboundQueue :=
  mkMqttOutboundQueue 2 [([1; 2; 3], 3)] (MQTT_OUTBOUND_QUEUE_MAX_BYTES - 3) true.

Lemma mqtt_queue_bounded_witness :
  held_bytes demo_queue_state = 3 ∧ (mqtt_enqueue [4] demo_queue_state).1 = Ok tt.
Proof.
  split; [reflexivity|].
  destruct (mqtt_queue_bounded 2 (mkMqttOutboundQueue 2 [] MQTT_OUTBOUND_QUEUE_MAX_BYTES true)
    demo_queue_state []) as (_&_&_&H); [lia|reflexivity| |].
  - eapply rtc_l; [|apply rtc_refl]. by apply (queue_enqueue [1; 2; 3]).
  - apply H. split; [vm_compute; discriminate|]. split; reflexivity.
Defined.

Lemma mqtt_writers_exact_witness :
  mqtt_frames [ControlOut 0xA [7]; ChunkOut [1; 2]; ControlOut 8 []; ChunkOut [3]]
  = [0x8A; 1; 7; 0x82; 2; 1; 2; 0x88; 0].
Proof.
  set (w := mkWriter [] false [] [] [] [] []).
  set (rx := [ControlOut 0xA [7]; ChunkOut [1; 2]; ControlOut 8 []; ChunkOut [3]]).
  destruct (mqtt_writers_exact LittleEndian [] rx w (mqtt_websocket_writer LittleEndian rx w).2) as [_ H].
  vm_compute (mqtt_websocket_writer LittleEndian rx w) in H. symmetry. apply H.
  - repeat (apply Forall_cons_2; [repeat (apply Forall_cons_2; [unfold u8_ok; simpl; lia|]); apply Forall_nil_2|]).
    apply Forall_nil_2.
  - apply Forall_nil_2.
  - reflexivity.
Defined.
