(* ===== verification/Heartbeat.v ===== *)
(** * Heartbeats

    [spawn_connection_heartbeat] of [ct_core/src/lib.rs]: a task that pings a
    connection at every tick of an interval and closes it when a ping stays
    unanswered.  The clock is in milliseconds. *)
From S2P Require Import Prelude Bytes IoStream WireWriter OutboundFrame.

(** The loop's variables. *)
Record Heartbeat : Type := mkHeartbeat {
  next_nonce : Z;
  awaiting : bool;
  last_ping_at : Z;
  last_payload : list Z;
}.

Definition heartbeat_start (now : Z) : Heartbeat := mkHeartbeat 1 false now [].

(** What becomes of a [send_tx.send(..).await]: a full queue that no writer
    drains makes it wait. *)
Inductive send_result : Type := SendDone | SendClosed | SendWaits.

(** What the [select!] wakes up for: a tick, with the time and what the send
    queue does to a frame, or what the pong channel gives. *)
Inductive heartbeat_event : Type :=
  | Tick (now : Z) (send : send_result)
  | PongReceived (payload : list Z)
  | PongsClosed.

Inductive heartbeat_end : Type := ConnectionClosed | HeartbeatStopped | HeartbeatBlocked.

(** One round of the loop: the state or the end, and a frame for the writer. *)
Definition heartbeat_round (timeout : Z) (ev : heartbeat_event) (h : Heartbeat) :
    (Heartbeat + heartbeat_end) * option OutboundFrame :=
  match ev with
  | Tick now send =>
      if awaiting h then
        if timeout <=? now - last_ping_at h then (inr ConnectionClosed, None) else (inl h, None)
      else
        let payload := be_bytes 8 (next_nonce h) in
        let h := mkHeartbeat ((next_nonce h + 1) mod 2 ^ 64) true now payload in
        match send with
        | SendDone => (inl h, Some (control 0x01 payload))
        | SendClosed => (inr ConnectionClosed, None)
        | SendWaits => (inr HeartbeatBlocked, None)
        end
  | PongReceived payload =>
      (inl (mkHeartbeat (next_nonce h)
              (if awaiting h && bool_decide (payload = last_payload h) then false else false)
              (last_ping_at h) (last_payload h)), None)
  | PongsClosed => (inr HeartbeatStopped, None)
  end.

(** The task over a sequence of events: how it ended, if it did, and the pings
    it sent. *)
Fixpoint heartbeat (timeout : Z) (evs : list heartbeat_event) (h : Heartbeat) :
    option heartbeat_end * list OutboundFrame :=
  match evs with
  | [] => (None, [])
  | ev :: evs =>
      match heartbeat_round timeout ev h with
      | (inr e, f) => (Some e, option_list f)
      | (inl h, f) =>
          let '(r, fs) := heartbeat timeout evs h in (r, option_list f ++ fs)
      end
  end.

(** ** What it decides

    The last tick that found nothing outstanding, when no pong came after. *)
Fixpoint unanswered (evs : list heartbeat_event) (since : option Z) : option Z :=
  match evs with
  | [] => since
  | Tick now _ :: evs => unanswered evs (match since with Some t => Some t | None => Some now end)
  | PongReceived _ :: evs => unanswered evs None
  | PongsClosed :: evs => unanswered evs since
  end.

(** The events of a task that goes on: every ping was sent, and no tick found
    one overdue. *)
Definition goes_on (timeout : Z) (evs : list heartbeat_event) (since : option Z) : Prop :=
  ∀ k ev, evs !! k = Some ev →
    match ev with
    | Tick now send =>
        match unanswered (take k evs) since with
        | Some t => now - t < timeout
        | None => send = SendDone
        end
    | PongReceived _ => True
    | PongsClosed => False
    end.

(** The outstanding ping of a state. *)
Definition outstanding_ping (h : Heartbeat) : option Z :=
  if awaiting h then Some (last_ping_at h) else None.

Lemma goes_on_cons timeout ev evs since : goes_on timeout (ev :: evs) since ↔
  match ev with
  | Tick now send =>
      match since with Some t => now - t < timeout | None => send = SendDone end
  | PongReceived _ => True
  | PongsClosed => False
  end ∧ goes_on timeout evs (unanswered [ev] since).
Proof.
  unfold goes_on. split.
  - intros H. split; [exact (H 0%nat ev eq_refl)|]. intros k ev' Hk. specialize (H (S k) ev' Hk).
    simpl in H. by destruct ev.
  - intros [H0 H] [|k] ev' Hk; [by injection Hk as <-|]. specialize (H k ev' Hk). simpl.
    by destruct ev.
Qed.

Lemma heartbeat_goes_on timeout evs h :
  (heartbeat timeout evs h).1 = None ↔ goes_on timeout evs (outstanding_ping h).
Proof.
  revert h. induction evs as [|ev evs IH]; intros h.
  { split; [|done]. intros _ k ev Hk. by rewrite lookup_nil in Hk. }
  rewrite goes_on_cons. destruct h as [n aw t p]. unfold outstanding_ping in *.
  destruct ev as [now ok|payload|]; simpl.
  - destruct aw; simpl.
    + destruct (Z.leb_spec timeout (now - t)); simpl; [split; [done|intros [? _]; lia]|].
      specialize (IH (mkHeartbeat n true t p)). simpl in IH.
      destruct (heartbeat _ _ _) as [r fs]. simpl in *. rewrite IH. naive_solver lia.
    + destruct ok; simpl; [|naive_solver..].
      match goal with |- context [heartbeat timeout evs ?h] => specialize (IH h) end. simpl in IH.
      destruct (heartbeat _ _ _) as [r fs]. simpl in *. rewrite IH. naive_solver.
  - match goal with |- context [heartbeat timeout evs ?h] => specialize (IH h) end. simpl in IH.
    destruct (heartbeat _ _ _) as [r fs]. simpl in *. rewrite IH.
    destruct aw, (bool_decide (payload = p)); simpl; naive_solver.
  - naive_solver.
Qed.

Lemma heartbeat_app timeout evs evs' h : goes_on timeout evs (outstanding_ping h) →
  ∃ h', outstanding_ping h' = unanswered evs (outstanding_ping h) ∧
    heartbeat timeout (evs ++ evs') h =
      ((heartbeat timeout evs' h').1, (heartbeat timeout evs h).2 ++ (heartbeat timeout evs' h').2).
Proof.
  revert h. induction evs as [|ev evs IH]; intros h Hg.
  { exists h. split; [done|]. simpl. by destruct (heartbeat timeout evs' h). }
  apply goes_on_cons in Hg as [H0 Hg]. destruct h as [n aw t p]. unfold outstanding_ping in *.
  assert (∃ h1 f, heartbeat_round timeout ev (mkHeartbeat n aw t p) = (inl h1, f) ∧
    outstanding_ping h1 = unanswered [ev] (if aw then Some t else None)) as (h1&f&Hround&Ho).
  { unfold outstanding_ping. destruct ev as [now ok|payload|]; [| |done]; destruct aw; simpl in *.
    - destruct (Z.leb_spec timeout (now - t)); [lia|]. by eexists _, _.
    - rewrite H0. by eexists _, _.
    - eexists _, _. split; [done|]. simpl. by destruct (bool_decide _).
    - by eexists _, _. }
  change (goes_on timeout evs (unanswered [ev] (if aw then Some t else None))) in Hg.
  rewrite <-Ho in Hg.
  destruct (IH h1 Hg) as (h'&Hh'&Heq). exists h'. split.
  - unfold outstanding_ping in Hh'. rewrite Hh'. fold (outstanding_ping h1). rewrite Ho. by destruct ev.
  - cbn [heartbeat app]. rewrite Hround, Heq. destruct (heartbeat timeout evs h1) as [r fs]. simpl.
    by rewrite app_assoc.
Qed.

(** ** Theorems *)

(** A ping that has to wait for the send queue stops the clock: whatever
    happens, the connection is not closed for want of an answer. *)
Theorem heartbeat_blocked timeout evs now more start :
  goes_on timeout evs None → unanswered evs None = None →
  (heartbeat timeout (evs ++ Tick now SendWaits :: more) (heartbeat_start start)).1
  = Some HeartbeatBlocked.
Proof.
  intros Hg Hu.
  destruct (heartbeat_app timeout evs (Tick now SendWaits :: more) (heartbeat_start start) Hg)
    as (h'&Hh'&->).
  change (outstanding_ping (heartbeat_start start)) with (@None Z) in Hh'.
  rewrite Hu in Hh'. unfold outstanding_ping in Hh'. simpl.
  by destruct (awaiting h').
Qed.

(** A heartbeat keeps a connection open exactly as long as every tick finds
    its ping answered or younger than the timeout; a peer that leaves a ping
    unanswered is closed at the first tick that is the timeout or more after
    it, and any pong counts as an answer. *)
Theorem heartbeat_exact timeout evs start :
  ((heartbeat timeout evs (heartbeat_start start)).1 = None ↔ goes_on timeout evs None) ∧
  ∀ now ok t more, goes_on timeout evs None → unanswered evs None = Some t → timeout ≤ now - t →
    (heartbeat timeout (evs ++ Tick now ok :: more) (heartbeat_start start)).1 = Some ConnectionClosed.
Proof.
  split; [apply heartbeat_goes_on|]. intros now ok t more Hg Hu Hlate.
  destruct (heartbeat_app timeout evs (Tick now ok :: more) (heartbeat_start start) Hg) as (h'&Hh'&->).
  change (outstanding_ping (heartbeat_start start)) with (@None Z) in Hh'.
  rewrite Hu in Hh'. unfold outstanding_ping in Hh'.
  destruct (awaiting h') eqn:Ha; [|done]. injection Hh' as Ht. simpl. rewrite Ha, Ht.
  by rewrite (proj2 (Z.leb_le _ _)) by lia.
Qed.

Lemma heartbeat_exact_witness :
  (heartbeat 50 [Tick 0 SendDone; PongReceived []; Tick 30 SendDone; Tick 60 SendDone; Tick 90 SendDone] (heartbeat_start 0)).1
    = Some ConnectionClosed.
Proof.
  refine (proj2 (heartbeat_exact 50 [Tick 0 SendDone; PongReceived []; Tick 30 SendDone; Tick 60 SendDone] 0)
    90 SendDone 30 [] _ eq_refl _); [|lia].
  apply (heartbeat_exact 50 _ 0). reflexivity.
Defined.
