(* ===== verification/Registry.v ===== *)
(** * The connection registry

    [ListenerRegistry] of [ct_core/src/lib.rs]: the table of live connections
    behind its mutex, the queues and one-shot handshakes it hands out, the
    allocation of connection ids, registrations and accepted upgrades, which
    hold no lock between their steps, and the removal of a connection.  The
    handshakes, requests and streams themselves are type parameters.  The last
    part interleaves a registration with the tasks it spawns. *)
From stdpp Require Import gmap relations.
From S2P Require Import Prelude Bytes Text WampTypes Handles IoStream WireWriter OutboundFrame WsFrame Mqtt.

Inductive ConnectionProtocol : Type :=
  | RawSocketProtocol | MqttProtocol | WebSocketProtocol | HttpProtocol | Http2Protocol | Http3Protocol.

#[global] Instance ConnectionProtocol_eq_dec : EqDecision ConnectionProtocol.
Proof. solve_decision. Defined.

(** The [Error]s of these operations. *)
Inductive RegistryError : Type :=
  | ConnectionNotFound (id : Z)
  | UnsupportedProtocol (id : Z) (protocol : ConnectionProtocol)
  | SendQueueFull (id : Z)
  | HandshakeAlreadyTaken (id : Z)
  | ConnectionHandleUnavailable (id : Z)
  | IdsExhausted.

(** [allocate_connection_id] *)
Definition allocate_connection_id (next : Z) : outcome RegistryError Z * Z :=
  match advance_resource next with
  | None => (Err IdsExhausted, next)
  | Some next' => (Ok next, next')
  end.

(** A bounded [mpsc] channel: what is queued, its capacity, and whether its
    receiver lives. *)
Record SendChannel : Type := mkSendChannel {
  channel_queue : list OutboundFrame;
  channel_capacity : Z;
  channel_open : bool;
}.

(** [mpsc::channel] panics on a capacity of zero. *)
Definition mpsc_channel (capacity : Z) : outcome RegistryError SendChannel :=
  if capacity =? 0 then Panic else Ok (mkSendChannel [] capacity true).

Inductive try_send_result : Type := Sent (c : SendChannel) | Full | Closed.

Definition try_send (f : OutboundFrame) (c : SendChannel) : try_send_result :=
  if negb (channel_open c) then Closed
  else if channel_capacity c <=? zlen (channel_queue c) then Full
  else Sent (mkSendChannel (channel_queue c ++ [f]) (channel_capacity c) (channel_open c)).

(** What a removal does to a connection's tasks. *)
Inductive task_effect : Type :=
  | AbortReader | AbortWriter | AbortHeartbeat | ClearWakeup | DropSender | AbortWriterAfterGrace.

Section registry.
Context {WsHandshake H2Handshake H3Handshake H3Connection H3Stream Request Config : Type}.

Inductive ConnectionRecord : Type :=
  | RawSocketRecord (serializer : Serializer) (max_exponent : Z) (supports_file_segments : bool)
      (frames : list ParsedMessage) (has_heartbeat : bool) (send_tx : SendChannel)
  | MqttRecord (version : Z) (chunks : MqttInbound) (notification_pending : bool)
      (outbound : MqttOutboundQueue) (wakeup : option Z)
  | WebSocketPending (handshake : option WsHandshake)
  | WebSocketRecord (serializer : Serializer) (frames : list ParsedMessage) (has_heartbeat : bool)
      (send_tx : SendChannel)
  | HttpPending (pending_requests : list Request)
  | Http2Pending (handshake : option H2Handshake) (pending_requests : list Request)
  | Http3Pending (handshake : option H3Handshake) (connection : option H3Connection)
      (streams : list H3Stream) (pending_requests : list Request).

Record ConnectionEntry : Type := mkEntry {
  listener_id : Z;
  protocol : ConnectionProtocol;
  websocket_protocol : option str;
  endpoint_config : Config;
  has_stats : bool;
  backpressure : list Z;
  record : ConnectionRecord;
}.

(** [Mutex<HashMap<ConnectionId, ConnectionEntry>>], as the holder of the lock
    sees it. *)
#[local] Notation Connections := (gmap Z ConnectionEntry).

(** [.get(&connection_id).ok_or(Error::ConnectionNotFound(connection_id))] *)
Definition get_connection (id : Z) (cs : Connections) : outcome RegistryError ConnectionEntry :=
  ok_or (ConnectionNotFound id) (cs !! id).

Definition unsupported {A} (id : Z) (e : ConnectionEntry) : outcome RegistryError A :=
  Err (UnsupportedProtocol id (protocol e)).

Definition set_record (e : ConnectionEntry) (r : ConnectionRecord) : ConnectionEntry :=
  mkEntry (listener_id e) (protocol e) (websocket_protocol e) (endpoint_config e) (has_stats e)
    (backpressure e) r.

(** ** Queries *)
Definition connection_config (id : Z) (cs : Connections) : outcome RegistryError Config :=
  endpoint_config <$> get_connection id cs.

Definition connection_protocol (id : Z) (cs : Connections) : outcome RegistryError ConnectionProtocol :=
  protocol <$> get_connection id cs.

Definition connection_exponent (id : Z) (cs : Connections) : outcome RegistryError Z :=
  e ← get_connection id cs;
  match record e with
  | RawSocketRecord _ max_exponent _ _ _ _ => Ok max_exponent
  | _ => unsupported id e
  end.

Definition connection_supports_file_segments (id : Z) (cs : Connections) : outcome RegistryError bool :=
  e ← get_connection id cs;
  match record e with
  | RawSocketRecord _ _ supports _ _ _ => Ok supports
  | WebSocketRecord _ _ _ _ => Ok true
  | _ => Ok false
  end.

Definition connection_serializer (id : Z) (cs : Connections) : outcome RegistryError Serializer :=
  e ← get_connection id cs;
  match record e with
  | RawSocketRecord s _ _ _ _ _ | WebSocketRecord s _ _ _ => Ok s
  | _ => unsupported id e
  end.

Definition connection_websocket_protocol (id : Z) (cs : Connections) :
    outcome RegistryError (option str) :=
  e ← get_connection id cs;
  match protocol e with
  | WebSocketProtocol => Ok (websocket_protocol e)
  | _ => unsupported id e
  end.

Definition mqtt_version (id : Z) (cs : Connections) : outcome RegistryError Z :=
  e ← get_connection id cs;
  match record e with
  | MqttRecord version _ _ _ _ => Ok version
  | _ => unsupported id e
  end.

(** ** Operations

    [in_connection] finds the entry under the lock and stores what [f] makes of
    its record; an error stores nothing. *)
Definition in_connection {A} (id : Z) (f : ConnectionEntry → outcome RegistryError (A * ConnectionEntry))
    (cs : Connections) : outcome RegistryError A * Connections :=
  match e ← get_connection id cs; f e with
  | Ok (a, e) => (Ok a, <[id := e]> cs)
  | Err err => (Err err, cs)
  | Panic => (Panic, cs)
  | NoFuel => (NoFuel, cs)
  end.

Definition sent_on (id : Z) (e : ConnectionEntry) (r : try_send_result)
    (store : SendChannel → ConnectionRecord) : outcome RegistryError (unit * ConnectionEntry) :=
  match r with
  | Sent c => Ok (tt, set_record e (store c))
  | Full => Err (SendQueueFull id)
  | Closed => Err (ConnectionNotFound id)
  end.

Definition enqueue_frame (id : Z) (frame : OutboundFrame) :
    Connections → outcome RegistryError unit * Connections :=
  in_connection id (λ e,
    match record e with
    | RawSocketRecord s x f fr hb tx => sent_on id e (try_send frame tx) (RawSocketRecord s x f fr hb)
    | WebSocketRecord s fr hb tx => sent_on id e (try_send frame tx) (WebSocketRecord s fr hb)
    | _ => unsupported id e
    end).

Definition enqueue_file_frame (id : Z) (frame : OutboundFrame) :
    Connections → outcome RegistryError unit * Connections :=
  in_connection id (λ e,
    match record e with
    | RawSocketRecord s x true fr hb tx => sent_on id e (try_send frame tx) (RawSocketRecord s x true fr hb)
    | WebSocketRecord s fr hb tx => sent_on id e (try_send frame tx) (WebSocketRecord s fr hb)
    | _ => unsupported id e
    end).

(** [poll_message] over [message_frames] *)
Definition poll_message (id : Z) : Connections → outcome RegistryError (option ParsedMessage) * Connections :=
  in_connection id (λ e,
    match record e with
    | RawSocketRecord s x f fr hb tx =>
        Ok (head fr, set_record e (RawSocketRecord s x f (tail fr) hb tx))
    | WebSocketRecord s fr hb tx => Ok (head fr, set_record e (WebSocketRecord s (tail fr) hb tx))
    | _ => unsupported id e
    end).

Definition set_mqtt_wakeup (id : Z) (callback : option Z) :
    Connections → outcome RegistryError unit * Connections :=
  in_connection id (λ e,
    match record e with
    | MqttRecord v c n o _ => Ok (tt, set_record e (MqttRecord v c n o callback))
    | _ => unsupported id e
    end).

Definition poll_mqtt_chunk (id max_bytes : Z) :
    Connections → outcome RegistryError (option (list Z)) * Connections :=
  in_connection id (λ e,
    match record e with
    | MqttRecord v c n o w =>
        let '(r, c, n) := poll_with_wake_reset max_bytes c n (λ m, m) in
        Ok (r, set_record e (MqttRecord v c n o w))
    | _ => unsupported id e
    end).

Definition enqueue_mqtt_chunk (id : Z) (chunk : list Z) :
    Connections → outcome RegistryError unit * Connections :=
  in_connection id (λ e,
    match record e with
    | MqttRecord v c n o w =>
        match mqtt_enqueue chunk o with
        | (Ok _, o) => Ok (tt, set_record e (MqttRecord v c n o w))
        | (Err Mqtt.SendQueueFull, _) => Err (SendQueueFull id)
        | (Err Mqtt.ConnectionNotFound, _) => Err (ConnectionNotFound id)
        | _ => Panic
        end
    | _ => unsupported id e
    end).

Definition take_handshake {H} (id : Z) (e : ConnectionEntry) (h : option H) (r : ConnectionRecord) :
    outcome RegistryError (H * ConnectionEntry) :=
  match h with
  | Some h => Ok (h, set_record e r)
  | None => Err (HandshakeAlreadyTaken id)
  end.

Definition take_websocket_handshake (id : Z) :
    Connections → outcome RegistryError WsHandshake * Connections :=
  in_connection id (λ e,
    match record e with
    | WebSocketPending h => take_handshake id e h (WebSocketPending None)
    | _ => unsupported id e
    end).

Definition take_http2_handshake (id : Z) : Connections → outcome RegistryError H2Handshake * Connections :=
  in_connection id (λ e,
    match record e with
    | Http2Pending h rq => take_handshake id e h (Http2Pending None rq)
    | _ => unsupported id e
    end).

Definition take_http3_handshake (id : Z) : Connections → outcome RegistryError H3Handshake * Connections :=
  in_connection id (λ e,
    match record e with
    | Http3Pending h c st rq => take_handshake id e h (Http3Pending None c st rq)
    | _ => unsupported id e
    end).

Definition http3_connection (id : Z) (cs : Connections) : outcome RegistryError H3Connection :=
  e ← get_connection id cs;
  match record e with
  | Http3Pending _ c _ _ => ok_or (ConnectionHandleUnavailable id) c
  | _ => unsupported id e
  end.

Definition poll_http3_stream (id : Z) : Connections → outcome RegistryError (option H3Stream) * Connections :=
  in_connection id (λ e,
    match record e with
    | Http3Pending h c st rq => Ok (head st, set_record e (Http3Pending h c (tail st) rq))
    | _ => unsupported id e
    end).

(** The pending requests of an HTTP record, and the record with others. *)
Definition pending_requests (r : ConnectionRecord) : option (list Request * (list Request → ConnectionRecord)) :=
  match r with
  | HttpPending rq => Some (rq, HttpPending)
  | Http2Pending h rq => Some (rq, Http2Pending h)
  | Http3Pending h c st rq => Some (rq, Http3Pending h c st)
  | _ => None
  end.

Definition enqueue_http_request (id : Z) (request : Request) :
    Connections → outcome RegistryError unit * Connections :=
  in_connection id (λ e,
    match pending_requests (record e) with
    | Some (rq, store) =>
        let depth_before := zlen rq in
        let e := set_record e (store (rq ++ [request])) in
        Ok (tt, if (0 <? depth_before) && has_stats e
                then mkEntry (listener_id e) (protocol e) (websocket_protocol e) (endpoint_config e)
                       (has_stats e) (backpressure e ++ [depth_before + 1]) (record e)
                else e)
    | None => unsupported id e
    end).

Definition poll_http_request (id : Z) : Connections → outcome RegistryError (option Request) * Connections :=
  in_connection id (λ e,
    match pending_requests (record e) with
    | Some (rq, store) => Ok (head rq, set_record e (store (tail rq)))
    | None => unsupported id e
    end).

(** [remove_connection]: the tasks it stops. *)
Definition record_effects (r : ConnectionRecord) : list task_effect :=
  match r with
  | MqttRecord _ _ _ _ _ => [ClearWakeup; AbortReader; AbortWriter]
  | RawSocketRecord _ _ _ _ hb _ =>
      [AbortReader; AbortWriter] ++ if (hb : bool) then [AbortHeartbeat] else []
  | WebSocketRecord _ _ hb _ =>
      [AbortReader] ++ (if (hb : bool) then [AbortHeartbeat] else []) ++ [DropSender; AbortWriterAfterGrace]
  | _ => []
  end.

Definition remove_connection (id : Z) (cs : Connections) :
    outcome RegistryError (list task_effect) * Connections :=
  match cs !! id with
  | None => (Err (ConnectionNotFound id), cs)
  | Some e => (Ok (record_effects (record e)), delete id cs)
  end.

(** [self.connections.lock().insert(connection_id, entry)] of the
    [register_*_connection] functions. *)
Definition insert_connection (id : Z) (e : ConnectionEntry) (cs : Connections) : Connections :=
  <[id := e]> cs.

(** The entries the registrations store, on a platform with file segments. *)
Definition rawsocket_entry (listener : Z) (config : Config) (heartbeat : bool) (serializer : Serializer)
    (max_exponent : Z) (send_tx : SendChannel) : ConnectionEntry :=
  mkEntry listener RawSocketProtocol None config false []
    (RawSocketRecord serializer max_exponent true [] heartbeat send_tx).

Definition websocket_entry (listener : Z) (config : Config) (heartbeat : bool) (serializer : Serializer)
    (selected : option str) (send_tx : SendChannel) : ConnectionEntry :=
  mkEntry listener WebSocketProtocol selected config false []
    (WebSocketRecord serializer [] heartbeat send_tx).

Definition mqtt_entry (listener : Z) (config : Config) (version : Z) (websocket : bool)
    (outbound : MqttOutboundQueue) : ConnectionEntry :=
  mkEntry listener MqttProtocol (if websocket then Some (lit "mqtt") else None) config false []
    (MqttRecord version (mkMqttInbound (mkChunkReceiver [] true) None) false outbound None).

Definition register_websocket_connection (id listener : Z) (config : Config) (handshake : WsHandshake)
    (cs : Connections) : Connections :=
  insert_connection id
    (mkEntry listener WebSocketProtocol None config false [] (WebSocketPending (Some handshake))) cs.

Definition register_http_connection (id listener : Z) (config : Config) (cs : Connections) : Connections :=
  insert_connection id (mkEntry listener HttpProtocol None config false [] (HttpPending [])) cs.

Definition register_http2_connection (id listener : Z) (config : Config) (handshake : H2Handshake)
    (cs : Connections) : Connections :=
  insert_connection id
    (mkEntry listener Http2Protocol None config true [] (Http2Pending (Some handshake) [])) cs.

Definition register_http3_connection (id listener : Z) (config : Config) (handshake : H3Handshake)
    (connection : option H3Connection) (cs : Connections) : Connections :=
  insert_connection id
    (mkEntry listener Http3Protocol None config true []
       (Http3Pending (Some handshake) connection [] [])) cs.

(** The removal in [reject_websocket_connection], behind its response. *)
Definition reject_websocket_connection (id : Z) (cs : Connections) : Connections := delete id cs.

(** [finish_http_connection]: the listener whose queue gets the event, if the
    connection counted. *)
Definition finish_http_connection (id : Z) (cs : Connections) : option Z * Connections :=
  match cs !! id with
  | None => (None, cs)
  | Some e => (if has_stats e then Some (listener_id e) else None, delete id cs)
  end.

(** What [accept_websocket_connection] reads of the pending entry; the lock is
    released before the upgraded connection is registered under the same id. *)
Definition accept_websocket_entry (id : Z) (cs : Connections) : outcome RegistryError (Z * Config) :=
  e ← get_connection id cs; Ok (listener_id e, endpoint_config e).

(** ** Registration and the tasks it spawns

    What a registration does that others can see, in order. *)
Inductive RegisterAction : Type := SpawnTasks | SpawnCloseWatcher | InsertEntry (e : ConnectionEntry).

Definition register_rawsocket_connection (listener : Z) (config : Config) (capacity : Z)
    (heartbeat : bool) (serializer : Serializer) (max_exponent : Z) :
    outcome RegistryError (list RegisterAction) :=
  send_tx ← mpsc_channel capacity;
  Ok [SpawnTasks; SpawnCloseWatcher;
      InsertEntry (rawsocket_entry listener config heartbeat serializer max_exponent send_tx)].

Definition register_established_websocket_connection (listener : Z) (config : Config) (capacity : Z)
    (heartbeat : bool) (serializer : Serializer) (selected : option str) :
    outcome RegistryError (list RegisterAction) :=
  send_tx ← mpsc_channel capacity;
  Ok [SpawnTasks; SpawnCloseWatcher;
      InsertEntry (websocket_entry listener config heartbeat serializer selected send_tx)].

Definition register_mqtt_stream_connection (listener : Z) (config : Config) (capacity version : Z)
    (websocket : bool) : outcome EnqueueError (list RegisterAction) :=
  outbound ← MqttOutboundQueue_new capacity;
  Ok [SpawnTasks; InsertEntry (mqtt_entry listener config version websocket outbound);
      SpawnCloseWatcher].

Inductive close_watcher : Type := NotSpawned | AwaitsSignal | WatcherDone.

(** A registration in progress: the actions left, the reader and writer tasks
    still running, the signals they sent, the close watcher, and the table. *)
Record Registration : Type := mkRegistration {
  actions_left : list RegisterAction;
  tasks_running : nat;
  close_signals : nat;
  watcher : close_watcher;
  table : Connections;
}.

Definition registration_start (actions : list RegisterAction) (cs : Connections) : Registration :=
  mkRegistration actions 0 0 NotSpawned cs.

(** The registering thread, the tasks and the watcher run in any order; the
    watcher calls [close_connection] some time after the first signal. *)
Inductive registration_step (id : Z) : Registration → Registration → Prop :=
  | step_spawn_tasks l k n w cs :
      registration_step id (mkRegistration (SpawnTasks :: l) k n w cs) (mkRegistration l (2 + k) n w cs)
  | step_spawn_watcher l k n w cs :
      registration_step id (mkRegistration (SpawnCloseWatcher :: l) k n w cs)
        (mkRegistration l k n AwaitsSignal cs)
  | step_insert e l k n w cs :
      registration_step id (mkRegistration (InsertEntry e :: l) k n w cs)
        (mkRegistration l k n w (insert_connection id e cs))
  | step_task_ends l k n w cs :
      registration_step id (mkRegistration l (S k) n w cs) (mkRegistration l k (S n) w cs)
  | step_watcher_closes l k n cs :
      registration_step id (mkRegistration l k (S n) AwaitsSignal cs)
        (mkRegistration l k n WatcherDone (remove_connection id cs).2).

(** Nothing is left to run. *)
Definition settled (id : Z) (s : Registration) : Prop := ∀ s', ¬ registration_step id s s'.

(** ** Well-formed tables *)
Definition record_matches (e : ConnectionEntry) : Prop :=
  match protocol e, record e with
  | RawSocketProtocol, RawSocketRecord _ _ _ _ _ tx | WebSocketProtocol, WebSocketRecord _ _ _ tx =>
      zlen (channel_queue tx) ≤ Z.max 0 (channel_capacity tx)
  | MqttProtocol, MqttRecord _ _ _ _ _ | WebSocketProtocol, WebSocketPending _
  | HttpProtocol, HttpPending _ | Http2Protocol, Http2Pending _ _
  | Http3Protocol, Http3Pending _ _ _ _ => True
  | _, _ => False
  end.

Definition table_ok (s : Z * Connections) : Prop :=
  map_Forall (λ id e, id < s.1 ∧ record_matches e) s.2.

(** ** All threads together

    What the callers of the [register] functions bring, under an id that they
    allocated before. *)
Inductive NewConnection : Type :=
  | NewRawSocket (listener : Z) (config : Config) (capacity : Z) (heartbeat : bool)
      (serializer : Serializer) (max_exponent : Z)
  | NewWebSocket (listener : Z) (config : Config) (capacity : Z) (heartbeat : bool)
      (serializer : Serializer) (selected : option str)
  | NewMqtt (listener : Z) (config : Config) (capacity version : Z) (websocket : bool)
  | NewWebSocketPending (listener : Z) (config : Config) (handshake : WsHandshake)
  | NewHttp (listener : Z) (config : Config)
  | NewHttp2 (listener : Z) (config : Config) (handshake : H2Handshake)
  | NewHttp3 (listener : Z) (config : Config) (handshake : H3Handshake) (connection : option H3Connection).

(** The table after a registration; a queue of no capacity panics before. *)
Definition register_connection (id : Z) (c : NewConnection) (cs : Connections) : outcome RegistryError Connections :=
  match c with
  | NewRawSocket l config capacity hb s x =>
      tx ← mpsc_channel capacity; Ok (insert_connection id (rawsocket_entry l config hb s x tx) cs)
  | NewWebSocket l config capacity hb s selected =>
      tx ← mpsc_channel capacity; Ok (insert_connection id (websocket_entry l config hb s selected tx) cs)
  | NewMqtt l config capacity version websocket =>
      match MqttOutboundQueue_new capacity with
      | Ok outbound => Ok (insert_connection id (mqtt_entry l config version websocket outbound) cs)
      | _ => Panic
      end
  | NewWebSocketPending l config h => Ok (register_websocket_connection id l config h cs)
  | NewHttp l config => Ok (register_http_connection id l config cs)
  | NewHttp2 l config h => Ok (register_http2_connection id l config h cs)
  | NewHttp3 l config h c => Ok (register_http3_connection id l config h c cs)
  end.

(** The shared state, and what threads hold between their steps: the ids that
    were allocated and are not registered yet, and what the upgrades being
    accepted have read. *)
Record RegistryState : Type := mkRegistryState {
  next_connection_id : Z;
  connections : Connections;
  reserved : list Z;
  accepting : list (Z * (Z * Config));
}.

Definition registry_ok (s : RegistryState) : Prop :=
  table_ok (next_connection_id s, connections s) ∧ NoDup (reserved s) ∧
  (∀ id, id ∈ reserved s → id < next_connection_id s ∧ connections s !! id = None) ∧
  (∀ p, p ∈ accepting s → p.1 < next_connection_id s ∧ p.1 ∉ reserved s).

(** One step of a thread under the lock, or of the id counter.  Every caller
    registers an id that it allocated, [register_http3_pending] excepted: that
    one, for tests and diagnostics, takes any id, and is left out. *)
Inductive RegistryCall : Type :=
  | CallAllocate
  | CallRegister (id : Z) (c : NewConnection)
  | CallAcceptRead (id : Z)
  | CallAcceptRegister (id capacity : Z) (heartbeat : bool) (serializer : Serializer) (selected : option str)
  | CallReject (id : Z)
  | CallFinishHttp (id : Z)
  | CallEnqueueFrame (id : Z) (frame : OutboundFrame)
  | CallEnqueueFileFrame (id : Z) (frame : OutboundFrame)
  | CallPollMessage (id : Z)
  | CallSetMqttWakeup (id : Z) (callback : option Z)
  | CallPollMqttChunk (id max_bytes : Z)
  | CallEnqueueMqttChunk (id : Z) (chunk : list Z)
  | CallTakeWebsocketHandshake (id : Z)
  | CallTakeHttp2Handshake (id : Z)
  | CallTakeHttp3Handshake (id : Z)
  | CallPollHttp3Stream (id : Z)
  | CallEnqueueHttpRequest (id : Z) (request : Request)
  | CallPollHttpRequest (id : Z)
  | CallClose (id : Z).

Definition set_connections (cs : Connections) (s : RegistryState) : RegistryState :=
  mkRegistryState (next_connection_id s) cs (reserved s) (accepting s).

(** A registration, by the thread that holds the id: registered or panicked, it
    holds it no more. *)
Definition register_reserved (id : Z) (c : NewConnection) (s : RegistryState) : RegistryState :=
  if bool_decide (id ∈ reserved s) then
    mkRegistryState (next_connection_id s) (match register_connection id c (connections s) with Ok cs => cs | _ => connections s end)
      (filter (λ id', id' ≠ id) (reserved s)) (accepting s)
  else s.

(** The end of [accept_websocket_connection], by a thread that has read. *)
Definition accept_register (id capacity : Z) (heartbeat : bool) (serializer : Serializer) (selected : option str)
    (s : RegistryState) : RegistryState :=
  match list_find (λ p, p.1 = id) (accepting s) with
  | Some (i, (_, (listener, config))) =>
      mkRegistryState (next_connection_id s)
        (match register_connection id (NewWebSocket listener config capacity heartbeat serializer selected) (connections s) with
         | Ok cs => cs | _ => connections s end)
        (reserved s) (delete i (accepting s))
  | None => s
  end.

(** What the calls on one connection make of the table. *)
Definition connection_call (c : RegistryCall) (cs : Connections) : Connections :=
  match c with
  | CallReject id => reject_websocket_connection id cs
  | CallFinishHttp id => (finish_http_connection id cs).2
  | CallEnqueueFrame id f => (enqueue_frame id f cs).2
  | CallEnqueueFileFrame id f => (enqueue_file_frame id f cs).2
  | CallPollMessage id => (poll_message id cs).2
  | CallSetMqttWakeup id cb => (set_mqtt_wakeup id cb cs).2
  | CallPollMqttChunk id max => (poll_mqtt_chunk id max cs).2
  | CallEnqueueMqttChunk id chunk => (enqueue_mqtt_chunk id chunk cs).2
  | CallTakeWebsocketHandshake id => (take_websocket_handshake id cs).2
  | CallTakeHttp2Handshake id => (take_http2_handshake id cs).2
  | CallTakeHttp3Handshake id => (take_http3_handshake id cs).2
  | CallPollHttp3Stream id => (poll_http3_stream id cs).2
  | CallEnqueueHttpRequest id r => (enqueue_http_request id r cs).2
  | CallPollHttpRequest id => (poll_http_request id cs).2
  | CallClose id => (remove_connection id cs).2
  | CallAllocate | CallRegister _ _ | CallAcceptRead _ | CallAcceptRegister _ _ _ _ _ => cs
  end.

Definition run_call (c : RegistryCall) (s : RegistryState) : RegistryState :=
  match c with
  | CallAllocate =>
      match allocate_connection_id (next_connection_id s) with
      | (Ok id, next) => mkRegistryState next (connections s) (id :: reserved s) (accepting s)
      | (_, next) => mkRegistryState next (connections s) (reserved s) (accepting s)
      end
  | CallRegister id new => register_reserved id new s
  | CallAcceptRead id =>
      match accept_websocket_entry id (connections s) with
      | Ok p => mkRegistryState (next_connection_id s) (connections s) (reserved s) ((id, p) :: accepting s)
      | _ => s
      end
  | CallAcceptRegister id capacity hb ser selected => accept_register id capacity hb ser selected s
  | c => set_connections (connection_call c (connections s)) s
  end.

Definition run_calls (l : list RegistryCall) (s : RegistryState) : RegistryState := foldl (flip run_call) s l.

(** The connection a call names; an allocation names none. *)
Definition call_target (c : RegistryCall) : option Z :=
  match c with
  | CallAllocate => None
  | CallRegister id _ | CallAcceptRead id | CallAcceptRegister id _ _ _ _ | CallReject id | CallFinishHttp id
  | CallEnqueueFrame id _ | CallEnqueueFileFrame id _ | CallPollMessage id | CallSetMqttWakeup id _
  | CallPollMqttChunk id _ | CallEnqueueMqttChunk id _ | CallTakeWebsocketHandshake id
  | CallTakeHttp2Handshake id | CallTakeHttp3Handshake id | CallPollHttp3Stream id
  | CallEnqueueHttpRequest id _ | CallPollHttpRequest id | CallClose id => Some id
  end.

(** The calls whose thread is done with the id: nobody registers it any more. *)
Definition unclaimed (id : Z) (s : RegistryState) : Prop :=
  id < next_connection_id s ∧ id ∉ reserved s ∧ ∀ p, p ∈ accepting s → p.1 ≠ id.

(** ** Lemmas *)
Lemma in_connection_cases {A} id (f : ConnectionEntry → outcome RegistryError (A * ConnectionEntry)) cs :
  (in_connection id f cs).2 = cs ∨
  ∃ e a e', cs !! id = Some e ∧ f e = Ok (a, e') ∧ in_connection id f cs = (Ok a, <[id := e']> cs).
Proof.
  unfold in_connection, get_connection. destruct (cs !! id) as [e|] eqn:E; simpl; [|by left].
  destruct (f e) as [[a e']|err| |] eqn:F; [|by left..]. right. by exists e, a, e'.
Qed.

(** Connections other than [id] stay as they are, and none appears. *)
Definition only_touches (id : Z) (g : Connections → Connections) : Prop :=
  ∀ cs, (∀ id', id' ≠ id → g cs !! id' = cs !! id') ∧ (cs !! id = None → g cs !! id = None).

Lemma in_connection_touches {A} id (f : ConnectionEntry → outcome RegistryError (A * ConnectionEntry)) :
  only_touches id (λ cs, (in_connection id f cs).2).
Proof.
  intros cs. cbv beta. destruct (in_connection_cases id f cs) as [->|(e & a & e' & E & F & ->)]; [done|].
  cbn [snd].
  split; [intros id' ?; by rewrite lookup_insert_ne|]. intros; congruence.
Qed.

Lemma remove_connection_touches id : only_touches id (λ cs, (remove_connection id cs).2).
Proof.
  intros cs. cbv beta. unfold remove_connection. destruct (cs !! id) eqn:E; [|done]. cbn [snd].
  split; [intros; by rewrite lookup_delete_ne|congruence].
Qed.

Lemma remove_connection_gone id cs : (remove_connection id cs).2 !! id = None.
Proof. unfold remove_connection. destruct (cs !! id) eqn:E; simpl; [apply lookup_delete_eq|done]. Qed.

(** An operation under the lock that keeps entries well formed. *)
Definition keeps_records {A} (f : ConnectionEntry → outcome RegistryError (A * ConnectionEntry)) : Prop :=
  ∀ e a e', record_matches e → f e = Ok (a, e') → record_matches e'.

Lemma in_connection_ok {A} next id (f : ConnectionEntry → outcome RegistryError (A * ConnectionEntry)) cs :
  keeps_records f → table_ok (next, cs) → table_ok (next, (in_connection id f cs).2).
Proof.
  intros Hf Hok. destruct (in_connection_cases id f cs) as [->|(e & a & e' & E & F & ->)]; [done|].
  destruct (Hok id e E) as [Hid He]. apply map_Forall_insert_2; [|done]. split; [done|]. by eapply Hf.
Qed.

Lemma try_send_bounded f c c' :
  try_send f c = Sent c' → zlen (channel_queue c') ≤ Z.max 0 (channel_capacity c').
Proof.
  unfold try_send. destruct (negb _); [done|]. destruct (_ <=? _) eqn:E; [done|].
  intros [= <-]. cbn. rewrite zlen_app. apply Z.leb_gt in E. change (zlen [f]) with 1. lia.
Qed.

Ltac solve_keeps :=
  let e := fresh "e" in let a := fresh "a" in let e' := fresh "e'" in
  let Hm := fresh "Hm" in let Hf := fresh "Hf" in
  intros e a e' Hm Hf; destruct e as [? p ? ? ? ? rec];
  destruct p, rec; try (exfalso; exact Hm);
  unfold unsupported, sent_on, take_handshake, poll_with_wake_reset, set_record in *; simpl in *;
  repeat case_match; simplify_eq/=; try exact I;
  try first [exact Hm | eapply try_send_bounded; eassumption].

Lemma enqueue_frame_ok next id f cs : table_ok (next, cs) → table_ok (next, (enqueue_frame id f cs).2).
Proof. apply in_connection_ok. solve_keeps. Qed.

Lemma enqueue_file_frame_ok next id f cs :
  table_ok (next, cs) → table_ok (next, (enqueue_file_frame id f cs).2).
Proof. apply in_connection_ok. solve_keeps. Qed.

Lemma poll_message_ok next id cs : table_ok (next, cs) → table_ok (next, (poll_message id cs).2).
Proof. apply in_connection_ok. solve_keeps. Qed.

Lemma set_mqtt_wakeup_ok next id cb cs :
  table_ok (next, cs) → table_ok (next, (set_mqtt_wakeup id cb cs).2).
Proof. apply in_connection_ok. solve_keeps. Qed.

Lemma poll_mqtt_chunk_ok next id max cs :
  table_ok (next, cs) → table_ok (next, (poll_mqtt_chunk id max cs).2).
Proof. apply in_connection_ok. solve_keeps. Qed.

Lemma enqueue_mqtt_chunk_ok next id chunk cs :
  table_ok (next, cs) → table_ok (next, (enqueue_mqtt_chunk id chunk cs).2).
Proof. apply in_connection_ok. solve_keeps. Qed.

Lemma take_websocket_handshake_ok next id cs :
  table_ok (next, cs) → table_ok (next, (take_websocket_handshake id cs).2).
Proof. apply in_connection_ok. solve_keeps. Qed.

Lemma take_http2_handshake_ok next id cs :
  table_ok (next, cs) → table_ok (next, (take_http2_handshake id cs).2).
Proof. apply in_connection_ok. solve_keeps. Qed.

Lemma take_http3_handshake_ok next id cs :
  table_ok (next, cs) → table_ok (next, (take_http3_handshake id cs).2).
Proof. apply in_connection_ok. solve_keeps. Qed.

Lemma poll_http3_stream_ok next id cs :
  table_ok (next, cs) → table_ok (next, (poll_http3_stream id cs).2).
Proof. apply in_connection_ok. solve_keeps. Qed.

Lemma enqueue_http_request_ok next id r cs :
  table_ok (next, cs) → table_ok (next, (enqueue_http_request id r cs).2).
Proof. apply in_connection_ok. solve_keeps. Qed.

Lemma poll_http_request_ok next id cs :
  table_ok (next, cs) → table_ok (next, (poll_http_request id cs).2).
Proof. apply in_connection_ok. solve_keeps. Qed.

Lemma remove_connection_ok next id cs :
  table_ok (next, cs) → table_ok (next, (remove_connection id cs).2).
Proof.
  intros Hok. unfold remove_connection. destruct (cs !! id); [|done].
  by apply map_Forall_delete.
Qed.

Lemma delete_ok next id cs : table_ok (next, cs) → table_ok (next, delete id cs).
Proof. intros. by apply map_Forall_delete. Qed.

Lemma finish_http_connection_ok next id cs :
  table_ok (next, cs) → table_ok (next, (finish_http_connection id cs).2).
Proof. intros Hok. unfold finish_http_connection. destruct (cs !! id); [by apply delete_ok|done]. Qed.

Lemma delete_touches id : only_touches id (delete id : Connections → Connections).
Proof. intros cs. split; [intros; by rewrite lookup_delete_ne|intros; apply lookup_delete_eq]. Qed.

Lemma finish_http_connection_touches id : only_touches id (λ cs, (finish_http_connection id cs).2).
Proof.
  intros cs. cbv beta. unfold finish_http_connection. destruct (cs !! id) eqn:E; [|done]. cbn [snd].
  split; [intros; by rewrite lookup_delete_ne|congruence].
Qed.

Lemma connection_call_ok c next cs : table_ok (next, cs) → table_ok (next, connection_call c cs).
Proof.
  destruct c; simpl; auto using enqueue_frame_ok, enqueue_file_frame_ok, poll_message_ok,
    remove_connection_ok, set_mqtt_wakeup_ok, poll_mqtt_chunk_ok, enqueue_mqtt_chunk_ok,
    take_websocket_handshake_ok, take_http2_handshake_ok, take_http3_handshake_ok,
    poll_http3_stream_ok, enqueue_http_request_ok, poll_http_request_ok, delete_ok, finish_http_connection_ok.
Qed.

Lemma connection_call_touches c id : call_target c = Some id → only_touches id (connection_call c).
Proof.
  destruct c; intros Ht; simplify_eq/=;
    first [apply in_connection_touches | apply remove_connection_touches | apply delete_touches
          | apply finish_http_connection_touches | done].
Qed.

(** No call on a connection puts an entry where there was none. *)
Lemma connection_call_absent c id cs : cs !! id = None → connection_call c cs !! id = None.
Proof.
  intros Hn. destruct (call_target c) as [id'|] eqn:E; [|by destruct c].
  destruct (connection_call_touches c id' E cs) as [Hother Hid].
  destruct (decide (id = id')) as [->|]; [by apply Hid|]. by rewrite Hother.
Qed.

(** A registration stores a matching entry under its id, or panics. *)
Lemma register_connection_spec id c cs :
  register_connection id c cs = Panic ∨
  ∃ e, register_connection id c cs = Ok (<[id := e]> cs) ∧ record_matches e.
Proof.
  unfold register_connection, mpsc_channel, MqttOutboundQueue_new. destruct c; simpl;
    repeat case_match; simplify_eq/=; try (by left); right; eexists; (split; [reflexivity|]);
    unfold record_matches; simpl; try done; rewrite zlen_nil; lia.
Qed.

(** What a step of [register_connection] does to the table. *)
Lemma registered_ok next id c cs : id < next → table_ok (next, cs) →
  table_ok (next, match register_connection id c cs with Ok cs => cs | _ => cs end).
Proof.
  intros Hid Hok. destruct (register_connection_spec id c cs) as [->|(e & -> & He)]; [done|].
  by apply map_Forall_insert_2.
Qed.

Lemma registered_other id id' c cs : id' ≠ id →
  match register_connection id c cs with Ok cs => cs | _ => cs end !! id' = cs !! id'.
Proof.
  intros Hne. destruct (register_connection_spec id c cs) as [->|(e & -> & He)]; [done|]. by rewrite lookup_insert_ne.
Qed.

Lemma table_ok_next next next' cs : next ≤ next' → table_ok (next, cs) → table_ok (next', cs).
Proof. intros Hn Hok. eapply map_Forall_impl; [exact Hok|]. simpl. intros i x [? ?]. split; [lia|done]. Qed.

Lemma allocate_spec next : match allocate_connection_id next with
  | (Ok id, next') => id = next ∧ next' = next + 1
  | (_, next') => next' = next
  end.
Proof. unfold allocate_connection_id, advance_resource. by destruct (_ || _). Qed.

Lemma accepting_found id s i id' listener config :
  list_find (λ p : Z * (Z * Config), p.1 = id) (accepting s) = Some (i, (id', (listener, config))) →
  id' = id ∧ (id, (listener, config)) ∈ accepting s.
Proof. intros (Hl & Hp & _)%list_find_Some. simpl in Hp. subst id'. split; [done|]. by eapply list_elem_of_lookup_2. Qed.

Lemma connection_step_ok c s : registry_ok s → registry_ok (set_connections (connection_call c (connections s)) s).
Proof.
  intros (Ht & Hd & Hr & Ha). split; [by apply connection_call_ok|]. split; [done|]. split; [|done].
  intros id Hid. destruct (Hr id Hid). split; [done|]. by apply connection_call_absent.
Qed.

Lemma allocate_ok s : registry_ok s → registry_ok (run_call CallAllocate s).
Proof.
  intros (Ht & Hd & Hr & Ha). simpl. pose proof (allocate_spec (next_connection_id s)) as Hs.
  destruct (allocate_connection_id _) as [[id|e| |] next]; [destruct Hs as [-> ->]|subst next..]; try done.
  set (n := next_connection_id s) in *. split; [by apply (table_ok_next n); [simpl; lia|]|]. simpl. split; [|split].
  - constructor; [|done]. intros Hin. destruct (Hr _ Hin). lia.
  - intros id [->|Hin]%elem_of_cons; [|destruct (Hr _ Hin); split; [lia|done]]. split; [lia|].
    destruct (connections s !! n) as [e|] eqn:E; [|done]. apply Ht in E as [? _]. simpl in *. unfold n in *. lia.
  - intros p Hp. destruct (Ha p Hp). split; [lia|]. rewrite elem_of_cons. intros [Heq|]; [lia|done].
Qed.

Lemma register_ok id c s : registry_ok s → registry_ok (register_reserved id c s).
Proof.
  intros Hok. unfold register_reserved. case_bool_decide as Hin; [|done]. destruct Hok as (Ht & Hd & Hr & Ha).
  destruct (Hr id Hin) as [Hn Hno]. split; [by apply registered_ok|]. simpl. split; [by apply NoDup_filter|]. split.
  - intros id' [Hne Hin']%list_elem_of_filter. destruct (Hr id' Hin'). split; [done|]. by rewrite registered_other.
  - intros p Hp. destruct (Ha p Hp). split; [done|]. by intros [_ ?]%list_elem_of_filter.
Qed.

Lemma accept_read_ok id s : registry_ok s → registry_ok (run_call (CallAcceptRead id) s).
Proof.
  intros Hok. simpl. unfold accept_websocket_entry, get_connection. destruct (connections s !! id) as [e|] eqn:E; [|done].
  destruct Hok as (Ht & Hd & Hr & Ha). split; [done|]. split; [done|]. split; [done|]. simpl.
  intros p [->|Hp]%elem_of_cons; [|by apply Ha]. split; [by apply Ht in E as [? _]|]. intros Hin.
  destruct (Hr id Hin). simpl in *. congruence.
Qed.

Lemma accept_register_ok id n hb ser sel s : registry_ok s → registry_ok (accept_register id n hb ser sel s).
Proof.
  intros Hok. unfold accept_register. destruct (list_find _ _) as [[i [id' [listener config]]]|] eqn:E; [|done].
  apply accepting_found in E as [-> Hin]. destruct Hok as (Ht & Hd & Hr & Ha). destruct (Ha _ Hin) as [Hn Hno]. simpl in Hn, Hno.
  split; [by apply registered_ok|]. split; [done|]. split; cbn [reserved connections accepting next_connection_id].
  - intros id' Hin'. destruct (Hr id' Hin'). split; [done|]. rewrite registered_other; [done|]. by intros ->.
  - intros p Hp%list_elem_of_delete_inv. by apply Ha.
Qed.

Lemma run_call_ok c s : registry_ok s → registry_ok (run_call c s).
Proof.
  intros Hok. destruct c; try by apply connection_step_ok.
  - by apply allocate_ok.
  - by apply register_ok.
  - by apply accept_read_ok.
  - by apply accept_register_ok.
Qed.

(** A call that does not name [id] leaves its entry. *)
Lemma run_call_other c s id : call_target c ≠ Some id → connections (run_call c s) !! id = connections s !! id.
Proof.
  intros Hne. assert (connection_call c (connections s) !! id = connections s !! id) as Hother.
  { destruct (call_target c) as [id'|] eqn:E; [|by destruct c].
    apply (connection_call_touches c id' E). congruence. }
  destruct c; try exact Hother; simpl in *.
  - by destruct (allocate_connection_id _) as [[]].
  - unfold register_reserved. case_bool_decide; [|done]. apply registered_other. congruence.
  - by destruct (accept_websocket_entry _ _).
  - unfold accept_register. destruct (list_find _ _) as [[i [id' [listener config]]]|]; [|done].
    apply registered_other. congruence.
Qed.

(** An id that no thread claims stays unclaimed, unless an upgrade reads it. *)
Lemma run_call_unclaimed c s id : unclaimed id s → c ≠ CallAcceptRead id ∨ connections s !! id = None →
  unclaimed id (run_call c s).
Proof.
  intros (Hn & Hr & Ha) Hc. destruct c; try done; simpl.
  - pose proof (allocate_spec (next_connection_id s)) as Hs.
    destruct (allocate_connection_id _) as [[id'|e| |] next]; [destruct Hs as [-> ->]|subst next..]; try done.
    split; [simpl; lia|]. split; [|done]. simpl. rewrite elem_of_cons. intros [->|]; [lia|done].
  - unfold register_reserved. case_bool_decide; [|done]. split; [done|]. split; [|done].
    simpl. by intros [_ ?]%list_elem_of_filter.
  - unfold accept_websocket_entry, get_connection. destruct (connections s !! id0) as [e|] eqn:E; [|done].
    split; [done|]. split; [done|]. simpl. intros p [->|Hp]%elem_of_cons; [|by apply Ha]. simpl. intros ->.
    destruct Hc; congruence.
  - unfold accept_register. destruct (list_find _ _) as [[i [id' [listener config]]]|]; [|done].
    split; [done|]. split; [done|]. simpl. intros p Hp%list_elem_of_delete_inv. by apply Ha.
Qed.

Lemma run_call_absent c s id : unclaimed id s → connections s !! id = None → connections (run_call c s) !! id = None.
Proof.
  intros (Hn & Hr & Ha) Hnone. destruct (decide (call_target c = Some id)) as [E|E]; [|by rewrite run_call_other].
  pose proof (connection_call_absent c id _ Hnone) as Habs. destruct c; try exact Habs; simpl in *; simplify_eq.
  - unfold register_reserved. by rewrite bool_decide_eq_false_2.
  - by destruct (accept_websocket_entry _ _).
  - unfold accept_register. destruct (list_find _ _) as [[i [id' [listener config]]]|] eqn:Ef; [|done].
    apply accepting_found in Ef as [-> Hin]. by apply Ha in Hin.
Qed.

Lemma run_calls_cons c l s : run_calls (c :: l) s = run_calls l (run_call c s).
Proof. done. Qed.

(** C17: From a well-formed state, in every order of the steps of all threads,
    it stays well formed: every entry's record is the one of its protocol, no send
    queue holds more than its capacity, every id was allocated, and no id is held
    by two registrations or in the table while one holds it.  A connection no step
    names keeps its entry as it is.  An id that is out of the table, or is closed
    among the steps, stays out for good once its registration is over, if no
    upgrade of it is under way.  That is the only exception: an upgrade that has
    read the entry puts the id back after a close. *)
Theorem registry_invariant (l : list RegistryCall) (s : RegistryState) : registry_ok s →
  registry_ok (run_calls l s) ∧
  (∀ id, Forall (λ c, call_target c ≠ Some id) l → connections (run_calls l s) !! id = connections s !! id) ∧
  (∀ id, unclaimed id s →
     connections s !! id = None ∨ CallClose id ∈ l ∧ CallAcceptRead id ∉ l →
     connections (run_calls l s) !! id = None) ∧
  (∀ id e capacity hb ser sel, connections s !! id = Some e → capacity ≠ 0 →
     ∃ e', connections (run_calls [CallAcceptRead id; CallClose id; CallAcceptRegister id capacity hb ser sel] s) !! id
       = Some e' ∧ protocol e' = WebSocketProtocol).
Proof.
  intros Hok. split; [|split; [|split]].
  - revert s Hok. induction l as [|c l IH]; intros s Hok; [done|]. rewrite run_calls_cons. by apply IH, run_call_ok.
  - intros id Hl. clear Hok. revert s. induction Hl as [|c l Hc _ IH]; intros s; [done|].
    rewrite run_calls_cons, IH. by apply run_call_other.
  - intros id. clear Hok. revert s. induction l as [|c l IH]; intros s Hun Hgone.
    { destruct Hgone as [?|[Hin _]]; [done|by apply not_elem_of_nil in Hin]. }
    rewrite run_calls_cons. assert (unclaimed id (run_call c s)) as Hun'.
    { apply run_call_unclaimed; [done|]. destruct Hgone as [?|[_ Hno]]; [by right|left]. intros ->. apply Hno. by left. }
    apply IH; [done|]. destruct Hgone as [Hnone|[[<-|Hin]%elem_of_cons Hno]].
    + left. by apply run_call_absent.
    + left. apply remove_connection_gone.
    + right. split; [done|]. intros ?. apply Hno. by right.
  - intros id e capacity hb ser sel He Hcap. rewrite !run_calls_cons.
    assert (run_call (CallAcceptRead id) s = mkRegistryState (next_connection_id s) (connections s) (reserved s)
      ((id, (listener_id e, endpoint_config e)) :: accepting s)) as ->
      by (simpl; unfold accept_websocket_entry, get_connection; by rewrite He).
    simpl. unfold accept_register. cbn [accepting set_connections list_find fst]. rewrite decide_True by done.
    unfold register_connection, mpsc_channel. rewrite (proj2 (Z.eqb_neq _ _)) by done. simpl.
    eexists. split; [apply lookup_insert_eq|done].
Qed.

(** ** Pending HTTP requests

    The requests of a connection as the queue they should be: [Some r] is
    queued, [None] polls. *)
Fixpoint request_queue (ops : list (option Request)) (q : list Request) :
    list (option Request) * list Request :=
  match ops with
  | [] => ([], q)
  | Some r :: ops => request_queue ops (q ++ [r])
  | None :: ops => let '(out, q') := request_queue ops (tail q) in (head q :: out, q')
  end.

(** The same calls on the table: what the polls return, and the table. *)
Fixpoint http_requests (id : Z) (ops : list (option Request)) (cs : Connections) :
    list (outcome RegistryError (option Request)) * Connections :=
  match ops with
  | [] => ([], cs)
  | Some r :: ops => http_requests id ops (enqueue_http_request id r cs).2
  | None :: ops =>
      let '(r, cs) := poll_http_request id cs in
      let '(out, cs) := http_requests id ops cs in (r :: out, cs)
  end.

Definition has_requests (id : Z) (q : list Request) (cs : Connections) : Prop :=
  ∃ e store, cs !! id = Some e ∧ pending_requests (record e) = Some (q, store).

Lemma pending_requests_store r q store q' :
  pending_requests r = Some (q, store) → ∃ store', pending_requests (store q') = Some (q', store').
Proof. destruct r; simpl; intros; simplify_eq; simpl; by eexists. Qed.

Lemma enqueue_http_request_spec id q r cs :
  has_requests id q cs →
  (enqueue_http_request id r cs).1 = Ok () ∧ has_requests id (q ++ [r]) (enqueue_http_request id r cs).2.
Proof.
  intros (e & store & E & Hp). unfold enqueue_http_request, in_connection, get_connection.
  rewrite E. simpl. rewrite Hp. simpl. split; [done|].
  destruct (pending_requests_store (record e) q store (q ++ [r]) Hp) as [store' Hs].
  eexists _, store'. split; [apply lookup_insert_eq|]. by destruct (_ && _).
Qed.

Lemma poll_http_request_spec id q cs :
  has_requests id q cs →
  (poll_http_request id cs).1 = Ok (head q) ∧ has_requests id (tail q) (poll_http_request id cs).2.
Proof.
  intros (e & store & E & Hp). unfold poll_http_request, in_connection, get_connection.
  rewrite E. simpl. rewrite Hp. simpl. split; [done|].
  destruct (pending_requests_store (record e) q store (tail q) Hp) as [store' Hs].
  eexists _, store'. split; [apply lookup_insert_eq|done].
Qed.

(** The requests of an HTTP connection, of any version, are a queue: every
    interleaving of enqueues and polls returns what the queue returns, in
    order, none lost or repeated, and leaves the queue's contents. *)
Theorem http_requests_queue (id : Z) (ops : list (option Request)) (q : list Request) cs :
  has_requests id q cs →
  (http_requests id ops cs).1 = Ok <$> (request_queue ops q).1 ∧
  has_requests id (request_queue ops q).2 (http_requests id ops cs).2.
Proof.
  revert q cs. induction ops as [|[r|] ops IH]; intros q cs Hq; simpl; [done| |].
  - apply IH. by apply enqueue_http_request_spec.
  - destruct (poll_http_request_spec id q cs Hq) as [H1 H2].
    destruct (poll_http_request id cs) as [r cs']. simpl in *. subst r.
    destruct (IH _ _ H2) as [H3 H4].
    destruct (http_requests id ops cs'), (request_queue ops (tail q)). simpl in *. by rewrite H3.
Qed.

(** ** When the close watcher starts *)

(** Inserting before the watcher is spawned: what holds at every moment. *)
Definition insert_first (id : Z) (e : ConnectionEntry) (s : Registration) : Prop :=
  match watcher s, actions_left s with
  | NotSpawned, [SpawnTasks; InsertEntry e'; SpawnCloseWatcher] => e' = e
  | NotSpawned, [InsertEntry e'; SpawnCloseWatcher] =>
      e' = e ∧ (2 ≤ tasks_running s + close_signals s)%nat
  | NotSpawned, [SpawnCloseWatcher] | AwaitsSignal, [] => (2 ≤ tasks_running s + close_signals s)%nat
  | WatcherDone, [] => table s !! id = None
  | _, _ => False
  end.

Lemma insert_first_step id e s s' :
  registration_step id s s' → insert_first id e s → insert_first id e s'.
Proof.
  unfold insert_first. destruct 1; simpl; intros H; repeat case_match; simplify_eq;
    try done; try lia; try (split; [tauto|lia]); apply remove_connection_gone.
Qed.

Lemma insert_first_run id e s s' :
  rtc (registration_step id) s s' → insert_first id e s → insert_first id e s'.
Proof. induction 1; eauto using insert_first_step. Qed.

(** Every run is finite. *)
Definition registration_work (s : Registration) : nat :=
  4 * length (actions_left s) + tasks_running s + match watcher s with WatcherDone => 0 | _ => 1 end.

Lemma insert_first_settled id e s : insert_first id e s → settled id s → table s !! id = None.
Proof.
  unfold insert_first, settled. destruct s as [l k n w cs]. simpl. intros H Hs.
  destruct l as [|a l].
  - destruct w; try done. destruct k as [|k]; [|exfalso; eapply Hs; constructor].
    destruct n as [|n]; [lia|]. exfalso. eapply Hs. constructor.
  - exfalso. destruct a; (eapply Hs; constructor).
Qed.

Lemma registration_step_work id s s' :
  registration_step id s s' → (registration_work s' < registration_work s)%nat.
Proof. unfold registration_work. destruct 1; simpl; try destruct w; lia. Qed.

(** Both tasks end before the entry is there: the watcher closes nothing, and
    the entry comes after. *)
Lemma insert_last_leaks id e cs :
  ∃ s, rtc (registration_step id) (registration_start [SpawnTasks; SpawnCloseWatcher; InsertEntry e] cs) s ∧
    settled id s ∧ tasks_running s = 0%nat ∧ table s !! id = Some e.
Proof.
  eexists. split; [|split; [|split]].
  - eapply rtc_l; [constructor|]. eapply rtc_l; [constructor|]. simpl.
    eapply rtc_l; [apply step_task_ends|]. eapply rtc_l; [apply step_task_ends|].
    eapply rtc_l; [apply step_watcher_closes|]. eapply rtc_l; [apply step_insert|]. done.
  - intros s' Hs. inversion Hs.
  - done.
  - apply lookup_insert_eq.
Qed.

(** The close watcher of an MQTT connection, spawned after the entry is in
    the table, closes it in every interleaving: all runs end, and when nothing
    is left to run the connection is gone.  A RawSocket or established
    WebSocket connection spawns the watcher first, and a run exists where both
    tasks end, the watcher finds nothing to close, and the dead connection is
    registered afterwards, with nothing left that would remove it. *)
Theorem registration_close_order (id listener : Z) (config : Config) (capacity version max_exponent : Z)
    (websocket heartbeat : bool) (serializer : Serializer) (selected : option str) cs :
  0 < capacity →
  (∃ l, register_mqtt_stream_connection listener config capacity version websocket = Ok l ∧
     ∀ s, rtc (registration_step id) (registration_start l cs) s →
       (∀ s', registration_step id s s' → (registration_work s' < registration_work s)%nat) ∧
       (settled id s → table s !! id = None)) ∧
  Forall (λ r, ∃ l e, r = Ok l ∧ InsertEntry e ∈ l ∧
     ∃ s, rtc (registration_step id) (registration_start l cs) s ∧ settled id s ∧
       tasks_running s = 0%nat ∧ table s !! id = Some e)
    [register_rawsocket_connection listener config capacity heartbeat serializer max_exponent;
     register_established_websocket_connection listener config capacity heartbeat serializer selected].
Proof.
  intros Hcap. split.
  - unfold register_mqtt_stream_connection, MqttOutboundQueue_new, MQTT_OUTBOUND_QUEUE_MAX_CHUNKS.
    rewrite (proj2 (Z.eqb_neq _ _)) by lia. eexists. split; [done|]. intros s Hs. split.
    + intros s'. apply registration_step_work.
    + apply (insert_first_settled id (mqtt_entry listener config version websocket
        (mkMqttOutboundQueue (capacity `min` 512) [] MQTT_OUTBOUND_QUEUE_MAX_BYTES true))).
      by eapply insert_first_run.
  - unfold register_rawsocket_connection, register_established_websocket_connection, mpsc_channel.
    rewrite (proj2 (Z.eqb_neq _ _)) by lia. simpl.
    repeat (apply Forall_cons_2; [eexists _, _; split; [done|split; [|apply insert_last_leaks]]; set_solver|]).
    done.
Qed.
End registry.

(** ** The theorems on a concrete table *)
Definition demo_calls : list (@RegistryCall unit unit unit unit Z unit) :=
  [CallAllocate; CallAllocate; CallRegister 2 (NewRawSocket 1 () 1 false Json 9); CallRegister 1 (NewHttp 1 ());
   CallEnqueueHttpRequest 1 7; CallEnqueueFrame 2 (control 1 []); CallEnqueueFrame 2 (control 1 []); CallClose 1].

Definition demo_registry : @RegistryState unit unit unit unit unit Z unit := mkRegistryState 1 ∅ [] [].

Lemma registry_invariant_witness :
  registry_ok (run_calls demo_calls demo_registry) ∧ next_connection_id (run_calls demo_calls demo_registry) = 3 ∧
  connections (run_calls demo_calls demo_registry) !! 2 =
    Some (rawsocket_entry 1 () false Json 9 (mkSendChannel [control 1 []] 1 true)) ∧
  connections (run_calls [CallEnqueueHttpRequest 1 8] (run_calls demo_calls demo_registry)) !! 1 = None.
Proof.
  assert (registry_ok demo_registry) as Hok.
  { split; [apply map_Forall_empty|]. split; [constructor|]. split; intros ? ?%not_elem_of_nil; done. }
  pose proof (proj1 (registry_invariant demo_calls demo_registry Hok)) as Hend.
  split; [exact Hend|split; [vm_compute; reflexivity|split; [vm_compute; reflexivity|]]].
  apply (registry_invariant [CallEnqueueHttpRequest 1 8] (run_calls demo_calls demo_registry) Hend).
  - split; [vm_compute; reflexivity|]. split; [by apply not_elem_of_nil|]. intros p Hp. by apply not_elem_of_nil in Hp.
  - left. vm_compute. reflexivity.
Defined.

Definition demo_http_table : gmap Z (@ConnectionEntry unit unit unit unit unit Z unit) :=
  {[ 4 := mkEntry 1 Http2Protocol None () true [] (Http2Pending None [5]) ]}.

Lemma http_requests_queue_witness :
  (http_requests 4 [Some 6; None; None; None; Some 7; None] demo_http_table).1 =
    [Ok (Some 5); Ok (Some 6); Ok None; Ok (Some 7)].
Proof.
  apply (http_requests_queue 4 [Some 6; None; None; None; Some 7; None] [5] demo_http_table).
  eexists _, _. split; [apply lookup_singleton_eq|done].
Defined.

Lemma registration_close_order_witness :
  ∃ (s : @Registration unit unit unit unit unit Z unit),
    settled 3 s ∧ tasks_running s = 0%nat ∧ is_Some (table s !! 3).
Proof.
  pose proof (registration_close_order 3 1 () 16 4 9 false false Cbor None
    (∅ : gmap Z (@ConnectionEntry unit unit unit unit unit Z unit)) ltac:(lia)) as [_ H].
  apply Forall_cons_1 in H as [(l & e & _ & _ & s & _ & Hs & Hk & He) _].
  exists s. split; [done|]. split; [done|]. by exists e.
Defined.
