(* ===== verification/FfiErrors.v ===== *)
(** * Error codes of the C boundary

    The status codes of [ct_ffi/src/runtime/constants.rs], and the code that
    [map_error] gives an error of [ct_core]. *)
From S2P Require Import Prelude Text Registry.

Inductive ErrorCode : Type :=
  | ERR_UNSUPPORTED
  | ERR_ALREADY_STARTED
  | ERR_RUNTIME_NOT_STARTED
  | ERR_INVALID_ARGUMENT
  | ERR_LISTENER_NOT_FOUND
  | ERR_CHANNEL_ALREADY_TAKEN
  | ERR_IO
  | ERR_ROUTER_CONFIG_INVALID
  | ERR_ENDPOINT_NOT_CONFIGURED
  | ERR_CONNECTION_NOT_FOUND
  | ERR_UNSUPPORTED_SERIALIZER
  | ERR_UNSUPPORTED_PROTOCOL
  | ERR_HANDSHAKE_CONSUMED
  | ERR_HANDLE_UNAVAILABLE
  | ERR_STREAM_CLOSED
  | ERR_INTERNAL
  | ERR_SEND_QUEUE_FULL
  | ERR_KEY_NOT_FOUND
  | ERR_DECRYPT_FAILED
  | ERR_LEASE_WRONG_THREAD
  | ERR_LEASE_CLOSING
  | ERR_LEASE_QUOTA_EXCEEDED
  | ERR_LEASE_BUSY
  | ERR_LEASE_REENTRANT
  | ERR_WRITE_RECEIPT_QUOTA_EXCEEDED.

#[global] Instance ErrorCode_eq_dec : EqDecision ErrorCode.
Proof. solve_decision. Defined.

Definition error_code (e : ErrorCode) : Z :=
  match e with
  | ERR_UNSUPPORTED => -1
  | ERR_ALREADY_STARTED => -2
  | ERR_RUNTIME_NOT_STARTED => -3
  | ERR_INVALID_ARGUMENT => -4
  | ERR_LISTENER_NOT_FOUND => -5
  | ERR_CHANNEL_ALREADY_TAKEN => -6
  | ERR_IO => -7
  | ERR_ROUTER_CONFIG_INVALID => -8
  | ERR_ENDPOINT_NOT_CONFIGURED => -9
  | ERR_CONNECTION_NOT_FOUND => -10
  | ERR_UNSUPPORTED_SERIALIZER => -11
  | ERR_UNSUPPORTED_PROTOCOL => -12
  | ERR_HANDSHAKE_CONSUMED => -13
  | ERR_HANDLE_UNAVAILABLE => -14
  | ERR_STREAM_CLOSED => -15
  | ERR_INTERNAL => -16
  | ERR_SEND_QUEUE_FULL => -17
  | ERR_KEY_NOT_FOUND => -18
  | ERR_DECRYPT_FAILED => -19
  | ERR_LEASE_WRONG_THREAD => -20
  | ERR_LEASE_CLOSING => -21
  | ERR_LEASE_QUOTA_EXCEEDED => -22
  | ERR_LEASE_BUSY => -23
  | ERR_LEASE_REENTRANT => -24
  | ERR_WRITE_RECEIPT_QUOTA_EXCEEDED => -25
  end.

(** [Error] of [ct_core], without the data of its variants: the registry's
    errors are those of Registry. *)
Inductive CoreError : Type :=
  | RuntimeNotStarted
  | RuntimeAlreadyStarted
  | UnsupportedPlatform
  | InvalidBacklog
  | ListenerNotFound (id : Z)
  | AcceptChannelAlreadyTaken (id : Z)
  | AddressResolution (host : str) (port : Z)
  | EndpointNotConfigured (host : str) (port : Z)
  | RouterConfigInvalid (reason : str)
  | Http3ResponseSend (id : Z)
  | Io
  | InvalidRuntimeThreadCount (text : str)
  | InvalidFileSegment (reason : string)
  | InvalidDeferredSegment (reason : string)
  | InRegistry (e : RegistryError).

(** The ids of a registry run out in a panic, which no code stands for. *)
Definition map_error (e : CoreError) : option ErrorCode :=
  match e with
  | RuntimeAlreadyStarted => Some ERR_ALREADY_STARTED
  | RuntimeNotStarted => Some ERR_RUNTIME_NOT_STARTED
  | InvalidBacklog => Some ERR_INVALID_ARGUMENT
  | ListenerNotFound _ => Some ERR_LISTENER_NOT_FOUND
  | AcceptChannelAlreadyTaken _ => Some ERR_CHANNEL_ALREADY_TAKEN
  | AddressResolution _ _ => Some ERR_INVALID_ARGUMENT
  | UnsupportedPlatform => Some ERR_UNSUPPORTED
  | RouterConfigInvalid _ => Some ERR_ROUTER_CONFIG_INVALID
  | EndpointNotConfigured _ _ => Some ERR_ENDPOINT_NOT_CONFIGURED
  | InRegistry (ConnectionNotFound _) => Some ERR_CONNECTION_NOT_FOUND
  | InRegistry (UnsupportedProtocol _ _) => Some ERR_UNSUPPORTED_PROTOCOL
  | InRegistry (HandshakeAlreadyTaken _) => Some ERR_HANDSHAKE_CONSUMED
  | InRegistry (ConnectionHandleUnavailable _) => Some ERR_HANDLE_UNAVAILABLE
  | Http3ResponseSend _ => Some ERR_IO
  | InRegistry (SendQueueFull _) => Some ERR_SEND_QUEUE_FULL
  | InvalidRuntimeThreadCount _ => Some ERR_INVALID_ARGUMENT
  | InvalidFileSegment _ => Some ERR_INVALID_ARGUMENT
  | InvalidDeferredSegment _ => Some ERR_INVALID_ARGUMENT
  | Io => Some ERR_IO
  | InRegistry IdsExhausted => None
  end.

(** A status tells success from every error, and errors apart. *)
Lemma error_code_inj e f : error_code e = error_code f → e = f.
Proof. by destruct e, f. Qed.

Lemma error_code_negative e : error_code e < 0.
Proof. by destruct e. Qed.
