(* ===== verification/BinaryArguments.v ===== *)
(** * Single binary arguments

    The readers of [ct_ffi/src/runtime/ffi.rs] that find one byte string in the
    arguments of a message without decoding them, the headers they are written
    with, and the length of a canonical JSON binary argument. *)
From S2P Require Import Prelude Bytes Text TextOps WampTypes RawFrame Msgpack MsgpackMessage CborScanner FileSegments FfiErrors.

(** [bytes.get(start..end)] *)
Definition get_bytes (bytes : list Z) (start stop : Z) : option (list Z) :=
  if (start <=? stop) && (stop <=? zlen bytes) then Some (sub_bytes bytes start stop) else None.

(** [usize_checked_add] of [usize] *)
Definition usize_checked_add (a b : Z) : option Z := if a + b <? 2 ^ 64 then Some (a + b) else None.

(** ** CBOR *)

(** The value read and the offset behind it. *)
Definition read_cbor_length (bytes : list Z) (offset expected_major : Z) : option (Z * Z) :=
  initial ← byte_at bytes offset;
  let offset := offset + 1 in
  if negb (Z.shiftr initial 5 =? expected_major) then None
  else
    let additional := Z.land initial 0x1f in
    if additional <=? 23 then Some (additional, offset)
    else if additional =? 24 then value ← byte_at bytes offset; Some (value, offset + 1)
    else if additional =? 25 then
      raw ← get_bytes bytes offset (offset + 2); Some (be_value raw, offset + 2)
    else if additional =? 26 then
      raw ← get_bytes bytes offset (offset + 4); Some (be_value raw, offset + 4)
    else if additional =? 27 then
      raw ← get_bytes bytes offset (offset + 8); Some (be_value raw, offset + 8)
    else None.

Definition cbor_single_binary_argument (bytes : list Z) : option (list Z) :=
  '(count, offset) ← read_cbor_length bytes 0 4;
  if negb (count =? 1) then None
  else
    '(length, offset) ← read_cbor_length bytes offset 2;
    stop ← usize_checked_add offset length;
    if negb (stop =? zlen bytes) then None else get_bytes bytes offset stop.

Definition cbor_byte_string_header (length : Z) : list Z :=
  if length <? 24 then [Z.lor 0x40 length]
  else if length <? 2 ^ 8 then [0x58; length]
  else if length <? 2 ^ 16 then 0x59 :: be_bytes 2 length
  else if length <? 2 ^ 32 then 0x5a :: be_bytes 4 length
  else 0x5b :: be_bytes 8 length.

Definition CBOR_PPT_PREFIX : list Z := [0xa2; 0x64; 0x61; 0x72; 0x67; 0x73; 0x81].
Definition CBOR_PPT_SUFFIX : list Z := [0x66; 0x6b; 0x77; 0x61; 0x72; 0x67; 0x73; 0xf6].

(** [bytes.slice_starts_with(prefix)] *)
Definition slice_starts_with (prefix bytes : list Z) : bool :=
  bool_decide (take (length prefix) bytes = prefix).

(** [{args: \[payload\], kwargs: null}], with the shortest header. *)
Definition cbor_ppt_single_binary_argument (bytes : list Z) : option (list Z) :=
  if negb (slice_starts_with CBOR_PPT_PREFIX bytes) then None
  else
    let header_start := zlen CBOR_PPT_PREFIX in
    '(payload_len, payload_start) ← read_cbor_length bytes header_start 2;
    let canonical_header := cbor_byte_string_header payload_len in
    header ← get_bytes bytes header_start payload_start;
    if negb (bool_decide (header = canonical_header)) then None
    else
      payload_end ← usize_checked_add payload_start payload_len;
      suffix ← get_bytes bytes payload_end (zlen bytes);
      if negb (bool_decide (suffix = CBOR_PPT_SUFFIX)) then None
      else get_bytes bytes payload_start payload_end.

(** The writer's length; [major] is the initial octet's upper bits. *)
Definition write_cbor_length (major len : Z) : list Z :=
  if len <=? 23 then [Z.lor major len]
  else if len <? 2 ^ 8 then [Z.lor major 24; len]
  else if len <? 2 ^ 16 then Z.lor major 25 :: be_bytes 2 len
  else if len <? 2 ^ 32 then Z.lor major 26 :: be_bytes 4 len
  else Z.lor major 27 :: be_bytes 8 len.

Definition write_cbor_array_len (len : Z) : list Z := write_cbor_length 0x80 len.

(** ** MessagePack *)
Definition read_msgpack_array_length (bytes : list Z) (offset : Z) : option (Z * Z) :=
  marker ← byte_at bytes offset;
  let offset := offset + 1 in
  if (0x90 <=? marker) && (marker <=? 0x9f) then Some (Z.land marker 0x0f, offset)
  else if marker =? 0xdc then
    raw ← get_bytes bytes offset (offset + 2); Some (be_value raw, offset + 2)
  else if marker =? 0xdd then
    raw ← get_bytes bytes offset (offset + 4); Some (be_value raw, offset + 4)
  else None.

Definition read_msgpack_binary_length (bytes : list Z) (offset : Z) : option (Z * Z) :=
  marker ← byte_at bytes offset;
  let offset := offset + 1 in
  if marker =? 0xc4 then length ← byte_at bytes offset; Some (length, offset + 1)
  else if marker =? 0xc5 then
    raw ← get_bytes bytes offset (offset + 2); Some (be_value raw, offset + 2)
  else if marker =? 0xc6 then
    raw ← get_bytes bytes offset (offset + 4); Some (be_value raw, offset + 4)
  else None.

Definition msgpack_single_binary_argument (bytes : list Z) : option (list Z) :=
  '(count, offset) ← read_msgpack_array_length bytes 0;
  if negb (count =? 1) then None
  else
    '(length, offset) ← read_msgpack_binary_length bytes offset;
    stop ← usize_checked_add offset length;
    if negb (stop =? zlen bytes) then None else get_bytes bytes offset stop.

Definition single_binary_argument (serializer : Serializer) (args : list Z) :
    outcome ErrorCode (list Z) :=
  match serializer with
  | MessagePack => ok_or ERR_INVALID_ARGUMENT (msgpack_single_binary_argument args)
  | Cbor | Flatbuffers => ok_or ERR_INVALID_ARGUMENT (cbor_single_binary_argument args)
  | _ => Err ERR_UNSUPPORTED
  end.

(** ** The grammar of one binary argument

    Every header of RFC 8949, of the MessagePack table: the shortest or not. *)
Definition mp_array_one (h : list Z) : Prop :=
  h = [0x91] ∨ h = [0xdc; 0; 1] ∨ h = [0xdd; 0; 0; 0; 1].

Inductive mp_binary_header : Z → list Z → Prop :=
  | binary_8 n : u8_ok n → mp_binary_header n [0xc4; n]
  | binary_16 b : bytes_ok b → zlen b = 2 → mp_binary_header (be_value b) (0xc5 :: b)
  | binary_32 b : bytes_ok b → zlen b = 4 → mp_binary_header (be_value b) (0xc6 :: b).

Definition cbor_binary_argument (args body : list Z) : Prop :=
  ∃ array bin, cbor_head 4 1 array ∧ cbor_head 2 (zlen body) bin ∧ args = array ++ bin ++ body.

Definition mp_binary_argument (args body : list Z) : Prop :=
  ∃ array bin, mp_array_one array ∧ mp_binary_header (zlen body) bin ∧ args = array ++ bin ++ body.

(** ** The readers *)
Lemma get_bytes_Some bytes s e r : get_bytes bytes s e = Some r ↔
  s ≤ e ∧ e ≤ zlen bytes ∧ r = sub_bytes bytes s e.
Proof.
  unfold get_bytes. destruct (Z.leb_spec s e), (Z.leb_spec e (zlen bytes)); simpl; naive_solver lia.
Qed.

Lemma cbor_initial b major : u8_ok b → Z.shiftr b 5 = major →
  b = 32 * major + Z.land b 0x1f ∧ 0 ≤ Z.land b 0x1f < 32.
Proof.
  intros Hb <-. assert ((b =? 32 * Z.shiftr b 5 + Z.land b 0x1f) && (0 <=? Z.land b 0x1f)
    && (Z.land b 0x1f <? 32) = true) as H by u8_decide Hb. lia.
Qed.

Lemma cbor_initial_conv major info : 0 ≤ major < 8 → 0 ≤ info < 32 →
  Z.shiftr (32 * major + info) 5 = major ∧ Z.land (32 * major + info) 0x1f = info.
Proof.
  intros Hm Hi. rewrite Z.shiftr_div_pow2 by lia. change 0x1f with (Z.ones 5).
  rewrite Z.land_ones by lia. change (2 ^ 5) with 32. split; dmlia.
Qed.

(** A reader and the header in front of the rest. *)
Lemma read_cbor_length_complete pre h rest major n : 0 ≤ major < 8 → cbor_head major n h →
  read_cbor_length (pre ++ h ++ rest) (zlen pre) major = Some (n, zlen pre + zlen h).
Proof.
  intros Hm (info & ext & [Hext Hinfo] & ->). unfold read_cbor_length.
  assert (byte_at (pre ++ (32 * major + info :: ext) ++ rest) (zlen pre) = Some (32 * major + info)) as ->.
  { replace (zlen pre) with (zlen pre + 0) by lia. by rewrite byte_at_app_r. }
  cbn [mbind option_bind]. destruct (cbor_initial_conv major info) as [-> ->]; [done|lia|].
  rewrite Z.eqb_refl. cbn [negb]. cbv zeta.
  assert (∀ k, zlen ext = k → get_bytes (pre ++ (32 * major + info :: ext) ++ rest) (zlen pre + 1) (zlen pre + 1 + k) = Some ext) as Hget.
  { intros k <-. apply get_bytes_Some. split_and!; [zlia|zlia|].
    replace (pre ++ (32 * major + info :: ext) ++ rest) with ((pre ++ [32 * major + info]) ++ ext ++ rest)
      by (by rewrite <-(assoc_L (++))).
    replace (zlen pre + 1) with (zlen (pre ++ [32 * major + info])) by zlia.
    by rewrite sub_bytes_app_mid. }
  destruct Hinfo as [(Hi & -> & ->)|(Hi & Hz & ->)].
  - rewrite (proj2 (Z.leb_le _ _)) by lia. done.
  - rewrite (proj2 (Z.leb_gt _ _)) by lia. rewrite zlen_cons, Hz.
    assert (info = 24 ∨ info = 25 ∨ info = 26 ∨ info = 27) as Hc by lia.
    destruct Hc as [->|[->|[->| ->]]]; cbv [Z.eqb Pos.eqb]; cbn [Z.sub Z.pow_pos Z.add Z.opp Z.pos_sub] in *.
    + destruct ext as [|b [|? ?]]; [discriminate Hz| |exfalso; revert Hz; zlia].
      replace (byte_at _ (zlen pre + 1)) with (Some b).
      * cbn [mbind option_bind]. do 2 f_equal. vm_compute (2 ^ (24 - 24)). lia.
      * rewrite byte_at_app_r by lia. symmetry. by apply byte_at_Some.
    + rewrite (Hget 2) by done. cbn [mbind option_bind]. do 2 f_equal. vm_compute (2 ^ (25 - 24)). lia.
    + rewrite (Hget 4) by done. cbn [mbind option_bind]. do 2 f_equal. vm_compute (2 ^ (26 - 24)). lia.
    + rewrite (Hget 8) by done. cbn [mbind option_bind]. do 2 f_equal. vm_compute (2 ^ (27 - 24)). lia.
Qed.

Lemma read_cbor_length_sound bytes off major n stop : bytes_ok bytes → 0 ≤ off →
  read_cbor_length bytes off major = Some (n, stop) →
  off < stop ∧ stop ≤ zlen bytes ∧ cbor_head major n (sub_bytes bytes off stop).
Proof.
  intros Hok Hoff H. unfold read_cbor_length in H.
  apply bind_Some in H as (b & Hb & H). cbv zeta in H.
  pose proof (byte_at_ok _ _ _ Hok Hb) as Hu. pose proof (mk_is_Some _ _ Hb) as Hin%byte_at_is_Some.
  destruct (Z.eqb_spec (Z.shiftr b 5) major) as [E|]; [|done]. cbn [negb] in H.
  destruct (cbor_initial b major Hu E) as [Hinit Hr]. set (info := Z.land b 0x1f) in *.
  assert (∀ k, off + 1 + k ≤ zlen bytes → 0 ≤ k →
    sub_bytes bytes off (off + 1 + k) = (32 * major + info) :: sub_bytes bytes (off + 1) (off + 1 + k)) as Hsub.
  { intros k Hk Hk0. rewrite <-Hinit. apply sub_bytes_cons; [done|lia]. }
  assert (∀ k, 24 ≤ info ≤ 27 → k = 2 ^ (info - 24) → off + 1 + k ≤ zlen bytes →
    n = be_value (sub_bytes bytes (off + 1) (off + 1 + k)) → stop = off + 1 + k →
    off < stop ∧ stop ≤ zlen bytes ∧ cbor_head major n (sub_bytes bytes off stop)) as Hsized.
  { intros k Hi Hk Hle -> ->. assert (0 < k) by (subst k; lia). split; [lia|]. split; [done|].
    exists info, (sub_bytes bytes (off + 1) (off + 1 + k)). split; [|apply Hsub; lia].
    split; [by apply sub_bytes_ok|]. right. split_and!; [lia|lia| |done]. rewrite zlen_sub_bytes; lia. }
  destruct (Z.leb_spec info 23).
  { injection H as <- <-. split; [lia|]. split; [lia|]. exists info, []. split.
    - split; [constructor|]. left. split_and!; lia || done.
    - rewrite <-(Z.add_0_r (off + 1)), Hsub by lia. by rewrite sub_bytes_nil by lia. }
  destruct (Z.eqb_spec info 24) as [E24|].
  { apply bind_Some in H as (v & Hv & [= <- <-]). pose proof (mk_is_Some _ _ Hv) as Hv'%byte_at_is_Some.
    apply (Hsized 1); [lia|by rewrite E24|lia| |done].
    rewrite (sub_bytes_cons _ _ _ v), sub_bytes_nil by (done || lia). done. }
  destruct (Z.eqb_spec info 25) as [E25|].
  { apply bind_Some in H as (v & (_ & Hle & ->)%get_bytes_Some & [= <- <-]).
    apply (Hsized 2); [lia|by rewrite E25|done..]. }
  destruct (Z.eqb_spec info 26) as [E26|].
  { apply bind_Some in H as (v & (_ & Hle & ->)%get_bytes_Some & [= <- <-]).
    apply (Hsized 4); [lia|by rewrite E26|done..]. }
  destruct (Z.eqb_spec info 27) as [E27|]; [|done].
  apply bind_Some in H as (v & (_ & Hle & ->)%get_bytes_Some & [= <- <-]).
  apply (Hsized 8); [lia|by rewrite E27|done..].
Qed.

Lemma cbor_binary_sound args body : bytes_ok args →
  cbor_single_binary_argument args = Some body → cbor_binary_argument args body.
Proof.
  intros Hok H. unfold cbor_single_binary_argument in H.
  apply bind_Some in H as ([count off] & Ha & H).
  destruct (Z.eqb_spec count 1) as [->|]; [|done]. cbn [negb] in H.
  apply bind_Some in H as ([len off2] & Hb & H). apply bind_Some in H as (stop & Hs & H).
  unfold usize_checked_add in Hs. destruct (Z.ltb_spec (off2 + len) (2 ^ 64)); [|done]. injection Hs as <-.
  destruct (Z.eqb_spec (off2 + len) (zlen args)) as [E|]; [|done]. cbn [negb] in H.
  apply get_bytes_Some in H as (? & _ & ->).
  apply read_cbor_length_sound in Ha as (? & ? & Hh1); [|done|lia].
  apply read_cbor_length_sound in Hb as (? & ? & Hh2); [|done|lia].
  exists (sub_bytes args 0 off), (sub_bytes args off off2). split; [done|]. split.
  - rewrite zlen_sub_bytes by lia. by replace (off2 + len - off2) with len by lia.
  - rewrite !sub_bytes_join by lia. by rewrite E, sub_bytes_full.
Qed.

Lemma cbor_binary_complete args body : zlen args < 2 ^ 64 →
  cbor_binary_argument args body → cbor_single_binary_argument args = Some body.
Proof.
  intros Hz (array & bin & Ha & Hb & ->). unfold cbor_single_binary_argument.
  pose proof (read_cbor_length_complete [] array (bin ++ body) 4 1 ltac:(lia) Ha) as E1.
  rewrite !app_nil_l in E1. change (zlen []) with 0 in E1. rewrite E1. cbn [mbind option_bind].
  change (1 =? 1) with true. cbn [negb].
  pose proof (read_cbor_length_complete array bin body 2 _ ltac:(lia) Hb) as E2.
  rewrite Z.add_0_l, E2. cbn [mbind option_bind]. unfold usize_checked_add.
  rewrite (proj2 (Z.ltb_lt _ _)) by zlia. cbn [mbind option_bind].
  rewrite (proj2 (Z.eqb_eq _ _)) by zlia. cbn [negb].
  apply get_bytes_Some. split_and!; [zlia|zlia|].
  pose proof (sub_bytes_app_mid (array ++ bin) body []) as E. rewrite app_nil_r, <-(assoc_L (++)), zlen_app in E.
  done.
Qed.

(** Reads of a marker and of the octets behind it, in place. *)
Lemma marker_in_place pre m ext rest :
  byte_at (pre ++ (m :: ext) ++ rest) (zlen pre) = Some m ∧
  get_bytes (pre ++ (m :: ext) ++ rest) (zlen pre + 1) (zlen pre + 1 + zlen ext) = Some ext.
Proof.
  split.
  - replace (zlen pre) with (zlen pre + 0) by lia. by rewrite byte_at_app_r.
  - apply get_bytes_Some. split_and!; [zlia|zlia|].
    replace (pre ++ (m :: ext) ++ rest) with ((pre ++ [m]) ++ ext ++ rest) by (by rewrite <-(assoc_L (++))).
    replace (zlen pre + 1) with (zlen (pre ++ [m])) by zlia. by rewrite sub_bytes_app_mid.
Qed.

Lemma two_octets b : bytes_ok b → zlen b = 2 → be_value b = 1 → b = [0; 1].
Proof.
  intros Hb Hz Hv. destruct b as [|x [|y [|? ?]]]; try (exfalso; revert Hz; zlia).
  apply Forall_cons in Hb as [Hx Hb]. apply Forall_inv in Hb. unfold be_value in Hv. simpl in Hv.
  unfold u8_ok in *. repeat f_equal; lia.
Qed.

Lemma four_octets b : bytes_ok b → zlen b = 4 → be_value b = 1 → b = [0; 0; 0; 1].
Proof.
  intros Hb Hz Hv. destruct b as [|x [|y [|z [|w [|? ?]]]]]; try (exfalso; revert Hz; zlia).
  repeat (apply Forall_cons in Hb as [? Hb]). unfold be_value in Hv. simpl in Hv.
  unfold u8_ok in *. repeat f_equal; lia.
Qed.

Lemma mp_array_sound bytes off : bytes_ok bytes →
  read_msgpack_array_length bytes 0 = Some (1, off) →
  0 < off ∧ off ≤ zlen bytes ∧ mp_array_one (sub_bytes bytes 0 off).
Proof.
  intros Hok H. unfold read_msgpack_array_length in H.
  apply bind_Some in H as (b & Hb & H). cbv zeta in H. change (0 + 1) with 1 in H.
  pose proof (mk_is_Some _ _ Hb) as Hin%byte_at_is_Some.
  destruct ((0x90 <=? b) && (b <=? 0x9f)) eqn:E.
  { injection H as H <-. rewrite land_0f in H by lia.
    split_and!; [lia..|]. left. rewrite (sub_bytes_cons _ _ _ b), sub_bytes_nil by (done || lia).
    f_equal. lia. }
  destruct (Z.eqb_spec b 0xdc) as [->|].
  { apply bind_Some in H as (raw & (_ & ? & ->)%get_bytes_Some & [= Hv <-]).
    apply two_octets in Hv; [|by apply sub_bytes_ok|rewrite zlen_sub_bytes; lia].
    split_and!; [lia..|]. right. left. rewrite (sub_bytes_cons _ _ _ 0xdc) by (done || lia).
    change (0 + 1) with 1. by rewrite Hv. }
  destruct (Z.eqb_spec b 0xdd) as [->|]; [|done].
  apply bind_Some in H as (raw & (_ & ? & ->)%get_bytes_Some & [= Hv <-]).
  apply four_octets in Hv; [|by apply sub_bytes_ok|rewrite zlen_sub_bytes; lia].
  split_and!; [lia..|]. right. right. rewrite (sub_bytes_cons _ _ _ 0xdd) by (done || lia).
  change (0 + 1) with 1. by rewrite Hv.
Qed.

Lemma mp_binary_header_sound bytes off n stop : bytes_ok bytes → 0 ≤ off →
  read_msgpack_binary_length bytes off = Some (n, stop) →
  off < stop ∧ stop ≤ zlen bytes ∧ mp_binary_header n (sub_bytes bytes off stop).
Proof.
  intros Hok Hoff H. unfold read_msgpack_binary_length in H.
  apply bind_Some in H as (b & Hb & H). cbv zeta in H.
  pose proof (mk_is_Some _ _ Hb) as Hin%byte_at_is_Some.
  destruct (Z.eqb_spec b 0xc4) as [->|].
  { apply bind_Some in H as (v & Hv & [= <- <-]). pose proof (mk_is_Some _ _ Hv) as Hv'%byte_at_is_Some.
    split_and!; [lia..|]. rewrite (sub_bytes_cons _ _ _ 0xc4), (sub_bytes_cons _ _ _ v), sub_bytes_nil by (done || lia).
    constructor. by apply (byte_at_ok _ _ _ Hok Hv). }
  destruct (Z.eqb_spec b 0xc5) as [->|].
  { apply bind_Some in H as (raw & (_ & ? & ->)%get_bytes_Some & [= <- <-]).
    split_and!; [lia..|]. rewrite (sub_bytes_cons bytes off _ 0xc5) by (done || lia).
    constructor; [by apply sub_bytes_ok|rewrite zlen_sub_bytes; lia]. }
  destruct (Z.eqb_spec b 0xc6) as [->|]; [|done].
  apply bind_Some in H as (raw & (_ & ? & ->)%get_bytes_Some & [= <- <-]).
  split_and!; [lia..|]. rewrite (sub_bytes_cons bytes off _ 0xc6) by (done || lia).
  constructor; [by apply sub_bytes_ok|rewrite zlen_sub_bytes; lia].
Qed.

Lemma mp_binary_header_complete pre h rest n : mp_binary_header n h →
  read_msgpack_binary_length (pre ++ h ++ rest) (zlen pre) = Some (n, zlen pre + zlen h).
Proof.
  intros Hh. unfold read_msgpack_binary_length.
  destruct Hh as [n Hn|b Hb Hz|b Hb Hz].
  - destruct (marker_in_place pre 0xc4 [n] rest) as [-> Hg]. cbn [mbind option_bind]. cbv [Z.eqb Pos.eqb].
    replace (byte_at _ (zlen pre + 1)) with (Some n); [cbn [mbind option_bind]; do 2 f_equal; zlia|].
    rewrite byte_at_app_r by lia. symmetry. by apply byte_at_Some.
  - destruct (marker_in_place pre 0xc5 b rest) as [-> Hg]. cbn [mbind option_bind]. cbv [Z.eqb Pos.eqb].
    rewrite Hz in Hg. rewrite <-Z.add_assoc in Hg. rewrite <-Z.add_assoc, Hg. cbn [mbind option_bind].
    do 2 f_equal. zlia.
  - destruct (marker_in_place pre 0xc6 b rest) as [-> Hg]. cbn [mbind option_bind]. cbv [Z.eqb Pos.eqb].
    rewrite Hz in Hg. rewrite <-Z.add_assoc in Hg. rewrite <-Z.add_assoc, Hg. cbn [mbind option_bind].
    do 2 f_equal. zlia.
Qed.

Lemma mp_binary_sound args body : bytes_ok args →
  msgpack_single_binary_argument args = Some body → mp_binary_argument args body.
Proof.
  intros Hok H. unfold msgpack_single_binary_argument in H.
  apply bind_Some in H as ([count off] & Ha & H).
  destruct (Z.eqb_spec count 1) as [->|]; [|done]. cbn [negb] in H.
  apply bind_Some in H as ([len off2] & Hb & H). apply bind_Some in H as (stop & Hs & H).
  unfold usize_checked_add in Hs. destruct (Z.ltb_spec (off2 + len) (2 ^ 64)); [|done]. injection Hs as <-.
  destruct (Z.eqb_spec (off2 + len) (zlen args)) as [E|]; [|done]. cbn [negb] in H.
  apply get_bytes_Some in H as (? & _ & ->).
  apply mp_array_sound in Ha as (? & ? & Hh1); [|done].
  apply mp_binary_header_sound in Hb as (? & ? & Hh2); [|done|lia].
  exists (sub_bytes args 0 off), (sub_bytes args off off2). split; [done|]. split.
  - rewrite zlen_sub_bytes by lia. by replace (off2 + len - off2) with len by lia.
  - rewrite !sub_bytes_join by lia. by rewrite E, sub_bytes_full.
Qed.

Lemma mp_binary_complete args body : zlen args < 2 ^ 64 →
  mp_binary_argument args body → msgpack_single_binary_argument args = Some body.
Proof.
  intros Hz (array & bin & Ha & Hb & ->). unfold msgpack_single_binary_argument.
  assert (read_msgpack_array_length (array ++ bin ++ body) 0 = Some (1, zlen array)) as ->.
  { unfold read_msgpack_array_length.
    destruct Ha as [->|[->| ->]].
    - done.
    - destruct (marker_in_place [] 0xdc [0; 1] (bin ++ body)) as [Hm Hg]. rewrite app_nil_l in *.
      change (zlen []) with 0 in *. rewrite Hm. cbn [mbind option_bind]. cbv [Z.eqb Pos.eqb Z.leb Z.compare Pos.compare Pos.compare_cont andb].
      change (0 + 1 + zlen [0; 1]) with (0 + 1 + 2) in Hg. by rewrite Hg.
    - destruct (marker_in_place [] 0xdd [0; 0; 0; 1] (bin ++ body)) as [Hm Hg]. rewrite app_nil_l in *.
      change (zlen []) with 0 in *. rewrite Hm. cbn [mbind option_bind]. cbv [Z.eqb Pos.eqb Z.leb Z.compare Pos.compare Pos.compare_cont andb].
      change (0 + 1 + zlen [0; 0; 0; 1]) with (0 + 1 + 4) in Hg. by rewrite Hg. }
  cbn [mbind option_bind]. change (1 =? 1) with true. cbn [negb].
  rewrite (mp_binary_header_complete array bin body _ Hb). cbn [mbind option_bind]. unfold usize_checked_add.
  rewrite (proj2 (Z.ltb_lt _ _)) by zlia. cbn [mbind option_bind].
  rewrite (proj2 (Z.eqb_eq _ _)) by zlia. cbn [negb].
  apply get_bytes_Some. split_and!; [zlia|zlia|].
  pose proof (sub_bytes_app_mid (array ++ bin) body []) as E. rewrite app_nil_r, <-(assoc_L (++)), zlen_app in E.
  done.
Qed.

(** ** Written headers *)
Lemma be_bytes_head k v info : 0 ≤ v < 256 ^ Z.of_nat k → 24 ≤ info ≤ 27 → Z.of_nat k = 2 ^ (info - 24) →
  head_arg info (be_bytes k v) v.
Proof.
  intros Hv Hi Hk. split; [apply be_bytes_ok|]. right. split_and!; [lia|lia|by rewrite zlen_be_bytes|].
  by rewrite be_value_bytes_small.
Qed.

Lemma lor_head major info : 0 ≤ major < 8 → 0 ≤ info < 32 → Z.lor (32 * major) info = 32 * major + info.
Proof.
  intros Hm Hi.
  assert (major = 0 ∨ major = 1 ∨ major = 2 ∨ major = 3 ∨ major = 4 ∨ major = 5 ∨ major = 6 ∨ major = 7) as Hc by lia.
  assert (info ∈ zrange 0 32) as Hin by (apply elem_of_zrange; lia).
  assert (forallb (λ m, forallb (λ i, Z.lor (32 * m) i =? 32 * m + i) (zrange 0 32)) (zrange 0 8) = true) as H
    by (by vm_compute).
  pose proof (forallb_elem _ _ major H) as H1. specialize (H1 ltac:(apply elem_of_zrange; lia)).
  pose proof (forallb_elem _ _ info H1 Hin) as H2. cbv beta in H2. lia.
Qed.

(** The length written is the shortest header of its value. *)
Lemma write_cbor_length_head major n : 0 ≤ major < 8 → 0 ≤ n < 2 ^ 64 →
  cbor_head major n (write_cbor_length (32 * major) n).
Proof.
  intros Hm Hn. unfold write_cbor_length.
  destruct (Z.leb_spec n 23).
  { exists n, []. split; [|by rewrite lor_head by lia]. split; [constructor|]. left. split_and!; lia || done. }
  destruct (Z.ltb_spec n (2 ^ 8)).
  { exists 24, [n]. split; [|by rewrite lor_head by lia]. split; [repeat constructor; unfold u8_ok; lia|]. right.
    split_and!; [lia|lia|done|done]. }
  destruct (Z.ltb_spec n (2 ^ 16)).
  { exists 25, (be_bytes 2 n). split; [apply be_bytes_head; lia|by rewrite lor_head by lia]. }
  destruct (Z.ltb_spec n (2 ^ 32)).
  { exists 26, (be_bytes 4 n). split; [apply be_bytes_head; lia|by rewrite lor_head by lia]. }
  exists 27, (be_bytes 8 n). split; [apply be_bytes_head; lia|by rewrite lor_head by lia].
Qed.

Lemma cbor_byte_string_header_written n : 0 ≤ n → cbor_byte_string_header n = write_cbor_length 0x40 n.
Proof.
  intros Hn. unfold cbor_byte_string_header, write_cbor_length.
  destruct (Z.ltb_spec n 24), (Z.leb_spec n 23); [done|lia..|]. reflexivity.
Qed.

Lemma write_cbor_length_ok major n : 0 ≤ major < 8 → 0 ≤ n < 2 ^ 64 → bytes_ok (write_cbor_length (32 * major) n).
Proof.
  intros Hm Hn. destruct (write_cbor_length_head major n Hm Hn) as (info & ext & [Hext Hi] & ->).
  constructor; [unfold u8_ok; lia|done].
Qed.

(** ** Canonical JSON binary arguments *)

Definition JSON_BINARY_PREFIX : list Z := [0x5b; 0x22; 0x5c; 0x75; 0x30; 0x30; 0x30; 0x30].
Definition JSON_BINARY_SUFFIX : list Z := [0x22; 0x5d].

(** [bytes.slice_strip_prefix(prefix)], [bytes.slice_strip_suffix(suffix)] and [slice_ends_with] *)
Definition slice_strip_prefix (prefix bytes : list Z) : option (list Z) :=
  if slice_starts_with prefix bytes then Some (drop (length prefix) bytes) else None.
Definition slice_ends_with (suffix bytes : list Z) : bool :=
  bool_decide (drop (length bytes - length suffix) bytes = suffix).
Definition slice_strip_suffix (suffix bytes : list Z) : option (list Z) :=
  if slice_ends_with suffix bytes then Some (take (length bytes - length suffix) bytes) else None.

Definition sextet (byte : Z) : option Z :=
  if (65 <=? byte) && (byte <=? 90) then Some (byte - 65)
  else if (97 <=? byte) && (byte <=? 122) then Some (byte - 97 + 26)
  else if (48 <=? byte) && (byte <=? 57) then Some (byte - 48 + 52)
  else if byte =? 43 then Some 62
  else if byte =? 47 then Some 63
  else None.

(** The loop over the data: its last sextet. *)
Fixpoint last_sextet (data : list Z) (last : Z) : option Z :=
  match data with
  | [] => Some last
  | byte :: data => last ← sextet byte; last_sextet data last
  end.

(** The body of [canonical_json_single_binary_argument_length] behind the
    stripped frame. *)
Definition canonical_base64_length (encoded : list Z) : option Z :=
  if bool_decide (encoded = []) then Some 0
  else if negb (zlen encoded mod 4 =? 0) then None
  else
    let padding := if slice_ends_with [61; 61] encoded then 2 else if slice_ends_with [61] encoded then 1 else 0 in
    let data := take (length encoded - Z.to_nat padding) encoded in
    last ← last_sextet data 0;
    if ((padding =? 1) && negb (Z.land last 3 =? 0)) || ((padding =? 2) && negb (Z.land last 15 =? 0)) then None
    else
      let groups := zlen encoded / 4 in
      if 2 ^ 64 <=? groups * 3 then None
      else if groups * 3 <? padding then None else Some (groups * 3 - padding).

Definition canonical_json_single_binary_argument_length (bytes : list Z) : option Z :=
  encoded ← slice_strip_prefix JSON_BINARY_PREFIX bytes;
  encoded ← slice_strip_suffix JSON_BINARY_SUFFIX encoded;
  canonical_base64_length encoded.

(** [decode_canonical_json_single_binary_argument] with the decoder of [base64]. *)
Definition decode_canonical_json_single_binary_argument (decode : list Z → option (list Z)) (bytes : list Z) :
    option (list Z) :=
  encoded ← slice_strip_prefix JSON_BINARY_PREFIX bytes;
  encoded ← slice_strip_suffix JSON_BINARY_SUFFIX encoded;
  decode encoded.

(** ** Base64 by groups *)
Lemma sextet_char n : 0 ≤ n < 64 → sextet (b64_char n) = Some n.
Proof.
  intros Hn. assert (n ∈ zrange 0 64) as Hin by (apply elem_of_zrange; lia).
  assert (forallb (λ n, bool_decide (sextet (b64_char n) = Some n)) (zrange 0 64) = true) as H by (by vm_compute).
  pose proof (forallb_elem _ _ n H Hin) as H1. by apply bool_decide_eq_true in H1.
Qed.

Lemma sextet_Some b n : sextet b = Some n → b = b64_char n ∧ 0 ≤ n < 64.
Proof.
  unfold sextet. intros H.
  repeat match type of H with (if ?b then _ else _) = _ => destruct b eqn:? end; try done;
    injection H as <-; (split; [|lia]); unfold b64_char; repeat case_match; lia.
Qed.

Lemma last_sextet_snoc data b last n : last_sextet (data ++ [b]) last = Some n ↔
  is_Some (last_sextet data last) ∧ sextet b = Some n.
Proof.
  revert last. induction data as [|c data IH]; intros last; simpl.
  - destruct (sextet b); naive_solver.
  - destruct (sextet c); simpl; [apply IH|]. split; [done|]. by intros [[? ?] _].
Qed.

Lemma last_sextet_app a b last : is_Some (last_sextet (a ++ b) last) ↔
  is_Some (last_sextet a last) ∧ is_Some (last_sextet b 0).
Proof.
  revert last. induction a as [|c a IH]; intros last; simpl.
  - assert (∀ l k, is_Some (last_sextet b l) ↔ is_Some (last_sextet b k)) as H.
    { clear. induction b as [|c b IH]; intros l k; simpl; [split; by eexists|]. by destruct (sextet c). }
    rewrite (H last 0). split; [intros ?; split; [by eexists|done]|by intros []].
  - destruct (sextet c); simpl; [apply IH|]. split; [by intros [? ?]|]. by intros [[? ?] _].
Qed.

(** A group of four characters for three octets. *)
Lemma group_octets s1 s2 s3 s4 : 0 ≤ s1 < 64 → 0 ≤ s2 < 64 → 0 ≤ s3 < 64 → 0 ≤ s4 < 64 →
  ∃ a b c, u8_ok a ∧ u8_ok b ∧ u8_ok c ∧
    demo_b64 [a; b; c] = [b64_char s1; b64_char s2; b64_char s3; b64_char s4].
Proof.
  intros H1 H2 H3 H4.
  exists (s1 * 4 + s2 / 16), (s2 mod 16 * 16 + s3 / 4), (s3 mod 4 * 64 + s4).
  unfold u8_ok. split_and!; try dmlia.
  assert (∀ x y k, 0 ≤ k → 0 ≤ y < 2 ^ k → Z.lor (Z.shiftl x k) y = x * 2 ^ k + y) as Hlor.
  { intros x y k Hk Hy. rewrite Z.shiftl_mul_pow2 by lia. apply Z.bits_inj'. intros i Hi.
    rewrite Z.lor_spec. destruct (decide (i < k)).
    - rewrite Z.mul_pow2_bits_low by lia. simpl.
      rewrite <-(Z.mod_pow2_bits_low (x * 2 ^ k + y) k i) by lia.
      rewrite Z.add_comm, Z.mod_add by lia. by rewrite Z.mod_small by lia.
    - rewrite Z.mul_pow2_bits by lia.
      replace (Z.testbit y i) with false.
      + rewrite orb_false_r. replace i with (i - k + k) at 2 by lia.
        rewrite <-Z.div_pow2_bits by lia. f_equal. rewrite Z.div_add_l by lia. rewrite Z.div_small by lia. lia.
      + symmetry. replace y with (y mod 2 ^ k) by (by apply Z.mod_small).
        apply Z.mod_pow2_bits_high. lia. }
  cbn [demo_b64]. rewrite !Z.shiftr_div_pow2 by lia. rewrite !Hlor by (try lia; change (2 ^ 4) with 16 in *; change (2 ^ 2) with 4 in *; change (2 ^ 6) with 64 in *; dmlia).
  change (2 ^ 4) with 16. change (2 ^ 2) with 4. change (2 ^ 6) with 64.
  repeat f_equal; dmlia.
Qed.

Lemma quads_ind (P : list Z → Prop) :
  P [] → (∀ a, P [a]) → (∀ a b, P [a; b]) → (∀ a b c, P [a; b; c]) →
  (∀ a b c d l, P l → P (a :: b :: c :: d :: l)) → ∀ l, P l.
Proof.
  intros H0 H1 H2 H3 H4. fix IH 1. intros [|a [|b [|c [|d l]]]]; [done|apply H1|apply H2|apply H3|].
  apply H4, IH.
Qed.

Lemma full_groups data : ∀ last, zlen data mod 4 = 0 → is_Some (last_sextet data last) →
  ∃ l, bytes_ok l ∧ demo_b64 l = data ∧ zlen l mod 3 = 0 ∧ zlen l * 4 = zlen data * 3.
Proof.
  induction data as [|a|a b|a b c|a b c d data IH] using quads_ind; intros last Hz Hs; try done.
  { exists []. split_and!; [constructor|done..]. }
  simpl in Hs.
  destruct (sextet a) as [s1|] eqn:E1, (sextet b) as [s2|] eqn:E2, (sextet c) as [s3|] eqn:E3,
    (sextet d) as [s4|] eqn:E4; simpl in Hs; try (by destruct Hs).
  apply sextet_Some in E1 as [-> ?], E2 as [-> ?], E3 as [-> ?], E4 as [-> ?].
  destruct (IH s4) as (l & Hl & <- & Hm & Hlen); [rewrite !zlen_cons in Hz; dmlia|done|].
  destruct (group_octets s1 s2 s3 s4) as (x & y & z & ? & ? & ? & Hg); [done..|].
  exists (x :: y :: z :: l). split_and!.
  - by repeat (apply Forall_cons_2; [done|]).
  - change (x :: y :: z :: l) with ([x; y; z] ++ l). rewrite demo_b64_app by done. by rewrite Hg.
  - rewrite !zlen_cons. dmlia.
  - rewrite !zlen_cons in *. lia.
Qed.

Lemma demo_b64_sextets l : bytes_ok l → zlen l mod 3 = 0 → ∀ last, is_Some (last_sextet (demo_b64 l) last).
Proof.
  intros Hl. induction l as [|a|a b|a b c l IH] using groups_ind; intros Hz last; try done.
  cbn [demo_b64 last_sextet].
  apply Forall_cons in Hl as [Ha Hl]. apply Forall_cons in Hl as [Hb Hl]. apply Forall_cons in Hl as [Hc Hl].
  rewrite !sextet_char by (apply Z.mod_pos_bound; lia). cbn [mbind option_bind].
  apply IH; [done|]. revert Hz. rewrite !zlen_cons. intros. dmlia.
Qed.

(** Whole groups, then at most two octets. *)
Lemma split_groups (l : list Z) : ∃ front tail, l = front ++ tail ∧ zlen front mod 3 = 0 ∧
  (tail = [] ∨ (∃ a, tail = [a]) ∨ ∃ a b, tail = [a; b]).
Proof.
  induction l as [|a|a b|a b c l IH] using groups_ind.
  - exists [], []. naive_solver.
  - exists [], [a]. naive_solver.
  - exists [], [a; b]. naive_solver.
  - destruct IH as (front & tail & -> & Hf & Ht). exists (a :: b :: c :: front), tail.
    split_and!; [done| |done]. rewrite !zlen_cons. dmlia.
Qed.

Lemma ends_with_app suffix l k : length suffix = length k →
  slice_ends_with suffix (l ++ k) = bool_decide (k = suffix).
Proof.
  intros H. unfold slice_ends_with. rewrite length_app.
  replace (length l + length k - length suffix)%nat with (length l) by lia. by rewrite drop_app_length.
Qed.

Lemma ends_with_Some suffix l : slice_ends_with suffix l = true → ∃ front, l = front ++ suffix.
Proof.
  unfold slice_ends_with. intros H%bool_decide_eq_true. exists (take (length l - length suffix) l).
  by rewrite <-H at 2; rewrite take_drop.
Qed.

Lemma take_app_minus {A} (l k : list A) n : n = length k → take (length (l ++ k) - n) (l ++ k) = l.
Proof. intros ->. rewrite length_app. replace (length l + length k - length k)%nat with (length l) by lia. apply take_app_length. Qed.

Lemma b64_char_data n : 0 ≤ n < 64 → b64_char n ≠ 61.
Proof. intros Hn E. pose proof (sextet_char n Hn) as H. by rewrite E in H. Qed.

Lemma group_octets_count z t : z mod 3 = 0 → 0 ≤ t ≤ 2 →
  (z + t + 2) / 3 * 4 / 4 * 3 = z + (if t =? 0 then 0 else 3).
Proof. intros Hz Ht. rewrite Z.div_mul by lia. destruct (Z.eqb_spec t 0); dmlia. Qed.

(** The length of an encoding is found, whatever the padding. *)
Lemma canonical_base64_length_complete l : bytes_ok l → zlen l < 2 ^ 63 →
  canonical_base64_length (demo_b64 l) = Some (zlen l).
Proof.
  intros Hl Hz. destruct (split_groups l) as (front & tail & -> & Hf & Ht).
  apply Forall_app in Hl as [Hfront Htail].
  pose proof (demo_b64_len (front ++ tail)) as Hlen. rewrite demo_b64_app in * by done.
  pose proof (demo_b64_sextets front Hfront Hf 0) as Hs.
  unfold canonical_base64_length. case_bool_decide as Hnil.
  { rewrite Hnil in Hlen. change (zlen []) with 0 in Hlen. f_equal. zlen_facts. dmlia. }
  rewrite (proj2 (Z.eqb_eq _ _)) by (rewrite Hlen; dmlia). cbn [negb]. cbv zeta.
  rewrite Hlen. clear Hlen.
  destruct Ht as [-> |[[a ->]|(a & b & ->)]].
  - rewrite app_nil_r in *. cbn [demo_b64] in *. rewrite ?app_nil_r in *.
    destruct (decide (front = [])) as [->|Hne]; [done|].
    assert (∃ k x y, demo_b64 front = k ++ [x; y] ∧ y ≠ 61) as (k & x & y & Hk & Hy).
    { clear -Hfront Hf Hne. induction front as [|a|a b|a b c l IH] using groups_ind; try done.
      repeat (apply Forall_cons in Hfront as [? Hfront]).
      assert (b64_char (c mod 64) ≠ 61) by (apply b64_char_data, Z.mod_pos_bound; lia).
      destruct (decide (l = [])) as [->|Hl].
      - cbn [demo_b64]. eexists [_; _], _, _. split; [reflexivity|done].
      - destruct IH as (k & x & y & E & ?); [done|rewrite !zlen_cons in Hf; dmlia|done|].
        cbn [demo_b64]. rewrite E. eexists (_ :: _ :: _ :: _ :: k), x, y. by split. }
    assert (slice_ends_with [61; 61] (demo_b64 front) = false) as ->
      by (rewrite Hk, ends_with_app by done; apply bool_decide_eq_false; congruence).
    assert (slice_ends_with [61] (demo_b64 front) = false) as ->.
    { rewrite Hk. change [x; y] with ([x] ++ [y]). rewrite (assoc_L (++)), ends_with_app by done.
      apply bool_decide_eq_false. congruence. }
    cbn [Z.to_nat].
    rewrite Nat.sub_0_r, firstn_all. destruct Hs as [last ->]. cbn [mbind option_bind Z.eqb andb orb].
    pose proof (group_octets_count (zlen front) 0 Hf ltac:(lia)) as Hg. rewrite Z.add_0_r in Hg. rewrite Hg. cbn [Z.eqb].
    zlen_facts. rewrite (proj2 (Z.leb_gt _ _)) by lia. rewrite (proj2 (Z.ltb_ge _ _)) by lia. f_equal. lia.
  - cbn [demo_b64] in *. apply Forall_inv in Htail.
    set (s1 := Z.shiftr a 2 mod 64) in *. set (s2 := Z.shiftl (a mod 4) 4) in *.
    assert (0 ≤ s1 < 64) by (apply Z.mod_pos_bound; lia).
    assert (0 ≤ s2 < 64 ∧ Z.land s2 15 = 0) as [? H15].
    { subst s2. change 15 with (Z.ones 4). rewrite Z.land_ones by lia. rewrite Z.shiftl_mul_pow2 by lia.
      change (2 ^ 4) with 16. split; dmlia. }
    change [b64_char s1; b64_char s2; 61; 61] with ([b64_char s1; b64_char s2] ++ [61; 61]).
    rewrite (assoc_L (++)). rewrite (ends_with_app [61; 61]) by done.
    rewrite bool_decide_eq_true_2 by done. change (Z.to_nat 2) with 2%nat.
    rewrite take_app_minus by done.
    replace (demo_b64 front ++ [b64_char s1; b64_char s2]) with ((demo_b64 front ++ [b64_char s1]) ++ [b64_char s2])
      by (by rewrite <-(assoc_L (++))).
    rewrite (proj2 (last_sextet_snoc _ _ _ s2)).
    + cbn [mbind option_bind]. change (2 =? 1) with false. change (2 =? 2) with true. rewrite H15. cbn [andb orb negb Z.eqb].
      rewrite zlen_app in *. change (zlen [a]) with 1 in *.
      rewrite (group_octets_count (zlen front) 1 Hf ltac:(lia)). cbn [Z.eqb]. zlen_facts.
      rewrite (proj2 (Z.leb_gt _ _)) by lia. rewrite (proj2 (Z.ltb_ge _ _)) by lia. f_equal. lia.
    + split; [|by apply sextet_char]. apply last_sextet_app. split; [done|]. cbn [last_sextet].
      rewrite sextet_char by done. by eexists.
  - cbn [demo_b64] in *. apply Forall_cons in Htail as [Ha Htail]. apply Forall_inv in Htail.
    set (s1 := Z.shiftr a 2 mod 64) in *. set (s2 := Z.lor _ _ mod 64) in *. set (s3 := Z.shiftl (b mod 16) 2) in *.
    assert (0 ≤ s1 < 64) by (apply Z.mod_pos_bound; lia). assert (0 ≤ s2 < 64) by (apply Z.mod_pos_bound; lia).
    assert (0 ≤ s3 < 64 ∧ Z.land s3 3 = 0) as [? H3].
    { subst s3. change 3 with (Z.ones 2). rewrite Z.land_ones by lia. rewrite Z.shiftl_mul_pow2 by lia.
      change (2 ^ 2) with 4. split; dmlia. }
    replace (demo_b64 front ++ [b64_char s1; b64_char s2; b64_char s3; 61])
      with ((demo_b64 front ++ [b64_char s1; b64_char s2]) ++ [b64_char s3; 61]) by (by rewrite <-(assoc_L (++))).
    rewrite (ends_with_app [61; 61]) by done.
    rewrite bool_decide_eq_false_2 by (intros [= E]; by apply (b64_char_data s3)).
    replace ((demo_b64 front ++ [b64_char s1; b64_char s2]) ++ [b64_char s3; 61])
      with (((demo_b64 front ++ [b64_char s1; b64_char s2]) ++ [b64_char s3]) ++ [61]) by (by rewrite <-!(assoc_L (++))).
    rewrite (ends_with_app [61]) by done. rewrite bool_decide_eq_true_2 by done. change (Z.to_nat 1) with 1%nat.
    rewrite take_app_minus by done.
    rewrite (proj2 (last_sextet_snoc _ _ _ s3)).
    + cbn [mbind option_bind]. change (1 =? 1) with true. change (1 =? 2) with false. rewrite H3. cbn [andb orb negb Z.eqb].
      rewrite zlen_app in *. change (zlen [a; b]) with 2 in *.
      rewrite (group_octets_count (zlen front) 2 Hf ltac:(lia)). cbn [Z.eqb]. zlen_facts.
      rewrite (proj2 (Z.leb_gt _ _)) by lia. rewrite (proj2 (Z.ltb_ge _ _)) by lia. f_equal. lia.
    + split; [|by apply sextet_char]. apply last_sextet_app. split; [done|]. cbn [last_sextet].
      rewrite !sextet_char by done. by eexists.
Qed.

(** The last group of an encoding with one or two octets in it. *)
Lemma tail_one s1 s2 : 0 ≤ s1 < 64 → 0 ≤ s2 < 64 → Z.land s2 15 = 0 →
  ∃ a, u8_ok a ∧ demo_b64 [a] = [b64_char s1; b64_char s2; 61; 61].
Proof.
  intros H1 H2 H15. change 15 with (Z.ones 4) in H15. rewrite Z.land_ones in H15 by lia. change (2 ^ 4) with 16 in H15.
  exists (s1 * 4 + s2 / 16). split; [unfold u8_ok; dmlia|]. cbn [demo_b64].
  rewrite Z.shiftr_div_pow2, Z.shiftl_mul_pow2 by lia. change (2 ^ 2) with 4. change (2 ^ 4) with 16.
  repeat f_equal; dmlia.
Qed.

Lemma tail_two s1 s2 s3 : 0 ≤ s1 < 64 → 0 ≤ s2 < 64 → 0 ≤ s3 < 64 → Z.land s3 3 = 0 →
  ∃ a b, u8_ok a ∧ u8_ok b ∧ demo_b64 [a; b] = [b64_char s1; b64_char s2; b64_char s3; 61].
Proof.
  intros H1 H2 H3 Hl. change 3 with (Z.ones 2) in Hl. rewrite Z.land_ones in Hl by lia. change (2 ^ 2) with 4 in Hl.
  destruct (group_octets s1 s2 s3 0) as (a & b & c & Ha & Hb & Hc & Hg); [lia..|].
  exists a, b. split_and!; [done..|]. cbn [demo_b64] in Hg |- *. injection Hg as E1 E2 E3 E4.
  cut (Z.shiftl (b mod 16) 2 = s3); [intros ->; by rewrite E1, E2|].
  assert (c mod 64 = 0) as Hc0.
  { assert (sextet (b64_char (c mod 64)) = sextet (b64_char 0)) as E by (by rewrite E4).
    rewrite !sextet_char in E by (try apply Z.mod_pos_bound; lia). by injection E. }
  assert (Z.lor (Z.shiftl (b mod 16) 2) (Z.shiftr c 6) mod 64 = s3) as E.
  { assert (sextet (b64_char (Z.lor (Z.shiftl (b mod 16) 2) (Z.shiftr c 6) mod 64)) = sextet (b64_char s3)) as E by (by rewrite E3).
    rewrite !sextet_char in E by (try apply Z.mod_pos_bound; lia). by injection E. }
  rewrite <-E in Hl |- *. clear E. rewrite !Z.shiftl_mul_pow2, !Z.shiftr_div_pow2 in * by lia.
  change (2 ^ 2) with 4 in *. change (2 ^ 6) with 64 in *. unfold u8_ok in *.
  assert (∀ x y, x ∈ zrange 0 16 → y ∈ zrange 0 4 → Z.lor (x * 4) y mod 64 = x * 4 + y) as Hlor.
  { assert (forallb (λ x, forallb (λ y, Z.lor (x * 4) y mod 64 =? x * 4 + y) (zrange 0 4)) (zrange 0 16) = true) as H
      by (by vm_compute).
    intros x y Hx Hy. pose proof (forallb_elem _ _ x H Hx) as Hx'. pose proof (forallb_elem _ _ y Hx' Hy) as Hy'.
    cbv beta in Hy'. lia. }
  rewrite Hlor in Hl |- * by (apply elem_of_zrange; dmlia). dmlia.
Qed.

Lemma canonical_base64_length_sound encoded n : canonical_base64_length encoded = Some n →
  ∃ l, bytes_ok l ∧ zlen l = n ∧ encoded = demo_b64 l.
Proof.
  unfold canonical_base64_length. case_bool_decide as Hnil.
  { intros [= <-]. exists []. split_and!; [constructor|done..]. }
  destruct (Z.eqb_spec (zlen encoded mod 4) 0) as [Hm|]; [|done]. cbn [negb]. cbv zeta. intros H.
  apply bind_Some in H as (last & Hlast & H).
  destruct (slice_ends_with [61; 61] encoded) eqn:E2; [|destruct (slice_ends_with [61] encoded) eqn:E1].
  - apply ends_with_Some in E2 as [data ->]. change (Z.to_nat 2) with 2%nat in Hlast. rewrite take_app_minus in Hlast by done.
    change (2 =? 1) with false in H. change (2 =? 2) with true in H. cbn [andb orb] in H.
    destruct (Z.eqb_spec (Z.land last 15) 0) as [H15|]; [|done]. cbn [negb] in H.
    destruct (_ <=? _); [done|]. destruct (_ <? _); [done|]. injection H as <-.
    destruct data as [|c2 data _] using rev_ind; [exfalso; revert Hm; by vm_compute|].
    apply last_sextet_snoc in Hlast as [Hlast Hc2].
    destruct data as [|c1 data _] using rev_ind; [exfalso; revert Hm; by vm_compute|].
    destruct Hlast as [l1 Hl1]. apply last_sextet_snoc in Hl1 as [Hdata Hc1].
    apply sextet_Some in Hc1 as [-> ?], Hc2 as [-> ?].
    rewrite !zlen_app in Hm. change (zlen [_]) with 1 in Hm. change (zlen [61; 61]) with 2 in Hm.
    destruct (full_groups data 0) as (l & Hl & <- & Hm3 & Hz); [dmlia|done|].
    destruct (tail_one l1 last) as (a & Ha & Ht); [done..|].
    exists (l ++ [a]). split_and!.
    + apply Forall_app. split; [done|]. by apply Forall_cons_2.
    + rewrite !zlen_app. change (zlen [_]) with 1. change (zlen [61; 61]) with 2. dmlia.
    + rewrite demo_b64_app by done. rewrite Ht. by rewrite <-!(assoc_L (++)).
  - apply ends_with_Some in E1 as [data ->]. change (Z.to_nat 1) with 1%nat in Hlast. rewrite take_app_minus in Hlast by done.
    change (1 =? 1) with true in H. change (1 =? 2) with false in H. cbn [andb orb] in H.
    destruct (Z.eqb_spec (Z.land last 3) 0) as [H3|]; [|done]. cbn [negb orb] in H.
    destruct (_ <=? _); [done|]. destruct (_ <? _); [done|]. injection H as <-.
    destruct data as [|c3 data _] using rev_ind; [exfalso; revert Hm; by vm_compute|].
    apply last_sextet_snoc in Hlast as [[l2 Hlast] Hc3].
    destruct data as [|c2 data _] using rev_ind; [exfalso; revert Hm; by vm_compute|].
    apply last_sextet_snoc in Hlast as [[l1 Hlast] Hc2].
    destruct data as [|c1 data _] using rev_ind; [exfalso; revert Hm; by vm_compute|].
    apply last_sextet_snoc in Hlast as [Hdata Hc1].
    apply sextet_Some in Hc1 as [-> ?], Hc2 as [-> ?], Hc3 as [-> ?].
    rewrite !zlen_app in Hm. rewrite !zlen_cons, !zlen_nil in Hm.
    destruct (full_groups data 0) as (l & Hl & <- & Hm3 & Hz); [dmlia|done|].
    destruct (tail_two l1 l2 last) as (a & b & Ha & Hb & Ht); [done..|].
    exists (l ++ [a; b]). split_and!.
    + apply Forall_app. split; [done|]. by repeat (apply Forall_cons_2; [done|]).
    + rewrite !zlen_app, !zlen_cons, !zlen_nil. dmlia.
    + rewrite demo_b64_app by done. rewrite Ht. by rewrite <-!(assoc_L (++)).
  - rewrite Nat.sub_0_r, firstn_all in Hlast. cbn [Z.eqb andb orb] in H.
    destruct (_ <=? _); [done|]. destruct (_ <? _); [done|]. injection H as <-.
    destruct (full_groups encoded 0) as (l & Hl & <- & Hm3 & Hz); [done|by eexists|].
    exists l. split_and!; [done|dmlia|done].
Qed.

Lemma strip_frame encoded bytes : (prefix ← slice_strip_prefix JSON_BINARY_PREFIX bytes; slice_strip_suffix JSON_BINARY_SUFFIX prefix) = Some encoded ↔
  bytes = JSON_BINARY_PREFIX ++ encoded ++ JSON_BINARY_SUFFIX.
Proof.
  unfold slice_strip_prefix, slice_starts_with. split.
  - intros H. case_bool_decide as Hp; [|done]. cbn [mbind option_bind] in H. unfold slice_strip_suffix, slice_ends_with in H.
    case_bool_decide as Hs; [|done]. injection H as <-.
    rewrite <-(take_drop (length JSON_BINARY_PREFIX) bytes) at 1. rewrite Hp. f_equal.
    set (rest := drop _ bytes) in *. rewrite <-(take_drop (length rest - length JSON_BINARY_SUFFIX) rest) at 1. by rewrite Hs.
  - intros ->. rewrite take_app_length. rewrite bool_decide_eq_true_2 by done. rewrite drop_app_length.
    cbn [mbind option_bind]. unfold slice_strip_suffix. rewrite ends_with_app by done. rewrite bool_decide_eq_true_2 by done.
    by rewrite take_app_minus.
Qed.

(** The argument lies at the end of the arguments. *)
Lemma single_binary_suffix s a body : bytes_ok a → single_binary_argument s a = Ok body → ∃ pre, a = pre ++ body ∧ 0 < zlen pre.
Proof.
  intros Hok H. unfold single_binary_argument in H.
  assert (∀ o, ok_or ERR_INVALID_ARGUMENT o = Ok body → o = Some body) as Hor by (intros [x|]; simpl; naive_solver).
  destruct s; try discriminate; apply Hor in H;
    [apply mp_binary_sound in H as (h & b & Hh & _ & ->)|apply cbor_binary_sound in H as (h & b & Hh & _ & ->)..]; try done;
    exists (h ++ b); (split; [by rewrite <-(assoc_L (++))|]); zlen_facts; rewrite zlen_app.
  - destruct Hh as [->|[->| ->]]; rewrite !zlen_cons; zlen_facts; unfold zlen at 1; simpl; lia.
  - destruct Hh as (i & x & _ & ->). rewrite zlen_cons. zlen_facts. lia.
  - destruct Hh as (i & x & _ & ->). rewrite zlen_cons. zlen_facts. lia.
Qed.

(** ** Properties *)

(** C26: one binary argument is found in a message's arguments exactly when they
    are an array header of one element, a byte string header of any width, and
    the octets the header announces to the last: these octets are returned,
    for FlatBuffers from the CBOR its arguments are, and JSON and UBJSON have
    none. *)
Theorem single_binary_argument_exact s args body : bytes_ok args → zlen args < 2 ^ 63 →
  single_binary_argument s args = Ok body ↔
  match s with
  | MessagePack => mp_binary_argument args body
  | Cbor | Flatbuffers => cbor_binary_argument args body
  | _ => False
  end.
Proof.
  intros Hok Hz.
  assert (∀ o, ok_or ERR_INVALID_ARGUMENT o = Ok body ↔ o = Some body) as Hor
    by (intros [x|]; simpl; naive_solver).
  destruct s; simpl; [done|rewrite Hor..|done|rewrite Hor];
    (split; [first [by apply mp_binary_sound|by apply cbor_binary_sound]
            |first [apply mp_binary_complete; lia|apply cbor_binary_complete; lia]]).
Qed.

Lemma single_binary_argument_exact_witness :
  single_binary_argument Cbor [0x98; 1; 0x59; 0; 2; 7; 9] = Ok [7; 9]
  ∧ single_binary_argument Cbor [0x81; 0x59; 0; 3; 7; 9] ≠ Ok [7; 9].
Proof.
  split; [|vm_compute; discriminate].
  apply (single_binary_argument_exact Cbor [0x98; 1; 0x59; 0; 2; 7; 9] [7; 9]).
  - unfold bytes_ok, u8_ok. repeat constructor; lia.
  - vm_compute. reflexivity.
  - exists [0x98; 1], [0x59; 0; 2]. split_and!; [| |reflexivity].
    + exists 24, [1]. split; [|reflexivity]. split; [repeat constructor; unfold u8_ok; lia|]. right. split_and!; [lia|lia|done|done].
    + exists 25, [0; 2]. split; [|reflexivity]. split; [repeat constructor; unfold u8_ok; lia|]. right. split_and!; [lia|lia|done|done].
Defined.

(** the length of a binary JSON argument is found without decoding it,
    exactly for the padded base64 of RFC 4648, with its unused bits zero, between
    [\["\u0000] and ["\]]: it is the number of octets encoded. *)
Theorem canonical_json_length_exact bytes n : zlen bytes < 2 ^ 63 →
  canonical_json_single_binary_argument_length bytes = Some n ↔
  ∃ l, bytes_ok l ∧ zlen l = n ∧ bytes = JSON_BINARY_PREFIX ++ demo_b64 l ++ JSON_BINARY_SUFFIX.
Proof.
  intros Hz. unfold canonical_json_single_binary_argument_length. split.
  - intros H. apply bind_Some in H as (e1 & H1 & H). apply bind_Some in H as (e2 & H2 & H).
    destruct (canonical_base64_length_sound _ _ H) as (l & Hl & Hn & ->). exists l. split_and!; [done..|].
    apply strip_frame. by rewrite H1.
  - intros (l & Hl & Hn & Hb). pose proof (proj2 (strip_frame _ _) Hb) as H.
    apply bind_Some in H as (e1 & H1 & H2). rewrite H1. cbn [mbind option_bind]. rewrite H2. cbn [mbind option_bind].
    subst n. apply canonical_base64_length_complete; [done|].
    subst bytes. rewrite !zlen_app, demo_b64_len in Hz. zlen_facts. dmlia.
Qed.

Lemma canonical_json_length_exact_witness :
  ∃ bytes, canonical_json_single_binary_argument_length bytes = Some 5
    ∧ canonical_json_single_binary_argument_length (JSON_BINARY_PREFIX ++ lit "AB==" ++ JSON_BINARY_SUFFIX) = None.
Proof.
  exists (JSON_BINARY_PREFIX ++ demo_b64 [0; 255; 7; 128; 9] ++ JSON_BINARY_SUFFIX). split; [|vm_compute; reflexivity].
  apply (canonical_json_length_exact (JSON_BINARY_PREFIX ++ demo_b64 [0; 255; 7; 128; 9] ++ JSON_BINARY_SUFFIX) 5).
  - vm_compute. reflexivity.
  - exists [0; 255; 7; 128; 9]. split_and!; [|reflexivity..]. unfold bytes_ok, u8_ok. repeat constructor; lia.
Defined.
