(* ===== verification/WireElements.v ===== *)
(** * Messages as arrays of elements

    What a sender relies on: the octets of a message array whose elements the
    receiver's decoders understand parse to the message the elements spell.
    Text, integer and map elements are related to the octets that decode to
    them ([element_of]); payload elements stand for their own octets. *)
From S2P Require Import Prelude Bytes Text TextOps WampTypes RawFrame Msgpack MsgpackMessage WampValues Cbor Json WampParse.

Inductive element : Type :=
  | EInteger (n : Z)
  | EText (s : str)
  | EMap (m : ValueMap)
  | EArguments (octets : list Z)
  | EKeywords (octets : list Z).

(** The payload that the elements behind the metadata spell. *)
Definition payload_of_elements (es : list element) : option Payload :=
  match es with
  | [] => Some (mkPayload None None None)
  | [EArguments a] => Some (mkPayload (Some a) None None)
  | [EArguments a; EKeywords k] => Some (mkPayload (Some a) (Some k) None)
  | _ => None
  end.

(** The messages a router forwards. *)
Definition message_of_elements (es : list element) : option WampMessage :=
  match es with
  | EInteger code :: es =>
      if code =? 36 then
        match es with
        | EInteger subscription :: EInteger publication :: EMap details :: rest =>
            Event subscription publication details <$> payload_of_elements rest
        | _ => None
        end
      else if code =? 68 then
        match es with
        | EInteger request :: EInteger registration :: EMap details :: rest =>
            Invocation request registration details <$> payload_of_elements rest
        | _ => None
        end
      else if code =? 50 then
        match es with
        | EInteger request :: EMap details :: rest =>
            Result request details <$> payload_of_elements rest
        | _ => None
        end
      else if code =? 8 then
        match es with
        | EInteger request_type :: EInteger request :: EMap details :: EText error :: rest =>
            Error request_type request details error <$> payload_of_elements rest
        | _ => None
        end
      else None
  | _ => None
  end.

(** The four kinds, one case each. *)
Lemma message_of_elements_cases (P : list element → WampMessage → Prop) :
  (∀ a b d rest p, payload_of_elements rest = Some p →
    P (EInteger 36 :: EInteger a :: EInteger b :: EMap d :: rest) (Event a b d p)) →
  (∀ a b d rest p, payload_of_elements rest = Some p →
    P (EInteger 68 :: EInteger a :: EInteger b :: EMap d :: rest) (Invocation a b d p)) →
  (∀ a d rest p, payload_of_elements rest = Some p →
    P (EInteger 50 :: EInteger a :: EMap d :: rest) (Result a d p)) →
  (∀ a b d e rest p, payload_of_elements rest = Some p →
    P (EInteger 8 :: EInteger a :: EInteger b :: EMap d :: EText e :: rest) (Error a b d e p)) →
  ∀ es m, message_of_elements es = Some m → P es m.
Proof.
  intros H1 H2 H3 H4 es m Hm. unfold message_of_elements in Hm.
  repeat match type of Hm with
  | match ?x with _ => _ end = Some _ => destruct x eqn:?; try discriminate
  | (if ?b then _ else _) = Some _ => destruct b eqn:?; try discriminate
  end;
    repeat match goal with E : (_ =? _) = true |- _ => apply Z.eqb_eq in E; subst end;
    apply fmap_Some in Hm as (p & Hp & ->); auto.
Qed.

(** Takes related lists apart, element by element. *)
Ltac split_elements :=
  repeat match goal with
  | H : Forall2 _ (_ :: _) ?l |- _ =>
      let x := fresh "x" in let Hx := fresh "Hx" in let l' := fresh "rest" in
      apply Forall2_cons_inv_l in H as (x & l' & Hx & H & ->)
  end.

(** ** MessagePack *)
Section msgpack.
Context `{SL : !SerdeLib}.

Definition msgpack_element (e : element) (x : list Z) : Prop :=
  mp_item x ∧ bytes_ok x ∧
  match e with
  | EInteger n => msgpack_is_nil x = false ∧ rmp_u64 x = Some n
  | EText s => msgpack_is_nil x = false ∧ rmp_string x = Some s
  | EMap m => msgpack_is_map x = true ∧ rmp_value x = inr (VMap m)
  | EArguments a => x = a ∧ msgpack_is_array x = true
  | EKeywords k => x = k ∧ msgpack_is_map x = true
  end.

Definition msgpack_array (es : list element) (data : list Z) : Prop :=
  ∃ header xs, data = header ++ concat xs ∧ mp_array_header (zlen xs) header ∧
    Forall2 msgpack_element es xs.

Lemma item_chain_of data off xs :
  0 ≤ off → Forall mp_item xs → off + zlen (concat xs) ≤ frame_len data →
  sub_bytes (into_bytes data) off (off + zlen (concat xs)) = concat xs →
  frame_wf data →
  ∃ ranges, item_chain data off ranges (off + zlen (concat xs)) ∧ chain_items data ranges = xs.
Proof.
  intros Hoff Hxs Hlen Hsub Hwf. revert off Hoff Hlen Hsub.
  induction Hxs as [|x xs Hx _ IH]; intros off Hoff Hlen Hsub.
  - exists []. split; [|done]. simpl. rewrite zlen_nil, Z.add_0_r. constructor.
  - cbn [concat] in *. autorewrite with zlen in *. zlen_facts. unfold frame_wf in Hwf.
    rewrite <-(sub_bytes_join _ off (off + zlen x)) in Hsub by lia.
    apply app_inj_1 in Hsub as [H1 H2];
      [|pose proof (zlen_sub_bytes (into_bytes data) off (off + zlen x)); unfold zlen in *; lia].
    destruct (IH (off + zlen x)) as (ranges & Hc & Hi); [lia..| |].
    { by rewrite <-Z.add_assoc. }
    exists ((off, off + zlen x) :: ranges). split.
    + rewrite Z.add_assoc. constructor; [lia|lia| |done]. by rewrite H1.
    + unfold chain_items. cbn [fmap list_fmap fst snd]. rewrite H1. f_equal. exact Hi.
Qed.

Lemma read_ranges_complete data fuel off ranges stop : frame_ok data → 0 < off →
  frame_len data ≤ stack_frames → item_chain data off ranges stop → (length ranges ≤ fuel)%nat → stop ≤ frame_len data →
  msgpack_read_ranges fuel data off (zlen ranges) = Ok (ranges, stop).
Proof.
  intros Hok Hoff Hroom Hc. revert fuel Hoff.
  induction Hc as [off|off mid ranges stop H1 H2 Hx Hc IH]; intros fuel Hoff Hf Hs.
  { destruct fuel; done. }
  pose proof (item_chain_le _ _ _ _ Hc). simpl in Hf.
  destruct fuel as [|fuel]; [lia|]. cbn [msgpack_read_ranges].
  rewrite zlen_cons. rewrite (proj2 (Z.leb_gt _ _)) by zlia.
  rewrite on_stack_roomy, (proj2 (read_value_range_iff data Hok off off mid mid ltac:(lia))) by (done || lia).
  cbn [mbind outcome_bind]. replace (1 + zlen ranges - 1) with (zlen ranges) by lia.
  rewrite IH by lia. done.
Qed.

Lemma mp_header_ok n header : mp_array_header n header → bytes_ok header.
Proof.
  destruct 1; (apply Forall_cons; split; [unfold u8_ok; lia|]); [apply Forall_nil_2|done..].
Qed.

Lemma items_zlen xs : Forall mp_item xs → zlen xs ≤ zlen (concat xs).
Proof.
  induction 1 as [|x xs Hx _ IH]; [done|]. cbn [concat]. apply mp_item_nonempty in Hx. zlia.
Qed.

Lemma read_array_len_complete n header rest : bytes_ok (header ++ rest) → mp_array_header n header →
  msgpack_read_array_len (Contiguous (header ++ rest)) 0 = Ok (n, zlen header).
Proof.
  intros Hok Hh. set (data := Contiguous (header ++ rest)).
  assert (frame_ok data) as Hf by by split.
  unfold msgpack_read_array_len.
  assert (∀ m b, header = m :: b → holds data 0 (m :: b)) as Hhold.
  { intros m b ->. unfold holds. cbn [into_bytes frame_len data]. split_and!; [lia|zlia|].
    apply (sub_bytes_app_mid [] (m :: b) rest). }
  assert (∀ m b, header = m :: b → read_u8 data 0 = Ok (m, 1) ∧ holds data 1 b) as Hr.
  { intros m b E. pose proof (Hhold m b E) as Hm. by apply (holds_cons data Hf) in Hm. }
  destruct Hh as [m Hm|b Hb Hz|b Hb Hz].
  - destruct (Hr m [] eq_refl) as [-> _]. cbn [map_err mbind outcome_bind].
    unfold in_range. rewrite (proj2 (Z.leb_le 0x90 m)), (proj2 (Z.leb_le m 0x9f)) by lia.
    cbn [andb]. rewrite land_0f by lia. done.
  - destruct (Hr _ _ eq_refl) as [-> Hh]. cbn [map_err mbind outcome_bind].
    rewrite <-(app_nil_r b) in Hh.
    apply (holds_width data Hf 1 W16) in Hh as (Hw & _); [|done].
    change (read_u16 data 1) with (read_width W16 data 1). rewrite Hw, zlen_cons, Hz. done.
  - destruct (Hr _ _ eq_refl) as [-> Hh]. cbn [map_err mbind outcome_bind].
    rewrite <-(app_nil_r b) in Hh.
    apply (holds_width data Hf 1 W32) in Hh as (Hw & _); [|done].
    change (0xdd =? 0xdc) with false. change (0xdd =? 0xdd) with true.
    change (in_range 144 159 0xdd) with false. cbv iota.
    change ('(len, offset) ← read_u32 data 1; len ← u32_to_usize len; Ok (len, offset))
      with (read_width W32 data 1). rewrite Hw, zlen_cons, Hz. done.
Qed.

(** An array of whole items is cut into exactly these items. *)
Lemma parse_msgpack_items header xs x code : bytes_ok (header ++ concat xs) →
  mp_array_header (zlen xs) header → Forall mp_item xs →
  xs !! 0%nat = Some x → msgpack_is_nil x = false → rmp_u64 x = Some code →
  let data := Contiguous (header ++ concat xs) in msgpack_room data →
  ∃ ranges, chain_items data ranges = xs ∧ Forall (range_in (frame_len data)) ranges ∧
    parse_msgpack_message data
    = message ← msgpack_message_of data ranges code;
      Ok (mkParsedMessage message data MessagePack None).
Proof.
  intros Hok Hh Hxs Hx Hnil Hu data Hroom. assert (frame_ok data) as Hf by by split.
  destruct (item_chain_of data (zlen header) xs) as (ranges & Hc & Hi);
    [zlia|done|unfold data; cbn [frame_len]; zlia| |done|].
  { unfold data. cbn [into_bytes]. pose proof (sub_bytes_app_mid header (concat xs) []) as E.
    by rewrite app_nil_r in E. }
  assert (zlen ranges = zlen xs) as Hz by (rewrite <-Hi; unfold chain_items; by rewrite zlen_fmap).
  assert (zlen header + zlen (concat xs) = frame_len data) as Hstop
    by (unfold data; cbn [frame_len]; zlia).
  pose proof (item_chain_in data _ _ _ (zlen_nonneg header) Hc) as Hin.
  exists ranges. split; [done|]. split; [done|].
  unfold parse_msgpack_message. pose proof (read_array_len_complete (zlen xs) header _ Hok Hh : msgpack_read_array_len data 0 = _) as Hl.
  destruct (Hroom _ _ Hl) as [Hg Hstack]. rewrite Hl. cbn [mbind outcome_bind]. 
  assert (zlen xs ≠ 0) as Hne by (intros E; apply zlen_0_nil in E; by rewrite E in Hx).
  rewrite (proj2 (Z.eqb_neq _ _) Hne), Hg, <-Hz. cbn [negb].
  assert (0 < zlen header) as Hpos by (destruct Hh; rewrite zlen_cons; zlia).
  rewrite (read_ranges_complete data _ _ ranges _ Hf Hpos Hstack Hc); [|..|lia].
  2: { pose proof (items_zlen xs Hxs). pose proof (fuel_enough data Hf). unfold zlen in *. lia. }
  cbn [mbind outcome_bind]. rewrite Hstop, Z.eqb_refl. cbn [negb].
  rewrite <-Hi in Hx. unfold chain_items in Hx. rewrite list_lookup_fmap in Hx.
  apply fmap_Some in Hx as (r & Hr & ->).
  unfold range_at. rewrite Hr. cbn [ok_or mbind outcome_bind]. unfold msgpack_u64.
  rewrite slice_or_copy_in; [|apply Hf|by apply (Forall_lookup_1 _ _ _ _ Hin Hr)].
  cbn [mbind outcome_bind]. rewrite Hnil, Hu. done.
Qed.

(** The accessors on the items. *)
Section accessors.
Context (data : RawFrame) (ranges : list (Z * Z)) (xs : list (list Z)).
Context (Hwf : frame_wf data) (Hin : Forall (range_in (frame_len data)) ranges).
Context (Hxs : chain_items data ranges = xs).

Lemma item_slice i x : xs !! i = Some x →
  ∃ r, ranges !! i = Some r ∧ slice_or_copy data r = Ok x.
Proof.
  intros Hx. rewrite <-Hxs in Hx. unfold chain_items in Hx. rewrite list_lookup_fmap in Hx.
  apply fmap_Some in Hx as (r & Hr & ->). exists r. split; [done|].
  apply slice_or_copy_in; [done|]. by apply (Forall_lookup_1 _ _ _ _ Hin Hr).
Qed.

Lemma item_u64 i x n l l' : xs !! i = Some x → msgpack_element (EInteger n) x →
  (r ← range_at ranges i l; msgpack_u64 data r l') = Ok n.
Proof.
  intros (r & Hr & Hs)%item_slice (_ & _ & Hn & Hu). unfold range_at. rewrite Hr.
  cbn [ok_or mbind outcome_bind]. unfold msgpack_u64. rewrite Hs. cbn [mbind outcome_bind].
  by rewrite Hn, Hu.
Qed.

Lemma item_string i x s l l' : xs !! i = Some x → msgpack_element (EText s) x →
  (r ← range_at ranges i l; msgpack_string data r l') = Ok s.
Proof.
  intros (r & Hr & Hs)%item_slice (_ & _ & Hn & Hu). unfold range_at. rewrite Hr.
  cbn [ok_or mbind outcome_bind]. unfold msgpack_string. rewrite Hs. cbn [mbind outcome_bind].
  by rewrite Hn, Hu.
Qed.

Lemma msgpack_map_not_nil x : msgpack_is_map x = true → msgpack_is_nil x = false.
Proof. destruct x as [|b x]; [done|]. simpl. unfold in_range. lia. Qed.
Lemma msgpack_array_not_nil x : msgpack_is_array x = true → msgpack_is_nil x = false.
Proof. destruct x as [|b x]; [done|]. simpl. unfold in_range. lia. Qed.

Lemma item_map i x m l l' : xs !! i = Some x → msgpack_element (EMap m) x →
  (r ← range_at ranges i l; msgpack_required_map data r l') = Ok m.
Proof.
  intros (r & Hr & Hs)%item_slice (_ & _ & Hm & Hu). unfold range_at. rewrite Hr.
  cbn [ok_or mbind outcome_bind]. unfold msgpack_required_map. rewrite Hs. cbn [mbind outcome_bind].
  rewrite msgpack_map_not_nil by done. unfold msgpack_map_from_slice. by rewrite Hm, Hu.
Qed.

Lemma item_payload i es ys p la lk : drop i xs = ys → Forall2 msgpack_element es ys →
  payload_of_elements es = Some p →
  msgpack_payload data la (range_opt ranges i) lk (range_opt ranges (S i)) = Ok p.
Proof.
  intros Hd Hes Hp. rewrite msgpack_payload_items by done. rewrite Hxs.
  assert (xs !! i = ys !! 0%nat) as -> by (rewrite <-Hd, lookup_drop; f_equal; lia).
  assert (xs !! S i = ys !! 1%nat) as -> by (rewrite <-Hd, lookup_drop; f_equal; lia).
  unfold payload_of_elements in Hp. unfold payload_part.
  inversion Hes as [|e y es1 ys1 Hy Hes1]; subst; [by injection Hp as <-|].
  destruct e; try done. destruct Hy as (_ & _ & -> & Ha).
  inversion Hes1 as [|e y1 es2 ys2 Hy1 Hes2]; subst.
  - injection Hp as <-. simpl. by rewrite msgpack_array_not_nil, Ha by done.
  - destruct e; try done. destruct es2; [|done]. injection Hp as <-.
    destruct Hy1 as (_ & _ & -> & Hk). inversion Hes2; subst. simpl.
    by rewrite (msgpack_array_not_nil octets Ha), (msgpack_map_not_nil octets0 Hk), Ha, Hk.
Qed.
End accessors.

(** A message array in MessagePack parses to the message it spells. *)
Lemma msgpack_elements_parse es data m : msgpack_array es data → msgpack_room (Contiguous data) →
  message_of_elements es = Some m →
  parse_message MessagePack data = Ok (mkParsedMessage m (Contiguous data) MessagePack None).
Proof.
  intros (header & xs & -> & Hh & Hes) Hroom Hm.
  assert (bytes_ok (header ++ concat xs)) as Hok.
  { apply Forall_app. split; [by apply mp_header_ok in Hh|].
    apply Forall_concat. clear -Hes. induction Hes as [|e x es xs (_ & Hx & _) _ IH]; by constructor. }
  assert (Forall mp_item xs) as Hxs
    by (clear -Hes; induction Hes as [|e x es xs (Hx & _) _ IH]; by constructor).
  revert es m Hm xs header Hh Hes Hroom Hok Hxs.
  apply (message_of_elements_cases (λ es m, ∀ xs header, _ → _ → _ → _ → _ → _)); intros; split_elements;
    match goal with |- parse_message MessagePack (?h ++ concat ?xs) = _ =>
      match xs with ?x :: _ => match goal with Hc : msgpack_element (EInteger ?code) x |- _ =>
        let Hnil := fresh in let Hu := fresh in pose proof Hc as (_ & _ & Hnil & Hu);
        let ranges := fresh "ranges" in let Hi := fresh "Hi" in let Hin := fresh "Hin" in let Hp := fresh "Hp" in
        destruct (parse_msgpack_items h xs x code) as (ranges & Hi & Hin & Hp); [done..|];
        unfold parse_message, parse_message_frame; rewrite Hp; clear Hp
      end end end;
    unfold msgpack_message_of, msgpack_session_message, msgpack_pubsub_message, msgpack_call_message,
      msgpack_registration_message, msgpack_invocation_message; cbv [Z.eqb Pos.eqb];
    rewrite ?first_some_None, first_some_Some;
    match goal with Hi : chain_items ?data ?ranges = ?xs, Hin : Forall _ ?ranges |- _ =>
      let Hwf := fresh in assert (frame_wf data) as Hwf by done;
      repeat first
        [ erewrite (item_u64 data ranges xs Hwf Hin Hi) by (reflexivity || eassumption)
        | erewrite (item_map data ranges xs Hwf Hin Hi) by (reflexivity || eassumption)
        | erewrite (item_string data ranges xs Hwf Hin Hi) by (reflexivity || eassumption)
        | erewrite (item_payload data ranges xs Hwf Hin Hi) by (reflexivity || eassumption)
        | progress cbn [mbind outcome_bind] ]
    end; reflexivity.
Qed.
End msgpack.

(** ** CBOR *)

(** An item that the decoder leaves exactly at its end, whatever follows. *)
Definition cbor_whole `{SL : !SerdeLib} (x : list Z) : Prop :=
  bytes_ok x ∧ x ≠ [] ∧ ∀ rest, cbor_skip (x ++ rest) = inr (Z.to_N (zlen x)).

(** [to_vec] succeeds on the stand-ins for the payload. *)
Class CborStandIns (SL : SerdeLib) : Prop := cbor_stand_ins :
  (∃ b, cbor_to_vec (VSeq []) = inr b) ∧ (∃ b, cbor_to_vec (VMap []) = inr b).

Section cbor_elements.
Context `{SL : !SerdeLib}.

Definition cbor_element (e : element) (x : list Z) : Prop :=
  cbor_whole x ∧
  match e with
  | EInteger n => ∃ v, cbor_value_de x = inr v ∧ ∀ l, value_as_u64 v l = Ok n
  | EText s => cbor_value_de x = inr (VString s)
  | EMap m => cbor_value_de x = inr (VMap m)
  | EArguments a => x = a ∧ (λ b, Z.shiftr b 5) <$> head x = Some 4
  | EKeywords k => x = k ∧ (λ b, Z.shiftr b 5) <$> head x = Some 5
  end.

Definition cbor_array (es : list element) (data : list Z) : Prop :=
  ∃ header xs, data = header ++ concat xs ∧ cbor_header (Some (zlen xs)) header ∧
    zlen data < 2 ^ 63 ∧ Forall2 cbor_element es xs.

Lemma cbor_ranges_complete data fuel count xs : ∀ before, data = before ++ concat xs →
  Forall cbor_whole xs → zlen data < 2 ^ 63 → (length xs ≤ fuel)%nat →
  ∃ ranges, cbor_ranges_loop fuel data (Some (count + zlen xs)) (zlen before) count = Ok (ranges, zlen data) ∧
    range_items data ranges = xs ∧ Forall (range_in (zlen data)) ranges.
Proof.
  revert fuel count. induction xs as [|x xs IH]; intros fuel count before -> Hxs Hz Hf.
  { exists []. rewrite app_nil_r. destruct fuel; cbn [cbor_ranges_loop]; cbv zeta;
      rewrite (proj2 (Z.eqb_eq _ _)) by zlia; done. }
  apply Forall_cons in Hxs as [(Hb & Hne & Hskip) Hxs]. cbn [length] in Hf.
  destruct fuel as [|fuel]; [lia|]. cbn [concat] in *.
  assert (0 < zlen x) as Hpos.
  { destruct x; [done|zlia]. }
  cbn [cbor_ranges_loop]; cbv zeta. rewrite (proj2 (Z.eqb_neq _ _)) by zlia.
  rewrite (proj2 (Z.leb_gt _ _)) by zlia.
  rewrite slice_bytes_in by zlia. cbn [mbind outcome_bind].
  pose proof (sub_bytes_app_mid before (x ++ concat xs) []) as Hsub. rewrite app_nil_r, <-zlen_app in Hsub.
  rewrite Hsub, Hskip. cbn [lift_de fmap outcome_fmap outcome_bind mbind].
  rewrite Z2N.id by lia. rewrite (proj2 (Z.eqb_neq _ _)) by lia.
  rewrite (proj2 (Z.leb_gt _ _)) by zlia.
  destruct (IH fuel (count + 1) (before ++ x)) as (ranges & Hl & Hi & Hin);
    [by rewrite <-(assoc_L (++))|done|done|lia|].
  rewrite zlen_app in Hl. rewrite zlen_cons.
  replace (count + (1 + zlen xs)) with (count + 1 + zlen xs) by lia. rewrite Hl.
  exists ((zlen before, zlen before + zlen x) :: ranges). split; [done|]. split.
  - unfold range_items. cbn [fmap list_fmap fst snd]. f_equal; [|exact Hi]. apply sub_bytes_app_mid.
  - constructor; [|done]. unfold range_in. cbn [fst snd]. zlia.
Qed.

Lemma cbor_items_zlen xs : Forall cbor_whole xs → (length xs ≤ length (concat xs))%nat.
Proof.
  induction 1 as [|x xs (_ & Hx & _) _ IH]; [done|]. cbn [concat length]. rewrite length_app.
  destruct x; [done|]. simpl. lia.
Qed.

(** An array of whole items is cut into exactly these items. *)
Lemma cbor_top_level_complete header xs : let data := header ++ concat xs in
  cbor_header (Some (zlen xs)) header → Forall cbor_whole xs → zlen data < 2 ^ 63 →
  ∃ ranges, cbor_top_level_ranges data = Ok ranges ∧ range_items data ranges = xs ∧
    Forall (range_in (zlen data)) ranges.
Proof.
  intros data Hh Hxs Hz. unfold cbor_top_level_ranges.
  assert (bytes_ok (concat xs)) as Hb.
  { apply Forall_concat. eapply Forall_impl; [exact Hxs|]. by intros x (Hx & _). }
  unfold data. rewrite (cbor_array_header_complete _ header _ Hb Hh). cbn [mbind outcome_bind]. fold data.
  destruct (cbor_ranges_complete data (length data) 0 xs header eq_refl Hxs Hz) as (ranges & Hl & Hi & Hin).
  { pose proof (cbor_items_zlen xs Hxs). unfold data. rewrite length_app. lia. }
  rewrite Z.add_0_l in Hl. rewrite Hl. exists ranges. cbn [mbind outcome_bind].
  by rewrite Z.eqb_refl.
Qed.

Lemma range_items_cons data ranges x xs : Forall (range_in (zlen data)) ranges →
  range_items data ranges = x :: xs →
  ∃ r rs, ranges = r :: rs ∧ slice_or_copy (Contiguous data) r = Ok x ∧
    range_items data rs = xs ∧ Forall (range_in (zlen data)) rs.
Proof.
  destruct ranges as [|r rs]; [done|]. intros [Hr Hrs]%Forall_cons [= <- <-].
  exists r, rs. split_and!; [done| |done..]. by apply slice_or_copy_in.
Qed.

Lemma payload_of_elements_cases (P : list element → Payload → Prop) :
  P [] (mkPayload None None None) →
  (∀ a, P [EArguments a] (mkPayload (Some a) None None)) →
  (∀ a k, P [EArguments a; EKeywords k] (mkPayload (Some a) (Some k) None)) →
  ∀ es p, payload_of_elements es = Some p → P es p.
Proof.
  intros H1 H2 H3 es p Hp. unfold payload_of_elements in Hp. by repeat case_match; simplify_eq.
Qed.

Lemma cbor_part_arguments a e : (λ b, Z.shiftr b 5) <$> head a = Some 4 → cbor_part 4 e (Some a) = Ok (Some a).
Proof.
  intros H. unfold cbor_part. rewrite (bool_decide_eq_false_2 (a = [0xf6])) by (by intros ->).
  by rewrite bool_decide_eq_true_2.
Qed.
Lemma cbor_part_keywords k e : (λ b, Z.shiftr b 5) <$> head k = Some 5 → cbor_part 5 e (Some k) = Ok (Some k).
Proof.
  intros H. unfold cbor_part. rewrite (bool_decide_eq_false_2 (k = [0xf6])) by (by intros ->).
  by rewrite bool_decide_eq_true_2.
Qed.

Lemma payload_part_slice data r x major e : slice_or_copy data r = Ok x →
  cbor_payload_part data (Some r) major e = cbor_part major e (Some x).
Proof.
  intros Hs. unfold cbor_payload_part, cbor_part. rewrite Hs. cbn [mbind outcome_bind].
  destruct (bool_decide (x = [0xf6])); [done|].
  by destruct (bool_decide ((λ b, Z.shiftr b 5) <$> head x = Some major)).
Qed.

(** The ranges of known elements, one by one. *)
Local Ltac split_ranges :=
  repeat match goal with
  | H : Forall2 _ [] ?l |- _ => apply Forall2_nil_inv_l in H; subst l
  | Hi : range_items ?data ?ranges = _ :: _, Hin : Forall _ ?ranges |- _ =>
      let r := fresh "r" in let rs := fresh "rs" in let Hs := fresh "Hs" in let Hin' := fresh "Hin" in
      apply (range_items_cons _ _ _ _ Hin) in Hi as (r & rs & -> & Hs & Hi & Hin'); clear Hin
  | Hi : range_items ?data ?ranges = [] |- _ => apply fmap_nil_inv in Hi; subst ranges
  end.

Local Ltac open_cbor_elements :=
  repeat match goal with
  | H : cbor_element (EInteger _) _ |- _ =>
      let v := fresh "v" in let Hv := fresh "Hv" in let Hu := fresh "Hu" in destruct H as (_ & v & Hv & Hu)
  | H : cbor_element (EArguments _) _ |- _ => let Hm := fresh "Hm" in destruct H as (_ & -> & Hm)
  | H : cbor_element (EKeywords _) _ |- _ => let Hm := fresh "Hm" in destruct H as (_ & -> & Hm)
  | H : cbor_element _ _ |- _ => destruct H as [_ H]
  end.

Local Ltac eval_cbor :=
  unfold cbor_payload, enumerate_skip1, cbor_rest_value, cbor_value, parse_value_parts,
    parse_event, parse_invocation, parse_result, parse_error, extract_payload, get, part, serialize_value;
  repeat first
    [ progress cbn -[cbor_payload_part slice_or_copy value_as_u64 cbor_part cbor_payload_spec Z.eqb String.eqb]
    | match goal with
      | H : slice_or_copy _ _ = Ok _ |- _ => rewrite H
      | H : cbor_value_de _ = inr _ |- _ => rewrite H
      | H : ∀ l, value_as_u64 _ l = Ok _ |- _ => rewrite H
      | H : cbor_to_vec _ = inr _ |- _ => rewrite H
      | H : slice_or_copy _ ?r = Ok _ |- context [cbor_payload_part _ (Some ?r) _ _] =>
          rewrite (payload_part_slice _ _ _ _ _ H)
      | |- context [cbor_payload_part ?f None ?k ?e] => change (cbor_payload_part f None k e) with (Ok (E:=ParseError) (@None (list Z)))
      | H : _ = Some 4 |- _ => rewrite (cbor_part_arguments _ _ H)
      | H : _ = Some 5 |- _ => rewrite (cbor_part_keywords _ _ H)
      end
    | progress cbv [cbor_payload_spec Z.eqb Pos.eqb] ];
  reflexivity.

(** A message array in CBOR parses to the message it spells. *)
Lemma cbor_elements_parse `{!CborStandIns SL} es data m : cbor_array es data → message_of_elements es = Some m →
  parse_message Cbor data = Ok (mkParsedMessage m (Contiguous data) Cbor None).
Proof.
  intros (header & xs & -> & Hh & Hz & Hes) Hm.
  assert (Forall cbor_whole xs) as Hxs
    by (clear -Hes; induction Hes as [|e x es xs (Hx & _) _ IH]; by constructor).
  destruct (cbor_top_level_complete header xs Hh Hxs Hz) as (ranges & Hr & Hi & Hin). clear Hh Hz Hxs.
  unfold parse_message, parse_message_frame, parse_cbor_message. cbn [as_contiguous]. rewrite Hr.
  cbn [mbind outcome_bind]. clear Hr.
  set (data := header ++ concat xs) in *. clearbody data.
  destruct cbor_stand_ins as [[sa Ha] [sk Hk]].
  revert es m Hm xs ranges Hes Hi Hin.
  apply (message_of_elements_cases (λ es m, ∀ xs ranges, _ → _ → _ → _)).
  all: intros until p; intros Hp; revert rest p Hp; apply (payload_of_elements_cases (λ rest p, ∀ xs ranges, _ → _ → _ → _));
    intros; split_elements; split_ranges; open_cbor_elements; eval_cbor.
Qed.
End cbor_elements.

(** ** JSON *)

(** [\[t1,t2,...\]] *)
Definition json_array_octets (ts : list str) : list Z :=
  [0x5b] ++ join [0x2c] (utf8_encode <$> ts) ++ [0x5d].

(** A text that [serde_json] takes for one value: the only element of an array
    around it. *)
Definition json_text `{SL : !SerdeLib} (t : str) : Prop :=
  json_fields (json_array_octets [t]) = inr [mkRawValue 1 t] ∧ json_end (json_array_octets [t]) = inr ().

(** What [serde_json] promises of arrays: one written from values has these
    values, and the elements of one that was read are values. *)
Class JsonArrays (SL : SerdeLib) : Prop := {
  json_array_written ts : ts ≠ [] → Forall json_text ts →
    (∃ fields, json_fields (json_array_octets ts) = inr fields ∧ rv_text <$> fields = ts) ∧
    json_end (json_array_octets ts) = inr ();
  json_array_read data fields : json_fields data = inr fields → json_end data = inr () →
    Forall json_text (rv_text <$> fields);
}.

Lemma drop_while_suffix p (s : str) : ∃ k, s = k ++ drop_while p s.
Proof.
  induction s as [|c s [k Hk]]; [by exists []|]. cbn [drop_while].
  destruct (p c); [exists (c :: k); simpl; by rewrite <-Hk|by exists []].
Qed.

(** A text that begins with a bracket is not [null]. *)
Lemma json_bracket_not_null c t : is_whitespace c = false → c ≠ 0x6e → is_json_null (c :: t) = false.
Proof.
  intros Hc Hn. unfold is_json_null, str_eqb. apply bool_decide_eq_false. intros E.
  unfold trim, trim_by in E. change (drop_while is_whitespace (c :: t)) with
    (if is_whitespace c then drop_while is_whitespace t else c :: t) in E. rewrite Hc in E.
  destruct (drop_while_suffix is_whitespace (rev (c :: t))) as [k Hk].
  apply (f_equal (@rev Z)) in Hk. rewrite rev_involutive, rev_app_distr, E in Hk. by injection Hk.
Qed.

Section json_elements.
Context `{SL : !SerdeLib}.

Definition json_element (e : element) (t : str) : Prop :=
  json_text t ∧
  match e with
  | EInteger n => json_u64_de t = Some n
  | EText s => is_json_null t = false ∧ json_str_de t = inr s
  | EMap m => is_json_null t = false ∧ first_non_ws t = Some 0x7b ∧ json_value_de t = inr (VMap m)
  | EArguments a => utf8_encode t = a ∧ is_json_null t = false ∧ first_non_ws t = Some 0x5b
  | EKeywords k => utf8_encode t = k ∧ is_json_null t = false ∧ first_non_ws t = Some 0x7b
  end.

Definition json_array (es : list element) (data : list Z) : Prop :=
  ∃ ts, data = json_array_octets ts ∧ Forall2 json_element es ts.

Lemma json_u64_text r n l : json_u64_de (rv_text r) = Some n → json_u64 r l = Ok n.
Proof. intros H. unfold json_u64. by rewrite H. Qed.

Lemma json_map_text r m l : is_json_null (rv_text r) = false ∧ first_non_ws (rv_text r) = Some 0x7b ∧
  json_value_de (rv_text r) = inr (VMap m) → json_map r l = Ok m.
Proof. intros (H1 & H2 & H3). unfold json_map. by rewrite H1, bool_decide_eq_true_2, H3. Qed.

Lemma json_string_text r s l : is_json_null (rv_text r) = false ∧ json_str_de (rv_text r) = inr s →
  json_string r l = Ok s.
Proof. intros (H1 & H2). unfold json_string. by rewrite H1, H2. Qed.

Lemma json_part_text b e r a : utf8_encode (rv_text r) = a ∧ is_json_null (rv_text r) = false ∧
  first_non_ws (rv_text r) = Some b → json_part b e (Some r) = Ok (Some a).
Proof. intros (<- & H1 & H2). unfold json_part. by rewrite H1, bool_decide_eq_true_2. Qed.

Lemma fields_cons fields t ts : rv_text <$> fields = t :: ts →
  ∃ r rs, fields = r :: rs ∧ rv_text r = t ∧ rv_text <$> rs = ts.
Proof. destruct fields as [|r rs]; [done|]. intros [= <- <-]. by exists r, rs. Qed.

(** The fields of known texts, one by one. *)
Local Ltac split_fields :=
  repeat match goal with
  | H : Forall2 _ [] ?l |- _ => apply Forall2_nil_inv_l in H; subst l
  | Hf : rv_text <$> ?fields = _ :: _ |- _ =>
      let r := fresh "r" in let rs := fresh "rs" in
      apply fields_cons in Hf as (r & rs & -> & <- & Hf)
  | Hf : rv_text <$> ?fields = [] |- _ => apply fmap_nil_inv in Hf; subst fields
  end.

(** Picks the arm of a code. *)
Local Ltac pick_arm :=
  unfold json_message_of, json_session_message, json_pubsub_message, json_call_message,
    json_registration_message, json_invocation_message;
  cbv [Z.eqb Pos.eqb]; rewrite ?first_some_None, first_some_Some.

Local Ltac eval_json :=
  repeat first
    [ match goal with
      | |- context [json_u64 ?r ?l] => erewrite (json_u64_text r _ l) by eassumption
      | |- context [json_message_of _ _ _] => pick_arm
      | |- context [json_map ?r ?l] => erewrite (json_map_text r _ l) by eassumption
      | |- context [json_string ?r ?l] => erewrite (json_string_text r _ l) by eassumption
      | |- context [json_part ?b ?e (Some ?r)] => erewrite (json_part_text b e r) by eassumption
      | Hb : Forall _ ?fields |- context [json_payload ?d ?la (field ?fields ?i) ?lk (field ?fields ?j)] =>
          rewrite (json_payload_borrowed d fields la i lk j Hb)
      | |- context [json_part ?b ?e None] => change (json_part b e None) with (Ok (E:=ParseError) (@None (list Z)))
      end
    | progress cbn [ok_or mbind outcome_bind json_get lookup list_lookup] ].

(** A message array in JSON parses to the message it spells. *)
Lemma json_elements_parse `{!JsonArrays SL} `{!JsonBorrow SL} es data m :
  json_array es data → message_of_elements es = Some m →
  parse_message Json data = Ok (mkParsedMessage m (Contiguous data) Json None).
Proof.
  intros (ts & -> & Hes) Hm.
  assert (Forall json_text ts) as Hts
    by (clear -Hes; induction Hes as [|e t es ts (Ht & _) _ IH]; by constructor).
  destruct (json_array_written ts) as [(fields & Hf & Htx) Hend]; [|done|].
  { intros ->. by inversion Hes; subst. }
  pose proof (json_borrow _ _ Hf) as Hb.
  unfold parse_message, parse_message_frame, parse_json_message. cbn [into_bytes]. rewrite Hf, Hend.
  cbn [lift_de mbind outcome_bind]. clear Hf Hend Hts.
  set (data := json_array_octets ts) in *. clearbody data.
  revert es m Hm ts fields Hes Htx Hb.
  apply (message_of_elements_cases (λ es m, ∀ ts fields, _ → _ → _ → _)).
  all: intros until p; intros Hp; revert rest p Hp; apply (payload_of_elements_cases (λ rest p, ∀ ts fields, _ → _ → _ → _));
    intros; split_elements; split_fields.
  all: repeat match goal with H : json_element _ _ |- _ => destruct H as [_ H] end.
  all: eval_json; reflexivity.
Qed.
End json_elements.

(** ** The three encodings *)
Section arrays.
Context `{SL : !SerdeLib}.

(** The octets of a message array of the given elements. *)
Definition message_array (s : Serializer) (es : list element) (data : list Z) : Prop :=
  match s with
  | Json => json_array es data
  | MessagePack => msgpack_array es data
  | Cbor => cbor_array es data
  | _ => False
  end.

Lemma elements_parse `{!JsonArrays SL} `{!JsonBorrow SL} `{!CborStandIns SL} s es data m :
  message_array s es data → (s = MessagePack → msgpack_room (Contiguous data)) → message_of_elements es = Some m →
  parse_message s data = Ok (mkParsedMessage m (Contiguous data) s None).
Proof.
  intros Ha Hroom. destruct s; [by apply json_elements_parse|apply msgpack_elements_parse; auto|by apply cbor_elements_parse|destruct Ha..].
Qed.
End arrays.
