(* ===== verification/Forwarding.v ===== *)
(** * Message forwarding

    Of [ct_ffi/src/runtime/ffi.rs]: a router answers a stored PUBLISH, CALL, YIELD
    or ERROR with the EVENT, INVOCATION, RESULT or ERROR it stands for, in the
    encoding of the destination.  The routing metadata is encoded anew, the
    application payload stays in the octets it arrived in; between the binary
    encodings a payload in passthru mode (PPT) is wrapped anew around its
    body. *)
From S2P Require Import Prelude Bytes Text TextOps WampTypes RawFrame Msgpack MsgpackMessage WampValues Cbor Json CborScanner FbProjection FbWriter FbSegments WampParse FileSegments FfiErrors BinaryArguments WireElements.

(** The writers of the [rmp] crate into a buffer, and the order of
    [serde_value::Value], which a [BTreeMap] keeps its keys in. *)
Class RmpLib : Type := {
  rmp_write_array_len : Z → option (list Z);
  rmp_write_u64 : Z → option (list Z);
  rmp_write_bin_len : Z → option (list Z);
  value_ltb : value → value → bool;
}.

(** ** Routing metadata

    [JsonMap<String, JsonValue>], in the order of its keys. *)
Inductive JsonValue : Type :=
  | JsonNumber (n : Z)
  | JsonString (s : str)
  | JsonBool (b : bool).

Definition JsonMap : Type := list (str * JsonValue).

Fixpoint json_insert (key : str) (v : JsonValue) (m : JsonMap) : JsonMap :=
  match m with
  | [] => [(key, v)]
  | (k, w) :: m =>
      if str_eqb k key then (key, v) :: m
      else if str_leb key k then (key, v) :: (k, w) :: m
      else (k, w) :: json_insert key v m
  end.

Definition insert_some (key : string) (v : option JsonValue) (m : JsonMap) : JsonMap :=
  match v with Some v => json_insert (lit key) v m | None => m end.

(** A value and a map as [serde] serializes them. *)
Definition json_value (v : JsonValue) : value :=
  match v with JsonNumber n => VU64 n | JsonString s => VString s | JsonBool b => VBool b end.
Definition json_entries (m : JsonMap) : ValueMap := (λ p, (VString p.1, json_value p.2)) <$> m.

Definition ppt_keys : list string := ["ppt_scheme"; "ppt_serializer"; "ppt_cipher"; "ppt_keyid"]%string.

(** The loop over the options. *)
Fixpoint insert_ppt_details_from_options (details : JsonMap) (options : ValueMap) : outcome ErrorCode JsonMap :=
  match options with
  | [] => Ok details
  | (key, v) :: options =>
      match key with
      | VString key =>
          if bool_decide (key ∈ lit <$> ppt_keys) then
            match v with
            | VString text => insert_ppt_details_from_options (json_insert key (JsonString text) details) options
            | _ => Err ERR_INVALID_ARGUMENT
            end
          else insert_ppt_details_from_options details options
      | _ => insert_ppt_details_from_options details options
      end
  end.

Definition event_details (publisher : option Z) (topic : option str) (options : ValueMap) : outcome ErrorCode JsonMap :=
  insert_ppt_details_from_options
    (insert_some "topic" (JsonString <$> topic) (insert_some "publisher" (JsonNumber <$> publisher) [])) options.

(** What the router says of a caller, with the flags of the call. *)
Record CallerDetails : Type := mkCallerDetails {
  cd_caller : option Z;
  cd_caller_authid : option str;
  cd_caller_authrole : option str;
  cd_procedure : option str;
  cd_receive_progress : option bool;
  cd_invocation_progress : option bool;
}.

Definition invocation_details (c : CallerDetails) (options : ValueMap) : outcome ErrorCode JsonMap :=
  insert_ppt_details_from_options
    (insert_some "progress" (JsonBool <$> cd_invocation_progress c)
      (insert_some "receive_progress" (JsonBool <$> cd_receive_progress c)
        (insert_some "procedure" (JsonString <$> cd_procedure c)
          (insert_some "caller_authrole" (JsonString <$> cd_caller_authrole c)
            (insert_some "caller_authid" (JsonString <$> cd_caller_authid c)
              (insert_some "caller" (JsonNumber <$> cd_caller c) [])))))) options.

(** ** Payloads *)
Definition has_args (p : Payload) : bool :=
  bool_decide (is_Some (args p)) || bool_decide (is_Some (transparent p)) || bool_decide (is_Some (kwargs p)).

(** [element_count] *)
Definition element_count (base : Z) (p : Payload) : Z :=
  base + (if has_args p then 1 else 0) + (if bool_decide (is_Some (kwargs p)) then 1 else 0).

Definition JSON_COMMA : list Z := [0x2c].
Definition JSON_CLOSE : list Z := [0x5d].
Definition EMPTY_JSON_ARRAY : list Z := [0x5b; 0x5d].
Definition EMPTY_MSGPACK_ARRAY : list Z := [0x90].

(** What follows the metadata when there are arguments. *)
Definition json_payload_segments (p : Payload) : list (list Z) :=
  if bool_decide (is_Some (args p)) || bool_decide (is_Some (kwargs p)) then
    [JSON_COMMA; default EMPTY_JSON_ARRAY (args p)]
    ++ match kwargs p with Some k => [JSON_COMMA; k] | None => [] end
  else [].

(** [format!] of integers between fixed texts *)
Definition json_prefix (code : string) (ids : list Z) : list Z :=
  utf8_encode (lit code ++ concat ((λ n, show_number n ++ lit ",") <$> ids)).

(** [.map_err(|_| ERR_INVALID_ARGUMENT)] *)
Definition or_invalid {A} (o : option A) : outcome ErrorCode A := ok_or ERR_INVALID_ARGUMENT o.
Definition encoded {A} (r : string + A) : outcome ErrorCode A :=
  match r with inl _ => Err ERR_INVALID_ARGUMENT | inr a => Ok a end.

Definition is_binary_forwarding_serializer (s : Serializer) : bool :=
  match s with Cbor | MessagePack | Flatbuffers => true | _ => false end.

Section forwarding.
Context `{SL : !SerdeLib} `{RL : !RmpLib} `{FB : !FlatBufferLib}.

(** [BTreeMap::insert] *)
Fixpoint map_insert (key v : value) (m : ValueMap) : ValueMap :=
  match m with
  | [] => [(key, v)]
  | (k, w) :: m =>
      if value_ltb key k then (key, v) :: (k, w) :: m
      else if value_ltb k key then (k, w) :: map_insert key v m
      else (k, v) :: m
  end.

Definition append_forwarded_binary_payload (segments : list (list Z)) (p : Payload) (s : Serializer) :
    outcome ErrorCode (list (list Z)) :=
  match transparent p with
  | Some body =>
      if bool_decide (is_Some (args p)) || bool_decide (is_Some (kwargs p)) then Err ERR_INVALID_ARGUMENT
      else
        wrapper ← match s with
                  | MessagePack =>
                      array ← or_invalid (rmp_write_array_len 1);
                      len ← (if zlen body <? 2 ^ 32 then Ok (zlen body) else Err ERR_INVALID_ARGUMENT);
                      bin ← or_invalid (rmp_write_bin_len len);
                      Ok (array ++ bin)
                  | Cbor => Ok (write_cbor_array_len 1 ++ write_cbor_length 0x40 (zlen body))
                  | _ => Err ERR_UNSUPPORTED
                  end;
        Ok (segments ++ [wrapper; body])
  | None =>
      let segments :=
        if bool_decide (is_Some (args p)) || bool_decide (is_Some (kwargs p)) then
          segments ++ [default (match s with MessagePack => EMPTY_MSGPACK_ARRAY | _ => [0x80] end) (args p)]
        else segments in
      Ok (match kwargs p with Some k => segments ++ [k] | None => segments end)
  end.

(** ** EVENT *)
Definition encode_event_segments_json (p : Payload) (subscription_id publication_id : Z)
    (publisher : option Z) (topic : option str) (options : ValueMap) : outcome ErrorCode (list (list Z)) :=
  details ← event_details publisher topic options;
  details_json ← encoded (json_to_vec (VMap (json_entries details)));
  let prefix := json_prefix "[36," [subscription_id; publication_id] in
  if bool_decide (is_Some (args p)) || bool_decide (is_Some (kwargs p)) then
    Ok ([prefix; details_json] ++ json_payload_segments p ++ [JSON_CLOSE])
  else Ok [prefix ++ details_json ++ JSON_CLOSE].

Definition encode_event_segments_msgpack (p : Payload) (subscription_id publication_id : Z)
    (publisher : option Z) (topic : option str) (options : ValueMap) : outcome ErrorCode (list (list Z)) :=
  details ← event_details publisher topic options;
  details_msgpack ← encoded (rmp_to_vec (VMap (json_entries details)));
  header ← or_invalid (rmp_write_array_len (element_count 4 p));
  code ← or_invalid (rmp_write_u64 36);
  subscription ← or_invalid (rmp_write_u64 subscription_id);
  publication ← or_invalid (rmp_write_u64 publication_id);
  append_forwarded_binary_payload [header ++ code ++ subscription ++ publication ++ details_msgpack] p MessagePack.

Definition encode_event_segments_cbor (p : Payload) (subscription_id publication_id : Z)
    (publisher : option Z) (topic : option str) (options : ValueMap) : outcome ErrorCode (list (list Z)) :=
  details ← event_details publisher topic options;
  details_cbor ← encoded (cbor_to_vec (VMap (json_entries details)));
  let header := write_cbor_array_len (element_count 4 p) in
  code ← encoded (cbor_to_vec (VU64 36));
  subscription ← encoded (cbor_to_vec (VU64 subscription_id));
  publication ← encoded (cbor_to_vec (VU64 publication_id));
  append_forwarded_binary_payload [header ++ code ++ subscription ++ publication ++ details_cbor] p Cbor.

(** ** FlatBuffers *)
Definition encode_forwarded_flatbuffers (m : WampMessage) : outcome ErrorCode (list (list Z)) :=
  map_err (λ _, ERR_INVALID_ARGUMENT) (encode_segments m).

(** [flatbuffers_routing_details]: the map as a value is always a map. *)
Definition flatbuffers_routing_details (details : outcome ErrorCode JsonMap) : outcome ErrorCode ValueMap :=
  details ← details; Ok (json_entries details).

(** ** Passthru payloads *)
Definition empty_ppt_keyword_map (source : Serializer) (bytes : list Z) : bool :=
  match source with
  | Cbor =>
      if bool_decide (bytes = [0xbf; 0xff]) then true
      else match read_cbor_length bytes 0 5 with
           | Some (count, offset) => (count =? 0) && (offset =? zlen bytes)
           | None => false
           end
  | MessagePack => bool_decide (bytes ∈ [[0x80]; [0xde; 0; 0]; [0xdf; 0; 0; 0; 0]])
  | _ => false
  end.

(** The octets that hold the body, and where it starts in them. *)
Definition binary_ppt_body (source : Serializer) (p : Payload) (metadata : ValueMap) : option (list Z * Z) :=
  if negb (is_binary_forwarding_serializer source)
     || match kwargs p with Some k => negb (empty_ppt_keyword_map source k) | None => false end
  then None
  else
    scheme ← get_key metadata "ppt_scheme";
    match scheme with
    | VString (_ :: _) =>
        if forallb (λ key, match get_key metadata key with Some (VString _) | None => true | _ => false end)
             ["ppt_serializer"; "ppt_cipher"; "ppt_keyid"]%string
        then
          match transparent p with
          | Some body =>
              if bool_decide (source = Flatbuffers) && bool_decide (args p = None) then Some (body, 0) else None
          | None =>
              octets ← args p;
              match single_binary_argument source octets with
              | Ok body => Some (octets, zlen octets - zlen body)
              | _ => None
              end
          end
        else None
    | _ => None
    end.

(** The payload and metadata of a message that can be forwarded. *)
Definition forwardable (m : WampMessage) : option (Payload * ValueMap) :=
  match m with
  | Publish _ options _ p | Call _ options _ p | Yield _ options p => Some (p, options)
  | Error _ _ details _ p => Some (p, details)
  | _ => None
  end.

Definition reusable_forwarding_serializer (m : ParsedMessage) (target : Serializer) : outcome ErrorCode Serializer :=
  if bool_decide (serializer m = target) then Ok target
  else
    match forwardable (message m) with
    | None => Err ERR_UNSUPPORTED
    | Some (p, metadata) =>
        if is_binary_forwarding_serializer target && bool_decide (is_Some (binary_ppt_body (serializer m) p metadata))
        then Ok target
        else if negb (bool_decide ((serializer m, target) ∈ [(Cbor, Flatbuffers); (Flatbuffers, Cbor)]))
        then Err ERR_UNSUPPORTED
        else if bool_decide (is_Some (transparent p)) || bool_decide (is_Some (get_key metadata "ppt_scheme"))
        then Err ERR_UNSUPPORTED
        else
          _ ← (if bool_decide (target = Flatbuffers)
               then map_err (λ _, ERR_UNSUPPORTED) (validate_flatbuffers_payload p) else Ok tt);
          Ok target
    end.

Definition forwarding_payload (m : ParsedMessage) (target : Serializer) (p : Payload) (metadata : ValueMap) :
    outcome ErrorCode Payload :=
  _ ← reusable_forwarding_serializer m target;
  if bool_decide (serializer m = target) then Ok p
  else
    match binary_ppt_body (serializer m) p metadata with
    | Some (octets, offset) =>
        body ← (if offset =? 0 then Ok octets
                else if offset =? zlen octets then Ok []
                else slice_bytes octets offset (zlen octets));
        Ok (mkPayload None None (Some body))
    | None => Ok p
    end.

Definition encode_event_segments_for_serializer (m : ParsedMessage) (s : Serializer)
    (subscription_id publication_id : Z) (publisher : option Z) (topic : option str) :
    outcome ErrorCode (list (list Z)) :=
  match message m with
  | Publish _ options _ p =>
      p ← forwarding_payload m s p options;
      match s with
      | Json => encode_event_segments_json p subscription_id publication_id publisher topic options
      | MessagePack => encode_event_segments_msgpack p subscription_id publication_id publisher topic options
      | Cbor => encode_event_segments_cbor p subscription_id publication_id publisher topic options
      | Flatbuffers =>
          details ← flatbuffers_routing_details (event_details publisher topic options);
          encode_forwarded_flatbuffers (Event subscription_id publication_id details p)
      | _ => Err ERR_UNSUPPORTED
      end
  | _ => Err ERR_INVALID_ARGUMENT
  end.

(** ** INVOCATION *)
Definition encode_invocation_segments_json (p : Payload) (invocation_id registration_id : Z)
    (c : CallerDetails) (options : ValueMap) : outcome ErrorCode (list (list Z)) :=
  details ← invocation_details c options;
  details_json ← encoded (json_to_vec (VMap (json_entries details)));
  let prefix := json_prefix "[68," [invocation_id; registration_id] in
  if bool_decide (is_Some (args p)) || bool_decide (is_Some (kwargs p)) then
    Ok ([prefix; details_json] ++ json_payload_segments p ++ [JSON_CLOSE])
  else Ok [prefix ++ details_json ++ JSON_CLOSE].

Definition encode_invocation_segments_msgpack (p : Payload) (invocation_id registration_id : Z)
    (c : CallerDetails) (options : ValueMap) : outcome ErrorCode (list (list Z)) :=
  details ← invocation_details c options;
  details_msgpack ← encoded (rmp_to_vec (VMap (json_entries details)));
  header ← or_invalid (rmp_write_array_len (element_count 4 p));
  code ← or_invalid (rmp_write_u64 68);
  invocation ← or_invalid (rmp_write_u64 invocation_id);
  registration ← or_invalid (rmp_write_u64 registration_id);
  append_forwarded_binary_payload [header ++ code ++ invocation ++ registration ++ details_msgpack] p MessagePack.

Definition encode_invocation_segments_cbor (p : Payload) (invocation_id registration_id : Z)
    (c : CallerDetails) (options : ValueMap) : outcome ErrorCode (list (list Z)) :=
  details ← invocation_details c options;
  details_cbor ← encoded (cbor_to_vec (VMap (json_entries details)));
  let header := write_cbor_array_len (element_count 4 p) in
  code ← encoded (cbor_to_vec (VU64 68));
  invocation ← encoded (cbor_to_vec (VU64 invocation_id));
  registration ← encoded (cbor_to_vec (VU64 registration_id));
  append_forwarded_binary_payload [header ++ code ++ invocation ++ registration ++ details_cbor] p Cbor.

Definition encode_invocation_segments_for_serializer (m : ParsedMessage) (s : Serializer)
    (invocation_id registration_id : Z) (c : CallerDetails) : outcome ErrorCode (list (list Z)) :=
  match message m with
  | Call _ options _ p =>
      p ← forwarding_payload m s p options;
      match s with
      | Json => encode_invocation_segments_json p invocation_id registration_id c options
      | MessagePack => encode_invocation_segments_msgpack p invocation_id registration_id c options
      | Cbor => encode_invocation_segments_cbor p invocation_id registration_id c options
      | Flatbuffers =>
          details ← flatbuffers_routing_details (invocation_details c options);
          encode_forwarded_flatbuffers (Invocation invocation_id registration_id details p)
      | _ => Err ERR_UNSUPPORTED
      end
  | _ => Err ERR_INVALID_ARGUMENT
  end.

(** ** RESULT *)
Definition build_result_segments_json (p : Payload) (request_id : Z) (details : list Z) : list (list Z) :=
  [json_prefix "[50," [request_id]; details] ++ json_payload_segments p ++ [JSON_CLOSE].

Definition build_result_segments_msgpack (p : Payload) (request_id : Z) (details : list Z) :
    outcome ErrorCode (list (list Z)) :=
  header ← or_invalid (rmp_write_array_len (element_count 3 p));
  code ← or_invalid (rmp_write_u64 50);
  request ← or_invalid (rmp_write_u64 request_id);
  append_forwarded_binary_payload [header ++ code ++ request; details] p MessagePack.

Definition build_result_segments_cbor (p : Payload) (request_id : Z) (details : list Z) :
    outcome ErrorCode (list (list Z)) :=
  let header := write_cbor_array_len (element_count 3 p) in
  code ← encoded (cbor_to_vec (VU64 50));
  request ← encoded (cbor_to_vec (VU64 request_id));
  append_forwarded_binary_payload [header ++ code ++ request ++ details] p Cbor.

(** The arms that the two functions on RESULT share. *)
Definition result_segments (s : Serializer) (p : Payload) (request_id : Z) (details : ValueMap) :
    outcome ErrorCode (list (list Z)) :=
  match s with
  | Json =>
      details_json ← encoded (json_to_vec (VMap details));
      Ok (build_result_segments_json p request_id details_json)
  | MessagePack =>
      details_msgpack ← encoded (rmp_to_vec (VMap details));
      build_result_segments_msgpack p request_id details_msgpack
  | Cbor =>
      details_cbor ← encoded (cbor_to_vec (VMap details));
      build_result_segments_cbor p request_id details_cbor
  | Flatbuffers => encode_forwarded_flatbuffers (Result request_id details p)
  | _ => Err ERR_UNSUPPORTED
  end.

Definition result_details (options : ValueMap) (progress : bool) : ValueMap :=
  if progress then map_insert (VString (lit "progress")) (VBool true) options else options.

Definition encode_result_segments_for_serializer (m : ParsedMessage) (s : Serializer)
    (request_id : Z) (progress : bool) : outcome ErrorCode (list (list Z)) :=
  match message m with
  | Yield _ options p =>
      p ← forwarding_payload m s p options;
      result_segments s p request_id (result_details options progress)
  | _ => Err ERR_INVALID_ARGUMENT
  end.

(** The PPT options alone, from a call answered by itself. *)
Definition echoed_details (m : ParsedMessage) (p : Payload) (options : ValueMap) : ValueMap :=
  if bool_decide (is_Some (binary_ppt_body (serializer m) p options)) then
    foldl (λ details key,
      match get_key options key with
      | Some v => map_insert (VString (lit key)) v details
      | None => details
      end) [] ppt_keys
  else [].

Definition encode_result_segments_from_call_for_serializer (m : ParsedMessage) (s : Serializer)
    (request_id : Z) : outcome ErrorCode (list (list Z)) :=
  match message m with
  | Call _ options _ p =>
      let details := echoed_details m p options in
      p ← forwarding_payload m s p options;
      result_segments s p request_id details
  | _ => Err ERR_INVALID_ARGUMENT
  end.

(** ** ERROR *)
Definition build_error_segments_json (p : Payload) (request_type request_id : Z) (details error : list Z) :
    list (list Z) :=
  [json_prefix "[8," [request_type; request_id]; details; JSON_COMMA; error]
  ++ json_payload_segments p ++ [JSON_CLOSE].

Definition build_error_segments_msgpack (p : Payload) (request_type request_id : Z) (details error : list Z) :
    outcome ErrorCode (list (list Z)) :=
  header ← or_invalid (rmp_write_array_len (element_count 5 p));
  code ← or_invalid (rmp_write_u64 8);
  kind ← or_invalid (rmp_write_u64 request_type);
  request ← or_invalid (rmp_write_u64 request_id);
  append_forwarded_binary_payload [header ++ code ++ kind ++ request ++ details ++ error] p MessagePack.

Definition build_error_segments_cbor (p : Payload) (request_type request_id : Z) (details error : list Z) :
    outcome ErrorCode (list (list Z)) :=
  let header := write_cbor_array_len (element_count 5 p) in
  code ← encoded (cbor_to_vec (VU64 8));
  kind ← encoded (cbor_to_vec (VU64 request_type));
  request ← encoded (cbor_to_vec (VU64 request_id));
  append_forwarded_binary_payload [header ++ code ++ kind ++ request ++ details ++ error] p Cbor.

Definition encode_error_segments_for_serializer (m : ParsedMessage) (s : Serializer)
    (request_type request_id : Z) : outcome ErrorCode (list (list Z)) :=
  match message m with
  | Error _ _ details error p =>
      p ← forwarding_payload m s p details;
      match s with
      | Json =>
          details_json ← encoded (json_to_vec (VMap details));
          error_json ← encoded (json_to_vec (VString error));
          Ok (build_error_segments_json p request_type request_id details_json error_json)
      | MessagePack =>
          details_msgpack ← encoded (rmp_to_vec (VMap details));
          error_msgpack ← encoded (rmp_to_vec (VString error));
          build_error_segments_msgpack p request_type request_id details_msgpack error_msgpack
      | Cbor =>
          details_cbor ← encoded (cbor_to_vec (VMap details));
          error_cbor ← encoded (cbor_to_vec (VString error));
          build_error_segments_cbor p request_type request_id details_cbor error_cbor
      | Flatbuffers => encode_forwarded_flatbuffers (Error request_type request_id details error p)
      | _ => Err ERR_UNSUPPORTED
      end
  | _ => Err ERR_INVALID_ARGUMENT
  end.
End forwarding.
