(* ===== verification/ForwardRoundtrip.v ===== *)
(** * Forwarded messages read back

    What the encoders of Forwarding send parses, with the parsers of [wamp.rs],
    to the message the router means: its ids, metadata that says the same, and
    the application payload octet for octet. *)
From stdpp Require Import sorting.
From S2P Require Import Prelude Bytes Text TextOps WampTypes RawFrame Msgpack MsgpackMessage WampValues Cbor Json CborScanner FbProjection FbWriter FbSegments WampParse FileSegments HttpHead FfiErrors BinaryArguments WireElements Forwarding.

(** ** Values that survive an encoding

    Equal up to the width of an integer: what the three encodings keep of
    booleans, integers, text, unit, lists, and maps with text keys.  A value is
    plain when it is the same as itself. *)
Definition integer_of (v : value) : option Z :=
  match v with
  | VU8 n | VU16 n | VU32 n | VU64 n | VI8 n | VI16 n | VI32 n | VI64 n => Some n
  | _ => None
  end.

(** Maps as [BTreeMap] holds them: the keys, here texts, ascend. *)
Definition text_lt (s t : str) : Prop := str_leb t s = false.
Definition key_lt (p q : value * value) : Prop := ∃ s t, p.1 = VString s ∧ q.1 = VString t ∧ text_lt s t.
Definition ascending (m : ValueMap) : Prop := StronglySorted key_lt m.

Inductive same_value : value → value → Prop :=
  | same_bool b : same_value (VBool b) (VBool b)
  | same_integer v w n : integer_of v = Some n → integer_of w = Some n → -2 ^ 63 ≤ n < 2 ^ 64 → same_value v w
  | same_text s : str_ok s → same_value (VString s) (VString s)
  | same_unit : same_value VUnit VUnit
  | same_seq vs ws : Forall2 same_value vs ws → same_value (VSeq vs) (VSeq ws)
  | same_entries m k : ascending m → ascending k →
      Forall2 (λ p q, (∃ s, str_ok s ∧ p.1 = VString s ∧ q.1 = VString s) ∧ same_value p.2 q.2) m k →
      same_value (VMap m) (VMap k).

Definition same_map (m k : ValueMap) : Prop := same_value (VMap m) (VMap k).

(** The lists and maps around the innermost value. *)
Fixpoint value_depth (v : value) : Z :=
  match v with
  | VOption (Some v) | VNewtype v => value_depth v
  | VSeq vs => 1 + foldr (λ v, Z.max (value_depth v)) 0 vs
  | VMap m => 1 + foldr (λ p, Z.max (Z.max (value_depth p.1) (value_depth p.2))) 0 m
  | _ => 0
  end.

(** [serde_json] and [serde_cbor] read fewer than this many levels ([rmp_serde]
    1024), and write any number. *)
Definition NESTING_LIMIT : Z := 128.

(** A map is plain when every entry is, and when the three decoders read it: it
    nests less than their limits. *)
Definition plain_entry (p : value * value) : Prop :=
  (∃ s, str_ok s ∧ p.1 = VString s) ∧ same_value p.2 p.2 ∧ 1 + value_depth p.2 < NESTING_LIMIT.
Definition plain (m : ValueMap) : Prop := ascending m ∧ Forall plain_entry m.

(** *** The metadata that a router writes is plain *)
Lemma text_lt_total s t : text_lt s t ∨ s = t ∨ text_lt t s.
Proof.
  unfold text_lt. destruct (str_leb t s) eqn:E1; [|by left]. destruct (str_leb s t) eqn:E2; [|auto].
  right. left. by apply (anti_symm str_le).
Qed.

Lemma str_leb_refl s : str_leb s s = true.
Proof. by destruct (total str_le s s). Qed.

Lemma text_lt_le s t : text_lt s t → str_leb s t = true.
Proof.
  unfold text_lt. intros H. destruct (total str_le s t) as [E|E]; [done|]. unfold str_le in E. congruence.
Qed.

Lemma text_lt_trans s t u : text_lt s t → text_lt t u → text_lt s u.
Proof.
  intros H1 H2. destruct (str_leb u s) eqn:E; [|done]. exfalso.
  assert (str_le u t) as E2 by (trans s; [exact E|by apply text_lt_le]). unfold text_lt, str_le in *. congruence.
Qed.

Definition json_plain (v : JsonValue) : Prop :=
  match v with JsonNumber n => 0 ≤ n < 2 ^ 64 | JsonString s => str_ok s | JsonBool _ => True end.
Definition json_map_plain (d : JsonMap) : Prop :=
  StronglySorted (λ p q, text_lt p.1 q.1) d ∧ Forall (λ p, str_ok p.1 ∧ json_plain p.2) d.

Lemma json_entries_plain d : json_map_plain d → plain (json_entries d).
Proof.
  intros [Hs H]. split.
  - induction Hs as [|p d _ IH Hp]; [constructor|]. apply Forall_cons in H as [_ H]. cbn. constructor; [by apply IH|].
    apply Forall_fmap. eapply Forall_impl; [exact Hp|]. intros q Hq. by exists p.1, q.1.
  - apply Forall_fmap. eapply Forall_impl; [exact H|]. intros [k v] [Hk Hv]. split; [by exists k|].
    split; [|by destruct v]. destruct v; simpl in *; [|by constructor..]. econstructor; [done..|lia].
Qed.

Lemma json_insert_Forall (P : str * JsonValue → Prop) key v d : P (key, v) → Forall P d → Forall P (json_insert key v d).
Proof. intros HP. induction 1 as [|[k w] d Hd Hds IH]; simpl; [by constructor|]. repeat case_match; by repeat constructor. Qed.

Lemma json_insert_plain key v d : str_ok key → json_plain v → json_map_plain d → json_map_plain (json_insert key v d).
Proof.
  intros Hk Hv [Hs Hd]. split; [|by apply json_insert_Forall].
  clear Hd. induction Hs as [|[k w] d Hs IH Hp]; simpl; [by repeat constructor|].
  unfold str_eqb. case_bool_decide as E; [subst k; by constructor|]. destruct (str_leb key k) eqn:El.
  - assert (text_lt key k) as Hlt by (destruct (text_lt_total key k) as [|[|Hlt]]; [done|congruence|unfold text_lt in Hlt; congruence]).
    constructor; [by constructor|]. constructor; [done|]. eapply Forall_impl; [exact Hp|]. intros q. by apply text_lt_trans.
  - constructor; [done|]. by apply json_insert_Forall.
Qed.

Lemma insert_some_plain (key : string) v d : str_ok (lit key) → (∀ x, v = Some x → json_plain x) →
  json_map_plain d → json_map_plain (insert_some key v d).
Proof. intros Hk Hv Hd. destruct v; simpl; [apply json_insert_plain; auto|done]. Qed.

Lemma insert_ppt_plain options : plain options → ∀ d d', json_map_plain d →
  insert_ppt_details_from_options d options = Ok d' → json_map_plain d'.
Proof.
  intros [_ Ho]. induction Ho as [|[k v] options [(key & Hkey & Hk) [Hv _]] _ IH]; intros d d' Hd H; simpl in *; [by inv_ok|].
  subst k. destruct (bool_decide _); [|by eapply IH]. destruct v; try discriminate.
  eapply IH; [|exact H]. apply json_insert_plain; [done| |done]. inversion Hv; subst; done.
Qed.

Lemma get_key_plain m key v : plain m → get_key m key = Some v → same_value v v ∧ 1 + value_depth v < NESTING_LIMIT.
Proof.
  intros [_ Hm] H. unfold get_key, map_get in H. apply fmap_Some in H as ([i p] & Hp & ->).
  apply list_find_Some in Hp as (Hp & _). by apply (Forall_lookup_1 _ _ _ _ Hm Hp).
Qed.

(** ** What the crates promise of their writers *)
Class ForwardLaws (SL : SerdeLib) (RL : RmpLib) : Prop := {
  (** texts are ordered by their octets *)
  text_order s t : value_ltb (VString s) (VString t) = negb (str_leb t s);
  rmp_array_len_written n b : 0 ≤ n < 2 ^ 32 → rmp_write_array_len n = Some b → mp_array_header n b;
  rmp_u64_written n b : 0 ≤ n < 2 ^ 64 → rmp_write_u64 n = Some b → msgpack_element (EInteger n) b;
  rmp_bin_len_written n b : 0 ≤ n < 2 ^ 32 → rmp_write_bin_len n = Some b → mp_binary_header n b;
  rmp_map_written m b : plain m → rmp_to_vec (VMap m) = inr b →
    ∃ k, same_map m k ∧ msgpack_element (EMap k) b;
  rmp_text_written s b : str_ok s → rmp_to_vec (VString s) = inr b → msgpack_element (EText s) b;
  cbor_u64_written n b : 0 ≤ n < 2 ^ 64 → cbor_to_vec (VU64 n) = inr b → cbor_element (EInteger n) b;
  cbor_map_written m b : plain m → cbor_to_vec (VMap m) = inr b →
    ∃ k, same_map m k ∧ cbor_element (EMap k) b;
  cbor_text_written s b : str_ok s → cbor_to_vec (VString s) = inr b → cbor_element (EText s) b;
  (** [IgnoredAny] reads one item and nothing behind it *)
  cbor_empty_whole : cbor_whole [0x80];
  cbor_binary_whole args body : bytes_ok args → cbor_binary_argument args body → cbor_whole args;
  cbor_skip_prefix x rest : x ≠ [] → bytes_ok (x ++ rest) → cbor_skip (x ++ rest) = inr (Z.to_N (zlen x)) →
    ∀ rest', cbor_skip (x ++ rest') = inr (Z.to_N (zlen x));
  json_number_written n : 0 ≤ n < 2 ^ 64 → json_element (EInteger n) (show_number n);
  json_map_written m b : plain m → json_to_vec (VMap m) = inr b →
    ∃ t k, b = utf8_encode t ∧ same_map m k ∧ json_element (EMap k) t;
  json_text_written s b : str_ok s → json_to_vec (VString s) = inr b →
    ∃ t, b = utf8_encode t ∧ json_element (EText s) t;
  json_empty_array : json_text (lit "[]");
}.

Section roundtrip.
Context `{SL : !SerdeLib} `{RL : !RmpLib} `{FB : !FlatBufferLib}.
Context `{FL : !ForwardLaws SL RL} `{JA : !JsonArrays SL} `{JB : !JsonBorrow SL} `{CS : !CborStandIns SL}.

(** [BTreeMap::insert] keeps a map plain. *)
Lemma map_insert_Forall (P : value * value → Prop) key v m : (∀ p, p ∈ m → ∃ s, p.1 = VString s) →
  P (VString key, v) → Forall P m → Forall P (map_insert (VString key) v m).
Proof.
  intros Hkeys HP. induction 1 as [|[k w] m Hd Hds IH]; simpl; [by constructor|].
  destruct (Hkeys (k, w) ltac:(by left)) as [s Es]. simpl in Es. subst k.
  rewrite !text_order. destruct (text_lt_total key s) as [E|[->|E]].
  - unfold text_lt in E. rewrite E. by repeat constructor.
  - rewrite str_leb_refl. by constructor.
  - rewrite (text_lt_le _ _ E). unfold text_lt in E. rewrite E. constructor; [done|].
    apply IH. intros p Hp. apply Hkeys. by right.
Qed.

Lemma map_insert_plain key v m : str_ok key → same_value v v → 1 + value_depth v < NESTING_LIMIT → plain m →
  plain (map_insert (VString key) v m).
Proof.
  intros Hk Hv Hdep [Hs Hm].
  assert (∀ m, Forall plain_entry m → ∀ p, p ∈ m → ∃ s, p.1 = VString s) as Hkeys.
  { intros m' Hm' p Hp. rewrite Forall_forall in Hm'. destruct (Hm' p Hp) as [(s & _ & ?) _]. by exists s. }
  split; [|by apply map_insert_Forall; [by apply Hkeys|split; [by exists key|]|]].
  induction Hs as [|[k w] m Hs IH Hp]; simpl; [by repeat constructor|].
  apply Forall_cons in Hm as [[(s & Hsok & Es) _] Hm]. simpl in Es. subst k.
  rewrite !text_order. destruct (text_lt_total key s) as [E|[->|E]].
  - assert (str_leb s key = false) as -> by done. constructor; [by constructor|]. constructor; [by exists key, s|].
    eapply Forall_impl; [exact Hp|]. intros q (a & t & [= <-] & Et & Ht). exists key, t.
    split_and!; [done..|]. by apply (text_lt_trans _ s).
  - rewrite str_leb_refl. by constructor.
  - rewrite (text_lt_le _ _ E). unfold text_lt in E. rewrite E. cbn [negb]. constructor; [by apply IH|].
    apply map_insert_Forall; [by apply Hkeys|by exists s, key|done].
Qed.

(** ** Payloads *)

(** A part of a payload is an element of its encoding. *)
Definition part_ok (s : Serializer) (e : list Z → element) (x : list Z) : Prop :=
  match s with
  | Json => ∃ t, json_element (e x) t ∧ utf8_encode t = x
  | MessagePack => msgpack_element (e x) x
  | Cbor => cbor_element (e x) x
  | _ => False
  end.

Definition payload_ok (s : Serializer) (p : Payload) : Prop :=
  (∀ a, args p = Some a → part_ok s EArguments a) ∧
  (∀ k, kwargs p = Some k → part_ok s EKeywords k) ∧
  (∀ body, transparent p = Some body → s ≠ Json ∧ bytes_ok body ∧ zlen body < 2 ^ 63).

Definition empty_arguments (s : Serializer) : list Z :=
  match s with Json => EMPTY_JSON_ARRAY | MessagePack => EMPTY_MSGPACK_ARRAY | _ => [0x80] end.

(** The payload the destination has of [p]: the same octets, an empty list
    where only keyword arguments were given, and the body of a passthru payload
    as its one binary argument. *)
Definition delivered (s : Serializer) (p q : Payload) : Prop :=
  transparent q = None ∧ kwargs q = kwargs p ∧
  match transparent p with
  | Some body => ∃ a, args q = Some a ∧ single_binary_argument s a = Ok body
  | None => args q = match args p, kwargs p with
                     | None, Some _ => Some (empty_arguments s)
                     | a, _ => a
                     end
  end.

(** Elements and the octets they are sent in. *)
Definition binary_element (s : Serializer) (e : element) (x : list Z) : Prop :=
  match s with MessagePack => msgpack_element e x | Cbor => cbor_element e x | _ => False end.

Lemma empty_arguments_ok s : s = MessagePack ∨ s = Cbor →
  binary_element s (EArguments (empty_arguments s)) (empty_arguments s).
Proof.
  intros [-> | ->]; simpl.
  - split; [|split; [repeat constructor; unfold u8_ok; lia|done]].
    apply (mp_count 0x90 0 []); [unfold u8_ok; lia|done|constructor].
  - split; [apply cbor_empty_whole|]. done.
Qed.

Lemma mp_binary_item n h body : mp_binary_header n h → bytes_ok body → zlen body = n → mp_item (h ++ body).
Proof.
  intros Hh Hb Hn. destruct Hh as [n Hu|b Hok Hz|b Hok Hz].
  - apply (mp_sized 0xc4 W8 0 [n] body); [unfold u8_ok; lia|done|done|]. unfold be_value. simpl. lia.
  - apply (mp_sized 0xc5 W16 0 b body); [unfold u8_ok; lia|done|done|lia].
  - apply (mp_sized 0xc6 W32 0 b body); [unfold u8_ok; lia|done|done|lia].
Qed.

Lemma mp_one_array h x : mp_array_header 1 h → mp_item x → mp_item (h ++ x) ∧ msgpack_is_array (h ++ x) = true ∧ mp_array_one h.
Proof.
  intros Hh Hx. assert (mp_items 1 x) as Hi.
  { rewrite <-(app_nil_r x). apply (mp_more 0); [lia|done|constructor]. }
  remember 1 as n eqn:En. destruct Hh as [m Hm|b Hb Hz|b Hb Hz].
  - assert (m = 0x91) as -> by lia. split; [|split; [done|by left]].
    by apply (mp_count 0x91 1 x); [unfold u8_ok; lia|done|].
  - apply two_octets in En as ->; [|done..]. split; [|split; [done|right; by left]].
    by apply (mp_counted 0xdc W16 false [0; 1] x); [unfold u8_ok; lia|done..|].
  - apply four_octets in En as ->; [|done..]. split; [|split; [done|right; by right]].
    by apply (mp_counted 0xdd W32 false [0; 0; 0; 1] x); [unfold u8_ok; lia|done..|].
Qed.

(** The wrapper written around a body makes it the one binary argument. *)
Lemma wrapped_body_msgpack array bin body : bytes_ok body → zlen body < 2 ^ 32 →
  rmp_write_array_len 1 = Some array → rmp_write_bin_len (zlen body) = Some bin →
  msgpack_element (EArguments ((array ++ bin) ++ body)) ((array ++ bin) ++ body) ∧
  single_binary_argument MessagePack ((array ++ bin) ++ body) = Ok body.
Proof.
  intros Hb Hz Ha Hbin. zlen_facts.
  apply rmp_array_len_written in Ha; [|lia]. apply rmp_bin_len_written in Hbin; [|lia].
  rewrite <-(assoc_L (++)).
  destruct (mp_one_array array (bin ++ body) Ha) as (Hi & Har & Hone); [by apply (mp_binary_item (zlen body))|].
  assert (bytes_ok bin ∧ zlen bin ≤ 5) as [Hok Hlen].
  { destruct Hbin as [n Hn|b Hok Hl|b Hok Hl]; (split; [constructor; [unfold u8_ok; lia|]|rewrite ?zlen_cons, ?Hl, ?zlen_nil; lia]);
      [by constructor|done..]. }
  assert (zlen array ≤ 5) by (destruct Hone as [->|[->| ->]]; by vm_compute).
  split.
  - split; [done|]. split; [|done]. apply Forall_app. split; [by apply mp_header_ok in Ha|]. by apply Forall_app.
  - simpl. rewrite (mp_binary_complete _ body); [done|zlia|]. by exists array, bin.
Qed.

Lemma wrapped_body_cbor body : bytes_ok body → zlen body < 2 ^ 63 →
  let a := (write_cbor_array_len 1 ++ write_cbor_length 0x40 (zlen body)) ++ body in
  cbor_element (EArguments a) a ∧ single_binary_argument Cbor a = Ok body.
Proof.
  intros Hb Hz a. pose proof (zlen_nonneg body).
  assert (cbor_binary_argument a body) as Ha.
  { exists [0x81], (write_cbor_length 0x40 (zlen body)). split.
    - exists 1, []. split; [|done]. split; [constructor|]. left. split_and!; lia || done.
    - split; [apply (write_cbor_length_head 2); lia|]. unfold a. by rewrite <-(assoc_L (++)). }
  assert (bytes_ok a) as Hok.
  { unfold a, bytes_ok. rewrite !Forall_app. split_and!; [by apply (write_cbor_length_ok 4 1); lia| |done].
    apply (write_cbor_length_ok 2); lia. }
  assert (zlen (write_cbor_length 0x40 (zlen body)) ≤ 9) as Hl.
  { unfold write_cbor_length. repeat case_match; rewrite ?zlen_cons, ?zlen_be_bytes, ?zlen_nil; lia. }
  split.
  - split; [by apply (cbor_binary_whole _ body)|]. done.
  - simpl. rewrite (cbor_binary_complete a body); [done| |done]. unfold a. rewrite !zlen_app. change (zlen (write_cbor_array_len 1)) with 1. lia.
Qed.

Lemma binary_part_ok s e x : s = MessagePack ∨ s = Cbor → part_ok s e x → binary_element s (e x) x.
Proof. by intros [-> | ->]. Qed.

(** The payload as it is appended: elements of the array, octet for octet. *)
Lemma appended_payload s p segments segs : s = MessagePack ∨ s = Cbor → payload_ok s p →
  append_forwarded_binary_payload segments p s = Ok segs →
  ∃ es xs q, concat segs = concat segments ++ concat xs ∧ Forall2 (binary_element s) es xs ∧
    payload_of_elements es = Some q ∧ delivered s p q ∧ zlen xs = element_count 0 p.
Proof.
  intros Hs (Ha & Hk & Ht) H. unfold append_forwarded_binary_payload in H. unfold delivered, element_count, has_args.
  destruct p as [a k t]. cbn [args kwargs transparent] in *. destruct t as [body|].
  - destruct a, k; try discriminate H. apply bind_Ok_inv in H as (wrapper & Hw & [= <-]).
    destruct (Ht body eq_refl) as (_ & Hb & Hz).
    exists [EArguments (wrapper ++ body)], [wrapper ++ body], (mkPayload (Some (wrapper ++ body)) None None).
    assert (binary_element s (EArguments (wrapper ++ body)) (wrapper ++ body) ∧ single_binary_argument s (wrapper ++ body) = Ok body) as [He Hd].
    { destruct Hs as [-> | ->].
      - destruct (rmp_write_array_len 1) eqn:E1; [|discriminate].
        destruct (zlen body <? 2 ^ 32) eqn:E; [|discriminate].
        cbn [or_invalid ok_or mbind outcome_bind] in Hw.
        destruct (rmp_write_bin_len (zlen body)) eqn:E2; [|discriminate]. injection Hw as <-. apply wrapped_body_msgpack; [done|lia|done..].
      - simpl in Hw. inv_ok. by apply wrapped_body_cbor. }
    split; [by rewrite concat_app; simpl; rewrite !app_nil_r|]. split; [by repeat constructor|].
    split; [done|]. split; [|done]. split; [done|]. split; [done|]. by exists (wrapper ++ body).
  - simpl in H. pose proof (empty_arguments_ok s Hs) as He.
    destruct a as [a|], k as [k|]; simpl in H; inv_ok; rewrite ?concat_app; simpl; rewrite ?app_nil_r.
    + exists [EArguments a; EKeywords k], [a; k], (mkPayload (Some a) (Some k) None).
      split_and!; try done; [by rewrite <-(assoc_L (++)); simpl; rewrite app_nil_r|].
      repeat constructor; apply binary_part_ok; auto.
    + exists [EArguments a], [a], (mkPayload (Some a) None None). split_and!; try done.
      { simpl. by rewrite app_nil_r. }
      repeat constructor; apply binary_part_ok; auto.
    + exists [EArguments (empty_arguments s); EKeywords k], [empty_arguments s; k], (mkPayload (Some (empty_arguments s)) (Some k) None).
      split_and!; try done; [|repeat constructor; [done|apply binary_part_ok; auto]].
      rewrite <-(assoc_L (++)); simpl; rewrite app_nil_r. by destruct Hs as [-> | ->].
    + exists [], [], (mkPayload None None None). split_and!; try done. by rewrite app_nil_r.
Qed.

(** A header of the right count in front makes it a message array. *)
Lemma array_header_written s n header : s = MessagePack ∨ s = Cbor → 0 ≤ n < 24 →
  match s with MessagePack => rmp_write_array_len n = Some header | _ => header = write_cbor_array_len n end →
  match s with MessagePack => mp_array_header n header | _ => cbor_header (Some n) header end.
Proof.
  intros [-> | ->] Hn H.
  - apply rmp_array_len_written; [lia|done].
  - subst header. unfold write_cbor_array_len, write_cbor_length.
    assert (Z.lor 0x80 n = 0x80 + n) as -> by (apply (lor_head 4); lia).
    repeat (case_match; try lia). apply header_small. lia.
Qed.

Lemma element_count_bound base p : 0 ≤ base → base ≤ element_count base p ≤ base + 2.
Proof. unfold element_count. repeat case_match; lia. Qed.

Lemma element_count_base base p : element_count base p = base + element_count 0 p.
Proof. unfold element_count. lia. Qed.

(** The segments of a message: an array of its metadata and its payload. *)
Lemma forwarded_binary s p segments segs header es xs : s = MessagePack ∨ s = Cbor → payload_ok s p →
  zlen xs ≤ 5 → Forall2 (binary_element s) es xs → concat segments = header ++ concat xs →
  match s with MessagePack => rmp_write_array_len (element_count (zlen xs) p) = Some header
             | _ => header = write_cbor_array_len (element_count (zlen xs) p) end →
  append_forwarded_binary_payload segments p s = Ok segs → zlen (concat segs) < 2 ^ 63 →
  ∃ rest q, message_array s (es ++ rest) (concat segs) ∧ payload_of_elements rest = Some q ∧ delivered s p q.
Proof.
  intros Hs Hp Hn He Hc Hh Happ Hz.
  destruct (appended_payload s p segments segs Hs Hp Happ) as (es' & xs' & q & Hc' & He' & Hq & Hd & Hlen).
  pose proof (element_count_bound (zlen xs) p (zlen_nonneg xs)).
  apply array_header_written in Hh; [|done|pose proof (zlen_nonneg xs); lia].
  assert (element_count (zlen xs) p = zlen (xs ++ xs')) as Hcount.
  { rewrite element_count_base. zlia. }
  rewrite Hcount in Hh. exists es', q. split; [|done].
  assert (concat segs = header ++ concat (xs ++ xs')) as Hdata.
  { rewrite Hc', Hc, concat_app. by rewrite (assoc_L (++)). }
  assert (Forall2 (binary_element s) (es ++ es') (xs ++ xs')) as Hall by by apply Forall2_app.
  destruct Hs as [-> | ->]; exists header, (xs ++ xs'); done.
Qed.

(** Related lists, element by element. *)
Local Ltac elements := repeat (apply Forall2_cons; split; [eassumption|]); apply Forall2_nil_2.

(** *** JSON *)
Definition json_tail (ts : list str) : list Z := concat ((λ t, [0x2c] ++ utf8_encode t) <$> ts).

Lemma json_octets_cons t ts : json_array_octets (t :: ts) = [0x5b] ++ utf8_encode t ++ json_tail ts ++ [0x5d].
Proof.
  unfold json_array_octets. f_equal. rewrite (assoc_L (++)). f_equal. revert t.
  induction ts as [|t' ts IH]; intros t; [by rewrite app_nil_r|].
  cbn [fmap list_fmap join] in *. rewrite IH. unfold json_tail. cbn [fmap list_fmap concat]. by rewrite <-!(assoc_L (++)).
Qed.

Lemma json_tail_app ts us : json_tail (ts ++ us) = json_tail ts ++ json_tail us.
Proof. unfold json_tail. by rewrite fmap_app, concat_app. Qed.

(** The formatted prefix in front of an element. *)
Lemma json_prefix_octets (code : string) n ids t : lit code = 0x5b :: show_number n ++ [0x2c] →
  json_prefix code ids ++ utf8_encode t
  = [0x5b] ++ utf8_encode (show_number n) ++ json_tail ((show_number <$> ids) ++ [t]).
Proof.
  intros Hc. unfold json_prefix. rewrite Hc.
  change (0x5b :: show_number n ++ [0x2c]) with ([0x5b] ++ show_number n ++ [0x2c]).
  rewrite !utf8_encode_app, <-!(assoc_L (++)). change (utf8_encode [0x5b]) with [0x5b].
  change (utf8_encode [0x2c]) with [0x2c]. do 2 f_equal. unfold json_tail.
  induction ids as [|i ids IH]; [by simpl; rewrite app_nil_r|].
  cbn [fmap list_fmap concat app]. rewrite !utf8_encode_app. change (utf8_encode (lit ",")) with [0x2c].
  rewrite <-!(assoc_L (++)). cbn [app]. do 2 f_equal. exact IH.
Qed.

Lemma forwarded_json p segments segs es t ts : payload_ok Json p → Forall2 json_element es (t :: ts) →
  concat segments = [0x5b] ++ utf8_encode t ++ json_tail ts →
  concat segs = concat segments ++ concat (json_payload_segments p) ++ [0x5d] →
  ∃ rest q, message_array Json (es ++ rest) (concat segs) ∧ payload_of_elements rest = Some q ∧ delivered Json p q.
Proof.
  intros (Ha & Hk & Ht) He Hc Hsegs. unfold delivered.
  destruct p as [a k tr]. cbn [args kwargs transparent] in *.
  destruct tr as [body|]; [by destruct (Ht body eq_refl)|].
  assert (∀ us rest, Forall2 json_element rest us → concat (json_payload_segments (mkPayload a k None)) = json_tail us →
    message_array Json (es ++ rest) (concat segs)) as Harr.
  { intros us rest Hus Hj. exists ((t :: ts) ++ us). split; [|by apply Forall2_app].
    cbn [app]. rewrite Hsegs, Hc, Hj, json_octets_cons, json_tail_app. by rewrite <-!(assoc_L (++)). }
  assert (json_element (EArguments EMPTY_JSON_ARRAY) (lit "[]")) as Hempty
    by (split; [apply json_empty_array|by vm_compute]).
  destruct a as [a|], k as [k|]; repeat match goal with
    | H : ∀ x, Some ?a = Some x → _ |- _ => destruct (H a eq_refl) as (? & ? & <-); clear H end.
  - clear Hempty. eexists [EArguments _; EKeywords _], _. split_and!; [eapply Harr; [elements|]|done..].
    unfold json_payload_segments, json_tail. simpl. by rewrite !app_nil_r.
  - clear Hempty. eexists [EArguments _], _. split_and!; [eapply Harr; [elements|]|done..].
    unfold json_payload_segments, json_tail. simpl. by rewrite !app_nil_r.
  - eexists [EArguments _; EKeywords _], _. split_and!; [eapply Harr; [elements|]|done..].
    unfold json_payload_segments, json_tail. simpl. by rewrite !app_nil_r.
  - exists [], (mkPayload None None None). split_and!; [by apply (Harr [] []); [apply Forall2_nil_2|]|done..].
Qed.

(** ** The payload of a stored message *)
Lemma payload_part_ok data ranges i kind e x : Forall mp_item (chain_items data ranges) → frame_ok data →
  Forall (range_in (frame_len data)) ranges →
  payload_part kind e (chain_items data ranges !! i) = Ok (Some x) → mp_item x ∧ bytes_ok x ∧ kind x = true.
Proof.
  intros Hi Hok Hin. unfold payload_part. destruct (chain_items data ranges !! i) as [y|] eqn:E; [|done].
  repeat case_match; intros; simplify_eq. split; [by apply (Forall_lookup_1 _ _ _ _ Hi E)|]. split; [|done].
  unfold chain_items in E. rewrite list_lookup_fmap in E. apply fmap_Some in E as (r & _ & ->).
  apply sub_bytes_ok, Hok.
Qed.

Lemma cbor_chain_whole data off ranges stop : bytes_ok data → 0 ≤ off → stop ≤ zlen data →
  cbor_chain data off ranges stop → Forall cbor_whole (range_items data ranges).
Proof.
  intros Hok Hoff Hs Hc. induction Hc as [|off mid ranges stop H1 H2 Hskip Hc IH]; [constructor|].
  pose proof (cbor_chain_le _ _ _ _ Hc). constructor; [|apply IH; lia]. cbn [fst snd].
  rewrite <-(sub_bytes_join data off mid (zlen data)) in Hskip by lia.
  assert (zlen (sub_bytes data off mid) = mid - off) as Hz by (rewrite zlen_sub_bytes; lia).
  assert (sub_bytes data off mid ≠ []) as Hne by (intros E; rewrite E in Hz; unfold zlen in Hz; simpl in Hz; lia).
  split; [by apply sub_bytes_ok|]. split; [done|].
  apply cbor_skip_prefix with (sub_bytes data mid (zlen data)); [done| |by rewrite Hz].
  apply Forall_app; split; by apply sub_bytes_ok.
Qed.

Lemma cbor_part_ok data ranges i major e x : Forall cbor_whole (range_items data ranges) →
  cbor_part major e (range_items data ranges !! i) = Ok (Some x) →
  cbor_whole x ∧ (λ b, Z.shiftr b 5) <$> head x = Some major.
Proof.
  intros Hw. unfold cbor_part. destruct (range_items data ranges !! i) as [y|] eqn:E; [|done].
  destruct (bool_decide (y = [0xf6])); [done|].
  destruct (bool_decide ((λ b, Z.shiftr b 5) <$> head y = Some major)) eqn:Em; [|done]. intros [= <-].
  apply bool_decide_eq_true in Em. split; [by apply (Forall_lookup_1 _ _ _ _ Hw E)|done].
Qed.

Lemma json_part_ok fields i bracket e x : Forall json_text (rv_text <$> fields) →
  json_part bracket e (fields !! i) = Ok (Some x) →
  ∃ t, utf8_encode t = x ∧ json_text t ∧ is_json_null t = false ∧ first_non_ws t = Some bracket.
Proof.
  intros Ht. unfold json_part. destruct (fields !! i) as [r|] eqn:E; [|done].
  destruct (is_json_null (rv_text r)) eqn:En; [done|].
  destruct (bool_decide (first_non_ws (rv_text r) = Some bracket)) eqn:Eb; [|done]. intros [= <-].
  apply bool_decide_eq_true in Eb. exists (rv_text r). split_and!; try done.
  apply (Forall_lookup_1 _ _ i _ Ht). by rewrite list_lookup_fmap, E.
Qed.

(** What a parser leaves in a payload are elements of its encoding; the body
    of a passthru payload comes from FlatBuffers alone. *)
Lemma parsed_payload_ok s data m p : s = Json ∨ s = MessagePack ∨ s = Cbor → bytes_ok data →
  parse_message s data = Ok m → message_payload (message m) = Some p → transparent p = None ∧ payload_ok s p.
Proof.
  intros Hs Hok H Hp. unfold parse_message, parse_message_frame in H. destruct Hs as [-> |[-> | ->]].
  - unfold parse_json_message in H. cbn [into_bytes] in H. inv_ok.
    match goal with E : lift_de (json_fields _) = Ok _ |- _ => apply lift_de_Ok in E; rename E into Hf end.
    match goal with E : lift_de (json_end _) = Ok ?u |- _ => apply lift_de_Ok in E; destruct u; rename E into He end.
    pose proof (json_borrow _ _ Hf) as Hb. pose proof (json_array_read _ _ Hf He) as Ht.
    destruct a as [|x fields]; [done|]. inv_ok.
    match goal with E : json_message_of _ _ _ = Ok _ |- _ => destruct (json_message_of_result _ _ _ _ E) as [_ Hm] end.
    cbn [message] in *. destruct (cbor_payload_spec _) as [spec|]; [|congruence]. destruct Hm as (p' & Hp' & Hm).
    assert (p' = p) as -> by congruence. rewrite json_payload_borrowed in Hm by done. inv_ok. split; [done|]. unfold payload_ok. cbn [args kwargs transparent].
    split; [|split; [|done]]; intros ? ->;
      match goal with E : json_part _ _ _ = Ok (Some _) |- _ => apply (json_part_ok _ _ _ _ _ Ht) in E as (t & <- & ? & ? & ?); by exists t end.
  - destruct (parse_msgpack_message_inv (Contiguous data) m) as (header & ranges & code & _ & _ & Hi & Hin & _ & Hm & _); [by split|done|].
    destruct (msgpack_message_of_result _ _ _ _ Hm) as [_ Hr].
    destruct (cbor_payload_spec _) as [spec|]; [|congruence]. destruct Hr as (p' & Hp' & Hr).
    assert (p' = p) as -> by congruence. rewrite msgpack_payload_items in Hr by done. inv_ok. split; [done|]. unfold payload_ok. cbn [args kwargs transparent].
    split; [|split; [|done]]; intros ? ->;
      match goal with E : payload_part _ _ _ = Ok (Some _) |- _ => by apply payload_part_ok in E as (? & ? & ?) end.
  - destruct (parse_cbor_contiguous_inv data m Hok H) as (ranges & code & v & x & Hr & _ & _ & _ & _ & _ & _ & _ & Hm).
    destruct (cbor_payload_spec _) as [spec|]; [|congruence]. destruct Hm as (p' & Hp' & Hm).
    assert (p' = p) as -> by congruence. pose proof (cbor_top_level_ranges_in _ _ Hok Hr) as Hin.
    apply cbor_top_level_ranges_inv in Hr as (header & len & stop & _ & _ & Hc & Hstop); [|done].
    apply cbor_chain_whole in Hc; [|done|apply zlen_nonneg|destruct len; lia].
    unfold cbor_payload in Hm. rewrite !cbor_payload_part_items in Hm by done. inv_ok. split; [done|]. unfold payload_ok. cbn [args kwargs transparent].
    split; [|split; [|done]]; intros ? ->;
      match goal with E : cbor_part _ _ _ = Ok (Some _) |- _ => by apply (cbor_part_ok _ _ _ _ _ _ Hc) in E as (? & ?) end.
Qed.
End roundtrip.
