(* ===== verification/DemoForward.v ===== *)
(** * A concrete instance for forwarding

    [DemoSerde] with encoders for the values a small forwarded message has, and
    the proofs that it keeps what the forwarding theorems ask of the crates:
    the two empty containers, a one-entry map of PPT metadata, empty text, and
    one-octet integers. *)
From S2P Require Import Prelude Bytes Text TextOps WampTypes RawFrame Msgpack MsgpackMessage WampValues Cbor Json CborScanner DemoSerde WampParse HttpFraming HttpHead BinaryArguments WireElements Forwarding ForwardRoundtrip.

(** [{"ppt_scheme": "x"}] as a value, and in the two binary encodings *)
Definition demo_ppt : ValueMap := [(VString (lit "ppt_scheme"), VString (lit "x"))].
Definition demo_ppt_cbor : list Z := [0xa1; 0x6a] ++ lit "ppt_scheme" ++ [0x61; 0x78].
Definition demo_ppt_msgpack : list Z := [0x81; 0xaa] ++ lit "ppt_scheme" ++ [0xa1; 0x78].

Definition is_demo_ppt (m : ValueMap) : bool :=
  match m with
  | [(VString k, VString v)] => str_eqb k (lit "ppt_scheme") && str_eqb v (lit "x")
  | _ => false
  end.

Lemma is_demo_ppt_eq m : is_demo_ppt m = true → m = demo_ppt.
Proof.
  unfold is_demo_ppt. repeat (case_match; try done). intros [Hk Hv]%andb_true_iff.
  unfold str_eqb in *. apply bool_decide_eq_true in Hk as ->, Hv as ->. done.
Qed.

(** A binary argument in front, and its length. *)
Definition demo_binary_prefix (l : list Z) : option Z :=
  '(count, offset) ← read_cbor_length l 0 4;
  if negb (count =? 1) then None
  else
    '(length, offset) ← read_cbor_length l offset 2;
    if offset + length <=? zlen l then Some (offset + length) else None.

Definition demo_skip (l : list Z) : string + N :=
  match demo_binary_prefix l with
  | Some n => inr (Z.to_N n)
  | None =>
      if slice_starts_with demo_ppt_cbor l then inr 14%N
      else match demo_cbor_item l with inr (_, k) => inr (Z.to_N k) | inl e => inl e end
  end.

Definition unsupported {A} : string + A := inl "unsupported"%string.

Definition ForwardSerde : SerdeLib := {|
  serde_machine := DemoMachine;
  rmp_string := demo_rmp_string;
  rmp_u64 := demo_rmp_u64;
  rmp_value l := if bool_decide (l = demo_ppt_msgpack) then inr (VMap demo_ppt) else demo_rmp_value l;
  cbor_value_de l := if bool_decide (l = demo_ppt_cbor) then inr (VMap demo_ppt)
    else match demo_cbor_item l with inr (v, _) => inr v | inl e => inl e end;
  cbor_reader_de _ := unsupported;
  cbor_from_slice _ := unsupported;
  cbor_skip := demo_skip;
  json_fields := demo_json_fields;
  json_end _ := inr ();
  json_str_de := demo_json_str;
  json_u64_de := demo_json_u64;
  json_value_de := demo_json_value;
  json_to_vec v := match v with
    | VMap [] => inr (lit "{}") | VString [] => inr (lit "''") | _ => unsupported end;
  rmp_to_vec v := match v with
    | VMap [] => inr [0x80] | VString [] => inr [0xa0]
    | VMap m => if is_demo_ppt m then inr demo_ppt_msgpack else unsupported
    | _ => unsupported end;
  cbor_to_vec v := match v with
    | VMap [] => inr [0xa0] | VSeq [] => inr [0x80] | VString [] => inr [0x60]
    | VU64 n => if n <? 24 then inr [n] else unsupported
    | VMap m => if is_demo_ppt m then inr demo_ppt_cbor else unsupported
    | _ => unsupported end;
  json_whole_de _ := unsupported;
  rmp_whole_de _ := unsupported;
|}.

Definition DemoRmp : RmpLib := {|
  rmp_write_array_len n := if n <? 16 then Some [0x90 + n] else None;
  rmp_write_u64 n := if n <? 128 then Some [n] else None;
  rmp_write_bin_len n := if n <? 256 then Some [0xc4; n] else None;
  value_ltb v w := match v, w with VString s, VString t => negb (str_leb t s) | _, _ => false end;
|}.

#[global] Instance forward_stand_ins : CborStandIns ForwardSerde.
Proof. split; eexists; reflexivity. Qed.

#[global] Instance forward_borrow : JsonBorrow ForwardSerde.
Proof. intros data fields H. by apply (demo_borrow data fields). Qed.

(** ** JSON arrays *)
Definition plain_text (t : str) : Prop := Forall ascii t ∧ 0x2c ∉ t.

Lemma demo_split_run l rest at_ start cur : 0x2c ∉ l → rest ≠ [] →
  demo_json_split (l ++ rest) at_ start cur = demo_json_split rest (at_ + zlen l) start (cur ++ l).
Proof.
  intros Hl Hr. revert at_ cur. induction l as [|c l IH]; intros at_ cur.
  - simpl. rewrite app_nil_r. f_equal. rewrite zlen_nil. lia.
  - apply not_elem_of_cons in Hl as [Hc Hl]. cbn [app demo_json_split].
    rewrite (proj2 (Z.eqb_neq _ _)) by congruence.
    assert (l ++ rest ≠ []) as Hne by (by destruct l).
    replace ((c =? 0x5d) && match l ++ rest with [] => true | _ => false end) with false
      by (destruct (l ++ rest); [done|by rewrite andb_false_r]).
    rewrite IH by done. rewrite <-(assoc_L (++)), zlen_cons. f_equal. lia.
Qed.

Lemma demo_split_join ts : ts ≠ [] → Forall plain_text ts → ∀ at_ start,
  rv_text <$> demo_json_split (join [0x2c] ts ++ [0x5d]) at_ start [] = ts.
Proof.
  intros Hne Hts. induction Hts as [|t ts [Ha Hc] Hts IH]; [done|]. intros at_ start.
  destruct ts as [|u ts].
  - cbn [join]. rewrite demo_split_run by done. done.
  - cbn [join]. rewrite <-!(assoc_L (++)), demo_split_run by done.
    cbn [app demo_json_split]. rewrite Z.eqb_refl. cbn [fmap list_fmap rv_text]. f_equal. by apply IH.
Qed.

Lemma ascii_bytes l : forallb (λ c, (0 <=? c) && (c <? 0x80)) l = true ↔ Forall ascii l.
Proof.
  rewrite forallb_forall, Forall_forall. setoid_rewrite <-list_elem_of_In. unfold ascii.
  split; intros H c Hc; specialize (H c Hc); lia.
Qed.

Lemma plain_encode ts : Forall plain_text ts → utf8_encode <$> ts = ts.
Proof. induction 1 as [|t ts [Ha _] _ IH]; [done|].
  rewrite fmap_cons, utf8_encode_ascii, IH by done. done. Qed.

Lemma join_ascii ts : Forall plain_text ts → Forall ascii (join [0x2c] ts).
Proof.
  induction 1 as [|t ts [Ha _] Hts IH]; [constructor|]. destruct ts as [|u ts]; [done|]. cbn [join].
  apply Forall_app. split; [done|]. apply Forall_app. split; [|exact IH]. constructor; [unfold ascii; lia|constructor].
Qed.

Lemma demo_fields_written ts : ts ≠ [] → Forall plain_text ts →
  ∃ fields, demo_json_fields (json_array_octets ts) = inr fields ∧ rv_text <$> fields = ts.
Proof.
  intros Hne Hts. unfold json_array_octets. rewrite plain_encode by done. cbn [app demo_json_fields].
  rewrite (proj2 (ascii_bytes _)); [|apply Forall_app; split; [by apply join_ascii|constructor; [unfold ascii; lia|constructor]]].
  eexists. split; [done|]. by apply demo_split_join.
Qed.

(** Every text between commas, read or pending, is plain. *)
Lemma demo_split_plain l at_ start cur : Forall ascii l → plain_text cur →
  Forall plain_text (rv_text <$> demo_json_split l at_ start cur).
Proof.
  intros Hl. revert at_ start cur. induction Hl as [|c l Hc Hl IH]; intros at_ start cur Hcur; [constructor|].
  cbn [demo_json_split]. destruct (Z.eqb_spec c 0x2c).
  - constructor; [done|]. apply IH. split; [constructor|apply not_elem_of_nil].
  - case_match; [by constructor|]. apply IH. destruct Hcur as [H1 H2]. split.
    + apply Forall_app. split; [done|by constructor].
    + rewrite not_elem_of_app, list_elem_of_singleton. by split.
Qed.

Lemma forward_text_plain t : @json_text ForwardSerde t ↔ plain_text t.
Proof.
  split.
  - intros [H _]. cbn [json_fields ForwardSerde] in H. unfold demo_json_fields, json_array_octets in H. cbn [app join] in H.
    destruct (forallb _ _) eqn:Ha in H; [|done]. apply ascii_bytes in Ha. injection H as H.
    assert (plain_text []) as Hnil by (split; [constructor|apply not_elem_of_nil]).
    pose proof (demo_split_plain _ 1 1 [] Ha Hnil) as Hp. cbn [fmap list_fmap join app] in Hp.
    rewrite H in Hp. by apply Forall_cons in Hp as [? _].
  - intros Ht. split; [|done]. cbn [json_fields ForwardSerde]. destruct Ht as [Ha Hc].
    unfold json_array_octets. cbn [fmap list_fmap join app demo_json_fields].
    rewrite utf8_encode_ascii by done. rewrite (proj2 (ascii_bytes _));
      [|apply Forall_app; split; [done|constructor; [unfold ascii; lia|constructor]]].
    by rewrite demo_split_run.
Qed.

#[global] Instance forward_arrays : JsonArrays ForwardSerde.
Proof.
  split.
  - intros ts Hne Hts. split; [|done]. apply demo_fields_written; [done|].
    eapply Forall_impl; [exact Hts|]. apply forward_text_plain.
  - intros data fields H _. cbn [json_fields ForwardSerde] in H. unfold demo_json_fields in H.
    destruct data as [|b l]; [done|]. destruct (decide (b = 0x5b)) as [->|Hb]; [|exfalso; by repeat case_match].
    destruct (forallb _ l) eqn:Ha; [|done]. injection H as <-. apply ascii_bytes in Ha.
    eapply Forall_impl; [apply demo_split_plain; [done|split; [constructor|apply not_elem_of_nil]]|].
    apply forward_text_plain.
Qed.

(** ** CBOR items *)
Lemma read_cbor_length_wrong b l major : Z.shiftr b 5 ≠ major → read_cbor_length (b :: l) 0 major = None.
Proof. intros H. unfold read_cbor_length. simpl. by rewrite (proj2 (Z.eqb_neq _ _)). Qed.

Lemma demo_binary_complete args body rest : cbor_binary_argument args body →
  demo_binary_prefix (args ++ rest) = Some (zlen args).
Proof.
  intros (array & bin & Ha & Hb & ->). unfold demo_binary_prefix.
  pose proof (read_cbor_length_complete [] array (bin ++ body ++ rest) 4 1 ltac:(lia) Ha) as E1.
  rewrite <-!(assoc_L (++)). cbn [app] in E1. rewrite zlen_nil, Z.add_0_l in E1. rewrite E1. cbn [mbind option_bind].
  change (negb (1 =? 1)) with false. cbv iota.
  rewrite (read_cbor_length_complete array bin (body ++ rest) 2 (zlen body)) by (done || lia). cbn [mbind option_bind].
  rewrite (proj2 (Z.leb_le _ _)) by zlia. f_equal. zlia.
Qed.

Lemma demo_binary_sound l n : bytes_ok l → demo_binary_prefix l = Some n →
  ∃ args body rest, l = args ++ rest ∧ zlen args = n ∧ cbor_binary_argument args body.
Proof.
  intros Hok H. unfold demo_binary_prefix in H. apply bind_Some in H as ([count off] & H1 & H).
  destruct (Z.eqb_spec count 1) as [->|]; [|done]. cbn [negb] in H.
  apply bind_Some in H as ([len stop] & H2 & H). destruct (Z.leb_spec (stop + len) (zlen l)); [|done]. injection H as <-.
  apply read_cbor_length_sound in H1 as (? & ? & Ha); [|done|lia].
  apply read_cbor_length_sound in H2 as (? & ? & Hb); [|done|lia].
  assert (0 ≤ len) as Hlen.
  { destruct Hb as (info & ext & [Hext Hi] & _). destruct Hi as [(? & _ & ->)|(_ & _ & ->)]; [lia|].
    by apply be_value_bound. }
  exists (sub_bytes l 0 (stop + len)), (sub_bytes l stop (stop + len)), (sub_bytes l (stop + len) (zlen l)).
  split; [by rewrite sub_bytes_join, sub_bytes_full by lia|]. split; [rewrite zlen_sub_bytes; lia|].
  exists (sub_bytes l 0 off), (sub_bytes l off stop). split; [done|].
  replace (zlen (sub_bytes l stop (stop + len))) with len by (rewrite zlen_sub_bytes; lia). split; [done|].
  by rewrite !sub_bytes_join by lia.
Qed.

Lemma demo_pair (v w : value) (j k : Z) : inr (A:=string) (v, j) = inr (w, k) → v = w ∧ j = k.
Proof. by intros [= -> ->]. Qed.

(** An item of [DemoSerde] ends where it ends whatever follows, and is no
    binary argument. *)
Lemma demo_item_prefix x rest rest' v : bytes_ok (x ++ rest) → x ≠ [] →
  demo_cbor_item (x ++ rest) = inr (v, zlen x) →
  demo_cbor_item (x ++ rest') = inr (v, zlen x) ∧ demo_binary_prefix (x ++ rest') = None ∧
  slice_starts_with demo_ppt_cbor (x ++ rest') = false.
Proof.
  intros Hok Hne H. destruct x as [|m x]; [done|]. cbn [app] in *. apply Forall_cons in Hok as [Hm Hok].
  assert (m ≠ 0xa1 → slice_starts_with demo_ppt_cbor (m :: x ++ rest') = false) as Hs.
  { intros Hn. apply bool_decide_eq_false. cbn. congruence. }
  assert (Z.shiftr m 5 ≠ 4 → demo_binary_prefix (m :: x ++ rest') = None) as Hb.
  { intros Hn. unfold demo_binary_prefix. by rewrite read_cbor_length_wrong. }
  cbn [demo_cbor_item] in *. unfold u8_ok in Hm.
  destruct (Z.ltb_spec m 24).
  { apply demo_pair in H as [<- Hz]. assert (x = []) as -> by (apply zlen_0_nil; rewrite zlen_cons in Hz; lia).
    split; [done|]. split; [apply Hb|apply Hs; lia]. rewrite Z.shiftr_div_pow2 by lia. dmlia. }
  destruct ((0x60 <=? m) && (m <? 0x78)) eqn:Et.
  { destruct (utf8_decode (take _ (x ++ rest))) as [t|] eqn:Ed; [|done].
    destruct (m - 0x60 <=? zlen (x ++ rest)); [|done]. apply demo_pair in H as [<- Hz]. rewrite zlen_cons in Hz.
    assert (Z.to_nat (m - 0x60) = length x) as Hl by (unfold zlen in Hz; lia).
    rewrite Hl, take_app_length in *. rewrite Ed. zlen_facts.
    rewrite (proj2 (Z.leb_le _ _)) by (rewrite zlen_app; unfold zlen; lia).
    split; [do 2 f_equal; rewrite zlen_cons; lia|]. split; [apply Hb|apply Hs; lia].
    rewrite Z.shiftr_div_pow2 by lia. dmlia. }
  assert (∀ k, zlen (m :: x) = k + 1 → zlen x = k) as Hlen by (intros k; rewrite zlen_cons; lia).
  destruct (Z.eqb_spec m 0x80) as [->|].
  { apply demo_pair in H as [<- Hz]. assert (x = []) as -> by (apply zlen_0_nil, Hlen; lia).
    split; [done|]. split; [done|]. by apply Hs. }
  destruct (Z.eqb_spec m 0x81) as [->|Hm81].
  { destruct x as [|a x]; [simpl in H; destruct rest as [|a rest]; [done|]; by destruct (a <? 24)|].
    cbn [app] in *. apply Forall_cons in Hok as [Hn Hok].
    destruct (Z.ltb_spec a 24); [|done]. apply demo_pair in H as [<- Hz].
    assert (x = []) as -> by (apply zlen_0_nil; rewrite !zlen_cons in Hz; lia).
    split; [done|]. split; [|by apply Hs]. unfold demo_binary_prefix, u8_ok in *.
    cbn [app]. change (read_cbor_length (0x81 :: a :: rest') 0 4) with (Some (1, 1)). cbn [mbind option_bind].
    change (negb (1 =? 1)) with false. cbv iota. unfold read_cbor_length.
    assert (byte_at (0x81 :: a :: rest') 1 = Some a) as -> by (by apply byte_at_Some). cbn [mbind option_bind].
    rewrite (proj2 (Z.eqb_neq _ _)); [done|]. rewrite Z.shiftr_div_pow2 by lia. dmlia. }
  destruct (Z.eqb_spec m 0xa0) as [->|]; [|destruct (Z.eqb_spec m 0xf6) as [->|]; [|done]];
    (apply demo_pair in H as [<- Hz]; assert (x = []) as -> by (apply zlen_0_nil, Hlen; lia);
     split; [done|]; split; [by apply Hb|by apply Hs]).
Qed.

Lemma demo_ppt_skip rest : demo_skip (demo_ppt_cbor ++ rest) = inr 14%N.
Proof. reflexivity. Qed.

Lemma forward_skip_prefix x rest rest' : bytes_ok (x ++ rest) → demo_skip (x ++ rest) = inr (Z.to_N (zlen x)) →
  x ≠ [] → demo_skip (x ++ rest') = inr (Z.to_N (zlen x)).
Proof.
  intros Hok H Hne. unfold demo_skip in H. zlen_facts.
  destruct (demo_binary_prefix (x ++ rest)) as [n|] eqn:Eb.
  - injection H as Hn. apply demo_binary_sound in Eb as (args & body & tail & He & Hl & Ha); [|done].
    pose proof (zlen_nonneg args). apply app_inj_1 in He as [<- _]; [|unfold zlen in *; lia].
    unfold demo_skip. by rewrite (demo_binary_complete x body rest' Ha).
  - destruct (slice_starts_with demo_ppt_cbor (x ++ rest)) eqn:Es.
    + injection H as Hn. unfold slice_starts_with in Es. apply bool_decide_eq_true in Es.
      assert (x = demo_ppt_cbor) as ->; [|apply demo_ppt_skip].
      rewrite take_app_le in Es by (unfold zlen in Hn; simpl; lia).
      rewrite <-Es. symmetry. apply take_ge. unfold zlen in Hn. simpl. lia.
    + destruct (demo_cbor_item (x ++ rest)) as [|[v k]] eqn:Ei; [done|].
      assert (k = zlen x) as ->.
      { injection H as H. assert (0 ≤ k); [|lia]. unfold demo_cbor_item in Ei.
        repeat case_match; simplify_eq; lia. }
      destruct (demo_item_prefix x rest rest' v Hok Hne Ei) as (E1 & E2 & E3).
      unfold demo_skip. by rewrite E2, E3, E1.
Qed.

(** ** The laws *)
Lemma demo_whole x v : bytes_ok x → x ≠ [] → demo_cbor_item x = inr (v, zlen x) → @cbor_whole ForwardSerde x.
Proof.
  intros Hok Hne H. split; [done|]. split; [done|]. intros rest.
  destruct (demo_item_prefix x [] rest v) as (E1 & E2 & E3); rewrite ?app_nil_r; try done.
  cbn [cbor_skip ForwardSerde]. unfold demo_skip. by rewrite E2, E3, E1.
Qed.

Lemma demo_ppt_whole : @cbor_whole ForwardSerde demo_ppt_cbor.
Proof. split; [by apply (bool_decide_unpack (Forall _ _))|]. split; [done|]. apply demo_ppt_skip. Qed.

Lemma demo_ppt_item : mp_item demo_ppt_msgpack.
Proof.
  apply (mp_count 0x81 2 ([0xaa] ++ lit "ppt_scheme" ++ [0xa1; 0x78])); [unfold u8_ok; lia|done|].
  apply (mp_more 1 ([0xaa] ++ lit "ppt_scheme") [0xa1; 0x78]); [lia|by apply (mp_fixed 0xaa 10 (lit "ppt_scheme")); [unfold u8_ok; lia|..]|].
  apply (mp_more 0 [0xa1; 0x78] []); [lia|by apply (mp_fixed 0xa1 1 [0x78]); [unfold u8_ok; lia|..]|constructor].
Qed.

Lemma demo_number_text n : 0 ≤ n → plain_text (show_number n) ∧ demo_json_u64 (show_number n) = Some n.
Proof.
  intros Hn. destruct (show_number_digits n Hn) as (Hd & Hv & Hne). apply all_digits_Forall in Hd. split.
  - split; [eapply Forall_impl; [exact Hd|]; unfold is_ascii_digit, ascii; intros; lia|].
    intros Hc. rewrite Forall_forall in Hd. specialize (Hd _ Hc). by vm_compute in Hd.
  - apply all_digits_Forall in Hd. unfold demo_json_u64. destruct (show_number n) eqn:E; [done|]. rewrite <-E in *.
    rewrite E. rewrite <-E. unfold all_digits, is_ascii_digit in Hd. rewrite Hd. f_equal. exact Hv.
Qed.

Lemma demo_fixint n : 0 ≤ n < 128 → mp_item [n] ∧ bytes_ok [n].
Proof.
  intros Hn. assert (u8_ok n) as Hu by (unfold u8_ok; lia). split; [|by constructor].
  apply (mp_fixed n 0 []); [done| |done]. unfold mp_shape_of, mp_table. cbn [list_find].
  rewrite decide_True; [done|]. unfold in_range. simpl. lia.
Qed.

(** What the two binary encoders write for the maps they know. *)
Lemma demo_map_cases m (empty known : list Z) b :
  match m with [] => inr empty | _ => if is_demo_ppt m then inr known else unsupported end = inr b →
  m = [] ∧ b = empty ∨ m = demo_ppt ∧ b = known.
Proof.
  intros H. destruct m as [|e m]; [injection H as <-; by left|]. right.
  destruct (is_demo_ppt (e :: m)) eqn:E; [|done]. injection H as <-. by apply is_demo_ppt_eq in E.
Qed.

Lemma demo_ppt_plain : plain demo_ppt ∧ same_map demo_ppt demo_ppt ∧ same_map [] [].
Proof.
  assert (ascending demo_ppt) as Ha by repeat constructor.
  assert (str_ok (lit "ppt_scheme") ∧ str_ok (lit "x")) as [Hk Hx] by (split; by apply (bool_decide_unpack (str_ok _))).
  split; [split; [done|]; constructor; [|constructor]; split; [by exists (lit "ppt_scheme")|split; [by constructor|done]]|].
  split; [|by repeat constructor]. apply same_entries; [done..|].
  constructor; [|constructor]. split; [by exists (lit "ppt_scheme")|by constructor].
Qed.

#[global] Instance forward_laws : ForwardLaws ForwardSerde DemoRmp.
Proof.
  destruct demo_ppt_plain as (_ & Hppt & Hnil).
  split; [intros s t; reflexivity|..]; cbn [rmp_write_array_len rmp_write_u64 rmp_write_bin_len rmp_to_vec cbor_to_vec json_to_vec cbor_skip ForwardSerde DemoRmp].
  - intros n b Hn H. destruct (Z.ltb_spec n 16); [|done]. injection H as <-.
    replace n with (0x90 + n - 0x90) at 1 by lia. constructor. lia.
  - intros n b Hn H. destruct (Z.ltb_spec n 128); [|done]. injection H as <-.
    destruct (demo_fixint n) as [Hi Hok]; [lia|]. split; [done|]. split; [done|].
    split; [unfold msgpack_is_nil; lia|]. cbn [rmp_u64 ForwardSerde demo_rmp_u64]. by rewrite (proj2 (Z.ltb_lt _ _)).
  - intros n b Hn H. destruct (Z.ltb_spec n 256); [|done]. injection H as <-. constructor. unfold u8_ok. lia.
  - intros m b _ H. apply demo_map_cases in H as [[-> ->]|[-> ->]]; eexists; (split; [eassumption|]).
    + split; [|by split; [apply (bool_decide_unpack (Forall _ _))|]].
      apply (mp_count 0x80 0 []); [unfold u8_ok; lia|done|constructor].
    + split; [apply demo_ppt_item|]. by split; [apply (bool_decide_unpack (Forall _ _))|].
  - intros s b _ H. destruct s; [|done]. injection H as <-.
    split; [apply (mp_fixed 0xa0 0 []); [unfold u8_ok; lia|done|done]|]. by split; [apply (bool_decide_unpack (Forall _ _))|].
  - intros n b Hn H. destruct (Z.ltb_spec n 24); [|done]. injection H as <-.
    assert (demo_cbor_item [n] = inr (VU8 n, 1)) as E by (cbn; by rewrite (proj2 (Z.ltb_lt _ _))).
    split; [apply (demo_whole _ (VU8 n)); [apply demo_fixint; lia|done|exact E]|]. exists (VU8 n).
    cbn [cbor_value_de ForwardSerde]. rewrite bool_decide_eq_false_2 by done. by rewrite E.
  - intros m b _ H. apply demo_map_cases in H as [[-> ->]|[-> ->]]; eexists; (split; [eassumption|]).
    + split; [|done]. by apply (demo_whole _ (VMap [])); [apply (bool_decide_unpack (Forall _ _))|..].
    + split; [apply demo_ppt_whole|done].
  - intros s b _ H. destruct s; [|done]. injection H as <-. split; [|done].
    by apply (demo_whole _ (VString [])); [apply (bool_decide_unpack (Forall _ _))|..].
  - by apply (demo_whole _ (VSeq [])); [apply (bool_decide_unpack (Forall _ _))|..].
  - intros args body Hok Ha. split; [done|]. split; [by destruct Ha as (? & ? & (? & ? & _ & ->) & _ & ->)|].
    intros rest. cbn [cbor_skip ForwardSerde]. unfold demo_skip. by rewrite (demo_binary_complete args body rest).
  - intros x rest Hne Hok H rest'. by apply (forward_skip_prefix x rest rest').
  - intros n Hn. destruct (demo_number_text n ltac:(lia)) as [Ht Hv]. split; [by apply forward_text_plain|done].
  - intros m b _ H. destruct m; [|done]. injection H as <-. exists (lit "{}"), [].
    split; [done|]. split; [done|]. split; [|done].
    apply forward_text_plain. split; [by apply (bool_decide_unpack (Forall _ _))|by apply (bool_decide_unpack (_ ∉ _))].
  - intros s b _ H. destruct s; [|done]. injection H as <-. exists (lit "''"). split; [done|]. split; [|done].
    apply forward_text_plain. split; [by apply (bool_decide_unpack (Forall _ _))|by apply (bool_decide_unpack (_ ∉ _))].
  - apply forward_text_plain. split; [by apply (bool_decide_unpack (Forall _ _))|by apply (bool_decide_unpack (_ ∉ _))].
Qed.
