(* ===== verification/ForwardedMessages.v ===== *)
(** * The messages a router forwards

    Every forwarding call of [ffi.rs] into a serialized encoding sends an array
    that the receiver parses to the message the router means. *)
From S2P Require Import Prelude Bytes Text TextOps WampTypes RawFrame Msgpack MsgpackMessage WampValues Cbor Json CborScanner FbProjection FbWriter FbSegments WampParse FileSegments HttpHead FfiErrors BinaryArguments WireElements Forwarding ForwardRoundtrip DemoForward.

(** What the router answers with. *)
Inductive ForwardCall : Type :=
  | ForwardEvent (subscription_id publication_id : Z) (publisher : option Z) (topic : option str)
  | ForwardInvocation (invocation_id registration_id : Z) (c : CallerDetails)
  | ForwardResult (request_id : Z) (progress : bool)
  | ForwardEcho (request_id : Z)
  | ForwardError (request_type request_id : Z).

Definition in_u64 (n : Z) : Prop := 0 ≤ n < 2 ^ 64.
Definition in_option {A} (P : A → Prop) (o : option A) : Prop := ∀ x, o = Some x → P x.

(** The arguments are values of their Rust types. *)
Definition call_ok (call : ForwardCall) : Prop :=
  match call with
  | ForwardEvent subscription publication publisher topic =>
      in_u64 subscription ∧ in_u64 publication ∧ in_option in_u64 publisher ∧ in_option str_ok topic
  | ForwardInvocation invocation registration c =>
      in_u64 invocation ∧ in_u64 registration ∧ in_option in_u64 (cd_caller c) ∧
      in_option str_ok (cd_caller_authid c) ∧ in_option str_ok (cd_caller_authrole c) ∧
      in_option str_ok (cd_procedure c)
  | ForwardResult request _ | ForwardEcho request => in_u64 request
  | ForwardError request_type request => in_u64 request_type ∧ in_u64 request
  end.

Section forwarded.
Context `{SL : !SerdeLib} `{RL : !RmpLib} `{FB : !FlatBufferLib}.

Definition forward_segments (m : ParsedMessage) (s : Serializer) (call : ForwardCall) :
    outcome ErrorCode (list (list Z)) :=
  match call with
  | ForwardEvent subscription publication publisher topic =>
      encode_event_segments_for_serializer m s subscription publication publisher topic
  | ForwardInvocation invocation registration c =>
      encode_invocation_segments_for_serializer m s invocation registration c
  | ForwardResult request progress => encode_result_segments_for_serializer m s request progress
  | ForwardEcho request => encode_result_segments_from_call_for_serializer m s request
  | ForwardError request_type request => encode_error_segments_for_serializer m s request_type request
  end.

(** The metadata the answer is to have. *)
Definition forward_details (m : ParsedMessage) (call : ForwardCall) : outcome ErrorCode ValueMap :=
  match message m, call with
  | Publish _ options _ _, ForwardEvent _ _ publisher topic =>
      flatbuffers_routing_details (event_details publisher topic options)
  | Call _ options _ _, ForwardInvocation _ _ c => flatbuffers_routing_details (invocation_details c options)
  | Yield _ options _, ForwardResult _ progress => Ok (result_details options progress)
  | Call _ options _ p, ForwardEcho _ => Ok (echoed_details m p options)
  | Error _ _ details _ _, ForwardError _ _ => Ok details
  | _, _ => Err ERR_INVALID_ARGUMENT
  end.

(** The answer, with its metadata and payload. *)
Definition forwarded_message (m : ParsedMessage) (call : ForwardCall) (details : ValueMap) (p : Payload) :
    option WampMessage :=
  match call with
  | ForwardEvent subscription publication _ _ => Some (Event subscription publication details p)
  | ForwardInvocation invocation registration _ => Some (Invocation invocation registration details p)
  | ForwardResult request _ | ForwardEcho request => Some (Result request details p)
  | ForwardError request_type request =>
      match message m with
      | Error _ _ _ error _ => Some (Error request_type request details error p)
      | _ => None
      end
  end.

(** ** Stored messages

    One that was parsed from octets; the payload of a FlatBuffers message is
    CBOR, as its gate has found. *)
Definition stored (m : ParsedMessage) (p : Payload) : Prop :=
  message_payload (message m) = Some p ∧
  (if decide (serializer m = Flatbuffers) then payload_ok Cbor p
   else ∃ data, bytes_ok data ∧ parse_message (serializer m) data = Ok m) ∧
  ∀ a, args p = Some a → zlen a < 2 ^ 63.

(** The metadata of a stored message that every encoding can say: a message in
    MessagePack can have some that nests too deep for the others. *)
Definition says (m : ParsedMessage) (metadata : ValueMap) : Prop :=
  plain metadata ∧ match message m with Error _ _ _ error _ => str_ok error | _ => True end.

(** The body of a payload that is wrapped anew. *)
Definition body_of (m : ParsedMessage) (p : Payload) (body : list Z) : Prop :=
  transparent p = Some body ∨
  transparent p = None ∧ ∃ a, args p = Some a ∧ single_binary_argument (serializer m) a = Ok body.

Definition rewrapped (m : ParsedMessage) (s : Serializer) (p p' : Payload) : Prop :=
  p' = p ∨ serializer m ≠ s ∧ ∃ body, p' = mkPayload None None (Some body) ∧ body_of m p body.

(** What the receiver has of a payload: the same octets, an empty list where
    only keyword arguments were given; or the body in a wrapper of its own
    encoding. *)
Definition received (m : ParsedMessage) (s : Serializer) (p q : Payload) : Prop :=
  transparent q = None ∧
  ((∃ body a, body_of m p body ∧ kwargs q = None ∧ args q = Some a ∧ single_binary_argument s a = Ok body) ∨
   (transparent p = None ∧ kwargs q = kwargs p ∧
    args q = match args p, kwargs p with None, Some _ => Some (empty_arguments s) | a, _ => a end)).

Lemma rewrapped_received m s p p' q : payload_ok s p' → (transparent p' ≠ None → kwargs p' = None) →
  rewrapped m s p p' → delivered s p' q → received m s p q.
Proof.
  intros Hok Hk Hr (Ht & Hkw & Ha). split; [done|].
  destruct (transparent p') as [body|] eqn:E.
  - left. destruct Ha as (a & Ha & Hb). exists body, a. rewrite Hkw, (Hk ltac:(done)).
    split; [|done]. destruct Hr as [<-|(_ & b & -> & Hb')]; [by left|]. by injection E as ->.
  - destruct Hr as [->|(_ & b & -> & _)]; [by right|done].
Qed.

Context `{FL : !ForwardLaws SL RL} `{JA : !JsonArrays SL} `{JB : !JsonBorrow SL} `{CS : !CborStandIns SL}.

Definition serialized (s : Serializer) : Prop := s = Json ∨ s = MessagePack ∨ s = Cbor.

Lemma stored_payload_ok m p : stored m p → serializer m = Flatbuffers ∨ serialized (serializer m) →
  payload_ok (if decide (serializer m = Flatbuffers) then Cbor else serializer m) p.
Proof.
  intros (Hp & Hs & _) [E|E].
  - by rewrite E in *.
  - destruct (decide _) as [E'|_]; [by rewrite E' in E; destruct E as [|[|]]|].
    destruct Hs as (data & Hok & Hm). by apply (parsed_payload_ok _ data m p).
Qed.

Lemma binary_args_ok s e a : part_ok s e a → s ≠ Json → bytes_ok a.
Proof. destruct s; simpl; try done; [by intros (_ & ? & _)|by intros ((? & _) & _)]. Qed.

(** The body a payload is forwarded by. *)
Lemma ppt_body_of m p metadata octets offset : stored m p →
  binary_ppt_body (serializer m) p metadata = Some (octets, offset) →
  ∃ body pre, octets = pre ++ body ∧ zlen pre = offset ∧ bytes_ok body ∧ zlen body < 2 ^ 63 ∧ body_of m p body.
Proof.
  intros Hst H. unfold binary_ppt_body in H.
  destruct (is_binary_forwarding_serializer (serializer m)) eqn:Hbin; [|done].
  destruct (negb true || _); [done|]. apply bind_Some in H as (scheme & _ & H).
  destruct scheme; try discriminate. case_match; [discriminate|]. destruct (forallb _ _); [|discriminate].
  assert (serializer m = Flatbuffers ∨ serialized (serializer m)) as Hser
    by (unfold serialized; destruct (serializer m); try discriminate; auto).
  pose proof (stored_payload_ok m p Hst Hser) as (Ha & _ & Ht).
  destruct (transparent p) as [body|] eqn:E.
  - destruct (_ && _); [|discriminate]. injection H as <- <-.
    exists body, []. destruct (Ht body eq_refl) as (_ & ? & ?). split_and!; try done. by left.
  - apply bind_Some in H as (a & Hargs & H).
    destruct (single_binary_argument (serializer m) a) as [body| | |] eqn:Eb; try discriminate. injection H as <- <-.
    assert (bytes_ok a) as Hok.
    { eapply binary_args_ok; [by apply Ha|]. destruct (decide _); [done|]. by destruct (serializer m). }
    destruct (single_binary_suffix _ _ _ Hok Eb) as (pre & -> & Hpre). exists body, pre. apply Forall_app in Hok as [_ Hok].
    destruct Hst as (_ & _ & Hz). specialize (Hz _ Hargs). rewrite zlen_app in Hz. zlen_facts.
    split_and!; try done; [rewrite zlen_app; lia|lia|]. right. split; [done|]. by exists (pre ++ body).
Qed.

Lemma forwarding_payload_ok m s p metadata p' : serialized s → stored m p →
  forwardable (message m) = Some (p, metadata) → forwarding_payload m s p metadata = Ok p' →
  payload_ok s p' ∧ (transparent p' ≠ None → kwargs p' = None) ∧ rewrapped m s p p'.
Proof.
  intros Hs Hst Hf H. unfold forwarding_payload in H. inv_ok. rename Ha into Hr.
  destruct (bool_decide (serializer m = s)) eqn:Es.
  - apply bool_decide_eq_true in Es. injection H as <-.
    pose proof Hst as (Hp & Hdata & _). rewrite Es in Hdata.
    destruct (decide (s = Flatbuffers)) as [->|]; [by destruct Hs as [|[|]]|].
    destruct Hdata as (data & Hd & Hm). destruct (parsed_payload_ok s data m p Hs Hd Hm Hp) as [Ht Hok].
    split; [done|]. split; [by rewrite Ht|by left].
  - apply bool_decide_eq_false in Es. destruct (binary_ppt_body _ _ _) as [[octets offset]|] eqn:Eb.
    + destruct (ppt_body_of m p metadata octets offset Hst Eb) as (body & pre & -> & <- & Hok & Hz & Hbody).
      assert (Ok (E:=ErrorCode) (mkPayload None None (Some body)) = Ok p') as [= <-].
      { rewrite <-H. zlen_facts. destruct (Z.eqb_spec (zlen pre) 0) as [E0|E0].
        - apply zlen_0_nil in E0 as ->. done.
        - destruct (Z.eqb_spec (zlen pre) (zlen (pre ++ body))) as [E1|E1]; rewrite zlen_app in *.
          + assert (body = []) as -> by (apply zlen_0_nil; lia). done.
          + rewrite slice_bytes_in by (rewrite ?zlen_app; lia). cbn [mbind outcome_bind].
            pose proof (sub_bytes_app_mid pre body []) as E2. rewrite app_nil_r in E2. by rewrite E2. }
      assert (s ≠ Json) as Hj.
      { intros ->. unfold reusable_forwarding_serializer in Hr. rewrite Hf in Hr.
        rewrite bool_decide_eq_false_2 in Hr by done. simpl in Hr. rewrite bool_decide_eq_false_2 in Hr; [done|].
        rewrite elem_of_cons, list_elem_of_singleton. by intros [|]. }
      split; [|split; [done|]].
      * split; [done|]. split; [done|]. by intros b [= <-].
      * right. split; [done|]. by exists body.
    + inv_ok. unfold reusable_forwarding_serializer in Hr. rewrite Hf, Eb in Hr.
      rewrite bool_decide_eq_false_2 in Hr by done. rewrite andb_false_r in Hr.
      destruct (bool_decide (_ ∈ _)) eqn:Ep; [|discriminate]. apply bool_decide_eq_true in Ep.
      rewrite elem_of_cons, list_elem_of_singleton in Ep. simpl in Hr.
      destruct Ep as [[= E1 E2]|[= E1 E2]]; [subst s; by destruct Hs as [|[|]]|]. subst s.
      destruct (bool_decide (is_Some (transparent p'))) eqn:Et; [discriminate|]. apply bool_decide_eq_false in Et.
      pose proof (stored_payload_ok m p' Hst (or_introl E1)) as Hok. rewrite E1 in Hok. simpl in Hok.
      split; [exact Hok|]. split; [|by left]. intros Hne. destruct Et. by destruct (transparent p').
Qed.

(** ** The array that is sent *)

(** Metadata that says what [d] says, then the payload. *)
Definition sent (s : Serializer) (p : Payload) (es : ValueMap → list element) (d : ValueMap) (segs : list (list Z)) : Prop :=
  ∃ d' rest q, same_map d d' ∧ message_array s (es d' ++ rest) (concat segs) ∧
    payload_of_elements rest = Some q ∧ delivered s p q.

Lemma json_sent (code : string) n ids d b es us p segs : lit code = 0x5b :: show_number n ++ [0x2c] →
  in_u64 n → Forall in_u64 ids → plain d → json_to_vec (VMap d) = inr b → Forall2 json_element es us →
  payload_ok Json p →
  concat segs = json_prefix code ids ++ b ++ json_tail us ++ concat (json_payload_segments p) ++ [0x5d] →
  sent Json p (λ d', EInteger n :: (EInteger <$> ids) ++ [EMap d'] ++ es) d segs.
Proof.
  intros Hc Hn Hids Hd Hb Hes Hp Hsegs. destruct (json_map_written d b Hd Hb) as (t & d' & -> & Hsame & Ht).
  destruct (forwarded_json p [json_prefix code ids ++ utf8_encode t ++ json_tail us] segs
    (EInteger n :: (EInteger <$> ids) ++ [EMap d'] ++ es) (show_number n) ((show_number <$> ids) ++ [t] ++ us))
    as (rest & q & ? & ? & ?).
  - done.
  - constructor; [by apply json_number_written|]. apply Forall2_app; [|by constructor].
    apply Forall2_fmap. clear Hsegs. induction Hids; [by constructor|constructor; [by apply json_number_written|done]].
  - cbn [concat]. rewrite app_nil_r, (assoc_L (++) (json_prefix _ _)), (json_prefix_octets _ n) by done.
    rewrite (assoc_L (++) (show_number <$> ids)), (json_tail_app _ us). by rewrite <-!(assoc_L (++)).
  - rewrite Hsegs. cbn [concat]. rewrite app_nil_r. by rewrite <-!(assoc_L (++)).
  - by exists d', rest, q.
Qed.

(** The octets of a number and of a map in a binary encoding. *)
Definition number_written (s : Serializer) (n : Z) (x : list Z) : Prop :=
  match s with MessagePack => rmp_write_u64 n = Some x | _ => cbor_to_vec (VU64 n) = inr x end.
Definition map_written (s : Serializer) (d : ValueMap) (b : list Z) : Prop :=
  match s with MessagePack => rmp_to_vec (VMap d) = inr b | _ => cbor_to_vec (VMap d) = inr b end.
Definition count_written (s : Serializer) (n : Z) (header : list Z) : Prop :=
  match s with MessagePack => rmp_write_array_len n = Some header | _ => header = write_cbor_array_len n end.

Lemma binary_sent s ns xs d b es us header segments p segs : s = MessagePack ∨ s = Cbor →
  Forall in_u64 ns → Forall2 (number_written s) ns xs → plain d → map_written s d b →
  Forall2 (binary_element s) es us → payload_ok s p → zlen xs + zlen us ≤ 4 →
  count_written s (element_count (zlen xs + 1 + zlen us) p) header →
  concat segments = header ++ concat xs ++ b ++ concat us →
  append_forwarded_binary_payload segments p s = Ok segs → zlen (concat segs) < 2 ^ 63 →
  sent s p (λ d', (EInteger <$> ns) ++ [EMap d'] ++ es) d segs.
Proof.
  intros Hs Hns Hxs Hd Hb Hes Hp Hlen Hh Hc Happ Hz.
  assert (∃ d', same_map d d' ∧ binary_element s (EMap d') b) as (d' & Hsame & Hel).
  { destruct Hs as [-> | ->]; [by apply rmp_map_written|by apply cbor_map_written]. }
  destruct (forwarded_binary s p segments segs header ((EInteger <$> ns) ++ [EMap d'] ++ es) (xs ++ [b] ++ us))
    as (rest & q & ? & ? & ?); try done.
  - rewrite !zlen_app. change (zlen [b]) with 1. lia.
  - apply Forall2_app; [|by constructor]. apply Forall2_fmap_l.
    clear -Hns Hxs Hs FL. induction Hxs as [|n x ns xs Hx _ IH]; [by constructor|].
    apply Forall_cons in Hns as [Hn Hns]. constructor; [|by apply IH].
    destruct Hs as [-> | ->]; [by apply rmp_u64_written|by apply cbor_u64_written].
  - rewrite Hc, !concat_app. simpl. by rewrite app_nil_r.
  - replace (zlen (xs ++ [b] ++ us)) with (zlen xs + 1 + zlen us) by (rewrite !zlen_app; change (zlen [b]) with 1; lia).
    done.
  - by exists d', rest, q.
Qed.

Lemma encoded_Ok {A} (r : string + A) x : encoded r = Ok x → r = inr x.
Proof. destruct r; simpl; [done|]. by intros [= ->]. Qed.

(** ** The metadata of an answer *)
Lemma text_ok (key : string) : bool_decide (str_ok (lit key)) = true → str_ok (lit key).
Proof. apply bool_decide_eq_true. Qed.

Local Ltac intros_plain := let x := fresh in let E := fresh in
  intros x (? & E & ->)%fmap_Some; simpl; try done;
  match goal with H : in_option _ ?o |- _ => exact (H _ E) end.

Lemma event_details_plain publisher topic options d : in_option in_u64 publisher → in_option str_ok topic → plain options →
  event_details publisher topic options = Ok d → plain (json_entries d).
Proof.
  intros Hp Ht Ho H. apply json_entries_plain. eapply insert_ppt_plain; [done| |exact H].
  repeat apply insert_some_plain; try (by apply text_ok); [intros_plain..|split; constructor].
Qed.

Lemma invocation_details_plain c options d : in_option in_u64 (cd_caller c) → in_option str_ok (cd_caller_authid c) →
  in_option str_ok (cd_caller_authrole c) → in_option str_ok (cd_procedure c) → plain options →
  invocation_details c options = Ok d → plain (json_entries d).
Proof.
  intros H1 H2 H3 H4 Ho H. apply json_entries_plain. eapply insert_ppt_plain; [done| |exact H].
  repeat apply insert_some_plain; try (by apply text_ok); [intros_plain..|split; constructor].
Qed.

Lemma echoed_details_plain m p options : plain options → plain (echoed_details m p options).
Proof.
  intros Ho. unfold echoed_details. destruct (bool_decide _); [|split; constructor].
  assert (plain []) as Hnil by (split; constructor). revert Hnil. generalize (@nil (value * value)) as d.
  assert (Forall (λ key, str_ok (lit key)) ppt_keys) as Hk by (repeat constructor; by apply text_ok).
  revert Hk. generalize ppt_keys. induction 1 as [|key keys Hkey _ IH]; intros d Hd; [done|]. apply IH.
  destruct (get_key options key) eqn:E; [|done]. apply get_key_plain in E as [? ?]; [|done]. by apply map_insert_plain.
Qed.

Lemma forward_details_plain m call p metadata d : call_ok call → forwardable (message m) = Some (p, metadata) →
  plain metadata → forward_details m call = Ok d → plain d.
Proof.
  intros Hcall Hf Hm H. unfold forward_details in H.
  destruct (message m); try discriminate; destruct call; try discriminate; injection Hf as <- <-;
    unfold flatbuffers_routing_details in H; simpl in Hcall; destruct_and?; inv_ok; try done.
  - by eapply event_details_plain.
  - by eapply invocation_details_plain.
  - by apply echoed_details_plain.
  - unfold result_details. destruct progress; [|done]. by apply map_insert_plain; [apply text_ok|constructor|..].
Qed.

(** ** The four kinds of answers *)
Lemma or_invalid_Ok {A} (o : option A) x : or_invalid o = Ok x → o = Some x.
Proof. apply ok_or_Ok_inv. Qed.

(** The code's steps, one hypothesis each. *)
Local Ltac steps :=
  inv_ok; repeat match goal with
  | H : or_invalid _ = Ok _ |- _ => apply or_invalid_Ok in H
  | H : encoded _ = Ok _ |- _ => apply encoded_Ok in H
  | H : flatbuffers_routing_details _ = Ok _ |- _ => unfold flatbuffers_routing_details in H; inv_ok
  end.

Local Ltac all_done := first [apply Forall_nil_2 | apply Forall2_nil_2
  | apply Forall_cons_2; [done|all_done] | apply Forall2_cons; split; [done|all_done]].

Local Ltac concat_eq := simpl; rewrite ?app_nil_r; by rewrite <-?(assoc_L (++)).

(** Without arguments the JSON encoder sends one segment, with them several. *)
Lemma json_event_segments (code : string) ids b p segs :
  (if bool_decide (is_Some (args p)) || bool_decide (is_Some (kwargs p)) then
     Ok ([json_prefix code ids; b] ++ json_payload_segments p ++ [JSON_CLOSE])
   else Ok [json_prefix code ids ++ b ++ JSON_CLOSE]) = Ok (E:=ErrorCode) segs →
  concat segs = json_prefix code ids ++ b ++ json_tail [] ++ concat (json_payload_segments p) ++ [0x5d].
Proof.
  unfold json_payload_segments. destruct (_ || _); intros [= <-]; rewrite ?concat_app; [|concat_eq].
  simpl. rewrite !concat_app. concat_eq.
Qed.

(** The octets of each step, then the array they make. *)
Local Ltac answer :=
  repeat match goal with
  | H : mbind _ _ = Ok _ |- _ =>
      let x := fresh "x" in let Hx := fresh "Hx" in
      apply bind_Ok_inv in H as (x & Hx & H); first [apply encoded_Ok in Hx | apply or_invalid_Ok in Hx]
  | H : (let _ := _ in _) = Ok _ |- _ => cbv zeta in H
  end.
Local Ltac written := first [apply Forall2_nil_2 | apply Forall2_cons; split; [eassumption|written]].
Local Ltac binary_answer s ns es us :=
  match goal with H : append_forwarded_binary_payload _ _ _ = Ok _ |- _ =>
    eapply (binary_sent s ns _ _ _ es us _ _ _ _) in H;
      [exact H|by (left + right)|all_done|written|done|eassumption|all_done|done|done|try done; try reflexivity|concat_eq|done] end.

Section answers.
Context (s : Serializer) (p : Payload) (segs : list (list Z)).
Context (Hs : serialized s) (Hp : payload_ok s p) (Hz : zlen (concat segs) < 2 ^ 63).

Lemma event_sent sub pub publisher topic options : in_u64 sub → in_u64 pub →
  in_option in_u64 publisher → in_option str_ok topic → plain options →
  match s with
  | Json => encode_event_segments_json p sub pub publisher topic options
  | MessagePack => encode_event_segments_msgpack p sub pub publisher topic options
  | _ => encode_event_segments_cbor p sub pub publisher topic options
  end = Ok segs →
  ∃ d, flatbuffers_routing_details (event_details publisher topic options) = Ok d ∧
    sent s p (λ d', [EInteger 36; EInteger sub; EInteger pub; EMap d']) d segs.
Proof.
  intros Hsub Hpub Hpb Ht Ho H. assert (in_u64 36) as Hcode by done.
  destruct Hs as [-> |[-> | ->]]; apply bind_Ok_inv in H as (d & Hd & H);
    pose proof (event_details_plain _ _ _ _ Hpb Ht Ho Hd);
    unfold flatbuffers_routing_details; rewrite Hd; exists (json_entries d); (split; [done|]); answer.
  - apply (json_sent "[36," 36 [sub; pub] (json_entries d) x [] []); try done; [all_done..|].
    by apply json_event_segments.
  - binary_answer MessagePack [36; sub; pub] (@nil element) (@nil (list Z)).
  - binary_answer Cbor [36; sub; pub] (@nil element) (@nil (list Z)).
Qed.

Lemma invocation_sent invocation registration c options : in_u64 invocation → in_u64 registration →
  in_option in_u64 (cd_caller c) → in_option str_ok (cd_caller_authid c) →
  in_option str_ok (cd_caller_authrole c) → in_option str_ok (cd_procedure c) → plain options →
  match s with
  | Json => encode_invocation_segments_json p invocation registration c options
  | MessagePack => encode_invocation_segments_msgpack p invocation registration c options
  | _ => encode_invocation_segments_cbor p invocation registration c options
  end = Ok segs →
  ∃ d, flatbuffers_routing_details (invocation_details c options) = Ok d ∧
    sent s p (λ d', [EInteger 68; EInteger invocation; EInteger registration; EMap d']) d segs.
Proof.
  intros Hi Hr H1 H2 H3 H4 Ho H. assert (in_u64 68) as Hcode by done.
  destruct Hs as [-> |[-> | ->]]; apply bind_Ok_inv in H as (d & Hd & H);
    pose proof (invocation_details_plain _ _ _ H1 H2 H3 H4 Ho Hd);
    unfold flatbuffers_routing_details; rewrite Hd; exists (json_entries d); (split; [done|]); answer.
  - apply (json_sent "[68," 68 [invocation; registration] (json_entries d) x [] []); try done; [all_done..|].
    by apply json_event_segments.
  - binary_answer MessagePack [68; invocation; registration] (@nil element) (@nil (list Z)).
  - binary_answer Cbor [68; invocation; registration] (@nil element) (@nil (list Z)).
Qed.

Lemma result_sent request d : in_u64 request → plain d → result_segments s p request d = Ok segs →
  sent s p (λ d', [EInteger 50; EInteger request; EMap d']) d segs.
Proof.
  intros Hr Hd H. assert (in_u64 50) as Hcode by done.
  destruct Hs as [-> |[-> | ->]]; unfold result_segments, build_result_segments_msgpack, build_result_segments_cbor in H; cbv zeta in H; answer.
  - injection H as <-. apply (json_sent "[50," 50 [request] d x [] []); try done; [all_done..|].
    unfold build_result_segments_json. rewrite !concat_app. concat_eq.
  - binary_answer MessagePack [50; request] (@nil element) (@nil (list Z)).
  - binary_answer Cbor [50; request] (@nil element) (@nil (list Z)).
Qed.

Lemma error_sent request_type request d error : in_u64 request_type → in_u64 request → plain d → str_ok error →
  match s with
  | Json =>
      details_json ← encoded (json_to_vec (VMap d));
      error_json ← encoded (json_to_vec (VString error));
      Ok (build_error_segments_json p request_type request details_json error_json)
  | MessagePack =>
      details_msgpack ← encoded (rmp_to_vec (VMap d));
      error_msgpack ← encoded (rmp_to_vec (VString error));
      build_error_segments_msgpack p request_type request details_msgpack error_msgpack
  | _ =>
      details_cbor ← encoded (cbor_to_vec (VMap d));
      error_cbor ← encoded (cbor_to_vec (VString error));
      build_error_segments_cbor p request_type request details_cbor error_cbor
  end = Ok segs →
  sent s p (λ d', [EInteger 8; EInteger request_type; EInteger request; EMap d'; EText error]) d segs.
Proof.
  intros Ht Hr Hd He H. assert (in_u64 8) as Hcode by done.
  destruct Hs as [-> |[-> | ->]]; unfold build_error_segments_msgpack, build_error_segments_cbor in H; cbv zeta in H; answer.
  - injection H as <-. match goal with E : json_to_vec (VString _) = inr _ |- _ => apply json_text_written in E as (t & -> & Ht'); [|done] end.
    apply (json_sent "[8," 8 [request_type; request] d x [EText error] [t]); try done; [all_done..|].
    unfold build_error_segments_json, json_tail. rewrite !concat_app. concat_eq.
  - match goal with E : rmp_to_vec (VString _) = inr ?b |- _ => apply rmp_text_written in E; [|done];
      binary_answer MessagePack [8; request_type; request] [EText error] [b] end.
  - match goal with E : cbor_to_vec (VString _) = inr ?b |- _ => apply cbor_text_written in E; [|done];
      binary_answer Cbor [8; request_type; request] [EText error] [b] end.
Qed.
End answers.

(** The metadata elements of an answer. *)
Definition forward_elements (m : ParsedMessage) (call : ForwardCall) (d : ValueMap) : list element :=
  match call with
  | ForwardEvent subscription publication _ _ => [EInteger 36; EInteger subscription; EInteger publication; EMap d]
  | ForwardInvocation invocation registration _ => [EInteger 68; EInteger invocation; EInteger registration; EMap d]
  | ForwardResult request _ | ForwardEcho request => [EInteger 50; EInteger request; EMap d]
  | ForwardError request_type request =>
      match message m with
      | Error _ _ _ error _ => [EInteger 8; EInteger request_type; EInteger request; EMap d; EText error]
      | _ => []
      end
  end.

Lemma forward_elements_message m call d rest q segs s : forward_segments m s call = Ok segs →
  payload_of_elements rest = Some q →
  ∃ msg, forwarded_message m call d q = Some msg ∧ message_of_elements (forward_elements m call d ++ rest) = Some msg.
Proof.
  intros H Hq. unfold forwarded_message, forward_elements.
  destruct call; [eexists; split; [done|]; simpl; by rewrite Hq..|].
  unfold forward_segments, encode_error_segments_for_serializer in H.
  destruct (message m); try discriminate. eexists. split; [done|]. simpl. by rewrite Hq.
Qed.

(** What every call sends. *)
Lemma forward_sent m s p metadata call segs : serialized s → call_ok call → says m metadata → stored m p →
  forwardable (message m) = Some (p, metadata) → forward_segments m s call = Ok segs → zlen (concat segs) < 2 ^ 63 →
  ∃ d p', forward_details m call = Ok d ∧ forwarding_payload m s p metadata = Ok p' ∧
    sent s p' (forward_elements m call) d segs.
Proof.
  intros Hs Hcall [Hm Herr] Hst Hf H Hz.
  assert (∀ p', forwarding_payload m s p metadata = Ok p' → payload_ok s p') as Hpay
    by (intros p' Hp; by apply (forwarding_payload_ok m s p metadata)).
  unfold forward_segments, encode_event_segments_for_serializer, encode_invocation_segments_for_serializer,
    encode_result_segments_for_serializer, encode_result_segments_from_call_for_serializer,
    encode_error_segments_for_serializer in H. unfold forward_details, forward_elements.
  destruct call, (message m) eqn:Em; try discriminate; injection Hf as <- <-; simpl in Hcall; destruct_and?;
    apply bind_Ok_inv in H as (p' & Hp' & H); specialize (Hpay p' Hp').
  - destruct (event_sent s p' segs Hs Hpay Hz subscription_id publication_id publisher topic options) as (d & Hd & Hsent);
      [done..|by destruct Hs as [-> |[-> | ->]]|]. by exists d, p'.
  - destruct (invocation_sent s p' segs Hs Hpay Hz invocation_id registration_id c options) as (d & Hd & Hsent);
      [done..|by destruct Hs as [-> |[-> | ->]]|]. by exists d, p'.
  - eexists _, p'. split; [done|]. split; [done|]. apply result_sent; try done.
    unfold result_details. destruct progress; [|done]. by apply map_insert_plain; [apply text_ok|constructor|..].
  - eexists _, p'. split; [done|]. split; [done|]. apply result_sent; try done. by apply echoed_details_plain.
  - eexists _, p'. split; [done|]. split; [done|]. apply error_sent; try done. by destruct Hs as [-> |[-> | ->]].
Qed.
End forwarded.

(** ** Properties *)

(** C4: whatever a router forwards in JSON, MessagePack or CBOR reads back: for
    a stored PUBLISH, CALL, YIELD or ERROR, answered by an EVENT, an
    INVOCATION, a RESULT (of a YIELD, or of the CALL itself) or an ERROR, the
    segments that are sent, one after another, parse under the encoding of the
    destination to that message: with the identifiers given, metadata equal to
    the metadata the router states, up to the width of its integers, and the
    application payload octet for octet, or, between binary encodings in
    passthru mode, its body as the one binary argument of the new encoding.  The
    metadata has to nest less than the decoders' limit ([says]); the router itself
    checks nothing of the kind.  A receiver of MessagePack needs the memory its
    parser asks for ([msgpack_room]). *)
Theorem forwarded_message_reads_back `{SL : !SerdeLib} `{RL : !RmpLib} `{FB : !FlatBufferLib}
    `{FL : !ForwardLaws SL RL} `{JA : !JsonArrays SL} `{JB : !JsonBorrow SL} `{CS : !CborStandIns SL}
    m s p metadata call segs :
  serialized s → call_ok call → says m metadata → stored m p → forwardable (message m) = Some (p, metadata) →
  forward_segments m s call = Ok segs → zlen (concat segs) < 2 ^ 63 →
  (s = MessagePack → msgpack_room (Contiguous (concat segs))) →
  ∃ d d' q msg, forward_details m call = Ok d ∧ same_map d d' ∧ received m s p q ∧
    forwarded_message m call d' q = Some msg ∧
    parse_message s (concat segs) = Ok (mkParsedMessage msg (Contiguous (concat segs)) s None).
Proof.
  intros Hs Hcall Hm Hst Hf H Hz Hroom.
  destruct (forward_sent m s p metadata call segs) as (d & p' & Hd & Hp' & d' & rest & q & Hsame & Harr & Hq & Hdel); [done..|].
  destruct (forward_elements_message m call d' rest q segs s H Hq) as (msg & Hmsg & Hel).
  destruct (forwarding_payload_ok m s p metadata p' Hs Hst Hf Hp') as (Hok & Hk & Hr).
  exists d, d', q, msg. split; [done|]. split; [done|]. split; [by apply (rewrapped_received m s p p')|].
  split; [done|]. by apply (elements_parse s (forward_elements m call d' ++ rest)).
Qed.

(** A PUBLISH in CBOR whose one binary argument is in passthru mode. *)
Definition demo_forward_args : list Z := [0x81; 0x42; 1; 2].
Definition demo_forward_data : list Z := [0x85; 16; 7] ++ demo_ppt_cbor ++ [0x61; 0x61] ++ demo_forward_args.
Definition demo_forward_payload : Payload := mkPayload (Some demo_forward_args) None None.
Definition demo_forward_publish : ParsedMessage :=
  mkParsedMessage (Publish 7 demo_ppt (lit "a") demo_forward_payload) (Contiguous demo_forward_data) Cbor None.

Lemma forwarded_message_reads_back_witness :
  ∃ segs d q, @forward_segments ForwardSerde DemoRmp demo_builder demo_forward_publish MessagePack (ForwardEvent 5 9 None None) = Ok segs
    ∧ same_map demo_ppt d ∧ single_binary_argument MessagePack (default [] (args q)) = Ok [1; 2]
    ∧ @parse_message ForwardSerde MessagePack (concat segs)
      = Ok (mkParsedMessage (Event 5 9 d q) (Contiguous (concat segs)) MessagePack None).
Proof.
  eexists. destruct (@forwarded_message_reads_back ForwardSerde DemoRmp demo_builder forward_laws forward_arrays forward_borrow forward_stand_ins
    demo_forward_publish MessagePack demo_forward_payload demo_ppt (ForwardEvent 5 9 None None)
    [[0x95; 36; 5; 9] ++ demo_ppt_msgpack; [0x91; 0xc4; 2]; [1; 2]])
    as (d & d' & q & msg & Hd & Hsame & Hq & Hmsg & Hparse).
  - right. by left.
  - by split_and!.
  - split; [apply demo_ppt_plain|exact I].
  - split; [done|]. split; [|by intros a [= <-]]. exists demo_forward_data.
    split; [by apply (bool_decide_unpack (Forall _ _))|]. vm_compute. reflexivity.
  - done.
  - vm_compute. reflexivity.
  - vm_compute. reflexivity.
  - intros _ len offset Hl. vm_compute in Hl. injection Hl as <- <-. split; [reflexivity|]. vm_compute. discriminate.
  - exists d', q. split; [vm_compute; reflexivity|].
    assert (d = demo_ppt) as -> by (vm_compute in Hd; by injection Hd as <-). split; [exact Hsame|].
    injection Hmsg as <-. split; [|exact Hparse].
    destruct Hq as (_ & [(body & a & Hb & _ & -> & Ha)|(_ & _ & Ha)]).
    + destruct Hb as [Hb|(_ & b & Hb & Hbody)]; [done|]. injection Hb as <-. vm_compute in Hbody. injection Hbody as <-. exact Ha.
    + exfalso. destruct q as [qa qk qt]. cbn [args] in Ha. subst qa. vm_compute in Hparse. discriminate Hparse.
Defined.
