(* ===== verification/ForwardOutcomes.v ===== *)
(** * When forwarding is refused

    Which stored messages can be sent on in which encoding, and the errors of
    the forwarding calls otherwise. *)
From S2P Require Import Prelude Bytes Text TextOps WampTypes RawFrame Msgpack MsgpackMessage WampValues Cbor Json CborScanner FbProjection FbWriter FbSegments WampParse FileSegments FfiErrors BinaryArguments WireElements Forwarding ForwardRoundtrip DemoForward ForwardedMessages.

(** The calls, and the messages they answer. *)
Definition answers (m : WampMessage) (call : ForwardCall) : Prop :=
  match m, call with
  | Publish _ _ _ _, ForwardEvent _ _ _ _ | Call _ _ _ _, ForwardInvocation _ _ _
  | Yield _ _ _, ForwardResult _ _ | Call _ _ _ _, ForwardEcho _ | Error _ _ _ _ _, ForwardError _ _ => True
  | _, _ => False
  end.

(** Keyword arguments that say nothing. *)
Definition empty_keywords (source : Serializer) (k : list Z) : Prop :=
  match source with
  | Cbor => k = [0xbf; 0xff] ∨ cbor_head 5 0 k
  | MessagePack => k ∈ [[0x80]; [0xde; 0; 0]; [0xdf; 0; 0; 0; 0]]
  | _ => False
  end.

Definition text_or_absent (metadata : ValueMap) (key : string) : Prop :=
  get_key metadata key = None ∨ ∃ text, get_key metadata key = Some (VString text).

(** A payload in passthru mode, and its body. *)
Definition passthru (source : Serializer) (p : Payload) (metadata : ValueMap) (body : list Z) : Prop :=
  source ∈ [Cbor; MessagePack; Flatbuffers] ∧
  (∀ k, kwargs p = Some k → empty_keywords source k) ∧
  (∃ text, text ≠ [] ∧ get_key metadata "ppt_scheme" = Some (VString text)) ∧
  (∀ key, key ∈ ["ppt_serializer"; "ppt_cipher"; "ppt_keyid"]%string → text_or_absent metadata key) ∧
  match transparent p with
  | Some b => source = Flatbuffers ∧ args p = None ∧ body = b
  | None => ∃ a, args p = Some a ∧ single_binary_argument source a = Ok body
  end.

(** The payload can be carried in encoding [s]: it stays in its own; in
    passthru mode it moves between binary encodings; and without passthru
    CBOR and FlatBuffers carry the same octets, if the gate of FlatBuffers
    takes them. *)
Definition carries (m : ParsedMessage) (s : Serializer) (p : Payload) (metadata : ValueMap) : Prop :=
  s ∈ [Json; MessagePack; Cbor; Flatbuffers] ∧
  (serializer m = s
   ∨ s ≠ Json ∧ (∃ body, passthru (serializer m) p metadata body)
   ∨ transparent p = None ∧ get_key metadata "ppt_scheme" = None ∧
     (serializer m = Flatbuffers ∧ s = Cbor
      ∨ serializer m = Cbor ∧ s = Flatbuffers ∧ argument_ok 4 (args p) ∧ argument_ok 5 (kwargs p))).

Definition payload_octets (p : Payload) : Prop := ∀ b, args p = Some b ∨ kwargs p = Some b → bytes_ok b.

Lemma empty_keywords_exact source k : bytes_ok k → empty_ppt_keyword_map source k = true ↔ empty_keywords source k.
Proof.
  intros Hok. destruct source; simpl; try done; [by rewrite bool_decide_eq_true|].
  case_bool_decide as E; [by split; [left|]|].
  destruct (read_cbor_length k 0 5) as [[count off]|] eqn:Er.
  - pose proof Er as (? & ? & Hh)%read_cbor_length_sound; [|done|lia]. rewrite andb_true_iff, !Z.eqb_eq. split.
    + intros [-> ->]. right. by rewrite sub_bytes_full in Hh.
    + intros [?|Hk]; [done|]. pose proof (read_cbor_length_complete [] k [] 5 0 ltac:(lia) Hk) as E'.
      rewrite app_nil_r in E'. cbn [app] in E'. rewrite zlen_nil, Z.add_0_l in E'. rewrite E' in Er. by injection Er as <- <-.
  - split; [done|]. intros [?|Hk]; [done|]. pose proof (read_cbor_length_complete [] k [] 5 0 ltac:(lia) Hk) as E'.
    rewrite app_nil_r in E'. cbn [app] in E'. rewrite zlen_nil in E'. congruence.
Qed.

Lemma binary_serializer s : is_binary_forwarding_serializer s = true ↔ s ∈ [Cbor; MessagePack; Flatbuffers].
Proof. rewrite !elem_of_cons, elem_of_nil. by destruct s; naive_solver. Qed.

Lemma single_binary_length s a body : single_binary_argument s a = Ok body → zlen body ≤ zlen a.
Proof.
  assert (∀ b e r, get_bytes a b e = Some r → zlen r ≤ zlen a) as Hg.
  { intros b e r H. unfold get_bytes in H. destruct (_ && _); [|done]. injection H as <-.
    unfold sub_bytes, zlen. rewrite length_take, length_drop. lia. }
  intros H. unfold single_binary_argument in H.
  destruct s; try discriminate; apply ok_or_Ok_inv in H;
    unfold msgpack_single_binary_argument, cbor_single_binary_argument in H;
    apply bind_Some in H as ([c o] & _ & H); (destruct (negb _); [done|]);
    apply bind_Some in H as ([l o'] & _ & H); apply bind_Some in H as (stop & _ & H);
    (destruct (negb _); [done|]); by eapply Hg.
Qed.

(** The body that is found is the one of a passthru payload. *)
Lemma binary_ppt_body_exact source p metadata : payload_octets p →
  match binary_ppt_body source p metadata with
  | Some (octets, offset) => 0 ≤ offset ≤ zlen octets ∧ ∃ body, passthru source p metadata body
  | None => ∀ body, ¬ passthru source p metadata body
  end.
Proof.
  intros Hok. unfold binary_ppt_body, passthru.
  destruct (is_binary_forwarding_serializer source) eqn:Hb; cbn [negb orb].
  2:{ intros body [H%binary_serializer _]. congruence. }
  apply binary_serializer in Hb.
  destruct (match kwargs p with Some k => negb (empty_ppt_keyword_map source k) | None => false end) eqn:Hk.
  { intros body (_ & H & _). destruct (kwargs p) as [k|] eqn:Ek; [|done]. specialize (H k eq_refl).
    apply (empty_keywords_exact source k) in H; [by rewrite H in Hk|]. apply Hok. by right. }
  assert (∀ k, kwargs p = Some k → empty_keywords source k) as Hkw.
  { intros k Ek. rewrite Ek in Hk. apply (empty_keywords_exact source k); [apply Hok; by right|].
    by destruct (empty_ppt_keyword_map source k). }
  destruct (get_key metadata "ppt_scheme") as [scheme|] eqn:Es; cbn [mbind option_bind]; [|intros body (_ & _ & (t & _ & ?) & _); done].
  destruct scheme; try (intros body (_ & _ & (t & _ & ?) & _); congruence).
  match type of Es with _ = Some (VString ?t) => destruct t as [|c text]; [intros body (_ & _ & (t' & Ht & ?) & _); congruence|] end.
  match goal with |- context [forallb ?f _] => set (optional := f) end.
  assert (∀ key, optional key = true ↔ text_or_absent metadata key) as Hopt.
  { intros key. unfold optional, text_or_absent. destruct (get_key metadata key) as [[]|]; naive_solver. }
  destruct (forallb optional ["ppt_serializer"; "ppt_cipher"; "ppt_keyid"]%string) eqn:Hall.
  2:{ intros body (_ & _ & _ & H' & _). apply not_true_iff_false in Hall. apply Hall, forallb_forall.
      intros key Hin%list_elem_of_In. by apply Hopt, H'. }
  assert (∀ key, key ∈ ["ppt_serializer"; "ppt_cipher"; "ppt_keyid"]%string → text_or_absent metadata key) as Htexts.
  { intros key Hin%list_elem_of_In. apply Hopt. by apply (proj1 (forallb_forall _ _) Hall). }
  destruct (transparent p) as [b|] eqn:Et.
  - destruct (bool_decide (source = Flatbuffers) && bool_decide (args p = None)) eqn:E.
    + apply andb_true_iff in E as [E1%bool_decide_eq_true E2%bool_decide_eq_true].
      split; [zlia|]. exists b. split_and!; eauto. by exists (c :: text).
    + intros body (_ & _ & _ & _ & E1 & E2 & _). rewrite E1, E2 in E. by rewrite !bool_decide_eq_true_2 in E.
  - destruct (args p) as [a|] eqn:Ea; simpl; [|intros body (_ & _ & _ & _ & a & ? & _); done].
    destruct (single_binary_argument source a) as [body| | |] eqn:Eb;
      try (intros body (_ & _ & _ & _ & a' & [= <-] & ?); congruence).
    apply single_binary_length in Eb as Hl. split; [zlia|]. exists body. split_and!; eauto. by exists (c :: text).
Qed.

Section outcomes.
Context `{SL : !SerdeLib} `{RL : !RmpLib} `{FB : !FlatBufferLib}.

(** A step that fails with ERR_INVALID_ARGUMENT alone. *)
Definition invalid_only {A} (o : outcome ErrorCode A) : Prop := ∀ e, o = Err e → e = ERR_INVALID_ARGUMENT.

Lemma invalid_bind {A B} (o : outcome ErrorCode A) (f : A → outcome ErrorCode B) :
  invalid_only o → (∀ a, invalid_only (f a)) → invalid_only (o ≫= f).
Proof. intros Ho Hf e. destruct o; simpl; [apply Hf|intros [= ->]; by apply Ho|done..]. Qed.

Lemma invalid_encoded {A} (r : string + A) : invalid_only (encoded r) ∧ returns (encoded r).
Proof. by destruct r; (split; [intros e|]); simpl; naive_solver. Qed.
Lemma invalid_option {A} (o : option A) : invalid_only (or_invalid o) ∧ returns (or_invalid o).
Proof. by destruct o; (split; [intros e|]); simpl; naive_solver. Qed.
Lemma invalid_Ok {A} (a : A) : invalid_only (Ok a) ∧ returns (E:=ErrorCode) (Ok a).
Proof. split; [by intros e|done]. Qed.

Lemma invalid_ppt options : ∀ d, invalid_only (insert_ppt_details_from_options d options) ∧
  returns (insert_ppt_details_from_options d options).
Proof.
  induction options as [|[k v] options IH]; intros d; simpl; [apply invalid_Ok|].
  repeat case_match; try apply IH; (split; [intros e; naive_solver|done]).
Qed.

(** Both of a step and its continuation. *)
Lemma invalid_step {A B} (o : outcome ErrorCode A) (f : A → outcome ErrorCode B) :
  invalid_only o ∧ returns o → (∀ a, invalid_only (f a) ∧ returns (f a)) →
  invalid_only (o ≫= f) ∧ returns (o ≫= f).
Proof.
  intros [H1 H2] Hf. split; [apply invalid_bind; [done|apply Hf]|]. apply returns_bind; [done|]. intros a _. apply Hf.
Qed.

Local Ltac outcome_steps :=
  repeat first [ apply invalid_step; [|intros ?] | apply invalid_encoded | apply invalid_option | apply invalid_ppt
               | apply invalid_Ok | progress cbv zeta | case_match ].

Lemma invalid_append segments p s : s = MessagePack ∨ s = Cbor →
  invalid_only (append_forwarded_binary_payload segments p s) ∧ returns (append_forwarded_binary_payload segments p s).
Proof.
  intros Hs. unfold append_forwarded_binary_payload.
  destruct (transparent p) as [body|]; [|by outcome_steps].
  destruct (_ || _); [split; [by intros e [= <-]|done]|]. apply invalid_step; [|intros w; apply invalid_Ok].
  destruct Hs as [-> | ->]; [|apply invalid_Ok].
  apply invalid_step; [apply invalid_option|intros a]. apply invalid_step.
  - destruct (_ <? _); [apply invalid_Ok|]. split; [by intros e [= <-]|done].
  - intros len. apply invalid_step; [apply invalid_option|intros b; apply invalid_Ok].
Qed.

(** *** What is carried *)
Lemma reusable_exact m s p metadata : payload_octets p → forwardable (message m) = Some (p, metadata) →
  s ∈ [Json; MessagePack; Cbor; Flatbuffers] →
  (carries m s p metadata ∧ reusable_forwarding_serializer m s = Ok s) ∨
  (¬ carries m s p metadata ∧ reusable_forwarding_serializer m s = Err ERR_UNSUPPORTED).
Proof.
  intros Hok Hf Hs. unfold reusable_forwarding_serializer, carries. rewrite Hf.
  case_bool_decide as E1; [left; split; [|done]; by split; [|left]|].
  pose proof (binary_ppt_body_exact (serializer m) p metadata Hok) as Hbody.
  destruct (is_binary_forwarding_serializer s && bool_decide (is_Some (binary_ppt_body (serializer m) p metadata))) eqn:E2.
  { left. split; [|done]. split; [done|]. right. left.
    apply andb_true_iff in E2 as [Hb [x Hx]%bool_decide_eq_true]. rewrite Hx in Hbody. destruct x. destruct Hbody as [_ Hbody].
    split; [by intros ->|done]. }
  assert (¬ (s ≠ Json ∧ ∃ body, passthru (serializer m) p metadata body)) as Hno.
  { intros [Hj [body Hp]]. destruct (binary_ppt_body _ _ _) as [x|]; [|by eapply Hbody].
    rewrite (proj2 (binary_serializer s)) in E2; [done|]. rewrite !elem_of_cons, elem_of_nil in *. naive_solver. }
  assert (returns (validate_flatbuffers_payload p) ∧ (validate_flatbuffers_payload p = Ok tt ↔
    (transparent p = None ∨ args p = None ∧ kwargs p = None) ∧ argument_ok 4 (args p) ∧ argument_ok 5 (kwargs p))) as [Hr Hv]
    by (apply validate_flatbuffers_payload_exact, Hok).
  destruct (bool_decide ((serializer m, s) ∈ _)) eqn:E3; cbn [negb];
    [apply bool_decide_eq_true in E3|apply bool_decide_eq_false in E3].
  2:{ right. split; [|done]. intros (_ & [?|[?|(_ & _ & Hc)]]); [done|done|]. destruct E3.
      rewrite !elem_of_cons, elem_of_nil. destruct Hc as [[-> ->]|(-> & -> & _)]; auto. }
  destruct (bool_decide (is_Some (transparent p)) || bool_decide (is_Some (get_key metadata "ppt_scheme"))) eqn:E4.
  { right. split; [|done]. intros (_ & [?|[?|(Ht & Hk & _)]]); [done|done|]. rewrite Ht, Hk in E4. by rewrite !bool_decide_eq_false_2 in E4. }
  apply orb_false_iff in E4 as [Ht%bool_decide_eq_false Hk%bool_decide_eq_false].
  apply eq_None_not_Some in Ht, Hk. rewrite !elem_of_cons, elem_of_nil in E3.
  destruct (bool_decide (s = Flatbuffers)) eqn:E5; [apply bool_decide_eq_true in E5|apply bool_decide_eq_false in E5].
  - subst s. destruct (validate_flatbuffers_payload p) as [[]|e| |]; try done; simpl.
    + left. split; [|done]. split; [done|]. right. right. split; [done|]. split; [done|]. right. naive_solver.
    + right. split; [|done]. intros (_ & [?|[?|(_ & _ & [[_ ?]|(_ & _ & Ha & Hkw)])]]); try done. naive_solver.
  - left. split; [|done]. split; [done|]. right. right. split; [done|]. split; [done|]. left. naive_solver.
Qed.

Lemma forwarding_payload_exact m s p metadata : payload_octets p → forwardable (message m) = Some (p, metadata) →
  s ∈ [Json; MessagePack; Cbor; Flatbuffers] →
  (carries m s p metadata ∧ ∃ p', forwarding_payload m s p metadata = Ok p') ∨
  (¬ carries m s p metadata ∧ forwarding_payload m s p metadata = Err ERR_UNSUPPORTED).
Proof.
  intros Hok Hf Hs. unfold forwarding_payload.
  destruct (reusable_exact m s p metadata Hok Hf Hs) as [[Hc ->]|[Hc ->]]; cbn [mbind outcome_bind]; [left|by right].
  split; [done|]. case_bool_decide; [by eexists|].
  pose proof (binary_ppt_body_exact (serializer m) p metadata Hok) as Hbody.
  destruct (binary_ppt_body _ _ _) as [[octets offset]|]; [|by eexists]. destruct Hbody as [Hoff _].
  destruct (offset =? 0); [by eexists|]. destruct (offset =? zlen octets); [by eexists|].
  rewrite slice_bytes_in by lia. by eexists.
Qed.

(** A payload that is refused is refused by every call. *)
Lemma refused_unsupported m s p metadata call : forwardable (message m) = Some (p, metadata) →
  answers (message m) call →
  forwarding_payload m s p metadata = Err ERR_UNSUPPORTED ∨ s ∉ [Json; MessagePack; Cbor; Flatbuffers] →
  forward_segments m s call = Err ERR_UNSUPPORTED.
Proof.
  intros Hf Ha Hr.
  assert (forwarding_payload m s p metadata = Err ERR_UNSUPPORTED ∨
    s ∉ [Json; MessagePack; Cbor; Flatbuffers] ∧ ∃ p', forwarding_payload m s p metadata = Ok p') as H.
  { destruct Hr as [?|Hs]; [by left|]. unfold forwarding_payload, reusable_forwarding_serializer. rewrite Hf.
    rewrite !elem_of_cons, elem_of_nil in Hs. case_bool_decide as E; [right|left].
    - split; [rewrite !elem_of_cons, elem_of_nil; naive_solver|]. by exists p.
    - rewrite (not_true_is_false (is_binary_forwarding_serializer s)); [|by destruct s; naive_solver]. cbn [andb].
      rewrite bool_decide_eq_false_2; [done|]. rewrite !elem_of_cons, elem_of_nil. naive_solver. }
  unfold forward_segments, encode_event_segments_for_serializer, encode_invocation_segments_for_serializer,
    encode_result_segments_for_serializer, encode_result_segments_from_call_for_serializer,
    encode_error_segments_for_serializer, result_segments.
  destruct call, (message m) eqn:Em; try done; injection Hf as <- <-; destruct H as [->|(Hs & p' & ->)]; try done;
    cbn [mbind outcome_bind]; rewrite !elem_of_cons, elem_of_nil in Hs; destruct s; naive_solver.
Qed.

Local Ltac encoder_steps :=
  unfold encode_event_segments_json, encode_event_segments_msgpack, encode_event_segments_cbor,
    encode_invocation_segments_json, encode_invocation_segments_msgpack, encode_invocation_segments_cbor,
    build_result_segments_msgpack, build_result_segments_cbor, build_error_segments_msgpack,
    build_error_segments_cbor, event_details, invocation_details;
  repeat first [ apply invalid_append; by (left + right) | apply invalid_step; [|intros ?] | apply invalid_encoded
               | apply invalid_option | apply invalid_ppt | apply invalid_Ok | progress cbv zeta | case_match ].

(** A call on a payload that is carried fails in its encoders alone. *)
Lemma carried_invalid m s p p' metadata call : forwardable (message m) = Some (p, metadata) →
  answers (message m) call → s ∈ [Json; MessagePack; Cbor; Flatbuffers] →
  forwarding_payload m s p metadata = Ok p' →
  invalid_only (forward_segments m s call) ∧ (s ≠ Flatbuffers → returns (forward_segments m s call)).
Proof.
  intros Hf Ha Hs Hp.
  assert (∀ msg, invalid_only (encode_forwarded_flatbuffers msg)) as Hfb.
  { intros msg e. unfold encode_forwarded_flatbuffers. destruct (encode_segments msg); simpl; naive_solver. }
  assert (∀ d, invalid_only d → invalid_only (flatbuffers_routing_details d)) as Hd
    by (intros d H; apply invalid_bind; [done|intros a; apply invalid_Ok]).
  rewrite !elem_of_cons, elem_of_nil in Hs.
  assert (∀ o : outcome ErrorCode (list (list Z)), invalid_only o ∧ returns o →
    invalid_only o ∧ (s ≠ Flatbuffers → returns o)) as Hboth by naive_solver.
  unfold forward_segments, encode_event_segments_for_serializer, encode_invocation_segments_for_serializer,
    encode_result_segments_for_serializer, encode_result_segments_from_call_for_serializer,
    encode_error_segments_for_serializer, result_segments.
  destruct call, (message m) eqn:Em; try done; injection Hf as <- <-; rewrite Hp; cbn [mbind outcome_bind];
    destruct Hs as [->|[->|[->|[->|[]]]]]; try solve [apply Hboth; encoder_steps]; (split; [|done]);
    try (apply invalid_bind; [apply Hd; unfold event_details, invocation_details; apply invalid_ppt|intros ?]);
    apply Hfb.
Qed.
End outcomes.

(** ** Properties *)

(** C19: the errors of forwarding: a call that does not answer the stored
    message's kind fails with ERR_INVALID_ARGUMENT.  Otherwise it fails with
    ERR_UNSUPPORTED exactly when the encoding cannot carry the payload: another
    encoding is reached only from a passthru payload with one binary argument
    and text options, between binary encodings, or between CBOR and FlatBuffers
    without passthru, as far as the gate of FlatBuffers allows.  Every other
    failure is ERR_INVALID_ARGUMENT, and into JSON, MessagePack and CBOR the
    call always returns. *)
Theorem forward_outcome_exact `{SL : !SerdeLib} `{RL : !RmpLib} `{FB : !FlatBufferLib} m s p metadata call :
  forwardable (message m) = Some (p, metadata) → payload_octets p →
  let r := forward_segments m s call in
  (¬ answers (message m) call → r = Err ERR_INVALID_ARGUMENT) ∧
  (answers (message m) call → r = Err ERR_UNSUPPORTED ↔ ¬ carries m s p metadata) ∧
  (∀ e, r = Err e → e = ERR_INVALID_ARGUMENT ∨ e = ERR_UNSUPPORTED) ∧
  (s ≠ Flatbuffers → returns r).
Proof.
  intros Hf Hok r.
  assert (¬ answers (message m) call → r = Err ERR_INVALID_ARGUMENT) as Hno.
  { unfold r. intros H. destruct call, (message m) eqn:Em; try discriminate; try (by destruct H);
      unfold forward_segments, encode_event_segments_for_serializer, encode_invocation_segments_for_serializer,
        encode_result_segments_for_serializer, encode_result_segments_from_call_for_serializer,
        encode_error_segments_for_serializer; by rewrite Em. }
  split; [done|].
  assert (answers (message m) call ∨ ¬ answers (message m) call) as [Ha|Ha]
    by (destruct (message m), call; simpl; tauto); [|rewrite (Hno Ha); naive_solver].
  assert (∀ p', forwarding_payload m s p metadata = Ok p' → s ∈ [Json; MessagePack; Cbor; Flatbuffers] →
    invalid_only r ∧ (s ≠ Flatbuffers → returns r)) as Hcarried by (intros p' ? ?; by eapply carried_invalid).
  assert (forwarding_payload m s p metadata = Err ERR_UNSUPPORTED ∨
    s ∉ [Json; MessagePack; Cbor; Flatbuffers] → r = Err ERR_UNSUPPORTED) as Hun by (by apply refused_unsupported).
  destruct (decide (s ∈ [Json; MessagePack; Cbor; Flatbuffers])) as [Hs|Hs].
  - destruct (forwarding_payload_exact m s p metadata Hok Hf Hs) as [[Hc [p' Hp]]|[Hc Hp]].
    + destruct (Hcarried p' Hp Hs) as [Hi Hr]. split; [|split; [by left; apply Hi|done]]. intros _.
      split; [intros E; by specialize (Hi _ E)|done].
    + rewrite Hun by by left. naive_solver.
  - rewrite Hun by by right. split; [|naive_solver]. intros _. split; [|done]. by intros _ [? _].
Qed.

Lemma forward_outcome_exact_witness :
  ¬ carries demo_forward_publish Json demo_forward_payload demo_ppt ∧
  @forward_segments ForwardSerde DemoRmp demo_builder demo_forward_publish Cbor (ForwardResult 1 true) = Err ERR_INVALID_ARGUMENT.
Proof.
  assert (payload_octets demo_forward_payload) as Hok.
  { intros b [[= <-]|?]; [|done]. by apply (bool_decide_unpack (Forall _ _)). }
  destruct (@forward_outcome_exact ForwardSerde DemoRmp demo_builder demo_forward_publish Json demo_forward_payload demo_ppt
    (ForwardEvent 5 9 None None)) as (_ & H & _); [reflexivity|exact Hok|].
  destruct (@forward_outcome_exact ForwardSerde DemoRmp demo_builder demo_forward_publish Cbor demo_forward_payload demo_ppt
    (ForwardResult 1 true)) as (H' & _); [reflexivity|exact Hok|].
  split; [|apply H'; by intros []].
  apply (proj1 (H I)). vm_compute. reflexivity.
Defined.
