(* ===== verification/E2ee.v ===== *)
(** * End-to-end encrypted payloads

    Of [ct_ffi/src/runtime/ffi.rs]: the two ciphers around a payload, the
    decryption of a stored message's one binary argument, copied or in the
    receive buffer, and the encryption of a range of a file.  The ciphers
    themselves ([crypto_secretbox], [ring]) are a parameter. *)
From S2P Require Import Prelude Bytes Text WampTypes RawFrame CborScanner OutboundFrame IoStream FileSender WireWriter FileSegments FfiErrors BinaryArguments Forwarding.

Definition E2EE_KEY_LEN : Z := 32.
Definition E2EE_NONCE_LEN : Z := 24.
Definition E2EE_AES256_GCM_NONCE_LEN : Z := 12.
Definition E2EE_AUTH_TAG_LEN : Z := 16.

(** [XSalsa20Poly1305] with a detached tag; [UnboundKey::new] and
    [LessSafeKey] of [ring]: [open_in_place] leaves the plaintext in front of
    its buffer, and something in the tag's place. *)
Class AeadLib : Type := {
  salsa_encrypt : list Z → list Z → list Z → option (list Z * list Z);
  salsa_decrypt : list Z → list Z → list Z → list Z → option (list Z);
  gcm_key_ok : list Z → bool;
  gcm_seal : list Z → list Z → list Z → option (list Z * list Z);
  gcm_open : list Z → list Z → list Z → option (list Z * list Z);
}.

(** What they promise: a tag of 16 octets, ciphertexts as long as their
    plaintexts, and that opening undoes sealing. *)
Class AeadLaws (AL : AeadLib) : Prop := {
  salsa_encrypt_len key nonce p c t : salsa_encrypt key nonce p = Some (c, t) →
    zlen c = zlen p ∧ zlen t = E2EE_AUTH_TAG_LEN;
  salsa_roundtrip key nonce p c t : salsa_encrypt key nonce p = Some (c, t) → salsa_decrypt key nonce c t = Some p;
  gcm_key_len key : gcm_key_ok key = true ↔ zlen key = E2EE_KEY_LEN;
  gcm_seal_len key nonce p c t : gcm_seal key nonce p = Some (c, t) →
    zlen c = zlen p ∧ zlen t = E2EE_AUTH_TAG_LEN;
  gcm_open_len key nonce b p rest : gcm_open key nonce b = Some (p, rest) → zlen p + zlen rest = zlen b;
  gcm_roundtrip key nonce p c t : gcm_seal key nonce p = Some (c, t) →
    ∃ rest, gcm_open key nonce (c ++ t) = Some (p, rest);
}.

Section ciphers.
Context `{AL : !AeadLib}.

(** ** Payloads *)
Definition normalize_key_material (key : list Z) : outcome ErrorCode (list Z) :=
  if negb (zlen key =? E2EE_KEY_LEN) then Err ERR_INVALID_ARGUMENT else Ok key.

(** The nonce is what [OsRng] fills in. *)
Definition encrypt_e2ee_payload (key nonce plaintext : list Z) : outcome ErrorCode (list Z) :=
  key ← normalize_key_material key;
  '(ciphertext, tag) ← ok_or ERR_INTERNAL (salsa_encrypt key nonce plaintext);
  Ok (nonce ++ tag ++ ciphertext).

Definition decrypt_e2ee_payload (key ciphertext : list Z) : outcome ErrorCode (list Z) :=
  if zlen ciphertext <? E2EE_NONCE_LEN then Err ERR_INVALID_ARGUMENT
  else
    key ← normalize_key_material key;
    let nonce := sub_bytes ciphertext 0 E2EE_NONCE_LEN in
    let message := sub_bytes ciphertext E2EE_NONCE_LEN (zlen ciphertext) in
    tag ← ok_or ERR_DECRYPT_FAILED (get_bytes message 0 E2EE_AUTH_TAG_LEN);
    ok_or ERR_DECRYPT_FAILED
      (salsa_decrypt key nonce (sub_bytes message E2EE_AUTH_TAG_LEN (zlen message)) tag).

Definition aes256_gcm_key (key : list Z) : outcome ErrorCode (list Z) :=
  if gcm_key_ok key then Ok key else Err ERR_INVALID_ARGUMENT.

(** [SystemRandom::fill] may fail. *)
Definition encrypt_e2ee_aes256_gcm_payload (key : list Z) (random : option (list Z)) (plaintext : list Z) :
    outcome ErrorCode (list Z) :=
  cipher ← aes256_gcm_key key;
  nonce ← ok_or ERR_INTERNAL random;
  '(ciphertext, tag) ← ok_or ERR_INTERNAL (gcm_seal cipher nonce plaintext);
  Ok (nonce ++ ciphertext ++ tag).

Definition decrypt_e2ee_aes256_gcm_payload (key ciphertext : list Z) : outcome ErrorCode (list Z) :=
  if zlen ciphertext <? E2EE_AES256_GCM_NONCE_LEN then Err ERR_INVALID_ARGUMENT
  else
    cipher ← aes256_gcm_key key;
    let nonce := sub_bytes ciphertext 0 E2EE_AES256_GCM_NONCE_LEN in
    let message := sub_bytes ciphertext E2EE_AES256_GCM_NONCE_LEN (zlen ciphertext) in
    '(plaintext, _) ← ok_or ERR_DECRYPT_FAILED (gcm_open cipher nonce message);
    Ok plaintext.

(** The buffer afterwards, and the plaintext's range in it. *)
Definition decrypt_e2ee_aes256_gcm_payload_in_place (key bytes : list Z) (start stop : Z) :
    outcome ErrorCode (list Z * (Z * Z)) :=
  nonce_end ← ok_or ERR_INVALID_ARGUMENT (usize_checked_add start E2EE_AES256_GCM_NONCE_LEN);
  if (stop <? nonce_end) || (zlen bytes <? stop) then Err ERR_INVALID_ARGUMENT
  else
    let nonce := sub_bytes bytes start nonce_end in
    cipher ← aes256_gcm_key key;
    '(plaintext, rest) ← ok_or ERR_DECRYPT_FAILED (gcm_open cipher nonce (sub_bytes bytes nonce_end stop));
    plaintext_end ← ok_or ERR_INTERNAL (usize_checked_add nonce_end (zlen plaintext));
    Ok (sub_bytes bytes 0 nonce_end ++ plaintext ++ rest ++ sub_bytes bytes stop (zlen bytes), (nonce_end, plaintext_end)).

(** ** Stored messages *)

(** [StoredMessage]: with the parts of its payload that are views of the raw
    frame, and where they begin in it. *)
Record StoredMessage : Type := mkStoredMessage {
  sm_serializer : Serializer;
  sm_code : Z;
  sm_raw : RawFrame;
  sm_args : option (list Z);
  sm_kwargs : option (list Z);
  sm_transparent : option (list Z);
  sm_args_at : option Z;
  sm_transparent_at : option Z;
}.

Inductive E2eePlaintextFormat : Type := CborPpt | TypedFlatbuffers.
#[global] Instance format_eq_dec : EqDecision E2eePlaintextFormat.
Proof. solve_decision. Defined.

Definition CT_E2EE_DECRYPTED_PAYLOAD_DIRECT_BINARY : Z := 1.
Definition CT_E2EE_DECRYPTED_PAYLOAD_PPT : Z := 2.
Definition MAX_TYPED_PAYLOAD : Z := 64 * 1024 * 1024.

Record DecryptedE2eeMessagePayload : Type := mkDecrypted {
  dp_bytes : list Z;
  dp_start : Z;
  dp_stop : Z;
  dp_kind : Z;
}.

(** The payload lies in front of the fixed suffix of its wrapper. *)
Definition decrypted_e2ee_message_payload_with_format (bytes : list Z) (start stop : Z) (format : E2eePlaintextFormat) :
    outcome ErrorCode DecryptedE2eeMessagePayload :=
  plaintext ← ok_or ERR_INTERNAL (get_bytes bytes start stop);
  if bool_decide (format = TypedFlatbuffers) then
    if MAX_TYPED_PAYLOAD <? zlen plaintext then Err ERR_INVALID_ARGUMENT
    else Ok (mkDecrypted bytes start stop CT_E2EE_DECRYPTED_PAYLOAD_DIRECT_BINARY)
  else
    match cbor_ppt_single_binary_argument plaintext with
    | Some payload =>
        let payload_offset := zlen plaintext - zlen CBOR_PPT_SUFFIX - zlen payload in
        payload_start ← ok_or ERR_INTERNAL (usize_checked_add start payload_offset);
        payload_stop ← ok_or ERR_INTERNAL (usize_checked_add payload_start (zlen payload));
        Ok (mkDecrypted bytes payload_start payload_stop CT_E2EE_DECRYPTED_PAYLOAD_DIRECT_BINARY)
    | None => Ok (mkDecrypted bytes start stop CT_E2EE_DECRYPTED_PAYLOAD_PPT)
    end.

Definition borrowed_e2ee_message_ciphertext (m : StoredMessage) : outcome ErrorCode (list Z) :=
  if bool_decide (is_Some (sm_kwargs m)) then Err ERR_UNSUPPORTED
  else
    match sm_transparent m with
    | Some payload =>
        if negb (bool_decide (sm_serializer m = Flatbuffers)) || bool_decide (is_Some (sm_args m))
        then Err ERR_UNSUPPORTED else Ok payload
    | None =>
        args ← ok_or ERR_UNSUPPORTED (sm_args m);
        map_err (λ _, ERR_UNSUPPORTED) (single_binary_argument (sm_serializer m) args)
    end.

Section messages.
(** The strict decoder of the [base64] crate. *)
Context (base64_decode : list Z → option (list Z)).

Definition decrypt_with (key ciphertext : list Z) (cipher_code : Z) : outcome ErrorCode (list Z) :=
  if cipher_code =? 1 then decrypt_e2ee_payload key ciphertext
  else if cipher_code =? 2 then decrypt_e2ee_aes256_gcm_payload key ciphertext
  else Err ERR_INVALID_ARGUMENT.

Definition decrypt_e2ee_message_payload_copied_with_format (m : StoredMessage) (key : list Z) (cipher_code : Z)
    (format : E2eePlaintextFormat) : outcome ErrorCode DecryptedE2eeMessagePayload :=
  if bool_decide (is_Some (sm_kwargs m)) then Err ERR_UNSUPPORTED
  else
    ciphertext ← (if bool_decide (sm_serializer m = Json) then
                    args ← ok_or ERR_UNSUPPORTED (sm_args m);
                    ok_or ERR_UNSUPPORTED (decode_canonical_json_single_binary_argument base64_decode args)
                  else borrowed_e2ee_message_ciphertext m);
    if bool_decide (format = TypedFlatbuffers) && (MAX_TYPED_PAYLOAD <? zlen ciphertext)
    then Err ERR_INVALID_ARGUMENT
    else
      plaintext ← decrypt_with key ciphertext cipher_code;
      decrypted_e2ee_message_payload_with_format plaintext 0 (zlen plaintext) format.

(** Where the ciphertext begins in the raw frame, if it is a view of it. *)
Definition ciphertext_at (m : StoredMessage) (ciphertext : list Z) : option Z :=
  match sm_transparent m with
  | Some _ => sm_transparent_at m
  | None =>
      args ← sm_args m; at_ ← sm_args_at m; Some (at_ + (zlen args - zlen ciphertext))
  end.

(** [slice_range]: on the addresses of the two slices *)
Definition slice_range (container slice : list Z) (at_ : option Z) : option (Z * Z) :=
  start ← at_;
  stop ← usize_checked_add start (zlen slice);
  if stop <=? zlen container then Some (start, stop) else None.

(** [buffer_unique]: [try_into_mut] finds no other owner of the receive buffer. *)
Definition decrypt_e2ee_message_payload_owned_with_format (m : StoredMessage) (buffer_unique : bool) (key : list Z)
    (cipher_code : Z) (format : E2eePlaintextFormat) : outcome ErrorCode DecryptedE2eeMessagePayload :=
  if negb (cipher_code =? 2) || bool_decide (sm_serializer m = Json)
  then decrypt_e2ee_message_payload_copied_with_format m key cipher_code format
  else
    ciphertext ← borrowed_e2ee_message_ciphertext m;
    if bool_decide (format = TypedFlatbuffers) && (MAX_TYPED_PAYLOAD <? zlen ciphertext)
    then Err ERR_INVALID_ARGUMENT
    else
      match sm_raw m with
      | Segmented _ _ => decrypt_e2ee_message_payload_copied_with_format m key cipher_code format
      | Contiguous raw =>
          match slice_range raw ciphertext (ciphertext_at m ciphertext) with
          | None => decrypt_e2ee_message_payload_copied_with_format m key cipher_code format
          | Some (start, stop) =>
              if buffer_unique then
                '(bytes, (start, stop)) ← decrypt_e2ee_aes256_gcm_payload_in_place key raw start stop;
                decrypted_e2ee_message_payload_with_format bytes start stop format
              else
                ciphertext ← ok_or ERR_INTERNAL (get_bytes raw start stop);
                plaintext ← decrypt_e2ee_aes256_gcm_payload key ciphertext;
                decrypted_e2ee_message_payload_with_format plaintext 0 (zlen plaintext) format
          end
      end.

(** ** Files

    The file is what its reads give ([FileSegments]); [metadata] may fail. *)
Fixpoint read_file_exact_at_sync (events : list file_event) (file : list Z) (offset want : Z) (buffer : list Z) :
    io_error + list Z :=
  if want =? 0 then inr buffer
  else match events with
  | [] =>
      let read := sub_bytes file offset (offset + want) in
      if zlen read <? want then inl UnexpectedEof else inr (buffer ++ read)
  | FeErr e :: _ => inl e
  | FeInterrupted :: _ => inl OtherIo
  | FeRead k :: events =>
      let read := read_at file offset want k in
      if zlen read =? 0 then inl UnexpectedEof
      else read_file_exact_at_sync events file (offset + zlen read) (want - zlen read) (buffer ++ read)
  end.

Definition read_file_payload (events : list file_event) (file : list Z) (file_offset file_len : Z) :
    outcome ErrorCode (list Z) :=
  match read_file_exact_at_sync events file file_offset file_len [] with
  | inl _ => Err ERR_IO
  | inr bytes => Ok bytes
  end.

(** The range lies in the file. *)
Definition check_file_range (metadata : option Z) (file_offset file_len : Z) : outcome ErrorCode unit :=
  stop ← ok_or ERR_INVALID_ARGUMENT (usize_checked_add file_offset file_len);
  len ← ok_or ERR_IO metadata;
  if len <? stop then Err ERR_INVALID_ARGUMENT else Ok tt.

Definition read_native_e2ee_file_payload (events : list file_event) (file : list Z) (metadata : option Z)
    (file_offset file_len : Z) : outcome ErrorCode (list Z) :=
  _ ← check_file_range metadata file_offset file_len;
  bytes ← read_file_payload events file file_offset file_len;
  Ok (CBOR_PPT_PREFIX ++ cbor_byte_string_header file_len ++ bytes ++ CBOR_PPT_SUFFIX).

(** Sealed in the buffer it is read into. *)
Definition encrypt_e2ee_aes256_gcm_file_payload (key : list Z) (random : option (list Z))
    (events : list file_event) (file : list Z) (metadata : option Z) (file_offset file_len : Z) :
    outcome ErrorCode (list Z) :=
  _ ← check_file_range metadata file_offset file_len;
  plaintext_len ← ok_or ERR_INVALID_ARGUMENT
    (n ← usize_checked_add file_len (zlen (cbor_byte_string_header file_len)); usize_checked_add n 15);
  capacity ← ok_or ERR_INVALID_ARGUMENT
    (n ← usize_checked_add E2EE_AES256_GCM_NONCE_LEN plaintext_len; usize_checked_add n E2EE_AUTH_TAG_LEN);
  cipher ← aes256_gcm_key key;
  nonce ← ok_or ERR_INTERNAL random;
  let combined := nonce ++ CBOR_PPT_PREFIX ++ cbor_byte_string_header file_len in
  payload_end ← ok_or ERR_INVALID_ARGUMENT (usize_checked_add (zlen combined) file_len);
  bytes ← read_file_payload events file file_offset file_len;
  let combined := combined ++ bytes ++ CBOR_PPT_SUFFIX in
  '(ciphertext, tag) ← ok_or ERR_INTERNAL
    (gcm_seal cipher nonce (sub_bytes combined E2EE_AES256_GCM_NONCE_LEN (zlen combined)));
  Ok (sub_bytes combined 0 E2EE_AES256_GCM_NONCE_LEN ++ ciphertext ++ tag).

Definition native_e2ee_file_encrypted_len (key : list Z) (file_len cipher_code : Z) : outcome ErrorCode Z :=
  _ ← (if cipher_code =? 1 then normalize_key_material key
       else if cipher_code =? 2 then aes256_gcm_key key else Err ERR_INVALID_ARGUMENT);
  plaintext_len ← ok_or ERR_INVALID_ARGUMENT
    (n ← usize_checked_add file_len (zlen (cbor_byte_string_header file_len)); usize_checked_add n 15);
  let nonce_len := if cipher_code =? 1 then E2EE_NONCE_LEN else E2EE_AES256_GCM_NONCE_LEN in
  ok_or ERR_INVALID_ARGUMENT (n ← usize_checked_add nonce_len plaintext_len; usize_checked_add n E2EE_AUTH_TAG_LEN).

(** [base64::encoded_len] with padding *)
Definition base64_encoded_len (n : Z) : option Z :=
  let len := (n + 2) / 3 * 4 in if len <? 2 ^ 64 then Some len else None.

Definition native_e2ee_file_wire_len (encrypted_len wire_encoding_code : Z) : outcome ErrorCode Z :=
  if wire_encoding_code =? 0 then Ok encrypted_len
  else if wire_encoding_code =? 1 then ok_or ERR_INVALID_ARGUMENT (base64_encoded_len encrypted_len)
  else Err ERR_INVALID_ARGUMENT.

(** [encode_slice] fails when the buffer is too short. *)
Definition encode_native_e2ee_file_wire_payload `{B64 : !Base64Lib} (encrypted : list Z) (wire_encoding_code : Z) :
    outcome ErrorCode (list Z) :=
  if wire_encoding_code =? 0 then Ok encrypted
  else
    encoded_len ← native_e2ee_file_wire_len (zlen encrypted) wire_encoding_code;
    let encoded := b64_encode encrypted in
    if encoded_len <? zlen encoded then Err ERR_INTERNAL
    else if negb (zlen encoded =? encoded_len) then Err ERR_INTERNAL
    else Ok encoded.

(** The closure of [send_message_native_e2ee_file_segment_impl]. *)
Definition prepare_native_e2ee_file `{B64 : !Base64Lib} (key nonce : list Z) (random : option (list Z))
    (events : list file_event) (file : list Z) (metadata : option Z)
    (file_offset file_len cipher_code wire_encoding_code : Z) : outcome ErrorCode (list Z) :=
  encrypted ← (if cipher_code =? 1 then
                 plaintext ← read_native_e2ee_file_payload events file metadata file_offset file_len;
                 encrypt_e2ee_payload key nonce plaintext
               else if cipher_code =? 2 then
                 encrypt_e2ee_aes256_gcm_file_payload key random events file metadata file_offset file_len
               else Err ERR_INVALID_ARGUMENT);
  encode_native_e2ee_file_wire_payload encrypted wire_encoding_code.

(** The length it announces beforehand. *)
Definition announced_native_e2ee_file_len (key : list Z) (file_len cipher_code wire_encoding_code : Z) :
    outcome ErrorCode Z :=
  encrypted_len ← native_e2ee_file_encrypted_len key file_len cipher_code;
  native_e2ee_file_wire_len encrypted_len wire_encoding_code.
End messages.
End ciphers.

(** ** The wrapper around a payload *)
Lemma cbor_ppt_sound bytes payload : bytes_ok bytes →
  cbor_ppt_single_binary_argument bytes = Some payload →
  bytes = CBOR_PPT_PREFIX ++ cbor_byte_string_header (zlen payload) ++ payload ++ CBOR_PPT_SUFFIX.
Proof.
  intros Hok H. unfold cbor_ppt_single_binary_argument in H.
  destruct (slice_starts_with CBOR_PPT_PREFIX bytes) eqn:Hp; [|done]. cbn [negb] in H.
  unfold slice_starts_with in Hp. apply bool_decide_eq_true in Hp.
  apply bind_Some in H as ([len start] & Hlen & H). cbv zeta in H.
  apply bind_Some in H as (header & (Hs & Hb & ->)%get_bytes_Some & H).
  case_bool_decide as Hh; [|done]. cbn [negb] in H.
  apply bind_Some in H as (stop & Hstop & H). unfold usize_checked_add in Hstop.
  destruct (Z.ltb_spec (start + len) (2 ^ 64)); [|done]. injection Hstop as <-.
  apply bind_Some in H as (suffix & (Hs2 & _ & ->)%get_bytes_Some & H).
  case_bool_decide as Hsuf; [|done]. cbn [negb] in H. apply get_bytes_Some in H as (Hs3 & Hb3 & ->).
  assert (0 ≤ len) by lia. assert (zlen CBOR_PPT_PREFIX = 7) as E7 by done. rewrite E7 in *.
  assert (zlen (sub_bytes bytes start (start + len)) = len) as -> by (rewrite zlen_sub_bytes; lia).
  rewrite <-Hh, <-Hsuf, sub_bytes_join, sub_bytes_join by lia.
  assert (sub_bytes bytes 0 7 = CBOR_PPT_PREFIX) as <- by (by rewrite <-Hp).
  by rewrite sub_bytes_join, sub_bytes_full by lia.
Qed.

Lemma cbor_ppt_complete payload : zlen payload < 2 ^ 63 →
  cbor_ppt_single_binary_argument (CBOR_PPT_PREFIX ++ cbor_byte_string_header (zlen payload) ++ payload ++ CBOR_PPT_SUFFIX)
  = Some payload.
Proof.
  intros Hz. zlen_facts. set (header := cbor_byte_string_header (zlen payload)).
  assert (cbor_head 2 (zlen payload) header) as Hh.
  { unfold header. rewrite cbor_byte_string_header_written by done. apply (write_cbor_length_head 2); lia. }
  unfold cbor_ppt_single_binary_argument. unfold slice_starts_with.
  rewrite take_app_length, bool_decide_eq_true_2 by done. cbn [negb]. cbv zeta.
  rewrite (read_cbor_length_complete CBOR_PPT_PREFIX header (payload ++ CBOR_PPT_SUFFIX) 2 (zlen payload)) by (done || lia).
  cbn [mbind option_bind]. fold header.
  assert (get_bytes (CBOR_PPT_PREFIX ++ header ++ payload ++ CBOR_PPT_SUFFIX) (zlen CBOR_PPT_PREFIX) (zlen CBOR_PPT_PREFIX + zlen header)
    = Some header) as ->.
  { apply get_bytes_Some. split_and!; [zlia|zlia|]. by rewrite sub_bytes_app_mid. }
  cbn [mbind option_bind]. rewrite bool_decide_eq_true_2 by done. cbn [negb].
  set (bytes := CBOR_PPT_PREFIX ++ header ++ payload ++ CBOR_PPT_SUFFIX).
  assert (zlen header ≤ 9) as Hh9.
  { unfold header, cbor_byte_string_header. repeat case_match; rewrite ?zlen_cons, ?zlen_be_bytes, ?zlen_nil; lia. }
  assert (zlen CBOR_PPT_PREFIX = 7 ∧ zlen CBOR_PPT_SUFFIX = 8) as [E7 E8] by done.
  assert (usize_checked_add (zlen CBOR_PPT_PREFIX + zlen header) (zlen payload)
    = Some (zlen CBOR_PPT_PREFIX + zlen header + zlen payload)) as ->.
  { unfold usize_checked_add. rewrite (proj2 (Z.ltb_lt _ _)); [done|lia]. }
  cbn [mbind option_bind].
  assert (bytes = (CBOR_PPT_PREFIX ++ header ++ payload) ++ CBOR_PPT_SUFFIX ++ []) as E1
    by (unfold bytes; by rewrite app_nil_r, <-!(assoc_L (++))).
  assert (bytes = (CBOR_PPT_PREFIX ++ header) ++ payload ++ CBOR_PPT_SUFFIX) as E2
    by (unfold bytes; by rewrite <-!(assoc_L (++))).
  assert (get_bytes bytes (zlen CBOR_PPT_PREFIX + zlen header + zlen payload) (zlen bytes) = Some CBOR_PPT_SUFFIX) as ->.
  { apply get_bytes_Some. split_and!; [unfold bytes; zlia|unfold bytes; zlia|].
    rewrite E1. replace (zlen CBOR_PPT_PREFIX + zlen header + zlen payload) with (zlen (CBOR_PPT_PREFIX ++ header ++ payload)) by zlia.
    replace (zlen ((CBOR_PPT_PREFIX ++ header ++ payload) ++ CBOR_PPT_SUFFIX ++ []))
      with (zlen (CBOR_PPT_PREFIX ++ header ++ payload) + zlen CBOR_PPT_SUFFIX) by zlia.
    by rewrite sub_bytes_app_mid. }
  cbn [mbind option_bind]. rewrite bool_decide_eq_true_2 by done. cbn [negb].
  apply get_bytes_Some. split_and!; [zlia|unfold bytes; zlia|]. rewrite E2, <-zlen_app. by rewrite sub_bytes_app_mid.
Qed.

(** ** Reading and sealing *)
Lemma read_file_exact_at_sync_ok events file off want buffer bytes : 0 ≤ off → 0 ≤ want →
  read_file_exact_at_sync events file off want buffer = inr bytes →
  bytes = buffer ++ sub_bytes file off (off + want) ∧ zlen (sub_bytes file off (off + want)) = want.
Proof.
  revert off want buffer. induction events as [|ev events IH]; intros off want buffer Hoff Hw H;
    cbn [read_file_exact_at_sync] in H; destruct (Z.eqb_spec want 0) as [->|Hne].
  1, 3: injection H as <-; rewrite Z.add_0_r, sub_bytes_nil, app_nil_r by lia; done.
  - cbv zeta in H. destruct (Z.ltb_spec (zlen (sub_bytes file off (off + want))) want) as [|Hge]; [done|].
    injection H as <-. split; [done|]. unfold sub_bytes in *. zlia.
  - destruct ev as [k| |e]; [|done..]. cbv zeta in H. unfold read_at in H.
    destruct (sendfile_spec file off want k Hoff ltac:(lia)) as (n & Hn & Hav & E & Hz & Hn0).
    rewrite Hz in H. destruct (Z.eqb_spec n 0); [done|].
    apply IH in H as [-> Hz2]; [|lia..]. rewrite E in Hz |- *.
    replace (off + n + (want - n)) with (off + want) in * by lia. rewrite <-(assoc_L (++)).
    assert (sub_bytes file off (off + n) ++ sub_bytes file (off + n) (off + want)
      = sub_bytes file off (off + want)) as Ej by (apply sub_bytes_join; lia).
    rewrite Ej. split; [done|]. rewrite <-Ej, zlen_app. lia.
Qed.

Lemma sub_bytes_prefix {A} (a b : list A) : sub_bytes (a ++ b) 0 (zlen a) = a.
Proof. pose proof (sub_bytes_app_mid [] a b) as E. by rewrite zlen_nil, Z.add_0_l in E. Qed.
Lemma sub_bytes_suffix {A} (a b : list A) : sub_bytes (a ++ b) (zlen a) (zlen (a ++ b)) = b.
Proof. pose proof (sub_bytes_app_mid a b []) as E. by rewrite app_nil_r, <-zlen_app in E. Qed.

Section sealed.
Context `{AL : !AeadLib} `{AW : !AeadLaws AL}.

Lemma salsa_payload_roundtrip key nonce p c : zlen nonce = E2EE_NONCE_LEN → encrypt_e2ee_payload key nonce p = Ok c →
  zlen c = E2EE_NONCE_LEN + E2EE_AUTH_TAG_LEN + zlen p ∧ decrypt_e2ee_payload key c = Ok p ∧ zlen key = E2EE_KEY_LEN.
Proof.
  intros Hn H. unfold encrypt_e2ee_payload, normalize_key_material in H.
  destruct (Z.eqb_spec (zlen key) E2EE_KEY_LEN) as [Hk|]; [|done]. cbn [negb mbind outcome_bind] in H.
  destruct (salsa_encrypt key nonce p) as [[ct tag]|] eqn:Es; [|done]. cbn [ok_or mbind outcome_bind] in H.
  injection H as <-. destruct (salsa_encrypt_len _ _ _ _ _ Es) as [Hc Ht]. zlen_facts. split; [zlia|].
  split; [|done]. unfold decrypt_e2ee_payload.
  rewrite (proj2 (Z.ltb_ge _ _)) by zlia. unfold normalize_key_material. rewrite Hk, Z.eqb_refl. cbn [negb mbind outcome_bind].
  rewrite <-Hn, sub_bytes_prefix, sub_bytes_suffix. unfold get_bytes.
  rewrite <-Ht, (proj2 (Z.leb_le 0 _)), (proj2 (Z.leb_le _ (zlen (tag ++ ct)))) by zlia. cbn [andb ok_or mbind outcome_bind].
  by rewrite sub_bytes_prefix, sub_bytes_suffix, (salsa_roundtrip _ _ _ _ _ Es).
Qed.

(** Twelve octets, where the generator gives any. *)
Definition random_nonce (random : option (list Z)) : Prop := ∀ n, random = Some n → zlen n = E2EE_AES256_GCM_NONCE_LEN.

Lemma gcm_payload_roundtrip key random p c : random_nonce random → encrypt_e2ee_aes256_gcm_payload key random p = Ok c →
  zlen c = E2EE_AES256_GCM_NONCE_LEN + zlen p + E2EE_AUTH_TAG_LEN ∧ decrypt_e2ee_aes256_gcm_payload key c = Ok p ∧ gcm_key_ok key = true.
Proof.
  intros Hr H. unfold encrypt_e2ee_aes256_gcm_payload, aes256_gcm_key in H.
  destruct (gcm_key_ok key) eqn:Hk; [|done]. destruct random as [nonce|]; [|done].
  pose proof (Hr nonce eq_refl) as Hn. cbn [ok_or mbind outcome_bind] in H.
  destruct (gcm_seal key nonce p) as [[ct tag]|] eqn:Es; [|done]. cbn [ok_or mbind outcome_bind] in H.
  injection H as <-. destruct (gcm_seal_len _ _ _ _ _ Es) as [Hc Ht]. zlen_facts. split; [zlia|].
  split; [|done]. unfold decrypt_e2ee_aes256_gcm_payload, aes256_gcm_key. rewrite (proj2 (Z.ltb_ge _ _)) by zlia.
  rewrite Hk. cbn [mbind outcome_bind]. rewrite <-Hn, sub_bytes_prefix, sub_bytes_suffix.
  destruct (gcm_roundtrip _ _ _ _ _ Es) as [rest ->]. done.
Qed.

(** ** Files *)
Lemma byte_string_header_len n : zlen (cbor_byte_string_header n) ≤ 9.
Proof. unfold cbor_byte_string_header. repeat case_match; rewrite ?zlen_cons, ?zlen_be_bytes, ?zlen_nil; lia. Qed.

(** What is encrypted: the wrapper of the file's octets. *)
Lemma read_native_payload_ok events file metadata off len pt : 0 ≤ off → 0 ≤ len →
  read_native_e2ee_file_payload events file metadata off len = Ok pt →
  pt = CBOR_PPT_PREFIX ++ cbor_byte_string_header len ++ sub_bytes file off (off + len) ++ CBOR_PPT_SUFFIX ∧
  zlen (sub_bytes file off (off + len)) = len.
Proof.
  intros Hoff Hlen H. unfold read_native_e2ee_file_payload, read_file_payload in H. inv_ok.
  destruct (read_file_exact_at_sync events file off len []) as [|bytes] eqn:E; [done|]. inv_ok.
  by apply read_file_exact_at_sync_ok in E as [-> Hz].
Qed.

(** Sealed in its buffer, it is the payload sealed from a copy. *)
Lemma gcm_file_same key random events file metadata off len c : random_nonce random →
  encrypt_e2ee_aes256_gcm_file_payload key random events file metadata off len = Ok c →
  ∃ pt, read_native_e2ee_file_payload events file metadata off len = Ok pt ∧
    encrypt_e2ee_aes256_gcm_payload key random pt = Ok c.
Proof.
  intros Hr H. unfold encrypt_e2ee_aes256_gcm_file_payload in H.
  apply bind_Ok_inv in H as ([] & Hrange & H). apply bind_Ok_inv in H as (n & _ & H). apply bind_Ok_inv in H as (n' & _ & H).
  apply bind_Ok_inv in H as (cipher & Hk & H). apply bind_Ok_inv in H as (nonce & Hn%ok_or_Ok_inv & H). cbv zeta in H.
  apply bind_Ok_inv in H as (stop & _ & H). apply bind_Ok_inv in H as (bytes & Hb & H).
  apply bind_Ok_inv in H as ([ct tag] & Hseal & H). injection H as <-.
  exists (CBOR_PPT_PREFIX ++ cbor_byte_string_header len ++ bytes ++ CBOR_PPT_SUFFIX).
  unfold read_native_e2ee_file_payload, encrypt_e2ee_aes256_gcm_payload. rewrite Hrange, Hb, Hk, Hn.
  split; [done|]. cbn [ok_or mbind outcome_bind].
  rewrite <-!(assoc_L (++)), <-(Hr nonce Hn) in *. rewrite sub_bytes_suffix in Hseal.
  rewrite Hseal. cbn [mbind outcome_bind]. by rewrite sub_bytes_prefix.
Qed.

Definition nonce_len (cipher_code : Z) : Z := if cipher_code =? 1 then E2EE_NONCE_LEN else E2EE_AES256_GCM_NONCE_LEN.

(** What the closure encrypts, and what it decrypts to. *)
Lemma prepared_file_ok `{B64 : !Base64Lib} key nonce random events file metadata off len cipher_code wire w :
  zlen nonce = E2EE_NONCE_LEN → random_nonce random → 0 ≤ off → 0 ≤ len →
  prepare_native_e2ee_file key nonce random events file metadata off len cipher_code wire = Ok w →
  let content := sub_bytes file off (off + len) in
  let plaintext := CBOR_PPT_PREFIX ++ cbor_byte_string_header len ++ content ++ CBOR_PPT_SUFFIX in
  zlen content = len ∧ (cipher_code = 1 ∧ zlen key = E2EE_KEY_LEN ∨ cipher_code = 2 ∧ gcm_key_ok key = true) ∧
  ∃ encrypted, encode_native_e2ee_file_wire_payload encrypted wire = Ok w ∧
    zlen encrypted = nonce_len cipher_code + zlen plaintext + E2EE_AUTH_TAG_LEN ∧
    decrypt_with key encrypted cipher_code = Ok plaintext.
Proof.
  intros Hn Hr Hoff Hlen H. unfold prepare_native_e2ee_file in H.
  apply bind_Ok_inv in H as (encrypted & He & Hw). unfold decrypt_with, nonce_len.
  destruct (Z.eqb_spec cipher_code 1) as [->|H1]; [|destruct (Z.eqb_spec cipher_code 2) as [->|H2]; [|done]].
  - apply bind_Ok_inv in He as (pt & Hpt & He). apply read_native_payload_ok in Hpt as [-> Hz]; [|done..].
    destruct (salsa_payload_roundtrip key nonce _ encrypted Hn He) as (Hl & Hd & Hk).
    split; [done|]. split; [by left|]. exists encrypted. split; [done|]. split; [lia|done].
  - destruct (gcm_file_same _ _ _ _ _ _ _ _ Hr He) as (pt & Hpt & He'). apply read_native_payload_ok in Hpt as [-> Hz]; [|done..].
    destruct (gcm_payload_roundtrip key random _ encrypted Hr He') as (Hl & Hd & Hk).
    split; [done|]. split; [by right|]. exists encrypted. split; [done|]. split; [lia|done].
Qed.
End sealed.

(** ** The two ways to a message's plaintext *)

(** The parts of the payload that are views lie where they say. *)
Definition stored_views (m : StoredMessage) : Prop :=
  match sm_raw m with
  | Contiguous raw =>
      zlen raw < 2 ^ 63 ∧ (∀ a, sm_args m = Some a → bytes_ok a ∧
        ∀ at_, sm_args_at m = Some at_ → 0 ≤ at_ ∧ at_ + zlen a ≤ zlen raw ∧ sub_bytes raw at_ (at_ + zlen a) = a) ∧
      (∀ t at_, sm_transparent m = Some t → sm_transparent_at m = Some at_ →
        0 ≤ at_ ∧ at_ + zlen t ≤ zlen raw ∧ sub_bytes raw at_ (at_ + zlen t) = t)
  | Segmented _ _ => True
  end.

Lemma borrowed_at m ciphertext at_ raw : stored_views m → sm_raw m = Contiguous raw →
  borrowed_e2ee_message_ciphertext m = Ok ciphertext → ciphertext_at m ciphertext = Some at_ →
  0 ≤ at_ ∧ at_ + zlen ciphertext ≤ zlen raw ∧ sub_bytes raw at_ (at_ + zlen ciphertext) = ciphertext.
Proof.
  intros Hv Hraw Hb Hat. unfold stored_views in Hv. rewrite Hraw in Hv. destruct Hv as (Hz & Ha & Ht).
  unfold borrowed_e2ee_message_ciphertext in Hb. unfold ciphertext_at in Hat.
  destruct (bool_decide (is_Some (sm_kwargs m))); [done|].
  destruct (sm_transparent m) as [t|] eqn:Et.
  { destruct (_ || _); [done|]. injection Hb as <-. by apply Ht. }
  destruct (sm_args m) as [a|] eqn:Ea; [|done]. cbn [ok_or mbind outcome_bind] in Hb.
  apply bind_Some in Hat as (a' & [= <-] & Hat). apply bind_Some in Hat as (args_at & Hargs & [= <-]).
  destruct (Ha a eq_refl) as [Hok Hhome]. destruct (Hhome args_at Hargs) as (H1 & H2 & H3).
  destruct (single_binary_argument (sm_serializer m) a) as [body|e| |] eqn:Es; try done. injection Hb as <-.
  apply single_binary_suffix in Es as (pre & -> & Hpre); [|done]. zlen_facts. autorewrite with zlen in *.
  split; [lia|]. split; [lia|].
  replace (args_at + (zlen pre + zlen body - zlen body)) with (args_at + zlen pre) by lia.
  rewrite <-(sub_bytes_join raw args_at (args_at + zlen pre)) in H3 by lia.
  apply app_inj_1 in H3 as [_ H3].
  { by replace (args_at + zlen pre + zlen body) with (args_at + (zlen pre + zlen body)) by lia. }
  pose proof (zlen_sub_bytes raw args_at (args_at + zlen pre)). unfold zlen in *. lia.
Qed.

(** What a caller sees of a decrypted payload. *)
Definition decrypted_octets (d : DecryptedE2eeMessagePayload) : list Z * Z :=
  (sub_bytes (dp_bytes d) (dp_start d) (dp_stop d), dp_kind d).

(** The payload in its wrapper, by its place. *)
Lemma cbor_ppt_offset p payload : cbor_ppt_single_binary_argument p = Some payload →
  let offset := zlen p - zlen CBOR_PPT_SUFFIX - zlen payload in
  0 ≤ offset ∧ offset + zlen payload ≤ zlen p ∧ sub_bytes p offset (offset + zlen payload) = payload.
Proof.
  intros H. unfold cbor_ppt_single_binary_argument in H. destruct (negb _); [done|]. cbv zeta in H.
  apply bind_Some in H as ([len start] & _ & H). apply bind_Some in H as (header & (Hs & Hb & _)%get_bytes_Some & H).
  destruct (negb _); [done|]. apply bind_Some in H as (stop & Hstop & H).
  apply bind_Some in H as (suffix & (Hs2 & _ & Hsuf)%get_bytes_Some & H).
  destruct (bool_decide (suffix = CBOR_PPT_SUFFIX)) eqn:E; [|done]. apply bool_decide_eq_true in E.
  cbn [negb] in H. apply get_bytes_Some in H as (Hs3 & _ & ->).
  assert (zlen CBOR_PPT_PREFIX = 7) as E7 by done. rewrite E7 in *.
  assert (zlen (sub_bytes p stop (zlen p)) = zlen CBOR_PPT_SUFFIX) as Hl by congruence.
  rewrite zlen_sub_bytes in Hl by lia. cbv zeta. rewrite zlen_sub_bytes by lia.
  replace (zlen p - zlen CBOR_PPT_SUFFIX - (stop - start)) with start by lia.
  replace (start + (stop - start)) with stop by lia. split_and!; [lia|lia|done].
Qed.

(** The same plaintext is shown the same wherever it lies. *)
Lemma with_format_shift pre p post format : zlen (pre ++ p ++ post) < 2 ^ 63 →
  decrypted_octets <$> decrypted_e2ee_message_payload_with_format (pre ++ p ++ post) (zlen pre) (zlen pre + zlen p) format
  = decrypted_octets <$> decrypted_e2ee_message_payload_with_format p 0 (zlen p) format.
Proof.
  intros Hz. zlen_facts. rewrite !zlen_app in Hz. unfold decrypted_e2ee_message_payload_with_format.
  assert (∀ a b, 0 ≤ a → a ≤ b → b ≤ zlen p → sub_bytes (pre ++ p ++ post) (zlen pre + a) (zlen pre + b) = sub_bytes p a b) as Hsub.
  { intros a b Ha Hab Hb.
    assert (∃ x y z, p = x ++ y ++ z ∧ zlen x = a ∧ zlen y = b - a ∧ sub_bytes p a b = y) as (x & y & z & -> & <- & Hy & ->).
    { exists (sub_bytes p 0 a), (sub_bytes p a b), (sub_bytes p b (zlen p)).
      rewrite !sub_bytes_join, sub_bytes_full, !zlen_sub_bytes by lia. split_and!; done || lia. }
    replace (pre ++ (x ++ y ++ z) ++ post) with ((pre ++ x) ++ y ++ z ++ post) by (by rewrite <-!(assoc_L (++))).
    replace (zlen pre + b) with (zlen (pre ++ x) + zlen y) by zlia. rewrite <-zlen_app.
    apply sub_bytes_app_mid. }
  assert (get_bytes (pre ++ p ++ post) (zlen pre) (zlen pre + zlen p) = Some p) as ->
    by (apply get_bytes_Some; split_and!; [lia|zlia|by rewrite sub_bytes_app_mid]).
  assert (get_bytes p 0 (zlen p) = Some p) as -> by (apply get_bytes_Some; split_and!; [lia|lia|by rewrite sub_bytes_full]).
  cbn [ok_or mbind outcome_bind].
  assert (∀ k, decrypted_octets (mkDecrypted (pre ++ p ++ post) (zlen pre) (zlen pre + zlen p) k)
    = decrypted_octets (mkDecrypted p 0 (zlen p) k)) as Hall.
  { intros k. unfold decrypted_octets. cbn [dp_bytes dp_start dp_stop dp_kind]. by rewrite sub_bytes_app_mid, sub_bytes_full. }
  case_bool_decide as Hformat.
  { destruct (_ <? _); [done|]. cbn [fmap outcome_fmap]. by rewrite Hall. }
  destruct (cbor_ppt_single_binary_argument p) as [payload|] eqn:E; [|cbn [fmap outcome_fmap]; by rewrite Hall].
  apply cbor_ppt_offset in E as (Ho1 & Ho2 & _). cbv zeta in Ho1, Ho2. cbv zeta.
  set (offset := zlen p - zlen CBOR_PPT_SUFFIX - zlen payload) in *. zlen_facts.
  unfold usize_checked_add. rewrite !(proj2 (Z.ltb_lt (zlen pre + _) _)) by lia. rewrite !(proj2 (Z.ltb_lt (0 + _) _)) by lia.
  cbn [ok_or mbind outcome_bind]. rewrite !(proj2 (Z.ltb_lt (_ + zlen payload) _)) by lia. cbn [ok_or mbind outcome_bind fmap outcome_fmap].
  unfold decrypted_octets. cbn [dp_bytes dp_start dp_stop dp_kind]. do 2 f_equal. rewrite Z.add_0_l, <-Z.add_assoc.
  by rewrite Hsub by lia.
Qed.

Lemma zlen_sub_at {A} (l : list A) a k : 0 ≤ a → 0 ≤ k → a + k ≤ zlen l → zlen (sub_bytes l a (a + k)) = k.
Proof. intros. rewrite zlen_sub_bytes; lia. Qed.

Lemma usize_checked_add_ok a b : a + b < 2 ^ 64 → usize_checked_add a b = Some (a + b).
Proof. intros H. unfold usize_checked_add. by rewrite (proj2 (Z.ltb_lt _ _)). Qed.

Section agree.
Context `{AL : !AeadLib} `{AW : !AeadLaws AL}.

(** In the buffer or in a copy: the same plaintext, the same error. *)
Lemma in_place_agrees raw start stop key format : 0 ≤ start → start ≤ stop → stop ≤ zlen raw → zlen raw < 2 ^ 63 →
  decrypted_octets <$> ('(bytes, (start, stop)) ← decrypt_e2ee_aes256_gcm_payload_in_place key raw start stop;
                        decrypted_e2ee_message_payload_with_format bytes start stop format)
  = decrypted_octets <$> (plaintext ← decrypt_e2ee_aes256_gcm_payload key (sub_bytes raw start stop);
                          decrypted_e2ee_message_payload_with_format plaintext 0 (zlen plaintext) format).
Proof.
  intros H1 H2 H3 Hz. unfold decrypt_e2ee_aes256_gcm_payload_in_place, decrypt_e2ee_aes256_gcm_payload.
  assert (E2EE_AES256_GCM_NONCE_LEN = 12) as E12 by done.
  rewrite (usize_checked_add_ok start) by lia.
  cbn [ok_or mbind outcome_bind]. rewrite (proj2 (Z.ltb_ge (zlen raw) stop)), orb_false_r by lia.
  assert (zlen (sub_bytes raw start stop) = stop - start) as Hl by (rewrite zlen_sub_bytes; lia). rewrite Hl.
  destruct (Z.ltb_spec stop (start + E2EE_AES256_GCM_NONCE_LEN)) as [Hs|Hs].
  { by rewrite (proj2 (Z.ltb_lt _ _)) by lia. }
  rewrite (proj2 (Z.ltb_ge (stop - start) _)) by lia.
  assert (0 < E2EE_AES256_GCM_NONCE_LEN) as Hpos by done. set (n := E2EE_AES256_GCM_NONCE_LEN) in *. clearbody n.
  assert (∀ i j, 0 ≤ i ≤ j → j ≤ stop - start → sub_bytes (sub_bytes raw start stop) i j = sub_bytes raw (start + i) (start + j)) as Hsub.
  { intros i j Hi Hj. replace stop with (start + (stop - start)) by lia. by rewrite sub_bytes_sub by lia. }
  rewrite !Hsub, Z.add_0_r by lia. replace (start + (stop - start)) with stop by lia.
  destruct (aes256_gcm_key key) as [cipher| | |]; try done. cbn [mbind outcome_bind].
  destruct (gcm_open cipher (sub_bytes raw start (start + n)) (sub_bytes raw (start + n) stop)) as [[p rest]|] eqn:Eo; [|done].
  cbn [ok_or mbind outcome_bind]. apply gcm_open_len in Eo. rewrite zlen_sub_bytes in Eo by lia. zlen_facts.
  rewrite usize_checked_add_ok by lia. cbn [ok_or mbind outcome_bind].
  assert (zlen (sub_bytes raw 0 (start + n)) = start + n) as E by (rewrite zlen_sub_bytes; lia).
  rewrite <-E at 2 3. apply with_format_shift. rewrite !zlen_app, E, zlen_sub_bytes by lia. lia.
Qed.
End agree.

(** Decrypting in the receive buffer gives what decrypting a copy gives:
    for every stored message, cipher code, key and plaintext format, whether
    the buffer has other owners or not and whether the ciphertext is a view of
    it or not, the payload octets, their kind and every error are the same. *)
Lemma owned_agrees `{AL : !AeadLib} `{AW : !AeadLaws AL} base64_decode m unique key cipher_code format :
  stored_views m →
  decrypted_octets <$> decrypt_e2ee_message_payload_owned_with_format base64_decode m unique key cipher_code format
  = decrypted_octets <$> decrypt_e2ee_message_payload_copied_with_format base64_decode m key cipher_code format.
Proof.
  intros Hv. unfold decrypt_e2ee_message_payload_owned_with_format.
  destruct (Z.eqb_spec cipher_code 2) as [->|]; [|done]. cbn [negb orb].
  destruct (bool_decide (sm_serializer m = Json)) eqn:Ej; [done|].
  assert (∀ r, borrowed_e2ee_message_ciphertext m = r →
    decrypt_e2ee_message_payload_copied_with_format base64_decode m key 2 format
    = ciphertext ← r;
      if bool_decide (format = TypedFlatbuffers) && (MAX_TYPED_PAYLOAD <? zlen ciphertext) then Err ERR_INVALID_ARGUMENT
      else plaintext ← decrypt_e2ee_aes256_gcm_payload key ciphertext;
           decrypted_e2ee_message_payload_with_format plaintext 0 (zlen plaintext) format) as Hcopied.
  { intros r <-. unfold decrypt_e2ee_message_payload_copied_with_format, borrowed_e2ee_message_ciphertext. rewrite Ej.
    by destruct (bool_decide (is_Some (sm_kwargs m))). }
  destruct (borrowed_e2ee_message_ciphertext m) as [ciphertext|e| |] eqn:Eb; try (by rewrite (Hcopied _ eq_refl)).
  rewrite (Hcopied _ eq_refl). cbn [mbind outcome_bind].
  destruct (_ && _); [done|]. destruct (sm_raw m) as [raw|] eqn:Eraw; [|done].
  destruct (ciphertext_at m ciphertext) as [at_|] eqn:Eat; [|done].
  destruct (borrowed_at m ciphertext at_ raw Hv Eraw Eb Eat) as (H1 & H2 & H3).
  unfold stored_views in Hv. rewrite Eraw in Hv. destruct Hv as [Hz _]. zlen_facts. unfold slice_range. cbn [mbind option_bind].
  rewrite usize_checked_add_ok by lia. cbn [mbind option_bind]. rewrite (proj2 (Z.leb_le _ _)) by lia. destruct unique.
  - pose proof (in_place_agrees raw at_ (at_ + zlen ciphertext) key format H1 ltac:(lia) H2 Hz) as Hin. by rewrite H3 in Hin.
  - assert (get_bytes raw at_ (at_ + zlen ciphertext) = Some ciphertext) as -> by (apply get_bytes_Some; split_and!; [lia|lia|done]).
    done.
Qed.

(** ** Property *)

(** C25: an encrypted file is as long as was announced, and opens to the file:
    whatever the reads of the file gave, if the closure prepares a payload, it
    has the length that the frame announced before, in either cipher and wire
    encoding; decrypting it gives a wrapper whose one binary argument is the
    range of the file, octet for octet. *)
Theorem native_e2ee_file_exact `{AL : !AeadLib} `{AW : !AeadLaws AL} `{B64 : !Base64Lib}
    key nonce random events file metadata off len cipher_code wire w :
  zlen nonce = E2EE_NONCE_LEN → random_nonce random → 0 ≤ off → 0 ≤ len < 2 ^ 63 →
  prepare_native_e2ee_file key nonce random events file metadata off len cipher_code wire = Ok w →
  announced_native_e2ee_file_len key len cipher_code wire = Ok (zlen w) ∧
  ∃ encrypted plaintext, w = (if wire =? 0 then encrypted else b64_encode encrypted) ∧
    decrypt_with key encrypted cipher_code = Ok plaintext ∧
    cbor_ppt_single_binary_argument plaintext = Some (sub_bytes file off (off + len)) ∧
    zlen (sub_bytes file off (off + len)) = len.
Proof.
  intros Hn Hr Hoff [Hlen Hmax] H.
  destruct (prepared_file_ok _ _ _ _ _ _ _ _ _ _ _ Hn Hr Hoff Hlen H) as (Hz & Hk & encrypted & Hw & Hl & Hd).
  pose proof (byte_string_header_len len) as H9. rewrite !zlen_app in Hl.
  assert (zlen CBOR_PPT_PREFIX = 7 ∧ zlen CBOR_PPT_SUFFIX = 8) as [E7 E8] by done.
  assert (E2EE_NONCE_LEN = 24 ∧ E2EE_AES256_GCM_NONCE_LEN = 12 ∧ E2EE_AUTH_TAG_LEN = 16) as (E24 & E12 & E16) by done.
  assert (native_e2ee_file_encrypted_len key len cipher_code = Ok (zlen encrypted)) as Henc.
  { unfold native_e2ee_file_encrypted_len. zlen_facts. rewrite (usize_checked_add_ok len) by lia. cbn [mbind option_bind].
    rewrite usize_checked_add_ok by lia. unfold nonce_len in Hl.
    destruct Hk as [[-> Hk]|[-> Hk]]; [change (1 =? 1) with true in *|change (2 =? 1) with false in *; change (2 =? 2) with true in *];
      unfold normalize_key_material, aes256_gcm_key; rewrite Hk, ?Z.eqb_refl; cbn [negb ok_or mbind outcome_bind]; cbv iota in *;
      rewrite usize_checked_add_ok by lia; cbn [mbind option_bind]; rewrite usize_checked_add_ok by lia; cbn [ok_or]; f_equal; lia. }
  unfold announced_native_e2ee_file_len. rewrite Henc. cbn [mbind outcome_bind].
  unfold encode_native_e2ee_file_wire_payload, native_e2ee_file_wire_len in *.
  split.
  - destruct (Z.eqb_spec wire 0) as [->|]; [by injection Hw as <-|].
    destruct (Z.eqb_spec wire 1) as [->|]; [|done]. apply bind_Ok_inv in Hw as (n' & Hn' & Hw).
    rewrite Hn'. cbv zeta in Hw. destruct (_ <? _); [done|]. destruct (Z.eqb_spec (zlen (b64_encode encrypted)) n') as [<-|]; [|done].
    by injection Hw as <-.
  - exists encrypted. eexists. split; [|split; [exact Hd|split; [|done]]].
    + destruct (wire =? 0); [by injection Hw as <-|]. apply bind_Ok_inv in Hw as (n' & Hn' & Hw). cbv zeta in Hw.
      destruct (_ <? _); [done|]. destruct (negb _); [done|]. by injection Hw as <-.
    + rewrite <-Hz at 1. apply cbor_ppt_complete. lia.
Qed.

(** A cipher to evaluate examples with: the octets reversed, and a fixed tag. *)
Definition demo_tag : list Z := replicate 16 9.

Definition DemoAead : AeadLib := {|
  salsa_encrypt _ _ p := Some (rev p, demo_tag);
  salsa_decrypt _ _ c t := if bool_decide (t = demo_tag) then Some (rev c) else None;
  gcm_key_ok key := zlen key =? 32;
  gcm_seal _ _ p := Some (rev p, demo_tag);
  gcm_open _ _ b :=
    let n := (length b - 16)%nat in
    if bool_decide (drop n b = demo_tag) then Some (rev (take n b), demo_tag) else None;
|}.

#[global] Instance demo_aead_laws : AeadLaws DemoAead.
Proof.
  assert (∀ (p : list Z), zlen (rev p) = zlen p) as Hrev by (intros p; unfold zlen; by rewrite length_rev).
  split; cbn [salsa_encrypt salsa_decrypt gcm_key_ok gcm_seal gcm_open DemoAead]; intros key.
  - intros nonce p c t [= <- <-]. by split.
  - intros nonce p c t [= <- <-]. by rewrite bool_decide_eq_true_2, rev_involutive.
  - apply Z.eqb_eq.
  - intros nonce p c t [= <- <-]. by split.
  - intros nonce b p rest H. cbv zeta in H. case_bool_decide as Hb; [|done]. injection H as <- <-.
    rewrite Hrev. apply (f_equal zlen) in Hb. unfold zlen in *. rewrite length_take, length_drop in *.
    change (length demo_tag) with 16%nat in *. lia.
  - intros nonce p c t [= <- <-]. exists demo_tag. cbv zeta.
    assert (length (rev p ++ demo_tag) - 16 = length (rev p))%nat as -> by (rewrite length_app; change (length demo_tag) with 16%nat; lia).
    by rewrite drop_app_length, take_app_length, bool_decide_eq_true_2, rev_involutive.
Qed.

Definition demo_key : list Z := replicate 32 1.
Definition demo_gcm_nonce : list Z := replicate 12 2.

(** A YIELD in MessagePack whose argument is [[5; 6]] in its wrapper, sealed. *)
Definition demo_e2ee_ciphertext : list Z :=
  demo_gcm_nonce ++ rev (CBOR_PPT_PREFIX ++ [0x42; 5; 6] ++ CBOR_PPT_SUFFIX) ++ demo_tag.
Definition demo_e2ee_args : list Z := [0x91; 0xc4; 46] ++ demo_e2ee_ciphertext.
Definition demo_e2ee_message : StoredMessage :=
  mkStoredMessage MessagePack 70 (Contiguous ([0x94; 70; 1; 0x80] ++ demo_e2ee_args)) (Some demo_e2ee_args) None None (Some 4) None.

Lemma owned_agrees_example :
  decrypted_octets <$> decrypt_e2ee_message_payload_owned_with_format (AL := DemoAead) (λ _, None) demo_e2ee_message true demo_key 2 CborPpt
  = decrypted_octets <$> decrypt_e2ee_message_payload_copied_with_format (AL := DemoAead) (λ _, None) demo_e2ee_message demo_key 2 CborPpt
  ∧ decrypted_octets <$> decrypt_e2ee_message_payload_owned_with_format (AL := DemoAead) (λ _, None) demo_e2ee_message true demo_key 2 CborPpt
  = Ok ([5; 6], CT_E2EE_DECRYPTED_PAYLOAD_DIRECT_BINARY).
Proof.
  split; [|vm_compute; reflexivity].
  apply (owned_agrees (AL := DemoAead) (λ _, None) demo_e2ee_message true demo_key 2 CborPpt).
  cbn [stored_views sm_raw demo_e2ee_message]. split; [vm_compute; reflexivity|]. split.
  - intros a [= <-]. split; [by apply (bool_decide_unpack (Forall _ _))|]. intros at_ [= <-]. by vm_compute.
  - intros t at_ [=].
Defined.

Lemma native_e2ee_file_exact_witness :
  ∃ w, prepare_native_e2ee_file (AL := DemoAead) (B64 := DemoBase64) demo_key (replicate 24 3) (Some demo_gcm_nonce)
         [FeRead 1] [7; 8; 9] (Some 3) 1 2 2 1 = Ok w
    ∧ announced_native_e2ee_file_len (AL := DemoAead) demo_key 2 2 1 = Ok (zlen w).
Proof.
  destruct (prepare_native_e2ee_file (AL := DemoAead) (B64 := DemoBase64) demo_key (replicate 24 3) (Some demo_gcm_nonce)
         [FeRead 1] [7; 8; 9] (Some 3) 1 2 2 1) as [w| | |] eqn:E; [|vm_compute in E; discriminate E..].
  exists w. split; [reflexivity|].
  apply (native_e2ee_file_exact (AL := DemoAead) (B64 := DemoBase64) demo_key (replicate 24 3) (Some demo_gcm_nonce)
         [FeRead 1] [7; 8; 9] (Some 3) 1 2 2 1 w); [reflexivity|by intros n [= <-]|lia|lia|exact E].
Defined.
