(* ===== verification/E2eeSessions.v ===== *)
(** * Encryption keys and sessions

    Of [ct_ffi/src/runtime/state.rs] and [ffi.rs]: key rings and sessions behind
    handles, and the exported functions that encrypt and decrypt with them.  A
    session shares its key ring: it stays alive when the ring's handle is
    released, and sees the keys that are added later. *)
From stdpp Require Import gmap.
From S2P Require Import Prelude Bytes Text WampTypes RawFrame Handles OwnedBuffers FileSegments FfiErrors BinaryArguments Forwarding E2ee.

(** What a session asks of its key ring. *)
Class KeyringOps (K : Type) : Type := {
  kr_new : K;
  kr_add : str → list Z → bool → K → K;
  kr_contains : str → K → bool;
  kr_resolve : option str → K → option (list Z * str);
}.

(** ** The key ring of the code *)
Record StoredE2eeKeyring : Type := mkKeyring {
  keys : gmap str (list Z);
  default_key_id : option str;
  default_key_explicit : bool;
}.

Definition add_key (key_id : str) (key : list Z) (make_default : bool) (s : StoredE2eeKeyring) : StoredE2eeKeyring :=
  let was_empty := bool_decide (keys s = ∅) in
  let had_implicit_default := bool_decide (is_Some (default_key_id s)) && negb (default_key_explicit s) in
  let k := <[key_id := key]> (keys s) in
  if make_default then mkKeyring k (Some key_id) true
  else if was_empty then mkKeyring k (Some key_id) false
  else if had_implicit_default then mkKeyring k None false
  else mkKeyring k (default_key_id s) (default_key_explicit s).

Definition contains_key (key_id : str) (s : StoredE2eeKeyring) : bool := bool_decide (is_Some (keys s !! key_id)).

Definition resolve_key (key_id : option str) (s : StoredE2eeKeyring) : option (list Z * str) :=
  resolved_key_id ← match key_id with Some value => Some value | None => default_key_id s end;
  key ← keys s !! resolved_key_id;
  Some (key, resolved_key_id).

#[global] Instance stored_keyring : KeyringOps StoredE2eeKeyring := {|
  kr_new := mkKeyring ∅ None false;
  kr_add := add_key;
  kr_contains := contains_key;
  kr_resolve := resolve_key;
|}.

(** ** What it promises

    A ring is the log of the keys added to it.  A key is the last one under its
    id.  The default is the last key that was made it; without one, the only
    key of a ring that was given one key once. *)
Record KeyEntry : Type := mkEntry { e_id : str; e_key : list Z; e_default : bool }.

Definition log_key (log : list KeyEntry) (key_id : str) : option (list Z) :=
  e_key <$> last (filter (λ e, e_id e = key_id) log).
Definition log_default (log : list KeyEntry) : option str :=
  match last (filter (λ e, e_default e = true) log) with
  | Some e => Some (e_id e)
  | None => match log with [e] => Some (e_id e) | _ => None end
  end.

Definition log_resolve (key_id : option str) (log : list KeyEntry) : option (list Z * str) :=
  id ← match key_id with Some id => Some id | None => log_default log end;
  key ← log_key log id; Some (key, id).

Definition keyring_log : KeyringOps (list KeyEntry) := {|
  kr_new := [];
  kr_add id key make_default log := log ++ [mkEntry id key make_default];
  kr_contains id log := bool_decide (is_Some (log_key log id));
  kr_resolve := log_resolve;
|}.

(** ** Arguments from C *)
Definition read_optional_str (p : option (list Z)) : outcome ErrorCode (option str) :=
  match p with
  | None | Some [] => Ok None
  | Some bytes => s ← ok_or ERR_INVALID_ARGUMENT (utf8_decode bytes); Ok (Some s)
  end.

Definition read_required_bytes (p : option (list Z)) : outcome ErrorCode (list Z) := ok_or ERR_INVALID_ARGUMENT p.

(** ** The tables

    Rings live where they were allocated as long as anything refers to them;
    handles and sessions hold their addresses. *)
Record E2eeState (K : Type) : Type := mkE2ee {
  rings : list K;
  keyrings : Table nat;
  sessions : Table (nat * option str);
}.
Arguments mkE2ee {K}. Arguments rings {K}. Arguments keyrings {K}. Arguments sessions {K}.

Inductive e2ee_answer : Type := E2eeDone | E2eeHandle (handle : Z) | E2eeOctets (bytes : list Z).

Section sessions.
Context {K : Type} `{KO : !KeyringOps K} `{AL : !AeadLib}.

Definition e2ee_start : E2eeState K := mkE2ee [] resource_table resource_table.

Definition resource_handle_result (r : outcome ResourceHandleError Z) : outcome ErrorCode e2ee_answer :=
  match r with
  | Ok handle => Ok (E2eeHandle handle)
  | _ => Err ERR_HANDLE_UNAVAILABLE
  end.

Definition ct_e2ee_keyring_new (s : E2eeState K) : outcome ErrorCode e2ee_answer * E2eeState K :=
  let '(r, t) := insert_resource (keyrings s) (length (rings s)) in
  (resource_handle_result r, mkE2ee (rings s ++ [kr_new]) t (sessions s)).

Definition get_e2ee_keyring (s : E2eeState K) (handle : Z) : option nat := table_get (keyrings s) handle.

Definition ct_e2ee_keyring_add_key (handle : Z) (key_id key : option (list Z)) (make_default : Z) (s : E2eeState K) :
    outcome ErrorCode e2ee_answer * E2eeState K :=
  if handle <=? 0 then (Err ERR_INVALID_ARGUMENT, s)
  else
    match read_optional_str key_id with
    | Ok (Some (c :: id)) =>
        match read_required_bytes key with
        | Ok key =>
            if negb (zlen key =? E2EE_KEY_LEN) then (Err ERR_INVALID_ARGUMENT, s)
            else
              match get_e2ee_keyring s handle with
              | Some address =>
                  (Ok E2eeDone, mkE2ee (alter (kr_add (c :: id) key (negb (make_default =? 0))) address (rings s))
                                  (keyrings s) (sessions s))
              | None => (Err ERR_HANDLE_UNAVAILABLE, s)
              end
        | _ => (Err ERR_INVALID_ARGUMENT, s)
        end
    | _ => (Err ERR_INVALID_ARGUMENT, s)
    end.

Definition ct_e2ee_keyring_release (handle : Z) (s : E2eeState K) : outcome ErrorCode e2ee_answer * E2eeState K :=
  if handle <=? 0 then (Err ERR_INVALID_ARGUMENT, s)
  else
    let '(r, t) := table_remove (keyrings s) handle in
    (match r with Some _ => Ok E2eeDone | None => Err ERR_HANDLE_UNAVAILABLE end, mkE2ee (rings s) t (sessions s)).

Definition ct_e2ee_session_new (keyring_handle : Z) (default_key : option (list Z)) (s : E2eeState K) :
    outcome ErrorCode e2ee_answer * E2eeState K :=
  if keyring_handle <=? 0 then (Err ERR_INVALID_ARGUMENT, s)
  else
    match read_optional_str default_key with
    | Ok default_key =>
        match get_e2ee_keyring s keyring_handle with
        | None => (Err ERR_HANDLE_UNAVAILABLE, s)
        | Some address =>
            if match default_key, rings s !! address with
               | Some key_id, Some ring => negb (kr_contains key_id ring)
               | _, _ => false
               end
            then (Err ERR_KEY_NOT_FOUND, s)
            else
              let '(r, t) := insert_resource (sessions s) (address, default_key) in
              (resource_handle_result r, mkE2ee (rings s) (keyrings s) t)
        end
    | _ => (Err ERR_INVALID_ARGUMENT, s)
    end.

Definition ct_e2ee_session_release (handle : Z) (s : E2eeState K) : outcome ErrorCode e2ee_answer * E2eeState K :=
  if handle <=? 0 then (Err ERR_INVALID_ARGUMENT, s)
  else
    let '(r, t) := table_remove (sessions s) handle in
    (match r with Some _ => Ok E2eeDone | None => Err ERR_HANDLE_UNAVAILABLE end, mkE2ee (rings s) (keyrings s) t).

(** [StoredE2eeSession::resolve_key] under [with_e2ee_session] *)
Definition session_key (s : E2eeState K) (session_handle : Z) (key_id : option str) : outcome ErrorCode (list Z) :=
  match table_get (sessions s) session_handle with
  | None => Err ERR_HANDLE_UNAVAILABLE
  | Some (address, default_key) =>
      let requested := match key_id with Some id => Some id | None => default_key end in
      fst <$> ok_or ERR_KEY_NOT_FOUND (ring ← rings s !! address; kr_resolve requested ring)
  end.

(** The shared frame of the four functions on octets. *)
Definition with_session_key (session_handle : Z) (key_id input : option (list Z))
    (f : list Z → list Z → outcome ErrorCode (list Z)) (s : E2eeState K) : outcome ErrorCode e2ee_answer :=
  if session_handle <=? 0 then Err ERR_INVALID_ARGUMENT
  else
    key_id ← read_optional_str key_id;
    input ← read_required_bytes input;
    key ← session_key s session_handle key_id;
    E2eeOctets <$> f key input.

Definition ct_e2ee_session_encrypt (h : Z) (key_id plaintext : option (list Z)) (nonce : list Z) (s : E2eeState K) :=
  with_session_key h key_id plaintext (λ key, encrypt_e2ee_payload key nonce) s.
Definition ct_e2ee_session_decrypt (h : Z) (key_id ciphertext : option (list Z)) (s : E2eeState K) :=
  with_session_key h key_id ciphertext decrypt_e2ee_payload s.
Definition ct_e2ee_session_encrypt_aes256gcm (h : Z) (key_id plaintext random : option (list Z)) (s : E2eeState K) :=
  with_session_key h key_id plaintext (λ key, encrypt_e2ee_aes256_gcm_payload key random) s.
Definition ct_e2ee_session_decrypt_aes256gcm (h : Z) (key_id ciphertext : option (list Z)) (s : E2eeState K) :=
  with_session_key h key_id ciphertext decrypt_e2ee_aes256_gcm_payload s.

(** *** Messages

    Decrypting a message by its handle.  [message_unique] is what
    [Arc::try_unwrap] finds, that nobody else holds the message, [buffer_unique]
    what [try_into_mut] finds then of its receive buffer: a slice of the buffer
    that was handed out, say in another message's payload, keeps it shared. *)
Section stored_messages.
Context (base64_decode : list Z → option (list Z)).

Definition plaintext_format (plaintext_format : Z) : option E2eePlaintextFormat :=
  if plaintext_format =? 0 then Some CborPpt
  else if plaintext_format =? 1 then Some TypedFlatbuffers
  else None.

Definition ct_e2ee_session_decrypt_message_payload_consume_format_wide (session_handle : Z) (key_id : option (list Z))
    (message_handle cipher_code format : Z) (message_unique buffer_unique : bool) (s : E2eeState K) (messages : Messages StoredMessage) :
    outcome ErrorCode DecryptedE2eeMessagePayload * Messages StoredMessage :=
  if message_handle <=? 0 then (Err ERR_INVALID_ARGUMENT, messages)
  else
    match plaintext_format format with
    | None => (Err ERR_INVALID_ARGUMENT, messages)
    | Some format =>
        let '(message, messages) := remove_message messages message_handle in
        match message with
        | None => (Err ERR_HANDLE_UNAVAILABLE, messages)
        | Some message =>
            (if session_handle <=? 0 then Err ERR_INVALID_ARGUMENT
             else
               key_id ← read_optional_str key_id;
               key ← session_key s session_handle key_id;
               if message_unique then
                 decrypt_e2ee_message_payload_owned_with_format base64_decode message buffer_unique key cipher_code format
               else decrypt_e2ee_message_payload_copied_with_format base64_decode message key cipher_code format, messages)
        end
    end.

(** The payload of the plaintext, lent to the caller. *)
Definition ct_e2ee_session_decrypt_message_single_binary_argument_wide (session_handle : Z) (key_id : option (list Z))
    (message_handle cipher_code : Z) (s : E2eeState K) (messages : Messages StoredMessage) : outcome ErrorCode (list Z) :=
  if (session_handle <=? 0) || (message_handle <=? 0) then Err ERR_INVALID_ARGUMENT
  else
    key_id ← read_optional_str key_id;
    message ← ok_or ERR_HANDLE_UNAVAILABLE (retain_allocation messages message_handle);
    ciphertext ← borrowed_e2ee_message_ciphertext message;
    key ← session_key s session_handle key_id;
    plaintext ← decrypt_with key ciphertext cipher_code;
    ok_or ERR_UNSUPPORTED (cbor_ppt_single_binary_argument plaintext).
End stored_messages.

(** ** One call *)
Inductive e2ee_op : Type :=
  | OpKeyringNew
  | OpAddKey (handle : Z) (key_id key : option (list Z)) (make_default : Z)
  | OpKeyringRelease (handle : Z)
  | OpSessionNew (handle : Z) (default_key : option (list Z))
  | OpSessionRelease (handle : Z)
  | OpEncrypt (handle : Z) (key_id plaintext : option (list Z)) (nonce : list Z)
  | OpDecrypt (handle : Z) (key_id ciphertext : option (list Z))
  | OpEncryptGcm (handle : Z) (key_id plaintext random : option (list Z))
  | OpDecryptGcm (handle : Z) (key_id ciphertext : option (list Z)).

Definition run_e2ee (op : e2ee_op) (s : E2eeState K) : outcome ErrorCode e2ee_answer * E2eeState K :=
  match op with
  | OpKeyringNew => ct_e2ee_keyring_new s
  | OpAddKey h id key d => ct_e2ee_keyring_add_key h id key d s
  | OpKeyringRelease h => ct_e2ee_keyring_release h s
  | OpSessionNew h d => ct_e2ee_session_new h d s
  | OpSessionRelease h => ct_e2ee_session_release h s
  | OpEncrypt h id p nonce => (ct_e2ee_session_encrypt h id p nonce s, s)
  | OpDecrypt h id c => (ct_e2ee_session_decrypt h id c s, s)
  | OpEncryptGcm h id p random => (ct_e2ee_session_encrypt_aes256gcm h id p random s, s)
  | OpDecryptGcm h id c => (ct_e2ee_session_decrypt_aes256gcm h id c s, s)
  end.

Fixpoint run_e2ee_ops (ops : list e2ee_op) (s : E2eeState K) : list (outcome ErrorCode e2ee_answer) * E2eeState K :=
  match ops with
  | [] => ([], s)
  | op :: ops =>
      let '(a, s) := run_e2ee op s in
      let '(answers, s) := run_e2ee_ops ops s in (a :: answers, s)
  end.
End sessions.

(** ** The ring of the code is the log *)
Definition ring_of (log : list KeyEntry) : StoredE2eeKeyring :=
  foldl (λ ring e, add_key (e_id e) (e_key e) (e_default e) ring) kr_new log.

Lemma ring_of_snoc log e : ring_of (log ++ [e]) = add_key (e_id e) (e_key e) (e_default e) (ring_of log).
Proof. unfold ring_of. by rewrite foldl_snoc. Qed.

Lemma filter_snoc {A} (P : A → Prop) `{!∀ x, Decision (P x)} (l : list A) x :
  filter P (l ++ [x]) = filter P l ++ (if decide (P x) then [x] else []).
Proof. by rewrite filter_app. Qed.

Lemma add_key_keys id key d ring : keys (add_key id key d ring) = <[id := key]> (keys ring).
Proof. unfold add_key. by repeat case_match. Qed.

Lemma ring_of_keys log id : keys (ring_of log) !! id = log_key log id.
Proof.
  unfold log_key. induction log as [|e log IH] using rev_ind; [done|].
  rewrite ring_of_snoc, add_key_keys, filter_snoc. case_decide as Hid.
  - by rewrite last_snoc, <-Hid, lookup_insert_eq.
  - by rewrite lookup_insert_ne, app_nil_r.
Qed.

Lemma ring_of_empty log : keys (ring_of log) = ∅ ↔ log = [].
Proof.
  destruct log as [|e log _] using rev_ind; [done|].
  rewrite ring_of_snoc, add_key_keys. split; [|by destruct log].
  intros H. by apply insert_non_empty in H.
Qed.

Lemma ring_of_default log :
  default_key_id (ring_of log) = log_default log ∧
  default_key_explicit (ring_of log) = bool_decide (is_Some (last (filter (λ e, e_default e = true) log))).
Proof.
  unfold log_default. induction log as [|e log [IH1 IH2]] using rev_ind; [done|].
  rewrite ring_of_snoc, filter_snoc. unfold add_key. case_decide as Hd.
  { rewrite Hd, last_snoc. done. }
  apply not_true_is_false in Hd. rewrite Hd, app_nil_r. destruct (decide (keys (ring_of log) = ∅)) as [Hk|Hk].
  { rewrite (bool_decide_eq_true_2 _ Hk). apply ring_of_empty in Hk as ->. done. }
  rewrite (bool_decide_eq_false_2 _ Hk), IH1, IH2, ring_of_empty in *. destruct (last (filter _ log)) as [e'|]; cbn [default_key_id default_key_explicit].
  - done.
  - destruct log as [|x [|y log]]; [by destruct Hk|done|].
    cbn [default_key_id default_key_explicit bool_decide is_Some]. done.
Qed.

Lemma ring_of_resolve log id : resolve_key id (ring_of log) = log_resolve id log.
Proof.
  unfold resolve_key, log_resolve. rewrite (proj1 (ring_of_default log)).
  destruct id as [id|]; cbn [mbind option_bind]; [by rewrite ring_of_keys|].
  destruct (log_default log); [|done]. cbn [mbind option_bind]. by rewrite ring_of_keys.
Qed.

(** The state of the code, from that of its specification. *)
Definition with_rings (t : E2eeState (list KeyEntry)) : E2eeState StoredE2eeKeyring :=
  mkE2ee (ring_of <$> rings t) (keyrings t) (sessions t).

#[local] Existing Instance keyring_log | 100.

Section refinement.
Context `{AL : !AeadLib}.

Lemma contains_ring_of id log : kr_contains id (ring_of log) = kr_contains id log.
Proof. cbn. unfold contains_key. by rewrite ring_of_keys. Qed.

Lemma session_key_with_rings t h key_id : session_key (with_rings t) h key_id = session_key t h key_id.
Proof.
  unfold session_key. cbn [sessions rings with_rings]. destruct (table_get (sessions t) h) as [[a d]|]; [|done].
  rewrite list_lookup_fmap. destruct (rings t !! a) as [log|]; [|done]. cbn [fmap option_fmap option_map mbind option_bind].
  change (kr_resolve ?id (ring_of log)) with (resolve_key id (ring_of log)). by rewrite ring_of_resolve.
Qed.

Lemma with_session_key_with_rings t h key_id input f :
  with_session_key h key_id input f (with_rings t) = with_session_key h key_id input f t.
Proof.
  unfold with_session_key. destruct (h <=? 0); [done|]. destruct (read_optional_str key_id); [|done..].
  cbn [mbind outcome_bind]. destruct (read_required_bytes input); [|done..]. cbn [mbind outcome_bind].
  by rewrite session_key_with_rings.
Qed.

Lemma run_with_rings op t :
  run_e2ee op (with_rings t) = let '(a, t') := run_e2ee op t in (a, with_rings t').
Proof.
  destruct op as [|h id key d|h|h d|h|h id p nonce|h id c|h id p random|h id c]; cbn [run_e2ee].
  - unfold ct_e2ee_keyring_new. cbn [keyrings with_rings rings sessions]. rewrite length_fmap.
    destruct (insert_resource (keyrings t) (length (rings t))) as [r tb]. unfold with_rings. cbn [rings keyrings sessions]. by rewrite fmap_app.
  - unfold ct_e2ee_keyring_add_key. destruct (h <=? 0); [done|].
    destruct (read_optional_str id) as [[[|c id']|]| | |]; [done| |done..].
    destruct (read_required_bytes key) as [key'| | |]; [|done..]. destruct (negb _); [done|].
    unfold get_e2ee_keyring. cbn [keyrings with_rings rings sessions]. destruct (table_get (keyrings t) h) as [a|]; [|done].
    unfold with_rings. cbn [keyrings rings sessions]. do 2 f_equal. symmetry. apply list_fmap_alter, Forall_forall.
    intros log _. cbn. by rewrite ring_of_snoc.
  - unfold ct_e2ee_keyring_release. destruct (h <=? 0); [done|]. cbn [keyrings with_rings]. by destruct (table_remove _ _).
  - unfold ct_e2ee_session_new. destruct (h <=? 0); [done|]. destruct (read_optional_str d) as [d'| | |]; [|done..].
    unfold get_e2ee_keyring. cbn [keyrings with_rings rings sessions]. destruct (table_get (keyrings t) h) as [a|]; [|done].
    rewrite list_lookup_fmap.
    assert (match d', ring_of <$> rings t !! a with Some key_id, Some ring => negb (kr_contains key_id ring) | _, _ => false end
      = match d', rings t !! a with Some key_id, Some ring => negb (kr_contains key_id ring) | _, _ => false end) as ->.
    { destruct d'; [|done]. destruct (rings t !! a); [|done]. cbn [fmap option_fmap option_map]. by rewrite contains_ring_of. }
    destruct (match d' with Some _ => _ | None => _ end); [done|]. by destruct (insert_resource _ _).
  - unfold ct_e2ee_session_release. destruct (h <=? 0); [done|]. cbn [sessions with_rings]. by destruct (table_remove _ _).
  - unfold ct_e2ee_session_encrypt. by rewrite with_session_key_with_rings.
  - unfold ct_e2ee_session_decrypt. by rewrite with_session_key_with_rings.
  - unfold ct_e2ee_session_encrypt_aes256gcm. by rewrite with_session_key_with_rings.
  - unfold ct_e2ee_session_decrypt_aes256gcm. by rewrite with_session_key_with_rings.
Qed.

Lemma run_ops_with_rings ops t :
  run_e2ee_ops ops (with_rings t) = let '(answers, t') := run_e2ee_ops ops t in (answers, with_rings t').
Proof.
  revert t. induction ops as [|op ops IH]; intros t; [done|]. cbn [run_e2ee_ops]. rewrite run_with_rings.
  destruct (run_e2ee op t) as [a t']. rewrite IH. by destruct (run_e2ee_ops ops t').
Qed.
End refinement.

(** ** A key stays what it was *)

(** The key that a call names, or its session does. *)
Definition requested_key {K} (s : E2eeState K) (h : Z) (key_id : option (list Z)) : option str :=
  match read_optional_str key_id with
  | Ok (Some id) => Some id
  | _ => d ← table_get (sessions s) h; snd d
  end.

(** A call that leaves the session, and the key it uses under that name. *)
Definition spares (h : Z) (requested : option str) (op : e2ee_op) : Prop :=
  match op with
  | OpSessionRelease h' => h' ≠ h
  | OpAddKey _ id _ _ => match requested with Some k => read_optional_str id ≠ Ok (Some k) | None => False end
  | _ => True
  end.

(** What the session [h] is for as long as it lives: its ring, and in it the
    key that is asked for. *)
Definition session_has (s : E2eeState StoredE2eeKeyring) (h : Z) (session : nat * option str)
    (requested : option str) (key : list Z * str) : Prop :=
  table_get (sessions s) h = Some session ∧
  ∃ ring, rings s !! session.1 = Some ring ∧ resolve_key requested ring = Some key.

Lemma table_get_insert {T} (t : Table T) (x y : T) h r t' : table_get t h = Some y →
  insert_resource t x = (r, t') → table_get t' h = Some y.
Proof.
  unfold table_get, insert_resource. intros Hy H. destruct (advance_resource (next_id t)); [|by injection H as _ <-].
  destruct (entries t !! next_id t) eqn:E; injection H as _ <-; [done|]. cbn [entries].
  rewrite lookup_insert_ne; [done|]. congruence.
Qed.

Lemma run_keeps_session `{AL : !AeadLib} op s h session requested key :
  spares h requested op → session_has s h session requested key →
  session_has (snd (run_e2ee op s)) h session requested key.
Proof.
  intros Hs (Hh & ring & Hr & Hk).
  assert (session_has s h session requested key) as Hsame by (split; [done|by exists ring]).
  destruct op as [|h' id k d|h'|h' d|h'|h' id p nonce|h' id c|h' id p random|h' id c]; try exact Hsame; cbn [run_e2ee].
  - unfold ct_e2ee_keyring_new. destruct (insert_resource _ _). split; [done|]. exists ring. split; [|done].
    cbn [rings snd]. by apply lookup_app_l_Some.
  - unfold ct_e2ee_keyring_add_key. destruct (h' <=? 0); [done|].
    destruct (read_optional_str id) as [[[|c id']|]| | |] eqn:Eid; [done| |done..].
    destruct (read_required_bytes k) as [k'| | |]; [|done..]. destruct (negb _); [done|].
    destruct (get_e2ee_keyring s h') as [a|]; [|done]. split; [done|]. cbn [rings snd].
    destruct (decide (a = session.1)) as [->|]; [|exists ring; split; [by rewrite list_lookup_alter_ne|done]].
    eexists. split; [by rewrite list_lookup_alter_eq, Hr|]. cbn [spares] in Hs.
    destruct requested as [want|]; [|done]. rewrite <-Hk. cbn. unfold resolve_key. cbn [mbind option_bind].
    rewrite add_key_keys, lookup_insert_ne; [done|]. intros <-. by apply Hs.
  - unfold ct_e2ee_keyring_release. destruct (h' <=? 0); [done|]. by destruct (table_remove _ _).
  - unfold ct_e2ee_session_new. destruct (h' <=? 0); [done|]. destruct (read_optional_str d) as [d'| | |]; [|done..].
    destruct (get_e2ee_keyring s h') as [a|]; [|done]. destruct (match d' with Some _ => _ | None => _ end); [done|].
    destruct (insert_resource _ _) as [r t'] eqn:E. split; [by eapply table_get_insert|by exists ring].
  - unfold ct_e2ee_session_release. destruct (h' <=? 0); [done|]. unfold table_remove. split; [|by exists ring].
    cbn [spares] in Hs. unfold table_get. cbn [snd sessions entries]. by rewrite lookup_delete_ne.
Qed.

Lemma run_ops_keep_session `{AL : !AeadLib} ops s h session requested key :
  Forall (spares h requested) ops → session_has s h session requested key →
  session_has (snd (run_e2ee_ops ops s)) h session requested key.
Proof.
  intros Hops. revert s. induction Hops as [|op ops Hop _ IH]; intros s H; [done|].
  cbn [run_e2ee_ops]. apply (run_keeps_session op) in H; [|done]. destruct (run_e2ee op s) as [a s'].
  cbn [snd] in H. apply IH in H. by destruct (run_e2ee_ops ops s').
Qed.

Lemma session_key_has s h key_id key :
  session_key s h key_id = Ok key ↔ ∃ session id,
    session_has s h session (match key_id with Some id => Some id | None => session.2 end) (key, id).
Proof.
  unfold session_key, session_has. split.
  - destruct (table_get (sessions s) h) as [[a d]|]; [|done]. intros H.
    destruct (rings s !! a) as [ring|] eqn:Er; [|done]. cbn [mbind option_bind] in H.
    destruct (kr_resolve _ ring) as [[key' id]|] eqn:Ek; [|done]. injection H as <-. exists (a, d), id.
    split; [done|]. by exists ring.
  - intros ([a d] & id & -> & ring & Hr & Hk). cbn [fst snd] in *. rewrite Hr. cbn [mbind option_bind].
    change (kr_resolve ?x ring) with (resolve_key x ring). by rewrite Hk.
Qed.

(** What one call sealed the other opens, with spared calls in between. *)
Lemma sealed_opens `{AL : !AeadLib} h key_id p c seal open ops s :
  (∀ key, seal key p = Ok c → open key c = Ok p) → Forall (spares h (requested_key s h key_id)) ops →
  with_session_key h key_id (Some p) seal s = Ok (E2eeOctets c) →
  with_session_key h key_id (Some c) open (snd (run_e2ee_ops ops s)) = Ok (E2eeOctets p).
Proof.
  intros Hopen Hops. unfold with_session_key, requested_key in *. destruct (h <=? 0); [done|].
  destruct (read_optional_str key_id) as [id| | |]; [|done..]. cbn [mbind outcome_bind read_required_bytes ok_or].
  intros H. apply bind_Ok_inv in H as (key & Hkey & H).
  apply session_key_has in Hkey as (session & id' & Hhas). pose proof (proj1 Hhas) as Hs.
  assert (match id with Some id => Some id | None => session.2 end
    = match id with Some id => Some id | None => d ← table_get (sessions s) h; snd d end) as Hreq
    by (destruct id; [done|by rewrite Hs]).
  apply (run_ops_keep_session ops) in Hhas; [|rewrite Hreq; by destruct id].
  assert (session_key (snd (run_e2ee_ops ops s)) h id = Ok key) as ->
    by (apply session_key_has; by exists session, id').
  cbn [mbind outcome_bind]. destruct (seal key p) as [c'| | |] eqn:E; [|done..]. injection H as <-. by rewrite (Hopen key E).
Qed.

(** ** Messages *)
Lemma remove_message_others {M} (messages : Messages M) mh : 0 < mh →
  fst (remove_message messages mh) = retain_allocation messages mh ∧
  retain_allocation (snd (remove_message messages mh)) mh = None ∧
  ∀ other, 0 < other → other ≠ mh →
    retain_allocation (snd (remove_message messages mh)) other = retain_allocation messages other.
Proof.
  intros Hmh. unfold remove_message, retain_allocation, table_remove, table_get.
  assert (I32_MAX < 2 ^ 32) as Hmax by done.
  destruct (Z.leb_spec mh I32_MAX) as [Hn|Hn]; cbn [fst snd legacy wide entries];
    (split; [done|]; split; [by rewrite lookup_delete_eq|]); intros other Hother Hne.
  - destruct (Z.leb_spec other I32_MAX); [|done]. apply lookup_delete_ne. rewrite !Z.mod_small; lia.
  - destruct (Z.leb_spec other I32_MAX); [done|]. by apply lookup_delete_ne.
Qed.

(** A payload handed out as the one binary argument is it. *)
Lemma direct_binary_argument p payload : decrypted_octets <$> decrypted_e2ee_message_payload_with_format p 0 (zlen p) CborPpt
    = Ok (payload, CT_E2EE_DECRYPTED_PAYLOAD_DIRECT_BINARY) →
  cbor_ppt_single_binary_argument p = Some payload.
Proof.
  unfold decrypted_e2ee_message_payload_with_format. zlen_facts.
  assert (get_bytes p 0 (zlen p) = Some p) as -> by (apply get_bytes_Some; split_and!; [lia|lia|by rewrite sub_bytes_full]).
  cbn [ok_or mbind outcome_bind]. destruct (cbor_ppt_single_binary_argument p) as [body|] eqn:E; [|by intros [=]].
  rewrite bool_decide_eq_false_2 by done. apply cbor_ppt_offset in E as (H1 & H2 & H3). cbv zeta in *.
  unfold usize_checked_add. destruct (_ <? _); [|done]. cbn [ok_or mbind outcome_bind]. destruct (_ <? _); [|done].
  cbn [ok_or mbind outcome_bind fmap outcome_fmap]. unfold decrypted_octets. cbn [dp_bytes dp_start dp_stop dp_kind].
  intros [= <-]. by rewrite !Z.add_0_l, H3.
Qed.

(** ** Properties *)

(** C9: key rings are logs of the keys added to them: for every sequence of
    the exported calls, from no rings and no sessions, the map with its two
    default fields, shared by its handle and its sessions, gives every answer
    that the plain log gives, where a key is the last added under its id and
    the default is the last key made default, or else the only key of a ring
    that was given one key once. *)
Theorem e2ee_sessions_refine `{AL : !AeadLib} ops :
  fst (run_e2ee_ops (KO := stored_keyring) ops e2ee_start) = fst (run_e2ee_ops (KO := keyring_log) ops e2ee_start).
Proof.
  change (e2ee_start (K := StoredE2eeKeyring)) with (with_rings e2ee_start).
  rewrite run_ops_with_rings. by destruct (run_e2ee_ops ops e2ee_start).
Qed.

(** C24: what a session sealed it opens: after an encryption that succeeded, by
    a named key or by a default, any calls may follow that leave the session
    open and add no key under that name (or none at all, where the name was the
    ring's default): keys added under other names, other rings and sessions made
    and released, the session's own ring released.  The decryption under the
    same arguments gives the plaintext, for either cipher. *)
Theorem e2ee_session_roundtrip `{AL : !AeadLib} `{AW : !AeadLaws AL} s h key_id p c nonce random ops :
  zlen nonce = E2EE_NONCE_LEN → random_nonce random → Forall (spares h (requested_key s h key_id)) ops →
  let s' := snd (run_e2ee_ops ops s) in
  (ct_e2ee_session_encrypt h key_id (Some p) nonce s = Ok (E2eeOctets c) →
    ct_e2ee_session_decrypt h key_id (Some c) s' = Ok (E2eeOctets p)) ∧
  (ct_e2ee_session_encrypt_aes256gcm h key_id (Some p) random s = Ok (E2eeOctets c) →
    ct_e2ee_session_decrypt_aes256gcm h key_id (Some c) s' = Ok (E2eeOctets p)).
Proof.
  intros Hn Hr Hops s'. split; intros H; eapply sealed_opens; try eassumption; intros key Hk.
  - by eapply salsa_payload_roundtrip.
  - by eapply gcm_payload_roundtrip.
Qed.

(** C5: the consuming decryption takes its message exactly once: with a known
    plaintext format the message's handle is void after the call, on every
    path, errors of the session, the key and the cipher included, and otherwise
    the messages are as they were; no other handle is touched.  The answer does
    not depend on who else holds the message, nor on who else holds its buffer: in
    place, out of a shared buffer and on a copy it is the same; and a payload it
    answers as the one binary argument of a message that is not JSON is what
    the borrowing call answers for the same arguments. *)
Theorem e2ee_consume_exact `{AL : !AeadLib} `{AW : !AeadLaws AL} base64_decode h key_id mh cipher_code format s messages :
  (∀ m, retain_allocation messages mh = Some m → stored_views m) →
  let consume mu bu :=
    ct_e2ee_session_decrypt_message_payload_consume_format_wide base64_decode h key_id mh cipher_code format mu bu s messages in
  let answer mu bu := decrypted_octets <$> fst (consume mu bu) in
  ∀ message_unique buffer_unique,
  (0 < mh → is_Some (plaintext_format format) → retain_allocation (snd (consume message_unique buffer_unique)) mh = None) ∧
  (plaintext_format format = None → snd (consume message_unique buffer_unique) = messages) ∧
  (∀ other, 0 < other → other ≠ mh →
    retain_allocation (snd (consume message_unique buffer_unique)) other = retain_allocation messages other) ∧
  answer message_unique buffer_unique = answer false false ∧
  (∀ m payload, format = 0 → retain_allocation messages mh = Some m → sm_serializer m ≠ Json →
    answer message_unique buffer_unique = Ok (payload, CT_E2EE_DECRYPTED_PAYLOAD_DIRECT_BINARY) →
    ct_e2ee_session_decrypt_message_single_binary_argument_wide h key_id mh cipher_code s messages = Ok payload).
Proof.
  intros Hviews consume answer mu bu. unfold answer, consume, ct_e2ee_session_decrypt_message_payload_consume_format_wide,
    ct_e2ee_session_decrypt_message_single_binary_argument_wide. clear answer consume.
  destruct (Z.leb_spec mh 0) as [|Hmh]; [by split_and!; intros; first [lia|done|simplify_eq/=]|].
  destruct (remove_message_others messages mh Hmh) as (Hfst & Hnone & Hothers).
  destruct (plaintext_format format) as [f|] eqn:Ef; [|by split_and!; intros; first [done|by destruct (is_Some_None ltac:(eassumption))|simplify_eq/=]].
  destruct (remove_message messages mh) as [m' messages']. cbn [fst snd] in *. subst m'.
  destruct (retain_allocation messages mh) as [m|]; [|by split_and!; intros; first [done|by apply Hothers|simplify_eq/=]].
  cbn [fst snd]. split; [done|]. split; [done|]. split; [done|].
  destruct (h <=? 0); [by split; [|intros; simplify_eq/=]|]. cbn [orb].
  destruct (read_optional_str key_id) as [id| | |]; [|by split; [|intros; simplify_eq/=]..]. cbn [mbind outcome_bind].
  destruct (session_key s h id) as [key| | |]; [|by split; [|intros; simplify_eq/=]..]. cbn [mbind outcome_bind ok_or].
  assert (∀ mu bu, decrypted_octets <$> (if (mu : bool) then
      decrypt_e2ee_message_payload_owned_with_format base64_decode m bu key cipher_code f
    else decrypt_e2ee_message_payload_copied_with_format base64_decode m key cipher_code f)
    = decrypted_octets <$> decrypt_e2ee_message_payload_copied_with_format base64_decode m key cipher_code f) as Hcopied
    by (intros [] ?; [by apply owned_agrees, Hviews|done]).
  rewrite Hcopied. split; [done|]. intros m0 payload -> [= <-] Hjson. injection Ef as <-.
  unfold decrypt_e2ee_message_payload_copied_with_format. rewrite (bool_decide_eq_false_2 _ Hjson).
  destruct (bool_decide (is_Some (sm_kwargs m))); [done|].
  destruct (borrowed_e2ee_message_ciphertext m) as [ct| | |]; [|done..]. cbn [mbind outcome_bind].
  rewrite (bool_decide_eq_false_2 (CborPpt = _)) by done. cbn [andb].
  destruct (decrypt_with key ct cipher_code) as [pt| | |]; [|done..]. cbn [mbind outcome_bind].
  intros ->%direct_binary_argument. done.
Qed.

(** A key added again under the only id is no default any more. *)
Example implicit_default_rotation :
  default_key_id (ring_of [mkEntry [107] demo_key false]) = Some [107] ∧
  default_key_id (ring_of [mkEntry [107] demo_key false; mkEntry [107] (replicate 32 2) false]) = None.
Proof. done. Qed.

Definition demo_sessions : E2eeState StoredE2eeKeyring :=
  snd (run_e2ee_ops (AL := DemoAead) [OpKeyringNew; OpAddKey 1 (Some [107]) (Some demo_key) 0; OpSessionNew 1 (Some [107])] e2ee_start).

Definition demo_calls : list e2ee_op :=
  [OpAddKey 1 (Some [108]) (Some (replicate 32 2)) 1; OpKeyringRelease 1; OpKeyringNew; OpSessionNew 2 None].

Definition demo_salsa_sealed : list Z := replicate 24 3 ++ demo_tag ++ [6; 5].

Lemma e2ee_session_roundtrip_witness :
  ct_e2ee_session_encrypt (AL := DemoAead) 1 None (Some [5; 6]) (replicate 24 3) demo_sessions = Ok (E2eeOctets demo_salsa_sealed) ∧
  ct_e2ee_session_decrypt (AL := DemoAead) 1 None (Some demo_salsa_sealed)
    (snd (run_e2ee_ops (AL := DemoAead) demo_calls demo_sessions)) = Ok (E2eeOctets [5; 6]).
Proof.
  split; [vm_compute; reflexivity|].
  apply (e2ee_session_roundtrip (AL := DemoAead) demo_sessions 1 None [5; 6] demo_salsa_sealed
           (replicate 24 3) (Some demo_gcm_nonce) demo_calls).
  - reflexivity.
  - by intros n [= <-].
  - assert (requested_key demo_sessions 1 None = Some [107]) as -> by (vm_compute; reflexivity).
    do 4 (apply Forall_cons_2; [by cbn|]). apply Forall_nil_2.
  - vm_compute. reflexivity.
Defined.

Definition demo_messages : Messages StoredMessage := snd (insert_message fresh_messages demo_e2ee_message).

Lemma e2ee_consume_exact_witness :
  ct_e2ee_session_decrypt_message_single_binary_argument_wide (AL := DemoAead) 1 None FIRST_WIDE_HANDLE 2
    demo_sessions demo_messages = Ok [5; 6].
Proof.
  assert (∀ m, retain_allocation demo_messages FIRST_WIDE_HANDLE = Some m → stored_views m) as Hviews.
  { intros m H. assert (retain_allocation demo_messages FIRST_WIDE_HANDLE = Some demo_e2ee_message) as E by (vm_compute; reflexivity).
    rewrite E in H. injection H as <-. cbn [stored_views sm_raw demo_e2ee_message]. split; [vm_compute; reflexivity|]. split.
    + intros a [= <-]. split; [by apply (bool_decide_unpack (Forall _ _))|]. intros at_ [= <-]. by vm_compute.
    + intros t at_ [=]. }
  eapply (e2ee_consume_exact (AL := DemoAead) (λ _, None) 1 None FIRST_WIDE_HANDLE 2 0 demo_sessions demo_messages Hviews true false).
  - reflexivity.
  - vm_compute. reflexivity.
  - discriminate.
  - vm_compute. reflexivity.
Defined.
