(* ===== verification/E2eeBuffers.v ===== *)
(** * Encryption between the stores

    Of [ct_ffi/src/runtime/ffi.rs]: the encryption of a frozen owned buffer into
    another one, and the calls that look at a message's one binary argument. *)
From stdpp Require Import gmap.
From S2P Require Import Prelude Bytes Text WampTypes RawFrame Handles OwnedBuffers FileSegments FfiErrors BinaryArguments Forwarding E2ee E2eeSessions.

(** ** Buffers *)
Section buffers.
Context `{AL : !AeadLib}.

(** [home]: the address and the capacity of the encrypted bytes. *)
Definition encrypt_e2ee_owned_buffer_inner (session_handle input_handle : Z) (key_id : option str) (cipher_code : Z)
    (nonce : list Z) (random : option (list Z)) (home : Z * Z) (s : E2eeState StoredE2eeKeyring) (buffers : BufferStore) :
    outcome Z Z * BufferStore :=
  if (session_handle <=? 0) || (input_handle <=? 0) || negb ((1 <=? cipher_code) && (cipher_code <=? 2))
  then (Err (error_code ERR_INVALID_ARGUMENT), buffers)
  else
    match borrow_frozen input_handle buffers with
    | Ok input =>
        let plaintext := frozen_bytes input in
        match reserve_frozen buffers with
        | (Ok reservation, buffers) =>
            match
              key ← session_key s session_handle key_id;
              if cipher_code =? 1 then encrypt_e2ee_payload key nonce plaintext
              else if cipher_code =? 2 then encrypt_e2ee_aes256_gcm_payload key random plaintext
              else Err ERR_INVALID_ARGUMENT
            with
            | Ok bytes => commit_reservation reservation (mkAllocation home.1 home.2 bytes) 0 (zlen bytes) buffers
            | Err code => (Err (error_code code), drop_reservation reservation buffers)
            | Panic => (Panic, drop_reservation reservation buffers)
            | NoFuel => (NoFuel, drop_reservation reservation buffers)
            end
        | (r, buffers) => (r, buffers)
        end
    | Err code => (Err code, buffers)
    | Panic => (Panic, buffers)
    | NoFuel => (NoFuel, buffers)
    end.

Definition ct_e2ee_session_encrypt_owned_buffer (session_handle : Z) (key_id : option (list Z)) (input_handle cipher_code : Z)
    (nonce : list Z) (random : option (list Z)) (home : Z * Z) (s : E2eeState StoredE2eeKeyring) (buffers : BufferStore) :
    outcome Z Z * BufferStore :=
  if (session_handle <=? 0) || (input_handle <=? 0) || negb ((1 <=? cipher_code) && (cipher_code <=? 2))
  then (Err (error_code ERR_INVALID_ARGUMENT), buffers)
  else
    match read_optional_str key_id with
    | Ok key_id => encrypt_e2ee_owned_buffer_inner session_handle input_handle key_id cipher_code nonce random home s buffers
    | _ => (Err (error_code ERR_INVALID_ARGUMENT), buffers)
    end.
End buffers.

(** ** The one binary argument of a message *)
Section arguments.
Context (base64_decode : list Z → option (list Z)) (messages : Messages StoredMessage).

Definition ct_message_single_binary_argument_length_wide (message_handle : Z) : outcome ErrorCode Z :=
  if message_handle <=? 0 then Err ERR_INVALID_ARGUMENT
  else
    message ← ok_or ERR_HANDLE_UNAVAILABLE (retain_allocation messages message_handle);
    if bool_decide (is_Some (sm_kwargs message)) then Err ERR_UNSUPPORTED
    else
      match sm_serializer message with
      | Json =>
          ok_or ERR_UNSUPPORTED (args ← sm_args message; canonical_json_single_binary_argument_length args)
      | _ => zlen <$> borrowed_e2ee_message_ciphertext message
      end.

Definition ct_message_decode_single_binary_argument_wide (message_handle : Z) : outcome ErrorCode (list Z) :=
  if message_handle <=? 0 then Err ERR_INVALID_ARGUMENT
  else
    message ← ok_or ERR_HANDLE_UNAVAILABLE (retain_allocation messages message_handle);
    if negb (bool_decide (sm_serializer message = Json)) || negb (sm_code message =? 68) ||
       bool_decide (is_Some (sm_kwargs message))
    then Err ERR_UNSUPPORTED
    else ok_or ERR_UNSUPPORTED (args ← sm_args message; decode_canonical_json_single_binary_argument base64_decode args).
End arguments.

(** ** A reservation *)
Lemma reserve_frozen_exact buffers r t : reserve_frozen buffers = (r, t) →
  (∃ h, r = Ok h ∧ (0 ≤ next_id buffers → 0 < h) ∧ table_get buffers h = None ∧ entries t = <[h := Reserved]> (entries buffers)) ∨
  (∃ e, r = Err e) ∧ entries t = entries buffers.
Proof.
  unfold reserve_frozen, buffer_insert, insert_resource, table_get, advance_resource.
  destruct (Z.eqb_spec (next_id buffers) 0); cbn [orb]; [|destruct (I32_MAX <? next_id buffers)].
  - cbn. intros [= <- <-]. right. by split; [eexists|].
  - cbn. intros [= <- <-]. right. by split; [eexists|].
  - destruct (entries buffers !! next_id buffers) eqn:E; cbn; intros [= <- <-]; [right; by split; [eexists|]|left].
    eexists. split_and!; [done|lia|done|done].
Qed.

(** ** Property *)

(** a frozen buffer is encrypted into another: on every outcome each handle
    that was live keeps what it was, the input's included; without success the
    store's handles are those before.  On success the answer is a handle that
    was free, of a frozen buffer whose octets the same session decrypts, under
    the same key, to the octets of the input. *)
Theorem owned_buffer_encryption_exact `{AL : !AeadLib} `{AW : !AeadLaws AL} h key_id input cipher_code nonce random home s buffers :
  0 ≤ next_id buffers → zlen nonce = E2EE_NONCE_LEN → random_nonce random →
  let '(r, buffers') := ct_e2ee_session_encrypt_owned_buffer h key_id input cipher_code nonce random home s buffers in
  (∀ other x, table_get buffers other = Some x → table_get buffers' other = Some x) ∧
  match r with
  | Ok handle =>
      table_get buffers handle = None ∧
      ∃ plain sealed,
        borrow_frozen input buffers = Ok plain ∧ borrow_frozen handle buffers' = Ok sealed ∧
        (if cipher_code =? 1 then ct_e2ee_session_decrypt h key_id (Some (frozen_bytes sealed)) s
         else ct_e2ee_session_decrypt_aes256gcm h key_id (Some (frozen_bytes sealed)) s) = Ok (E2eeOctets (frozen_bytes plain))
  | _ => entries buffers' = entries buffers
  end.
Proof.
  intros Hnext Hn Hr. unfold ct_e2ee_session_encrypt_owned_buffer, encrypt_e2ee_owned_buffer_inner.
  destruct (_ || _ || _) eqn:Eg; [done|]. apply orb_false_iff in Eg as [[Eh Ei]%orb_false_iff Ec%negb_false_iff].
  destruct (read_optional_str key_id) as [id| | |] eqn:Eid; try done.
  destruct (borrow_frozen input buffers) as [plain| | |] eqn:Ein; try done.
  destruct (reserve_frozen buffers) as [res t] eqn:Eres. apply reserve_frozen_exact in Eres as [(res' & -> & Hpos & Hfree & Ht)|[[e ->] Ht]].
  2: { split; [|done]. intros other x. unfold table_get. by rewrite Ht. }
  assert (∀ v other x, table_get buffers other = Some x → <[res' := v]> (entries t) !! other = Some x) as Hkeep.
  { intros v other x Hx. rewrite Ht, insert_insert_eq, lookup_insert_ne; [done|]. intros ->. congruence. }
  assert (delete res' (entries t) = entries buffers) as Hdrop by (rewrite Ht; by apply delete_insert_id).
  destruct (key ← session_key s h id; _) as [bytes|code| |] eqn:Es;
    [|split; [intros other x; unfold table_get; cbn; by rewrite Hdrop|exact Hdrop]..].
  unfold commit_reservation. cbn [storage]. zlen_facts. rewrite !(proj2 (Z.leb_le _ _)) by lia. cbn [andb negb].
  assert (table_get t res' = Some Reserved) as -> by (unfold table_get; by rewrite Ht, lookup_insert_eq).
  split; [intros other x; apply Hkeep|]. split; [done|].
  exists plain, (mkFrozen (mkAllocation home.1 home.2 bytes) (zlen bytes) 0 (zlen bytes)). split; [done|].
  assert (frozen_bytes (mkFrozen (mkAllocation home.1 home.2 bytes) (zlen bytes) 0 (zlen bytes)) = bytes) as ->
    by (unfold frozen_bytes; cbn; by rewrite sub_bytes_full).
  split.
  { unfold borrow_frozen. rewrite (proj2 (Z.leb_gt _ _)) by (by apply Hpos).
    unfold buffer_frozen, table_get, set_storage. cbn. by rewrite lookup_insert_eq. }
  unfold ct_e2ee_session_decrypt, ct_e2ee_session_decrypt_aes256gcm, with_session_key. rewrite Eh, Eid.
  cbn [mbind outcome_bind read_required_bytes ok_or]. apply bind_Ok_inv in Es as (key & -> & Es). cbn [mbind outcome_bind].
  destruct (cipher_code =? 1).
  - apply salsa_payload_roundtrip in Es as (_ & -> & _); [done|done].
  - destruct (cipher_code =? 2); [|done]. apply gcm_payload_roundtrip in Es as (_ & -> & _); [done|done].
Qed.

Definition demo_buffers : BufferStore :=
  mkTable 2 {[ 1 := FrozenStorage (mkFrozen (mkAllocation 4096 2 [5; 6]) 2 0 2) ]}.

Lemma owned_buffer_encryption_exact_witness :
  ∃ buffers', ct_e2ee_session_encrypt_owned_buffer (AL := DemoAead) 1 None 1 1 (replicate 24 3) None (8192, 42) demo_sessions demo_buffers
    = (Ok 2, buffers') ∧ table_get buffers' 1 = table_get demo_buffers 1.
Proof.
  pose proof (owned_buffer_encryption_exact (AL := DemoAead) 1 None 1 1 (replicate 24 3) None (8192, 42) demo_sessions demo_buffers
    ltac:(vm_compute; discriminate) ltac:(reflexivity) ltac:(by intros n [=])) as H.
  destruct (ct_e2ee_session_encrypt_owned_buffer (AL := DemoAead) 1 None 1 1 (replicate 24 3) None (8192, 42) demo_sessions demo_buffers)
    as [r buffers'] eqn:E.
  exists buffers'. split; [vm_compute in E; injection E as <- <-; reflexivity|].
  destruct H as [H _]. apply H. reflexivity.
Defined.
