(* ===== verification/Sha256.v ===== *)
(** * Digests in the background

    Of [ct_ffi/src/runtime/ffi.rs]: SHA-256 states behind handles.  A state
    hashes on the caller's thread until its first asynchronous update, which
    moves it to a thread of its own; from then on the caller puts commands in a
    queue of two.  The caller and the threads are small-step machines, which
    may interleave in any order. *)
From stdpp Require Import gmap relations.
From S2P Require Import Prelude Bytes WampTypes RawFrame Handles OwnedBuffers FfiErrors BinaryArguments E2ee E2eeSessions.

(** The digest context of the [aws_lc_rs] or [ring] crate. *)
Class DigestLib : Type := {
  DigestContext : Type;
  digest_new : DigestContext;
  digest_update : DigestContext → list Z → DigestContext;
  digest_finish : DigestContext → list Z;
}.

(** The digest of one string, however it is cut into updates. *)
Class DigestLaws (DL : DigestLib) (sha256 : list Z → list Z) : Prop := {
  digest_chunks chunks : digest_finish (foldl digest_update digest_new chunks) = sha256 (concat chunks);
}.

Definition SHA256_DIGEST_LEN : Z := 32.
Definition ASYNC_SHA256_QUEUE_CAPACITY : nat := 2.

Inductive Sha256Command : Type :=
  | UpdateOwned (bytes : list Z)
  | Finalize
  | AbortCommand.

(** What the caller is told. *)
Inductive sha_answer : Type :=
  | ShaCode (r : outcome ErrorCode Z)
  | ShaDigest (digest : list Z).

(** A subrange of a buffer that a caller gives back, by addresses. *)
Definition take_owned_external_buffer_slice (owner : option (Z * list Z)) (bytes_ptr bytes_len : Z) :
    outcome ErrorCode (list Z) :=
  match owner with
  | None => Err ERR_INVALID_ARGUMENT
  | Some (owner_start, bytes) =>
      if (bytes_len <? 0) || ((0 <? bytes_len) && (bytes_ptr =? 0)) then Err ERR_INVALID_ARGUMENT
      else
        owner_end ← ok_or ERR_INVALID_ARGUMENT (usize_checked_add owner_start (zlen bytes));
        bytes_end ← ok_or ERR_INVALID_ARGUMENT (usize_checked_add bytes_ptr bytes_len);
        if (bytes_ptr <? owner_start) || (owner_end <? bytes_end) then Err ERR_INVALID_ARGUMENT
        else
          let offset := bytes_ptr - owner_start in
          Ok (sub_bytes bytes offset (offset + bytes_len))
  end.

(** [payload]: what the pointer points to, [None] for a null pointer. *)
Definition take_owned_outbound_buffer (payload : option (list Z)) (payload_len : Z) : outcome ErrorCode (list Z) :=
  if (payload_len <? 0) || ((0 <? payload_len) && negb (bool_decide (is_Some payload))) then Err ERR_INVALID_ARGUMENT
  else if payload_len =? 0 then
    match payload with None => Ok [] | Some _ => Err ERR_INVALID_ARGUMENT end
  else match payload with
  | Some bytes => Ok (sub_bytes bytes 0 payload_len)
  | None => Err ERR_INVALID_ARGUMENT
  end.

(** ** The exported functions

    Over what they ask of the states behind the handles; each ends in an
    answer, at once or later. *)
Class ShaStates (S : Type) : Type := {
  sha_answer_now : sha_answer → S → S;
  sha_new : S → S;
  sha_present : Z → S → bool;
  (** [update], [update_async] and [update_owned_async], which may start a thread *)
  sha_update : Z → list Z → Z → S → S;
  sha_update_async : Z → list Z → bool → Z → S → S;
  sha_finalize : Z → S → S;
  sha_drop : Z → S → S;
}.

Section exports.
Context {S : Type} `{SS : !ShaStates S} (messages : Messages StoredMessage).

Definition sha_error (code : ErrorCode) : S → S := sha_answer_now (ShaCode (Err code)).

(** [as u32] of a positive handle *)
Definition with_state (sha256_handle : Z) (f : S → S) (s : S) : S :=
  if sha_present sha256_handle s then f s else sha_error ERR_HANDLE_UNAVAILABLE s.

Definition ct_sha256_new (s : S) : S := sha_new s.

Definition message_binary_argument (message_handle : Z) : outcome ErrorCode (list Z) :=
  message ← ok_or ERR_HANDLE_UNAVAILABLE (retain_allocation messages message_handle);
  if negb (sm_code message =? 68) then Err ERR_INVALID_ARGUMENT
  else
    args ← ok_or ERR_INVALID_ARGUMENT (sm_args message);
    payload ← single_binary_argument (sm_serializer message) args;
    if I32_MAX <? zlen payload then Err ERR_INVALID_ARGUMENT else Ok payload.

Definition ct_sha256_update_message_binary_argument_wide (sha256_handle message_handle : Z) (s : S) : S :=
  if (sha256_handle <=? 0) || (message_handle <=? 0) then sha_error ERR_INVALID_ARGUMENT s
  else
    with_state sha256_handle (λ s,
      match message_binary_argument message_handle with
      | Ok payload => sha_update sha256_handle payload (zlen payload) s
      | Err code => sha_error code s
      | _ => s
      end) s.

Definition ct_sha256_update (sha256_handle : Z) (bytes : option (list Z)) (s : S) : S :=
  if sha256_handle <=? 0 then sha_error ERR_INVALID_ARGUMENT s
  else
    match read_required_bytes bytes with
    | Ok bytes => with_state sha256_handle (sha_update sha256_handle bytes (zlen bytes)) s
    | _ => sha_error ERR_INVALID_ARGUMENT s
    end.

Definition ct_sha256_update_async (sha256_handle : Z) (bytes : option (list Z)) (spawn : bool) (s : S) : S :=
  if sha256_handle <=? 0 then sha_error ERR_INVALID_ARGUMENT s
  else
    match read_required_bytes bytes with
    | Ok bytes => with_state sha256_handle (sha_update_async sha256_handle bytes spawn (zlen bytes)) s
    | _ => sha_error ERR_INVALID_ARGUMENT s
    end.

Definition ct_sha256_update_owned_async (sha256_handle : Z) (bytes : option (list Z)) (bytes_len : Z) (spawn : bool) (s : S) : S :=
  match take_owned_outbound_buffer bytes bytes_len with
  | Ok bytes =>
      if sha256_handle <=? 0 then sha_error ERR_INVALID_ARGUMENT s
      else with_state sha256_handle (sha_update_async sha256_handle bytes spawn bytes_len) s
  | _ => sha_error ERR_INVALID_ARGUMENT s
  end.

Definition ct_sha256_update_external_owned_async (sha256_handle : Z) (owner : option (Z * list Z)) (bytes_ptr bytes_len : Z)
    (spawn : bool) (s : S) : S :=
  match take_owned_external_buffer_slice owner bytes_ptr bytes_len with
  | Ok bytes =>
      if sha256_handle <=? 0 then sha_error ERR_INVALID_ARGUMENT s
      else with_state sha256_handle (sha_update_async sha256_handle bytes spawn bytes_len) s
  | _ => sha_error ERR_INVALID_ARGUMENT s
  end.

(** [out]: the room for the digest, [None] for a null pointer *)
Definition ct_sha256_finalize (sha256_handle : Z) (out : option Z) (s : S) : S :=
  if (sha256_handle <=? 0) || match out with None => true | Some out_len => out_len <? SHA256_DIGEST_LEN end
  then sha_error ERR_INVALID_ARGUMENT s
  else with_state sha256_handle (sha_finalize sha256_handle) s.

Definition ct_sha256_release (sha256_handle : Z) (s : S) : S :=
  if sha256_handle <=? 0 then sha_error ERR_INVALID_ARGUMENT s
  else with_state sha256_handle (sha_drop sha256_handle) s.

Inductive sha_call : Type :=
  | ShaNew
  | ShaUpdate (handle : Z) (bytes : option (list Z))
  | ShaUpdateMessage (handle message_handle : Z)
  | ShaUpdateAsync (handle : Z) (bytes : option (list Z)) (spawn : bool)
  | ShaUpdateOwned (handle : Z) (bytes : option (list Z)) (len : Z) (spawn : bool)
  | ShaUpdateExternal (handle : Z) (owner : option (Z * list Z)) (bytes_ptr len : Z) (spawn : bool)
  | ShaFinalize (handle : Z) (out : option Z)
  | ShaRelease (handle : Z).

Definition run_sha_call (call : sha_call) : S → S :=
  match call with
  | ShaNew => ct_sha256_new
  | ShaUpdate h bytes => ct_sha256_update h bytes
  | ShaUpdateMessage h m => ct_sha256_update_message_binary_argument_wide h m
  | ShaUpdateAsync h bytes spawn => ct_sha256_update_async h bytes spawn
  | ShaUpdateOwned h bytes len spawn => ct_sha256_update_owned_async h bytes len spawn
  | ShaUpdateExternal h owner p len spawn => ct_sha256_update_external_owned_async h owner p len spawn
  | ShaFinalize h out => ct_sha256_finalize h out
  | ShaRelease h => ct_sha256_release h
  end.
End exports.

(** The store's counter wraps: [fetch_add] on a [u32], cast to a [c_int]. *)
Definition claim_handle (next : Z) : outcome ErrorCode Z * Z :=
  (if next =? 0 then Err ERR_HANDLE_UNAVAILABLE else Ok (as_i32 next), (next + 1) mod 2 ^ 32).

(** ** What they promise

    A state is the octets it was given, and whether it has a thread; it is lost
    when a thread could not be started. *)
Inductive ShaGiven : Type := Given (octets : list Z) (background : bool) | Lost.

Record ShaSpec : Type := mkShaSpec {
  spec_next : Z;
  spec_data : gmap Z ShaGiven;
  spec_answers : list sha_answer;
}.

Definition spec_answer (a : sha_answer) (s : ShaSpec) : ShaSpec :=
  mkShaSpec (spec_next s) (spec_data s) (spec_answers s ++ [a]).
Definition spec_with (data : gmap Z ShaGiven) (s : ShaSpec) : ShaSpec :=
  mkShaSpec (spec_next s) data (spec_answers s).

Definition sha_spec (sha256 : list Z → list Z) : ShaStates ShaSpec := {|
  sha_answer_now := spec_answer;
  sha_new s :=
    let '(r, next) := claim_handle (spec_next s) in
    let data := match r with Ok _ => <[spec_next s := Given [] false]> (spec_data s) | _ => spec_data s end in
    spec_answer (ShaCode r) (mkShaSpec next data (spec_answers s));
  sha_present h s := bool_decide (is_Some (spec_data s !! h));
  sha_update h bytes len s :=
    match spec_data s !! h with
    | Some (Given given background) =>
        spec_answer (ShaCode (Ok len)) (spec_with (<[h := Given (given ++ bytes) background]> (spec_data s)) s)
    | _ => spec_answer (ShaCode (Err ERR_INTERNAL)) s
    end;
  sha_update_async h bytes spawn len s :=
    match spec_data s !! h with
    | Some (Given given background) =>
        if background || spawn then
          spec_answer (ShaCode (Ok len)) (spec_with (<[h := Given (given ++ bytes) true]> (spec_data s)) s)
        else spec_answer (ShaCode (Err ERR_INTERNAL)) (spec_with (<[h := Lost]> (spec_data s)) s)
    | _ => spec_answer (ShaCode (Err ERR_INTERNAL)) s
    end;
  sha_finalize h s :=
    let a := match spec_data s !! h with
             | Some (Given given _) => ShaDigest (sha256 given)
             | _ => ShaCode (Err ERR_INTERNAL)
             end in
    spec_answer a (spec_with (delete h (spec_data s)) s);
  sha_drop h s := spec_answer (ShaCode (Ok SUCCESS)) (spec_with (delete h (spec_data s)) s);
|}.

Definition spec_start : ShaSpec := mkShaSpec 1 ∅ [].

(** ** What the code does *)
Section machine.
Context `{DL : !DigestLib}.

(** A thread waits for a command, has received one, or has seen that it is not
    cancelled. *)
Inductive WorkerThread : Type :=
  | Waiting (context : DigestContext)
  | Received (context : DigestContext) (command : Sha256Command)
  | Executing (context : DigestContext) (command : Sha256Command)
  | Exited.

(** [queue] is the channel; [sender], whether the caller still has its end;
    [result], what the thread sent back. *)
Record AsyncSha256Worker : Type := mkWorker {
  queue : list Sha256Command;
  sender : bool;
  cancelled : bool;
  thread : WorkerThread;
  result : option (list Z);
}.

Definition with_thread (t : WorkerThread) (w : AsyncSha256Worker) : AsyncSha256Worker :=
  mkWorker (queue w) (sender w) (cancelled w) t (result w).
Definition without_sender (w : AsyncSha256Worker) : AsyncSha256Worker :=
  mkWorker (queue w) false (cancelled w) (thread w) (result w).
Definition cancel_worker (w : AsyncSha256Worker) : AsyncSha256Worker :=
  mkWorker (queue w) (sender w) true (thread w) (result w).
Definition push_command (command : Sha256Command) (w : AsyncSha256Worker) : AsyncSha256Worker :=
  mkWorker (queue w ++ [command]) (sender w) (cancelled w) (thread w) (result w).

(** [AsyncSha256Worker::start] *)
Definition start_worker (context : DigestContext) : AsyncSha256Worker :=
  mkWorker [] true false (Waiting context) None.

(** One step of the thread; [None] while it waits, and after it exited. *)
Definition worker_step (w : AsyncSha256Worker) : option AsyncSha256Worker :=
  match thread w with
  | Waiting context =>
      match queue w with
      | command :: commands => Some (mkWorker commands (sender w) (cancelled w) (Received context command) (result w))
      | [] => if sender w then None else Some (with_thread Exited w)
      end
  | Received context command =>
      Some (with_thread (if cancelled w then Exited else Executing context command) w)
  | Executing context (UpdateOwned bytes) => Some (with_thread (Waiting (digest_update context bytes)) w)
  | Executing context Finalize => Some (mkWorker (queue w) (sender w) (cancelled w) Exited (Some (digest_finish context)))
  | Executing _ AbortCommand => Some (with_thread Exited w)
  | Exited => None
  end.

(** Threads are found by number. *)
Record Sha256State : Type := mkSha256State {
  context : option DigestContext;
  worker : option nat;
}.

(** Where the caller is: between calls, in [send], in [recv], in [join], or
    at the start of a thread's [drop]. *)
Inductive after_send : Type := ThenAnswer (len : Z) | ThenReceive | ThenJoin (a : sha_answer).
Inductive ShaCaller : Type :=
  | Between
  | Sending (w : nat) (command : Sha256Command) (k : after_send)
  | Receiving (w : nat)
  | Joining (w : nat) (a : sha_answer)
  | Dropping (w : nat) (a : sha_answer).

(** [Sha256StateStore], the threads and the caller *)
Record ShaMachine : Type := mkShaMachine {
  next_sha : Z;
  states : gmap Z Sha256State;
  workers : list AsyncSha256Worker;
  caller : ShaCaller;
  answers : list sha_answer;
}.

Definition set_caller (c : ShaCaller) (m : ShaMachine) : ShaMachine :=
  mkShaMachine (next_sha m) (states m) (workers m) c (answers m).
Definition set_states (s : gmap Z Sha256State) (m : ShaMachine) : ShaMachine :=
  mkShaMachine (next_sha m) s (workers m) (caller m) (answers m).
Definition set_workers (w : list AsyncSha256Worker) (m : ShaMachine) : ShaMachine :=
  mkShaMachine (next_sha m) (states m) w (caller m) (answers m).
Definition reply (a : sha_answer) (m : ShaMachine) : ShaMachine :=
  mkShaMachine (next_sha m) (states m) (workers m) Between (answers m ++ [a]).

(** [drop] of a state that left the store *)
Definition discard_state (st : Sha256State) (a : sha_answer) (m : ShaMachine) : ShaMachine :=
  match worker st with
  | Some w => set_caller (Dropping w a) m
  | None => reply a m
  end.

Definition machine_new (m : ShaMachine) : ShaMachine :=
  let '(r, next) := claim_handle (next_sha m) in
  let replaced := states m !! next_sha m in
  let s := match r with Ok _ => <[next_sha m := mkSha256State (Some digest_new) None]> (states m) | _ => states m end in
  let m' := mkShaMachine next s (workers m) (caller m) (answers m) in
  match r, replaced with
  | Ok _, Some st => discard_state st (ShaCode r) m'
  | _, _ => reply (ShaCode r) m'
  end.

Definition state_update (h : Z) (bytes : list Z) (len : Z) (m : ShaMachine) : ShaMachine :=
  match states m !! h with
  | None => reply (ShaCode (Err ERR_HANDLE_UNAVAILABLE)) m
  | Some st =>
      match worker st, context st with
      | Some w, _ => set_caller (Sending w (UpdateOwned bytes) (ThenAnswer len)) m
      | None, Some c =>
          reply (ShaCode (Ok len)) (set_states (<[h := mkSha256State (Some (digest_update c bytes)) None]> (states m)) m)
      | None, None => reply (ShaCode (Err ERR_INTERNAL)) m
      end
  end.

Definition state_update_async (h : Z) (bytes : list Z) (spawn : bool) (len : Z) (m : ShaMachine) : ShaMachine :=
  match states m !! h with
  | None => reply (ShaCode (Err ERR_HANDLE_UNAVAILABLE)) m
  | Some st =>
      match worker st, context st with
      | Some w, _ => set_caller (Sending w (UpdateOwned bytes) (ThenAnswer len)) m
      | None, Some c =>
          if spawn then
            let w := length (workers m) in
            set_caller (Sending w (UpdateOwned bytes) (ThenAnswer len))
              (set_workers (workers m ++ [start_worker c]) (set_states (<[h := mkSha256State None (Some w)]> (states m)) m))
          else reply (ShaCode (Err ERR_INTERNAL)) (set_states (<[h := mkSha256State None None]> (states m)) m)
      | None, None => reply (ShaCode (Err ERR_INTERNAL)) m
      end
  end.

Definition state_finalize (h : Z) (m : ShaMachine) : ShaMachine :=
  match states m !! h with
  | None => reply (ShaCode (Err ERR_HANDLE_UNAVAILABLE)) m
  | Some st =>
      let m := set_states (delete h (states m)) m in
      match worker st, context st with
      | Some w, _ => set_caller (Sending w Finalize ThenReceive) m
      | None, Some c => reply (ShaDigest (digest_finish c)) m
      | None, None => reply (ShaCode (Err ERR_INTERNAL)) m
      end
  end.

Definition state_drop (h : Z) (m : ShaMachine) : ShaMachine :=
  match states m !! h with
  | None => reply (ShaCode (Err ERR_HANDLE_UNAVAILABLE)) m
  | Some st => discard_state st (ShaCode (Ok SUCCESS)) (set_states (delete h (states m)) m)
  end.

#[global] Instance sha_machine : ShaStates ShaMachine := {|
  sha_answer_now := reply;
  sha_new := machine_new;
  sha_present h m := bool_decide (is_Some (states m !! h));
  sha_update := state_update;
  sha_update_async := state_update_async;
  sha_finalize := state_finalize;
  sha_drop := state_drop;
|}.

(** The send of a command is over, in success or not. *)
Definition send_done (i : nat) (ok : bool) (code : ErrorCode) (k : after_send) (m : ShaMachine) : ShaMachine :=
  match k with
  | ThenAnswer len => reply (ShaCode (if ok then Ok len else Err code)) m
  | ThenReceive => set_caller (if ok then Receiving i else Dropping i (ShaCode (Err code))) m
  | ThenJoin a => set_caller (Joining i a) (set_workers (alter without_sender i (workers m)) m)
  end.

Definition worker_exited (w : AsyncSha256Worker) : bool :=
  match thread w with Exited => true | _ => false end.

(** One step of the caller inside a call; [None] while it is blocked. *)
Definition caller_step (m : ShaMachine) : option ShaMachine :=
  match caller m with
  | Between => None
  | Sending i command k =>
      w ← workers m !! i;
      if negb (sender w) then Some (send_done i false ERR_HANDLE_UNAVAILABLE k m)
      else if worker_exited w then Some (send_done i false ERR_INTERNAL k m)
      else if bool_decide (length (queue w) < ASYNC_SHA256_QUEUE_CAPACITY)%nat then
        Some (send_done i true ERR_INTERNAL k (set_workers (alter (push_command command) i (workers m)) m))
      else None
  | Receiving i =>
      w ← workers m !! i;
      match result w with
      | Some digest => Some (set_caller (Joining i (ShaDigest digest)) (set_workers (alter without_sender i (workers m)) m))
      | None => if worker_exited w then Some (set_caller (Dropping i (ShaCode (Err ERR_INTERNAL))) m) else None
      end
  | Joining i a =>
      w ← workers m !! i;
      if worker_exited w then Some (reply a (set_workers (alter cancel_worker i (workers m)) m)) else None
  | Dropping i a =>
      Some (set_caller (Sending i AbortCommand (ThenJoin a)) (set_workers (alter cancel_worker i (workers m)) m))
  end.

(** A caller with the calls it has yet to make, among the threads. *)
Section runs.
Context (messages : Messages StoredMessage).

Inductive sha_step : list sha_call * ShaMachine → list sha_call * ShaMachine → Prop :=
  | ShaCall call calls m : caller m = Between →
      sha_step (call :: calls, m) (calls, run_sha_call messages call m)
  | ShaCaller_ calls m m' : caller_step m = Some m' → sha_step (calls, m) (calls, m')
  | ShaThread calls m i w w' : workers m !! i = Some w → worker_step w = Some w' →
      sha_step (calls, m) (calls, set_workers (<[i := w']> (workers m)) m).
End runs.

Definition sha_start : ShaMachine := mkShaMachine 1 ∅ [] Between [].
End machine.

(** ** Threads *)
Section threads.
Context `{DL : !DigestLib} (sha256 : list Z → list Z) `{DW : !DigestLaws DL sha256}.

Definition digesting (c : DigestContext) (octets : list Z) : Prop :=
  ∃ chunks, c = foldl digest_update digest_new chunks ∧ concat chunks = octets.

Lemma digesting_new : digesting digest_new [].
Proof. by exists []. Qed.
Lemma digesting_update c octets bytes : digesting c octets → digesting (digest_update c bytes) (octets ++ bytes).
Proof.
  intros (chunks & -> & <-). exists (chunks ++ [bytes]). split; [by rewrite foldl_snoc|].
  rewrite concat_app. cbn. by rewrite app_nil_r.
Qed.
Lemma digesting_finish c octets : digesting c octets → digest_finish c = sha256 octets.
Proof. intros (chunks & -> & <-). apply digest_chunks. Qed.

(** What a thread has hashed, and what it was sent beyond that. *)
Definition hashed (w : AsyncSha256Worker) : option DigestContext :=
  match thread w with Waiting c | Received c _ | Executing c _ => Some c | Exited => None end.
Definition commands (w : AsyncSha256Worker) : list Sha256Command :=
  match thread w with Received _ command | Executing _ command => [command] | _ => [] end ++ queue w.

(** The thread was given [octets] in all, and then the commands [last]. *)
Definition piped (octets : list Z) (last : list Sha256Command) (w : AsyncSha256Worker) : Prop :=
  sender w = true ∧ cancelled w = false ∧ result w = None ∧
  ∃ c done chunks, hashed w = Some c ∧ digesting c done ∧
    commands w = (UpdateOwned <$> chunks) ++ last ∧ octets = done ++ concat chunks.

Definition finished (octets : list Z) (w : AsyncSha256Worker) : Prop :=
  thread w = Exited ∧ result w = Some (sha256 octets).

Lemma piped_start c octets : digesting c octets → piped octets [] (start_worker c).
Proof. intros H. split_and!; try done. exists c, octets, []. split_and!; [done..|]. cbn. by rewrite app_nil_r. Qed.

Lemma piped_push octets bytes w : piped octets [] w → piped (octets ++ bytes) [] (push_command (UpdateOwned bytes) w).
Proof.
  intros (Hs & Hc & Hr & c & d & chunks & Hh & Hd & Hq & ->). split_and!; try done.
  exists c, d, (chunks ++ [bytes]). split_and!; [done|done| |].
  - unfold commands, push_command in *. cbn [thread queue]. rewrite (assoc_L (++)), Hq, fmap_app, !app_nil_r. done.
  - rewrite concat_app. cbn. by rewrite app_nil_r, (assoc_L (++)).
Qed.

Lemma piped_finalize octets w : piped octets [] w → piped octets [Finalize] (push_command Finalize w).
Proof.
  intros (Hs & Hc & Hr & c & d & chunks & Hh & Hd & Hq & ->). split_and!; try done.
  exists c, d, chunks. split_and!; [done..| |done].
  unfold commands, push_command in *. cbn [thread queue]. by rewrite (assoc_L (++)), Hq, app_nil_r.
Qed.

(** A thread that is not cancelled does its commands in order. *)
Lemma worker_step_piped octets last w w' : last = [] ∨ last = [Finalize] →
  piped octets last w → worker_step w = Some w' →
  piped octets last w' ∨ (last = [Finalize] ∧ finished octets w').
Proof.
  intros Hlast (Hs & Hc & Hr & c & d & chunks & Hh & Hd & Hq & ->) H.
  unfold worker_step, hashed, commands in *. destruct w as [q sn ca t r]. cbn [queue sender cancelled thread result] in *. subst.
  destruct t as [c'|c' command|c' command|]; [..|done]; injection Hh as ->; cbn [app] in *.
  - destruct q as [|command q]; [done|]. injection H as <-. left. split_and!; try done.
    exists c, d, chunks. by split_and!.
  - injection H as <-. left. split_and!; try done. exists c, d, chunks. by split_and!.
  - destruct chunks as [|bytes chunks]; cbn [fmap list_fmap app concat] in *.
    + destruct Hlast as [->| ->]; [done|]. injection Hq as -> Hq. injection H as <-. right. split; [done|].
      rewrite app_nil_r. split; [done|]. cbn [result]. by rewrite (digesting_finish c d).
    + injection Hq as -> Hq. injection H as <-. left. split_and!; try done.
      exists (digest_update c bytes), (d ++ bytes), chunks. split_and!; [done|by apply digesting_update|done|by rewrite (assoc_L (++))].
Qed.

Lemma worker_step_queue w w' : worker_step w = Some w' → (length (queue w') ≤ length (queue w))%nat.
Proof.
  unfold worker_step. intros H. destruct w as [q sn ca t r]. cbn [thread queue sender cancelled result] in *.
  repeat (case_match; simplify_eq/=); try done; lia.
Qed.

Lemma worker_step_sender w w' : worker_step w = Some w' → sender w' = sender w.
Proof. unfold worker_step. intros H. by repeat (case_match; simplify_eq/=). Qed.

(** Only an exited thread, and one that waits for its caller, do nothing. *)
Lemma worker_step_None w : worker_step w = None → thread w = Exited ∨ (queue w = [] ∧ sender w = true ∧ ∃ c, thread w = Waiting c).
Proof.
  unfold worker_step. destruct (thread w) as [c|c command|c [| |]|]; intros H; try done; [|by left].
  destruct (queue w); [|done]. destruct (sender w); [|done]. right. eauto.
Qed.
End threads.
