(* ===== verification/Sha256Runs.v ===== *)
(** * Every run of the digests

    The machine of [Sha256] against what it promises: an invariant that relates
    them at every step, and that no caller waits forever. *)
From stdpp Require Import gmap relations.
From S2P Require Import Prelude Bytes WampTypes RawFrame Handles OwnedBuffers FfiErrors BinaryArguments E2ee E2eeSessions Sha256.

Section invariant.
Context `{DL : !DigestLib} (sha256 : list Z → list Z) `{DW : !DigestLaws DL sha256}.

Definition state_rel (ws : list AsyncSha256Worker) (st : Sha256State) (g : ShaGiven) : Prop :=
  match g with
  | Given octets false => ∃ c, st = mkSha256State (Some c) None ∧ digesting c octets
  | Given octets true => ∃ i w, st = mkSha256State None (Some i) ∧ ws !! i = Some w ∧ piped octets [] w
  | Lost => st = mkSha256State None None
  end.

Definition states_rel (ws : list AsyncSha256Worker) (s : gmap Z Sha256State) (d : gmap Z ShaGiven) : Prop :=
  ∀ h, option_Forall2 (state_rel ws) (s !! h) (d !! h).

Definition uses (s : gmap Z Sha256State) (h : Z) (i : nat) : Prop := ∃ st, s !! h = Some st ∧ worker st = Some i.
Definition unshared (s : gmap Z Sha256State) : Prop := ∀ h h' i, uses s h i → uses s h' i → h = h'.
Definition unused (s : gmap Z Sha256State) (i : nat) : Prop := ∀ h, ¬ uses s h i.

(** Where the caller is in a call that has its effect on the promise already. *)
Definition caller_rel (m : ShaMachine) (s : ShaSpec) : Prop :=
  let ws := workers m in
  match caller m with
  | Between => spec_answers s = answers m ∧ states_rel ws (states m) (spec_data s)
  | Sending i (UpdateOwned bytes) (ThenAnswer len) =>
      ∃ h octets, spec_answers s = answers m ++ [ShaCode (Ok len)] ∧
        spec_data s !! h = Some (Given (octets ++ bytes) true) ∧ uses (states m) h i ∧
        states_rel ws (states m) (<[h := Given octets true]> (spec_data s))
  | Sending i Finalize ThenReceive =>
      ∃ octets w, spec_answers s = answers m ++ [ShaDigest (sha256 octets)] ∧
        states_rel ws (states m) (spec_data s) ∧ unused (states m) i ∧ ws !! i = Some w ∧ piped octets [] w
  | Receiving i =>
      ∃ octets w, spec_answers s = answers m ++ [ShaDigest (sha256 octets)] ∧
        states_rel ws (states m) (spec_data s) ∧ unused (states m) i ∧ ws !! i = Some w ∧
        (piped octets [Finalize] w ∨ finished sha256 octets w)
  | Joining i a =>
      ∃ w, spec_answers s = answers m ++ [a] ∧
        states_rel ws (states m) (spec_data s) ∧ unused (states m) i ∧ ws !! i = Some w ∧ sender w = false
  | Dropping i a | Sending i AbortCommand (ThenJoin a) =>
      ∃ w, spec_answers s = answers m ++ [a] ∧
        states_rel ws (states m) (spec_data s) ∧ unused (states m) i ∧ ws !! i = Some w
  | _ => False
  end.

Definition queues_bounded (m : ShaMachine) : Prop :=
  Forall (λ w, (length (queue w) ≤ ASYNC_SHA256_QUEUE_CAPACITY)%nat) (workers m).

Record sha_inv (m : ShaMachine) (s : ShaSpec) : Prop := {
  inv_next : next_sha m = spec_next s;
  inv_bounded : queues_bounded m;
  inv_unshared : unshared (states m);
  inv_caller : caller_rel m s;
}.

(** ** States and threads *)
Lemma state_rel_worker ws st g i : state_rel ws st g → worker st = Some i →
  ∃ octets w, g = Given octets true ∧ st = mkSha256State None (Some i) ∧ ws !! i = Some w ∧ piped octets [] w.
Proof.
  intros H Hi. destruct g as [octets [|]|]; cbn in H.
  - destruct H as (i' & w & -> & Hw & Hp). cbn in Hi. injection Hi as ->. by exists octets, w.
  - by destruct H as (c & -> & _).
  - by subst st.
Qed.

Lemma state_rel_same ws ws' st g : (∀ i, worker st = Some i → ws' !! i = ws !! i) → state_rel ws st g → state_rel ws' st g.
Proof.
  intros Hws H. destruct g as [octets [|]|]; cbn in *; [|done..].
  destruct H as (i & w & -> & Hw & Hp). exists i, w. by rewrite (Hws i eq_refl).
Qed.

Lemma states_rel_lookup ws s d h st : states_rel ws s d → s !! h = Some st → ∃ g, d !! h = Some g ∧ state_rel ws st g.
Proof. intros H Hh. specialize (H h). rewrite Hh in H. inversion H as [? g Hg E1 E2|]. by exists g. Qed.

Lemma states_rel_present ws s d h : states_rel ws s d → is_Some (s !! h) ↔ is_Some (d !! h).
Proof. intros H. specialize (H h). by destruct H. Qed.

Lemma states_rel_same ws ws' s d : (∀ h i, uses s h i → ws' !! i = ws !! i) → states_rel ws s d → states_rel ws' s d.
Proof.
  intros Hws H h. specialize (H h). specialize (Hws h). unfold uses in Hws.
  destruct (s !! h) as [st|], (d !! h) as [g|]; inversion H; subst; constructor.
  eapply state_rel_same; [|done]. intros i Hi. apply Hws. by exists st.
Qed.

Lemma states_rel_insert ws s d h st g : states_rel ws s d → state_rel ws st g → states_rel ws (<[h := st]> s) (<[h := g]> d).
Proof.
  intros H Hg h'. destruct (decide (h = h')) as [<-|]; [rewrite !lookup_insert_eq; by constructor|].
  by rewrite !lookup_insert_ne.
Qed.

Lemma states_rel_delete ws s d h : states_rel ws s d → states_rel ws (delete h s) (delete h d).
Proof.
  intros H h'. destruct (decide (h = h')) as [<-|]; [rewrite !lookup_delete_eq; by constructor|].
  by rewrite !lookup_delete_ne.
Qed.

Lemma states_rel_append ws w s d : states_rel ws s d → states_rel (ws ++ [w]) s d.
Proof.
  intros H h. specialize (H h). destruct (s !! h) as [st|] eqn:Es, (d !! h) as [g|]; inversion H as [? ? Hg|]; subst; constructor.
  destruct g as [octets [|]|]; cbn in *; [|done..]. destruct Hg as (i & w' & -> & Hw & Hp). exists i, w'.
  split_and!; [done|by apply lookup_app_l_Some|done].
Qed.

Lemma states_rel_unused ws s d i w : unused s i → states_rel ws s d → states_rel (<[i := w]> ws) s d.
Proof.
  intros Hi. apply states_rel_same. intros h j Hj. apply list_lookup_insert_ne. intros ->. by apply (Hi h).
Qed.

Lemma states_rel_alter_unused ws s d i f : unused s i → states_rel ws s d → states_rel (alter f i ws) s d.
Proof.
  intros Hi. apply states_rel_same. intros h j Hj. apply list_lookup_alter_ne. intros ->. by apply (Hi h).
Qed.

(** A thread's step shows in no state. *)
Lemma states_rel_thread ws s d i w w' : ws !! i = Some w → worker_step w = Some w' →
  states_rel ws s d → states_rel (<[i := w']> ws) s d.
Proof.
  intros Hw Hstep H h. specialize (H h).
  destruct (s !! h) as [st|], (d !! h) as [g|]; inversion H as [? ? Hg|]; subst; constructor.
  destruct g as [octets [|]|]; cbn in *; [|done..]. destruct Hg as (j & wj & -> & Hj & Hp).
  destruct (decide (i = j)) as [<-|].
  - rewrite Hw in Hj. injection Hj as <-. exists i, w'. rewrite list_lookup_insert_eq by (by eapply lookup_lt_Some).
    split_and!; [done..|]. edestruct (worker_step_piped sha256 octets []) as [?|[? _]]; eauto. done.
  - exists j, wj. by rewrite list_lookup_insert_ne.
Qed.

Lemma unused_delete s h i : unshared s → uses s h i → unused (delete h s) i.
Proof.
  intros Hu Hh h' (st & Hst & Hi). apply lookup_delete_Some in Hst as [Hne Hst]. apply Hne, (Hu _ _ i Hh). by exists st.
Qed.

Lemma uses_delete s h h' i : uses (delete h s) h' i → uses s h' i.
Proof. intros (st & Hst & Hi). apply lookup_delete_Some in Hst as [_ Hst]. by exists st. Qed.

Lemma unshared_delete s h : unshared s → unshared (delete h s).
Proof. intros Hu h1 h2 i H1 H2. eapply Hu; by eapply uses_delete. Qed.

Lemma unused_insert s h st i : unused s i → worker st ≠ Some i → unused (<[h := st]> s) i.
Proof.
  intros Hu Hst h' (st' & H & Hi). apply lookup_insert_Some in H as [[-> <-]|[Hne H]]; [done|]. apply (Hu h'). by exists st'.
Qed.

Lemma unshared_insert s h st : unshared s → (∀ i, worker st = Some i → unused s i) → unshared (<[h := st]> s).
Proof.
  intros Hu Hst h1 h2 i (st1 & H1 & Hi1) (st2 & H2 & Hi2).
  apply lookup_insert_Some in H1 as [[<- <-]|[Hne1 H1]], H2 as [[<- <-]|[Hne2 H2]]; [done|..].
  - destruct (Hst i Hi1 h2). by exists st2.
  - destruct (Hst i Hi2 h1). by exists st1.
  - eapply Hu; eexists; eauto.
Qed.

(** ** Steps of a thread *)
Lemma inv_thread m s i w w' : sha_inv m s → workers m !! i = Some w → worker_step w = Some w' →
  sha_inv (set_workers (<[i := w']> (workers m)) m) s.
Proof.
  intros [Hn Hb Hu Hc] Hw Hstep. pose proof (lookup_lt_Some _ _ _ Hw) as Hlt.
  assert (∀ j wj, workers m !! j = Some wj → ∃ wj', <[i := w']> (workers m) !! j = Some wj' ∧
    (wj' = wj ∨ worker_step wj = Some wj')) as Hlook.
  { intros j wj Hj. destruct (decide (i = j)) as [<-|]; [|exists wj; rewrite list_lookup_insert_ne by done; auto].
    rewrite list_lookup_insert_eq by done. rewrite Hw in Hj. injection Hj as <-. eauto. }
  split; cbn; [done| |done|].
  - apply Forall_insert; [done|]. pose proof (worker_step_queue _ _ Hstep).
    pose proof (Forall_lookup_1 _ _ _ _ Hb Hw) as Hq. cbn in Hq. lia.
  - unfold caller_rel in *. cbn [set_workers workers caller states].
    assert (∀ d, states_rel (workers m) (states m) d → states_rel (<[i := w']> (workers m)) (states m) d) as Hrel
      by (intros d; by eapply states_rel_thread).
    destruct (caller m) as [|j [bytes| |] [len| |a]|j|j a|j a]; try done.
    + destruct Hc as [? ?]. auto.
    + destruct Hc as (h & o & ? & ? & ? & ?). exists h, o. auto.
    + destruct Hc as (o & wj & ? & ? & ? & Hj & Hp). destruct (Hlook j wj Hj) as (wj' & Hj' & Hor).
      exists o, wj'. split_and!; auto. destruct Hor as [->|Hst]; [done|].
      destruct (worker_step_piped sha256 o [] wj wj') as [?|[? _]]; auto; done.
    + destruct Hc as (wj & ? & ? & ? & Hj). destruct (Hlook j wj Hj) as (wj' & Hj' & _). exists wj'. auto.
    + destruct Hc as (o & wj & ? & ? & ? & Hj & Hp). destruct (Hlook j wj Hj) as (wj' & Hj' & Hor).
      exists o, wj'. split_and!; auto. destruct Hor as [->|Hst]; [done|].
      destruct Hp as [Hp|[Hex _]]; [|unfold worker_step in Hst; by rewrite Hex in Hst].
      destruct (worker_step_piped sha256 o [Finalize] wj wj') as [?|[_ ?]]; auto.
    + destruct Hc as (wj & ? & ? & ? & Hj & Hs). destruct (Hlook j wj Hj) as (wj' & Hj' & Hor). exists wj'.
      split_and!; auto. destruct Hor as [->|Hst]; [done|]. by rewrite (worker_step_sender _ _ Hst).
    + destruct Hc as (wj & ? & ? & ? & Hj). destruct (Hlook j wj Hj) as (wj' & Hj' & _). exists wj'. auto.
Qed.

(** ** Steps of the caller *)
Lemma piped_alive octets last w : piped octets last w → sender w = true ∧ worker_exited w = false.
Proof. intros (Hs & _ & _ & c & _ & _ & Hh & _). split; [done|]. unfold worker_exited, hashed in *. by destruct (thread w). Qed.

Lemma bounded_alter m i f : (∀ w, (length (queue w) ≤ ASYNC_SHA256_QUEUE_CAPACITY)%nat → (length (queue (f w)) ≤ ASYNC_SHA256_QUEUE_CAPACITY)%nat) →
  queues_bounded m → Forall (λ w, (length (queue w) ≤ ASYNC_SHA256_QUEUE_CAPACITY)%nat) (alter f i (workers m)).
Proof. intros Hf Hb. apply Forall_alter; [done|]. intros w _. apply Hf. Qed.

Lemma bounded_push m i w command : workers m !! i = Some w → (length (queue w) < ASYNC_SHA256_QUEUE_CAPACITY)%nat →
  queues_bounded m → Forall (λ w, (length (queue w) ≤ ASYNC_SHA256_QUEUE_CAPACITY)%nat) (alter (push_command command) i (workers m)).
Proof.
  intros Hw Hq Hb. apply Forall_alter; [done|]. intros w' Hw' _. rewrite Hw in Hw'. injection Hw' as <-.
  cbn. rewrite length_app. cbn. lia.
Qed.

Lemma states_rel_pushed ws s d h i bytes octets : unshared s → uses s h i → d !! h = Some (Given (octets ++ bytes) true) →
  states_rel ws s (<[h := Given octets true]> d) → states_rel (alter (push_command (UpdateOwned bytes)) i ws) s d.
Proof.
  intros Hu Hh Hd H h'. destruct (decide (h = h')) as [<-|Hne].
  - destruct Hh as (st & Hst & Hi). specialize (H h). rewrite Hst, lookup_insert_eq in H. inversion H as [? ? Hg|]; subst.
    rewrite Hst, Hd. constructor. apply (state_rel_worker _ _ _ i) in Hg as (o & w & [= <-] & -> & Hw & Hp); [|done].
    exists i, (push_command (UpdateOwned bytes) w). split_and!; [done|by rewrite list_lookup_alter_eq, Hw|by apply piped_push].
  - specialize (H h'). rewrite lookup_insert_ne in H by done.
    destruct (s !! h') as [st|] eqn:Es, (d !! h') as [g|]; inversion H; subst; constructor.
    eapply state_rel_same; [|done]. intros j Hj. apply list_lookup_alter_ne. intros ->.
    apply Hne, (Hu _ _ j Hh). by exists st.
Qed.

Lemma sending_alive m s i bytes len : sha_inv m s → caller m = Sending i (UpdateOwned bytes) (ThenAnswer len) →
  ∃ w o, workers m !! i = Some w ∧ piped o [] w.
Proof.
  intros [_ _ _ Hc] E. unfold caller_rel in Hc. rewrite E in Hc.
  destruct Hc as (h & o & _ & _ & (st & Hst & Hi) & Hr). specialize (Hr h). rewrite Hst, lookup_insert_eq in Hr.
  inversion Hr as [? ? Hg|]; subst. apply (state_rel_worker _ _ _ i) in Hg as (o' & w & _ & _ & Hw & Hp); [|done]. by exists w, o'.
Qed.

Lemma inv_caller_step m m' s : sha_inv m s → caller_step m = Some m' → sha_inv m' s.
Proof.
  intros Hinv Hstep. pose proof Hinv as [Hn Hb Hu Hc]. unfold caller_step in Hstep. unfold caller_rel in Hc.
  destruct (caller m) as [|i [bytes| |] [len| |a]|i|i a|i a] eqn:Ec; try done.
  - destruct (sending_alive m s i bytes len Hinv Ec) as (w & o' & Hw & Hp).
    destruct Hc as (h & o & Ha & Hd & Hh & Hr). rewrite Hw in Hstep. cbn [mbind option_bind] in Hstep.
    destruct (piped_alive _ _ _ Hp) as [E1 E2]. rewrite E1, E2 in Hstep. cbn [negb] in Hstep.
    case_bool_decide as Hq; [|done]. injection Hstep as <-. split; [done|by eapply bounded_push|done|].
    split; [done|]. by eapply states_rel_pushed.
  - destruct Hc as (o & w & Ha & Hr & Hun & Hw & Hp). rewrite Hw in Hstep. cbn [mbind option_bind] in Hstep.
    destruct (piped_alive _ _ _ Hp) as [E1 E2]. rewrite E1, E2 in Hstep. cbn [negb] in Hstep.
    case_bool_decide as Hq; [|done]. injection Hstep as <-. split; [done|by eapply bounded_push|done|].
    exists o, (push_command Finalize w). cbn. split_and!; [done|by apply states_rel_alter_unused|done| |left; by apply piped_finalize].
    by rewrite list_lookup_alter_eq, Hw.
  - destruct Hc as (w & Ha & Hr & Hun & Hw). rewrite Hw in Hstep. cbn [mbind option_bind] in Hstep.
    destruct (sender w); cbn [negb] in Hstep.
    + destruct (worker_exited w).
      * injection Hstep as <-. split; [done|by apply bounded_alter|done|]. exists (without_sender w).
        cbn. split_and!; [done|by apply states_rel_alter_unused|done| |done]. by rewrite list_lookup_alter_eq, Hw.
      * case_bool_decide as Hq; [|done]. injection Hstep as <-. split; [done| |done|].
        { cbn. apply Forall_alter; [by eapply bounded_push|]. intros w' _ H'. exact H'. }
        exists (without_sender (push_command AbortCommand w)). cbn.
        split_and!; [done|apply states_rel_alter_unused; [done|by apply states_rel_alter_unused]|done| |done]. by rewrite !list_lookup_alter_eq, Hw.
    + injection Hstep as <-. split; [done|by apply bounded_alter|done|]. exists (without_sender w).
      cbn. split_and!; [done|by apply states_rel_alter_unused|done| |done]. by rewrite list_lookup_alter_eq, Hw.
  - destruct Hc as (o & w & Ha & Hr & Hun & Hw & Hp). rewrite Hw in Hstep. cbn [mbind option_bind] in Hstep.
    destruct Hp as [Hp|[Hex Hres]].
    + destruct (piped_alive _ _ _ Hp) as [_ Hal]. destruct Hp as (_ & _ & Hres & _). by rewrite Hres, Hal in Hstep.
    + rewrite Hres in Hstep. injection Hstep as <-. split; [done|by apply bounded_alter|done|]. exists (without_sender w).
      cbn. split_and!; [done|by apply states_rel_alter_unused|done| |done]. by rewrite list_lookup_alter_eq, Hw.
  - destruct Hc as (w & Ha & Hr & Hun & Hw & Hs). rewrite Hw in Hstep. cbn [mbind option_bind] in Hstep.
    destruct (worker_exited w); [|done]. injection Hstep as <-. split; [done|by apply bounded_alter|done|].
    split; [done|]. by apply states_rel_alter_unused.
  - destruct Hc as (w & Ha & Hr & Hun & Hw). injection Hstep as <-. split; [done|by apply bounded_alter|done|].
    exists (cancel_worker w). cbn. split_and!; [done|by apply states_rel_alter_unused|done|]. by rewrite list_lookup_alter_eq, Hw.
Qed.

(** ** Calls *)
Record idle_inv (m : ShaMachine) (s : ShaSpec) : Prop := {
  idle_next : next_sha m = spec_next s;
  idle_bounded : queues_bounded m;
  idle_unshared : unshared (states m);
  idle_answers : spec_answers s = answers m;
  idle_states : states_rel (workers m) (states m) (spec_data s);
}.

Lemma inv_idle m s : sha_inv m s → caller m = Between → idle_inv m s.
Proof. intros [Hn Hb Hu Hc] E. unfold caller_rel in Hc. rewrite E in Hc. destruct Hc. by split. Qed.

Lemma inv_reply a m s : idle_inv m s → sha_inv (reply a m) (spec_answer a s).
Proof. intros [Hn Hb Hu Ha Hr]. split; try done. split; [|done]. cbn. by rewrite Ha. Qed.

Lemma inv_error code m s : idle_inv m s →
  sha_inv (sha_error (SS := sha_machine) code m) (sha_error (SS := sha_spec sha256) code s).
Proof. apply inv_reply. Qed.

Lemma inv_discard st a m s : idle_inv m s →
  (∀ i, worker st = Some i → unused (states m) i ∧ is_Some (workers m !! i)) →
  sha_inv (discard_state st a m) (spec_answer a s).
Proof.
  intros Hi Hst. unfold discard_state. destruct (worker st) as [i|]; [|by apply inv_reply].
  destruct (Hst i eq_refl) as [Hun [w Hw]]. destruct Hi as [Hn Hb Hu Ha Hr]. split; try done.
  exists w. cbn. by rewrite Ha.
Qed.

Lemma idle_set m s st d : idle_inv m s → unshared st → states_rel (workers m) st d →
  idle_inv (set_states st m) (spec_with d s).
Proof. intros [Hn Hb Hu Ha Hr] Hst Hd. by split. Qed.

Lemma idle_delete m s h : idle_inv m s → idle_inv (set_states (delete h (states m)) m) (spec_with (delete h (spec_data s)) s).
Proof. intros Hi. apply idle_set; [done|by apply unshared_delete, Hi|by apply states_rel_delete, Hi]. Qed.

(** A state without a thread of its own replaces one. *)
Lemma unshared_plain s h c : unshared s → unshared (<[h := mkSha256State c None]> s).
Proof. intros Hu. by apply unshared_insert. Qed.

Lemma inv_new m s : idle_inv m s → sha_inv (machine_new m) (sha_new (ShaStates := sha_spec sha256) s).
Proof.
  intros Hi. pose proof Hi as [Hn Hb Hu Ha Hr]. unfold machine_new. cbn [sha_new sha_spec]. rewrite <-Hn.
  destruct (claim_handle (next_sha m)) as [r next].
  assert (idle_inv (mkShaMachine next (match r with Ok _ => <[next_sha m := mkSha256State (Some digest_new) None]> (states m) | _ => states m end)
            (workers m) (caller m) (answers m))
    (mkShaSpec next (match r with Ok _ => <[next_sha m := Given [] false]> (spec_data s) | _ => spec_data s end) (spec_answers s))) as Hi'.
  { split; [done|done| |done|]; cbn; destruct r; try done; [by apply unshared_plain|].
    apply states_rel_insert; [done|]. exists digest_new. split; [done|apply digesting_new]. }
  destruct r as [handle| | |]; [|by apply inv_reply..].
  destruct (states m !! next_sha m) as [st|] eqn:Est; [|by apply inv_reply]. apply inv_discard; [done|].
  intros i Hw. cbn [states workers]. split.
  - intros h (st' & Hst' & Hi'0). apply lookup_insert_Some in Hst' as [[_ <-]|[Hne Hst']]; [done|].
    apply Hne, (Hu _ _ i); by eexists.
  - destruct (states_rel_lookup _ _ _ _ _ Hr Est) as (g & _ & Hg).
    apply (state_rel_worker _ _ _ i) in Hg as (o & w & _ & _ & Hwi & _); [|done]. by exists w.
Qed.

Lemma inv_update h bytes len m s st : idle_inv m s → states m !! h = Some st →
  sha_inv (state_update h bytes len m) (sha_update (ShaStates := sha_spec sha256) h bytes len s).
Proof.
  intros Hi Hst. pose proof Hi as [Hn Hb Hu Ha Hr]. unfold state_update. rewrite Hst. cbn [sha_update sha_spec].
  destruct (states_rel_lookup _ _ _ _ _ Hr Hst) as (g & Hd & Hg). rewrite Hd.
  destruct g as [octets [|]|].
  - destruct Hg as (i & w & -> & Hw & Hp). split; try done. exists h, octets. cbn. rewrite Ha, lookup_insert_eq, insert_insert_eq.
    split_and!; [done|done|by eexists|]. by rewrite insert_id.
  - destruct Hg as (c & -> & Hc). apply inv_reply, idle_set; [done|by apply unshared_plain|].
    apply states_rel_insert; [done|]. exists (digest_update c bytes). split; [done|by apply digesting_update].
  - cbn in Hg. subst st. by apply inv_reply.
Qed.

Lemma inv_update_async h bytes spawn len m s st : idle_inv m s → states m !! h = Some st →
  sha_inv (state_update_async h bytes spawn len m) (sha_update_async (ShaStates := sha_spec sha256) h bytes spawn len s).
Proof.
  intros Hi Hst. pose proof Hi as [Hn Hb Hu Ha Hr]. unfold state_update_async. rewrite Hst. cbn [sha_update_async sha_spec].
  destruct (states_rel_lookup _ _ _ _ _ Hr Hst) as (g & Hd & Hg). rewrite Hd.
  destruct g as [octets [|]|].
  - destruct Hg as (i & w & -> & Hw & Hp). split; try done. exists h, octets. cbn. rewrite Ha, lookup_insert_eq, insert_insert_eq.
    split_and!; [done|done|by eexists|]. by rewrite insert_id.
  - destruct Hg as (c & -> & Hc). cbn [orb worker context]. destruct spawn.
    + split; [done| | |].
      * cbn. apply Forall_app. split; [done|]. apply Forall_cons_2; [cbn; lia|apply Forall_nil_2].
      * cbn. apply unshared_insert; [done|]. intros i [= <-] h' (st' & Hst' & Hi').
        destruct (states_rel_lookup _ _ _ _ _ Hr Hst') as (g' & _ & Hg').
        apply (state_rel_worker _ _ _ (length (workers m))) in Hg' as (o & w & _ & _ & Hw%lookup_lt_Some & _); [lia|done].
      * exists h, octets. cbn. rewrite Ha, lookup_insert_eq, insert_insert_eq.
        split_and!; [done|done|eexists; by rewrite lookup_insert_eq|].
        apply states_rel_insert; [by apply states_rel_append|]. exists (length (workers m)), (start_worker c).
        split_and!; [done|by apply list_lookup_middle|by apply piped_start].
    + apply inv_reply, idle_set; [done|by apply unshared_plain|]. by apply states_rel_insert.
  - cbn in Hg. subst st. by apply inv_reply.
Qed.

Lemma inv_finalize h m s st : idle_inv m s → states m !! h = Some st →
  sha_inv (state_finalize h m) (sha_finalize (ShaStates := sha_spec sha256) h s).
Proof.
  intros Hi Hst. pose proof Hi as [Hn Hb Hu Ha Hr]. unfold state_finalize. rewrite Hst. cbn [sha_finalize sha_spec].
  destruct (states_rel_lookup _ _ _ _ _ Hr Hst) as (g & Hd & Hg). rewrite Hd.
  destruct g as [octets [|]|].
  - destruct Hg as (i & w & -> & Hw & Hp). split; [done|done|by apply unshared_delete|]. exists octets, w. cbn. rewrite Ha.
    split_and!; [done|by apply states_rel_delete| |done|done]. apply unused_delete; [done|by eexists].
  - destruct Hg as (c & -> & Hc). cbn [worker context]. rewrite (digesting_finish sha256 c octets) by done.
    by apply inv_reply, idle_delete.
  - cbn in Hg. subst st. by apply inv_reply, idle_delete.
Qed.

Lemma inv_drop h m s st : idle_inv m s → states m !! h = Some st →
  sha_inv (state_drop h m) (sha_drop (ShaStates := sha_spec sha256) h s).
Proof.
  intros Hi Hst. unfold state_drop. rewrite Hst. apply inv_discard; [by apply idle_delete|]. intros i Hw. cbn [set_states states workers].
  destruct (states_rel_lookup _ _ _ _ _ (idle_states _ _ Hi) Hst) as (g & _ & Hg).
  apply (state_rel_worker _ _ _ i) in Hg as (o & w & _ & _ & Hwi & _); [|done]. split; [|by exists w].
  apply unused_delete; [apply Hi|by eexists].
Qed.

Lemma inv_with_state h f g m s : idle_inv m s → (∀ st, states m !! h = Some st → sha_inv (f m) (g s)) →
  sha_inv (with_state (SS := sha_machine) h f m) (with_state (SS := sha_spec sha256) h g s).
Proof.
  intros Hi Hf. unfold with_state. cbn [sha_present sha_machine sha_spec].
  rewrite (bool_decide_ext _ _ (states_rel_present _ _ _ h (idle_states _ _ Hi))).
  case_bool_decide as Hs; [|by apply inv_error].
  apply (states_rel_present _ _ _ h (idle_states _ _ Hi)) in Hs as [st Hst]. by eapply Hf.
Qed.

Lemma inv_call messages call m s : sha_inv m s → caller m = Between →
  sha_inv (run_sha_call (SS := sha_machine) messages call m) (run_sha_call (SS := sha_spec sha256) messages call s).
Proof.
  intros Hinv E. pose proof (inv_idle m s Hinv E) as Hi. destruct call; cbn [run_sha_call].
  - by apply inv_new.
  - unfold ct_sha256_update. destruct (_ <=? 0); [by apply inv_error|]. destruct (read_required_bytes bytes); try by apply inv_error.
    apply inv_with_state; [done|]. intros st. by apply inv_update.
  - unfold ct_sha256_update_message_binary_argument_wide. destruct (_ || _); [by apply inv_error|].
    apply inv_with_state; [done|]. intros st Hst. destruct (message_binary_argument messages message_handle).
    + by eapply inv_update.
    + by apply inv_error.
    + done.
    + done.
  - unfold ct_sha256_update_async. destruct (_ <=? 0); [by apply inv_error|]. destruct (read_required_bytes bytes); try by apply inv_error.
    apply inv_with_state; [done|]. intros st. by apply inv_update_async.
  - unfold ct_sha256_update_owned_async. destruct (take_owned_outbound_buffer bytes len); try by apply inv_error.
    destruct (_ <=? 0); [by apply inv_error|]. apply inv_with_state; [done|]. intros st. by apply inv_update_async.
  - unfold ct_sha256_update_external_owned_async. destruct (take_owned_external_buffer_slice owner bytes_ptr len); try by apply inv_error.
    destruct (_ <=? 0); [by apply inv_error|]. apply inv_with_state; [done|]. intros st. by apply inv_update_async.
  - unfold ct_sha256_finalize. destruct (_ || _); [by apply inv_error|]. apply inv_with_state; [done|]. intros st. by apply inv_finalize.
  - unfold ct_sha256_release. destruct (_ <=? 0); [by apply inv_error|]. apply inv_with_state; [done|]. intros st. by apply inv_drop.
Qed.
End invariant.

(** ** No waiting forever *)
Section endings.
Context `{DL : !DigestLib}.

Definition thread_weight (t : WorkerThread) : nat :=
  match t with Waiting _ => 1 | Received _ _ => 3 | Executing _ _ => 2 | Exited => 0 end.
Definition worker_weight (w : AsyncSha256Worker) : nat := (3 * length (queue w) + thread_weight (thread w))%nat.
Definition caller_weight (c : ShaCaller) : nat :=
  match c with
  | Between => 0
  | Sending _ _ (ThenAnswer _) => 5
  | Sending _ _ ThenReceive => 15
  | Sending _ _ (ThenJoin _) => 6
  | Receiving _ => 8
  | Joining _ _ => 1
  | Dropping _ _ => 7
  end.
Definition threads_weight (ws : list AsyncSha256Worker) : nat := sum_list_with worker_weight ws.
Definition run_weight (c : list sha_call * ShaMachine) : nat :=
  (20 * length c.1 + caller_weight (caller c.2) + threads_weight (workers c.2))%nat.

Lemma threads_weight_app ws w : threads_weight (ws ++ [w]) = (threads_weight ws + worker_weight w)%nat.
Proof. unfold threads_weight. rewrite sum_list_with_app. cbn. lia. Qed.

Lemma threads_weight_alter ws i w f : ws !! i = Some w →
  (threads_weight (alter f i ws) + worker_weight w = threads_weight ws + worker_weight (f w))%nat.
Proof.
  unfold threads_weight. revert i. induction ws as [|w' ws IH]; intros [|i] H; try done; cbn in *.
  - injection H as ->. lia.
  - specialize (IH i H). lia.
Qed.

Lemma threads_weight_kept ws i f : (∀ w, worker_weight (f w) = worker_weight w) → threads_weight (alter f i ws) = threads_weight ws.
Proof.
  intros Hf. unfold threads_weight. revert i. induction ws as [|w ws IH]; intros [|i]; [done..| |].
  - change (worker_weight (f w) + sum_list_with worker_weight ws = worker_weight w + sum_list_with worker_weight ws)%nat.
    by rewrite Hf.
  - change (worker_weight w + sum_list_with worker_weight (alter f i ws) = worker_weight w + sum_list_with worker_weight ws)%nat.
    by rewrite IH.
Qed.

Lemma insert_alter {A} (l : list A) i x : <[i := x]> l = alter (λ _, x) i l.
Proof. revert i. induction l as [|y l IH]; intros [|i]; [done..|]. cbn. f_equal. apply IH. Qed.

Lemma worker_step_weight w w' : worker_step w = Some w' → (worker_weight w' < worker_weight w)%nat.
Proof.
  unfold worker_step, worker_weight. destruct w as [q sn ca t r]. cbn [thread queue sender cancelled result].
  intros H. repeat (case_match; simplify_eq/=); lia.
Qed.

Lemma push_weight command w : worker_weight (push_command command w) = (worker_weight w + 3)%nat.
Proof. unfold worker_weight, push_command. cbn [queue thread]. rewrite length_app. cbn [length]. lia. Qed.

Lemma send_done_weight i ok code k m : (caller_weight (caller (send_done i ok code k m)) + threads_weight (workers (send_done i ok code k m)) + 4
    ≤ caller_weight (Sending i AbortCommand k) + threads_weight (workers m))%nat.
Proof.
  destruct k as [len| |a]; cbn [send_done].
  - cbn [reply caller workers caller_weight]. lia.
  - destruct ok; cbn [set_caller caller workers caller_weight]; lia.
  - cbn [set_caller set_workers caller workers caller_weight]. rewrite threads_weight_kept by done. lia.
Qed.

Lemma caller_step_weight m m' : caller_step m = Some m' →
  (caller_weight (caller m') + threads_weight (workers m') < caller_weight (caller m) + threads_weight (workers m))%nat.
Proof.
  unfold caller_step. destruct (caller m) as [|i command k|i|i a|i a]; [done|..].
  - intros H. apply bind_Some in H as (w & Hw & H).
    assert (caller_weight (Sending i command k) = caller_weight (Sending i AbortCommand k)) as -> by done.
    destruct (negb (sender w)); [|destruct (worker_exited w); [|case_bool_decide; [|done]]]; injection H as <-.
    + pose proof (send_done_weight i false ERR_HANDLE_UNAVAILABLE k m). lia.
    + pose proof (send_done_weight i false ERR_INTERNAL k m). lia.
    + pose proof (send_done_weight i true ERR_INTERNAL k (set_workers (alter (push_command command) i (workers m)) m)) as Hs.
      pose proof (threads_weight_alter (workers m) i w (push_command command) Hw) as Ha.
      rewrite push_weight in Ha. cbn [set_workers workers] in Hs. lia.
  - intros H. apply bind_Some in H as (w & Hw & H). destruct (result w).
    + injection H as <-. cbn [set_caller set_workers caller workers caller_weight]. rewrite threads_weight_kept by done. lia.
    + destruct (worker_exited w); [|done]. injection H as <-. cbn [set_caller caller workers caller_weight]. lia.
  - intros H. apply bind_Some in H as (w & Hw & H). destruct (worker_exited w); [|done]. injection H as <-.
    cbn [reply set_workers caller workers caller_weight]. rewrite threads_weight_kept by done. lia.
  - intros [= <-]. cbn [set_caller set_workers caller workers caller_weight]. rewrite threads_weight_kept by done. lia.
Qed.

Ltac weight_lia := cbn [reply discard_state set_caller set_states set_workers caller workers states caller_weight]; lia.

(** What a call can start. *)
Definition cheap (m m' : ShaMachine) : Prop :=
  (caller_weight (caller m') ≤ 15)%nat ∧ (threads_weight (workers m') ≤ threads_weight (workers m) + 1)%nat.

Lemma cheap_reply a m : cheap m (reply a m).
Proof. split; weight_lia. Qed.

Lemma cheap_with_state h f m : cheap m (f m) → cheap m (with_state (SS := sha_machine) h f m).
Proof. intros Hf. unfold with_state. case_match; [done|apply cheap_reply]. Qed.

Lemma cheap_discard st a m m0 : threads_weight (workers m) = threads_weight (workers m0) → cheap m0 (discard_state st a m).
Proof. intros H. unfold discard_state. split; case_match; weight_lia. Qed.

Lemma cheap_update h bytes len m : cheap m (state_update h bytes len m).
Proof. unfold state_update. split; repeat case_match; weight_lia. Qed.

Lemma cheap_update_async h bytes spawn len m : cheap m (state_update_async h bytes spawn len m).
Proof.
  unfold state_update_async. repeat case_match; try (split; weight_lia).
  split; [weight_lia|]. cbn [set_caller set_workers set_states workers]. rewrite threads_weight_app. cbn. lia.
Qed.

Lemma run_call_cheap messages call m : caller m = Between → cheap m (run_sha_call (SS := sha_machine) messages call m).
Proof.
  intros E. destruct call; cbn [run_sha_call].
  - unfold ct_sha256_new. cbn [sha_new sha_machine]. unfold machine_new. destruct (claim_handle _) as [r next].
    repeat case_match; try (by apply cheap_discard); split; weight_lia.
  - unfold ct_sha256_update. repeat case_match; try apply cheap_reply. apply cheap_with_state, cheap_update.
  - unfold ct_sha256_update_message_binary_argument_wide. case_match; [apply cheap_reply|]. apply cheap_with_state.
    case_match; [apply cheap_update|apply cheap_reply|split; rewrite ?E; weight_lia..].
  - unfold ct_sha256_update_async. repeat case_match; try apply cheap_reply. apply cheap_with_state, cheap_update_async.
  - unfold ct_sha256_update_owned_async. repeat case_match; try apply cheap_reply. apply cheap_with_state, cheap_update_async.
  - unfold ct_sha256_update_external_owned_async. repeat case_match; try apply cheap_reply.
    apply cheap_with_state, cheap_update_async.
  - unfold ct_sha256_finalize. case_match; [apply cheap_reply|]. apply cheap_with_state. cbn [sha_finalize sha_machine].
    unfold state_finalize. split; repeat case_match; weight_lia.
  - unfold ct_sha256_release. case_match; [apply cheap_reply|]. apply cheap_with_state. cbn [sha_drop sha_machine].
    unfold state_drop. case_match; [by apply cheap_discard|apply cheap_reply].
Qed.

Lemma sha_step_weight messages c c' : sha_step messages c c' → (run_weight c' < run_weight c)%nat.
Proof.
  unfold run_weight. intros [call calls m E|calls m m' H|calls m i w w' Hw H]; cbn [fst snd].
  - destruct (run_call_cheap messages call m E) as [H1 H2]. rewrite E. cbn [caller_weight length]. lia.
  - apply caller_step_weight in H. lia.
  - cbn [set_workers workers caller]. rewrite insert_alter. apply worker_step_weight in H.
    pose proof (threads_weight_alter (workers m) i w (λ _, w') Hw). lia.
Qed.

(** A caller inside a call can go on, or a thread can. *)
Lemma caller_progress sha256 m s : sha_inv sha256 m s → caller m ≠ Between →
  is_Some (caller_step m) ∨ ∃ i w w', workers m !! i = Some w ∧ worker_step w = Some w'.
Proof.
  intros Hinv Hne.
  assert (∀ i w, workers m !! i = Some w → is_Some (caller_step m) ∨ (∃ i w w', workers m !! i = Some w ∧ worker_step w = Some w')
    ∨ worker_step w = None) as Hor.
  { intros i w Hw. destruct (worker_step w) eqn:E; [|auto]. right; left. eauto. }
  pose proof (sending_alive sha256 m s) as Halive. destruct Hinv as [Hn Hb Hu Hc]. unfold caller_rel in Hc.
  assert (∀ i command k w, caller m = Sending i command k → workers m !! i = Some w →
    is_Some (caller_step m) ∨ ∃ i w w', workers m !! i = Some w ∧ worker_step w = Some w') as Hsending.
  { intros i command k w E Hw. destruct (Hor i w Hw) as [?|[?|Hstuck]]; [by left|by right|]. left. unfold caller_step. rewrite E, Hw.
    cbn [mbind option_bind]. destruct (negb (sender w)); [by eexists|]. destruct (worker_exited w) eqn:Ex; [by eexists|].
    apply worker_step_None in Hstuck as [Hex|(Hq & _)]; [unfold worker_exited in Ex; by rewrite Hex in Ex|].
    rewrite Hq. by eexists. }
  destruct (caller m) as [|i command k|i|i a|i a] eqn:Ec; [done|..].
  - destruct command as [bytes| |], k as [len| |a]; try done.
    + destruct (Halive i bytes len) as (w & o & Hw & _); [by split; try done; unfold caller_rel; rewrite Ec|done|]. by eapply Hsending.
    + destruct Hc as (o & w & _ & _ & _ & Hw & _). by eapply Hsending.
    + destruct Hc as (w & _ & _ & _ & Hw). by eapply Hsending.
  - destruct Hc as (o & w & _ & _ & _ & Hw & Hp). destruct (Hor i w Hw) as [?|[?|Hstuck]]; [by left|by right|]. left.
    unfold caller_step. rewrite Ec, Hw. cbn [mbind option_bind].
    destruct Hp as [(_ & _ & _ & c & d & chunks & Hh & _ & Hq & _)|[_ ->]]; [|by eexists].
    apply worker_step_None in Hstuck as [Hex|(Hq' & _ & c' & Ht)]; unfold hashed, commands in *.
    { by rewrite Hex in Hh. }
    rewrite Ht, Hq' in Hq. by destruct chunks.
  - destruct Hc as (w & _ & _ & _ & Hw & Hs). destruct (Hor i w Hw) as [?|[?|Hstuck]]; [by left|by right|]. left.
    unfold caller_step. rewrite Ec, Hw. cbn [mbind option_bind].
    apply worker_step_None in Hstuck as [Hex|(_ & Hs' & _)]; [|congruence]. unfold worker_exited. rewrite Hex. by eexists.
  - left. unfold caller_step. rewrite Ec. by eexists.
Qed.
End endings.

(** ** Runs *)
Definition promised `{DL : !DigestLib} (sha256 : list Z → list Z) messages (calls : list sha_call) (s : ShaSpec) : ShaSpec :=
  foldl (λ s call, run_sha_call (SS := sha_spec sha256) messages call s) s calls.

Section reachable.
Context `{DL : !DigestLib} (sha256 : list Z → list Z) `{DW : !DigestLaws DL sha256} (messages : Messages StoredMessage).

Lemma inv_start : sha_inv sha256 sha_start spec_start.
Proof.
  split; [done|apply Forall_nil_2|by intros h h' i (st & H & _)|]. split; [done|]. intros h. cbn. rewrite !lookup_empty. constructor.
Qed.

Lemma inv_step calls m calls' m' s : sha_step messages (calls, m) (calls', m') → sha_inv sha256 m s →
  ∃ s', sha_inv sha256 m' s' ∧ promised sha256 messages calls s = promised sha256 messages calls' s'.
Proof.
  intros H Hinv. inversion H; subst.
  - eexists. split; [by apply inv_call|done].
  - exists s. split; [by eapply inv_caller_step|done].
  - exists s. split; [by eapply inv_thread|done].
Qed.

Lemma inv_reachable prog c : rtc (sha_step messages) (prog, sha_start) c →
  ∃ s, sha_inv sha256 c.2 s ∧ promised sha256 messages prog spec_start = promised sha256 messages c.1 s.
Proof.
  intros H. remember (prog, sha_start) as c0 eqn:E. assert (∃ s, sha_inv sha256 c0.2 s ∧
    promised sha256 messages prog spec_start = promised sha256 messages c0.1 s) as Hs by (subst c0; exists spec_start; split; [apply inv_start|done]).
  clear E. induction H as [c|c1 c2 c3 H _ IH]; [done|]. apply IH. destruct Hs as (s & Hinv & ->). destruct c1, c2.
  by eapply inv_step in H.
Qed.

(** Answers are only added. *)
Lemma spec_call_answers call s : spec_answers s `prefix_of` spec_answers (run_sha_call (SS := sha_spec sha256) messages call s).
Proof.
  assert (∀ a s', spec_answers s' = spec_answers s → spec_answers s `prefix_of` spec_answers (spec_answer a s')) as Ha
    by (intros a s' E; cbn; rewrite E; by apply prefix_app_r).
  assert (∀ a s', spec_answers s' = spec_answers s → spec_answers s `prefix_of` spec_answers (sha_answer_now (ShaStates := sha_spec sha256) a s')) as Hb by apply Ha.
  assert (∀ h f, spec_answers s `prefix_of` spec_answers (f s) → spec_answers s `prefix_of` spec_answers (with_state (SS := sha_spec sha256) h f s)) as Hw
    by (intros h f Hf; unfold with_state; case_match; [done|by apply Hb]).
  unfold sha_error in *.
  destruct call; cbn [run_sha_call]; unfold ct_sha256_new, ct_sha256_update, ct_sha256_update_message_binary_argument_wide,
    ct_sha256_update_async, ct_sha256_update_owned_async, ct_sha256_update_external_owned_async, ct_sha256_finalize, ct_sha256_release, sha_error;
    repeat case_match; try (by apply Hb); try apply Hw; cbn [sha_update sha_update_async sha_finalize sha_drop sha_new sha_spec];
    repeat case_match; try (by apply Ha); done.
Qed.

Lemma promised_answers calls s : spec_answers s `prefix_of` spec_answers (promised sha256 messages calls s).
Proof.
  revert s. induction calls as [|call calls IH]; intros s; [done|]. etrans; [apply (spec_call_answers call)|apply IH].
Qed.

Lemma inv_answers m s : sha_inv sha256 m s → answers m `prefix_of` spec_answers s.
Proof.
  intros [_ _ _ Hc]. unfold caller_rel in Hc.
  destruct (caller m) as [|i [bytes| |] [len| |a]|i|i a|i a]; try done.
  - destruct Hc as [-> _]. done.
  - destruct Hc as (h & o & -> & _). by apply prefix_app_r.
  - destruct Hc as (o & w & -> & _). by apply prefix_app_r.
  - destruct Hc as (w & -> & _). by apply prefix_app_r.
  - destruct Hc as (o & w & -> & _). by apply prefix_app_r.
  - destruct Hc as (w & -> & _). by apply prefix_app_r.
  - destruct Hc as (w & -> & _). by apply prefix_app_r.
Qed.
End reachable.

(** ** Properties *)

(** C8: the digests in the background are the digests: in every interleaving of
    the caller with the threads it started, the answers so far begin what plain
    strings of octets would answer to the same calls, and are all of it when
    the calls are over: lengths, handles, errors, and for each finalized state
    the SHA-256 of the octets it was given in order, whether each update ran
    on the caller's thread or was queued.  No queue ever exceeds its bound. *)
Theorem sha256_refines `{DL : !DigestLib} sha256 `{DW : !DigestLaws DL sha256} messages prog calls m :
  rtc (sha_step messages) (prog, sha_start) (calls, m) →
  let answers_promised := spec_answers (promised sha256 messages prog spec_start) in
  answers m `prefix_of` answers_promised ∧
  (calls = [] → caller m = Between → answers m = answers_promised) ∧
  Forall (λ w, (length (queue w) ≤ ASYNC_SHA256_QUEUE_CAPACITY)%nat) (workers m).
Proof.
  intros H. apply (inv_reachable sha256) in H as (s & Hinv & E). cbn [fst snd] in *. cbv zeta. rewrite E. split_and!.
  - etrans; [by eapply inv_answers|apply promised_answers].
  - intros -> Hb. cbn. symmetry. by eapply idle_answers, inv_idle.
  - apply Hinv.
Qed.

(** C20: no call on a digest waits forever: from the start, every sequence of
    steps of the caller and the threads is finite, under any scheduling; and at
    every point the caller is between calls, or its [send], [recv] or [join]
    goes on, or some thread can step, so the last point of a run answers every
    call. *)
Theorem sha256_runs_end `{DL : !DigestLib} sha256 `{DW : !DigestLaws DL sha256} messages prog :
  sn (sha_step messages) (prog, sha_start) ∧
  ∀ calls m, rtc (sha_step messages) (prog, sha_start) (calls, m) →
    caller m = Between ∨ is_Some (caller_step m) ∨ ∃ i w, workers m !! i = Some w ∧ is_Some (worker_step w).
Proof.
  split.
  - apply (well_founded_lt_compat _ run_weight). intros c c'. apply sha_step_weight.
  - intros calls m H. apply (inv_reachable sha256) in H as (s & Hinv & _). cbn [snd] in Hinv.
    assert (caller m = Between ∨ caller m ≠ Between) as [Hb|Hne] by (destruct (caller m); [by left|by right..]); [by left|right].
    destruct (caller_progress sha256 m s Hinv Hne) as [?|(i & w & w' & Hw & Hw')]; [by left|right]. exists i, w. by split; [|exists w'].
Qed.

(** The counter of handles is never checked: the 2^31-th handle is negative,
    every call refuses it, and its state stays in the store. *)
Example sha256_handle_overflow `{DL : !DigestLib} (messages : Messages StoredMessage) :
  let m := machine_new (mkShaMachine (2 ^ 31) ∅ [] Between []) in
  answers m = [ShaCode (Ok (- 2 ^ 31))] ∧ is_Some (states m !! (2 ^ 31)%Z) ∧
  answers (ct_sha256_release (- 2 ^ 31) m) = [ShaCode (Ok (- 2 ^ 31)); ShaCode (Err ERR_INVALID_ARGUMENT)] ∧
  states (run_sha_call messages (ShaRelease (- 2 ^ 31)) m) = states m.
Proof. cbv zeta. split; [by vm_compute|]. split; [|split; by vm_compute]. exists (mkSha256State (Some digest_new) None). by vm_compute. Qed.

(** A digest to evaluate examples with: the sum of the octets. *)
Definition DemoDigest : DigestLib := {|
  DigestContext := Z;
  digest_new := 0;
  digest_update c bytes := foldl Z.add c bytes;
  digest_finish c := [c mod 256];
|}.
Definition demo_digest (octets : list Z) : list Z := [foldl Z.add 0 octets mod 256].

#[global] Instance demo_digest_laws : DigestLaws DemoDigest demo_digest.
Proof.
  split. intros chunks. cbn. unfold demo_digest. do 2 f_equal. generalize 0.
  induction chunks as [|c chunks IH]; intros z; [done|]. cbn. rewrite foldl_app. apply IH.
Qed.

Definition demo_sha_calls : list sha_call :=
  [ShaNew; ShaUpdate 1 (Some [1; 2]); ShaUpdateAsync 1 (Some [3]) true; ShaFinalize 1 (Some 32)].

(** The caller first, the threads when it is blocked. *)
Fixpoint demo_sha_run `{DL : !DigestLib} (messages : Messages StoredMessage) (fuel : nat) (calls : list sha_call) (m : ShaMachine) :
    list sha_call * ShaMachine :=
  match fuel with
  | O => (calls, m)
  | S fuel =>
      match caller_step m, caller m, calls with
      | Some m', _, _ => demo_sha_run messages fuel calls m'
      | None, Between, call :: calls => demo_sha_run messages fuel calls (run_sha_call messages call m)
      | _, _, _ =>
          match workers m !! 0%nat ≫= worker_step with
          | Some w' => demo_sha_run messages fuel calls (set_workers (<[0%nat := w']> (workers m)) m)
          | None => (calls, m)
          end
      end
  end.

Lemma demo_sha_run_steps `{DL : !DigestLib} messages fuel calls m :
  rtc (sha_step messages) (calls, m) (demo_sha_run messages fuel calls m).
Proof.
  revert calls m. induction fuel as [|fuel IH]; intros calls m; [done|]. cbn [demo_sha_run].
  destruct (caller_step m) as [m'|] eqn:E; [eapply rtc_l; [by apply ShaCaller_|apply IH]|].
  assert (rtc (sha_step messages) (calls, m) match workers m !! 0%nat ≫= worker_step with
    | Some w' => demo_sha_run messages fuel calls (set_workers (<[0%nat := w']> (workers m)) m) | None => (calls, m) end) as Hthread.
  { destruct (workers m !! 0%nat ≫= worker_step) as [w'|] eqn:Ew; [|done]. apply bind_Some in Ew as (w & Hw & Hw').
    eapply rtc_l; [by eapply ShaThread|apply IH]. }
  destruct (caller m) eqn:Ec; [|done..]. destruct calls as [|call calls]; [done|].
  eapply rtc_l; [by apply ShaCall|apply IH].
Qed.

Definition demo_sha_end : list sha_call * ShaMachine := demo_sha_run (DL := DemoDigest) fresh_messages 40 demo_sha_calls sha_start.

Lemma sha256_refines_witness :
  answers (DL := DemoDigest) demo_sha_end.2 = [ShaCode (Ok 1); ShaCode (Ok 2); ShaCode (Ok 1); ShaDigest [6]] ∧
  answers (DL := DemoDigest) demo_sha_end.2
  = spec_answers (promised (DL := DemoDigest) demo_digest fresh_messages demo_sha_calls spec_start).
Proof.
  split; [vm_compute; reflexivity|].
  apply (sha256_refines (DL := DemoDigest) demo_digest fresh_messages demo_sha_calls demo_sha_end.1 demo_sha_end.2).
  - rewrite <-surjective_pairing. apply demo_sha_run_steps.
  - vm_compute. reflexivity.
  - vm_compute. reflexivity.
Defined.

Lemma sha256_runs_end_witness : sn (sha_step (DL := DemoDigest) fresh_messages) (demo_sha_calls, sha_start).
Proof. apply (sha256_runs_end (DL := DemoDigest) demo_digest fresh_messages demo_sha_calls). Defined.
