(* ===== verification/WriteReceipts.v ===== *)
(** * Receipts across the C boundary

    [ct_ffi/src/runtime/write_receipts.rs]: write receipts behind handles, in a
    store with a quota, and the sends that answer with one. *)
From stdpp Require Import gmap relations.
From S2P Require Import Prelude Bytes RawFrame OutboundFrame Handles OwnedBuffers Registry FfiErrors.

(** ** A store with a quota

    [ReceiptStore], and [FrameStore] of [native_frames.rs]. *)
Record Quota (T : Type) : Type := mkQuota {
  quota_table : Table T;
  quota_count : Z;
  quota_maximum : Z;
}.
Arguments mkQuota {T}. Arguments quota_table {T}. Arguments quota_count {T}. Arguments quota_maximum {T}.

Definition quota_new {T} (maximum : Z) : Quota T := mkQuota resource_table 0 maximum.

Definition set_table {T} (t : Table T) (s : Quota T) : Quota T := mkQuota t (quota_count s) (quota_maximum s).
(** [fetch_update] and [fetch_sub] of the count *)
Definition claim_quota {T} (s : Quota T) : option (Quota T) :=
  if quota_count s <? quota_maximum s then Some (mkQuota (quota_table s) (quota_count s + 1) (quota_maximum s)) else None.
Definition return_quota {T} (s : Quota T) : Quota T := mkQuota (quota_table s) (quota_count s - 1) (quota_maximum s).

(** [FrameStore::insert] and [ReceiptStore::reserve]; [full] is their error for
    a used quota. *)
Definition quota_insert {T} (full : ErrorCode) (s : Quota T) (x : T) : outcome ErrorCode Z * Quota T :=
  match claim_quota s with
  | None => (Err full, s)
  | Some s =>
      match insert_resource (quota_table s) x with
      | (Ok handle, t) => (Ok handle, set_table t s)
      | (_, t) => (Err ERR_HANDLE_UNAVAILABLE, return_quota (set_table t s))
      end
  end.

(** The removal of an entry. *)
Definition quota_remove {T} (s : Quota T) (handle : Z) : Quota T :=
  return_quota (set_table (snd (table_remove (quota_table s) handle)) s).

(** ** Receipts *)
Definition ReceiptStore : Type := Quota (option WriteReceipt).
Definition MAX_RECEIPTS : Z := 8192.

Definition reserve_receipt (s : ReceiptStore) : outcome ErrorCode Z * ReceiptStore :=
  quota_insert ERR_WRITE_RECEIPT_QUOTA_EXCEEDED s None.

(** [Reservation::commit]: the entry is still there. *)
Definition commit_receipt (handle : Z) (receipt : WriteReceipt) (s : ReceiptStore) : outcome ErrorCode Z * ReceiptStore :=
  match table_get (quota_table s) handle with
  | Some _ =>
      (Ok handle, set_table (mkTable (next_id (quota_table s)) (<[handle := Some receipt]> (entries (quota_table s)))) s)
  | None => (Panic, s)
  end.

Definition WriteOutcome_code (o : WriteOutcome) : Z := match o with Pending => 0 | Written => 1 | Abandoned => 2 end.

Definition receipt_outcome (s : ReceiptStore) (rs : Receipts) (handle : Z) : outcome ErrorCode Z :=
  if handle <=? 0 then Err ERR_INVALID_ARGUMENT
  else
    receipt ← ok_or ERR_INVALID_ARGUMENT (entry ← table_get (quota_table s) handle; entry);
    Ok (WriteOutcome_code (outcome_of receipt rs)).

Definition receipt_release (handle : Z) (s : ReceiptStore) : outcome ErrorCode unit * ReceiptStore :=
  if handle <=? 0 then (Err ERR_INVALID_ARGUMENT, s)
  else
    match table_get (quota_table s) handle with
    | Some (Some _) => (Ok tt, quota_remove s handle)
    | _ => (Err ERR_INVALID_ARGUMENT, s)
    end.

(** ** Sends

    The receipts' channels and the connections that a send works on. *)
Section sends.
Context {WsHandshake H2Handshake H3Handshake H3Connection H3Stream Request Config : Type}.
#[local] Notation Connections :=
  (gmap Z (@ConnectionEntry WsHandshake H2Handshake H3Handshake H3Connection H3Stream Request Config)).

Record Outbox : Type := mkOutbox {
  ob_receipts : ReceiptStore;
  ob_channels : Receipts;
  ob_connections : Connections;
}.

(** A frame that is not queued is dropped, with its guard. *)
Definition enqueue_tracked (id : Z) (f : OutboundFrame) (channels : Receipts) (cs : Connections) :
    outcome RegistryError WriteReceipt * Receipts * Connections :=
  let '(frame, receipt, channels) := tracked f channels in
  let '(r, cs) := enqueue_frame id frame cs in
  match r with
  | Ok _ => (Ok receipt, channels, cs)
  | Err e => (Err e, match completion frame with Some g => drop_guard g channels | None => channels end, cs)
  | Panic => (Panic, channels, cs)
  | NoFuel => (NoFuel, channels, cs)
  end.

Definition send_wamp_message_tracked (id : Z) (payload : list Z) := enqueue_tracked id (OutboundFrame_message payload).
Definition send_wamp_segments_tracked (id : Z) (segs : list (list Z)) := enqueue_tracked id (message_segments segs).
Definition drain_wamp_writes (id : Z) := enqueue_tracked id barrier.

(** [submit_tracked]; an error drops the reservation. *)
Definition submit_tracked (submit : Receipts → Connections → outcome RegistryError WriteReceipt * Receipts * Connections)
    (o : Outbox) : outcome ErrorCode Z * Outbox :=
  match reserve_receipt (ob_receipts o) with
  | (Ok handle, receipts) =>
      let '(r, channels, cs) := submit (ob_channels o) (ob_connections o) in
      match r with
      | Ok receipt => let '(r, receipts) := commit_receipt handle receipt receipts in (r, mkOutbox receipts channels cs)
      | Err e =>
          (match map_error (InRegistry e) with Some code => Err code | None => Panic end,
           mkOutbox (quota_remove receipts handle) channels cs)
      | Panic => (Panic, mkOutbox (quota_remove receipts handle) channels cs)
      | NoFuel => (NoFuel, mkOutbox (quota_remove receipts handle) channels cs)
      end
  | (Err code, receipts) => (Err code, mkOutbox receipts (ob_channels o) (ob_connections o))
  | (r, receipts) => (r, mkOutbox receipts (ob_channels o) (ob_connections o))
  end.

(** A status for C: a handle or an error. *)
Definition c_status (r : outcome ErrorCode Z) : Z := match r with Ok n => n | Err e => error_code e | Panic | NoFuel => 0 end.

Definition ct_owned_buffer_send_tracked (connection buffer : Z) (buffers : BufferStore) (o : Outbox) : Z * BufferStore * Outbox :=
  submit_frozen buffer (λ payload o,
    let '(r, o) := submit_tracked (send_wamp_message_tracked (connection mod 2 ^ 32) payload) o in (c_status r, o)) buffers o.

Definition ct_connection_drain_writes (connection : Z) (o : Outbox) : outcome ErrorCode Z * Outbox :=
  submit_tracked (drain_wamp_writes (connection mod 2 ^ 32)) o.

Definition ct_write_receipt_state (handle : Z) (o : Outbox) : outcome ErrorCode Z :=
  receipt_outcome (ob_receipts o) (ob_channels o) handle.

Definition ct_write_receipt_release (handle : Z) (o : Outbox) : outcome ErrorCode unit * Outbox :=
  let '(r, receipts) := receipt_release handle (ob_receipts o) in (r, mkOutbox receipts (ob_channels o) (ob_connections o)).

(** The token of a finalizer is the handle. *)
Definition ct_write_receipt_finalizer (token : Z) (o : Outbox) : Outbox :=
  if (0 <? token) && (token <=? I32_MAX) then snd (ct_write_receipt_release token o) else o.
End sends.
Arguments mkOutbox {_ _ _ _ _ _ _}.

(** ** What a send does *)
Section sent_frames.
Context {WsHandshake H2Handshake H3Handshake H3Connection H3Stream Request Config : Type}.
#[local] Notation Entry := (@ConnectionEntry WsHandshake H2Handshake H3Handshake H3Connection H3Stream Request Config).
#[local] Notation Connections := (gmap Z Entry).

(** The frames a connection has yet to write. *)
Definition frames_of (e : Entry) : option (list OutboundFrame) :=
  match record e with
  | RawSocketRecord _ _ _ _ _ tx | WebSocketRecord _ _ _ tx => Some (channel_queue tx)
  | _ => None
  end.

(** [f] is queued last on the connection [id]. *)
Definition queued (id : Z) (f : OutboundFrame) (cs cs' : Connections) : Prop :=
  ∃ e e' frames, cs !! id = Some e ∧ cs' = <[id := e']> cs ∧
    frames_of e = Some frames ∧ frames_of e' = Some (frames ++ [f]).

Definition queue_error (id : Z) (e : RegistryError) : Prop :=
  e = SendQueueFull id ∨ e = ConnectionNotFound id ∨ ∃ q, e = UnsupportedProtocol id q.

(** A frame is queued last, or nothing changes. *)
Lemma enqueue_frame_exact id f (cs : Connections) :
  let '(r, cs') := enqueue_frame id f cs in
  (r = Ok tt ∧ queued id f cs cs') ∨ (∃ e, r = Err e ∧ queue_error id e) ∧ cs' = cs.
Proof.
  unfold enqueue_frame, in_connection, get_connection, queued, queue_error.
  destruct (cs !! id) as [e|]; cbn [ok_or mbind outcome_bind]; [|right; split; [eexists; split; [done|naive_solver]|done]].
  assert (∀ tx store, (∀ tx', frames_of (set_record e (store tx')) = Some (channel_queue tx')) → frames_of e = Some (channel_queue tx) →
    let '(r, cs') := match sent_on id e (try_send f tx) store with
      | Ok (a, e) => (Ok a, <[id := e]> cs) | Err err => (Err err, cs) | Panic => (Panic, cs) | NoFuel => (NoFuel, cs) end in
    (r = Ok tt ∧ ∃ e0 e' frames, Some e = Some e0 ∧ cs' = <[id := e']> cs ∧
       frames_of e0 = Some frames ∧ frames_of e' = Some (frames ++ [f])) ∨
    (∃ e, r = Err e ∧ (e = SendQueueFull id ∨ e = ConnectionNotFound id ∨ ∃ q, e = UnsupportedProtocol id q)) ∧ cs' = cs) as Hsend.
  { intros tx store Hstore Hfr. unfold try_send. destruct (channel_open tx); cbn [negb sent_on]; [|right; split; [eexists; split; [done|naive_solver]|done]].
    destruct (_ <=? _); cbn [sent_on]; [right; split; [eexists; split; [done|naive_solver]|done]|]. left. split; [done|]. do 3 eexists. split_and!; [done..|].
    rewrite Hstore. done. }
  destruct (record e) as [s x fs fr hb tx| | |s fr hb tx| | |] eqn:E; unfold unsupported; try (right; split; [eexists; split; [done|naive_solver]|done]; fail).
  - apply Hsend; [done|]. unfold frames_of. by rewrite E.
  - apply Hsend; [done|]. unfold frames_of. by rewrite E.
Qed.

Lemma queue_error_code id e : queue_error id e →
  ∃ code, map_error (InRegistry e) = Some code ∧ code ≠ ERR_UNSUPPORTED.
Proof. intros [->|[->|[q ->]]]; by eexists. Qed.

(** An insertion claims a free handle and a place, or leaves both. *)
Lemma quota_insert_exact {T} full (s : Quota T) x : 0 ≤ next_id (quota_table s) →
  let '(r, s') := quota_insert full s x in
  (∃ handle, r = Ok handle ∧ 0 < handle ∧ entries (quota_table s) !! handle = None ∧
     entries (quota_table s') = <[handle := x]> (entries (quota_table s)) ∧ quota_count s' = quota_count s + 1) ∨
  (r = Err full ∨ r = Err ERR_HANDLE_UNAVAILABLE) ∧ entries (quota_table s') = entries (quota_table s) ∧
    quota_count s' = quota_count s.
Proof.
  intros Hn. unfold quota_insert, claim_quota. destruct (quota_count s <? quota_maximum s); [|right; auto].
  unfold insert_resource, advance_resource. cbn [quota_table].
  destruct (Z.eqb_spec (next_id (quota_table s)) 0); cbn [orb];
    [right; cbn; split_and!; [auto|done|lia]|]. destruct (_ <? _); [right; cbn; split_and!; [auto|done|lia]|].
  destruct (entries (quota_table s) !! next_id (quota_table s)) eqn:E; [right; cbn; split_and!; [auto|done|lia]|left].
  exists (next_id (quota_table s)). cbn. split_and!; [done|lia|done|done|done].
Qed.

Lemma quota_remove_inserted {T} (s s' : Quota T) handle x : entries (quota_table s) !! handle = None →
  entries (quota_table s') = <[handle := x]> (entries (quota_table s)) → quota_count s' = quota_count s + 1 →
  entries (quota_table (quota_remove s' handle)) = entries (quota_table s) ∧ quota_count (quota_remove s' handle) = quota_count s.
Proof. intros Hf He Hc. cbn. rewrite He, delete_insert_id by done. split; [done|lia]. Qed.

#[local] Notation Outbox := (@Outbox WsHandshake H2Handshake H3Handshake H3Connection H3Stream Request Config).

(** The receipts' counter is unsigned. *)
Definition outbox_ok (o : Outbox) : Prop := 0 ≤ next_id (quota_table (ob_receipts o)).

(** A rejected send leaves nothing behind: no frame, no receipt, no claimed
    place. *)
Definition unsent (o o' : Outbox) : Prop :=
  ob_connections o' = ob_connections o ∧
  entries (quota_table (ob_receipts o')) = entries (quota_table (ob_receipts o)) ∧
  quota_count (ob_receipts o') = quota_count (ob_receipts o).

(** An accepted one has its frame queued, and a fresh receipt that is pending. *)
Definition sent_tracked (id : Z) (f : OutboundFrame) (handle : Z) (o o' : Outbox) : Prop :=
  0 < handle ∧ table_get (quota_table (ob_receipts o)) handle = None ∧ ct_write_receipt_state handle o' = Ok 0 ∧
  ∃ g, queued id (mkOutboundFrame (frame_type f) (payload_len f) (segments f) (deferred_segment f) (file_segment f)
                    (suffix_segments f) (Some g)) (ob_connections o) (ob_connections o').

Lemma submit_tracked_exact id f o : outbox_ok o →
  let '(r, o') := submit_tracked (enqueue_tracked id f) o in
  (∃ handle, r = Ok handle ∧ sent_tracked id f handle o o') ∨ (∃ code, r = Err code) ∧ unsent o o'.
Proof.
  intros Ho. unfold submit_tracked, reserve_receipt.
  pose proof (quota_insert_exact ERR_WRITE_RECEIPT_QUOTA_EXCEEDED (ob_receipts o) None Ho) as Hq.
  destruct (quota_insert _ _ _) as [r receipts]. destruct Hq as [(handle & -> & Hpos & Hfree & He & Hc)|(Hr & He & Hc)].
  2: { destruct Hr as [-> | ->]; right; (split; [by eexists|]); by split_and!. }
  destruct (quota_remove_inserted _ _ _ _ Hfree He Hc) as [He' Hc'].
  unfold enqueue_tracked, tracked. cbn [WriteGuard_new].
  pose proof (enqueue_frame_exact id (mkOutboundFrame (frame_type f) (payload_len f) (segments f) (deferred_segment f)
    (file_segment f) (suffix_segments f) (Some (mkWriteGuard (next_channel (ob_channels o)) true))) (ob_connections o)) as Hs.
  destruct (enqueue_frame id _ (ob_connections o)) as [r cs]. destruct Hs as [[-> Hs]|[(e & -> & Herr) ->]].
  - unfold commit_receipt, table_get. rewrite He, lookup_insert_eq. left. exists handle. split; [done|].
    split; [done|]. split; [done|]. split; [|by eexists].
    unfold ct_write_receipt_state, receipt_outcome, table_get. rewrite (proj2 (Z.leb_gt _ _)) by done.
    cbn [ob_receipts ob_channels set_table quota_table entries]. rewrite lookup_insert_eq. cbn [mbind option_bind ok_or outcome_bind].
    unfold outcome_of. cbn [outcomes]. by rewrite lookup_insert_eq.
  - destruct (queue_error_code _ _ Herr) as (code & -> & _). right. split; [by eexists|]. by split_and!.
Qed.
End sent_frames.

(** ** Many threads

    What threads are in the middle of: a claimed place without a handle, a
    handle to publish, a place to give back. *)
Inductive quota_pc (T : Type) : Type := Claimed (x : T) | Publishing (handle : Z) (x : T) | Returning.
Arguments Claimed {T}. Arguments Publishing {T}. Arguments Returning {T}.

Record SharedQuota (T : Type) : Type := mkSharedQuota { shared_quota : Quota T; quota_threads : list (quota_pc T) }.
Arguments mkSharedQuota {T}. Arguments shared_quota {T}. Arguments quota_threads {T}.

(** One atomic operation of a thread; an entry can be overwritten where it is,
    by [commit]. *)
Inductive quota_step {T} : SharedQuota T → SharedQuota T → Prop :=
  | QuotaClaim s s' ts x : claim_quota s = Some s' →
      quota_step (mkSharedQuota s ts) (mkSharedQuota s' (Claimed x :: ts))
  | QuotaAdvance s ts1 ts2 x next : advance_resource (next_id (quota_table s)) = Some next →
      quota_step (mkSharedQuota s (ts1 ++ Claimed x :: ts2))
        (mkSharedQuota (set_table (mkTable next (entries (quota_table s))) s)
           (ts1 ++ Publishing (next_id (quota_table s)) x :: ts2))
  | QuotaExhausted s ts1 ts2 x : advance_resource (next_id (quota_table s)) = None →
      quota_step (mkSharedQuota s (ts1 ++ Claimed x :: ts2)) (mkSharedQuota s (ts1 ++ Returning :: ts2))
  | QuotaPublish s ts1 ts2 handle x : entries (quota_table s) !! handle = None →
      quota_step (mkSharedQuota s (ts1 ++ Publishing handle x :: ts2))
        (mkSharedQuota (set_table (mkTable (next_id (quota_table s)) (<[handle := x]> (entries (quota_table s)))) s) (ts1 ++ ts2))
  | QuotaOccupied s ts1 ts2 handle x : is_Some (entries (quota_table s) !! handle) →
      quota_step (mkSharedQuota s (ts1 ++ Publishing handle x :: ts2)) (mkSharedQuota s (ts1 ++ Returning :: ts2))
  | QuotaRemove s ts handle : is_Some (entries (quota_table s) !! handle) →
      quota_step (mkSharedQuota s ts)
        (mkSharedQuota (set_table (snd (table_remove (quota_table s) handle)) s) (Returning :: ts))
  | QuotaReturn s ts1 ts2 :
      quota_step (mkSharedQuota s (ts1 ++ Returning :: ts2)) (mkSharedQuota (return_quota s) (ts1 ++ ts2))
  | QuotaOverwrite s ts handle x : is_Some (entries (quota_table s) !! handle) →
      quota_step (mkSharedQuota s ts)
        (mkSharedQuota (set_table (mkTable (next_id (quota_table s)) (<[handle := x]> (entries (quota_table s)))) s) ts).

(** The count is of the entries and the places in flight. *)
Definition quota_inv {T} (maximum : Z) (s : SharedQuota T) : Prop :=
  quota_count (shared_quota s) = Z.of_nat (size (entries (quota_table (shared_quota s)))) + zlen (quota_threads s) ∧
  quota_count (shared_quota s) ≤ maximum ∧ quota_maximum (shared_quota s) = maximum.

Lemma quota_inv_step {T} maximum (s s' : SharedQuota T) : quota_inv maximum s → quota_step s s' → quota_inv maximum s'.
Proof.
  unfold quota_inv. intros (Hc & Hm & Hmax) H.
  destruct H as [s s' ts x H|s ts1 ts2 x next H|s ts1 ts2 x H|s ts1 ts2 handle x H|s ts1 ts2 handle x H|s ts handle [y H]|s ts1 ts2|s ts handle x [y H]];
    cbn [shared_quota quota_threads set_table return_quota quota_count quota_maximum quota_table entries table_remove snd] in *;
    rewrite ?zlen_app, ?zlen_cons in *.
  - unfold claim_quota in H. destruct (Z.ltb_spec (quota_count s) (quota_maximum s)); [|done]. injection H as <-.
    cbn [quota_count quota_maximum quota_table]. lia.
  - lia.
  - lia.
  - rewrite map_size_insert_None by done. lia.
  - lia.
  - rewrite map_size_delete_Some by (by eexists).
    assert (size (entries (quota_table s)) ≠ 0%nat) as Hne by (intros E; apply map_size_empty_iff in E; by rewrite E in H). lia.
  - lia.
  - rewrite map_size_insert_Some by (by eexists). lia.
Qed.

(** ** Properties *)

(** C11: a quota holds under every interleaving: from an empty store, whatever
    threads reserve, commit, insert, take and release, and wherever each of
    them stands between its atomic steps, there are never more entries than the
    quota allows; and when no thread is in the middle of an operation the count
    is exactly the number of entries, so no place is lost by an error. *)
Theorem quota_bounded {T} maximum (s : SharedQuota T) :
  0 ≤ maximum → rtc quota_step (mkSharedQuota (quota_new maximum) []) s →
  Z.of_nat (size (entries (quota_table (shared_quota s)))) ≤ maximum ∧
  (quota_threads s = [] → quota_count (shared_quota s) = Z.of_nat (size (entries (quota_table (shared_quota s))))).
Proof.
  intros Hmax H. assert (quota_inv maximum s) as (Hc & Hm & _).
  { assert (quota_inv maximum (mkSharedQuota (@quota_new T maximum) [])) as H0 by (split_and!; cbn; [done|lia|done]).
    induction H as [|s1 s2 s3 Hs _ IH]; [done|]. apply IH. by eapply quota_inv_step. }
  zlen_facts. split; [lia|]. intros Ht. rewrite Ht in Hc. change (zlen (@nil (quota_pc T))) with 0 in Hc. lia.
Qed.

Lemma quota_bounded_witness :
  ∃ s : SharedQuota Z, rtc quota_step (mkSharedQuota (quota_new 1) []) s ∧ quota_count (shared_quota s) = 1 ∧
    Z.of_nat (size (entries (quota_table (shared_quota s)))) ≤ 1.
Proof.
  eexists. assert (rtc quota_step (mkSharedQuota (@quota_new Z 1) [])
    (mkSharedQuota (mkQuota (mkTable 2 (<[1 := 7]> ∅)) 1 1) [])) as H.
  { eapply rtc_l; [exact (QuotaClaim (quota_new 1) _ [] 7 eq_refl)|].
    eapply rtc_l; [exact (QuotaAdvance (mkQuota resource_table 1 1) [] [] 7 2 eq_refl)|].
    eapply rtc_l; [exact (QuotaPublish (mkQuota (mkTable 2 ∅) 1 1) [] [] 1 7 eq_refl)|]. apply rtc_refl. }
  split; [exact H|]. split; [reflexivity|].
  apply (quota_bounded 1 _ ltac:(lia) H).
Defined.
