(* ===== verification/ForwardHandlers.v ===== *)
(** * The forwarding functions of the C boundary

    A message behind a handle is encoded for the serializer that a connection
    negotiated, and queued on it: [ct_forward_*] of [ffi.rs], with the queries
    that tell beforehand whether that works. *)
From stdpp Require Import gmap.
From S2P Require Import Prelude Bytes Text TextOps WampTypes RawFrame Msgpack MsgpackMessage WampValues Cbor Json CborScanner FbProjection FbWriter FbSegments WampParse FileSegments OutboundFrame Handles Registry FfiErrors WriteReceipts BinaryArguments WireElements Forwarding ForwardRoundtrip DemoForward ForwardedMessages ForwardOutcomes E2ee E2eeSessions.

Definition serializer_from_id (value : Z) : outcome ErrorCode Serializer :=
  if value =? 1 then Ok Json
  else if value =? 2 then Ok MessagePack
  else if value =? 3 then Ok Cbor
  else if value =? 4 then Ok Ubjson
  else if value =? 5 then Ok Flatbuffers
  else Err ERR_INVALID_ARGUMENT.

(** A flag of three values. *)
Definition optional_flag (flag : Z) : option bool :=
  if flag =? -1 then None else if flag =? 0 then Some false else Some true.

Definition map_registry_error {A} (r : outcome RegistryError A) : outcome ErrorCode A :=
  match r with
  | Ok a => Ok a
  | Err e => match map_error (InRegistry e) with Some code => Err code | None => Panic end
  | Panic => Panic
  | NoFuel => NoFuel
  end.

Section handlers.
Context `{SL : !SerdeLib} `{RL : !RmpLib} `{FB : !FlatBufferLib}.
Context {WsHandshake H2Handshake H3Handshake H3Connection H3Stream Request Config : Type}.
#[local] Notation Connections :=
  (gmap Z (@ConnectionEntry WsHandshake H2Handshake H3Handshake H3Connection H3Stream Request Config)).
Context (messages : Messages ParsedMessage).

Definition send_wamp_segments (id : Z) (segments : list (list Z)) (cs : Connections) :
    outcome RegistryError unit * Connections :=
  enqueue_frame id (message_segments segments) cs.

Definition forwarding_serializer_for_connection (m : ParsedMessage) (connection_id : Z) (cs : Connections) :
    outcome ErrorCode Serializer :=
  if connection_id <=? 0 then Err ERR_INVALID_ARGUMENT
  else
    target ← map_registry_error (connection_serializer connection_id cs);
    reusable_forwarding_serializer m target.

(** 1 for eligible, 0 for not *)
Definition ct_message_can_forward_to_v1_wide (handle serializer_id : Z) : outcome ErrorCode Z :=
  if handle <=? 0 then Err ERR_INVALID_ARGUMENT
  else
    target ← serializer_from_id serializer_id;
    m ← ok_or ERR_INVALID_ARGUMENT (retain_allocation messages handle);
    Ok (match reusable_forwarding_serializer m target with Ok _ => 1 | _ => 0 end).

Definition ct_message_can_forward_to_connection_v1_wide (handle connection_id : Z) (cs : Connections) : outcome ErrorCode Z :=
  if (handle <=? 0) || (connection_id <=? 0) then Err ERR_INVALID_ARGUMENT
  else
    m ← ok_or ERR_INVALID_ARGUMENT (retain_allocation messages handle);
    match forwarding_serializer_for_connection m connection_id cs with
    | Ok _ => Ok 1
    | Err ERR_UNSUPPORTED => Ok 0
    | Err code => Err code
    | Panic => Panic
    | NoFuel => NoFuel
    end.

(** What the functions share: [encode] under [with_message], then the send. *)
Definition forward_encoded (handle connection_id : Z) (encode : ParsedMessage → Serializer → outcome ErrorCode (list (list Z)))
    (cs : Connections) : outcome ErrorCode unit * Connections :=
  match
    m ← ok_or ERR_INVALID_ARGUMENT (retain_allocation messages handle);
    s ← forwarding_serializer_for_connection m connection_id cs;
    encode m s
  with
  | Ok segments => let '(r, cs) := send_wamp_segments connection_id segments cs in (map_registry_error r, cs)
  | Err code => (Err code, cs)
  | Panic => (Panic, cs)
  | NoFuel => (NoFuel, cs)
  end.

Definition ct_forward_publish_event_wide (handle connection_id subscription_id publication_id publisher_present publisher_session : Z)
    (topic : option (list Z)) (cs : Connections) : outcome ErrorCode unit * Connections :=
  if handle <=? 0 then (Err ERR_INVALID_ARGUMENT, cs)
  else
    match read_optional_str topic with
    | Ok topic =>
        let publisher := if negb (publisher_present =? 0) then Some publisher_session else None in
        forward_encoded handle connection_id (λ m s,
          encode_event_segments_for_serializer m s subscription_id publication_id publisher topic) cs
    | _ => (Err ERR_INVALID_ARGUMENT, cs)
    end.

(** The call of [ct_forward_call_invocation_wide] has an
    [invocation_progress_flag] of -1. *)
Definition forward_call_invocation_impl (handle connection_id invocation_id registration_id caller_present caller_session : Z)
    (caller_authid caller_authrole procedure : option (list Z)) (receive_progress_flag invocation_progress_flag : Z)
    (cs : Connections) : outcome ErrorCode unit * Connections :=
  if handle <=? 0 then (Err ERR_INVALID_ARGUMENT, cs)
  else
    match
      procedure ← read_optional_str procedure;
      caller_authid ← read_optional_str caller_authid;
      caller_authrole ← read_optional_str caller_authrole;
      Ok (mkCallerDetails (if negb (caller_present =? 0) then Some caller_session else None) caller_authid caller_authrole
            procedure (optional_flag receive_progress_flag) (optional_flag invocation_progress_flag))
    with
    | Ok c => forward_encoded handle connection_id (λ m s,
        encode_invocation_segments_for_serializer m s invocation_id registration_id c) cs
    | _ => (Err ERR_INVALID_ARGUMENT, cs)
    end.

Definition ct_forward_call_invocation_wide (handle connection_id invocation_id registration_id caller_present caller_session : Z)
    (caller_authid caller_authrole procedure : option (list Z)) (receive_progress_flag : Z) :
    Connections → outcome ErrorCode unit * Connections :=
  forward_call_invocation_impl handle connection_id invocation_id registration_id caller_present caller_session
    caller_authid caller_authrole procedure receive_progress_flag (-1).

Definition ct_forward_result_from_yield_wide (handle connection_id request_id progress_flag : Z) (cs : Connections) :
    outcome ErrorCode unit * Connections :=
  if handle <=? 0 then (Err ERR_INVALID_ARGUMENT, cs)
  else
    forward_encoded handle connection_id (λ m s,
      encode_result_segments_for_serializer m s request_id (negb (progress_flag =? 0))) cs.

Definition ct_forward_result_from_call_wide (handle connection_id request_id : Z) (cs : Connections) :
    outcome ErrorCode unit * Connections :=
  if handle <=? 0 then (Err ERR_INVALID_ARGUMENT, cs)
  else forward_encoded handle connection_id (λ m s, encode_result_segments_from_call_for_serializer m s request_id) cs.

Definition ct_forward_error_from_error_wide (handle connection_id request_type request_id : Z) (cs : Connections) :
    outcome ErrorCode unit * Connections :=
  if handle <=? 0 then (Err ERR_INVALID_ARGUMENT, cs)
  else forward_encoded handle connection_id (λ m s, encode_error_segments_for_serializer m s request_type request_id) cs.
End handlers.

(** ** One call *)
Inductive router_request : Type :=
  | RequestEvent (subscription_id publication_id publisher_present publisher_session : Z) (topic : option (list Z))
  | RequestInvocation (invocation_id registration_id caller_present caller_session : Z)
      (caller_authid caller_authrole procedure : option (list Z)) (receive_progress_flag invocation_progress_flag : Z)
  | RequestResult (request_id progress_flag : Z)
  | RequestEcho (request_id : Z)
  | RequestError (request_type request_id : Z).

(** What the arguments from C mean. *)
Definition requested (r : router_request) : outcome ErrorCode ForwardCall :=
  match r with
  | RequestEvent subscription publication present session topic =>
      topic ← read_optional_str topic;
      Ok (ForwardEvent subscription publication (if negb (present =? 0) then Some session else None) topic)
  | RequestInvocation invocation registration present session authid authrole procedure receive progress =>
      procedure ← read_optional_str procedure;
      authid ← read_optional_str authid;
      authrole ← read_optional_str authrole;
      Ok (ForwardInvocation invocation registration
            (mkCallerDetails (if negb (present =? 0) then Some session else None) authid authrole procedure
               (optional_flag receive) (optional_flag progress)))
  | RequestResult request progress => Ok (ForwardResult request (negb (progress =? 0)))
  | RequestEcho request => Ok (ForwardEcho request)
  | RequestError request_type request => Ok (ForwardError request_type request)
  end.

Section runs.
Context `{SL : !SerdeLib} `{RL : !RmpLib} `{FB : !FlatBufferLib}.
Context {WsHandshake H2Handshake H3Handshake H3Connection H3Stream Request Config : Type}.
#[local] Notation Entry := (@ConnectionEntry WsHandshake H2Handshake H3Handshake H3Connection H3Stream Request Config).
#[local] Notation Connections := (gmap Z Entry).

Definition run_forward (messages : Messages ParsedMessage) (handle connection_id : Z) (r : router_request) :
    Connections → outcome ErrorCode unit * Connections :=
  match r with
  | RequestEvent subscription publication present session topic =>
      ct_forward_publish_event_wide messages handle connection_id subscription publication present session topic
  | RequestInvocation invocation registration present session authid authrole procedure receive progress =>
      forward_call_invocation_impl messages handle connection_id invocation registration present session
        authid authrole procedure receive progress
  | RequestResult request progress => ct_forward_result_from_yield_wide messages handle connection_id request progress
  | RequestEcho request => ct_forward_result_from_call_wide messages handle connection_id request
  | RequestError request_type request => ct_forward_error_from_error_wide messages handle connection_id request_type request
  end.

Lemma read_optional_str_error p code : read_optional_str p = Err code → code = ERR_INVALID_ARGUMENT.
Proof. unfold read_optional_str. destruct p as [[|b l]|]; try discriminate. by destruct (utf8_decode (b :: l)); intros [= <-]. Qed.

Lemma read_optional_str_returns p : read_optional_str p ≠ Panic ∧ read_optional_str p ≠ NoFuel.
Proof. unfold read_optional_str. destruct p as [[|b l]|]; try done. by destruct (utf8_decode (b :: l)). Qed.

(** Every function is [forward_encoded] on what its arguments mean. *)
Lemma run_forward_eq messages handle id r cs : run_forward messages handle id r cs =
  if handle <=? 0 then (Err ERR_INVALID_ARGUMENT, cs)
  else match requested r with
  | Ok call => forward_encoded messages handle id (λ m s, forward_segments m s call) cs
  | _ => (Err ERR_INVALID_ARGUMENT, cs)
  end.
Proof.
  destruct r; cbn [run_forward requested];
    unfold ct_forward_publish_event_wide, forward_call_invocation_impl, ct_forward_result_from_yield_wide,
      ct_forward_result_from_call_wide, ct_forward_error_from_error_wide; destruct (handle <=? 0); try done.
  - by destruct (read_optional_str topic).
  - destruct (read_optional_str procedure); try done. cbn [mbind outcome_bind].
    destruct (read_optional_str caller_authid); try done. cbn [mbind outcome_bind].
    by destruct (read_optional_str caller_authrole).
Qed.

Lemma connection_serializer_error id (cs : Connections) e : connection_serializer id cs = Err e →
  e = ConnectionNotFound id ∨ ∃ p, e = UnsupportedProtocol id p.
Proof.
  unfold connection_serializer, get_connection. destruct (cs !! id) as [x|]; cbn [ok_or mbind outcome_bind]; [|intros [= <-]; auto].
  unfold unsupported. destruct (record x); try discriminate; intros [= <-]; eauto.
Qed.
End runs.

(** ** Property *)

(** C18: a forwarding function does what the query announced: for a stored
    message and a call that answers its kind, to a connection with a negotiated
    serializer, the query says 1 exactly when the encoding can carry the
    payload and 0 otherwise, and the function answers ERR_UNSUPPORTED exactly
    where the query says 0.  On success one frame, of the segments encoded for
    the connection's serializer, is queued behind those the connection has yet
    to write, and no other connection is touched; on every error the
    connections are as they were. *)
Theorem ct_forward_exact `{SL : !SerdeLib} `{RL : !RmpLib} `{FB : !FlatBufferLib}
    {WsHandshake H2Handshake H3Handshake H3Connection H3Stream Request Config : Type}
    messages handle id r (cs : gmap Z (@ConnectionEntry WsHandshake H2Handshake H3Handshake H3Connection H3Stream Request Config))
    m p metadata s call :
  0 < handle → 0 < id → retain_allocation messages handle = Some m →
  forwardable (message m) = Some (p, metadata) → payload_octets p → serializer m ≠ Ubjson →
  connection_serializer id cs = Ok s → requested r = Ok call → answers (message m) call →
  let '(result, cs') := run_forward messages handle id r cs in
  let query := ct_message_can_forward_to_connection_v1_wide messages handle id cs in
  (carries m s p metadata ∧ query = Ok 1 ∧ result ≠ Err ERR_UNSUPPORTED ∨
   ¬ carries m s p metadata ∧ query = Ok 0 ∧ result = Err ERR_UNSUPPORTED) ∧
  (result = Ok tt → ∃ segs e e' frames, forward_segments m s call = Ok segs ∧ cs !! id = Some e ∧
     cs' = <[id := e']> cs ∧ frames_of e = Some frames ∧ frames_of e' = Some (frames ++ [message_segments segs])) ∧
  (result ≠ Ok tt → cs' = cs).
Proof.
  intros Hh Hid Hm Hf Hok Hu Hs Hr Ha. rewrite run_forward_eq, (proj2 (Z.leb_gt _ _)) by lia.
  rewrite Hr. unfold forward_encoded, ct_message_can_forward_to_connection_v1_wide, forwarding_serializer_for_connection.
  rewrite !(proj2 (Z.leb_gt _ _)) by lia. rewrite Hm, Hs. cbn [orb ok_or mbind outcome_bind map_registry_error].
  assert (carries m s p metadata ∧ reusable_forwarding_serializer m s = Ok s ∧ forward_segments m s call ≠ Err ERR_UNSUPPORTED ∨
    ¬ carries m s p metadata ∧ reusable_forwarding_serializer m s = Err ERR_UNSUPPORTED) as Hcases.
  { destruct (decide (s ∈ [Json; MessagePack; Cbor; Flatbuffers])) as [Hin|Hin].
    - destruct (reusable_exact m s p metadata Hok Hf Hin) as [[Hc Hre]|[Hc Hre]]; [left|by right]. split; [done|]. split; [done|].
      destruct (forwarding_payload_exact m s p metadata Hok Hf Hin) as [[_ [p' Hp']]|[Hno _]]; [|done].
      destruct (carried_invalid m s p p' metadata call Hf Ha Hin Hp') as [Hinv _]. intros E. by specialize (Hinv _ E).
    - right. split; [by intros [? _]|]. unfold reusable_forwarding_serializer. rewrite Hf.
      rewrite !elem_of_cons, elem_of_nil in Hin.
      rewrite bool_decide_eq_false_2 by (intros <-; apply Hin; destruct (serializer m); naive_solver).
      rewrite (not_true_is_false (is_binary_forwarding_serializer s)) by (destruct s; naive_solver). cbn [andb].
      rewrite bool_decide_eq_false_2; [done|]. rewrite !elem_of_cons, elem_of_nil. naive_solver. }
  destruct Hcases as [(Hc & Hre & Hseg)|[Hc Hre]]; rewrite Hre; cbn [mbind outcome_bind]; [|split_and!; [right; by split_and!|done|done]].
  destruct (forward_segments m s call) as [segs|code| |] eqn:Es; [|split_and!; [left; split_and!; [done|done|congruence]|done|done]..].
  pose proof (enqueue_frame_exact id (message_segments segs) cs) as Hsend. unfold send_wamp_segments. destruct (enqueue_frame id (message_segments segs) cs) as [res cs'].
  destruct Hsend as [[-> (e & e' & frames & He & -> & Hfr & Hfr')]|[(err & -> & Herr) ->]].
  - split_and!; [left; by split_and!| |done]. intros _. exists segs, e, e', frames. by split_and!.
  - destruct (queue_error_code _ _ Herr) as (code & Hcode & Hne). cbn [map_registry_error]. rewrite Hcode.
    split_and!; [left; split_and!; [done|done|congruence]|done|done].
Qed.

Definition demo_forward_messages : Messages ParsedMessage := snd (insert_message fresh_messages demo_forward_publish).
Definition demo_forward_table : gmap Z (@ConnectionEntry unit unit unit unit unit Z unit) :=
  {[ 2 := rawsocket_entry 1 () false Json 9 (mkSendChannel [] 4 true) ]}.

Lemma ct_forward_exact_witness :
  ct_message_can_forward_to_connection_v1_wide demo_forward_messages FIRST_WIDE_HANDLE 2 demo_forward_table = Ok 0 ∧
  fst (@run_forward ForwardSerde DemoRmp demo_builder _ _ _ _ _ _ _ demo_forward_messages FIRST_WIDE_HANDLE 2
         (RequestEvent 5 9 0 0 None) demo_forward_table) = Err ERR_UNSUPPORTED.
Proof.
  assert (payload_octets demo_forward_payload) as Hok.
  { intros b [[= <-]|?]; [|done]. by apply (bool_decide_unpack (Forall _ _)). }
  pose proof (@ct_forward_exact ForwardSerde DemoRmp demo_builder _ _ _ _ _ _ _ demo_forward_messages FIRST_WIDE_HANDLE 2
    (RequestEvent 5 9 0 0 None) demo_forward_table demo_forward_publish demo_forward_payload demo_ppt Json
    (ForwardEvent 5 9 None None) ltac:(done) ltac:(done) ltac:(vm_compute; reflexivity) ltac:(reflexivity) Hok ltac:(discriminate)
    ltac:(vm_compute; reflexivity) ltac:(reflexivity) I) as H.
  destruct (run_forward demo_forward_messages FIRST_WIDE_HANDLE 2 (RequestEvent 5 9 0 0 None) demo_forward_table) as [result cs'] eqn:E.
  destruct H as [[(_ & Hq & _)|(_ & Hq & Hr)] _]; [|by split].
  vm_compute in Hq. discriminate.
Defined.
