(* ===== verification/NativeFrames.v ===== *)
(** * Native frames

    [ct_ffi/src/runtime/native_frames.rs]: frames of several retained buffers
    behind handles, composed of a FlatBuffers envelope and its payload or given
    as they are, and sent on a connection without being joined. *)
From stdpp Require Import gmap.
From S2P Require Import Prelude Bytes WampTypes RawFrame DemoSerde FbEncoder WampParse FbWriter FbSegments OutboundFrame Handles OwnedBuffers Registry FfiErrors WriteReceipts.

Definition MAX_HANDLES : Z := 8192.
Definition MAX_OWNED_SEGMENTS : Z := 64.

(** Segments, and the buffers that are kept for them. *)
Record Frame : Type := mkFrame {
  frame_control : Frozen;
  application_owners : list Frozen;
  frame_segments : list (list Z);
  frame_length : Z;
}.

Definition FrameStore : Type := Quota Frame.

(** [Frame::submission]: the octets stay, one segment that has some holds the
    frame. *)
Definition submission (f : Frame) : outcome Z (list (list Z)) :=
  if forallb (λ part, bool_decide (part = [])) (frame_segments f) then Panic else Ok (frame_segments f).

Definition frame_insert (s : FrameStore) (f : Frame) : outcome Z Z * FrameStore :=
  let '(r, s) := quota_insert ERR_HANDLE_UNAVAILABLE s f in (map_err error_code r, s).

Definition frame_get (s : FrameStore) (handle : Z) : outcome Z Frame :=
  if handle <=? 0 then Err (error_code ERR_INVALID_ARGUMENT)
  else ok_or (error_code ERR_INVALID_ARGUMENT) (table_get (quota_table s) handle).

Definition frame_take (handle : Z) (s : FrameStore) : outcome Z Frame * FrameStore :=
  if handle <=? 0 then (Err (error_code ERR_INVALID_ARGUMENT), s)
  else match table_get (quota_table s) handle with
  | Some f => (Ok f, quota_remove s handle)
  | None => (Err (error_code ERR_INVALID_ARGUMENT), s)
  end.

Definition optional_buffer (buffers : BufferStore) (handle : Z) : outcome Z (option Frozen) :=
  if handle =? 0 then Ok None else Some <$> borrow_frozen handle buffers.

(** The sum of some lengths, in a [usize]. *)
Definition segments_length (segs : list (list Z)) : option Z := checked_sum 0 segs.

Section composing.
Context `{SL : !SerdeLib} `{FB : !FlatBufferLib}.

(** [identity]: whether the caller speaks of this library's buffers. *)
Definition compose (identity : bool) (control args kwargs opaque : Z) (buffers : BufferStore) : outcome Z Frame :=
  if negb identity then Err (error_code ERR_INVALID_ARGUMENT)
  else
    control ← borrow_frozen control buffers;
    args ← optional_buffer buffers args;
    kwargs ← optional_buffer buffers kwargs;
    opaque ← optional_buffer buffers opaque;
    let payload := mkPayload (frozen_bytes <$> args) (frozen_bytes <$> kwargs) (frozen_bytes <$> opaque) in
    segments ← map_err (λ _, error_code ERR_INVALID_ARGUMENT) (compose_segments (frozen_bytes control) payload);
    length ← ok_or (error_code ERR_INVALID_ARGUMENT) (segments_length segments);
    Ok (mkFrame control (omap id [args; kwargs; opaque]) segments length).

Definition ct_native_frame_compose (identity : bool) (control args kwargs opaque : Z) (buffers : BufferStore) (s : FrameStore) :
    outcome Z Z * FrameStore :=
  match compose identity control args kwargs opaque buffers with
  | Ok f => frame_insert s f
  | Err code => (Err code, s)
  | Panic => (Panic, s)
  | NoFuel => (NoFuel, s)
  end.
End composing.

Definition ct_native_frame_retain (handle : Z) (s : FrameStore) : outcome Z Z * FrameStore :=
  match frame_get s handle with
  | Ok f => frame_insert s f
  | Err code => (Err code, s)
  | Panic => (Panic, s)
  | NoFuel => (NoFuel, s)
  end.

Definition ct_native_frame_release (handle : Z) (s : FrameStore) : outcome Z Z * FrameStore :=
  let '(r, s) := frame_take handle s in ((λ _, SUCCESS) <$> r, s).

Definition ct_native_frame_finalizer (token : Z) (s : FrameStore) : FrameStore :=
  if (0 <? token) && (token <=? I32_MAX) then snd (frame_take token s) else s.

(** The length and the number of segments. *)
Definition ct_native_frame_info (handle : Z) (s : FrameStore) : outcome Z (Z * Z) :=
  f ← frame_get s handle; Ok (frame_length f, zlen (frame_segments f)).

Definition ct_native_frame_control (handle : Z) (s : FrameStore) (buffers : BufferStore) : outcome Z Z * BufferStore :=
  match frame_get s handle with
  | Ok f => retain_frozen_buffer (frame_control f) buffers
  | Err code => (Err code, buffers)
  | Panic => (Panic, buffers)
  | NoFuel => (NoFuel, buffers)
  end.

(** [handles.iter().map(borrow_frozen).collect()] *)
Definition compose_owned_segments (identity : bool) (handles : list Z) (buffers : BufferStore) : outcome Z Frame :=
  if negb identity || bool_decide (handles = []) || (MAX_OWNED_SEGMENTS <? zlen handles)
  then Err (error_code ERR_INVALID_ARGUMENT)
  else
    owners ← traverse_list (λ handle, borrow_frozen handle buffers) handles;
    let segments := frozen_bytes <$> owners in
    length ← ok_or (error_code ERR_INVALID_ARGUMENT)
      (length ← segments_length segments; if 0 <? length then Some length else None);
    match owners with
    | control :: owners => Ok (mkFrame control owners segments length)
    | [] => Panic
    end.

Section sending.
Context {WsHandshake H2Handshake H3Handshake H3Connection H3Stream Request Config : Type}.
#[local] Notation Outbox := (@Outbox WsHandshake H2Handshake H3Handshake H3Connection H3Stream Request Config).

(** Both ways to queue a frame's segments. *)
Definition send_frame (connection : Z) (f : Frame) (with_receipt : bool) (o : Outbox) : outcome Z Z * Outbox :=
  match submission f with
  | Ok segs =>
      if with_receipt then
        let '(r, o) := submit_tracked (send_wamp_segments_tracked connection segs) o in (map_err error_code r, o)
      else
        let '(r, cs) := enqueue_frame connection (message_segments segs) (ob_connections o) in
        (match r with
         | Ok _ => Ok SUCCESS
         | Err e => match map_error (InRegistry e) with Some code => Err (error_code code) | None => Panic end
         | Panic => Panic
         | NoFuel => NoFuel
         end, mkOutbox (ob_receipts o) (ob_channels o) cs)
  | Err code => (Err code, o)
  | Panic => (Panic, o)
  | NoFuel => (NoFuel, o)
  end.

(** [submit] *)
Definition submit_frame (connection handle : Z) (with_receipt : bool) (s : FrameStore) (o : Outbox) :
    outcome Z Z * FrameStore * Outbox :=
  match frame_take handle s with
  | (Ok f, s) =>
      if connection <=? 0 then (Err (error_code ERR_INVALID_ARGUMENT), s, o)
      else
        match connection_serializer connection (ob_connections o) with
        | Ok Flatbuffers => let '(r, o) := send_frame connection f with_receipt o in (r, s, o)
        | Ok _ => (Err (error_code ERR_UNSUPPORTED_SERIALIZER), s, o)
        | Err e => (match map_error (InRegistry e) with Some code => Err (error_code code) | None => Panic end, s, o)
        | Panic => (Panic, s, o)
        | NoFuel => (NoFuel, s, o)
        end
  | (Err code, s) => (Err code, s, o)
  | (Panic, s) => (Panic, s, o)
  | (NoFuel, s) => (NoFuel, s, o)
  end.

Definition ct_native_frame_send (connection frame : Z) := submit_frame connection frame false.
Definition ct_native_frame_send_tracked (connection frame : Z) := submit_frame connection frame true.

(** [handles]: the array of the caller, [None] for a null pointer. *)
Definition submit_owned_segments (identity : bool) (connection : Z) (handles : option (list Z)) (with_receipt : bool)
    (buffers : BufferStore) (o : Outbox) : outcome Z Z * Outbox :=
  match handles with
  | Some handles =>
      if negb identity || (connection <=? 0) || (zlen handles =? 0) || (MAX_OWNED_SEGMENTS <? zlen handles)
      then (Err (error_code ERR_INVALID_ARGUMENT), o)
      else
        match compose_owned_segments identity handles buffers with
        | Ok f => send_frame connection f with_receipt o
        | Err code => (Err code, o)
        | Panic => (Panic, o)
        | NoFuel => (NoFuel, o)
        end
  | None => (Err (error_code ERR_INVALID_ARGUMENT), o)
  end.
End sending.

(** ** Frames are not empty *)

(** A finished buffer holds at least its root's offset. *)
Class FinishedNonEmpty (FB : FlatBufferLib) : Prop := {
  finished_nonempty root b : (collapse (finish root b)).2 < zlen (collapse (finish root b)).1;
}.

Definition frame_ok (f : Frame) : Prop :=
  frame_length f = zlen (concat (frame_segments f)) ∧ 0 < frame_length f.

Lemma segments_length_Some segs n : segments_length segs = Some n → n = zlen (concat segs).
Proof. intros H. apply checked_sum_Some in H as ->. rewrite sum_len_concat. lia. Qed.

Lemma submission_ok f : frame_ok f → submission f = Ok (frame_segments f).
Proof.
  intros [Hl Hp]. unfold submission. rewrite (not_true_is_false (forallb _ _)); [done|]. intros H.
  assert (concat (frame_segments f) = []) as E.
  { revert H. clear. induction (frame_segments f) as [|part parts IH]; [done|]. cbn.
    intros [->%bool_decide_eq_true H]%andb_true_iff. by apply IH. }
  rewrite Hl, E in Hp. by change (zlen []) with 0 in Hp.
Qed.

Section composed.
Context `{SL : !SerdeLib} `{FB : !FlatBufferLib} `{FN : !FinishedNonEmpty FB}.

Lemma empty_control_refused m : parse_message Flatbuffers [] ≠ Ok m.
Proof. done. Qed.

Lemma patch_vectors_size start vs : ∀ p p', 0 ≤ p_length p → patch_vectors start p vs = Ok p' →
  zlen (p_allocation p') = zlen (p_allocation p).
Proof.
  induction vs as [|v vs IH]; intros p p' Hl H; cbn [patch_vectors] in H; [by injection H as <-|].
  apply bind_Ok_inv in H as (p1 & H1 & H). destruct (patch_vector_patched start p v p1 Hl H1) as (f & t & Hp).
  rewrite (IH p1 p' ltac:(destruct Hp as [_ [_ ?] [? _] _ [-> _] _ _ _ _]; zlen_facts; lia) H). by destruct Hp.
Qed.

Lemma encode_segments_nonempty m segs : encode_segments m = Ok segs → concat segs ≠ [].
Proof.
  intros H. unfold encode_segments, fb_write_segments in H. apply bind_Ok_inv in H as (fields & _ & H).
  apply bind_Ok_inv in H as ([root writer] & _ & H). pose proof (finished_nonempty root (fw_builder writer)) as Hne.
  pose proof (collapse_start (finish root (fw_builder writer))) as Hc.
  destruct (collapse (finish root (fw_builder writer))) as [allocation start]. cbn [fst snd] in *.
  unfold segments_of in H. rewrite (proj2 (Z.ltb_ge _ _)) in H by lia. apply bind_Ok_inv in H as (p & Hp & H).
  apply patch_vectors_size in Hp; [|cbn; lia]. cbn [p_allocation] in Hp.
  destruct (_ <? _); [done|]. injection H as <-. cbn [concat]. intros E%(f_equal zlen).
  rewrite zlen_app, zlen_sub_bytes in E by lia. zlen_facts. change (zlen []) with 0 in E. lia.
Qed.

(** What [compose] makes is a frame of its control message and payload. *)
Lemma compose_ok identity c a k o buffers f : compose identity c a k o buffers = Ok f → frame_ok f.
Proof.
  intros H. unfold compose in H. destruct (negb identity); [done|].
  apply bind_Ok_inv in H as (control & _ & H). apply bind_Ok_inv in H as (args & _ & H).
  apply bind_Ok_inv in H as (kwargs & _ & H). apply bind_Ok_inv in H as (opaque & _ & H). cbv zeta in H.
  apply bind_Ok_inv in H as (segs & Hs%map_err_Ok_inv & H). apply bind_Ok_inv in H as (n & Hn%ok_or_Ok_inv%segments_length_Some & H).
  injection H as <-. assert (concat segs ≠ []) as Hne.
  { unfold compose_segments in Hs. apply bind_Ok_inv in Hs as (m & Hm & Hs). apply bind_Ok_inv in Hs as ([] & _ & Hs).
    destruct (negb _); [|by eapply encode_segments_nonempty]. injection Hs as <-. cbn. rewrite app_nil_r. intros E.
    rewrite E in Hm. by apply empty_control_refused in Hm. }
  split; [done|]. cbn [frame_length]. rewrite Hn. zlen_facts. destruct (decide (zlen (concat segs) = 0)) as [E|]; [|lia].
  by apply zlen_0_nil in E.
Qed.
End composed.

Lemma compose_owned_ok identity handles buffers f : compose_owned_segments identity handles buffers = Ok f →
  frame_ok f ∧ ∃ owners, traverse_list (λ handle, borrow_frozen handle buffers) handles = Ok owners ∧
    frame_segments f = frozen_bytes <$> owners.
Proof.
  intros H. unfold compose_owned_segments in H. destruct (_ || _); [done|].
  apply bind_Ok_inv in H as (owners & Ho & H). cbv zeta in H. apply bind_Ok_inv in H as (n & Hn%ok_or_Ok_inv & H).
  apply bind_Some in Hn as (n' & Hn'%segments_length_Some & Hn). destruct (Z.ltb_spec 0 n'); [|done]. injection Hn as <-.
  destruct owners as [|control owners]; [done|]. injection H as <-. split; [by split|]. by exists (control :: owners).
Qed.

(** ** Reachable stores *)
Inductive frames_reachable `{SL : !SerdeLib} `{FB : !FlatBufferLib} : FrameStore → Prop :=
  | FramesNew : frames_reachable (quota_new MAX_HANDLES)
  | FramesCompose s identity c a k o buffers : frames_reachable s →
      frames_reachable (snd (ct_native_frame_compose identity c a k o buffers s))
  | FramesRetain s handle : frames_reachable s → frames_reachable (snd (ct_native_frame_retain handle s))
  | FramesTake s handle : frames_reachable s → frames_reachable (snd (frame_take handle s)).

Record frames_ok (s : FrameStore) : Prop := {
  frames_nonempty : map_Forall (λ _, frame_ok) (entries (quota_table s));
  frames_next : 0 ≤ next_id (quota_table s);
}.

Lemma quota_insert_next {T} full (s : Quota T) x : 0 ≤ next_id (quota_table s) →
  0 ≤ next_id (quota_table (snd (quota_insert full s x))).
Proof.
  intros Hn. unfold quota_insert, claim_quota, insert_resource, advance_resource.
  repeat (case_match; simplify_eq/=); lia.
Qed.

Lemma frame_insert_ok s f : frames_ok s → frame_ok f → frames_ok (snd (frame_insert s f)).
Proof.
  intros [Hf Hn] Hok. unfold frame_insert.
  pose proof (quota_insert_exact ERR_HANDLE_UNAVAILABLE s f Hn) as Hq.
  pose proof (quota_insert_next ERR_HANDLE_UNAVAILABLE s f Hn) as Hnext.
  destruct (quota_insert _ s f) as [r s']. cbn [snd] in *.
  destruct Hq as [(handle & _ & _ & _ & He & _)|(_ & He & _)]; (split; [rewrite He|done]); [by apply map_Forall_insert_2|done].
Qed.

Lemma frame_take_ok handle s : frames_ok s → frames_ok (snd (frame_take handle s)).
Proof.
  intros [Hf Hn]. unfold frame_take. repeat case_match; try by split. split; [|done]. cbn. by apply map_Forall_delete.
Qed.

Lemma reachable_frames_ok `{SL : !SerdeLib} `{FB : !FlatBufferLib} `{FN : !FinishedNonEmpty FB} s :
  frames_reachable s → frames_ok s.
Proof.
  induction 1 as [|s identity c a k o buffers _ IH|s handle _ IH|s handle _ IH].
  - by split; [apply map_Forall_empty|].
  - unfold ct_native_frame_compose. destruct (compose _ _ _ _ _ _) as [f| | |] eqn:E; try done.
    apply frame_insert_ok; [done|]. by eapply compose_ok.
  - unfold ct_native_frame_retain, frame_get. destruct (handle <=? 0); [done|].
    destruct (table_get (quota_table s) handle) as [f|] eqn:E; [|done]. cbn [ok_or].
    apply frame_insert_ok; [done|]. by apply (frames_nonempty s IH handle).
  - by apply frame_take_ok.
Qed.

Section sends.
Context {WsHandshake H2Handshake H3Handshake H3Connection H3Stream Request Config : Type}.
#[local] Notation Outbox := (@Outbox WsHandshake H2Handshake H3Handshake H3Connection H3Stream Request Config).

(** One queued frame carries the segments [segs]. *)
Definition sent_segments (connection : Z) (segs : list (list Z)) (with_receipt : bool) (n : Z) (o o' : Outbox) : Prop :=
  if with_receipt then sent_tracked connection (message_segments segs) n o o'
  else n = SUCCESS ∧ queued connection (message_segments segs) (ob_connections o) (ob_connections o') ∧
    ob_receipts o' = ob_receipts o.

Lemma send_frame_exact connection f with_receipt (o : Outbox) : frame_ok f → outbox_ok o →
  let '(r, o') := send_frame connection f with_receipt o in
  (∃ n, r = Ok n ∧ sent_segments connection (frame_segments f) with_receipt n o o') ∨ (∃ code, r = Err code) ∧ unsent o o'.
Proof.
  intros Hf Ho. unfold send_frame, sent_segments. rewrite submission_ok by done. destruct with_receipt.
  - pose proof (submit_tracked_exact connection (message_segments (frame_segments f)) o Ho) as H. unfold send_wamp_segments_tracked.
    destruct (submit_tracked _ o) as [r o']. destruct H as [(n & -> & H)|[[code ->] H]]; [left|right].
    + by exists n.
    + split; [by eexists|done].
  - pose proof (enqueue_frame_exact connection (message_segments (frame_segments f)) (ob_connections o)) as H.
    destruct (enqueue_frame _ _ _) as [r cs]. destruct H as [[-> H]|[(e & -> & He) ->]]; [left|right].
    + by exists SUCCESS.
    + destruct (queue_error_code _ _ He) as (code & -> & _). split; [by eexists|]. by split_and!.
Qed.
End sends.

(** ** Properties *)

(** C10: a native frame is sent once and whole: in every store that composing,
    retaining, releasing and sending can reach, a send of a live handle voids
    that handle on every path and no other; it never panics.  On success one
    frame, with exactly the segments that were composed, is queued behind those
    the connection, of the FlatBuffers serializer, has yet to write, and the
    tracked send answers with a fresh receipt that is pending; on every error
    the connections are as they were, and no receipt and no place of their
    quota is lost. *)
Theorem native_frame_send_exact `{SL : !SerdeLib} `{FB : !FlatBufferLib} `{FN : !FinishedNonEmpty FB}
    {WsHandshake H2Handshake H3Handshake H3Connection H3Stream Request Config : Type}
    (s : FrameStore) (o : @Outbox WsHandshake H2Handshake H3Handshake H3Connection H3Stream Request Config)
    connection handle f with_receipt :
  frames_reachable s → outbox_ok o → 0 < handle → table_get (quota_table s) handle = Some f →
  let '(r, s', o') := submit_frame connection handle with_receipt s o in
  (table_get (quota_table s') handle = None ∧
   ∀ other, other ≠ handle → table_get (quota_table s') other = table_get (quota_table s) other) ∧
  ((∃ n, r = Ok n ∧ connection_serializer connection (ob_connections o) = Ok Flatbuffers ∧
      sent_segments connection (frame_segments f) with_receipt n o o') ∨
   (∃ code, r = Err code) ∧ unsent o o').
Proof.
  intros Hs Ho Hh Hf. apply reachable_frames_ok in Hs as [Hok _]. specialize (Hok handle f Hf). cbn in Hok.
  unfold submit_frame, frame_take. rewrite (proj2 (Z.leb_gt _ _)), Hf by done.
  assert (table_get (quota_table (quota_remove s handle)) handle = None ∧
    ∀ other, other ≠ handle → table_get (quota_table (quota_remove s handle)) other = table_get (quota_table s) other) as Hvoid.
  { unfold table_get. cbn. split; [by rewrite lookup_delete_eq|]. intros other Hne. by rewrite lookup_delete_ne. }
  assert (∀ code : Z, (∃ n, Err (E := Z) (A := Z) code = Ok n ∧ connection_serializer connection (ob_connections o) = Ok Flatbuffers ∧
      sent_segments connection (frame_segments f) with_receipt n o o) ∨ (∃ code', Err (E := Z) (A := Z) code = Err code') ∧ unsent o o) as Herr
    by (intros code; right; split; [by eexists|by split_and!]).
  destruct (connection <=? 0); [by split|].
  destruct (connection_serializer connection (ob_connections o)) as [ser|e| |] eqn:Eser.
  - destruct ser; try (by split).
    pose proof (send_frame_exact connection f with_receipt o Hok Ho) as H. destruct (send_frame _ _ _ _) as [r o'].
    split; [done|]. destruct H as [(n & -> & H)|[[code ->] H]]; [left; by exists n|right; split; [by eexists|done]].
  - assert (∃ code, map_error (InRegistry e) = Some code) as [code ->].
    { unfold connection_serializer, get_connection in Eser. destruct (ob_connections o !! connection) as [x|]; cbn in Eser;
        [|injection Eser as <-; by eexists]. unfold unsupported in Eser. destruct (record x); try discriminate; injection Eser as <-; by eexists. }
    by split.
  - exfalso. unfold connection_serializer, get_connection, unsupported in Eser. destruct (ob_connections o !! connection) as [x|]; [|done].
    cbn in Eser. by destruct (record x).
  - exfalso. unfold connection_serializer, get_connection, unsupported in Eser. destruct (ob_connections o !! connection) as [x|]; [|done].
    cbn in Eser. by destruct (record x).
Qed.

Lemma borrow_frozen_returns handle buffers : returns (borrow_frozen handle buffers).
Proof. unfold borrow_frozen, buffer_frozen. by repeat case_match. Qed.

Lemma traverse_list_length {E A B} (f : A → outcome E B) l bs : traverse_list f l = Ok bs → length bs = length l.
Proof.
  revert bs. induction l as [|a l IH]; intros bs H; cbn [traverse_list] in H; [by injection H as <-|].
  apply bind_Ok_inv in H as (b & _ & H). apply bind_Ok_inv in H as (bs' & Hbs & H). injection H as <-. cbn. by rewrite (IH bs').
Qed.

Lemma compose_owned_returns identity handles buffers : returns (compose_owned_segments identity handles buffers).
Proof.
  unfold compose_owned_segments. destruct (negb identity || bool_decide (handles = []) || _) eqn:Eg; [done|].
  apply orb_false_iff in Eg as [[_ El%bool_decide_eq_false]%orb_false_iff _].
  apply returns_bind; [apply returns_traverse_list, Forall_forall; intros handle _; apply borrow_frozen_returns|].
  intros owners Ho%traverse_list_length. apply returns_bind; [apply returns_ok_or|]. intros n _.
  destruct owners; [by destruct handles|done].
Qed.

(** Buffers sent as they are: their octets, in order, or an error and nothing
    changed; a frame without octets is refused, not sent. *)
Lemma submit_owned_segments_exact
    {WsHandshake H2Handshake H3Handshake H3Connection H3Stream Request Config : Type}
    identity connection handles with_receipt buffers
    (o : @Outbox WsHandshake H2Handshake H3Handshake H3Connection H3Stream Request Config) :
  outbox_ok o →
  let '(r, o') := submit_owned_segments identity connection handles with_receipt buffers o in
  (∃ n l owners, r = Ok n ∧ handles = Some l ∧ traverse_list (λ handle, borrow_frozen handle buffers) l = Ok owners ∧
      concat (frozen_bytes <$> owners) ≠ [] ∧ sent_segments connection (frozen_bytes <$> owners) with_receipt n o o') ∨
  (∃ code, r = Err code) ∧ unsent o o'.
Proof.
  intros Ho. unfold submit_owned_segments.
  assert (∀ code : Z, (∃ n l owners, Err (E := Z) (A := Z) code = Ok n ∧ handles = Some l ∧
      traverse_list (λ handle, borrow_frozen handle buffers) l = Ok owners ∧
      concat (frozen_bytes <$> owners) ≠ [] ∧ sent_segments connection (frozen_bytes <$> owners) with_receipt n o o) ∨
    (∃ code', Err (E := Z) (A := Z) code = Err code') ∧ unsent o o) as Herr
    by (intros code; right; split; [by eexists|by split_and!]).
  destruct handles as [l|]; [|done]. destruct (_ || _ || _ || _); [done|].
  pose proof (compose_owned_returns identity l buffers) as Hret.
  destruct (compose_owned_segments identity l buffers) as [f| | |] eqn:E; [|done..].
  apply compose_owned_ok in E as (Hok & owners & Ht & Hsegs).
  pose proof (send_frame_exact connection f with_receipt o Hok Ho) as H. destruct (send_frame _ _ _ _) as [r o'].
  destruct H as [(n & -> & H)|[[code ->] H]]; [left|right; split; [by eexists|done]].
  exists n, l, owners. rewrite Hsegs in *. split_and!; try done. intros E. destruct Hok as [Hl Hpos].
  rewrite Hsegs, E in Hl. rewrite Hl in Hpos. done.
Qed.

(** ** A frame to evaluate examples with *)
#[global] Instance demo_finished : FinishedNonEmpty demo_builder.
Proof.
  split. intros root b. cbn [collapse finish demo_builder fst snd db_buffer]. unfold demo_reference. rewrite zlen_app.
  zlen_facts. assert (∀ v, zlen (demo_le 4 v) = 4) as -> by (intros v; done). lia.
Qed.

Definition demo_control : list Z :=
  match encode (FB := demo_builder) (SL := DemoSerde) (Yield 7 [] (mkPayload None None None)) with Ok bytes => bytes | _ => [] end.

Definition demo_frozen (bytes : list Z) : Frozen := mkFrozen (mkAllocation 4096 (zlen bytes) bytes) (zlen bytes) 0 (zlen bytes).
Definition demo_frame_buffers : BufferStore :=
  mkTable 3 {[ 1 := FrozenStorage (demo_frozen demo_control); 2 := FrozenStorage (demo_frozen [0x81; 1]) ]}.

Definition demo_frames : FrameStore :=
  snd (ct_native_frame_compose (SL := DemoSerde) (FB := demo_builder) true 1 2 0 0 demo_frame_buffers (quota_new MAX_HANDLES)).

Definition demo_outbox : @Outbox unit unit unit unit unit Z unit :=
  mkOutbox (quota_new MAX_RECEIPTS) (mkReceipts 0 ∅) {[ 3 := rawsocket_entry 1 () false Flatbuffers 9 (mkSendChannel [] 4 true) ]}.

Lemma native_frame_send_exact_witness :
  ∃ s' o', submit_frame 3 1 true demo_frames demo_outbox = (Ok 1, s', o') ∧ table_get (quota_table s') 1 = None ∧
    ct_write_receipt_state 1 o' = Ok 0.
Proof.
  destruct (table_get (quota_table demo_frames) 1) as [f|] eqn:Ef; [|vm_compute in Ef; discriminate Ef].
  pose proof (native_frame_send_exact (SL := DemoSerde) (FB := demo_builder) demo_frames demo_outbox 3 1 f true
    (FramesCompose (SL := DemoSerde) (FB := demo_builder) _ true 1 2 0 0 demo_frame_buffers FramesNew)
    ltac:(vm_compute; discriminate) ltac:(reflexivity) Ef) as H.
  assert ((submit_frame 3 1 true demo_frames demo_outbox).1.1 = Ok 1) as Hr by (vm_compute; reflexivity).
  destruct (submit_frame 3 1 true demo_frames demo_outbox) as [[r s'] o']. cbn [fst] in Hr. subst r.
  destruct H as [[Hvoid _] [(n & [= <-] & _ & _ & _ & Hp & _)|[[code Hc] _]]]; [|discriminate Hc].
  exists s', o'. by split_and!.
Defined.
